(* ===== verification/_CoqProject ===== *)
-Q . S2P
Prelude.v
Units.v
Suggest.v
Gid.v
Borrow.v
Syntax.v
Places.v
BorrowCx.v
BorrowFlow.v
BorrowTable.v
Wait.v
WaitSound.v
WaitLive.v
WaitCount.v
WaitDeadlock.v
Tasks.v
TasksSound.v
TasksCode.v
TasksLines.v
Memory.v
Arch.v
Routing.v
Dijkstra.v
Reach.v
Layout.v
Lexer.v
Format.v
FormatLex.v
FormatLocal.v
FormatFits.v
FormatPasses.v
FormatEmit.v
FormatStrip.v
FormatSound.v
Tarjan.v
Capacity.v
CapacitySound.v
Types.v
Program.v
Race.v
RaceSem.v
RaceForm.v
RaceLimits.v
RaceSound.v
RaceWalk.v
RaceFree.v
Smt.v
Prover.v
ProverSound.v
ProverGoal.v
Seam.v
SeamSound.v
SeamVerdict.v
SeamCheck.v
SeamHop.v
Bytecode.v
Registry.v
Toposort.v
RegistryMerge.v
RegistryIndex.v
Codec.v
CodecSound.v
CodecInterface.v
CodecSafe.v
CodecExport.v
CodecOpcode.v
