(* ===== verification/Prelude.v ===== *)
(** * A verification library for the Vx compiler and its runtime

    Vx is a systems language for machines with several processors and several
    memories.  Its compiler (crate [vx], [src/src/]) lexes and parses a module,
    checks it against a declared machine (topologies, memories and the transfer
    edges between them), lays its types out, emits code, and writes what other
    modules need to an interface artifact.  The runtime library
    ([src/stdlib/rust_core/]) runs the tasks of the program.  This library models
    the parts whose answers the rest trusts without a second check: which
    memories contain which, what a transfer costs and which route it takes, who
    may see a value, where a field lies, what a token is, what a quantity means,
    when two type identifiers stand for compatible types, which borrows are
    live, when the passes of a parallel loop may touch the same element, when a
    contract is proved, when a transfer may be read stale, what an imported name
    means, what an artifact says, that no wake-up of a waiting
    task is lost, and whom a cancel reaches.

    ** The parts and how they interact

    - [lexer.rs] turns text into tokens, and [formatter.rs] writes them back with
      fresh spaces; a byte quantity in a declaration is
      read by [units.rs]; an unknown name is answered with a suggestion of
      [suggest.rs].
    - [syntax/*.rs] is the shared data: types, topologies, memory spaces,
      placements, declarations, expressions and statements.
    - [hir/memory.rs] builds the [within:] forest of declared memories, checks
      its coherence laws and predicts transfer times along it; it also folds
      constant tensor shapes to byte sizes.
    - [arch.rs] holds the descriptor tables of the topologies and the transfer
      cost graph: edges come from descriptors, the price of a [Derived] edge
      from [hir/memory.rs], the route from a Dijkstra search, the all-pairs
      matrix from the search, and the verdicts [Visible], [NeedsSeam] and
      [Unreachable] from the descriptors and the search.
    - [hir/borrow_cx.rs] keeps the borrows of a function while it is checked:
      records on places ([hir/places.rs]) that die when their holder is not
      used any more.
    - [hir/check/across_proof.rs] decides whether the passes of an [across] loop
      may run at the same time.
    - [hir/prover.rs] proves contracts: it writes the facts that the checker
      keeps ([hir/stmt.rs], [hir/check/raw.rs]) and a negated goal as a script
      for [z3].  [hir/seam.rs] asks the same solver whether a transfer keeps what
      a consumer relies on; the hops of transfers ([hir/check/transfer.rs]) and
      the declared topologies ([hir/decl_check/topology.rs]) call it.
    - [hir/check/capacity_fold.rs] folds the working sets of the functions over
      the call graph and refuses call paths that exceed a memory's capacity.
    - [layout.rs] computes sizes, alignments and offsets of structs and enums.
    - [hash.rs], [gid.rs], [borrow.rs] and [session.rs] are the 256-bit type
      identifiers, and subtyping of lifetimes on their packed slots.
    - [registry.rs] holds the definitions of a module, freezes them and merges
      the interfaces of imported modules; [bytecode.rs] and [metadata.rs] write
      an interface and read it back.
    - [ffi/wait.rs] and [ffi/sched.rs] of the runtime are the wait queues and the
      scheduler of the tasks.  [ffi/tasks.rs] are the blocks of tasks, with
      their cancels and deadlines; [io.rs] keeps the line that a task prints.

    ** Files

    - [Prelude]: results, panics ([outcome]), machine-width arithmetic, decimal
      text, the tactics, hints and list lemmas the other files share.
    - [Units]: [units.rs].  [Suggest]: [suggest.rs].
    - [Gid]: Module [Hash] is [hash.rs], Module [Gid] is [gid.rs].
    - [Borrow]: [borrow.rs] and the lifetime lookup of [session.rs].
    - [Syntax]: the data of [syntax/types.rs], [syntax/expr.rs] and
      [syntax/decl.rs] that most files read, with the hand-written
      [PartialEq for Topology].  [Types]: equality of placements and types.
    - [Program]: expressions and statements with all constructors, their visits,
      positions and equality, and induction over them.
    - [Places]: [hir/places.rs].  [BorrowCx]: [hir/borrow_cx.rs] and the calls of
      the checker into it.  [BorrowFlow]: flows of control, against which the
      uses of a name are measured.  [BorrowTable]: the table of records.
    - [Memory]: [hir/memory.rs], every function.
    - [Arch]: the first half of [arch.rs]: tables, dispatch ids, address spaces,
      owners of spaces, and the placements of [syntax/types.rs].
    - [Routing]: the second half of [arch.rs]: [TransferCostGraph] with every
      operation that changes it, the search, the matrix, the verdicts.
    - [Dijkstra]: the correctness of the search of [Routing].
    - [Reach]: what the operations of [Routing] keep true, and the verdicts.
    - [Layout]: [layout.rs].
    - [Lexer]: [lexer.rs].
    - [Format]: [formatter.rs].  [FormatLex]: texts and their tokens.
      [FormatLocal]: a token before changed text.  [FormatFits]: sequences of
      tokens that their text gives back.  [FormatPasses], [FormatEmit],
      [FormatStrip]: what the passes, the writer and the stripping of line ends
      do to them.  [FormatSound]: the theorem and examples.
    - [Tarjan]: [tarjan_sccs] of [hir/check/capacity_fold.rs] over successor
      lists, with its correctness.
    - [Capacity]: the rest of [hir/check/capacity_fold.rs] and what it uses of
      [diagnostic.rs].  [CapacitySound]: the invariant of the fold.
    - [Race]: [hir/check/across_proof.rs] and the predicates it calls.
      [RaceSem]: what the passes of a loop touch.  [RaceForm]: affine forms and
      mixed-radix numbers.  [RaceLimits]: runs with different limits.
      [RaceSound]: forms and bounds of values.  [RaceWalk]: the walk records
      what a pass touches.  [RaceFree]: the theorems and examples.
    - [Smt]: the forms of SMT-LIB scripts, their text, their meaning, and the
      class [Z3] of solvers.
    - [Prover]: [hir/prover.rs], the goals of [hir/stmt.rs] and the facts of
      [hir/check/raw.rs].  [ProverSound]: what the script of a goal means.
      [ProverGoal]: the theorems and examples.
    - [Seam]: [hir/seam.rs].  [SeamSound]: obligations and the process that
      stays.  [SeamVerdict]: the verdicts.  [SeamCheck]: the calls of the checker
      into the engine.  [SeamHop]: what hops and topologies report.
    - [Bytecode]: the opcodes and instructions of [bytecode.rs].  [Registry]: the
      data and operations of [registry.rs].  [Toposort]: the order of the
      definitions at the freeze.  [RegistryMerge]: merges of imports.
      [RegistryIndex]: the name indices.
    - [Codec]: [metadata.rs].  [CodecSound], [CodecInterface]: the round trips.
      [CodecSafe]: the reader on any bytes.  [CodecExport]: what an export says.
      [CodecOpcode]: the opcodes that cannot be read back.
    - [Wait]: [ffi/wait.rs] and [ffi/sched.rs] as a step relation over threads
      and fibers.  [WaitSound]: no wake is lost.  [WaitLive]: wakes arrive.
      [WaitCount]: the counters.  [WaitDeadlock]: panics and the watcher.
    - [Tasks]: [ffi/tasks.rs], the locals of a fiber ([ffi/sched.rs]) and the
      lines of [io.rs].  [TasksSound]: cancels, and the locals of fibers.
      [TasksCode]: nested scopes.  [TasksLines]: what tasks print.

    ** What the theorems show

    - Routing.  For every priority queue that meets the contract of
      [BinaryHeap] (class [MinHeap]), the search ends, never unwraps a missing
      predecessor, returns a route of the graph with the weight it reports, and
      no admissible route has a smaller key; [transfer_path] prefers priced
      routes and answers [None] exactly when no chain of edges exists.  The
      matrix tabulates exactly these answers, the verdicts of [reachable] are
      characterised by accessibility and the graph, and widening visibility for
      on-chip memories changes nothing else.
    - Memory hierarchy.  The chain of ancestors is exactly the containment
      relation also on cyclic declarations, the common ancestor is the least
      one, the coherence check is sound and complete for its laws, the derived
      cost is the roofline formula over the route, and sharing is counted
      exactly.  Static sizes are exact below [i64::MAX].
    - Capacity.  The components of the call graph are exactly the classes of
      mutually reachable functions, callees first; the fold returns, every
      diagnostic it adds is true, and what it accepts fits its budgets along
      every chain of calls unless functions are mutually recursive, where a
      lemma shows an overflow that goes unreported.
    - Borrows.  The records that the context gives for a variable are exactly
      those whose holder may still be used on some flow of control; branches
      join, statements end and copies spread as the flow says; two lvalues that
      can overlap have paths that may alias.
    - Races.  A loop that the check accepts has no two passes that touch one
      element with one of them writing it, when arithmetic on values from
      outside the loop stays in its type and no match arm binds a name; the
      ends it reports for open loops are the largest it accepts.  Examples show
      that both conditions are needed.
    - Contracts.  What the prover accepts is true in every state in which the
      facts hold, when the solver tells the truth; the facts survive an
      assignment whose value mentions the variable only where the renaming
      looks.  A lemma shows that after [x = inc(x)] they contradict each other.
    - Seams.  A contract is rejected exactly when the transfer keeps its premise
      and not its conclusion, with one script or with the process that stays,
      whatever it was asked before; a relaxed hop into a memory that is not
      cached never goes unreported and no other hop is reported; the reports on
      declared topologies are exact.
    - Registry.  The freeze accepts exactly the definitions without collisions,
      dangling dependencies and infinite types; a merge resolves each name by
      consensus, whatever the order of the imports.
    - Interfaces.  What is written reads back, in any context; the reader ends on
      every buffer; a truncated artifact is refused; export is reproducible and
      its report complete; eight opcodes cannot be read back.
    - Layout.  Enum slots and struct fields are aligned, disjoint, inside the
      storage, and big enough; the memoised computation ends on every set of
      declarations, recursive ones included.
    - Lexer.  It ends on every text with [Eof]; with comments kept the tokens
      print back to the source unless [macro_rules!] or a stray quote occurs;
      every keyword is recognised and only itself.
    - Formatter.  The formatted text has the tokens of the source, comments
      included up to blanks at their ends, when the source has no [macro_rules],
      no blanks at the ends of lines in strings and no comment where a line break
      becomes a space.  Examples show that each condition is needed.
    - Waiting.  For every interleaving, whoever waits still has the value and no
      cancel, or a wake is on its way; under fair scheduling the wake arrives;
      the operations reach no panic; the watcher reports a deadlock exactly when
      nobody can go on.
    - Tasks.  A failure cancels exactly the tasks of its block and of the blocks
      inside; nested drops, calls of [within] and blocks give back the mark and
      the scopes they found; the swaps of the scheduler give each fiber locals
      of its own; the lines of tasks do not mix.
    - Units, suggestions, identifiers, subtyping: exactness of the conversions,
      the edit distance, round trips and frame properties of the packed words,
      and the order that the fast path decides.

    ** Conventions, bounds and fuel

    A w-bit integer is a [Z] with its range stated where it matters; [wrap_u],
    [sat_u] and [checked_u] are Rust's wrapping, saturating and checked
    operations.  Plain arithmetic panics on overflow, as in a build with overflow
    checks, and a computation that can panic is in [outcome].  A [HashMap] is a
    [gmap], a [HashSet] a [gset], a [BTreeMap] the list of its entries.

    Loops that are not structural run on fuel that a theorem shows to be enough:
    [1 + size] of the hierarchy for climbing parents ([climb_enough]), [2] plus
    the number of edges for the search and [1] plus the number of predecessors for
    rebuilding its path ([search_terminates]), [2] plus the number of declarations
    for the on-chip walk, [2] plus the number of structs for layouts, [1] plus the
    number of characters for [tokenize], the number of tokens for [process_blocks]
    ([process_blocks_keeps]), one iteration per node and edge for [tarjan]
    ([visit_root_enough]), [1] plus the number of functions for the walk of a
    reported path ([report_overflow_ok]), the number of bytes left for the reader
    of artifacts, [2] plus the number of records for [copy_borrows_through], and
    [64] halvings for the search of the most passes ([search_passes_exact]). Forty
    digits hold the powers of two of the prover, sixteen the values of a seam. The
    counters of wakes are exact for runs of fewer than [2 ^ 64] steps.

    Code outside the repository enters as a class with its documented laws:
    [MinHeap] ([BinaryHeap]), [Unicode] (the character tables), [Bytemuck] (the
    byte view of identifiers), [Resolver] (name resolution and instantiation in
    layouts), [HashOrder] (the order in which a hash map is visited), [Petgraph]
    (the graph library of the freeze), [ElemSizes] (the sizes of what the reader allocates), [Z3] (the solver: its
    answers are true, it answers each check once and prints as it reads).  Each
    has an instance at which the theorems are applied.

    ** What is not modelled

    Sorting by debug text, which only fixes the order of diagnostics; the texts
    of diagnostics; [nodes()]; the source locations of tokens beyond their byte
    positions; generated aggregates and identity tables of layouts; the file
    operations of [VxMetadata], the display of export reports, constant tables
    and semantic type keys of the registry; seeds, the monitor, stacks and
    sockets of the runtime.  Of the facts of the prover, those that
    statements other than assignments and calls add or end; the scan for the
    values that a function asserts.  The parser, the rest of the type checker,
    the code generator, the driver, the syntax printer and the editor queries are
    not modelled, or are input/output and foreign calls. *)

From stdpp Require Import base list strings gmap.
From Stdlib Require Import ZArith Lia Ascii.

(** ** Results

    Rust's [Result<A, E>]. *)

Inductive result (A E : Type) : Type :=
| Ok (a : A)
| Err (e : E).
Arguments Ok {A E} a.
Arguments Err {A E} e.

(** [ok_or]: an [Option] turned into a [Result]. *)
Definition ok_or {A E} (o : option A) (e : E) : result A E :=
  match o with Some a => Ok a | None => Err e end.

Definition result_bind {A B E} (r : result A E) (f : A -> result B E) : result B E :=
  match r with Ok a => f a | Err e => Err e end.

Declare Scope vx_scope.
Delimit Scope vx_scope with vx.

(** [x ←? r ; k] is the [?] operator on a [Result]. *)
Notation "x ←? r ; k" := (result_bind r (fun x => k))
  (at level 20, r at level 100, k at level 200, right associativity) : vx_scope.

Lemma ok_or_Ok {A E} (o : option A) (e : E) a : ok_or o e = Ok a <-> o = Some a.
Proof. destruct o; simpl; split; congruence. Qed.

Lemma result_bind_Ok {A B E} (r : result A E) (f : A -> result B E) b :
  result_bind r f = Ok b <-> exists a, r = Ok a /\ f a = Ok b.
Proof. destruct r; simpl; naive_solver. Qed.

(** ** Panics

    A Rust computation either returns or panics.  Arithmetic that leaves its
    type panics too, as in a build with overflow checks. *)

Inductive outcome (A : Type) : Type :=
| Returns (a : A)
| Panics.
Arguments Returns {A} a.
Arguments Panics {A}.

Definition outcome_bind {A B} (r : outcome A) (f : A -> outcome B) : outcome B :=
  match r with Returns a => f a | Panics => Panics end.

(** Sequencing of computations that may panic. *)
Notation "x ←! r ; k" := (outcome_bind r (fun x => k))
  (at level 20, r at level 100, k at level 200, right associativity) : vx_scope.

(** [x ←? o ; k] where the enclosing function returns an [Option]. *)
Notation "x ←?! o ; k" := (match o with Some x => k | None => Returns None end)
  (at level 20, o at level 100, k at level 200, right associativity) : vx_scope.

Lemma outcome_bind_Returns {A B} (r : outcome A) (f : A -> outcome B) b :
  outcome_bind r f = Returns b <-> exists a, r = Returns a /\ f a = Returns b.
Proof. destruct r; simpl; naive_solver. Qed.

(** [wp may r Q]: [r] returns a value in [Q], or it panics and [may] holds. *)
Definition wp {A} (may : Prop) (r : outcome A) (Q : A -> Prop) : Prop :=
  match r with Returns a => Q a | Panics => may end.

Lemma wp_bind {A B} may (r : outcome A) (f : A -> outcome B) Q P :
  wp may r P -> (forall a, P a -> wp may (f a) Q) -> wp may (outcome_bind r f) Q.
Proof. destruct r; simpl; auto. Qed.

Lemma wp_mono {A} may (r : outcome A) (P Q : A -> Prop) : wp may r P -> (forall a, P a -> Q a) -> wp may r Q.
Proof. destruct r; simpl; auto. Qed.

(** [v[i]] and [v[i] = x] on a [Vec]: out of range panics. *)
Definition vec_get {A} (l : list A) (i : nat) : outcome A :=
  match l !! i with Some a => Returns a | None => Panics end.

Definition vec_set {A} (l : list A) (i : nat) (x : A) : outcome (list A) :=
  if decide (i < length l)%nat then Returns (<[i := x]> l) else Panics.

Lemma vec_get_Some {A} (l : list A) i a : l !! i = Some a -> vec_get l i = Returns a.
Proof. unfold vec_get. by intros ->. Qed.

Lemma vec_set_lt {A} (l : list A) i x : (i < length l)%nat -> vec_set l i x = Returns (<[i := x]> l).
Proof. intros H. unfold vec_set. by rewrite decide_True. Qed.

(** [Vec::swap_remove] at a position inside the vector. *)
Definition swap_remove {A} (i : nat) (l : list A) : list A :=
  match last l with
  | Some x => removelast (<[i := x]> l)
  | None => l
  end.

Lemma elem_of_swap_remove {A} (l : list A) i x y :
  l !! i = Some x -> y ∈ l -> y <> x -> y ∈ swap_remove i l.
Proof.
  intros Hi Hy Hne. unfold swap_remove. destruct (last l) as [z|] eqn:Hl; [|by apply last_None in Hl as ->].
  apply last_Some in Hl as [l' ->]. destruct (decide (i = length l')) as [->|Hil].
  - rewrite insert_app_r_alt, Nat.sub_diag by lia. cbn. rewrite removelast_last.
    rewrite lookup_app_r, Nat.sub_diag in Hi by lia. cbn in Hi. simplify_eq.
    apply elem_of_app in Hy as [?|Hy]; [done|]. by apply list_elem_of_singleton in Hy.
  - assert (i < length l')%nat as Hlt.
    { apply lookup_lt_Some in Hi. rewrite length_app in Hi. cbn in Hi. lia. }
    rewrite insert_app_l, removelast_last by done. rewrite lookup_app_l in Hi by done.
    apply elem_of_app in Hy as [Hy|Hy].
    + apply list_elem_of_lookup in Hy as [j Hj]. apply list_elem_of_lookup. exists j.
      rewrite list_lookup_insert_ne by congruence. done.
    + apply list_elem_of_singleton in Hy as ->. apply list_elem_of_lookup. exists i. by rewrite list_lookup_insert_eq.
Qed.

Lemma swap_remove_perm {A} (l : list A) i x : l !! i = Some x -> l ≡ₚ x :: swap_remove i l.
Proof.
  intros Hi. unfold swap_remove. destruct (last l) as [z|] eqn:Hl; [|by apply last_None in Hl as ->].
  apply last_Some in Hl as [l' ->]. destruct (decide (i = length l')) as [->|Hil].
  - rewrite insert_app_r_alt, Nat.sub_diag by lia. cbn. rewrite removelast_last.
    rewrite lookup_app_r, Nat.sub_diag in Hi by lia. cbn in Hi. simplify_eq. by rewrite Permutation_app_comm.
  - assert (i < length l')%nat as Hlt.
    { apply lookup_lt_Some in Hi. rewrite length_app in Hi. cbn in Hi. lia. }
    rewrite insert_app_l, removelast_last by done. rewrite lookup_app_l in Hi by done.
    rewrite insert_take_drop by done. rewrite <- (take_drop_middle l' i x Hi) at 1. solve_Permutation.
Qed.

(** ** Machine integers

    A [uN] is a [Z] in [0 .. 2^N - 1]; an [iN] is a [Z] in
    [-2^(N-1) .. 2^(N-1) - 1].  The operations below are the ones the sources
    use: checked, wrapping and saturating arithmetic, [div_ceil] and the
    checked narrowings. *)

Open Scope Z_scope.

Definition umax (w : Z) : Z := 2 ^ w - 1.
Definition in_u (w z : Z) : bool := (0 <=? z) && (z <=? umax w).
Definition imin (w : Z) : Z := - 2 ^ (w - 1).
Definition imax (w : Z) : Z := 2 ^ (w - 1) - 1.
Definition in_i (w z : Z) : bool := (imin w <=? z) && (z <=? imax w).

(** The value when it is representable: [checked_*] and [try_from]. *)
Definition checked_u (w z : Z) : option Z := if in_u w z then Some z else None.
Definition checked_i (w z : Z) : option Z := if in_i w z then Some z else None.

(** Two's complement truncation: [wrapping_*] and [as]. *)
Definition wrap_u (w z : Z) : Z := z mod 2 ^ w.
Definition wrap_i (w z : Z) : Z := (z + 2 ^ (w - 1)) mod 2 ^ w - 2 ^ (w - 1).

(** [saturating_add] and [saturating_mul] on an unsigned type. *)
Definition sat_u (w z : Z) : Z := Z.min z (umax w).

(** [div_ceil] on an unsigned type (the divisor is not zero where it is used). *)
Definition div_ceil (a b : Z) : Z := (a + b - 1) / b.

(** [!x] on a [uN]. *)
Definition unot (w z : Z) : Z := Z.lxor z (Z.ones w).

(** [is_power_of_two] on a [uN]. *)
Definition is_power_of_two (z : Z) : bool := (0 <? z) && (z =? 2 ^ Z.log2 z).

Lemma in_u_true w z : in_u w z = true <-> 0 <= z <= umax w.
Proof. unfold in_u. rewrite andb_true_iff, !Z.leb_le. done. Qed.

Lemma in_u_false w z : in_u w z = false <-> ~ 0 <= z <= umax w.
Proof. by rewrite <- in_u_true, not_true_iff_false. Qed.

Lemma in_i_true w z : in_i w z = true <-> imin w <= z <= imax w.
Proof. unfold in_i. rewrite andb_true_iff, !Z.leb_le. done. Qed.

Lemma checked_u_Some w z v : checked_u w z = Some v <-> z = v /\ 0 <= z <= umax w.
Proof. unfold checked_u. destruct (in_u w z) eqn:E; rewrite <- in_u_true, E; naive_solver. Qed.

Lemma checked_i_Some w z v : checked_i w z = Some v <-> z = v /\ imin w <= z <= imax w.
Proof. unfold checked_i. destruct (in_i w z) eqn:E; rewrite <- in_i_true, E; naive_solver. Qed.

Lemma checked_u_None w z : checked_u w z = None <-> ~ 0 <= z <= umax w.
Proof. unfold checked_u. destruct (in_u w z) eqn:E; rewrite <- in_u_true, E; naive_solver. Qed.

Lemma checked_i_None w z : checked_i w z = None <-> ~ imin w <= z <= imax w.
Proof. unfold checked_i. destruct (in_i w z) eqn:E; rewrite <- in_i_true, E; naive_solver. Qed.

Lemma div_ceil_spec a b : 0 < b -> 
  b * div_ceil a b - b < a <= b * div_ceil a b.
Proof.
  intros Hb. unfold div_ceil.
  pose proof (Z.div_mod (a + b - 1) b ltac:(lia)).
  pose proof (Z.mod_pos_bound (a + b - 1) b Hb). lia.
Qed.

(** [div_ceil] is the least quotient that covers [a]. *)
Lemma div_ceil_least a b q : 0 < b -> div_ceil a b <= q <-> a <= b * q.
Proof.
  intros Hb. pose proof (div_ceil_spec a b Hb). split; intros; nia.
Qed.

Lemma div_ceil_mono a a' b : 0 < b -> a <= a' -> div_ceil a b <= div_ceil a' b.
Proof. intros. unfold div_ceil. apply Z.div_le_mono; lia. Qed.

Lemma div_ceil_nonneg a b : 0 <= a -> 0 < b -> 0 <= div_ceil a b.
Proof. intros. unfold div_ceil. apply Z.div_pos; lia. Qed.

(** ** Text

    A Rust [char] is its code point.  A [&str] whose characters matter is a
    [list char]; its [len()] counts UTF-8 bytes. *)

Abbreviation char := Z (only parsing).

(** [char::len_utf8]. *)
Definition len_utf8 (c : char) : nat :=
  if c <? 0x80 then 1%nat else if c <? 0x800 then 2%nat else if c <? 0x10000 then 3%nat else 4%nat.

(** [str::len]: the number of bytes. *)
Fixpoint str_len (s : list char) : nat :=
  match s with
  | [] => 0%nat
  | c :: s' => (len_utf8 c + str_len s')%nat
  end.

Lemma len_utf8_pos c : (1 <= len_utf8 c <= 4)%nat.
Proof. unfold len_utf8. repeat case_match; lia. Qed.

Lemma str_len_app s t : str_len (s ++ t) = (str_len s + str_len t)%nat.
Proof. induction s; simpl; lia. Qed.

Lemma str_len_ge s : (length s <= str_len s)%nat.
Proof. induction s as [|c s IH]; simpl; [lia|]. pose proof (len_utf8_pos c). lia. Qed.

Lemma str_len_nil s : str_len s = 0%nat <-> s = [].
Proof. destruct s as [|c s]; simpl; [done|]. pose proof (len_utf8_pos c). split; [lia|done]. Qed.

(** ** Bit fields

    Words are packed by masking and shifting.  [vx_bits] rewrites [Z.testbit]
    through every bit operation; [bitwise] proves an equation of words bit by
    bit. *)

Create Rewrite HintDb vx_bits.

Lemma testbit_one m : Z.testbit 1 m = (m =? 0).
Proof.
  destruct (Z.eqb_spec m 0) as [->|H]; [done|].
  destruct (Z.lt_ge_cases m 0); [by apply Z.testbit_neg_r|].
  apply (Z.bits_above_log2 1); [lia|]. change (Z.log2 1) with 0. lia.
Qed.

Lemma testbit_ones' k m : 0 <= k -> Z.testbit (Z.ones k) m = (0 <=? m) && (m <? k).
Proof. intros. by apply Z.testbit_ones. Qed.

Lemma testbit_shiftl a k m : 0 <= m -> Z.testbit (Z.shiftl a k) m = Z.testbit a (m - k).
Proof. intros. by apply Z.shiftl_spec. Qed.

Lemma testbit_shiftr a k m : 0 <= m -> Z.testbit (Z.shiftr a k) m = Z.testbit a (m + k).
Proof. intros. by apply Z.shiftr_spec. Qed.

Lemma testbit_unot w z m : 0 <= w -> 0 <= m ->
  Z.testbit (unot w z) m = xorb (Z.testbit z m) (m <? w).
Proof.
  intros. unfold unot. rewrite Z.lxor_spec, testbit_ones' by done.
  by rewrite (proj2 (Z.leb_le 0 m)) by done.
Qed.

#[export] Hint Rewrite Z.land_spec Z.lor_spec Z.lxor_spec Z.bits_0 testbit_one : vx_bits.
#[export] Hint Rewrite testbit_ones' testbit_shiftl testbit_shiftr testbit_unot
  using lia : vx_bits.

(** A word of [w] bits has no bit at or above [w]. *)
Lemma testbit_high w z m : 0 <= z <= umax w -> 0 <= w <= m -> Z.testbit z m = false.
Proof.
  intros Hz Hm. destruct (decide (z = 0)) as [->|]; [apply Z.bits_0|].
  apply Z.bits_above_log2; [lia|].
  apply Z.lt_le_trans with w; [|lia]. apply Z.log2_lt_pow2; unfold umax in Hz; lia.
Qed.

Ltac bit_cases :=
  repeat match goal with
  | |- context [?a <? ?b] => destruct (Z.ltb_spec a b); try lia
  | |- context [?a <=? ?b] => destruct (Z.leb_spec a b); try lia
  | |- context [?a =? ?b] => destruct (Z.eqb_spec a b); try lia
  end.

Ltac bit_step :=
  autorewrite with vx_bits; bit_cases;
  repeat match goal with
  | |- context [Z.testbit ?a ?m] =>
      let E := fresh in assert (E : Z.testbit a m = false) by (apply Z.testbit_neg_r; lia);
      rewrite E; clear E
  end;
  rewrite ?andb_true_r, ?andb_false_r, ?orb_false_r, ?orb_true_r, ?xorb_false_r, ?xorb_true_r; simpl.

Ltac bitwise := apply Z.bits_inj'; intros ?n ?Hn; bit_step; try done.

(** A word built from one-bit flags: testing a flag is reading its bit. *)
Lemma land_flag w k : 0 <= k -> (Z.land w (Z.shiftl 1 k) =? 0) = negb (Z.testbit w k).
Proof.
  intros Hk. destruct (Z.testbit w k) eqn:E; simpl.
  - apply Z.eqb_neq. intros H. apply (f_equal (fun z => Z.testbit z k)) in H.
    autorewrite with vx_bits in H. rewrite E, Z.sub_diag in H. done.
  - apply Z.eqb_eq. bitwise. by replace n with k by lia.
Qed.

Lemma land_ones_range w k : 0 <= k -> 0 <= Z.land w (Z.ones k) <= umax k.
Proof.
  intros. rewrite Z.land_ones by done. unfold umax.
  pose proof (Z.mod_pos_bound w (2 ^ k)). pose proof (Z.pow_pos_nonneg 2 k). lia.
Qed.

(** A word whose bits at and above [w] are clear is in range. *)
Lemma in_range_bits w z :
  0 <= w -> (forall m, w <= m -> Z.testbit z m = false) -> 0 <= z <= umax w.
Proof.
  intros Hw Hz. replace z with (Z.land z (Z.ones w)); [by apply land_ones_range|].
  bitwise. by rewrite Hz.
Qed.

(** ** Little-endian bytes *)

(** The [n] low bytes of [w], least first. *)
Fixpoint le_bytes (n : nat) (w : Z) : list Z :=
  match n with
  | O => []
  | S n => Z.land w 0xFF :: le_bytes n (Z.shiftr w 8)
  end.

(** The number a byte list denotes, least byte first. *)
Fixpoint le_value (bs : list Z) : Z :=
  match bs with
  | [] => 0
  | b :: bs => Z.lor b (Z.shiftl (le_value bs) 8)
  end.

Lemma le_bytes_length n w : length (le_bytes n w) = n.
Proof. revert w; induction n; intros; simpl; auto. Qed.

Lemma le_value_bytes n w : 0 <= w <= umax (8 * Z.of_nat n) -> le_value (le_bytes n w) = w.
Proof.
  revert w. induction n as [|n IH]; intros w Hw; simpl.
  { change (umax (8 * Z.of_nat 0)) with 0 in Hw. lia. }
  rewrite IH.
  - change 255 with (Z.ones 8). bitwise. rewrite testbit_shiftr by lia. f_equal. lia.
  - apply in_range_bits; [lia|]. intros m Hm. rewrite testbit_shiftr by lia.
    apply (testbit_high (8 * Z.of_nat (S n))); [done|lia].
Qed.

(** ** Decimal text

    [str::parse] on the integer types.  The characters of a [string] are the
    bytes of the text. *)

(** [u8::is_ascii_digit]. *)
Definition is_ascii_digit (c : ascii) : bool :=
  (48 <=? Z.of_nat (nat_of_ascii c)) && (Z.of_nat (nat_of_ascii c) <=? 57).

Fixpoint all_digits (s : string) : bool :=
  match s with
  | EmptyString => true
  | String c s => is_ascii_digit c && all_digits s
  end.

Definition digit_value (c : ascii) : Z := Z.of_nat (nat_of_ascii c) - 48.

(** The digit loop of [str::parse] on an unsigned type of [w] bits: each step
    is a checked multiply and a checked add. *)
Fixpoint parse_digits (w acc : Z) (s : string) : option Z :=
  match s with
  | EmptyString => Some acc
  | String c s' =>
      if is_ascii_digit c then
        match checked_u w (acc * 10) with
        | None => None
        | Some m =>
            match checked_u w (m + digit_value c) with
            | None => None
            | Some a => parse_digits w a s'
            end
        end
      else None
  end.

(** [str::parse::<uN>]: the empty string and a lone sign are errors, a leading
    [+] is skipped. *)
Definition parse_uint (w : Z) (s : string) : option Z :=
  match s with
  | EmptyString => None
  | String "+" EmptyString => None
  | String "+" s' => parse_digits w 0 s'
  | _ => parse_digits w 0 s
  end.

(** The number a digit string denotes, continuing from [acc]. *)
Fixpoint dec_from (acc : Z) (s : string) : Z :=
  match s with
  | EmptyString => acc
  | String c s' => dec_from (acc * 10 + digit_value c) s'
  end.

Definition dec_value (s : string) : Z := dec_from 0 s.

(** [str::parse::<iN>]: an optional sign, then digits; [None] when the text is
    not a number of the type. *)
Definition parse_int (w : Z) (s : string) : option Z :=
  match s with
  | String "-" s' =>
      if all_digits s' && negb (bool_decide (s' = EmptyString))
      then checked_i w (- dec_value s') else None
  | String "+" s' =>
      if all_digits s' && negb (bool_decide (s' = EmptyString))
      then checked_i w (dec_value s') else None
  | _ =>
      if all_digits s && negb (bool_decide (s = EmptyString))
      then checked_i w (dec_value s) else None
  end.

Lemma digit_value_range c : is_ascii_digit c = true -> 0 <= digit_value c <= 9.
Proof. unfold is_ascii_digit, digit_value. rewrite andb_true_iff, !Z.leb_le. lia. Qed.

Lemma all_digits_cons c s :
  all_digits (String c s) = true <-> is_ascii_digit c = true /\ all_digits s = true.
Proof. simpl. by rewrite andb_true_iff. Qed.

Lemma all_digits_app s t :
  all_digits (s ++ t)%string = true <-> all_digits s = true /\ all_digits t = true.
Proof.
  induction s as [|c s IH]; [naive_solver|].
  change (String c s ++ t)%string with (String c (s ++ t)).
  rewrite !all_digits_cons, IH. tauto.
Qed.

Lemma dec_from_ge acc s : 0 <= acc -> all_digits s = true -> acc <= dec_from acc s.
Proof.
  revert acc; induction s as [|c s IH]; intros acc Hacc; simpl; [lia|].
  rewrite andb_true_iff. intros [Hc Hs]. pose proof (digit_value_range c Hc).
  specialize (IH (acc * 10 + digit_value c) ltac:(lia) Hs). lia.
Qed.

(** The checked digit loop overflows exactly when the value does not fit. *)
Lemma parse_digits_spec w acc s :
  0 <= acc -> all_digits s = true ->
  acc <= umax w -> parse_digits w acc s = checked_u w (dec_from acc s).
Proof.
  revert acc; induction s as [|c s IH]; intros acc Hacc Hs Hle; simpl.
  { symmetry. apply checked_u_Some. lia. }
  apply all_digits_cons in Hs as [Hc Hs]. rewrite Hc.
  pose proof (digit_value_range c Hc).
  pose proof (dec_from_ge (acc * 10 + digit_value c) s ltac:(lia) Hs).
  destruct (checked_u w (acc * 10)) as [m|] eqn:Em.
  - apply checked_u_Some in Em as [<- ?].
    destruct (checked_u w (acc * 10 + digit_value c)) as [a|] eqn:Ea.
    + apply checked_u_Some in Ea as [<- ?]. apply IH; auto; lia.
    + apply checked_u_None in Ea. symmetry. apply checked_u_None. lia.
  - apply checked_u_None in Em. symmetry. apply checked_u_None. lia.
Qed.

Lemma is_ascii_digit_not_plus s : all_digits (String "+" s) = false.
Proof. done. Qed.

Lemma parse_uint_digits w s :
  0 <= umax w -> s <> EmptyString -> all_digits s = true ->
  parse_uint w s = checked_u w (dec_value s).
Proof.
  intros Hw Hne Hs.
  assert (parse_uint w s = parse_digits w 0 s) as ->.
  { destruct s as [|[[] [] [] [] [] [] [] []] s]; try done. }
  apply parse_digits_spec; auto; lia.
Qed.

(** [u64::to_string]: twenty digits are enough for 64 bits. *)
Fixpoint u_to_string (fuel : nat) (n : Z) (acc : string) : string :=
  let acc := String (ascii_of_nat (Z.to_nat (48 + n mod 10))) acc in
  match fuel with
  | O => acc
  | S fuel => if n <? 10 then acc else u_to_string fuel (n / 10) acc
  end.

Lemma digit_char d : 0 <= d <= 9 ->
  is_ascii_digit (ascii_of_nat (Z.to_nat (48 + d))) = true /\ digit_value (ascii_of_nat (Z.to_nat (48 + d))) = d.
Proof.
  intros Hd. unfold is_ascii_digit, digit_value. rewrite nat_ascii_embedding by lia.
  rewrite Z2Nat.id by lia. rewrite andb_true_iff, !Z.leb_le. lia.
Qed.

Lemma u_to_string_spec fuel n acc :
  0 <= n < 10 ^ Z.of_nat (S fuel) -> all_digits acc = true ->
  all_digits (u_to_string fuel n acc) = true /\ u_to_string fuel n acc <> EmptyString /\
  dec_from 0 (u_to_string fuel n acc) = dec_from n acc.
Proof.
  revert n acc. induction fuel as [|fuel IH]; intros n acc Hn Hacc; cbn [u_to_string];
    pose proof (Z.mod_pos_bound n 10 ltac:(lia)) as Hm; destruct (digit_char (n mod 10) ltac:(lia)) as [Hd Hv].
  - change (10 ^ Z.of_nat 1) with 10 in Hn. split_and!; [by apply all_digits_cons|done|].
    cbn [dec_from]. rewrite Hv, Z.mod_small by lia. done.
  - destruct (Z.ltb_spec n 10) as [Hlt|Hge].
    + split_and!; [by apply all_digits_cons|done|]. cbn [dec_from]. rewrite Hv, Z.mod_small by lia. done.
    + destruct (IH (n / 10) (String (ascii_of_nat (Z.to_nat (48 + n mod 10))) acc)) as (H1 & H2 & H3).
      * split; [apply Z.div_pos; lia|]. apply Z.div_lt_upper_bound; [lia|].
        rewrite Nat2Z.inj_succ, Z.pow_succ_r in Hn by lia. lia.
      * by apply all_digits_cons.
      * split_and!; [done|done|]. rewrite H3. cbn [dec_from]. rewrite Hv. f_equal.
        pose proof (Z.div_mod n 10). lia.
Qed.

(** ** Strings *)

Lemma append_nil_r s : s +:+ "" = s.
Proof. induction s as [|c s IH]; [done|]. change (String c (s +:+ "") = String c s). by rewrite IH. Qed.

Lemma append_assoc a b c : (a +:+ b) +:+ c = a +:+ (b +:+ c).
Proof. induction a as [|x a IH]; [done|]. change (String x ((a +:+ b) +:+ c) = String x (a +:+ (b +:+ c))). by rewrite IH. Qed.

(** ** Hash maps *)

(** The order in which a hash map yields its entries. *)
Class HashOrder : Type := {
  iter : forall {K : Type} {EqK : EqDecision K} {CK : Countable K} {V : Type}, gmap K V -> list (K * V);
  iter_perm : forall {K : Type} {EqK : EqDecision K} {CK : Countable K} {V : Type} (m : gmap K V),
    iter m ≡ₚ map_to_list m;
}.

(** A hash map visited in the order of its keys' encodings. *)
Program Definition map_order : HashOrder := {| iter := fun K _ _ V (m : gmap K V) => map_to_list m |}.
Next Obligation. done. Qed.

Lemma elem_of_iter `{HashOrder} {K V} `{Countable K} (m : gmap K V) k v : (k, v) ∈ iter m <-> m !! k = Some v.
Proof. by rewrite iter_perm, elem_of_map_to_list. Qed.
