(* ===== verification/Units.v ===== *)
(** * Byte quantities and clock frequencies ([src/src/units.rs])

    [ByteUnit], [FreqUnit], the exact scaling core [scale_exact] and the two
    conversions [to_bytes] and [to_hertz].  A Rust [&str] is a [string] here:
    its characters are the bytes of the text. *)

From stdpp Require Import base list strings.
From Stdlib Require Import ZArith Lia Ascii.
From S2P Require Import Prelude.
Open Scope Z_scope.

Inductive ByteUnit : Type :=
| B | KB | MB | GB | TB | PB | KiB | MiB | GiB | TiB | PiB.

Definition ByteUnit_factor (u : ByteUnit) : Z :=
  match u with
  | B => 1
  | KB => 1000
  | MB => 1000000
  | GB => 1000000000
  | TB => 1000000000000
  | PB => 1000000000000000
  | KiB => Z.shiftl 1 10
  | MiB => Z.shiftl 1 20
  | GiB => Z.shiftl 1 30
  | TiB => Z.shiftl 1 40
  | PiB => Z.shiftl 1 50
  end.

Definition ByteUnit_parse (s : string) : option ByteUnit :=
  if decide (s = "B") then Some B
  else if decide (s = "KB") then Some KB
  else if decide (s = "MB") then Some MB
  else if decide (s = "GB") then Some GB
  else if decide (s = "TB") then Some TB
  else if decide (s = "PB") then Some PB
  else if decide (s = "KiB") then Some KiB
  else if decide (s = "MiB") then Some MiB
  else if decide (s = "GiB") then Some GiB
  else if decide (s = "TiB") then Some TiB
  else if decide (s = "PiB") then Some PiB
  else None.

Inductive UnitError : Type :=
| Malformed
| Overflow
| NotWholeBytes.

Inductive FreqUnit : Type := Hz | KHz | MHz | GHz.

Definition FreqUnit_factor (u : FreqUnit) : Z :=
  match u with
  | Hz => 1
  | KHz => 1000
  | MHz => 1000000
  | GHz => 1000000000
  end.

Definition FreqUnit_parse (s : string) : option FreqUnit :=
  if decide (s = "Hz") then Some Hz
  else if decide (s = "kHz") then Some KHz
  else if decide (s = "MHz") then Some MHz
  else if decide (s = "GHz") then Some GHz
  else None.

(** ** The standard-library pieces [scale_exact] uses *)

(** [str::split_once] at a one-byte separator. *)
Fixpoint split_once (sep : ascii) (s : string) : option (string * string) :=
  match s with
  | EmptyString => None
  | String c s' =>
      if decide (c = sep) then Some (EmptyString, s')
      else match split_once sep s' with
           | Some (a, b) => Some (String c a, b)
           | None => None
           end
  end.

(** [10u128.checked_pow(places)]. *)
Definition checked_pow10 (places : Z) : option Z := checked_u 128 (10 ^ places).

(** ** The exact scaling core *)

Definition scale_exact (mantissa : string) (factor : Z) : result Z UnitError :=
  let '(int_part, frac_part) :=
    match split_once "." mantissa with
    | Some p => p
    | None => (mantissa, EmptyString)
    end in
  if decide (int_part = EmptyString /\ frac_part = EmptyString) then Err Malformed
  else if negb (all_digits int_part) || negb (all_digits frac_part) then Err Malformed
  else
    (digits ←? ok_or (parse_uint 128 (int_part ++ frac_part)) Malformed;
     places ←? ok_or (checked_u 32 (Z.of_nat (String.length frac_part))) Malformed;
     scale ←? ok_or (checked_pow10 places) Malformed;
     numerator ←? ok_or (checked_u 128 (digits * factor)) Overflow;
     if negb (numerator mod scale =? 0) then Err NotWholeBytes
     else ok_or (checked_u 64 (numerator / scale)) Overflow)%vx.

Definition to_bytes (mantissa : string) (unit : ByteUnit) : result Z UnitError :=
  scale_exact mantissa (ByteUnit_factor unit).

Definition to_hertz (mantissa : string) (unit : FreqUnit) : result Z UnitError :=
  scale_exact mantissa (FreqUnit_factor unit).

(** ** Lemmas on decimal text *)

(** [mantissa] is the decimal [int_part.frac_part]; a missing point is an
    empty fraction. *)
Definition decimal_parts (mantissa int_part frac_part : string) : Prop :=
  (mantissa = int_part ++ String "." frac_part \/ (mantissa = int_part /\ frac_part = ""))%string /\
  all_digits int_part = true /\ all_digits frac_part = true /\
  (int_part ++ frac_part <> "")%string.

Lemma split_once_Some sep s a b :
  split_once sep s = Some (a, b) -> s = (a ++ String sep b)%string.
Proof.
  revert a b; induction s as [|c s IH]; intros a b; simpl; [done|].
  case_decide; [naive_solver|].
  destruct (split_once sep s) as [[a' b']|] eqn:E; [|done].
  intros [= <- <-]. simpl. by rewrite (IH _ _ eq_refl).
Qed.

(** Splitting a text whose prefix has no separator. *)
Lemma split_once_app sep a b :
  is_ascii_digit sep = false -> all_digits a = true ->
  split_once sep (a ++ String sep b) = Some (a, b).
Proof.
  intros Hsep. induction a as [|c a IH]; intros Ha.
  - simpl. by case_decide.
  - apply all_digits_cons in Ha as [Hc Ha]. simpl.
    case_decide; [congruence|]. by rewrite IH.
Qed.

Lemma split_once_digits sep a :
  is_ascii_digit sep = false -> all_digits a = true -> split_once sep a = None.
Proof.
  intros Hsep. induction a as [|c a IH]; intros Ha; [done|].
  apply all_digits_cons in Ha as [Hc Ha]. simpl. case_decide; [congruence|]. by rewrite IH.
Qed.

Lemma string_app_empty (s t : string) : (s ++ t = "" <-> s = "" /\ t = "")%string.
Proof. destruct s; naive_solver. Qed.

(** The part of [scale_exact] that follows the syntactic checks. *)
Definition scale_parts (int_part frac_part : string) (factor : Z) : result Z UnitError :=
  (digits ←? ok_or (parse_uint 128 (int_part ++ frac_part)) Malformed;
   places ←? ok_or (checked_u 32 (Z.of_nat (String.length frac_part))) Malformed;
   scale ←? ok_or (checked_pow10 places) Malformed;
   numerator ←? ok_or (checked_u 128 (digits * factor)) Overflow;
   if negb (numerator mod scale =? 0) then Err NotWholeBytes
   else ok_or (checked_u 64 (numerator / scale)) Overflow)%vx.

Lemma scale_exact_parts m i f factor :
  decimal_parts m i f -> scale_exact m factor = scale_parts i f factor.
Proof.
  intros (Hm & Hi & Hf & Hne). unfold scale_exact.
  assert (match split_once "." m with Some p => p | None => (m, EmptyString) end = (i, f)) as ->.
  { destruct Hm as [->|[-> ->]]; [by rewrite split_once_app|by rewrite split_once_digits]. }
  rewrite decide_False by (rewrite string_app_empty in Hne; tauto).
  by rewrite Hi, Hf.
Qed.

(** Text that is not a decimal number is [Malformed]. *)
Lemma scale_exact_malformed m factor :
  (forall i f, ~ decimal_parts m i f) -> scale_exact m factor = Err Malformed.
Proof.
  intros Hno. unfold scale_exact.
  destruct (match split_once "." m with Some p => p | None => _ end) as [i f] eqn:E.
  case_decide as Hemp; [done|].
  destruct (all_digits i) eqn:Hi, (all_digits f) eqn:Hf; try done.
  exfalso. apply (Hno i f). split; [|rewrite string_app_empty; tauto].
  destruct (split_once "." m) as [[a b]|] eqn:Es; simplify_eq.
  - left. by apply split_once_Some.
  - by right.
Qed.

(** Whether a text is a decimal number is decidable. *)
Lemma decide_rel_decimal m : {i & {f | decimal_parts m i f}} + {forall i f, ~ decimal_parts m i f}.
Proof.
  destruct (split_once "." m) as [[i f]|] eqn:E.
  - destruct (decide (all_digits i = true /\ all_digits f = true /\ (i ++ f <> "")%string)) as [Hd|Hd].
    + left. exists i, f. split; [left; by apply split_once_Some|tauto].
    + right. intros i' f' ([->|[-> ->]] & Hi' & Hf' & Hne).
      * rewrite split_once_app in E by done. simplify_eq. tauto.
      * by rewrite split_once_digits in E.
  - destruct (decide (all_digits m = true /\ m <> "")) as [Hd|Hd].
    + left. exists m, "". split; [by right|]. split; [tauto|]. split; [done|].
      rewrite string_app_empty. tauto.
    + right. intros i' f' ([->|[-> ->]] & Hi' & Hf' & Hne).
      * by rewrite split_once_app in E.
      * rewrite string_app_empty in Hne. tauto.
Qed.

Lemma decimal_parts_unique m i f i' f' :
  decimal_parts m i f -> decimal_parts m i' f' -> i = i' /\ f = f'.
Proof.
  intros (Hm & Hi & Hf & _) (Hm' & Hi' & Hf' & _).
  destruct Hm as [->|[-> ->]], Hm' as [Hm'|[Hm' ->]].
  - apply (f_equal (split_once ".")) in Hm'. rewrite !split_once_app in Hm' by done. by simplify_eq.
  - apply (f_equal (split_once ".")) in Hm'.
    rewrite split_once_app, split_once_digits in Hm' by done. done.
  - apply (f_equal (split_once ".")) in Hm'.
    rewrite split_once_app, split_once_digits in Hm' by done. done.
  - done.
Qed.

Lemma decimal_parts_nonneg m i f : decimal_parts m i f -> 0 <= dec_value (i ++ f)%string.
Proof. intros (?&?&?&?). apply dec_from_ge; [lia|]. by apply all_digits_app. Qed.

Lemma umax_pos w : 0 <= w -> 0 <= umax w.
Proof. intros. unfold umax. pose proof (Z.pow_pos_nonneg 2 w). lia. Qed.

Lemma pow10_u32 n : 10 ^ n <= umax 128 -> 0 <= n -> n <= umax 32.
Proof.
  intros H Hn. destruct (Z.le_gt_cases n 39); [change (umax 32) with 4294967295; lia|].
  assert (10 ^ 39 <= 10 ^ n) by (apply Z.pow_le_mono_r; lia).
  assert (umax 128 < 10 ^ 39) by reflexivity. lia.
Qed.

(** The whole behaviour of [scale_parts] on decimal text. *)
Lemma scale_parts_spec i f factor :
  0 < factor -> all_digits i = true -> all_digits f = true -> (i ++ f <> "")%string ->
  let d := dec_value (i ++ f) in let s := 10 ^ Z.of_nat (String.length f) in
  scale_parts i f factor =
    if negb (in_u 128 d) || negb (in_u 128 s) then Err Malformed
    else if negb (in_u 128 (d * factor)) then Err Overflow
    else if negb (d * factor mod s =? 0) then Err NotWholeBytes
    else if negb (in_u 64 (d * factor / s)) then Err Overflow
    else Ok (d * factor / s).
Proof.
  intros Hfac Hi Hf Hne d s. unfold scale_parts.
  rewrite parse_uint_digits; [|apply umax_pos; lia|done|by apply all_digits_app].
  fold d. unfold checked_u at 1. destruct (in_u 128 d) eqn:Ed; [|done]. simpl.
  destruct (in_u 128 s) eqn:Es.
  - apply in_u_true in Es.
    assert (checked_u 32 (Z.of_nat (String.length f)) = Some (Z.of_nat (String.length f))) as ->.
    { apply checked_u_Some. split; [done|]. split; [lia|]. apply pow10_u32; [|lia]. apply Es. }
    simpl. assert (checked_pow10 (Z.of_nat (String.length f)) = Some s) as ->
      by (apply checked_u_Some; done).
    simpl. unfold checked_u. destruct (in_u 128 (d * factor)); [|done]. simpl.
    destruct (d * factor mod s =? 0); [|done]. simpl. by destruct (in_u 64 (d * factor / s)).
  - destruct (checked_u 32 _) as [p|] eqn:Ep; [|done]. apply checked_u_Some in Ep as [<- _].
    simpl. assert (checked_pow10 (Z.of_nat (String.length f)) = None) as ->; [|done].
    unfold checked_pow10, checked_u. fold s. by rewrite Es.
Qed.

Lemma ByteUnit_factor_pos u : 0 < ByteUnit_factor u.
Proof. by destruct u. Qed.

(** ** Properties *)

(** [to_bytes] is exact: it answers [Ok b] precisely when the text is a
    decimal number whose value times the unit's factor is the whole number
    [b] of bytes (stated without division: [digits * factor = b * 10^places]),
    [b] fits a [u64], and the three [u128] intermediates fit.  In particular
    no accepted quantity is ever rounded. *)
Theorem to_bytes_exact (m : string) (u : ByteUnit) (b : Z) :
  to_bytes m u = Ok b <->
  exists i f,
    decimal_parts m i f /\
    dec_value (i ++ f) * ByteUnit_factor u = b * 10 ^ Z.of_nat (String.length f) /\
    0 <= b <= umax 64 /\
    dec_value (i ++ f) <= umax 128 /\
    10 ^ Z.of_nat (String.length f) <= umax 128 /\
    dec_value (i ++ f) * ByteUnit_factor u <= umax 128.
Proof.
  unfold to_bytes. pose proof (ByteUnit_factor_pos u) as Hpos. split.
  - intros Hok.
    destruct (decide_rel_decimal m) as [(i & f & Hp)|Hno].
    2: { rewrite scale_exact_malformed in Hok by done. done. }
    exists i, f. split; [done|]. rewrite (scale_exact_parts _ _ _ _ Hp) in Hok.
    destruct Hp as (_ & Hi & Hf & Hne). rewrite scale_parts_spec in Hok by done.
    set (d := dec_value _) in *. set (s := 10 ^ _) in *.
    assert (0 < s) by (apply Z.pow_pos_nonneg; lia).
    destruct (in_u 128 d) eqn:E1; [|done]. destruct (in_u 128 s) eqn:E2; [|done].
    destruct (in_u 128 (d * _)) eqn:E3; [|done].
    destruct (d * _ mod s =? 0) eqn:E4; [|done].
    destruct (in_u 64 _) eqn:E5; [|done]. simpl in Hok. injection Hok as <-.
    apply in_u_true in E1, E2, E3, E5. apply Z.eqb_eq in E4.
    pose proof (Z.div_mod (d * ByteUnit_factor u) s ltac:(lia)). lia.
  - intros (i & f & Hp & Heq & Hb & Hd & Hs & Hn).
    pose proof (decimal_parts_nonneg _ _ _ Hp).
    rewrite (scale_exact_parts _ _ _ _ Hp). destruct Hp as (_ & Hi & Hf & Hne).
    rewrite scale_parts_spec by done.
    set (d := dec_value _) in *. set (s := 10 ^ _) in *.
    assert (0 < s) by (apply Z.pow_pos_nonneg; lia).
    rewrite Heq in *. rewrite Z.mod_mul, Z.div_mul by lia.
    rewrite !(proj2 (in_u_true _ _)) by nia. done.
Qed.

(** What each error of [to_bytes] means.  [Malformed] is text that is not a
    decimal number, or one whose digits or scale need more than 128 bits;
    [NotWholeBytes] is a decimal number for which {e no} whole number of bytes
    is the exact answer; [Overflow] is an exact answer above [u64::MAX] or a
    128-bit intermediate overflow. *)
Theorem to_bytes_error_kinds (m : string) (u : ByteUnit) (e : UnitError) :
  to_bytes m u = Err e ->
  match e with
  | Malformed =>
      forall i f, decimal_parts m i f ->
        umax 128 < dec_value (i ++ f) \/ umax 128 < 10 ^ Z.of_nat (String.length f)
  | NotWholeBytes =>
      exists i f, decimal_parts m i f /\
        forall b, dec_value (i ++ f) * ByteUnit_factor u <> b * 10 ^ Z.of_nat (String.length f)
  | Overflow =>
      exists i f, decimal_parts m i f /\
        (umax 128 < dec_value (i ++ f) * ByteUnit_factor u \/
         exists b, umax 64 < b /\
           dec_value (i ++ f) * ByteUnit_factor u = b * 10 ^ Z.of_nat (String.length f))
  end.
Proof.
  unfold to_bytes. intros Herr. pose proof (ByteUnit_factor_pos u) as Hpos.
  destruct (decide_rel_decimal m) as [(i & f & Hp)|Hno].
  2: { rewrite scale_exact_malformed in Herr by done. injection Herr as <-.
       intros i f Hp. by destruct (Hno i f). }
  pose proof (decimal_parts_nonneg _ _ _ Hp) as Hd0.
  rewrite (scale_exact_parts _ _ _ _ Hp) in Herr.
  pose proof Hp as (Hm & Hi & Hf & Hne). rewrite scale_parts_spec in Herr by done.
  set (s := 10 ^ _) in *. set (d := dec_value _) in *.
  assert (0 < s) by (apply Z.pow_pos_nonneg; lia).
  destruct (in_u 128 d) eqn:E1, (in_u 128 s) eqn:E2; simpl in Herr;
    try (injection Herr as <-; intros i' f' Hp';
         destruct (decimal_parts_unique _ _ _ _ _ Hp Hp') as [-> ->];
         fold d s; first [apply in_u_false in E1 | apply in_u_false in E2]; lia).
  assert (0 <= d * ByteUnit_factor u) by nia.
  pose proof (Z.div_mod (d * ByteUnit_factor u) s ltac:(lia)) as Hdm.
  destruct (in_u 128 (d * _)) eqn:E3.
  2: { simpl in Herr. injection Herr as <-. exists i, f. split; [done|]. left.
       apply in_u_false in E3. fold d. lia. }
  destruct (d * _ mod s =? 0) eqn:E4; simpl in Herr.
  - destruct (in_u 64 _) eqn:E5; [done|]. injection Herr as <-. exists i, f. split; [done|]. right.
    exists (d * ByteUnit_factor u / s). apply in_u_false in E5.
    pose proof (Z.div_pos (d * ByteUnit_factor u) s ltac:(lia) ltac:(lia)).
    apply Z.eqb_eq in E4. fold d s. lia.
  - injection Herr as <-. exists i, f. split; [done|]. intros b Hb. fold d s in Hb.
    rewrite Hb, Z.mod_mul in E4 by lia. done.
Qed.

Lemma to_bytes_error_kinds_witness :
  exists i f, decimal_parts "1.1" i f /\
    forall b, dec_value (i ++ f) * ByteUnit_factor KiB <> b * 10 ^ Z.of_nat (String.length f).
Proof. apply (to_bytes_error_kinds "1.1" KiB NotWholeBytes). vm_compute. reflexivity. Defined.

(** [UnitError::Overflow] is documented as an exact answer that a [u64]
    cannot hold.  The 128-bit intermediate makes it broader: [1.0...0 KiB] with
    36 zeros is exactly 1024 bytes and is refused as [Overflow]. *)
Theorem to_bytes_overflow_below_u64 :
  let m := "1.000000000000000000000000000000000000"%string in
  to_bytes m KiB = Err Overflow /\
  exists i f, decimal_parts m i f /\
    dec_value (i ++ f) * ByteUnit_factor KiB = 1024 * 10 ^ Z.of_nat (String.length f).
Proof.
  split; [vm_compute; reflexivity|].
  exists "1"%string, "000000000000000000000000000000000000"%string.
  split; [split_and!; [by left| | |]; done|]. vm_compute. reflexivity.
Qed.
