(* ===== verification/Suggest.v ===== *)
(** * "Did you mean?" suggestions ([src/src/suggest.rs])

    [levenshtein] with its two mutable rows, [closest_match] and
    [suggest_name].  A [None] from [levenshtein] is an index panic of the row
    vectors; the properties show there is none.  The specification is the
    relation [align], whose least cost is the edit distance. *)

From stdpp Require Import base list sets.
From Stdlib Require Import ZArith Lia.
From S2P Require Import Prelude.
Open Scope nat_scope.

(** ** The code *)

(** [if a_char == b_char { 0 } else { 1 }]. *)
Definition cost (a_char b_char : char) : nat := if Z.eqb a_char b_char then 0 else 1.

(** The inner loop: [curr_row[j + 1] = ...] for each character of [b], from
    column [j] on. *)
Fixpoint lev_inner (a_char : char) (b : list char) (j : nat) (prev_row curr_row : list nat)
    : option (list nat) :=
  match b with
  | [] => Some curr_row
  | b_char :: b' =>
      p1 ← prev_row !! (j + 1);
      c0 ← curr_row !! j;
      p0 ← prev_row !! j;
      let v := Nat.min (Nat.min (p1 + 1) (c0 + 1)) (p0 + cost a_char b_char) in
      if decide (j + 1 < length curr_row)
      then lev_inner a_char b' (j + 1) prev_row (<[j + 1 := v]> curr_row)
      else None
  end.

(** The outer loop over the characters of [a]; the last step of the body swaps
    the two rows. *)
Fixpoint lev_outer (a : list char) (i : nat) (b : list char) (prev_row curr_row : list nat)
    : option (list nat) :=
  match a with
  | [] => Some prev_row
  | a_char :: a' =>
      if decide (0 < length curr_row)
      then curr ← lev_inner a_char b 0 prev_row (<[0 := i + 1]> curr_row);
           lev_outer a' (i + 1) b curr prev_row
      else None
  end.

Definition levenshtein (a b : list char) : option nat :=
  let a_len := str_len a in
  let b_len := str_len b in
  if decide (a_len = 0) then Some b_len
  else if decide (b_len = 0) then Some a_len
  else
    prev_row ← lev_outer a 0 b (seq 0 (b_len + 1)) (replicate (b_len + 1) 0);
    prev_row !! b_len.

(** [filter_map] with the distance, then [min_by_key], which keeps the first of
    equal minima. *)
Definition in_range (target : list char) (max_dist : nat) (c : list char)
    : option (list char * nat) :=
  dist ← levenshtein target c;
  if decide (0 < dist /\ dist <= max_dist) then Some (c, dist) else None.

Fixpoint min_by_dist (l : list (list char * nat)) : option (list char * nat) :=
  match l with
  | [] => None
  | x :: l' =>
      match min_by_dist l' with
      | Some y => if decide (y.2 < x.2) then Some y else Some x
      | None => Some x
      end
  end.

Definition closest_match (target : list char) (candidates : list (list char)) (max_dist : nat)
    : option (list char) :=
  fst <$> min_by_dist (omap (in_range target max_dist) candidates).

Definition suggest_name (target : list char) (candidates : list (list char))
    : option (list char) :=
  match str_len target with
  | 0 => None
  | n => let max_dist := if decide (n <= 3) then 1 else if decide (n <= 7) then 2 else 3 in
         closest_match target candidates max_dist
  end.

(** ** The specification: alignments *)

(** [align a b n]: [a] can be turned into [b] by deletions, insertions and
    substitutions of total cost [n]. *)
Inductive align : list char -> list char -> nat -> Prop :=
| align_nil : align [] [] 0
| align_del x a b n : align a b n -> align (x :: a) b (n + 1)
| align_ins y a b n : align a b n -> align a (y :: b) (n + 1)
| align_sub x y a b n : align a b n -> align (x :: a) (y :: b) (n + cost x y).
#[local] Hint Constructors align : core.

(** [n] is the least cost of an alignment. *)
Definition edit_distance (a b : list char) (n : nat) : Prop :=
  align a b n /\ forall m, align a b m -> n <= m.

(** Every character takes one byte. *)
Definition is_ascii (s : list char) : Prop := str_len s = length s.

(** ** Alignments can be grown at either end *)

Lemma align_del_snoc x a b n : align a b n -> align (a ++ [x]) b (n + 1).
Proof.
  induction 1; simpl; eauto.
  - apply (align_del x [] [] 0); eauto.
  - replace (n + cost x0 y + 1) with (n + 1 + cost x0 y) by lia. eauto.
Qed.

Lemma align_ins_snoc y a b n : align a b n -> align a (b ++ [y]) (n + 1).
Proof.
  induction 1; simpl; eauto.
  - apply (align_ins y [] [] 0); eauto.
  - replace (n + cost x y0 + 1) with (n + 1 + cost x y0) by lia. eauto.
Qed.

Lemma align_sub_snoc x y a b n : align a b n -> align (a ++ [x]) (b ++ [y]) (n + cost x y).
Proof.
  induction 1; simpl; eauto.
  - apply (align_sub x y [] [] 0); eauto.
  - replace (n + 1 + cost x y) with (n + cost x y + 1) by lia. eauto.
  - replace (n + 1 + cost x y) with (n + cost x y + 1) by lia. eauto.
  - replace (n + cost x0 y0 + cost x y) with (n + cost x y + cost x0 y0) by lia. eauto.
Qed.

Lemma align_rev a b n : align a b n -> align (rev a) (rev b) n.
Proof.
  induction 1; simpl; eauto using align_del_snoc, align_ins_snoc, align_sub_snoc.
Qed.

Lemma align_rev_inv a b n : align (rev a) (rev b) n -> align a b n.
Proof. intros H%align_rev. by rewrite !rev_involutive in H. Qed.

(** Peeling the last characters of an alignment. *)
Lemma align_snoc_inv a x b y n :
  align (a ++ [x]) (b ++ [y]) n ->
  (exists m, align a (b ++ [y]) m /\ n = m + 1) \/
  (exists m, align (a ++ [x]) b m /\ n = m + 1) \/
  (exists m, align a b m /\ n = m + cost x y).
Proof.
  intros H%align_rev. rewrite !rev_app_distr in H. simpl in H.
  inversion H; subst.
  - left. exists n0. split; [|done]. apply align_rev_inv. by rewrite rev_app_distr.
  - right. left. exists n0. split; [|done]. apply align_rev_inv. by rewrite rev_app_distr.
  - right. right. eauto using align_rev_inv.
Qed.

Lemma align_nil_l b n : align [] b n -> n = length b.
Proof.
  intros H. remember [] as a eqn:E. revert E. induction H; intros; simplify_eq/=; auto.
  rewrite (IHalign eq_refl). lia.
Qed.

Lemma align_nil_r a n : align a [] n -> n = length a.
Proof.
  intros H. remember [] as b eqn:E. revert E. induction H; intros; simplify_eq/=; auto.
  rewrite (IHalign eq_refl). lia.
Qed.

Lemma align_from_nil b : align [] b (length b).
Proof. induction b as [|y b IH]; simpl; eauto. rewrite <- Nat.add_1_r. eauto. Qed.

Lemma align_to_nil a : align a [] (length a).
Proof. induction a as [|y a IH]; simpl; eauto. rewrite <- Nat.add_1_r. eauto. Qed.

Lemma edit_distance_nil_l b : edit_distance [] b (length b).
Proof. split; [apply align_from_nil|]. intros m ->%align_nil_l. done. Qed.

Lemma edit_distance_nil_r a : edit_distance a [] (length a).
Proof. split; [apply align_to_nil|]. intros m ->%align_nil_r. done. Qed.

(** The recurrence each cell of the table computes. *)
Lemma edit_distance_snoc a x b y up left diag :
  edit_distance a (b ++ [y]) up -> edit_distance (a ++ [x]) b left -> edit_distance a b diag ->
  edit_distance (a ++ [x]) (b ++ [y])
    (Nat.min (Nat.min (up + 1) (left + 1)) (diag + cost x y)).
Proof.
  intros [Hu Hu'] [Hl Hl'] [Hd Hd']. split.
  - destruct (Nat.min_spec (Nat.min (up + 1) (left + 1)) (diag + cost x y)) as [[_ ->]|[_ ->]];
      [|by apply align_sub_snoc].
    destruct (Nat.min_spec (up + 1) (left + 1)) as [[_ ->]|[_ ->]];
      [by apply align_del_snoc|by apply align_ins_snoc].
  - intros m [(k & Hk & ->)|[(k & Hk & ->)|(k & Hk & ->)]]%align_snoc_inv.
    + specialize (Hu' _ Hk). lia.
    + specialize (Hl' _ Hk). lia.
    + specialize (Hd' _ Hk). lia.
Qed.

Lemma edit_distance_unique a b n m : edit_distance a b n -> edit_distance a b m -> n = m.
Proof. intros [? H1] [? H2]. apply Nat.le_antisymm; auto. Qed.

(** ** The rows of the table *)

Section rows.
Context (b : list char).

  (** Columns [0 .. k] of [row] hold the distances from [a] to the prefixes of [b]. *)
Definition row_upto (a : list char) (k : nat) (row : list nat) : Prop :=
    length row = length b + 1 /\
    forall j, j <= k -> exists d, row !! j = Some d /\ edit_distance a (take j b) d.

Lemma row_init : row_upto [] (length b) (seq 0 (length b + 1)).
  Proof.
    split; [by rewrite length_seq|]. intros j Hj. exists j. split.
    - rewrite lookup_seq_lt by lia. f_equal; lia.
    - rewrite <- (length_take_le b j) at 2 by done. apply edit_distance_nil_l.
  Qed.

Lemma lev_inner_row a x b1 b2 prev curr :
    b = b1 ++ b2 -> row_upto a (length b) prev -> row_upto (a ++ [x]) (length b1) curr ->
    exists row, lev_inner x b2 (length b1) prev curr = Some row /\
      row_upto (a ++ [x]) (length b) row.
  Proof.
    revert b1 curr. induction b2 as [|y b2 IH]; intros b1 curr Hb Hp Hc; simpl.
    { rewrite app_nil_r in Hb. rewrite <- Hb in Hc. eauto. }
    pose proof Hp as [Hpl Hpd]. pose proof Hc as [Hcl Hcd].
    assert (Hlen : length b = length b1 + S (length b2)) by (by rewrite Hb, length_app).
    destruct (Hpd (length b1 + 1)) as (up & -> & Hup); [lia|]. simpl.
    destruct (Hcd (length b1)) as (left & -> & Hleft); [lia|]. simpl.
    destruct (Hpd (length b1)) as (diag & -> & Hdiag); [lia|]. simpl.
    rewrite decide_True by lia.
    assert (Ht : take (length b1) b = b1) by (rewrite Hb; apply take_app_length).
    assert (Ht' : take (length b1 + 1) b = b1 ++ [y]).
    { rewrite Hb, (cons_middle y), app_assoc.
      replace (length b1 + 1) with (length (b1 ++ [y])) by (rewrite length_app; done).
      apply take_app_length. }
    rewrite Ht, Ht' in *.
    replace (length b1 + 1) with (length (b1 ++ [y])) by (rewrite length_app; done).
    apply IH; [by rewrite Hb, (cons_middle y), app_assoc|done|].
    split; [by rewrite length_insert|]. intros j Hj. rewrite length_app in Hj. simpl in Hj.
    destruct (decide (j = length b1 + 1)) as [->|Hne].
    - replace (length (b1 ++ [y])) with (length b1 + 1) by (rewrite length_app; done).
      rewrite list_lookup_insert_eq by lia. eexists. split; [done|].
      rewrite Ht'. by apply edit_distance_snoc.
    - replace (length (b1 ++ [y])) with (length b1 + 1) by (rewrite length_app; done).
      rewrite list_lookup_insert_ne by done. apply Hcd. lia.
  Qed.

Lemma lev_outer_row a1 a2 prev curr :
    row_upto a1 (length b) prev -> length curr = length b + 1 ->
    exists row, lev_outer a2 (length a1) b prev curr = Some row /\
      row_upto (a1 ++ a2) (length b) row.
  Proof.
    revert a1 prev curr. induction a2 as [|x a2 IH]; intros a1 prev curr Hp Hc; simpl.
    { rewrite app_nil_r. eauto. }
    rewrite decide_True by lia.
    destruct (lev_inner_row a1 x [] b prev (<[0:=length a1 + 1]> curr)) as (row & Hrow & Hok).
    - done.
    - done.
    - split; [by rewrite length_insert|]. intros j Hj. simpl in Hj.
      assert (j = 0) as -> by lia. rewrite list_lookup_insert_eq by lia.
      eexists. split; [done|]. rewrite take_0.
      replace (length a1 + 1) with (length (a1 ++ [x])) by (rewrite length_app; done).
      apply edit_distance_nil_r.
    - simpl in Hrow. rewrite Hrow. simpl.
      replace (length a1 + 1) with (length (a1 ++ [x])) by (rewrite length_app; done).
      replace (a1 ++ x :: a2) with ((a1 ++ [x]) ++ a2) by (by rewrite <- app_assoc).
      apply IH; [done|]. by destruct Hp.
  Qed.
End rows.

(** ** Selecting a candidate *)

Lemma min_by_dist_None l : min_by_dist l = None <-> l = [].
Proof. destruct l as [|x l]; simpl; [done|]. repeat case_match; done. Qed.

(** The selected pair is the first one with the least distance. *)
Lemma min_by_dist_Some l x :
  min_by_dist l = Some x ->
  exists l1 l2, l = l1 ++ x :: l2 /\
    (forall y, y ∈ l1 -> x.2 < y.2) /\ (forall y, y ∈ l2 -> x.2 <= y.2).
Proof.
  revert x. induction l as [|z l IH]; intros x; simpl; [done|].
  destruct (min_by_dist l) as [y|] eqn:E.
  - destruct (IH y eq_refl) as (l1 & l2 & -> & H1 & H2).
    case_decide; intros [= <-].
    + exists (z :: l1), l2. split; [done|]. split; [|done].
      intros w [->|Hw]%elem_of_cons; auto.
    + exists [], (l1 ++ y :: l2). split; [done|]. split; [by intros w ?%elem_of_nil|].
      intros w [Hw|[->|Hw]%elem_of_cons]%elem_of_app; [|lia|].
      * specialize (H1 _ Hw). lia.
      * specialize (H2 _ Hw). lia.
  - apply min_by_dist_None in E as ->. intros [= <-]. exists [], []. set_solver.
Qed.

Lemma omap_split {A B} (f : A -> option B) l l1 y l2 :
  omap f l = l1 ++ y :: l2 ->
  exists pre x post, l = pre ++ x :: post /\ omap f pre = l1 /\ f x = Some y /\ omap f post = l2.
Proof.
  revert l1. induction l as [|x l IH]; intros l1; simpl; [by destruct l1|].
  destruct (f x) as [z|] eqn:Hf.
  - destruct l1 as [|w l1]; simpl; intros [= -> Heq].
    + exists [], x, l. done.
    + destruct (IH _ Heq) as (pre & x' & post & -> & <- & Hx & <-).
      exists (x :: pre), x', post. simpl. by rewrite Hf.
  - intros Heq. destruct (IH _ Heq) as (pre & x' & post & -> & <- & Hx & <-).
    exists (x :: pre), x', post. simpl. by rewrite Hf.
Qed.

Lemma in_range_Some target max_dist c p :
  in_range target max_dist c = Some p <->
  exists d, levenshtein target c = Some d /\ 0 < d <= max_dist /\ p = (c, d).
Proof.
  unfold in_range. destruct (levenshtein target c) as [d|]; simpl; [|naive_solver].
  case_decide; naive_solver.
Qed.

(** ** Properties *)

(** On strings of one-byte characters [levenshtein] never indexes out of
    its rows and returns the edit distance: some alignment has that cost and
    none has a smaller one. *)
Theorem levenshtein_correct (a b : list char) :
  is_ascii a -> is_ascii b ->
  exists d, levenshtein a b = Some d /\ edit_distance a b d.
Proof.
  unfold levenshtein, is_ascii. intros Ha Hb. rewrite Ha, Hb.
  case_decide as E; [apply nil_length_inv in E as ->; eauto using edit_distance_nil_l|].
  case_decide as E'; [apply nil_length_inv in E' as ->; eauto using edit_distance_nil_r|].
  destruct (lev_outer_row b [] a (seq 0 (length b + 1)) (replicate (length b + 1) 0))
    as (row & Hrow & Hlen & Hd).
  - apply row_init.
  - by rewrite length_replicate.
  - simpl in Hrow. rewrite Hrow. simpl. destruct (Hd (length b)) as (d & ? & He); [done|].
    rewrite firstn_all in He. eauto.
Qed.

Lemma levenshtein_correct_witness :
  exists d, levenshtein [107; 105; 116]%Z [115; 105; 116; 115]%Z = Some d /\
    edit_distance [107; 105; 116]%Z [115; 105; 116; 115]%Z d.
Proof. apply levenshtein_correct; reflexivity. Defined.

Lemma align_refl_0 a b : align a b 0 -> a = b.
Proof.
  intros H. remember 0 as n eqn:E. revert E.
  induction H; intros; try lia; [done|].
  unfold cost in E. destruct (Z.eqb_spec x y); [subst|lia]. f_equal. apply IHalign. lia.
Qed.

Lemma align_refl a : align a a 0.
Proof.
  induction a as [|x a IH]; [done|].
  replace 0 with (0 + cost x x) by (unfold cost; by rewrite Z.eqb_refl). eauto.
Qed.

Lemma edit_distance_pos a b d : edit_distance a b d -> 0 < d <-> a <> b.
Proof.
  intros [Ha Hm]. split.
  - intros Hd ->. specialize (Hm 0 (align_refl b)). lia.
  - intros Hne. destruct d; [by apply align_refl_0 in Ha|lia].
Qed.

(** [closest_match] on one-byte strings: an answer is a candidate different
    from the target, within [max_dist] edits of it, no candidate that is also
    different is nearer, and the earlier candidates are strictly farther (or
    equal to the target, or out of range); [None] means that every candidate is
    the target itself or farther than [max_dist]. *)
Theorem closest_match_spec (target : list char) (cands : list (list char)) (max_dist : nat) :
  is_ascii target -> Forall is_ascii cands ->
  match closest_match target cands max_dist with
  | Some c =>
      exists pre post d, cands = pre ++ c :: post /\ c <> target /\
        edit_distance target c d /\ d <= max_dist /\
        (forall c' d', c' ∈ cands -> c' <> target -> edit_distance target c' d' -> d <= d') /\
        (forall c' d', c' ∈ pre -> c' <> target -> edit_distance target c' d' -> d < d')
  | None =>
      forall c d, c ∈ cands -> edit_distance target c d -> c = target \/ max_dist < d
  end.
Proof.
  intros Ht Hc. unfold closest_match.
  assert (Hin : forall c, c ∈ cands -> exists d,
            levenshtein target c = Some d /\ edit_distance target c d).
  { intros c Hcin. rewrite Forall_forall in Hc. apply levenshtein_correct; auto. }
  destruct (min_by_dist (omap (in_range target max_dist) cands)) as [[c d]|] eqn:E; simpl.
  - apply min_by_dist_Some in E as (l1 & l2 & Hl & H1 & H2).
    destruct (omap_split _ _ _ _ _ Hl) as (pre & c0 & post & Hcands & Hpre & Hr & Hpost).
    apply in_range_Some in Hr as (d0 & Hlev & Hrng & [= -> ->]).
    destruct (Hin c0) as (d1 & Hlev' & Hed); [set_solver|]. assert (d0 = d1) as -> by congruence.
    assert (Hbound : forall c' d', c' ∈ cands -> c' <> target -> edit_distance target c' d' ->
              d' <= max_dist -> in_range target max_dist c' = Some (c', d')).
    { intros c' d' Hc' Hne Hed' Hle. destruct (Hin c' Hc') as (d2 & Hl2 & He2).
      rewrite (edit_distance_unique _ _ _ _ Hed' He2) in *.
      apply in_range_Some. exists d2. split; [done|]. split; [|done]. split; [|done].
      by apply (edit_distance_pos target c' d2). }
    exists pre, post, d1. split; [done|].
    split; [intros ->; apply (edit_distance_pos target target d1) in Hed; naive_solver lia|].
    split; [done|]. split; [lia|]. split.
    + intros c' d' Hc' Hne Hed'. destruct (decide (d' <= max_dist)); [|lia].
      pose proof (Hbound c' d' Hc' Hne Hed' l) as Hr.
      assert (Hm : (c', d') ∈ l1 ++ (c0, d1) :: l2).
      { rewrite <- Hl. apply list_elem_of_omap. eauto. }
      apply elem_of_app in Hm as [Hm|[[= <- <-]|Hm]%elem_of_cons]; [|lia|].
      * specialize (H1 _ Hm). simpl in H1. lia.
      * by specialize (H2 _ Hm).
    + intros c' d' Hc' Hne Hed'. destruct (decide (d' <= max_dist)); [|lia].
      assert (Hr : in_range target max_dist c' = Some (c', d')) by (apply Hbound; set_solver).
      apply (H1 (c', d')). rewrite <- Hpre. apply list_elem_of_omap. eauto.
  - apply min_by_dist_None in E. intros c d Hcin Hed.
    destruct (decide (c = target)); [by left|]. right.
    destruct (decide (d <= max_dist)); [|lia]. exfalso.
    destruct (Hin c Hcin) as (d1 & Hlev & Hed').
    rewrite (edit_distance_unique _ _ _ _ Hed Hed') in *.
    assert (Hr : (c, d1) ∈ omap (in_range target max_dist) cands).
    { apply list_elem_of_omap. exists c. split; [done|]. apply in_range_Some. exists d1.
      split; [done|]. split; [|done]. split; [|done]. by apply (edit_distance_pos target c d1). }
    rewrite E in Hr. by apply elem_of_nil in Hr.
Qed.

Lemma closest_match_spec_witness :
  exists pre post d, [[97]; [98]]%Z = pre ++ [97]%Z :: post /\ [97]%Z <> [99]%Z /\
    edit_distance [99]%Z [97]%Z d /\ d <= 1 /\
    (forall c' d', c' ∈ [[97]; [98]]%Z -> c' <> [99]%Z -> edit_distance [99]%Z c' d' -> d <= d') /\
    (forall c' d', c' ∈ pre -> c' <> [99]%Z -> edit_distance [99]%Z c' d' -> d < d').
Proof.
  apply (closest_match_spec [99]%Z [[97]; [98]]%Z 1); [reflexivity|].
  repeat constructor; reflexivity.
Defined.

(** The rows are sized by bytes and filled by characters.  When the second
    string has a character of more than one byte, the cell that is read was
    never written: two different strings come out at distance 0, so
    [closest_match] drops a candidate one edit away. *)
Theorem levenshtein_multibyte_zero :
  let a := [97]%Z in let b := [233]%Z in
  levenshtein a b = Some 0 /\ edit_distance a b 1 /\ closest_match a [b] 2 = None.
Proof.
  split; [vm_compute; reflexivity|]. split; [|vm_compute; reflexivity].
  split; [apply (align_sub 97 233 [] [] 0); constructor|].
  intros m Hm. destruct m; [|lia]. by apply align_refl_0 in Hm.
Qed.
