(* ===== verification/Gid.v ===== *)
(** * Stable hashes and 256-bit type identifiers ([src/src/hash.rs], [src/src/gid.rs])

    Module [Hash] is the FNV-1a content hash of definition paths; Module [Gid]
    is [TypeId], the three readings of its word 2, the word-3 flags and the
    metadata stream.  Words are [Z] in [0 .. 2^64 - 1] (predicate [wf]).  The
    [debug_assert!]s of the sources are hypotheses of the properties. *)

From stdpp Require Import base list strings.
From Stdlib Require Import ZArith Lia.
From S2P Require Import Prelude.
Open Scope Z_scope.

Module Hash.

(** ** FNV-1a *)

Definition FNV_OFFSET_BASIS_64 : Z := 0xcbf29ce484222325.
Definition FNV_PRIME_64 : Z := 0x00000100000001b3.

(** One byte: xor, then [wrapping_mul] by the prime. *)
Definition fnv_step (hash b : Z) : Z := wrap_u 64 (Z.lxor hash b * FNV_PRIME_64).

Definition fnv1a_64 (hash : Z) (bytes : list Z) : Z := foldl fnv_step hash bytes.

Definition compute_module_hash (module_path : list Z) : Z :=
  fnv1a_64 FNV_OFFSET_BASIS_64 module_path.

Inductive DefPath : Type :=
| Named (name : list Z)
| Anonymous (parent_hash structural_hash : Z).

(** [u64::to_le_bytes]. *)
Definition to_le_bytes (w : Z) : list Z := le_bytes 8 w.

Definition compute_symbol_hash (p : DefPath) : Z :=
  match p with
  | Named name =>
      let h := fnv1a_64 FNV_OFFSET_BASIS_64 [0] in
      fnv1a_64 h name
  | Anonymous parent_hash structural_hash =>
      let h := fnv1a_64 FNV_OFFSET_BASIS_64 [1] in
      let h := fnv1a_64 h (to_le_bytes parent_hash) in
      fnv1a_64 h (to_le_bytes structural_hash)
  end.

(** ** Injectivity of the rounds *)

(** The inverse of the prime modulo [2^64]. *)
Definition FNV_PRIME_INV : Z := 0xce965057aff6957b.

Lemma fnv_prime_inv : (FNV_PRIME_64 * FNV_PRIME_INV) mod 2 ^ 64 = 1.
Proof. reflexivity. Qed.

Definition in_u64 (z : Z) : Prop := 0 <= z <= umax 64.
Definition is_byte (b : Z) : Prop := 0 <= b < 256.

Lemma wrap_mul_prime_inj x y :
  0 <= x < 2 ^ 64 -> 0 <= y < 2 ^ 64 ->
  wrap_u 64 (x * FNV_PRIME_64) = wrap_u 64 (y * FNV_PRIME_64) -> x = y.
Proof.
  unfold wrap_u. intros Hx Hy H.
  rewrite <- (Z.mod_small x (2 ^ 64)), <- (Z.mod_small y (2 ^ 64)) by done.
  assert (forall z, z mod 2 ^ 64 =
            ((z * FNV_PRIME_64) mod 2 ^ 64 * FNV_PRIME_INV) mod 2 ^ 64) as Hinv.
  { intros z. rewrite Z.mul_mod_idemp_l by done. rewrite <- Z.mul_assoc.
    rewrite <- Z.mul_mod_idemp_r by done. by rewrite fnv_prime_inv, Z.mul_1_r. }
  rewrite (Hinv x), (Hinv y), H. done.
Qed.

Lemma lxor_u64 x y : in_u64 x -> in_u64 y -> 0 <= Z.lxor x y < 2 ^ 64.
Proof.
  intros Hx Hy. assert (in_u64 (Z.lxor x y)); [|unfold in_u64, umax in *; lia].
  apply in_range_bits; [lia|]. intros m Hm. rewrite Z.lxor_spec.
  by rewrite (testbit_high 64 x), (testbit_high 64 y).
Qed.

Lemma byte_u64 b : is_byte b -> in_u64 b.
Proof. unfold is_byte, in_u64, umax. lia. Qed.

Lemma fnv_step_u64 h b : in_u64 (fnv_step h b).
Proof. unfold fnv_step, wrap_u, in_u64, umax. pose proof (Z.mod_pos_bound (Z.lxor h b * FNV_PRIME_64) (2 ^ 64)). lia. Qed.

Lemma fnv_step_inj_l h h' b :
  in_u64 h -> in_u64 h' -> in_u64 b -> fnv_step h b = fnv_step h' b -> h = h'.
Proof.
  intros Hh Hh' Hb H. apply wrap_mul_prime_inj in H; [|by apply lxor_u64..].
  apply (f_equal (Z.lxor b)) in H. rewrite !(Z.lxor_comm b), !Z.lxor_assoc, !Z.lxor_nilpotent in H.
  by rewrite !Z.lxor_0_r in H.
Qed.

Lemma fnv_step_inj_r h b b' :
  in_u64 h -> in_u64 b -> in_u64 b' -> fnv_step h b = fnv_step h b' -> b = b'.
Proof.
  intros Hh Hb Hb' H. apply wrap_mul_prime_inj in H; [|by apply lxor_u64..].
  apply (f_equal (Z.lxor h)) in H. by rewrite <- !Z.lxor_assoc, !Z.lxor_nilpotent, !Z.lxor_0_l in H.
Qed.

Lemma fnv1a_64_u64 h bs : in_u64 h -> in_u64 (fnv1a_64 h bs).
Proof.
  unfold fnv1a_64. revert h; induction bs as [|b bs IH]; intros h Hh; simpl; [done|].
  apply IH, fnv_step_u64.
Qed.

Lemma fnv1a_64_inj h h' bs :
  in_u64 h -> in_u64 h' -> Forall is_byte bs -> fnv1a_64 h bs = fnv1a_64 h' bs -> h = h'.
Proof.
  unfold fnv1a_64. intros Hh Hh' Hbs. revert h h' Hh Hh'.
  induction Hbs as [|b bs Hb _ IH]; intros h h' Hh Hh' H; simpl in H; [done|].
  apply IH in H; [|apply fnv_step_u64..].
  apply fnv_step_inj_l in H; auto using byte_u64.
Qed.

Lemma offset_basis_u64 : in_u64 FNV_OFFSET_BASIS_64.
Proof. unfold in_u64, FNV_OFFSET_BASIS_64, umax. lia. Qed.

(** The test vectors of [hash.rs]. *)
Example module_hash_golden :
  compute_module_hash [99; 114; 97; 116; 101; 58; 58; 97] = 0xdbc18e8e2c15a207.
Proof. reflexivity. Qed.

Example symbol_hash_golden : compute_symbol_hash (Named [70; 111; 111]) = 0xed6f617e45345949.
Proof. reflexivity. Qed.

(** Two module paths of one shape that differ in a single byte never share
    the content hash of GID word 0: every FNV round is a bijection of the
    running hash, and injective in the byte it folds. *)
Theorem module_hash_single_byte (pre post : list Z) (x y : Z) :
  Forall is_byte pre -> Forall is_byte post -> is_byte x -> is_byte y -> x <> y ->
  compute_module_hash (pre ++ x :: post) <> compute_module_hash (pre ++ y :: post).
Proof.
  intros Hpre Hpost Hx Hy Hne H. apply Hne. unfold compute_module_hash, fnv1a_64 in H.
  rewrite !foldl_app in H. simpl in H.
  apply fnv1a_64_inj in H; [|apply fnv_step_u64..|done].
  apply fnv_step_inj_r in H; auto using byte_u64.
  apply fnv1a_64_u64, offset_basis_u64.
Qed.

Lemma module_hash_single_byte_witness :
  compute_module_hash ([97; 58; 58] ++ 98 :: [99]) <> compute_module_hash ([97; 58; 58] ++ 100 :: [99]).
Proof. apply module_hash_single_byte; repeat constructor; done. Defined.

End Hash.

Module Gid.

(** ** Masks and flags *)

Definition ESCAPE_HATCH_MASK : Z := Z.shiftl 1 63.
Definition INDEX_MASK : Z := unot 64 ESCAPE_HATCH_MASK.
Definition VISIBILITY_MASK : Z := 0xF000000000000000.
Definition FAST_PARAM_REGION_MAX : Z := 0x0FFF.
Definition FAST_PARAM_VARIANCE_MASK : Z := 0x0007.
Definition FAST_RETURN_PROV_SHIFT : Z := 9.
Definition FAST_RETURN_PROV_MASK : Z := 0x0E00.
Definition ATTR_INLINE : Z := Z.shiftl 1 52.
Definition ATTR_INLINE_ALWAYS : Z := Z.shiftl 1 53.
Definition ATTR_COLD : Z := Z.shiftl 1 54.
Definition ATTR_MUST_USE : Z := Z.shiftl 1 55.
Definition TYPE_IS_POD : Z := Z.shiftl 1 44.
Definition LOCAL_DEFERRED_BIT : Z := Z.shiftl 1 43.
Definition SYNTHETIC_MONO_FLAG : Z := Z.shiftl 1 42.
Definition IS_GENERIC_INST_FLAG : Z := Z.shiftl 1 41.
Definition GENERIC_DIGEST_FLAG : Z := Z.shiftl 1 40.

(** ** Identifiers *)

(** [words: [u64; 4]]. *)
Record TypeId : Type := mkTypeId { word0 : Z; word1 : Z; word2 : Z; word3 : Z }.

#[export] Instance TypeId_eq_dec : EqDecision TypeId.
Proof. solve_decision. Defined.

Definition wf (t : TypeId) : Prop :=
  0 <= word0 t <= umax 64 /\ 0 <= word1 t <= umax 64 /\
  0 <= word2 t <= umax 64 /\ 0 <= word3 t <= umax 64.

Definition new (module_hash symbol_hash generic_hash flags : Z) : TypeId :=
  mkTypeId module_hash symbol_hash generic_hash flags.

Definition module_id (t : TypeId) : Z := word0 t.
Definition symbol_id (t : TypeId) : Z := word1 t.
Definition generic_hash (t : TypeId) : Z := word2 t.

Definition is_local_deferred (t : TypeId) : bool :=
  negb (Z.land (word3 t) LOCAL_DEFERRED_BIT =? 0).

Definition set_word2 (t : TypeId) (w : Z) : TypeId := mkTypeId (word0 t) (word1 t) w (word3 t).
Definition set_word3 (t : TypeId) (w : Z) : TypeId := mkTypeId (word0 t) (word1 t) (word2 t) w.

(** The content digest of an argument list. *)
Definition generic_digest (args : list TypeId) : Z :=
  let step h w := wrap_u 64 (Z.lxor h w * 0x010000000001b3) in
  let h := foldl (fun h a => foldl step h [word0 a; word1 a; word2 a; word3 a])
             0xcbf29ce484222325 args in
  Z.land h INDEX_MASK.

Inductive Word2Arena : Type := Generics | SlowMeta.
Inductive Word2Scope : Type := Local_ | Global_.
Inductive Word2 : Type :=
| FastLifetime (bits : Z)
| Index (index : Z) (arena : Word2Arena) (scope : Word2Scope)
| GenericDigest (digest : Z).

Definition classify_word2 (t : TypeId) : Word2 :=
  if Z.land (word2 t) ESCAPE_HATCH_MASK =? 0 then FastLifetime (word2 t)
  else if negb (Z.land (word3 t) GENERIC_DIGEST_FLAG =? 0)
  then GenericDigest (Z.land (word2 t) INDEX_MASK)
  else
    let arena := if negb (Z.land (word3 t) IS_GENERIC_INST_FLAG =? 0) then Generics else SlowMeta in
    let scope := if negb (Z.land (word3 t) LOCAL_DEFERRED_BIT =? 0) then Local_ else Global_ in
    Index (Z.land (word2 t) INDEX_MASK) arena scope.

Definition set_arena_index (t : TypeId) (index : Z) (arena : Word2Arena) (scope : Word2Scope)
    : TypeId :=
  let w2 := Z.lor ESCAPE_HATCH_MASK (Z.land index INDEX_MASK) in
  let w3 := match arena with
            | Generics => Z.lor (word3 t) IS_GENERIC_INST_FLAG
            | SlowMeta => Z.land (word3 t) (unot 64 IS_GENERIC_INST_FLAG)
            end in
  let w3 := match scope with
            | Local_ => Z.lor w3 LOCAL_DEFERRED_BIT
            | Global_ => Z.land w3 (unot 64 LOCAL_DEFERRED_BIT)
            end in
  let w3 := Z.land w3 (unot 64 GENERIC_DIGEST_FLAG) in
  mkTypeId (word0 t) (word1 t) w2 w3.

Definition set_generic_digest (t : TypeId) (digest : Z) : TypeId :=
  let w2 := Z.lor ESCAPE_HATCH_MASK (Z.land digest INDEX_MASK) in
  let w3 := Z.lor (word3 t) (Z.lor IS_GENERIC_INST_FLAG GENERIC_DIGEST_FLAG) in
  let w3 := Z.land w3 (unot 64 LOCAL_DEFERRED_BIT) in
  mkTypeId (word0 t) (word1 t) w2 w3.

(** ** Lifetimes *)

Record UnboundedFunctionMetadata : Type := {
  type_arguments : list TypeId;
  lifetime_regions : list Z;
  trait_vtables : list Z;
}.

Inductive LifetimeSignature : Type :=
| FastPath (bits : Z)
| SlowPath (meta : UnboundedFunctionMetadata).

(** [None] is the index panic of [&arena[index]]. *)
Definition lifetime_context (t : TypeId) (arena : list UnboundedFunctionMetadata)
    : option LifetimeSignature :=
  let word_2 := word2 t in
  if negb (Z.land word_2 ESCAPE_HATCH_MASK =? 0) then
    let index := Z.land word_2 INDEX_MASK in
    meta ← arena !! Z.to_nat index; Some (SlowPath meta)
  else Some (FastPath word_2).

Definition extract_fast_param (t : TypeId) (param_index : Z) : Z :=
  Z.land (Z.shiftr (word2 t) (param_index * 16)) 0xFFFF.

(** The [Err] carries the source's message. *)
Definition region_overflow : string := "Lifetime region overflowed 12 bits. Must use Slow Path.".

Definition try_set_fast_param (t : TypeId) (param_index region_id variance_flags : Z)
    : result TypeId string :=
  if FAST_PARAM_REGION_MAX <? region_id then Err region_overflow
  else
    let payload := Z.lor (Z.shiftl (Z.land variance_flags FAST_PARAM_VARIANCE_MASK) 12)
                         (Z.land region_id FAST_PARAM_REGION_MAX) in
    let shift := param_index * 16 in
    let mask := unot 64 (wrap_u 64 (Z.shiftl 0xFFFF shift)) in
    Ok (set_word2 t (Z.lor (Z.land (word2 t) mask) (wrap_u 64 (Z.shiftl payload shift)))).

Definition extract_return_provenance (t : TypeId) : Z :=
  Z.shiftr (Z.land (extract_fast_param t 0) FAST_RETURN_PROV_MASK) FAST_RETURN_PROV_SHIFT.

Definition set_return_provenance (t : TypeId) (prov : Z) : TypeId :=
  let slot := extract_fast_param t 0 in
  let packed := Z.lor (Z.land slot (unot 16 FAST_RETURN_PROV_MASK))
                      (Z.land (wrap_u 16 (Z.shiftl prov FAST_RETURN_PROV_SHIFT))
                              FAST_RETURN_PROV_MASK) in
  set_word2 t (Z.lor (Z.land (word2 t) (unot 64 0xFFFF)) packed).

(** ** Word 3 *)

Inductive Visibility : Type := Private | CratePublic | FullyPublic.

(** [None] is the panic of a build with debug assertions; a release build
    answers [Private] there ([visibility_release]). *)
Definition visibility (t : TypeId) : option Visibility :=
  let vis_bits := Z.shiftr (Z.land (word3 t) VISIBILITY_MASK) 60 in
  if vis_bits =? 0 then Some Private
  else if vis_bits =? 1 then Some CratePublic
  else if vis_bits =? 2 then Some FullyPublic
  else None.

Definition visibility_release (t : TypeId) : Visibility := default Private (visibility t).

Definition is_trivially_copyable (t : TypeId) : bool := negb (Z.land (word3 t) TYPE_IS_POD =? 0).

Definition should_inline (t : TypeId) : bool :=
  negb (Z.land (word3 t) (Z.lor ATTR_INLINE ATTR_INLINE_ALWAYS) =? 0).

Definition with_flags (t : TypeId) (flags_mask : Z) : TypeId :=
  set_word3 t (Z.lor (word3 t) flags_mask).

Definition with_visibility (t : TypeId) (vis : Visibility) : TypeId :=
  let w3 := Z.land (word3 t) (unot 64 VISIBILITY_MASK) in
  let vis_bits := match vis with Private => 0 | CratePublic => 1 | FullyPublic => 2 end in
  set_word3 t (Z.lor w3 (Z.shiftl vis_bits 60)).

(** ** Bit-level lemmas *)

Lemma flag_test w k : 0 <= k -> negb (Z.land w (Z.shiftl 1 k) =? 0) = Z.testbit w k.
Proof. intros. by rewrite land_flag, negb_involutive. Qed.

(** [classify_word2] read through single bits. *)
Lemma classify_word2_bits t :
  classify_word2 t =
    if Z.testbit (word2 t) 63 then
      if Z.testbit (word3 t) 40 then GenericDigest (Z.land (word2 t) INDEX_MASK)
      else Index (Z.land (word2 t) INDEX_MASK)
             (if Z.testbit (word3 t) 41 then Generics else SlowMeta)
             (if Z.testbit (word3 t) 43 then Local_ else Global_)
    else FastLifetime (word2 t).
Proof.
  unfold classify_word2, ESCAPE_HATCH_MASK, GENERIC_DIGEST_FLAG, IS_GENERIC_INST_FLAG,
    LOCAL_DEFERRED_BIT.
  rewrite land_flag, !flag_test by lia. by destruct (Z.testbit (word2 t) 63).
Qed.

Lemma INDEX_MASK_ones : INDEX_MASK = Z.ones 63.
Proof. reflexivity. Qed.

(** A 63-bit payload below the escape bit is read back unchanged. *)
Lemma payload_roundtrip i :
  0 <= i < 2 ^ 63 ->
  Z.land (Z.lor ESCAPE_HATCH_MASK (Z.land i INDEX_MASK)) INDEX_MASK = i /\
  Z.testbit (Z.lor ESCAPE_HATCH_MASK (Z.land i INDEX_MASK)) 63 = true.
Proof.
  intros Hi. split; [|reflexivity || (rewrite Z.lor_spec; done)].
  rewrite INDEX_MASK_ones. unfold ESCAPE_HATCH_MASK. bitwise.
  all: symmetry; apply (testbit_high 63 i); unfold umax; lia.
Qed.

(** Evaluate a flag expression: the bits of the old word are generalised, the
    rest is closed. *)
Ltac flag_bits w :=
  autorewrite with vx_bits;
  repeat match goal with |- context [Z.testbit w ?k] => destruct (Z.testbit w k) end;
  reflexivity.

Lemma set_arena_index_flags t i a s :
  Z.testbit (word3 (set_arena_index t i a s)) 40 = false /\
  Z.testbit (word3 (set_arena_index t i a s)) 41 = (if a is Generics then true else false) /\
  Z.testbit (word3 (set_arena_index t i a s)) 43 = (if s is Local_ then true else false).
Proof.
  unfold set_arena_index, IS_GENERIC_INST_FLAG, LOCAL_DEFERRED_BIT, GENERIC_DIGEST_FLAG; cbn [word3].
  destruct a, s; split_and!; flag_bits (word3 t).
Qed.

Lemma set_generic_digest_flags t d :
  Z.testbit (word3 (set_generic_digest t d)) 40 = true /\
  Z.testbit (word3 (set_generic_digest t d)) 43 = false.
Proof.
  unfold set_generic_digest, IS_GENERIC_INST_FLAG, LOCAL_DEFERRED_BIT, GENERIC_DIGEST_FLAG; cbn [word3].
  split; flag_bits (word3 t).
Qed.

(** A slot is a 16-bit field: reading a slot is shifting and masking. *)
Lemma extract_fast_param_bits t p m :
  0 <= p -> 0 <= m ->
  Z.testbit (extract_fast_param t p) m = (m <? 16) && Z.testbit (word2 t) (m + p * 16).
Proof.
  intros Hp Hm. unfold extract_fast_param. change 0xFFFF with (Z.ones 16).
  autorewrite with vx_bits. bit_cases; simpl; by rewrite ?andb_true_r, ?andb_false_r.
Qed.

(** The 16-bit payload [try_set_fast_param] packs. *)
Definition fast_payload (region_id variance_flags : Z) : Z :=
  Z.lor (Z.shiftl (Z.land variance_flags FAST_PARAM_VARIANCE_MASK) 12)
        (Z.land region_id FAST_PARAM_REGION_MAX).

Lemma fast_payload_bits r v m :
  0 <= m ->
  Z.testbit (fast_payload r v) m =
    if m <? 12 then Z.testbit r m
    else if m <? 15 then Z.testbit v (m - 12) else false.
Proof.
  intros Hm. unfold fast_payload, FAST_PARAM_VARIANCE_MASK, FAST_PARAM_REGION_MAX.
  change 0x0007 with (Z.ones 3). change 0x0FFF with (Z.ones 12). by bit_step.
Qed.

Lemma fast_payload_range r v : 0 <= fast_payload r v <= umax 15.
Proof.
  apply in_range_bits; [lia|]. intros m Hm. rewrite fast_payload_bits by lia. by bit_cases.
Qed.

Lemma fast_payload_out r v m : m < 0 \/ 15 <= m -> Z.testbit (fast_payload r v) m = false.
Proof.
  intros [?|?]; [by apply Z.testbit_neg_r|].
  apply (testbit_high 15); [apply fast_payload_range|lia].
Qed.

Lemma wrap_u_small w z : 0 <= z <= umax w -> wrap_u w z = z.
Proof. intros. unfold wrap_u, umax in *. apply Z.mod_small. lia. Qed.

(** Shifting a field of at most [k] bits to a slot below bit 64 loses nothing. *)
Lemma shiftl_slot_range z k p :
  0 <= z <= umax k -> 0 <= k -> 0 <= p -> k + p <= 64 -> 0 <= Z.shiftl z p <= umax 64.
Proof.
  intros Hz Hk Hp Hkp. apply in_range_bits; [lia|]. intros m Hm.
  rewrite testbit_shiftl by lia. apply (testbit_high k); [done|lia].
Qed.

Lemma try_set_fast_param_bits t p r v t' m :
  0 <= p < 4 -> 0 <= m < 64 ->
  try_set_fast_param t p r v = Ok t' ->
  Z.testbit (word2 t') m =
    if (p * 16 <=? m) && (m <? p * 16 + 16)
    then Z.testbit (fast_payload r v) (m - p * 16) else Z.testbit (word2 t) m.
Proof.
  intros Hp Hm. unfold try_set_fast_param. destruct (_ <? r); [done|]. fold (fast_payload r v).
  intros [= <-]. simpl. change 0xFFFF with (Z.ones 16).
  rewrite (wrap_u_small 64 (Z.shiftl (Z.ones 16) _)).
  2: { apply (shiftl_slot_range _ 16); [done|lia..]. }
  rewrite (wrap_u_small 64 (Z.shiftl (fast_payload r v) _)).
  2: { apply (shiftl_slot_range _ 15); [apply fast_payload_range|lia..]. }
  autorewrite with vx_bits.
  destruct (Z.leb_spec (p * 16) m), (Z.ltb_spec m (p * 16 + 16)); bit_cases; simpl;
    try rewrite fast_payload_out by lia; by rewrite ?andb_true_r, ?andb_false_r, ?orb_false_r.
Qed.

(** A word whose bits from 16 on are those of the old one. *)
Lemma set_return_provenance_bits t c m :
  0 <= m < 64 -> 0 <= c <= 7 ->
  Z.testbit (word2 (set_return_provenance t c)) m =
    if (9 <=? m) && (m <? 12) then Z.testbit c (m - 9) else Z.testbit (word2 t) m.
Proof.
  intros Hm Hc. unfold set_return_provenance, FAST_RETURN_PROV_MASK, FAST_RETURN_PROV_SHIFT. simpl.
  rewrite (wrap_u_small 16 (Z.shiftl c 9)).
  2: { apply in_range_bits; [lia|]. intros k Hk. rewrite testbit_shiftl by lia.
       apply (testbit_high 3); [unfold umax; lia|lia]. }
  change 0xE00 with (Z.shiftl (Z.ones 3) 9). change 0xFFFF with (Z.ones 16).
  autorewrite with vx_bits. rewrite extract_fast_param_bits by lia.
  rewrite Z.mul_0_l, Z.add_0_r. bit_cases; simpl; 
    rewrite ?andb_true_r, ?andb_false_r, ?orb_false_r; try done.
Qed.

Lemma visibility_bits_wf w3 v :
  0 <= w3 <= umax 64 -> 0 <= v <= 2 ->
  Z.shiftr (Z.land (Z.lor (Z.land w3 (unot 64 VISIBILITY_MASK)) (Z.shiftl v 60))
              VISIBILITY_MASK) 60 = v.
Proof.
  intros Hw Hv. unfold VISIBILITY_MASK. change 0xF000000000000000 with (Z.shiftl (Z.ones 4) 60).
  bitwise; try (replace (n + 60 - 60) with n by lia; done).
  all: symmetry; apply (testbit_high 2 v); unfold umax; lia.
Qed.

(** ** Properties *)

(** Encoding word 2 as an arena index is undone by [classify_word2]: every
    63-bit index comes back in its own arena and scope, whatever regime the
    word was in before, and the identity words 0 and 1 are kept. *)
Theorem arena_index_roundtrip (t : TypeId) (i : Z) (a : Word2Arena) (s : Word2Scope) :
  0 <= i < 2 ^ 63 ->
  classify_word2 (set_arena_index t i a s) = Index i a s /\
  word0 (set_arena_index t i a s) = word0 t /\ word1 (set_arena_index t i a s) = word1 t /\
  is_local_deferred (set_arena_index t i a s) = (if s is Local_ then true else false).
Proof.
  intros Hi. destruct (payload_roundtrip i Hi) as [H1 H2].
  destruct (set_arena_index_flags t i a s) as (F40 & F41 & F43).
  rewrite classify_word2_bits, F40, F41, F43. simpl word2. rewrite H1, H2.
  split; [by destruct a, s|]. split; [done|]. split; [done|].
  unfold is_local_deferred, LOCAL_DEFERRED_BIT. by rewrite flag_test.
Qed.

Lemma arena_index_roundtrip_witness :
  classify_word2 (set_arena_index (new 1 2 (2 ^ 63) (2 ^ 40)) 5 Generics Local_)
    = Index 5 Generics Local_.
Proof. apply (arena_index_roundtrip (new 1 2 (2 ^ 63) (2 ^ 40)) 5 Generics Local_). lia. Defined.

(** The digest regime and the index regime cannot be confused: a digest is
    read back as that digest and is never deferred, and whichever setter ran
    last decides the reading. *)
Theorem digest_index_exclusive (t : TypeId) (d i : Z) (a : Word2Arena) (s : Word2Scope) :
  0 <= d < 2 ^ 63 -> 0 <= i < 2 ^ 63 ->
  classify_word2 (set_generic_digest t d) = GenericDigest d /\
  is_local_deferred (set_generic_digest t d) = false /\
  classify_word2 (set_generic_digest (set_arena_index t i a s) d) = GenericDigest d /\
  classify_word2 (set_arena_index (set_generic_digest t d) i a s) = Index i a s.
Proof.
  intros Hd Hi.
  assert (forall t, classify_word2 (set_generic_digest t d) = GenericDigest d) as Hdig.
  { intros t'. destruct (payload_roundtrip d Hd) as [H1 H2].
    destruct (set_generic_digest_flags t' d) as [F40 _].
    rewrite classify_word2_bits, F40. simpl word2. by rewrite H1, H2. }
  split; [apply Hdig|]. split; [|split; [apply Hdig|]].
  - unfold is_local_deferred, LOCAL_DEFERRED_BIT. rewrite flag_test by lia.
    apply set_generic_digest_flags.
  - destruct (payload_roundtrip i Hi) as [H1 H2].
    destruct (set_arena_index_flags (set_generic_digest t d) i a s) as (F40 & F41 & F43).
    rewrite classify_word2_bits, F40, F41, F43. simpl word2. rewrite H1, H2. by destruct a, s.
Qed.

Lemma digest_index_exclusive_witness :
  classify_word2 (set_generic_digest (set_arena_index (new 1 2 0 0) 5 SlowMeta Local_) 9)
    = GenericDigest 9.
Proof. apply (digest_index_exclusive (new 1 2 0 0) 9 5 SlowMeta Local_); lia. Defined.

(** The content digest of an argument list always fits the 63-bit payload,
    so [set_generic_digest] stores it without loss. *)
Theorem generic_digest_range (args : list TypeId) (t : TypeId) :
  0 <= generic_digest args < 2 ^ 63 /\
  classify_word2 (set_generic_digest t (generic_digest args)) = GenericDigest (generic_digest args).
Proof.
  assert (0 <= generic_digest args < 2 ^ 63) as Hr.
  { unfold generic_digest. rewrite INDEX_MASK_ones.
    match goal with |- 0 <= Z.land ?w _ < _ => pose proof (land_ones_range w 63) end.
    unfold umax in *. lia. }
  split; [done|]. destruct (payload_roundtrip _ Hr) as [H1 H2].
  destruct (set_generic_digest_flags t (generic_digest args)) as [F40 _].
  rewrite classify_word2_bits, F40. simpl word2. by rewrite H1, H2.
Qed.

(** Writing a lifetime slot on the fast path.  A region above 4095 is
    refused.  Otherwise the slot reads back as that region with the low three
    variance bits, the other three slots and the other words are unchanged, and
    the escape bit is never set: a fast word stays a fast word. *)
Theorem fast_param_frame (t : TypeId) (p r v : Z) :
  0 <= p < 4 -> 0 <= r <= umax 16 -> 0 <= v <= umax 8 -> Z.testbit (word2 t) 63 = false ->
  match try_set_fast_param t p r v with
  | Err _ => FAST_PARAM_REGION_MAX < r
  | Ok t' =>
      r <= FAST_PARAM_REGION_MAX /\
      Z.land (extract_fast_param t' p) FAST_PARAM_REGION_MAX = r /\
      Z.shiftr (extract_fast_param t' p) 12 = Z.land v FAST_PARAM_VARIANCE_MASK /\
      (forall q, 0 <= q < 4 -> q <> p -> extract_fast_param t' q = extract_fast_param t q) /\
      classify_word2 t' = FastLifetime (word2 t') /\
      word0 t' = word0 t /\ word1 t' = word1 t /\ word3 t' = word3 t
  end.
Proof.
  intros Hp Hr Hv H63. destruct (try_set_fast_param t p r v) as [t'|e] eqn:E.
  2: { unfold try_set_fast_param in E. destruct (Z.ltb_spec FAST_PARAM_REGION_MAX r); done. }
  pose proof (fun m Hm => try_set_fast_param_bits t p r v t' m Hp Hm E) as Hbits.
  assert (Hr' : r <= FAST_PARAM_REGION_MAX /\ word0 t' = word0 t /\ word1 t' = word1 t /\
                word3 t' = word3 t).
  { unfold try_set_fast_param in E. destruct (Z.ltb_spec FAST_PARAM_REGION_MAX r); [done|].
    injection E as <-. done. }
  destruct Hr' as (Hr' & -> & -> & ->).
  assert (Hown : forall m, 0 <= m < 16 ->
            Z.testbit (extract_fast_param t' p) m = Z.testbit (fast_payload r v) m).
  { intros m Hm. rewrite extract_fast_param_bits, Hbits by lia.
    bit_cases. simpl. f_equal. lia. }
  unfold FAST_PARAM_REGION_MAX, FAST_PARAM_VARIANCE_MASK in *.
  change 0x0FFF with (Z.ones 12) in *. change 0x0007 with (Z.ones 3).
  split_and!; try done.
  - bitwise; [by rewrite Hown, fast_payload_bits by lia; bit_cases|].
    symmetry. apply (testbit_high 12); [unfold umax; change (Z.ones 12) with 4095 in Hr'; lia|lia].
  - bitwise.
    + rewrite Hown, fast_payload_bits by lia. bit_cases. f_equal. lia.
    + rewrite extract_fast_param_bits by lia. bit_cases; try done. rewrite Hbits by lia.
      bit_cases. simpl. by rewrite fast_payload_out by lia.
  - intros q Hq Hne. bitwise. rewrite !extract_fast_param_bits by lia. bit_cases; try done.
    rewrite Hbits by lia. bit_cases; done.
  - rewrite classify_word2_bits, Hbits, H63 by lia. bit_cases; try done.
    simpl. by rewrite fast_payload_out by lia.
Qed.

Lemma fast_param_frame_witness :
  match try_set_fast_param (new 1 2 0 0) 3 4095 255 with
  | Err _ => FAST_PARAM_REGION_MAX < 4095
  | Ok t' =>
      4095 <= FAST_PARAM_REGION_MAX /\
      Z.land (extract_fast_param t' 3) FAST_PARAM_REGION_MAX = 4095 /\
      Z.shiftr (extract_fast_param t' 3) 12 = Z.land 255 FAST_PARAM_VARIANCE_MASK /\
      (forall q, 0 <= q < 4 -> q <> 3 ->
         extract_fast_param t' q = extract_fast_param (new 1 2 0 0) q) /\
      classify_word2 t' = FastLifetime (word2 t') /\
      word0 t' = 1 /\ word1 t' = 2 /\ word3 t' = 0
  end.
Proof. apply (fast_param_frame (new 1 2 0 0) 3 4095 255); unfold umax; [lia..|reflexivity]. Defined.

Lemma set_return_provenance_frame t c :
  0 <= c <= 7 ->
  Z.land (extract_fast_param (set_return_provenance t c) 0) 0x1FF =
    Z.land (extract_fast_param t 0) 0x1FF /\
  Z.shiftr (extract_fast_param (set_return_provenance t c) 0) 12 =
    Z.shiftr (extract_fast_param t 0) 12 /\
  (forall q, 1 <= q < 4 ->
     extract_fast_param (set_return_provenance t c) q = extract_fast_param t q).
Proof.
  intros Hc. pose proof (fun m Hm => set_return_provenance_bits t c m Hm Hc) as Hbits.
  change 0x1FF with (Z.ones 9). split_and!.
  - bitwise. rewrite !extract_fast_param_bits, Hbits by lia. by bit_cases.
  - bitwise. rewrite !extract_fast_param_bits by lia. bit_cases; try done.
    rewrite Hbits by lia. by bit_cases.
  - intros q Hq. bitwise. rewrite !extract_fast_param_bits by lia. bit_cases; try done.
    rewrite Hbits by lia. by bit_cases.
Qed.

(** The return-provenance code of slot 0 round trips for every 3-bit code,
    and writing it keeps the 9-bit region, the variance bits and every other
    slot. *)
Theorem return_provenance_roundtrip (t : TypeId) (c : Z) :
  0 <= c <= 7 ->
  extract_return_provenance (set_return_provenance t c) = c /\
  Z.land (extract_fast_param (set_return_provenance t c) 0) 0x1FF =
    Z.land (extract_fast_param t 0) 0x1FF /\
  Z.shiftr (extract_fast_param (set_return_provenance t c) 0) 12 =
    Z.shiftr (extract_fast_param t 0) 12 /\
  (forall q, 1 <= q < 4 ->
     extract_fast_param (set_return_provenance t c) q = extract_fast_param t q).
Proof.
  intros Hc. split; [|by apply set_return_provenance_frame].
  pose proof (fun m Hm => set_return_provenance_bits t c m Hm Hc) as Hbits.
  unfold extract_return_provenance, FAST_RETURN_PROV_MASK, FAST_RETURN_PROV_SHIFT.
  change 0xE00 with (Z.shiftl (Z.ones 3) 9). bitwise.
  - rewrite extract_fast_param_bits, Hbits by lia. bit_cases. simpl. f_equal. lia.
  - symmetry. apply (testbit_high 3); unfold umax; lia.
Qed.

Lemma return_provenance_roundtrip_witness :
  extract_return_provenance (set_return_provenance (new 0 0 0x112C 0) 4) = 4.
Proof. apply (return_provenance_roundtrip (new 0 0 0x112C 0) 4). lia. Defined.

(** [with_visibility] is read back by [visibility] for every value, so the
    panic (and the silent [Private] of a release build) of an invalid code is
    never reached on an identifier whose visibility was set; the attribute
    flags below bit 60 are kept. *)
Theorem visibility_roundtrip (t : TypeId) (v : Visibility) (k : Z) :
  wf t -> 0 <= k < 60 ->
  visibility (with_visibility t v) = Some v /\
  Z.testbit (word3 (with_visibility t v)) k = Z.testbit (word3 t) k.
Proof.
  intros (_ & _ & _ & Hw3) Hk. split.
  - unfold visibility, with_visibility. cbn [word3 set_word3].
    by rewrite visibility_bits_wf by (destruct v; lia); destruct v.
  - unfold with_visibility. cbn [word3 set_word3]. unfold VISIBILITY_MASK.
    change 0xF000000000000000 with (Z.shiftl (Z.ones 4) 60).
    autorewrite with vx_bits. bit_cases.
    by rewrite (Z.testbit_neg_r _ (k - 60)), andb_true_r, orb_false_r by lia.
Qed.

Lemma visibility_roundtrip_witness :
  visibility (with_visibility (new 0 0 0 0) FullyPublic) = Some FullyPublic.
Proof. apply (visibility_roundtrip (new 0 0 0 0) FullyPublic 44); unfold wf, umax; simpl; lia. Defined.

(** ** The metadata stream

    [bytemuck::cast_slice] is third-party code.  [Bytemuck] states what it is
    documented to do: it reinterprets a slice of 32-byte values as bytes and
    back, and panics ([None]) when the bytes are not a whole number of values. *)

Class Bytemuck : Type := {
  cast_to_bytes : list TypeId -> list Z;
  cast_from_bytes : list Z -> option (list TypeId);
  cast_to_bytes_length : forall ts, length (cast_to_bytes ts) = (32 * length ts)%nat;
  cast_from_to_bytes : forall ts, Forall wf ts -> cast_from_bytes (cast_to_bytes ts) = Some ts;
}.

(** [slice::split_at]; [None] is its panic. *)
Definition split_at {A} (n : Z) (l : list A) : option (list A * list A) :=
  if n <=? Z.of_nat (length l) then Some (take (Z.to_nat n) l, drop (Z.to_nat n) l) else None.

Lemma split_at_app {A} n (l k : list A) :
  n = Z.of_nat (length l) -> split_at n (l ++ k) = Some (l, k).
Proof.
  intros ->. unfold split_at. rewrite length_app, Nat2Z.id.
  rewrite (proj2 (Z.leb_le _ _)) by lia. by rewrite take_app_length, drop_app_length.
Qed.

Section stream.
Context `{Bytemuck}.

  (** Appends to [output]; the writer of the sources is a byte vector. *)
Definition serialize_metadata_symbols (unique_types : list TypeId) (output : list Z) : list Z :=
    let len := wrap_u 64 (Z.of_nat (length unique_types)) in
    output ++ Hash.to_le_bytes len ++ cast_to_bytes unique_types.

Definition deserialize_metadata_symbols (bytes : list Z) : option (list TypeId * list Z) :=
    '(len_bytes, remaining) ← split_at 8 bytes;
    let len := le_value len_bytes in
    byte_len ← checked_u 64 (len * 32);
    '(dict_bytes, rest) ← split_at byte_len remaining;
    types ← cast_from_bytes dict_bytes;
    Some (types, rest).
End stream.


(** The little-endian instance: each word is eight bytes, least first. *)
Definition id_bytes (t : TypeId) : list Z :=
  le_bytes 8 (word0 t) ++ le_bytes 8 (word1 t) ++ le_bytes 8 (word2 t) ++ le_bytes 8 (word3 t).

Definition id_of_bytes (bs : list Z) : TypeId :=
  mkTypeId (le_value (take 8 bs)) (le_value (take 8 (drop 8 bs)))
           (le_value (take 8 (drop 16 bs))) (le_value (take 8 (drop 24 bs))).

Fixpoint ids_of_bytes (n : nat) (bs : list Z) : list TypeId :=
  match n with
  | O => []
  | S n => id_of_bytes (take 32 bs) :: ids_of_bytes n (drop 32 bs)
  end.

Lemma id_bytes_length t : length (id_bytes t) = 32%nat.
Proof. unfold id_bytes. by rewrite !length_app, !le_bytes_length. Qed.

Lemma id_of_bytes_id t : wf t -> id_of_bytes (id_bytes t) = t.
Proof.
  intros (H0 & H1 & H2 & H3). unfold id_of_bytes.
  replace (take 8 (id_bytes t)) with (le_bytes 8 (word0 t)) by done.
  replace (take 8 (drop 8 (id_bytes t))) with (le_bytes 8 (word1 t)) by done.
  replace (take 8 (drop 16 (id_bytes t))) with (le_bytes 8 (word2 t)) by done.
  replace (take 8 (drop 24 (id_bytes t))) with (le_bytes 8 (word3 t)) by done.
  rewrite !le_value_bytes by done. by destruct t.
Qed.

Lemma ids_of_bytes_concat ts rest :
  Forall wf ts -> ids_of_bytes (length ts) (concat (id_bytes <$> ts) ++ rest) = ts.
Proof.
  induction 1 as [|t ts Ht _ IH]; [done|]. rewrite fmap_cons. simpl length.
  change (concat (id_bytes t :: (id_bytes <$> ts))) with (id_bytes t ++ concat (id_bytes <$> ts)).
  rewrite <- app_assoc. cbn [ids_of_bytes].
  rewrite (take_app_length' (id_bytes t)), (drop_app_length' (id_bytes t)) by (by rewrite id_bytes_length).
  by rewrite IH, id_of_bytes_id.
Qed.

Lemma concat_id_bytes_length ts : length (concat (id_bytes <$> ts)) = (32 * length ts)%nat.
Proof.
  induction ts as [|t ts IH]; [done|]. rewrite fmap_cons.
  change (concat (id_bytes t :: (id_bytes <$> ts))) with (id_bytes t ++ concat (id_bytes <$> ts)).
  rewrite length_app, id_bytes_length, IH. simpl. lia.
Qed.

#[export, refine] Instance little_endian_bytemuck : Bytemuck := {
  cast_to_bytes ts := concat (id_bytes <$> ts);
  cast_from_bytes bs :=
    if (length bs mod 32 =? 0)%nat then Some (ids_of_bytes (length bs / 32) bs) else None;
}.
Proof.
  - apply concat_id_bytes_length.
  - intros ts Hts. rewrite concat_id_bytes_length.
    rewrite (Nat.mul_comm 32), Nat.Div0.mod_mul, Nat.div_mul by done. simpl.
    by rewrite <- (app_nil_r (concat _)), ids_of_bytes_concat.
Defined.

(** Reading a metadata stream gives back the identifiers that were written
    and the bytes that followed them, for any implementation of the byte cast
    that keeps [Bytemuck]'s contract and any dictionary that fits memory. *)
Theorem metadata_roundtrip `{Bytemuck} (ts : list TypeId) (rest : list Z) :
  Forall wf ts -> Z.of_nat (length ts) * 32 <= umax 64 ->
  deserialize_metadata_symbols (serialize_metadata_symbols ts [] ++ rest) = Some (ts, rest).
Proof.
  intros Hwf Hlen. unfold serialize_metadata_symbols, deserialize_metadata_symbols.
  rewrite app_nil_l, wrap_u_small by (split; lia). rewrite <- app_assoc.
  set (hdr := Hash.to_le_bytes (Z.of_nat (length ts))).
  assert (Hhdr : length hdr = 8%nat) by apply le_bytes_length.
  rewrite (split_at_app 8 hdr) by lia. cbn [mbind option_bind].
  unfold hdr, Hash.to_le_bytes. rewrite le_value_bytes by (change (8 * Z.of_nat 8) with 64; lia).
  rewrite (proj2 (checked_u_Some 64 _ _)) by (split; [reflexivity|lia]). simpl.
  rewrite split_at_app by (rewrite cast_to_bytes_length; lia). simpl.
  by rewrite cast_from_to_bytes.
Qed.

Lemma metadata_roundtrip_witness :
  deserialize_metadata_symbols
    (serialize_metadata_symbols [new 1 2 3 (2 ^ 44); new 4 5 6 (2 ^ 61)] [] ++ [7]) =
  Some ([new 1 2 3 (2 ^ 44); new 4 5 6 (2 ^ 61)], [7]).
Proof.
  apply metadata_roundtrip; [|simpl; unfold umax; lia].
  repeat constructor; simpl; unfold umax; lia.
Defined.
End Gid.
