(* ===== verification/Borrow.v ===== *)
(** * Lifetime subtyping on packed identifiers ([src/src/borrow.rs], [src/src/session.rs])

    [resolve_lifetime] of a worker and the fast-path borrow check on the four
    16-bit lifetime slots of GID word 2.  The region constants are those of
    [src/src/syntax/types.rs].  [None] is an index panic of an arena. *)

From stdpp Require Import base list.
From Stdlib Require Import ZArith Lia.
From S2P Require Import Prelude Gid.
Import Gid.
Open Scope Z_scope.

(** ** Regions *)

Definition REGION_MASK : Z := 0x0FFF.
Definition REGION_UNSET : Z := REGION_MASK.
Definition REGION_MAX : Z := REGION_MASK - 1.
Definition REGION_MASK_0 : Z := 0x01FF.
Definition REGION_UNSET_0 : Z := REGION_MASK_0.
Definition REGION_MAX_0 : Z := REGION_MASK_0 - 1.

Definition region_for_depth_slot0 (depth : Z) : Z :=
  if depth =? REGION_UNSET then REGION_UNSET_0 else Z.min depth REGION_MAX_0.

Definition region_for_depth (depth : Z) : Z :=
  if depth =? REGION_UNSET then REGION_UNSET else Z.min depth REGION_MAX.

(** ** The session's slow-path arenas *)

(** The fields of [GlobalSession] and [LocalWorkerState] that a lifetime lookup
    reads. *)
Record GlobalSession : Type := { slow_path_arena : list UnboundedFunctionMetadata }.
Record LocalWorkerState : Type := {
  global : GlobalSession;
  local_slow_path_arena : list UnboundedFunctionMetadata;
}.

Definition resolve_lifetime (w : LocalWorkerState) (t : TypeId) : option LifetimeSignature :=
  match classify_word2 t with
  | FastLifetime bits => Some (FastPath bits)
  | Index _ Generics _ => Some (FastPath 0)
  | GenericDigest _ => Some (FastPath 0)
  | Index index SlowMeta scope =>
      let i := Z.to_nat index in
      match scope with
      | Local_ => m ← local_slow_path_arena w !! i; Some (SlowPath m)
      | Global_ => m ← slow_path_arena (global w) !! i; Some (SlowPath m)
      end
  end.

(** ** The check *)

Definition SLOT_REGION_MASKS : list Z := [REGION_MASK_0; REGION_MASK; REGION_MASK; REGION_MASK].

Definition slot_compatible (a b region_mask : Z) : bool :=
  let variance_a := Z.shiftr a 12 in
  let variance_b := Z.shiftr b 12 in
  let region_a := Z.land a region_mask in
  let region_b := Z.land b region_mask in
  let unset := (region_a =? region_mask) || (region_b =? region_mask) in
  let ordered := ((variance_a =? 0) && (region_a =? region_b))
              || ((variance_a =? 1) && (region_a <=? region_b))
              || ((variance_a =? 2) && (region_b <=? region_a)) in
  (variance_a =? variance_b) && (unset || ordered).

(** [(bits >> (16 * i)) as u16]. *)
Definition slot (bits : Z) (i : nat) : Z := wrap_u 16 (Z.shiftr bits (16 * Z.of_nat i)).

(** The loop over [SLOT_REGION_MASKS.iter().enumerate()]. *)
Fixpoint slots_loop (masks : list Z) (i : nat) (bits_a bits_b : Z) (all : bool) : bool :=
  match masks with
  | [] => all
  | region_mask :: masks =>
      slots_loop masks (S i) bits_a bits_b
        (all && slot_compatible (slot bits_a i) (slot bits_b i) region_mask)
  end.

Definition fast_path_slots_compatible (bits_a bits_b : Z) : bool :=
  slots_loop SLOT_REGION_MASKS 0 bits_a bits_b true.

Definition evaluate_slow_path_variance (a b : UnboundedFunctionMetadata) : bool :=
  bool_decide (lifetime_regions a = lifetime_regions b) &&
  bool_decide (trait_vtables a = trait_vtables b).

Definition verify_subtyping_bounds (type_a type_b : TypeId) (worker : LocalWorkerState)
    : option bool :=
  sa ← resolve_lifetime worker type_a;
  sb ← resolve_lifetime worker type_b;
  Some match sa, sb with
       | FastPath bits_a, FastPath bits_b =>
           if bits_a =? bits_b then true else fast_path_slots_compatible bits_a bits_b
       | SlowPath meta_a, SlowPath meta_b => evaluate_slow_path_variance meta_a meta_b
       | _, _ => false
       end.

(** ** What a slot means *)

Definition variance_of (s : Z) : Z := Z.shiftr s 12.
Definition slot_mask (i : nat) : Z := if decide (i = 0%nat) then REGION_MASK_0 else REGION_MASK.
Definition region_of (i : nat) (s : Z) : Z := Z.land s (slot_mask i).

(** The outlives relation of one slot, on its variance and region. *)
Definition slot_le (i : nat) (a b : Z) : Prop :=
  variance_of a = variance_of b /\
  (region_of i a = slot_mask i \/ region_of i b = slot_mask i \/
   (variance_of a = 0 /\ region_of i a = region_of i b) \/
   (variance_of a = 1 /\ region_of i a <= region_of i b) \/
   (variance_of a = 2 /\ region_of i b <= region_of i a)).

Lemma slot_compatible_spec i a b : slot_compatible a b (slot_mask i) = true <-> slot_le i a b.
Proof.
  unfold slot_compatible, slot_le, variance_of, region_of.
  rewrite !andb_true_iff, !orb_true_iff, !andb_true_iff, !Z.eqb_eq, !Z.leb_le. tauto.
Qed.

Lemma fast_path_slots_spec a b :
  fast_path_slots_compatible a b = true <->
  forall i, (i < 4)%nat -> slot_le i (slot a i) (slot b i).
Proof.
  unfold fast_path_slots_compatible, SLOT_REGION_MASKS. cbn [slots_loop].
  change REGION_MASK_0 with (slot_mask 0). change REGION_MASK with (slot_mask 1) at 1.
  change REGION_MASK with (slot_mask 2) at 1. change REGION_MASK with (slot_mask 3).
  rewrite !andb_true_iff, !slot_compatible_spec. split.
  - intros ((((_ & H0) & H1) & H2) & H3) i Hi.
    destruct i as [|[|[|[|]]]]; [done..|lia].
  - intros H. split_and!; [done| | | |]; apply H; lia.
Qed.

(** Every slot has a depth bound to it. *)
Definition all_set (w : Z) : Prop :=
  forall i, (i < 4)%nat -> region_of i (slot w i) <> slot_mask i.

Lemma slot_le_trans i a b c :
  region_of i b <> slot_mask i -> region_of i a <> slot_mask i -> region_of i c <> slot_mask i ->
  slot_le i a b -> slot_le i b c -> slot_le i a c.
Proof. unfold slot_le. intros ??? [Hv1 H1] [Hv2 H2]. split; [congruence|]. rewrite Hv1 in *. lia. Qed.

Lemma slot_le_antisym i a b :
  region_of i a <> slot_mask i -> region_of i b <> slot_mask i ->
  slot_le i a b -> slot_le i b a -> variance_of a = variance_of b /\ region_of i a = region_of i b.
Proof. unfold slot_le. intros ?? [Hv1 H1] [Hv2 H2]. split; [done|]. rewrite Hv1 in *. lia. Qed.

Lemma slot_le_refl i a : variance_of a <= 2 -> 0 <= a -> slot_le i a a.
Proof.
  intros Hv Ha. split; [done|]. right. right.
  assert (0 <= variance_of a) by (by apply Z.shiftr_nonneg). lia.
Qed.

(** ** Properties *)

(** On fully bound lifetimes the fast path is a preorder: it is transitive,
    and two words that each may stand in for the other agree on the variance
    and the region of every slot. *)
Theorem fast_path_preorder (a b c : Z) :
  all_set a -> all_set b -> all_set c ->
  fast_path_slots_compatible a b = true ->
  (fast_path_slots_compatible b c = true -> fast_path_slots_compatible a c = true) /\
  (fast_path_slots_compatible b a = true ->
   forall i, (i < 4)%nat -> variance_of (slot a i) = variance_of (slot b i) /\
                    region_of i (slot a i) = region_of i (slot b i)).
Proof.
  intros Ha Hb Hc Hab. rewrite !fast_path_slots_spec in *. split.
  - intros Hbc i Hi. eapply slot_le_trans; [apply Hb|apply Ha|apply Hc| |]; eauto.
  - intros Hba i Hi. eapply slot_le_antisym; eauto.
Qed.

Lemma fast_path_preorder_witness :
  fast_path_slots_compatible 0x1001000010010001 0x1005000010010001 = true /\
  fast_path_slots_compatible 0x1001000010010001 0x1009000010010001 = true.
Proof.
  split; [reflexivity|].
  apply (fast_path_preorder 0x1001000010010001 0x1005000010010001 0x1009000010010001);
    [intros i Hi; do 4 (destruct i as [|i]; [done|]); lia..|reflexivity|reflexivity].
Defined.

Lemma slot_extract t i : slot (word2 t) i = extract_fast_param t (Z.of_nat i).
Proof.
  unfold slot, extract_fast_param, wrap_u. change 0xFFFF with (Z.ones 16).
  by rewrite Z.land_ones, (Z.mul_comm 16).
Qed.

Lemma slot_le_ext i a a' b b' :
  variance_of a = variance_of a' -> region_of i a = region_of i a' ->
  variance_of b = variance_of b' -> region_of i b = region_of i b' ->
  slot_le i a b <-> slot_le i a' b'.
Proof. unfold slot_le. intros -> -> -> ->. done. Qed.

Lemma slot_le_provenance t c i :
  (i < 4)%nat -> 0 <= c <= 7 ->
  variance_of (slot (word2 (set_return_provenance t c)) i) = variance_of (slot (word2 t) i) /\
  region_of i (slot (word2 (set_return_provenance t c)) i) = region_of i (slot (word2 t) i).
Proof.
  intros Hi Hc. destruct (set_return_provenance_frame t c Hc) as (Hr & Hv & Ho).
  rewrite !slot_extract. destruct i as [|i].
  - split; [apply Hv|apply Hr].
  - rewrite Ho by lia. done.
Qed.

(** The return-provenance code shares slot 0 with the return lifetime and
    is never read as part of it: writing any code on either side leaves the
    verdict of the slot-by-slot check unchanged. *)
Theorem provenance_is_not_a_lifetime (t u : TypeId) (c d : Z) :
  0 <= c <= 7 -> 0 <= d <= 7 ->
  fast_path_slots_compatible (word2 (set_return_provenance t c)) (word2 (set_return_provenance u d)) =
  fast_path_slots_compatible (word2 t) (word2 u).
Proof.
  intros Hc Hd. apply eq_true_iff_eq. rewrite !fast_path_slots_spec.
  apply forall_proper; intros i. split; intros H Hi; specialize (H Hi);
    destruct (slot_le_provenance t c i Hi Hc) as [Hv Hr], (slot_le_provenance u d i Hi Hd) as [Hv' Hr'];
    by apply (slot_le_ext i _ _ _ _ Hv Hr Hv' Hr').
Qed.

Lemma provenance_is_not_a_lifetime_witness :
  fast_path_slots_compatible (word2 (set_return_provenance (new 0 0 0x1001 0) 3))
    (word2 (set_return_provenance (new 0 0 0x1005 0) 7)) =
  fast_path_slots_compatible 0x1001 0x1005.
Proof. apply (provenance_is_not_a_lifetime (new 0 0 0x1001 0) (new 0 0 0x1005 0) 3 7); lia. Defined.

(** A covariant slot packed from a scope depth. *)
Lemma covariant_slot r :
  0 <= r <= REGION_MASK ->
  variance_of (Z.lor (Z.shiftl 1 12) r) = 1 /\ Z.land (Z.lor (Z.shiftl 1 12) r) REGION_MASK = r.
Proof.
  intros Hr. assert (Hr' : 0 <= r <= umax 12) by (unfold REGION_MASK, umax in *; lia).
  unfold variance_of, REGION_MASK. change 0x0FFF with (Z.ones 12). split.
  - bitwise; rewrite (testbit_high 12 r) by (done || lia); bit_cases; done.
  - bitwise. all: symmetry; apply (testbit_high 12); [done|lia].
Qed.

Lemma region_for_depth_range d : 0 <= d -> 0 <= region_for_depth d <= REGION_MASK.
Proof.
  intros. unfold region_for_depth, REGION_MAX, REGION_UNSET, REGION_MASK.
  destruct (Z.eqb_spec d 4095); lia.
Qed.

(** Shared references may only be shortened.  For scope depths other than
    the reserved 4095, the covariant slot of a reference made at depth [d1]
    may stand in for one of depth [d2] exactly when the clamped depths are in
    order; up to [REGION_MAX] that is exactly [d1 <= d2], and a deeper scope
    never flows into a shallower one. *)
Theorem covariant_depth_order (i : nat) (d1 d2 : Z) :
  (0 < i)%nat -> 0 <= d1 -> 0 <= d2 -> d1 <> REGION_UNSET -> d2 <> REGION_UNSET ->
  let slot_at d := Z.lor (Z.shiftl 1 12) (region_for_depth d) in
  (slot_compatible (slot_at d1) (slot_at d2) (slot_mask i) = true <->
   Z.min d1 REGION_MAX <= Z.min d2 REGION_MAX) /\
  (d2 < REGION_MAX ->
   slot_compatible (slot_at d1) (slot_at d2) (slot_mask i) = true -> d1 <= d2).
Proof.
  intros Hi H1 H2 N1 N2 slot_at.
  assert (slot_compatible (slot_at d1) (slot_at d2) (slot_mask i) = true <->
          Z.min d1 REGION_MAX <= Z.min d2 REGION_MAX) as Hiff.
  { rewrite slot_compatible_spec. unfold slot_le, region_of, slot_at.
    assert (slot_mask i = REGION_MASK) as -> by (unfold slot_mask; case_decide; [lia|done]).
    destruct (covariant_slot (region_for_depth d1)) as [-> ->]; [by apply region_for_depth_range|].
    destruct (covariant_slot (region_for_depth d2)) as [-> ->]; [by apply region_for_depth_range|].
    unfold region_for_depth, REGION_UNSET, REGION_MAX, REGION_MASK in *.
    destruct (Z.eqb_spec d1 4095), (Z.eqb_spec d2 4095); lia. }
  split; [done|]. intros Hd2 Hc. apply Hiff in Hc. lia.
Qed.

Lemma covariant_depth_order_witness :
  slot_compatible (Z.lor (Z.shiftl 1 12) (region_for_depth 1))
                  (Z.lor (Z.shiftl 1 12) (region_for_depth 5)) (slot_mask 1) = true.
Proof. apply (covariant_depth_order 1 1 5); (lia || done). Defined.

(** The clamp is documented to keep every real depth away from the "unset"
    sentinel.  A real depth of exactly 4095 is not kept away: it maps to the
    sentinel (deeper scopes map to 4094), so a slot of that depth matches every
    region of either side. *)
Theorem depth_4095_is_unset :
  region_for_depth 4095 = REGION_UNSET /\ region_for_depth 4096 = REGION_MAX /\
  region_for_depth_slot0 4095 = REGION_UNSET_0 /\
  slot_compatible (Z.lor (Z.shiftl 1 12) (region_for_depth 4095))
                  (Z.lor (Z.shiftl 1 12) (region_for_depth 1)) REGION_MASK = true.
Proof. done. Qed.

(** Lookups are total on well-indexed identifiers, and a type always
    stands in for itself, whatever variance bits its slots carry. *)
Theorem subtyping_reflexive (w : LocalWorkerState) (t : TypeId) :
  (forall i sc, classify_word2 t = Index i SlowMeta sc ->
     match sc with
     | Local_ => (Z.to_nat i < length (local_slow_path_arena w))%nat
     | Global_ => (Z.to_nat i < length (slow_path_arena (global w)))%nat
     end) ->
  verify_subtyping_bounds t t w = Some true.
Proof.
  intros Hidx. unfold verify_subtyping_bounds.
  assert (exists sg, resolve_lifetime w t = Some sg) as [sg ->].
  { unfold resolve_lifetime. destruct (classify_word2 t) as [b|i [] sc|d]; eauto.
    specialize (Hidx i sc eq_refl). destruct sc; apply lookup_lt_is_Some_2 in Hidx as [m ->];
      simpl; eauto. }
  destruct sg as [b|m]; simpl; [by rewrite Z.eqb_refl|].
  unfold evaluate_slow_path_variance. by rewrite !bool_decide_true.
Qed.

Lemma subtyping_reflexive_witness :
  verify_subtyping_bounds (new 0 0 0x5001 0) (new 0 0 0x5001 0)
    {| global := {| slow_path_arena := [] |}; local_slow_path_arena := [] |} = Some true.
Proof. apply subtyping_reflexive. intros i sc H. vm_compute in H. discriminate. Defined.
