(* ===== verification/Syntax.v ===== *)
(** * The shared syntax of types, topologies and memory declarations
      ([src/src/syntax/types.rs], [expr.rs], [decl.rs])

    The data the machine model and the layout computation read.  [Symbol] is a
    [string].  Of [Expr] the constructors that the modelled functions inspect
    are kept with their fields; every other constructor is [OtherExpr], told
    apart by a tag (the modelled functions send all of them to their [_] arm). *)

From stdpp Require Import base list strings gmap.
From Stdlib Require Import ZArith Lia.
From S2P Require Import Prelude Gid.
Open Scope Z_scope.

Abbreviation Symbol := string (only parsing).

(** ** Element types *)

Inductive ElementType : Type :=
| F16 | F32 | F64 | BF16 | F8E4M3 | F8E5M2 | F4E2M1
| I4 | U4 | I8 | U8 | I16 | U16 | I32 | U32 | I64 | U64 | I128 | U128
| USize | Bool
| ElemGeneric (name : Symbol).

#[export] Instance ElementType_eq_dec : EqDecision ElementType.
Proof. solve_decision. Defined.

Definition ElementType_bits (e : ElementType) : option Z :=
  match e with
  | Bool => Some 1
  | I4 | U4 | F4E2M1 => Some 4
  | I8 | U8 | F8E4M3 | F8E5M2 => Some 8
  | F16 | BF16 | I16 | U16 => Some 16
  | F32 | I32 | U32 => Some 32
  | F64 | I64 | U64 | USize => Some 64
  | I128 | U128 => Some 128
  | ElemGeneric _ => None
  end.

(** ** Memory spaces *)

Inductive MemorySpace : Type :=
| CPUDRAM | NPUHBM | GpuHbm | LocalSRAM | NicRam | RemoteHbm
| CustomSpace (name : Symbol).

#[export] Instance MemorySpace_eq_dec : EqDecision MemorySpace.
Proof. solve_decision. Defined.

#[export] Instance MemorySpace_countable : Countable MemorySpace.
Proof.
  refine (inj_countable'
    (fun m => match m with
              | CPUDRAM => inl 0%nat | NPUHBM => inl 1%nat | GpuHbm => inl 2%nat
              | LocalSRAM => inl 3%nat | NicRam => inl 4%nat | RemoteHbm => inl 5%nat
              | CustomSpace s => inr s
              end)
    (fun x => match x with
              | inl 0%nat => CPUDRAM | inl 1%nat => NPUHBM | inl 2%nat => GpuHbm
              | inl 3%nat => LocalSRAM | inl 4%nat => NicRam | inl _ => RemoteHbm
              | inr s => CustomSpace s
              end) _).
  by intros [].
Defined.

Definition MemorySpace_from_name (name : Symbol) : MemorySpace :=
  if decide (name = "CPU_DRAM") then CPUDRAM
  else if decide (name = "NPU_HBM") then NPUHBM
  else if decide (name = "GPU_HBM") then GpuHbm
  else if decide (name = "Local_SRAM") then LocalSRAM
  else if decide (name = "NIC_RAM") then NicRam
  else if decide (name = "Remote_HBM") then RemoteHbm
  else CustomSpace name.

Definition MemorySpace_name (m : MemorySpace) : Symbol :=
  match m with
  | CPUDRAM => "CPU_DRAM"
  | NPUHBM => "NPU_HBM"
  | GpuHbm => "GPU_HBM"
  | LocalSRAM => "Local_SRAM"
  | NicRam => "NIC_RAM"
  | RemoteHbm => "Remote_HBM"
  | CustomSpace s => s
  end.

(** ** Expressions *)

Record Span : Type := mkSpan { span_line : nat; span_column : nat; span_length : nat; span_expansion : Z }.
#[export] Instance Span_eq_dec : EqDecision Span.
Proof. solve_decision. Defined.
Definition Span_default : Span := mkSpan 0 0 0 0.

Inductive BinaryOp : Type :=
| Add | Sub | Mul | MatMul | Div | Rem | BitAnd | BitOr | BitXor | Shl | Shr.
#[export] Instance BinaryOp_eq_dec : EqDecision BinaryOp.
Proof. solve_decision. Defined.

Inductive UnaryOp : Type := Not | Neg | Try.
#[export] Instance UnaryOp_eq_dec : EqDecision UnaryOp.
Proof. solve_decision. Defined.

Inductive Expr : Type :=
| Identifier (name : Symbol) (span : Span)
| Number (value : Symbol) (ty : option ElementType) (span : Span)
| BinaryOpE (lhs : Expr) (op : BinaryOp) (rhs : Expr) (span : Span)
    (operand_ty : option ElementType)
| UnaryOpE (op : UnaryOp) (expr : Expr) (span : Span)
| MemberAccess (base : Expr) (member : Symbol) (struct_name : option Symbol) (span : Span)
| IndexAccess (base index : Expr) (span : Span)
| OtherExpr (tag : nat).

#[export] Instance Expr_eq_dec : EqDecision Expr.
Proof. solve_decision. Defined.

(** ** Topologies *)

Inductive TopologyKind : Type :=
| KCPU | KNPU | KAccCore | KAMX | KANE | KGPU | KCpuAvx512 | KCpuNeon | KSlice
| KCustom (name : Symbol)
| KCurrent.

#[export] Instance TopologyKind_eq_dec : EqDecision TopologyKind.
Proof. solve_decision. Defined.

#[export] Instance TopologyKind_countable : Countable TopologyKind.
Proof.
  refine (inj_countable'
    (fun k => match k with
              | KCPU => inl 0%nat | KNPU => inl 1%nat | KAccCore => inl 2%nat | KAMX => inl 3%nat
              | KANE => inl 4%nat | KGPU => inl 5%nat | KCpuAvx512 => inl 6%nat
              | KCpuNeon => inl 7%nat | KSlice => inl 8%nat | KCurrent => inl 9%nat
              | KCustom s => inr s
              end)
    (fun x => match x with
              | inl 0%nat => KCPU | inl 1%nat => KNPU | inl 2%nat => KAccCore | inl 3%nat => KAMX
              | inl 4%nat => KANE | inl 5%nat => KGPU | inl 6%nat => KCpuAvx512
              | inl 7%nat => KCpuNeon | inl 8%nat => KSlice | inl _ => KCurrent
              | inr s => KCustom s
              end) _).
  by intros [].
Defined.

Inductive Topology : Type :=
| CPU
| NPU (index : Expr)
| AccCore (index : Expr)
| AMX
| ANE
| GPU (index : Expr)
| CpuAvx512
| CpuNeon
| Slice (base : Topology) (start end_ : Expr)
| CustomTopology (name : Symbol)
| Current.

Definition Topology_kind (t : Topology) : TopologyKind :=
  match t with
  | CPU => KCPU
  | NPU _ => KNPU
  | AccCore _ => KAccCore
  | AMX => KAMX
  | ANE => KANE
  | GPU _ => KGPU
  | CpuAvx512 => KCpuAvx512
  | CpuNeon => KCpuNeon
  | Slice _ _ _ => KSlice
  | CustomTopology name => KCustom name
  | Current => KCurrent
  end.

(** Do two indices denote the same device?  Literals by value, the rest
    structurally. *)
Definition topology_index_eq (a b : Expr) : bool :=
  match a, b with
  | Number x _ _, Number y _ _ =>
      match parse_int 128 x, parse_int 128 y with
      | Some xi, Some yi => xi =? yi
      | _, _ => bool_decide (x = y)
      end
  | _, _ => bool_decide (a = b)
  end.

(** [impl PartialEq for Topology]. *)
Fixpoint Topology_eqb (a b : Topology) : bool :=
  match a, b with
  | CPU, CPU | AMX, AMX | ANE, ANE | CpuAvx512, CpuAvx512 | CpuNeon, CpuNeon
  | Current, Current => true
  | NPU a, NPU b | AccCore a, AccCore b | GPU a, GPU b => topology_index_eq a b
  | CustomTopology a, CustomTopology b => bool_decide (a = b)
  | Slice ba sa ea, Slice bb sb eb =>
      Topology_eqb ba bb && topology_index_eq sa sb && topology_index_eq ea eb
  | _, _ => false
  end.

(** ** Memory declarations *)

Inductive Dim : Type := Static (e : Expr) | Dyn.

Definition Dim_as_static (d : Dim) : option Expr :=
  match d with Static e => Some e | Dyn => None end.

(** [ByteSize(u64)] is its number of bytes. *)
Inductive RatePer : Type := Second | Cycle.
#[export] Instance RatePer_eq_dec : EqDecision RatePer.
Proof. solve_decision. Defined.

Record Bandwidth : Type := mkBandwidth { bw_bytes : Z; bw_per : RatePer }.
#[export] Instance Bandwidth_eq_dec : EqDecision Bandwidth.
Proof. solve_decision. Defined.

Inductive Management : Type := Explicit | Cached.
Inductive Crossing : Type := Sequenced | Streamed.
#[export] Instance Crossing_eq_dec : EqDecision Crossing.
Proof. solve_decision. Defined.

Inductive Scope : Type := Device | Sm | Cta | Thread.
#[export] Instance Scope_eq_dec : EqDecision Scope.
Proof. solve_decision. Defined.

(** The derived [Ord] of [Scope]: declaration order. *)
Definition Scope_rank (s : Scope) : nat :=
  match s with Device => 0 | Sm => 1 | Cta => 2 | Thread => 3 end.
Definition Scope_ltb (a b : Scope) : bool := (Scope_rank a <? Scope_rank b)%nat.

Record MemoryDecl : Type := mkMemoryDecl {
  md_name : Symbol;
  md_parent : option MemorySpace;
  md_capacity : option Z;
  md_bandwidth : option Bandwidth;
  md_clock_hz : option Z;
  md_managed : Management;
  md_granule : option Z;
  md_alignment : option Z;
  md_scope : option Scope;
  md_replicas : option Z;
  md_overcommit : bool;
  md_crossing : Crossing;
  md_numa_node : option Z;
}.

(** ** Placements and types *)

(** Which half of a placement the source wrote ([Stated], [Written]). *)
Inductive Stated : Type := StatedDevice | StatedSpace.

Record Placement : Type := mkPlacement {
  pl_topology : Topology;
  pl_space : MemorySpace;
  pl_stated : Stated;
  pl_alignment : option Z;
}.

(** The exported symbols of a module are an association list. *)
Inductive Ty : Type :=
| Tensor (elem : ElementType) (dims : list Dim) (placement : option Placement)
| Matrix
| Ref (inner : Ty) (mem : MemorySpace)
| BorrowTy (inner : Ty) (mem_space : option MemorySpace) (is_mut : bool) (region_id : nat)
| Pointer (inner : Ty) (placement : option Placement) (is_mut : bool)
| Scalar (elem : ElementType)
| Struct (name : Symbol) (id : option Gid.TypeId)
| Enum (name : Symbol) (id : option Gid.TypeId)
| Verified (inner : Ty)
| Pinned (inner : Ty) (top : Topology)
| Generic (name : Symbol) (id : option Gid.TypeId)
| GenericInstance (base : Ty) (args : list Ty)
| Module_ (path : Symbol) (exported : list (Symbol * Ty))
| Simd (elem : ElementType) (lanes : nat)
| Function_ (params : list Ty) (ret : Ty) (is_unsafe : bool)
| Closure (params : list Ty) (ret : Ty)
| Const_ (e : Expr)
| Unknown.

(** [Type::placement]: where a value lives, when its type says. *)
Definition Ty_placement (t : Ty) : option Placement :=
  match t with Tensor _ _ p => p | _ => None end.

(** ** Properties *)

(** [from_name] and [name] are inverse on every space that [from_name] can
    produce, so a declared name never shadows a built-in space and two
    different names never denote one space. *)
Theorem space_name_roundtrip (n : Symbol) :
  MemorySpace_name (MemorySpace_from_name n) = n /\
  (forall m, MemorySpace_from_name n = m -> forall n', MemorySpace_from_name n' = m -> n' = n).
Proof.
  assert (forall n, MemorySpace_name (MemorySpace_from_name n) = n) as H.
  { intros n'. unfold MemorySpace_from_name. by repeat (case_decide; [by subst|]). }
  split; [apply H|]. intros m <- n' Hn. by rewrite <- (H n'), Hn, H.
Qed.

Lemma topology_index_eq_refl a : topology_index_eq a a = true.
Proof. destruct a; simpl; rewrite ?bool_decide_true by done; auto. case_match; [by apply Z.eqb_refl|done]. Qed.

Lemma topology_index_eq_sym a b : topology_index_eq a b = topology_index_eq b a.
Proof.
  assert (forall x y : Expr, bool_decide (x = y) = bool_decide (y = x)) as Hs
    by (intros; apply bool_decide_ext; naive_solver).
  destruct a, b; try apply Hs; try done. simpl.
  repeat case_match; try apply Z.eqb_sym; apply bool_decide_ext; naive_solver.
Qed.

Lemma topology_index_eq_trans a b c :
  topology_index_eq a b = true -> topology_index_eq b c = true -> topology_index_eq a c = true.
Proof.
  assert (forall x y : Expr, bool_decide (x = y) = true -> x = y) as Hd
    by (intros x y; apply bool_decide_eq_true).
  destruct a as [| x tx sx | | | | |], b as [| y ty sy | | | | |]; try (intros <-%Hd; done);
    try (intros H%Hd; done).
  destruct c as [| z tz sz | | | | |]; try (intros _ H%Hd; done). simpl.
  destruct (parse_int 128 x) eqn:E1, (parse_int 128 y) eqn:E2, (parse_int 128 z) eqn:E3;
    rewrite ?bool_decide_eq_true, ?Z.eqb_eq; congruence.
Qed.

Lemma Topology_eqb_refl t : Topology_eqb t t = true.
Proof.
  induction t; simpl; rewrite ?topology_index_eq_refl, ?IHt, ?bool_decide_true by done; done.
Qed.

Lemma Topology_eqb_sym t u : Topology_eqb t u = Topology_eqb u t.
Proof.
  revert u. induction t; intros []; simpl; try done; try apply topology_index_eq_sym.
  - by rewrite IHt, topology_index_eq_sym, (topology_index_eq_sym end_).
  - apply bool_decide_ext. naive_solver.
Qed.

(** [PartialEq for Topology] is the equivalence relation its contract
    promises, equal topologies have equal kinds, and two literal indices of one
    kind are equal exactly when they denote the same number, however they are
    spelled, typed or placed. *)
Theorem topology_eq_equivalence :
  (forall t, Topology_eqb t t = true) /\
  (forall t u, Topology_eqb t u = Topology_eqb u t) /\
  (forall t u v, Topology_eqb t u = true -> Topology_eqb u v = true -> Topology_eqb t v = true) /\
  (forall t u, Topology_eqb t u = true -> Topology_kind t = Topology_kind u) /\
  (forall x y tx ty sx sy i j, parse_int 128 x = Some i -> parse_int 128 y = Some j ->
     Topology_eqb (GPU (Number x tx sx)) (GPU (Number y ty sy)) = true <-> i = j).
Proof.
  split_and!; [apply Topology_eqb_refl|apply Topology_eqb_sym| | |].
  - intros t. induction t; intros [] []; simpl; try done; try apply topology_index_eq_trans.
    + rewrite !andb_true_iff. intros [[??]?] [[??]?].
      split_and!; eauto using topology_index_eq_trans.
    + by intros ->%bool_decide_eq_true.
  - intros t u. destruct t, u; simpl; try done. by intros ->%bool_decide_eq_true.
  - intros x y tx ty sx sy i j Hx Hy. simpl. rewrite Hx, Hy. apply Z.eqb_eq.
Qed.
