(* ===== verification/Places.v ===== *)
(** * Places ([src/src/hir/places.rs])

    Which memory an lvalue names and whether two of them may overlap: the root
    local and the projection path of an expression, the overlap test on paths,
    and how a place reads in a message.  The reference meaning of an lvalue is a
    root and a list of concrete selectors, given the values that its indices
    have at run time; the overlap test is sound for it, and exact on literal
    indices. *)

From stdpp Require Import base list strings gmap.
From Stdlib Require Import ZArith Lia Ascii.
From S2P Require Import Prelude Gid Syntax.
Open Scope Z_scope.

(** ** The code *)

Definition ANY_INDEX : string := "[?]".

Definition index_element (index : Expr) : string :=
  match index with
  | Number value _ _ =>
      match parse_uint 64 value with
      | Some k => ("[" +:+ u_to_string 20 k "" +:+ "]")%string
      | None => ANY_INDEX
      end
  | _ => ANY_INDEX
  end.

Fixpoint base_and_path (e : Expr) : option (Symbol * list Symbol) :=
  match e with
  | Identifier name _ => Some (name, [])
  | MemberAccess base member _ _ =>
      match base_and_path base with
      | Some (root, path) => Some (root, path ++ [member])
      | None => None
      end
  | IndexAccess base index _ =>
      match base_and_path base with
      | Some (root, path) => Some (root, path ++ [index_element index])
      | None => None
      end
  | _ => None
  end.

Definition element_may_alias (x y : string) : bool :=
  bool_decide (x = y) || bool_decide (x = ANY_INDEX) || bool_decide (y = ANY_INDEX).

(** [a.iter().zip(b).all(..)]: [zip] stops at the end of the shorter path. *)
Fixpoint paths_may_alias (a b : list string) : bool :=
  match a, b with
  | x :: a, y :: b => element_may_alias x y && paths_may_alias a b
  | _, _ => true
  end.

(** One turn of the loop of [display_place]. *)
Definition display_element (p : string) : string :=
  let dot := match p with String "[" _ => EmptyString | _ => "."%string end in
  match p with
  | String "_" n =>
      if negb (bool_decide (n = EmptyString)) && all_digits n then (dot +:+ n)%string
      else (dot +:+ p)%string
  | _ => (dot +:+ p)%string
  end.

Definition display_place (root : string) (path : list string) : string :=
  fold_left (fun out p => (out +:+ display_element p)%string) path root.

(** [str::split('.')]: at least one part, possibly empty. *)
Fixpoint split_dots (s : string) : string * list string :=
  match s with
  | EmptyString => (EmptyString, [])
  | String c s =>
      let '(part, rest) := split_dots s in
      if Ascii.eqb c "." then (EmptyString, part :: rest) else (String c part, rest)
  end.

Definition display_dotted (place : string) : string :=
  let '(root, path) := split_dots place in display_place root path.

(** ** The meaning of an lvalue

    [rho] gives the value of an index expression that is not a literal of
    [u64]. *)

Inductive Selector : Type := SField (name : Symbol) | SIndex (k : Z).

#[export] Instance Selector_eq_dec : EqDecision Selector.
Proof. solve_decision. Defined.

Definition index_value (rho : Expr -> Z) (index : Expr) : Z :=
  match index with
  | Number value _ _ => default (rho index) (parse_uint 64 value)
  | _ => rho index
  end.

Fixpoint place_of (rho : Expr -> Z) (e : Expr) : option (Symbol * list Selector) :=
  match e with
  | Identifier name _ => Some (name, [])
  | MemberAccess base member _ _ =>
      match place_of rho base with Some (r, p) => Some (r, p ++ [SField member]) | None => None end
  | IndexAccess base index _ =>
      match place_of rho base with Some (r, p) => Some (r, p ++ [SIndex (index_value rho index)]) | None => None end
  | _ => None
  end.

(** One place contains the other. *)
Definition overlap (p q : list Selector) : Prop := p `prefix_of` q \/ q `prefix_of` p.

Create HintDb vx_places.

(** The path element [x] may stand for the selector [s]. *)
Inductive stands_for : string -> Selector -> Prop :=
| stands_field m : stands_for m (SField m)
| stands_const k : 0 <= k <= umax 64 -> stands_for ("[" +:+ u_to_string 20 k "" +:+ "]")%string (SIndex k)
| stands_any k : stands_for ANY_INDEX (SIndex k).
#[export] Hint Constructors stands_for : vx_places.

Lemma parse_digits_range w acc s k : 0 <= acc <= umax w -> parse_digits w acc s = Some k -> 0 <= k <= umax w.
Proof.
  revert acc. induction s as [|c s IH]; intros acc Ha; cbn [parse_digits]; [naive_solver|].
  destruct (is_ascii_digit c) eqn:Hc; [|done]. destruct (checked_u w (acc * 10)) as [m|] eqn:E1; [|done].
  destruct (checked_u w (m + digit_value c)) as [a|] eqn:E2; [|done]. apply IH.
  apply checked_u_Some in E2 as [<- ?]. lia.
Qed.

Lemma parse_uint_range w s k : 0 <= umax w -> parse_uint w s = Some k -> 0 <= k <= umax w.
Proof.
  intros Hw. destruct s as [|c s]; [done|].
  destruct (decide (c = "+"%char)) as [->|Hc].
  - cbn [parse_uint]. destruct s; [done|]. apply parse_digits_range. lia.
  - assert (parse_uint w (String c s) = parse_digits w 0 (String c s)) as ->.
    { destruct c as [[] [] [] [] [] [] [] []]; done. }
    apply parse_digits_range. lia.
Qed.

Lemma index_element_stands rho index : stands_for (index_element index) (SIndex (index_value rho index)).
Proof.
  destruct index as [|value| | | | |]; try apply stands_any. cbn [index_element index_value].
  destruct (parse_uint 64 value) as [k|] eqn:E; cbn [default]; [|apply stands_any].
  apply stands_const. by apply (parse_uint_range 64 value).
Qed.

(** The path the code computes describes the place, element by element. *)
Lemma base_and_path_stands rho e r p :
  place_of rho e = Some (r, p) -> exists path, base_and_path e = Some (r, path) /\ Forall2 stands_for path p.
Proof.
  revert p. induction e; intros p; cbn [place_of base_and_path]; try done.
  - intros [= <- <-]. eauto.
  - destruct (place_of rho e) as [[r' p']|]; [|done]. intros [= <- <-].
    destruct (IHe p') as (path & -> & H); [done|]. eexists. split; [done|]. apply Forall2_app; eauto with vx_places.
  - destruct (place_of rho e1) as [[r' p']|]; [|done]. intros [= <- <-].
    destruct (IHe1 p') as (path & -> & H); [done|]. eexists. split; [done|].
    apply Forall2_app; [done|]. repeat constructor. apply index_element_stands.
Qed.

Lemma stands_same x y s : stands_for x s -> stands_for y s -> element_may_alias x y = true.
Proof.
  unfold element_may_alias. intros H1 H2.
  destruct H1; inversion H2; subst; rewrite ?bool_decide_true by done; rewrite ?orb_true_r; done.
Qed.

Lemma paths_may_alias_prefix a b p q :
  Forall2 stands_for a p -> Forall2 stands_for b q -> overlap p q -> paths_may_alias a b = true.
Proof.
  intros Ha. revert b q. induction Ha as [|x s a p Hx Ha IH]; intros b q Hb; [done|].
  destruct Hb as [|y t b q Hy Hb]; [done|]. intros Ho. cbn [paths_may_alias].
  assert (s = t /\ overlap p q) as [-> Ho'].
  { destruct Ho as [H|H]; pose proof (prefix_cons_inv_1 _ _ _ _ H); pose proof (prefix_cons_inv_2 _ _ _ _ H);
      unfold overlap; naive_solver. }
  by rewrite (stands_same x y t), (IH b q).
Qed.

(** ** Literal places

    Fields that are no index text, and indices that are literals. *)

Definition is_index_text (s : string) : bool := match s with String "[" _ => true | _ => false end.

Fixpoint literal_place (e : Expr) : bool :=
  match e with
  | Identifier _ _ => true
  | MemberAccess base member _ _ => literal_place base && negb (is_index_text member)
  | IndexAccess base (Number value _ _) _ => literal_place base && bool_decide (is_Some (parse_uint 64 value))
  | _ => false
  end.

(** The path element of a literal place determines the selector. *)
Inductive names_exactly : string -> Selector -> Prop :=
| exact_field m : is_index_text m = false -> names_exactly m (SField m)
| exact_const k : 0 <= k <= umax 64 -> names_exactly ("[" +:+ u_to_string 20 k "" +:+ "]")%string (SIndex k).
#[export] Hint Constructors names_exactly : vx_places.

Lemma literal_place_exact rho e r p :
  literal_place e = true -> place_of rho e = Some (r, p) ->
  exists path, base_and_path e = Some (r, path) /\ Forall2 names_exactly path p.
Proof.
  revert p. induction e; intros p; cbn [literal_place place_of base_and_path]; try done.
  - intros _ [= <- <-]. eauto.
  - rewrite andb_true_iff, negb_true_iff. intros [Hl Hm]. destruct (place_of rho e) as [[r' p']|]; [|done].
    intros [= <- <-]. destruct (IHe p') as (path & -> & H); [done..|]. eexists. split; [done|].
    apply Forall2_app; eauto with vx_places.
  - destruct e2 as [|value| | | | |]; try done. rewrite andb_true_iff, bool_decide_eq_true. intros [Hl [k Hk]].
    destruct (place_of rho e1) as [[r' p']|]; [|done]. intros [= <- <-].
    destruct (IHe1 p') as (path & -> & H); [done..|]. eexists. split; [done|]. apply Forall2_app; [done|].
    repeat constructor. cbn [index_element index_value]. rewrite Hk. cbn [default]. apply exact_const.
    by apply (parse_uint_range 64 value).
Qed.

Lemma dec_from_app acc s t : dec_from acc (s +:+ t)%string = dec_from (dec_from acc s) t.
Proof. revert acc. induction s as [|c s IH]; intros acc; [done|]. cbn. apply IH. Qed.

Lemma u64_string k : 0 <= k <= umax 64 ->
  all_digits (u_to_string 20 k "") = true /\ u_to_string 20 k "" <> EmptyString /\
  dec_from 0 (u_to_string 20 k "") = k.
Proof.
  intros Hk. apply (u_to_string_spec 20 k ""); [|done].
  assert (umax 64 = 18446744073709551615) as E by done. rewrite E in Hk.
  assert (10 ^ Z.of_nat 21 = 1000000000000000000000) as -> by done. lia.
Qed.

Lemma u_to_string_inj k l :
  0 <= k <= umax 64 -> 0 <= l <= umax 64 ->
  (u_to_string 20 k "" +:+ "]" = u_to_string 20 l "" +:+ "]")%string -> k = l.
Proof.
  intros Hk Hl H%(f_equal (dec_from 0)). rewrite !dec_from_app in H.
  destruct (u64_string k Hk) as (_ & _ & E1), (u64_string l Hl) as (_ & _ & E2).
  rewrite E1, E2 in H. cbn [dec_from] in H. lia.
Qed.

Lemma bracket_inj a b : ("[" +:+ a = "[" +:+ b)%string -> a = b.
Proof. intros H. by injection H. Qed.

Lemma digits_not_any d : all_digits d = true -> d <> EmptyString -> ("[" +:+ d +:+ "]")%string <> ANY_INDEX.
Proof.
  intros Hd Hne H. destruct d as [|c d]; [done|]. apply all_digits_cons in Hd as [Hd _].
  cbn in H. by injection H as -> _.
Qed.

Lemma names_exactly_inj x s y t : names_exactly x s -> names_exactly y t -> element_may_alias x y = true -> s = t.
Proof.
  unfold element_may_alias. intros H1 H2.
  assert (forall z u, names_exactly z u -> z <> ANY_INDEX) as Hany.
  { intros z u [m Hm|k Hk]; [by intros ->|]. destruct (u64_string k Hk) as (Hd & Hne & _).
    by apply digits_not_any. }
  rewrite (bool_decide_false (x = ANY_INDEX)), (bool_decide_false (y = ANY_INDEX)) by eauto.
  rewrite !orb_false_r, bool_decide_eq_true. clear Hany.
  destruct H1 as [m Hm|k Hk], H2 as [m' Hm'|k' Hk']; intros Heq; [by subst|by subst|by subst|].
  f_equal. apply bracket_inj in Heq. by apply u_to_string_inj.
Qed.

Lemma paths_may_alias_exact a b p q :
  Forall2 names_exactly a p -> Forall2 names_exactly b q -> paths_may_alias a b = true -> overlap p q.
Proof.
  unfold overlap. intros Ha. revert b q. induction Ha as [|x s a p Hx Ha IH]; intros b q Hb.
  { left. apply prefix_nil. }
  destruct Hb as [|y t b q Hy Hb]; [right; apply prefix_nil|]. cbn [paths_may_alias].
  rewrite andb_true_iff. intros [He H]. rewrite (names_exactly_inj x s y t) by done.
  destruct (IH b q Hb H); [left|right]; by apply prefix_cons.
Qed.

(** C34. The overlap test never misses an overlap: if two lvalues name places of
    one root and, for some values of their indices, one place contains the
    other, then the paths the checker computes for them may alias.  On lvalues
    whose indices are literals it is exact: distinct fields and distinct
    constant indices are told apart, however the literals are spelled. *)
Theorem may_alias_sound_exact rho e1 e2 r p1 p2 :
  place_of rho e1 = Some (r, p1) -> place_of rho e2 = Some (r, p2) ->
  exists a b, base_and_path e1 = Some (r, a) /\ base_and_path e2 = Some (r, b) /\
    (overlap p1 p2 -> paths_may_alias a b = true) /\
    (literal_place e1 = true -> literal_place e2 = true -> paths_may_alias a b = true -> overlap p1 p2).
Proof.
  intros H1 H2. destruct (base_and_path_stands _ _ _ _ H1) as (a & Ha & Hsa).
  destruct (base_and_path_stands _ _ _ _ H2) as (b & Hb & Hsb). exists a, b. split_and!; [done..| |].
  - by apply paths_may_alias_prefix.
  - intros Hl1 Hl2. destruct (literal_place_exact _ _ _ _ Hl1 H1) as (a' & Ha' & Hea).
    destruct (literal_place_exact _ _ _ _ Hl2 H2) as (b' & Hb' & Heb). simplify_eq.
    by apply paths_may_alias_exact.
Qed.

(** [q[i].x] and [q[07]]: with [i = 7] one contains the other. *)
Lemma may_alias_sound_exact_witness :
  let q := Identifier "q" Span_default in
  let i := Identifier "i" Span_default in
  let e1 := MemberAccess (IndexAccess q i Span_default) "x" None Span_default in
  let e2 := IndexAccess q (Number "07" None Span_default) Span_default in
  exists a b, base_and_path e1 = Some ("q", a) /\ base_and_path e2 = Some ("q", b) /\ paths_may_alias a b = true.
Proof.
  intros q i e1 e2.
  destruct (may_alias_sound_exact (fun _ => 7) e1 e2 "q" [SIndex 7; SField "x"] [SIndex 7]) as (a & b & Ha & Hb & H & _);
    [reflexivity|reflexivity|]. exists a, b. split_and!; [done|done|]. apply H. right. by exists [SField "x"].
Defined.

(** Two indices that differ are two places. *)
Example distinct_indices_disjoint :
  paths_may_alias ["[0]"; "x"] ["[1]"] = false /\ paths_may_alias ["[?]"] ["[1]"; "y"] = true /\
  display_place "q" ["[0]"; "x"; "_1"] = "q[0].x.1"%string /\ display_dotted "t._0.p" = "t.0.p"%string.
Proof. done. Qed.
