(* ===== verification/BorrowCx.v ===== *)
(** * The borrow context ([src/src/hir/borrow_cx.rs])

    The table of active borrows, the liveness of the open blocks that decides
    which of its records are dead, and the save, restore and join operations of
    the checker.  With them the parts of [hir/env.rs], [hir/stmt.rs] and
    [hir/check/drops.rs] that build the liveness of a block, that keep the
    borrows of a statement, and that say whether a drop reads a borrow.

    The fields of [BorrowCx] that no operation of the file touches (moves,
    mutability, provenance, views) are left out.  A stack keeps its innermost
    entry last, as the vectors of the code do.  Statement and block indices are
    [nat]. *)

From stdpp Require Import base list strings gmap sorting.
From Stdlib Require Import ZArith Lia Ascii.
From S2P Require Import Prelude.
Open Scope vx_scope.
Open Scope nat_scope.

(** ** Data *)

Record BorrowRecord : Type := mkBorrowRecord {
  is_mut : bool;
  scope_depth : nat;
  borrower_name : option string;
  path : list string;
  carried_from : option nat;
}.

#[export] Instance BorrowRecord_eq_dec : EqDecision BorrowRecord.
Proof. solve_decision. Defined.

Record BlockUses : Type := mkBlockUses {
  last_use : gmap string nat;
  declared : gset string;
  is_loop : bool;
  reads : list (gset string);
  assigns : list (option string);
}.

Inductive Moved : Type := MovedNo | MovedMaybe | MovedYes.
#[export] Instance Moved_eq_dec : EqDecision Moved.
Proof. solve_decision. Defined.

(** The fields of [Owner] that the queries below read. *)
Record Owner : Type := mkOwner {
  owner_name : string;
  owner_reads_borrows : bool;
  owner_moved : Moved;
}.

Inductive FrameKind : Type :=
| FunctionFrame (rewrite raw_pointers : bool)
| LoopFrame
| SpawnFrame
| TasksFrame
| TaskFrame
| BlockFrame (owners : list Owner).

Abbreviation Table := (gmap string (list BorrowRecord)) (only parsing).

Record BorrowCx : Type := mkBorrowCx {
  active_borrows : Table;
  before_statements : list Table;
  block_liveness : list BlockUses;
  current_stmt_idx : list nat;
  borrowers_ever : gmap string (gset string);
  shadowed : list (nat * string * list BorrowRecord);
  drops : list FrameKind;
  stored : list (string * BorrowRecord);
  running_tasks : gset string;
}.

(** [BorrowCx::default]. *)
Definition BorrowCx_default : BorrowCx := mkBorrowCx ∅ [] [] [] ∅ [] [] [] ∅.

Definition set_active (t : Table) (s : BorrowCx) : BorrowCx :=
  mkBorrowCx t (before_statements s) (block_liveness s) (current_stmt_idx s) (borrowers_ever s)
    (shadowed s) (drops s) (stored s) (running_tasks s).

Definition set_blocks (bl : list BlockUses) (ci : list nat) (s : BorrowCx) : BorrowCx :=
  mkBorrowCx (active_borrows s) (before_statements s) bl ci (borrowers_ever s)
    (shadowed s) (drops s) (stored s) (running_tasks s).

Definition set_borrowers (b : gmap string (gset string)) (s : BorrowCx) : BorrowCx :=
  mkBorrowCx (active_borrows s) (before_statements s) (block_liveness s) (current_stmt_idx s) b
    (shadowed s) (drops s) (stored s) (running_tasks s).

Definition set_shadowed (sh : list (nat * string * list BorrowRecord)) (s : BorrowCx) : BorrowCx :=
  mkBorrowCx (active_borrows s) (before_statements s) (block_liveness s) (current_stmt_idx s)
    (borrowers_ever s) sh (drops s) (stored s) (running_tasks s).

Definition set_stored (st : list (string * BorrowRecord)) (s : BorrowCx) : BorrowCx :=
  mkBorrowCx (active_borrows s) (before_statements s) (block_liveness s) (current_stmt_idx s)
    (borrowers_ever s) (shadowed s) (drops s) st (running_tasks s).

Definition set_tasks (t : gset string) (s : BorrowCx) : BorrowCx :=
  mkBorrowCx (active_borrows s) (before_statements s) (block_liveness s) (current_stmt_idx s)
    (borrowers_ever s) (shadowed s) (drops s) (stored s) t.

Definition set_before (b : list Table) (s : BorrowCx) : BorrowCx :=
  mkBorrowCx (active_borrows s) b (block_liveness s) (current_stmt_idx s)
    (borrowers_ever s) (shadowed s) (drops s) (stored s) (running_tasks s).

(** The records of a base: [get(base)], the empty slice when absent. *)
Definition records_of (t : Table) (base : string) : list BorrowRecord := default [] (t !! base).

(** ** Drop frames *)

(** [owners.iter().rev().find(|o| o.name == name)] in each block, innermost first. *)
Fixpoint reads_borrows_in (frames : list FrameKind) (name : string) : bool :=
  match frames with
  | [] => false
  | f :: frames =>
      match f with
      | FunctionFrame _ _ | SpawnFrame => false
      | LoopFrame | TasksFrame | TaskFrame => reads_borrows_in frames name
      | BlockFrame owners =>
          match list_find (fun o => owner_name o = name) (rev owners) with
          | Some (_, o) => owner_reads_borrows o && bool_decide (owner_moved o <> MovedYes)
          | None => reads_borrows_in frames name
          end
      end
  end.

Definition drop_reads_borrows (frames : list FrameKind) (name : string) : bool :=
  reads_borrows_in (rev frames) name.

(** ** Blocks *)

Definition enter_block (uses : BlockUses) (s : BorrowCx) : BorrowCx :=
  set_blocks (block_liveness s ++ [uses]) (current_stmt_idx s ++ [0]) s.

Definition set_stmt (i : nat) (s : BorrowCx) : BorrowCx :=
  match current_stmt_idx s with
  | [] => s
  | ci => set_blocks (block_liveness s) (removelast ci ++ [i]) s
  end.

Definition exit_block (s : BorrowCx) : BorrowCx :=
  set_blocks (removelast (block_liveness s)) (removelast (current_stmt_idx s)) s.

Definition is_variable_ever_read (s : BorrowCx) (name : string) : bool :=
  match last (block_liveness s) with
  | Some block => bool_decide (is_Some (last_use block !! name))
  | None => true
  end.

(** The text before the first [/], or all of it. *)
Fixpoint task_of (name : string) : string :=
  match name with
  | EmptyString => EmptyString
  | String c rest => if Ascii.eqb c "/" then EmptyString else String c (task_of rest)
  end.

Definition start_task (task : string) (s : BorrowCx) : BorrowCx := set_tasks ({[task]} ∪ running_tasks s) s.
Definition end_task (task : string) (s : BorrowCx) : BorrowCx := set_tasks (running_tasks s ∖ {[task]}) s.
Definition is_running_task (s : BorrowCx) (name : string) : bool :=
  bool_decide (task_of name ∈ running_tasks s).

(** The loop of [used_after_in] over the blocks, innermost first. *)
Fixpoint used_after_scan (name : string) (blocks : list (BlockUses * nat)) : bool :=
  match blocks with
  | [] => false
  | (block, current_idx) :: blocks =>
      let last_use := last_use block !! name in
      if match last_use with Some u => Nat.ltb current_idx u | None => false end then true
      else if bool_decide (name ∈ declared block) then false
      else if is_loop block && bool_decide (is_Some last_use) then true
      else used_after_scan name blocks
  end.

(** A slice past the end of the vector panics. *)
Definition used_after_in (s : BorrowCx) (name : string) (blocks : nat) : outcome bool :=
  if Nat.leb blocks (length (block_liveness s))
  then Returns (used_after_scan name (rev (zip (take blocks (block_liveness s)) (current_stmt_idx s))))
  else Panics.

Definition is_variable_used_after (s : BorrowCx) (name : string) : outcome bool :=
  if is_running_task s name || drop_reads_borrows (drops s) name then Returns true
  else used_after_in s name (length (block_liveness s)).

(** The closure [decide], over the statements [is]. *)
Fixpoint decide_read (name : string) (block : BlockUses) (is_ : list nat) : option bool :=
  match is_ with
  | [] => None
  | i :: is_ =>
      if match reads block !! i with Some r => bool_decide (name ∈ r) | None => false end then Some true
      else if match assigns block !! i with Some a => bool_decide (a = Some name) | None => false end
           then Some false
      else decide_read name block is_
  end.

(** One turn of the loop of [carried_borrow_live] at block [b]: an answer, or
    on to the block around it. *)
Definition carried_at (name : string) (root b : nat) (block : BlockUses) (at_ : nat) : option bool :=
  let ended :=
    if negb (Nat.eqb b root) && bool_decide (name ∈ declared block) then Some false else None in
  match reads block with
  | [] =>
      if match last_use block !! name with Some u => Nat.leb at_ u | None => false end then Some true
      else ended
  | _ =>
      if match reads block !! at_ with Some r => bool_decide (name ∈ r) | None => false end then Some true
      else match decide_read name block (seq (S at_) (length (reads block) - S at_)) with
           | Some live => Some live
           | None => ended
           end
  end.

Fixpoint carried_scan (s : BorrowCx) (name : string) (root : nat) (bs : list nat) : outcome (option bool) :=
  match bs with
  | [] => Returns None
  | b :: bs =>
      block ←! vec_get (block_liveness s) b;
      at_ ←! vec_get (current_stmt_idx s) b;
      match carried_at name root b block at_ with
      | Some live => Returns (Some live)
      | None => carried_scan s name root bs
      end
  end.

Definition carried_borrow_live (s : BorrowCx) (name : string) (root : nat) : outcome bool :=
  if is_running_task s name then Returns true else
  scanned ←! carried_scan s name root (rev (seq root (length (block_liveness s) - root)));
  match scanned with
  | Some live => Returns live
  | None =>
      after ←! used_after_in s name root;
      if after : bool then Returns true else
      at_ ←! vec_get (current_stmt_idx s) root;
      block ←! vec_get (block_liveness s) root;
      Returns (default false (decide_read name block (seq 0 (S at_))))
  end.

Definition block_count (s : BorrowCx) : nat := length (block_liveness s).

(** ** Records *)

(** A record added at the end of the list of [base]: [entry(base).or_default().push(record)]. *)
Definition push_record (base : string) (record : BorrowRecord) (t : Table) : Table :=
  <[base := records_of t base ++ [record]]> t.

(** [retain] on every list of the table. *)
Definition retain_records (P : BorrowRecord -> Prop) `{!forall r, Decision (P r)} (t : Table) : Table :=
  filter P <$> t.

(** [retain(|_, list| !list.is_empty())]. *)
Definition drop_empty (t : Table) : Table := filter (fun e : string * list BorrowRecord => e.2 <> []) t.

Definition seed_carried (seeds : list (string * BorrowRecord)) (s : BorrowCx) : BorrowCx :=
  set_active (fold_left (fun t e => push_record e.1 e.2 t) seeds (active_borrows s)) s.

Definition forget_carried (root : nat) (s : BorrowCx) : BorrowCx :=
  set_active (drop_empty (retain_records (fun r => carried_from r <> Some root) (active_borrows s))) s.

(** Whether a record is dead, as [sweep] decides it. *)
Definition record_dead (s : BorrowCx) (b : BorrowRecord) : outcome bool :=
  match borrower_name b, carried_from b with
  | Some borrower, Some root => live ←! carried_borrow_live s borrower root; Returns (negb live)
  | Some borrower, None => used ←! is_variable_used_after s borrower; Returns (negb used)
  | None, _ => Returns false
  end.

(** [map(..).collect()] with a closure that may panic. *)
Fixpoint outcome_map {A B} (f : A -> outcome B) (l : list A) : outcome (list B) :=
  match l with
  | [] => Returns []
  | a :: l => b ←! f a; bs ←! outcome_map f l; Returns (b :: bs)
  end.

(** [retain] with the answers of an iterator; an iterator that has ended keeps the element. *)
Fixpoint retain_by (dead : list bool) (l : list BorrowRecord) : list BorrowRecord :=
  match l, dead with
  | [], _ => []
  | r :: l, d :: dead => if d : bool then retain_by dead l else r :: retain_by dead l
  | r :: l, [] => r :: retain_by [] l
  end.

Definition sweep_base (base : string) (s : BorrowCx) : outcome BorrowCx :=
  match active_borrows s !! base with
  | None => Returns s
  | Some borrows =>
      dead ←! outcome_map (record_dead s) borrows;
      if negb (bool_decide (true ∈ dead)) then Returns s
      else Returns (set_active (<[base := retain_by dead borrows]> (active_borrows s)) s)
  end.

Definition live_borrows (base : string) (s : BorrowCx) : outcome (list BorrowRecord * BorrowCx) :=
  s ←! sweep_base base s;
  Returns (records_of (active_borrows s) base, s).

(** The order of [String], [Vec<String>] and of the pair of both. *)
Fixpoint strings_leb (a b : list string) : bool :=
  match a, b with
  | [], _ => true
  | _ :: _, [] => false
  | x :: a, y :: b => if String.eqb x y then strings_leb a b else String.leb x y
  end.

Definition entry_le (x y : string * list string) : Prop :=
  (if String.eqb x.1 y.1 then strings_leb x.2 y.2 else String.leb x.1 y.1) = true.
#[export] Instance entry_le_dec : RelDecision entry_le.
Proof. intros x y. unfold entry_le. solve_decision. Defined.

Definition held_by (holder : string) (r : BorrowRecord) : Prop := borrower_name r = Some holder.
#[export] Instance held_by_dec holder r : Decision (held_by holder r).
Proof. unfold held_by. solve_decision. Defined.

Section queries.
Context `{HashOrder}.

Definition borrowed_by (s : BorrowCx) (borrower : string) : list (string * list string) :=
  merge_sort entry_le
    (e ← iter (active_borrows s); (fun r => (e.1, path r)) <$> filter (held_by borrower) e.2).
End queries.

Definition forget_held (holder : string) (t : Table) : Table :=
  drop_empty (retain_records (fun r => ~ held_by holder r) t).

Definition forget_borrows_of (holder : string) (s : BorrowCx) : BorrowCx :=
  set_before (forget_held holder <$> before_statements s)
    (set_active (forget_held holder (active_borrows s)) s).

Definition forget_unheld_borrow (base : string) (mut : bool) (s : BorrowCx) : BorrowCx :=
  match active_borrows s !! base with
  | Some l =>
      match list_find (fun r => borrower_name r = None /\ carried_from r = None /\ is_mut r = mut) l with
      | Some (at_, _) => set_active (<[base := delete at_ l]> (active_borrows s)) s
      | None => s
      end
  | None => s
  end.

(** [BorrowRecord { borrower_name: Some(to), scope_depth, ..r.clone() }]. *)
Definition copy_to (to : string) (depth : nat) (r : BorrowRecord) : BorrowRecord :=
  mkBorrowRecord (is_mut r) depth (Some to) (path r) (carried_from r).

Definition copy_borrows (from to : string) (depth : nat) (s : BorrowCx) : BorrowCx :=
  set_borrowers
    ((fun borrowers : gset string => if bool_decide (from ∈ borrowers) then {[to]} ∪ borrowers else borrowers)
       <$> borrowers_ever s)
    (set_active
       ((fun records => records ++ (copy_to to depth <$> filter (held_by from) records)) <$> active_borrows s) s).

(** ** The records that a variable reaches *)

Definition total_records (t : Table) : nat := sum_list (length <$> (snd <$> map_to_list t)).

(** The closure [same]: a copy for [to] of the borrow [r]. *)
Definition same_borrow (to : string) (r c : BorrowRecord) : Prop :=
  borrower_name c = Some to /\ is_mut c = is_mut r /\ path c = path r.
#[export] Instance same_borrow_dec to r c : Decision (same_borrow to r c).
Proof. unfold same_borrow. solve_decision. Defined.

Definition held_by_any (reached : list string) (r : BorrowRecord) : Prop :=
  match borrower_name r with Some b => b ∈ reached | None => False end.
#[export] Instance held_by_any_dec reached r : Decision (held_by_any reached r).
Proof. unfold held_by_any. destruct (borrower_name r); apply _. Defined.

(** The loop that collects the copies for one base. *)
Fixpoint collect_copies (to : string) (depth : nat) (records : list BorrowRecord) (rs copies : list BorrowRecord)
    : list BorrowRecord :=
  match rs with
  | [] => copies
  | r :: rs =>
      if bool_decide (Exists (same_borrow to r) records) || bool_decide (Exists (same_borrow to r) copies)
      then collect_copies to depth records rs copies
      else collect_copies to depth records rs (copies ++ [copy_to to depth r])
  end.

Definition copy_reached (reached : list string) (to : string) (depth : nat) (s : BorrowCx) : BorrowCx :=
  set_borrowers
    ((fun borrowers : gset string =>
        if bool_decide (Exists (fun v => v ∈ borrowers) reached) then {[to]} ∪ borrowers else borrowers)
       <$> borrowers_ever s)
    (set_active
       ((fun records =>
           records ++ collect_copies to depth records (filter (held_by_any reached) records) [])
          <$> active_borrows s) s).

Section through.
Context `{HashOrder}.

(** The loop over [pending], whose last element is the head here; [None] when
    the fuel runs out. *)
Fixpoint reach_from (fuel : nat) (s : BorrowCx) (to : string) (pending reached : list string)
    : option (list string) :=
  match fuel with
  | O => None
  | S fuel =>
      match pending with
      | [] => Some reached
      | var :: pending =>
          if bool_decide (var = to) || bool_decide (var ∈ reached)
          then reach_from fuel s to pending reached
          else reach_from fuel s to (rev (borrowed_by s var).*1 ++ pending) (reached ++ [var])
      end
  end.

Definition copy_borrows_through (from to : string) (depth : nat) (s : BorrowCx) : option BorrowCx :=
  match reach_from (2 + total_records (active_borrows s)) s to [from] [] with
  | Some reached => Some (copy_reached reached to depth s)
  | None => None
  end.
End through.

(** ** Borrowers *)

(** A [HashSet] is visited as a map to unit is. *)
Definition borrowers_of `{HashOrder} (s : BorrowCx) (base : string) : list string :=
  match borrowers_ever s !! base with Some b => (iter (gset_to_gmap tt b)).*1 | None => [] end.

Definition has_borrowed (s : BorrowCx) (base name : string) : bool :=
  match borrowers_ever s !! base with Some b => bool_decide (name ∈ b) | None => false end.

Definition forget_borrower (base name : string) (s : BorrowCx) : BorrowCx :=
  set_borrowers (alter (fun b : gset string => b ∖ {[name]}) base (borrowers_ever s)) s.

Definition take_borrowers (s : BorrowCx) : gmap string (gset string) * BorrowCx :=
  (borrowers_ever s, set_borrowers ∅ s).

Definition restore_borrowers (saved : gmap string (gset string)) (s : BorrowCx) : BorrowCx :=
  set_borrowers saved s.

Definition record (base : string) (r : BorrowRecord) (s : BorrowCx) : BorrowCx :=
  let s :=
    match borrower_name r with
    | Some b => set_borrowers (<[base := {[b]} ∪ default ∅ (borrowers_ever s !! base)]> (borrowers_ever s)) s
    | None => s
    end in
  set_active (push_record base r (active_borrows s)) s.

(** ** Scopes *)

(** The closure of [retain_mut]: the record kept, possibly moved, or [None]. *)
Definition retain_at (depth : nat) (holder_depth : string -> option nat) (b : BorrowRecord) : option BorrowRecord :=
  if Nat.ltb (scope_depth b) depth then Some b
  else match borrower_name b with
       | Some n =>
           match holder_depth n with
           | Some held_at => Some (mkBorrowRecord (is_mut b) held_at (borrower_name b) (path b) (carried_from b))
           | None => None
           end
       | None => None
       end.

Definition retain_scope (depth : nat) (holder_depth : string -> option nat) (s : BorrowCx) : BorrowCx :=
  set_active ((fun l : list BorrowRecord => omap (retain_at depth holder_depth) l) <$> active_borrows s) s.

Definition shadow (name : string) (depth : nat) (s : BorrowCx) : BorrowCx :=
  match active_borrows s !! name with
  | Some records =>
      set_shadowed (shadowed s ++ [(depth, name, records)])
        (set_active (delete name (active_borrows s)) s)
  | None => s
  end.

(** The loop of [unshadow] over the stack, innermost first: the table, and what stays. *)
Fixpoint unshadow_loop (depth : nat) (stack : list (nat * string * list BorrowRecord)) (t : Table)
    : list (nat * string * list BorrowRecord) * Table :=
  match stack with
  | [] => ([], t)
  | (d, name, records) :: rest =>
      if Nat.leb depth d then unshadow_loop depth rest (<[name := records_of t name ++ records]> t)
      else (stack, t)
  end.

Definition unshadow (depth : nat) (s : BorrowCx) : BorrowCx :=
  let '(stack, t) := unshadow_loop depth (rev (shadowed s)) (active_borrows s) in
  set_shadowed (rev stack) (set_active t s).

Definition take_shadowed (s : BorrowCx) : list (nat * string * list BorrowRecord) * BorrowCx :=
  (shadowed s, set_shadowed [] s).

Definition restore_shadowed (sh : list (nat * string * list BorrowRecord)) (s : BorrowCx) : BorrowCx :=
  set_shadowed sh s.

(** ** Saving and restoring *)

Definition snapshot (s : BorrowCx) : Table := active_borrows s.
Definition take_table (s : BorrowCx) : Table * BorrowCx := (active_borrows s, set_active ∅ s).
Definition restore (t : Table) (s : BorrowCx) : BorrowCx := set_active t s.
Definition snapshot_base (s : BorrowCx) (base : string) : option (list BorrowRecord) := active_borrows s !! base.

(** The closure of [retain_present] over the list, threading [stored]. *)
Fixpoint retain_present_list (prev : list BorrowRecord) (call_target : option string)
    (stored : list BorrowRecord) (l : list BorrowRecord) : list BorrowRecord :=
  match l with
  | [] => []
  | r :: l =>
      if bool_decide (r ∈ prev)
         || (bool_decide (is_Some (borrower_name r)) && negb (bool_decide (borrower_name r = call_target)))
      then r :: retain_present_list prev call_target stored l
      else
        match list_find (fun x => borrower_name x = borrower_name r /\ path x = path r /\ is_mut x = is_mut r)
                stored with
        | Some (i, _) => r :: retain_present_list prev call_target (swap_remove i stored) l
        | None => retain_present_list prev call_target stored l
        end
  end.

Definition retain_present (base : string) (prev : list BorrowRecord) (call_target : option string)
    (s : BorrowCx) : BorrowCx :=
  let st := snd <$> filter (fun e : string * BorrowRecord => e.1 = base) (stored s) in
  match active_borrows s !! base with
  | Some l =>
      match retain_present_list prev call_target st l with
      | [] => set_active (delete base (active_borrows s)) s
      | l => set_active (<[base := l]> (active_borrows s)) s
      end
  | None => s
  end.

(** The loop of [added_copies_since] over the records of one base. *)
Fixpoint added_copies (base : string) (old : list BorrowRecord) (l : list BorrowRecord)
    : list (string * BorrowRecord) :=
  match l with
  | [] => []
  | r :: l =>
      match list_find (fun o => o = r) old with
      | Some (i, _) => added_copies base (swap_remove i old) l
      | None => (base, r) :: added_copies base old l
      end
  end.

Definition note_stored (records : list (string * BorrowRecord)) (s : BorrowCx) : BorrowCx :=
  set_stored (stored s ++ records) s.
Definition clear_stored (s : BorrowCx) : BorrowCx := set_stored [] s.

Section save.
Context `{HashOrder}.

Definition added_copies_since (s : BorrowCx) (before : Table) : list (string * BorrowRecord) :=
  e ← iter (active_borrows s); added_copies e.1 (records_of before e.1) e.2.

Definition added_since (s : BorrowCx) (before : Table) : list (string * BorrowRecord) :=
  e ← iter (active_borrows s);
  (fun r => (e.1, r)) <$> filter (fun r => r ∉ records_of before e.1) e.2.

Definition next_branch (before : Table) (s : BorrowCx) : list (string * BorrowRecord) * BorrowCx :=
  ((e ← iter (active_borrows s); (fun r => (e.1, r)) <$> e.2), set_active before s).
End save.

(** [r.is_mut = false]. *)
Definition shared_record (r : BorrowRecord) : BorrowRecord :=
  mkBorrowRecord false (scope_depth r) (borrower_name r) (path r) (carried_from r).

(** One turn of the loop of [reserve]. *)
Definition reserve_one (acc : Table * list (string * BorrowRecord)) (e : string * BorrowRecord)
    : Table * list (string * BorrowRecord) :=
  let '(t, shared) := acc in
  let '(base, r0) := e in
  match t !! base with
  | Some l =>
      (<[base := (fun r => if bool_decide (r = r0) then shared_record r else r) <$> l]> t,
       shared ++ ((fun r => (base, shared_record r)) <$> filter (fun r => r = r0) l))
  | None => (t, shared)
  end.

Definition reserve (records : list (string * BorrowRecord)) (s : BorrowCx)
    : list (string * BorrowRecord) * BorrowCx :=
  let '(t, shared) := fold_left reserve_one records (active_borrows s, []) in (shared, set_active t s).

Definition add_back (records : list (string * BorrowRecord)) (s : BorrowCx) : BorrowCx :=
  fold_left
    (fun s e => if bool_decide (e.2 ∈ records_of (active_borrows s) e.1) then s else record e.1 e.2 s) records s.

Definition forget_one (s : BorrowCx) (e : string * BorrowRecord) : BorrowCx :=
  match active_borrows s !! e.1 with
  | Some l =>
      match filter (fun r => r <> e.2) l with
      | [] => set_active (delete e.1 (active_borrows s)) s
      | l => set_active (<[e.1 := l]> (active_borrows s)) s
      end
  | None => s
  end.

Definition forget (records : list (string * BorrowRecord)) (s : BorrowCx) : BorrowCx :=
  fold_left forget_one records s.

(** ** The caller's side ([hir/env.rs])

    The scopes are the sets of names they declare. *)

(** [declared.max(pending)] on [Option]: [None] is below every [Some]. *)
Definition option_max (a b : option nat) : option nat :=
  match a, b with
  | Some x, Some y => Some (Nat.max x y)
  | None, b => b
  | a, None => a
  end.

Definition holder_depth (scopes : list (gset string)) (pending_lets : list (string * nat)) (name : string)
    : option nat :=
  let declared :=
    match list_find (fun sc : gset string => name ∈ sc) (rev scopes) with
    | Some (i, _) => Some (length scopes - i)
    | None => None
    end in
  let pending :=
    match list_find (fun e : string * nat => e.1 = name) (rev pending_lets) with
    | Some (_, e) => Some e.2
    | None => None
    end in
  option_max declared pending.

Definition borrows_before_statement (s : BorrowCx) : nat * BorrowCx :=
  let s := set_before (before_statements s ++ [snapshot s]) s in (length (before_statements s), s).

(** One turn of the loop of [restore_borrows_keeping_held]. *)
Definition keep_held (scopes : list (gset string)) (pending_lets : list (string * nat))
    (s : BorrowCx) (e : string * BorrowRecord) : BorrowCx :=
  let '(base, r) := e in
  match borrower_name r with
  | None => s
  | Some n =>
      if is_running_task s n then record base r s
      else match holder_depth scopes pending_lets n with
           | None => s
           | Some held_at =>
               record base
                 (mkBorrowRecord (is_mut r) (Nat.min (scope_depth r) held_at) (borrower_name r) (path r)
                    (carried_from r)) s
           end
  end.

Definition restore_borrows_keeping_held `{HashOrder} (scopes : list (gset string))
    (pending_lets : list (string * nat)) (depth : nat) (s : BorrowCx) : outcome BorrowCx :=
  if negb (Nat.eqb (length (before_statements s)) depth) then Panics else
  match last (before_statements s) with
  | None => Panics
  | Some saved =>
      let s := set_before (removelast (before_statements s)) s in
      let added := added_since s saved in
      Returns (fold_left (keep_held scopes pending_lets) added (restore saved s))
  end.

(** The part of [pop_scope] about borrows: [depth] counts the scope that ends. *)
Definition pop_scope_borrows (scopes : list (gset string)) (pending_lets : list (string * nat))
    (s : BorrowCx) : BorrowCx :=
  let depth := length scopes in
  let scopes := removelast scopes in
  retain_scope depth (holder_depth scopes pending_lets) (unshadow depth s).

Definition shadow_borrows (scopes : list (gset string)) (name : string) (s : BorrowCx) : BorrowCx :=
  shadow name (length scopes) s.

(** ** What a block uses ([hir/stmt.rs])

    A statement is described by what the extraction functions say of it: the
    names it mentions, nested blocks included ([extract_uses_stmt]); for an
    assignment to a variable or a [let], the variable and the names of its value
    ([extract_uses_expr]); and whether it is a [let]. *)

Record StmtUses : Type := mkStmtUses {
  stmt_names : gset string;
  stmt_target : option (string * gset string);
  stmt_let : bool;
}.

Definition insert_uses (names : gset string) (i : nat) (m : gmap string nat) : gmap string nat :=
  gset_to_gmap i names ∪ m.

Fixpoint liveness_from (i : nat) (body : list StmtUses) (last_use : gmap string nat) : gmap string nat :=
  match body with
  | [] => last_use
  | stmt :: body => liveness_from (S i) body (insert_uses (stmt_names stmt) i last_use)
  end.

Definition compute_block_liveness (body : list StmtUses) : gmap string nat := liveness_from 0 body ∅.

Definition reads_and_assigns (stmt : StmtUses) : gset string * option string :=
  let names := match stmt_target stmt with Some (_, value) => value | None => stmt_names stmt end in
  let target :=
    match stmt_target stmt with
    | Some (t, _) => if bool_decide (t ∈ names) then None else Some t
    | None => None
    end in
  match target with
  | None => (names ∪ stmt_names stmt, None)
  | Some t => (names, Some t)
  end.

Definition lets_of (body : list StmtUses) : list string :=
  omap (fun stmt => if stmt_let stmt then fst <$> stmt_target stmt else None) body.

Definition block_uses (body : list StmtUses) (tail : option (gset string)) : BlockUses :=
  let last_use := compute_block_liveness body in
  let last_use := match tail with Some names => insert_uses names (length body) last_use | None => last_use end in
  let ra := reads_and_assigns <$> body in
  let tail_reads := match tail with Some names => [(names, None)] | None => [] end in
  mkBlockUses last_use (list_to_set (lets_of body)) false (ra ++ tail_reads).*1 (ra ++ tail_reads).*2.

(** The uses of a loop body: its header binds the loop variable, and evaluates
    the iterator before each pass. *)
Definition loop_uses (body : list StmtUses) (binds : option string) (evaluates : option (gset string)) : BlockUses :=
  let uses := block_uses body None in
  mkBlockUses
    (match evaluates with Some names => last_use uses ∪ gset_to_gmap 0 names | None => last_use uses end)
    (declared uses ∪ match binds with Some b => {[b]} | None => ∅ end)
    true (reads uses) (assigns uses).
