(* ===== verification/BorrowFlow.v ===== *)
(** * When a borrow is dead

    The liveness that [BorrowCx] keeps for the open blocks, against the flow of
    control it stands for.  A point of the program is a stack of frames, one per
    open block, each with its statements and the one being checked.  Control
    goes on to the next statement of the innermost block, back to the start of a
    loop body, or out of a block.  [is_variable_used_after] answers whether some
    flow from here names the variable before the variable is gone, unless a
    block declares the name after this point, where it answers wrongly. *)

From stdpp Require Import base list strings gmap relations.
From Stdlib Require Import ZArith Lia Ascii.
From S2P Require Import Prelude BorrowCx.
Open Scope vx_scope.
Open Scope nat_scope.

(** ** Frames *)

(** An open block: its statements, its value, the header when it is a loop body
    (the variable it binds and the names the iterator expression uses), and the
    statement being checked. *)
Record Frame : Type := mkFrame {
  fr_body : list StmtUses;
  fr_tail : option (gset string);
  fr_header : option (option string * option (gset string));
  fr_at : nat;
}.

Definition frame_uses (fr : Frame) : BlockUses :=
  match fr_header fr with
  | Some (binds, evaluates) => loop_uses (fr_body fr) binds evaluates
  | None => block_uses (fr_body fr) (fr_tail fr)
  end.

(** What the code at each position of the block names. *)
Definition positions (fr : Frame) : list (gset string) :=
  (stmt_names <$> fr_body fr) ++
  match fr_header fr, fr_tail fr with None, Some names => [names] | _, _ => [] end.

(** The names that the header of a loop evaluates. *)
Definition header_names (fr : Frame) : gset string :=
  match fr_header fr with Some (_, Some names) => names | _ => ∅ end.

(** The block has declared [x] by the end of the statement being checked. *)
Definition declares_by_now (x : string) (fr : Frame) : Prop :=
  x ∈ lets_of (take (S (fr_at fr)) (fr_body fr)) \/ exists e, fr_header fr = Some (Some x, e).

#[export] Instance declares_by_now_dec x fr : Decision (declares_by_now x fr).
Proof.
  unfold declares_by_now. destruct (fr_header fr) as [[[y|] e]|] eqn:E; apply or_dec; try apply _;
    [|right; naive_solver..].
  destruct (decide (x = y)) as [->|]; [left; eauto|right; naive_solver].
Defined.

(** ** The flow of control *)

Definition move_to (fr : Frame) (i : nat) : Frame := mkFrame (fr_body fr) (fr_tail fr) (fr_header fr) i.

(** The frames, innermost first, each with whether the variable is its own:
    such a variable is gone once its block ends or starts again. *)
Abbreviation point := (list (Frame * bool)) (only parsing).

(** [flow p names p']: control goes from [p] to [p'] and runs code that names [names]. *)
Inductive flow : point -> gset string -> point -> Prop :=
| flow_next fr own rest names :
    positions fr !! S (fr_at fr) = Some names ->
    flow ((fr, own) :: rest) names ((move_to fr (S (fr_at fr)), own) :: rest)
| flow_again fr rest :
    is_Some (fr_header fr) ->
    flow ((fr, false) :: rest) (header_names fr ∪ default ∅ (positions fr !! 0)) ((move_to fr 0, false) :: rest)
| flow_leave fr rest : flow ((fr, false) :: rest) ∅ rest.

Definition flows (p p' : point) : Prop := exists names, flow p names p'.

(** Some flow from [p] reaches code that names [x]. *)
Definition named_later (x : string) (p : point) : Prop :=
  exists p' names p'', rtc flows p p' /\ flow p' names p'' /\ x ∈ names.

(** The point of the program at which the variable named [x] is looked at: it
    belongs to every block that has declared the name. *)
Definition here (x : string) (frames : list Frame) : point :=
  (fun fr => (fr, bool_decide (declares_by_now x fr))) <$> frames.

(** A context whose open blocks are [frames], innermost first. *)
Definition describes (frames : list Frame) (s : BorrowCx) : Prop :=
  block_liveness s = rev (frame_uses <$> frames) /\ current_stmt_idx s = rev (fr_at <$> frames).

(** No open block declares [x] only later. *)
Definition no_later_let (x : string) (frames : list Frame) : Prop :=
  Forall (fun fr => x ∈ declared (frame_uses fr) -> declares_by_now x fr) frames.

#[export] Instance no_later_let_dec x frames : Decision (no_later_let x frames).
Proof. unfold no_later_let. apply _. Defined.

(** ** The last use in a block *)

(** The last position that names [x]. *)
Fixpoint last_named (x : string) (l : list (gset string)) : option nat :=
  match l with
  | [] => None
  | names :: l =>
      match last_named x l with
      | Some j => Some (S j)
      | None => if bool_decide (x ∈ names) then Some 0 else None
      end
  end.

Lemma last_named_Some x l j :
  last_named x l = Some j -> (exists names, l !! j = Some names /\ x ∈ names) /\
    forall k names, l !! k = Some names -> x ∈ names -> k <= j.
Proof.
  revert j. induction l as [|names l IH]; intros j; cbn [last_named]; [done|].
  destruct (last_named x l) as [j'|] eqn:E.
  - intros [= <-]. destruct (IH j' eq_refl) as [Hj Hk]. split; [done|].
    intros [|k] n Hn Hx; [lia|]. specialize (Hk k n Hn Hx). lia.
  - case_bool_decide as Hx; [|done]. intros [= <-]. split; [by exists names|].
    intros [|k] n Hn Hx'; [lia|]. exfalso. clear -E Hn Hx'. revert k E Hn.
    induction l as [|m l IH]; intros k; cbn [last_named]; [done|].
    destruct (last_named x l) eqn:E'; [done|]. case_bool_decide; [done|]. intros _.
    destruct k as [|k]; [naive_solver|]. by apply IH.
Qed.

Lemma last_named_None x l k names : last_named x l = None -> l !! k = Some names -> x ∉ names.
Proof.
  revert k. induction l as [|m l IH]; intros k; cbn [last_named]; [done|].
  destruct (last_named x l) eqn:E; [done|]. case_bool_decide; [done|]. intros _.
  destruct k as [|k]; [naive_solver|]. by apply IH.
Qed.

Lemma last_named_snoc x l names :
  last_named x (l ++ [names]) = if bool_decide (x ∈ names) then Some (length l) else last_named x l.
Proof.
  induction l as [|m l IH]; cbn [app last_named length]; [by destruct (bool_decide _)|].
  rewrite IH. by destruct (bool_decide (x ∈ names)).
Qed.

Lemma insert_uses_lookup names i m x :
  insert_uses names i m !! x = if bool_decide (x ∈ names) then Some i else m !! x.
Proof.
  unfold insert_uses. rewrite lookup_union, lookup_gset_to_gmap.
  case_bool_decide as Hx; [by rewrite option_guard_True, union_Some_l by done|].
  by rewrite option_guard_False, (left_id None union) by done.
Qed.

Lemma liveness_from_lookup i body m x :
  liveness_from i body m !! x =
  match last_named x (stmt_names <$> body) with Some j => Some (i + j) | None => m !! x end.
Proof.
  revert i m. induction body as [|st body IH]; intros i m; [done|].
  cbn [liveness_from fmap list_fmap last_named]. rewrite IH.
  destruct (last_named x (stmt_names <$> body)) as [j|]; [f_equal; lia|].
  rewrite insert_uses_lookup. case_bool_decide; [f_equal; lia|done].
Qed.

(** The liveness of a block records the last position that names each
    variable, and 0 for what only the header of the loop names. *)
Lemma frame_last_use fr x :
  last_use (frame_uses fr) !! x =
  match last_named x (positions fr) with
  | Some j => Some j
  | None => if bool_decide (x ∈ header_names fr) then Some 0 else None
  end.
Proof.
  unfold frame_uses, positions, header_names.
  assert (forall body, compute_block_liveness body !! x = last_named x (stmt_names <$> body)) as Hb.
  { intros body. unfold compute_block_liveness. rewrite liveness_from_lookup. by destruct (last_named _ _). }
  destruct (fr_header fr) as [[binds evaluates]|].
  - rewrite app_nil_r. cbn [loop_uses last_use]. destruct evaluates as [names|].
    + rewrite lookup_union, lookup_gset_to_gmap. cbn [block_uses last_use]. rewrite Hb.
      destruct (last_named _ _) as [j|]; [by rewrite union_Some_l|]. rewrite (left_id None union).
      case_bool_decide; [by rewrite option_guard_True|by rewrite option_guard_False].
    + cbn [block_uses last_use]. rewrite Hb. rewrite bool_decide_false by set_solver. by destruct (last_named _ _).
  - cbn [block_uses last_use]. rewrite (bool_decide_false (x ∈ ∅)) by set_solver.
    destruct (fr_tail fr) as [names|].
    + rewrite insert_uses_lookup, Hb, last_named_snoc, length_fmap. case_bool_decide; [done|].
      by destruct (last_named _ _).
    + rewrite app_nil_r, Hb. by destruct (last_named _ _).
Qed.

(** ** The scan and the flow *)

(** A later position of the block names [x]. *)
Definition later_in (x : string) (fr : Frame) : Prop :=
  exists i names, fr_at fr < i /\ positions fr !! i = Some names /\ x ∈ names.

(** The block names [x] somewhere, its header included. *)
Definition names_somewhere (x : string) (fr : Frame) : Prop :=
  x ∈ header_names fr \/ exists i names, positions fr !! i = Some names /\ x ∈ names.

(** Where some flow names [x], found block by block. *)
Fixpoint live_at (x : string) (p : point) : Prop :=
  match p with
  | [] => False
  | (fr, own) :: rest =>
      later_in x fr \/
      (own = false /\ ((is_Some (fr_header fr) /\ names_somewhere x fr) \/ live_at x rest))
  end.

Lemma later_in_last_use x fr :
  later_in x fr <-> exists u, last_use (frame_uses fr) !! x = Some u /\ fr_at fr < u.
Proof.
  rewrite frame_last_use. unfold later_in. destruct (last_named x (positions fr)) as [j|] eqn:E.
  - apply last_named_Some in E as [(names & Hn & Hx) Hk]. split.
    + intros (i & n & Hi & Hn' & Hx'). exists j. split; [done|]. specialize (Hk i n Hn' Hx'). lia.
    + intros (u & [= <-] & Hu). eauto.
  - split.
    + intros (i & n & _ & Hn & Hx). by destruct (last_named_None _ _ _ _ E Hn).
    + intros (u & Hu & Hlt). case_bool_decide; simplify_eq. lia.
Qed.

Lemma names_somewhere_last_use x fr : names_somewhere x fr <-> is_Some (last_use (frame_uses fr) !! x).
Proof.
  rewrite frame_last_use. unfold names_somewhere. destruct (last_named x (positions fr)) as [j|] eqn:E.
  - apply last_named_Some in E as [(names & Hn & Hx) _]. split; [by eauto|]. intros _. right. eauto.
  - split.
    + intros [Hx|(i & n & Hn & Hx)]; [by rewrite bool_decide_true|]. by destruct (last_named_None _ _ _ _ E Hn).
    + case_bool_decide; [by left|]. by intros [].
Qed.

Lemma flow_names_live x p names p' : flow p names p' -> x ∈ names -> live_at x p.
Proof.
  intros Hf Hx. destruct Hf as [fr own rest names Hn|fr rest Hh|fr rest]; cbn [live_at].
  - left. exists (S (fr_at fr)), names. split; [lia|done].
  - right. split; [done|]. left. split; [done|]. apply elem_of_union in Hx as [Hx|Hx]; [by left|]. right.
    destruct (positions fr !! 0) as [n|] eqn:E; cbn in Hx; [eauto|set_solver].
  - set_solver.
Qed.

Lemma flows_live x p p' : flows p p' -> live_at x p' -> live_at x p.
Proof.
  intros [names Hf] Hl. destruct Hf as [fr own rest names Hn|fr rest Hh|fr rest]; cbn [live_at] in *; [| |tauto].
  - destruct Hl as [(i & n & Hi & Hn' & Hx)|H]; [|by right].
    left. exists i, n. cbn [move_to fr_at] in Hi. split; [lia|done].
  - destruct Hl as [(i & n & Hi & Hn' & Hx)|H]; [|by right].
    right. split; [done|]. left. split; [done|]. right. by exists i, n.
Qed.

(** Control walks forward to any later position. *)
Lemma flows_forward fr own rest i :
  fr_at fr <= i -> i < length (positions fr) -> rtc flows ((fr, own) :: rest) ((move_to fr i, own) :: rest).
Proof.
  intros Hle Hlt. induction Hle as [|i Hle IH].
  - destruct fr. apply rtc_refl.
  - eapply rtc_r; [apply IH; lia|]. destruct (lookup_lt_is_Some_2 (positions fr) (S i) Hlt) as [names Hn].
    exists names. apply (flow_next (move_to fr i) own rest names Hn).
Qed.

Lemma later_in_named x fr own rest : later_in x fr -> named_later x ((fr, own) :: rest).
Proof.
  intros (i & names & Hi & Hn & Hx). destruct i as [|i]; [lia|].
  pose proof (lookup_lt_Some _ _ _ Hn). exists ((move_to fr i, own) :: rest), names, ((move_to fr (S i), own) :: rest).
  split_and!; [apply flows_forward; lia| |done]. apply (flow_next (move_to fr i) own rest names Hn).
Qed.

Lemma named_later_step x p p' : flows p p' -> named_later x p' -> named_later x p.
Proof. intros Hs (q & n & q' & Hr & Hq & Hx). exists q, n, q'. split; [|done]. by eapply rtc_l. Qed.

Lemma live_at_named x p : live_at x p -> named_later x p.
Proof.
  induction p as [|[fr own] rest IH]; cbn [live_at]; [done|].
  intros [H|[-> [[Hh H]|H]]].
  - by apply later_in_named.
  - assert (forall z, z ∈ header_names fr ∪ default ∅ (positions fr !! 0) -> z = x -> named_later x ((fr, false) :: rest))
      as Hnow.
    { intros z Hz ->. eexists _, _, _. split_and!; [apply rtc_refl|by apply flow_again|done]. }
    destruct H as [Hx|(i & names & Hn & Hx)]; [apply (Hnow x); set_solver|].
    destruct i as [|i]; [apply (Hnow x); [rewrite Hn; set_solver|done]|].
    apply named_later_step with ((move_to fr 0, false) :: rest); [eexists; by apply flow_again|].
    apply later_in_named. exists (S i), names. split; [cbn; lia|done].
  - apply named_later_step with rest; [eexists; apply flow_leave|by apply IH].
Qed.

Lemma live_at_iff x p : live_at x p <-> named_later x p.
Proof.
  split; [apply live_at_named|]. intros (p' & names & p'' & Hr & Hf & Hx).
  induction Hr as [p|p q p' Hs _ IH]; [by eapply flow_names_live|]. eapply flows_live; [done|]. by apply IH.
Qed.

(** The scan of the code finds exactly the variables that some flow names. *)
Lemma declares_by_now_declared x fr : declares_by_now x fr -> x ∈ declared (frame_uses fr).
Proof.
  unfold declares_by_now, frame_uses. intros [Hx|[e ->]].
  - assert (x ∈ lets_of (fr_body fr)) as Hin.
    { unfold lets_of in *. rewrite <- (take_drop (S (fr_at fr)) (fr_body fr)), omap_app.
      apply elem_of_app. by left. }
    destruct (fr_header fr) as [[b e]|]; cbn [loop_uses block_uses declared];
      rewrite ?elem_of_union, elem_of_list_to_set; auto.
  - cbn [loop_uses declared]. set_solver.
Qed.

Lemma frame_is_loop fr : is_loop (frame_uses fr) = true <-> is_Some (fr_header fr).
Proof. unfold frame_uses. destruct (fr_header fr) as [[b e]|]; cbn; split; (done || by intros []). Qed.

Lemma used_after_scan_live x frames :
  no_later_let x frames ->
  used_after_scan x ((fun fr => (frame_uses fr, fr_at fr)) <$> frames) = true <-> live_at x (here x frames).
Proof.
  induction 1 as [|fr frames Hfr _ IH]; [done|]. cbn [fmap list_fmap used_after_scan here live_at].
  change (live_at x ((fun fr => (fr, bool_decide (declares_by_now x fr))) <$> frames)) with (live_at x (here x frames)).
  rewrite <- IH, later_in_last_use, names_somewhere_last_use, <- frame_is_loop.
  assert (bool_decide (declares_by_now x fr) = bool_decide (x ∈ declared (frame_uses fr))) as ->.
  { apply bool_decide_ext. split; [apply declares_by_now_declared|done]. }
  destruct (last_use (frame_uses fr) !! x) as [u|] eqn:Eu.
  - destruct (Nat.ltb_spec (fr_at fr) u) as [Hlt|Hge].
    { split; [|done]. intros _. left. by exists u. }
    case_bool_decide as Hd; [|destruct (is_loop (frame_uses fr))];
      cbn [andb]; rewrite ?(bool_decide_true (is_Some (Some u))) by done; cbn [andb].
    + split; [done|]. intros [(u' & [= <-] & ?)|[? _]]; [lia|done].
    + split; [|done]. intros _. right. split; [done|]. by left.
    + split; [by right; split; [|right]|]. intros [(u' & [= <-] & ?)|[_ [[? _]|?]]]; [lia|done|done].
  - rewrite (bool_decide_false (is_Some (@None nat))), andb_false_r by (by intros []).
    case_bool_decide as Hd.
    + split; [done|]. intros [(u' & ? & ?)|[? _]]; done.
    + split; [by right; split; [|right]|]. intros [(u' & ? & ?)|[_ [[_ []]|?]]]; done.
Qed.

Lemma describes_zip frames s : describes frames s ->
  rev (zip (take (length (block_liveness s)) (block_liveness s)) (current_stmt_idx s)) =
  (fun fr => (frame_uses fr, fr_at fr)) <$> frames.
Proof.
  intros [Hb Hc]. rewrite take_ge by done. rewrite Hb, Hc.
  assert (zip (rev (frame_uses <$> frames)) (rev (fr_at <$> frames)) =
    rev ((fun fr => (frame_uses fr, fr_at fr)) <$> frames)) as ->; [|by rewrite rev_involutive].
  clear Hb Hc. induction frames as [|fr frames IH]; [done|]. cbn [fmap list_fmap rev].
  rewrite zip_with_app by (rewrite !length_rev, !length_fmap; done). by rewrite IH.
Qed.

Lemma used_after_in_describes frames s x : describes frames s -> no_later_let x frames ->
  exists b, used_after_in s x (length (block_liveness s)) = Returns b /\ (b = true <-> named_later x (here x frames)).
Proof.
  intros Hs Hl. unfold used_after_in. rewrite Nat.leb_refl, (describes_zip frames) by done.
  eexists. split; [done|]. by rewrite used_after_scan_live, live_at_iff.
Qed.

(** ** The records that a conflict check sees *)

(** A record that still counts: nobody holds it, or its holder may still be used. *)
Definition holds (frames : list Frame) (s : BorrowCx) (r : BorrowRecord) : Prop :=
  match borrower_name r, carried_from r with
  | None, _ => True
  | Some n, None =>
      is_running_task s n = true \/ drop_reads_borrows (drops s) n = true \/ named_later n (here n frames)
  | Some n, Some root => carried_borrow_live s n root = Returns true
  end.

Lemma is_variable_used_after_spec frames s n : describes frames s -> no_later_let n frames ->
  exists b, is_variable_used_after s n = Returns b /\
    (b = true <-> is_running_task s n = true \/ drop_reads_borrows (drops s) n = true \/ named_later n (here n frames)).
Proof.
  intros Hs Hl. unfold is_variable_used_after.
  destruct (is_running_task s n); cbn [orb]; [exists true; tauto|].
  destruct (drop_reads_borrows (drops s) n); cbn [orb]; [exists true; tauto|].
  destruct (used_after_in_describes frames s n Hs Hl) as (b & -> & Hb). exists b. split; [done|].
  rewrite Hb. intuition congruence.
Qed.

(** Blocks and cursors are in step, and the root of a carried record is an open
    block: the indexing of [carried_borrow_live] stays in range. *)
Lemma carried_borrow_live_total s n root :
  length (current_stmt_idx s) = length (block_liveness s) -> root < length (block_liveness s) ->
  exists b, carried_borrow_live s n root = Returns b.
Proof.
  intros Hlen Hroot. unfold carried_borrow_live. destruct (is_running_task s n); [eauto|].
  assert (forall bs, Forall (fun b => b < length (block_liveness s)) bs ->
    exists o, carried_scan s n root bs = Returns o) as Hscan.
  { induction 1 as [|b bs Hb _ [o IH]]; cbn [carried_scan]; [eauto|].
    destruct (lookup_lt_is_Some_2 (block_liveness s) b) as [bl Ebl]; [done|].
    destruct (lookup_lt_is_Some_2 (current_stmt_idx s) b) as [ci Eci]; [lia|].
    rewrite (vec_get_Some _ _ _ Ebl), (vec_get_Some _ _ _ Eci). cbn [outcome_bind].
    destruct (carried_at _ _ _ _ _); eauto. }
  destruct (Hscan (rev (seq root (length (block_liveness s) - root)))) as [o ->].
  { apply Forall_rev, Forall_seq. intros; lia. }
  cbn [outcome_bind]. destruct o as [b|]; [eauto|]. unfold used_after_in.
  rewrite (proj2 (Nat.leb_le _ _)) by lia. cbn [outcome_bind]. destruct (used_after_scan _ _); [eauto|].
  destruct (lookup_lt_is_Some_2 (current_stmt_idx s) root) as [ci Eci]; [lia|].
  destruct (lookup_lt_is_Some_2 (block_liveness s) root) as [bl Ebl]; [done|].
  rewrite (vec_get_Some _ _ _ Ebl), (vec_get_Some _ _ _ Eci). cbn [outcome_bind]. eauto.
Qed.

Definition readable (frames : list Frame) (s : BorrowCx) (base : string) : Prop :=
  describes frames s /\
  forall r n, r ∈ records_of (active_borrows s) base -> borrower_name r = Some n ->
    no_later_let n frames /\ forall root, carried_from r = Some root -> root < length frames.

Lemma record_dead_spec frames s base r : readable frames s base -> r ∈ records_of (active_borrows s) base ->
  exists d, record_dead s r = Returns d /\ (d = false <-> holds frames s r).
Proof.
  intros [Hs Hr] Hin. unfold record_dead, holds. specialize (Hr r).
  destruct (borrower_name r) as [n|]; [|by exists false]. destruct (Hr n Hin eq_refl) as [Hl Hc].
  destruct (carried_from r) as [root|].
  - destruct Hs as [Hb Hci]. destruct (carried_borrow_live_total s n root) as [b Eb].
    { by rewrite Hb, Hci, !length_rev, !length_fmap. }
    { rewrite Hb, length_rev, length_fmap. by apply Hc. }
    rewrite Eb. exists (negb b). split; [done|]. destruct b; naive_solver.
  - destruct (is_variable_used_after_spec frames s n Hs Hl) as (b & -> & Hb). exists (negb b).
    split; [done|]. rewrite <- Hb. by destruct b.
Qed.

Lemma retain_by_spec (P : BorrowRecord -> Prop) l dead :
  Forall2 (fun r d => d = false <-> P r) l dead ->
  retain_by dead l `sublist_of` l /\ (forall r, r ∈ retain_by dead l <-> r ∈ l /\ P r) /\
  (true ∉ dead -> retain_by dead l = l).
Proof.
  induction 1 as [|r d l dead Hd _ (IH1 & IH2 & IH3)]; cbn [retain_by].
  { split_and!; [done| |done]. intros r. rewrite elem_of_nil. tauto. }
  destruct d; split_and!.
  - by apply sublist_cons.
  - intros r'. rewrite IH2, elem_of_cons. split; [tauto|]. intros [[->|?] HP]; [|done]. by apply Hd in HP.
  - rewrite elem_of_cons. tauto.
  - by apply sublist_skip.
  - intros r'. rewrite !elem_of_cons, IH2. split; [|tauto]. intros [->|?]; [|tauto]. split; [by left|by apply Hd].
  - rewrite not_elem_of_cons. intros [_ Hn]. f_equal. by apply IH3.
Qed.

Lemma outcome_map_Forall2 {A B} (f : A -> outcome B) (R : A -> B -> Prop) l :
  Forall (fun a => exists b, f a = Returns b /\ R a b) l -> exists bs, outcome_map f l = Returns bs /\ Forall2 R l bs.
Proof.
  induction 1 as [|a l (b & Hb & HR) _ (bs & IH & Hbs)]; cbn [outcome_map]; [eauto|].
  rewrite Hb, IH. cbn [outcome_bind]. eauto.
Qed.

(** ** The theorems *)

Lemma carried_scan_set_active t s n root bs : carried_scan (set_active t s) n root bs = carried_scan s n root bs.
Proof.
  induction bs as [|b bs IH]; [done|]. cbn [carried_scan set_active block_liveness current_stmt_idx].
  destruct (vec_get (block_liveness s) b); [|done]. cbn [outcome_bind].
  destruct (vec_get (current_stmt_idx s) b); [|done]. cbn [outcome_bind]. by rewrite IH.
Qed.

Lemma carried_borrow_live_set_active t s n root :
  carried_borrow_live (set_active t s) n root = carried_borrow_live s n root.
Proof. unfold carried_borrow_live. by rewrite carried_scan_set_active. Qed.

Lemma holds_set_active t frames s r : holds frames (set_active t s) r <-> holds frames s r.
Proof.
  unfold holds. destruct (borrower_name r), (carried_from r); try done. by rewrite carried_borrow_live_set_active.
Qed.

Lemma set_active_same base l s :
  (forall x, active_borrows s !! base = Some x -> x = l) ->
  set_active (partial_alter (fun o => (fun _ => l) <$> o) base (active_borrows s)) s = s.
Proof.
  intros Hl. destruct s as [t]; unfold set_active; cbn in *. f_equal. apply map_eq. intros k.
  destruct (decide (k = base)) as [->|]; [|by rewrite lookup_partial_alter_ne].
  rewrite lookup_partial_alter_eq. destruct (t !! base) as [x|] eqn:E; [|done]. cbn. by rewrite (Hl x).
Qed.

Lemma live_borrows_spec frames s base : readable frames s base ->
  exists l, live_borrows base s = Returns (l, set_active (partial_alter (fun o => (fun _ => l) <$> o) base (active_borrows s)) s) /\
    l `sublist_of` records_of (active_borrows s) base /\
    (forall r, r ∈ l <-> r ∈ records_of (active_borrows s) base /\ holds frames s r) /\
    (Forall (holds frames s) (records_of (active_borrows s) base) -> l = records_of (active_borrows s) base).
Proof.
  intros Hr. unfold live_borrows, sweep_base, records_of. destruct (active_borrows s !! base) as [rs|] eqn:E.
  2:{ exists []. cbn [outcome_bind]. rewrite E. split_and!; [|done|set_solver|done].
      by rewrite set_active_same by (intros; congruence). }
  destruct (outcome_map_Forall2 (record_dead s) (fun r d => d = false <-> holds frames s r) rs) as (dead & Ed & Hdead).
  { apply Forall_forall. intros r Hin. apply (record_dead_spec frames s base); [done|]. unfold records_of. by rewrite E. }
  rewrite Ed. cbn [outcome_bind default]. destruct (retain_by_spec _ _ _ Hdead) as (H1 & H2 & H3).
  exists (retain_by dead rs). split_and!; [|done|done|].
  2:{ intros Hall. apply H3. intros Ht. apply list_elem_of_lookup_1 in Ht as [i Hi].
      destruct (Forall2_lookup_r _ _ _ _ _ Hdead Hi) as (r & Hr' & Hh).
      assert (true = false) by (apply Hh; by eapply Forall_lookup_1). done. }
  case_bool_decide as Ht; cbn [negb].
  - cbn [set_active active_borrows outcome_bind]. unfold records_of. rewrite lookup_insert_eq. cbn. do 3 f_equal.
    apply map_eq. intros k. destruct (decide (k = base)) as [->|].
    + by rewrite lookup_insert_eq, lookup_partial_alter_eq, E.
    + by rewrite lookup_insert_ne, lookup_partial_alter_ne by done.
  - cbn [outcome_bind]. rewrite E, H3 by done. cbn [default]. by rewrite set_active_same by (intros; congruence).
Qed.



(** ** Runs *)

Definition stmt (names : list string) : StmtUses := mkStmtUses (list_to_set names) None false.
Definition assign (x : string) (value : list string) : StmtUses :=
  mkStmtUses ({[x]} ∪ list_to_set value) (Some (x, list_to_set value)) false.
Definition let_ (x : string) (value : list string) : StmtUses :=
  mkStmtUses (list_to_set value) (Some (x, list_to_set value)) true.

Definition open_blocks (frames : list Frame) (s : BorrowCx) : BorrowCx :=
  set_blocks (rev (frame_uses <$> frames)) (rev (fr_at <$> frames)) s.

Definition borrow_by (holder : string) (carried : option nat) : BorrowRecord :=
  mkBorrowRecord false 1 (Some holder) [] carried.

(** [let r = &a; for i in v { a; .. } use(r)] at the statement [a] of the loop. *)
Definition demo_frames : list Frame :=
  [ mkFrame [stmt ["a"]; stmt ["b"]] None (Some (Some "i", Some {["v"]})) 0
  ; mkFrame [let_ "r" ["a"]; let_ "q" ["a"]; stmt ["v"; "a"; "b"]; stmt ["r"]] None None 2 ].

Definition demo_cx : BorrowCx :=
  open_blocks demo_frames (record "a" (borrow_by "q" None) (record "a" (borrow_by "r" None) BorrowCx_default)).

Lemma demo_readable : readable demo_frames demo_cx "a".
Proof.
  split; [by split|]. intros r n Hin Hn.
  assert (n = "r" \/ n = "q") as Hrq.
  { change (r ∈ [borrow_by "r" None; borrow_by "q" None]) in Hin. apply elem_of_cons in Hin as [->|Hin]; [naive_solver|].
    apply list_elem_of_singleton in Hin as ->. naive_solver. }
  assert (carried_from r = None) as Hc.
  { change (r ∈ [borrow_by "r" None; borrow_by "q" None]) in Hin. apply elem_of_cons in Hin as [->|Hin]; [done|].
    by apply list_elem_of_singleton in Hin as ->. }
  split; [|by rewrite Hc]. destruct Hrq as [-> | ->]; apply (bool_decide_unpack _); by vm_compute.
Qed.



(** ** Where the checker is wrong *)

(** [let r = &a; if c { a = 2; let r = 5; } use(r)], at [a = 2]. *)
Definition later_let_frames : list Frame :=
  [ mkFrame [assign "a" []; let_ "r" []] None None 0
  ; mkFrame [let_ "r" ["a"]; stmt ["c"; "a"]; stmt ["r"]] None None 1 ].

Definition later_let_cx : BorrowCx :=
  open_blocks later_let_frames (record "a" (borrow_by "r" None) BorrowCx_default).

(** A [let] hides the outer variable of its name from the liveness of the
    whole block, also before the [let]: at [a = 2] in
    [let r = &a; if c { a = 2; let r = 5; } use(r)] the borrow of [a] that [r]
    holds is swept as dead, although [r] is named after the [if]. *)
Theorem later_let_drops_live_borrow :
  describes later_let_frames later_let_cx /\
  records_of (active_borrows later_let_cx) "a" = [borrow_by "r" None] /\
  (exists s', live_borrows "a" later_let_cx = Returns ([], s')) /\
  Forall (fun fr => declares_by_now "r" fr -> fr_at fr = 1) later_let_frames /\
  named_later "r" (here "r" later_let_frames).
Proof.
  split_and!; [by split|done|by eexists|apply (bool_decide_unpack _); by vm_compute|].
  apply live_at_iff. right. split; [by vm_compute|]. right. left.
  exists 2, (list_to_set ["r"]). split; [cbn; lia|]. split; [done|set_solver].
Qed.

(** [loop { use(r); x = 5; if c { continue; } r = &x; }], at [x = 5]. *)
Definition continue_frames : list Frame :=
  [ mkFrame [stmt ["r"]; assign "x" []; stmt ["c"]; assign "r" ["x"]] None (Some (None, None)) 1
  ; mkFrame [let_ "x" []; let_ "r" ["y"]; stmt ["r"; "x"; "c"]] None None 2 ].

Definition continue_cx : BorrowCx :=
  seed_carried [("x", borrow_by "r" (Some 1))] (open_blocks continue_frames BorrowCx_default).

(** A borrow left by the previous pass of a loop is dropped too early when
    a [continue] can skip the new value of its holder: at [x = 5] in
    [loop { use(r); x = 5; if c { continue; } r = &x; }] the carried borrow of
    [x] is swept, although control can run [if c { continue; }], which does not
    name [r], and then read [r] at the start of the next pass. *)
Theorem continue_drops_carried_borrow :
  describes continue_frames continue_cx /\
  records_of (active_borrows continue_cx) "x" = [borrow_by "r" (Some 1)] /\
  (exists s', live_borrows "x" continue_cx = Returns ([], s')) /\
  exists p1 p2 skipped names, flow (here "r" continue_frames) skipped p1 /\ ("r" ∉ skipped) /\
    flow p1 names p2 /\ "r" ∈ names.
Proof.
  split_and!; [by split|done|by eexists|].
  eexists _, _, (list_to_set ["c"]), _. split_and!.
  - by apply flow_next.
  - set_solver.
  - apply flow_again. by eexists.
  - cbn. set_solver.
Qed.

(** [let x; let y; let r = &y; loop { r = &x; let x = 5; } x = 7;] *)
Definition shadowing_run : BorrowCx :=
  let outer := block_uses [let_ "x" []; let_ "y" []; let_ "r" ["y"]; stmt ["r"; "x"]; assign "x" []] None in
  let body := loop_uses [assign "r" ["x"]; let_ "x" []] None None in
  let scopes := [{["x"; "y"; "r"]}; {["x"]}] in
  let s := set_stmt 3 (enter_block outer BorrowCx_default) in
  let s := seed_carried [("x", borrow_by "r" (Some 1))] (enter_block body s) in
  let s := shadow_borrows scopes "x" (set_stmt 1 s) in
  let s := exit_block (forget_carried 1 s) in
  set_stmt 4 (pop_scope_borrows scopes [] s).

(** A record seeded for a loop outlives the loop when the body hides its
    base: in [loop { r = &x; let x = 5; }] the [let] sets the seeded record of
    [x] aside, the end of the body forgets the seeds of the table only, and the
    end of the scope puts the record back.  The next look at the borrows of [x]
    indexes the block of the loop, which is gone, and panics. *)
Theorem shadowed_seed_panics :
  records_of (active_borrows shadowing_run) "x" = [borrow_by "r" (Some 1)] /\
  block_count shadowing_run = 1 /\ live_borrows "x" shadowing_run = Panics.
Proof. done. Qed.
