(* ===== verification/BorrowTable.v ===== *)
(** * The table of borrows

    What the operations on the table keep: the join of the branches of an [if]
    or a [match], the borrows that a variable reaches, the borrows that last
    after a statement, the end of a scope, and hidden variables. *)

From stdpp Require Import base list strings gmap relations sorting.
From Stdlib Require Import ZArith Lia Ascii.
From S2P Require Import Prelude BorrowCx.
Open Scope vx_scope.
Open Scope nat_scope.

(** ** Membership *)

(** [r] is an active borrow of [base]. *)
Definition active (s : BorrowCx) (base : string) (r : BorrowRecord) : Prop := r ∈ records_of (active_borrows s) base.

Lemma records_of_insert t base base' l :
  records_of (<[base := l]> t) base' = if decide (base' = base) then l else records_of t base'.
Proof.
  unfold records_of. case_decide as Hb; [subst; by rewrite lookup_insert_eq|]. by rewrite lookup_insert_ne.
Qed.

Lemma records_of_delete t base base' :
  records_of (delete base t) base' = if decide (base' = base) then [] else records_of t base'.
Proof.
  unfold records_of. case_decide as Hb; [subst; by rewrite lookup_delete_eq|]. by rewrite lookup_delete_ne.
Qed.

Lemma records_of_fmap f (t : gmap string (list BorrowRecord)) base :
  f [] = [] -> records_of (f <$> t) base = f (records_of t base).
Proof. intros Hf. unfold records_of. rewrite lookup_fmap. by destruct (t !! base). Qed.

Lemma active_record base r s base' r' :
  active (record base r s) base' r' <-> active s base' r' \/ (base' = base /\ r' = r).
Proof.
  assert (active_borrows (record base r s) = push_record base r (active_borrows s)) as E.
  { unfold record. by destruct (borrower_name r). }
  unfold active. rewrite E. unfold push_record. rewrite records_of_insert.
  case_decide as Hb; [subst|]; rewrite ?elem_of_app, ?list_elem_of_singleton; tauto.
Qed.

Lemma active_add_back rs s base r :
  active (add_back rs s) base r <-> active s base r \/ (base, r) ∈ rs.
Proof.
  unfold add_back. revert s. induction rs as [|[b r0] rs IH]; intros s; cbn [fold_left].
  { rewrite elem_of_nil. tauto. }
  rewrite IH, elem_of_cons. cbn [fst snd]. case_bool_decide as Hp.
  - split; [tauto|]. intros [?|[[= -> ->]|?]]; [tauto| |tauto]. by left.
  - rewrite active_record. split; [|naive_solver]. intros [[?|[-> ->]]|?]; auto.
Qed.

Section orders.
Context `{HashOrder}.

Lemma elem_of_table (t : gmap string (list BorrowRecord)) base r :
  (base, r) ∈ (e ← iter t; (fun r => (e.1, r)) <$> e.2) <-> r ∈ records_of t base.
Proof.
  rewrite list_elem_of_bind. unfold records_of. split.
  - intros ([b l] & Hin & Hl). apply elem_of_iter in Hl. apply list_elem_of_fmap in Hin as (x & [= -> ->] & Hx).
    by rewrite Hl.
  - intros Hr. destruct (t !! base) as [l|] eqn:E; [|by apply elem_of_nil in Hr].
    exists (base, l). split; [by apply list_elem_of_fmap_2|by apply elem_of_iter].
Qed.

Lemma elem_of_added_since s before base r :
  (base, r) ∈ added_since s before <-> active s base r /\ r ∉ records_of before base.
Proof.
  unfold added_since, active. rewrite list_elem_of_bind. unfold records_of. split.
  - intros ([b l] & Hin & Hl). apply elem_of_iter in Hl. apply list_elem_of_fmap in Hin as (x & [= -> ->] & Hx).
    apply list_elem_of_filter in Hx as [Hn Hx]. by rewrite Hl.
  - intros [Hr Hn]. destruct (active_borrows s !! base) as [l|] eqn:E; [|by apply elem_of_nil in Hr].
    exists (base, l). split; [|by apply elem_of_iter]. apply list_elem_of_fmap_2. by apply list_elem_of_filter.
Qed.

Lemma elem_of_borrowed_by s borrower base p :
  (base, p) ∈ borrowed_by s borrower <-> exists r, active s base r /\ borrower_name r = Some borrower /\ path r = p.
Proof.
  unfold borrowed_by, active. rewrite merge_sort_Permutation, list_elem_of_bind. unfold records_of. split.
  - intros ([b l] & Hin & Hl). apply elem_of_iter in Hl. apply list_elem_of_fmap in Hin as (x & [= -> ->] & Hx).
    apply list_elem_of_filter in Hx as [Hn Hx]. exists x. by rewrite Hl.
  - intros (r & Hr & Hb & <-). destruct (active_borrows s !! base) as [l|] eqn:E; [|by apply elem_of_nil in Hr].
    exists (base, l). split; [|by apply elem_of_iter]. cbn [fst snd].
    apply list_elem_of_fmap. exists r. split; [done|]. by apply list_elem_of_filter.
Qed.

(** ** Branches *)

(** The borrow bookkeeping of the arms of a [match], or of the two branches of
    an [if]: the first arm starts from the table before it, each other arm from
    a copy of that table, what the arms left is collected and put back after the
    last one.  The check of an arm is an arbitrary change of the context. *)
Fixpoint run_arms (before : gmap string (list BorrowRecord)) (arms : list (BorrowCx -> BorrowCx)) (first : bool)
    (s : BorrowCx) (arm_borrows : list (string * BorrowRecord)) : list (string * BorrowRecord) * BorrowCx :=
  match arms with
  | [] => (arm_borrows, s)
  | arm :: arms =>
      let '(arm_borrows, s) :=
        if first then (arm_borrows, s)
        else let '(left_, s) := next_branch before s in (arm_borrows ++ left_, s) in
      run_arms before arms false (arm s) arm_borrows
  end.

Definition match_arms (arms : list (BorrowCx -> BorrowCx)) (s : BorrowCx) : BorrowCx :=
  let before := snapshot s in
  let '(arm_borrows, s) := run_arms before arms true s [] in
  add_back arm_borrows s.

(** The contexts at the ends of the arms. *)
Fixpoint arm_ends (before : gmap string (list BorrowRecord)) (arms : list (BorrowCx -> BorrowCx)) (s : BorrowCx)
    : list BorrowCx :=
  match arms with
  | [] => []
  | arm :: arms => arm s :: arm_ends before arms (set_active before (arm s))
  end.

Lemma run_arms_active before arms : forall s acc base r,
  let '(rs, s') := run_arms before arms false s acc in
  active s' base r \/ (base, r) ∈ rs <->
  (base, r) ∈ acc \/ Exists (fun e => active e base r) (s :: arm_ends before arms (set_active before s)).
Proof.
  induction arms as [|arm arms IH]; intros s acc base r.
  { cbn. rewrite Exists_cons, Exists_nil. tauto. }
  cbn [run_arms next_branch arm_ends]. specialize (IH (arm (set_active before s))).
  cbn [fst snd]. specialize (IH (acc ++ (e ← iter (active_borrows s); (fun r => (e.1, r)) <$> e.2)) base r).
  destruct (run_arms before arms false _ _) as [rs s']. rewrite IH, elem_of_app, elem_of_table, !Exists_cons.
  unfold active. tauto.
Qed.

(** C33. After the branches of an [if] or of a [match], a borrow is active
    exactly when some branch left it active: a borrow that one branch ended
    still counts when another branch kept it, none is invented, and every
    branch starts from the borrows before the first.  It holds for every order in
    which the table is visited and whatever the check of a branch does. *)
Theorem branches_join arm arms s base r :
  active (match_arms (arm :: arms) s) base r <->
  Exists (fun e => active e base r) (arm_ends (snapshot s) (arm :: arms) s).
Proof.
  unfold match_arms. cbn [run_arms arm_ends]. pose proof (run_arms_active (snapshot s) arms (arm s) [] base r) as Hr.
  destruct (run_arms _ _ _ _ _) as [rs s']. rewrite active_add_back, Hr, elem_of_nil. tauto.
Qed.
End orders.

(** ** What a variable reaches *)

(** The records of the table with their bases. *)
Definition entries (t : gmap string (list BorrowRecord)) : list (string * BorrowRecord) :=
  e ← map_to_list t; (fun r => (e.1, r)) <$> e.2.

Lemma length_entries t : length (entries t) = total_records t.
Proof.
  unfold entries, total_records. induction (map_to_list t) as [|[b l] es IH]; [done|].
  cbn. by rewrite length_app, length_fmap, IH.
Qed.

(** The records whose holder is not in [reached]. *)
Definition unreached (reached : list string) (es : list (string * BorrowRecord)) : list (string * BorrowRecord) :=
  filter (fun e => ~ held_by_any reached e.2) es.

Lemma unreached_snoc reached var es : var ∉ reached ->
  length (unreached reached es) =
  length (unreached (reached ++ [var]) es) + length (filter (fun e : string * BorrowRecord => held_by var e.2) es).
Proof.
  intros Hv. unfold unreached. induction es as [|[b r] es IH]; [done|]. rewrite !filter_cons. cbn [snd].
  assert (held_by_any (reached ++ [var]) r <-> held_by_any reached r \/ held_by var r) as E.
  { unfold held_by_any, held_by. destruct (borrower_name r) as [n|]; [|naive_solver].
    rewrite elem_of_app, list_elem_of_singleton. naive_solver. }
  assert (held_by var r -> ~ held_by_any reached r) as Hd.
  { unfold held_by_any, held_by. by intros ->. }
  repeat case_decide; cbn [length]; lia || tauto.
Qed.

Section reach.
Context `{HashOrder} (s : BorrowCx) (to : string).

(** [u], which is not [to], holds a borrow of [v]. *)
Definition points_at (u v : string) : Prop :=
  u <> to /\ exists r, active s v r /\ borrower_name r = Some u.

Lemma elem_of_borrowed_bases u v : v ∈ (borrowed_by s u).*1 <-> exists r, active s v r /\ borrower_name r = Some u.
Proof.
  rewrite list_elem_of_fmap. split.
  - intros ([b p] & -> & Hin). apply elem_of_borrowed_by in Hin as (r & ? & ? & ?). by exists r.
  - intros (r & Hr & Hb). exists (v, path r). split; [done|]. apply elem_of_borrowed_by. by exists r.
Qed.

Lemma length_borrowed_by u :
  length (borrowed_by s u) =
  length (filter (fun e : string * BorrowRecord => held_by u e.2) (entries (active_borrows s))).
Proof.
  unfold borrowed_by, entries. rewrite merge_sort_Permutation.
  transitivity (length (e ← map_to_list (active_borrows s); (fun r => (e.1, path r)) <$> filter (held_by u) e.2)).
  { apply Permutation_length. by rewrite iter_perm. }
  induction (map_to_list (active_borrows s)) as [|[b l] es IH]; [done|].
  cbn [mbind list_bind]. rewrite filter_app, !length_app, <- IH. f_equal. rewrite length_fmap. cbn [fst snd].
  clear. induction l as [|r l IHl]; [done|]. cbn [fmap list_fmap]. rewrite !filter_cons. cbn [snd].
  case_decide; cbn [length]; [f_equal|]; done.
Qed.

(** What the worklist keeps true. *)
Record reach_inv (from : string) (pending reached : list string) : Prop := {
  ri_sound : Forall (fun v => rtc points_at from v) (pending ++ reached);
  ri_not_to : to ∉ reached;
  ri_start : from = to \/ from ∈ pending ++ reached;
  ri_closed : forall u v, u ∈ reached -> points_at u v -> v = to \/ v ∈ pending ++ reached;
}.

Lemma reach_inv_skip from var pending reached :
  var = to \/ var ∈ reached -> reach_inv from (var :: pending) reached -> reach_inv from pending reached.
Proof.
  intros Hv [H1 H2 H3 H4].
  assert (forall x, x = to \/ x ∈ (var :: pending) ++ reached -> x = to \/ x ∈ pending ++ reached) as Hx.
  { intros x. cbn [app]. rewrite elem_of_cons, elem_of_app. destruct Hv as [->|Hv]; naive_solver. }
  split; [by apply Forall_cons in H1 as [_ H1]|done|auto|]. intros u v Hu Hp. apply Hx. by apply (H4 u).
Qed.

Lemma reach_inv_visit from var pending reached :
  var <> to -> reach_inv from (var :: pending) reached ->
  reach_inv from (rev (borrowed_by s var).*1 ++ pending) (reached ++ [var]).
Proof.
  intros Hne [H1 H2 H3 H4]. cbn [app] in *. apply Forall_cons in H1 as [Hvar H1].
  assert (forall x, x ∈ rev (borrowed_by s var).*1 <-> points_at var x) as Hb.
  { intros x. rewrite list_elem_of_In, <- in_rev, <- list_elem_of_In, elem_of_borrowed_bases. unfold points_at. tauto. }
  assert (forall x, x ∈ var :: pending ++ reached -> x ∈ (rev (borrowed_by s var).*1 ++ pending) ++ reached ++ [var]) as Hx.
  { intros x. rewrite elem_of_cons, !elem_of_app, list_elem_of_singleton. tauto. }
  split.
  - rewrite Forall_forall in *. intros x. rewrite !elem_of_app, Hb, list_elem_of_singleton.
    intros [[Hp|Hp]|[Hp| ->]]; [by eapply rtc_r|apply H1; set_solver..|done].
  - set_solver.
  - destruct H3; auto.
  - intros u v. rewrite elem_of_app, list_elem_of_singleton. intros [Hu| ->] Hp.
    + destruct (H4 u v Hu Hp); auto.
    + right. rewrite !elem_of_app, Hb. auto.
Qed.

Lemma reach_from_spec from fuel : forall pending reached,
  reach_inv from pending reached ->
  length pending + length (unreached reached (entries (active_borrows s))) < fuel ->
  exists final, reach_from fuel s to pending reached = Some final /\ reach_inv from [] final.
Proof.
  induction fuel as [|fuel IH]; intros pending reached Hinv Hf; [lia|]. cbn [reach_from].
  destruct pending as [|var pending]; [by exists reached|].
  destruct (decide (var = to \/ var ∈ reached)) as [Hs|Hn].
  - rewrite <- bool_decide_or, bool_decide_true by done. apply IH; [by eapply reach_inv_skip|cbn in Hf; lia].
  - rewrite <- bool_decide_or, bool_decide_false by done.
    apply IH; [apply reach_inv_visit; tauto|].
    rewrite (unreached_snoc reached var) in Hf by tauto. rewrite <- length_borrowed_by in Hf.
    rewrite length_app, length_rev, length_fmap. cbn [length] in Hf. lia.
Qed.

(** The walk ends, and reaches exactly the variables that a chain of borrows
    leads to without passing through [to]. *)
Lemma reach_from_exact from :
  exists reached, reach_from (2 + total_records (active_borrows s)) s to [from] [] = Some reached /\
    forall v, v ∈ reached <-> v <> to /\ rtc points_at from v.
Proof.
  destruct (reach_from_spec from (2 + total_records (active_borrows s)) [from] []) as (reached & Hr & Hinv).
  { split; [by repeat constructor|apply not_elem_of_nil|right; set_solver|set_solver]. }
  { assert (length (unreached [] (entries (active_borrows s))) <= length (entries (active_borrows s)))
      by apply length_filter. rewrite length_entries in *. cbn [length]. lia. }
  exists reached. split; [done|]. destruct Hinv as [H1 H2 H3 H4]. cbn [app] in *. rewrite Forall_forall in H1.
  intros v. split; [intros Hv; split; [by intros ->|by apply H1]|].
  intros [Hne Hp]. revert Hne.
  assert (v = to \/ v ∈ reached) as []; [|done|done].
  clear -H3 H4 Hp. apply rtc_ind_r with (z := v) (P := fun v => v = to \/ v ∈ reached) in Hp; [done|done|].
  intros y z _ Hyz [->|Hy]; [by destruct Hyz|by apply (H4 y)].
Qed.
End reach.

Lemma collect_copies_spec to depth records rs : forall copies,
  let final := collect_copies to depth records rs copies in
  (forall c, c ∈ copies -> c ∈ final) /\
  (forall c, c ∈ final -> c ∈ copies \/ exists r, r ∈ rs /\ c = copy_to to depth r) /\
  (forall r, r ∈ rs -> exists c, c ∈ records ++ final /\ same_borrow to r c).
Proof.
  induction rs as [|r rs IH]; intros copies; cbn [collect_copies]; [set_solver|].
  destruct (bool_decide (Exists (same_borrow to r) records) || bool_decide (Exists (same_borrow to r) copies)) eqn:E.
  - destruct (IH copies) as (I1 & I2 & I3). split_and!; [done| |].
    + intros c [?|(x & ? & ?)]%I2; [auto|right; exists x; set_solver].
    + intros x. rewrite elem_of_cons. intros [->|Hx]; [|by apply I3].
      apply orb_true_iff in E as [E|E]; apply bool_decide_eq_true, Exists_exists in E as (c & Hc & Hs);
        exists c; rewrite elem_of_app; auto.
  - destruct (IH (copies ++ [copy_to to depth r])) as (I1 & I2 & I3). split_and!.
    + intros c Hc. apply I1. set_solver.
    + intros c [Hc|(x & ? & ?)]%I2; [|right; exists x; set_solver].
      apply elem_of_app in Hc as [?|Hc%list_elem_of_singleton]; [auto|right; exists r; set_solver].
    + intros x. rewrite elem_of_cons. intros [->|Hx]; [|by apply I3].
      exists (copy_to to depth r). split; [|done]. apply elem_of_app. right. apply I1. set_solver.
Qed.

(** [copy_borrows_through] ends, and [to] then holds exactly what [from]
    reaches: every borrow held by a variable that a chain of borrows leads to
    from [from] (without passing through [to]) has a copy held by [to] with the
    same place and mutability, every new record is such a copy at the given
    depth, and the records that were there stay. *)
Theorem copy_through_closure `{HashOrder} from to depth s :
  exists s', copy_borrows_through from to depth s = Some s' /\
    (forall base r, active s base r -> active s' base r) /\
    (forall base r v, active s base r -> borrower_name r = Some v -> v <> to -> rtc (points_at s to) from v ->
       exists c, active s' base c /\ same_borrow to r c) /\
    (forall base c, active s' base c -> active s base c \/
       exists r v, active s base r /\ borrower_name r = Some v /\ v <> to /\ rtc (points_at s to) from v /\
         c = copy_to to depth r).
Proof.
  unfold copy_borrows_through. destruct (reach_from_exact s to from) as (reached & -> & Hr).
  eexists. split; [done|].
  assert (forall base, records_of (active_borrows (copy_reached reached to depth s)) base =
    records_of (active_borrows s) base ++
    collect_copies to depth (records_of (active_borrows s) base)
      (filter (held_by_any reached) (records_of (active_borrows s) base)) []) as E.
  { intros base. cbn [copy_reached set_borrowers set_active active_borrows].
    apply (records_of_fmap (fun records => records ++ collect_copies to depth records (filter (held_by_any reached) records) [])).
    done. }
  unfold active at 2 4 5. split_and!.
  - intros base r Hin. rewrite E, elem_of_app. by left.
  - intros base r v Hin Hv Hne Hp.
    destruct (collect_copies_spec to depth (records_of (active_borrows s) base)
      (filter (held_by_any reached) (records_of (active_borrows s) base)) []) as (_ & _ & H3).
    destruct (H3 r) as (c & Hc & Hs).
    { apply list_elem_of_filter. split; [|done]. unfold held_by_any. rewrite Hv. by apply Hr. }
    exists c. by rewrite E.
  - intros base c. rewrite E, elem_of_app. intros [?|Hc]; [by left|]. right.
    apply (collect_copies_spec to depth (records_of (active_borrows s) base)) in Hc as [Hc|(r & Hr' & ->)];
      [by apply elem_of_nil in Hc|].
    apply list_elem_of_filter in Hr' as [Hh Hin]. unfold held_by_any in Hh.
    destruct (borrower_name r) as [v|] eqn:Ev; [|done]. apply Hr in Hh as [Hne Hp]. by exists r, v.
Qed.

(** ** The end of a statement *)

(** The record [r0] that a statement made lasts after it as [r]. *)
Definition lasts (scopes : list (gset string)) (pending_lets : list (string * nat)) (s : BorrowCx)
    (r0 r : BorrowRecord) : Prop :=
  exists n, borrower_name r0 = Some n /\
    if is_running_task s n then r = r0
    else exists d, holder_depth scopes pending_lets n = Some d /\
      r = mkBorrowRecord (is_mut r0) (Nat.min (scope_depth r0) d) (borrower_name r0) (path r0) (carried_from r0).

Lemma running_tasks_record base r s : running_tasks (record base r s) = running_tasks s.
Proof. unfold record. by destruct (borrower_name r). Qed.

Lemma lasts_record scopes pending base r0 s r r' :
  lasts scopes pending (record base r0 s) r r' <-> lasts scopes pending s r r'.
Proof.
  assert (forall n, is_running_task (record base r0 s) n = is_running_task s n) as E.
  { intros n. unfold is_running_task. by rewrite running_tasks_record. }
  unfold lasts. split; intros (n & Hn & Hl); exists n; (split; [done|]); rewrite ?E in *; done.
Qed.

Lemma lasts_held scopes pending s r0 r n : borrower_name r0 = Some n ->
  lasts scopes pending s r0 r <->
  if is_running_task s n then r = r0
  else exists d, holder_depth scopes pending n = Some d /\
    r = mkBorrowRecord (is_mut r0) (Nat.min (scope_depth r0) d) (borrower_name r0) (path r0) (carried_from r0).
Proof.
  intros En. unfold lasts. split; [|by exists n]. intros (n' & En' & Hl). rewrite En in En'. by injection En' as <-.
Qed.

Lemma active_keep_held scopes pending es : forall s base r,
  active (fold_left (keep_held scopes pending) es s) base r <->
  active s base r \/ exists r0, (base, r0) ∈ es /\ lasts scopes pending s r0 r.
Proof.
  induction es as [|[b r0] es IH]; intros s base r; cbn [fold_left]; [set_solver|]. rewrite IH.
  assert (forall s', (forall x y, lasts scopes pending s' x y <-> lasts scopes pending s x y) ->
    (active s' base r <-> active s base r \/ (base = b /\ lasts scopes pending s r0 r)) ->
    (active s' base r \/ (exists r1, (base, r1) ∈ es /\ lasts scopes pending s' r1 r)) <->
    (active s base r \/ (exists r1, (base, r1) ∈ (b, r0) :: es /\ lasts scopes pending s r1 r))) as Hgo.
  { intros s' Hl ->. setoid_rewrite Hl. setoid_rewrite elem_of_cons. naive_solver. }
  unfold keep_held. destruct (borrower_name r0) as [n|] eqn:En; [|apply Hgo; [done|]].
  2:{ split; [auto|]. intros [?|[_ (n & En' & _)]]; [done|congruence]. }
  destruct (is_running_task s n) eqn:Et.
  { apply Hgo; [intros; apply lasts_record|]. by rewrite active_record, (lasts_held _ _ _ _ _ n), Et. }
  destruct (holder_depth scopes pending n) as [d|] eqn:Ed.
  { apply Hgo; [intros; apply lasts_record|]. rewrite active_record, (lasts_held _ _ _ _ _ n), Et, Ed, En by done.
    apply or_iff_compat_l, and_iff_compat_l. split; [by eauto|]. by intros (d' & [= <-] & ->). }
  apply Hgo; [done|]. rewrite (lasts_held _ _ _ _ _ n), Et, Ed by done. split; [auto|]. by intros [?|(_ & d & ? & _)].
Qed.

(** The end of an expression statement puts the borrows before it back and
    keeps, of the borrows it made, exactly those that outlive it: those held by
    a running task, unchanged, and those held by a variable still in scope, for
    no longer than the variable's block.  A borrow that only a temporary held is
    gone, and one from before the statement stays. *)
Theorem statement_end_exact `{HashOrder} scopes pending s s0 :
  before_statements s = before_statements s0 ++ [snapshot s0] ->
  exists s', restore_borrows_keeping_held scopes pending (borrows_before_statement s0).1 s = Returns s' /\
    before_statements s' = before_statements s0 /\
    forall base r, active s' base r <->
      active s0 base r \/ exists r0, active s base r0 /\ ~ active s0 base r0 /\ lasts scopes pending s r0 r.
Proof.
  intros Hb. unfold restore_borrows_keeping_held. cbn [borrows_before_statement fst set_before before_statements].
  rewrite Hb, !length_app, Nat.eqb_refl. cbn [negb]. rewrite last_snoc, removelast_last. eexists. split; [done|].
  split.
  - assert (forall es s, before_statements (fold_left (keep_held scopes pending) es s) = before_statements s) as ->; [|done].
    assert (forall b r s, before_statements (record b r s) = before_statements s) as Hrec.
    { intros b r s'. unfold record. by destruct (borrower_name r). }
    induction es as [|[b r] es IH]; intros s'; [done|]. cbn [fold_left]. rewrite IH. unfold keep_held.
    repeat case_match; by rewrite ?Hrec.
  - intros base r. rewrite active_keep_held. apply or_iff_compat_l.
    setoid_rewrite elem_of_added_since. split; intros (r0 & H1 & H2); exists r0; [destruct H1|]; tauto.
Qed.

(** [f(&x)] where [out], declared in the enclosing scope, keeps the borrow and a
    temporary holds another one. *)
Definition statement_demo : BorrowCx * BorrowCx :=
  let held n d := mkBorrowRecord false d (Some n) [] None in
  let s0 := record "y" (held "out" 1) BorrowCx_default in
  (s0, record "x" (held "tmp" 3) (record "x" (held "out" 3) (borrows_before_statement s0).2)).

Lemma statement_end_exact_witness :
  let '(s0, s) := statement_demo in
  exists s', @restore_borrows_keeping_held map_order [{["out"; "x"; "y"]}] [] 1 s = Returns s' /\
    active s' "x" (mkBorrowRecord false 1 (Some "out") [] None) /\
    active s' "y" (mkBorrowRecord false 1 (Some "out") [] None).
Proof.
  destruct statement_demo as [s0 s] eqn:E. unfold statement_demo in E. injection E as <- <-.
  destruct (@statement_end_exact map_order [{["out"; "x"; "y"]}] [] (statement_demo.2) (statement_demo.1))
    as (s' & H1 & _ & H2); [reflexivity|].
  exists s'. split; [exact H1|]. split; apply H2.
  - right. exists (mkBorrowRecord false 3 (Some "out") [] None). split_and!.
    + unfold active. apply list_elem_of_In. by left.
    + unfold active. intros Hin. apply list_elem_of_In in Hin. by vm_compute in Hin.
    + exists "out". split; [done|]. exists 1. by vm_compute.
  - left. unfold active. apply list_elem_of_In. by left.
Defined.

(** ** The end of a scope *)

Lemma holder_depth_le scopes pending n d k :
  holder_depth scopes pending n = Some d -> length scopes <= k -> Forall (fun e => e.2 <= k) pending -> d <= k.
Proof.
  unfold holder_depth. intros Hd Hs Hp.
  assert (forall i e, list_find (fun e : string * nat => e.1 = n) (rev pending) = Some (i, e) -> e.2 <= k) as Hpend.
  { intros i e Hf. apply list_find_Some in Hf as (Hi & _ & _). apply list_elem_of_lookup_2 in Hi.
    rewrite list_elem_of_In, <- in_rev, <- list_elem_of_In in Hi. by eapply Forall_forall in Hp. }
  destruct (list_find (fun sc : gset string => n ∈ sc) (rev scopes)) as [[i sc]|],
    (list_find (fun e : string * nat => e.1 = n) (rev pending)) as [[j e]|]; cbn in Hd; simplify_eq; try lia.
  - specialize (Hpend j e eq_refl). lia.
  - by apply (Hpend j).
Qed.

(** After a scope ends no borrow is left at its depth or below: what stays is
    held by a variable of an enclosing scope, and lasts as long as it. *)
Lemma scope_end_depths scopes pending s base r :
  0 < length scopes -> Forall (fun e : string * nat => e.2 < length scopes) pending ->
  active (pop_scope_borrows scopes pending s) base r -> scope_depth r < length scopes.
Proof.
  intros Hne Hp. unfold pop_scope_borrows, active, retain_scope. cbn [set_active active_borrows].
  rewrite (records_of_fmap (fun l : list BorrowRecord => omap _ l)) by done.
  intros (r0 & _ & Hr)%list_elem_of_omap. unfold retain_at in Hr.
  destruct (Nat.ltb_spec (scope_depth r0) (length scopes)); [by simplify_eq|].
  destruct (borrower_name r0) as [n|]; [|done].
  destruct (holder_depth (removelast scopes) pending n) as [d|] eqn:Ed; [|done]. simplify_eq. cbn [scope_depth].
  apply (holder_depth_le _ _ _ _ (length scopes - 1)) in Ed; [lia| |].
  - rewrite removelast_firstn_len, length_take. lia.
  - eapply Forall_impl; [exact Hp|]. cbn. lia.
Qed.

(** Hiding a variable and ending the scope of the new one gives its borrows back. *)
Lemma shadow_unshadow name depth s :
  Forall (fun e : nat * string * list BorrowRecord => e.1.1 < depth) (shadowed s) ->
  unshadow depth (shadow name depth s) = s.
Proof.
  intros Hs.
  assert (forall t, unshadow_loop depth (rev (shadowed s)) t = (rev (shadowed s), t)) as Hloop.
  { intros t. assert (Forall (fun e : nat * string * list BorrowRecord => e.1.1 < depth) (rev (shadowed s))) as Hr
      by (by apply Forall_rev). destruct Hr as [|[[d n] rs] l Hd _]; [done|]. cbn in *.
    by rewrite (proj2 (Nat.leb_gt _ _)). }
  unfold shadow. destruct (active_borrows s !! name) as [rs|] eqn:E.
  - unfold unshadow. cbn [set_shadowed set_active shadowed active_borrows]. rewrite rev_app_distr. cbn [rev app unshadow_loop].
    rewrite Nat.leb_refl, Hloop, rev_involutive. unfold records_of. rewrite lookup_delete_eq. cbn [default app].
    rewrite insert_delete_id by done. by destruct s.
  - unfold unshadow. rewrite Hloop, rev_involutive. by destruct s.
Qed.

(** Dropping what was added since a snapshot leaves only what the snapshot had. *)
Lemma active_forget es : forall s base r, active (forget es s) base r <-> active s base r /\ (base, r) ∉ es.
Proof.
  unfold forget. induction es as [|[b r0] es IH]; intros s base r; cbn [fold_left].
  { rewrite elem_of_nil. tauto. }
  rewrite IH, not_elem_of_cons. clear IH.
  assert (active (forget_one s (b, r0)) base r <-> active s base r /\ (base, r) <> (b, r0)) as ->; [|tauto].
  unfold forget_one. cbn [fst snd]. destruct (active_borrows s !! b) as [l|] eqn:E.
  - assert (active (match filter (fun r => r <> r0) l with
                    | [] => set_active (delete b (active_borrows s)) s
                    | l' => set_active (<[b := l']> (active_borrows s)) s end) base r <->
            r ∈ if decide (base = b) then filter (fun r => r <> r0) l else records_of (active_borrows s) base) as ->.
    { unfold active. destruct (filter (fun r => r <> r0) l) as [|x l']; cbn [set_active active_borrows];
        rewrite ?records_of_delete, ?records_of_insert; done. }
    unfold active. case_decide as Hb; [subst|].
    + rewrite list_elem_of_filter. unfold records_of. rewrite E. cbn. split; [|naive_solver].
      intros [Hne Hin]. split; [done|]. intros [= ->]. done.
    + split; [|tauto]. intros Hin. split; [done|]. intros [= -> _]. done.
  - split; [|tauto]. intros Hin. split; [done|]. intros [= -> ->]. unfold active, records_of in Hin. rewrite E in Hin.
    by apply elem_of_nil in Hin.
Qed.

Lemma forget_added_since `{HashOrder} s before base r :
  active (forget (added_since s before) s) base r <-> active s base r /\ r ∈ records_of before base.
Proof.
  rewrite active_forget, elem_of_added_since. destruct (decide (r ∈ records_of before base)); tauto.
Qed.
