(* ===== verification/Wait.v ===== *)
(** * Waiting and waking ([stdlib/rust_core/src/ffi/wait.rs], [sched.rs])

    A thread or a task waits until an atomic word changes and another one wakes
    it.  Words share a table of buckets, each a lock, a condition variable, the
    parked fibers with their words, and the sleeping threads.  This file has the
    state, one definition per operation, and the steps of the system.

    The threads of control are the fibers of the shared runtime, the OS threads
    that are not workers, and the timer.  A section that runs under one lock is
    one step: what it reads outside the lock is a single atomic word, and the
    fibers it names are in no other list.  What happens between two such sections
    (the change of a word and the wake, the wake and [notify_all], [notify_all]
    and the [sched::wake] of each fiber, the mark [PARKING] and the switch to the
    worker) is a step of its own, so every interleaving of them is a run.

    The runtime has worker threads (no seed) and one scheduler; addresses are
    numbers.  [agents] lists the fibers and threads that ever exist. *)

From stdpp Require Import base list functions gmap.
From Stdlib Require Import ZArith Lia.
From S2P Require Import Prelude.
Open Scope Z_scope.
Open Scope vx_scope.

(** ** Data *)

Inductive Agent : Type :=
| AFiber (f : nat)
| AThread (t : nat)
| ATimer.
#[export] Instance Agent_eq_dec : EqDecision Agent.
Proof. solve_decision. Defined.

(** The fibers of a bucket that a wake puts back on the queue. *)
Inductive Fibers : Type :=
| FOf (word : Z)
| FAll
| FNone.
#[export] Instance Fibers_eq_dec : EqDecision Fibers.
Proof. solve_decision. Defined.

Inductive What : Type :=
| WWord | WSend | WRecv | WLock | WSelect
| WJoin (site : option Z).

Record CodePlace : Type := mkCodePlace { place_file : Z; place_line : Z }.

(** [Place::new]: a null file is no line. *)
Definition Place_new (file line : Z) : option CodePlace :=
  if file =? 0 then None else Some (mkCodePlace file line).

Record Waiting : Type := mkWaiting { what : What; waits_at : option CodePlace; made_at : option CodePlace }.

Definition NOT_SAID : Waiting := mkWaiting WWord None None.

(** The owner of a note: a parked fiber, or the thread that [a] runs on. *)
Inductive NoteOwner : Type :=
| OFiber (f : nat)
| OThread (a : Agent).
#[export] Instance NoteOwner_eq_dec : EqDecision NoteOwner.
Proof. solve_decision. Defined.

Record Note : Type := mkNote {
  note_owner : NoteOwner;
  note_word : Z;
  note_what : What;
  note_at : option CodePlace;
  note_made : option CodePlace;
  note_site : Agent;
}.

(** A bucket.  The blocked fibers are those of one scheduler, so their list is its length. *)
Record Waiters : Type := mkWaiters {
  w_fibers : list (nat * Z);
  w_sleepers : list Agent;
  w_blocked : nat;
  w_wakes : Z;
  w_notes : list Note;
}.

Inductive FState : Type := RUNNING | PARKING | PARKED | WOKEN.
#[export] Instance FState_eq_dec : EqDecision FState.
Proof. solve_decision. Defined.

(** Where a thread of control is: not started or ended, in the program, on the
    ready queue, parking (before and after it asked the timer), parked, asleep on
    a condition variable ([seen] with no time limit; [notified] once the system
    lets it return), or in a wake with the wakes still to make, and the fibers
    that it took and still has to put back. *)
Inductive Control : Type :=
| Gone
| Run
| Ready
| Arming (word value : Z) (or_cancel : bool) (deadline : Z)
| Parking (word value : Z) (or_cancel : bool)
| Parked (word value : Z) (or_cancel : bool)
| Asleep (word value : Z) (or_cancel : bool) (seen : option Z) (notified : bool)
| Calling (todo : list (nat * Fibers))
| Notify (b : nat) (taken : list nat) (todo : list (nat * Fibers))
| Waking (taken : list nat) (todo : list (nat * Fibers))
| Pushing (f : nat) (taken : list nat) (todo : list (nat * Fibers)).

(** [running], [blocked] of the scheduler, [WAITING], [THREADS] and [PROGRESS]
    of the deadlock watcher; [leaving] counts the workers between the end of a
    fiber's turn and the decrement of [running]. *)
Record Counters : Type := mkCounters {
  running : Z;
  leaving : nat;
  blocked : Z;
  waiting : Z;
  threads : Z;
  progress : Z;
}.

Record State : Type := mkState {
  mem : Z -> Z;  (** the atomic words *)
  table : nat -> Waiters;  (** the buckets *)
  ctl : Agent -> Control;  (** where each thread of control is *)
  fstate : nat -> FState;  (** the [state] word of each fiber *)
  said : Agent -> Waiting;  (** [WHAT] *)
  cancelled : Agent -> bool;  (** the cancel mark, as [vx_cancelled] reads it *)
  callbacks : Agent -> nat;  (** [CALLBACKS] *)
  ready : list nat;  (** the ready queue, front first *)
  counters : Counters;  (** the atomic counters *)
  heap : list (Z * Z);  (** the deadlines of the timer, with their words *)
}.

Definition set_mem (x : Z -> Z) (s : State) : State :=
  mkState x (table s) (ctl s) (fstate s) (said s) (cancelled s) (callbacks s) (ready s) (counters s) (heap s).

Definition set_table (x : nat -> Waiters) (s : State) : State :=
  mkState (mem s) x (ctl s) (fstate s) (said s) (cancelled s) (callbacks s) (ready s) (counters s) (heap s).

Definition set_ctl (x : Agent -> Control) (s : State) : State :=
  mkState (mem s) (table s) x (fstate s) (said s) (cancelled s) (callbacks s) (ready s) (counters s) (heap s).

Definition set_fstate (x : nat -> FState) (s : State) : State :=
  mkState (mem s) (table s) (ctl s) x (said s) (cancelled s) (callbacks s) (ready s) (counters s) (heap s).

Definition set_said (x : Agent -> Waiting) (s : State) : State :=
  mkState (mem s) (table s) (ctl s) (fstate s) x (cancelled s) (callbacks s) (ready s) (counters s) (heap s).

Definition set_cancelled (x : Agent -> bool) (s : State) : State :=
  mkState (mem s) (table s) (ctl s) (fstate s) (said s) x (callbacks s) (ready s) (counters s) (heap s).

Definition set_callbacks (x : Agent -> nat) (s : State) : State :=
  mkState (mem s) (table s) (ctl s) (fstate s) (said s) (cancelled s) x (ready s) (counters s) (heap s).

Definition set_ready (x : list nat) (s : State) : State :=
  mkState (mem s) (table s) (ctl s) (fstate s) (said s) (cancelled s) (callbacks s) x (counters s) (heap s).

Definition set_counters (x : Counters) (s : State) : State :=
  mkState (mem s) (table s) (ctl s) (fstate s) (said s) (cancelled s) (callbacks s) (ready s) x (heap s).

Definition set_heap (x : list (Z * Z)) (s : State) : State :=
  mkState (mem s) (table s) (ctl s) (fstate s) (said s) (cancelled s) (callbacks s) (ready s) (counters s) x.

Definition with_ctl (a : Agent) (c : Control) (s : State) : State := set_ctl (<[a := c]> (ctl s)) s.
Definition with_bucket (b : nat) (w : Waiters) (s : State) : State := set_table (<[b := w]> (table s)) s.
Definition with_fstate (f : nat) (st : FState) (s : State) : State := set_fstate (<[f := st]> (fstate s)) s.

Definition add_running (n : Z) (s : State) : State :=
  let c := counters s in
  set_counters (mkCounters (running c + n) (leaving c) (blocked c) (waiting c) (threads c) (progress c)) s.
Definition add_leaving (s : State) : State :=
  let c := counters s in
  set_counters (mkCounters (running c) (S (leaving c)) (blocked c) (waiting c) (threads c) (progress c)) s.
Definition add_blocked (n : Z) (s : State) : State :=
  let c := counters s in
  set_counters (mkCounters (running c) (leaving c) (blocked c + n) (waiting c) (threads c) (progress c)) s.
Definition add_waiting (n : Z) (s : State) : State :=
  let c := counters s in
  set_counters (mkCounters (running c) (leaving c) (blocked c) (waiting c + n) (threads c) (progress c)) s.
Definition add_threads (n : Z) (s : State) : State :=
  let c := counters s in
  set_counters (mkCounters (running c) (leaving c) (blocked c) (waiting c) (threads c + n) (progress c)) s.

(** ** Buckets *)

Definition BUCKETS : nat := 64.

Definition bucket (word : Z) : nat := Z.to_nat (Z.shiftr word 3 mod Z.of_nat BUCKETS).

Definition names (which : Fibers) (word : Z) : bool :=
  match which with FOf w => word =? w | FAll => true | FNone => false end.

Definition take_fibers (which : Fibers) (fibers : list (nat * Z)) : list nat * list (nat * Z) :=
  ((filter (fun e : nat * Z => names which e.2 = true) fibers).*1,
   filter (fun e : nat * Z => names which e.2 <> true) fibers).

Definition keep_the_notes_of_parked_fibers (fibers : list (nat * Z)) (notes : list Note) : list Note :=
  filter (fun n => note_owner n ∈ (fun e : nat * Z => OFiber e.1) <$> fibers) notes.

(** ** The deadlock counters *)

Definition progress_made (s : State) : State :=
  let c := counters s in
  set_counters (mkCounters (running c) (leaving c) (blocked c) (waiting c) (threads c) (progress c + 1)) s.

Definition sleep_started (s : State) : State := add_waiting 1 s.

Definition sleep_ended (n : Z) (s : State) : State :=
  if 0 <? n then progress_made (add_waiting (- n) s) else s.

Definition sched_blocked (s : State) : State := add_blocked 1 s.
Definition sched_unblocked (n : nat) (s : State) : State := add_blocked (- Z.of_nat n) s.

(** ** Waking *)

(** [wake_under_the_lock], on the bucket [b] of the table. *)
Definition wake_under_the_lock (b : nat) (which : Fibers) (s : State) : list nat * State :=
  let w := table s b in
  let '(taken, kept) := take_fibers which (w_fibers w) in
  let notes := keep_the_notes_of_parked_fibers kept (w_notes w) in
  let s := sleep_ended (Z.of_nat (length (w_sleepers w))) s in
  let s := sched_unblocked (w_blocked w) s in
  (taken, with_bucket b (mkWaiters kept [] 0 (wrap_u 64 (w_wakes w + 1)) notes) s).

(** [notify_all] lets every sleeper of the bucket return. *)
Definition notified_all (b : nat) (c : Control) : Control :=
  match c with
  | Asleep word value or_cancel seen _ =>
      if Nat.eqb (bucket word) b then Asleep word value or_cancel seen true else c
  | c => c
  end.

Definition notify_all (b : nat) (s : State) : State := set_ctl (fun a => notified_all b (ctl s a)) s.

(** [vx_wake_all] and [wake_every_thread]: the wakes to make. *)
Definition vx_wake_all (word : Z) : list (nat * Fibers) := [(bucket word, FOf word)].
Definition wake_every_thread : list (nat * Fibers) := (fun b => (b, FAll)) <$> seq 0 BUCKETS.

(** [Scheduler::push]. *)
Definition push_ready (f : nat) (s : State) : State := with_ctl (AFiber f) Ready (set_ready (ready s ++ [f]) s).

(** [sched::wake]: the state the fiber had decides who puts it on the queue. *)
Definition sched_wake (a : Agent) (f : nat) (taken : list nat) (todo : list (nat * Fibers)) (s : State)
    : outcome State :=
  let before := fstate s f in
  let s := with_fstate f WOKEN s in
  match before with
  | PARKED => Returns (with_ctl a (Pushing f taken todo) s)
  | PARKING => Returns (with_ctl a (Waking taken todo) s)
  | _ => Panics
  end.

(** ** Waiting *)

(** [vx_waiting_for]. *)
Definition vx_waiting_for (a : Agent) (w at_file at_line made_file made_line : Z) (s : State) : State :=
  let what := match w with 1 => WSend | 2 => WRecv | 3 => WLock | 4 => WSelect | _ => WWord end in
  set_said (<[a := mkWaiting what (Place_new at_file at_line) (Place_new made_file made_line)]> (said s)) s.

Definition waiting_for_join (a : Agent) (site : option Z) (s : State) : State :=
  set_said (<[a := mkWaiting (WJoin site) (waits_at NOT_SAID) (made_at NOT_SAID)]> (said s)) s.

(** The earlier of the own deadline and that of the scopes around a wait that can be cancelled. *)
Definition wait_deadline (own drop_deadline : option Z) (or_cancel : bool) : option Z :=
  match (if or_cancel then drop_deadline else None) with
  | Some d => Some (match own with Some own => Z.min own d | None => d end)
  | None => own
  end.

(** The fiber that can park, or the thread has to sleep. *)
Definition fiber_that_can_park (a : Agent) (s : State) : option nat :=
  match a with
  | AFiber f => if Nat.eqb (callbacks s a) 0 then Some f else None
  | _ => None
  end.

(** A sleep with no time limit: the entry in the bucket, the counts and the note. *)
Definition start_sleep (a : Agent) (note : NoteOwner -> Note) (b : nat) (s : State) : State :=
  let w := table s b in
  let notes := w_notes w ++ [note (OThread a)] in
  match a with
  | AFiber _ =>
      sched_blocked (with_bucket b (mkWaiters (w_fibers w) (w_sleepers w) (S (w_blocked w)) (w_wakes w) notes) s)
  | _ =>
      sleep_started (with_bucket b (mkWaiters (w_fibers w) (w_sleepers w ++ [a]) (w_blocked w) (w_wakes w) notes) s)
  end.

(** [wait], up to where it sleeps or parks.  [now] is the clock. *)
Definition wait (a : Agent) (word value : Z) (or_cancel : bool) (deadline : option Z) (now : Z) (s : State) : State :=
  let b := bucket word in
  let say := said s a in
  let s := set_said (<[a := NOT_SAID]> (said s)) s in
  let note owner := mkNote owner word (what say) (waits_at say) (made_at say) a in
  if negb (mem s word =? value) || (or_cancel && cancelled s a) then s
  else if match deadline with Some d => d <=? now | None => false end then s
  else
    match fiber_that_can_park a s with
    | None =>
        match deadline with
        | Some _ => with_ctl a (Asleep word value or_cancel None false) s
        | None =>
            let seen := w_wakes (table s b) in
            with_ctl a (Asleep word value or_cancel (Some seen) false) (start_sleep a note b s)
        end
    | Some f =>
        let w := table s b in
        let w := mkWaiters (w_fibers w ++ [(f, word)]) (w_sleepers w) (w_blocked w) (w_wakes w)
                   (w_notes w ++ [note (OFiber f)]) in
        let s := with_bucket b w (with_fstate f PARKING s) in
        with_ctl a (match deadline with
                    | Some d => Arming word value or_cancel d
                    | None => Parking word value or_cancel
                    end) s
    end.

(** After the condition variable returned, with the lock held: a thread that no
    wake took off the lists takes itself off. *)
Definition end_sleep (a : Agent) (b : nat) (seen : Z) (s : State) : outcome State :=
  let w := table s b in
  if w_wakes w =? seen then
    match list_find (fun n => note_owner n = OThread a) (w_notes w) with
    | None => Panics
    | Some (i, _) =>
        let notes := swap_remove i (w_notes w) in
        match a with
        | AFiber _ =>
            match w_blocked w with
            | O => Panics
            | S n =>
                Returns (progress_made (sched_unblocked 1
                  (with_bucket b (mkWaiters (w_fibers w) (w_sleepers w) n (w_wakes w) notes) s)))
            end
        | _ =>
            match list_find (fun t => t = a) (w_sleepers w) with
            | None => Panics
            | Some (j, _) =>
                Returns (sleep_ended 1
                  (with_bucket b (mkWaiters (w_fibers w) (swap_remove j (w_sleepers w)) (w_blocked w) (w_wakes w)
                                    notes) s))
            end
        end
    end
  else Returns s.

(** The worker of a fiber that switched away to park: [PARKING] becomes
    [PARKED], and a fiber that a wake found parking goes back on the queue. *)
Definition run_parked (f : nat) (word value : Z) (or_cancel : bool) (s : State) : State :=
  add_leaving
    (match fstate s f with
     | PARKING => with_ctl (AFiber f) (Parked word value or_cancel) (with_fstate f PARKED s)
     | _ => push_ready f s
     end).

(** [timer::wake_at]. *)
Definition wake_at (deadline word : Z) (s : State) : State := set_heap (heap s ++ [(deadline, word)]) s.

(** ** Tasks, threads and the timer *)

(** [vx_callback_enter] and [vx_callback_exit]; a task under a callback does not leave its thread. *)
Definition vx_callback_enter (a : Agent) (s : State) : State :=
  set_callbacks (<[a := S (callbacks s a)]> (callbacks s)) s.

Definition vx_callback_exit (a : Agent) (s : State) : outcome State :=
  match callbacks s a with
  | O => Panics
  | S n => Returns (set_callbacks (<[a := n]> (callbacks s)) s)
  end.

(** [Scheduler::spawn_at]: the new fiber is on the queue. *)
Definition spawn_at (f : nat) (s : State) : State := push_ready f (with_fstate f RUNNING s).

(** [Scheduler::pop] and the start of [Scheduler::run]: a worker takes the first fiber of the queue. *)
Definition pop (s : State) : option State :=
  match ready s with
  | [] => None
  | f :: rest => Some (with_ctl (AFiber f) Run (with_fstate f RUNNING (add_running 1 (set_ready rest s))))
  end.

(** The end of a fiber; the store of [done] and its wake came before, from the same worker. *)
Definition run_ended (f : nat) (s : State) : State := with_ctl (AFiber f) Gone (add_leaving s).

(** The last line of [Scheduler::run]. *)
Definition leave_run (s : State) : option State :=
  let c := counters s in
  match leaving c with
  | O => None
  | S n => Some (set_counters (mkCounters (running c - 1) n (blocked c) (waiting c) (threads c) (progress c)) s)
  end.

Definition thread_started (t : nat) (s : State) : State := with_ctl (AThread t) Run (add_threads 1 s).
Definition thread_ended (t : nat) (s : State) : State := with_ctl (AThread t) Gone (progress_made (add_threads (-1) s)).

(** The timer takes a deadline off its heap, and wakes its word. *)
Definition timer_fires (word : Z) (rest : list (Z * Z)) (s : State) : State :=
  with_ctl ATimer (Calling (vx_wake_all word)) (set_heap rest s).

(** ** The steps *)

(** What a thread of control does next when the program does not decide it. *)
Definition go_on (a : Agent) (s : State) : outcome State :=
  match ctl s a with
  | Calling [] => Returns (with_ctl a Run s)
  | Calling ((b, which) :: todo) =>
      let '(taken, s) := wake_under_the_lock b which (progress_made s) in
      Returns (with_ctl a (Notify b taken todo) s)
  | Notify b taken todo => Returns (with_ctl a (Waking taken todo) (notify_all b s))
  | Waking [] todo => Returns (with_ctl a (Calling todo) s)
  | Waking (f :: taken) todo => sched_wake a f taken todo s
  | Pushing f taken todo => Returns (with_ctl a (Waking taken todo) (push_ready f s))
  | Arming word value or_cancel deadline =>
      Returns (with_ctl a (Parking word value or_cancel) (wake_at deadline word s))
  | Parking word value or_cancel =>
      match a with AFiber f => Returns (run_parked f word value or_cancel s) | _ => Panics end
  | Asleep word _ _ (Some seen) true => s ←! end_sleep a (bucket word) seen s; Returns (with_ctl a Run s)
  | Asleep _ _ _ None true => Returns (with_ctl a Run s)
  | _ => Returns s
  end.

(** [a] has something to do that only it can do. *)
Definition busy (c : Control) : bool :=
  match c with
  | Calling _ | Notify _ _ _ | Waking _ _ | Pushing _ _ _ | Arming _ _ _ _ | Parking _ _ _ => true
  | Asleep _ _ _ _ notified => notified
  | Gone | Run | Ready | Parked _ _ _ => false
  end.

Section system.
Context (agents : list Agent).

(** The steps of the system.  The label is the thread of control that finishes
    what the runtime makes it do; the other steps are choices of the program,
    of the workers, of the timer and of the operating system. *)
Inductive step : option Agent -> State -> State -> Prop :=
| step_advance a s s' : busy (ctl s a) = true -> go_on a s = Returns s' -> step (Some a) s s'
(** The program changes a word and then calls [vx_wake_all]. *)
| step_change a word value s : a ∈ agents -> ctl s a = Run ->
    step None s (with_ctl a (Calling (vx_wake_all word)) (set_mem (<[word := value]> (mem s)) s))
(** A cancel sets the marks of some tasks and then wakes every thread. *)
| step_cancel a (group : list Agent) s : a ∈ agents -> ctl s a = Run ->
    step None s (with_ctl a (Calling wake_every_thread)
                   (set_cancelled (fun x => cancelled s x || bool_decide (x ∈ group)) s))
| step_say a w f1 l1 f2 l2 s : a ∈ agents -> ctl s a = Run -> step None s (vx_waiting_for a w f1 l1 f2 l2 s)
| step_say_join a site s : a ∈ agents -> ctl s a = Run -> step None s (waiting_for_join a site s)
| step_wait a word value or_cancel own drop_deadline now s : a ∈ agents -> ctl s a = Run ->
    step None s (wait a word value or_cancel (wait_deadline own drop_deadline or_cancel) now s)
| step_callback_enter a s : a ∈ agents -> ctl s a = Run -> step None s (vx_callback_enter a s)
| step_callback_exit a s s' : a ∈ agents -> ctl s a = Run -> vx_callback_exit a s = Returns s' -> step None s s'
(** A task starts, runs, and ends. *)
| step_spawn f s : AFiber f ∈ agents -> ctl s (AFiber f) = Gone -> step None s (spawn_at f s)
| step_pop s s' : pop s = Some s' -> step None s s'
| step_end f s : AFiber f ∈ agents -> ctl s (AFiber f) = Run -> step None s (run_ended f s)
| step_leave s s' : leave_run s = Some s' -> step None s s'
| step_thread_started t s : AThread t ∈ agents -> ctl s (AThread t) = Gone -> step None s (thread_started t s)
| step_thread_ended t s : AThread t ∈ agents -> ctl s (AThread t) = Run -> step None s (thread_ended t s)
(** A condition variable may return with no wake, and returns at the time limit. *)
| step_spurious a word value or_cancel seen s : ctl s a = Asleep word value or_cancel seen false ->
    step None s (with_ctl a (Asleep word value or_cancel seen true) s)
(** A deadline of the timer has come. *)
| step_fire deadline word before after s : ctl s ATimer = Run -> heap s = before ++ (deadline, word) :: after ->
    step None s (timer_fires word (before ++ after) s).

Definition empty_bucket : Waiters := mkWaiters [] [] 0 0 [].

(** The program starts with the main thread. *)
Definition init : State :=
  mkState (fun _ => 0) (fun _ => empty_bucket)
    (fun a => match a with AThread O => Run | ATimer => Run | _ => Gone end)
    (fun _ => RUNNING) (fun _ => NOT_SAID) (fun _ => false) (fun _ => 0%nat) []
    (mkCounters 0 0 0 0 1 0) [].

(** The states after [n] steps. *)
Inductive reach : Z -> State -> Prop :=
| reach_init : reach 0 init
| reach_step n l s s' : reach n s -> step l s s' -> reach (n + 1) s'.
End system.

(** ** The deadlock watcher *)

Definition all_parked (s : State) : bool :=
  bool_decide (ready s = []) && (running (counters s) =? blocked (counters s)).

(** [timer::pending]: the timer fires while it is in a wake. *)
Definition timer_pending (s : State) : bool :=
  negb (bool_decide (heap s = [])) || match ctl s ATimer with Run => false | _ => true end.

(** [io_pending]: a fiber waits for a socket ([io.rs]).  The watcher reads the counters one after
    the other; [stuck] is what it sees when nothing changes meanwhile. *)
Definition stuck (io_pending : bool) (s : State) : bool :=
  all_parked s && (waiting (counters s) =? threads (counters s)) && negb (timer_pending s) && negb io_pending.

(** One tick of the watcher: whether it reports, and what it remembers. *)
Definition watch_tick (io_pending : bool) (seen : option Z) (s : State) : bool * option Z :=
  let now := if stuck io_pending s then Some (progress (counters s)) else None in
  (bool_decide (is_Some now) && bool_decide (now = seen), now).

(** ** Skipped send numbers *)

(** The assertion fails on a number skipped twice. *)
Definition vx_channel_skip (words k : Z) (skips : list (Z * Z)) : outcome (list (Z * Z)) :=
  if bool_decide ((words, k) ∈ skips) then Panics else Returns (skips ++ [(words, k)]).

Definition vx_channel_take_skip (words k : Z) (skips : list (Z * Z)) : Z * list (Z * Z) :=
  match list_find (fun e => e = (words, k)) skips with
  | Some (i, _) => (1, swap_remove i skips)
  | None => (0, skips)
  end.

Definition vx_channel_forget_skips (words : Z) (skips : list (Z * Z)) : list (Z * Z) :=
  filter (fun e : Z * Z => e.1 <> words) skips.

(** ** The random order of a seed *)

(** [next_random]: the number, and the new state. *)
Definition next_random (random : Z) : Z * Z :=
  let random' := wrap_u 64 (random + 0x9e3779b97f4a7c15) in
  let z := random' in
  let z := wrap_u 64 (Z.lxor z (Z.shiftr z 30) * 0xbf58476d1ce4e5b9) in
  let z := wrap_u 64 (Z.lxor z (Z.shiftr z 27) * 0x94d049bb133111eb) in
  (Z.lxor z (Z.shiftr z 31), random').
