(* ===== verification/WaitSound.v ===== *)
(** * No wake is lost

    What every run of the system of [Wait] keeps true.  Each fiber is in at most
    one place: on the list of a bucket, in the hands of a waker, about to be put
    on the ready queue by one, on the queue, or nowhere; its [state] word agrees
    with the place.  A fiber on a list, and a thread asleep, waits for a word
    that still has its value, or a wake for it is on its way. *)

From stdpp Require Import base list functions gmap relations.
From Stdlib Require Import ZArith Lia.
From S2P Require Import Prelude Wait.
Open Scope Z_scope.

(** ** What a thread of control holds *)

(** The fibers that a wake took and still has to wake. *)
Definition hand (c : Control) : list nat :=
  match c with Notify _ taken _ | Waking taken _ | Pushing _ taken _ => taken | _ => [] end.

(** The fiber that it puts on the queue next. *)
Definition pushing (c : Control) : option nat := match c with Pushing f _ _ => Some f | _ => None end.

(** The wakes that it still has to make. *)
Definition wakes_to_make (c : Control) : list (nat * Fibers) :=
  match c with Calling todo | Notify _ _ todo | Waking _ todo | Pushing _ _ todo => todo | _ => [] end.

(** The bucket whose sleepers it lets go next. *)
Definition notifying (c : Control) : option nat := match c with Notify b _ _ => Some b | _ => None end.

(** A fiber on its way to park, or parked: the word, the value, and whether a cancel ends the wait. *)
Definition parks (c : Control) : option (Z * Z * bool) :=
  match c with Arming w v oc _ | Parking w v oc | Parked w v oc => Some (w, v, oc) | _ => None end.

(** The [state] word of a fiber that no wake has reached. *)
Definition unwoken (c : Control) : FState := match c with Parked _ _ _ => PARKED | _ => PARKING end.

(** ** Opening a step *)

Lemma vx_callback_exit_inv a s s' : vx_callback_exit a s = Returns s' ->
  exists n, callbacks s a = S n /\ s' = set_callbacks (<[a := n]> (callbacks s)) s.
Proof. unfold vx_callback_exit. destruct (callbacks s a); [done|]. intros [= <-]. eauto. Qed.

Lemma pop_inv s s' : pop s = Some s' -> exists f rest, ready s = f :: rest /\
  s' = with_ctl (AFiber f) Run (with_fstate f RUNNING (add_running 1 (set_ready rest s))).
Proof. unfold pop. destruct (ready s); [done|]. intros [= <-]. eauto. Qed.

Lemma leave_run_inv s s' : leave_run s = Some s' -> exists n, leaving (counters s) = S n /\
  s' = (let c := counters s in
        set_counters (mkCounters (running c - 1) n (blocked c) (waiting c) (threads c) (progress c)) s).
Proof. unfold leave_run. destruct (leaving (counters s)); [done|]. intros [= <-]. eauto. Qed.

(** Names the fiber that leaves the queue and the equation of the queue. *)
Ltac open_step f rest Hr :=
  unfold vx_callback_enter, spawn_at, run_ended, thread_started, thread_ended, timer_fires in *;
  try match goal with
  | H : vx_callback_exit _ _ = Returns _ |- _ => apply vx_callback_exit_inv in H as (? & _ & ->)
  | H : pop _ = Some _ |- _ => apply pop_inv in H as (f & rest & Hr & ->)
  | H : leave_run _ = Some _ |- _ => apply leave_run_inv in H as (? & ? & ->)
  end.

(** ** Places *)

Inductive Place : Type :=
| Nowhere
| InBucket (b : nat) (word : Z)
| InHand (a : Agent)
| InPush (a : Agent)
| InQueue.
#[export] Instance Place_eq_dec : EqDecision Place.
Proof. solve_decision. Defined.

(** The place of a fiber agrees with its control and its state. *)
Definition agrees (p : Place) (c : Control) (st : FState) : Prop :=
  match p with
  | InBucket b word => (exists v oc, parks c = Some (word, v, oc)) /\ b = bucket word /\ st = unwoken c
  | InHand _ => is_Some (parks c) /\ st = unwoken c
  | InPush _ => (exists w v oc, c = Parked w v oc) /\ st = WOKEN
  | InQueue => c = Ready
  | Nowhere => c <> Ready /\ (forall w v oc, parks c = Some (w, v, oc) -> st = WOKEN /\ c <> Parked w v oc)
  end.

Record located (s : State) (loc : nat -> Place) : Prop := {
  lc_bucket : forall b f w, (f, w) ∈ w_fibers (table s b) <-> loc f = InBucket b w;
  lc_nodup : forall b, NoDup (w_fibers (table s b)).*1;
  lc_hand : forall a f, f ∈ hand (ctl s a) <-> loc f = InHand a;
  lc_hand_nodup : forall a, NoDup (hand (ctl s a));
  lc_push : forall a f, pushing (ctl s a) = Some f <-> loc f = InPush a;
  lc_queue : forall f, f ∈ ready s <-> loc f = InQueue;
  lc_queue_nodup : NoDup (ready s);
  lc_agrees : forall f, agrees (loc f) (ctl s (AFiber f)) (fstate s f);
}.

(** ** Justified waits *)

(** The word holds the value, and no cancel came. *)
Definition still (s : State) (a : Agent) (w v : Z) (oc : bool) : Prop :=
  mem s w = v /\ (oc = true -> cancelled s a = false).

(** A wake that takes the fibers of [w] from bucket [b] is to come. *)
Definition fiber_wake_to_come (s : State) (b : nat) (w : Z) : Prop :=
  exists c which, (b, which) ∈ wakes_to_make (ctl s c) /\ names which w = true.

(** A wake of bucket [b] is to come. *)
Definition wake_to_come (s : State) (b : nat) : Prop :=
  exists c which, (b, which) ∈ wakes_to_make (ctl s c).

Record justified (s : State) (loc : nat -> Place) : Prop := {
  js_fiber : forall f b w v oc, loc f = InBucket b w -> parks (ctl s (AFiber f)) = Some (w, v, oc) ->
    still s (AFiber f) w v oc \/ fiber_wake_to_come s b w;
  js_sleeper : forall a w v oc seen, ctl s a = Asleep w v oc seen false ->
    still s a w v oc \/ wake_to_come s (bucket w) \/ exists c, notifying (ctl s c) = Some (bucket w);
}.

(** ** Changing one thread of control *)

Lemma with_ctl_same a c s : ctl (with_ctl a c s) a = c.
Proof. cbn. by rewrite fn_lookup_insert. Qed.
Lemma with_ctl_other a a' c s : a <> a' -> ctl (with_ctl a c s) a' = ctl s a'.
Proof. intros H. cbn. by rewrite fn_lookup_insert_ne. Qed.

(** Only the control of [a] changes, and it holds the same fibers as before. *)
Lemma located_ctl s loc a c :
  located s loc -> hand c = hand (ctl s a) -> pushing c = pushing (ctl s a) ->
  (forall f, a = AFiber f -> agrees (loc f) c (fstate s f)) ->
  located (with_ctl a c s) loc.
Proof.
  intros [H1 H2 H3 H4 H5 H6 H7 H8] Hh Hp Ha. split; try done; cbn [with_ctl set_ctl ctl].
  - intros a' f. destruct (decide (a = a')) as [<-|]; [rewrite fn_lookup_insert, Hh|rewrite fn_lookup_insert_ne by done]; apply H3.
  - intros a'. destruct (decide (a = a')) as [<-|]; [rewrite fn_lookup_insert, Hh|rewrite fn_lookup_insert_ne by done]; apply H4.
  - intros a' f. destruct (decide (a = a')) as [<-|]; [rewrite fn_lookup_insert, Hp|rewrite fn_lookup_insert_ne by done]; apply H5.
  - intros f. destruct (decide (a = AFiber f)) as [->|]; [rewrite fn_lookup_insert|rewrite fn_lookup_insert_ne by done]; auto.
Qed.

(** The parts of the state that [located] reads. *)
Lemma located_ext s s' loc :
  located s loc -> (forall b, w_fibers (table s' b) = w_fibers (table s b)) -> (forall a, ctl s' a = ctl s a) ->
  (forall f, fstate s' f = fstate s f) -> ready s' = ready s -> located s' loc.
Proof.
  intros [H1 H2 H3 H4 H5 H6 H7 H8] Ht Hc Hf Hr.
  split; intros; rewrite ?Ht, ?Hc, ?Hf, ?Hr; auto.
Qed.

(** A thread of control that runs is nowhere, if it is a fiber. *)
Lemma located_nowhere s loc f : located s loc ->
  parks (ctl s (AFiber f)) = None -> ctl s (AFiber f) <> Ready -> loc f = Nowhere.
Proof.
  intros Hl Hp Hr. pose proof (lc_agrees _ _ Hl f) as Ha. destruct (loc f) as [|b w| | |]; cbn in Ha; [done|..].
  - destruct Ha as [(v & oc & E) _]. congruence.
  - destruct Ha as [[x E] _]. congruence.
  - destruct Ha as [(w & v & oc & E) _]. rewrite E in Hp. done.
  - done.
Qed.

(** What runs the program neither parks nor is ready. *)
Lemma agrees_nowhere c st : parks c = None -> c <> Ready -> agrees Nowhere c st.
Proof. intros Hp Hr. split; [done|]. intros w v oc. congruence. Qed.

Lemma located_run s loc a c c0 :
  located s loc -> ctl s a = c0 -> hand c0 = hand c -> pushing c0 = pushing c ->
  parks c0 = None -> c0 <> Ready -> parks c = None -> c <> Ready -> located (with_ctl a c s) loc.
Proof.
  intros Hl <- Hh Hp Hp0 Hr0 Hp1 Hr1. apply located_ctl; [done..|]. intros f ->.
  rewrite (located_nowhere s loc f) by done. by apply agrees_nowhere.
Qed.

(** ** Moving one fiber *)

Lemma located_move s s' loc f p :
  located s loc ->
  (forall b f' w, (f', w) ∈ w_fibers (table s' b) <->
     if decide (f' = f) then p = InBucket b w else (f', w) ∈ w_fibers (table s b)) ->
  (forall b, NoDup (w_fibers (table s' b)).*1) ->
  (forall a f', f' ∈ hand (ctl s' a) <-> if decide (f' = f) then p = InHand a else f' ∈ hand (ctl s a)) ->
  (forall a, NoDup (hand (ctl s' a))) ->
  (forall a f', pushing (ctl s' a) = Some f' <->
     if decide (f' = f) then p = InPush a else pushing (ctl s a) = Some f') ->
  (forall f', f' ∈ ready s' <-> if decide (f' = f) then p = InQueue else f' ∈ ready s) ->
  NoDup (ready s') ->
  (forall f', f' <> f -> agrees (loc f') (ctl s' (AFiber f')) (fstate s' f')) ->
  agrees p (ctl s' (AFiber f)) (fstate s' f) ->
  located s' (<[f := p]> loc).
Proof.
  intros Hl Hb Hbn Hh Hhn Hp Hq Hqn Ha Hf.
  assert (forall f', <[f := p]> loc f' = if decide (f' = f) then p else loc f') as E.
  { intros f'. case_decide; [subst; by rewrite fn_lookup_insert|by rewrite fn_lookup_insert_ne]. }
  split; try done.
  - intros b f' w. rewrite Hb, E. case_decide; [done|apply Hl].
  - intros a f'. rewrite Hh, E. case_decide; [done|apply Hl].
  - intros a f'. rewrite Hp, E. case_decide; [done|apply Hl].
  - intros f'. rewrite Hq, E. case_decide; [done|apply Hl].
  - intros f'. rewrite E. case_decide; [by subst|by apply Ha].
Qed.

(** Lookups in an updated control, bucket or state word. *)
Ltac fn_lookup :=
  repeat match goal with
  | |- context [<[?k := ?v]> ?g ?k] => rewrite fn_lookup_insert
  | H : context [<[?k := ?v]> ?g ?k] |- _ => rewrite fn_lookup_insert in H
  | |- context [<[?k := ?v]> ?g ?k'] => rewrite (fn_lookup_insert_ne g k k' v) by congruence
  | H : context [<[?k := ?v]> ?g ?k'] |- _ => rewrite (fn_lookup_insert_ne g k k' v) in H by congruence
  end.

(** A fiber that runs goes on the list of the bucket of its word. *)
Lemma located_park s loc f word w' c :
  located s loc -> ctl s (AFiber f) = Run -> parks c <> None -> unwoken c = PARKING ->
  (exists v oc, parks c = Some (word, v, oc)) -> hand c = [] -> pushing c = None ->
  w_fibers w' = w_fibers (table s (bucket word)) ++ [(f, word)] ->
  located (with_ctl (AFiber f) c (with_bucket (bucket word) w' (with_fstate f PARKING s)))
    (<[f := InBucket (bucket word) word]> loc).
Proof.
  intros Hl Hrun Hpk Hun Hpw Hh Hp Hw.
  assert (loc f = Nowhere) as Hloc by (apply (located_nowhere s loc f Hl); by rewrite Hrun).
  assert (forall b w, (f, w) ∉ w_fibers (table s b)) as Hnot.
  { intros b w Hin. apply Hl in Hin. congruence. }
  apply (located_move s); [done|..]; cbn.
  - intros b f' w. destruct (decide (b = bucket word)) as [->|Hb]; fn_lookup.
    + rewrite Hw, elem_of_app, list_elem_of_singleton. case_decide as Hf; [subst|naive_solver].
      split; [intros [?|[= ->]]; [by destruct (Hnot (bucket word) w)|done]|]. intros [= ->]. by right.
    + case_decide as Hf; [subst|done]. split; [by intros ?%Hnot|by intros [= ? _]].
  - intros b. destruct (decide (b = bucket word)) as [->|Hb]; fn_lookup; [|apply Hl].
    rewrite Hw, fmap_app. apply NoDup_app. split; [apply Hl|]. split; [|apply NoDup_singleton].
    intros x Hx%list_elem_of_fmap. destruct Hx as ([f' w] & -> & Hx). cbn. intros ->%list_elem_of_singleton.
    by apply Hnot in Hx.
  - intros a f'. destruct (decide (a = AFiber f)) as [->|Ha]; fn_lookup.
    + rewrite Hh, Hrun. cbn. case_decide; [|done]. rewrite elem_of_nil. done.
    + case_decide as Hf; [subst|done]. rewrite (lc_hand _ _ Hl), Hloc. done.
  - intros a. destruct (decide (a = AFiber f)) as [->|Ha]; fn_lookup; [rewrite Hh; constructor|apply Hl].
  - intros a f'. destruct (decide (a = AFiber f)) as [->|Ha]; fn_lookup.
    + rewrite Hp, Hrun. cbn. by case_decide.
    + case_decide as Hf; [subst|done]. rewrite (lc_push _ _ Hl), Hloc. done.
  - intros f'. case_decide as Hf; [subst|done]. rewrite (lc_queue _ _ Hl), Hloc. done.
  - apply Hl.
  - intros f' Hf. fn_lookup. apply Hl.
  - fn_lookup. cbn. by rewrite Hun.
Qed.

(** The worker marks a fiber that no wake reached as parked. *)
Lemma located_parked s loc f w v oc :
  located s loc -> ctl s (AFiber f) = Parking w v oc -> fstate s f = PARKING ->
  located (with_ctl (AFiber f) (Parked w v oc) (with_fstate f PARKED s)) loc.
Proof.
  intros Hl Hc Hst. pose proof (lc_agrees _ _ Hl f) as Ha. rewrite Hc, Hst in Ha.
  assert (agrees (loc f) (Parked w v oc) PARKED) as Ha'.
  { destruct (loc f) as [|b w'| | |]; cbn in *; [|naive_solver..].
    destruct Ha as [_ Ha]. by destruct (Ha w v oc eq_refl). }
  destruct Hl as [H1 H2 H3 H4 H5 H6 H7 H8]. split; try done; cbn.
  - intros a f'. destruct (decide (a = AFiber f)) as [->|]; fn_lookup; [|apply H3]. rewrite <- H3, Hc. done.
  - intros a. destruct (decide (a = AFiber f)) as [->|]; fn_lookup; [constructor|apply H4].
  - intros a f'. destruct (decide (a = AFiber f)) as [->|]; fn_lookup; [|apply H5]. rewrite <- H5, Hc. done.
  - intros f'. destruct (decide (f' = f)) as [->|]; fn_lookup; [done|apply H8].
Qed.

(** A fiber that is nowhere goes on the ready queue. *)
Lemma located_queue s loc f :
  located s loc -> loc f = Nowhere -> hand (ctl s (AFiber f)) = [] -> pushing (ctl s (AFiber f)) = None ->
  located (push_ready f s) (<[f := InQueue]> loc).
Proof.
  intros Hl Hloc Hh Hp.
  assert (f ∉ ready s) as Hq by (rewrite (lc_queue _ _ Hl), Hloc; done).
  apply (located_move s); [done|..]; cbn.
  - intros b f' w. case_decide as Hf; [subst|done]. rewrite (lc_bucket _ _ Hl), Hloc. done.
  - apply Hl.
  - intros a f'. destruct (decide (a = AFiber f)) as [->|Ha]; fn_lookup.
    + cbn. rewrite Hh. case_decide; [rewrite elem_of_nil|]; done.
    + case_decide as Hf; [subst|done]. rewrite (lc_hand _ _ Hl), Hloc. done.
  - intros a. destruct (decide (a = AFiber f)) as [->|Ha]; fn_lookup; [constructor|apply Hl].
  - intros a f'. destruct (decide (a = AFiber f)) as [->|Ha]; fn_lookup.
    + cbn. rewrite Hp. by case_decide.
    + case_decide as Hf; [subst|done]. rewrite (lc_push _ _ Hl), Hloc. done.
  - intros f'. rewrite elem_of_app, list_elem_of_singleton. case_decide; naive_solver.
  - apply NoDup_app. split; [apply Hl|]. split; [|apply NoDup_singleton].
    by intros x Hx ->%list_elem_of_singleton.
  - intros f' Hf. fn_lookup. apply Hl.
  - by fn_lookup.
Qed.

(** The worker takes the first fiber of the queue. *)
Lemma located_pop s loc f rest :
  located s loc -> ready s = f :: rest ->
  located (with_ctl (AFiber f) Run (with_fstate f RUNNING (set_ready rest s))) (<[f := Nowhere]> loc).
Proof.
  intros Hl Hr. assert (loc f = InQueue) as Hloc by (apply Hl; rewrite Hr; by left).
  pose proof (lc_agrees _ _ Hl f) as Ha. rewrite Hloc in Ha. cbn in Ha.
  pose proof (lc_queue_nodup _ _ Hl) as Hnd. rewrite Hr in Hnd. apply NoDup_cons in Hnd as [Hnot Hnd].
  apply (located_move s); [done|..]; cbn.
  - intros b f' w. case_decide as Hf; [subst|done]. rewrite (lc_bucket _ _ Hl), Hloc. done.
  - apply Hl.
  - intros a f'. destruct (decide (a = AFiber f)) as [->|Hne]; fn_lookup.
    + rewrite Ha. cbn. case_decide; [rewrite elem_of_nil|]; done.
    + case_decide as Hf; [subst|done]. rewrite (lc_hand _ _ Hl), Hloc. done.
  - intros a. destruct (decide (a = AFiber f)) as [->|Hne]; fn_lookup; [constructor|apply Hl].
  - intros a f'. destruct (decide (a = AFiber f)) as [->|Hne]; fn_lookup.
    + rewrite Ha. cbn. by case_decide.
    + case_decide as Hf; [subst|done]. rewrite (lc_push _ _ Hl), Hloc. done.
  - intros f'. rewrite Hr. case_decide as Hf; [subst; split; [by intros ?%Hnot|done]|]. rewrite elem_of_cons. naive_solver.
  - done.
  - intros f' Hf. fn_lookup. apply Hl.
  - fn_lookup. by apply agrees_nowhere.
Qed.

Lemma NoDup_filter_fst {A B} (P : A * B -> Prop) `{!forall x, Decision (P x)} (l : list (A * B)) :
  NoDup l.*1 -> NoDup (filter P l).*1.
Proof. intros Hn. eapply sublist_NoDup; [exact Hn|]. apply fmap_sublist, sublist_filter. Qed.

(** A wake of bucket [b] moves the fibers it names into the hands of the waker. *)
Lemma located_wake s loc a b which todo :
  located s loc -> ctl s a = Calling ((b, which) :: todo) ->
  let '(taken, s') := wake_under_the_lock b which s in
  located (with_ctl a (Notify b taken todo) s')
    (fun f => if decide (f ∈ taken) then InHand a else loc f).
Proof.
  intros Hl Hc. unfold wake_under_the_lock, take_fibers.
  set (taken := (filter _ (w_fibers (table s b))).*1). set (kept := filter _ (w_fibers (table s b))).
  set (s' := with_bucket b _ _).
  assert (forall x, ctl s' x = ctl s x) as Ectl by (intros; unfold s', sched_unblocked, sleep_ended; by destruct (0 <? _)).
  assert (forall x, fstate s' x = fstate s x) as Efs by (intros; unfold s', sched_unblocked, sleep_ended; by destruct (0 <? _)).
  assert (ready s' = ready s) as Er by (unfold s', sched_unblocked, sleep_ended; by destruct (0 <? _)).
  assert (forall x, x <> b -> table s' x = table s x) as Etab.
  { intros x Hx. unfold s', with_bucket. cbn. fn_lookup. unfold sched_unblocked, sleep_ended. by destruct (0 <? _). }
  assert (w_fibers (table s' b) = kept) as Ekept by (unfold s', with_bucket; cbn; by fn_lookup).
  assert (forall f, f ∈ taken <-> exists w, loc f = InBucket b w /\ names which w = true) as Htaken.
  { intros f. unfold taken. rewrite list_elem_of_fmap. split.
    - intros ([f' w] & -> & Hin). apply list_elem_of_filter in Hin as [Hn Hin]. exists w. split; [by apply Hl|done].
    - intros (w & Hloc & Hn). exists (f, w). split; [done|]. apply list_elem_of_filter. split; [done|]. by apply Hl. }
  assert (hand (ctl s a) = [] /\ pushing (ctl s a) = None) as [Hh Hp] by (by rewrite Hc).
  split; cbn [with_ctl set_ctl table ctl fstate ready].
  - intros b' f w. destruct (decide (b' = b)) as [->|Hb].
    + rewrite Ekept. unfold kept. rewrite list_elem_of_filter. cbn [snd]. rewrite (lc_bucket _ _ Hl).
      case_decide as Ht; [|naive_solver]. apply Htaken in Ht as (w' & Hloc & Hn). rewrite Hloc.
      split; [|done]. intros [Hnn [= ->]]. done.
    + rewrite Etab, (lc_bucket _ _ Hl) by done. case_decide as Ht; [|done].
      apply Htaken in Ht as (w' & Hloc & _). rewrite Hloc. split; [|done]. intros [= ? _]. congruence.
  - intros b'. destruct (decide (b' = b)) as [->|Hb]; [|rewrite Etab by done; apply Hl].
    rewrite Ekept. unfold kept. apply (NoDup_filter_fst _ _ (lc_nodup _ _ Hl b)).
  - intros a' f. destruct (decide (a' = a)) as [->|Ha]; fn_lookup; rewrite ?Ectl.
    + cbn. case_decide as Ht; [done|]. split; [done|]. intros Hloc. apply (lc_hand _ _ Hl) in Hloc. rewrite Hh in Hloc.
      by apply elem_of_nil in Hloc.
    + rewrite (lc_hand _ _ Hl). case_decide as Ht; [|done]. apply Htaken in Ht as (w & Hloc & _). rewrite Hloc.
      split; [done|]. intros [= ?]. congruence.
  - intros a'. destruct (decide (a' = a)) as [->|Ha]; fn_lookup; rewrite ?Ectl; [|apply Hl].
    cbn. unfold taken. apply (NoDup_filter_fst _ _ (lc_nodup _ _ Hl b)).
  - intros a' f. assert (pushing (<[a:=Notify b taken todo]> (ctl s') a') = pushing (ctl s a')) as ->.
    { destruct (decide (a' = a)) as [->|Ha]; fn_lookup; rewrite ?Ectl; done. }
    rewrite (lc_push _ _ Hl). case_decide as Ht; [|done]. apply Htaken in Ht as (w & Hloc & _). by rewrite Hloc.
  - intros f. rewrite Er, (lc_queue _ _ Hl). case_decide as Ht; [|done]. apply Htaken in Ht as (w & Hloc & _). by rewrite Hloc.
  - rewrite Er. apply Hl.
  - intros f. rewrite Efs. pose proof (lc_agrees _ _ Hl f) as Ha.
    destruct (decide (a = AFiber f)) as [->|Hne]; fn_lookup; rewrite ?Ectl.
    + assert (loc f = Nowhere) as Hloc by (apply (located_nowhere s loc f Hl); by rewrite Hc).
      rewrite decide_False; [rewrite Hloc; by apply agrees_nowhere|]. intros (w & Hw & _)%Htaken. congruence.
    + case_decide as Ht; [|done]. apply Htaken in Ht as (w & Hloc & _). rewrite Hloc in Ha.
      destruct Ha as ((v & oc & E) & _ & Est). by split.
Qed.

(** A wake of a fiber that is parked: the waker puts it on the queue next. *)
Lemma located_wake_parked s loc a f taken todo :
  located s loc -> ctl s a = Waking (f :: taken) todo -> fstate s f = PARKED ->
  located (with_ctl a (Pushing f taken todo) (with_fstate f WOKEN s)) (<[f := InPush a]> loc).
Proof.
  intros Hl Hc Hst.
  assert (loc f = InHand a) as Hloc by (apply Hl; rewrite Hc; by left).
  pose proof (lc_agrees _ _ Hl f) as Ha. rewrite Hloc, Hst in Ha. destruct Ha as [[[[w v] oc] Hpk] Hun].
  assert (ctl s (AFiber f) = Parked w v oc) as Hcf.
  { destruct (ctl s (AFiber f)); cbn in Hpk, Hun; simplify_eq; done. }
  assert (a <> AFiber f) as Hne by (intros ->; congruence).
  pose proof (lc_hand_nodup _ _ Hl a) as Hnd. rewrite Hc in Hnd. cbn in Hnd. apply NoDup_cons in Hnd as [Hnot Hnd].
  apply (located_move s); [done|..]; cbn.
  - intros b f' w'. case_decide as Hf; [subst|done]. rewrite (lc_bucket _ _ Hl), Hloc. done.
  - apply Hl.
  - intros a' f'. destruct (decide (a' = a)) as [->|Ha']; fn_lookup.
    + rewrite Hc. cbn. case_decide as Hf; [subst; split; [by intros ?%Hnot|done]|]. rewrite elem_of_cons. naive_solver.
    + case_decide as Hf; [subst|done]. rewrite (lc_hand _ _ Hl), Hloc. split; [|done]. intros [= ?]. congruence.
  - intros a'. destruct (decide (a' = a)) as [->|Ha']; fn_lookup; [done|apply Hl].
  - intros a' f'. destruct (decide (a' = a)) as [->|Ha']; fn_lookup.
    + rewrite Hc. cbn. case_decide as Hf; [by subst|]. split; [|done]. intros [= ?]. congruence.
    + case_decide as Hf; [subst|done]. rewrite (lc_push _ _ Hl), Hloc. split; [done|]. intros [= ?]. congruence.
  - intros f'. case_decide as Hf; [subst|done]. rewrite (lc_queue _ _ Hl), Hloc. done.
  - apply Hl.
  - intros f' Hf. destruct (decide (a = AFiber f')) as [->|]; fn_lookup; [|apply Hl].
    rewrite (located_nowhere s loc f') by (done || by rewrite Hc). by apply agrees_nowhere.
  - fn_lookup. rewrite Hcf. eauto.
Qed.

(** A wake of a fiber that has not switched yet leaves it to its worker. *)
Lemma located_wake_parking s loc a f taken todo :
  located s loc -> ctl s a = Waking (f :: taken) todo -> fstate s f = PARKING ->
  located (with_ctl a (Waking taken todo) (with_fstate f WOKEN s)) (<[f := Nowhere]> loc).
Proof.
  intros Hl Hc Hst.
  assert (loc f = InHand a) as Hloc by (apply Hl; rewrite Hc; by left).
  pose proof (lc_agrees _ _ Hl f) as Ha. rewrite Hloc, Hst in Ha. destruct Ha as [Hpk Hun].
  assert (a <> AFiber f) as Hne by (intros ->; rewrite Hc in Hpk; by destruct Hpk).
  pose proof (lc_hand_nodup _ _ Hl a) as Hnd. rewrite Hc in Hnd. cbn in Hnd. apply NoDup_cons in Hnd as [Hnot Hnd].
  apply (located_move s); [done|..]; cbn.
  - intros b f' w'. case_decide as Hf; [subst|done]. rewrite (lc_bucket _ _ Hl), Hloc. done.
  - apply Hl.
  - intros a' f'. destruct (decide (a' = a)) as [->|Ha']; fn_lookup.
    + rewrite Hc. cbn. case_decide as Hf; [subst; split; [by intros ?%Hnot|done]|]. rewrite elem_of_cons. naive_solver.
    + case_decide as Hf; [subst|done]. rewrite (lc_hand _ _ Hl), Hloc. split; [|done]. intros [= ?]. congruence.
  - intros a'. destruct (decide (a' = a)) as [->|Ha']; fn_lookup; [done|apply Hl].
  - intros a' f'. destruct (decide (a' = a)) as [->|Ha']; fn_lookup.
    + rewrite Hc. cbn. by case_decide.
    + case_decide as Hf; [subst|done]. rewrite (lc_push _ _ Hl), Hloc. done.
  - intros f'. case_decide as Hf; [subst|done]. rewrite (lc_queue _ _ Hl), Hloc. done.
  - apply Hl.
  - intros f' Hf. destruct (decide (a = AFiber f')) as [->|]; fn_lookup; [|apply Hl].
    rewrite (located_nowhere s loc f') by (done || by rewrite Hc). by apply agrees_nowhere.
  - fn_lookup. split; [intros E; by rewrite E in Hpk; destruct Hpk|]. intros w v oc E. split; [done|].
    intros E'. by rewrite E' in Hun.
Qed.

(** The waker puts the fiber on the queue. *)
Lemma located_push s loc a f taken todo :
  located s loc -> ctl s a = Pushing f taken todo ->
  located (with_ctl a (Waking taken todo) (push_ready f s)) (<[f := InQueue]> loc).
Proof.
  intros Hl Hc. assert (loc f = InPush a) as Hloc by (apply Hl; by rewrite Hc).
  pose proof (lc_agrees _ _ Hl f) as Ha. rewrite Hloc in Ha. destruct Ha as [(w & v & oc & Hcf) Hst].
  assert (a <> AFiber f) as Hne by (intros ->; congruence).
  apply (located_move s); [done|..]; cbn.
  - intros b f' w'. case_decide as Hf; [subst|done]. rewrite (lc_bucket _ _ Hl), Hloc. done.
  - apply Hl.
  - intros a' f'. destruct (decide (a' = a)) as [->|Ha']; [|destruct (decide (a' = AFiber f)) as [->|Ha'']]; fn_lookup; cbn.
    + pose proof (lc_hand _ _ Hl a f') as Hh. rewrite Hc in Hh |- *. cbn in Hh |- *. case_decide as Hf; [subst|done].
      rewrite Hh, Hloc. done.
    + rewrite Hcf. case_decide; [rewrite elem_of_nil|]; done.
    + case_decide as Hf; [subst|done]. rewrite (lc_hand _ _ Hl), Hloc. done.
  - intros a'. pose proof (lc_hand_nodup _ _ Hl a') as Hnd.
    destruct (decide (a' = a)) as [->|Ha']; [|destruct (decide (a' = AFiber f)) as [->|Ha'']]; fn_lookup; cbn; [|constructor|done].
    by rewrite Hc in Hnd.
  - intros a' f'. destruct (decide (a' = a)) as [->|Ha']; [|destruct (decide (a' = AFiber f)) as [->|Ha'']]; fn_lookup; cbn.
    + rewrite Hc. cbn. case_decide as Hf; [done|]. split; [done|]. intros [= ?]. congruence.
    + rewrite Hcf. by case_decide.
    + case_decide as Hf; [subst|done]. rewrite (lc_push _ _ Hl), Hloc. split; [|done]. intros [= ?]. congruence.
  - intros f'. rewrite elem_of_app, list_elem_of_singleton. case_decide; naive_solver.
  - apply NoDup_app. split; [apply Hl|]. split; [|apply NoDup_singleton].
    intros x Hx ->%list_elem_of_singleton. apply (lc_queue _ _ Hl) in Hx. congruence.
  - intros f' Hf. destruct (decide (a = AFiber f')) as [->|]; fn_lookup; [|apply Hl].
    rewrite (located_nowhere s loc f') by (done || by rewrite Hc). by apply agrees_nowhere.
  - fn_lookup. done.
Qed.

Lemma located_notify s loc b : located s loc -> located (notify_all b s) loc.
Proof.
  intros [H1 H2 H3 H4 H5 H6 H7 H8].
  assert (forall c, hand (notified_all b c) = hand c /\ pushing (notified_all b c) = pushing c /\
    parks (notified_all b c) = parks c /\ unwoken (notified_all b c) = unwoken c) as E.
  { intros c. unfold notified_all. repeat case_match; done. }
  assert (forall p c st, agrees p c st -> agrees p (notified_all b c) st) as Ea.
  { intros p c st. destruct (E c) as (_ & _ & E3 & E4).
    assert (notified_all b c = c \/ (parks c = None /\ exists w v oc seen n, c = Asleep w v oc seen n /\
      notified_all b c = Asleep w v oc seen true)) as [->|(Hp & w & v & oc & seen & n & -> & ->)].
    { unfold notified_all. repeat case_match; eauto 10. }
    - done.
    - destruct p; cbn; [intros; split; done|naive_solver..]. }
  split; cbn; try done.
  - intros a f. destruct (E (ctl s a)) as (-> & _). apply H3.
  - intros a. destruct (E (ctl s a)) as (-> & _). apply H4.
  - intros a f. destruct (E (ctl s a)) as (_ & -> & _). apply H5.
  - intros f. apply Ea, H8.
Qed.

(** ** Keeping waits justified *)

Lemma fiber_wake_is_wake s b w : fiber_wake_to_come s b w -> wake_to_come s b.
Proof. intros (c & which & H & _). by exists c, which. Qed.

Lemma justified_mono s s' loc loc' :
  justified s loc -> located s' loc' ->
  (forall a w v oc, still s a w v oc -> still s' a w v oc \/ fiber_wake_to_come s' (bucket w) w) ->
  (forall f b w v oc, loc' f = InBucket b w -> parks (ctl s' (AFiber f)) = Some (w, v, oc) ->
     (loc f = InBucket b w /\ parks (ctl s (AFiber f)) = Some (w, v, oc)) \/ still s' (AFiber f) w v oc) ->
  (forall a w v oc seen, ctl s' a = Asleep w v oc seen false ->
     ctl s a = Asleep w v oc seen false \/ still s' a w v oc) ->
  (forall c b which, (b, which) ∈ wakes_to_make (ctl s c) ->
     (exists c', (b, which) ∈ wakes_to_make (ctl s' c')) \/
     ((forall f w, loc' f = InBucket b w -> names which w = false) /\ exists c', notifying (ctl s' c') = Some b)) ->
  (forall c b, notifying (ctl s c) = Some b ->
     (exists c', notifying (ctl s' c') = Some b) \/
     (forall a w v oc seen, ctl s' a = Asleep w v oc seen false -> bucket w <> b)) ->
  justified s' loc'.
Proof.
  intros [J1 J2] Hl Hstill Hpk Has Hw Hn. split.
  - intros f b w v oc Hloc Hp. destruct (Hpk f b w v oc Hloc Hp) as [[Hloc0 Hp0]|]; [|by left].
    assert (b = bucket w) as ->.
    { pose proof (lc_agrees _ _ Hl f) as Ha. rewrite Hloc in Ha. by destruct Ha as (_ & -> & _). }
    destruct (J1 f _ w v oc Hloc0 Hp0) as [Hs|(c & which & Hin & Hnm)]; [by apply Hstill|].
    right. destruct (Hw c _ which Hin) as [[c' Hc']|[Hno _]]; [by exists c', which|].
    specialize (Hno f w Hloc). congruence.
  - intros a w v oc seen Hc. destruct (Has a w v oc seen Hc) as [Hc0|]; [|by left].
    destruct (J2 a w v oc seen Hc0) as [Hs|[(c & which & Hin)|[c Hcn]]].
    + destruct (Hstill a w v oc Hs) as [|Hf]; [by left|]. right. left. by eapply fiber_wake_is_wake.
    + right. destruct (Hw c _ which Hin) as [[c' Hc']|[_ Hno]]; [left; by exists c', which|by right].
    + right. right. destruct (Hn c _ Hcn) as [|Hno]; [done|]. by destruct (Hno a w v oc seen Hc).
Qed.

(** Only [a] changes, and it keeps its wakes. *)
Lemma justified_ctl s s' loc loc' a c :
  justified s loc -> located s' loc' ->
  (forall x, ctl s' x = <[a := c]> (ctl s) x) ->
  (forall x w v oc, still s x w v oc -> still s' x w v oc \/ fiber_wake_to_come s' (bucket w) w) ->
  (forall f b w, loc' f = InBucket b w -> loc f = InBucket b w \/ a = AFiber f) ->
  (forall f b w v oc, a = AFiber f -> loc' f = InBucket b w -> parks c = Some (w, v, oc) ->
     (loc f = InBucket b w /\ parks (ctl s a) = Some (w, v, oc)) \/ still s' a w v oc) ->
  (forall w v oc seen, c = Asleep w v oc seen false -> still s' a w v oc) ->
  (forall x, x ∈ wakes_to_make (ctl s a) -> x ∈ wakes_to_make c) ->
  notifying (ctl s a) = None ->
  justified s' loc'.
Proof.
  intros J Hl Hc Hst Hloc Hpk Has Hw Hn. eapply justified_mono; [exact J|exact Hl|exact Hst|..].
  - intros f b w v oc Hlf. rewrite Hc. destruct (decide (a = AFiber f)) as [->|]; fn_lookup; [by apply Hpk|].
    intros Hp. left. destruct (Hloc f b w Hlf); [done|congruence].
  - intros x w v oc seen. rewrite Hc. destruct (decide (a = x)) as [->|]; fn_lookup; [|by left].
    intros E. right. by eapply Has.
  - intros x b which Hin. left. exists x. rewrite Hc. destruct (decide (a = x)) as [->|]; fn_lookup; auto.
  - intros x b Hx. left. exists x. rewrite Hc. destruct (decide (a = x)) as [->|]; fn_lookup; congruence.
Qed.

Lemma bucket_lt w : (bucket w < BUCKETS)%nat.
Proof. unfold bucket. pose proof (Z.mod_pos_bound (Z.shiftr w 3) (Z.of_nat BUCKETS) ltac:(done)). lia. Qed.

(** The control of one thread changes and the fibers stay where they are. *)
Lemma justified_stay s s' loc a c :
  justified s loc -> located s' loc -> (forall x, ctl s' x = <[a := c]> (ctl s) x) ->
  mem s' = mem s -> cancelled s' = cancelled s ->
  (forall p, parks c = Some p -> parks (ctl s a) = Some p) ->
  (forall w v oc seen, c <> Asleep w v oc seen false) ->
  (forall x, x ∈ wakes_to_make (ctl s a) -> x ∈ wakes_to_make c) ->
  notifying (ctl s a) = None ->
  justified s' loc.
Proof.
  intros J Hl Hc Hm Hcc Hp Ha Hw Hn. eapply (justified_ctl s s' loc loc a c); try done; [| | |].
  - intros x w v oc Hs. left. unfold still in *. by rewrite Hm, Hcc.
  - by left.
  - intros f b w v oc _ Hlf Hpk. left. auto.
  - intros w v oc seen E. by apply Ha in E.
Qed.

(** Nothing that the invariants read changes. *)
Lemma justified_ext s s' loc : justified s loc -> ctl s' = ctl s -> mem s' = mem s -> cancelled s' = cancelled s ->
  justified s' loc.
Proof.
  intros [J1 J2] Hc Hm Hcc. split; unfold still, fiber_wake_to_come, wake_to_come; rewrite Hc, Hm, Hcc; auto.
Qed.

(** ** Every step keeps the invariant *)

Definition sound (s : State) : Prop := exists loc, located s loc /\ justified s loc.

(** A state that differs only in what the invariants do not read. *)
Lemma sound_ext s s' :
  sound s -> (forall b, w_fibers (table s' b) = w_fibers (table s b)) -> ctl s' = ctl s -> fstate s' = fstate s ->
  ready s' = ready s -> mem s' = mem s -> cancelled s' = cancelled s -> sound s'.
Proof.
  intros (loc & Hl & Hj) Ht Hc Hf Hr Hm Hcc. exists loc. split; [|by eapply justified_ext].
  eapply located_ext; [exact Hl|done|by rewrite Hc|by rewrite Hf|done].
Qed.

(** A thread that runs, is asleep or wakes changes its control and holds what it held. *)
Lemma sound_run s a c :
  sound s -> hand (ctl s a) = hand c -> pushing (ctl s a) = pushing c ->
  parks (ctl s a) = None -> ctl s a <> Ready -> parks c = None -> c <> Ready ->
  (forall w v oc seen, c <> Asleep w v oc seen false) ->
  (forall x, x ∈ wakes_to_make (ctl s a) -> x ∈ wakes_to_make c) -> notifying (ctl s a) = None ->
  sound (with_ctl a c s).
Proof.
  intros (loc & Hl & Hj) Hh Hp Hpk Hr Hpc Hrc Ha Hw Hn. exists loc.
  assert (located (with_ctl a c s) loc) as Hl' by (by eapply located_run).
  split; [done|]. eapply (justified_stay s _ loc a c); try done. congruence.
Qed.

Lemma sound_wake s a b which todo :
  sound s -> ctl s a = Calling ((b, which) :: todo) ->
  sound (let '(taken, s') := wake_under_the_lock b which s in with_ctl a (Notify b taken todo) s').
Proof.
  intros (loc & Hl & Hj) Hc. pose proof (located_wake s loc a b which todo Hl Hc) as Hl'.
  destruct (wake_under_the_lock b which s) as [taken s'] eqn:E.
  assert (ctl s' = ctl s /\ mem s' = mem s /\ cancelled s' = cancelled s) as (Ectl & Em & Ecc).
  { unfold wake_under_the_lock in E. destruct (take_fibers _ _). injection E as <- <-.
    unfold sched_unblocked, sleep_ended. by destruct (0 <? _). }
  assert (forall f w, loc f = InBucket b w -> names which w = true -> f ∈ taken) as Htaken.
  { intros f w Hloc Hn. unfold wake_under_the_lock, take_fibers in E. injection E as <- _.
    apply list_elem_of_fmap. exists (f, w). split; [done|]. apply list_elem_of_filter. split; [done|]. by apply Hl. }
  eexists. split; [exact Hl'|]. eapply justified_mono; [exact Hj|exact Hl'|..]; cbn [with_ctl set_ctl ctl]; rewrite ?Ectl.
  - intros x w v oc Hs. left. unfold still in *. cbn. by rewrite Em, Ecc.
  - intros f b' w v oc Hloc. case_decide as Ht; [done|].
    destruct (decide (a = AFiber f)) as [->|]; fn_lookup; [done|]. by left.
  - intros x w v oc seen. destruct (decide (a = x)) as [->|]; fn_lookup; [done|]. by left.
  - intros x b' which' Hin. destruct (decide (a = x)) as [->|].
    + rewrite Hc in Hin. cbn in Hin. apply elem_of_cons in Hin as [[= -> ->]|Hin].
      * right. split; [|exists x; by fn_lookup]. intros f w Hloc. case_decide as Ht; [done|].
        destruct (names which w) eqn:En; [|done]. by destruct Ht; eapply Htaken.
      * left. exists x. by fn_lookup.
    + left. exists x. by fn_lookup.
  - intros x b' Hx. left. exists x. destruct (decide (a = x)) as [->|]; fn_lookup; [|done]. by rewrite Hc in Hx.
Qed.

Lemma sound_notify s a b taken todo :
  sound s -> ctl s a = Notify b taken todo -> sound (with_ctl a (Waking taken todo) (notify_all b s)).
Proof.
  intros (loc & Hl & Hj) Hc. pose proof (located_notify s loc b Hl) as Hn.
  assert (ctl (notify_all b s) a = Notify b taken todo) as Hc' by (cbn; by rewrite Hc).
  exists loc. assert (located (with_ctl a (Waking taken todo) (notify_all b s)) loc) as Hl'.
  { eapply located_run; [exact Hn|exact Hc'|done..]. }
  split; [done|].
  assert (forall x, wakes_to_make (notified_all b x) = wakes_to_make x /\ notifying (notified_all b x) = notifying x /\
    parks (notified_all b x) = parks x) as E.
  { intros x. unfold notified_all. repeat case_match; done. }
  eapply justified_mono; [exact Hj|exact Hl'|..]; cbn [with_ctl set_ctl ctl notify_all].
  - by left.
  - intros f b' w v oc Hloc. destruct (decide (a = AFiber f)) as [->|]; fn_lookup; [done|].
    destruct (E (ctl s (AFiber f))) as (_ & _ & ->). by left.
  - intros x w v oc seen. destruct (decide (a = x)) as [->|]; fn_lookup; [done|]. unfold notified_all.
    repeat case_match; try done; by left.
  - intros x b' which Hin. left. exists x. destruct (decide (a = x)) as [->|]; fn_lookup.
    + by rewrite Hc in Hin.
    + by destruct (E (ctl s x)) as (-> & _).
  - intros x b' Hx. destruct (decide (a = x)) as [->|].
    + rewrite Hc in Hx. injection Hx as <-. right. intros y w v oc seen.
      destruct (decide (x = y)) as [->|]; fn_lookup; [done|]. unfold notified_all.
      repeat case_match; try done. intros [= <- <- <- <- ]. by apply Nat.eqb_neq.
    + left. exists x. fn_lookup. by destruct (E (ctl s x)) as (_ & -> & _).
Qed.

(** A fiber leaves its place for one that is no bucket. *)
Lemma justified_take s s' loc f p a c :
  justified s loc -> located s' (<[f := p]> loc) -> (forall b w, p <> InBucket b w) ->
  (forall x, ctl s' x = <[a := c]> (ctl s) x) -> mem s' = mem s -> cancelled s' = cancelled s ->
  parks c = None -> (forall w v oc seen, c <> Asleep w v oc seen false) ->
  (forall x, x ∈ wakes_to_make (ctl s a) -> x ∈ wakes_to_make c) -> notifying (ctl s a) = None ->
  justified s' (<[f := p]> loc).
Proof.
  intros J Hl Hp Hc Hm Hcc Hpk Ha Hw Hn. eapply (justified_ctl s s' loc _ a c); try done.
  - intros x w v oc Hs. left. unfold still in *. by rewrite Hm, Hcc.
  - intros f' b w. destruct (decide (f' = f)) as [->|]; fn_lookup; [by intros ?%Hp|by left].
  - intros; congruence.
  - intros w v oc seen E. by apply Ha in E.
Qed.

Lemma sound_sched_wake s s' a f taken todo :
  sound s -> ctl s a = Waking (f :: taken) todo -> sched_wake a f taken todo s = Returns s' -> sound s'.
Proof.
  intros (loc & Hl & Hj) Hc. unfold sched_wake. destruct (fstate s f) eqn:Est; try done; intros [= <-].
  - pose proof (located_wake_parking s loc a f taken todo Hl Hc Est) as Hl'. eexists. split; [exact Hl'|].
    eapply (justified_take s _ loc f Nowhere a (Waking taken todo)); try done; by rewrite Hc.
  - pose proof (located_wake_parked s loc a f taken todo Hl Hc Est) as Hl'. eexists. split; [exact Hl'|].
    eapply (justified_take s _ loc f (InPush a) a (Pushing f taken todo)); try done; by rewrite Hc.
Qed.

Lemma sound_push s a f taken todo :
  sound s -> ctl s a = Pushing f taken todo -> sound (with_ctl a (Waking taken todo) (push_ready f s)).
Proof.
  intros (loc & Hl & Hj) Hc. pose proof (located_push s loc a f taken todo Hl Hc) as Hl'. eexists. split; [exact Hl'|].
  assert (loc f = InPush a) as Hloc by (apply Hl; by rewrite Hc).
  pose proof (lc_agrees _ _ Hl f) as Hag. rewrite Hloc in Hag. destruct Hag as [(w0 & v0 & oc0 & Hcf) _].
  assert (a <> AFiber f) as Hne by (intros ->; congruence).
  eapply justified_mono; [exact Hj|exact Hl'|..]; cbn.
  - by left.
  - intros f' b w v oc. destruct (decide (f' = f)) as [->|]; fn_lookup; [done|].
    destruct (decide (a = AFiber f')) as [->|]; fn_lookup; [done|]. by left.
  - intros x w v oc seen. destruct (decide (a = x)) as [->|]; fn_lookup; [done|].
    destruct (decide (x = AFiber f)) as [->|]; fn_lookup; [done|]. by left.
  - intros x b which Hin. left. exists x. destruct (decide (a = x)) as [->|]; fn_lookup; [by rewrite Hc in Hin|].
    destruct (decide (x = AFiber f)) as [->|]; fn_lookup; [by rewrite Hcf in Hin|done].
  - intros x b Hx. left. exists x. destruct (decide (a = x)) as [->|]; fn_lookup; [by rewrite Hc in Hx|].
    destruct (decide (x = AFiber f)) as [->|]; fn_lookup; [by rewrite Hcf in Hx|done].
Qed.

Lemma sound_run_parked s f w v oc :
  sound s -> ctl s (AFiber f) = Parking w v oc -> sound (run_parked f w v oc s).
Proof.
  intros (loc & Hl & Hj) Hc. unfold run_parked.
  match goal with |- sound (add_leaving ?x) => apply (sound_ext x); [|done..] end.
  pose proof (lc_agrees _ _ Hl f) as Ha. rewrite Hc in Ha.
  destruct (decide (fstate s f = PARKING)) as [Est|Est].
  - rewrite Est. pose proof (located_parked s loc f w v oc Hl Hc Est) as Hl'. exists loc. split; [done|].
    eapply (justified_stay s _ loc (AFiber f) (Parked w v oc)); try done; by rewrite Hc.
  - assert (loc f = Nowhere) as Hloc.
    { destruct (loc f); cbn in Ha; [done|naive_solver..]. }
    assert (match fstate s f with PARKING => with_ctl (AFiber f) (Parked w v oc) (with_fstate f PARKED s)
            | _ => push_ready f s end = push_ready f s) as -> by (by destruct (fstate s f)).
    pose proof (located_queue s loc f Hl Hloc ltac:(by rewrite Hc) ltac:(by rewrite Hc)) as Hl'.
    eexists. split; [exact Hl'|].
    eapply (justified_take s _ loc f InQueue (AFiber f) Ready); try done; by rewrite Hc.
Qed.

(** The end of a sleep changes a bucket, but not its fibers. *)
Lemma end_sleep_frame s s' a b seen : end_sleep a b seen s = Returns s' ->
  (forall b', w_fibers (table s' b') = w_fibers (table s b')) /\ ctl s' = ctl s /\ fstate s' = fstate s /\
  ready s' = ready s /\ mem s' = mem s /\ cancelled s' = cancelled s.
Proof.
  unfold end_sleep. intros E.
  assert (forall w b', w_fibers w = w_fibers (table s b) ->
    w_fibers (<[b := w]> (table s) b') = w_fibers (table s b')) as Hw.
  { intros w b' Hw. destruct (decide (b' = b)) as [->|]; by fn_lookup. }
  repeat case_match; simplify_eq; cbn; split_and!; try done; intros b'; by apply Hw.
Qed.

Lemma sound_end_sleep s s' a b seen : sound s -> end_sleep a b seen s = Returns s' -> sound s'.
Proof. intros Hs (Ht & ? & ? & ? & ? & ?)%end_sleep_frame. by eapply sound_ext. Qed.

Lemma sound_advance s s' a : sound s -> go_on a s = Returns s' -> sound s'.
Proof.
  intros Hs. unfold go_on. destruct (ctl s a) as [| | |w v oc d|w v oc|w v oc|w v oc seen n|todo|b taken todo|taken todo|f taken todo]
    eqn:Hc; try (by intros [= <-]).
  - intros [= <-]. destruct Hs as (loc & Hl & Hj).
    assert (located (with_ctl a (Parking w v oc) (wake_at d w s)) loc) as Hl'.
    { apply located_ctl; [by eapply located_ext|by cbn; rewrite Hc|by cbn; rewrite Hc|].
      intros f ->. pose proof (lc_agrees _ _ Hl f) as Ha. rewrite Hc in Ha.
      destruct (loc f); cbn in *; naive_solver. }
    exists loc. split; [done|]. eapply (justified_stay s _ loc a (Parking w v oc)); try done; by rewrite Hc.
  - destruct a as [f| |]; try done. intros [= <-]. by apply sound_run_parked.
  - destruct seen as [seen|], n; try (by intros [= <-]).
    + destruct (end_sleep a (bucket w) seen s) as [s1|] eqn:E; cbn [outcome_bind]; [|done]. intros [= <-].
      assert (ctl s1 = ctl s) as Ec by apply (end_sleep_frame _ _ _ _ _ E).
      apply sound_run; rewrite ?Ec, ?Hc; try done. by eapply sound_end_sleep.
    + intros [= <-]. apply sound_run; rewrite ?Hc; done.
  - destruct todo as [|[b which] todo].
    + intros [= <-]. apply sound_run; rewrite ?Hc; done.
    + pose proof (sound_wake (progress_made s) a b which todo ltac:(by eapply sound_ext) Hc) as Hw.
      destruct (wake_under_the_lock b which (progress_made s)) as [taken s1]. by intros [= <-].
  - intros [= <-]. by apply sound_notify.
  - destruct taken as [|f taken].
    + intros [= <-]. apply sound_run; rewrite ?Hc; done.
    + by apply sound_sched_wake.
  - intros [= <-]. by apply sound_push.
Qed.

(** The program changes a word, or sets cancel marks, and has the wakes to make. *)
Lemma sound_announce s s' a todo :
  sound s -> ctl s a = Run ->
  (forall x, ctl s' x = <[a := Calling todo]> (ctl s) x) -> table s' = table s -> fstate s' = fstate s -> ready s' = ready s ->
  (forall x w v oc, still s x w v oc -> still s' x w v oc \/ exists which, (bucket w, which) ∈ todo /\ names which w = true) ->
  sound s'.
Proof.
  intros (loc & Hl & Hj) Hc Hcs Ht Hf Hr Hst. exists loc.
  assert (located s' loc) as Hl'.
  { eapply (located_ext (with_ctl a (Calling todo) s)); [by eapply located_run|cbn; by rewrite Ht|done|by rewrite Hf|done]. }
  split; [done|]. eapply (justified_ctl s s' loc loc a (Calling todo)); try done.
  - intros x w v oc Hs. destruct (Hst x w v oc Hs) as [|(which & Hin & Hn)]; [by left|].
    right. exists a, which. rewrite Hcs. by fn_lookup.
  - by left.
  - rewrite Hc. cbn. intros x Hx. by apply elem_of_nil in Hx.
  - by rewrite Hc.
Qed.

Lemma sound_wait s a word value oc deadline now :
  sound s -> ctl s a = Run -> sound (wait a word value oc deadline now s).
Proof.
  intros Hs Hc. unfold wait.
  match goal with |- context [set_said ?x ?y] => set (s0 := set_said x y) end.
  assert (sound s0) as Hs0 by (by eapply sound_ext). assert (ctl s0 a = Run) as Hc0 by done.
  destruct (negb (mem s0 word =? value) || (oc && cancelled s0 a)) eqn:Eg; [done|].
  assert (still s0 a word value oc) as Hstill.
  { apply orb_false_iff in Eg as [E1 E2]. rewrite negb_false_iff, Z.eqb_eq in E1. split; [done|]. intros ->. by cbn in E2. }
  destruct (match deadline with Some d => d <=? now | None => false end); [done|].
  clearbody s0. clear Hs Hc Eg. destruct Hs0 as (loc & Hl & Hj).
  assert (forall s1 seen, (forall b, w_fibers (table s1 b) = w_fibers (table s0 b)) -> ctl s1 = ctl s0 -> fstate s1 = fstate s0 ->
    ready s1 = ready s0 -> mem s1 = mem s0 -> cancelled s1 = cancelled s0 ->
    sound (with_ctl a (Asleep word value oc seen false) s1)) as Hsleep.
  { intros s1 seen Ht Ectl Ef Er Em Ecc. exists loc.
    assert (located s1 loc) as Hl1 by (eapply located_ext; [exact Hl|done|by rewrite Ectl|by rewrite Ef|done]).
    assert (located (with_ctl a (Asleep word value oc seen false) s1) loc) as Hl'.
    { eapply (located_run s1 loc a _ Run); try done. by rewrite Ectl. }
    split; [done|]. eapply (justified_ctl s0 _ loc loc a); [exact Hj|exact Hl'| |..].
    - intros x. cbn. rewrite Ectl. done.
    - intros x w v oc' Hst. left. unfold still in *. cbn. by rewrite Em, Ecc.
    - by left.
    - done.
    - intros w v oc' seen' [= <- <- <- <-]. unfold still in *. cbn. by rewrite Em, Ecc.
    - rewrite Hc0. cbn. intros x Hx. by apply elem_of_nil in Hx.
    - by rewrite Hc0. }
  destruct (fiber_that_can_park a s0) as [f|] eqn:Ef.
  - assert (a = AFiber f) as ->.
    { unfold fiber_that_can_park in Ef. destruct a; [|done..]. by destruct (Nat.eqb _ _); simplify_eq. }
    match goal with |- sound (with_ctl _ ?c _) => assert (parks c = Some (word, value, oc) /\ unwoken c = PARKING /\
      hand c = [] /\ pushing c = None /\ (forall w v o sn, c <> Asleep w v o sn false)) as (Hpk & Hun & Hh & Hpu & Hna);
      [by destruct deadline|]; generalize dependent c end. intros c Hpk Hun Hh Hpu Hna.
    pose proof (located_park s0 loc f word
      (mkWaiters (w_fibers (table s0 (bucket word)) ++ [(f, word)]) (w_sleepers (table s0 (bucket word)))
         (w_blocked (table s0 (bucket word))) (w_wakes (table s0 (bucket word)))
         (w_notes (table s0 (bucket word)) ++
          [mkNote (OFiber f) word (what (said s (AFiber f))) (waits_at (said s (AFiber f))) (made_at (said s (AFiber f))) (AFiber f)]))
      c Hl Hc0 ltac:(by rewrite Hpk) Hun ltac:(eauto) Hh Hpu eq_refl) as Hl'.
    eexists. split; [exact Hl'|]. eapply (justified_ctl s0 _ loc _ (AFiber f) c); [exact Hj|exact Hl'|done|..].
    + by left.
    + intros f' b w. destruct (decide (f' = f)) as [->|]; fn_lookup; [by right|by left].
    + intros f' b w v oc' [= <-]. fn_lookup. intros [= <- <-]. rewrite Hpk. intros [= <- <-]. right. done.
    + intros w v oc' seen E. by apply Hna in E.
    + rewrite Hc0. cbn. intros x Hx. by apply elem_of_nil in Hx.
    + by rewrite Hc0.
  - destruct deadline as [d|]; [by apply Hsleep|].
    assert (forall w b', w_fibers w = w_fibers (table s0 (bucket word)) ->
      w_fibers (<[bucket word := w]> (table s0) b') = w_fibers (table s0 b')) as Hw.
    { intros w b' Hw. destruct (decide (b' = bucket word)) as [->|]; by fn_lookup. }
    apply Hsleep; unfold start_sleep; destruct a; try done; intros b'; by apply Hw.
Qed.

Lemma sound_step agents l s s' : sound s -> step agents l s s' -> sound s'.
Proof.
  intros Hs Hstep. destruct Hstep as [a s s' _ Ha|a word value s _ Hc|a group s _ Hc|a w f1 l1 f2 l2 s _ Hc|a site s _ Hc
    |a word value oc own dd now s _ Hc|a s _ Hc|a s s' _ Hc He|f s _ Hc|s s' Hpop|f s _ Hc|s s' Hlv|t s _ Hc|t s _ Hc
    |a word value oc seen s Hc|deadline word before after s Hc Hh]; open_step f rest Hr; try (by eapply sound_ext).
  - by eapply sound_advance.
  - eapply (sound_announce s _ a (vx_wake_all word)); try done.
    intros x w v oc [Hm Hcc]. destruct (decide (w = word)) as [->|Hw].
    + right. exists (FOf word). split; [by left|]. cbn. apply Z.eqb_refl.
    + left. split; cbn; [by fn_lookup|done].
  - eapply (sound_announce s _ a wake_every_thread); try done.
    intros x w v oc _. right. exists FAll. split; [|done]. unfold wake_every_thread.
    apply list_elem_of_fmap. exists (bucket w). split; [done|]. apply elem_of_seq. pose proof (bucket_lt w). lia.
  - by apply sound_wait.
  - destruct Hs as (loc & Hl & Hj).
    assert (loc f = Nowhere) as Hloc by (apply (located_nowhere s loc f Hl); by rewrite Hc).
    assert (located (with_fstate f RUNNING s) loc) as Hl1.
    { destruct Hl as [H1 H2 H3 H4 H5 H6 H7 H8]. split; try done. intros f'. cbn.
      destruct (decide (f' = f)) as [->|]; fn_lookup; [|apply H8]. rewrite Hloc, Hc. by apply agrees_nowhere. }
    pose proof (located_queue _ loc f Hl1 Hloc ltac:(cbn; by rewrite Hc) ltac:(cbn; by rewrite Hc)) as Hl'.
    eexists. split; [exact Hl'|].
    eapply (justified_take s _ loc f InQueue (AFiber f) Ready); try done; by rewrite Hc.
  - destruct Hs as (loc & Hl & Hj). pose proof (located_pop s loc f rest Hl Hr) as Hl'.
    eapply (sound_ext (with_ctl (AFiber f) Run (with_fstate f RUNNING (set_ready rest s)))); try done.
    eexists. split; [exact Hl'|].
    assert (ctl s (AFiber f) = Ready) as Hc.
    { pose proof (lc_agrees _ _ Hl f) as Ha. assert (loc f = InQueue) as E by (apply Hl; rewrite Hr; by left).
      by rewrite E in Ha. }
    eapply (justified_take s _ loc f Nowhere (AFiber f) Run); try done; by rewrite Hc.
  - apply sound_run; cbn; rewrite ?Hc; try done. by eapply sound_ext.
  - apply sound_run; cbn; rewrite ?Hc; try done. by eapply sound_ext.
  - apply sound_run; cbn; rewrite ?Hc; try done. by eapply sound_ext.
  - apply sound_run; cbn; rewrite ?Hc; done.
  - apply sound_run; cbn; rewrite ?Hc; try done; [by eapply sound_ext|].
    intros x Hx. by apply elem_of_nil in Hx.
Qed.

Lemma sound_init : sound init.
Proof.
  exists (fun _ => Nowhere). split.
  - split; cbn; try done.
    + intros b f w. rewrite elem_of_nil. done.
    + constructor.
    + intros a f. destruct a as [|[]|]; cbn; rewrite elem_of_nil; done.
    + intros a. destruct a as [|[]|]; constructor.
    + intros a f. destruct a as [|[]|]; done.
    + intros f. rewrite elem_of_nil. done.
    + constructor.
  - split; [done|]. intros a. destruct a as [|[]|]; done.
Qed.

Lemma sound_reach agents n s : reach agents n s -> sound s.
Proof. induction 1; [apply sound_init|by eapply sound_step]. Qed.

(** ** The theorem *)

Lemma parked_cases s f w v oc : sound s -> parks (ctl s (AFiber f)) = Some (w, v, oc) ->
  ((f, w) ∈ w_fibers (table s (bucket w)) /\ (still s (AFiber f) w v oc \/ fiber_wake_to_come s (bucket w) w)) \/
  (exists a, f ∈ hand (ctl s a)) \/ (exists a, pushing (ctl s a) = Some f) \/
  (fstate s f = WOKEN /\ busy (ctl s (AFiber f)) = true).
Proof.
  intros (loc & Hl & Hj) Hp. pose proof (lc_agrees _ _ Hl f) as Ha. destruct (loc f) as [|b w'|a|a|] eqn:Hloc; cbn in Ha.
  - right. right. right. destruct Ha as [_ Ha]. destruct (Ha w v oc Hp) as [-> Hne]. split; [done|].
    destruct (ctl s (AFiber f)); cbn in Hp |- *; simplify_eq; done.
  - left. destruct Ha as ((v' & oc' & E) & -> & _). rewrite Hp in E. simplify_eq.
    split; [by apply Hl|]. by eapply js_fiber.
  - right. left. exists a. by apply Hl.
  - right. right. left. exists a. by apply Hl.
  - by rewrite Ha in Hp.
Qed.

(** C7. No wake is lost.  In every reachable state a fiber that parks waits on
    the list of the bucket of its word, and its word still has the value and no
    cancel came, or a wake that will take it is still to be made; or a waker has
    it in hand, puts it on the queue next, or has left it to its own worker.  A
    thread that sleeps has its value and no cancel, or a wake of its bucket or
    the notification of one is to come.  This is so for every interleaving,
    spurious returns, time limits and cancels included. *)
Theorem no_lost_wake agents n s : reach agents n s ->
  (forall f w v oc, parks (ctl s (AFiber f)) = Some (w, v, oc) ->
     ((f, w) ∈ w_fibers (table s (bucket w)) /\ (still s (AFiber f) w v oc \/ fiber_wake_to_come s (bucket w) w)) \/
     (exists a, f ∈ hand (ctl s a)) \/ (exists a, pushing (ctl s a) = Some f) \/
     (fstate s f = WOKEN /\ busy (ctl s (AFiber f)) = true)) /\
  (forall a w v oc seen, ctl s a = Asleep w v oc seen false ->
     still s a w v oc \/ wake_to_come s (bucket w) \/ exists c, notifying (ctl s c) = Some (bucket w)).
Proof.
  intros Hr. apply sound_reach in Hr. split; [intros; by apply parked_cases|].
  destruct Hr as (loc & _ & Hj). apply Hj.
Qed.

(** The main thread starts a task, the task waits for the word 8, and the main
    thread changes the word. *)
Definition demo_agents : list Agent := [AThread 0; AFiber 0].

Definition demo1 : State := push_ready 0 (with_fstate 0 RUNNING init).
Definition demo2 : State := with_ctl (AFiber 0) Run (with_fstate 0 RUNNING (add_running 1 (set_ready [] demo1))).
Definition demo3 : State := wait (AFiber 0) 8 0 false None 0 demo2.
Definition demo_run : State :=
  with_ctl (AThread 0) (Calling (vx_wake_all 8)) (set_mem (<[8 := 1]> (mem demo3)) demo3).

Lemma demo_step1 : step demo_agents None init demo1.
Proof. apply (step_spawn demo_agents 0 init); [by right; left|done]. Qed.
Lemma demo_step2 : step demo_agents None demo1 demo2.
Proof. by apply (step_pop demo_agents demo1 demo2). Qed.
Lemma demo_step3 : step demo_agents None demo2 demo3.
Proof. apply (step_wait demo_agents (AFiber 0) 8 0 false None None 0 demo2); [by right; left|done]. Qed.
Lemma demo_step4 : step demo_agents None demo3 demo_run.
Proof. apply (step_change demo_agents (AThread 0) 8 1 demo3); [by left|done]. Qed.

Lemma demo_reach : reach demo_agents 4 demo_run.
Proof.
  change 4 with (0 + 1 + 1 + 1 + 1).
  eapply reach_step; [|exact demo_step4]. eapply reach_step; [|exact demo_step3].
  eapply reach_step; [|exact demo_step2]. eapply reach_step; [apply reach_init|exact demo_step1].
Qed.

Lemma no_lost_wake_witness :
  (0%nat, 8) ∈ w_fibers (table demo_run (bucket 8)) /\ fiber_wake_to_come demo_run (bucket 8) 8.
Proof.
  destruct (proj1 (no_lost_wake demo_agents 4 demo_run demo_reach) 0%nat 8 0 false eq_refl)
    as [[Hin [[Hm _]|Hw]]|[[a Ha]|[[a Ha]|[Hf _]]]].
  - by vm_compute in Hm.
  - done.
  - assert (hand (ctl demo_run a) = []) as E by (by destruct a as [[|f]|[|t]|]). rewrite E in Ha. by apply elem_of_nil in Ha.
  - assert (pushing (ctl demo_run a) = None) as E by (by destruct a as [[|f]|[|t]|]). congruence.
  - by vm_compute in Hf.
Defined.
