(* ===== verification/WaitLive.v ===== *)
(** * Every wake arrives

    Infinite runs of the system of [Wait] in which a thread of control that has
    something of its own to do does it some time.  In such a run a fiber whose
    word no longer has its value, or whose wait was cancelled, gets on the ready
    queue, whatever the interleaving. *)

From stdpp Require Import base list functions gmap relations.
From Stdlib Require Import ZArith Lia.
From S2P Require Import Prelude Wait WaitSound.
Open Scope Z_scope.

(** ** Steps of others *)

(** Busy with a park or a wake. *)
Definition at_work (c : Control) : bool :=
  match c with
  | Calling _ | Notify _ _ _ | Waking _ _ | Pushing _ _ _ | Arming _ _ _ _ | Parking _ _ _ => true
  | _ => false
  end.

Lemma at_work_busy c : at_work c = true -> busy c = true.
Proof. by destruct c. Qed.

Lemma wait_other a word value oc deadline now s a' :
  a' <> a -> ctl (wait a word value oc deadline now s) a' = ctl s a'.
Proof.
  intros Hne. unfold wait. repeat case_match; try done; cbn; fn_lookup; try done;
    unfold start_sleep; by destruct a.
Qed.

Lemma wait_fstate a word value oc deadline now s f :
  a <> AFiber f -> fstate (wait a word value oc deadline now s) f = fstate s f.
Proof.
  intros Hne. unfold wait.
  destruct (negb _ || _); [done|]. destruct (match deadline with Some d => _ | None => _ end); [done|].
  unfold fiber_that_can_park. destruct a as [g| |]; cbn; [destruct (Nat.eqb _ _)|..]; try (destruct deadline; done).
  cbn. by fn_lookup.
Qed.

(** The control and the state word of the fibers that a step of [a] leaves alone. *)
Lemma advance_other a s s' a' : sound s -> go_on a s = Returns s' -> a' <> a -> at_work (ctl s a') = true ->
  ctl s' a' = ctl s a'.
Proof.
  intros Hs. unfold go_on. intros Hadv Hne Hw.
  destruct (ctl s a) as [| | |w v oc d|w v oc|w v oc|w v oc seen n|todo|b taken todo|taken todo|f taken todo] eqn:Hc;
    try (by injection Hadv as <-); try (injection Hadv as <-; cbn; by fn_lookup).
  - destruct a as [f| |]; try done. injection Hadv as <-. unfold run_parked.
    destruct (fstate s f); cbn; by fn_lookup.
  - destruct seen as [seen|], n; try (by injection Hadv as <-); try (injection Hadv as <-; cbn; by fn_lookup).
    destruct (end_sleep a (bucket w) seen s) as [s1|] eqn:E; cbn in Hadv; [|done]. injection Hadv as <-. cbn. fn_lookup.
    by destruct (end_sleep_frame _ _ _ _ _ E) as (_ & -> & _).
  - destruct todo as [|[b which] todo]; [injection Hadv as <-; cbn; by fn_lookup|].
    unfold wake_under_the_lock in Hadv. destruct (take_fibers _ _). injection Hadv as <-. cbn. fn_lookup.
    unfold sleep_ended. by destruct (0 <? _).
  - injection Hadv as <-. cbn. fn_lookup. by destruct (ctl s a').
  - destruct taken as [|f taken]; [injection Hadv as <-; cbn; by fn_lookup|].
    unfold sched_wake in Hadv. destruct (fstate s f); try done; injection Hadv as <-; cbn; by fn_lookup.
  - injection Hadv as <-. cbn. destruct (decide (a' = AFiber f)) as [->|]; [|by fn_lookup].
    destruct Hs as (loc & Hl & _). assert (loc f = InPush a) as Hloc by (apply Hl; by rewrite Hc).
    pose proof (lc_agrees _ _ Hl f) as Ha. rewrite Hloc in Ha. destruct Ha as [(w & v & oc & E) _]. by rewrite E in Hw.
Qed.

Lemma step_other agents l s s' a : sound s -> step agents l s s' -> l <> Some a -> at_work (ctl s a) = true ->
  ctl s' a = ctl s a.
Proof.
  intros Hs Hstep Hl Hw.
  assert (forall x c, ctl s x = c -> at_work c = false -> a <> x) as Hx by (intros x c <- ? ->; congruence).
  destruct Hstep as [b s s' _ Hb|b word value s _ Hc|b group s _ Hc|b w f1 l1 f2 l2 s _ Hc|b site s _ Hc
    |b word value oc own dd now s _ Hc|b s _ Hc|b s s' _ Hc He|f s _ Hc|s s' Hpop|f s _ Hc|s s' Hlv|t s _ Hc|t s _ Hc
    |b word value oc seen s Hc|deadline word before after s Hc Hh]; open_step f rest Hr; try done;
    try (pose proof (Hx _ _ Hc eq_refl); cbn; by fn_lookup).
  - eapply advance_other; [done|done|congruence|done].
  - apply wait_other. by apply (Hx _ _ Hc).
  - assert (a <> AFiber f) as Hne.
    { destruct Hs as (loc & Hlc & _). pose proof (lc_agrees _ _ Hlc f) as Ha.
      assert (loc f = InQueue) as E by (apply Hlc; rewrite Hr; by left). rewrite E in Ha. by apply (Hx _ Ready). }
    cbn. by fn_lookup.
Qed.

(** The queue loses a fiber only when a worker takes it. *)
Lemma push_ready_elem f s : f ∈ ready (push_ready f s).
Proof. cbn. apply elem_of_app. right. by left. Qed.

(** A fiber that parks keeps its wait until it is on the queue. *)
Lemma step_parks agents l s s' f p : sound s -> step agents l s s' -> parks (ctl s (AFiber f)) = Some p ->
  parks (ctl s' (AFiber f)) = Some p \/ f ∈ ready s'.
Proof.
  intros Hs Hstep Hp.
  assert (forall x c, ctl s x = c -> parks c = None -> AFiber f <> x) as Hx by (intros x c <- ? <-; congruence).
  destruct Hstep as [b s s' _ Hb|b word value s _ Hc|b group s _ Hc|b w f1 l1 f2 l2 s _ Hc|b site s _ Hc
    |b word value oc own dd now s _ Hc|b s _ Hc|b s s' _ Hc He|g s _ Hc|s s' Hpop|g s _ Hc|s s' Hlv|t s _ Hc|t s _ Hc
    |b word value oc seen s Hc|deadline word before after s Hc Hh]; open_step g rest Hr; try (by left);
    try (pose proof (Hx _ _ Hc eq_refl); left; cbn; by fn_lookup).
  - unfold go_on in Hb.
    destruct (ctl s b) as [| | |w v oc d|w v oc|w v oc|w v oc seen n|todo|bk taken todo|taken todo|g taken todo] eqn:Hc;
      try (injection Hb as <-; by left);
      try (destruct (decide (b = AFiber f)) as [->|Hne]; [rewrite Hc in Hp; done|]).
    + injection Hb as <-. left. cbn. destruct (decide (b = AFiber f)) as [->|Hne]; fn_lookup; [|done]. by rewrite Hc in Hp.
    + destruct b as [g| |]; try done. injection Hb as <-. unfold run_parked.
      destruct (decide (g = f)) as [->|Hne].
      * destruct (fstate s f); [right; apply push_ready_elem| |right; apply push_ready_elem|right; apply push_ready_elem].
        left. cbn. fn_lookup. by rewrite Hc in Hp.
      * left. destruct (fstate s g); cbn; by fn_lookup.
    + left. destruct seen as [seen|], n; try (by injection Hb as <-); try (injection Hb as <-; cbn; by fn_lookup).
      destruct (end_sleep b (bucket w) seen s) as [s1|] eqn:E; cbn in Hb; [|done]. injection Hb as <-. cbn. fn_lookup.
      by destruct (end_sleep_frame _ _ _ _ _ E) as (_ & -> & _).
    + left. destruct todo as [|[bk which] todo]; [injection Hb as <-; cbn; by fn_lookup|].
      unfold wake_under_the_lock in Hb. destruct (take_fibers _ _). injection Hb as <-. cbn. fn_lookup.
      unfold sleep_ended. by destruct (0 <? _).
    + left. injection Hb as <-. cbn. fn_lookup. by destruct (ctl s (AFiber f)).
    + left. destruct taken as [|g taken]; [injection Hb as <-; cbn; by fn_lookup|].
      unfold sched_wake in Hb. destruct (fstate s g); try done; injection Hb as <-; cbn; by fn_lookup.
    + injection Hb as <-. destruct (decide (g = f)) as [->|Hgf].
      * right. cbn. apply elem_of_app. right. by left.
      * left. cbn. by fn_lookup.
  - left. rewrite wait_other; [done|]. by apply (Hx _ _ Hc).
  - left. assert (f <> g) as Hne.
    { intros ->. destruct Hs as (loc & Hlc & _). pose proof (lc_agrees _ _ Hlc g) as Ha.
      assert (loc g = InQueue) as E by (apply Hlc; rewrite Hr; by left). rewrite E in Ha. cbn in Ha. by rewrite Ha in Hp. }
    cbn. by fn_lookup.
Qed.

(** A fiber that a wake reached while it was parking stays woken until it acts. *)
Lemma step_woken agents l s s' f : sound s -> step agents l s s' -> l <> Some (AFiber f) ->
  at_work (ctl s (AFiber f)) = true -> is_Some (parks (ctl s (AFiber f))) -> fstate s f = WOKEN -> fstate s' f = WOKEN.
Proof.
  intros Hs Hstep Hl Hw Hp Hst.
  assert (forall x c, ctl s x = c -> at_work c = false -> AFiber f <> x) as Hx by (intros x c <- ? <-; congruence).
  destruct Hstep as [b s s' _ Hb|b word value s _ Hc|b group s _ Hc|b w f1 l1 f2 l2 s _ Hc|b site s _ Hc
    |b word value oc own dd now s _ Hc|b s _ Hc|b s s' _ Hc He|g s _ Hc|s s' Hpop|g s _ Hc|s s' Hlv|t s _ Hc|t s _ Hc
    |b word value oc seen s Hc|deadline word before after s Hc Hh]; open_step g rest Hr; try done.
  - unfold go_on in Hb. assert (b <> AFiber f) as Hne by congruence.
    destruct (ctl s b) as [| | |w v oc d|w v oc|w v oc|w v oc seen n|todo|bk taken todo|taken todo|g taken todo] eqn:Hc;
      try (by injection Hb as <-).
    + destruct b as [g| |]; try done. injection Hb as <-. unfold run_parked. destruct (fstate s g); cbn; by fn_lookup.
    + destruct seen as [seen|], n; try (by injection Hb as <-).
      destruct (end_sleep b (bucket w) seen s) as [s1|] eqn:E; cbn in Hb; [|done]. injection Hb as <-. cbn.
      by destruct (end_sleep_frame _ _ _ _ _ E) as (_ & _ & -> & _).
    + destruct todo as [|[bk which] todo]; [by injection Hb as <-|].
      unfold wake_under_the_lock in Hb. destruct (take_fibers _ _). injection Hb as <-. cbn.
      unfold sleep_ended. by destruct (0 <? _).
    + destruct taken as [|g taken]; [by injection Hb as <-|].
      assert (f <> g) as Hfg.
      { intros ->. destruct Hs as (loc & Hlc & _). pose proof (lc_agrees _ _ Hlc g) as Ha.
        assert (loc g = InHand b) as E by (apply Hlc; rewrite Hc; by left). rewrite E in Ha. destruct Ha as [_ Ha].
        rewrite Hst in Ha. by destruct (ctl s (AFiber g)). }
      unfold sched_wake in Hb. destruct (fstate s g); try done; injection Hb as <-; cbn; by fn_lookup.
  - rewrite wait_fstate; [done|]. intros ->. by apply (Hx _ _ Hc).
  - assert (f <> g) by (intros ->; by apply (Hx _ _ Hc)). cbn. by fn_lookup.
  - assert (f <> g) as Hne.
    { intros ->. destruct Hs as (loc & Hlc & _). pose proof (lc_agrees _ _ Hlc g) as Ha.
      assert (loc g = InQueue) as E by (apply Hlc; rewrite Hr; by left). rewrite E in Ha. cbn in Ha. by rewrite Ha in Hw. }
    cbn. by fn_lookup.
Qed.

(** ** Fair runs *)

(** An infinite run: the states and who acts in each step. *)
Record is_run (agents : list Agent) (tr : nat -> State) (lab : nat -> option Agent) : Prop := {
  run_start : tr 0%nat = init;
  run_next : forall n, step agents (lab n) (tr n) (tr (S n));
}.

(** Who has something of its own to do does it some time. *)
Definition fair (tr : nat -> State) (lab : nat -> option Agent) : Prop :=
  forall n a, busy (ctl (tr n) a) = true -> exists m, (n <= m)%nat /\ lab m = Some a.

Section live.
Context (agents : list Agent) (tr : nat -> State) (lab : nat -> option Agent).
Context (Hrun : is_run agents tr lab) (Hfair : fair tr lab).

Lemma run_reach n : reach agents (Z.of_nat n) (tr n).
Proof.
  induction n as [|n IH]; [rewrite (run_start _ _ _ Hrun); apply reach_init|].
  rewrite Nat2Z.inj_succ, <- Z.add_1_r. eapply reach_step; [exact IH|]. apply Hrun.
Qed.

Lemma run_sound n : sound (tr n).
Proof. eapply sound_reach, run_reach. Qed.

(** What happens from [n] on. *)
Definition eventually (P : State -> Prop) (n : nat) : Prop := exists m, (n <= m)%nat /\ P (tr m).

Lemma eventually_later P n m : (n <= m)%nat -> eventually P m -> eventually P n.
Proof. intros Hle (k & ? & ?). exists k. split; [lia|done]. Qed.

(** Some time [a] acts, in the control it has now; until then [I] is kept if
    the steps of others keep it. *)
Lemma acts a n (I : State -> Prop) :
  at_work (ctl (tr n) a) = true -> I (tr n) ->
  (forall k, (n <= k)%nat -> lab k <> Some a -> at_work (ctl (tr k) a) = true -> I (tr k) -> I (tr (S k))) ->
  exists m, (n <= m)%nat /\ lab m = Some a /\ ctl (tr m) a = ctl (tr n) a /\ I (tr m).
Proof.
  intros Hw HI Hkeep. destruct (Hfair n a (at_work_busy _ Hw)) as (m & Hle & Hm).
  assert (forall d k, (n <= k)%nat -> (k + d = m)%nat -> ctl (tr k) a = ctl (tr n) a -> I (tr k) ->
    exists m, (n <= m)%nat /\ lab m = Some a /\ ctl (tr m) a = ctl (tr n) a /\ I (tr m)) as Hgo.
  { induction d as [|d IH]; intros k Hk Hd Hc HIk; [replace k with m in * by lia; by exists m|].
    destruct (decide (lab k = Some a)) as [E|E]; [by exists k|].
    apply (IH (S k)); [lia|lia| |].
    - rewrite <- Hc. eapply step_other; [apply run_sound|apply Hrun|done|by rewrite Hc].
    - apply Hkeep; [done|done|by rewrite Hc|done]. }
  apply (Hgo (m - n)%nat n); [lia|lia|done|done].
Qed.

Lemma acts_step a m : lab m = Some a -> go_on a (tr m) = Returns (tr (S m)).
Proof.
  intros Hm. pose proof (run_next _ _ _ Hrun m) as Hs. rewrite Hm in Hs. inversion Hs; subst. done.
Qed.

(** [a] acts some time, in the control it has now. *)
Lemma acts_simply a n : at_work (ctl (tr n) a) = true ->
  exists m, (n <= m)%nat /\ ctl (tr m) a = ctl (tr n) a /\ go_on a (tr m) = Returns (tr (S m)).
Proof.
  intros Hw. destruct (acts a n (fun _ => True) Hw I) as (m & Hle & Hm & Hc & _); [done|].
  exists m. split_and!; [done|done|by apply acts_step].
Qed.

Abbreviation queued f := (fun s => f ∈ ready s).

Lemma pushing_queued f a n : pushing (ctl (tr n) a) = Some f -> eventually (queued f) n.
Proof.
  intros Hp. destruct (ctl (tr n) a) as [| | | | | | | | | |g taken todo] eqn:Hc; try done. injection Hp as ->.
  destruct (acts_simply a n) as (m & Hle & Hcm & Hadv); [by rewrite Hc|]. rewrite Hc in Hcm.
  exists (S m). split; [lia|]. unfold go_on in Hadv. rewrite Hcm in Hadv. injection Hadv as <-. cbn.
  apply elem_of_app. right. by left.
Qed.

Lemma parking_queued f n w v oc :
  ctl (tr n) (AFiber f) = Parking w v oc -> fstate (tr n) f = WOKEN -> eventually (queued f) n.
Proof.
  intros Hc Hst. destruct (acts (AFiber f) n (fun s => fstate s f = WOKEN /\ ctl s (AFiber f) = Parking w v oc))
    as (m & Hle & Hm & Hcm & Hw & _).
  - by rewrite Hc.
  - done.
  - intros k Hk Hl Hat [Hs Hck]. split.
    + eapply step_woken; [apply run_sound|apply Hrun|done|done|by rewrite Hck|done].
    + rewrite <- Hck. eapply step_other; [apply run_sound|apply Hrun|done|done].
  - exists (S m). split; [lia|]. apply acts_step in Hm. unfold go_on in Hm. rewrite Hcm, Hc in Hm.
    injection Hm as <-. unfold run_parked. rewrite Hw. apply push_ready_elem.
Qed.

Lemma woken_queued f n :
  is_Some (parks (ctl (tr n) (AFiber f))) -> at_work (ctl (tr n) (AFiber f)) = true -> fstate (tr n) f = WOKEN ->
  eventually (queued f) n.
Proof.
  intros Hp Hat Hst. destruct (ctl (tr n) (AFiber f)) as [| | |w v oc d|w v oc| | | | | |] eqn:Hc; try done;
    [|by eapply parking_queued|by destruct Hp..].
  destruct (acts (AFiber f) n (fun s => fstate s f = WOKEN /\ ctl s (AFiber f) = Arming w v oc d))
    as (m & Hle & Hm & Hcm & Hw & _).
  - by rewrite Hc.
  - done.
  - intros k Hk Hl Hak [Hs Hck]. split.
    + eapply step_woken; [apply run_sound|apply Hrun|done|done|by rewrite Hck|done].
    + rewrite <- Hck. eapply step_other; [apply run_sound|apply Hrun|done|done].
  - apply acts_step in Hm. unfold go_on in Hm. rewrite Hcm, Hc in Hm. injection Hm as Hm.
    apply (eventually_later _ n (S m)); [lia|]. eapply (parking_queued f (S m) w v oc); rewrite <- Hm; cbn; [by fn_lookup|done].
Qed.

(** How much a waker still has to do before it makes its next wake. *)
Definition chores (c : Control) : nat :=
  match c with
  | Notify _ taken _ | Pushing _ taken _ => 2 * length taken + 2
  | Waking taken _ => 2 * length taken + 1
  | _ => 0
  end.

(** A waker on its way through its fibers. *)
Lemma chore_step a m c : (0 < chores c)%nat -> ctl (tr m) a = c -> go_on a (tr m) = Returns (tr (S m)) ->
  (chores (ctl (tr (S m)) a) < chores c)%nat /\ at_work (ctl (tr (S m)) a) = true /\
  wakes_to_make (ctl (tr (S m)) a) = wakes_to_make c /\
  forall f, f ∈ hand c -> f ∈ hand (ctl (tr (S m)) a) \/
    pushing (ctl (tr (S m)) a) = Some f \/
    (is_Some (parks (ctl (tr (S m)) (AFiber f))) /\ at_work (ctl (tr (S m)) (AFiber f)) = true /\ fstate (tr (S m)) f = WOKEN).
Proof.
  intros Hch Hc Hadv. unfold go_on in Hadv. rewrite Hc in Hadv.
  destruct c as [| | | | | | | |b taken todo|taken todo|g taken todo]; cbn in Hch; try lia.
  - injection Hadv as <-. cbn. fn_lookup. cbn. split_and!; [lia|done|done|auto].
  - destruct taken as [|g taken]; [injection Hadv as <-; cbn; fn_lookup; cbn; split_and!; [lia|done|done|]|].
    { intros f Hf. by apply elem_of_nil in Hf. }
    unfold sched_wake in Hadv. destruct (run_sound m) as (loc & Hl & _).
    assert (loc g = InHand a) as Hloc by (apply Hl; rewrite Hc; by left).
    pose proof (lc_agrees _ _ Hl g) as Hag. rewrite Hloc in Hag. destruct Hag as [Hpk Hun].
    assert (a <> AFiber g) as Hne by (intros ->; rewrite Hc in Hpk; by destruct Hpk).
    destruct (fstate (tr m) g) eqn:Est; try done; injection Hadv as <-; cbn; fn_lookup; cbn; (split_and!; [lia|done|done|]);
      intros f Hf; apply elem_of_cons in Hf as [->|Hf]; auto.
    right. right. fn_lookup. split_and!; [done| |done].
    destruct (ctl (tr m) (AFiber g)); try done; by destruct Hpk.
  - injection Hadv as <-. destruct (run_sound m) as (loc & Hl & _).
    cbn. fn_lookup. cbn. split_and!; [lia|done|done|auto].
Qed.

(** A fiber that a waker has in hand. *)
Lemma hand_queued f : forall k n a, (chores (ctl (tr n) a) <= k)%nat -> f ∈ hand (ctl (tr n) a) -> eventually (queued f) n.
Proof.
  induction k as [|k IH]; intros n a Hk Hf.
  { destruct (ctl (tr n) a); cbn in *; try lia; by apply elem_of_nil in Hf. }
  assert (at_work (ctl (tr n) a) = true /\ (0 < chores (ctl (tr n) a))%nat) as [Hat Hpos].
  { destruct (ctl (tr n) a); cbn in *; try (by apply elem_of_nil in Hf); split; (done || lia). }
  destruct (acts_simply a n Hat) as (m & Hle & Hcm & Hadv).
  destruct (chore_step a m _ Hpos Hcm Hadv) as (Hlt & _ & _ & Hkeep).
  apply (eventually_later _ n (S m)); [lia|].
  destruct (Hkeep f Hf) as [Hh|[Hp|(Hp & Hw & Hst)]].
  - apply (IH (S m) a); [lia|done].
  - by apply (pushing_queued f a).
  - by apply woken_queued.
Qed.

Lemma parks_until f p n m : (n <= m)%nat -> parks (ctl (tr n) (AFiber f)) = Some p ->
  parks (ctl (tr m) (AFiber f)) = Some p \/ eventually (queued f) n.
Proof.
  intros Hle Hp. induction Hle as [|m Hle [IH|IH]]; [by left| |by right].
  destruct (step_parks agents (lab m) (tr m) (tr (S m)) f p (run_sound m) (run_next _ _ _ Hrun m) IH); [by left|].
  right. exists (S m). split; [lia|done].
Qed.

(** A parked fiber, from where the invariant finds it. *)
Lemma reached_queued f n w v oc : parks (ctl (tr n) (AFiber f)) = Some (w, v, oc) ->
  (f, w) ∈ w_fibers (table (tr n) (bucket w)) \/ eventually (queued f) n.
Proof.
  intros Hp. destruct (parked_cases (tr n) f w v oc (run_sound n) Hp) as [[Hin _]|[[a Ha]|[[a Ha]|[Hst Hb]]]].
  - by left.
  - right. by apply (hand_queued f _ n a (le_n _)).
  - right. by apply (pushing_queued f a).
  - right. apply woken_queued; [by rewrite Hp| |done]. destruct (ctl (tr n) (AFiber f)); done.
Qed.

(** A wake to come takes the fiber. *)
Lemma todo_queued f w v oc which : names which w = true -> forall len k n a,
  (length (wakes_to_make (ctl (tr n) a)) <= len)%nat -> (chores (ctl (tr n) a) <= k)%nat ->
  (bucket w, which) ∈ wakes_to_make (ctl (tr n) a) -> parks (ctl (tr n) (AFiber f)) = Some (w, v, oc) ->
  eventually (queued f) n.
Proof.
  intros Hnm. induction len as [|len IHl]; [intros k|induction k as [|k IHk]]; intros n a Hlen Hk Hin Hp.
  { destruct (wakes_to_make (ctl (tr n) a)); [by apply elem_of_nil in Hin|cbn in Hlen; lia]. }
  - destruct (ctl (tr n) a) as [| | | | | | |[|[b which'] todo]|b taken todo|taken todo|g taken todo] eqn:Hc;
      cbn in Hin, Hk; try lia; try (by apply elem_of_nil in Hin).
    destruct (acts_simply a n) as (m & Hle & Hcm & Hadv); [by rewrite Hc|]. rewrite Hc in Hcm.
    destruct (parks_until f _ n m Hle Hp) as [Hpm|]; [|done].
    destruct (reached_queued f m w v oc Hpm) as [Hlist|]; [|by apply (eventually_later _ n m)].
    destruct (parks_until f _ n (S m) ltac:(lia) Hp) as [Hpm'|]; [|done].
    apply (eventually_later _ n (S m)); [lia|].
    unfold go_on in Hadv. rewrite Hcm in Hadv.
    destruct (wake_under_the_lock b which' (progress_made (tr m))) as [taken s1] eqn:E. injection Hadv as Hadv.
    assert (ctl (tr (S m)) a = Notify b taken todo) as Hca by (rewrite <- Hadv; cbn; by fn_lookup).
    apply elem_of_cons in Hin as [[= <- <-]|Hin].
    + apply (hand_queued f _ (S m) a (le_n _)). rewrite Hca. cbn.
      unfold wake_under_the_lock, take_fibers in E. injection E as <- _.
      apply list_elem_of_fmap. exists (f, w). split; [done|]. by apply list_elem_of_filter.
    + apply (IHl (chores (ctl (tr (S m)) a)) (S m) a); [rewrite Hca; cbn in *; lia|done|by rewrite Hca|done].
  - destruct (decide (chores (ctl (tr n) a) <= k)%nat) as [Hle|Hgt]; [by apply (IHk n a)|].
    assert (at_work (ctl (tr n) a) = true) as Hat by (destruct (ctl (tr n) a); cbn in Hgt |- *; done || lia).
    destruct (acts_simply a n Hat) as (m & Hle & Hcm & Hadv).
    destruct (chore_step a m (ctl (tr n) a) ltac:(lia) Hcm Hadv) as (Hlt & _ & Hw & _).
    destruct (parks_until f _ n (S m) ltac:(lia) Hp) as [Hpm|]; [|done].
    apply (eventually_later _ n (S m)); [lia|].
    apply (IHk (S m) a); [by rewrite Hw|lia|by rewrite Hw|done].
Qed.

Lemma changed_queued f n w v oc : parks (ctl (tr n) (AFiber f)) = Some (w, v, oc) ->
  ~ still (tr n) (AFiber f) w v oc -> eventually (queued f) n.
Proof.
  intros Hp Hns. destruct (parked_cases (tr n) f w v oc (run_sound n) Hp) as [[_ [Hs|Hw]]|Hrest]; [done| |].
  - destruct Hw as (c & which & Hin & Hnm). by eapply (todo_queued f w v oc which Hnm _ _ n c (le_n _) (le_n _)).
  - destruct Hrest as [[a Ha]|[[a Ha]|[Hst Hb]]].
    + by apply (hand_queued f _ n a (le_n _)).
    + by apply (pushing_queued f a).
    + apply woken_queued; [by rewrite Hp| |done]. destruct (ctl (tr n) (AFiber f)); done.
Qed.
End live.

(** C8. Every wake arrives.  In a run where each thread of control that has a
    wake, a park or a return to finish does its next step some time, a fiber
    that parks, or is parked, on a word that no longer has the value it waits
    for, or whose wait was cancelled, is on the ready queue some time later,
    however the steps interleave and whichever other wakes come between. *)
Theorem wake_arrives agents tr lab f n w v oc :
  is_run agents tr lab -> fair tr lab ->
  parks (ctl (tr n) (AFiber f)) = Some (w, v, oc) -> ~ (mem (tr n) w = v /\ (oc = true -> cancelled (tr n) (AFiber f) = false)) ->
  exists m, (n <= m)%nat /\ f ∈ ready (tr m).
Proof. intros Hr Hf Hp Hs. by apply (changed_queued agents tr lab Hr Hf f n w v oc). Qed.

(** ** A fair run *)

(** The run of [demo_run] goes on: the main thread makes its wake while the
    fiber has not switched yet, the worker finds it woken and puts it on the
    queue, and then the main thread only says what it will wait for. *)
Definition act (a : Agent) (s : State) : State := match go_on a s with Returns s' => s' | Panics => s end.

Definition does_return {A} (r : outcome A) : bool := match r with Returns _ => true | Panics => false end.

Lemma act_step agents a s : busy (ctl s a) = true -> does_return (go_on a s) = true -> step agents (Some a) s (act a s).
Proof. intros Hb Hd. apply step_advance; [done|]. unfold act. by destruct (go_on a s). Qed.

Definition demo4 : State := act (AThread 0) demo_run.
Definition demo5 : State := act (AThread 0) demo4.
Definition demo6 : State := act (AThread 0) demo5.
Definition demo7 : State := act (AThread 0) demo6.
Definition demo8 : State := act (AThread 0) demo7.
Definition demo_last : State := act (AFiber 0) demo8.

Definition demo_prefix : list (State * option Agent) :=
  [(init, None); (demo1, None); (demo2, None); (demo3, None); (demo_run, Some (AThread 0)); (demo4, Some (AThread 0));
   (demo5, Some (AThread 0)); (demo6, Some (AThread 0)); (demo7, Some (AThread 0)); (demo8, Some (AFiber 0))].

Definition demo_say (s : State) : State := vx_waiting_for (AThread 0) 0 0 0 0 0 s.

Definition demo_tr (n : nat) : State :=
  match demo_prefix !! n with Some (s, _) => s | None => Nat.iter (n - 10) demo_say demo_last end.
Definition demo_lab (n : nat) : option Agent :=
  match demo_prefix !! n with Some (_, l) => l | None => None end.

Lemma demo_tail_ctl k : ctl (Nat.iter k demo_say demo_last) = ctl demo_last.
Proof. induction k as [|k IH]; [done|]. exact IH. Qed.

Lemma demo_tail n : (10 <= n)%nat -> demo_tr n = Nat.iter (n - 10) demo_say demo_last /\ demo_lab n = None.
Proof.
  intros Hn. unfold demo_tr, demo_lab. assert (demo_prefix !! n = None) as -> by (apply lookup_ge_None_2; cbn; lia). done.
Qed.

Lemma demo_is_run : is_run demo_agents demo_tr demo_lab.
Proof.
  split; [done|]. intros n. destruct (decide (10 <= n)%nat) as [Hn|Hn].
  - destruct (demo_tail n Hn) as [-> ->]. destruct (demo_tail (S n)) as [-> _]; [lia|].
    replace (S n - 10)%nat with (S (n - 10)) by lia. rewrite Nat.iter_succ. apply step_say; [by left|].
    by rewrite demo_tail_ctl.
  - destruct n as [|[|[|[|[|[|[|[|[|[|n]]]]]]]]]]; [..|lia].
    + exact demo_step1.
    + exact demo_step2.
    + exact demo_step3.
    + exact demo_step4.
    + change (step demo_agents (Some (AThread 0)) demo_run demo4). by apply act_step; vm_compute.
    + change (step demo_agents (Some (AThread 0)) demo4 demo5). by apply act_step; vm_compute.
    + change (step demo_agents (Some (AThread 0)) demo5 demo6). by apply act_step; vm_compute.
    + change (step demo_agents (Some (AThread 0)) demo6 demo7). by apply act_step; vm_compute.
    + change (step demo_agents (Some (AThread 0)) demo7 demo8). by apply act_step; vm_compute.
    + change (step demo_agents (Some (AFiber 0)) demo8 demo_last). by apply act_step; vm_compute.
Qed.

Lemma demo_fair : fair demo_tr demo_lab.
Proof.
  intros n a Hb. destruct (decide (10 <= n)%nat) as [Hn|Hn].
  - destruct (demo_tail n Hn) as [E _]. rewrite E, demo_tail_ctl in Hb. by destruct a as [[|f]|[|t]|].
  - destruct a as [[|f]|[|t]|].
    + exists 9%nat. split; [lia|done].
    + exfalso. destruct n as [|[|[|[|[|[|[|[|[|[|n]]]]]]]]]]; [..|lia]; by vm_compute in Hb.
    + exists 8%nat. split; [|done]. destruct n as [|[|[|[|[|[|[|[|[|[|n]]]]]]]]]]; try lia; by vm_compute in Hb.
    + exfalso. destruct n as [|[|[|[|[|[|[|[|[|[|n]]]]]]]]]]; [..|lia]; by vm_compute in Hb.
    + exfalso. destruct n as [|[|[|[|[|[|[|[|[|[|n]]]]]]]]]]; [..|lia]; by vm_compute in Hb.
Qed.

Lemma wake_arrives_witness : exists m, (4 <= m)%nat /\ 0%nat ∈ ready (demo_tr m).
Proof.
  apply (wake_arrives demo_agents demo_tr demo_lab 0 4 8 0 false demo_is_run demo_fair); [reflexivity|].
  intros [Hm _]. by vm_compute in Hm.
Defined.
