(* ===== verification/WaitCount.v ===== *)
(** * The counts of the deadlock watcher

    The lists and counters of [Wait] agree with where the threads of control
    are: who sleeps with no time limit and no wake came is on the list of the
    bucket, has a note there and is counted once; who runs on a worker is
    counted in [running].  So the ends of a sleep never miss their entries, and
    the watcher sees a stuck program exactly when nobody can go on.

    The number of wakes of a bucket is kept in 64 bits; the theorems are about
    runs of fewer than 2^64 steps, in which it does not wrap around. *)

From stdpp Require Import base list functions gmap relations.
From Stdlib Require Import ZArith Lia.
From S2P Require Import Prelude Wait WaitSound.
Open Scope Z_scope.

(** ** Views of a thread of control *)

(** A sleep with no time limit: its word, and the wakes of the bucket it saw. *)
Definition sleeps (c : Control) : option (Z * Z) :=
  match c with Asleep w _ _ (Some seen) _ => Some (w, seen) | _ => None end.

Definition on_worker (c : Control) : bool :=
  match c with Gone | Ready | Parked _ _ _ => false | _ => true end.

Definition alive (c : Control) : bool := match c with Gone => false | _ => true end.

Definition is_fiber (a : Agent) : bool := match a with AFiber _ => true | _ => false end.
Definition is_thread (a : Agent) : bool := match a with AThread _ => true | _ => false end.

(** Asleep in bucket [b], and no wake of it came since. *)
Definition sleeping_in (s : State) (b : nat) (a : Agent) : bool :=
  match sleeps (ctl s a) with
  | Some (w, seen) => Nat.eqb (bucket w) b && (seen =? w_wakes (table s b))
  | None => false
  end.

Definition registered (s : State) (a : Agent) : bool :=
  match sleeps (ctl s a) with
  | Some (w, seen) => seen =? w_wakes (table s (bucket w))
  | None => false
  end.

Definition b2z (b : bool) : Z := if b then 1 else 0.

Section counting.
Context (agents : list Agent) (Hnd : NoDup agents) (Htimer : (ATimer ∉ agents)).

(** The agents of a kind, and how many they are. *)
Definition those (p : Agent -> bool) : list Agent := filter (fun a => p a = true) agents.
Definition count (p : Agent -> bool) : Z := Z.of_nat (length (those p)).

Lemma those_split a : a ∈ agents -> exists rest : list Agent, (a ∉ rest) /\
  forall p, those p ≡ₚ (if p a then [a] else []) ++ filter (fun x => p x = true) rest.
Proof.
  intros Ha. apply list_elem_of_split in Ha as (l1 & l2 & E). exists (l1 ++ l2). split.
  - rewrite E in Hnd. apply NoDup_app in Hnd as (_ & H1 & H2%NoDup_cons). rewrite elem_of_app.
    intros [Hin|Hin]; [by apply (H1 a Hin); left|by destruct H2].
  - intros p. unfold those. rewrite E, !filter_app, filter_cons. destruct (p a) eqn:Ep.
    + rewrite decide_True by done. cbn. by rewrite Permutation_middle.
    + rewrite decide_False by done. done.
Qed.

Lemma filter_same {A} (p q : A -> bool) (l : list A) : (forall x, x ∈ l -> p x = q x) ->
  filter (fun x => p x = true) l = filter (fun x => q x = true) l.
Proof.
  induction l as [|x l IH]; intros H; [done|]. rewrite !filter_cons, (H x) by (by left).
  rewrite IH; [done|]. intros y Hy. apply H. by right.
Qed.

(** Only [a] may differ. *)
Lemma those_change p q a : a ∈ agents -> (forall x, x <> a -> p x = q x) -> exists l,
  those p ≡ₚ (if p a then [a] else []) ++ l /\ those q ≡ₚ (if q a then [a] else []) ++ l.
Proof.
  intros Ha Hpq. destruct (those_split a Ha) as (rest & Hn & Hr). exists (filter (fun x => p x = true) rest).
  split; [apply Hr|]. rewrite (filter_same p q rest); [apply Hr|]. intros x Hx. apply Hpq. congruence.
Qed.

Lemma those_same p q : (forall x, x ∈ agents -> p x = q x) -> those p = those q.
Proof. intros H. by apply filter_same. Qed.

Lemma count_same p q : (forall x, x ∈ agents -> p x = q x) -> count p = count q.
Proof. intros H. unfold count. by rewrite (those_same p q). Qed.

Lemma count_change p q a : (a ∈ agents \/ p a = q a) -> (forall x, x <> a -> p x = q x) ->
  count q = count p + b2z (q a) - b2z (p a).
Proof.
  intros Ha Hpq. destruct (decide (a ∈ agents)) as [Hin|Hout].
  - destruct (those_change p q a Hin Hpq) as (l & Hp & Hq). unfold count. rewrite Hp, Hq, !length_app.
    destruct (p a), (q a); cbn; lia.
  - destruct Ha as [|E]; [done|]. rewrite (count_same q p); [rewrite E; lia|].
    intros x Hx. destruct (decide (x = a)) as [->|]; [done|]. by rewrite Hpq.
Qed.

Lemma count_minus p q r : (forall x, x ∈ agents -> q x = p x && negb (r x)) ->
  (forall x, x ∈ agents -> r x = true -> p x = true) -> count q = count p - count r.
Proof.
  unfold count, those. clear Hnd Htimer. induction agents as [|x l IH]; intros Hq Hr; [done|].
  rewrite !filter_cons. rewrite (Hq x) by (by left). specialize (Hr x ltac:(by left)) as Hrx.
  assert (forall y, y ∈ l -> q y = p y && negb (r y)) as Hq' by (intros; apply Hq; by right).
  assert (forall y, y ∈ l -> r y = true -> p y = true) as Hr' by (intros y Hy; apply Hr; by right).
  specialize (IH Hq' Hr'). destruct (r x) eqn:Er.
  - rewrite Hrx by done. cbn [andb negb]. rewrite decide_False, !decide_True by done. cbn [length]. lia.
  - rewrite (decide_False (P := false = true)) by done. destruct (p x); cbn [andb negb].
    + rewrite !decide_True by done. cbn [length]. lia.
    + rewrite !decide_False by done. lia.
Qed.

Lemma those_none p : (forall x, x ∈ agents -> p x = false) -> those p = [].
Proof.
  intros H. unfold those. rewrite (filter_same p (fun _ => false) agents H). clear. induction agents; [done|]. by rewrite filter_cons.
Qed.

Lemma count_nonneg p : 0 <= count p.
Proof. unfold count. lia. Qed.

(** All of [p] are [q] when they are as many. *)
Lemma count_all p q : (forall x, x ∈ agents -> p x = true -> q x = true) -> count p = count q ->
  forall x, x ∈ agents -> q x = true -> p x = true.
Proof.
  intros Hpq Hc x Hx Hq. destruct (p x) eqn:Ep; [done|].
  assert (count (fun y => q y && negb (p y)) = count q - count p) as E by (apply count_minus; [done|auto]).
  rewrite Hc, Z.sub_diag in E. unfold count in E.
  assert (x ∈ those (fun y => q y && negb (p y))) as Hin.
  { unfold those. apply list_elem_of_filter. split; [|done]. by rewrite Hq, Ep. }
  destruct (those _); [by apply elem_of_nil in Hin|cbn in E; lia].
Qed.

(** ** The invariant *)

Record counted (n : Z) (s : State) : Prop := {
  ct_wakes : forall b, 0 <= w_wakes (table s b) <= n;
  ct_seen : forall a w seen, sleeps (ctl s a) = Some (w, seen) -> seen <= w_wakes (table s (bucket w));
  ct_member : forall a, alive (ctl s a) = true -> a ∈ agents \/ a = ATimer;
  ct_fiber : forall a, is_Some (parks (ctl s a)) -> is_fiber a = true;
  ct_timer : sleeps (ctl s ATimer) = None;
  ct_sleepers : forall b, w_sleepers (table s b) ≡ₚ those (fun a => is_thread a && sleeping_in s b a);
  ct_blocked : forall b, Z.of_nat (w_blocked (table s b)) = count (fun a => is_fiber a && sleeping_in s b a);
  ct_notes : forall b a, sleeping_in s b a = true -> OThread a ∈ note_owner <$> w_notes (table s b);
  ct_waiting : waiting (counters s) = count (fun a => is_thread a && registered s a);
  ct_all_blocked : blocked (counters s) = count (fun a => is_fiber a && registered s a);
  ct_running : running (counters s) = count (fun a => is_fiber a && on_worker (ctl s a)) + Z.of_nat (leaving (counters s));
  ct_threads : threads (counters s) = count (fun a => is_thread a && alive (ctl s a));
}.

Lemma sleeping_registered s b a : sleeping_in s b a = true -> registered s a = true.
Proof.
  unfold sleeping_in, registered. destruct (sleeps (ctl s a)) as [[w seen]|]; [|done].
  rewrite andb_true_iff, Nat.eqb_eq. by intros [-> ?].
Qed.

(** One thread of control changes, and its entries in the lists with it. *)
Lemma counted_one n s s' a c :
  counted n s -> (a ∈ agents \/ a = ATimer) -> (forall x, ctl s' x = <[a := c]> (ctl s) x) ->
  (forall b, w_wakes (table s' b) = w_wakes (table s b)) ->
  (forall w seen, sleeps c = Some (w, seen) -> seen <= w_wakes (table s (bucket w)) /\ a <> ATimer) ->
  (is_Some (parks c) -> is_fiber a = true) ->
  (forall b, exists l,
     w_sleepers (table s b) ≡ₚ (if is_thread a && sleeping_in s b a then [a] else []) ++ l /\
     w_sleepers (table s' b) ≡ₚ (if is_thread a && sleeping_in s' b a then [a] else []) ++ l) ->
  (forall b, Z.of_nat (w_blocked (table s' b)) = Z.of_nat (w_blocked (table s b)) +
     b2z (is_fiber a && sleeping_in s' b a) - b2z (is_fiber a && sleeping_in s b a)) ->
  (forall b o, o ∈ note_owner <$> w_notes (table s b) ->
     o <> OThread a \/ sleeping_in s' b a = true -> o ∈ note_owner <$> w_notes (table s' b)) ->
  (forall b, sleeping_in s' b a = true -> OThread a ∈ note_owner <$> w_notes (table s' b)) ->
  waiting (counters s') = waiting (counters s) +
    b2z (is_thread a && registered s' a) - b2z (is_thread a && registered s a) ->
  blocked (counters s') = blocked (counters s) +
    b2z (is_fiber a && registered s' a) - b2z (is_fiber a && registered s a) ->
  running (counters s') - Z.of_nat (leaving (counters s')) =
    running (counters s) - Z.of_nat (leaving (counters s)) +
    b2z (is_fiber a && on_worker c) - b2z (is_fiber a && on_worker (ctl s a)) ->
  threads (counters s') = threads (counters s) +
    b2z (is_thread a && alive c) - b2z (is_thread a && alive (ctl s a)) ->
  counted n s'.
Proof.
  intros [W1 W2 W3 W4 W5 W6 W7 W8 W9 W10 W11 W12] Ha Hc Hwk Hsl Hpk Hs Hbl Hno Hna Hw Hb Hrn Hth.
  assert (ctl s' a = c) as Ea by (rewrite Hc; by fn_lookup).
  assert (forall x, x <> a -> ctl s' x = ctl s x) as Ex by (intros x Hx; rewrite Hc; by fn_lookup).
  assert (forall b x, x <> a -> sleeping_in s' b x = sleeping_in s b x) as Ein.
  { intros b x Hx. unfold sleeping_in. by rewrite Ex, Hwk by done. }
  assert (forall x, x <> a -> registered s' x = registered s x) as Er.
  { intros x Hx. unfold registered. rewrite Ex by done. destruct (sleeps (ctl s x)) as [[w seen]|]; [|done]. by rewrite Hwk. }
  assert (forall k p q, (forall x, x <> a -> p x = q x) -> (k ATimer = false) ->
            count (fun x => k x && q x) = count (fun x => k x && p x) + b2z (k a && q a) - b2z (k a && p a)) as Hcount.
  { intros k p q Hpq Hk. rewrite (count_change (fun x => k x && p x) (fun x => k x && q x) a); [done| |].
    - destruct Ha as [Ha| ->]; [by left|right; by rewrite Hk].
    - intros x Hx. by rewrite Hpq. }
  split.
  - intros b. by rewrite Hwk.
  - intros x w seen. rewrite Hwk. destruct (decide (x = a)) as [->|]; [rewrite Ea; by intros [? _]%Hsl|rewrite Ex by done; apply W2].
  - intros x. destruct (decide (x = a)) as [->|]; [done|rewrite Ex by done; apply W3].
  - intros x. destruct (decide (x = a)) as [->|]; [by rewrite Ea|rewrite Ex by done; apply W4].
  - destruct (decide (ATimer = a)) as [<-|]; [|by rewrite Ex]. rewrite Ea. destruct (sleeps c) as [[w seen]|] eqn:E; [|done].
    by destruct (Hsl w seen eq_refl).
  - intros b. destruct (Hs b) as (l & H1 & ->). destruct Ha as [Ha| ->].
    + destruct (those_change (fun x => is_thread x && sleeping_in s b x) (fun x => is_thread x && sleeping_in s' b x) a Ha) as (l' & H2 & H3);
        [intros x Hx; by rewrite Ein|].
      rewrite H3. apply Permutation_app_head. rewrite W6, H2 in H1. by apply Permutation_app_inv_l in H1.
    + cbn [is_thread andb app] in *. rewrite <-H1, W6. apply reflexive_eq, those_same.
      intros x Hx. destruct (decide (x = ATimer)) as [->|]; [done|]. by rewrite Ein.
  - intros b. rewrite Hbl, W7. symmetry. apply (Hcount is_fiber (sleeping_in s b) (sleeping_in s' b)); [|done]. intros x Hx. by rewrite Ein.
  - intros b x Hx. destruct (decide (x = a)) as [->|]; [by apply Hna|].
    rewrite Ein in Hx by done. apply Hno; [by apply W8|left; congruence].
  - rewrite Hw, W9. symmetry. apply (Hcount is_thread (registered s) (registered s')); [|done]. intros x Hx. by rewrite Er.
  - rewrite Hb, W10. symmetry. apply (Hcount is_fiber (registered s) (registered s')); [|done]. intros x Hx. by rewrite Er.
  - rewrite (Hcount is_fiber (fun x => on_worker (ctl s x)) (fun x => on_worker (ctl s' x))); [|intros x Hx; by rewrite Ex|done].
    rewrite Ea. lia.
  - rewrite (Hcount is_thread (fun x => alive (ctl s x)) (fun x => alive (ctl s' x))); [|intros x Hx; by rewrite Ex|done].
    rewrite Ea. lia.
Qed.

(** One thread of control changes, and neither falls asleep nor wakes. *)
Lemma counted_run n s s' a c :
  counted n s -> (a ∈ agents \/ a = ATimer) -> (forall x, ctl s' x = <[a := c]> (ctl s) x) ->
  (forall b, w_wakes (table s' b) = w_wakes (table s b) /\ w_sleepers (table s' b) = w_sleepers (table s b) /\
     w_blocked (table s' b) = w_blocked (table s b) /\
     forall o, o ∈ note_owner <$> w_notes (table s b) -> o ∈ note_owner <$> w_notes (table s' b)) ->
  sleeps c = sleeps (ctl s a) -> (is_Some (parks c) -> is_fiber a = true) ->
  waiting (counters s') = waiting (counters s) -> blocked (counters s') = blocked (counters s) ->
  running (counters s') - Z.of_nat (leaving (counters s')) =
    running (counters s) - Z.of_nat (leaving (counters s)) +
    b2z (is_fiber a && on_worker c) - b2z (is_fiber a && on_worker (ctl s a)) ->
  threads (counters s') = threads (counters s) +
    b2z (is_thread a && alive c) - b2z (is_thread a && alive (ctl s a)) ->
  counted n s'.
Proof.
  intros HC Ha Hc Ht Hsl Hpk Hw Hb Hrn Hth.
  assert (sleeps (ctl s' a) = sleeps (ctl s a)) as Es by (rewrite Hc; by fn_lookup).
  assert (forall b, sleeping_in s' b a = sleeping_in s b a) as Ein.
  { intros b. unfold sleeping_in. rewrite Es. by destruct (Ht b) as (-> & _). }
  assert (registered s' a = registered s a) as Er.
  { unfold registered. rewrite Es. destruct (sleeps (ctl s a)) as [[w seen]|]; [|done]. by destruct (Ht (bucket w)) as (-> & _). }
  apply (counted_one n s s' a c); try done.
  - intros b. by destruct (Ht b).
  - intros w seen. rewrite Hsl. intros E. split; [by eapply ct_seen|]. intros ->. pose proof (ct_timer _ _ HC). congruence.
  - intros b. destruct (Ht b) as (_ & -> & _). rewrite Ein. pose proof (ct_sleepers _ _ HC b) as Hp. destruct Ha as [Ha| ->].
    + destruct (those_change (fun x => is_thread x && sleeping_in s b x) (fun x => is_thread x && sleeping_in s b x) a Ha) as (l & H1 & _); [done|].
      exists l. by rewrite Hp.
    + exists (w_sleepers (table s b)). done.
  - intros b. destruct (Ht b) as (_ & _ & -> & _). rewrite Ein. lia.
  - intros b o Ho _. by apply Ht.
  - intros b. rewrite Ein. intros Hx. by apply Ht, (ct_notes _ _ HC).
  - rewrite Er. lia.
  - rewrite Er. lia.
Qed.

Lemma counted_mono n n' s : n <= n' -> counted n s -> counted n' s.
Proof. intros Hn []. split; [|done..]. intros b. specialize (ct_wakes0 b). lia. Qed.

(** Nothing that is counted changes. *)
Lemma counted_view n s s' :
  counted n s ->
  (forall a, sleeps (ctl s' a) = sleeps (ctl s a) /\ parks (ctl s' a) = parks (ctl s a) /\
     on_worker (ctl s' a) = on_worker (ctl s a) /\ alive (ctl s' a) = alive (ctl s a)) ->
  table s' = table s -> waiting (counters s') = waiting (counters s) -> blocked (counters s') = blocked (counters s) ->
  threads (counters s') = threads (counters s) ->
  running (counters s') - Z.of_nat (leaving (counters s')) = running (counters s) - Z.of_nat (leaving (counters s)) ->
  counted n s'.
Proof.
  intros [W1 W2 W3 W4 W5 W6 W7 W8 W9 W10 W11 W12] Hc Ht Hw Hb Hth Hrn.
  assert (forall b x, sleeping_in s' b x = sleeping_in s b x) as Ein.
  { intros b x. unfold sleeping_in. destruct (Hc x) as (-> & _). by rewrite Ht. }
  assert (forall x, registered s' x = registered s x) as Er.
  { intros x. unfold registered. destruct (Hc x) as (-> & _). by rewrite Ht. }
  split; rewrite ?Ht, ?Hw, ?Hb, ?Hth; try done.
  - intros a w seen. destruct (Hc a) as (-> & _). apply W2.
  - intros a. destruct (Hc a) as (_ & _ & _ & ->). apply W3.
  - intros a. destruct (Hc a) as (_ & -> & _). apply W4.
  - by destruct (Hc ATimer) as (-> & _).
  - intros b. rewrite W6. apply reflexive_eq, those_same. intros x _. by rewrite Ein.
  - intros b. rewrite W7. apply count_same. intros x _. by rewrite Ein.
  - intros b a. rewrite Ein. apply W8.
  - rewrite W9. apply count_same. intros x _. by rewrite Er.
  - rewrite W10. apply count_same. intros x _. by rewrite Er.
  - rewrite (count_same _ (fun a => is_fiber a && on_worker (ctl s a))); [lia|].
    intros x _. by destruct (Hc x) as (_ & _ & -> & _).
  - rewrite W12. apply count_same. intros x _. by destruct (Hc x) as (_ & _ & _ & ->).
Qed.

Lemma counted_notify n s b : counted n s -> counted n (notify_all b s).
Proof.
  intros HC. apply (counted_view n s); [done| |done..]. intros a. cbn. destruct (ctl s a); try done.
  cbn. by destruct (Nat.eqb _ _).
Qed.

(** A wake takes everybody who sleeps in the bucket off the counts. *)
Lemma counted_wake n s b which taken s' :
  counted n s -> n + 1 < 2 ^ 64 -> wake_under_the_lock b which s = (taken, s') -> counted (n + 1) s'.
Proof.
  intros [W1 W2 W3 W4 W5 W6 W7 W8 W9 W10 W11 W12] Hn. unfold wake_under_the_lock, take_fibers. cbn zeta.
  unfold wrap_u. rewrite (Z.mod_small (w_wakes (table s b) + 1)) by (specialize (W1 b); lia). set (kept := filter (fun e : nat * Z => names which e.2 <> true) (w_fibers (table s b))). set (notes := keep_the_notes_of_parked_fibers _ _).
  intros [= _ E].
  assert (table s' = <[b := mkWaiters kept [] 0 (w_wakes (table s b) + 1) notes]> (table s)) as Et.
  { rewrite <-E. unfold sleep_ended. by destruct (_ <? _). }
  assert (ctl s' = ctl s) as Ec by (rewrite <-E; unfold sleep_ended; by destruct (_ <? _)).
  assert (counters s' = mkCounters (running (counters s)) (leaving (counters s))
            (blocked (counters s) - Z.of_nat (w_blocked (table s b)))
            (waiting (counters s) - Z.of_nat (length (w_sleepers (table s b)))) (threads (counters s)) (progress (counters s'))) as Ecn.
  { rewrite <-E. unfold sleep_ended. destruct (Z.ltb_spec 0 (Z.of_nat (length (w_sleepers (table s b))))); cbn; f_equal; lia. }
  clear E.
  assert (w_wakes (table s' b) = w_wakes (table s b) + 1) as Eb by (rewrite Et; by fn_lookup).
  assert (forall b', b' <> b -> table s' b' = table s b') as Eo by (intros b' Hb'; rewrite Et; by fn_lookup).
  assert (forall x, sleeping_in s' b x = false) as Ein.
  { intros x. unfold sleeping_in. rewrite Ec, Eb. destruct (sleeps (ctl s x)) as [[w seen]|] eqn:Es; [|done].
    apply W2 in Es. destruct (Nat.eqb_spec (bucket w) b) as [<-|]; [|done]. apply Z.eqb_neq. lia. }
  assert (forall b' x, b' <> b -> sleeping_in s' b' x = sleeping_in s b' x) as Ein'.
  { intros b' x Hb'. unfold sleeping_in. by rewrite Ec, Eo. }
  assert (forall x, registered s' x = registered s x && negb (sleeping_in s b x)) as Er.
  { intros x. unfold registered, sleeping_in. rewrite Ec. destruct (sleeps (ctl s x)) as [[w seen]|] eqn:Es; [|done].
    destruct (Nat.eqb_spec (bucket w) b) as [<-|Hw].
    - rewrite Eb. apply W2 in Es. cbn [andb]. destruct (Z.eqb_spec seen (w_wakes (table s (bucket w)))); cbn [negb andb]; apply Z.eqb_neq; lia.
    - by rewrite Eo, andb_true_r. }
  assert (forall k, count (fun x => k x && registered s' x) = count (fun x => k x && registered s x) - count (fun x => k x && sleeping_in s b x)) as Hm.
  { intros k. apply count_minus; intros x _.
    - rewrite Er. by destruct (k x).
    - destruct (k x); [|done]. apply sleeping_registered. }
  split.
  - intros b'. destruct (decide (b' = b)) as [->|]; [rewrite Eb|rewrite Eo by done]; [specialize (W1 b)|specialize (W1 b')]; lia.
  - intros a w seen. rewrite Ec. intros Hs%W2. destruct (decide (bucket w = b)) as [<-|]; [rewrite Eb|by rewrite Eo]; lia.
  - by rewrite Ec.
  - by rewrite Ec.
  - by rewrite Ec.
  - intros b'. destruct (decide (b' = b)) as [->|Hb'].
    + rewrite Et, fn_lookup_insert. cbn. by rewrite those_none by (intros x _; by rewrite Ein, andb_false_r).
    + rewrite Eo, W6 by done. apply reflexive_eq, those_same. intros x _. by rewrite Ein'.
  - intros b'. destruct (decide (b' = b)) as [->|Hb'].
    + rewrite Et, fn_lookup_insert. cbn. unfold count. by rewrite those_none by (intros x _; by rewrite Ein, andb_false_r).
    + rewrite Eo, W7 by done. apply count_same. intros x _. by rewrite Ein'.
  - intros b' x. destruct (decide (b' = b)) as [->|Hb']; [by rewrite Ein|]. rewrite Ein', Eo by done. apply W8.
  - rewrite Hm, <-W9, Ecn. cbn. rewrite W6. done.
  - rewrite Hm, <-W10, <-W7, Ecn. done.
  - rewrite Ecn, W11. cbn. f_equal. apply count_same. intros x _. by rewrite Ec.
  - rewrite Ecn, W12. cbn. apply count_same. intros x _. by rewrite Ec.
Qed.

(** Whether [a] sleeps in a bucket, from its control. *)
Lemma sleeping_in_none s b a : sleeps (ctl s a) = None -> sleeping_in s b a = false.
Proof. unfold sleeping_in. by intros ->. Qed.
Lemma registered_none s a : sleeps (ctl s a) = None -> registered s a = false.
Proof. unfold registered. by intros ->. Qed.

Lemma sleeping_in_asleep s b a w seen : sleeps (ctl s a) = Some (w, seen) ->
  sleeping_in s b a = Nat.eqb (bucket w) b && registered s a.
Proof.
  unfold sleeping_in, registered. intros ->. by destruct (Nat.eqb_spec (bucket w) b) as [<-|].
Qed.

(** [a] falls asleep with no time limit. *)
Lemma counted_sleep n s a note w v oc :
  counted n s -> a ∈ agents -> ctl s a = Run -> note_owner (note (OThread a)) = OThread a ->
  counted n (with_ctl a (Asleep w v oc (Some (w_wakes (table s (bucket w)))) false) (start_sleep a note (bucket w) s)).
Proof.
  intros HC Ha Hr Hn. assert (a <> ATimer) as Hat by congruence.
  set (c := Asleep _ _ _ _ _). set (s' := with_ctl a c _).
  assert (forall b, w_wakes (table s' b) = w_wakes (table s b)) as Hwk.
  { intros b. destruct (decide (bucket w = b)) as [<-|]; destruct a; cbn; by fn_lookup. }
  assert (registered s' a = true) as Hreg.
  { unfold registered. subst s'. rewrite with_ctl_same. cbn [sleeps c]. rewrite Hwk. apply Z.eqb_refl. }
  assert (forall b, sleeping_in s' b a = Nat.eqb (bucket w) b) as Hin.
  { intros b. rewrite (sleeping_in_asleep s' b a w (w_wakes (table s (bucket w)))); [by rewrite Hreg, andb_true_r|].
    subst s'. by rewrite with_ctl_same. }
  assert (forall b, sleeping_in s b a = false) as Hin0 by (intros b; apply sleeping_in_none; by rewrite Hr).
  assert (registered s a = false) as Hreg0 by (apply registered_none; by rewrite Hr).
  apply (counted_one n s s' a c); rewrite ?Hreg, ?Hreg0, ?Hr; try done.
  - by left.
  - intros x. subst s'. by destruct a.
  - intros w' seen [= <- <-]. done.
  - by intros [? [=]].
  - intros b. exists (w_sleepers (table s b)). rewrite Hin, Hin0, andb_false_r. split; [done|].
    destruct (Nat.eqb_spec (bucket w) b) as [<-|]; destruct a; cbn; fn_lookup; try done. cbn. by rewrite (Permutation_app_comm _ [_]).
  - intros b. rewrite Hin, Hin0, andb_false_r. destruct (Nat.eqb_spec (bucket w) b) as [<-|]; destruct a; cbn; fn_lookup; try done; cbn; lia.
  - intros b o Ho _. destruct (decide (bucket w = b)) as [<-|]; destruct a; cbn; fn_lookup; try done; cbn; rewrite fmap_app; by apply elem_of_app; left.
  - intros b. rewrite Hin. intros <-%Nat.eqb_eq. destruct a; cbn; fn_lookup; try done; cbn; rewrite fmap_app; apply elem_of_app; right; cbn; rewrite Hn; by left.
  - destruct a; cbn; try done; lia.
  - destruct a; cbn; try done; lia.
  - destruct a; cbn; try done; lia.
  - destruct a; cbn; try done; lia.
Qed.

(** A note of another owner stays. *)
Lemma other_note o i n (l : list Note) : l !! i = Some n -> o ∈ note_owner <$> l -> o <> note_owner n ->
  o ∈ note_owner <$> swap_remove i l.
Proof.
  intros Hi (m & -> & Hm)%list_elem_of_fmap Hne. apply list_elem_of_fmap_2. apply (elem_of_swap_remove _ _ n); [done..|congruence].
Qed.

(** [a] takes itself off the lists and the counts. *)
Lemma counted_off n s s' a w seen w' :
  counted n s -> a ∈ agents -> sleeps (ctl s a) = Some (w, seen) -> registered s a = true ->
  table s' = <[bucket w := w']> (table s) -> ctl s' = ctl s -> w_wakes w' = w_wakes (table s (bucket w)) ->
  w_sleepers (table s (bucket w)) ≡ₚ (if is_thread a then [a] else []) ++ w_sleepers w' ->
  Z.of_nat (w_blocked (table s (bucket w))) = Z.of_nat (w_blocked w') + b2z (is_fiber a) ->
  (forall o, o ∈ note_owner <$> w_notes (table s (bucket w)) -> o <> OThread a -> o ∈ note_owner <$> w_notes w') ->
  waiting (counters s') = waiting (counters s) - b2z (is_thread a) ->
  blocked (counters s') = blocked (counters s) - b2z (is_fiber a) ->
  running (counters s') = running (counters s) -> leaving (counters s') = leaving (counters s) ->
  threads (counters s') = threads (counters s) ->
  counted n (with_ctl a Run s').
Proof.
  intros HC Ha Hs Hreg Ht Hc Hwk Hsl Hbl Hno Hw Hb Hr Hl Hth.
  assert (a <> ATimer) as Hat by congruence. set (s2 := with_ctl a Run s').
  assert (forall b, sleeping_in s b a = Nat.eqb (bucket w) b) as Hin0.
  { intros b. by rewrite (sleeping_in_asleep s b a w seen), Hreg, andb_true_r. }
  assert (sleeps (ctl s2 a) = None) as Hs2 by (subst s2; by rewrite with_ctl_same).
  assert (forall b, sleeping_in s2 b a = false) as Hin by (intros b; by apply sleeping_in_none).
  assert (registered s2 a = false) as Hreg2 by by apply registered_none.
  assert (on_worker (ctl s a) = true /\ alive (ctl s a) = true) as [How Hal] by by destruct (ctl s a).
  apply (counted_one n s s2 a Run); rewrite ?Hreg, ?Hreg2, ?How, ?Hal, ?andb_false_r, ?andb_true_r; try done.
  - by left.
  - intros x. subst s2. cbn. by rewrite Hc.
  - intros b. subst s2. cbn. rewrite Ht. destruct (decide (bucket w = b)) as [<-|]; by fn_lookup.
  - by intros [? [=]].
  - intros b. rewrite Hin, Hin0, andb_false_r. subst s2. cbn. rewrite Ht. destruct (Nat.eqb_spec (bucket w) b) as [<-|]; fn_lookup.
    + exists (w_sleepers w'). by rewrite andb_true_r.
    + exists (w_sleepers (table s b)). by rewrite andb_false_r.
  - intros b. rewrite Hin, Hin0, andb_false_r. subst s2. cbn. rewrite Ht. destruct (Nat.eqb_spec (bucket w) b) as [<-|]; fn_lookup.
    + rewrite andb_true_r, Hbl. cbn [b2z]. lia.
    + rewrite andb_false_r. cbn [b2z]. lia.
  - intros b o Ho Hor. rewrite Hin in Hor. destruct Hor as [Hor|]; [|done]. subst s2. cbn. rewrite Ht.
    destruct (decide (bucket w = b)) as [<-|]; fn_lookup; auto.
  - intros b. by rewrite Hin.
  - subst s2. cbn. rewrite Hw. cbn [b2z]. lia.
  - subst s2. cbn. rewrite Hb. cbn [b2z]. lia.
  - subst s2. cbn. rewrite Hr, Hl. cbn [on_worker]. rewrite ?andb_true_r. lia.
  - subst s2. cbn. rewrite Hth. cbn [alive]. rewrite ?andb_true_r. lia.
Qed.

(** [a] returns from a sleep after a wake took its entries. *)
Lemma counted_woken n s a :
  counted n s -> a ∈ agents -> is_Some (sleeps (ctl s a)) -> registered s a = false -> counted n (with_ctl a Run s).
Proof.
  intros HC Ha [[w seen] Hs] Hreg. set (s2 := with_ctl a Run s).
  assert (forall b, sleeping_in s b a = false) as Hin0.
  { intros b. by rewrite (sleeping_in_asleep s b a w seen), Hreg, andb_false_r. }
  assert (sleeps (ctl s2 a) = None) as Hs2 by (subst s2; by rewrite with_ctl_same).
  assert (forall b, sleeping_in s2 b a = false) as Hin by (intros b; by apply sleeping_in_none).
  assert (registered s2 a = false) as Hreg2 by by apply registered_none.
  assert (on_worker (ctl s a) = true /\ alive (ctl s a) = true) as [How Hal] by by destruct (ctl s a).
  apply (counted_one n s s2 a Run); rewrite ?Hreg, ?Hreg2, ?How, ?Hal, ?andb_false_r, ?andb_true_r; try done.
  - by left.
  - by intros [? [=]].
  - intros b. exists (w_sleepers (table s b)). by rewrite Hin, Hin0, andb_false_r.
  - intros b. rewrite Hin, Hin0, andb_false_r. cbn. lia.
  - intros b. by rewrite Hin.
  - cbn. lia.
  - cbn. lia.
  - cbn. rewrite ?andb_true_r. lia.
  - cbn. rewrite ?andb_true_r. lia.
Qed.

(** [a] returns from a sleep with no time limit: it finds its entries, if no wake took them. *)
Lemma counted_end n s a w v oc seen :
  counted n s -> ctl s a = Asleep w v oc (Some seen) true -> exists s', end_sleep a (bucket w) seen s = Returns s' /\
    counted n (with_ctl a Run s') /\ mem s' = mem s /\ ctl s' = ctl s.
Proof.
  intros HC Hr. assert (a ∈ agents) as Ha.
  { destruct (ct_member _ _ HC a) as [| ->]; [by rewrite Hr|done|]. pose proof (ct_timer _ _ HC). by rewrite Hr in *. }
  assert (a <> ATimer) as Hat by congruence.
  assert (sleeps (ctl s a) = Some (w, seen)) as Hs by by rewrite Hr.
  assert (forall b, sleeping_in s b a = Nat.eqb (bucket w) b && registered s a) as Hin0 by (intros b; by eapply sleeping_in_asleep).
  unfold end_sleep. destruct (Z.eqb_spec (w_wakes (table s (bucket w))) seen) as [E|E].
  - assert (registered s a = true) as Hreg by (unfold registered; rewrite Hs; by apply Z.eqb_eq).
    assert (sleeping_in s (bucket w) a = true) as Hin by by rewrite Hin0, Nat.eqb_refl, Hreg.
    pose proof (ct_notes _ _ HC _ _ Hin) as (note & Eo & Hno)%list_elem_of_fmap.
    destruct (list_find_elem_of (fun n => note_owner n = OThread a) _ note Hno (eq_sym Eo)) as [[i m] Hf].
    rewrite Hf. apply list_find_Some in Hf as (Hi & Hm & _).
    assert (forall o, o ∈ note_owner <$> w_notes (table s (bucket w)) -> o <> OThread a ->
              o ∈ note_owner <$> swap_remove i (w_notes (table s (bucket w)))) as Hother.
    { intros o Ho Hne. apply (other_note o i m); [done..|congruence]. }
    destruct a as [f|t|]; [| |done].
    + pose proof (ct_blocked _ _ HC (bucket w)) as Hb. destruct (w_blocked (table s (bucket w))) as [|k] eqn:Ek.
      { assert (AFiber f ∈ those (fun a => is_fiber a && sleeping_in s (bucket w) a)) as Hx by (apply list_elem_of_filter; by rewrite Hin).
        unfold count in Hb. destruct (those _); [by apply elem_of_nil in Hx|]. cbn in Hb. lia. }
      eexists. split; [done|]. split; [|done]. eapply (counted_off n s _ (AFiber f) w seen); try done; cbn; rewrite ?Ek; cbn; try done; lia.
    + assert (AThread t ∈ w_sleepers (table s (bucket w))) as Hx.
      { rewrite (ct_sleepers _ _ HC). apply list_elem_of_filter. by rewrite Hin. }
      destruct (list_find_elem_of (fun x => x = AThread t) _ _ Hx eq_refl) as [[j x] Hf]. rewrite Hf.
      apply list_find_Some in Hf as (Hj & -> & _).
      eexists. split; [done|]. split; [|done]. eapply (counted_off n s _ (AThread t) w seen); try done; cbn; try done; try lia.
      by apply swap_remove_perm.
  - exists s. split; [done|]. split; [|done]. apply counted_woken; [done..| |].
    + by rewrite Hs.
    + unfold registered. rewrite Hs. apply Z.eqb_neq. congruence.
Qed.

(** [crun HC a c Hc] proves [counted] of a state in which [a], in the control of [Hc], goes to [c]. *)
Ltac crun HC a c Hc :=
  apply (counted_run _ _ _ a c HC);
  [ try (by left); try (by right)
  | intros ?; done
  | intros ?; by repeat split
  | by rewrite Hc
  | try (by intros [? [=]])
  | done
  | done
  | rewrite Hc; cbn; try destruct a; cbn; lia
  | rewrite Hc; cbn; try destruct a; cbn; lia ].

Lemma counted_agent n s a c : counted n s -> ctl s a = c -> alive c = true -> a ∈ agents \/ a = ATimer.
Proof. intros HC <-. apply (ct_member _ _ HC). Qed.

Lemma counted_wait n s a word value oc deadline now :
  counted n s -> a ∈ agents -> ctl s a = Run -> counted n (wait a word value oc deadline now s).
Proof.
  intros HC Ha Hr. unfold wait. set (s0 := set_said _ s).
  assert (counted n s0) as HC0 by by apply (counted_view n s). assert (ctl s0 a = Run) as Hr0 by done.
  destruct (_ || _); [done|]. destruct (match deadline with Some d => d <=? now | None => false end); [done|].
  destruct (fiber_that_can_park a s0) as [f|] eqn:Hf.
  - assert (a = AFiber f) as ->.
    { destruct a; cbn in Hf; try done. destruct (Nat.eqb _ _); congruence. }
    match goal with |- counted _ (with_ctl _ ?c _) => apply (counted_run n s0 _ (AFiber f) c HC0) end; rewrite ?Hr0; try done.
    + by left.
    + intros b. cbn. destruct (decide (bucket word = b)) as [<-|]; fn_lookup; cbn; repeat split; try done.
      intros o Ho. rewrite fmap_app. apply elem_of_app. by left.
    + by destruct deadline.
    + destruct deadline; cbn; lia.
    + destruct deadline; cbn; lia.
  - destruct deadline as [d|].
    + crun HC0 a (Asleep word value oc None false) Hr0.
    + by apply counted_sleep.
Qed.

Lemma wake_ctl b which s : ctl (wake_under_the_lock b which s).2 = ctl s.
Proof. unfold wake_under_the_lock, take_fibers, sleep_ended. cbn. by destruct (_ <? _). Qed.

Lemma counted_advance n s s' a :
  counted n s -> sound s -> n + 1 < 2 ^ 64 -> go_on a s = Returns s' -> counted (n + 1) s'.
Proof.
  intros HC (loc & Hl & _) Hn. assert (counted (n + 1) s) as HC' by (apply (counted_mono n); [lia|done]).
  unfold go_on. destruct (ctl s a) as [| | |w v oc d|w v oc|w v oc|w v oc [seen|] []|[|[b which] todo]|b taken todo|[|f taken] todo|f taken todo] eqn:Hc;
    try (by intros [= <-]).
  - intros [= <-]. assert (is_fiber a = true) as Hf by (apply (ct_fiber _ _ HC); rewrite Hc; by eexists).
    destruct (counted_agent _ _ _ _ HC Hc eq_refl) as [Ha| ->]; [|done]. crun HC' a (Parking w v oc) Hc.
  - destruct a as [f| |]; try done. intros [= <-]. destruct (counted_agent _ _ _ _ HC Hc eq_refl) as [Ha|]; [|done].
    apply counted_mono with n; [lia|]. unfold run_parked. destruct (fstate s f);
      [crun HC (AFiber f) Ready Hc|crun HC (AFiber f) (Parked w v oc) Hc|crun HC (AFiber f) Ready Hc|crun HC (AFiber f) Ready Hc].
  - destruct (counted_end _ _ _ _ _ _ _ HC' Hc) as (s1 & -> & HC1 & _). by intros [= <-].
  - intros [= <-]. destruct (counted_agent _ _ _ _ HC Hc eq_refl) as [Ha|Ha]; crun HC' a Run Hc.
  - intros [= <-]. destruct (counted_agent _ _ _ _ HC Hc eq_refl) as [Ha|Ha]; crun HC' a Run Hc.
  - destruct (wake_under_the_lock b which (progress_made s)) as [taken s1] eqn:Hw. intros [= <-].
    assert (counted n (progress_made s)) as HCp by by apply (counted_view n s).
    pose proof (counted_wake _ _ _ _ _ _ HCp Hn Hw) as HC1.
    assert (ctl s1 a = Calling ((b, which) :: todo)) as Hc1.
    { pose proof (wake_ctl b which (progress_made s)) as E. rewrite Hw in E. cbn in E. by rewrite E. }
    destruct (counted_agent _ _ _ _ HC Hc eq_refl) as [Ha|Ha]; crun HC1 a (Notify b taken todo) Hc1.
  - intros [= <-]. pose proof (counted_notify _ _ b HC') as HC1.
    assert (ctl (notify_all b s) a = Notify b taken todo) as Hc1 by (cbn; by rewrite Hc).
    destruct (counted_agent _ _ _ _ HC Hc eq_refl) as [Ha|Ha]; crun HC1 a (Waking taken todo) Hc1.
  - intros [= <-]. destruct (counted_agent _ _ _ _ HC Hc eq_refl) as [Ha|Ha]; crun HC' a (Calling todo) Hc.
  - unfold sched_wake. destruct (fstate s f); intros [= <-]; destruct (counted_agent _ _ _ _ HC Hc eq_refl) as [Ha|Ha];
      [crun HC' a (Waking taken todo) Hc|crun HC' a (Waking taken todo) Hc|crun HC' a (Pushing f taken todo) Hc|crun HC' a (Pushing f taken todo) Hc].
  - intros [= <-]. assert (loc f = InPush a) as Hloc by (apply Hl; by rewrite Hc).
    pose proof (lc_agrees _ _ Hl f) as Hag. rewrite Hloc in Hag. destruct Hag as [(w & v & oc & Hcf) _].
    assert (a <> AFiber f) as Hne by (intros ->; congruence).
    assert (counted (n + 1) (push_ready f s)) as HC1.
    { destruct (counted_agent _ _ _ _ HC Hcf eq_refl) as [Ha|]; [|done]. crun HC' (AFiber f) Ready Hcf. }
    assert (ctl (push_ready f s) a = Pushing f taken todo) as Hc1 by (cbn; by fn_lookup).
    destruct (counted_agent _ _ _ _ HC Hc eq_refl) as [Ha|Ha]; crun HC1 a (Waking taken todo) Hc1.
Qed.

Lemma counted_step n l s s' :
  counted n s -> sound s -> n + 1 < 2 ^ 64 -> step agents l s s' -> counted (n + 1) s'.
Proof.
  intros HC Hs Hn Hstep. destruct Hstep as [a s s' _ Ha|a word value s Ha Hc|a group s Ha Hc|a w f1 l1 f2 l2 s _ Hc|a site s _ Hc
    |a word value oc own dd now s Ha Hc|a s _ Hc|a s s' _ Hc He|f s Ha Hc|s s' Hpop|f s Ha Hc|s s' Hlv|t s Ha Hc|t s Ha Hc
    |a word value oc seen s Hc|deadline word before after s Hc Hh]; open_step f rest Hr; [by eapply counted_advance| | |
    try (apply counted_mono with n; [lia|]; by apply (counted_view n s))..];
    (apply counted_mono with n; [lia|]).
  - crun HC a (Calling (vx_wake_all word)) Hc.
  - crun HC a (Calling wake_every_thread) Hc.
  - by apply counted_wait.
  - crun HC (AFiber f) Ready Hc.
  - destruct Hs as (loc & Hl & _). assert (ctl s (AFiber f) = Ready) as Hc.
    { pose proof (lc_agrees _ _ Hl f) as Hag. assert (loc f = InQueue) as E by (apply Hl; rewrite Hr; by left). by rewrite E in Hag. }
    destruct (counted_agent _ _ _ _ HC Hc eq_refl) as [Ha|]; [|done]. crun HC (AFiber f) Run Hc.
  - crun HC (AFiber f) Gone Hc.
  - apply (counted_view n s); [done..|]. cbn. lia.
  - crun HC (AThread t) Run Hc.
  - crun HC (AThread t) Gone Hc.
  - destruct (counted_agent _ _ _ _ HC Hc eq_refl) as [Ha|Ha]; crun HC a (Asleep word value oc seen true) Hc.
  - crun HC ATimer (Calling (vx_wake_all word)) Hc.
Qed.

Context (Hmain : AThread 0 ∈ agents).

Lemma counted_init : counted 0 init.
Proof.
  assert (forall p : Agent -> bool, (forall a, p a = false) -> count p = 0) as Hz.
  { intros p Hp. unfold count. by rewrite those_none. }
  assert (forall a, sleeps (ctl init a) = None) as Hs by (intros [|[]|]; done).
  assert (forall k b, those (fun a => k a && sleeping_in init b a) = []) as Hin.
  { intros k b. apply those_none. intros x _. by rewrite sleeping_in_none, andb_false_r. }
  split; try done.
  - intros a w seen. by rewrite Hs.
  - intros [|[]|]; cbn; try done; [by left|by right].
  - intros [|[]|]; cbn; by intros [? [=]].
  - intros b. rewrite Hin. done.
  - intros b. unfold count. by rewrite Hin.
  - intros b a. by rewrite sleeping_in_none.
  - cbn. symmetry. apply Hz. intros a. by rewrite registered_none, andb_false_r.
  - cbn. symmetry. apply Hz. intros a. by rewrite registered_none, andb_false_r.
  - cbn. rewrite Hz; [done|]. by intros [].
  - cbn. rewrite (count_change (fun _ => false) _ (AThread 0)); [|by left|by intros [|[]|]]. by rewrite Hz.
Qed.

Lemma counted_reach n s : n < 2 ^ 64 -> reach agents n s -> counted n s.
Proof.
  intros Hn Hr. induction Hr as [|n l s s' Hr IH Hst]; [apply counted_init|].
  eapply counted_step; [apply IH; lia|by eapply sound_reach|done|done].
Qed.
End counting.
