(* ===== verification/WaitDeadlock.v ===== *)
(** * The runtime never panics, and the deadlock watcher is exact

    With the counts of [WaitCount]: no operation of the runtime meets the state
    in which it panics, and [stuck] holds exactly when every thread of control
    has ended or waits for a word that still has its value, with nobody left to
    change it. *)

From stdpp Require Import base list functions gmap relations.
From Stdlib Require Import ZArith Lia.
From S2P Require Import Prelude Wait WaitSound WaitCount.
Open Scope Z_scope.

(** A sleeper that no wake took off the lists waits for a word that still has
    its value, or a wake is to come. *)
Definition held (s : State) : Prop :=
  forall a w v oc seen notified, ctl s a = Asleep w v oc (Some seen) notified -> seen = w_wakes (table s (bucket w)) ->
    still s a w v oc \/ wake_to_come s (bucket w).

(** [a] waits, and nobody has taken it off the lists. *)
Definition waits_for (s : State) (a : Agent) (w v : Z) (oc : bool) : Prop :=
  ctl s a = Parked w v oc \/
  exists seen notified, ctl s a = Asleep w v oc (Some seen) notified /\ seen = w_wakes (table s (bucket w)).

(** ** What a step keeps *)

Lemma held_keep s s' : held s ->
  (forall x w v oc seen nt, ctl s' x = Asleep w v oc (Some seen) nt -> seen = w_wakes (table s' (bucket w)) ->
     (exists nt', ctl s x = Asleep w v oc (Some seen) nt' /\ seen = w_wakes (table s (bucket w))) \/ still s' x w v oc) ->
  (forall x w v oc, still s x w v oc -> still s' x w v oc \/ wake_to_come s' (bucket w)) ->
  (forall b, wake_to_come s b -> w_wakes (table s' b) = w_wakes (table s b) -> wake_to_come s' b) ->
  held s'.
Proof.
  intros Hh Ha Hst Hw x w v oc seen nt Hc Hs. destruct (Ha _ _ _ _ _ _ Hc Hs) as [(nt' & Hc0 & Hs0)|]; [|by left].
  destruct (Hh _ _ _ _ _ _ Hc0 Hs0) as [H|H]; [by apply Hst|]. right. apply Hw; [done|congruence].
Qed.

Lemma wake_to_come_ctl s s' a b : (forall x, x <> a -> ctl s' x = ctl s x) ->
  (forall e, e ∈ wakes_to_make (ctl s a) -> e ∈ wakes_to_make (ctl s' a)) -> wake_to_come s b -> wake_to_come s' b.
Proof.
  intros Hx Ha (c & which & Hc). exists c, which. destruct (decide (c = a)) as [->|]; [by apply Ha|by rewrite Hx].
Qed.

(** One thread of control changes; it does not fall asleep and no wake is dropped. *)
Lemma held_run s s' a c : held s -> (forall x, ctl s' x = <[a := c]> (ctl s) x) ->
  (forall b, w_wakes (table s' b) = w_wakes (table s b)) -> mem s' = mem s -> cancelled s' = cancelled s ->
  (forall e, e ∈ wakes_to_make (ctl s a) -> e ∈ wakes_to_make c) ->
  (forall w v oc seen nt, c = Asleep w v oc (Some seen) nt -> exists nt', ctl s a = Asleep w v oc (Some seen) nt') ->
  held s'.
Proof.
  intros Hh Hc Ht Hm Hcc Hwk Hsl. apply (held_keep s); [done|..].
  - intros x w v oc seen nt. rewrite Ht, Hc. intros E Hs. left. destruct (decide (a = x)) as [<-|]; revert E; fn_lookup; [|by eauto].
    intros E. destruct (Hsl _ _ _ _ _ E) as [nt' E']. eauto.
  - intros x w v oc [H1 H2]. left. split; [by rewrite Hm|by rewrite Hcc].
  - intros b Hw _. apply (wake_to_come_ctl s s' a); [|by rewrite Hc, fn_lookup_insert|done].
    intros x Hx. rewrite Hc. by fn_lookup.
Qed.

(** Nothing that [held] reads changes. *)
Lemma held_ext s s' : held s -> ctl s' = ctl s -> table s' = table s -> mem s' = mem s -> cancelled s' = cancelled s -> held s'.
Proof. unfold held, still, wake_to_come. by intros Hh -> -> -> ->. Qed.

(** ** Steps *)

(** [hrun Hh a c Hc] proves [held] of a state in which [a], in the control of [Hc], goes to [c]. *)
Ltac hrun Hh a c Hc :=
  apply (held_run _ _ a c Hh);
  [ done
  | done
  | done
  | done
  | rewrite Hc; cbn; intros ? He; first [exact He|by apply elem_of_nil in He]
  | first [done|intros ? ? ? ? ? [=]; subst; rewrite Hc; by eexists] ].

Lemma held_wait s a word value oc deadline now : held s -> ctl s a = Run -> held (wait a word value oc deadline now s).
Proof.
  intros Hh Hr. unfold wait. set (s0 := set_said _ s). assert (held s0) as Hh0 by by apply (held_ext s).
  assert (ctl s0 a = Run) as Hr0 by done.
  destruct (negb _ || _) eqn:Hst; [done|]. destruct (match deadline with Some d => d <=? now | None => false end); [done|].
  assert (still s0 a word value oc) as Hstill.
  { apply orb_false_iff in Hst as [H1%negb_false_iff%Z.eqb_eq H2]. split; [done|]. intros ->. by rewrite andb_true_l in H2. }
  destruct (fiber_that_can_park a s0) as [f|] eqn:Hf.
  - match goal with |- held (with_ctl _ ?c _) => apply (held_run s0 _ a c Hh0) end; try done.
    + intros b. cbn. destruct (decide (bucket word = b)) as [<-|]; by fn_lookup.
    + rewrite Hr0. intros e He. by apply elem_of_nil in He.
    + by destruct deadline.
  - destruct deadline as [d|]; [hrun Hh0 a (Asleep word value oc None false) Hr0|].
    set (s1 := start_sleep _ _ _ _).
    assert (mem s1 = mem s0 /\ cancelled s1 = cancelled s0 /\ ctl s1 = ctl s0) as (Hm & Hcc & Hct) by (subst s1; unfold start_sleep; by destruct a).
    assert (forall b, w_wakes (table s1 b) = w_wakes (table s0 b)) as Hwk.
    { intros b. subst s1. destruct (decide (bucket word = b)) as [<-|]; destruct a; cbn; by fn_lookup. }
    clearbody s1. apply (held_keep s0); [done|..].
    + intros x w v oc' seen nt. cbn. rewrite Hwk, Hct. destruct (decide (a = x)) as [<-|]; fn_lookup.
      * intros [= <- <- <- <- <-] _. right. unfold still. cbn. by rewrite Hm, Hcc.
      * eauto.
    + intros x w v oc' H. left. unfold still. cbn. by rewrite Hm, Hcc.
    + intros b Hw _. apply (wake_to_come_ctl s0 _ a); [| |done].
      * intros x Hx. cbn. rewrite Hct. by fn_lookup.
      * rewrite Hr0. intros e He. by apply elem_of_nil in He.
Qed.

Lemma held_notify s b : held s -> held (notify_all b s).
Proof.
  intros Hh. assert (forall c, wakes_to_make (notified_all b c) = wakes_to_make c) as Hw.
  { intros []; try done. cbn. by destruct (Nat.eqb _ _). }
  apply (held_keep s); [done|..].
  - intros x w v oc seen nt. cbn. destruct (ctl s x) as [| | | | | |w' v' oc' seen' nt'| | | |] eqn:Hc; try done.
    cbn. destruct (Nat.eqb _ _); intros [= -> -> -> -> _] ->; eauto.
  - by left.
  - intros b' (c & which & Hc) _. exists c, which. cbn. by rewrite Hw.
Qed.

Section deadlock.
Context (agents : list Agent) (Hnd : NoDup agents) (Htimer : (ATimer ∉ agents)) (Hmain : AThread 0 ∈ agents).

Lemma held_wake n s a b which todo taken s' :
  counted agents n s -> n + 1 < 2 ^ 64 -> held s -> ctl s a = Calling ((b, which) :: todo) ->
  wake_under_the_lock b which s = (taken, s') -> held (with_ctl a (Notify b taken todo) s').
Proof.
  intros HC Hn Hh Hc Hw.
  assert (ctl s' = ctl s) as Hct by (pose proof (wake_ctl b which s) as E; by rewrite Hw in E).
  assert (mem s' = mem s /\ cancelled s' = cancelled s /\ w_wakes (table s' b) = w_wakes (table s b) + 1 /\
    forall b', b' <> b -> table s' b' = table s b') as (Hm & Hcc & Hwb & Hwo).
  { pose proof (ct_wakes _ _ _ HC b). revert Hw. unfold wake_under_the_lock, take_fibers, sleep_ended, wrap_u. cbn.
    rewrite Z.mod_small by lia. destruct (_ <? _); intros [= _ <-]; repeat split; cbn; intros; by fn_lookup. }
  apply (held_keep s); [done|..]; cbn.
  - intros x w v oc seen nt. rewrite Hct. destruct (decide (a = x)) as [<-|]; fn_lookup; [done|]. intros E Hs. left. exists nt. split; [done|].
    destruct (decide (bucket w = b)) as [<-|]; [|by rewrite <-Hwo].
    pose proof (ct_seen _ _ _ HC x w seen ltac:(by rewrite E)). lia.
  - intros x w v oc [H1 H2]. left. split; cbn; [by rewrite Hm|by rewrite Hcc].
  - intros b' (c & wh & He) Hb'. assert (b' <> b) as Hne by (intros ->; lia). exists c, wh. cbn. rewrite Hct.
    destruct (decide (a = c)) as [<-|]; fn_lookup; [|done]. rewrite Hc in He. cbn in *. apply elem_of_cons in He as [[= ]|]; done.
Qed.

Lemma end_sleep_wakes s s' a b seen : end_sleep a b seen s = Returns s' ->
  forall b', w_wakes (table s' b') = w_wakes (table s b').
Proof.
  unfold end_sleep. intros E b'.
  assert (forall w, w_wakes w = w_wakes (table s b) -> w_wakes (<[b := w]> (table s) b') = w_wakes (table s b')) as Hw.
  { intros w Hw. destruct (decide (b' = b)) as [->|]; by fn_lookup. }
  repeat case_match; simplify_eq; cbn; try done; by apply Hw.
Qed.

Lemma held_advance n s s' a : counted agents n s -> sound s -> n + 1 < 2 ^ 64 -> held s -> go_on a s = Returns s' -> held s'.
Proof.
  intros HC (loc & Hl & _) Hn Hh. unfold go_on.
  destruct (ctl s a) as [| | |w v oc d|w v oc|w v oc|w v oc [seen|] []|[|[b which] todo]|b taken todo|[|f taken] todo|f taken todo] eqn:Hc;
    try (by intros [= <-]).
  - intros [= <-]. hrun Hh a (Parking w v oc) Hc.
  - destruct a as [f| |]; try done. intros [= <-]. unfold run_parked.
    destruct (fstate s f); [hrun Hh (AFiber f) Ready Hc|hrun Hh (AFiber f) (Parked w v oc) Hc|hrun Hh (AFiber f) Ready Hc|hrun Hh (AFiber f) Ready Hc].
  - destruct (end_sleep a (bucket w) seen s) as [s1|] eqn:He; [|done]. intros [= <-].
    pose proof (end_sleep_wakes _ _ _ _ _ He) as Hwk. apply end_sleep_frame in He as (_ & Hct & _ & _ & Hm & Hcc).
    apply (held_run s _ a Run Hh); [cbn; by rewrite Hct|done..| |done].
    rewrite Hc. intros e He. by apply elem_of_nil in He.
  - intros [= <-]. hrun Hh a Run Hc.
  - intros [= <-]. hrun Hh a Run Hc.
  - destruct (wake_under_the_lock b which (progress_made s)) as [taken s1] eqn:Hw. intros [= <-].
    eapply (held_wake n (progress_made s)); [|done|by apply (held_ext s)|done|done]. by eapply counted_view.
  - intros [= <-]. pose proof (held_notify _ b Hh) as Hh1.
    assert (ctl (notify_all b s) a = Notify b taken todo) as Hc1 by (cbn; by rewrite Hc). hrun Hh1 a (Waking taken todo) Hc1.
  - intros [= <-]. hrun Hh a (Calling todo) Hc.
  - unfold sched_wake. destruct (fstate s f); intros [= <-]; [hrun Hh a (Waking taken todo) Hc|hrun Hh a (Pushing f taken todo) Hc].
  - intros [= <-]. assert (loc f = InPush a) as Hloc by (apply Hl; by rewrite Hc).
    pose proof (lc_agrees _ _ Hl f) as Hag. rewrite Hloc in Hag. destruct Hag as [(w & v & oc & Hcf) _].
    assert (a <> AFiber f) as Hne by (intros ->; congruence).
    assert (held (push_ready f s)) as Hh1 by hrun Hh (AFiber f) Ready Hcf.
    assert (ctl (push_ready f s) a = Pushing f taken todo) as Hc1 by (cbn; by fn_lookup).
    hrun Hh1 a (Waking taken todo) Hc1.
Qed.

(** A change of words or marks, with the wakes that go with it. *)
Lemma held_announce s s' a todo : held s -> ctl s a = Run -> (forall x, ctl s' x = <[a := Calling todo]> (ctl s) x) -> table s' = table s ->
  (forall x w v oc, still s x w v oc -> still s' x w v oc \/ exists which, (bucket w, which) ∈ todo) -> held s'.
Proof.
  intros Hh Hr Hc Ht Hst. apply (held_keep s); [done|..].
  - intros x w v oc seen nt. rewrite Ht, Hc. intros E Hs. left. destruct (decide (a = x)) as [<-|]; revert E; fn_lookup; [done|by eauto].
  - intros x w v oc H. destruct (Hst _ _ _ _ H) as [|[which Hin]]; [by left|right]. exists a, which. rewrite Hc. by fn_lookup.
  - intros b Hw _. apply (wake_to_come_ctl s s' a); [|rewrite Hr; intros e He; by apply elem_of_nil in He|done].
    intros x Hx. rewrite Hc. by fn_lookup.
Qed.

Lemma held_step n l s s' : counted agents n s -> sound s -> n + 1 < 2 ^ 64 -> held s -> step agents l s s' -> held s'.
Proof.
  intros HC Hs Hn Hh Hstep. destruct Hstep as [a s s' _ Ha|a word value s Ha Hc|a group s Ha Hc|a w f1 l1 f2 l2 s _ Hc|a site s _ Hc
    |a word value oc own dd now s Ha Hc|a s _ Hc|a s s' _ Hc He|f s Ha Hc|s s' Hpop|f s Ha Hc|s s' Hlv|t s Ha Hc|t s Ha Hc
    |a word value oc seen s Hc|deadline word before after s Hc Ht]; open_step f rest Hr; try (by apply (held_ext s)).
  - by eapply held_advance.
  - apply (held_announce s _ a (vx_wake_all word)); try done. intros x w v oc [Hm Hcc]. destruct (decide (w = word)) as [->|].
    + right. exists (FOf word). by left.
    + left. split; cbn; [by fn_lookup|done].
  - apply (held_announce s _ a wake_every_thread); try done. intros x w v oc _. right. exists FAll.
    apply list_elem_of_fmap. exists (bucket w). split; [done|]. apply elem_of_seq. pose proof (bucket_lt w). lia.
  - by apply held_wait.
  - hrun Hh (AFiber f) Ready Hc.
  - destruct Hs as (loc & Hl & _). assert (ctl s (AFiber f) = Ready) as Hc.
    { pose proof (lc_agrees _ _ Hl f) as Hag. assert (loc f = InQueue) as E by (apply Hl; rewrite Hr; by left). by rewrite E in Hag. }
    hrun Hh (AFiber f) Run Hc.
  - hrun Hh (AFiber f) Gone Hc.
  - hrun Hh (AThread t) Run Hc.
  - hrun Hh (AThread t) Gone Hc.
  - hrun Hh a (Asleep word value oc seen true) Hc.
  - apply (held_announce s _ ATimer (vx_wake_all word)); try done. by left.
Qed.

Lemma held_reach n s : n < 2 ^ 64 -> reach agents n s -> held s.
Proof.
  intros Hn Hr. induction Hr as [|n l s s' Hr IH Hst]; [by intros [|[]|]|].
  eapply held_step; [apply (counted_reach agents Hnd Htimer Hmain n s ltac:(lia) Hr)|by eapply sound_reach|done|apply IH; lia|done].
Qed.

(** ** The theorems *)

(** C10. The runtime never panics.  In every state that a run of fewer than 2^64
    steps reaches, whoever is inside an operation of the runtime can take its
    next step: a fiber that a wake took is parked or about to park, never
    running or woken twice; a sleeper that no wake took off the lists finds its
    note and its entry there, and the count that it takes itself off is not
    zero; only fibers park. *)
Theorem runtime_never_panics n s a : reach agents n s -> n < 2 ^ 64 -> busy (ctl s a) = true ->
  exists s', go_on a s = Returns s'.
Proof.
  intros Hr Hn Hb. pose proof (counted_reach agents Hnd Htimer Hmain n s Hn Hr) as HC.
  destruct (sound_reach _ _ _ Hr) as (loc & Hl & _). unfold go_on.
  destruct (ctl s a) as [| | |w v oc d|w v oc|w v oc|w v oc [seen|] []|[|[b which] todo]|b taken todo|[|f taken] todo|f taken todo] eqn:Hc;
    try done; try (by eexists).
  - assert (is_fiber a = true) as Hf by (apply (ct_fiber _ _ _ HC); rewrite Hc; by eexists). destruct a; [by eexists|done..].
  - destruct (counted_end agents Hnd Htimer _ _ _ _ _ _ _ HC Hc) as (s1 & -> & _). by eexists.
  - assert (loc f = InHand a) as Hloc by (apply Hl; rewrite Hc; by left).
    pose proof (lc_agrees _ _ Hl f) as Hag. rewrite Hloc in Hag. destruct Hag as [_ Hst].
    unfold sched_wake. rewrite Hst. destruct (ctl s (AFiber f)); by eexists.
Qed.

Lemma registered_waits s a : registered s a = true <->
  exists w v oc seen nt, ctl s a = Asleep w v oc (Some seen) nt /\ seen = w_wakes (table s (bucket w)).
Proof.
  unfold registered. split.
  - destruct (ctl s a) as [| | | | | |w v oc [seen|] nt| | | |]; try done. cbn. intros ->%Z.eqb_eq. eauto 10.
  - intros (w & v & oc & seen & nt & -> & ->). cbn. by apply Z.eqb_refl.
Qed.

Lemma registered_on_worker s a : registered s a = true -> on_worker (ctl s a) = true /\ alive (ctl s a) = true.
Proof. by intros (w & v & oc & seen & nt & -> & _)%registered_waits. Qed.

(** The counters say that all are blocked exactly when all are. *)
Lemma all_blocked_counts n s : counted agents n s ->
  (running (counters s) = blocked (counters s) <->
     leaving (counters s) = 0%nat /\ forall f, AFiber f ∈ agents -> on_worker (ctl s (AFiber f)) = true -> registered s (AFiber f) = true) /\
  (waiting (counters s) = threads (counters s) <->
     forall t, AThread t ∈ agents -> alive (ctl s (AThread t)) = true -> registered s (AThread t) = true).
Proof.
  intros HC. rewrite (ct_running _ _ _ HC), (ct_all_blocked _ _ _ HC), (ct_waiting _ _ _ HC), (ct_threads _ _ _ HC).
  set (pf := fun x => is_fiber x && registered s x). set (qf := fun x => is_fiber x && on_worker (ctl s x)).
  set (pt := fun x => is_thread x && registered s x). set (qt := fun x => is_thread x && alive (ctl s x)).
  assert (forall x, x ∈ agents -> pf x = true -> qf x = true) as Hf.
  { intros x _. subst pf qf. cbn. rewrite !andb_true_iff. intros [H1 H2%registered_on_worker]. naive_solver. }
  assert (forall x, x ∈ agents -> pt x = true -> qt x = true) as Ht.
  { intros x _. subst pt qt. cbn. rewrite !andb_true_iff. intros [H1 H2%registered_on_worker]. naive_solver. }
  assert (count agents (fun x => qf x && negb (pf x)) = count agents qf - count agents pf) as Hm by by apply count_minus.
  pose proof (count_nonneg agents (fun x => qf x && negb (pf x))) as Hge. split; split.
  - intros E. assert (count agents pf = count agents qf) as Eq by lia. split; [lia|].
    intros f Hin Hw. by apply (count_all agents pf qf Hf Eq (AFiber f)).
  - intros [-> Hall]. rewrite (count_same agents qf pf); [lia|]. intros [f| |] Hin; try done. specialize (Hall f Hin). subst pf qf. cbn in *.
    destruct (on_worker (ctl s (AFiber f))) eqn:E; [by rewrite Hall|]. symmetry. apply not_true_iff_false. intros [H _]%registered_on_worker. congruence.
  - intros E t Hin Hw. by apply (count_all agents pt qt Ht E (AThread t)).
  - intros Hall. apply count_same. intros [|t|] Hin; try done. specialize (Hall t Hin). subst pt qt. cbn in *.
    destruct (alive (ctl s (AThread t))) eqn:E; [by rewrite Hall|]. apply not_true_iff_false. intros [_ H]%registered_on_worker. congruence.
Qed.

Lemma stuck_shape n s : counted agents n s -> sound s ->
  stuck false s = true <->
  leaving (counters s) = 0%nat /\ ctl s ATimer = Run /\ heap s = [] /\
  forall a, a ∈ agents -> ctl s a = Gone \/ exists w v oc, waits_for s a w v oc.
Proof.
  intros HC (loc & Hl & _). destruct (all_blocked_counts n s HC) as [Hrun Hthr].
  unfold stuck, all_parked, timer_pending. rewrite !andb_true_iff, !negb_true_iff, orb_false_iff, negb_false_iff, !bool_decide_eq_true, !Z.eqb_eq.
  rewrite Hrun, Hthr. split.
  - intros ((((Hready & Hlv & Hf) & Ht) & Hheap & Htm) & _). split; [done|]. split; [by destruct (ctl s ATimer)|]. split; [done|].
    intros a Ha. assert (registered s a = true -> exists w v oc, waits_for s a w v oc) as Hreg.
    { intros (w & v & oc & seen & nt & H1 & H2)%registered_waits. exists w, v, oc. right. eauto. }
    destruct a as [f|t|]; [| |done].
    + destruct (on_worker (ctl s (AFiber f))) eqn:How; [right; by apply Hreg, Hf|].
      destruct (ctl s (AFiber f)) eqn:Hc; try done; [by left| |right; do 3 eexists; by left].
      assert (f ∈ ready s) as Hin.
      { apply Hl. pose proof (lc_agrees _ _ Hl f) as Hag. rewrite Hc in Hag.
        destruct (loc f); [by destruct Hag as [? _]|by destruct Hag as [(? & ? & [=]) _]|by destruct Hag as [[? [=]] _]
          |by destruct Hag as [(? & ? & ? & [=]) _]|done]. }
      rewrite Hready in Hin. by apply elem_of_nil in Hin.
    + destruct (alive (ctl s (AThread t))) eqn:Hal; [right; by apply Hreg, Ht|left; by destruct (ctl s (AThread t))].
  - intros (Hlv & Htm & Hheap & Hall).
    assert (forall a, a ∈ agents -> alive (ctl s a) = true -> registered s a = true \/ exists w v oc, ctl s a = Parked w v oc) as Hw.
    { intros a Ha Hal. destruct (Hall a Ha) as [E|(w & v & oc & [E|(seen & nt & H1 & H2)])]; [by rewrite E in Hal|right; eauto|left].
      apply registered_waits. eauto 10. }
    rewrite Htm. repeat split; try done.
    + destruct (ready s) as [|f rest] eqn:Hr; [done|]. assert (loc f = InQueue) as E by (apply Hl; rewrite Hr; by left).
      pose proof (lc_agrees _ _ Hl f) as Hc. rewrite E in Hc. cbn in Hc.
      destruct (counted_agent _ _ _ _ _ HC Hc eq_refl) as [Ha|]; [|done].
      destruct (Hw _ Ha ltac:(by rewrite Hc)) as [[H _]%registered_on_worker|(w & v & oc & H)]; rewrite Hc in H; done.
    + intros f Ha How. destruct (Hw (AFiber f) Ha) as [|(w & v & oc & H)]; [by destruct (ctl s (AFiber f))|done|by rewrite H in How].
    + intros t Ha Hal. destruct (Hw (AThread t) Ha Hal) as [|(w & v & oc & H)]; [done|].
      pose proof (ct_fiber _ _ _ HC (AThread t)) as Hf. rewrite H in Hf. discriminate Hf. by eexists.
Qed.

(** With nobody at work, who waits does so for a word that still has its value. *)
Lemma idle_still n s : counted agents n s -> sound s -> held s -> ctl s ATimer = Run ->
  (forall a, a ∈ agents -> ctl s a = Gone \/ exists w v oc, waits_for s a w v oc) ->
  forall a w v oc, waits_for s a w v oc -> still s a w v oc.
Proof.
  intros HC Hs Hh Htm Hall a w v oc Hw.
  assert (forall c, wakes_to_make (ctl s c) = [] /\ hand (ctl s c) = [] /\ pushing (ctl s c) = None) as Hno.
  { intros c. destruct (alive (ctl s c)) eqn:Hal; [|by destruct (ctl s c)].
    destruct (ct_member _ _ _ HC c Hal) as [Ha| ->]; [|by rewrite Htm].
    destruct (Hall c Ha) as [-> |(w' & v' & oc' & [-> |(seen & nt & -> & _)])]; done. }
  assert (forall b, wake_to_come s b -> False) as Hnw.
  { intros b (c & which & Hin). destruct (Hno c) as (E & _). rewrite E in Hin. by apply elem_of_nil in Hin. }
  destruct Hw as [Hc|(seen & nt & Hc & Hseen)].
  - assert (is_fiber a = true) as Hf by (apply (ct_fiber _ _ _ HC); rewrite Hc; by eexists). destruct a as [f| |]; try done.
    destruct (parked_cases s f w v oc Hs ltac:(by rewrite Hc)) as [[_ [H|H%fiber_wake_is_wake]]|[[c Hin]|[[c Hin]|[_ Hb]]]].
    + done.
    + by apply Hnw in H.
    + destruct (Hno c) as (_ & E & _). rewrite E in Hin. by apply elem_of_nil in Hin.
    + destruct (Hno c) as (_ & _ & E). congruence.
    + by rewrite Hc in Hb.
  - destruct (Hh _ _ _ _ _ _ Hc Hseen) as [|H]; [done|]. by apply Hnw in H.
Qed.

(** C9. The deadlock watcher is exact.  With no socket waited for, the counters
    say that the program is stuck exactly when no worker is between two tasks,
    the timer is idle with no deadline left, and each thread and each task has
    ended or waits, with no time limit: parked, or asleep with no wake of its
    bucket since; and then the word it waits for still has the value it waits to
    see changed, and no cancel came for it.  So the watcher names no program in
    which a wake is on its way, and misses none in which all wait. *)
Theorem stuck_is_deadlock n s : reach agents n s -> n < 2 ^ 64 ->
  stuck false s = true <->
  leaving (counters s) = 0%nat /\ ctl s ATimer = Run /\ heap s = [] /\
  forall a, a ∈ agents -> ctl s a = Gone \/ exists w v oc, waits_for s a w v oc /\ still s a w v oc.
Proof.
  intros Hr Hn. pose proof (counted_reach agents Hnd Htimer Hmain n s Hn Hr) as HC. pose proof (sound_reach _ _ _ Hr) as Hs.
  pose proof (held_reach n s Hn Hr) as Hh. rewrite (stuck_shape n s HC Hs). split.
  - intros (Hlv & Htm & Hheap & Hall). split; [done|]. split; [done|]. split; [done|]. intros a Ha.
    destruct (Hall a Ha) as [|(w & v & oc & Hw)]; [by left|right]. exists w, v, oc. split; [done|]. by eapply idle_still.
  - intros (Hlv & Htm & Hheap & Hall). split; [done|]. split; [done|]. split; [done|]. intros a Ha.
    destruct (Hall a Ha) as [|(w & v & oc & Hw & _)]; [by left|right; eauto].
Qed.
End deadlock.

(** ** Witnesses *)

(** After [demo3] the task parks, its worker leaves it, and the main thread waits for another word. *)
Definition demo_parked : State := run_parked 0 8 0 false demo3.
Definition demo_left : State :=
  let c := counters demo_parked in
  set_counters (mkCounters (running c - 1) 0 (blocked c) (waiting c) (threads c) (progress c)) demo_parked.
Definition demo_stuck : State := wait (AThread 0) 16 0 false None 0 demo_left.

Lemma demo_park_step : step demo_agents (Some (AFiber 0)) demo3 demo_parked.
Proof. by apply (step_advance demo_agents (AFiber 0) demo3 demo_parked). Qed.
Lemma demo_leave_step : step demo_agents None demo_parked demo_left.
Proof. by apply (step_leave demo_agents demo_parked demo_left). Qed.
Lemma demo_main_step : step demo_agents None demo_left demo_stuck.
Proof. apply (step_wait demo_agents (AThread 0) 16 0 false None None 0 demo_left); [by left|done]. Qed.

Lemma demo_stuck_reach : reach demo_agents 6 demo_stuck.
Proof.
  change 6 with (0 + 1 + 1 + 1 + 1 + 1 + 1).
  eapply reach_step; [|exact demo_main_step]. eapply reach_step; [|exact demo_leave_step]. eapply reach_step; [|exact demo_park_step].
  eapply reach_step; [|exact demo_step3]. eapply reach_step; [|exact demo_step2]. eapply reach_step; [apply reach_init|exact demo_step1].
Qed.

Lemma demo_agents_NoDup : NoDup demo_agents.
Proof. by apply (bool_decide_eq_true_1 (NoDup demo_agents)). Qed.
Lemma demo_agents_timer : (ATimer ∉ demo_agents).
Proof. by apply (bool_decide_eq_true_1 (ATimer ∉ demo_agents)). Qed.

Lemma runtime_never_panics_witness : exists s', go_on (AThread 0) demo_run = Returns s'.
Proof.
  apply (runtime_never_panics demo_agents demo_agents_NoDup demo_agents_timer ltac:(by left) 4 demo_run (AThread 0) demo_reach); done.
Defined.

Lemma stuck_is_deadlock_witness : exists w v oc, waits_for demo_stuck (AFiber 0) w v oc /\ still demo_stuck (AFiber 0) w v oc.
Proof.
  pose proof (proj1 (stuck_is_deadlock demo_agents demo_agents_NoDup demo_agents_timer ltac:(by left) 6 demo_stuck demo_stuck_reach eq_refl)
                eq_refl) as (_ & _ & _ & H).
  destruct (H (AFiber 0) ltac:(by right; left)) as [E|Hw]; [by vm_compute in E|exact Hw].
Defined.
