(* ===== verification/Tasks.v ===== *)
(** * Blocks of tasks ([src/stdlib/rust_core/src/ffi/tasks.rs], [io.rs])

    What the runtime keeps for each task: its cancel mark, the scopes with a
    deadline it runs in, the line it prints and where it was spawned.  A task on
    a thread of its own keeps them in the variables of the thread; a fiber has
    them in its [TaskLocals] and swaps them with those of its worker while it
    runs.  Here the operations act on the [TaskLocals] of the task that calls
    them and on the state that all tasks share; [TasksSound] shows that the
    swaps give each fiber its own.

    A mark is its place in the list of all marks; a group, in the list of all
    groups.  Bytes are strings.  The waits themselves are in [Wait]: here a join
    goes on when its task has ended. *)

From stdpp Require Import base list strings.
From Stdlib Require Import ZArith Lia Ascii.
From S2P Require Import Prelude.
Open Scope Z_scope.
Open Scope vx_scope.

(** ** Data *)

Record CancelMark : Type := mkCancelMark { cm_set : bool; cm_parent : option nat }.

(** A scope with a deadline: a [drop], with the mark put aside, or a call of [within]. *)
Record Deadline : Type := mkDeadline { dl_mark : option nat; dl_at : Z; dl_drop : bool }.

(** [TaskLocals]; the innermost scope is first in [tl_put_aside]. *)
Record TaskLocals : Type := mkTaskLocals {
  tl_mark : option nat;
  tl_put_aside : list Deadline;
  tl_line : string;
  tl_to_stderr : bool;
  tl_site : option string;
  tl_cancels : Z;
}.

Definition TaskLocals_default : TaskLocals := mkTaskLocals None [] "" false None 0.

Definition with_mark x l := mkTaskLocals x (tl_put_aside l) (tl_line l) (tl_to_stderr l) (tl_site l) (tl_cancels l).
Definition with_put_aside x l := mkTaskLocals (tl_mark l) x (tl_line l) (tl_to_stderr l) (tl_site l) (tl_cancels l).
Definition with_line x l := mkTaskLocals (tl_mark l) (tl_put_aside l) x (tl_to_stderr l) (tl_site l) (tl_cancels l).
Definition with_to_stderr x l := mkTaskLocals (tl_mark l) (tl_put_aside l) (tl_line l) x (tl_site l) (tl_cancels l).
Definition with_cancels x l := mkTaskLocals (tl_mark l) (tl_put_aside l) (tl_line l) (tl_to_stderr l) (tl_site l) x.

(** A task of a group: who runs it, and the memory that holds what it copied. *)
Record Task : Type := mkTask { tk_agent : nat; tk_env : nat; tk_site : option string }.

Record VxTaskGroup : Type := mkGroup { gr_tasks : list Task; gr_mark : nat; gr_outer : option nat }.

(** What all tasks share.  [sh_out] and [sh_err] are the writes to standard output and error, each
    with the task that made it; [sh_ended] are the tasks that ended; [sh_locals] are the locals of
    the tasks that were started and do not run yet. *)
Record Shared : Type := mkShared {
  sh_marks : list CancelMark;
  sh_groups : list (option VxTaskGroup);
  sh_running : Z;
  sh_out : list (nat * string);
  sh_err : list (nat * string);
  sh_ended : list nat;
  sh_started : list TaskLocals;
  sh_freed : list nat;
}.

Definition with_marks x s := mkShared x (sh_groups s) (sh_running s) (sh_out s) (sh_err s) (sh_ended s) (sh_started s) (sh_freed s).
Definition with_groups x s := mkShared (sh_marks s) x (sh_running s) (sh_out s) (sh_err s) (sh_ended s) (sh_started s) (sh_freed s).
Definition with_running x s := mkShared (sh_marks s) (sh_groups s) x (sh_out s) (sh_err s) (sh_ended s) (sh_started s) (sh_freed s).
Definition with_out x s := mkShared (sh_marks s) (sh_groups s) (sh_running s) x (sh_err s) (sh_ended s) (sh_started s) (sh_freed s).
Definition with_err x s := mkShared (sh_marks s) (sh_groups s) (sh_running s) (sh_out s) x (sh_ended s) (sh_started s) (sh_freed s).
Definition with_ended x s := mkShared (sh_marks s) (sh_groups s) (sh_running s) (sh_out s) (sh_err s) x (sh_started s) (sh_freed s).
Definition with_started x s := mkShared (sh_marks s) (sh_groups s) (sh_running s) (sh_out s) (sh_err s) (sh_ended s) x (sh_freed s).
Definition with_freed x s := mkShared (sh_marks s) (sh_groups s) (sh_running s) (sh_out s) (sh_err s) (sh_ended s) (sh_started s) x.

(** ** Lines ([io.rs], module [lines]) *)

Definition newline : ascii := "010".

(** The text up to the last newline ([rposition]), and what is after it. *)
Fixpoint last_newline (s : string) : option (string * string) :=
  match s with
  | EmptyString => None
  | String c s =>
      match last_newline s with
      | Some (a, b) => Some (String c a, b)
      | None => if Ascii.eqb c newline then Some (String c EmptyString, s) else None
      end
  end.

Definition set_stderr (on : bool) (l : TaskLocals) : TaskLocals := with_to_stderr on l.

Definition write_out (who : nat) (text : string) (s : Shared) : Shared := with_out (sh_out s ++ [(who, text)]) s.

Definition flush (who : nat) (l : TaskLocals) (s : Shared) : TaskLocals * Shared :=
  if bool_decide (tl_line l = EmptyString) then (l, s) else (with_line EmptyString l, write_out who (tl_line l) s).

Definition print (who : nat) (text : string) (l : TaskLocals) (s : Shared) : TaskLocals * Shared :=
  if tl_to_stderr l then (l, with_err (sh_err s ++ [(who, text)]) s)
  else if (sh_running s =? 0) && bool_decide (tl_line l = EmptyString) then (l, write_out who text s)
  else
    let line := tl_line l +:+ text in
    match last_newline line with
    | Some (done, rest) => (with_line rest l, write_out who done s)
    | None => (with_line line l, s)
    end.

Definition lines_task_started (s : Shared) : Shared := with_running (wrap_u 64 (sh_running s + 1)) s.

Definition lines_task_ended (who : nat) (l : TaskLocals) (s : Shared) : TaskLocals * Shared :=
  let (l, s) := flush who l s in (l, with_running (wrap_u 64 (sh_running s - 1)) s).

(** ** Cancel marks *)

(** A parent is older than its mark, so [S m] levels are enough. *)
Fixpoint mark_is_set (marks : list CancelMark) (fuel : nat) (m : nat) : bool :=
  match fuel, marks !! m with
  | S fuel, Some c => cm_set c || match cm_parent c with Some p => mark_is_set marks fuel p | None => false end
  | _, _ => false
  end.
Definition CancelMark_is_set (marks : list CancelMark) (m : nat) : bool := mark_is_set marks (S m) m.

(** [CancelMark::cancel]; the wake of the waiting tasks is a step of [Wait]. *)
Definition CancelMark_cancel (m : nat) (s : Shared) : Shared :=
  with_marks (alter (fun c => mkCancelMark true (cm_parent c)) m (sh_marks s)) s.

(** ** Deadlines *)

Definition drop_deadline (l : TaskLocals) : option Z := dl_at <$> head (tl_put_aside l).

Definition sat_i64 (z : Z) : Z := Z.max (imin 64) (Z.min (imax 64) z).

Definition push_deadline (now : Z) (mark : option nat) (limit_ns : Z) (is_drop : bool) (l : TaskLocals) : TaskLocals :=
  let at_ := sat_i64 (now + limit_ns) in
  let at_ := match drop_deadline l with Some outer => Z.min outer at_ | None => at_ end in
  with_put_aside (mkDeadline mark at_ is_drop :: tl_put_aside l) l.

(** [cap] is [drop_wait_cap_ns], from the environment of the program. *)
Definition vx_cancel_off (cap : option Z) (now limit_ns : Z) (l : TaskLocals) : TaskLocals :=
  let mark := tl_mark l in
  let limit_ns := Z.max limit_ns 0 in
  let limit_ns := match cap with Some c => Z.min c limit_ns | None => limit_ns end in
  push_deadline now mark limit_ns true (with_mark None l).

Definition vx_cancel_on (l : TaskLocals) : outcome TaskLocals :=
  match tl_put_aside l with
  | scope :: rest =>
      if dl_drop scope then
        match tl_mark l with
        | None => Returns (with_mark (dl_mark scope) (with_put_aside rest l))
        | Some _ => Panics
        end
      else Panics
  | [] => Panics
  end.

Definition vx_within_start (now limit_ns : Z) (l : TaskLocals) : TaskLocals := push_deadline now None (Z.max limit_ns 0) false l.

Definition vx_within_end (l : TaskLocals) : outcome TaskLocals :=
  match tl_put_aside l with
  | scope :: rest => if dl_drop scope then Panics else Returns (with_put_aside rest l)
  | [] => Panics
  end.

(** ** Cancelling *)

Definition CANCELS_TO_WARN : Z := 1000.

(** The warning is a value of its own: its text names the site. *)
Definition cancel_warning (l : TaskLocals) : string :=
  "vx: warning: a task saw the cancel of its `tasks` block 1000 times. A loop may wait again after each `Cancelled`." +:+
  String newline (match tl_site l with Some s => s | None => "  in the main code" +:+ String newline EmptyString end).

Definition current_is_set (l : TaskLocals) (s : Shared) : bool :=
  match tl_mark l with Some m => CancelMark_is_set (sh_marks s) m | None => false end.

Definition vx_cancelled (who : nat) (now : Z) (l : TaskLocals) (s : Shared) : outcome (bool * (TaskLocals * Shared)) :=
  let late := match drop_deadline l with Some d => d <=? now | None => false end in
  if current_is_set l s then
    let n := tl_cancels l + 1 in
    if in_u 32 n then
      let s := if n =? CANCELS_TO_WARN then with_err (sh_err s ++ [(who, cancel_warning l)]) s else s in
      Returns (true, (with_cancels n l, s))
    else Panics
  else Returns (late, (l, s)).

Definition vx_task_failed (l : TaskLocals) (s : Shared) : Shared :=
  match tl_mark l with Some m => CancelMark_cancel m s | None => s end.

(** ** Sites *)

Definition nl : string := String newline EmptyString.

(** [file] is [None] when it is null. *)
Definition site_of_spawn (file : option string) (line : Z) (l : TaskLocals) : option string :=
  if line <=? 0 then None
  else
    let file := default "an unknown file" file in
    Some ("  in the task from the `spawn` at " +:+ file +:+ ":" +:+ u_to_string 20 line "" +:+ nl +:+ default "" (tl_site l)).

(** ** Groups *)

(** [tasks_begin]: the new group, and the block's mark as the current one.  The scheduler that runs
    the tasks, if there is one, is in [Wait]. *)
Definition tasks_begin (l : TaskLocals) (s : Shared) : nat * (TaskLocals * Shared) :=
  let outer := tl_mark l in
  let mark := length (sh_marks s) in
  let s := with_marks (sh_marks s ++ [mkCancelMark false outer]) s in
  (length (sh_groups s), (with_mark (Some mark) l, with_groups (sh_groups s ++ [Some (mkGroup [] mark outer)]) s)).

(** What a new task starts with, on a thread or as a fiber. *)
Definition spawned_locals (mark : nat) (site : option string) : TaskLocals :=
  mkTaskLocals (Some mark) [] "" false site 0.

(** [vx_task_start_at]: the number of the task in its group.  The task is the next of [sh_started].
    That the system gives no thread or stack, which ends the program, is left out. *)
Definition vx_task_start_at (group env : nat) (file : option string) (line : Z) (l : TaskLocals) (s : Shared)
    : outcome (nat * Shared) :=
  match sh_groups s !! group with
  | Some (Some g) =>
      let site := site_of_spawn file line l in
      let s := lines_task_started s in
      let agent := length (sh_started s) in
      let s := with_started (sh_started s ++ [spawned_locals (gr_mark g) site]) s in
      Returns (length (gr_tasks g),
               with_groups (<[group := Some (mkGroup (gr_tasks g ++ [mkTask agent env site]) (gr_mark g) (gr_outer g))]> (sh_groups s)) s)
  | _ => Panics
  end.

(** The task's last steps: what is left of its line, and then its end. *)
Definition task_ends (who : nat) (l : TaskLocals) (s : Shared) : TaskLocals * Shared :=
  let (l, s) := lines_task_ended who l s in (l, with_ended (who :: sh_ended s) s).

(** [wait] has returned for the task. *)
Definition joined (s : Shared) (t : Task) : bool := bool_decide (tk_agent t ∈ sh_ended s).

(** [vx_task_join] returns: [false] while it waits.  A join of a task that is not in the group aborts. *)
Definition vx_task_join (group : option nat) (task : nat) (s : Shared) : outcome bool :=
  match group with
  | None => Returns true
  | Some group =>
      match sh_groups s !! group with
      | Some (Some g) => match gr_tasks g !! task with Some t => Returns (joined s t) | None => Panics end
      | _ => Panics
      end
  end.

(** [vx_tasks_wait]: the cancel, before the joins. *)
Definition vx_tasks_wait (group : nat) (s : Shared) : outcome Shared :=
  match sh_groups s !! group with
  | Some (Some g) => Returns (CancelMark_cancel (gr_mark g) s)
  | _ => Panics
  end.

(** The joins of [vx_tasks_wait] and [vx_tasks_end] have returned. *)
Definition tasks_joined (group : nat) (s : Shared) : bool :=
  match sh_groups s !! group with Some (Some g) => forallb (joined s) (gr_tasks g) | _ => true end.

(** [vx_tasks_end], after its joins. *)
Definition vx_tasks_end (who group : nat) (l : TaskLocals) (s : Shared) : outcome (TaskLocals * Shared) :=
  match sh_groups s !! group with
  | Some (Some g) =>
      let s := with_freed (sh_freed s ++ (tk_env <$> gr_tasks g)) (with_groups (<[group := None]> (sh_groups s)) s) in
      Returns (flush who (with_mark (gr_outer g) l) s)
  | _ => Panics
  end.

(** ** Fibers on workers ([sched.rs], [TaskLocals::swap_with_thread]) *)

Definition swap_with_thread (saved thread : TaskLocals) : TaskLocals * TaskLocals :=
  (mkTaskLocals (tl_mark thread) (tl_put_aside thread) (tl_line thread) (tl_to_stderr thread) (tl_site thread) (tl_cancels thread),
   mkTaskLocals (tl_mark saved) (tl_put_aside saved) (tl_line saved) (tl_to_stderr saved) (tl_site saved) (tl_cancels saved)).
