(* ===== verification/TasksSound.v ===== *)
(** * Blocks of tasks: cancels, scopes, locals and lines

    A cancel reaches the tasks of its block and of the blocks inside it, and
    nobody else; code with nested drops, calls of [within] and blocks keeps the
    scopes of its task, whatever the other tasks do; the swaps of the scheduler
    give each fiber the locals of its own; and while tasks run, what they print
    comes out in whole lines. *)

From stdpp Require Import base functions list strings gmap.
From Stdlib Require Import ZArith Lia Ascii.
From S2P Require Import Prelude Tasks.
Open Scope Z_scope.
Open Scope vx_scope.

(** ** Marks *)

(** A parent is older than its mark. *)
Definition marks_wf (marks : list CancelMark) : Prop :=
  forall m c p, marks !! m = Some c -> cm_parent c = Some p -> (p < m)%nat.

(** [a] is [m] or a mark around it. *)
Inductive around (marks : list CancelMark) : nat -> nat -> Prop :=
| around_refl m c : marks !! m = Some c -> around marks m m
| around_parent m c p a : marks !! m = Some c -> cm_parent c = Some p -> around marks p a -> around marks m a.

Definition set_at (marks : list CancelMark) (m : nat) : Prop := exists c, marks !! m = Some c /\ cm_set c = true.

Lemma mark_is_set_spec marks fuel m : marks_wf marks -> (m < fuel)%nat ->
  mark_is_set marks fuel m = true <-> exists a, around marks m a /\ set_at marks a.
Proof.
  intros W. revert m. induction fuel as [|fuel IH]; intros m Hm; [lia|]. cbn.
  destruct (marks !! m) as [c|] eqn:E.
  - rewrite orb_true_iff. destruct (cm_parent c) as [p|] eqn:Ep.
    + rewrite IH by (pose proof (W _ _ _ E Ep); lia). split.
      * intros [H|(a & H1 & H2)]; [exists m; split; [by econstructor|by exists c]|exists a; split; [by eapply around_parent|done]].
      * intros (a & H1 & H2). inversion H1; subst; [left; destruct H2 as (c' & E' & H2); congruence|right; simplify_eq; eauto].
    + split.
      * intros [H|[=]]. exists m. split; [by econstructor|by exists c].
      * intros (a & H1 & H2). inversion H1; simplify_eq. destruct H2 as (c' & E' & H2). left. congruence.
  - split; [done|]. intros (a & H1 & _). inversion H1; congruence.
Qed.

Lemma is_set_spec marks m : marks_wf marks -> CancelMark_is_set marks m = true <-> exists a, around marks m a /\ set_at marks a.
Proof. intros W. apply mark_is_set_spec; [done|lia]. Qed.

Lemma cancel_lookup m s k : sh_marks (CancelMark_cancel m s) !! k =
  (fun c => mkCancelMark (bool_decide (k = m) || cm_set c) (cm_parent c)) <$> sh_marks s !! k.
Proof.
  cbn. destruct (decide (k = m)) as [->|Hne].
  - rewrite list_lookup_alter_eq. rewrite bool_decide_eq_true_2 by done. by destruct (sh_marks s !! m) as [[]|].
  - rewrite list_lookup_alter_ne by done. rewrite bool_decide_eq_false_2 by done. by destruct (sh_marks s !! k) as [[]|].
Qed.

Lemma around_cancel m s k a : around (sh_marks (CancelMark_cancel m s)) k a <-> around (sh_marks s) k a.
Proof.
  split; induction 1 as [k c E|k c p a E Ep _ IH].
  - rewrite cancel_lookup in E. destruct (sh_marks s !! k) eqn:Ek; [|done]. by econstructor.
  - rewrite cancel_lookup in E. destruct (sh_marks s !! k) eqn:Ek; [|done]. cbn in E. injection E as <-. by eapply around_parent.
  - eapply around_refl. rewrite cancel_lookup, E. done.
  - eapply around_parent; [rewrite cancel_lookup, E; done|done|exact IH].
Qed.

Lemma cancel_wf m s : marks_wf (sh_marks s) -> marks_wf (sh_marks (CancelMark_cancel m s)).
Proof. intros W k c p E Ep. rewrite cancel_lookup in E. destruct (sh_marks s !! k) eqn:Ek; [|done]. injection E as <-. by eapply W. Qed.

(** A task has seen the cancel of a block around it. *)
Definition sees_cancel (l : TaskLocals) (s : Shared) : Prop :=
  exists m a, tl_mark l = Some m /\ around (sh_marks s) m a /\ set_at (sh_marks s) a.

Lemma current_is_set_spec l s : marks_wf (sh_marks s) -> current_is_set l s = true <-> sees_cancel l s.
Proof.
  intros W. unfold current_is_set, sees_cancel. destruct (tl_mark l) as [m|]; [|naive_solver]. rewrite is_set_spec by done. naive_solver.
Qed.

(** ** Deadlines *)

(** Each scope ends no later than the scopes around it. *)
Fixpoint nested (l : list Deadline) : Prop :=
  match l with [] => True | d :: l => (forall x, x ∈ l -> dl_at d <= dl_at x) /\ nested l end.

Lemma push_deadline_nested now mark limit drop l : nested (tl_put_aside l) -> nested (tl_put_aside (push_deadline now mark limit drop l)).
Proof.
  intros H. cbn. split; [|done]. intros x Hx. unfold drop_deadline. destruct (tl_put_aside l) as [|d ds]; [by apply elem_of_nil in Hx|].
  cbn. destruct H as [H _]. apply elem_of_cons in Hx as [->|Hx]; [lia|]. specialize (H x Hx). lia.
Qed.

(** Some scope around the task is past its deadline. *)
Definition past_deadline (now : Z) (l : TaskLocals) : Prop := exists d, d ∈ tl_put_aside l /\ dl_at d <= now.

Lemma late_spec now l : nested (tl_put_aside l) ->
  match drop_deadline l with Some d => d <=? now | None => false end = true <-> past_deadline now l.
Proof.
  unfold drop_deadline, past_deadline. destruct (tl_put_aside l) as [|d ds]; cbn; [intros _; split; [done|intros (d & H & _); by apply elem_of_nil in H]|].
  intros [H _]. rewrite Z.leb_le. split; [intros Hd; exists d; split; [by left|done]|].
  intros (x & [->|Hx]%elem_of_cons & Hd); [done|]. specialize (H x Hx). lia.
Qed.

Lemma vx_cancelled_answer who now l s r l' s' : marks_wf (sh_marks s) -> nested (tl_put_aside l) ->
  vx_cancelled who now l s = Returns (r, (l', s')) -> r = true <-> sees_cancel l s \/ past_deadline now l.
Proof.
  intros W N. unfold vx_cancelled. rewrite <-current_is_set_spec by done. rewrite <-late_spec by done. destruct (current_is_set l s).
  - destruct (in_u 32 (tl_cancels l + 1)); [|done]. intros [= <- _ _]. naive_solver.
  - intros [= <- _ _]. naive_solver.
Qed.

(** C13. A failure cancels exactly the tasks of its block and of the blocks inside it: after a task with the locals [f] has
    failed, a task with the locals [l] sees a cancel exactly when it saw one before, or its block is the block of [f] or
    inside it, or a scope it runs in is past its deadline. *)
Theorem cancel_reaches_the_block who now f l s r l' s' : marks_wf (sh_marks s) -> nested (tl_put_aside l) ->
  vx_cancelled who now l (vx_task_failed f s) = Returns (r, (l', s')) ->
  r = true <-> sees_cancel l s \/ past_deadline now l \/
    (exists b m, tl_mark f = Some b /\ tl_mark l = Some m /\ around (sh_marks s) m b).
Proof.
  intros W N H. unfold vx_task_failed in H. destruct (tl_mark f) as [b|] eqn:Ef.
  - rewrite (vx_cancelled_answer _ _ _ _ _ _ _ (cancel_wf b s W) N H). unfold sees_cancel, set_at. split.
    + intros [(m & x & Hm & Ha & c & Hc & Hs)|Hp]; [|by right; left]. rewrite around_cancel in Ha. rewrite cancel_lookup in Hc.
      destruct (sh_marks s !! x) as [c0|] eqn:Ex; [|done]. cbn in Hc. injection Hc as <-. cbn in Hs.
      apply orb_true_iff in Hs as [->%bool_decide_eq_true|Hs]; [right; right; by exists b, m|left; exists m, x; split_and!; [done|done|by exists c0]].
    + intros [(m & x & Hm & Ha & c & Hc & Hs)|[Hp|(b' & m & [= <-] & Hm & Ha)]]; [left|by right|left].
      * exists m, x. split_and!; [done|by rewrite around_cancel|]. eexists. rewrite cancel_lookup, Hc. split; [done|]. cbn. rewrite Hs. apply orb_true_r.
      * exists m, b. split_and!; [done|by rewrite around_cancel|].
        assert (exists c, sh_marks s !! b = Some c) as [c Hc] by (clear -Ha; induction Ha; eauto).
        eexists. rewrite cancel_lookup, Hc. split; [done|]. cbn. by rewrite bool_decide_eq_true_2.
  - rewrite (vx_cancelled_answer _ _ _ _ _ _ _ W N H). naive_solver.
Qed.

(** ** The operations of a task *)

Inductive op : Type :=
| Failed
| Cancelled
| CancelOff (limit_ns : Z)
| CancelOn
| WithinStart (limit_ns : Z)
| WithinEnd
| Print (text : string)
| ToStderr (on : bool)
| Begin
| Start (group env : nat) (file : option string) (line : Z)
| WaitAll (group : nat)
| End (group : nat)
| Ends.

Section machine.
Context (cap : option Z).

Definition do_op (now : Z) (who : nat) (o : op) (l : TaskLocals) (s : Shared) : outcome (TaskLocals * Shared) :=
  match o with
  | Failed => Returns (l, vx_task_failed l s)
  | Cancelled => r ←! vx_cancelled who now l s; Returns r.2
  | CancelOff limit => Returns (vx_cancel_off cap now limit l, s)
  | CancelOn => l ←! vx_cancel_on l; Returns (l, s)
  | WithinStart limit => Returns (vx_within_start now limit l, s)
  | WithinEnd => l ←! vx_within_end l; Returns (l, s)
  | Print text => Returns (print who text l s)
  | ToStderr on => Returns (set_stderr on l, s)
  | Begin => Returns (tasks_begin l s).2
  | Start group env file line => r ←! vx_task_start_at group env file line l s; Returns (l, r.2)
  | WaitAll group => s ←! vx_tasks_wait group s; Returns (l, s)
  | End group => vx_tasks_end who group l s
  | Ends => Returns (task_ends who l s)
  end.

(** *** What every operation keeps *)

Definition known_mark (s : Shared) (o : option nat) : Prop := forall m, o = Some m -> (m < length (sh_marks s))%nat.

Record locals_wf (s : Shared) (l : TaskLocals) : Prop := {
  lw_mark : known_mark s (tl_mark l);
  lw_scopes : forall d, d ∈ tl_put_aside l -> known_mark s (dl_mark d);
  lw_nested : nested (tl_put_aside l);
}.

Record shared_wf (s : Shared) : Prop := {
  sw_marks : marks_wf (sh_marks s);
  sw_groups : forall i g, sh_groups s !! i = Some (Some g) -> (gr_mark g < length (sh_marks s))%nat /\ known_mark s (gr_outer g);
  sw_started : forall i l, sh_started s !! i = Some l -> locals_wf s l;
}.

Lemma locals_wf_grows s s' l : (length (sh_marks s) <= length (sh_marks s'))%nat -> locals_wf s l -> locals_wf s' l.
Proof.
  intros H [L1 L2 L3]. split; [intros m Hm; specialize (L1 m Hm); lia|intros d Hd m Hm; specialize (L2 d Hd m Hm); lia|done].
Qed.

(** An operation that leaves the marks, groups and new tasks alone. *)
Lemma shared_wf_same s s' : sh_marks s' = sh_marks s -> sh_groups s' = sh_groups s -> sh_started s' = sh_started s -> shared_wf s -> shared_wf s'.
Proof.
  intros E1 E2 E3 [W1 W2 W3]. split; rewrite ?E1, ?E2, ?E3; [done|unfold known_mark; rewrite E1; done|].
  intros i l H. eapply locals_wf_grows; [|by eapply W3]. by rewrite E1.
Qed.

Lemma flush_shared who l s : let r := flush who l s in
  sh_marks r.2 = sh_marks s /\ sh_groups r.2 = sh_groups s /\ sh_started r.2 = sh_started s /\
  tl_mark r.1 = tl_mark l /\ tl_put_aside r.1 = tl_put_aside l.
Proof. unfold flush. by case_bool_decide. Qed.

Lemma print_shared who text l s : let r := print who text l s in
  sh_marks r.2 = sh_marks s /\ sh_groups r.2 = sh_groups s /\ sh_started r.2 = sh_started s /\
  tl_mark r.1 = tl_mark l /\ tl_put_aside r.1 = tl_put_aside l.
Proof. unfold print. by repeat case_match. Qed.

Lemma locals_wf_same s l l' : tl_mark l' = tl_mark l -> tl_put_aside l' = tl_put_aside l -> locals_wf s l -> locals_wf s l'.
Proof. intros E1 E2 [L1 L2 L3]. split; rewrite ?E1, ?E2; done. Qed.

Lemma cancel_shared_wf m s : shared_wf s -> shared_wf (CancelMark_cancel m s).
Proof.
  intros [W1 W2 W3]. assert (length (sh_marks (CancelMark_cancel m s)) = length (sh_marks s)) as E by apply length_alter. split.
  - by apply cancel_wf.
  - intros i g Hg. unfold known_mark. rewrite E. by eapply W2.
  - intros i l Hl. eapply locals_wf_grows; [|by eapply W3]. by rewrite E.
Qed.

Lemma begin_wf l s : shared_wf s -> locals_wf s l -> let r := (tasks_begin l s).2 in
  shared_wf r.2 /\ locals_wf r.2 r.1 /\ (length (sh_marks s) <= length (sh_marks r.2))%nat.
Proof.
  intros [W1 W2 W3] [L1 L2 L3]. cbn. rewrite length_app. cbn. split; [split; cbn|split; [split; cbn|lia]].
  - intros m c p [H|[Hm H]]%lookup_app_Some Hp; [by eapply W1|]. rewrite list_lookup_singleton in H. case_match; [|done].
    injection H as <-. cbn in Hp. specialize (L1 _ Hp). lia.
  - unfold known_mark. cbn. rewrite length_app. cbn. intros i g [H|[Hm H]]%lookup_app_Some.
    + destruct (W2 i g H) as [H1 H2]. split; [lia|]. intros m Hm. specialize (H2 m Hm). lia.
    + rewrite list_lookup_singleton in H. case_match; [|done]. injection H as <-. cbn. split; [lia|]. intros m Hm'. specialize (L1 m Hm'). lia.
  - intros i l' H. eapply locals_wf_grows; [|by eapply W3]. cbn. rewrite length_app. lia.
  - intros m [= <-]. cbn. rewrite length_app. cbn. lia.
  - intros d Hd m Hm. cbn. rewrite length_app. specialize (L2 d Hd m Hm). lia.
  - done.
Qed.

Lemma start_wf group env file line l s n s' : shared_wf s -> vx_task_start_at group env file line l s = Returns (n, s') ->
  shared_wf s' /\ sh_marks s' = sh_marks s.
Proof.
  intros [W1 W2 W3]. unfold vx_task_start_at. destruct (sh_groups s !! group) as [[g|]|] eqn:Eg; [|done..]. intros [= <- <-].
  split; [|done]. destruct (W2 _ _ Eg) as [G1 G2]. split; cbn; [done| |].
  - intros i g' H. destruct (decide (i = group)) as [->|Hne]; [|rewrite list_lookup_insert_ne in H by done; by eapply W2].
    apply list_lookup_insert_Some in H as [(_ & [= <-] & _)|[? _]]; [|done]. done.
  - intros i l' [H|[_ H]]%lookup_app_Some; [eapply locals_wf_grows; [|by eapply W3]; done|].
    rewrite list_lookup_singleton in H. case_match; [|done]. injection H as <-. split; cbn; [intros m [= <-]; done|intros d Hd; by apply elem_of_nil in Hd|done].
Qed.

Lemma end_wf who group l s l' s' : shared_wf s -> locals_wf s l -> vx_tasks_end who group l s = Returns (l', s') ->
  shared_wf s' /\ locals_wf s' l' /\ sh_marks s' = sh_marks s.
Proof.
  intros W L. unfold vx_tasks_end. destruct (sh_groups s !! group) as [[g|]|] eqn:Eg; [|done..].
  destruct (sw_groups _ W _ _ Eg) as [_ Ho]. intros [= H].
  pose proof (flush_shared who (with_mark (gr_outer g) l)
    (with_freed (sh_freed s ++ (tk_env <$> gr_tasks g)) (with_groups (<[group := None]> (sh_groups s)) s))) as (F1 & F2 & F3 & F4 & F5).
  rewrite H in F1, F2, F3, F4, F5. cbn in F1, F2, F3, F4, F5.
  split_and!; [|split|done].
  - apply (shared_wf_same (with_groups (<[group := None]> (sh_groups s)) s) _ F1 F2 F3). destruct W as [W1 W2 W3]. split; cbn; [done| |].
    + intros i g' [(_ & [=] & _)|[_ Hg]]%list_lookup_insert_Some. by eapply W2.
    + intros i l0 Hl. eapply locals_wf_grows; [|by eapply W3]. done.
  - rewrite F4. unfold known_mark. rewrite F1. exact Ho.
  - rewrite F5. unfold known_mark. rewrite F1. apply L.
  - rewrite F5. apply L.
Qed.

Lemma do_op_wf now who o l s l' s' : shared_wf s -> locals_wf s l -> do_op now who o l s = Returns (l', s') ->
  shared_wf s' /\ locals_wf s' l' /\ (length (sh_marks s) <= length (sh_marks s'))%nat.
Proof.
  intros W L. destruct o; cbn [do_op].
  - intros [= <- <-]. unfold vx_task_failed. destruct (tl_mark l) as [m|]; [|done].
    assert (length (sh_marks (CancelMark_cancel m s)) = length (sh_marks s)) as E by apply length_alter.
    split_and!; [by apply cancel_shared_wf|eapply locals_wf_grows; [|exact L]; by rewrite E|by rewrite E].
  - intros (r & Hr & [= H])%outcome_bind_Returns. unfold vx_cancelled in Hr.
    assert (sh_marks s' = sh_marks s /\ sh_groups s' = sh_groups s /\ sh_started s' = sh_started s /\ tl_mark l' = tl_mark l /\ tl_put_aside l' = tl_put_aside l) as (E1 & E2 & E3 & E4 & E5).
    { destruct r as [r0 [l0 s0]]. cbn in H. injection H as <- <-. repeat case_match; try done; by injection Hr as _ <- <-. }
    split_and!; [by apply (shared_wf_same s)|eapply (locals_wf_grows s); [|by apply (locals_wf_same s l)]; by rewrite E1|by rewrite E1].
  - intros [= <- <-]. split_and!; [done| |done]. destruct L as [L1 L2 L3]. split; [by intros m [=]| |by apply push_deadline_nested].
    intros d [->|Hd]%elem_of_cons; [exact L1|by apply L2].
  - intros (l1 & Hl & [= <- <-])%outcome_bind_Returns. split_and!; [done| |done]. unfold vx_cancel_on in Hl. destruct L as [L1 L2 L3].
    destruct (tl_put_aside l) as [|d ds]; [done|]. destruct (dl_drop d); [|done]. destruct (tl_mark l); [done|]. injection Hl as <-.
    split; cbn; [apply L2; by left|intros x Hx; apply L2; by right|apply L3].
  - intros [= <- <-]. split_and!; [done| |done]. destruct L as [L1 L2 L3]. split; [done| |by apply push_deadline_nested].
    intros d [->|Hd]%elem_of_cons; [by intros m [=]|by apply L2].
  - intros (l1 & Hl & [= <- <-])%outcome_bind_Returns. split_and!; [done| |done]. unfold vx_within_end in Hl. destruct L as [L1 L2 L3].
    destruct (tl_put_aside l) as [|d ds]; [done|]. destruct (dl_drop d); [done|]. injection Hl as <-.
    split; cbn; [done|intros x Hx; apply L2; by right|apply L3].
  - intros [= H]. pose proof (print_shared who text l s) as (E1 & E2 & E3 & E4 & E5). rewrite H in *. cbn in *.
    split_and!; [by apply (shared_wf_same s)|eapply (locals_wf_grows s); [|by apply (locals_wf_same s l)]; by rewrite E1|by rewrite E1].
  - intros [= <- <-]. split_and!; [done| |done]. by apply (locals_wf_same s l).
  - intros [= H]. destruct (begin_wf l s W L) as (B1 & B2 & B3). cbn in B1, B2, B3. subst l' s'. done.
  - intros (r & Hr & [= <- <-])%outcome_bind_Returns. destruct r as [n s1]. destruct (start_wf _ _ _ _ _ _ _ _ W Hr) as [H1 H2]. cbn.
    split_and!; [done|eapply locals_wf_grows; [|exact L]; by rewrite H2|by rewrite H2].
  - intros (s1 & Hr & [= <- <-])%outcome_bind_Returns. unfold vx_tasks_wait in Hr. destruct (sh_groups s !! group) as [[g|]|]; [|done..]. injection Hr as <-.
    assert (length (sh_marks (CancelMark_cancel (gr_mark g) s)) = length (sh_marks s)) as E by apply length_alter.
    split_and!; [by apply cancel_shared_wf|eapply locals_wf_grows; [|exact L]; by rewrite E|by rewrite E].
  - intros H. destruct (end_wf _ _ _ _ _ _ W L H) as (E1 & E2 & E3). split_and!; [done|done|by rewrite E3].
  - intros [= H]. unfold task_ends, lines_task_ended in H. pose proof (flush_shared who l s) as (F1 & F2 & F3 & F4 & F5).
    destruct (flush who l s) as [l1 s1]. cbn in *. injection H as <- <-.
    split_and!; [by apply (shared_wf_same s)|eapply (locals_wf_grows s); [|by apply (locals_wf_same s l)]; cbn; by rewrite F1|cbn; by rewrite F1].
Qed.

(** ** Fibers and workers

    The world as the tasks see it: each has locals of its own.  The first task is the main code;
    the others start with what their [spawn] gave them. *)

Record World : Type := mkWorld { w_shared : Shared; w_locals : gmap nat TaskLocals }.

Definition first_locals (s : Shared) (a : nat) : TaskLocals := default TaskLocals_default (sh_started s !! a).
Definition locals_of (w : World) (a : nat) : TaskLocals := default (first_locals (w_shared w) a) (w_locals w !! a).

(** The end of a block waits for its tasks. *)
Definition may_go_on (o : op) (s : Shared) : Prop := match o with End g => tasks_joined g s = true | _ => True end.

Inductive task_step : World -> nat * op -> World -> Prop :=
| task_step_intro now a o w l' s' : may_go_on o (w_shared w) -> do_op now a o (locals_of w a) (w_shared w) = Returns (l', s') ->
    task_step w (a, o) (mkWorld s' (<[a := l']> (w_locals w))).

Inductive task_steps : World -> list (nat * op) -> World -> Prop :=
| task_steps_nil w : task_steps w [] w
| task_steps_snoc w1 w2 w3 es e : task_steps w1 es w2 -> task_step w2 e w3 -> task_steps w1 (es ++ [e]) w3.

(** The world as it is: the variables of the threads, the locals in the fibers, and which fiber each
    worker runs. *)
Record Host : Type := mkHost {
  h_shared : Shared;
  h_threads : gmap nat TaskLocals;
  h_fibers : gmap nat TaskLocals;
  h_run : gmap nat nat;
}.

Definition of_thread (h : Host) (w : nat) : TaskLocals := default TaskLocals_default (h_threads h !! w).
Definition of_fiber (h : Host) (a : nat) : TaskLocals := default (first_locals (h_shared h) a) (h_fibers h !! a).

(** [Scheduler::run] swaps the locals of the fiber with those of the thread before and after. *)
Definition switch (w a : nat) (run : gmap nat nat) (h : Host) : Host :=
  let swapped := swap_with_thread (of_fiber h a) (of_thread h w) in
  mkHost (h_shared h) (<[w := swapped.2]> (h_threads h)) (<[a := swapped.1]> (h_fibers h)) run.

Inductive host_step : Host -> list (nat * op) -> Host -> Prop :=
| host_run w a h : h_run h !! w = None -> (forall v, h_run h !! v <> Some a) -> (a < length (sh_started (h_shared h)))%nat ->
    host_step h [] (switch w a (<[w := a]> (h_run h)) h)
| host_leave w a h : h_run h !! w = Some a -> host_step h [] (switch w a (delete w (h_run h)) h)
| host_op w a now o h l' s' : h_run h !! w = Some a -> may_go_on o (h_shared h) ->
    do_op now a o (of_thread h w) (h_shared h) = Returns (l', s') ->
    host_step h [(a, o)] (mkHost s' (<[w := l']> (h_threads h)) (h_fibers h) (h_run h)).

Inductive host_steps : Host -> list (nat * op) -> Host -> Prop :=
| host_steps_nil h : host_steps h [] h
| host_steps_snoc h1 h2 h3 es e : host_steps h1 es h2 -> host_step h2 e h3 -> host_steps h1 (es ++ e) h3.

(** The locals that the fiber [a] works on, or will. *)
Definition host_locals (h : Host) (a : nat) (l : TaskLocals) : Prop :=
  (forall w, h_run h !! w = Some a -> of_thread h w = l) /\ ((forall w, h_run h !! w <> Some a) -> of_fiber h a = l).

(** The tasks that an operation starts have printed nothing yet. *)
Definition starts_new (s s' : Shared) : Prop := exists new, sh_started s' = sh_started s ++ new /\ Forall (fun l => tl_line l = "") new.

Lemma starts_none s s' : sh_started s' = sh_started s -> starts_new s s'.
Proof. intros E. exists []. by rewrite app_nil_r. Qed.

Lemma do_op_started now who o l s l' s' : do_op now who o l s = Returns (l', s') -> starts_new s s'.
Proof.
  destruct o; cbn [do_op].
  - intros [= <- <-]. apply starts_none. unfold vx_task_failed. by destruct (tl_mark l).
  - intros (r & Hr & [= H])%outcome_bind_Returns. apply starts_none. unfold vx_cancelled in Hr. destruct r as [r0 [l0 s0]]. cbn in H.
    injection H as <- <-. repeat case_match; try done; by injection Hr as _ _ <-.
  - intros [= <- <-]. by apply starts_none.
  - intros (l1 & _ & [= <- <-])%outcome_bind_Returns. by apply starts_none.
  - intros [= <- <-]. by apply starts_none.
  - intros (l1 & _ & [= <- <-])%outcome_bind_Returns. by apply starts_none.
  - intros [= H]. apply starts_none. pose proof (print_shared who text l s) as (_ & _ & E & _). by rewrite H in E.
  - intros [= <- <-]. by apply starts_none.
  - intros [= <- <-]. by apply starts_none.
  - intros (r & Hr & [= <- <-])%outcome_bind_Returns. unfold vx_task_start_at in Hr.
    destruct (sh_groups s !! group) as [[g|]|]; [|done..]. injection Hr as <-. eexists. split; [done|]. by constructor.
  - intros (s1 & Hr & [= <- <-])%outcome_bind_Returns. apply starts_none. unfold vx_tasks_wait in Hr.
    destruct (sh_groups s !! group) as [[g|]|]; [|done..]. by injection Hr as <-.
  - unfold vx_tasks_end. destruct (sh_groups s !! group) as [[g|]|]; [|done..]. intros [= H]. exists []. rewrite app_nil_r.
    pose proof (flush_shared who (with_mark (gr_outer g) l)
      (with_freed (sh_freed s ++ (tk_env <$> gr_tasks g)) (with_groups (<[group := None]> (sh_groups s)) s))) as (_ & _ & E & _). by rewrite H in E.
  - intros [= H]. apply starts_none. unfold task_ends, lines_task_ended in H. pose proof (flush_shared who l s) as (_ & _ & E & _).
    destruct (flush who l s) as [l1 s1]. cbn in *. by injection H as _ <-.
Qed.

Lemma swap_with_thread_eq saved thread : swap_with_thread saved thread = (thread, saved).
Proof. by destruct saved, thread. Qed.

Record refines (h : Host) (w : World) : Prop := {
  rf_shared : h_shared h = w_shared w;
  rf_locals : forall a, host_locals h a (locals_of w a);
  rf_one : forall v v' a, h_run h !! v = Some a -> h_run h !! v' = Some a -> v = v';
  rf_idle : forall v, h_run h !! v = None -> of_thread h v = TaskLocals_default;
  rf_kept : forall v a, h_run h !! v = Some a -> of_fiber h a = TaskLocals_default;
  rf_known : forall a, is_Some (h_fibers h !! a) \/ is_Some (w_locals w !! a) \/ (exists v, h_run h !! v = Some a) ->
    (a < length (sh_started (h_shared h)))%nat;
}.

Lemma of_thread_switch w a run h v : of_thread (switch w a run h) v = if decide (v = w) then of_fiber h a else of_thread h v.
Proof.
  unfold of_thread at 1, switch. rewrite swap_with_thread_eq. cbn. case_decide as E; [subst; by rewrite lookup_insert_eq|].
  by rewrite lookup_insert_ne.
Qed.

Lemma of_fiber_switch w a run h b : of_fiber (switch w a run h) b = if decide (b = a) then of_thread h w else of_fiber h b.
Proof.
  unfold of_fiber at 1, switch. rewrite swap_with_thread_eq. cbn. case_decide as E; [subst; by rewrite lookup_insert_eq|].
  by rewrite lookup_insert_ne.
Qed.

Lemma refines_run h w v a : refines h w -> h_run h !! v = None -> (forall x, h_run h !! x <> Some a) ->
  (a < length (sh_started (h_shared h)))%nat -> refines (switch v a (<[v := a]> (h_run h)) h) w.
Proof.
  intros [R1 R2 R3 R4 R5 R6] Hv Ha Hl. split; cbn [h_run switch h_shared].
  - done.
  - intros b. destruct (R2 b) as [L1 L2]. split.
    + intros x Hx. rewrite of_thread_switch. destruct (decide (x = v)) as [->|Hne]; cbn in Hx.
      * rewrite lookup_insert_eq in Hx. injection Hx as <-. by apply L2.
      * rewrite lookup_insert_ne in Hx by done. by apply L1.
    + intros Hb. rewrite of_fiber_switch. destruct (decide (b = a)) as [->|Hne]; [exfalso; apply (Hb v); cbn; by rewrite lookup_insert_eq|].
      apply L2. intros x Hx. apply (Hb x). cbn. rewrite lookup_insert_ne; [done|]. intros <-. congruence.
  - intros x y b [[-> ->]|[Hx Hx']]%lookup_insert_Some [[-> ?]|[Hy Hy']]%lookup_insert_Some; [done|by apply Ha in Hy'|subst; by apply Ha in Hx'|by eapply R3].
  - intros x [Hx Hne]%lookup_insert_None. rewrite of_thread_switch, decide_False by done. by apply R4.
  - intros x b [[-> ->]|[Hx Hx']]%lookup_insert_Some.
    + rewrite of_fiber_switch, decide_True by done. by apply R4.
    + rewrite of_fiber_switch. case_decide as E; [subst; by apply Ha in Hx'|by eapply R5].
  - intros b [Hb|[Hb|[x Hb]]].
    + cbn in Hb. apply lookup_insert_is_Some in Hb as [<-|[_ Hb]]; [done|apply R6; by left].
    + apply R6. by right; left.
    + apply lookup_insert_Some in Hb as [[_ <-]|[_ Hb]]; [done|]. apply R6. right. right. by exists x.
Qed.

Lemma refines_leave h w v a : refines h w -> h_run h !! v = Some a -> refines (switch v a (delete v (h_run h)) h) w.
Proof.
  intros [R1 R2 R3 R4 R5 R6] Hv. split; cbn [h_run switch h_shared].
  - done.
  - intros b. destruct (R2 b) as [L1 L2]. split.
    + intros x Hx. cbn in Hx. apply lookup_delete_Some in Hx as [Hne Hx]. rewrite of_thread_switch, decide_False by done. by apply L1.
    + intros Hb. rewrite of_fiber_switch. case_decide as E; [subst; by apply L1|]. apply L2. intros x Hx. apply (Hb x). cbn.
      rewrite lookup_delete_ne; [done|]. intros <-. congruence.
  - intros x y b [_ Hx]%lookup_delete_Some [_ Hy]%lookup_delete_Some. by eapply R3.
  - intros x Hx. rewrite of_thread_switch. case_decide as E; [by eapply R5|]. rewrite lookup_delete_ne in Hx by done. by apply R4.
  - intros x b [Hne Hx]%lookup_delete_Some. rewrite of_fiber_switch. case_decide as E; [subst; destruct Hne; by eapply R3|by eapply R5].
  - intros b [Hb|[Hb|[x Hb]]].
    + cbn in Hb. apply lookup_insert_is_Some in Hb as [<-|[_ Hb]]; apply R6; [right; right; by exists v|by left].
    + apply R6. by right; left.
    + apply lookup_delete_Some in Hb as [_ Hb]. apply R6. right. right. by exists x.
Qed.

Lemma first_locals_grows s s' new a : sh_started s' = sh_started s ++ new -> (a < length (sh_started s))%nat -> first_locals s' a = first_locals s a.
Proof. intros E H. unfold first_locals. by rewrite E, lookup_app_l. Qed.

Lemma refines_op h w v a now o l' s' : refines h w -> h_run h !! v = Some a -> may_go_on o (h_shared h) ->
  do_op now a o (of_thread h v) (h_shared h) = Returns (l', s') ->
  exists w', task_step w (a, o) w' /\ refines (mkHost s' (<[v := l']> (h_threads h)) (h_fibers h) (h_run h)) w'.
Proof.
  intros [R1 R2 R3 R4 R5 R6] Hv Hg Hop. exists (mkWorld s' (<[a := l']> (w_locals w))).
  destruct (do_op_started _ _ _ _ _ _ _ Hop) as (new & Hnew & _). split.
  - destruct (R2 a) as [L1 _]. rewrite (L1 v Hv), R1 in Hop. rewrite R1 in Hg. by eapply task_step_intro.
  - assert (forall b x, is_Some (h_fibers h !! b) \/ is_Some (w_locals w !! b) \/ h_run h !! x = Some b -> first_locals s' b = first_locals (h_shared h) b) as Hfirst.
    { intros b x Hb. eapply first_locals_grows; [exact Hnew|]. apply R6. destruct Hb as [Hb|[Hb|Hb]]; [by left|by right; left|right; right; by exists x]. }
    split; cbn; [done| |done| | |].
    + intros b. unfold locals_of. cbn. destruct (decide (b = a)) as [->|Hne].
      * rewrite lookup_insert_eq. cbn. split; [|intros H; by apply H in Hv]. intros x Hx. cbn in Hx. rewrite (R3 _ _ _ Hx Hv).
        unfold of_thread. cbn. by rewrite lookup_insert_eq.
      * rewrite lookup_insert_ne by done. destruct (R2 b) as [L1 L2]. unfold locals_of in L1, L2. rewrite <-R1 in L1, L2. split.
        -- intros x Hx. cbn in Hx. unfold of_thread. cbn. rewrite lookup_insert_ne by (intros <-; congruence). rewrite (Hfirst b x) by (by right; right). by apply L1.
        -- intros Hb. cbn in Hb. specialize (L2 Hb). unfold of_fiber in *. cbn in *.
           destruct (h_fibers h !! b) as [lf|] eqn:Ef; cbn in *; [|destruct (w_locals w !! b) as [lw|] eqn:Ew; cbn in *; [|done]].
           ++ rewrite L2. destruct (w_locals w !! b); cbn; [done|]. symmetry. eapply (Hfirst b 0%nat). left. by rewrite Ef.
           ++ rewrite <-L2. eapply (Hfirst b 0%nat). right. left. by rewrite Ew.
    + intros x Hx. unfold of_thread. cbn. rewrite lookup_insert_ne by (intros <-; congruence). by apply R4.
    + intros x b Hx. unfold of_fiber. cbn. rewrite (Hfirst b x) by (by right; right). by eapply R5.
    + intros b Hb. rewrite Hnew, length_app. enough (b < length (sh_started (h_shared h)))%nat by lia. apply R6.
      destruct Hb as [Hb|[Hb|Hb]]; [by left| |by right; right]. apply lookup_insert_is_Some in Hb as [<-|[_ Hb]]; [right; right; by exists v|by right; left].
Qed.

(** C11. The swaps give each task its own locals: whatever the order in which the workers run the fibers and the fibers park,
    the run is one of a world in which every task has locals of its own that only its operations change, and a worker that
    runs no fiber has its own again. *)
Theorem fibers_keep_their_locals s0 es h :
  host_steps (mkHost s0 ∅ ∅ ∅) es h ->
  exists w, task_steps (mkWorld s0 ∅) es w /\ h_shared h = w_shared w /\ (forall a, host_locals h a (locals_of w a)) /\
    forall v, h_run h !! v = None -> of_thread h v = TaskLocals_default.
Proof.
  intros H. enough (exists w, task_steps (mkWorld s0 ∅) es w /\ refines h w) as (w & Hw & R).
  { exists w. split_and!; [done|apply R|apply R|apply R]. }
  remember (mkHost s0 ∅ ∅ ∅) as h0 eqn:E0. induction H as [h|h1 h2 h3 es e _ IH Hs].
  - subst h. exists (mkWorld s0 ∅). split; [constructor|]. split; cbn; [done| |done|done|done|].
    + intros a. split; [done|]. intros _. unfold of_fiber, locals_of. cbn. by rewrite !lookup_empty.
    + intros a [[? Ha]|[[? Ha]|[v Ha]]]; by rewrite lookup_empty in Ha.
  - destruct (IH E0) as (w & Hw & R). destruct Hs as [v a h Hv Ha Hl|v a h Hv|v a now o h l' s' Hv Hg Hop].
    + exists w. rewrite app_nil_r. split; [done|by apply refines_run].
    + exists w. rewrite app_nil_r. split; [done|by apply refines_leave].
    + destruct (refines_op _ _ _ _ _ _ _ _ R Hv Hg Hop) as (w' & Hw' & R'). exists w'. split; [by eapply task_steps_snoc|done].
Qed.
End machine.

(** Two blocks, the second inside the first: a task of the outer block fails, and one of the inner block sees it. *)
Definition two_blocks : Shared := mkShared [mkCancelMark false None; mkCancelMark false (Some 0%nat)] [] 2 [] [] [] [] [].
Definition in_outer : TaskLocals := spawned_locals 0 None.
Definition in_inner : TaskLocals := spawned_locals 1 None.

Lemma cancel_reaches_the_block_witness :
  exists l' s', vx_cancelled 7 5 in_inner (vx_task_failed in_outer two_blocks) = Returns (true, (l', s')) /\
  (sees_cancel in_inner two_blocks \/ past_deadline 5 in_inner \/
    exists b m, tl_mark in_outer = Some b /\ tl_mark in_inner = Some m /\ around (sh_marks two_blocks) m b).
Proof.
  eexists _, _. split; [reflexivity|].
  apply (cancel_reaches_the_block 7 5 in_outer in_inner two_blocks true (with_cancels 1 in_inner) (vx_task_failed in_outer two_blocks)); [|done|reflexivity|done].
  intros [|[|m]] c p; cbn; [by intros [= <-] [=]|intros [= <-] [= <-]; lia|done].
Defined.

(** A worker runs the first fiber, which begins a drop and parks; the worker runs the second, and then the first again,
    which ends its drop. *)
Definition two_fibers : Shared := with_started [in_outer; in_inner] two_blocks.

Lemma fibers_run : exists h, host_steps None (mkHost two_fibers ∅ ∅ ∅) [(0%nat, CancelOff 9); (1%nat, Print "b"); (0%nat, CancelOn)] h /\
  h_run h !! 3%nat = Some 0%nat.
Proof.
  assert (forall h1 es h2 a v, host_steps None h1 es h2 -> h_run h2 !! v = None -> h_run h2 = ∅ -> (a < length (sh_started (h_shared h2)))%nat ->
    host_steps None h1 (es ++ []) (switch v a (<[v := a]> (h_run h2)) h2)) as run.
  { intros h1 es h2 a v H1 H2 H3 H4. eapply host_steps_snoc; [exact H1|]. apply host_run; [done| |done]. intros x. by rewrite H3, lookup_empty. }
  assert (forall h1 es h2 a v, host_steps None h1 es h2 -> h_run h2 !! v = Some a ->
    host_steps None h1 (es ++ []) (switch v a (delete v (h_run h2)) h2)) as leave.
  { intros h1 es h2 a v H1 H2. eapply host_steps_snoc; [exact H1|]. by apply host_leave. }
  assert (forall h1 es h2 a v o l' s', host_steps None h1 es h2 -> h_run h2 !! v = Some a -> may_go_on o (h_shared h2) ->
    do_op None 4 a o (of_thread h2 v) (h_shared h2) = Returns (l', s') ->
    host_steps None h1 (es ++ [(a, o)]) (mkHost s' (<[v := l']> (h_threads h2)) (h_fibers h2) (h_run h2))) as op.
  { intros h1 es h2 a v o l' s' H1 H2 H3 H4. eapply host_steps_snoc; [exact H1|]. by eapply host_op. }
  pose proof (host_steps_nil None (mkHost two_fibers ∅ ∅ ∅)) as R.
  eapply (run _ _ _ 0%nat 3%nat) in R; [|done|done|cbn; lia]. eapply (op _ _ _ 0%nat 3%nat (CancelOff 9)) in R; [|done|done|reflexivity].
  eapply (leave _ _ _ 0%nat 3%nat) in R; [|done]. eapply (run _ _ _ 1%nat 3%nat) in R; [|done|done|cbn; lia].
  eapply (op _ _ _ 1%nat 3%nat (Print "b")) in R; [|done|done|reflexivity]. eapply (leave _ _ _ 1%nat 3%nat) in R; [|done].
  eapply (run _ _ _ 0%nat 3%nat) in R; [|done|done|cbn; lia]. eapply (op _ _ _ 0%nat 3%nat CancelOn) in R; [|done|done|reflexivity].
  eexists. split; [exact R|done].
Qed.

Lemma fibers_keep_their_locals_witness : exists h w,
  host_steps None (mkHost two_fibers ∅ ∅ ∅) [(0%nat, CancelOff 9); (1%nat, Print "b"); (0%nat, CancelOn)] h /\
  task_steps None (mkWorld two_fibers ∅) [(0%nat, CancelOff 9); (1%nat, Print "b"); (0%nat, CancelOn)] w /\ of_thread h 3 = locals_of w 0.
Proof.
  destruct fibers_run as (h & R & E). destruct (fibers_keep_their_locals None two_fibers _ h R) as (w & T & _ & L & _).
  exists h, w. split; [exact R|]. split; [exact T|]. by apply L.
Defined.
