(* ===== verification/TasksCode.v ===== *)
(** * Structured code of tasks, and the lines that tasks print

    Code that nests drops, calls of [within] and blocks of tasks, as the compiler
    emits it, runs between steps of the other tasks; and a run in which several
    tasks print. *)

From stdpp Require Import base list strings gmap.
From Stdlib Require Import ZArith Lia Ascii.
From S2P Require Import Prelude Tasks TasksSound.
Open Scope Z_scope.
Open Scope vx_scope.

(** ** Code *)

Inductive code : Type :=
| Done
| DoOp (o : op) (k : code)
| Ask (k : bool -> code)
| DropIn (limit_ns : Z) (body k : code)
| WithinIn (limit_ns : Z) (body k : code)
| Block (body : nat -> code) (k : code)
| Spawn (group env : nat) (file : option string) (line : Z) (k : nat -> code)
| Join (group task : nat) (k : code).

(** The code uses the groups of the blocks it is in and the tasks it has spawned. *)
Definition simple (mine : list nat) (o : op) : Prop :=
  match o with Failed | Print _ | ToStderr _ => True | WaitAll g => g ∈ mine | _ => False end.

Fixpoint valid (mine : list nat) (tasks : list (nat * nat)) (c : code) : Prop :=
  match c with
  | Done => True
  | DoOp o k => simple mine o /\ valid mine tasks k
  | Ask k => forall b, valid mine tasks (k b)
  | DropIn _ body k | WithinIn _ body k => valid mine tasks body /\ valid mine tasks k
  | Block body k => (forall g, valid (g :: mine) tasks (body g)) /\ valid mine tasks k
  | Spawn g _ _ _ k => g ∈ mine /\ forall i, valid mine ((g, i) :: tasks) (k i)
  | Join g t k => g ∈ mine /\ (g, t) ∈ tasks /\ valid mine tasks k
  end.

(** The code asks for a cancel at most [n] times. *)
Inductive asks : nat -> code -> Prop :=
| asks_done : asks 0 Done
| asks_op n o k : asks n k -> asks n (DoOp o k)
| asks_ask n k : (forall b, asks n (k b)) -> asks (S n) (Ask k)
| asks_drop m n limit body k : asks m body -> asks n k -> asks (m + n) (DropIn limit body k)
| asks_within m n limit body k : asks m body -> asks n k -> asks (m + n) (WithinIn limit body k)
| asks_block m n body k : (forall g, asks m (body g)) -> asks n k -> asks (m + n) (Block body k)
| asks_spawn n g env file line k : (forall i, asks n (k i)) -> asks n (Spawn g env file line k)
| asks_join n g t k : asks n k -> asks n (Join g t k).

(** Other tasks go on: they may do anything but end the blocks of this one. *)
Definition keeps_group (s s' : Shared) (g : nat) : Prop :=
  forall gr, sh_groups s !! g = Some (Some gr) ->
    exists gr', sh_groups s' !! g = Some (Some gr') /\ gr_mark gr' = gr_mark gr /\ gr_outer gr' = gr_outer gr /\
      (length (gr_tasks gr) <= length (gr_tasks gr'))%nat.

Definition evolves (mine : list nat) (s s' : Shared) : Prop := forall g, g ∈ mine -> keeps_group s s' g.

#[export] Instance evolves_preorder mine : PreOrder (evolves mine).
Proof.
  split; [intros s g _ gr H; by exists gr|]. intros a b c H1 H2 g Hg gr H. destruct (H1 g Hg gr H) as (gr1 & E1 & M1 & O1 & L1).
  destruct (H2 g Hg gr1 E1) as (gr2 & E2 & M2 & O2 & L2). exists gr2. split_and!; [done|congruence|congruence|lia].
Qed.

Lemma evolves_sub mine mine' s s' : evolves mine' s s' -> (forall g, g ∈ mine -> g ∈ mine') -> evolves mine s s'.
Proof. intros H Hs g Hg. by apply H, Hs. Qed.

Section exec.
Context (cap : option Z) (who : nat).

(** The code runs, and between its operations the others do. *)
Inductive exec : list nat -> code -> TaskLocals -> Shared -> outcome (TaskLocals * Shared) -> Prop :=
| x_done mine l s s' : evolves mine s s' -> exec mine Done l s (Returns (l, s'))
| x_op mine o k l s s1 now l2 s2 r : evolves mine s s1 -> do_op cap now who o l s1 = Returns (l2, s2) ->
    exec mine k l2 s2 r -> exec mine (DoOp o k) l s r
| x_op_panics mine o k l s s1 now : evolves mine s s1 -> do_op cap now who o l s1 = Panics -> exec mine (DoOp o k) l s Panics
| x_ask mine k l s s1 now b l2 s2 r : evolves mine s s1 -> vx_cancelled who now l s1 = Returns (b, (l2, s2)) ->
    exec mine (k b) l2 s2 r -> exec mine (Ask k) l s r
| x_ask_panics mine k l s s1 now : evolves mine s s1 -> vx_cancelled who now l s1 = Panics -> exec mine (Ask k) l s Panics
| x_drop mine limit body k l s s1 now l2 s2 l3 r : evolves mine s s1 ->
    exec mine body (vx_cancel_off cap now limit l) s1 (Returns (l2, s2)) -> vx_cancel_on l2 = Returns l3 ->
    exec mine k l3 s2 r -> exec mine (DropIn limit body k) l s r
| x_drop_body mine limit body k l s s1 now : evolves mine s s1 ->
    exec mine body (vx_cancel_off cap now limit l) s1 Panics -> exec mine (DropIn limit body k) l s Panics
| x_drop_panics mine limit body k l s s1 now l2 s2 : evolves mine s s1 ->
    exec mine body (vx_cancel_off cap now limit l) s1 (Returns (l2, s2)) -> vx_cancel_on l2 = Panics ->
    exec mine (DropIn limit body k) l s Panics
| x_within mine limit body k l s s1 now l2 s2 l3 r : evolves mine s s1 ->
    exec mine body (vx_within_start now limit l) s1 (Returns (l2, s2)) -> vx_within_end l2 = Returns l3 ->
    exec mine k l3 s2 r -> exec mine (WithinIn limit body k) l s r
| x_within_body mine limit body k l s s1 now : evolves mine s s1 ->
    exec mine body (vx_within_start now limit l) s1 Panics -> exec mine (WithinIn limit body k) l s Panics
| x_within_panics mine limit body k l s s1 now l2 s2 : evolves mine s s1 ->
    exec mine body (vx_within_start now limit l) s1 (Returns (l2, s2)) -> vx_within_end l2 = Panics ->
    exec mine (WithinIn limit body k) l s Panics
| x_block mine body k l s s1 g l2 s2 l3 s3 l4 s4 r : evolves mine s s1 -> tasks_begin l s1 = (g, (l2, s2)) ->
    exec (g :: mine) (body g) l2 s2 (Returns (l3, s3)) -> tasks_joined g s3 = true -> vx_tasks_end who g l3 s3 = Returns (l4, s4) ->
    exec mine k l4 s4 r -> exec mine (Block body k) l s r
| x_block_body mine body k l s s1 g l2 s2 : evolves mine s s1 -> tasks_begin l s1 = (g, (l2, s2)) ->
    exec (g :: mine) (body g) l2 s2 Panics -> exec mine (Block body k) l s Panics
| x_block_panics mine body k l s s1 g l2 s2 l3 s3 : evolves mine s s1 -> tasks_begin l s1 = (g, (l2, s2)) ->
    exec (g :: mine) (body g) l2 s2 (Returns (l3, s3)) -> vx_tasks_end who g l3 s3 = Panics -> exec mine (Block body k) l s Panics
| x_spawn mine g env file line k l s s1 i s2 r : evolves mine s s1 -> vx_task_start_at g env file line l s1 = Returns (i, s2) ->
    exec mine (k i) l s2 r -> exec mine (Spawn g env file line k) l s r
| x_spawn_panics mine g env file line k l s s1 : evolves mine s s1 -> vx_task_start_at g env file line l s1 = Panics ->
    exec mine (Spawn g env file line k) l s Panics
| x_join mine g t k l s s1 r : evolves mine s s1 -> vx_task_join (Some g) t s1 = Returns true ->
    exec mine k l s1 r -> exec mine (Join g t k) l s r
| x_join_panics mine g t k l s s1 : evolves mine s s1 -> vx_task_join (Some g) t s1 = Panics -> exec mine (Join g t k) l s Panics.

(** The groups of the blocks around, and the tasks spawned in them, are there. *)
Definition blocks_open (mine : list nat) (tasks : list (nat * nat)) (s : Shared) : Prop :=
  forall g, g ∈ mine -> exists gr, sh_groups s !! g = Some (Some gr) /\ forall t, (g, t) ∈ tasks -> (t < length (gr_tasks gr))%nat.

Lemma blocks_open_evolves mine tasks s s' : blocks_open mine tasks s -> evolves mine s s' -> blocks_open mine tasks s'.
Proof.
  intros H E g Hg. destruct (H g Hg) as (gr & Hgr & Ht). destruct (E g Hg gr Hgr) as (gr' & H1 & _ & _ & H2). exists gr'. split; [done|].
  intros t Hin. specialize (Ht t Hin). lia.
Qed.

(** The scopes of the task are as before. *)
Definition same_scopes (n : Z) (l l' : TaskLocals) : Prop :=
  tl_mark l' = tl_mark l /\ tl_put_aside l' = tl_put_aside l /\ tl_cancels l <= tl_cancels l' <= tl_cancels l + n.

Lemma same_groups_evolves mine s s' : sh_groups s' = sh_groups s -> evolves mine s s'.
Proof. intros E g _ gr H. exists gr. by rewrite E. Qed.

Lemma simple_op mine tasks o now l s : simple mine o -> blocks_open mine tasks s ->
  exists l' s', do_op cap now who o l s = Returns (l', s') /\ evolves mine s s' /\ same_scopes 0 l l'.
Proof.
  intros Ho Hb. destruct o; try done; cbn [do_op].
  - eexists _, _. split_and!; [done|apply same_groups_evolves; unfold vx_task_failed; by destruct (tl_mark l)|split_and!; [done|done|lia..]].
  - pose proof (print_shared who text l s) as (_ & E & _ & E4 & E5). assert (tl_cancels (print who text l s).1 = tl_cancels l) as E6 by (unfold print; by repeat case_match).
    destruct (print who text l s) as [l' s']. cbn in *. eexists _, _. split_and!; [done|by apply same_groups_evolves|split_and!; [done|done|lia..]].
  - eexists _, _. split_and!; [done|done|split_and!; [done|done|cbn; lia..]].
  - cbn in Ho. destruct (Hb _ Ho) as (gr & Hgr & _). unfold vx_tasks_wait. rewrite Hgr. cbn. eexists _, _.
    split_and!; [done|by apply same_groups_evolves|split_and!; [done|done|lia..]].
Qed.

Lemma same_scopes_trans m n l1 l2 l3 : same_scopes m l1 l2 -> same_scopes n l2 l3 -> same_scopes (m + n) l1 l3.
Proof. intros (M1 & A1 & C1) (M2 & A2 & C2). split_and!; [congruence|congruence|lia..]. Qed.

(** A drop, a call of [within] and a block put back what they found. *)
Lemma drop_round now limit n l l2 : same_scopes n (vx_cancel_off cap now limit l) l2 ->
  exists l3, vx_cancel_on l2 = Returns l3 /\ same_scopes n l l3.
Proof.
  intros (M & A & C). cbn in M, A, C. unfold vx_cancel_on. rewrite A, M. cbn. eexists. split; [done|]. split_and!; cbn; [done|done|lia..].
Qed.

Lemma within_round now limit n l l2 : same_scopes n (vx_within_start now limit l) l2 ->
  exists l3, vx_within_end l2 = Returns l3 /\ same_scopes n l l3.
Proof.
  intros (M & A & C). cbn in M, A, C. unfold vx_within_end. rewrite A. cbn. eexists. split; [done|]. split_and!; cbn; [done|done|lia..].
Qed.

Lemma ask_round now l s : 0 <= tl_cancels l -> tl_cancels l + 1 <= umax 32 ->
  exists b l' s', vx_cancelled who now l s = Returns (b, (l', s')) /\ same_scopes 1 l l' /\ sh_groups s' = sh_groups s.
Proof.
  intros H0 H1. unfold vx_cancelled. destruct (current_is_set l s).
  - rewrite (proj2 (in_u_true 32 (tl_cancels l + 1))) by lia. eexists _, _, _. split_and!; [done|split_and!; cbn; [done|done|lia..]|by case_match].
  - eexists _, _, _. split_and!; [done|split_and!; [done|done|lia..]|done].
Qed.

Definition tasks_in (mine : list nat) (tasks : list (nat * nat)) : Prop := forall p, p ∈ tasks -> p.1 ∈ mine.

(** A new block is not one of those around. *)
Lemma block_new mine tasks s : blocks_open mine tasks s -> length (sh_groups s) ∉ mine.
Proof. intros H Hin. destruct (H _ Hin) as (gr & Hgr & _). apply lookup_lt_Some in Hgr. lia. Qed.

Lemma block_begin mine tasks l s g l2 s2 : blocks_open mine tasks s -> tasks_in mine tasks -> tasks_begin l s = (g, (l2, s2)) ->
  g ∉ mine /\ blocks_open (g :: mine) tasks s2 /\ evolves mine s s2 /\ tl_put_aside l2 = tl_put_aside l /\ tl_cancels l2 = tl_cancels l /\
  exists gr, sh_groups s2 !! g = Some (Some gr) /\ gr_outer gr = tl_mark l.
Proof.
  intros Hb Ht E. pose proof (block_new _ _ _ Hb) as Hg. unfold tasks_begin in E. cbn in E. injection E as <- <- <-. cbn.
  assert (forall x, x ∈ mine -> forall gr, sh_groups s !! x = Some gr ->
    (sh_groups s ++ [Some (mkGroup [] (length (sh_marks s)) (tl_mark l))]) !! x = Some gr) as Hold.
  { intros x _ gr Hx. by apply lookup_app_l_Some. }
  split_and!; [done| | |done|done|].
  - intros x [->|Hx]%elem_of_cons; cbn.
    + rewrite list_lookup_middle by done. eexists. split; [done|]. intros t Hin. by apply Ht in Hin.
    + destruct (Hb x Hx) as (gr & Hgr & Hl). exists gr. split; [by apply Hold|done].
  - intros x Hx gr Hgr. exists gr. cbn. split_and!; [by apply Hold|done..].
  - rewrite list_lookup_middle by done. by eexists.
Qed.

Lemma block_end mine g gr l s : g ∉ mine -> sh_groups s !! g = Some (Some gr) ->
  exists l' s', vx_tasks_end who g l s = Returns (l', s') /\ evolves mine s s' /\
    tl_mark l' = gr_outer gr /\ tl_put_aside l' = tl_put_aside l /\ tl_cancels l' = tl_cancels l.
Proof.
  intros Hg Hgr. unfold vx_tasks_end. rewrite Hgr.
  assert (forall s', evolves mine s (with_freed s' (with_groups (<[g := None]> (sh_groups s)) s))) as He.
  { intros s' x Hx gx Hgx. exists gx. cbn. rewrite list_lookup_insert_ne by (intros <-; done). done. }
  unfold flush. case_bool_decide; (eexists _, _; split; [reflexivity|split_and!; [|done..]]); [apply He|].
  etrans; [apply (He (sh_freed s))|]. by apply same_groups_evolves.
Qed.

Lemma spawn_open mine tasks g env file line l s : blocks_open mine tasks s -> g ∈ mine ->
  exists i s', vx_task_start_at g env file line l s = Returns (i, s') /\ evolves mine s s' /\ blocks_open mine ((g, i) :: tasks) s'.
Proof.
  intros Hb Hg. destruct (Hb g Hg) as (gr & Hgr & Hl). unfold vx_task_start_at. rewrite Hgr. eexists _, _. split; [reflexivity|].
  pose proof (lookup_lt_Some _ _ _ Hgr) as Hlt.
  split; intros x Hx.
  - intros gx Hgx. cbn. destruct (decide (x = g)) as [->|Hne].
    + rewrite list_lookup_insert_eq by done. eexists. split; [done|]. cbn. rewrite length_app. assert (gx = gr) as -> by congruence. split_and!; [done|done|lia].
    + rewrite list_lookup_insert_ne by done. by exists gx.
  - cbn. destruct (decide (x = g)) as [->|Hne].
    + rewrite list_lookup_insert_eq by done. eexists. split; [done|]. cbn. rewrite length_app. cbn.
      intros t [[= ->]|Ht]%elem_of_cons; [lia|]. specialize (Hl t Ht). lia.
    + rewrite list_lookup_insert_ne by done. destruct (Hb x Hx) as (gx & Hgx & Hlx). exists gx. split; [done|].
      intros t [[= ]|Ht]%elem_of_cons; [done|]. by apply Hlx.
Qed.

(** What a piece of code does to its task and to the blocks around it. *)
Definition kept (n : Z) (mine : list nat) (l : TaskLocals) (s : Shared) (r : outcome (TaskLocals * Shared)) : Prop :=
  exists l' s', r = Returns (l', s') /\ same_scopes n l l' /\ evolves mine s s'.

Lemma kept_then m n mine l s l2 s2 r : same_scopes m l l2 -> evolves mine s s2 -> kept n mine l2 s2 r -> kept (m + n) mine l s r.
Proof.
  intros H1 H2 (l' & s' & -> & H3 & H4). exists l', s'. split_and!; [done|by eapply same_scopes_trans|by etrans].
Qed.

Lemma kept_returns n mine l s l2 s2 : kept n mine l s (Returns (l2, s2)) -> same_scopes n l l2 /\ evolves mine s s2.
Proof. by intros (? & ? & [= -> ->] & ? & ?). Qed.

Lemma kept_panics n mine l s : ~ kept n mine l s Panics.
Proof. by intros (? & ? & ? & _). Qed.

Lemma kept_after n mine l s s1 r : evolves mine s s1 -> kept n mine l s1 r -> kept n mine l s r.
Proof. intros E (l' & s' & -> & H1 & H2). exists l', s'. split_and!; [done|done|by etrans]. Qed.

(** The code can run here: what it uses is there, and the count of its cancels fits. *)
Record can_run (tasks : list (nat * nat)) (n : nat) (mine : list nat) (c : code) (l : TaskLocals) (s : Shared) : Prop := {
  cr_valid : valid mine tasks c;
  cr_asks : asks n c;
  cr_tasks : tasks_in mine tasks;
  cr_cancels : 0 <= tl_cancels l /\ tl_cancels l + Z.of_nat n <= umax 32;
  cr_open : blocks_open mine tasks s;
}.

(** After a first part that keeps the scopes. *)
Lemma can_run_next tasks m n mine k l s l2 s2 : valid mine tasks k -> asks n k -> tasks_in mine tasks ->
  0 <= tl_cancels l -> tl_cancels l + (m + Z.of_nat n) <= umax 32 -> same_scopes m l l2 -> blocks_open mine tasks s -> evolves mine s s2 ->
  can_run tasks n mine k l2 s2.
Proof. intros ????? (_ & _ & ?) ??. split; [done..|lia|by eapply blocks_open_evolves]. Qed.

Definition keeps mine c l s r : Prop := forall tasks n, can_run tasks n mine c l s -> kept (Z.of_nat n) mine l s r.

Lemma keeps_after mine c l s s1 r : evolves mine s s1 -> keeps mine c l s1 r -> keeps mine c l s r.
Proof.
  intros E H tasks n [V A T C B]. eapply kept_after; [exact E|]. apply (H tasks). split; [done..|by eapply blocks_open_evolves].
Qed.

Lemma keeps_op mine o k l s now r : (forall l2 s2, do_op cap now who o l s = Returns (l2, s2) -> keeps mine k l2 s2 r) ->
  keeps mine (DoOp o k) l s (if do_op cap now who o l s is Returns _ then r else Panics).
Proof.
  intros IH tasks n [[V1 V2] A T C B]. inversion A; subst. destruct (simple_op mine tasks o now l s V1 B) as (l2 & s2 & E & G1 & G2).
  rewrite E. apply (kept_then 0 _ mine l s l2 s2); [done|done|]. apply (IH _ _ E tasks). by eapply (can_run_next tasks 0 n mine k l s); try lia.
Qed.

Lemma keeps_ask mine k l s now r : (forall b l2 s2, vx_cancelled who now l s = Returns (b, (l2, s2)) -> keeps mine (k b) l2 s2 r) ->
  keeps mine (Ask k) l s (if vx_cancelled who now l s is Returns _ then r else Panics).
Proof.
  intros IH tasks n [V A T C B]. inversion A as [| |n' k' Hk| | | | |]; subst. rewrite Nat2Z.inj_succ in *.
  destruct (ask_round now l s) as (b & l2 & s2 & E & H1 & H2); [lia..|]. pose proof (same_groups_evolves mine _ _ H2) as H3.
  rewrite E. replace (Z.succ (Z.of_nat n')) with (1 + Z.of_nat n') by lia. apply (kept_then 1 _ mine l s l2 s2); [done|done|].
  apply (IH _ _ _ E tasks). by eapply (can_run_next tasks 1 n' mine (k b) l s); try lia.
Qed.

(** A scope of its own around the body: [enter] and [leave] are those of a drop or of [within]. *)
Lemma keeps_scope enter leave mine body k l s l2 s2 r tasks m n :
  (forall l2, same_scopes (Z.of_nat m) enter l2 -> exists l3, leave l2 = Returns l3 /\ same_scopes (Z.of_nat m) l l3) -> tl_cancels enter = tl_cancels l ->
  valid mine tasks body /\ valid mine tasks k -> asks m body -> asks n k -> tasks_in mine tasks ->
  0 <= tl_cancels l /\ tl_cancels l + Z.of_nat (m + n) <= umax 32 -> blocks_open mine tasks s ->
  keeps mine body enter s (Returns (l2, s2)) -> (forall l3, leave l2 = Returns l3 -> keeps mine k l3 s2 r) ->
  kept (Z.of_nat (m + n)) mine l s (if leave l2 is Returns _ then r else Panics).
Proof.
  intros Hround Ec [V1 V2] A1 A2 T C B Hbody Hk. rewrite Nat2Z.inj_add in *.
  destruct (kept_returns _ _ _ _ _ _ (Hbody tasks m ltac:(split; [done|done|done|lia|done]))) as [H1 H2].
  destruct (Hround l2 H1) as (l3 & E3 & H3). rewrite E3. eapply kept_then; [exact H3|exact H2|]. apply (Hk _ E3 tasks).
  by eapply (can_run_next tasks (Z.of_nat m) n mine k l s); try lia.
Qed.

Lemma keeps_scope_panics enter mine body l s tasks m n : tl_cancels enter = tl_cancels l ->
  valid mine tasks body -> asks m body -> tasks_in mine tasks ->
  0 <= tl_cancels l /\ tl_cancels l + Z.of_nat (m + n) <= umax 32 -> blocks_open mine tasks s -> ~ keeps mine body enter s Panics.
Proof.
  intros Ec V A T C B Hbody. rewrite Nat2Z.inj_add in *. apply (kept_panics (Z.of_nat m) mine enter s), (Hbody tasks m).
  split; [done|done|done|lia|done].
Qed.

Lemma tasks_in_cons g mine tasks : tasks_in mine tasks -> tasks_in (g :: mine) tasks.
Proof. intros T p Hp. right. by apply T. Qed.

Lemma keeps_block mine body k l s g l2 s2 l3 s3 r : tasks_begin l s = (g, (l2, s2)) -> keeps (g :: mine) (body g) l2 s2 (Returns (l3, s3)) ->
  (forall l4 s4, vx_tasks_end who g l3 s3 = Returns (l4, s4) -> keeps mine k l4 s4 r) ->
  keeps mine (Block body k) l s (if vx_tasks_end who g l3 s3 is Returns _ then r else Panics).
Proof.
  intros E Hbody Hk tasks nn [[V1 V2] A T C B]. inversion A as [| | | | |m n body' k' A1 A2| |]; subst. rewrite Nat2Z.inj_add in *.
  destruct (block_begin _ _ _ _ _ _ _ B T E) as (Hg & B2 & E2 & P2 & C2 & gr & Hgr & Ho).
  destruct (kept_returns _ _ _ _ _ _ (Hbody tasks m ltac:(split; [done|done|by apply tasks_in_cons|lia|done]))) as [(M3 & P3 & C3) E3].
  destruct (E3 g ltac:(by left) gr Hgr) as (gr' & Hgr' & _ & Ho' & _).
  destruct (block_end mine g gr' l3 s3 Hg Hgr') as (l4 & s4 & E4 & Ev4 & M4 & P4 & C4). rewrite E4.
  assert (same_scopes (Z.of_nat m) l l4) as Hl by (split_and!; [congruence|congruence|lia..]).
  assert (evolves mine s s4) as Hs by (etrans; [exact E2|etrans; [eapply evolves_sub; [exact E3|by right]|exact Ev4]]).
  eapply kept_then; [exact Hl|exact Hs|]. apply (Hk _ _ E4 tasks). by eapply (can_run_next tasks (Z.of_nat m) n mine k l s); try lia.
Qed.

Lemma keeps_block_panics mine body k l s g l2 s2 : tasks_begin l s = (g, (l2, s2)) -> keeps (g :: mine) (body g) l2 s2 Panics ->
  keeps mine (Block body k) l s Panics.
Proof.
  intros E Hbody tasks nn [[V1 V2] A T C B]. inversion A as [| | | | |m n body' k' A1 A2| |]; subst. rewrite Nat2Z.inj_add in *.
  destruct (block_begin _ _ _ _ _ _ _ B T E) as (Hg & B2 & E2 & P2 & C2 & gr & Hgr & Ho). exfalso.
  apply (kept_panics (Z.of_nat m) (g :: mine) l2 s2), (Hbody tasks m). split; [done|done|by apply tasks_in_cons|lia|done].
Qed.

Lemma keeps_spawn mine g env file line k l s r : (forall i s2, vx_task_start_at g env file line l s = Returns (i, s2) -> keeps mine (k i) l s2 r) ->
  keeps mine (Spawn g env file line k) l s (if vx_task_start_at g env file line l s is Returns _ then r else Panics).
Proof.
  intros IH tasks n [[Vg V] A T C B]. inversion A; subst. destruct (spawn_open mine tasks g env file line l s B Vg) as (i & s2 & E & Ev & B2).
  rewrite E. eapply kept_after; [exact Ev|]. apply (IH _ _ E ((g, i) :: tasks)). split; [done|done| |done|done].
  intros p [->|Hp]%elem_of_cons; [done|by apply T].
Qed.

Lemma keeps_join mine g t k l s r : keeps mine k l s r ->
  keeps mine (Join g t k) l s (if vx_task_join (Some g) t s is Returns _ then r else Panics).
Proof.
  intros IH tasks n [(Vg & Vt & V) A T C B]. inversion A; subst. cbn. destruct (B g Vg) as (gr & -> & Hl).
  destruct (lookup_lt_is_Some_2 _ _ (Hl t Vt)) as [x ->]. by apply (IH tasks).
Qed.

Lemma keeps_join_panics mine g t k l s : vx_task_join (Some g) t s = Panics -> keeps mine (Join g t k) l s Panics.
Proof.
  intros E tasks n [(Vg & Vt & _) _ _ _ B]. cbn in E. destruct (B g Vg) as (gr & Hgr & Hl). rewrite Hgr in E.
  by destruct (lookup_lt_is_Some_2 _ _ (Hl t Vt)) as [x Hx]; rewrite Hx in E.
Qed.

Lemma keeps_drop mine limit body k l s now l2 s2 r : keeps mine body (vx_cancel_off cap now limit l) s (Returns (l2, s2)) ->
  (forall l3, vx_cancel_on l2 = Returns l3 -> keeps mine k l3 s2 r) ->
  keeps mine (DropIn limit body k) l s (if vx_cancel_on l2 is Returns _ then r else Panics).
Proof.
  intros Hbody Hk tasks nn [V A T C B]. inversion A; subst. eapply (keeps_scope (vx_cancel_off cap now limit l) vx_cancel_on); try done.
  apply drop_round.
Qed.

Lemma keeps_within mine limit body k l s now l2 s2 r : keeps mine body (vx_within_start now limit l) s (Returns (l2, s2)) ->
  (forall l3, vx_within_end l2 = Returns l3 -> keeps mine k l3 s2 r) ->
  keeps mine (WithinIn limit body k) l s (if vx_within_end l2 is Returns _ then r else Panics).
Proof.
  intros Hbody Hk tasks nn [V A T C B]. inversion A; subst. eapply (keeps_scope (vx_within_start now limit l) vx_within_end); try done.
  apply within_round.
Qed.

Lemma exec_keeps mine c l s r : exec mine c l s r -> keeps mine c l s r.
Proof.
  induction 1 as [mine l s s' E|mine o k l s s1 now l2 s2 r E Eo _ IH|mine o k l s s1 now E Eo
    |mine k l s s1 now b l2 s2 r E Ea _ IH|mine k l s s1 now E Ea
    |mine limit body k l s s1 now l2 s2 l3 r E _ IHb Eo _ IHk|mine limit body k l s s1 now E _ IHb|mine limit body k l s s1 now l2 s2 E _ IHb Eo
    |mine limit body k l s s1 now l2 s2 l3 r E _ IHb Eo _ IHk|mine limit body k l s s1 now E _ IHb|mine limit body k l s s1 now l2 s2 E _ IHb Eo
    |mine body k l s s1 g l2 s2 l3 s3 l4 s4 r E Eb _ IHb _ Ee _ IHk|mine body k l s s1 g l2 s2 E Eb _ IHb|mine body k l s s1 g l2 s2 l3 s3 E Eb _ IHb Ee
    |mine g env file line k l s s1 i s2 r E Es _ IH|mine g env file line k l s s1 E Es
    |mine g t k l s s1 r E Ej _ IH|mine g t k l s s1 E Ej]; [|eapply keeps_after; [exact E|]..].
  - intros tasks n [_ A _ _ _]. inversion A. exists l, s'. split_and!; [done|split_and!; [done|done|lia..]|done].
  - pose proof (keeps_op mine o k l s1 now r) as H. rewrite Eo in H. apply H. by intros ?? [= <- <-].
  - pose proof (keeps_op mine o k l s1 now Panics) as H. rewrite Eo in H. by apply H.
  - pose proof (keeps_ask mine k l s1 now r) as H. rewrite Ea in H. apply H. by intros ??? [= <- <- <-].
  - pose proof (keeps_ask mine k l s1 now Panics) as H. rewrite Ea in H. by apply H.
  - pose proof (keeps_drop mine limit body k l s1 now l2 s2 r IHb) as H. rewrite Eo in H. apply H. by intros ? [= <-].
  - intros tasks nn [[V _] A T C B]. inversion A; subst. exfalso. eapply (keeps_scope_panics _ mine body l s1); [..|exact IHb]; done.
  - pose proof (keeps_drop mine limit body k l s1 now l2 s2 Panics IHb) as H. rewrite Eo in H. by apply H.
  - pose proof (keeps_within mine limit body k l s1 now l2 s2 r IHb) as H. rewrite Eo in H. apply H. by intros ? [= <-].
  - intros tasks nn [[V _] A T C B]. inversion A; subst. exfalso. eapply (keeps_scope_panics _ mine body l s1); [..|exact IHb]; done.
  - pose proof (keeps_within mine limit body k l s1 now l2 s2 Panics IHb) as H. rewrite Eo in H. by apply H.
  - pose proof (keeps_block mine body k l s1 g l2 s2 l3 s3 r Eb IHb) as H. rewrite Ee in H. apply H. by intros ?? [= <- <-].
  - by eapply keeps_block_panics.
  - pose proof (keeps_block mine body k l s1 g l2 s2 l3 s3 Panics Eb IHb) as H. rewrite Ee in H. by apply H.
  - pose proof (keeps_spawn mine g env file line k l s1 r) as H. rewrite Es in H. apply H. by intros ?? [= <- <-].
  - pose proof (keeps_spawn mine g env file line k l s1 Panics) as H. rewrite Es in H. by apply H.
  - pose proof (keeps_join mine g t k l s1 r IH) as H. by rewrite Ej in H.
  - by apply keeps_join_panics.
Qed.

(** C12. Code that nests drops, calls of [within] and blocks of tasks never meets an abort of the runtime, whatever the other
    tasks do in between: when it is done, its task has the cancel mark and the scopes that it had before, so a cancel that was
    put aside for a drop is seen again after it. *)
Theorem code_keeps_its_scopes n c l s r : valid [] [] c -> asks n c ->
  0 <= tl_cancels l -> tl_cancels l + Z.of_nat n <= umax 32 -> exec [] c l s r ->
  exists l' s', r = Returns (l', s') /\ tl_mark l' = tl_mark l /\ tl_put_aside l' = tl_put_aside l.
Proof.
  intros V A C0 C1 X. destruct (exec_keeps _ _ _ _ _ X [] n) as (l' & s' & -> & (M & P & _) & _).
  - split; [done|done|by intros p Hp%elem_of_nil|done|by intros g Hg%elem_of_nil].
  - by exists l', s'.
Qed.
End exec.

(** A block with one task: a drop asks for a cancel while the task ends, and then the block joins it. *)
Definition demo_code : code :=
  Block (fun g => Spawn g 7 (Some "a.vx") 3 (fun i => DropIn 5 (Ask (fun _ => Done)) (Join g i Done))) Done.
Definition demo_shared : Shared := mkShared [mkCancelMark true None] [] 0 [] [] [] [TaskLocals_default] [].
Definition demo_locals : TaskLocals := mkTaskLocals (Some 0%nat) [] "" false None 4.

Lemma demo_runs : exists r, exec None 0 [] demo_code demo_locals demo_shared r.
Proof.
  eexists. eapply (x_block None 0 []).
  - reflexivity.
  - reflexivity.
  - eapply (x_spawn None 0 [0%nat]); [reflexivity|reflexivity|]. eapply (x_drop None 0 [0%nat]) with (now := 10).
    + reflexivity.
    + eapply (x_ask None 0 [0%nat]) with (now := 11); [reflexivity|reflexivity|]. by constructor.
    + reflexivity.
    + match goal with |- exec _ _ _ _ _ ?s _ => eapply (x_join None 0 [0%nat]) with (s1 := with_ended [1%nat] s) end; [|reflexivity|by constructor].
      by apply same_groups_evolves.
  - reflexivity.
  - reflexivity.
  - by constructor.
Qed.

Lemma code_keeps_its_scopes_witness : exists r, exec None 0 [] demo_code demo_locals demo_shared r /\
  exists l' s', r = Returns (l', s') /\ tl_mark l' = Some 0%nat /\ tl_put_aside l' = [].
Proof.
  destruct demo_runs as [r X]. exists r. split; [exact X|].
  apply (code_keeps_its_scopes None 0 1 demo_code demo_locals demo_shared r); [| |done|done|exact X].
  - split; [|done]. intros g. split; [by left|]. intros i. split; [by intros []|]. split_and!; [by left|by left|done].
  - apply (asks_block 1 0); [intros g|constructor]. apply asks_spawn. intros i. apply (asks_drop 1 0); [|repeat constructor].
    apply asks_ask. constructor.
Defined.
