(* ===== verification/TasksLines.v ===== *)
(** * The lines that tasks print

    While tasks run, each keeps the line it has begun and writes whole lines.
    Over any run in which several tasks print: nothing that a task printed is
    lost, doubled or out of order, and no write of one task lands inside a line
    of another. *)

From stdpp Require Import base functions list strings gmap.
From Stdlib Require Import ZArith Lia Ascii.
From S2P Require Import Prelude Tasks TasksSound.
Open Scope Z_scope.
Open Scope vx_scope.

(** ** Text *)

Fixpoint has_newline (s : string) : bool :=
  match s with EmptyString => false | String c s => Ascii.eqb c newline || has_newline s end.

Definition ends_line (s : string) : Prop := exists x, s = x +:+ nl.

Lemma last_newline_Some s a b : last_newline s = Some (a, b) -> s = a +:+ b /\ ends_line a /\ has_newline b = false.
Proof.
  revert a b. induction s as [|c s IH]; intros a b; cbn; [done|]. destruct (last_newline s) as [[x y]|] eqn:E.
  - intros [= <- <-]. destruct (IH x y eq_refl) as (-> & [z ->] & Hb). split_and!; [done|by exists (String c z)|done].
  - destruct (Ascii.eqb_spec c newline) as [->|Hc]; [|done]. intros [= <- <-]. split_and!; [done|by exists ""|].
    clear IH. induction s as [|d s IH]; [done|]. cbn in E. destruct (last_newline s) as [[x y]|]; [done|].
    destruct (Ascii.eqb d newline) eqn:Ed; [done|]. cbn. rewrite Ed. by apply IH.
Qed.

Lemma last_newline_None s : last_newline s = None -> has_newline s = false.
Proof.
  induction s as [|c s IH]; cbn; [done|]. destruct (last_newline s) as [[x y]|]; [done|]. destruct (Ascii.eqb c newline); [done|]. intros _. by apply IH.
Qed.

(** What the writes of a task hold together. *)
Fixpoint written (a : nat) (out : list (nat * string)) : string :=
  match out with [] => "" | (b, x) :: out => (if decide (b = a) then x else "") +:+ written a out end.

Lemma written_app a x y : written a (x ++ y) = written a x +:+ written a y.
Proof. induction x as [|[b t] x IH]; cbn; [done|]. by rewrite IH, <-append_assoc. Qed.

(** ** One operation *)

(** What the operation adds to the standard output of its task. *)
Definition text_of (o : op) (l : TaskLocals) : string := match o with Print text => if tl_to_stderr l then "" else text | _ => "" end.

(** The rest of a line comes out when the task ends, or its block. *)
Definition flushes (o : op) : bool := match o with End _ | Ends => true | _ => false end.

(** The writes of one operation: whole lines, or the rest of one. *)
Definition good_chunk (o : op) (x : string) : Prop := ends_line x \/ (flushes o = true /\ has_newline x = false).

(** The lines of the task with the locals [l] before the operation, and [l'] after it. *)
Definition line_kept (busy : Prop) (o : op) (who : nat) (l l' : TaskLocals) (s s' : Shared) : Prop :=
  exists new, sh_out s' = sh_out s ++ new /\ (forall p, p ∈ new -> p.1 = who /\ (busy -> good_chunk o p.2)) /\
    tl_line l +:+ text_of o l = written who new +:+ tl_line l' /\ has_newline (tl_line l') = false.

(** Most operations print nothing. *)
Lemma quiet_line busy o who l l' s s' : text_of o l = "" -> sh_out s' = sh_out s -> tl_line l' = tl_line l ->
  has_newline (tl_line l) = false -> line_kept busy o who l l' s s'.
Proof.
  intros E1 E2 E3 H. exists []. rewrite E1, E2, E3, app_nil_r, append_nil_r. split_and!; [done|by intros p Hp%elem_of_nil|done|done].
Qed.

Lemma one_write busy o who x l l' s s' : sh_out s' = sh_out s ++ [(who, x)] -> (busy -> good_chunk o x) ->
  tl_line l +:+ text_of o l = x +:+ tl_line l' -> has_newline (tl_line l') = false -> line_kept busy o who l l' s s'.
Proof.
  intros E1 Hg E2 Hn. exists [(who, x)]. split_and!; [done| | |done].
  - by intros p ->%list_elem_of_singleton.
  - cbn. by rewrite decide_True, append_nil_r.
Qed.

Lemma flush_line busy o who l s : flushes o = true -> text_of o l = "" -> has_newline (tl_line l) = false ->
  line_kept busy o who l (flush who l s).1 s (flush who l s).2.
Proof.
  intros Hf Ht Hn. unfold flush. case_bool_decide as E; cbn; [by apply quiet_line|].
  apply (one_write _ _ _ (tl_line l)); [done|by right|by rewrite Ht|done].
Qed.

Lemma print_line who text l s : has_newline (tl_line l) = false ->
  line_kept (sh_running s <> 0) (Print text) who l (print who text l s).1 s (print who text l s).2.
Proof.
  intros Hn. unfold print. destruct (tl_to_stderr l) eqn:Es; cbn; [apply quiet_line; cbn; by rewrite ?Es|].
  destruct ((sh_running s =? 0) && bool_decide (tl_line l = "")) eqn:Er.
  - apply andb_true_iff in Er as [E0%Z.eqb_eq E1%bool_decide_eq_true]. apply (one_write _ _ _ text); [done|done| |done].
    cbn. by rewrite Es, E1, append_nil_r.
  - destruct (last_newline (tl_line l +:+ text)) as [[x y]|] eqn:El; cbn.
    + destruct (last_newline_Some _ _ _ El) as (E & He & Hy). apply (one_write _ _ _ x); [done|by left|cbn; by rewrite Es|done].
    + exists []. cbn. rewrite Es, app_nil_r. split_and!; [done|by intros p Hp%elem_of_nil|done|by apply last_newline_None].
Qed.

Section lines.
Context (cap : option Z).

Lemma do_op_line now who o l s l' s' : has_newline (tl_line l) = false -> do_op cap now who o l s = Returns (l', s') ->
  line_kept (sh_running s <> 0) o who l l' s s'.
Proof.
  intros Hn. destruct o; cbn [do_op].
  - intros [= <- <-]. apply quiet_line; try done. unfold vx_task_failed. by destruct (tl_mark l).
  - intros ([b [l0 s0]] & Hr & [= <- <-])%outcome_bind_Returns. unfold vx_cancelled in Hr.
    repeat case_match; simplify_eq; by apply quiet_line.
  - intros [= <- <-]. by apply quiet_line.
  - intros (l1 & Hl & [= <- <-])%outcome_bind_Returns. unfold vx_cancel_on in Hl. repeat case_match; simplify_eq; by apply quiet_line.
  - intros [= <- <-]. by apply quiet_line.
  - intros (l1 & Hl & [= <- <-])%outcome_bind_Returns. unfold vx_within_end in Hl. repeat case_match; simplify_eq; by apply quiet_line.
  - intros [= H]. pose proof (print_line who text l s Hn) as P. by rewrite H in P.
  - intros [= <- <-]. by apply quiet_line.
  - intros [= <- <-]. by apply quiet_line.
  - intros ([n s1] & Hr & [= <- <-])%outcome_bind_Returns. unfold vx_task_start_at in Hr. repeat case_match; simplify_eq; by apply quiet_line.
  - intros (s1 & Hr & [= <- <-])%outcome_bind_Returns. unfold vx_tasks_wait in Hr. repeat case_match; simplify_eq; by apply quiet_line.
  - unfold vx_tasks_end. destruct (sh_groups s !! group) as [[g|]|]; [|done..]. intros [= H].
    match type of H with flush ?w ?a ?b = _ => pose proof (flush_line (sh_running s <> 0) (End group) w a b eq_refl eq_refl Hn) as P end.
    by rewrite H in P.
  - intros [= H]. unfold task_ends, lines_task_ended in H. pose proof (flush_line (sh_running s <> 0) Ends who l s eq_refl eq_refl Hn) as P.
    destruct (flush who l s) as [l1 s1]. cbn in *. by injection H as <- <-.
Qed.

(** New tasks have an empty line. *)
Definition started_empty (s : Shared) : Prop := forall i l, sh_started s !! i = Some l -> tl_line l = "".

Lemma do_op_started_empty now who o l s l' s' : started_empty s -> do_op cap now who o l s = Returns (l', s') -> started_empty s'.
Proof.
  intros H Hop i l0 Hi. destruct (do_op_started _ _ _ _ _ _ _ _ Hop) as (new & E & Hnew). rewrite E in Hi.
  apply lookup_app_Some in Hi as [Hi|[_ Hi]]; [by eapply H|]. by apply (Forall_lookup_1 _ _ _ _ Hnew Hi).
Qed.

(** ** Runs *)

(** A run in which some task always runs; the texts are what the tasks printed, in order. *)
Inductive busy_run : World -> list (nat * op) -> list (nat * string) -> World -> Prop :=
| busy_nil w : busy_run w [] [] w
| busy_snoc w1 w2 w3 es ts a o : busy_run w1 es ts w2 -> sh_running (w_shared w2) <> 0 -> task_step cap w2 (a, o) w3 ->
    busy_run w1 (es ++ [(a, o)]) (ts ++ [(a, text_of o (locals_of w2 a))]) w3.

(** No task keeps more than a part of a line. *)
Definition lines_wf (w : World) : Prop := started_empty (w_shared w) /\ forall a, has_newline (tl_line (locals_of w a)) = false.

Lemma first_line_empty s a : started_empty s -> tl_line (first_locals s a) = "".
Proof. intros H. unfold first_locals. destruct (sh_started s !! a) as [l|] eqn:E; [by eapply H|done]. Qed.

Lemma other_line w s' a b l' : started_empty (w_shared w) -> started_empty s' -> b <> a ->
  tl_line (locals_of (mkWorld s' (<[a := l']> (w_locals w))) b) = tl_line (locals_of w b).
Proof.
  intros H1 H2 Hne. unfold locals_of. cbn. rewrite lookup_insert_ne by done.
  destruct (w_locals w !! b); cbn; [done|]. by rewrite !first_line_empty.
Qed.

Lemma own_line w s' a l' : locals_of (mkWorld s' (<[a := l']> (w_locals w))) a = l'.
Proof. unfold locals_of. cbn. by rewrite lookup_insert_eq. Qed.

Lemma written_other a b new : (forall p, p ∈ new -> p.1 = a) -> b <> a -> written b new = "".
Proof.
  intros H Hne. induction new as [|[c x] new IH]; [done|]. cbn. rewrite decide_False.
  - apply IH. intros p Hp. apply H. by right.
  - intros ->. apply Hne. apply (H (b, x)). by left.
Qed.

(** A task's writes, with the line it keeps, are what it printed; and every write is whole lines, or the rest of a line. *)
Record lines_of_run (w w' : World) (es : list (nat * op)) (ts new : list (nat * string)) : Prop := {
  lr_out : sh_out (w_shared w') = sh_out (w_shared w) ++ new;
  lr_text : forall a, tl_line (locals_of w a) +:+ written a ts = written a new +:+ tl_line (locals_of w' a);
  lr_chunks : forall a x, (a, x) ∈ new -> ends_line x \/ (has_newline x = false /\ exists o, (a, o) ∈ es /\ flushes o = true);
}.

Lemma run_lines w es ts w' : busy_run w es ts w' -> lines_wf w -> lines_wf w' /\ exists new, lines_of_run w w' es ts new.
Proof.
  induction 1 as [w|w1 w2 w3 es ts a o _ IH Hbusy Hstep]; intros W.
  { split; [done|]. exists []. split; [by rewrite app_nil_r|intros a; apply append_nil_r|by intros a x Hx%elem_of_nil]. }
  destruct (IH W) as ([S2 N2] & new & [O T C]). inversion Hstep as [now a' o' w l' s' _ Hop]; subst.
  destruct (do_op_line _ _ _ _ _ _ _ (N2 a) Hop) as (chunk & Eo & Hc & Et & Hn').
  pose proof (do_op_started_empty _ _ _ _ _ _ _ S2 Hop) as S3.
  split; [split; [exact S3|]|exists (new ++ chunk); split; cbn [w_shared]].
  - intros b. destruct (decide (b = a)) as [->|Hne]; [by rewrite own_line|]. by rewrite other_line.
  - by rewrite Eo, O, app_assoc.
  - intros b. rewrite !written_app, <-append_assoc, T, append_assoc, append_assoc. f_equal. cbn. destruct (decide (b = a)) as [->|Hne].
    + rewrite own_line, decide_True, append_nil_r by done. exact Et.
    + rewrite other_line, decide_False by done. rewrite (written_other a b chunk); [by rewrite !append_nil_r|by intros p Hp; apply Hc|done].
  - intros b x [Hx|Hx]%elem_of_app.
    + destruct (C b x Hx) as [?|(? & o1 & ? & ?)]; [by left|]. right. split; [done|]. exists o1. split; [apply elem_of_app; by left|done].
    + destruct (Hc _ Hx) as [Ha Hg]. cbn in Ha. subst b. destruct (Hg Hbusy) as [?|[Hf ?]]; [by left|].
      right. split; [done|]. exists o. split; [apply elem_of_app; right; by left|done].
Qed.

(** C14. While tasks run, their lines do not mix: in any run of any operations of any tasks, what a task writes, with the part
    of a line that it keeps, is exactly what it printed, in order; every write is whole lines, so it does not land inside a
    line of another task, but for the rest of a line at the end of a task or a block; and no task keeps a line that it has
    finished. *)
Theorem lines_do_not_mix w es ts w' : lines_wf w -> busy_run w es ts w' ->
  exists new, sh_out (w_shared w') = sh_out (w_shared w) ++ new /\
    (forall a, tl_line (locals_of w a) +:+ written a ts = written a new +:+ tl_line (locals_of w' a)) /\
    (forall a x, (a, x) ∈ new -> ends_line x \/ (has_newline x = false /\ exists o, (a, o) ∈ es /\ flushes o = true)) /\
    forall a, has_newline (tl_line (locals_of w' a)) = false.
Proof. intros W H. destruct (run_lines _ _ _ _ H W) as ([_ N] & new & [O T C]). by exists new. Qed.
End lines.

(** Two tasks that print parts of lines in turns. *)
Definition two_tasks : World :=
  mkWorld (mkShared [mkCancelMark false None] [] 2 [] [] [] [TaskLocals_default; spawned_locals 0 None; spawned_locals 0 None] []) ∅.
Definition in_turns : list (nat * op) :=
  [(1%nat, Print "on"); (2%nat, Print "tw"); (1%nat, Print ("e" +:+ nl +:+ "th")); (2%nat, Print ("o" +:+ nl)); (1%nat, Ends)].

Lemma two_run : exists ts w', busy_run None two_tasks in_turns ts w'.
Proof.
  assert (forall w es ts w2 a o l' s', busy_run None w es ts w2 -> sh_running (w_shared w2) <> 0 -> may_go_on o (w_shared w2) ->
    do_op None 0 a o (locals_of w2 a) (w_shared w2) = Returns (l', s') ->
    busy_run None w (es ++ [(a, o)]) (ts ++ [(a, text_of o (locals_of w2 a))]) (mkWorld s' (<[a := l']> (w_locals w2)))) as next.
  { intros. eapply busy_snoc; [done|done|]. by eapply task_step_intro. }
  pose proof (busy_nil None two_tasks) as R.
  do 5 (match type of R with busy_run _ _ ?es _ _ => let e := eval vm_compute in (in_turns !! length es) in
    match e with Some (?a, ?o) => eapply (next _ _ _ _ a o) in R; [|by vm_compute|done|reflexivity] end end).
  eexists _, _. exact R.
Qed.

Lemma lines_do_not_mix_witness : exists ts w', busy_run None two_tasks in_turns ts w' /\
  exists new, sh_out (w_shared w') = new /\ (forall a, written a ts = written a new +:+ tl_line (locals_of w' a)).
Proof.
  destruct two_run as (ts & w' & R). exists ts, w'. split; [exact R|].
  destruct (lines_do_not_mix None two_tasks in_turns ts w') as (new & O & T & _); [|exact R|].
  - split; [intros [|[|[|i]]] l; cbn; by intros [= <-]|]. intros [|[|[|a]]]; vm_compute; reflexivity.
  - exists new. split; [exact O|]. intros a. rewrite <-T. by destruct a as [|[|[|a]]].
Defined.
