(* ===== verification/Memory.v ===== *)
(** * The declared memory hierarchy ([src/src/hir/memory.rs])

    Section by section as the source: the roofline of one hop, the byte size of
    a statically shaped tensor, and [MemoryHierarchy], the [within:] forest with
    its queries, the cost of a transfer along it, and its coherence laws.

    [HashMap<MemorySpace, &MemoryDecl>] is [gmap MemorySpace MemoryDecl] and a
    [HashSet] a [gset].  The two [while let] loops that climb the parents run on
    fuel, one more than the number of declared spaces; [climb_enough] shows it
    is never used up. *)

From stdpp Require Import base list strings gmap sets fin_sets sorting.
From Stdlib Require Import ZArith Lia.
From S2P Require Import Prelude Syntax.
Open Scope Z_scope.
Open Scope vx_scope.

(** ** Costs of one hop *)

Record DerivedCost : Type := mkDerivedCost { dc_value : Z; dc_per : RatePer }.

Record Flow : Type := mkFlow { flow_src : MemorySpace; flow_dst : MemorySpace; flow_bytes : Z }.

Record Sharing : Type := mkSharing { sh_space : MemorySpace; sh_flows : nat }.

Record FlowCost : Type := mkFlowCost {
  fc_cost : option DerivedCost;
  fc_route : list MemorySpace;
  fc_sharing : list Sharing;
}.

Definition is_contended (f : FlowCost) : bool := match fc_sharing f with [] => false | _ => true end.

(** [Iterator::max_by_key] keeps the last of the greatest elements. *)
Definition worst_sharing (f : FlowCost) : option Sharing :=
  foldl (fun acc s =>
    match acc with
    | None => Some s
    | Some m => if (sh_flows m <=? sh_flows s)%nat then Some s else Some m
    end) None (fc_sharing f).

Definition PICOS_PER_SEC : Z := 1000000000000.

Definition granule_round (bytes : Z) (granule : option Z) : Z :=
  match granule with
  | Some g => if 0 <? g then sat_u 64 (div_ceil bytes g * g) else bytes
  | None => bytes
  end.

Definition hop_cost (bytes : Z) (bw : Bandwidth) : outcome (option Z) :=
  match bw_per bw with
  | Cycle => if bw_bytes bw =? 0 then Panics else Returns (Some (div_ceil bytes (bw_bytes bw)))
  | Second =>
      scaled ←?! checked_u 128 (bytes * PICOS_PER_SEC);
      if bw_bytes bw =? 0 then Panics else Returns (checked_u 64 (div_ceil scaled (bw_bytes bw)))
  end.

(** ** Static tensor sizes *)

Definition element_bits (elem : ElementType) : option Z := ElementType_bits elem.

Definition element_bytes (elem : ElementType) : option Z :=
  match element_bits elem with Some b => Some (div_ceil b 8) | None => None end.

Inductive StaticSize : Type :=
| Bytes (b : Z)
| NotConstant
| NegativeExtent
| Overflows.

Inductive Unfolded : Type := UnfoldedNotConstant | UnfoldedOverflows.

(** [i128::checked_div] and [checked_rem] for a divisor that is not zero:
    [i128::MIN / -1] is [None]. *)
Definition checked_quot_i (w l r : Z) : option Z :=
  if (l =? imin w) && (r =? -1) then None else Some (Z.quot l r).
Definition checked_rem_i (w l r : Z) : option Z :=
  if (l =? imin w) && (r =? -1) then None else Some (Z.rem l r).

(** [checked_shl] checks the count only: the bits shifted out are lost. *)
Definition checked_shl_i (w l s : Z) : option Z :=
  if s <? w then Some (wrap_i w (Z.shiftl l s)) else None.
Definition checked_shr_i (w l s : Z) : option Z :=
  if s <? w then Some (Z.shiftr l s) else None.

(** The [match b.op] of [const_dim]. *)
Definition const_dim_op (op : BinaryOp) (l r : Z) : result Z Unfolded :=
  match op with
  | Add => ok_or (checked_i 128 (l + r)) UnfoldedOverflows
  | Sub => ok_or (checked_i 128 (l - r)) UnfoldedOverflows
  | Mul => ok_or (checked_i 128 (l * r)) UnfoldedOverflows
  | Div => if r =? 0 then Err UnfoldedNotConstant else ok_or (checked_quot_i 128 l r) UnfoldedOverflows
  | Rem => if r =? 0 then Err UnfoldedNotConstant else ok_or (checked_rem_i 128 l r) UnfoldedOverflows
  | BitAnd => Ok (Z.land l r)
  | BitOr => Ok (Z.lor l r)
  | BitXor => Ok (Z.lxor l r)
  | Shl | Shr =>
      match checked_u 32 r with
      | None => Err UnfoldedNotConstant
      | Some s =>
          if 64 <=? s then Err UnfoldedNotConstant
          else ok_or (if decide (op = Shl) then checked_shl_i 128 l s else checked_shr_i 128 l s)
                 UnfoldedOverflows
      end
  | MatMul => Err UnfoldedNotConstant
  end.

(** The outer [outcome] is for [-i128::MIN], which overflows. *)
Fixpoint const_dim (e : Expr) : outcome (result Z Unfolded) :=
  match e with
  | Number value _ _ => Returns (ok_or (parse_uint 64 value) UnfoldedNotConstant)
  | BinaryOpE lhs op rhs _ _ =>
      rl ←! const_dim lhs;
      match rl with
      | Err u => Returns (Err u)
      | Ok l =>
          rr ←! const_dim rhs;
          match rr with
          | Err u => Returns (Err u)
          | Ok r => Returns (const_dim_op op l r)
          end
      end
  | UnaryOpE Neg e' _ =>
      r ←! const_dim e';
      match r with
      | Err u => Returns (Err u)
      | Ok v => match checked_i 128 (- v) with Some v' => Returns (Ok v') | None => Panics end
      end
  | _ => Returns (Err UnfoldedNotConstant)
  end.

(** The loop over [dims]: the extents pushed so far and the overflow flag;
    [None] is the early [return StaticSize::NotConstant]. *)
Fixpoint fold_dims (dims : list Dim) (extents : list Z) (overflows : bool)
    : outcome (option (list Z * bool)) :=
  match dims with
  | [] => Returns (Some (extents, overflows))
  | d :: dims =>
      e ←?! Dim_as_static d;
      r ←! const_dim e;
      match r with
      | Ok v => fold_dims dims (extents ++ [v]) overflows
      | Err UnfoldedOverflows => fold_dims dims extents true
      | Err UnfoldedNotConstant => Returns None
      end
  end.

(** One step of the byte product. *)
Definition mul_extent (bytes : option Z) (v : Z) : option Z :=
  b ← bytes; v ← checked_u 64 v; checked_u 64 (b * v).

Definition static_tensor_size (elem : ElementType) (dims : list Dim) : outcome StaticSize :=
  match dims with
  | [] => Returns NotConstant
  | _ =>
      r ←! fold_dims dims [] false;
      Returns
        match r with
        | None => NotConstant
        | Some (extents, overflows) =>
            if existsb (fun v => v <? 0) extents then NegativeExtent
            else match element_bytes elem with
                 | None => NotConstant
                 | Some elem_bytes =>
                     if (overflows : bool) then Overflows
                     else match foldl mul_extent (Some elem_bytes) extents with
                          | Some b => if b <=? imax 64 then Bytes b else Overflows
                          | None => Overflows
                          end
                 end
        end
  end.

Definition static_extent (d : Dim) : outcome (option Z) :=
  e ←?! Dim_as_static d;
  r ←! const_dim e;
  Returns match r with Ok v => Some v | Err _ => None end.

Definition static_tensor_bytes (elem : ElementType) (dims : list Dim) : outcome (option Z) :=
  r ←! static_tensor_size elem dims;
  Returns match r with Bytes b => Some b | _ => None end.

(** ** The hierarchy *)

Abbreviation MemoryHierarchy := (gmap MemorySpace MemoryDecl) (only parsing).

Inductive MemoryCoherenceIssue : Type :=
| Cycle_issue (space : MemorySpace)
| CapacityExceedsParent (child parent : MemorySpace) (child_bytes parent_bytes : Z)
| NonPositiveProperty (space : MemorySpace) (property : string)
| ScopeWidensInChild (child parent : MemorySpace) (child_scope parent_scope : Scope)
| UndeclaredParent (child parent : MemorySpace).

(** A later declaration of a name replaces an earlier one. *)
Definition build (decls : list MemoryDecl) : MemoryHierarchy :=
  foldl (fun spaces d => <[MemorySpace_from_name (md_name d) := d]> spaces) ∅ decls.

Definition descriptor (h : MemoryHierarchy) (space : MemorySpace) : option MemoryDecl := h !! space.

Definition parent (h : MemoryHierarchy) (space : MemorySpace) : option MemorySpace :=
  d ← h !! space; md_parent d.

(** The [while let] of [ancestors]; [None] when the fuel runs out. *)
Fixpoint climb (fuel : nat) (h : MemoryHierarchy) (seen : gset MemorySpace)
    (cur : option MemorySpace) : option (list MemorySpace) :=
  match fuel with
  | O => None
  | S fuel =>
      match cur with
      | None => Some []
      | Some p =>
          if decide (p ∈ seen) then Some []
          else out ← climb fuel h ({[p]} ∪ seen) (parent h p); Some (p :: out)
      end
  end.

Definition ancestors (h : MemoryHierarchy) (space : MemorySpace) : list MemorySpace :=
  default [] (climb (S (size h)) h {[space]} (parent h space)).

Definition contains (h : MemoryHierarchy) (outer inner : MemorySpace) : bool :=
  bool_decide (outer <> inner) && existsb (fun a => bool_decide (a = outer)) (ancestors h inner).

Definition nearest_common_ancestor (h : MemoryHierarchy) (a b : MemorySpace) : option MemorySpace :=
  let a_chain := list_to_set (a :: ancestors h a) : gset MemorySpace in
  if decide (b ∈ a_chain) then Some b
  else List.find (fun anc => bool_decide (anc ∈ a_chain)) (ancestors h b).

(** The inner loop of [route_spaces]: the chain up to, and without, the common
    ancestor. *)
Fixpoint take_until (nca : MemorySpace) (l : list MemorySpace) : list MemorySpace :=
  match l with
  | [] => []
  | s :: l => if decide (s = nca) then [] else s :: take_until nca l
  end.

Definition route_spaces (h : MemoryHierarchy) (src dst : MemorySpace) : option (list MemorySpace) :=
  if decide (src = dst) then None
  else
    nca ← nearest_common_ancestor h src dst;
    let path := take_until nca (src :: ancestors h src) ++ take_until nca (dst :: ancestors h dst) in
    Some (if decide (nca = src \/ nca = dst) then path ++ [nca] else path).

(** ** The cost of a transfer *)

(** The loop that collects the terms; [None] when a space on the path has no
    usable bandwidth. *)
Fixpoint collect_terms (h : MemoryHierarchy) (path : list MemorySpace)
    : option (list (Bandwidth * option Z * option Z)) :=
  match path with
  | [] => Some []
  | s :: path =>
      d ← descriptor h s;
      bw ← md_bandwidth d;
      if bw_bytes bw =? 0 then None
      else terms ← collect_terms h path; Some ((bw, md_clock_hz d, md_replicas d) :: terms)
  end.

(** The largest declared replica count on the path, when it is more than one. *)
Definition path_replicas (terms : list (Bandwidth * option Z * option Z)) : option Z :=
  let rs := omap (fun t => t.2) terms in
  m ← foldl (fun acc r => Some (match acc with None => r | Some m => Z.max m r end)) None rs;
  if 1 <? m then Some m else None.

(** Every term in per-instance denomination. *)
Definition per_instance (replicas : option Z) (t : Bandwidth * option Z * option Z)
    : Bandwidth * option Z :=
  match t with
  | (bw, clock, own) =>
      match replicas, own with
      | Some r, None => (mkBandwidth (Z.max (bw_bytes bw / r) 1) (bw_per bw), clock)
      | _, _ => (bw, clock)
      end
  end.

Definition combine_cost (streamed : bool) (acc term : Z) : Z :=
  if streamed then Z.max acc term else sat_u 64 (acc + term).

(** The sum of a path that is in cycles throughout. *)
Fixpoint sum_cycles (streamed : bool) (bytes total : Z) (terms : list (Bandwidth * option Z))
    : outcome (option Z) :=
  match terms with
  | [] => Returns (Some total)
  | (bw, _) :: terms =>
      c ←! hop_cost bytes bw;
      c ←?! c;
      sum_cycles streamed bytes (combine_cost streamed total c) terms
  end.

(** One term in picoseconds. *)
Definition term_picos (bytes : Z) (t : Bandwidth * option Z) : outcome (option Z) :=
  match bw_per t.1 with
  | Second => hop_cost bytes t.1
  | Cycle =>
      hz ←?! t.2;
      if hz =? 0 then Returns None
      else if bw_bytes t.1 =? 0 then Panics
      else
        scaled ←?! checked_u 128 (div_ceil bytes (bw_bytes t.1) * PICOS_PER_SEC);
        Returns (Some (div_ceil scaled hz))
  end.

Fixpoint sum_picos (streamed : bool) (bytes total_ps : Z) (terms : list (Bandwidth * option Z))
    : outcome (option Z) :=
  match terms with
  | [] => Returns (Some total_ps)
  | t :: terms =>
      ps ←! term_picos bytes t;
      ps ←?! ps;
      total ←?! (if streamed then Some (Z.max total_ps ps) else checked_u 128 (total_ps + ps));
      sum_picos streamed bytes total terms
  end.

Definition is_streamed (h : MemoryHierarchy) (path : list MemorySpace) (src dst : MemorySpace) : bool :=
  let through_registers :=
    existsb (fun s => bool_decide (s <> src) && bool_decide (s <> dst)
                      && bool_decide ((d ← descriptor h s; md_scope d) = Some Thread)) path in
  negb through_registers && bool_decide (md_crossing <$> descriptor h dst = Some Streamed).

Definition derived_transfer_cost (h : MemoryHierarchy) (src dst : MemorySpace) (bytes : Z)
    : outcome (option DerivedCost) :=
  path ←?! route_spaces h src dst;
  terms ←?! collect_terms h path;
  match terms with
  | [] => Returns None
  | _ =>
      let terms := map (per_instance (path_replicas terms)) terms in
      let streamed := is_streamed h path src dst in
      if forallb (fun t : Bandwidth * option Z => bool_decide (bw_per t.1 = Cycle)) terms then
        total ←! sum_cycles streamed bytes 0 terms;
        Returns ((fun v => mkDerivedCost v Cycle) <$> total)
      else
        total ←! sum_picos streamed bytes 0 terms;
        Returns (v ← total; v ← checked_u 64 v; Some (mkDerivedCost v Second))
  end.

(** How many flows traverse each space. *)
Definition count_users (routes : list (option (list MemorySpace))) : gmap MemorySpace nat :=
  foldl (fun users route =>
    match route with
    | None => users
    | Some route => foldl (fun users s => <[s := S (default 0%nat (users !! s))]> users) users route
    end) ∅ routes.

Definition route_sharing (users : gmap MemorySpace nat) (route : list MemorySpace) : list Sharing :=
  omap (fun s => let n := default 0%nat (users !! s) in
                 if (1 <? n)%nat then Some (mkSharing s n) else None) route.

(** The [map] over [flows.zip(routes)]. *)
Fixpoint flow_costs (h : MemoryHierarchy) (users : gmap MemorySpace nat)
    (l : list (Flow * option (list MemorySpace))) : outcome (list FlowCost) :=
  match l with
  | [] => Returns []
  | (f, route) :: l =>
      c ←! derived_transfer_cost h (flow_src f) (flow_dst f) (flow_bytes f);
      rest ←! flow_costs h users l;
      let route := default [] route in
      Returns (mkFlowCost c route (route_sharing users route) :: rest)
  end.

Definition derived_transfer_costs (h : MemoryHierarchy) (flows : list Flow) : outcome (list FlowCost) :=
  let routes := map (fun f => route_spaces h (flow_src f) (flow_dst f)) flows in
  flow_costs h (count_users routes) (zip flows routes).

(** ** Coherence *)

(** The [while let] of [in_cycle]; [None] when the fuel runs out. *)
Fixpoint cycle_loop (fuel : nat) (h : MemoryHierarchy) (space : MemorySpace)
    (seen : gset MemorySpace) (cur : option MemorySpace) : option bool :=
  match fuel with
  | O => None
  | S fuel =>
      match cur with
      | None => Some false
      | Some p =>
          if decide (p = space) then Some true
          else if decide (p ∈ seen) then Some false
          else cycle_loop fuel h space ({[p]} ∪ seen) (parent h p)
      end
  end.

Definition in_cycle (h : MemoryHierarchy) (space : MemorySpace) : bool :=
  default false (cycle_loop (S (size h)) h space ∅ (parent h space)).

Definition nonpositive (space : MemorySpace) (property : string) (v : option Z) : list MemoryCoherenceIssue :=
  match v with Some 0 => [NonPositiveProperty space property] | _ => [] end.

(** The body of the loop of [coherence_issues] at one declared space. *)
Definition space_issues (h : MemoryHierarchy) (space : MemorySpace) (decl : MemoryDecl)
    : list MemoryCoherenceIssue :=
  let cyclic := in_cycle h space in
  match md_parent decl with
  | Some (CustomSpace n) =>
      if decide (is_Some (h !! CustomSpace n)) then [] else [UndeclaredParent space (CustomSpace n)]
  | _ => []
  end ++
  (if cyclic then [Cycle_issue space] else []) ++
  nonpositive space "capacity" (md_capacity decl) ++
  nonpositive space "granule" (md_granule decl) ++
  nonpositive space "bandwidth" (bw_bytes <$> md_bandwidth decl) ++
  (if cyclic then []
   else
     match md_capacity decl, md_parent decl with
     | Some child_bytes, Some parent =>
         match (p ← h !! parent; md_capacity p) with
         | Some parent_bytes =>
             if parent_bytes <? child_bytes
             then [CapacityExceedsParent space parent child_bytes parent_bytes] else []
         | None => []
         end
     | _, _ => []
     end ++
     match md_scope decl, md_parent decl with
     | Some child_scope, Some parent =>
         match (p ← h !! parent; md_scope p) with
         | Some parent_scope =>
             if Scope_ltb child_scope parent_scope
             then [ScopeWidensInChild space parent child_scope parent_scope] else []
         | None => []
         end
     | _, _ => []
     end).

(** The source iterates the map in no particular order and then sorts the
    issues by their debug text, which is not modelled: what is stated below is
    invariant under the order of this list. *)
Definition coherence_issues (h : MemoryHierarchy) : list MemoryCoherenceIssue :=
  concat (map (fun e => space_issues h e.1 e.2) (map_to_list h)).

(** ** The [within:] relation *)

Definition within (h : MemoryHierarchy) (a b : MemorySpace) : Prop := parent h a = Some b.

Lemma within_declared h a b : within h a b -> a ∈ dom h.
Proof. unfold within, parent. rewrite elem_of_dom. destruct (h !! a); naive_solver. Qed.

Lemma parent_undeclared h a : a ∉ dom h -> parent h a = None.
Proof. rewrite not_elem_of_dom. unfold parent. by intros ->. Qed.

(** A set that holds [a] and is closed under [within] holds what [a] reaches. *)
Lemma closed_rtc h (X : gset MemorySpace) a b :
  (forall x y, x ∈ X -> within h x y -> y ∈ X) -> rtc (within h) a b -> a ∈ X -> b ∈ X.
Proof. intros HX. induction 1; eauto. Qed.

(** [l] is a run of parents that starts at [cur]. *)
Fixpoint chain (h : MemoryHierarchy) (cur : option MemorySpace) (l : list MemorySpace) : Prop :=
  match l with
  | [] => True
  | p :: l => cur = Some p /\ chain h (parent h p) l
  end.

Lemma chain_reach h cur p l x : cur = Some p -> chain h cur l -> x ∈ l -> rtc (within h) p x.
Proof.
  revert cur p. induction l as [|q l IH]; intros cur p ->; [set_solver|].
  intros [[= <-] Hl] [->|Hx]%elem_of_cons; [done|].
  destruct (parent h p) as [p'|] eqn:E; [|by destruct l; [set_solver|destruct Hl]].
  eapply rtc_l; [exact E|]. by apply (IH (Some p')).
Qed.

Lemma chain_split h cur l1 c l2 d :
  chain h cur (l1 ++ c :: l2) -> d ∈ c :: l2 -> rtc (within h) c d.
Proof.
  revert cur. induction l1 as [|q l1 IH]; intros cur; simpl; [|naive_solver].
  intros [-> Hl] Hd. by apply (chain_reach h (Some c) c (c :: l2)).
Qed.

Lemma climb_spec fuel h seen cur l :
  climb fuel h seen cur = Some l ->
  chain h cur l /\ NoDup l /\ (forall p, p ∈ l -> p ∉ seen) /\
  ((forall x y, x ∈ seen -> within h x y -> y ∈ seen \/ cur = Some y) ->
   forall x y, x ∈ seen ∪ list_to_set l -> within h x y -> y ∈ seen ∪ list_to_set l) /\
  (forall p, cur = Some p -> p ∈ seen ∪ list_to_set l).
Proof.
  revert seen cur l. induction fuel as [|fuel IH]; intros seen cur l; simpl; [done|].
  destruct cur as [p|]; [|intros [= <-]; split_and!; [done|constructor|set_solver|set_solver|done]].
  case_decide as Hp.
  { intros [= <-]. split_and!; [done|constructor|set_solver| |set_solver].
    intros Hs x y Hx Hy. destruct (Hs x y); set_solver. }
  destruct (climb _ _ _ _) as [out|] eqn:E; intros [= <-].
  apply IH in E as (Hc & Hnd & Hdis & Hcl & Hin).
  split_and!; [done| |set_solver| |set_solver].
  - constructor; [|done]. intros Hp'. set_solver.
  - intros Hs x y Hx Hy.
    assert (y ∈ {[p]} ∪ seen ∪ list_to_set out); [|set_solver].
    apply (Hcl ltac:(clear - Hs; set_solver) x y); [set_solver|done].
Qed.

(** The fuel of [ancestors] is enough: one step per declared space not yet
    seen, one for an undeclared last space and one to stop. *)
Lemma climb_enough fuel h seen cur :
  (size (dom h ∖ seen) + 2 <= fuel)%nat -> is_Some (climb fuel h seen cur).
Proof.
  revert seen cur. induction fuel as [|fuel IH]; intros seen cur Hf; [lia|]. simpl.
  destruct cur as [p|]; [|done]. case_decide as Hp; [done|].
  assert (is_Some (climb fuel h ({[p]} ∪ seen) (parent h p))) as [out ->]; [|done].
  destruct (decide (p ∈ dom h)) as [Hd|Hd].
  - apply IH. assert (size (dom h ∖ ({[p]} ∪ seen)) < size (dom h ∖ seen))%nat; [|lia].
    apply subset_size. set_solver.
  - rewrite (parent_undeclared h p Hd). destruct fuel; [lia|done].
Qed.

Lemma size_remove (X : gset MemorySpace) s : s ∈ X -> S (size (X ∖ {[s]})) = size X.
Proof.
  intros Hs. assert (X ∖ {[s]} ⊂ X) as H%subset_size by set_solver.
  pose proof (size_union_alt {[s]} X) as H'. rewrite size_singleton in H'.
  by replace ({[s]} ∪ X) with X in H' by set_solver.
Qed.

Lemma ancestors_climb h s : climb (S (size h)) h {[s]} (parent h s) = Some (ancestors h s).
Proof.
  unfold ancestors. assert (is_Some (climb (S (size h)) h {[s]} (parent h s))) as [l ->]; [|done].
  destruct (decide (s ∈ dom h)) as [Hs|Hs].
  - apply climb_enough. pose proof (size_remove (dom h) s Hs). rewrite size_dom in *. lia.
  - by rewrite (parent_undeclared h s Hs).
Qed.

Lemma ancestors_spec h s :
  chain h (parent h s) (ancestors h s) /\ NoDup (s :: ancestors h s) /\
  forall x, x ∈ s :: ancestors h s <-> rtc (within h) s x.
Proof.
  pose proof (climb_spec _ _ _ _ _ (ancestors_climb h s)) as (Hc & Hnd & Hdis & Hcl & Hin).
  split_and!; [done|constructor; [|done]; intros Hs; apply Hdis in Hs; set_solver|].
  intros x. split.
  - intros [->|Hx]%elem_of_cons; [done|].
    destruct (parent h s) as [p|] eqn:E.
    + eapply rtc_l; [exact E|]. by apply (chain_reach h (Some p) p (ancestors h s)).
    + destruct (ancestors h s); [set_solver|by destruct Hc].
  - intros Hx. assert (x ∈ ({[s]} ∪ list_to_set (ancestors h s) : gset MemorySpace)); [|set_solver].
    eapply closed_rtc; [|exact Hx|set_solver]. apply Hcl.
    intros a b ->%elem_of_singleton Hab. by right.
Qed.

Lemma elem_of_ancestors h s x : x ∈ ancestors h s <-> x <> s /\ rtc (within h) s x.
Proof.
  destruct (ancestors_spec h s) as (_ & Hnd & Hx). rewrite <- Hx, elem_of_cons.
  apply NoDup_cons in Hnd as [Hs _]. split; [|naive_solver].
  intros Ha. split; [intros ->; done|auto].
Qed.

Lemma contains_spec h outer inner :
  contains h outer inner = true <-> outer <> inner /\ rtc (within h) inner outer.
Proof.
  unfold contains. rewrite andb_true_iff, bool_decide_eq_true, existsb_exists.
  setoid_rewrite bool_decide_eq_true. split.
  - intros [Hne (x & Hx & ->)]. split; [done|].
    apply list_elem_of_In, elem_of_ancestors in Hx. naive_solver.
  - intros [Hne Hr]. split; [done|]. exists outer. split; [|done].
    by apply list_elem_of_In, elem_of_ancestors.
Qed.

Lemma find_first {A} (P : A -> bool) l x :
  List.find P l = Some x <-> exists l1 l2, l = l1 ++ x :: l2 /\ P x = true /\ forall y, y ∈ l1 -> P y = false.
Proof.
  induction l as [|z l IH]; simpl; [split; [done|by intros ([] & ? & ? & _)]|].
  destruct (P z) eqn:E.
  - split; [intros [= ->]; exists [], l; set_solver|].
    intros ([|q l1] & l2 & [= <- ->] & Hx & Hl); [done|]. specialize (Hl z ltac:(set_solver)). congruence.
  - rewrite IH. split.
    + intros (l1 & l2 & -> & Hx & Hl). exists (z :: l1), l2. set_solver.
    + intros ([|q l1] & l2 & [= <- ->] & Hx & Hl); [congruence|]. exists l1, l2. set_solver.
Qed.

Lemma elem_of_self_ancestors h a x :
  x ∈ (list_to_set (a :: ancestors h a) : gset MemorySpace) <-> rtc (within h) a x.
Proof. destruct (ancestors_spec h a) as (_ & _ & <-). by rewrite elem_of_list_to_set. Qed.

(** The space [nearest_common_ancestor] returns splits the chain of [b]: what
    is before it is no ancestor of [a]. *)
Lemma nca_split h a b c :
  nearest_common_ancestor h a b = Some c ->
  rtc (within h) a c /\ exists l1 l2, b :: ancestors h b = l1 ++ c :: l2 /\
    forall y, y ∈ l1 -> ~ rtc (within h) a y.
Proof.
  unfold nearest_common_ancestor. case_decide as Hb.
  { intros [= ->]. apply elem_of_self_ancestors in Hb. split; [done|].
    exists [], (ancestors h c). set_solver. }
  intros (l1 & l2 & Hl & Hc & Hn)%find_first.
  apply bool_decide_eq_true, elem_of_self_ancestors in Hc. split; [done|].
  exists (b :: l1), l2. rewrite Hl. split; [done|].
  intros y [->|Hy]%elem_of_cons; rewrite <- elem_of_self_ancestors; [done|].
  by apply Hn, bool_decide_eq_false in Hy.
Qed.

Lemma nca_reach h a b c :
  nearest_common_ancestor h a b = Some c -> rtc (within h) a c /\ rtc (within h) b c.
Proof.
  intros (Ha & l1 & l2 & Hl & _)%nca_split. split; [done|].
  apply (ancestors_spec h b). rewrite Hl. set_solver.
Qed.

Lemma nca_nearest h a b c d :
  nearest_common_ancestor h a b = Some c ->
  rtc (within h) a d -> rtc (within h) b d -> rtc (within h) c d.
Proof.
  intros (Ha & l1 & l2 & Hl & Hn)%nca_split Hd1 Hd2.
  apply (proj2 (proj2 (ancestors_spec h b))) in Hd2. rewrite Hl in Hd2.
  apply (chain_split h (Some b) l1 c l2).
  - rewrite <- Hl. simpl. split; [done|]. apply ancestors_spec.
  - apply elem_of_app in Hd2 as [Hd2|]; [|done]. by destruct (Hn d).
Qed.

Lemma nca_exists h a b d :
  rtc (within h) a d -> rtc (within h) b d -> is_Some (nearest_common_ancestor h a b).
Proof.
  intros Ha Hb. unfold nearest_common_ancestor. case_decide as Hab; [done|].
  destruct (List.find _ _) as [c|] eqn:E; [done|]. exfalso.
  apply elem_of_self_ancestors in Ha.
  pose proof (List.find_none _ _ E d) as Hd. rewrite bool_decide_eq_false in Hd. apply Hd; [|done].
  apply list_elem_of_In, elem_of_ancestors. split; [|done]. by intros ->.
Qed.

(** [ancestors] terminates on every declaration set, cyclic ones included,
    and lists exactly the spaces the [within:] links reach, each once and
    nearest first: whatever follows a space in the list contains it. *)
Theorem ancestors_exact h s :
  NoDup (ancestors h s) /\
  (forall x, x ∈ ancestors h s <-> x <> s /\ rtc (within h) s x) /\
  (forall l1 x l2 y, ancestors h s = l1 ++ x :: l2 -> y ∈ l2 -> rtc (within h) x y) /\
  (forall outer inner, contains h outer inner = true <-> outer <> inner /\ rtc (within h) inner outer).
Proof.
  destruct (ancestors_spec h s) as (Hc & Hnd & _).
  split_and!; [by apply NoDup_cons in Hnd as [_ ?]|intros; apply elem_of_ancestors| |
               intros; apply contains_spec].
  intros l1 x l2 y Hl Hy. rewrite Hl in Hc. apply (chain_split h _ l1 x l2 y Hc). set_solver.
Qed.

(** [nearest_common_ancestor a b] is a common ancestor (a space being its
    own), it is within every other one, and it is [None] only when there is
    none.  On an acyclic hierarchy it does not depend on the order of its
    arguments. *)
Theorem nca_correct h a b :
  (forall c, nearest_common_ancestor h a b = Some c ->
     rtc (within h) a c /\ rtc (within h) b c /\
     forall d, rtc (within h) a d -> rtc (within h) b d -> rtc (within h) c d) /\
  (nearest_common_ancestor h a b = None -> forall d, ~ (rtc (within h) a d /\ rtc (within h) b d)) /\
  ((forall s, ~ tc (within h) s s) ->
   nearest_common_ancestor h a b = nearest_common_ancestor h b a).
Proof.
  split_and!.
  - intros c Hc. destruct (nca_reach h a b c Hc). eauto using nca_nearest.
  - intros HN d [Ha Hb]. destruct (nca_exists h a b d Ha Hb) as [? ?]. congruence.
  - intros Hac. destruct (nearest_common_ancestor h a b) as [c|] eqn:E1.
    + destruct (nca_reach h a b c E1) as [Ha Hb].
      destruct (nca_exists h b a c Hb Ha) as [c' E2]. rewrite E2.
      destruct (nca_reach h b a c' E2) as [Hb' Ha'].
      pose proof (nca_nearest h a b c c' E1 Ha' Hb') as H1.
      pose proof (nca_nearest h b a c' c E2 Hb Ha) as H2.
      apply rtc_tc in H1 as [->|H1]; [done|]. destruct (Hac c). by eapply tc_rtc_r.
    + destruct (nearest_common_ancestor h b a) as [c|] eqn:E2; [|done].
      destruct (nca_reach h b a c E2) as [Hb Ha]. destruct (nca_exists h a b c Ha Hb). congruence.
Qed.

(** ** Cycles and coherence *)

Lemma cycle_loop_enough fuel h s seen cur :
  (size (dom h ∖ {[s]} ∖ seen) + 2 <= fuel)%nat -> is_Some (cycle_loop fuel h s seen cur).
Proof.
  revert seen cur. induction fuel as [|fuel IH]; intros seen cur Hf; [lia|]. simpl.
  destruct cur as [p|]; [|done]. case_decide as Hs; [done|]. case_decide as Hp; [done|].
  destruct (decide (p ∈ dom h)) as [Hd|Hd].
  - apply IH.
    assert (size (dom h ∖ {[s]} ∖ ({[p]} ∪ seen)) < size (dom h ∖ {[s]} ∖ seen))%nat; [|lia].
    apply subset_size. set_solver.
  - rewrite (parent_undeclared h p Hd). destruct fuel; [lia|done].
Qed.

Lemma cycle_loop_true fuel h s seen cur :
  cycle_loop fuel h s seen cur = Some true -> exists p, cur = Some p /\ rtc (within h) p s.
Proof.
  revert seen cur. induction fuel as [|fuel IH]; intros seen cur; simpl; [done|].
  destruct cur as [p|]; [|done]. case_decide as Hs; [subst; eauto using rtc_refl|].
  case_decide as Hp; [done|]. intros (q & Hq & Hr)%IH. eauto using rtc_l.
Qed.

Lemma cycle_loop_false fuel h s seen cur :
  cycle_loop fuel h s seen cur = Some false -> s ∉ seen ->
  (forall x y, x ∈ seen -> within h x y -> y ∈ seen \/ cur = Some y) ->
  exists X : gset MemorySpace, (s ∉ X) /\ (forall p, cur = Some p -> p ∈ X) /\
    (forall x y, x ∈ X -> within h x y -> y ∈ X).
Proof.
  revert seen cur. induction fuel as [|fuel IH]; intros seen cur; simpl; [done|].
  destruct cur as [p|].
  - case_decide as Hs; [done|]. case_decide as Hp.
    + intros _ Hns Hcl. exists seen. split_and!; [done|naive_solver|].
      intros x y Hx Hy. destruct (Hcl x y Hx Hy); naive_solver.
    + intros H Hns Hcl. apply IH in H as (X & HX & Hin & HclX).
      * destruct (decide (p ∈ X)) as [|HpX]; [exists X; split_and!; naive_solver|].
        exists ({[p]} ∪ X). split_and!; [set_solver|set_solver|].
        intros x y [->%elem_of_singleton|Hx]%elem_of_union Hy; set_solver.
      * set_solver.
      * intros x y [->%elem_of_singleton|Hx]%elem_of_union Hy; [by right|].
        destruct (Hcl x y Hx Hy) as [|[= ->]]; set_solver.
  - intros _ Hns Hcl. exists seen. split_and!; [done|done|].
    intros x y Hx Hy. destruct (Hcl x y Hx Hy); naive_solver.
Qed.

Lemma in_cycle_spec h s : in_cycle h s = true <-> tc (within h) s s.
Proof.
  unfold in_cycle.
  assert (is_Some (cycle_loop (S (size h)) h s ∅ (parent h s))) as [b E].
  { destruct (decide (s ∈ dom h)) as [Hs|Hs]; [|by rewrite (parent_undeclared h s Hs)].
    apply cycle_loop_enough. pose proof (size_remove (dom h) s Hs) as H. rewrite size_dom in H.
    rewrite difference_empty_L. lia. }
  rewrite E. simpl. destruct b.
  - split; [intros _|done]. apply cycle_loop_true in E as (p & Hp & Hr).
    by eapply tc_rtc_r; [apply tc_once|].
  - split; [done|]. intros Ht. exfalso.
    apply cycle_loop_false in E as (X & HX & Hin & Hcl); [|set_solver|set_solver].
    inversion Ht as [? ? Hs|? p ? Hs Hps]; subst; [by apply HX, Hin|].
    apply HX. eapply closed_rtc; [exact Hcl|by apply tc_rtc|by apply Hin].
Qed.

(** The laws of a coherent hierarchy at one declared space. *)
Record space_coherent (h : MemoryHierarchy) (s : MemorySpace) (d : MemoryDecl) : Prop := {
  coherent_acyclic : ~ tc (within h) s s;
  coherent_parent : forall n, md_parent d = Some (CustomSpace n) -> is_Some (h !! CustomSpace n);
  coherent_capacity_nonzero : md_capacity d <> Some 0;
  coherent_granule_nonzero : md_granule d <> Some 0;
  coherent_bandwidth_nonzero : forall bw, md_bandwidth d = Some bw -> bw_bytes bw <> 0;
  coherent_capacity : forall p pd c cp, md_parent d = Some p -> h !! p = Some pd ->
    md_capacity d = Some c -> md_capacity pd = Some cp -> c <= cp;
  coherent_scope : forall p pd sc sp, md_parent d = Some p -> h !! p = Some pd ->
    md_scope d = Some sc -> md_scope pd = Some sp -> (Scope_rank sp <= Scope_rank sc)%nat;
}.

Lemma nonpositive_nil s n v : nonpositive s n v = [] <-> v <> Some 0.
Proof. destruct v as [[]|]; naive_solver. Qed.

Lemma capacity_issue_nil (h : MemoryHierarchy) s d :
  match md_capacity d, md_parent d with
  | Some c, Some p =>
      match (pd ← h !! p; md_capacity pd) with
      | Some cp => if cp <? c then [CapacityExceedsParent s p c cp] else []
      | None => []
      end
  | _, _ => []
  end = [] <->
  forall p pd c cp, md_parent d = Some p -> h !! p = Some pd ->
    md_capacity d = Some c -> md_capacity pd = Some cp -> c <= cp.
Proof.
  destruct (md_capacity d) as [c|]; [|naive_solver]. destruct (md_parent d) as [p|]; [|naive_solver].
  destruct (h !! p) as [pd|] eqn:Hp; simpl; [|naive_solver].
  destruct (md_capacity pd) as [cp|] eqn:Hc; [|naive_solver].
  destruct (Z.ltb_spec cp c); split; [done| |naive_solver|done].
  intros H'. specialize (H' p pd c cp). assert (c <= cp) by (by apply H'). lia.
Qed.

Lemma scope_issue_nil (h : MemoryHierarchy) s d :
  match md_scope d, md_parent d with
  | Some c, Some p =>
      match (pd ← h !! p; md_scope pd) with
      | Some cp => if Scope_ltb c cp then [ScopeWidensInChild s p c cp] else []
      | None => []
      end
  | _, _ => []
  end = [] <->
  forall p pd c cp, md_parent d = Some p -> h !! p = Some pd ->
    md_scope d = Some c -> md_scope pd = Some cp -> (Scope_rank cp <= Scope_rank c)%nat.
Proof.
  destruct (md_scope d) as [c|]; [|naive_solver]. destruct (md_parent d) as [p|]; [|naive_solver].
  destruct (h !! p) as [pd|] eqn:Hp; simpl; [|naive_solver].
  destruct (md_scope pd) as [cp|] eqn:Hc; [|naive_solver]. unfold Scope_ltb.
  destruct (Nat.ltb_spec (Scope_rank c) (Scope_rank cp)); split; [done| |naive_solver|done].
  intros H'. specialize (H' p pd c cp). assert (Scope_rank cp <= Scope_rank c)%nat by (by apply H'). lia.
Qed.

Lemma undeclared_issue_nil (h : MemoryHierarchy) s d :
  match md_parent d with
  | Some (CustomSpace n) =>
      if decide (is_Some (h !! CustomSpace n)) then [] else [UndeclaredParent s (CustomSpace n)]
  | _ => []
  end = [] <-> forall n, md_parent d = Some (CustomSpace n) -> is_Some (h !! CustomSpace n).
Proof. destruct (md_parent d) as [[]|]; try case_decide; naive_solver. Qed.

Lemma space_issues_nil h s d : space_issues h s d = [] <-> space_coherent h s d.
Proof.
  unfold space_issues. rewrite !app_nil, undeclared_issue_nil, !nonpositive_nil.
  destruct (in_cycle h s) eqn:E.
  - apply in_cycle_spec in E. split; [naive_solver|]. intros []. done.
  - assert (~ tc (within h) s s) as Hc by (rewrite <- in_cycle_spec, E; done).
    rewrite app_nil, capacity_issue_nil, scope_issue_nil.
    assert (bw_bytes <$> md_bandwidth d <> Some 0 <->
            forall bw, md_bandwidth d = Some bw -> bw_bytes bw <> 0) as ->
      by (destruct (md_bandwidth d) as [bw|]; simpl; [|done];
          split; [intros Hb ? [= <-] Hz; by rewrite Hz in Hb|intros Hb [= Hz]; by apply (Hb bw)]).
    split; [intros (?&?&?&?&?&?&?); by constructor|intros []; done].
Qed.

(** C3. The checker reports no issue exactly when every declared space obeys
    the laws: [within:] is acyclic, a custom parent is declared, declared
    properties are positive, and capacity and locality narrow downwards. *)
Theorem coherence_issues_sound_complete h :
  coherence_issues h = [] <-> map_Forall (space_coherent h) h.
Proof.
  unfold coherence_issues. rewrite map_Forall_to_list, concat_nil_Forall, Forall_map.
  apply Forall_proper; [|done]. intros [s d]. apply space_issues_nil.
Qed.

Lemma coherent_acyclic_everywhere h :
  map_Forall (space_coherent h) h -> forall s, ~ tc (within h) s s.
Proof.
  intros H s Hs. assert (s ∈ dom h) as [d Hd]%elem_of_dom.
  { inversion Hs; by eapply within_declared. }
  by destruct (H s d Hd).
Qed.

(** ** Routes and sharing *)

Lemma take_until_split c l1 l2 : c ∉ l1 -> take_until c (l1 ++ c :: l2) = l1.
Proof.
  induction l1 as [|x l1 IH]; simpl; intros Hc; [by rewrite decide_True|].
  rewrite decide_False by set_solver. by rewrite IH by set_solver.
Qed.

Lemma route_shape h src dst path :
  route_spaces h src dst = Some path ->
  exists nca up1 rest1 up2 rest2,
    nearest_common_ancestor h src dst = Some nca /\
    src :: ancestors h src = up1 ++ nca :: rest1 /\ dst :: ancestors h dst = up2 ++ nca :: rest2 /\
    path = up1 ++ up2 ++ (if decide (nca = src \/ nca = dst) then [nca] else []) /\ NoDup path.
Proof.
  unfold route_spaces. case_decide as Hsd; [done|].
  destruct (nearest_common_ancestor h src dst) as [nca|] eqn:E; cbn [mbind option_bind]; [|done].
  destruct (nca_split _ _ _ _ E) as (Ha & up2 & rest2 & H2 & Hn).
  destruct (ancestors_spec h src) as (_ & Hnd1 & Hx1).
  destruct (ancestors_spec h dst) as (_ & Hnd2 & Hx2).
  apply Hx1 in Ha as Ha'. apply list_elem_of_split in Ha' as (up1 & rest1 & H1).
  rewrite H1 in Hnd1. rewrite H2 in Hnd2.
  apply NoDup_app in Hnd1 as (Hup1 & Hd1 & _). apply NoDup_app in Hnd2 as (Hup2 & Hd2 & _).
  rewrite H1, H2, !take_until_split by set_solver. intros [= Hp].
  assert (path = up1 ++ up2 ++ (if decide (nca = src \/ nca = dst) then [nca] else [])) as ->.
  { subst path. case_decide; [by rewrite <- app_assoc|by rewrite app_nil_r]. }
  exists nca, up1, rest1, up2, rest2. split_and!; try done.
  apply NoDup_app. split_and!; [done| |].
  - intros x Hx [Hx'|Hx']%elem_of_app; [|case_decide; set_solver].
    apply (Hn x Hx'), Hx1. rewrite H1. set_solver.
  - apply NoDup_app. split_and!; [done|case_decide; set_solver|].
    case_decide; [apply NoDup_singleton|constructor].
Qed.

Lemma count_route users route s :
  default 0%nat (foldl (fun users s => <[s := S (default 0%nat (users !! s))]> users) users route !! s)
  = (default 0%nat ((users : gmap MemorySpace nat) !! s) + length (filter (fun x => x = s) route))%nat.
Proof.
  revert users. induction route as [|x route IH]; intros users; simpl; [by rewrite Nat.add_0_r|].
  rewrite IH, filter_cons. case_decide as Hx.
  - subst. rewrite lookup_insert_eq. simpl. lia.
  - by rewrite lookup_insert_ne.
Qed.

Lemma NoDup_count (l : list MemorySpace) s :
  NoDup l -> length (filter (fun x => x = s) l) = if decide (s ∈ l) then 1%nat else 0%nat.
Proof.
  induction 1 as [|x l Hx Hl IH]; [done|]. rewrite filter_cons. destruct (decide (x = s)) as [Hxs|Hxs].
  - subst. rewrite decide_True by constructor. simpl. by rewrite IH, decide_False.
  - rewrite IH. apply decide_ext. rewrite elem_of_cons. naive_solver.
Qed.

(** The flows of the set whose route has [s]. *)
Definition flows_through (h : MemoryHierarchy) (flows : list Flow) (s : MemorySpace) : list Flow :=
  filter (fun f => s ∈ default [] (route_spaces h (flow_src f) (flow_dst f))) flows.

Lemma count_users_from h users flows s :
  default 0%nat (foldl (fun users route =>
    match route with
    | None => users
    | Some route => foldl (fun users s => <[s := S (default 0%nat (users !! s))]> users) users route
    end) users (map (fun f => route_spaces h (flow_src f) (flow_dst f)) flows) !! s)
  = (default 0%nat ((users : gmap MemorySpace nat) !! s) + length (flows_through h flows s))%nat.
Proof.
  revert users. induction flows as [|f flows IH]; intros users; simpl; [by rewrite Nat.add_0_r|].
  rewrite IH. unfold flows_through. rewrite filter_cons.
  destruct (route_spaces h (flow_src f) (flow_dst f)) as [route|] eqn:E; simpl.
  - rewrite count_route, NoDup_count.
    + case_decide; simpl; lia.
    + apply route_shape in E as (?&?&?&?&?&?&?&?&?&?). done.
  - done.
Qed.

Lemma route_sharing_spec users route s n :
  mkSharing s n ∈ route_sharing users route <->
  s ∈ route /\ n = default 0%nat (users !! s) /\ (2 <= n)%nat.
Proof.
  unfold route_sharing. rewrite list_elem_of_omap. split.
  - intros (x & Hx & Hn). destruct (Nat.ltb_spec 1 (default 0%nat (users !! x))); naive_solver.
  - intros (Hs & -> & Hn). exists s. split; [done|].
    destruct (Nat.ltb_spec 1 (default 0%nat (users !! s))); [done|lia].
Qed.

(** ** The derived cost *)

(** The types of the declarations: every declared number is a [u64]. *)
Definition decl_typed (d : MemoryDecl) : Prop :=
  (forall bw, md_bandwidth d = Some bw -> 0 <= bw_bytes bw <= umax 64) /\
  (forall hz, md_clock_hz d = Some hz -> 0 <= hz <= umax 64) /\
  (forall r, md_replicas d = Some r -> 0 <= r <= umax 64).

(** One leg in exact arithmetic, in the unit of the whole path. *)
Definition leg_cost (per : RatePer) (bytes : Z) (t : Bandwidth * option Z) : Z :=
  match per, bw_per t.1 with
  | Cycle, _ => div_ceil bytes (bw_bytes t.1)
  | Second, Second => div_ceil (bytes * PICOS_PER_SEC) (bw_bytes t.1)
  | Second, Cycle =>
      div_ceil (div_ceil bytes (bw_bytes t.1) * PICOS_PER_SEC) (default 0 t.2)
  end.

Arguments leg_cost : simpl never.

Fixpoint legs_total (streamed : bool) (legs : list Z) : Z :=
  match legs with
  | [] => 0
  | c :: legs => if streamed then Z.max c (legs_total streamed legs) else c + legs_total streamed legs
  end.

(** The terms as [derived_transfer_cost] prices them. *)
Definition priced_terms (h : MemoryHierarchy) (path : list MemorySpace)
    : option (list (Bandwidth * option Z)) :=
  terms ← collect_terms h path; Some (map (per_instance (path_replicas terms)) terms).

Lemma collect_terms_nonzero h path terms t :
  collect_terms h path = Some terms -> t ∈ terms -> bw_bytes t.1.1 <> 0.
Proof.
  revert terms. induction path as [|s path IH]; intros terms; simpl.
  { intros [= <-]. set_solver. }
  destruct (descriptor h s) as [d|]; simpl; [|done].
  destruct (md_bandwidth d) as [bw|]; simpl; [|done].
  destruct (Z.eqb_spec (bw_bytes bw) 0); [done|].
  destruct (collect_terms h path) as [ts|]; simpl; [|done].
  intros [= <-] [->|Ht]%elem_of_cons; [done|]. by eapply IH.
Qed.

Lemma per_instance_nonzero r t : bw_bytes t.1.1 <> 0 -> bw_bytes (per_instance r t).1 <> 0.
Proof. destruct t as [[bw c] [own|]], r; simpl; lia. Qed.

Lemma priced_terms_nonzero h path terms :
  priced_terms h path = Some terms -> Forall (fun t => bw_bytes t.1 <> 0) terms.
Proof.
  unfold priced_terms. destruct (collect_terms h path) as [ts|] eqn:E; simpl; [|done].
  intros [= <-]. apply Forall_map, Forall_forall. intros t Ht.
  eapply per_instance_nonzero, collect_terms_nonzero; eauto.
Qed.

Lemma hop_cost_returns bytes bw : bw_bytes bw <> 0 -> exists r, hop_cost bytes bw = Returns r.
Proof.
  intros Hb. unfold hop_cost. rewrite (proj2 (Z.eqb_neq _ _) Hb).
  destruct (bw_per bw); [case_match|]; eauto.
Qed.

Lemma term_picos_returns bytes t : bw_bytes t.1 <> 0 -> exists r, term_picos bytes t = Returns r.
Proof.
  intros Hb. unfold term_picos. rewrite (proj2 (Z.eqb_neq _ _) Hb).
  destruct (bw_per t.1); [by apply hop_cost_returns|].
  repeat case_match; eauto.
Qed.

Lemma sum_cycles_returns st bytes total terms :
  Forall (fun t => bw_bytes t.1 <> 0) terms -> exists r, sum_cycles st bytes total terms = Returns r.
Proof.
  intros H. revert total. induction H as [|[bw c] terms Hb H IH]; intros total; simpl; [eauto|].
  destruct (hop_cost_returns bytes bw Hb) as [[x|] ->]; simpl; eauto.
Qed.

Lemma sum_picos_returns st bytes total terms :
  Forall (fun t => bw_bytes t.1 <> 0) terms -> exists r, sum_picos st bytes total terms = Returns r.
Proof.
  intros H. revert total. induction H as [|t terms Hb H IH]; intros total; simpl; [eauto|].
  destruct (term_picos_returns bytes t Hb) as [[x|] ->]; simpl; [|eauto]. case_match; eauto.
Qed.

Lemma derived_transfer_cost_returns h src dst bytes :
  exists r, derived_transfer_cost h src dst bytes = Returns r.
Proof.
  unfold derived_transfer_cost. destruct (route_spaces h src dst) as [path|]; [|eauto].
  destruct (collect_terms h path) as [terms|] eqn:E; [|eauto].
  pose proof (priced_terms_nonzero h path) as Hn. unfold priced_terms in Hn. rewrite E in Hn.
  specialize (Hn _ eq_refl). destruct terms as [|t terms]; [eauto|].
  case_match.
  - destruct (sum_cycles_returns (is_streamed h path src dst) bytes 0 _ Hn) as [r ->]. simpl. eauto.
  - destruct (sum_picos_returns (is_streamed h path src dst) bytes 0 _ Hn) as [r ->]. simpl. eauto.
Qed.

Lemma flow_costs_returns h users l :
  exists costs, flow_costs h users l = Returns costs /\ length costs = length l /\
    forall i fc, costs !! i = Some fc -> exists f route, l !! i = Some (f, route) /\
      derived_transfer_cost h (flow_src f) (flow_dst f) (flow_bytes f) = Returns (fc_cost fc) /\
      fc_route fc = default [] route /\ fc_sharing fc = route_sharing users (fc_route fc).
Proof.
  induction l as [|[f route] l (costs & Hc & Hlen & IH)]; simpl; [by exists []|].
  destruct (derived_transfer_cost_returns h (flow_src f) (flow_dst f) (flow_bytes f)) as [r Hr].
  rewrite Hr, Hc. simpl. eexists. split; [done|]. simpl. split; [by rewrite Hlen|].
  intros [|i] fc; simpl; [|apply IH]. intros [= <-]. exists f, route. done.
Qed.

(** Pricing a set of transfers never panics and answers every flow in
    order: its route is the one [route_spaces] gives and its cost the isolated
    one; a space is reported as shared exactly when at least two flows of the
    set cross it, and the count is the number of flows that do. *)
Theorem sharing_exact h flows :
  exists costs, derived_transfer_costs h flows = Returns costs /\ length costs = length flows /\
    forall i fc, costs !! i = Some fc -> exists f, flows !! i = Some f /\
      fc_route fc = default [] (route_spaces h (flow_src f) (flow_dst f)) /\
      derived_transfer_cost h (flow_src f) (flow_dst f) (flow_bytes f) = Returns (fc_cost fc) /\
      forall s n, mkSharing s n ∈ fc_sharing fc <->
        s ∈ fc_route fc /\ n = length (flows_through h flows s) /\ (2 <= n)%nat.
Proof.
  set (routes := map (fun f => route_spaces h (flow_src f) (flow_dst f)) flows).
  destruct (flow_costs_returns h (count_users routes) (zip flows routes)) as (costs & Hc & Hlen & Hi).
  exists costs. split_and!; [done| |].
  - rewrite Hlen, length_zip_with. unfold routes. rewrite length_map. lia.
  - intros i fc Hfc. destruct (Hi i fc Hfc) as (f & route & Hl & Hcost & Hroute & Hsh).
    apply lookup_zip_Some in Hl as [Hf Hr]. exists f.
    unfold routes in Hr. rewrite list_lookup_fmap, Hf in Hr. injection Hr as <-.
    split_and!; try done. intros s n. rewrite Hsh, route_sharing_spec.
    unfold count_users, routes. by rewrite count_users_from.
Qed.

Lemma collect_terms_typed h path terms t :
  map_Forall (fun _ d => decl_typed d) h -> collect_terms h path = Some terms -> t ∈ terms ->
  0 < bw_bytes t.1.1 /\ forall hz, t.1.2 = Some hz -> 0 <= hz.
Proof.
  intros Ht. revert terms. induction path as [|s path IH]; intros terms; simpl.
  { intros [= <-]. set_solver. }
  unfold descriptor. destruct (h !! s) as [d|] eqn:Hd; simpl; [|done].
  destruct (Ht s d Hd) as (Hbw & Hhz & _).
  destruct (md_bandwidth d) as [bw|]; simpl; [|done].
  destruct (Z.eqb_spec (bw_bytes bw) 0); [done|].
  destruct (collect_terms h path) as [ts|]; simpl; [|done].
  intros [= <-] [->|Hin]%elem_of_cons; [|by apply (IH ts)]. simpl.
  split; [specialize (Hbw bw eq_refl); lia|]. intros hz E. specialize (Hhz hz E). lia.
Qed.

Definition term_typed (t : Bandwidth * option Z) : Prop :=
  0 < bw_bytes t.1 /\ forall hz, t.2 = Some hz -> 0 <= hz.

Lemma priced_terms_typed h path terms :
  map_Forall (fun _ d => decl_typed d) h -> priced_terms h path = Some terms ->
  Forall term_typed terms.
Proof.
  intros Ht. unfold priced_terms. destruct (collect_terms h path) as [ts|] eqn:E; simpl; [|done].
  intros [= <-]. apply Forall_map, Forall_forall. intros t Hin.
  destruct (collect_terms_typed h path ts t Ht E Hin).
  destruct t as [[bw c] [own|]], (path_replicas ts); split; simpl in *; auto; lia.
Qed.

Lemma leg_cost_nonneg per bytes t :
  0 <= bytes -> term_typed t -> 0 <= leg_cost per bytes t.
Proof.
  intros Hb [Ht Hz]. unfold leg_cost, PICOS_PER_SEC.
  destruct per, (bw_per t.1); try (apply div_ceil_nonneg; lia).
  pose proof (div_ceil_nonneg bytes (bw_bytes t.1) Hb Ht).
  destruct t.2 as [hz|]; simpl; [|unfold div_ceil; rewrite Z.div_0_r; lia].
  specialize (Hz hz eq_refl). destruct (decide (hz = 0)) as [->|].
  - unfold div_ceil. rewrite Z.div_0_r. lia.
  - apply div_ceil_nonneg; lia.
Qed.

Lemma legs_total_nonneg st legs : Forall (fun c => 0 <= c) legs -> 0 <= legs_total st legs.
Proof. induction 1; simpl; [lia|]. destruct st; lia. Qed.

Lemma sum_cycles_value st bytes total terms v :
  0 <= bytes <= umax 64 -> 0 <= total <= umax 64 -> Forall term_typed terms ->
  Forall (fun t => bw_per t.1 = Cycle) terms ->
  sum_cycles st bytes total terms = Returns (Some v) ->
  v = Z.min (if st then Z.max total (legs_total st (map (leg_cost Cycle bytes) terms))
             else total + legs_total st (map (leg_cost Cycle bytes) terms)) (umax 64).
Proof.
  intros Hb Htot Ht Hc. revert total Htot.
  induction Ht as [|[bw hz] terms [Hbw _] Ht IH]; intros total Htot; simpl in *.
  { intros [= <-]. destruct st; lia. }
  apply Forall_cons in Hc as [Hc Hcs]. unfold hop_cost. simpl in Hc, Hbw. rewrite Hc.
  destruct (Z.eqb_spec (bw_bytes bw) 0); [lia|]. simpl.
  assert (0 <= div_ceil bytes (bw_bytes bw)) by (apply div_ceil_nonneg; lia).
  assert (div_ceil bytes (bw_bytes bw) <= umax 64).
  { apply div_ceil_least; [done|]. assert (0 <= umax 64) by done. nia. }
  assert (0 <= legs_total st (map (leg_cost Cycle bytes) terms)) as Hl.
  { apply legs_total_nonneg, Forall_map. eapply Forall_impl; [exact Ht|].
    intros t Htt. apply leg_cost_nonneg; [lia|done]. }
  change (leg_cost Cycle bytes (bw, hz)) with (div_ceil bytes (bw_bytes bw)).
  unfold combine_cost, sat_u. intros ->%IH; auto; destruct st; simpl; lia.
Qed.

Lemma term_picos_value bytes t ps :
  0 <= bytes -> term_typed t -> term_picos bytes t = Returns (Some ps) -> ps = leg_cost Second bytes t.
Proof.
  intros Hb [Ht _]. unfold term_picos, leg_cost, hop_cost.
  destruct (bw_per t.1); rewrite (proj2 (Z.eqb_neq _ _)) by lia.
  - destruct (checked_u 128 _) as [s|] eqn:E; [|done]. apply checked_u_Some in E as [<- _].
    destruct (checked_u 64 _) as [q|] eqn:E'; [|done]. apply checked_u_Some in E' as [<- _].
    by intros [= <-].
  - destruct t.2 as [hz|]; [|done]. destruct (Z.eqb_spec hz 0); [done|].
    destruct (checked_u 128 _) as [s|] eqn:E; [|done]. apply checked_u_Some in E as [<- _].
    by intros [= <-].
Qed.

Lemma sum_picos_value st bytes total terms v :
  0 <= bytes -> 0 <= total -> Forall term_typed terms ->
  sum_picos st bytes total terms = Returns (Some v) ->
  v = if st then Z.max total (legs_total st (map (leg_cost Second bytes) terms))
      else total + legs_total st (map (leg_cost Second bytes) terms).
Proof.
  intros Hb Htot Ht. revert total Htot.
  induction Ht as [|t terms Hty Ht IH]; intros total Htot; simpl.
  { intros [= <-]. destruct st; lia. }
  destruct (term_picos bytes t) as [[ps|]|] eqn:E; simpl; [|done|done].
  apply term_picos_value in E as ->; [|done|done].
  pose proof (leg_cost_nonneg Second bytes t Hb Hty).
  destruct st; simpl; [intros ->%IH; simpl; lia|].
  destruct (checked_u 128 _) as [x|] eqn:Ex; [|done]. apply checked_u_Some in Ex as [<- _].
  intros ->%IH; simpl; lia.
Qed.

Lemma all_cycles_Forall (terms : list (Bandwidth * option Z)) :
  forallb (fun t : Bandwidth * option Z => bool_decide (bw_per t.1 = Cycle)) terms = true <->
  Forall (fun t => bw_per t.1 = Cycle) terms.
Proof. rewrite List.forallb_forall, List.Forall_forall. by setoid_rewrite bool_decide_eq_true. Qed.

(** C37. The cost of a transfer is the roofline of its route: the legs are the
    route's spaces at their per-instance rates, each rounded up; a streamed
    route costs its slowest leg and any other the sum of the legs.  A route
    whose spaces are all in cycles is priced in cycles (saturating at
    [u64::MAX]) and any other in picoseconds, exactly. *)
Theorem derived_cost_value h src dst bytes c :
  map_Forall (fun _ d => decl_typed d) h -> 0 <= bytes <= umax 64 ->
  derived_transfer_cost h src dst bytes = Returns (Some c) ->
  exists path terms, route_spaces h src dst = Some path /\ priced_terms h path = Some terms /\
    terms <> [] /\ (dc_per c = Cycle <-> Forall (fun t => bw_per t.1 = Cycle) terms) /\
    0 <= dc_value c <= umax 64 /\
    let exact := legs_total (is_streamed h path src dst) (map (leg_cost (dc_per c) bytes) terms) in
    dc_value c = match dc_per c with Cycle => Z.min exact (umax 64) | Second => exact end.
Proof.
  intros Hh Hb. unfold derived_transfer_cost.
  destruct (route_spaces h src dst) as [path|]; [|done].
  pose proof (priced_terms_typed h path) as Hty.
  destruct (collect_terms h path) as [[|t0 ts]|] eqn:E; [done| |done].
  assert (priced_terms h path = Some (map (per_instance (path_replicas (t0 :: ts))) (t0 :: ts))) as Hp
    by (unfold priced_terms; by rewrite E).
  assert (map (per_instance (path_replicas (t0 :: ts))) (t0 :: ts) <> []) as Hne by done.
  specialize (Hty _ Hh Hp). revert Hp Hne Hty.
  generalize (map (per_instance (path_replicas (t0 :: ts))) (t0 :: ts)) as terms.
  remember (is_streamed h path src dst) as st eqn:Hst. intros terms Hp Hne Hty.
  assert (0 <= umax 64) by done.
  assert (forall per, 0 <= legs_total st (map (leg_cost per bytes) terms)) as Hl.
  { intros per. apply legs_total_nonneg, Forall_map. eapply Forall_impl; [exact Hty|].
    intros t Htt. apply leg_cost_nonneg; [lia|done]. }
  destruct (forallb _ terms) eqn:Hall.
  - apply all_cycles_Forall in Hall.
    destruct (sum_cycles st bytes 0 terms) as [[v|]|] eqn:Es; simpl; [|done|done].
    apply sum_cycles_value in Es; auto; [|lia]. specialize (Hl Cycle).
    intros [= <-]. exists path, terms. rewrite <- Hst. split_and!; try done; simpl; destruct st; lia.
  - destruct (sum_picos st bytes 0 terms) as [[v|]|] eqn:Es; simpl; [|done|done].
    destruct (checked_u 64 v) as [v'|] eqn:Ev; simpl; [|done].
    apply checked_u_Some in Ev as [<- Hv]. intros [= <-]. exists path, terms. rewrite <- Hst.
    apply sum_picos_value in Es; [|lia|lia|done]. specialize (Hl Second).
    split_and!; try done; simpl; try lia; [|destruct st; lia].
    split; [done|]. rewrite <- all_cycles_Forall. congruence.
Qed.

Lemma hop_cost_mono b b' bw v' :
  0 <= b <= b' -> 0 < bw_bytes bw -> hop_cost b' bw = Returns (Some v') ->
  exists v, hop_cost b bw = Returns (Some v) /\ 0 <= v <= v'.
Proof.
  intros Hb Hbw. unfold hop_cost, PICOS_PER_SEC.
  destruct (bw_per bw); rewrite (proj2 (Z.eqb_neq (bw_bytes bw) 0)) by lia.
  - destruct (checked_u 128 (b' * _)) as [s'|] eqn:E; [|done]. apply checked_u_Some in E as [<- Hs].
    rewrite (proj2 (checked_u_Some 128 (b * 1000000000000) _)) by (split; [done|lia]).
    intros [= Hv]. apply checked_u_Some in Hv as [<- Hv].
    pose proof (div_ceil_mono (b * 1000000000000) (b' * 1000000000000) (bw_bytes bw)).
    pose proof (div_ceil_nonneg (b * 1000000000000) (bw_bytes bw)).
    eexists. rewrite (proj2 (checked_u_Some 64 _ _)) by (split; [done|lia]). split; [done|lia].
  - intros [= <-]. pose proof (div_ceil_mono b b' (bw_bytes bw)).
    pose proof (div_ceil_nonneg b (bw_bytes bw)). eexists. split; [done|lia].
Qed.

Lemma term_picos_mono b b' t v' :
  0 <= b <= b' -> term_typed t -> term_picos b' t = Returns (Some v') ->
  exists v, term_picos b t = Returns (Some v) /\ 0 <= v <= v'.
Proof.
  intros Hb [Hbw Hhz]. unfold term_picos, PICOS_PER_SEC.
  destruct (bw_per t.1); [by apply hop_cost_mono|].
  rewrite (proj2 (Z.eqb_neq (bw_bytes t.1) 0)) by lia.
  destruct t.2 as [hz|]; [|done]. specialize (Hhz hz eq_refl). destruct (Z.eqb_spec hz 0); [done|].
  pose proof (div_ceil_mono b b' (bw_bytes t.1)). pose proof (div_ceil_nonneg b (bw_bytes t.1)).
  destruct (checked_u 128 (div_ceil b' _ * _)) as [s'|] eqn:E; [|done].
  apply checked_u_Some in E as [<- Hs].
  rewrite (proj2 (checked_u_Some 128 (div_ceil b _ * _) _)) by (split; [done|lia]).
  intros [= <-]. eexists. split; [done|]. split; [apply div_ceil_nonneg; lia|apply div_ceil_mono; lia].
Qed.

Lemma sum_cycles_mono st b b' terms total total' v' :
  0 <= b <= b' -> 0 <= total <= total' -> Forall term_typed terms ->
  sum_cycles st b' total' terms = Returns (Some v') ->
  exists v, sum_cycles st b total terms = Returns (Some v) /\ v <= v'.
Proof.
  intros Hb Ht Hty. revert total total' Ht.
  induction Hty as [|[bw hz] terms [Hbw _] Hty IH]; intros total total' Ht; simpl.
  { intros [= <-]. eexists. split; [done|lia]. }
  destruct (hop_cost b' bw) as [[c'|]|] eqn:E; simpl; [|done|done].
  apply (hop_cost_mono b) in E as (c & -> & Hc); [|done|done]. simpl.
  apply IH. assert (0 <= umax 64) by done. unfold combine_cost, sat_u. destruct st; lia.
Qed.

Lemma sum_picos_mono st b b' terms total total' v' :
  0 <= b <= b' -> 0 <= total <= total' -> Forall term_typed terms ->
  sum_picos st b' total' terms = Returns (Some v') ->
  exists v, sum_picos st b total terms = Returns (Some v) /\ 0 <= v <= v'.
Proof.
  intros Hb Ht Hty. revert total total' Ht.
  induction Hty as [|t terms Htt Hty IH]; intros total total' Ht; simpl.
  { intros [= <-]. eexists. split; [done|lia]. }
  destruct (term_picos b' t) as [[c'|]|] eqn:E; simpl; [|done|done].
  apply (term_picos_mono b) in E as (c & -> & Hc); [|done|done]. simpl.
  destruct st; [apply IH; lia|].
  destruct (checked_u 128 (total' + c')) as [x|] eqn:Ex; [|done]. apply checked_u_Some in Ex as [<- Hx].
  rewrite (proj2 (checked_u_Some 128 (total + c) _)) by (split; [done|lia]). apply IH. lia.
Qed.

(** A smaller transfer along the same pair of spaces is never dearer and
    never loses its price: if the cost of [bytes'] is derivable, so is the cost
    of any [bytes <= bytes'], in the same unit, and it is at most that. *)
Theorem derived_cost_monotone h src dst bytes bytes' c' :
  map_Forall (fun _ d => decl_typed d) h -> 0 <= bytes <= bytes' ->
  derived_transfer_cost h src dst bytes' = Returns (Some c') ->
  exists c, derived_transfer_cost h src dst bytes = Returns (Some c) /\
    dc_per c = dc_per c' /\ dc_value c <= dc_value c'.
Proof.
  intros Hh Hb. unfold derived_transfer_cost.
  destruct (route_spaces h src dst) as [path|]; [|done].
  pose proof (priced_terms_typed h path) as Hty. unfold priced_terms in Hty.
  destruct (collect_terms h path) as [[|t0 ts]|] eqn:E; [done| |done].
  specialize (Hty _ Hh eq_refl). revert Hty.
  generalize (map (per_instance (path_replicas (t0 :: ts))) (t0 :: ts)) as terms.
  generalize (is_streamed h path src dst) as st. intros st terms Hty.
  destruct (forallb _ terms) eqn:Hall.
  - destruct (sum_cycles st bytes' 0 terms) as [[v'|]|] eqn:Es; simpl; [|done|done]. intros [= <-].
    apply (sum_cycles_mono st bytes bytes' terms 0 0) in Es as (v & -> & Hv); [|done|lia|done].
    eexists. split; [done|]. done.
  - destruct (sum_picos st bytes' 0 terms) as [[v'|]|] eqn:Es; simpl; [|done|done].
    destruct (checked_u 64 v') as [x|] eqn:Ex; simpl; [|done]. apply checked_u_Some in Ex as [<- Hx].
    apply (sum_picos_mono st bytes bytes' terms 0 0) in Es as (v & -> & Hv); [|done|lia|done].
    intros [= <-]. simpl. rewrite (proj2 (checked_u_Some 64 v v)) by (split; [done|lia]). simpl.
    eexists. split; [done|]. simpl. split; [done|lia].
Qed.

(** A small machine: shared memory inside a level-two cache inside device
    memory, and the host's own memory. *)
Definition demo_decl (name : string) (p : option MemorySpace) (cap bw : Z) (per : RatePer) (sc : Scope)
    (reps : option Z) : MemoryDecl :=
  mkMemoryDecl name p (Some cap) (Some (mkBandwidth bw per)) (Some 1980000000) Explicit None None
    (Some sc) reps false Sequenced None.

Definition demo_hierarchy : MemoryHierarchy :=
  build [demo_decl "GPU_HBM" None 80000000000 3350000000000 Second Device None;
         demo_decl "L2" (Some GpuHbm) 50000000 12000000000000 Second Device None;
         demo_decl "SMEM" (Some (CustomSpace "L2")) 228000 128 Cycle Sm (Some 132)].

Lemma demo_typed : map_Forall (fun _ d => decl_typed d) demo_hierarchy.
Proof.
  unfold demo_hierarchy, build. simpl.
  repeat apply map_Forall_insert_2; try apply map_Forall_empty;
    split_and!; simpl; intros ? [= <-]; done.
Qed.

Lemma derived_cost_value_witness : exists path terms,
  route_spaces demo_hierarchy (CustomSpace "L2") (CustomSpace "SMEM") = Some path /\
  priced_terms demo_hierarchy path = Some terms /\ terms <> [].
Proof.
  destruct (derived_cost_value demo_hierarchy (CustomSpace "L2") (CustomSpace "SMEM") 4096
              (mkDerivedCost (45057 + 16162) Second) demo_typed) as (path & terms & H1 & H2 & H3 & _).
  - split; [lia|done].
  - vm_compute. reflexivity.
  - exists path, terms. auto.
Defined.

Lemma derived_cost_monotone_witness : exists c,
  derived_transfer_cost demo_hierarchy (CustomSpace "L2") (CustomSpace "SMEM") 64 = Returns (Some c) /\
  dc_per c = Second /\ dc_value c <= 61219.
Proof.
  apply (derived_cost_monotone demo_hierarchy (CustomSpace "L2") (CustomSpace "SMEM") 64 4096
           (mkDerivedCost 61219 Second) demo_typed).
  - lia.
  - vm_compute. reflexivity.
Defined.

(** ** Granules and static sizes *)

(** A tile occupies the least whole number of granules that holds it:
    [granule_round] is at least the size, a multiple of the granule, the least
    such, and rounding twice changes nothing (where the rounding does not
    saturate). *)
Theorem granule_round_least bytes g :
  0 <= bytes -> 0 < g -> bytes + g <= umax 64 ->
  let r := granule_round bytes (Some g) in
  bytes <= r /\ (g | r) /\ (forall m, bytes <= m -> (g | m) -> r <= m) /\
  granule_round r (Some g) = r /\ granule_round bytes None = bytes /\ granule_round bytes (Some 0) = bytes.
Proof.
  intros Hb Hg Hmax. unfold granule_round, sat_u. rewrite (proj2 (Z.ltb_lt 0 g) Hg). simpl.
  pose proof (div_ceil_spec bytes g Hg) as Hd.
  rewrite (Z.min_l (div_ceil bytes g * g) (umax 64)) by lia.
  assert (div_ceil (div_ceil bytes g * g) g = div_ceil bytes g) as Hi.
  { apply Z.le_antisymm; [apply div_ceil_least; lia|].
    pose proof (div_ceil_spec (div_ceil bytes g * g) g Hg). nia. }
  split_and!; [lia|by exists (div_ceil bytes g)| |rewrite Hi; lia|done|done].
  intros m Hm [q ->]. apply Z.mul_le_mono_nonneg_r; [lia|]. apply div_ceil_least; lia.
Qed.

Lemma granule_round_least_witness :
  let r := granule_round 1 (Some 1024) in 1 <= r /\ r = 1024.
Proof.
  split; [|reflexivity]. apply (granule_round_least 1 1024); done.
Defined.

(** The exact value of a dimension, in unbounded integers. *)
Definition dim_op (op : BinaryOp) (l r : Z) : option Z :=
  match op with
  | Add => Some (l + r)
  | Sub => Some (l - r)
  | Mul => Some (l * r)
  | Div => if r =? 0 then None else Some (Z.quot l r)
  | Rem => if r =? 0 then None else Some (Z.rem l r)
  | BitAnd => Some (Z.land l r)
  | BitOr => Some (Z.lor l r)
  | BitXor => Some (Z.lxor l r)
  | Shl => if in_u 6 r then Some (Z.shiftl l r) else None
  | Shr => if in_u 6 r then Some (Z.shiftr l r) else None
  | MatMul => None
  end.

Fixpoint dim_value (e : Expr) : option Z :=
  match e with
  | Number value _ _ => parse_uint 64 value
  | BinaryOpE lhs op rhs _ _ => l ← dim_value lhs; r ← dim_value rhs; dim_op op l r
  | UnaryOpE Neg e' _ => v ← dim_value e'; Some (- v)
  | _ => None
  end.

Fixpoint has_shl (e : Expr) : bool :=
  match e with
  | BinaryOpE l op r _ _ => bool_decide (op = Shl) || has_shl l || has_shl r
  | UnaryOpE _ e' _ => has_shl e'
  | _ => false
  end.

Lemma const_dim_op_exact op l r v :
  op <> Shl -> const_dim_op op l r = Ok v -> dim_op op l r = Some v.
Proof.
  intros Hop. destruct op; simpl; try done;
    rewrite ?ok_or_Ok, ?checked_i_Some; try naive_solver.
  - destruct (r =? 0); [done|]. rewrite ok_or_Ok. unfold checked_quot_i. case_match; naive_solver.
  - destruct (r =? 0); [done|]. rewrite ok_or_Ok. unfold checked_rem_i. case_match; naive_solver.
  - destruct (checked_u 32 r) as [s|] eqn:E; [|done]. apply checked_u_Some in E as [<- Hr].
    destruct (Z.leb_spec 64 r); [done|]. rewrite ok_or_Ok. unfold checked_shr_i.
    rewrite (proj2 (Z.ltb_lt r 128)) by lia. intros [= <-].
    by rewrite (proj2 (in_u_true 6 r)) by (change (umax 6) with 63; lia).
Qed.

Lemma const_dim_exact_no_shl e v :
  has_shl e = false -> const_dim e = Returns (Ok v) -> dim_value e = Some v.
Proof.
  revert v. induction e as [| | l IHl op r IHr sp ot | op e IH sp | | |]; intros v; simpl; try done.
  - intros _ [= H]. by apply ok_or_Ok in H.
  - rewrite !orb_false_iff, bool_decide_eq_false. intros [[Hop Hl] Hr].
    destruct (const_dim l) as [[vl|]|]; simpl; try done.
    destruct (const_dim r) as [[vr|]|]; simpl; try done. intros [= Hv].
    rewrite (IHl vl), (IHr vr) by done. simpl. by apply const_dim_op_exact.
  - destruct op; try done. intros He. destruct (const_dim e) as [[ve|]|]; simpl; try done.
    rewrite (IH ve) by done. simpl. destruct (checked_i 128 (- ve)) as [x|] eqn:E; [|done].
    apply checked_i_Some in E as [<- _]. intros [= <-]. done.
Qed.

Definition dim_folds (d : Dim) (v : Z) : Prop :=
  exists e, d = Static e /\ const_dim e = Returns (Ok v).

Lemma fold_dims_folds dims vs acc ov :
  Forall2 dim_folds dims vs -> fold_dims dims acc ov = Returns (Some (acc ++ vs, ov)).
Proof.
  intros H. revert acc. induction H as [|d v dims vs (e & -> & He) H IH]; intros acc; simpl.
  - by rewrite app_nil_r.
  - rewrite He. simpl. rewrite IH. by rewrite <- app_assoc.
Qed.

Lemma fold_dims_inv dims acc ov xs :
  fold_dims dims acc ov = Returns (Some (xs, false)) ->
  ov = false /\ exists vs, xs = acc ++ vs /\ Forall2 dim_folds dims vs.
Proof.
  revert acc ov. induction dims as [|d dims IH]; intros acc ov; simpl.
  { intros [= <- <-]. split; [done|]. exists []. by rewrite app_nil_r. }
  destruct d as [e|]; simpl; [|done]. destruct (const_dim e) as [[v|[]]|] eqn:E; simpl; try done.
  - intros (-> & vs & -> & H)%IH. split; [done|]. exists (v :: vs). rewrite <- app_assoc.
    split; [done|]. constructor; [by exists e|done].
  - intros [? _]%IH. done.
Qed.

Lemma element_bytes_range elem eb : element_bytes elem = Some eb -> 1 <= eb <= 16.
Proof. destruct elem; try (intros [= <-]; vm_compute; split; congruence); done. Qed.

Fixpoint product (l : list Z) : Z := match l with [] => 1 | v :: l => v * product l end.

Lemma mul_extent_None vs : foldl mul_extent None vs = None.
Proof. induction vs; simpl; auto. Qed.

Lemma mul_extents_sound vs b r : foldl mul_extent (Some b) vs = Some r -> r = b * product vs.
Proof.
  revert b. induction vs as [|v vs IH]; intros b; simpl; [intros [= <-]; lia|].
  destruct (checked_u 64 v) as [v'|] eqn:E; simpl; [|by rewrite mul_extent_None].
  apply checked_u_Some in E as [<- _].
  destruct (checked_u 64 (b * v)) as [x|] eqn:E; [|by rewrite mul_extent_None].
  apply checked_u_Some in E as [<- _]. intros ->%IH. lia.
Qed.

Lemma product_pos vs : Forall (fun v => 1 <= v) vs -> 1 <= product vs.
Proof. induction 1; simpl; nia. Qed.

Lemma mul_extents_exact vs b :
  1 <= b -> Forall (fun v => 1 <= v) vs -> b <= umax 64 ->
  foldl mul_extent (Some b) vs = checked_u 64 (b * product vs).
Proof.
  intros Hb Hvs. revert b Hb. induction Hvs as [|v vs Hv Hvs IH]; intros b Hb Hmax; simpl.
  { symmetry. apply checked_u_Some. lia. }
  pose proof (product_pos vs Hvs). 
  assert (b * v <= b * (v * product vs)) by nia. assert (v <= b * (v * product vs)) by nia.
  destruct (checked_u 64 v) as [v'|] eqn:E; simpl.
  - apply checked_u_Some in E as [<- ?]. destruct (checked_u 64 (b * v)) as [x|] eqn:E.
    + apply checked_u_Some in E as [<- ?]. rewrite IH by nia. f_equal. lia.
    + rewrite mul_extent_None. apply checked_u_None in E. symmetry. apply checked_u_None. nia.
  - rewrite mul_extent_None. apply checked_u_None in E. symmetry. apply checked_u_None. nia.
Qed.


(** And a size that fits is reported: with constant extents of at least
    one, the answer is the exact product when it is at most [i64::MAX] and
    [Overflows] otherwise. *)
Theorem static_size_exact elem dims eb vs :
  dims <> [] -> element_bytes elem = Some eb -> Forall2 dim_folds dims vs ->
  Forall (fun v => 1 <= v) vs ->
  static_tensor_size elem dims =
    Returns (if eb * product vs <=? imax 64 then Bytes (eb * product vs) else Overflows).
Proof.
  intros Hne Heb HF Hvs. destruct dims as [|d dims]; [done|]. unfold static_tensor_size.
  rewrite (fold_dims_folds _ vs) by done. simpl.
  destruct (existsb (fun v => v <? 0) vs) eqn:Hneg.
  { apply existsb_exists in Hneg as (v & Hv%list_elem_of_In & Hlt%Z.ltb_lt).
    rewrite Forall_forall in Hvs. specialize (Hvs v Hv). lia. }
  pose proof (element_bytes_range elem eb Heb). pose proof (product_pos vs Hvs).
  assert (16 <= umax 64) by done. rewrite Heb, mul_extents_exact by (done || lia).
  destruct (checked_u 64 (eb * product vs)) as [r|] eqn:E; [by apply checked_u_Some in E as [<- _]|].
  apply checked_u_None in E. assert (imax 64 <= umax 64) by done.
  destruct (Z.leb_spec (eb * product vs) (imax 64)); [nia|done].
Qed.

Definition lit (v : string) : Expr := Number v None Span_default.
Definition bin (l : Expr) (op : BinaryOp) (r : Expr) : Expr := BinaryOpE l op r Span_default None.

(** A key-value cache: [2 * 32 * 4096] rows of [8 * 128] halves. *)
Definition demo_dims : list Dim :=
  [Static (bin (bin (lit "2") Mul (lit "32")) Mul (lit "4096"));
   Static (bin (lit "8") Mul (lit "128"))].


Lemma static_size_exact_witness :
  static_tensor_size F16 demo_dims = Returns (Bytes 536870912).
Proof.
  apply (static_size_exact F16 demo_dims 2 [262144; 1024]).
  - done.
  - reflexivity.
  - repeat constructor; eexists; (split; [reflexivity|vm_compute; reflexivity]).
  - repeat constructor; lia.
Defined.

(** Constant folding of a dimension is exact integer arithmetic: without a
    left shift, a folded value is the value of the expression over the
    unbounded integers. *)
Theorem const_dim_exact e v :
  has_shl e = false -> const_dim e = Returns (Ok v) -> dim_value e = Some v.
Proof. apply const_dim_exact_no_shl. Qed.

Lemma const_dim_exact_witness :
  dim_value (bin (bin (lit "2") Mul (lit "32")) Sub (lit "100")) = Some (-36).
Proof. apply const_dim_exact; vm_compute; reflexivity. Defined.

(** A left shift is not: [((1 << 63) << 63) << 2] folds to [0], though its
    value is [2^128], because the checked shift checks the count only. *)
Theorem const_dim_shl_wraps :
  let e := bin (bin (bin (lit "1") Shl (lit "63")) Shl (lit "63")) Shl (lit "2") in
  dim_value e = Some (2 ^ 128) /\ const_dim e = Returns (Ok 0) /\
  static_tensor_size F32 [Static e] = Returns (Bytes 0).
Proof. vm_compute. auto. Qed.

(** A shape with an empty extent can still be reported as too large, when the
    extents before it already overflow. *)
Lemma zero_extent_after_overflow :
  static_tensor_size U8 [Static (lit "9223372036854775808"); Static (lit "4"); Static (lit "0")]
    = Returns Overflows /\
  static_tensor_size U8 [Static (lit "0"); Static (lit "9223372036854775808"); Static (lit "4")]
    = Returns (Bytes 0).
Proof. vm_compute. auto. Qed.
