(* ===== verification/Arch.v ===== *)
(** * Topology tables and dispatch ids ([src/src/arch.rs], first half)

    The descriptors of topologies, the ids under which the runtime is asked for
    a device or a memory space, the address spaces of declared memories, and
    the built-in tables.  The cost graph of the same source file is in
    [Routing].  [i32] arithmetic that can leave its type is in [outcome]. *)

From stdpp Require Import base list strings gmap sets sorting pretty.
From Stdlib Require Import ZArith Lia Ascii.
From S2P Require Import Prelude Syntax Memory.
Open Scope Z_scope.
Open Scope vx_scope.

(** ** Edges and descriptors *)

Definition ATTOS_PER_SEC : Z := 1000000000000000000.

Inductive EdgeCost : Type :=
| Derived
| Rate (bw : Bandwidth)
| Fixed (c : Z)
| Shared.

#[export] Instance EdgeCost_eq_dec : EqDecision EdgeCost.
Proof. solve_decision. Defined.

Definition routing_weight (e : EdgeCost) : Z :=
  match e with
  | Derived | Rate _ | Shared => 1
  | Fixed c => c
  end.

Definition per_byte_attos (e : EdgeCost) : option Z :=
  match e with
  | Rate bw =>
      if bool_decide (bw_per bw = Second) && (0 <? bw_bytes bw)
      then checked_u 64 (ATTOS_PER_SEC / bw_bytes bw) else None
  | Shared => Some 0
  | _ => None
  end.

Definition declared (e : EdgeCost) : option Z :=
  match e with Fixed c => Some c | _ => None end.

Record TransferEdge : Type := mkTransferEdge {
  te_from : MemorySpace;
  te_to : MemorySpace;
  te_cost : EdgeCost;
  te_sync : bool;
  te_copy_engine : bool;
}.

Inductive LevelKind : Type := Blocks | Subgroups | Lanes.

Record Level : Type := mkLevel {
  lv_name : Symbol;
  lv_kind : LevelKind;
  lv_max_lanes : option Z;
  lv_lanes : option Z;
  lv_memory : option Scope;
}.

Record TopologyDescriptor : Type := mkTopologyDescriptor {
  default_space : MemorySpace;
  visibility : list MemorySpace;
  arch : option Symbol;
  transfers : list TransferEdge;
  dtypes : option (list ElementType);
  chip : option Symbol;
  levels : option (list Level);
  offload : bool;
}.

Record TopologyDecl : Type := mkTopologyDecl {
  td_name : Symbol;
  td_descriptor : TopologyDescriptor;
}.

(** ** Dispatch ids *)

(** FNV-1a over the bytes of the text. *)
Fixpoint fnv32_from (hash : Z) (s : string) : Z :=
  match s with
  | EmptyString => hash
  | String b s => fnv32_from (wrap_u 32 (Z.lxor hash (Z.of_nat (nat_of_ascii b)) * 16777619)) s
  end.

Definition fnv32 (s : string) : Z := fnv32_from 2166136261 s.

Definition CUSTOM_DISPATCH_ID_BASE : Z := 3000.
Definition NUMA_DISPATCH_BASE : Z := 1000.
Definition NUMA_DISPATCH_MAX_NODE : Z := 999.

Definition numa_dispatch_id (node : Z) : option Z :=
  if node <=? NUMA_DISPATCH_MAX_NODE then Some (NUMA_DISPATCH_BASE + node) else None.

Definition numa_node_of_dispatch_id (id : Z) : option Z :=
  node ← checked_i 32 (id - NUMA_DISPATCH_BASE);
  if (0 <=? node) && (node <=? NUMA_DISPATCH_MAX_NODE) then Some node else None.

Definition CUSTOM_DISPATCH_ID_SPAN : Z := imax 32 - CUSTOM_DISPATCH_ID_BASE + 1.

Definition fnv_dispatch_id (name : Symbol) : Z :=
  CUSTOM_DISPATCH_ID_BASE + fnv32 name mod CUSTOM_DISPATCH_ID_SPAN.

(** [i32] division: [i32::MIN / -1] panics, with or without overflow checks. *)
Definition div_i32 (l r : Z) : outcome Z :=
  if (l =? imin 32) && (r =? -1) then Panics else Returns (Z.quot l r).
Definition rem_i32 (l r : Z) : outcome Z :=
  if (l =? imin 32) && (r =? -1) then Panics else Returns (Z.rem l r).

Fixpoint const_topology_index (e : Expr) : outcome (option Z) :=
  match e with
  | Number value _ _ => Returns (parse_int 32 value)
  | BinaryOpE lhs op rhs _ _ =>
      l ←! const_topology_index lhs;
      l ←?! l;
      r ←! const_topology_index rhs;
      r ←?! r;
      match op with
      | Add => Returns (checked_i 32 (l + r))
      | Sub => Returns (checked_i 32 (l - r))
      | Mul => Returns (checked_i 32 (l * r))
      | Div => if r =? 0 then Returns None else q ←! div_i32 l r; Returns (Some q)
      | Rem => if r =? 0 then Returns None else q ←! rem_i32 l r; Returns (Some q)
      | BitAnd => Returns (Some (Z.land l r))
      | BitOr => Returns (Some (Z.lor l r))
      | BitXor => Returns (Some (Z.lxor l r))
      | Shl => Returns (s ← checked_u 32 r; checked_shl_i 32 l s)
      | Shr => Returns (s ← checked_u 32 r; checked_shr_i 32 l s)
      | MatMul => Returns None
      end
  | _ => Returns None
  end.

(** [const_topology_index(e).is_none().then_some(e)]. *)
Definition unless_constant (e : Expr) : outcome (option Expr) :=
  i ←! const_topology_index e;
  Returns match i with None => Some e | Some _ => None end.

Definition or_else {A} (a : outcome (option A)) (b : outcome (option A)) : outcome (option A) :=
  x ←! a;
  match x with Some _ => Returns x | None => b end.

Fixpoint non_constant_index (top : Topology) : outcome (option Expr) :=
  match top with
  | NPU e | AccCore e | GPU e => unless_constant e
  | Slice base start end_ =>
      or_else (or_else (non_constant_index base) (unless_constant start)) (unless_constant end_)
  | _ => Returns None
  end.

Definition topology_index (e : Expr) : outcome Z :=
  i ←! const_topology_index e; Returns (default 0 i).

Definition TASKS_BLOCK_DISPATCH_ID : Z := 10.
Definition TASK_DISPATCH_ID : Z := 11.

(** [base + index] on [i32]. *)
Definition add_i32 (a b : Z) : outcome Z :=
  match checked_i 32 (a + b) with Some v => Returns v | None => Panics end.

Fixpoint topology_dispatch_id (top : Topology) : outcome Z :=
  match top with
  | CPU | Current => Returns 0
  | NPU e => i ←! topology_index e; add_i32 100 i
  | AccCore e => i ←! topology_index e; add_i32 200 i
  | AMX => Returns 300
  | ANE => Returns 400
  | GPU e => i ←! topology_index e; add_i32 500 i
  | CpuAvx512 => Returns 600
  | CpuNeon => Returns 700
  | Slice base start end_ =>
      b ←! topology_dispatch_id base;
      s ←! topology_index start;
      e ←! topology_index end_;
      let key := (pretty b +:+ ":" +:+ pretty s +:+ ":" +:+ pretty e)%string in
      Returns (2000 + fnv32 key mod 1000)
  | CustomTopology name => Returns (fnv_dispatch_id name)
  end.

Definition memory_space_dispatch_id (mem : MemorySpace) : Z :=
  match mem with
  | CPUDRAM => 0
  | NPUHBM => 100
  | LocalSRAM => 200
  | GpuHbm => 500
  | NicRam => 800
  | RemoteHbm => 900
  | CustomSpace name => fnv_dispatch_id name
  end.

Definition builtin_memory_space_name (id : Z) : option string :=
  MemorySpace_name <$>
    List.find (fun m => memory_space_dispatch_id m =? id)
      [CPUDRAM; NPUHBM; LocalSRAM; GpuHbm; NicRam; RemoteHbm].

(** ** Address spaces *)

Inductive AddressSpace : Type := Host | Global_ | Workgroup | Private_.

Definition nvptx_addrspace (a : AddressSpace) : Z :=
  match a with Host => 0 | Global_ => 1 | Workgroup => 3 | Private_ => 5 end.

Definition gpu_attr (a : AddressSpace) : option string :=
  match a with
  | Host => None
  | Global_ => Some "#gpu.address_space<global>"
  | Workgroup => Some "#gpu.address_space<workgroup>"
  | Private_ => Some "#gpu.address_space<private>"
  end.

Inductive DeviceTarget : Type := X86_64 | Aarch64 | Nvptx64 | AmdGcn | Spirv64 | AppleGpu.

Definition DeviceTarget_from_arch (name : string) : option DeviceTarget :=
  if decide (name = "x86_64") then Some X86_64
  else if decide (name = "aarch64") then Some Aarch64
  else if decide (name = "nvptx64") then Some Nvptx64
  else if decide (name = "amdgcn") then Some AmdGcn
  else if decide (name = "spirv64") then Some Spirv64
  else if decide (name = "applegpu") then Some AppleGpu
  else None.

Definition launch_limits (t : DeviceTarget) : option (Z * Z) :=
  match t with
  | Nvptx64 | AppleGpu => Some (1024, 32)
  | X86_64 | Aarch64 | AmdGcn | Spirv64 => None
  end.

Definition address_space (t : DeviceTarget) (space : AddressSpace) : Z :=
  match t with
  | Nvptx64 | AppleGpu => nvptx_addrspace space
  | X86_64 | Aarch64 | AmdGcn | Spirv64 => nvptx_addrspace space
  end.

Definition address_space_for_arch (a : option string) (space : AddressSpace) : outcome Z :=
  match a with
  | Some name =>
      match DeviceTarget_from_arch name with
      | Some t => Returns (address_space t space)
      | None => Panics
      end
  | None => Returns (nvptx_addrspace space)
  end.

Definition launches_levels (d : TopologyDescriptor) (kind : TopologyKind) : bool :=
  let a := match arch d, kind with
           | Some a, _ => Some a
           | None, KGPU => Some "nvptx64"
           | None, _ => None
           end in
  match (n ← a; t ← DeviceTarget_from_arch n; launch_limits t) with Some _ => true | None => false end.

Definition builtin_address_space (mem : MemorySpace) : option AddressSpace :=
  match mem with
  | CPUDRAM => Some Host
  | NPUHBM | GpuHbm => Some Global_
  | LocalSRAM => Some Workgroup
  | NicRam | RemoteHbm => None
  | CustomSpace _ => None
  end.

Definition declared_address_space (mem : MemorySpace) (decl : option MemoryDecl) : option AddressSpace :=
  match builtin_address_space mem with
  | Some a => Some a
  | None =>
      d ← decl; s ← md_scope d;
      match s with
      | Device => Some Global_
      | Sm | Cta => Some Workgroup
      | Thread => Some Private_
      end
  end.

(** ** Built-in tables *)

Definition builtin_descriptor (d : MemorySpace) (vis : list MemorySpace) : TopologyDescriptor :=
  mkTopologyDescriptor d vis None [] None None None false.

Definition builtin_descriptors : gmap TopologyKind TopologyDescriptor :=
  list_to_map
    [(KCPU, builtin_descriptor CPUDRAM [CPUDRAM; NPUHBM]);
     (KGPU, builtin_descriptor GpuHbm [GpuHbm]);
     (KNPU, builtin_descriptor NPUHBM [NPUHBM]);
     (KANE, builtin_descriptor NPUHBM [NPUHBM; CPUDRAM]);
     (KAMX, builtin_descriptor CPUDRAM [CPUDRAM]);
     (KAccCore, builtin_descriptor LocalSRAM [LocalSRAM]);
     (KCpuAvx512, builtin_descriptor CPUDRAM [CPUDRAM]);
     (KCpuNeon, builtin_descriptor CPUDRAM [CPUDRAM]);
     (KSlice, builtin_descriptor NPUHBM [NPUHBM])].

(** [topologies] is the table of declared topologies, by name. *)
Definition topology_default_space (top : Topology) (topologies : gmap string TopologyDescriptor) : MemorySpace :=
  match builtin_descriptors !! Topology_kind top with
  | Some d => default_space d
  | None =>
      match top with
      | CustomTopology name =>
          match topologies !! name with
          | Some d => default_space d
          | None => MemorySpace_from_name name
          end
      | _ => CPUDRAM
      end
  end.

Definition topology_address_space (top : Topology) (decls : gmap MemorySpace MemoryDecl)
    (topologies : gmap string TopologyDescriptor) : option AddressSpace :=
  match top with
  | Current => Some Host
  | _ =>
      let space := topology_default_space top topologies in
      declared_address_space space (decls !! space)
  end.

Definition builtin_default_space (kind : TopologyKind) : MemorySpace :=
  match kind with
  | KCPU | KAMX | KCpuAvx512 | KCpuNeon => CPUDRAM
  | KGPU => GpuHbm
  | KNPU | KANE | KSlice => NPUHBM
  | KAccCore => LocalSRAM
  | KCustom name => MemorySpace_from_name name
  | KCurrent => CPUDRAM
  end.

Definition builtin_space_owner (space : MemorySpace) : option TopologyKind :=
  match space with
  | CPUDRAM => Some KCPU
  | GpuHbm => Some KGPU
  | NPUHBM => Some KNPU
  | LocalSRAM => Some KAccCore
  | NicRam | RemoteHbm => Some KCPU
  | CustomSpace _ => None
  end.

Definition first_device_of (kind : TopologyKind) : Topology :=
  let zero := Number "0" None Span_default in
  match kind with
  | KCPU => CPU
  | KAMX => AMX
  | KANE => ANE
  | KCpuAvx512 => CpuAvx512
  | KCpuNeon => CpuNeon
  | KGPU => GPU zero
  | KNPU | KSlice => NPU zero
  | KAccCore => AccCore zero
  | KCustom name => CustomTopology name
  | KCurrent => Current
  end.

Definition default_space_in (top : Topology) (descriptors : gmap TopologyKind TopologyDescriptor) : MemorySpace :=
  match descriptors !! Topology_kind top with
  | Some d => default_space d
  | None => builtin_default_space (Topology_kind top)
  end.

(** Why a space has no owner; the source renders these as text. *)
Inductive OwnerError : Type :=
| NoOwner (space : MemorySpace)
| AmbiguousOwner (space : MemorySpace) (owners : list TopologyKind).

(** The owners are listed in the order of the map here; the source sorts them
    by their debug text, which only the text of the error shows. *)
Definition owning_topology_in (space : MemorySpace) (descriptors : gmap TopologyKind TopologyDescriptor)
    : result Topology OwnerError :=
  match builtin_space_owner space with
  | Some kind => Ok (first_device_of kind)
  | None =>
      let owners := map fst (filter (fun e => default_space e.2 = space) (map_to_list descriptors)) in
      match owners with
      | [one] => Ok (first_device_of one)
      | [] => Err (NoOwner space)
      | many => Err (AmbiguousOwner space many)
      end
  end.

(** [Topology::gpu(0)]. *)
Definition gpu0_topology : Topology := GPU (Number "0" None Span_default).

(** The order of the alias pairs. *)
Definition alias_le (a b : Z * Z) : Prop := a.1 < b.1 \/ (a.1 = b.1 /\ a.2 <= b.2).
#[export] Instance alias_le_dec : RelDecision alias_le.
Proof. intros a b. unfold alias_le. apply _. Defined.

(** [Vec::dedup]: drop an element equal to the one before it. *)
Fixpoint dedup (l : list (Z * Z)) : list (Z * Z) :=
  match l with
  | a :: ((b :: _) as l') => if decide (a = b) then dedup l' else a :: dedup l'
  | _ => l
  end.

(** The pairs that [local_device_aliases] pushes for one declaration. *)
Definition device_aliases (gpu0 : Z) (name : Symbol) (desc : TopologyDescriptor) : list (Z * Z) :=
  if decide (arch desc = Some "nvptx64") then
    (fnv_dispatch_id name, gpu0) ::
    match default_space desc with
    | CustomSpace _ => [(memory_space_dispatch_id (default_space desc), gpu0)]
    | _ => []
    end
  else [].

Definition local_device_aliases (decls : list (Symbol * TopologyDescriptor)) : outcome (list (Z * Z)) :=
  gpu0 ←! topology_dispatch_id gpu0_topology;
  let out := concat (map (fun d => device_aliases gpu0 d.1 d.2) decls) in
  Returns (dedup (merge_sort alias_le out)).

(** ** Placements ([src/src/syntax/types.rs]) *)

Definition Placement_on (topology : Topology) : Placement :=
  mkPlacement topology (builtin_default_space (Topology_kind topology)) StatedDevice None.

Definition Placement_at (space : MemorySpace) : Placement :=
  let topology := match owning_topology_in space ∅ with
                  | Ok t => t
                  | Err _ => CustomTopology (MemorySpace_name space)
                  end in
  mkPlacement topology space StatedSpace None.

Definition Placement_complete (p : Placement) (descriptors : gmap TopologyKind TopologyDescriptor) : Placement :=
  match pl_stated p with
  | StatedDevice =>
      mkPlacement (pl_topology p) (default_space_in (pl_topology p) descriptors) (pl_stated p) (pl_alignment p)
  | StatedSpace =>
      match owning_topology_in (pl_space p) descriptors with
      | Ok t => mkPlacement t (pl_space p) (pl_stated p) (pl_alignment p)
      | Err _ => p
      end
  end.

(** ** Properties of the ids *)

Lemma fnv32_from_range s h : 0 <= h <= umax 32 -> 0 <= fnv32_from h s <= umax 32.
Proof.
  revert h. induction s as [|b s IH]; intros h Hh; simpl; [done|]. apply IH.
  unfold wrap_u, umax. pose proof (Z.mod_pos_bound (Z.lxor h (Z.of_nat (nat_of_ascii b)) * 16777619) (2 ^ 32)).
  lia.
Qed.

Lemma fnv_dispatch_id_range name : CUSTOM_DISPATCH_ID_BASE <= fnv_dispatch_id name <= imax 32.
Proof.
  unfold fnv_dispatch_id, CUSTOM_DISPATCH_ID_SPAN.
  assert (0 < imax 32 - CUSTOM_DISPATCH_ID_BASE + 1) as Hs by done.
  pose proof (Z.mod_pos_bound (fnv32 name) _ Hs). lia.
Qed.

Lemma builtin_space_id_range m : (forall n, m <> CustomSpace n) -> 0 <= memory_space_dispatch_id m <= 999.
Proof. intros Hm. destruct m; simpl; try lia. by destruct (Hm name). Qed.

(** The dispatch ids live in disjoint bands, so a backend can tell what an
    id names: built-in spaces below 1000 and pairwise distinct, NUMA nodes in
    1000..1999 (decoded exactly), slices in 2000..2999, and declared names from
    3000 up to [i32::MAX], with no arithmetic overflow on the way. *)
Theorem dispatch_bands :
  (forall m, match m with
             | CustomSpace _ => CUSTOM_DISPATCH_ID_BASE <= memory_space_dispatch_id m <= imax 32
             | _ => 0 <= memory_space_dispatch_id m <= 999
             end) /\
  (forall m m', (forall n, m <> CustomSpace n) ->
     memory_space_dispatch_id m = memory_space_dispatch_id m' -> m = m') /\
  (forall m, (forall n, m <> CustomSpace n) ->
     builtin_memory_space_name (memory_space_dispatch_id m) = Some (MemorySpace_name m)) /\
  (forall node id, 0 <= node ->
     numa_dispatch_id node = Some id <-> numa_node_of_dispatch_id id = Some node) /\
  (forall node id, 0 <= node -> numa_dispatch_id node = Some id -> 1000 <= id <= 1999) /\
  (forall base s e id, topology_dispatch_id (Slice base s e) = Returns id -> 2000 <= id <= 2999) /\
  (forall name, exists id, topology_dispatch_id (CustomTopology name) = Returns id /\
     memory_space_dispatch_id (CustomSpace name) = id /\ CUSTOM_DISPATCH_ID_BASE <= id <= imax 32).
Proof.
  split_and!.
  - intros []; simpl; try lia. apply fnv_dispatch_id_range.
  - intros m m' Hm E. pose proof (builtin_space_id_range m Hm). destruct m' as [| | | | | |n'].
    all: try (by destruct m; simpl in E; (lia || done || destruct (Hm name))).
    pose proof (fnv_dispatch_id_range n'). unfold CUSTOM_DISPATCH_ID_BASE in *. simpl in E. lia.
  - intros m Hm. destruct m; try reflexivity. by destruct (Hm name).
  - intros node id Hn. unfold numa_dispatch_id, numa_node_of_dispatch_id, NUMA_DISPATCH_BASE, NUMA_DISPATCH_MAX_NODE.
    split.
    + destruct (Z.leb_spec node 999); [|done]. intros [= <-].
      rewrite (proj2 (checked_i_Some 32 (1000 + node - 1000) node))
        by (change (imin 32) with (-2147483648); change (imax 32) with 2147483647; lia).
      simpl. by rewrite (proj2 (Z.leb_le 0 node)), (proj2 (Z.leb_le node 999)) by lia.
    + destruct (checked_i 32 (id - 1000)) as [x|] eqn:E; simpl; [|done].
      apply checked_i_Some in E as [<- _].
      destruct (Z.leb_spec 0 (id - 1000)), (Z.leb_spec (id - 1000) 999); simpl; try done.
      intros [= <-]. rewrite (proj2 (Z.leb_le (id - 1000) 999)) by lia. f_equal. lia.
  - intros node id Hn. unfold numa_dispatch_id, NUMA_DISPATCH_BASE, NUMA_DISPATCH_MAX_NODE.
    destruct (Z.leb_spec node 999); [|done]. intros [= <-]. lia.
  - intros base s e id. simpl. destruct (topology_dispatch_id base) as [b|]; simpl; [|done].
    destruct (topology_index s) as [i|]; simpl; [|done].
    destruct (topology_index e) as [j|]; simpl; [|done]. intros [= <-].
    pose proof (Z.mod_pos_bound (fnv32 (pretty b +:+ ":" +:+ pretty i +:+ ":" +:+ pretty j)) 1000). lia.
  - intros name. exists (fnv_dispatch_id name). simpl. split_and!; try done; apply fnv_dispatch_id_range.
Qed.

Definition index (v : string) : Expr := Number v None Span_default.

(** The hundred-wide bands of the indexed kinds are not guarded: device 100
    of the NPU and core 0 of the accelerator get the same dispatch id, and so do
    NPU 900 and NUMA node 0. *)
Theorem npu_index_escapes_band :
  topology_dispatch_id (NPU (index "100")) = topology_dispatch_id (AccCore (index "0")) /\
  topology_dispatch_id (NPU (index "900")) = Returns NUMA_DISPATCH_BASE /\
  numa_dispatch_id 0 = Some NUMA_DISPATCH_BASE.
Proof. vm_compute. auto. Qed.

(** Folding a constant index can crash the compiler: the division
    [(0 - 2147483647 - 1) / (0 - 1)] overflows [i32] outside the checked
    operations. *)
Theorem const_index_division_panics :
  const_topology_index
    (bin (bin (bin (index "0") Sub (index "2147483647")) Sub (index "1")) Div
         (bin (index "0") Sub (index "1"))) = Panics.
Proof. reflexivity. Qed.

(** ** Owners and default spaces *)

(** A descriptor table in which the declarations only add custom kinds and do
    not move the built-in memories. *)
Definition extends_builtins (descriptors : gmap TopologyKind TopologyDescriptor) : Prop :=
  forall k d, descriptors !! k = Some d -> (forall n, k <> KCustom n) ->
    default_space d = builtin_default_space k.

Lemma owner_is_listed space (descriptors : gmap TopologyKind TopologyDescriptor) k :
  map fst (filter (fun e => default_space e.2 = space) (map_to_list descriptors)) = [k] ->
  exists d, descriptors !! k = Some d /\ default_space d = space.
Proof.
  intros H. assert (k ∈ map fst (filter (fun e => default_space e.2 = space) (map_to_list descriptors))) as Hk
    by (rewrite H; set_solver).
  apply list_elem_of_fmap in Hk as ([k' d] & -> & [Hs Hin]%list_elem_of_filter).
  apply elem_of_map_to_list in Hin. eauto.
Qed.

Lemma kind_first_device k : k <> KSlice -> Topology_kind (first_device_of k) = k.
Proof. by destruct k. Qed.

(** A placement can be written either way round: when a space has an owning
    device, that device's default space is the space again.  The network
    spaces, which are the host's provisionally, are the exception. *)
Theorem owner_default_roundtrip space descriptors t :
  extends_builtins descriptors -> space <> NicRam -> space <> RemoteHbm ->
  owning_topology_in space descriptors = Ok t -> default_space_in t descriptors = space.
Proof.
  intros Hext H1 H2. unfold owning_topology_in.
  assert (forall k, (forall n, k <> KCustom n) -> k <> KSlice ->
    default_space_in (first_device_of k) descriptors = builtin_default_space k) as Hb.
  { intros k Hk Hs. unfold default_space_in. rewrite kind_first_device by done.
    destruct (descriptors !! k) as [d|] eqn:E; [|done]. by apply Hext. }
  destruct space; simpl; try done; try (intros [= <-]).
  1: by apply (Hb KCPU). 1: by apply (Hb KNPU). 1: by apply (Hb KGPU). 1: by apply (Hb KAccCore).
  destruct (map fst _) as [|k [|]] eqn:E; try done. intros [= <-].
  apply owner_is_listed in E as (d & Hd & Hs).
  assert (exists n, k = KCustom n) as [n ->].
  { destruct k as [| | | | | | | | |n|]; eauto; specialize (Hext _ d Hd ltac:(done)); simpl in Hext; congruence. }
  unfold default_space_in. simpl. by rewrite Hd.
Qed.

Definition smem_descriptors : gmap TopologyKind TopologyDescriptor :=
  <[KCustom "SmemDev" := builtin_descriptor (CustomSpace "SMEM") [CustomSpace "SMEM"]]> builtin_descriptors.

Lemma smem_extends : extends_builtins smem_descriptors.
Proof.
  intros k d. unfold smem_descriptors. rewrite lookup_insert_Some.
  intros [[<- _]|[_ Hd]] Hk; [by destruct (Hk "SmemDev")|].
  apply elem_of_list_to_map_2 in Hd. simpl in Hd.
  repeat (apply elem_of_cons in Hd as [[= -> ->]|Hd]; [done|]). set_solver.
Qed.

Lemma owner_default_roundtrip_witness :
  default_space_in (CustomTopology "SmemDev") smem_descriptors = CustomSpace "SMEM".
Proof.
  apply (owner_default_roundtrip (CustomSpace "SMEM") smem_descriptors (CustomTopology "SmemDev")).
  - apply smem_extends.
  - done.
  - done.
  - vm_compute. reflexivity.
Defined.
