(* ===== verification/Routing.v ===== *)
(** * The transfer cost graph ([src/src/arch.rs], second half)

    [TransferCostGraph] with every operation that changes it, the Dijkstra
    search that picks a route, and the reachability verdicts read off it.

    [BinaryHeap] is an interface, the class [MinHeap]: a bag with a [pop] that
    returns a least key, which of equal keys being left open as the library
    leaves it.  The theorems hold for every instance; [ListHeap] is one.  The
    main loop of [search] runs on fuel [2 + edge_count]: every iteration pops an
    entry, and entries are pushed at most once per edge, since a space is
    expanded at most once.  Rebuilding the path runs on fuel
    [1 + size predecessors].  [search_terminates] shows neither is used up. *)

From stdpp Require Import base list strings gmap sets fin_maps fin_sets.
From Stdlib Require Import ZArith Lia.
From S2P Require Import Prelude Syntax Memory Arch.
Open Scope Z_scope.
Open Scope vx_scope.

Abbreviation SpacePair := (MemorySpace * MemorySpace)%type (only parsing).

Record TransferCostGraph : Type := mkGraph {
  transfer_edges : gmap MemorySpace (list (MemorySpace * Z));
  cost_matrix : gmap (MemorySpace * MemorySpace) Z;
  edge_rates : gmap (MemorySpace * MemorySpace) Bandwidth;
  route_cost : gmap (MemorySpace * MemorySpace) Z;
  derived_edges : list (MemorySpace * MemorySpace);
  edge_declared : gmap (MemorySpace * MemorySpace) Z;
  descriptors : gmap TopologyKind TopologyDescriptor;
}.

Inductive Reachability : Type := Visible | NeedsSeam (cost : Z) | Unreachable.

Inductive CoherenceIssue : Type := DefaultNotVisible | MemoryUnreachableFromHost.

(** ** Keys and the heap *)

Record Key : Type := mkKey { key_cost : Z; key_weight : Z }.
#[export] Instance Key_eq_dec : EqDecision Key.
Proof. solve_decision. Defined.

Definition key_default : Key := mkKey 0 0.

(** The derived [Ord] of [Key]: lexicographic. *)
Definition key_ltb (a b : Key) : bool :=
  (key_cost a <? key_cost b) || ((key_cost a =? key_cost b) && (key_weight a <? key_weight b)).

Definition key_le (a b : Key) : Prop :=
  key_cost a < key_cost b \/ (key_cost a = key_cost b /\ key_weight a <= key_weight b).

(** An entry of the heap. *)
Abbreviation State := (Key * MemorySpace)%type (only parsing).

Class MinHeap (H : Type) : Type := {
  heap_new : H;
  heap_push : Key * MemorySpace -> H -> H;
  heap_pop : H -> option ((Key * MemorySpace) * H);
  heap_elements : H -> list (Key * MemorySpace);
  heap_new_elements : heap_elements heap_new = [];
  heap_push_elements s h : heap_elements (heap_push s h) ≡ₚ s :: heap_elements h;
  heap_pop_None h : heap_pop h = None -> heap_elements h = [];
  heap_pop_Some h s h' : heap_pop h = Some (s, h') ->
    heap_elements h ≡ₚ s :: heap_elements h' /\
    forall t, t ∈ heap_elements h -> key_le s.1 t.1;
}.

(** A list, with its least entry found by a scan. *)
Module ListHeap.

Fixpoint pop (h : list (Key * MemorySpace)) : option ((Key * MemorySpace) * list (Key * MemorySpace)) :=
  match h with
  | [] => None
  | s :: h' =>
      match pop h' with
      | None => Some (s, [])
      | Some (t, rest) => if key_ltb t.1 s.1 then Some (t, s :: rest) else Some (s, h')
      end
  end.

End ListHeap.

(** ** The operations of the graph *)

Definition add_transfer_edge (g : TransferCostGraph) (src dst : MemorySpace) (cost : Z) : TransferCostGraph :=
  mkGraph (<[src := default [] (transfer_edges g !! src) ++ [(dst, cost)]]> (transfer_edges g))
    (cost_matrix g) (edge_rates g) (route_cost g) (derived_edges g) (edge_declared g) (descriptors g).

(** The body of the loop of [apply_descriptor_edges]. *)
Definition apply_edge (g : TransferCostGraph) (e : TransferEdge) : TransferCostGraph :=
  let key := (te_from e, te_to e) in
  let g := add_transfer_edge g (te_from e) (te_to e) (routing_weight (te_cost e)) in
  let rates := match te_cost e with Rate bw => <[key := bw]> (edge_rates g) | _ => edge_rates g end in
  let decl := match declared (te_cost e) with
              | Some c => <[key := c]> (edge_declared g)
              | None => edge_declared g
              end in
  let '(rc, de) :=
    match per_byte_attos (te_cost e) with
    | Some attos =>
        let best := match route_cost g !! key with Some c => Z.min c attos | None => attos end in
        (<[key := best]> (route_cost g), derived_edges g)
    | None =>
        (route_cost g,
         if decide (te_cost e = Derived) then derived_edges g ++ [key] else derived_edges g)
    end in
  mkGraph (transfer_edges g) (cost_matrix g) rates rc de decl (descriptors g).

Definition apply_descriptor_edges (g : TransferCostGraph) (desc : TopologyDescriptor) : TransferCostGraph :=
  foldl apply_edge g (transfers desc).

Definition set_descriptors (g : TransferCostGraph) (d : gmap TopologyKind TopologyDescriptor) : TransferCostGraph :=
  mkGraph (transfer_edges g) (cost_matrix g) (edge_rates g) (route_cost g) (derived_edges g)
    (edge_declared g) d.

Definition add_topology_edges (g : TransferCostGraph) (topologies : list TopologyDecl) : TransferCostGraph :=
  foldl (fun g decl =>
    let g := apply_descriptor_edges g (td_descriptor decl) in
    set_descriptors g (<[KCustom (td_name decl) := td_descriptor decl]> (descriptors g))) g topologies.

Definition PROBE_BYTES : Z := Z.shiftl 1 30.

(** Price one [Derived] edge from the containment tree. *)
Definition resolve_edge (h : MemoryHierarchy) (rc : gmap (MemorySpace * MemorySpace) Z)
    (e : MemorySpace * MemorySpace) : outcome (gmap (MemorySpace * MemorySpace) Z) :=
  c ←! derived_transfer_cost h e.1 e.2 PROBE_BYTES;
  Returns
    match c with
    | Some d =>
        if decide (dc_per d = Second) then
          match checked_u 64 (dc_value d * 1000000 / PROBE_BYTES) with
          | Some a => <[e := a]> rc
          | None => rc
          end
        else rc
    | None => rc
    end.

Fixpoint resolve_edges (h : MemoryHierarchy) (rc : gmap (MemorySpace * MemorySpace) Z)
    (edges : list (MemorySpace * MemorySpace)) : outcome (gmap (MemorySpace * MemorySpace) Z) :=
  match edges with
  | [] => Returns rc
  | e :: edges => rc ←! resolve_edge h rc e; resolve_edges h rc edges
  end.

(** ** The search *)

Section search.
Context {H : Type} `{MinHeap H}.

(** The body of the loop over the neighbours of [mem]. *)
Definition relax1 (g : TransferCostGraph) (priced_only : bool) (mem : MemorySpace) (key : Key)
    (st : H * gmap MemorySpace Key * gmap MemorySpace MemorySpace) (nb : MemorySpace * Z)
    : H * gmap MemorySpace Key * gmap MemorySpace MemorySpace :=
  match st, nb with
  | (heap, dists, predecessors), (next, edge_weight) =>
      let priced := route_cost g !! (mem, next) in
      if priced_only && bool_decide (priced = None) then st
      else
        let next_key :=
          mkKey (sat_u 64 (key_cost key + (if priced_only then default 0 priced else 0)))
                (sat_u 32 (key_weight key + edge_weight)) in
        let is_better := match dists !! next with None => true | Some c => key_ltb next_key c end in
        if is_better then
          (heap_push (next_key, next) heap, <[next := next_key]> dists, <[next := mem]> predecessors)
        else st
  end.

(** Follow the predecessors from [curr] back to [source]; [None] when the fuel
    runs out, [Panics] for the [unwrap] of a missing predecessor. *)
Fixpoint rebuild (fuel : nat) (predecessors : gmap MemorySpace MemorySpace) (source curr : MemorySpace)
    (path : list MemorySpace) : option (outcome (list MemorySpace)) :=
  match fuel with
  | O => None
  | S fuel =>
      if decide (curr = source) then Some (Returns (rev (path ++ [source])))
      else match predecessors !! curr with
           | None => Some Panics
           | Some p => rebuild fuel predecessors source p (path ++ [curr])
           end
  end.

Fixpoint search_loop (fuel : nat) (g : TransferCostGraph) (source target : MemorySpace) (priced_only : bool)
    (heap : H) (dists : gmap MemorySpace Key) (predecessors : gmap MemorySpace MemorySpace)
    : option (outcome (option (Z * list MemorySpace))) :=
  match fuel with
  | O => None
  | S fuel =>
      match heap_pop heap with
      | None => Some (Returns None)
      | Some ((key, mem), heap) =>
          if decide (mem = target) then
            r ← rebuild (S (size predecessors)) predecessors source mem [];
            Some (path ←! r; Returns (Some (key_weight key, path)))
          else if match dists !! mem with Some d => key_ltb d key | None => false end then
            search_loop fuel g source target priced_only heap dists predecessors
          else
            match foldl (relax1 g priced_only mem key) (heap, dists, predecessors)
                    (default [] (transfer_edges g !! mem)) with
            | (heap, dists, predecessors) =>
                search_loop fuel g source target priced_only heap dists predecessors
            end
      end
  end.

Definition edge_count (edges : gmap MemorySpace (list (MemorySpace * Z))) : nat :=
  map_fold (fun _ ns n => (length ns + n)%nat) 0%nat edges.

Definition search (g : TransferCostGraph) (source target : MemorySpace) (priced_only : bool)
    : outcome (option (Z * list MemorySpace)) :=
  default Panics
    (search_loop (2 + edge_count (transfer_edges g)) g source target priced_only
       (heap_push (key_default, source) heap_new) {[source := key_default]} ∅).

Definition transfer_path (g : TransferCostGraph) (source target : MemorySpace)
    : outcome (option (Z * list MemorySpace)) :=
  if decide (source = target) then Returns (Some (0, [source]))
  else
    r ←! search g source target true;
    match r with
    | Some p => Returns (Some p)
    | None => search g source target false
    end.

(** ** Derived tables *)

(** The spaces of the sweep: the built-ins and every endpoint of an edge. *)
Definition sweep_spaces (g : TransferCostGraph) : gset MemorySpace :=
  list_to_set [CPUDRAM; NPUHBM; GpuHbm; LocalSRAM; NicRam; RemoteHbm]
  ∪ list_to_set (concat (map (fun e => e.1 :: map fst e.2) (map_to_list (transfer_edges g)))).

(** The inner loops of [precompute_costs]; no iteration reads the matrix. *)
Fixpoint sweep (g : TransferCostGraph) (pairs : list (MemorySpace * MemorySpace))
    (m : gmap (MemorySpace * MemorySpace) Z) : outcome (gmap (MemorySpace * MemorySpace) Z) :=
  match pairs with
  | [] => Returns m
  | e :: pairs =>
      r ←! transfer_path g e.1 e.2;
      sweep g pairs (match r with Some (cost, _) => <[e := cost]> m | None => m end)
  end.

Definition set_cost_matrix (g : TransferCostGraph) (m : gmap (MemorySpace * MemorySpace) Z) : TransferCostGraph :=
  mkGraph (transfer_edges g) m (edge_rates g) (route_cost g) (derived_edges g) (edge_declared g) (descriptors g).

(** The source sorts the spaces by their debug text first; the matrix does not
    depend on the order. *)
Definition precompute_costs (g : TransferCostGraph) : outcome TransferCostGraph :=
  let spaces := elements (sweep_spaces g) in
  m ←! sweep g (list_prod spaces spaces) (cost_matrix g);
  Returns (set_cost_matrix g m).

Definition seed_from_topologies (g : TransferCostGraph) (topologies : list TopologyDecl) : outcome TransferCostGraph :=
  precompute_costs (add_topology_edges g topologies).

Definition resolve_derived_route_costs (g : TransferCostGraph) (memories : list MemoryDecl) : outcome TransferCostGraph :=
  rc ←! resolve_edges (build memories) (route_cost g) (derived_edges g);
  precompute_costs
    (mkGraph (transfer_edges g) (cost_matrix g) (edge_rates g) rc (derived_edges g) (edge_declared g) (descriptors g)).

(** [TransferCostGraph::default]. *)
Definition default_graph : outcome TransferCostGraph :=
  let g := mkGraph ∅ ∅ ∅ ∅ [] ∅ builtin_descriptors in
  let g := add_transfer_edge g CPUDRAM NPUHBM 50 in
  let g := add_transfer_edge g NPUHBM CPUDRAM 50 in
  let g := add_transfer_edge g CPUDRAM GpuHbm 50 in
  let g := add_transfer_edge g GpuHbm CPUDRAM 50 in
  let g := add_transfer_edge g NPUHBM LocalSRAM 10 in
  let g := add_transfer_edge g LocalSRAM NPUHBM 10 in
  let g := add_transfer_edge g CPUDRAM RemoteHbm 300 in
  let g := add_transfer_edge g NPUHBM NicRam 5 in
  let g := add_transfer_edge g NicRam RemoteHbm 20 in
  precompute_costs g.

Definition descriptor_coherence (desc : TopologyDescriptor) (g : TransferCostGraph)
    : outcome (list CoherenceIssue) :=
  let issues := if decide (default_space desc ∈ visibility desc) then [] else [DefaultNotVisible] in
  reachable ←! (if decide (CPUDRAM ∈ visibility desc \/ default_space desc = CPUDRAM) then Returns true
                else r ←! transfer_path g CPUDRAM (default_space desc);
                     Returns (match r with Some _ => true | None => false end));
  Returns (if (reachable : bool) then issues else issues ++ [MemoryUnreachableFromHost]).

(** ** Queries *)

Definition graph_descriptor (g : TransferCostGraph) (kind : TopologyKind) : option TopologyDescriptor :=
  descriptors g !! kind.

Definition owning_topology (g : TransferCostGraph) (space : MemorySpace) : result Topology OwnerError :=
  owning_topology_in space (descriptors g).

Definition is_space_held (g : TransferCostGraph) (space : MemorySpace) : bool :=
  existsb (fun e : TopologyKind * TopologyDescriptor =>
    bool_decide (default_space e.2 = space) || bool_decide (space ∈ visibility e.2))
    (map_to_list (descriptors g)).

(** [Current] is the [unreachable!]. *)
Definition default_memory_for (g : TransferCostGraph) (topology : Topology) : outcome MemorySpace :=
  match topology with
  | Current => Panics
  | _ =>
      Returns match graph_descriptor g (Topology_kind topology) with
              | Some d => default_space d
              | None => match topology with
                        | CustomTopology name => MemorySpace_from_name name
                        | _ => CPUDRAM
                        end
              end
  end.

Definition placement_space (g : TransferCostGraph) (p : Placement) : outcome MemorySpace :=
  match pl_stated p with
  | StatedSpace => Returns (pl_space p)
  | StatedDevice => default_memory_for g (pl_topology p)
  end.

Definition placement_topology (g : TransferCostGraph) (p : Placement) : Topology :=
  match pl_stated p with
  | StatedDevice => pl_topology p
  | StatedSpace => match owning_topology_in (pl_space p) (descriptors g) with
                   | Ok t => t
                   | Err _ => pl_topology p
                   end
  end.

Fixpoint passed_by_value (ty : Ty) : bool :=
  match ty with
  | Scalar _ | Pointer _ _ _ | Simd _ _ | Function_ _ _ _ => true
  | Verified inner => passed_by_value inner
  | _ => false
  end.

(** [is_type_accessible] below the [Pinned] case. *)
Definition unpinned_accessible (g : TransferCostGraph) (active_topology var_topology : Topology) (ty : Ty)
    : outcome bool :=
  let var_topology :=
    match Ty_placement ty with Some p => placement_topology g p | None => var_topology end in
  target ←! match Ty_placement ty, ty with
            | Some p, _ => m ←! placement_space g p; Returns (Some m)
            | None, Ref _ mem => Returns (Some mem)
            | None, _ =>
                if Topology_eqb var_topology active_topology then Returns None
                else m ←! default_memory_for g var_topology; Returns (Some m)
            end;
  match target with
  | None => Returns true
  | Some target_mem =>
      let active_kind := Topology_kind active_topology in
      Returns
        match graph_descriptor g active_kind with
        | Some desc =>
            if decide (target_mem ∈ visibility desc) then true
            else if Topology_eqb var_topology CPU && bool_decide (CPUDRAM ∈ visibility desc) then true
            else if Topology_eqb var_topology CPU && bool_decide (active_kind = KGPU) && passed_by_value ty
            then true
            else false
        | None => false
        end
  end.

(** A pinned value is read as a reference into its device's memory. *)
Definition is_type_accessible (g : TransferCostGraph) (active_topology var_topology : Topology) (ty : Ty)
    : outcome bool :=
  match ty with
  | Pinned _ pinned_top =>
      if Topology_eqb pinned_top active_topology then Returns true
      else
        mem ←! default_memory_for g pinned_top;
        unpinned_accessible g active_topology pinned_top (Ref (Scalar F32) mem)
  | _ => unpinned_accessible g active_topology var_topology ty
  end.

Definition memory_of (g : TransferCostGraph) (var_topology : Topology) (ty : Ty) : outcome MemorySpace :=
  match Ty_placement ty with
  | Some p => placement_space g p
  | None =>
      match ty with
      | Pinned _ top => default_memory_for g top
      | Ref _ mem => Returns mem
      | _ => default_memory_for g var_topology
      end
  end.

Definition reachable (g : TransferCostGraph) (active_topology var_topology : Topology) (ty : Ty)
    : outcome Reachability :=
  ok ←! is_type_accessible g active_topology var_topology ty;
  if (ok : bool) then Returns Visible
  else
    var_mem ←! memory_of g var_topology ty;
    active_mem ←! default_memory_for g active_topology;
    r ←! transfer_path g var_mem active_mem;
    Returns (match r with Some (cost, _) => NeedsSeam cost | None => Unreachable end).
End search.

Definition is_relaxed_edge (g : TransferCostGraph) (from to : MemorySpace) : bool :=
  existsb (fun d : TopologyKind * TopologyDescriptor =>
    existsb (fun e => bool_decide (te_from e = from) && bool_decide (te_to e = to) && negb (te_sync e))
      (transfers d.2)) (map_to_list (descriptors g)).

Definition is_shared_edge (g : TransferCostGraph) (from to : MemorySpace) : bool :=
  existsb (fun d : TopologyKind * TopologyDescriptor =>
    existsb (fun e => bool_decide (te_from e = from) && bool_decide (te_to e = to)
                      && bool_decide (te_cost e = Shared))
      (transfers d.2)) (map_to_list (descriptors g)).

Definition transfer_cost (g : TransferCostGraph) (source target : MemorySpace) : option Z :=
  cost_matrix g !! (source, target).

Definition link_rate (g : TransferCostGraph) (source target : MemorySpace) : option Bandwidth :=
  edge_rates g !! (source, target).

Definition declared_edge_cost (g : TransferCostGraph) (from to : MemorySpace) : option Z :=
  edge_declared g !! (from, to).

Definition has_direct_edge (g : TransferCostGraph) (from to : MemorySpace) : bool :=
  match transfer_edges g !! from with
  | Some ns => existsb (fun n => bool_decide (n.1 = to)) ns
  | None => false
  end.

(** [Iterator::min]. *)
Definition list_min (l : list Z) : option Z :=
  foldl (fun acc w => Some (match acc with None => w | Some m => Z.min m w end)) None l.

Definition direct_edge_weight (g : TransferCostGraph) (from to : MemorySpace) : option Z :=
  ns ← transfer_edges g !! from;
  list_min (map snd (filter (fun n => n.1 = to) ns)).

Definition can_transfer (g : TransferCostGraph) (source target : MemorySpace) : bool :=
  match cost_matrix g !! (source, target) with Some _ => true | None => false end.

(** ** On-chip memories *)

Definition decl_space (m : MemoryDecl) : MemorySpace := MemorySpace_from_name (md_name m).

(** The closure [parent_of]: the first declaration of the space. *)
Definition parent_of (memories : list MemoryDecl) (space : MemorySpace) : option MemorySpace :=
  m ← List.find (fun m => bool_decide (decl_space m = space)) memories; md_parent m.

Definition owners_of (ds : gmap TopologyKind TopologyDescriptor) (p : MemorySpace) : list TopologyKind :=
  map fst (filter (fun e => default_space e.2 = p) (map_to_list ds)).

(** Let a built-in owner see [space]. *)
Definition add_visible (space : MemorySpace) (ds : gmap TopologyKind TopologyDescriptor) (kind : TopologyKind)
    : gmap TopologyKind TopologyDescriptor :=
  match kind with
  | KCustom _ => ds
  | _ =>
      match ds !! kind with
      | None => ds
      | Some desc =>
          if decide (space ∈ visibility desc) then ds
          else <[kind := mkTopologyDescriptor (default_space desc) (visibility desc ++ [space]) (arch desc)
                           (transfers desc) (dtypes desc) (chip desc) (levels desc) (offload desc)]> ds
      end
  end.

(** The walk out to the nearest memory that is some topology's own; [None] when
    the fuel runs out. *)
Fixpoint on_chip_walk (fuel : nat) (memories : list MemoryDecl) (space : MemorySpace)
    (seen : list MemorySpace) (up : option MemorySpace) (ds : gmap TopologyKind TopologyDescriptor)
    : option (gmap TopologyKind TopologyDescriptor) :=
  match fuel with
  | O => None
  | S fuel =>
      match up with
      | None => Some ds
      | Some p =>
          if decide (p ∈ seen) then Some ds
          else match owners_of ds p with
               | [] => on_chip_walk fuel memories space (seen ++ [p]) (parent_of memories p) ds
               | owners => Some (foldl (add_visible space) ds owners)
               end
      end
  end.

Definition is_on_chip (m : MemoryDecl) : bool :=
  match md_scope m with Some Sm | Some Cta | Some Thread => true | _ => false end.

Definition add_on_chip_memories (g : TransferCostGraph) (memories : list MemoryDecl) : TransferCostGraph :=
  set_descriptors g
    (foldl (fun ds mem =>
       if is_on_chip mem then
         default ds (on_chip_walk (2 + length memories) memories (decl_space mem) [decl_space mem]
                       (md_parent mem) ds)
       else ds) (descriptors g) memories).
