(* ===== verification/Dijkstra.v ===== *)
(** * Correctness of the route search

    The invariant of [search_loop] and what follows from it, for every
    [MinHeap]: the loops never run out of fuel, the [unwrap] of a predecessor
    never fails, the returned path is a route of the graph with the returned
    weight, no route is cheaper, and [None] means there is no route.

    A route carries its key, accumulated with the source's saturating
    additions.  Costs that saturate are not ordered by what they saturated from,
    so the optimality statement is about routes whose cost stays below
    [u64::MAX]; on the unpriced pass that is every route. *)

From stdpp Require Import base list strings gmap sets fin_maps fin_sets.
From Stdlib Require Import ZArith Lia.
From S2P Require Import Prelude Syntax Memory Arch Routing.
Open Scope Z_scope.

(** ** Keys *)

Lemma key_ltb_false a b : key_ltb a b = false <-> key_le b a.
Proof.
  unfold key_ltb, key_le.
  destruct (Z.ltb_spec (key_cost a) (key_cost b)), (Z.eqb_spec (key_cost a) (key_cost b)),
    (Z.ltb_spec (key_weight a) (key_weight b)); simpl; split; try done; lia.
Qed.

Lemma key_ltb_true a b : key_ltb a b = true <-> key_le a b /\ a <> b.
Proof.
  destruct a as [ca wa], b as [cb wb]. unfold key_ltb, key_le. simpl.
  destruct (Z.ltb_spec ca cb), (Z.eqb_spec ca cb), (Z.ltb_spec wa wb); simpl;
    split; try done; try (intros _; split; [lia|intros [= -> ->]; lia]);
    intros [? Hne]; try lia; destruct Hne; f_equal; lia.
Qed.

Lemma key_le_refl a : key_le a a.
Proof. unfold key_le. lia. Qed.

Lemma key_le_trans a b c : key_le a b -> key_le b c -> key_le a c.
Proof. unfold key_le. lia. Qed.

Lemma key_le_antisym a b : key_le a b -> key_le b a -> a = b.
Proof. destruct a, b. unfold key_le. simpl. intros. f_equal; lia. Qed.

Lemma key_le_total a b : key_le a b \/ key_le b a.
Proof. unfold key_le. lia. Qed.

Create HintDb vx_key.
#[export] Hint Resolve key_le_refl key_le_trans : vx_key.

Definition key_typed (k : Key) : Prop := 0 <= key_cost k <= umax 64 /\ 0 <= key_weight k <= umax 32.

(** The numbers of the graph are unsigned. *)
Definition graph_typed (g : TransferCostGraph) : Prop :=
  (forall u ns v w, transfer_edges g !! u = Some ns -> (v, w) ∈ ns -> 0 <= w) /\
  (forall u v c, route_cost g !! (u, v) = Some c -> 0 <= c).

(** ** Routes *)

Definition neighbours (g : TransferCostGraph) (u : MemorySpace) : list (MemorySpace * Z) :=
  default [] (transfer_edges g !! u).

(** The key at the end of an edge; [None] when the pass does not admit it. *)
Definition extend (g : TransferCostGraph) (priced_only : bool) (u : MemorySpace) (nb : MemorySpace * Z)
    (k : Key) : option Key :=
  if priced_only then
    c ← route_cost g !! (u, nb.1);
    Some (mkKey (sat_u 64 (key_cost k + c)) (sat_u 32 (key_weight k + nb.2)))
  else Some (mkKey (sat_u 64 (key_cost k + 0)) (sat_u 32 (key_weight k + nb.2))).

Inductive route (g : TransferCostGraph) (priced_only : bool) (source : MemorySpace)
    : list MemorySpace -> MemorySpace -> Key -> Prop :=
| route_nil : route g priced_only source [source] source key_default
| route_snoc p u k nb k' :
    route g priced_only source p u k -> nb ∈ neighbours g u ->
    extend g priced_only u nb k = Some k' ->
    route g priced_only source (p ++ [nb.1]) nb.1 k'.

Lemma neighbours_typed g u nb : graph_typed g -> nb ∈ neighbours g u -> 0 <= nb.2.
Proof.
  intros [Hw _]. unfold neighbours. destruct (transfer_edges g !! u) eqn:E; simpl; [|set_solver].
  destruct nb. eauto.
Qed.

Lemma extend_typed g po u nb k k' :
  graph_typed g -> nb ∈ neighbours g u -> key_typed k -> extend g po u nb k = Some k' ->
  key_typed k' /\ key_le k k'.
Proof.
  intros Hg Hnb [Hc Hw]. pose proof (neighbours_typed g u nb Hg Hnb).
  assert (0 <= umax 64) by done. assert (0 <= umax 32) by done.
  unfold extend, key_typed, key_le, sat_u. destruct po.
  - destruct (route_cost g !! (u, nb.1)) as [c|] eqn:E; simpl; [|done].
    apply (proj2 Hg) in E. intros [= <-]. simpl. lia.
  - intros [= <-]. simpl. lia.
Qed.

Lemma extend_mono g po u nb a b b' :
  key_le a b -> extend g po u nb b = Some b' -> key_cost b' < umax 64 ->
  exists a', extend g po u nb a = Some a' /\ key_le a' b'.
Proof.
  intros Hab. unfold extend, sat_u, key_le in *. destruct po.
  - destruct (route_cost g !! (u, nb.1)) as [c|] eqn:E; simpl; [|done].
    intros [= <-]. simpl. intros Hlt. eexists. split; [done|]. simpl. lia.
  - intros [= <-]. simpl. intros Hlt. eexists. split; [done|]. simpl. lia.
Qed.

Lemma extend_admissible g po u nb a b b' :
  extend g po u nb b = Some b' -> is_Some (extend g po u nb a).
Proof. unfold extend. destruct po; [|done]. destruct (route_cost g !! _); simpl; done. Qed.

Lemma route_typed g po s p v k : graph_typed g -> route g po s p v k -> key_typed k.
Proof.
  intros Hg. induction 1 as [|p u k nb k' Hr IH Hnb He]; [done|].
  by apply (extend_typed g po u nb k k').
Qed.

Lemma relax1_extend {H} `{MinHeap H} g po mem key heap dists preds nb :
  relax1 g po mem key (heap, dists, preds) nb =
  match extend g po mem nb key with
  | None => (heap, dists, preds)
  | Some nk =>
      if match dists !! nb.1 with None => true | Some c => key_ltb nk c end
      then (heap_push (nk, nb.1) heap, <[nb.1 := nk]> dists, <[nb.1 := mem]> preds)
      else (heap, dists, preds)
  end.
Proof.
  destruct nb as [v w]. unfold relax1, extend. destruct po; simpl; [|done].
  destruct (route_cost g !! (mem, v)) as [c|]; simpl; done.
Qed.

(** ** The list heap *)

#[export] Instance list_heap : MinHeap (list (Key * MemorySpace)).
Proof.
  refine {| heap_new := []; heap_push := cons; heap_pop := ListHeap.pop; heap_elements := id |};
    try done.
  - intros [|s h]; [done|]. simpl. destruct (ListHeap.pop h) as [[t rest]|]; [|done]. by case_match.
  - unfold id. induction h as [|s0 h IH]; intros s h'; simpl; [done|].
    destruct (ListHeap.pop h) as [[t rest]|] eqn:E.
    + destruct (IH t rest eq_refl) as [Hp Hle]. destruct (key_ltb t.1 s0.1) eqn:Hlt.
      * apply key_ltb_true in Hlt as [Hlt _]. intros [= <- <-]. split; [rewrite Hp; constructor|].
        intros x [->|Hx]%elem_of_cons; auto.
      * apply key_ltb_false in Hlt. intros [= <- <-]. split; [done|].
        intros x [->|Hx]%elem_of_cons; eauto with vx_key.
    + intros [= <- <-]. assert (h = []) as ->.
      { destruct h as [|a h]; [done|]. simpl in E. destruct (ListHeap.pop h) as [[]|]; [|done]. by destruct (key_ltb _ _). }
      split; [done|]. intros x ->%list_elem_of_singleton. apply key_le_refl.
Defined.

(** ** The invariant *)

Section correctness.
Context {H : Type} `{MinHeap H}.
Context (g : TransferCostGraph) (po : bool) (source target : MemorySpace).
Context (Hg : graph_typed g).

Abbreviation routes := (route g po source).

(** The path that the predecessors spell, through settled spaces only. *)
Inductive trace (preds : gmap MemorySpace MemorySpace) (S : gset MemorySpace)
    : list MemorySpace -> MemorySpace -> Prop :=
| trace_source : trace preds S [source] source
| trace_snoc p u v :
    trace preds S p u -> u ∈ S -> v <> source -> v ∉ p -> preds !! v = Some u ->
    trace preds S (p ++ [v]) v.

(** [S] is the set of settled spaces, [R] the relaxed edges and [b] a bound
    between the settled distances and the keys still in the heap. *)
Record Inv (heap : H) (dists : gmap MemorySpace Key) (preds : gmap MemorySpace MemorySpace)
    (S : gset MemorySpace) (R : MemorySpace -> MemorySpace * Z -> Prop) (b : Key) : Prop := {
  inv_source : dists !! source = Some key_default;
  inv_heap : forall k v, (k, v) ∈ heap_elements heap -> exists d, dists !! v = Some d /\ key_le d k;
  inv_open : forall v d, dists !! v = Some d -> v ∉ S -> (d, v) ∈ heap_elements heap;
  inv_low : forall u, u ∈ S -> exists d, dists !! u = Some d /\ key_le d b;
  inv_high : forall k v, (k, v) ∈ heap_elements heap -> key_le b k;
  inv_closed : forall u d, u ∈ S -> dists !! u = Some d -> (d, u) ∉ heap_elements heap;
  inv_settled : forall u nb, R u nb -> u ∈ S /\ nb ∈ neighbours g u;
  inv_relaxed : forall u nb d k, R u nb -> dists !! u = Some d -> extend g po u nb d = Some k ->
    exists d', dists !! nb.1 = Some d' /\ key_le d' k;
  inv_trace : forall v d, dists !! v = Some d -> exists p, trace preds S p v /\ routes p v d;
  inv_target : target ∉ S;
  inv_nodup : NoDup (heap_elements heap);
}.

Lemma trace_settled preds S p v x : trace preds S p v -> x ∈ p -> x ∈ S \/ x = v.
Proof.
  induction 1 as [|p u v Ht IH Hu Hv Hvp Hp]; [set_solver|].
  intros [Hx|Hx%list_elem_of_singleton]%elem_of_app; [|by right].
  left. destruct (IH Hx); [done|by subst].
Qed.

Lemma trace_mono preds S S' p v : S ⊆ S' -> trace preds S p v -> trace preds S' p v.
Proof. intros HS. induction 1; econstructor; eauto. Qed.

Lemma trace_insert preds S p v x u :
  trace preds S p v -> x ∉ p -> trace (<[x := u]> preds) S p v.
Proof.
  induction 1 as [|p w v Ht IH Hu Hv Hvp Hp]; [constructor|]. intros Hx.
  econstructor; eauto; [apply IH; set_solver|]. rewrite lookup_insert_ne; [done|set_solver].
Qed.

Lemma dist_typed heap dists preds S R b v d :
  Inv heap dists preds S R b -> dists !! v = Some d -> key_typed d.
Proof.
  intros HI Hd. destruct (inv_trace _ _ _ _ _ _ HI v d Hd) as (p & _ & Hr). by eapply route_typed.
Qed.

(** A better key for an open space [v], reached from the settled space [u]. *)
Lemma improve_inv heap dists preds S R b u nb nk :
  Inv heap dists preds S R b -> u ∈ S -> dists !! u = Some b -> nb ∈ neighbours g u ->
  extend g po u nb b = Some nk -> nb.1 ∉ S -> nb.1 <> source ->
  (forall d, dists !! nb.1 = Some d -> key_le nk d /\ nk <> d) -> key_le b nk ->
  Inv (heap_push (nk, nb.1) heap) (<[nb.1 := nk]> dists) (<[nb.1 := u]> preds) S
    (fun x e => R x e \/ (x = u /\ e = nb)) b.
Proof.
  intros HI Hu Hub Hnb Ee HvS Hvs Hold Hbn. set (v := nb.1) in *.
  pose proof (heap_push_elements (nk, v) heap) as Hperm.
  assert (forall x, x ∈ heap_elements (heap_push (nk, v) heap) <-> x = (nk, v) \/ x ∈ heap_elements heap) as Hin.
  { intros x. rewrite Hperm. apply elem_of_cons. }
  assert (forall x, x ∈ S -> <[v := nk]> dists !! x = dists !! x) as HS.
  { intros x Hx. apply lookup_insert_ne. by intros ->. }
  destruct HI as [Isrc Iheap Iopen Ilow Ihigh Iclosed Iset Irel Itr Itgt Ind]. constructor.
  - by rewrite lookup_insert_ne.
  - intros k x [[= -> ->]|Hx]%Hin; [exists nk; rewrite lookup_insert_eq; eauto with vx_key|].
    destruct (Iheap k x Hx) as (d & Hd & Hdk). destruct (decide (x = v)) as [->|].
    + exists nk. rewrite lookup_insert_eq. split; [done|]. destruct (Hold d Hd). eauto with vx_key.
    + exists d. by rewrite lookup_insert_ne.
  - intros x d. rewrite Hin, lookup_insert_Some. intros [[<- <-]|[Hne Hd]] Hx; [by left|right; auto].
  - intros x Hx. rewrite HS by done. auto.
  - intros k x [[= -> ->]|Hx]%Hin; eauto.
  - intros x d Hx. rewrite HS by done. intros Hd [[= -> ->]|Hx']%Hin; [done|by eapply Iclosed].
  - intros x e [?|[-> ->]]; auto.
  - intros x e d k HR. assert (x ∈ S) as HxS by (destruct HR as [HR|[-> ->]]; [by apply Iset in HR as []|done]).
    rewrite HS by done. intros Hd Hk. destruct (decide (e.1 = v)) as [Hev|Hev].
    + rewrite Hev, lookup_insert_eq. exists nk. split; [done|].
      destruct HR as [HR|[-> ->]]; [|replace k with nk by congruence; apply key_le_refl].
      destruct (Irel x e d k HR Hd Hk) as (d' & Hd' & Hle). rewrite Hev in Hd'.
      destruct (Hold d' Hd'). eauto with vx_key.
    + rewrite lookup_insert_ne by done. destruct HR as [HR|[-> ->]]; [eauto|by destruct Hev].
  - intros x d. rewrite lookup_insert_Some. intros [[<- <-]|[Hne Hd]].
    + destruct (Itr u b Hub) as (p & Ht & Hr).
      assert (v ∉ p) as Hvp by (intros Hv; destruct (trace_settled _ _ _ _ _ Ht Hv); congruence).
      exists (p ++ [v]). split; [|by eapply route_snoc].
      eapply trace_snoc; eauto; [by apply trace_insert|by rewrite lookup_insert_eq].
    + destruct (Itr x d Hd) as (p & Ht & Hr). exists p. split; [|done]. apply trace_insert; [done|].
      intros Hv. destruct (trace_settled _ _ _ _ _ Ht Hv); congruence.
  - done.
  - rewrite Hperm. constructor; [|done]. intros Hx. destruct (Iheap nk v Hx) as (d & Hd & Hle).
    destruct (Hold d Hd) as [Hle' Hne]. apply Hne. by apply key_le_antisym.
Qed.

(** An edge that improves nothing. *)
Lemma keep_inv heap dists preds S R b u nb :
  Inv heap dists preds S R b -> u ∈ S -> dists !! u = Some b -> nb ∈ neighbours g u ->
  (forall nk, extend g po u nb b = Some nk -> exists c, dists !! nb.1 = Some c /\ key_le c nk) ->
  Inv heap dists preds S (fun x e => R x e \/ (x = u /\ e = nb)) b.
Proof.
  intros [] Hu Hub Hnb Hk. constructor; auto.
  - intros x e [?|[-> ->]]; auto.
  - intros x e d k [?|[-> ->]] Hd He; eauto. assert (d = b) as -> by congruence. auto.
Qed.

(** Relaxing one edge of the space just settled. *)
Lemma relax1_inv heap dists preds S R b u nb heap' dists' preds' :
  Inv heap dists preds S R b -> u ∈ S -> dists !! u = Some b -> nb ∈ neighbours g u ->
  relax1 g po u b (heap, dists, preds) nb = (heap', dists', preds') ->
  Inv heap' dists' preds' S (fun x e => R x e \/ (x = u /\ e = nb)) b /\
  dists' !! u = Some b /\
  (length (heap_elements heap') <= 1 + length (heap_elements heap))%nat.
Proof.
  intros HI Hu Hub Hnb. rewrite relax1_extend.
  destruct (extend g po u nb b) as [nk|] eqn:Ee.
  2: { intros [= <- <- <-]. split_and!; [by apply keep_inv; [..|congruence]|done|lia]. }
  pose proof (dist_typed _ _ _ _ _ _ u b HI Hub) as Hbt.
  destruct (extend_typed g po u nb b nk Hg Hnb Hbt Ee) as [Hnt Hbn].
  destruct (match dists !! nb.1 with None => true | Some c => key_ltb nk c end) eqn:Hbet.
  2: { destruct (dists !! nb.1) as [c|] eqn:Hc; [|done]. apply key_ltb_false in Hbet.
       intros [= <- <- <-]. split_and!; [|done|lia]. apply keep_inv; auto.
       intros nk' Hnk'. exists c. split; [done|]. by replace nk' with nk by congruence. }
  assert (forall d, dists !! nb.1 = Some d -> key_le nk d /\ nk <> d) as Hold.
  { intros d Hd. rewrite Hd in Hbet. by apply key_ltb_true. }
  assert (nb.1 ∉ S) as HvS.
  { intros Hv. destruct (inv_low _ _ _ _ _ _ HI _ Hv) as (d & Hd & Hdb).
    destruct (Hold d Hd) as [Hle Hne]. apply Hne. apply key_le_antisym; eauto with vx_key. }
  intros [= <- <- <-]. split_and!.
  - apply improve_inv; auto. intros Hs. rewrite Hs in Hold.
    destruct (Hold _ (inv_source _ _ _ _ _ _ HI)) as [Hle Hne].
    apply Hne. destruct nk. unfold key_typed, key_le in *. simpl in *. f_equal; lia.
  - rewrite lookup_insert_ne; [done|]. by intros <-.
  - rewrite heap_push_elements. simpl. lia.
Qed.

Lemma inv_weaken heap dists preds S (R R' : MemorySpace -> MemorySpace * Z -> Prop) b :
  Inv heap dists preds S R b -> (forall u nb, R' u nb -> R u nb) -> Inv heap dists preds S R' b.
Proof. intros [] HR. constructor; eauto. Qed.

Lemma relax_inv nbs heap dists preds S R b u heap' dists' preds' :
  Inv heap dists preds S R b -> u ∈ S -> dists !! u = Some b ->
  (forall nb, nb ∈ nbs -> nb ∈ neighbours g u) ->
  foldl (relax1 g po u b) (heap, dists, preds) nbs = (heap', dists', preds') ->
  Inv heap' dists' preds' S (fun x e => R x e \/ (x = u /\ e ∈ nbs)) b /\
  (length (heap_elements heap') <= length nbs + length (heap_elements heap))%nat.
Proof.
  revert heap dists preds R. induction nbs as [|nb nbs IH]; intros heap dists preds R HI Hu Hub Hnbs; cbn [foldl length].
  - intros [= <- <- <-]. split; [|lia]. eapply inv_weaken; [exact HI|]. set_solver.
  - destruct (relax1 g po u b (heap, dists, preds) nb) as [[h1 d1] p1] eqn:E.
    destruct (relax1_inv heap dists preds S R b u nb h1 d1 p1 HI Hu Hub (Hnbs nb (list_elem_of_here _ _)) E) as (HI1 & Hub1 & Hlen).
    intros Hf. destruct (IH _ _ _ _ HI1 Hu Hub1 (fun e He => Hnbs e (list_elem_of_further _ _ _ He)) Hf) as [HI2 Hlen2].
    split; [|lia]. eapply inv_weaken; [exact HI2|]. simpl. set_solver.
Qed.

(** Popping a stale entry. *)
Lemma stale_inv heap heap' dists preds S R b key mem d :
  Inv heap dists preds S R b -> heap_pop heap = Some ((key, mem), heap') ->
  dists !! mem = Some d -> key_ltb d key = true -> Inv heap' dists preds S R b.
Proof.
  intros HI Hpop Hd Hlt. destruct (heap_pop_Some _ _ _ Hpop) as [Hperm _].
  apply key_ltb_true in Hlt as [_ Hne].
  assert (forall x, x ∈ heap_elements heap <-> x = (key, mem) \/ x ∈ heap_elements heap') as Hin.
  { intros x. rewrite Hperm. apply elem_of_cons. }
  destruct HI as [Isrc Iheap Iopen Ilow Ihigh Iclosed Iset Irel Itr Itgt Ind].
  constructor; auto.
  - intros k v Hv. apply Iheap, Hin. by right.
  - intros v d' Hv HvS. destruct (proj1 (Hin (d', v)) (Iopen v d' Hv HvS)) as [[= -> ->]|]; [congruence|done].
  - intros k v Hv. eapply Ihigh, Hin. by right.
  - intros u du Hu Hdu Hx. eapply Iclosed; eauto. apply Hin. by right.
  - rewrite Hperm in Ind. by apply NoDup_cons in Ind as [].
Qed.

(** Settling the space of a least entry. *)
Lemma settle_inv heap heap' dists preds S R b key mem :
  Inv heap dists preds S R b -> heap_pop heap = Some ((key, mem), heap') ->
  (forall d, dists !! mem = Some d -> key_ltb d key = false) -> mem <> target ->
  Inv heap' dists preds ({[mem]} ∪ S) R key /\ (mem ∉ S) /\ dists !! mem = Some key.
Proof.
  intros HI Hpop Hfresh Hmt. destruct (heap_pop_Some _ _ _ Hpop) as [Hperm Hmin].
  assert (forall x, x ∈ heap_elements heap <-> x = (key, mem) \/ x ∈ heap_elements heap') as Hin.
  { intros x. rewrite Hperm. apply elem_of_cons. }
  destruct HI as [Isrc Iheap Iopen Ilow Ihigh Iclosed Iset Irel Itr Itgt Ind].
  assert (dists !! mem = Some key) as Hd.
  { destruct (Iheap key mem) as (d & Hd & Hle); [by apply Hin; left|]. rewrite Hd. f_equal.
    apply key_le_antisym; [done|]. by apply key_ltb_false, Hfresh. }
  assert (mem ∉ S) as HmS by (intros Hm; apply (Iclosed mem key Hm Hd), Hin; by left).
  split_and!; [|done|done]. rewrite Hperm in Ind. apply NoDup_cons in Ind as [Hnin Ind].
  constructor; auto.
  - intros k v Hv. apply Iheap, Hin. by right.
  - intros v d Hv HvS. destruct (proj1 (Hin (d, v)) (Iopen v d Hv ltac:(set_solver))) as [[= -> ->]|]; [set_solver|done].
  - intros u [->%elem_of_singleton|Hu]%elem_of_union; [eauto with vx_key|].
    destruct (Ilow u Hu) as (d & Hdu & Hle). exists d. split; [done|].
    eapply key_le_trans; [done|]. eapply Ihigh, Hin. by left.
  - intros k v Hv. apply (Hmin (k, v)), Hin. by right.
  - intros u d [->%elem_of_singleton|Hu]%elem_of_union Hdu Hx; [congruence|].
    eapply Iclosed; eauto. apply Hin. by right.
  - intros u nb HR. apply Iset in HR as []. set_solver.
  - intros v d Hv. destruct (Itr v d Hv) as (p & Ht & Hr). exists p.
    split; [|done]. eapply trace_mono; [|done]. set_solver.
  - set_solver.
Qed.

(** ** Rebuilding the path *)

Lemma trace_nodup preds S p v : trace preds S p v -> NoDup p.
Proof.
  induction 1; [apply NoDup_singleton|]. apply NoDup_app. split_and!; [done|set_solver|apply NoDup_singleton].
Qed.

Lemma trace_length preds S p v : trace preds S p v -> (length p <= 1 + size preds)%nat.
Proof.
  intros Ht. pose proof (trace_nodup _ _ _ _ Ht) as Hnd.
  assert (forall x, x ∈ p -> x = source \/ x ∈ dom preds) as Hp.
  { clear Hnd. induction Ht as [|p u v Ht IH Hu Hv Hvp Hpr]; [set_solver|].
    intros x [Hx| ->%list_elem_of_singleton]%elem_of_app; [auto|]. right. apply elem_of_dom. eauto. }
  transitivity (size ({[source]} ∪ dom preds)).
  - rewrite <- (size_list_to_set (C:=gset MemorySpace) p Hnd). apply subseteq_size.
    intros x. rewrite elem_of_list_to_set. intros Hx. destruct (Hp x Hx); set_solver.
  - rewrite size_union_alt, size_singleton, <- size_dom.
    assert (size (dom preds ∖ {[source]}) <= size (dom preds))%nat by (apply subseteq_size; set_solver). lia.
Qed.

Lemma rebuild_trace preds S p v fuel acc :
  trace preds S p v -> (length p <= fuel)%nat ->
  rebuild fuel preds source v acc = Some (Returns (p ++ rev acc)).
Proof.
  intros Ht. revert fuel acc. induction Ht as [|p u v Ht IH Hu Hv Hvp Hpr]; intros fuel acc Hf.
  - destruct fuel; [simpl in Hf; lia|]. simpl. rewrite decide_True by done. by rewrite rev_app_distr.
  - rewrite length_app in Hf. simpl in Hf. destruct fuel; [lia|]. simpl.
    rewrite decide_False, Hpr by done. rewrite IH by lia. rewrite rev_app_distr, <- app_assoc. done.
Qed.

(** ** Termination *)

(** The edges of the spaces not yet settled: what can still be pushed. *)
Definition unsettled_edges (S : gset MemorySpace) : nat :=
  edge_count (filter (fun e => e.1 ∉ S) (transfer_edges g)).

Lemma edge_count_delete (m : gmap MemorySpace (list (MemorySpace * Z))) u ns :
  m !! u = Some ns -> edge_count m = (length ns + edge_count (delete u m))%nat.
Proof.
  intros Hu. unfold edge_count. rewrite (map_fold_delete_L _ _ u ns m); [done| |done]. intros. lia.
Qed.

Lemma filter_settle (S : gset MemorySpace) u :
  filter (fun e : MemorySpace * list (MemorySpace * Z) => e.1 ∉ {[u]} ∪ S) (transfer_edges g)
  = delete u (filter (fun e => e.1 ∉ S) (transfer_edges g)).
Proof.
  apply map_eq. intros v. apply option_eq. intros ns.
  rewrite lookup_delete_Some, !map_lookup_filter_Some. simpl. set_solver.
Qed.

Lemma unsettled_settle S u :
  u ∉ S -> unsettled_edges S = (length (neighbours g u) + unsettled_edges ({[u]} ∪ S))%nat.
Proof.
  intros Hu. unfold unsettled_edges, neighbours. rewrite filter_settle.
  destruct (transfer_edges g !! u) as [ns|] eqn:E; simpl.
  - apply edge_count_delete, map_lookup_filter_Some. done.
  - by rewrite delete_id by (apply map_lookup_filter_None; auto).
Qed.

(** ** The main loop *)

Definition settled_edges (S : gset MemorySpace) (u : MemorySpace) (nb : MemorySpace * Z) : Prop :=
  u ∈ S /\ nb ∈ neighbours g u.

(** A route dearer than no popped key ends in a settled space. *)
Lemma cheaper_is_settled heap dists preds S b key p v k :
  Inv heap dists preds S (settled_edges S) b ->
  (forall t, t ∈ heap_elements heap -> key_le key t.1) ->
  routes p v k -> key_cost k < umax 64 -> ~ key_le key k ->
  v ∈ S /\ exists d, dists !! v = Some d /\ key_le d k.
Proof.
  intros HI Hmin Hr.
  assert (forall v d k, dists !! v = Some d -> key_le d k -> ~ key_le key k -> v ∈ S) as Hset.
  { intros x d k' Hd Hle Hn. destruct (decide (x ∈ S)); [done|]. destruct Hn.
    eapply key_le_trans; [apply (Hmin (d, x))|done]. by apply (inv_open _ _ _ _ _ _ HI). }
  induction Hr as [|p u k nb k' Hr IH Hnb He]; intros Hc Hn.
  - pose proof (inv_source _ _ _ _ _ _ HI). split; eauto with vx_key.
  - destruct (extend_typed g po u nb k k' Hg Hnb (route_typed _ _ _ _ _ _ Hg Hr) He) as [_ Hkk].
    destruct IH as (Hu & d & Hd & Hdk); [unfold key_le in Hkk; lia|eauto with vx_key|].
    destruct (extend_mono g po u nb d k k' Hdk He Hc) as (a & Ha & Hak).
    destruct (inv_relaxed _ _ _ _ _ _ HI u nb d a (conj Hu Hnb) Hd Ha) as (d' & Hd' & Hle).
    split; eauto with vx_key.
Qed.

(** With nothing left in the heap, every space a route reaches is settled. *)
Lemma exhausted_is_settled heap dists preds S b p v k :
  Inv heap dists preds S (settled_edges S) b -> heap_elements heap = [] -> routes p v k -> v ∈ S.
Proof.
  intros HI Hnil Hr.
  assert (forall v d, dists !! v = Some d -> v ∈ S) as Hset.
  { intros x d Hd. destruct (decide (x ∈ S)); [done|].
    pose proof (inv_open _ _ _ _ _ _ HI x d Hd ltac:(done)) as Hx. rewrite Hnil in Hx. set_solver. }
  induction Hr as [|p u k nb k' Hr IH Hnb He].
  - eapply Hset, HI.
  - destruct (inv_low _ _ _ _ _ _ HI u IH) as (d & Hd & _).
    destruct (extend_admissible g po u nb d k k' He) as [a Ha].
    destruct (inv_relaxed _ _ _ _ _ _ HI u nb d a (conj IH Hnb) Hd Ha) as (d' & Hd' & _). eauto.
Qed.

Definition best_route (weight : Z) (path : list MemorySpace) : Prop :=
  exists k, key_weight k = weight /\ routes path target k /\
    forall p' k', routes p' target k' -> key_cost k' < umax 64 -> key_le k k'.

Lemma found_target heap heap' dists preds S b key :
  Inv heap dists preds S (settled_edges S) b -> heap_pop heap = Some ((key, target), heap') ->
  exists path, rebuild (1 + size preds) preds source target [] = Some (Returns path) /\
    best_route (key_weight key) path.
Proof.
  intros HI Hpop. destruct (heap_pop_Some _ _ _ Hpop) as [Hperm Hmin].
  destruct (inv_heap _ _ _ _ _ _ HI key target) as (d & Hd & Hle); [rewrite Hperm; set_solver|].
  pose proof (inv_target _ _ _ _ _ _ HI) as Ht.
  assert (d = key) as ->.
  { apply key_le_antisym; [done|]. apply (Hmin (d, target)). by apply (inv_open _ _ _ _ _ _ HI). }
  destruct (inv_trace _ _ _ _ _ _ HI target key Hd) as (p & Htr & Hr).
  exists p. split; [|exists key; split_and!; [done|done|]].
  - rewrite (rebuild_trace preds S p target _ [] Htr); [by rewrite app_nil_r|]. by apply trace_length in Htr.
  - intros p' k' Hr' Hc. destruct (key_le_total key k') as [|Hk]; [done|].
    destruct (decide (key = k')) as [->|Hne]; [apply key_le_refl|].
    destruct Ht. eapply cheaper_is_settled; eauto. intros Hkk. apply Hne. by apply key_le_antisym.
Qed.

Lemma search_loop_correct fuel heap dists preds S b :
  Inv heap dists preds S (settled_edges S) b ->
  (length (heap_elements heap) + unsettled_edges S < fuel)%nat ->
  (exists w path, search_loop fuel g source target po heap dists preds = Some (Returns (Some (w, path))) /\
     best_route w path) \/
  (search_loop fuel g source target po heap dists preds = Some (Returns None) /\
   forall p k, ~ routes p target k).
Proof.
  revert heap dists preds S b. induction fuel as [|fuel IH]; intros heap dists preds S b HI Hf; [lia|].
  cbn [search_loop]. destruct (heap_pop heap) as [[[key mem] heap']|] eqn:Hpop.
  2: { right. split; [done|]. intros p k Hr. apply heap_pop_None in Hpop.
       eapply (inv_target _ _ _ _ _ _ HI), exhausted_is_settled; eauto. }
  case_decide as Hmt.
  { subst mem. left. destruct (found_target _ _ _ _ _ _ _ HI Hpop) as (path & Hp & Hb).
    exists (key_weight key), path. change (Datatypes.S (size preds)) with (1 + size preds)%nat. by rewrite Hp. }
  destruct (heap_pop_Some _ _ _ Hpop) as [Hperm _]. rewrite Hperm in Hf. cbn [length] in Hf.
  destruct (match dists !! mem with Some d => key_ltb d key | None => false end) eqn:Hst.
  { destruct (dists !! mem) as [d|] eqn:Hd; [|done]. apply (IH heap' dists preds S b); [|lia].
    by eapply stale_inv. }
  destruct (settle_inv heap heap' dists preds S _ b key mem HI Hpop) as (HI' & HmS & Hd); [|done|].
  { intros d Hd. by rewrite Hd in Hst. }
  destruct (foldl _ _ _) as [[h2 d2] p2] eqn:Hfold.
  destruct (relax_inv _ _ _ _ _ _ _ mem h2 d2 p2 HI' ltac:(set_solver) Hd (fun nb Hnb => Hnb) Hfold) as [HI2 Hlen].
  pose proof (unsettled_settle S mem HmS) as Hu.
  apply (IH h2 d2 p2 ({[mem]} ∪ S) key); [|lia]. eapply inv_weaken; [exact HI2|].
  unfold settled_edges. intros u nb [[->%elem_of_singleton|Hu']%elem_of_union Hnb]; auto.
Qed.

Lemma init_inv :
  Inv (heap_push (key_default, source) heap_new) {[source := key_default]} ∅ ∅ (settled_edges ∅) key_default.
Proof.
  pose proof (heap_push_elements (key_default, source) heap_new) as Hp. rewrite heap_new_elements in Hp.
  assert (forall x, x ∈ heap_elements (heap_push (key_default, source) heap_new) <-> x = (key_default, source)) as Hin.
  { intros x. rewrite Hp. apply list_elem_of_singleton. }
  unfold settled_edges. constructor.
  - by rewrite lookup_singleton_eq.
  - intros k v [= -> ->]%Hin. exists key_default. rewrite lookup_singleton_eq. eauto with vx_key.
  - intros v d [<- <-]%lookup_singleton_Some _. by apply Hin.
  - set_solver.
  - intros k v [= -> ->]%Hin. apply key_le_refl.
  - set_solver.
  - set_solver.
  - set_solver.
  - intros v d [<- <-]%lookup_singleton_Some. exists [source]. split; constructor.
  - set_solver.
  - rewrite Hp. apply NoDup_singleton.
Qed.

Lemma unsettled_empty : unsettled_edges ∅ = edge_count (transfer_edges g).
Proof. unfold unsettled_edges. f_equal. apply map_filter_id. set_solver. Qed.

Lemma search_spec :
  (exists w path, search g source target po = Returns (Some (w, path)) /\ best_route w path) \/
  (search g source target po = Returns None /\ forall p k, ~ routes p target k).
Proof.
  unfold search. pose proof (heap_push_elements (key_default, source) heap_new) as Hp.
  rewrite heap_new_elements in Hp.
  destruct (search_loop_correct (2 + edge_count (transfer_edges g)) _ _ _ _ _ init_inv)
    as [(w & path & -> & Hb)|[-> Hn]].
  - rewrite Hp, unsettled_empty. simpl. lia.
  - left. exists w, path. done.
  - right. done.
Qed.
End correctness.

(** ** Routes as paths of the graph *)

Lemma route_path g po s p v k :
  route g po s p v k -> head p = Some s /\ last p = Some v /\
  forall l1 a b l2, p = l1 ++ a :: b :: l2 ->
    has_direct_edge g a b = true /\ (po = true -> is_Some (route_cost g !! (a, b))).
Proof.
  induction 1 as [|p u k nb k' Hr (Hh & Hl & Hedge) Hnb He].
  { split_and!; [done|done|]. intros [|? [|??]] a b l2; done. }
  split_and!; [by destruct p|by rewrite last_snoc|]. intros l1 a b l2 E.
  destruct l2 as [|c l2 _] using rev_ind.
  - assert (p = l1 ++ [a] /\ nb.1 = b) as [-> <-].
    { change (l1 ++ [a; b]) with (l1 ++ [a] ++ [b]) in E. rewrite app_assoc in E. by apply app_inj_tail in E. }
    rewrite last_snoc in Hl. injection Hl as ->. split.
    + unfold has_direct_edge, neighbours in *. destruct (transfer_edges g !! u) as [ns|]; simpl in *; [|set_solver].
      apply existsb_exists. exists nb. split; [by apply list_elem_of_In|by apply bool_decide_eq_true].
    + intros ->. unfold extend in He. destruct (route_cost g !! (u, nb.1)); done.
  - apply (Hedge l1 a b l2).
    change (l1 ++ a :: b :: l2 ++ [c]) with (l1 ++ (a :: b :: l2) ++ [c]) in E.
    rewrite app_assoc in E. by apply app_inj_tail in E as [-> _].
Qed.

Lemma route_unpriced_cost g s p v k : route g false s p v k -> key_cost k = 0.
Proof.
  induction 1 as [|p u k nb k' Hr IH Hnb He]; [done|]. unfold extend in He. injection He as <-. simpl.
  by rewrite IH.
Qed.

(** A priced route is a route. *)
Lemma route_forget_price g s p v k : route g true s p v k -> exists k', route g false s p v k'.
Proof.
  induction 1 as [|p u k nb k' Hr [k1 IH] Hnb He]; [eexists; constructor|].
  eexists. eapply route_snoc; [exact IH|done|done].
Qed.

(** ** Claims *)

Section claims.
Context {H : Type} `{MinHeap H}.

(** C1. [search] is correct for every heap: it terminates without a panic, and
    either returns a route of the pass from source to target, with its summed
    weight, that no other route of the pass beats (in predicted cost first and
    declared weight second), or returns [None] and there is no such route. *)
Theorem search_correct g po source target :
  graph_typed g ->
  (exists w path, search g source target po = Returns (Some (w, path)) /\
     exists k, key_weight k = w /\ route g po source path target k /\
       forall p' k', route g po source p' target k' -> key_cost k' < umax 64 -> key_le k k') \/
  (search g source target po = Returns None /\ forall p k, ~ route g po source p target k).
Proof. intros Hg. by apply search_spec. Qed.

Lemma transfer_path_spec g source target :
  graph_typed g -> exists r, transfer_path g source target = Returns r /\
  match r with
  | Some (w, path) =>
      (source = target /\ w = 0 /\ path = [source]) \/
      (source <> target /\ best_route g true source target w path) \/
      (source <> target /\ (forall p k, ~ route g true source p target k) /\
       best_route g false source target w path)
  | None => source <> target /\ forall p k, ~ route g false source p target k
  end.
Proof.
  intros Hg. unfold transfer_path. case_decide as Hst; [eexists; split; [done|naive_solver]|].
  destruct (search_spec g true source target Hg) as [(w & path & -> & Hb)|[-> Hn]]; simpl.
  - eexists. split; [done|]. naive_solver.
  - destruct (search_spec g false source target Hg) as [(w & path & -> & Hb)|[-> Hn']];
      eexists; (split; [done|]); naive_solver.
Qed.

(** C2. [transfer_path] returns the route the source documents: a route made of
    priced edges only, of least predicted cost, whenever one exists; otherwise a
    route of least declared weight; and [None] exactly when no chain of declared
    edges joins the two spaces.  Every hop of the answer is a declared edge. *)
Theorem transfer_path_correct g source target :
  graph_typed g -> source <> target ->
  exists r, transfer_path g source target = Returns r /\
  match r with
  | Some (w, path) =>
      head path = Some source /\ last path = Some target /\
      (forall l1 a b l2, path = l1 ++ a :: b :: l2 -> has_direct_edge g a b = true) /\
      ((exists k, key_weight k = w /\ route g true source path target k /\
          forall p' k', route g true source p' target k' -> key_cost k <= key_cost k') \/
       ((forall p k, ~ route g true source p target k) /\
        (exists k, key_weight k = w /\ route g false source path target k) /\
        forall p' k', route g false source p' target k' -> w <= key_weight k'))
  | None => forall p k, ~ route g false source p target k
  end.
Proof.
  intros Hg Hne. destruct (transfer_path_spec g source target Hg) as (r & Hr & Hspec).
  exists r. split; [done|]. destruct r as [[w path]|]; [|naive_solver].
  destruct Hspec as [[? _]|[(_ & k & <- & Hroute & Hbest)|(_ & Hno & k & <- & Hroute & Hbest)]]; [done| |].
  - destruct (route_path _ _ _ _ _ _ Hroute) as (Hh & Hl & He). split_and!; [done|done|naive_solver|].
    left. exists k. split_and!; [done|done|]. intros p' k' Hr'.
    pose proof (route_typed _ _ _ _ _ _ Hg Hroute) as [Hk _].
    pose proof (route_typed _ _ _ _ _ _ Hg Hr') as [Hk' _].
    destruct (decide (key_cost k' < umax 64)) as [Hlt|]; [|lia].
    specialize (Hbest p' k' Hr' Hlt). unfold key_le in Hbest. lia.
  - destruct (route_path _ _ _ _ _ _ Hroute) as (Hh & Hl & He). split_and!; [done|done|naive_solver|].
    right. split_and!; [done|eauto|]. intros p' k' Hr'.
    pose proof (route_unpriced_cost _ _ _ _ _ Hroute). pose proof (route_unpriced_cost _ _ _ _ _ Hr') as H0'.
    assert (key_cost k' < umax 64) as Hlt by (rewrite H0'; done).
    specialize (Hbest p' k' Hr' Hlt). unfold key_le in Hbest. lia.
Qed.
End claims.
