(* ===== verification/Reach.v ===== *)
(** * The cost matrix and the reachability verdicts

    What the operations of [Routing] keep true of a graph, that the all-pairs
    matrix agrees with the search, the verdicts of [reachable], and the on-chip
    memories of the built-in topologies. *)

From stdpp Require Import base list strings gmap sets fin_maps fin_sets.
From Stdlib Require Import ZArith Lia.
From S2P Require Import Prelude Syntax Memory Arch Routing Dijkstra.
Open Scope Z_scope.

(** ** Graphs stay well typed *)

Definition edge_typed (e : TransferEdge) : Prop :=
  match te_cost e with
  | Fixed c => 0 <= c
  | Rate bw => 0 <= bw_bytes bw
  | _ => True
  end.

Lemma add_transfer_edge_typed g s d w :
  graph_typed g -> 0 <= w -> graph_typed (add_transfer_edge g s d w).
Proof.
  intros [Hw Hc] Hpos. split; [|done]. intros u ns v x. simpl.
  rewrite lookup_insert_Some. intros [[<- <-]|[_ Hu]] Hin; [|by apply (Hw u ns v x)].
  apply elem_of_app in Hin as [Hin|Hin]; [|apply list_elem_of_singleton in Hin; congruence].
  destruct (transfer_edges g !! s) as [ns|] eqn:E; simpl in Hin; [by apply (Hw s ns v x)|set_solver].
Qed.

Lemma per_byte_attos_nonneg e c : per_byte_attos e = Some c -> 0 <= c.
Proof.
  destruct e as [|bw| |]; simpl; try done; [|by intros [= <-]].
  case_match; [|done]. intros [<- ?]%checked_u_Some. lia.
Qed.

Lemma apply_edge_typed g e : graph_typed g -> edge_typed e -> graph_typed (apply_edge g e).
Proof.
  intros Hg He. assert (0 <= routing_weight (te_cost e)) as Hw.
  { unfold edge_typed in He. destruct (te_cost e); simpl; lia. }
  pose proof (add_transfer_edge_typed g (te_from e) (te_to e) _ Hg Hw) as [Ha Hc].
  unfold apply_edge. destruct (per_byte_attos (te_cost e)) as [attos|] eqn:E; [|by split].
  split; [done|]. intros u v c. simpl. rewrite lookup_insert_Some.
  intros [[_ <-]|[_ Hu]]; [|by eapply Hc].
  apply per_byte_attos_nonneg in E. destruct (route_cost g !! _) as [x|] eqn:Ex; [|done].
  apply (proj2 Hg) in Ex. lia.
Qed.

Lemma apply_descriptor_edges_typed g d :
  graph_typed g -> Forall edge_typed (transfers d) -> graph_typed (apply_descriptor_edges g d).
Proof.
  unfold apply_descriptor_edges. intros Hg Hd. revert g Hg.
  induction Hd as [|e es He Hes IH]; intros g Hg; simpl; [done|]. by apply IH, apply_edge_typed.
Qed.

Lemma add_topology_edges_typed g ts :
  graph_typed g -> Forall (fun t => Forall edge_typed (transfers (td_descriptor t))) ts ->
  graph_typed (add_topology_edges g ts).
Proof.
  unfold add_topology_edges. intros Hg Hts. revert g Hg.
  induction Hts as [|t ts Ht Hts IH]; intros g Hg; simpl; [done|].
  apply IH. apply (apply_descriptor_edges_typed g _ Hg Ht).
Qed.

Lemma empty_graph_typed ds : graph_typed (mkGraph ∅ ∅ ∅ ∅ [] ∅ ds).
Proof. split; intros *; simpl; by rewrite lookup_empty. Qed.

Lemma resolve_edge_spec h rc e :
  map_Forall (fun _ d => decl_typed d) h -> (forall p c, rc !! p = Some c -> 0 <= c) ->
  exists rc', resolve_edge h rc e = Returns rc' /\ forall p c, rc' !! p = Some c -> 0 <= c.
Proof.
  intros Hh Hrc. unfold resolve_edge.
  destruct (derived_transfer_cost_returns h e.1 e.2 PROBE_BYTES) as [r Hr]. rewrite Hr. simpl.
  eexists. split; [done|]. destruct r as [d|]; [|done]. case_decide; [|done].
  destruct (checked_u 64 _) as [a|] eqn:Ea; [|done]. apply checked_u_Some in Ea as [<- Ha].
  intros p c. rewrite lookup_insert_Some. intros [[<- <-]|[_ Hp]]; [lia|by eapply Hrc].
Qed.

Lemma resolve_edges_spec h rc es :
  map_Forall (fun _ d => decl_typed d) h -> (forall p c, rc !! p = Some c -> 0 <= c) ->
  exists rc', resolve_edges h rc es = Returns rc' /\ forall p c, rc' !! p = Some c -> 0 <= c.
Proof.
  intros Hh. revert rc. induction es as [|e es IH]; intros rc Hrc; simpl; [eauto|].
  destruct (resolve_edge_spec h rc e Hh Hrc) as (rc' & -> & Hrc'). simpl. by apply IH.
Qed.

(** ** The matrix *)

Definition linked (g : TransferCostGraph) (s t : MemorySpace) : Prop :=
  exists p k, route g false s p t k.

(** Every entry of the matrix is for a pair that some chain of edges joins. *)
Definition matrix_sound (g : TransferCostGraph) : Prop :=
  forall s t c, cost_matrix g !! (s, t) = Some c -> linked g s t.

Section matrix.
Context {H : Type} `{MinHeap H}.

Lemma transfer_path_linked g s t r :
  graph_typed g -> transfer_path g s t = Returns r -> is_Some r <-> linked g s t.
Proof.
  intros Hg Hr. destruct (transfer_path_spec g s t Hg) as (r' & Hr' & Hspec).
  assert (r' = r) as -> by congruence. destruct r as [[w path]|].
  - split; [intros _|done]. destruct Hspec as [(-> & _)|[(_ & k & _ & Hroute & _)|(_ & _ & k & _ & Hroute & _)]].
    + exists [t], key_default. constructor.
    + apply route_forget_price in Hroute as [k' ?]. by exists path, k'.
    + by exists path, k.
  - destruct Hspec as [_ Hn]. split; [by intros []|]. intros (p & k & Hroute). by destruct (Hn p k).
Qed.

Definition path_cost (g : TransferCostGraph) (s t : MemorySpace) : option Z :=
  match transfer_path g s t with Returns (Some (c, _)) => Some c | _ => None end.

Lemma sweep_spec g pairs m :
  graph_typed g -> exists m', sweep g pairs m = Returns m' /\
    forall s t, m' !! (s, t) = if decide ((s, t) ∈ pairs)
                               then match path_cost g s t with Some c => Some c | None => m !! (s, t) end
                               else m !! (s, t).
Proof.
  intros Hg. revert m. induction pairs as [|[s0 t0] pairs IH]; intros m; simpl.
  { exists m. split; [done|]. intros s t. done. }
  destruct (transfer_path_spec g s0 t0 Hg) as (r & Hr & _). rewrite Hr. simpl.
  set (m1 := match r with Some (c, _) => <[(s0, t0) := c]> m | None => m end).
  destruct (IH m1) as (m' & Hm' & Hlk). exists m'. split; [done|]. intros s t. rewrite Hlk.
  assert (path_cost g s0 t0 = match r with Some (c, _) => Some c | None => None end) as Hpc
    by (unfold path_cost; by rewrite Hr).
  destruct (decide ((s, t) = (s0, t0))) as [[= -> ->]|Hne].
  - rewrite (decide_True _ _ (P:=(s0, t0) ∈ (s0, t0) :: pairs)) by set_solver. rewrite Hpc.
    unfold m1. destruct r as [[c p]|]; case_decide; try done. by rewrite lookup_insert_eq.
  - assert (m1 !! (s, t) = m !! (s, t)) as ->.
    { unfold m1. destruct r as [[c p]|]; [|done]. by apply lookup_insert_ne. }
    destruct (decide ((s, t) ∈ pairs)), (decide ((s, t) ∈ (s0, t0) :: pairs)); set_solver.
Qed.

Lemma precompute_costs_spec g :
  graph_typed g -> exists g', precompute_costs g = Returns g' /\
    transfer_edges g' = transfer_edges g /\ route_cost g' = route_cost g /\ descriptors g' = descriptors g /\
    forall s t, transfer_cost g' s t =
      if decide (s ∈ sweep_spaces g /\ t ∈ sweep_spaces g)
      then match path_cost g s t with Some c => Some c | None => transfer_cost g s t end
      else transfer_cost g s t.
Proof.
  intros Hg. unfold precompute_costs.
  destruct (sweep_spec g (list_prod (elements (sweep_spaces g)) (elements (sweep_spaces g))) (cost_matrix g) Hg)
    as (m & -> & Hm). simpl.
  eexists. split_and!; [done..|]. intros s t. unfold transfer_cost. simpl. rewrite Hm.
  apply decide_ext. rewrite list_elem_of_In, in_prod_iff, <- !list_elem_of_In, !elem_of_elements. done.
Qed.

(** C36. After [precompute_costs] the matrix and the search agree: between two
    spaces of the graph, the tabulated cost is the one [transfer_path] returns,
    and [can_transfer] answers yes exactly when some chain of declared edges
    joins them.  A sound matrix stays sound. *)
Theorem matrix_agrees g g' s t :
  graph_typed g -> matrix_sound g -> precompute_costs g = Returns g' ->
  s ∈ sweep_spaces g -> t ∈ sweep_spaces g ->
  transfer_cost g' s t = path_cost g s t /\
  (can_transfer g' s t = true <-> linked g s t) /\ matrix_sound g'.
Proof.
  intros Hg Hm Hp Hs Ht. destruct (precompute_costs_spec g Hg) as (g1 & Hg1 & He & _ & _ & Hc).
  assert (g1 = g') as -> by congruence.
  assert (forall s t, path_cost g s t = None <-> ~ linked g s t) as Hpc.
  { intros a b. unfold path_cost. destruct (transfer_path_spec g a b Hg) as (r & Hr & _). rewrite Hr.
    rewrite <- (transfer_path_linked g a b r Hg Hr), <- eq_None_not_Some. destruct r as [[]|]; done. }
  assert (forall a b, linked g' a b <-> linked g a b) as Hlk.
  { intros a b. unfold linked.
    assert (forall g1 g2 p k, transfer_edges g1 = transfer_edges g2 -> route g1 false a p b k -> route g2 false a p b k) as Hmv.
    { intros g1 g2 p k E. induction 1; econstructor; eauto. unfold neighbours in *. by rewrite <- E. }
    naive_solver. }
  assert (transfer_cost g' s t = path_cost g s t) as Hst.
  { rewrite Hc, decide_True by done. destruct (path_cost g s t) eqn:E; [done|].
    apply Hpc in E. unfold transfer_cost. destruct (cost_matrix g !! (s, t)) eqn:E'; [|done]. by destruct E; eapply Hm. }
  split_and!; [done| |].
  - unfold can_transfer. change (cost_matrix g' !! (s, t)) with (transfer_cost g' s t). rewrite Hst.
    destruct (path_cost g s t) eqn:E; [|apply Hpc in E; done].
    split; [|done]. intros _. unfold path_cost in E.
    destruct (transfer_path g s t) as [[[c p]|]|] eqn:Ep; try done. by eapply transfer_path_linked in Ep as [Hl _]; [apply Hl|].
  - intros a b c Hab. apply Hlk. change (transfer_cost g' a b = Some c) in Hab. rewrite Hc in Hab.
    case_decide; [|by eapply Hm]. destruct (path_cost g a b) eqn:E; [|by eapply Hm].
    unfold path_cost in E. destruct (transfer_path g a b) as [[[c' p]|]|] eqn:Ep; try done.
    by eapply transfer_path_linked in Ep as [Hl _]; [apply Hl|].
Qed.
End matrix.

(** ** Verdicts *)

Section verdicts.
Context {H : Type} `{MinHeap H}.

(** The verdict of [reachable] is the one the USE rule describes: [Visible]
    exactly when the type is accessible in place, [NeedsSeam c] when it is not
    but a transfer route of cost [c] joins the two memories, and [Unreachable]
    when it is not and no chain of edges joins them. *)
Theorem reachable_verdict g active var ty r :
  graph_typed g -> reachable g active var ty = Returns r ->
  match r with
  | Visible => is_type_accessible g active var ty = Returns true
  | NeedsSeam c =>
      is_type_accessible g active var ty = Returns false /\
      exists vm am, memory_of g var ty = Returns vm /\ default_memory_for g active = Returns am /\
        linked g vm am /\ path_cost g vm am = Some c
  | Unreachable =>
      is_type_accessible g active var ty = Returns false /\
      exists vm am, memory_of g var ty = Returns vm /\ default_memory_for g active = Returns am /\
        ~ linked g vm am
  end.
Proof.
  intros Hg. unfold reachable.
  destruct (is_type_accessible g active var ty) as [[]|] eqn:Ha; simpl; [by intros [= <-]| |done].
  destruct (memory_of g var ty) as [vm|] eqn:Hv; simpl; [|done].
  destruct (default_memory_for g active) as [am|] eqn:Hm; simpl; [|done].
  destruct (transfer_path g vm am) as [p|] eqn:Hp; simpl; [|done].
  pose proof (transfer_path_linked g vm am p Hg Hp) as Hl.
  destruct p as [[c path]|]; intros [= <-]; (split; [done|]); exists vm, am; split_and!; try done.
  - by apply Hl.
  - unfold path_cost. by rewrite Hp.
  - intros Hlk. by apply Hl in Hlk as [].
Qed.

(** No part of the type or of the scopes is the placeholder [Current]. *)
Definition concrete (t : Topology) : bool := match t with Current => false | _ => true end.

Definition type_concrete (ty : Ty) : bool :=
  match ty with
  | Tensor _ _ (Some p) => concrete (pl_topology p)
  | Pinned _ t => concrete t
  | _ => true
  end.

Lemma default_memory_for_returns g t :
  concrete t = true -> exists m, default_memory_for g t = Returns m.
Proof. destruct t; try done; eauto. Qed.

Lemma placement_space_returns g p :
  concrete (pl_topology p) = true -> exists m, placement_space g p = Returns m.
Proof. unfold placement_space. destruct (pl_stated p); [apply default_memory_for_returns|eauto]. Qed.

Lemma memory_of_returns g var ty :
  concrete var = true -> type_concrete ty = true -> exists m, memory_of g var ty = Returns m.
Proof.
  intros Hv Ht. pose proof (default_memory_for_returns g var Hv).
  destruct ty as [e ds [p|]| | | | | | | | | inner t| | | | | | | |]; try done.
  - by apply placement_space_returns.
  - unfold memory_of. simpl. eauto.
  - by apply default_memory_for_returns.
Qed.

Lemma unpinned_accessible_returns g active var ty :
  concrete var = true -> type_concrete ty = true ->
  exists b, unpinned_accessible g active var ty = Returns b.
Proof.
  intros Hv Ht. destruct (default_memory_for_returns g var Hv) as [m Hm]. unfold unpinned_accessible.
  destruct (Ty_placement ty) as [p|] eqn:Hp.
  - assert (concrete (pl_topology p) = true) as Hc
      by (destruct ty; simpl in *; try done; by rewrite Hp in Ht).
    destruct (placement_space_returns g p Hc) as [m' Hm']. rewrite Hm'. simpl. eauto.
  - destruct ty; simpl; try (destruct (Topology_eqb var active); simpl; [by eauto|rewrite Hm; simpl; by eauto]).
    eauto.
Qed.

Lemma is_type_accessible_returns g active var ty :
  concrete var = true -> type_concrete ty = true ->
  exists b, is_type_accessible g active var ty = Returns b.
Proof.
  intros Hv Ht. destruct ty; try (by apply unpinned_accessible_returns).
  unfold is_type_accessible. destruct (Topology_eqb top active); [eauto|].
  destruct (default_memory_for_returns g top Ht) as [m ->]. simpl. by apply unpinned_accessible_returns.
Qed.

(** With concrete topologies the query always answers: the [unreachable!]
    of [default_memory_for] is not reached, and the search does not fail. *)
Theorem reachable_total g active var ty :
  graph_typed g -> concrete active = true -> concrete var = true -> type_concrete ty = true ->
  exists r, reachable g active var ty = Returns r.
Proof.
  intros Hg Ha Hv Ht. unfold reachable.
  destruct (is_type_accessible_returns g active var ty Hv Ht) as [b ->]. simpl. destruct b; [eauto|].
  destruct (memory_of_returns g var ty Hv Ht) as [vm ->]. simpl.
  destruct (default_memory_for_returns g active Ha) as [am ->]. simpl.
  destruct (transfer_path_spec g vm am Hg) as (r & -> & _). simpl. eauto.
Qed.

(** [descriptor_coherence] is exact: it reports nothing just when the
    topology sees its own memory and the host can reach that memory, by
    visibility or by a chain of transfer edges. *)
Theorem descriptor_coherence_exact g desc issues :
  graph_typed g -> descriptor_coherence desc g = Returns issues ->
  issues = [] <->
  default_space desc ∈ visibility desc /\
  (CPUDRAM ∈ visibility desc \/ linked g CPUDRAM (default_space desc)).
Proof.
  intros Hg. unfold descriptor_coherence.
  assert (linked g CPUDRAM CPUDRAM) as Hself by (exists [CPUDRAM], key_default; constructor).
  case_decide as Hhost; simpl.
  - intros [= <-]. case_decide; [|naive_solver]. split; [|done]. intros _. split; [done|].
    destruct Hhost as [|Heq]; [by left|right]. by rewrite Heq.
  - destruct (transfer_path g CPUDRAM (default_space desc)) as [r|] eqn:Hp; simpl; [|done].
    pose proof (transfer_path_linked g _ _ r Hg Hp) as Hl. destruct r as [q|]; intros [= <-].
    + assert (linked g CPUDRAM (default_space desc)) by (by apply Hl).
      case_decide; naive_solver.
    + assert (~ linked g CPUDRAM (default_space desc)) by (intros Hk; by apply Hl in Hk as []).
      case_decide; naive_solver.
Qed.
End verdicts.

(** ** A concrete machine *)

Definition demo_edge (a b : MemorySpace) (c : EdgeCost) : TransferEdge := mkTransferEdge a b c true false.
Definition gb_per_s (n : Z) : EdgeCost := Rate (mkBandwidth (n * 1000000000) Second).

(** A host link, a fast peer link and a slow direct edge of weight one. *)
Definition demo_topology : TopologyDecl :=
  mkTopologyDecl "Peer"
    (mkTopologyDescriptor (CustomSpace "PEER") [CustomSpace "PEER"] (Some "nvptx64")
       [demo_edge CPUDRAM GpuHbm (gb_per_s 64); demo_edge GpuHbm (CustomSpace "PEER") (gb_per_s 900);
        demo_edge CPUDRAM (CustomSpace "PEER") (Fixed 1)]
       None None None false).

Definition demo_graph : TransferCostGraph :=
  add_topology_edges (mkGraph ∅ ∅ ∅ ∅ [] ∅ builtin_descriptors) [demo_topology].

Lemma demo_graph_typed : graph_typed demo_graph.
Proof.
  apply add_topology_edges_typed; [apply empty_graph_typed|].
  repeat constructor; unfold edge_typed; simpl; lia.
Qed.

Lemma demo_matrix_sound : matrix_sound demo_graph.
Proof. intros s t c. vm_compute. done. Qed.

(** The two-hop route over the links wins over the direct unpriced edge. *)
Example demo_route :
  transfer_path demo_graph CPUDRAM (CustomSpace "PEER")
  = Returns (Some (2, [CPUDRAM; GpuHbm; CustomSpace "PEER"])).
Proof. vm_compute. reflexivity. Qed.

Lemma search_correct_witness : exists w path,
  search demo_graph CPUDRAM (CustomSpace "PEER") true = Returns (Some (w, path)).
Proof.
  destruct (search_correct demo_graph true CPUDRAM (CustomSpace "PEER") demo_graph_typed)
    as [(w & path & Hs & _)|[Hs _]].
  - exists w, path. exact Hs.
  - exists 2, [CPUDRAM; GpuHbm; CustomSpace "PEER"]. vm_compute. reflexivity.
Defined.

Lemma transfer_path_correct_witness : exists r,
  transfer_path demo_graph CPUDRAM (CustomSpace "PEER") = Returns r.
Proof.
  destruct (transfer_path_correct demo_graph CPUDRAM (CustomSpace "PEER") demo_graph_typed
              ltac:(discriminate)) as (r & Hr & _).
  exists r. exact Hr.
Defined.

Lemma matrix_agrees_witness : exists g',
  precompute_costs demo_graph = Returns g' /\
  transfer_cost g' CPUDRAM (CustomSpace "PEER") = path_cost demo_graph CPUDRAM (CustomSpace "PEER").
Proof.
  destruct (precompute_costs demo_graph) as [g'|] eqn:E; [|vm_compute in E; discriminate].
  exists g'. split; [reflexivity|].
  apply (matrix_agrees demo_graph g' CPUDRAM (CustomSpace "PEER") demo_graph_typed demo_matrix_sound E).
  - by vm_compute.
  - by vm_compute.
Defined.

Lemma reachable_verdict_witness :
  is_type_accessible demo_graph (CustomTopology "Peer") CPU (Tensor F32 [] None) = Returns false /\
  exists vm am, linked demo_graph vm am.
Proof.
  assert (reachable demo_graph (CustomTopology "Peer") CPU (Tensor F32 [] None) = Returns (NeedsSeam 2)) as E
    by (vm_compute; reflexivity).
  destruct (reachable_verdict demo_graph _ _ _ _ demo_graph_typed E) as (Ha & vm & am & _ & _ & Hl & _).
  split; [exact Ha|]. exists vm, am. exact Hl.
Defined.

Lemma reachable_total_witness : exists r,
  reachable demo_graph (CustomTopology "Peer") CPU (Pinned (Scalar F32) (CustomTopology "Peer")) = Returns r.
Proof. apply (reachable_total demo_graph); [apply demo_graph_typed|reflexivity..]. Defined.

Lemma descriptor_coherence_exact_witness :
  ([] : list CoherenceIssue) = [] <-> CustomSpace "PEER" ∈ [CustomSpace "PEER"] /\
    (CPUDRAM ∈ [CustomSpace "PEER"] \/ linked demo_graph CPUDRAM (CustomSpace "PEER")).
Proof.
  apply (descriptor_coherence_exact demo_graph (td_descriptor demo_topology) [] demo_graph_typed).
  vm_compute. reflexivity.
Defined.

(** ** On-chip memories *)

(** [d'] is [d] with more spaces visible, each of them one of [extra]. *)
Definition sees_more (extra : list MemorySpace) (d d' : TopologyDescriptor) : Prop :=
  default_space d' = default_space d /\ transfers d' = transfers d /\
  exists l, visibility d' = visibility d ++ l /\ forall s, s ∈ l -> s ∈ extra.

Definition table_extends (extra : list MemorySpace) (ds ds' : gmap TopologyKind TopologyDescriptor) : Prop :=
  dom ds' = dom ds /\
  forall k d d', ds !! k = Some d -> ds' !! k = Some d' ->
    sees_more extra d d' /\ (forall n, k = KCustom n -> d' = d).

Lemma table_extends_refl extra ds : table_extends extra ds ds.
Proof.
  split; [done|]. intros k d d' Hd Hd'. assert (d' = d) as -> by congruence.
  split; [|done]. split_and!; [done|done|]. exists []. rewrite app_nil_r. set_solver.
Qed.

Lemma table_extends_trans extra a b c :
  table_extends extra a b -> table_extends extra b c -> table_extends extra a c.
Proof.
  intros [Hd1 H1] [Hd2 H2]. split; [congruence|]. intros k d d' Hd Hd'.
  assert (exists e, b !! k = Some e) as [e He].
  { apply elem_of_dom. rewrite Hd1. apply elem_of_dom. eauto. }
  destruct (H1 k d e Hd He) as [(D1 & T1 & l1 & V1 & X1) C1].
  destruct (H2 k e d' He Hd') as [(D2 & T2 & l2 & V2 & X2) C2]. split.
  - split_and!; [congruence|congruence|]. exists (l1 ++ l2). rewrite V2, V1, <- app_assoc.
    split; [done|]. intros s [?|?]%elem_of_app; auto.
  - intros n Hn. rewrite (C2 n Hn). eauto.
Qed.

Lemma add_visible_extends extra space ds kind :
  space ∈ extra -> table_extends extra ds (add_visible space ds kind).
Proof.
  intros Hs. unfold add_visible.
  destruct (ds !! kind) as [desc|] eqn:E; [|destruct kind; apply table_extends_refl].
  destruct (decide (space ∈ visibility desc)); [destruct kind; apply table_extends_refl|].
  assert ((exists n, kind = KCustom n) \/ forall n, kind <> KCustom n) as [[nm ->]|Hn]
    by (destruct kind; eauto); [apply table_extends_refl|].
  match goal with |- context [<[kind := ?d]> ds] =>
    assert (table_extends extra ds (<[kind := d]> ds)) as HT end.
  { split; [apply dom_insert_lookup_L; eauto|]. intros k d d' Hd.
    rewrite lookup_insert_Some. intros [[<- <-]|[Hne Hd']].
    - assert (d = desc) as -> by congruence. split; [|intros n' Hk; by destruct (Hn n')].
      split_and!; [done|done|]. exists [space]. set_solver.
    - assert (d' = d) as -> by congruence. split; [|done]. split_and!; [done|done|].
      exists []. rewrite app_nil_r. set_solver. }
  destruct kind; try exact HT. apply table_extends_refl.
Qed.

Lemma fold_extends {A} extra (f : gmap TopologyKind TopologyDescriptor -> A -> gmap TopologyKind TopologyDescriptor) l ds :
  (forall ds x, x ∈ l -> table_extends extra ds (f ds x)) -> table_extends extra ds (foldl f ds l).
Proof.
  revert ds. induction l as [|x l IH]; intros ds Hf; simpl; [apply table_extends_refl|].
  apply table_extends_trans with (f ds x); [apply Hf; constructor|]. apply IH. intros ds' y Hy.
  apply Hf. by constructor.
Qed.

Lemma on_chip_walk_extends extra fuel memories space seen up ds ds' :
  space ∈ extra -> on_chip_walk fuel memories space seen up ds = Some ds' -> table_extends extra ds ds'.
Proof.
  intros Hs. revert seen up. induction fuel as [|fuel IH]; intros seen up; simpl; [done|].
  destruct up as [p|]; [|intros [= <-]; apply table_extends_refl].
  case_decide; [intros [= <-]; apply table_extends_refl|].
  destruct (owners_of ds p) as [|o os]; [apply IH|]. intros [= <-].
  apply (fold_extends extra (add_visible space) (o :: os)). intros. by apply add_visible_extends.
Qed.

(** The parents a walk can still visit are parents of declarations. *)
Lemma parent_of_elem memories s p : parent_of memories s = Some p -> p ∈ omap md_parent memories.
Proof.
  unfold parent_of. destruct (List.find _ _) as [m|] eqn:E; simpl; [|done]. intros Hp.
  apply List.find_some in E as [Hin _]. apply list_elem_of_omap. exists m. by split; [apply list_elem_of_In|].
Qed.

Lemma on_chip_walk_enough fuel memories space seen up ds :
  (forall p, up = Some p -> p ∈ omap md_parent memories) ->
  (size (list_to_set (omap md_parent memories) ∖ list_to_set seen : gset MemorySpace) < fuel)%nat ->
  is_Some (on_chip_walk fuel memories space seen up ds).
Proof.
  revert seen up. induction fuel as [|fuel IH]; intros seen up Hup Hf; [lia|]. simpl.
  destruct up as [p|]; [|done]. case_decide as Hp; [done|].
  destruct (owners_of ds p); [|done]. apply IH; [intros q Hq; by apply parent_of_elem in Hq|].
  assert (size (list_to_set (omap md_parent memories) ∖ list_to_set (seen ++ [p]) : gset MemorySpace)
          < size (list_to_set (omap md_parent memories) ∖ list_to_set seen : gset MemorySpace))%nat; [|lia].
  apply subset_size. specialize (Hup p eq_refl).
  rewrite list_to_set_app_L. simpl. split.
  - set_solver.
  - intros Hsub. assert (p ∈ (list_to_set (omap md_parent memories) ∖ list_to_set seen : gset MemorySpace)) as Hin by set_solver.
    apply Hsub in Hin. set_solver.
Qed.

Lemma size_list_to_set_le (l : list MemorySpace) : (size (list_to_set l : gset MemorySpace) <= length l)%nat.
Proof.
  induction l as [|x l IH]; simpl; [done|]. rewrite size_union_alt, size_singleton.
  assert (size (list_to_set l ∖ {[x]} : gset MemorySpace) <= size (list_to_set l : gset MemorySpace))%nat
    by (apply subseteq_size; set_solver). lia.
Qed.

(** [add_on_chip_memories] terminates for every declaration set, cyclic
    ones included, and only widens what the built-in topologies see: a declared
    topology's descriptor is untouched, defaults and edges stay, and every
    space that becomes visible is a declared memory with an [sm], [cta] or
    [thread] scope. *)
Theorem on_chip_only_widens g memories :
  (forall mem ds, mem ∈ memories ->
     is_Some (on_chip_walk (2 + length memories) memories (decl_space mem) [decl_space mem] (md_parent mem) ds)) /\
  table_extends (map decl_space (filter (fun m => is_on_chip m = true) memories))
    (descriptors g) (descriptors (add_on_chip_memories g memories)).
Proof.
  assert (forall mem ds, mem ∈ memories ->
     is_Some (on_chip_walk (2 + length memories) memories (decl_space mem) [decl_space mem] (md_parent mem) ds)) as Hen.
  { intros mem ds Hm. apply on_chip_walk_enough.
    - intros p Hp. apply list_elem_of_omap. eauto.
    - eapply Nat.le_lt_trans; [apply (subseteq_size _ (list_to_set (omap md_parent memories))); set_solver|].
      eapply Nat.le_lt_trans; [apply size_list_to_set_le|].
      assert (length (omap md_parent memories) <= length memories)%nat; [|lia].
      clear. induction memories as [|m ms IH]; [done|].
      change (omap md_parent (m :: ms)) with (match md_parent m with Some y => y :: omap md_parent ms | None => omap md_parent ms end).
      destruct (md_parent m); cbn [length]; lia. }
  split; [done|]. unfold add_on_chip_memories. cbn [descriptors set_descriptors].
  apply fold_extends. intros ds m Hm.
  destruct (is_on_chip m) eqn:Ho; [|apply table_extends_refl].
  destruct (Hen m ds Hm) as [ds' Hds']. rewrite Hds'. cbn [default].
  eapply on_chip_walk_extends; [|exact Hds']. apply list_elem_of_fmap. exists m. split; [done|].
  by apply list_elem_of_filter.
Qed.
