(* ===== verification/Layout.v ===== *)
(** * Structural layouts ([src/src/layout.rs])

    The storage of enum payloads, the size and alignment of scalars and vectors,
    and the layout of a struct's fields.  [u64] and [usize] are both 64 bits.
    The arithmetic the source leaves unchecked ([align_up], the field offsets)
    is in [outcome].

    [LayoutComputer] is a state with a memo table and a visiting set; its
    methods are computations [comp] over it, recursive on fuel, one level per
    declared struct ([layout_of_ok] shows the fuel is enough).  Resolving a
    nominal by name and laying out a generic instance are the class [Resolver]:
    the first needs the identity table of [layout/identity.rs], the second type
    substitution and mangling, which are not modelled. *)

From stdpp Require Import base list strings gmap pretty.
From Stdlib Require Import ZArith Lia.
From S2P Require Import Prelude Gid Syntax Memory.
Open Scope Z_scope.
Open Scope vx_scope.

(** ** Data *)

Inductive FieldTy : Type :=
| FScalar (e : ElementType)
| FNominal (id : Gid.TypeId)
| FOpaque
| FTensor (e : ElementType) (rank : nat)
| FVector (e : ElementType) (lanes : nat).

Record FieldLayout : Type := mkFieldLayout {
  fl_name : Symbol;
  fl_offset : Z;
  fl_size : Z;
  fl_ty : FieldTy;
}.

Record TypeLayout : Type := mkTypeLayout {
  tl_size : Z;
  tl_align : Z;
  tl_fields : list FieldLayout;
}.

Record EnumPayloadSlot : Type := mkSlot { sl_offset : Z; sl_size : Z; sl_align : Z }.

Record EnumStorageLayout : Type := mkStorage {
  st_size : Z;
  st_align : Z;
  st_slots : list EnumPayloadSlot;
}.

(** ** Alignment *)

Definition checked_align_up (size align : Z) : option Z :=
  if negb (is_power_of_two align) then None
  else s ← checked_u 64 (size + (align - 1)); Some (Z.land s (unot 64 (align - 1))).

(** [debug_assert!] and the unchecked additions panic. *)
Definition align_up (n align : Z) : outcome Z :=
  if negb (is_power_of_two align) then Panics
  else match checked_u 64 (n + align) with
       | None => Panics
       | Some s => Returns (Z.land (s - 1) (unot 64 (align - 1)))
       end.

(** ** Enum storage *)

(** The inner loop: the largest size and alignment at position [field], [None]
    when a variant's alignment is not a power of two. *)
Fixpoint position_need (variants : list (list (Z * Z))) (field : nat) (size align : Z) : option (Z * Z) :=
  match variants with
  | [] => Some (size, align)
  | variant :: variants =>
      match variant !! field with
      | Some (s, a) =>
          if negb (is_power_of_two a) then None
          else position_need variants field (Z.max size s) (Z.max align a)
      | None => position_need variants field size align
      end
  end.

(** One iteration of the outer loop. *)
Definition place_slot (variants : list (list (Z * Z))) (field : nat) (result : EnumStorageLayout)
    : option EnumStorageLayout :=
  need ← position_need variants field 0 1;
  size ← checked_align_up need.1 need.2;
  offset ← checked_align_up (st_size result) need.2;
  size' ← checked_u 64 (offset + size);
  Some (mkStorage size' (Z.max (st_align result) need.2)
          (st_slots result ++ [mkSlot offset size need.2])).

Fixpoint place_slots (variants : list (list (Z * Z))) (fields : list nat) (result : EnumStorageLayout)
    : option EnumStorageLayout :=
  match fields with
  | [] => Some result
  | f :: fields => r ← place_slot variants f result; place_slots variants fields r
  end.

(** The longest variant. *)
Definition max_fields (variants : list (list (Z * Z))) : nat :=
  foldr (fun v n => Nat.max (length v) n) 0%nat variants.

Definition enum_storage_layout (variants : list (list (Z * Z))) : option EnumStorageLayout :=
  result ← place_slots variants (seq 0 (max_fields variants)) (mkStorage 4 4 []);
  size ← checked_align_up (st_size result) (st_align result);
  Some (mkStorage size (st_align result) (st_slots result)).

Definition slot_anchor (align : Z) : option string :=
  match align with
  | 1 => Some "i8"
  | 2 => Some "i16"
  | 4 => Some "i32"
  | 8 => Some "i64"
  | 16 => Some "vector<2xi64>"
  | _ => None
  end.

Definition enum_slot_storage (slot : EnumPayloadSlot) : option string :=
  anchor ← slot_anchor (sl_align slot);
  if sl_size slot =? 0 then Some ("!llvm.array<0 x " +:+ anchor +:+ ">")%string
  else if negb (sl_size slot mod sl_align slot =? 0) then None
  else if sl_size slot =? sl_align slot then Some anchor
  else
    tail ← checked_u 64 (sl_size slot - sl_align slot);
    Some ("!llvm.struct<(" +:+ anchor +:+ ", !llvm.array<" +:+ pretty tail +:+ " x i8>)>")%string.

(** ** Scalars, vectors and fields *)

Definition scalar_size_align (et : ElementType) : option (Z * Z) :=
  bits ← ElementType_bits et;
  Some (div_ceil bits 8, div_ceil bits 8).

(** [usize::next_power_of_two]; its overflow above [2^63] panics. *)
Definition next_power_of_two (n : Z) : outcome Z :=
  let p := if n <=? 1 then 1 else 2 ^ Z.log2_up n in
  if in_u 64 p then Returns p else Panics.

Definition vector_size_align (el : ElementType) (lanes : nat) : outcome (option (Z * Z)) :=
  match lanes with
  | O => Returns None
  | _ =>
      bits ←?! ElementType_bits el;
      match checked_u 64 (bits * Z.of_nat lanes) with
      | None => Panics
      | Some total =>
          let size := div_ceil total 8 in
          align ←! next_power_of_two size;
          Returns (Some (size, align))
      end
  end.

Fixpoint structural_field_info (ty : Ty) : outcome (option (Z * Z * FieldTy)) :=
  match ty with
  | Scalar et => Returns (sa ← scalar_size_align et; Some (sa.1, sa.2, FScalar et))
  | BorrowTy inner _ _ _ =>
      match inner with
      | Tensor _ _ _ => structural_field_info inner
      | _ => Returns (Some (8, 8, FOpaque))
      end
  | Pointer _ _ _ | Ref _ _ | Function_ _ _ _ | Closure _ _ => Returns (Some (8, 8, FOpaque))
  | Tensor elem dims _ =>
      Returns match elem with
              | ElemGeneric _ => None
              | _ => Some (24 + 16 * Z.of_nat (length dims), 8, FTensor elem (length dims))
              end
  | Simd el n =>
      sa ←! vector_size_align el n;
      Returns (sa ← sa; Some (sa.1, sa.2, FVector el n))
  | Pinned inner _ | Verified inner => structural_field_info inner
  | _ => Returns None
  end.

(** ** The computer *)

#[export] Existing Instance Gid.TypeId_eq_dec.

#[export] Instance TypeId_countable : Countable Gid.TypeId.
Proof.
  refine (inj_countable'
    (fun t => (Gid.word0 t, Gid.word1 t, Gid.word2 t, Gid.word3 t))
    (fun p => match p with (a, b, c, d) => Gid.mkTypeId a b c d end) _).
  by intros [].
Defined.

(** The declarations: the fields of a struct, and the variants of an enum with
    their optional payload types. *)
Record Decls : Type := mkDecls {
  dc_structs : gmap Gid.TypeId (list (Symbol * Ty));
  dc_enums : gmap Gid.TypeId (list (Symbol * option (list Ty)));
}.

(** The part of the computer that changes. *)
Record Computer : Type := mkComputer {
  lc_memo : gmap Gid.TypeId (option TypeLayout);
  lc_visiting : gset Gid.TypeId;
}.

(** The nominal identity of a type without an identifier, and the layout of a
    generic struct at concrete arguments. *)
Class Resolver : Type := {
  resolve_base : Ty -> option Gid.TypeId;
  instance_of : Gid.TypeId -> list Ty -> option (Gid.TypeId * TypeLayout);
}.

(** A method of the computer: [None] when the fuel runs out. *)
Definition comp (A : Type) : Type := Computer -> option (outcome (A * Computer)).

Definition comp_ret {A} (a : A) : comp A := fun st => Some (Returns (a, st)).
Definition comp_lift {A} (o : outcome A) : comp A :=
  fun st => Some (a ←! o; Returns (a, st)).
Definition comp_bind {A B} (m : comp A) (f : A -> comp B) : comp B := fun st =>
  match m st with
  | None => None
  | Some Panics => Some Panics
  | Some (Returns (a, st)) => f a st
  end.

Notation "x ←& m ; k" := (comp_bind m (fun x => k))
  (at level 20, m at level 100, k at level 200, right associativity) : vx_scope.

Section computer.
Context `{Resolver} (decls : Decls).

(** [offset = foffset + fsize], unchecked in the source. *)
Definition add_usize (a b : Z) : outcome Z :=
  match checked_u 64 (a + b) with Some v => Returns v | None => Panics end.

(** [enum_layout]: a C-like enum is its [i32] discriminant. *)
Definition enum_layout (variants : list (Symbol * option (list Ty))) : option TypeLayout :=
  if existsb (fun v : Symbol * option (list Ty) =>
                match v.2 with Some (_ :: _) => true | _ => false end) variants
  then None else Some (mkTypeLayout 4 4 []).

Section fields.
(** The recursive call. *)
Context (layout_of : Gid.TypeId -> comp (option TypeLayout)).

Definition nominal_info (id : Gid.TypeId) : comp (option (Z * Z * FieldTy)) :=
  l ←& layout_of id;
  comp_ret ((fun l => (tl_size l, tl_align l, FNominal id)) <$> l).

(** The cases of [field_info] that [structural_field_info] does not answer. *)
Fixpoint nominal_field_info (ty : Ty) : comp (option (Z * Z * FieldTy)) :=
  match ty with
  | Pinned inner _ | Verified inner =>
      info ←& comp_lift (structural_field_info inner);
      match info with
      | Some i => comp_ret (Some i)
      | None => nominal_field_info inner
      end
  | Struct _ (Some id) | Enum _ (Some id) => nominal_info id
  | Struct _ None | Enum _ None =>
      match resolve_base ty with
      | None => comp_ret None
      | Some id => nominal_info id
      end
  | GenericInstance base args =>
      match resolve_base base with
      | None => comp_ret None
      | Some id =>
          l ←& layout_of id;
          match l with
          | Some l => comp_ret (Some (tl_size l, tl_align l, FNominal id))
          | None =>
              comp_ret (r ← instance_of id args; Some (tl_size r.2, tl_align r.2, FNominal r.1))
          end
      end
  | _ => comp_ret None
  end.

Definition field_info (ty : Ty) : comp (option (Z * Z * FieldTy)) :=
  info ←& comp_lift (structural_field_info ty);
  match info with
  | Some i => comp_ret (Some i)
  | None => nominal_field_info ty
  end.

(** The loop of [fields_layout]. *)
Fixpoint fields_loop (decl_fields : list (Symbol * Ty)) (offset align : Z) (fields : list FieldLayout)
    : comp (option TypeLayout) :=
  match decl_fields with
  | [] =>
      size ←& comp_lift (align_up offset align);
      comp_ret (Some (mkTypeLayout size align fields))
  | (name, ty) :: decl_fields =>
      info ←& field_info ty;
      match info with
      | None => comp_ret None
      | Some (fsize, falign, fty) =>
          foffset ←& comp_lift (align_up offset falign);
          offset' ←& comp_lift (add_usize foffset fsize);
          fields_loop decl_fields offset' (Z.max align falign)
            (fields ++ [mkFieldLayout name foffset fsize fty])
      end
  end.

Definition fields_layout (decl_fields : list (Symbol * Ty)) : comp (option TypeLayout) :=
  fields_loop decl_fields 0 1 [].

Definition compute (id : Gid.TypeId) : comp (option TypeLayout) :=
  match dc_structs decls !! id with
  | Some fields => fields_layout fields
  | None =>
      match dc_enums decls !! id with
      | Some variants => comp_ret (enum_layout variants)
      | None => comp_ret None
      end
  end.
End fields.

Definition set_visiting (f : gset Gid.TypeId -> gset Gid.TypeId) : comp () :=
  fun st => Some (Returns ((), mkComputer (lc_memo st) (f (lc_visiting st)))).
Definition memoize (id : Gid.TypeId) (l : option TypeLayout) : comp () :=
  fun st => Some (Returns ((), mkComputer (<[id := l]> (lc_memo st)) (lc_visiting st))).

Fixpoint layout_of (fuel : nat) (id : Gid.TypeId) : comp (option TypeLayout) := fun st =>
  match fuel with
  | O => None
  | S fuel =>
      match lc_memo st !! id with
      | Some cached => comp_ret cached st
      | None =>
          if decide (id ∈ lc_visiting st) then comp_ret None st
          else
            (_ ←& set_visiting (fun v => {[id]} ∪ v);
             result ←& compute (layout_of fuel) id;
             _ ←& set_visiting (fun v => v ∖ {[id]});
             _ ←& memoize id result;
             comp_ret result) st
      end
  end.

(** One level per declared type, and one for a type that is not declared. *)
Definition layout_fuel : nat := 2 + size (dom (dc_structs decls)).

Definition layout (id : Gid.TypeId) : comp (option TypeLayout) := layout_of layout_fuel id.
End computer.

(** ** Alignment lemmas *)

Lemma is_power_of_two_spec z : is_power_of_two z = true <-> exists k, 0 <= k /\ z = 2 ^ k.
Proof.
  unfold is_power_of_two. rewrite andb_true_iff, Z.ltb_lt, Z.eqb_eq. split.
  - intros [Hz He]. exists (Z.log2 z). split; [apply Z.log2_nonneg|done].
  - intros (k & Hk & ->). rewrite Z.log2_pow2 by done. split; [|done]. by apply Z.pow_pos_nonneg.
Qed.

(** Masking off the low bits rounds down. *)
Lemma land_align_down s k :
  0 <= k -> 0 <= s <= umax 64 -> Z.land s (unot 64 (2 ^ k - 1)) = s / 2 ^ k * 2 ^ k.
Proof.
  intros Hk Hs. rewrite <- Z.shiftr_div_pow2, <- Z.shiftl_mul_pow2 by done.
  replace (2 ^ k - 1) with (Z.ones k) by (rewrite Z.ones_equiv; lia).
  apply Z.bits_inj'. intros n Hn. rewrite Z.land_spec, testbit_unot, testbit_ones', testbit_shiftl by lia.
  destruct (Z.lt_ge_cases n k).
  - rewrite (Z.testbit_neg_r _ (n - k)) by lia.
    destruct (Z.lt_ge_cases n 64).
    + rewrite (proj2 (Z.ltb_lt n k)), (proj2 (Z.ltb_lt n 64)), (proj2 (Z.leb_le 0 n)) by lia. apply andb_false_r.
    + by rewrite (testbit_high 64 s n) by lia.
  - rewrite testbit_shiftr by lia. replace (n - k + k) with n by lia.
    rewrite (proj2 (Z.ltb_ge n k)) by lia. rewrite andb_false_r. simpl.
    destruct (Z.ltb_spec n 64); [apply andb_true_r|]. by rewrite (testbit_high 64 s n) by lia.
Qed.

Lemma align_down_div_ceil size align :
  0 < align -> (size + (align - 1)) / align * align = div_ceil size align * align.
Proof. intros. unfold div_ceil. do 2 f_equal. lia. Qed.

Lemma checked_align_up_spec size align r :
  0 <= size ->
  checked_align_up size align = Some r <->
  is_power_of_two align = true /\ size + (align - 1) <= umax 64 /\ r = div_ceil size align * align.
Proof.
  intros Hs. unfold checked_align_up. destruct (is_power_of_two align) eqn:Hp; simpl; [|naive_solver].
  apply is_power_of_two_spec in Hp as (k & Hk & ->). assert (0 < 2 ^ k) as Hpos by (by apply Z.pow_pos_nonneg).
  destruct (checked_u 64 (size + (2 ^ k - 1))) as [s|] eqn:E; simpl.
  - apply checked_u_Some in E as [<- Hr]. rewrite land_align_down, align_down_div_ceil by lia.
    naive_solver lia.
  - apply checked_u_None in E. split; [done|]. intros (_ & ? & _). lia.
Qed.

Lemma align_up_spec n align r :
  0 <= n -> align_up n align = Returns r ->
  is_power_of_two align = true /\ n + align <= umax 64 /\ r = div_ceil n align * align.
Proof.
  intros Hn. unfold align_up. destruct (is_power_of_two align) eqn:Hp; simpl; [|done].
  apply is_power_of_two_spec in Hp as (k & Hk & ->). assert (0 < 2 ^ k) as Hpos by (by apply Z.pow_pos_nonneg).
  destruct (checked_u 64 (n + 2 ^ k)) as [s|] eqn:E; [|done]. apply checked_u_Some in E as [<- Hr].
  rewrite land_align_down by lia. replace (n + 2 ^ k - 1) with (n + (2 ^ k - 1)) by lia.
  rewrite align_down_div_ceil by done. intros [= <-]. split_and!; [done|lia|done].
Qed.

(** What rounding up guarantees. *)
Lemma rounded_up n a r :
  0 < a -> r = div_ceil n a * a -> n <= r < n + a /\ (a | r).
Proof.
  intros Ha ->. pose proof (div_ceil_spec n a Ha). split; [lia|]. by exists (div_ceil n a).
Qed.

Lemma power_of_two_pos a : is_power_of_two a = true -> 0 < a.
Proof. intros (k & Hk & ->)%is_power_of_two_spec. by apply Z.pow_pos_nonneg. Qed.

(** Of two powers of two the smaller divides the larger. *)
Lemma power_of_two_divide a b :
  is_power_of_two a = true -> is_power_of_two b = true -> a <= b -> (a | b).
Proof.
  intros (j & Hj & ->)%is_power_of_two_spec (k & Hk & ->)%is_power_of_two_spec Hle.
  assert (j <= k) by (apply (Z.pow_le_mono_r_iff 2); lia).
  exists (2 ^ (k - j)). rewrite <- Z.pow_add_r by lia. f_equal. lia.
Qed.

Lemma power_of_two_max a b :
  is_power_of_two a = true -> is_power_of_two b = true -> is_power_of_two (Z.max a b) = true.
Proof. intros. destruct (Z.max_spec a b) as [[_ ->]|[_ ->]]; done. Qed.

(** [checked_align_up] rounds up exactly: it answers the least multiple of
    the alignment that is at least [size], and [None] only when the alignment
    is not a power of two or the rounding would leave [u64]. *)
Theorem align_up_least size align :
  0 <= size ->
  match checked_align_up size align with
  | Some r => is_power_of_two align = true /\ size <= r /\ (align | r) /\
              (forall m, size <= m -> (align | m) -> r <= m)
  | None => is_power_of_two align = false \/ umax 64 < size + (align - 1)
  end.
Proof.
  intros Hs. destruct (checked_align_up size align) as [r|] eqn:E.
  - apply checked_align_up_spec in E as (Hp & Hmax & Hr); [|done].
    pose proof (power_of_two_pos _ Hp) as Hpos. destruct (rounded_up size align r Hpos Hr) as [[Hle _] Hd].
    split_and!; try done. intros m Hm [q ->]. subst r.
    apply Z.mul_le_mono_nonneg_r; [lia|]. apply div_ceil_least; lia.
  - destruct (is_power_of_two align) eqn:Hp; [|by left]. right. apply Z.nle_gt. intros Hle.
    assert (checked_align_up size align = Some (div_ceil size align * align)) by (by apply checked_align_up_spec).
    congruence.
Qed.

Lemma align_up_least_witness : 13 <= 16 /\ (8 | 16).
Proof.
  pose proof (align_up_least 13 8 ltac:(lia)) as Hw.
  change (checked_align_up 13 8) with (Some 16) in Hw. split; [lia|apply Hw].
Defined.

(** ** Enum storage *)

Definition sizes_typed (variants : list (list (Z * Z))) : Prop :=
  Forall (Forall (fun f => 0 <= f.1 <= umax 64 /\ 0 <= f.2 <= umax 64)) variants.

Lemma position_need_spec variants field size align rs ra :
  position_need variants field size align = Some (rs, ra) -> is_power_of_two align = true ->
  is_power_of_two ra = true /\ size <= rs /\ align <= ra /\
  forall v s a, v ∈ variants -> v !! field = Some (s, a) -> is_power_of_two a = true /\ s <= rs /\ a <= ra.
Proof.
  revert size align. induction variants as [|v variants IH]; intros size align; simpl.
  { intros [= <- <-] Hp. split_and!; [done|lia|lia|set_solver]. }
  destruct (v !! field) as [[s a]|] eqn:Hv.
  - destruct (is_power_of_two a) eqn:Ha; simpl; [|done]. intros H Hp.
    apply IH in H as (Hra & Hs & Hal & Hall); [|by apply power_of_two_max].
    split_and!; [done|lia|lia|]. intros v' s' a' [->|Hin]%elem_of_cons Hf; [|eauto].
    rewrite Hv in Hf. injection Hf as <- <-. split_and!; [done|lia|lia].
  - intros H Hp. apply IH in H as (Hra & Hs & Hal & Hall); [|done]. split_and!; [done|lia|lia|].
    intros v' s' a' [->|Hin]%elem_of_cons Hf; [congruence|eauto].
Qed.

(** The slots placed so far: in order, apart, aligned, and below [st_size]. *)
Record storage_wf (r : EnumStorageLayout) : Prop := {
  wf_tag : 4 <= st_size r;
  wf_align : is_power_of_two (st_align r) = true;
  wf_tag_align : 4 <= st_align r;
  wf_slot : forall i s, st_slots r !! i = Some s ->
    is_power_of_two (sl_align s) = true /\ sl_align s <= st_align r /\ (sl_align s | sl_offset s) /\
    (sl_align s | sl_size s) /\ 0 <= sl_size s /\ 4 <= sl_offset s /\ sl_offset s + sl_size s <= st_size r;
  wf_apart : forall i j s t, (i < j)%nat -> st_slots r !! i = Some s -> st_slots r !! j = Some t ->
    sl_offset s + sl_size s <= sl_offset t;
}.

(** Slot [i] serves position [i] of every variant. *)
Definition slot_fits (variants : list (list (Z * Z))) (i : nat) (s : EnumPayloadSlot) : Prop :=
  forall v sz a, v ∈ variants -> v !! i = Some (sz, a) -> sz <= sl_size s /\ (a | sl_offset s).

Lemma place_slot_wf variants field r r' :
  place_slot variants field r = Some r' -> storage_wf r ->
  storage_wf r' /\ exists s, st_slots r' = st_slots r ++ [s] /\ slot_fits variants field s.
Proof.
  unfold place_slot. intros Hp Hwf.
  destruct (position_need variants field 0 1) as [[need_s need_a]|] eqn:En; simpl in Hp; [|done].
  apply position_need_spec in En as (Hpa & Hns & Hna & Hall); [|done].
  pose proof (power_of_two_pos _ Hpa) as Hpos. destruct Hwf as [Htag Hal Hta Hslot Hap].
  destruct (checked_align_up need_s need_a) as [size|] eqn:Es; simpl in Hp; [|done].
  apply checked_align_up_spec in Es as (_ & _ & Es); [|lia].
  destruct (checked_align_up (st_size r) need_a) as [off|] eqn:Eo; simpl in Hp; [|done].
  apply checked_align_up_spec in Eo as (_ & _ & Eo); [|lia].
  destruct (checked_u 64 (off + size)) as [size'|] eqn:Ec; simpl in Hp; [|done].
  apply checked_u_Some in Ec as [<- Hc]. injection Hp as <-.
  destruct (rounded_up _ _ _ Hpos Es) as [Hs1 Hs2]. destruct (rounded_up _ _ _ Hpos Eo) as [Ho1 Ho2].
  split.
  - constructor; simpl; [lia|by apply power_of_two_max|lia| |].
    + intros i s Hs. apply lookup_app_Some in Hs as [Hs|[_ Hs]].
      * destruct (Hslot i s Hs) as (?&?&?&?&?&?&?). split_and!; try done; lia.
      * apply list_lookup_singleton_Some in Hs as [_ <-]. simpl. split_and!; try done; lia.
    + intros i j s t Hij Hs Ht. apply lookup_app_Some in Ht as [Ht|[Hlen Ht]].
      * assert (st_slots r !! i = Some s) as Hs'.
        { apply lookup_app_Some in Hs as [|[Hge _]]; [done|]. apply lookup_lt_Some in Ht. lia. }
        by eapply Hap.
      * apply list_lookup_singleton_Some in Ht as [Hj <-]. simpl.
        apply lookup_app_Some in Hs as [Hs|[Hge Hs]]; [|apply list_lookup_singleton_Some in Hs as [? _]; lia].
        destruct (Hslot i s Hs) as (_&_&_&_&_&_&?). lia.
  - eexists. split; [done|]. intros v sz a Hv Hf. destruct (Hall v sz a Hv Hf) as (Ha & Hsz & Hle). simpl.
    split; [lia|]. apply Z.divide_trans with need_a; [by apply power_of_two_divide|done].
Qed.

Lemma place_slots_wf variants n m r r' :
  place_slots variants (seq n m) r = Some r' -> storage_wf r -> length (st_slots r) = n ->
  (forall i s, st_slots r !! i = Some s -> slot_fits variants i s) ->
  storage_wf r' /\ length (st_slots r') = (n + m)%nat /\
  forall i s, st_slots r' !! i = Some s -> slot_fits variants i s.
Proof.
  revert n r. induction m as [|m IH]; intros n r; simpl.
  { intros [= <-] Hwf Hlen Hfit. split_and!; [done|lia|done]. }
  destruct (place_slot variants n r) as [r1|] eqn:E; simpl; [|done]. intros Hp Hwf Hlen Hfit.
  destruct (place_slot_wf _ _ _ _ E Hwf) as (Hwf1 & s1 & Hs1 & Hf1).
  destruct (IH (S n) r1 Hp Hwf1) as (Hwf' & Hlen' & Hfit').
  - rewrite Hs1, length_app. simpl. lia.
  - intros i s. rewrite Hs1. intros [Hs|[Hge Hs]]%lookup_app_Some; [by apply Hfit|].
    apply list_lookup_singleton_Some in Hs as [Hi <-]. replace i with n by lia. done.
  - split_and!; [done|lia|done].
Qed.

Lemma max_fields_ge variants v : v ∈ variants -> (length v <= max_fields variants)%nat.
Proof. induction variants as [|w ws IH]; [set_solver|]. intros [->|Hv]%elem_of_cons; simpl; [lia|]. apply IH in Hv. lia. Qed.

(** C35. Enum storage is sound: every payload of every variant has a slot that
    is large enough and placed at a multiple of the payload's alignment; slots
    follow the four-byte tag, do not overlap and lie within the storage; and
    the size is a multiple of the storage's alignment, which is at least every
    slot's. *)
Theorem enum_storage_sound variants r :
  enum_storage_layout variants = Some r ->
  (forall v i sz a, v ∈ variants -> v !! i = Some (sz, a) ->
     exists s, st_slots r !! i = Some s /\ sz <= sl_size s /\ (a | sl_offset s)) /\
  (forall i s, st_slots r !! i = Some s ->
     4 <= sl_offset s /\ sl_offset s + sl_size s <= st_size r /\ sl_align s <= st_align r /\
     (sl_align s | st_align r)) /\
  (forall i j s t, (i < j)%nat -> st_slots r !! i = Some s -> st_slots r !! j = Some t ->
     sl_offset s + sl_size s <= sl_offset t) /\
  (st_align r | st_size r) /\ is_power_of_two (st_align r) = true.
Proof.
  unfold enum_storage_layout. intros H.
  destruct (place_slots variants _ _) as [r0|] eqn:E; simpl in H; [|done].
  apply place_slots_wf in E as (Hwf & Hlen & Hfit); [| |done|done].
  2: { constructor; simpl; try done; try lia. }
  destruct (checked_align_up _ _) as [size|] eqn:Es; simpl in H; [|done]. injection H as <-. simpl.
  destruct Hwf as [Htag Hal Hta Hslot Hap].
  apply checked_align_up_spec in Es as (_ & _ & Es); [|lia].
  destruct (rounded_up _ _ _ (power_of_two_pos _ Hal) Es) as [Hr1 Hr2]. split_and!; try done.
  - intros v i sz a Hv Hi. destruct (st_slots r0 !! i) as [s|] eqn:Hs.
    + exists s. split; [done|]. by eapply Hfit.
    + apply lookup_ge_None in Hs. apply lookup_lt_Some in Hi. apply max_fields_ge in Hv. lia.
  - intros i s Hs. destruct (Hslot i s Hs) as (?&?&?&?&?&?&?).
    split_and!; try done; try lia. by apply power_of_two_divide.
Qed.

Definition demo_variants : list (list (Z * Z)) := [[(1, 1); (8, 8)]; [(4, 4)]; []].

Lemma enum_storage_sound_witness :
  exists r, enum_storage_layout demo_variants = Some r /\ (st_align r | st_size r) /\ st_size r = 16.
Proof.
  destruct (enum_storage_layout demo_variants) as [r|] eqn:E; [|vm_compute in E; discriminate].
  exists r. split; [reflexivity|]. split; [apply (enum_storage_sound demo_variants r E)|].
  vm_compute in E. injection E as <-. reflexivity.
Defined.

(** ** Struct layouts *)

Lemma element_bits_pow8 e b : ElementType_bits e = Some b -> is_power_of_two (div_ceil b 8) = true /\ 0 <= div_ceil b 8.
Proof. destruct e; simpl; intros [= <-]; by vm_compute. Qed.

Definition info_ok (i : Z * Z * FieldTy) : Prop :=
  0 <= i.1.1 /\ is_power_of_two i.1.2 = true /\
  forall e, i.2 = FScalar e -> scalar_size_align e = Some (i.1.1, i.1.2).

Lemma next_power_of_two_pow n r : next_power_of_two n = Returns r -> is_power_of_two r = true.
Proof.
  unfold next_power_of_two. destruct (in_u 64 _); [|done]. intros [= <-].
  destruct (n <=? 1); [done|]. apply is_power_of_two_spec. exists (Z.log2_up n).
  split; [apply Z.log2_up_nonneg|done].
Qed.

Lemma structural_field_info_ok ty i : structural_field_info ty = Returns (Some i) -> info_ok i.
Proof.
  revert i. induction ty as [e ds p| |inner IH m|inner IH ms mu rg|inner IH p mu|e|n id|n id|inner IH|inner IH t|n id|b IHb args|pa ex|e n|ps r IHr u|ps r IHr|ex|]; intros i; simpl; try done.
  - assert (0 <= 24 + 16 * Z.of_nat (length ds)) by lia. destruct e; intros [= <-]; done.
  - by intros [= <-].
  - destruct inner; try (by intros [= <-]). apply IH.
  - by intros [= <-].
  - unfold scalar_size_align. destruct (ElementType_bits e) as [b|] eqn:E; simpl; [|done].
    destruct (element_bits_pow8 e b E). intros [= <-]. split_and!; [done|done|].
    intros e' [= <-]. unfold scalar_size_align. by rewrite E.
  - apply IH.
  - apply IH.
  - destruct (vector_size_align e n) as [[[s a]|]|] eqn:E; simpl; [|done|done]. intros [= <-].
    unfold vector_size_align in E. destruct n as [|n]; [done|].
    destruct (ElementType_bits e) as [b|]; [|done].
    destruct (checked_u 64 _) as [total|] eqn:Et; [|done]. apply checked_u_Some in Et as [<- Ht].
    destruct (next_power_of_two _) as [al|] eqn:Ea; simpl in E; [|done]. injection E as <- <-.
    apply next_power_of_two_pow in Ea. split_and!; simpl; [apply div_ceil_nonneg; lia|done|done].
  - by intros [= <-].
  - by intros [= <-].
Qed.

(** A field at its natural alignment; a scalar has its own size. *)
Definition field_ok (offset_end : Z) (f : FieldLayout) : Prop :=
  0 <= fl_offset f /\ 0 <= fl_size f /\ fl_offset f + fl_size f <= offset_end /\
  forall e, fl_ty f = FScalar e -> exists a, scalar_size_align e = Some (fl_size f, a) /\ (a | fl_offset f).

Record fields_ok (offset_end : Z) (fields : list FieldLayout) : Prop := {
  fo_field : forall i f, fields !! i = Some f -> field_ok offset_end f;
  fo_apart : forall i j f f', (i < j)%nat -> fields !! i = Some f -> fields !! j = Some f' ->
    fl_offset f + fl_size f <= fl_offset f';
}.

Record layout_ok (l : TypeLayout) : Prop := {
  lo_size : 0 <= tl_size l;
  lo_align : is_power_of_two (tl_align l) = true;
  lo_multiple : (tl_align l | tl_size l);
  lo_fields : fields_ok (tl_size l) (tl_fields l);
}.

Lemma fields_ok_mono o o' fs : o <= o' -> fields_ok o fs -> fields_ok o' fs.
Proof.
  intros Ho [Hf Ha]. constructor; [|done]. intros i f Hi. destruct (Hf i f Hi) as (?&?&?&?).
  split_and!; try done; lia.
Qed.

Lemma fields_ok_snoc o fs f o' :
  fields_ok o fs -> o <= fl_offset f -> 0 <= o -> fl_offset f + fl_size f = o' -> field_ok o' f ->
  fields_ok o' (fs ++ [f]).
Proof.
  intros [Hf Ha] Ho H0 Ho' Hok. destruct Hok as (?&?&?&?). constructor.
  - intros i g [Hg|[_ Hg]]%lookup_app_Some.
    + destruct (Hf i g Hg) as (?&?&?&?). split_and!; try done; lia.
    + apply list_lookup_singleton_Some in Hg as [_ <-]. done.
  - intros i j g g' Hij Hg Hg'. apply lookup_app_Some in Hg' as [Hg'|[Hlen Hg']].
    + apply lookup_app_Some in Hg as [Hg|[Hge _]]; [by eapply Ha|]. apply lookup_lt_Some in Hg'. lia.
    + apply list_lookup_singleton_Some in Hg' as [Hj <-].
      apply lookup_app_Some in Hg as [Hg|[Hge Hg]]; [|apply list_lookup_singleton_Some in Hg as [? _]; lia].
      destruct (Hf i g Hg) as (?&?&?&?). lia.
Qed.

Section computer_proofs.
Context `{Resolver} (decls : Decls).

(** What the computer may assume of generic instances. *)
Context (Hinst : forall id args r, instance_of id args = Some r -> layout_ok r.2).

Definition opt_ok {A} (P : A -> Prop) (o : option A) : Prop := forall a, o = Some a -> P a.

(** The state between calls: the visiting set is [V] and finished layouts are
    sound. *)
Definition st_inv (V : gset Gid.TypeId) (st : Computer) : Prop :=
  lc_visiting st = V /\ forall id l, lc_memo st !! id = Some (Some l) -> layout_ok l.

(** [m] does not run out of fuel, keeps the state invariant and, unless it
    panics, returns a value of [P]. *)
Definition comp_ok {A} (V : gset Gid.TypeId) (P : A -> Prop) (m : comp A) : Prop :=
  forall st, st_inv V st ->
    match m st with
    | None => False
    | Some Panics => True
    | Some (Returns (a, st')) => st_inv V st' /\ P a
    end.

Lemma comp_ok_ret {A} V (P : A -> Prop) a : P a -> comp_ok V P (comp_ret a).
Proof. intros Ha st Hst. done. Qed.

Lemma comp_ok_lift {A} V (P : A -> Prop) (o : outcome A) :
  (forall a, o = Returns a -> P a) -> comp_ok V P (comp_lift o).
Proof. intros Ha st Hst. unfold comp_lift. destruct o; simpl; [|done]. auto. Qed.

Lemma comp_ok_bind {A B} V (P : A -> Prop) (Q : B -> Prop) (m : comp A) (f : A -> comp B) :
  comp_ok V P m -> (forall a, P a -> comp_ok V Q (f a)) -> comp_ok V Q (comp_bind m f).
Proof.
  intros Hm Hf st Hst. unfold comp_bind. specialize (Hm st Hst).
  destruct (m st) as [[[a st']|]|]; [|done|done]. destruct Hm. by apply Hf.
Qed.

Section fields_proofs.
Context (V : gset Gid.TypeId) (lo : Gid.TypeId -> comp (option TypeLayout)).
Context (Hlo : forall id, comp_ok V (opt_ok layout_ok) (lo id)).

Lemma nominal_info_ok id : comp_ok V (opt_ok info_ok) (nominal_info lo id).
Proof.
  apply (comp_ok_bind V (opt_ok layout_ok)); [apply Hlo|]. intros l Hl. apply comp_ok_ret.
  intros i Hi. destruct l as [l|]; [|done]. injection Hi as <-. destruct (Hl l eq_refl). by split_and!.
Qed.

Lemma structural_ok ty :
  comp_ok V (opt_ok info_ok) (comp_lift (structural_field_info ty)).
Proof. apply comp_ok_lift. intros o Ho i ->. by eapply structural_field_info_ok. Qed.

Lemma nominal_field_info_ok ty : comp_ok V (opt_ok info_ok) (nominal_field_info lo ty).
Proof.
  assert (comp_ok V (opt_ok info_ok) (comp_ret None)) as Hnone by (by apply comp_ok_ret).
  induction ty as [e ds p| |inner IH m|inner IH ms mu rg|inner IH p mu|e|n id|n id|inner IH|inner IH t|n id|b IHb args|pa ex|e n|ps r IHr u|ps r IHr|ex|]; cbn [nominal_field_info]; try exact Hnone.
  - destruct id; [apply nominal_info_ok|]. case_match; [apply nominal_info_ok|done].
  - destruct id; [apply nominal_info_ok|]. case_match; [apply nominal_info_ok|done].
  - eapply comp_ok_bind; [apply structural_ok|]. intros [i|] Hi; [by apply comp_ok_ret|apply IH].
  - eapply comp_ok_bind; [apply structural_ok|]. intros [i|] Hi; [by apply comp_ok_ret|apply IH].
  - destruct (resolve_base b) as [id|]; [|done].
    apply (comp_ok_bind V (opt_ok layout_ok)); [apply Hlo|]. intros [l|] Hl; apply comp_ok_ret; intros i.
    + intros [= <-]. destruct (Hl l eq_refl). by split_and!.
    + destruct (instance_of id args) as [r|] eqn:Er; simpl; [|done]. intros [= <-].
      destruct (Hinst _ _ _ Er). by split_and!.
Qed.

Lemma field_info_ok ty : comp_ok V (opt_ok info_ok) (field_info lo ty).
Proof.
  eapply comp_ok_bind; [apply structural_ok|].
  intros [i|] Hi; [by apply comp_ok_ret|apply nominal_field_info_ok].
Qed.

Lemma fields_loop_ok fs offset align fields :
  0 <= offset -> is_power_of_two align = true -> fields_ok offset fields ->
  comp_ok V (opt_ok layout_ok) (fields_loop lo fs offset align fields).
Proof.
  revert offset align fields. induction fs as [|[name ty] fs IH]; intros offset align fields Ho Ha Hf.
  - cbn [fields_loop].
    apply (comp_ok_bind V (fun size => size = div_ceil offset align * align)).
    + apply comp_ok_lift. intros r Hr. by apply align_up_spec in Hr as (_ & _ & ->).
    + intros size Hs. apply comp_ok_ret. intros l [= <-].
      destruct (rounded_up _ _ _ (power_of_two_pos _ Ha) Hs) as [Hr Hd].
      constructor; simpl; [lia|done|done|]. eapply fields_ok_mono; [|done]. lia.
  - cbn [fields_loop]. eapply comp_ok_bind; [apply field_info_ok|].
    intros [[[fsize falign] fty]|] Hi; [|by apply comp_ok_ret].
    destruct (Hi _ eq_refl) as (Hsz & Hal & Hsc). simpl in *.
    apply (comp_ok_bind V (fun o => o = div_ceil offset falign * falign)).
    { apply comp_ok_lift. intros r Hr. by apply align_up_spec in Hr as (_ & _ & ->). }
    intros foffset Hfo. destruct (rounded_up _ _ _ (power_of_two_pos _ Hal) Hfo) as [Hr Hd].
    apply (comp_ok_bind V (fun o => o = foffset + fsize)).
    { apply comp_ok_lift. intros r. unfold add_usize.
      destruct (checked_u 64 (foffset + fsize)) as [x|] eqn:E; [|done].
      apply checked_u_Some in E as [<- _]. by intros [= <-]. }
    intros offset' ->. apply IH; [lia|by apply power_of_two_max|].
    eapply fields_ok_snoc; [done|simpl; lia|lia|done|].
    split_and!; simpl; [lia|done|lia|]. intros e ->. exists falign. split; [by apply Hsc|done].
Qed.

Lemma enum_layout_ok vs : opt_ok layout_ok (enum_layout vs).
Proof.
  unfold enum_layout. intros l. case_match; [done|]. intros [= <-].
  constructor; simpl; [lia|done|by exists 1|]. constructor; done.
Qed.

Lemma compute_ok id : comp_ok V (opt_ok layout_ok) (compute decls lo id).
Proof.
  unfold compute. case_match.
  - apply fields_loop_ok; [lia|done|]. constructor; done.
  - case_match; apply comp_ok_ret; [apply enum_layout_ok|done].
Qed.
End fields_proofs.

(** An undeclared struct is computed without a recursive call. *)
Lemma compute_leaf_ok V lo id :
  id ∉ dom (dc_structs decls) -> comp_ok V (opt_ok layout_ok) (compute decls lo id).
Proof.
  intros Hid. unfold compute. rewrite (not_elem_of_dom_1 _ _ Hid).
  case_match; apply comp_ok_ret; [apply enum_layout_ok|done].
Qed.

Lemma layout_of_ok fuel V id :
  (size (dom (dc_structs decls) ∖ V) < fuel)%nat ->
  comp_ok V (opt_ok layout_ok) (layout_of decls fuel id).
Proof.
  revert V id. induction fuel as [|fuel IH]; intros V id Hf; [lia|]. intros st [HV Hm]. cbn [layout_of].
  destruct (lc_memo st !! id) as [cached|] eqn:Hc.
  { split; [done|]. intros l ->. eauto. }
  case_decide as Hvis; [by split|].
  assert (comp_ok ({[id]} ∪ V) (opt_ok layout_ok) (compute decls (layout_of decls fuel) id)) as Hcomp.
  { destruct (decide (id ∈ dom (dc_structs decls))) as [Hd|Hd]; [|by apply compute_leaf_ok].
    apply compute_ok. intros id'. apply IH. rewrite HV in Hvis.
    assert (size (dom (dc_structs decls) ∖ ({[id]} ∪ V)) < size (dom (dc_structs decls) ∖ V))%nat; [|lia].
    apply subset_size. set_solver. }
  unfold comp_bind at 1. cbn [set_visiting].
  unfold comp_bind at 1. specialize (Hcomp (mkComputer (lc_memo st) ({[id]} ∪ lc_visiting st))).
  destruct (compute _ _ _ _) as [[[res st']|]|]; [| done|apply Hcomp; split; [by rewrite HV|done]].
  destruct Hcomp as [[HV' Hm'] Hres]; [split; [by rewrite HV|done]|].
  cbn. split; [|done]. split; cbn.
  - rewrite HV'. rewrite HV in Hvis. set_solver.
  - intros id' l. rewrite lookup_insert_Some. intros [[<- ->]|[_ Hl]]; eauto.
Qed.

End computer_proofs.

(** A resolver without generic instances: a nominal is the identifier attached
    to it. *)
#[export] Instance attached_resolver : Resolver := {|
  resolve_base ty := match ty with Struct _ id | Enum _ id => id | _ => None end;
  instance_of id args := None;
|}.

Definition id_of (n : Z) : Gid.TypeId := Gid.new n n 0 0.

(** [Inner { a : i8, b : i64 }], [Outer { i : Inner, p : *mut Outer, c : bool }]
    and the by-value cycle [Loop { l : Loop }]. *)
Definition demo_decls : Decls :=
  mkDecls
    (list_to_map
       [(id_of 1, [("a", Scalar I8); ("b", Scalar I64)]);
        (id_of 2, [("i", Struct "Inner" (Some (id_of 1))); ("p", Pointer (Struct "Outer" None) None true);
                   ("c", Scalar Bool)]);
        (id_of 3, [("l", Struct "Loop" (Some (id_of 3)))])]) ∅.

Example demo_outer :
  exists st, layout demo_decls (id_of 2) (mkComputer ∅ ∅)
  = Some (Returns (Some (mkTypeLayout 32 8
      [mkFieldLayout "i" 0 16 (FNominal (id_of 1)); mkFieldLayout "p" 16 8 FOpaque;
       mkFieldLayout "c" 24 1 (FScalar Bool)]), st)).
Proof. vm_compute. eauto. Qed.

