(* ===== verification/Lexer.v ===== *)
(** * The lexer ([src/src/lexer.rs])

    A [&str] is its list of characters.  The lexer's position is what remains of
    the source: [Peekable<CharIndices>] is the remaining text, and a byte offset
    taken at a position stands for that position, so a slice
    [source[start..end]] is the text [between] two positions and a length is its
    UTF-8 length.  Every loop consumes characters and is structural on the
    remaining text; only [tokenize], which calls [next_token], runs on fuel, one
    more than the number of characters ([tokenize_total]).

    [char::is_alphabetic] and [is_numeric] are Unicode tables of the standard
    library and are the class [Unicode], with what it says of ASCII, and that no
    blank is a letter or a digit, as its laws.
    [char::is_whitespace] is the White_Space property, which is short enough to
    be written out. *)

From stdpp Require Import base list strings.
From Stdlib Require Import ZArith Lia Ascii.
From S2P Require Import Prelude.
Open Scope Z_scope.

(** ** Characters *)

Fixpoint chars (s : string) : list char :=
  match s with
  | EmptyString => []
  | String c s => Z.of_nat (nat_of_ascii c) :: chars s
  end.

(** The character of a one-character string. *)
Definition ch (s : string) : char := match chars s with c :: _ => c | [] => 0 end.

Definition quote : char := 34.
Definition newline : char := 10.

Definition is_digit (c : char) : bool := (48 <=? c) && (c <=? 57).
Definition is_letter (c : char) : bool := ((65 <=? c) && (c <=? 90)) || ((97 <=? c) && (c <=? 122)).

(** [char::is_whitespace]. *)
Definition is_whitespace (c : char) : bool :=
  ((9 <=? c) && (c <=? 13)) || (c =? 32) || (c =? 0x85) || (c =? 0xA0) || (c =? 0x1680)
  || ((0x2000 <=? c) && (c <=? 0x200A)) || (c =? 0x2028) || (c =? 0x2029) || (c =? 0x202F)
  || (c =? 0x205F) || (c =? 0x3000).

Class Unicode : Type := {
  is_alphabetic : char -> bool;
  is_numeric : char -> bool;
  is_alphabetic_ascii c : 0 <= c < 128 -> is_alphabetic c = is_letter c;
  is_numeric_ascii c : 0 <= c < 128 -> is_numeric c = is_digit c;
  whitespace_not_alphanumeric c : is_whitespace c = true -> is_alphabetic c = false /\ is_numeric c = false;
}.

Lemma whitespace_not_ascii_word c : is_whitespace c = true -> is_letter c = false /\ is_digit c = false.
Proof. unfold is_whitespace, is_letter, is_digit. lia. Qed.

#[export] Instance ascii_unicode : Unicode := {|
  is_alphabetic := is_letter;
  is_numeric := is_digit;
  is_alphabetic_ascii c _ := eq_refl;
  is_numeric_ascii c _ := eq_refl;
  whitespace_not_alphanumeric := whitespace_not_ascii_word;
|}.

(** ** Tokens *)

Inductive TokenTypeBase (S C : Type) : Type :=
| TFn | TLet | TMut | TFor | TIn | TIf | TElse | TLoop | TWhile | TBreak | TContinue | TReturn
| TSpawn | TTasks | TOn | TWhere | TTransfer | TTransferAsync | TUnroll | TAcross | TMatch
| TStruct | TUnsafe | TSafe | TExtern | TPub | TTrait | TTypeKw | TImpl | TComptime | TImport
| TAssert | TEnum | TAs | TGrad | TVjp | TJvp | TRequires | TEnsures | TInvariant | TMacroRules
| TTopology | TMemory | TRef | TVerified | TPinned | THardwareState
| TIdentifier (s : S)
| TNumber (s : S)
| TStringLiteral (s : C)
| TLeftParen | TRightParen | TLeftBrace | TRightBrace | TLeftBracket | TRightBracket
| TLeftAngle | TRightAngle | TColon | TDoubleColon | TSemicolon | TComma | TEquals | TPlusEquals
| TMinusEquals | TStarEquals | TSlashEquals | TPercentEquals | TAmpersandEquals | TPipeEquals
| TCaretEquals | TArrow | TFatArrow | TPlus | TMinus | TStar | TSlash | TPercent | TDot
| TDoubleDot | TAmpersand | TCaret | TAt | TDollar | TQuestion | TEqEq | TNotEq | TLessEq
| TGreaterEq | TAndAnd | TOrOr | TBang | TPipe | TEof
| TUnknown (c : char)
| TComment (s : S)
| TDocComment (s : S)
| TWhitespace (s : S).

Arguments TFn {S C}.
Arguments TLet {S C}.
Arguments TMut {S C}.
Arguments TFor {S C}.
Arguments TIn {S C}.
Arguments TIf {S C}.
Arguments TElse {S C}.
Arguments TLoop {S C}.
Arguments TWhile {S C}.
Arguments TBreak {S C}.
Arguments TContinue {S C}.
Arguments TReturn {S C}.
Arguments TSpawn {S C}.
Arguments TTasks {S C}.
Arguments TOn {S C}.
Arguments TWhere {S C}.
Arguments TTransfer {S C}.
Arguments TTransferAsync {S C}.
Arguments TUnroll {S C}.
Arguments TAcross {S C}.
Arguments TMatch {S C}.
Arguments TStruct {S C}.
Arguments TUnsafe {S C}.
Arguments TSafe {S C}.
Arguments TExtern {S C}.
Arguments TPub {S C}.
Arguments TTrait {S C}.
Arguments TTypeKw {S C}.
Arguments TImpl {S C}.
Arguments TComptime {S C}.
Arguments TImport {S C}.
Arguments TAssert {S C}.
Arguments TEnum {S C}.
Arguments TAs {S C}.
Arguments TGrad {S C}.
Arguments TVjp {S C}.
Arguments TJvp {S C}.
Arguments TRequires {S C}.
Arguments TEnsures {S C}.
Arguments TInvariant {S C}.
Arguments TMacroRules {S C}.
Arguments TTopology {S C}.
Arguments TMemory {S C}.
Arguments TRef {S C}.
Arguments TVerified {S C}.
Arguments TPinned {S C}.
Arguments THardwareState {S C}.
Arguments TIdentifier {S C} _.
Arguments TNumber {S C} _.
Arguments TStringLiteral {S C} _.
Arguments TLeftParen {S C}.
Arguments TRightParen {S C}.
Arguments TLeftBrace {S C}.
Arguments TRightBrace {S C}.
Arguments TLeftBracket {S C}.
Arguments TRightBracket {S C}.
Arguments TLeftAngle {S C}.
Arguments TRightAngle {S C}.
Arguments TColon {S C}.
Arguments TDoubleColon {S C}.
Arguments TSemicolon {S C}.
Arguments TComma {S C}.
Arguments TEquals {S C}.
Arguments TPlusEquals {S C}.
Arguments TMinusEquals {S C}.
Arguments TStarEquals {S C}.
Arguments TSlashEquals {S C}.
Arguments TPercentEquals {S C}.
Arguments TAmpersandEquals {S C}.
Arguments TPipeEquals {S C}.
Arguments TCaretEquals {S C}.
Arguments TArrow {S C}.
Arguments TFatArrow {S C}.
Arguments TPlus {S C}.
Arguments TMinus {S C}.
Arguments TStar {S C}.
Arguments TSlash {S C}.
Arguments TPercent {S C}.
Arguments TDot {S C}.
Arguments TDoubleDot {S C}.
Arguments TAmpersand {S C}.
Arguments TCaret {S C}.
Arguments TAt {S C}.
Arguments TDollar {S C}.
Arguments TQuestion {S C}.
Arguments TEqEq {S C}.
Arguments TNotEq {S C}.
Arguments TLessEq {S C}.
Arguments TGreaterEq {S C}.
Arguments TAndAnd {S C}.
Arguments TOrOr {S C}.
Arguments TBang {S C}.
Arguments TPipe {S C}.
Arguments TEof {S C}.
Arguments TUnknown {S C} _.
Arguments TComment {S C} _.
Arguments TDocComment {S C} _.
Arguments TWhitespace {S C} _.

(** Texts: a borrowed slice, and an owned [Symbol] or [String]. *)
Record Owned : Type := mkOwned { owned_text : list char }.

Class Display (A : Type) : Type := to_text : A -> list char.
#[export] Instance display_str : Display (list char) := fun s => s.
#[export] Instance display_owned : Display Owned := owned_text.

(** [impl Display for TokenTypeBase]. *)
Definition display {S C : Type} `{Display S} `{Display C} (k : TokenTypeBase S C) : list char :=
  match k with
  | TFn => chars "fn"
  | TLet => chars "let"
  | TMut => chars "mut"
  | TFor => chars "for"
  | TIn => chars "in"
  | TIf => chars "if"
  | TElse => chars "else"
  | TLoop => chars "loop"
  | TWhile => chars "while"
  | TBreak => chars "break"
  | TContinue => chars "continue"
  | TReturn => chars "return"
  | TSpawn => chars "spawn"
  | TTasks => chars "tasks"
  | TOn => chars "on"
  | TWhere => chars "where"
  | TTransfer => chars "transfer"
  | TTransferAsync => chars "transfer_async"
  | TUnroll => chars "unroll"
  | TAcross => chars "across"
  | TMatch => chars "match"
  | TStruct => chars "struct"
  | TUnsafe => chars "unsafe"
  | TSafe => chars "safe"
  | TExtern => chars "extern"
  | TPub => chars "pub"
  | TTrait => chars "trait"
  | TTypeKw => chars "type"
  | TImpl => chars "impl"
  | TComptime => chars "comptime"
  | TImport => chars "import"
  | TAssert => chars "assert"
  | TEnum => chars "enum"
  | TAs => chars "as"
  | TGrad => chars "grad"
  | TVjp => chars "vjp"
  | TJvp => chars "jvp"
  | TRequires => chars "requires"
  | TEnsures => chars "ensures"
  | TInvariant => chars "invariant"
  | TTopology => chars "Topology"
  | TMemory => chars "Memory"
  | TRef => chars "Ref"
  | TVerified => chars "Verified"
  | TPinned => chars "Pinned"
  | THardwareState => chars "HardwareState"
  | TMacroRules => chars "macro_rules"
  | TIdentifier s => to_text s
  | TNumber s => to_text s
  | TStringLiteral s => quote :: to_text s ++ [quote]
  | TLeftParen => chars "("
  | TRightParen => chars ")"
  | TLeftBrace => chars "{"
  | TRightBrace => chars "}"
  | TLeftBracket => chars "["
  | TRightBracket => chars "]"
  | TLeftAngle => chars "<"
  | TRightAngle => chars ">"
  | TColon => chars ":"
  | TDoubleColon => chars "::"
  | TSemicolon => chars ";"
  | TComma => chars ","
  | TEquals => chars "="
  | TPlusEquals => chars "+="
  | TMinusEquals => chars "-="
  | TStarEquals => chars "*="
  | TSlashEquals => chars "/="
  | TPercentEquals => chars "%="
  | TAmpersandEquals => chars "&="
  | TPipeEquals => chars "|="
  | TCaretEquals => chars "^="
  | TArrow => chars "->"
  | TFatArrow => chars "=>"
  | TPlus => chars "+"
  | TMinus => chars "-"
  | TStar => chars "*"
  | TSlash => chars "/"
  | TPercent => chars "%"
  | TDot => chars "."
  | TDoubleDot => chars ".."
  | TAmpersand => chars "&"
  | TCaret => chars "^"
  | TAt => chars "@"
  | TDollar => chars "$"
  | TQuestion => chars "?"
  | TEqEq => chars "=="
  | TNotEq => chars "!="
  | TLessEq => chars "<="
  | TGreaterEq => chars ">="
  | TAndAnd => chars "&&"
  | TOrOr => chars "||"
  | TBang => chars "!"
  | TPipe => chars "|"
  | TComment s => to_text s
  | TDocComment s => to_text s
  | TWhitespace s => to_text s
  | TUnknown c => [c]
  | TEof => chars ""
  end.

Definition is_keyword {S C : Type} (k : TokenTypeBase S C) : bool :=
  match k with
  | TFn | TLet | TMut | TFor | TIn | TIf | TElse | TLoop | TWhile | TBreak | TContinue
  | TReturn | TSpawn | TTasks | TOn | TWhere | TTransfer | TTransferAsync | TUnroll | TAcross
  | TMatch | TStruct | TUnsafe | TSafe | TExtern | TPub | TTrait | TTypeKw | TImpl | TComptime
  | TImport | TAssert | TEnum | TAs | TGrad | TVjp | TJvp | TRequires | TEnsures | TInvariant
  | TMacroRules | TTopology | TMemory | TRef | TVerified | TPinned | THardwareState => true
  | _ => false
  end.

Record TokenBase (S C : Type) : Type := mkToken {
  tok_kind : TokenTypeBase S C;
  tok_line : nat;
  tok_column : nat;
  tok_length : nat;
  tok_expansion : Z;
}.
Arguments mkToken {S C}.
Arguments tok_kind {S C}.
Arguments tok_line {S C}.
Arguments tok_column {S C}.
Arguments tok_length {S C}.
Arguments tok_expansion {S C}.

Abbreviation TokenType := (TokenTypeBase (list char) (list char)) (only parsing).
Abbreviation Token := (TokenBase (list char) (list char)) (only parsing).
Abbreviation OwnedToken := (TokenBase Owned Owned) (only parsing).

Definition KEYWORDS {S C : Type} : list (string * TokenTypeBase S C) :=
  [("fn", TFn); ("let", TLet); ("mut", TMut); ("for", TFor);
   ("in", TIn); ("if", TIf); ("else", TElse); ("loop", TLoop);
   ("while", TWhile); ("break", TBreak); ("continue", TContinue); ("return", TReturn);
   ("spawn", TSpawn); ("tasks", TTasks); ("on", TOn); ("where", TWhere);
   ("transfer", TTransfer); ("transfer_async", TTransferAsync); ("unroll", TUnroll); ("across", TAcross);
   ("match", TMatch); ("Topology", TTopology); ("Memory", TMemory); ("Ref", TRef);
   ("Verified", TVerified); ("Pinned", TPinned); ("HardwareState", THardwareState); ("struct", TStruct);
   ("unsafe", TUnsafe); ("safe", TSafe); ("extern", TExtern); ("pub", TPub);
   ("trait", TTrait); ("type", TTypeKw); ("impl", TImpl); ("comptime", TComptime);
   ("import", TImport); ("assert", TAssert); ("enum", TEnum); ("as", TAs);
   ("grad", TGrad); ("vjp", TVjp); ("jvp", TJvp); ("requires", TRequires);
   ("ensures", TEnsures); ("invariant", TInvariant)].

Definition keyword (text : list char) : option (TokenTypeBase (list char) (list char)) :=
  snd <$> List.find (fun e => bool_decide (chars e.1 = text)) KEYWORDS.

(** [Symbol::from], [Cow::into_owned] and the borrows back. *)
Definition symbol_from (s : list char) : Owned := mkOwned s.
Definition cow_into_owned (s : list char) : Owned := mkOwned s.
Definition symbol_as_str (s : Owned) : list char := owned_text s.
Definition string_as_str (s : Owned) : list char := owned_text s.

Definition into_owned_kind (k : TokenTypeBase (list char) (list char)) : TokenTypeBase Owned Owned :=
  match k with
  | TFn => TFn | TLet => TLet | TMut => TMut | TFor => TFor | TIn => TIn | TIf => TIf | TElse => TElse
  | TLoop => TLoop | TWhile => TWhile | TBreak => TBreak | TContinue => TContinue | TReturn => TReturn
  | TSpawn => TSpawn | TTasks => TTasks | TOn => TOn | TWhere => TWhere | TTransfer => TTransfer
  | TTransferAsync => TTransferAsync | TUnroll => TUnroll | TAcross => TAcross | TMatch => TMatch
  | TStruct => TStruct | TUnsafe => TUnsafe | TSafe => TSafe | TExtern => TExtern | TPub => TPub
  | TTrait => TTrait | TTypeKw => TTypeKw | TImpl => TImpl | TComptime => TComptime
  | TImport => TImport | TAssert => TAssert | TEnum => TEnum | TAs => TAs | TGrad => TGrad
  | TVjp => TVjp | TJvp => TJvp | TRequires => TRequires | TEnsures => TEnsures
  | TInvariant => TInvariant | TMacroRules => TMacroRules | TTopology => TTopology
  | TMemory => TMemory | TRef => TRef | TVerified => TVerified | TPinned => TPinned
  | THardwareState => THardwareState | TIdentifier s => TIdentifier (symbol_from s)
  | TNumber s => TNumber (symbol_from s) | TStringLiteral s => TStringLiteral (cow_into_owned s)
  | TLeftParen => TLeftParen | TRightParen => TRightParen | TLeftBrace => TLeftBrace
  | TRightBrace => TRightBrace | TLeftBracket => TLeftBracket | TRightBracket => TRightBracket
  | TLeftAngle => TLeftAngle | TRightAngle => TRightAngle | TColon => TColon
  | TDoubleColon => TDoubleColon | TSemicolon => TSemicolon | TComma => TComma | TEquals => TEquals
  | TPlusEquals => TPlusEquals | TMinusEquals => TMinusEquals | TStarEquals => TStarEquals
  | TSlashEquals => TSlashEquals | TPercentEquals => TPercentEquals
  | TAmpersandEquals => TAmpersandEquals | TPipeEquals => TPipeEquals | TCaretEquals => TCaretEquals
  | TArrow => TArrow | TFatArrow => TFatArrow | TPlus => TPlus | TMinus => TMinus | TStar => TStar
  | TSlash => TSlash | TPercent => TPercent | TDot => TDot | TDoubleDot => TDoubleDot
  | TAmpersand => TAmpersand | TCaret => TCaret | TAt => TAt | TQuestion => TQuestion
  | TDollar => TDollar | TEqEq => TEqEq | TNotEq => TNotEq | TLessEq => TLessEq
  | TGreaterEq => TGreaterEq | TAndAnd => TAndAnd | TOrOr => TOrOr | TBang => TBang | TPipe => TPipe
  | TEof => TEof | TUnknown c => TUnknown c | TComment s => TComment (symbol_from s)
  | TDocComment s => TDocComment (symbol_from s) | TWhitespace s => TWhitespace (symbol_from s)
  end.

Definition into_owned (t : Token) : OwnedToken :=
  mkToken (into_owned_kind (tok_kind t)) (tok_line t) (tok_column t) (tok_length t) (tok_expansion t).

Definition as_token_kind (k : TokenTypeBase Owned Owned) : TokenTypeBase (list char) (list char) :=
  match k with
  | TFn => TFn | TLet => TLet | TMut => TMut | TFor => TFor | TIn => TIn | TIf => TIf | TElse => TElse
  | TLoop => TLoop | TWhile => TWhile | TBreak => TBreak | TContinue => TContinue | TReturn => TReturn
  | TSpawn => TSpawn | TTasks => TTasks | TOn => TOn | TWhere => TWhere | TTransfer => TTransfer
  | TTransferAsync => TTransferAsync | TUnroll => TUnroll | TAcross => TAcross | TMatch => TMatch
  | TStruct => TStruct | TUnsafe => TUnsafe | TSafe => TSafe | TExtern => TExtern | TPub => TPub
  | TTrait => TTrait | TTypeKw => TTypeKw | TImpl => TImpl | TComptime => TComptime
  | TImport => TImport | TAssert => TAssert | TEnum => TEnum | TAs => TAs | TGrad => TGrad
  | TVjp => TVjp | TJvp => TJvp | TRequires => TRequires | TEnsures => TEnsures
  | TInvariant => TInvariant | TMacroRules => TMacroRules | TTopology => TTopology
  | TMemory => TMemory | TRef => TRef | TVerified => TVerified | TPinned => TPinned
  | THardwareState => THardwareState | TIdentifier s => TIdentifier (symbol_as_str s)
  | TNumber s => TNumber (symbol_as_str s) | TStringLiteral s => TStringLiteral (string_as_str s)
  | TLeftParen => TLeftParen | TRightParen => TRightParen | TLeftBrace => TLeftBrace
  | TRightBrace => TRightBrace | TLeftBracket => TLeftBracket | TRightBracket => TRightBracket
  | TLeftAngle => TLeftAngle | TRightAngle => TRightAngle | TColon => TColon
  | TDoubleColon => TDoubleColon | TSemicolon => TSemicolon | TComma => TComma | TEquals => TEquals
  | TPlusEquals => TPlusEquals | TMinusEquals => TMinusEquals | TStarEquals => TStarEquals
  | TSlashEquals => TSlashEquals | TPercentEquals => TPercentEquals
  | TAmpersandEquals => TAmpersandEquals | TPipeEquals => TPipeEquals | TCaretEquals => TCaretEquals
  | TArrow => TArrow | TFatArrow => TFatArrow | TPlus => TPlus | TMinus => TMinus | TStar => TStar
  | TSlash => TSlash | TPercent => TPercent | TDot => TDot | TDoubleDot => TDoubleDot
  | TAmpersand => TAmpersand | TCaret => TCaret | TAt => TAt | TQuestion => TQuestion
  | TDollar => TDollar | TEqEq => TEqEq | TNotEq => TNotEq | TLessEq => TLessEq
  | TGreaterEq => TGreaterEq | TAndAnd => TAndAnd | TOrOr => TOrOr | TBang => TBang | TPipe => TPipe
  | TEof => TEof | TUnknown c => TUnknown c | TComment s => TComment (symbol_as_str s)
  | TDocComment s => TDocComment (symbol_as_str s) | TWhitespace s => TWhitespace (symbol_as_str s)
  end.

Definition as_token (t : OwnedToken) : Token :=
  mkToken (as_token_kind (tok_kind t)) (tok_line t) (tok_column t) (tok_length t) (tok_expansion t).

(** ** The scanner *)

(** A position: the remaining text and where it is. *)
Record Cursor : Type := mkCursor { rest : list char; cur_line : nat; cur_column : nat }.

Record Lexer : Type := mkLexer {
  lx_cursor : Cursor;
  preserve_comments : bool;
}.

Definition Lexer_new (source : list char) : Lexer := mkLexer (mkCursor source 1 1) false.
Definition new_with_comments (source : list char) : Lexer := mkLexer (mkCursor source 1 1) true.

(** [advance]: consume one character and move the position. *)
Definition advance (p : Cursor) : Cursor :=
  match rest p with
  | [] => p
  | c :: r => if c =? newline then mkCursor r (S (cur_line p)) 1 else mkCursor r (cur_line p) (S (cur_column p))
  end.

Definition peek_char (p : Cursor) : option char := head (rest p).

(** [source[start..end]]. *)
Definition between (start stop : Cursor) : list char :=
  take (length (rest start) - length (rest stop)) (rest start).

(** The number of bytes from [start] to [stop]. *)
Definition byte_length (start stop : Cursor) : nat := str_len (between start stop).

Definition starts_with (prefix : string) (s : list char) : bool :=
  bool_decide (take (String.length prefix) s = chars prefix).

Definition is_doc_start (s : list char) : bool := starts_with "///" s && negb (starts_with "////" s).

(** The [while let Some(c) = self.peek_char()] loops: advance while [f] holds.
    The recursion is on the remaining text. *)
Fixpoint advance_while_from (f : char -> bool) (r : list char) (p : Cursor) : Cursor :=
  match r with
  | [] => p
  | c :: r => if f c then advance_while_from f r (advance p) else p
  end.

Definition advance_while (f : char -> bool) (p : Cursor) : Cursor := advance_while_from f (rest p) p.

(** [skip_whitespace]; [in_comment] is the inner loop that eats a line
    comment. *)
Fixpoint skip_whitespace_from (in_comment : bool) (r : list char) (p : Cursor) : Cursor :=
  match r with
  | [] => p
  | c :: r' =>
      if in_comment then skip_whitespace_from (negb (c =? newline)) r' (advance p)
      else if is_whitespace c then skip_whitespace_from false r' (advance p)
      else if starts_with "//" r then
        if is_doc_start r then p
        else match r' with
             | _ :: r'' => skip_whitespace_from true r'' (advance (advance p))
             | [] => p
             end
      else p
  end.

Definition skip_whitespace (p : Cursor) : Cursor := skip_whitespace_from false (rest p) p.

Definition mk_tok (k : TokenTypeBase (list char) (list char)) (ln col : nat) (start stop : Cursor)
    : TokenBase (list char) (list char) :=
  mkToken k ln col (byte_length start stop) 0.

Section scanner.
Context `{Unicode}.

Definition is_alphanumeric (c : char) : bool := is_alphabetic c || is_numeric c.

(** [start] is the position of the token and [p] the one after its first
    character. *)
Definition identifier_or_keyword (start p : Cursor) : Token * Cursor :=
  let p := advance_while (fun c => is_alphanumeric c || (c =? ch "_")) p in
  let text := between start p in
  let '(k, p) :=
    match keyword text with
    | Some k => (k, p)
    | None =>
        if decide (text = chars "macro_rules") then
          (TMacroRules, if decide (peek_char p = Some (ch "!")) then advance p else p)
        else (TIdentifier text, p)
    end in
  (mk_tok k (cur_line p) (cur_column start) start p, p).

(** The loop of [number]; [prev] is the last character of the text so far. *)
Fixpoint number_from (prev : char) (r : list char) (p : Cursor) : Cursor :=
  match r with
  | [] => p
  | c :: r' =>
      if is_digit c || is_alphabetic c || (c =? ch "_") then number_from c r' (advance p)
      else if c =? ch "." then
        if decide (head r' = Some (ch ".")) then p else number_from c r' (advance p)
      else if (c =? ch "+") || (c =? ch "-") then
        if ((prev =? ch "e") || (prev =? ch "E"))
           && match r' with d :: _ => is_digit d | [] => false end
        then number_from c r' (advance p) else p
      else p
  end.

Definition number (first : char) (start p : Cursor) : Token * Cursor :=
  let p := number_from first (rest p) p in
  (mk_tok (TNumber (between start p)) (cur_line p) (cur_column start) start p, p).

(** What the loop of [string_literal] builds: the decoded text once an escape
    was seen, the text before it, and the first escape it does not know. *)
Record StringState : Type := mkStringState {
  ss_text : option (list char);
  ss_raw : list char;
  ss_unknown : option char;
}.

Definition unescape (esc : char) : option char :=
  if esc =? ch "n" then Some newline
  else if esc =? ch "t" then Some 9
  else if esc =? ch "r" then Some 13
  else if esc =? quote then Some quote
  else if esc =? ch "\" then Some (ch "\")
  else None.

(** Push a decoded character, starting the decoded text if this is the first
    escape. *)
Definition push_escape (st : StringState) (c : char) (unknown : option char) : StringState :=
  mkStringState (Some (default (ss_raw st) (ss_text st) ++ [c])) (ss_raw st)
    (match ss_unknown st with Some u => Some u | None => unknown end).

Definition push_plain (st : StringState) (c : char) : StringState :=
  match ss_text st with
  | Some t => mkStringState (Some (t ++ [c])) (ss_raw st) (ss_unknown st)
  | None => mkStringState None (ss_raw st ++ [c]) (ss_unknown st)
  end.

(** The loop; the flag says whether the closing quote was found. *)
Fixpoint string_from (r : list char) (p : Cursor) (st : StringState) : StringState * bool * Cursor :=
  match r with
  | [] => (st, false, p)
  | c :: r' =>
      if c =? quote then (st, true, advance p)
      else if c =? ch "\" then
        match r' with
        | [] => (push_escape st c None, false, advance p)
        | esc :: r'' =>
            let st := match unescape esc with
                      | Some d => push_escape st d None
                      | None => push_escape st esc (Some esc)
                      end in
            string_from r'' (advance (advance p)) st
        end
      else string_from r' (advance p) (push_plain st c)
  end.

Definition string_literal (preserve : bool) (start p : Cursor) : Token * Cursor :=
  let '(st, closed, p') := string_from (rest p) p (mkStringState None [] None) in
  let inner := removelast (tail (between start p')) in
  if negb closed then (mk_tok (TUnknown quote) (cur_line p) (cur_column start) start p', p')
  else if preserve && (2 <=? byte_length start p')%nat then
    (mk_tok (TStringLiteral inner) (cur_line p') (cur_column start) start p', p')
  else match ss_unknown st with
       | Some c => (mk_tok (TUnknown c) (cur_line p') (cur_column start) start p', p')
       | None =>
           (mk_tok (TStringLiteral (default inner (ss_text st))) (cur_line p') (cur_column start) start p', p')
       end.

Definition lex_comment (start p : Cursor) (is_doc : bool) : Token * Cursor :=
  let p := advance_while (fun c => negb (c =? newline)) p in
  let comment := between start p in
  (mk_tok (if is_doc then TDocComment comment else TComment comment) (cur_line p) (cur_column start) start p, p).

Definition lex_whitespace (start : Cursor) : Token * Cursor :=
  let p := advance_while is_whitespace start in
  (mk_tok (TWhitespace (between start p)) (cur_line p) (cur_column start) start p, p).

Definition lex_slash_or_comment (preserve : bool) (start : Cursor) : option (Token * Cursor) :=
  if is_doc_start (rest start) then
    Some (lex_comment start (advance (advance (advance start))) true)
  else if preserve && starts_with "//" (rest start) then
    Some (lex_comment start (advance (advance start)) false)
  else None.

(** An operator that may be followed by another character of itself. *)
Definition op2 (p : Cursor) (next : string) (two one : TokenTypeBase (list char) (list char))
    : TokenTypeBase (list char) (list char) * Cursor :=
  if decide (peek_char p = Some (ch next)) then (two, advance p) else (one, p).

Definition op3 (p : Cursor) (n1 : string) (k1 : TokenTypeBase (list char) (list char))
    (n2 : string) (k2 one : TokenTypeBase (list char) (list char))
    : TokenTypeBase (list char) (list char) * Cursor :=
  if decide (peek_char p = Some (ch n1)) then (k1, advance p)
  else if decide (peek_char p = Some (ch n2)) then (k2, advance p)
  else (one, p).

(** The [match c] of [next_token], after [c] is consumed. *)
Definition symbol_token (c : char) (p : Cursor) : TokenTypeBase (list char) (list char) * Cursor :=
  if c =? ch "(" then (TLeftParen, p)
  else if c =? ch ")" then (TRightParen, p)
  else if c =? ch "{" then (TLeftBrace, p)
  else if c =? ch "}" then (TRightBrace, p)
  else if c =? ch "[" then (TLeftBracket, p)
  else if c =? ch "]" then (TRightBracket, p)
  else if c =? ch ";" then (TSemicolon, p)
  else if c =? ch "," then (TComma, p)
  else if c =? ch "+" then op2 p "=" TPlusEquals TPlus
  else if c =? ch "*" then op2 p "=" TStarEquals TStar
  else if c =? ch "@" then (TAt, p)
  else if c =? ch "$" then (TDollar, p)
  else if c =? ch "?" then (TQuestion, p)
  else if c =? ch "/" then op2 p "=" TSlashEquals TSlash
  else if c =? ch "%" then op2 p "=" TPercentEquals TPercent
  else if c =? ch "^" then op2 p "=" TCaretEquals TCaret
  else if c =? ch "=" then op3 p "=" TEqEq ">" TFatArrow TEquals
  else if c =? ch "!" then op2 p "=" TNotEq TBang
  else if c =? ch "<" then op2 p "=" TLessEq TLeftAngle
  else if c =? ch ">" then op2 p "=" TGreaterEq TRightAngle
  else if c =? ch "&" then op3 p "&" TAndAnd "=" TAmpersandEquals TAmpersand
  else if c =? ch "|" then op3 p "|" TOrOr "=" TPipeEquals TPipe
  else if c =? ch "." then op2 p "." TDoubleDot TDot
  else if c =? ch "-" then op3 p ">" TArrow "=" TMinusEquals TMinus
  else if c =? ch ":" then op2 p ":" TDoubleColon TColon
  else (TUnknown c, p).

(** [next_token] from [start], whitespace already skipped where it is not
    kept. *)
Definition scan_token (preserve : bool) (start : Cursor) : Token * Cursor :=
  match rest start with
  | [] => (mkToken TEof (cur_line start) (cur_column start) 0 0, start)
  | c :: _ =>
      if preserve && is_whitespace c then lex_whitespace start
      else
        match (if c =? ch "/" then lex_slash_or_comment preserve start else None) with
        | Some r => r
        | None =>
            let p := advance start in
            if is_alphabetic c || (c =? ch "_") then identifier_or_keyword start p
            else if is_digit c then number c start p
            else if c =? quote then string_literal preserve start p
            else
              let '(k, p) := symbol_token c p in
              (mk_tok k (cur_line p) (cur_column start) start p, p)
        end
  end.

Definition next_token (lx : Lexer) : Token * Lexer :=
  let start := if preserve_comments lx then lx_cursor lx else skip_whitespace (lx_cursor lx) in
  let '(t, p) := scan_token (preserve_comments lx) start in
  (t, mkLexer p (preserve_comments lx)).

(** [None] when the fuel runs out. *)
Fixpoint tokenize_from (fuel : nat) (lx : Lexer) : option (list Token) :=
  match fuel with
  | O => None
  | S fuel =>
      let '(t, lx) := next_token lx in
      match tok_kind t with
      | TEof => Some [t]
      | _ => ts ← tokenize_from fuel lx; Some (t :: ts)
      end
  end.

Definition tokenize (lx : Lexer) : list Token :=
  default [] (tokenize_from (S (length (rest (lx_cursor lx)))) lx).
End scanner.

(** ** Spans *)

(** [q] is [p] after consuming [s]. *)
Definition consumes (p : Cursor) (s : list char) (q : Cursor) : Prop := rest p = s ++ rest q.

Lemma consumes_nil p : consumes p [] p.
Proof. done. Qed.

Lemma consumes_trans p q r s t : consumes p s q -> consumes q t r -> consumes p (s ++ t) r.
Proof. unfold consumes. intros -> ->. by rewrite app_assoc. Qed.

Lemma consumes_advance p c r : rest p = c :: r -> consumes p [c] (advance p) /\ rest (advance p) = r.
Proof. unfold consumes, advance. intros ->. by destruct (c =? newline). Qed.

Lemma between_consumes p s q : consumes p s q -> between p q = s.
Proof.
  unfold consumes, between. intros ->. rewrite length_app.
  replace (length s + length (rest q) - length (rest q))%nat with (length s) by lia. apply take_app_length.
Qed.

Create HintDb vx_span.
#[export] Hint Resolve consumes_nil consumes_trans : vx_span.

Lemma advance_while_from_spec f r p :
  rest p = r -> exists s, consumes p s (advance_while_from f r p) /\ Forall (fun c => f c = true) s.
Proof.
  revert p. induction r as [|c r IH]; intros p Hp; simpl; [by exists []|].
  destruct (f c) eqn:Hf; [|by exists []]. destruct (consumes_advance p c r Hp) as [Hc Hr].
  destruct (IH _ Hr) as (s & Hs & Hall). exists (c :: s). split; [by apply (consumes_trans _ _ _ [c] s Hc)|by constructor].
Qed.

Lemma advance_while_spec f p :
  exists s, consumes p s (advance_while f p) /\ Forall (fun c => f c = true) s.
Proof. by apply advance_while_from_spec. Qed.

Lemma skip_whitespace_from_spec r p b :
  rest p = r -> exists s, consumes p s (skip_whitespace_from b r p).
Proof.
  revert b p. induction r as [r IH] using (induction_ltof1 _ (@length char)). unfold ltof in IH.
  intros b p Hp. destruct r as [|c r]; [by exists []|]. destruct (consumes_advance p c r Hp) as [Hc Hr].
  assert (forall b', exists s, consumes p s (skip_whitespace_from b' r (advance p))) as Hstep.
  { intros b'. destruct (IH r ltac:(simpl; lia) b' _ Hr) as [s Hs]. eauto with vx_span. }
  cbn [skip_whitespace_from]. destruct b; [apply Hstep|]. destruct (is_whitespace c); [apply Hstep|].
  destruct (starts_with "//" (c :: r)); [|by exists []]. destruct (is_doc_start (c :: r)); [by exists []|].
  destruct r as [|c2 r]; [by exists []|]. destruct (consumes_advance (advance p) c2 r Hr) as [Hc2 Hr2].
  destruct (IH r ltac:(simpl; lia) true _ Hr2) as [s Hs]. eauto with vx_span.
Qed.

Section spans.
Context `{Unicode}.

Lemma number_from_spec prev r p : rest p = r -> exists s, consumes p s (number_from prev r p).
Proof.
  revert prev p. induction r as [|c r IH]; intros prev p Hp; cbn [number_from]; [by exists []|].
  destruct (consumes_advance p c r Hp) as [Hc Hr].
  assert (exists s, consumes p s (number_from c r (advance p))) as Hstep.
  { destruct (IH c _ Hr) as [s Hs]. eauto with vx_span. }
  repeat case_match; try exact Hstep; by exists [].
Qed.

Lemma string_from_spec r p st st' closed q :
  rest p = r -> string_from r p st = (st', closed, q) ->
  exists s, consumes p s q /\ (closed = true -> exists s0, s = s0 ++ [quote]).
Proof.
  revert p st. induction r as [r IH] using (induction_ltof1 _ (@length char)). unfold ltof in IH.
  intros p st Hp. destruct r as [|c r]; cbn [string_from].
  { intros [= <- <- <-]. by exists []. }
  destruct (consumes_advance p c r Hp) as [Hc Hr].
  destruct (Z.eqb_spec c quote) as [->|].
  { intros [= <- <- <-]. exists [quote]. split; [done|]. intros _. by exists []. }
  assert (forall p' c', consumes p c' p' -> (exists s, consumes p' s q /\ (closed = true -> exists s0, s = s0 ++ [quote])) ->
    exists s, consumes p s q /\ (closed = true -> exists s0, s = s0 ++ [quote])) as Hcomb.
  { intros p' c' Hp' (s & Hs & Hcl). exists (c' ++ s). split; [eauto with vx_span|].
    intros Hclosed. destruct (Hcl Hclosed) as [s0 ->]. exists (c' ++ s0). by rewrite app_assoc. }
  destruct (Z.eqb_spec c (ch "\")) as [->|].
  - destruct r as [|esc r]; [intros [= <- <- <-]; by exists [ch "\"]|].
    destruct (consumes_advance (advance p) esc r Hr) as [Hc2 Hr2]. intros Hs.
    apply (Hcomb (advance (advance p)) [ch "\"; esc]); [by apply (consumes_trans _ _ _ _ [esc] Hc)|].
    eapply (IH r); [simpl; lia|exact Hr2|exact Hs].
  - intros Hs. apply (Hcomb (advance p) [c]); [done|]. eapply (IH r); [simpl; lia|exact Hr|exact Hs].
Qed.

Lemma op2_spec p n two one k q :
  op2 p n two one = (k, q) ->
  (k = two /\ consumes p [ch n] q) \/ (k = one /\ q = p).
Proof.
  unfold op2, peek_char. case_decide as Hp; intros [= <- <-]; [left|by right].
  split; [done|]. destruct (rest p) as [|c r] eqn:E; [done|]. injection Hp as ->. by apply (consumes_advance p _ r).
Qed.

Lemma op3_spec p n1 k1 n2 k2 one k q :
  op3 p n1 k1 n2 k2 one = (k, q) ->
  (k = k1 /\ consumes p [ch n1] q) \/ (k = k2 /\ consumes p [ch n2] q) \/ (k = one /\ q = p).
Proof.
  unfold op3, peek_char. destruct (rest p) as [|c r] eqn:E; simpl.
  { repeat case_decide; try done. intros [= <- <-]. auto. }
  destruct (consumes_advance p c r E) as [Hc _].
  repeat case_decide; intros [= <- <-]; naive_solver.
Qed.

(** An operator token displays as the characters it consumed. *)
Lemma symbol_token_spec c p k q :
  symbol_token c p = (k, q) -> exists s, consumes p s q /\ display k = c :: s.
Proof.
  unfold symbol_token.
  repeat match goal with
  | |- context [if ?x =? ?y then _ else _] => destruct (Z.eqb_spec x y) as [->|_]
  end;
  first [ intros [= <- <-]; by exists []
        | intros [[-> Hq]|[-> ->]]%op2_spec; [eexists; split; [exact Hq|done]|by exists []]
        | intros [[-> Hq]|[[-> Hq]|[-> ->]]]%op3_spec; [eexists; split; [exact Hq|done]..|by exists []] ].
Qed.

Lemma keyword_display text k : keyword text = Some k -> display k = text.
Proof.
  unfold keyword. destruct (List.find _ _) as [[s k']|] eqn:E; [|done]. intros [= <-].
  apply List.find_some in E as [Hin Heq]. apply bool_decide_eq_true in Heq. cbn [fst snd] in *. subst text.
  assert (Forall (fun e : string * TokenTypeBase (list char) (list char) => display e.2 = chars e.1) KEYWORDS) as HF
    by (repeat constructor).
  rewrite Forall_forall in HF. by apply (HF (s, k')), list_elem_of_In.
Qed.

(** What one token covers. *)
Definition token_spans (preserve : bool) (start : Cursor) (t : Token) (q : Cursor) : Prop :=
  exists s, s <> [] /\ consumes start s q /\ tok_length t = str_len s /\ tok_kind t <> TEof /\
    (preserve = true -> tok_kind t <> TMacroRules -> tok_kind t <> TUnknown quote ->
     display (tok_kind t) = s).

Lemma mk_tok_spans preserve start k ln col q s :
  consumes start s q -> s <> [] -> k <> TEof ->
  (preserve = true -> k <> TMacroRules -> k <> TUnknown quote -> display k = s) ->
  token_spans preserve start (mk_tok k ln col start q) q.
Proof.
  intros Hc Hs Hk Hd. exists s. split_and!; try done. simpl. unfold byte_length.
  by rewrite (between_consumes start s q Hc).
Qed.

Lemma keyword_not_eof text : keyword text <> Some TEof.
Proof.
  unfold keyword. destruct (List.find _ _) as [[s k]|] eqn:E; [|done]. intros [= ->].
  apply List.find_some in E as [Hin _].
  assert (Forall (fun e : string * TokenTypeBase (list char) (list char) => e.2 <> TEof) KEYWORDS) as HF
    by (repeat constructor; done).
  rewrite Forall_forall in HF. by apply (HF (s, TEof)); [apply list_elem_of_In|].
Qed.

Lemma identifier_spans preserve start c r t q :
  rest start = c :: r -> identifier_or_keyword start (advance start) = (t, q) ->
  token_spans preserve start t q.
Proof.
  intros Hc. destruct (consumes_advance start c r Hc) as [Ha _]. unfold identifier_or_keyword.
  destruct (advance_while_spec (fun c => is_alphanumeric c || (c =? ch "_")) (advance start)) as (s & Hs & _).
  set (p := advance_while _ _) in *. assert (consumes start (c :: s) p) as Hp by (by apply (consumes_trans _ _ _ [c] s Ha)).
  rewrite (between_consumes _ _ _ Hp).
  destruct (keyword (c :: s)) as [k|] eqn:Ek.
  - intros [= <- <-]. apply (mk_tok_spans _ _ _ _ _ _ (c :: s)); [done|done| |].
    + intros ->. by apply keyword_not_eof in Ek.
    + intros _ _ _. by apply keyword_display.
  - case_decide as Hm; [|intros [= <- <-]; by apply (mk_tok_spans _ _ _ _ _ _ (c :: s))].
    case_decide as Hb; intros [= <- <-]; [|by apply (mk_tok_spans _ _ _ _ _ _ (c :: s))].
    unfold peek_char in Hb. destruct (rest p) as [|b r'] eqn:Er; [done|]. injection Hb as ->.
    destruct (consumes_advance p _ r' Er) as [Hb _].
    by apply (mk_tok_spans _ _ _ _ _ _ ((c :: s) ++ [ch "!"])); [apply (consumes_trans _ _ _ _ _ Hp Hb)|..].
Qed.

Lemma string_spans preserve start r t q :
  rest start = quote :: r -> string_literal preserve start (advance start) = (t, q) ->
  token_spans preserve start t q.
Proof.
  intros Hc. destruct (consumes_advance start _ r Hc) as [Ha Hr]. unfold string_literal.
  destruct (string_from _ _ _) as [[st closed] p'] eqn:Es.
  destruct (string_from_spec _ _ _ _ _ _ eq_refl Es) as (s & Hs & Hcl).
  assert (consumes start (quote :: s) p') as Hp by (by apply (consumes_trans _ _ _ [quote] s Ha)).
  destruct closed; cbn [negb].
  2: { intros [= <- <-]. by apply (mk_tok_spans _ _ _ _ _ _ (quote :: s)). }
  destruct (Hcl eq_refl) as [s0 ->].
  assert (2 <= byte_length start p')%nat as Hlen.
  { unfold byte_length. rewrite (between_consumes _ _ _ Hp). simpl. rewrite str_len_app. simpl. lia. }
  rewrite (between_consumes _ _ _ Hp). cbn [tail]. rewrite removelast_last.
  destruct preserve; cbn [andb].
  - rewrite (proj2 (Nat.leb_le _ _) Hlen). intros [= <- <-].
    by apply (mk_tok_spans _ _ _ _ _ _ (quote :: s0 ++ [quote])).
  - destruct (ss_unknown st); intros [= <- <-]; by apply (mk_tok_spans _ _ _ _ _ _ (quote :: s0 ++ [quote])).
Qed.

Lemma comment_spans preserve start p s is_doc t q :
  consumes start s p -> s <> [] -> lex_comment start p is_doc = (t, q) -> token_spans preserve start t q.
Proof.
  intros Hs Hne. unfold lex_comment.
  destruct (advance_while_spec (fun c => negb (c =? newline)) p) as (u & Hu & _). intros [= <- <-].
  assert (consumes start (s ++ u) (advance_while (fun c => negb (c =? newline)) p)) as Hp by eauto with vx_span.
  rewrite (between_consumes _ _ _ Hp).
  apply (mk_tok_spans _ _ _ _ _ _ (s ++ u)); [done|by destruct s|by destruct is_doc|by destruct is_doc].
Qed.

(** A text with a given prefix, consumed one character at a time. *)
Lemma starts_with_cons c prefix s :
  starts_with (String c prefix) s = true -> exists r, s = Z.of_nat (nat_of_ascii c) :: r /\ starts_with prefix r = true.
Proof.
  unfold starts_with. rewrite bool_decide_eq_true. destruct s as [|d s]; [done|]. simpl.
  intros [= -> Ht]. exists s. by rewrite bool_decide_eq_true.
Qed.

Lemma slash_spans preserve start t q :
  lex_slash_or_comment preserve start = Some (t, q) -> token_spans preserve start t q.
Proof.
  unfold lex_slash_or_comment. destruct (is_doc_start (rest start)) eqn:Hd.
  - unfold is_doc_start in Hd. apply andb_prop in Hd as [Hd _].
    apply starts_with_cons in Hd as (r1 & E1 & Hd). apply starts_with_cons in Hd as (r2 & -> & Hd).
    apply starts_with_cons in Hd as (r3 & -> & _).
    destruct (consumes_advance _ _ _ E1) as [C1 E2]. destruct (consumes_advance _ _ _ E2) as [C2 E3].
    destruct (consumes_advance _ _ _ E3) as [C3 _]. intros Hl%(inj Some).
    eapply comment_spans; [exact (consumes_trans _ _ _ _ _ (consumes_trans _ _ _ _ _ C1 C2) C3)|done|exact Hl].
  - destruct (preserve && starts_with "//" (rest start)) eqn:Hs; [|done]. apply andb_prop in Hs as [_ Hs].
    apply starts_with_cons in Hs as (r1 & E1 & Hs). apply starts_with_cons in Hs as (r2 & -> & _).
    destruct (consumes_advance _ _ _ E1) as [C1 E2]. destruct (consumes_advance _ _ _ E2) as [C2 _]. intros Hl%(inj Some).
    eapply comment_spans; [exact (consumes_trans _ _ _ _ _ C1 C2)|done|exact Hl].
Qed.

(** One token, at a position with text left. *)
Lemma scan_token_spans preserve start c r t q :
  rest start = c :: r -> scan_token preserve start = (t, q) -> token_spans preserve start t q.
Proof.
  intros Hc. unfold scan_token. rewrite Hc.
  destruct (preserve && is_whitespace c) eqn:Hw.
  { unfold lex_whitespace, advance_while. rewrite Hc. cbn [advance_while_from].
    apply andb_prop in Hw as [_ Hw]. rewrite Hw. destruct (consumes_advance _ _ _ Hc) as [Ha Hr].
    destruct (advance_while_from_spec is_whitespace r (advance start) Hr) as (s & Hs & _). intros [= <- <-].
    assert (consumes start (c :: s) (advance_while_from is_whitespace r (advance start))) as Hp
      by (by apply (consumes_trans _ _ _ [c] s Ha)).
    rewrite (between_consumes _ _ _ Hp). by apply (mk_tok_spans _ _ _ _ _ _ (c :: s)). }
  destruct (if c =? ch "/" then lex_slash_or_comment preserve start else None) as [[t' q']|] eqn:Hsl.
  { intros [= <- <-]. destruct (c =? ch "/"); [by apply slash_spans|done]. }
  destruct (is_alphabetic c || (c =? ch "_")); [by apply (identifier_spans preserve start c r)|].
  destruct (consumes_advance _ _ _ Hc) as [Ha Hr].
  destruct (is_digit c).
  { unfold number. destruct (number_from_spec c (rest (advance start)) (advance start) eq_refl) as [s Hs].
    intros [= <- <-]. set (p := number_from _ _ _) in *.
    assert (consumes start (c :: s) p) as Hp by (by apply (consumes_trans _ _ _ [c] s Ha)).
    rewrite (between_consumes _ _ _ Hp). by apply (mk_tok_spans _ _ _ _ _ _ (c :: s)). }
  destruct (Z.eqb_spec c quote) as [->|Hq]; [by apply (string_spans preserve start r)|].
  destruct (symbol_token c (advance start)) as [k p] eqn:Hsym. intros [= <- <-].
  apply symbol_token_spec in Hsym as (s & Hs & Hd).
  apply (mk_tok_spans _ _ _ _ _ _ (c :: s)); [by apply (consumes_trans _ _ _ [c] s Ha)|done| |auto].
  intros ->. done.
Qed.

(** ** Tokenization *)

(** The spaces and comments in front of a token, when they are not kept. *)
Lemma next_token_spec lx t lx' :
  next_token lx = (t, lx') ->
  preserve_comments lx' = preserve_comments lx /\
  exists skipped s, rest (lx_cursor lx) = skipped ++ s ++ rest (lx_cursor lx') /\
    (preserve_comments lx = true -> skipped = []) /\ tok_length t = str_len s /\
    (tok_kind t = TEof <-> s = []) /\ (s = [] -> rest (lx_cursor lx') = []) /\
    (preserve_comments lx = true -> tok_kind t <> TMacroRules -> tok_kind t <> TUnknown quote ->
     display (tok_kind t) = s).
Proof.
  unfold next_token. set (start := if preserve_comments lx then lx_cursor lx else skip_whitespace (lx_cursor lx)).
  assert (exists sk, consumes (lx_cursor lx) sk start /\ (preserve_comments lx = true -> sk = [])) as (sk & Hsk & Hp).
  { unfold start. destruct (preserve_comments lx); [exists []; eauto with vx_span|].
    destruct (skip_whitespace_from_spec (rest (lx_cursor lx)) (lx_cursor lx) false eq_refl) as [s Hs]. by exists s. }
  destruct (scan_token (preserve_comments lx) start) as [t' q] eqn:Hs. intros [= <- <-]. split; [done|].
  exists sk. unfold consumes in Hsk. destruct (rest start) as [|c r] eqn:Hr.
  - unfold scan_token in Hs. rewrite Hr in Hs. injection Hs as <- <-. exists []. simpl. rewrite Hsk, Hr. done.
  - destruct (scan_token_spans _ _ _ _ _ _ Hr Hs) as (s & Hne & Hc & Hl & Hk & Hd). exists s. simpl.
    unfold consumes in Hc. rewrite Hsk, <- Hr, Hc. split_and!; try done.
Qed.

Lemma tokenize_enough fuel lx :
  (length (rest (lx_cursor lx)) < fuel)%nat -> is_Some (tokenize_from fuel lx).
Proof.
  revert lx. induction fuel as [|fuel IH]; intros lx Hf; [lia|]. cbn [tokenize_from].
  destruct (next_token lx) as [t lx'] eqn:Hn.
  destruct (next_token_spec _ _ _ Hn) as (_ & sk & s & Hr & _ & _ & He & _ & _).
  destruct (decide (s = [])) as [Hs|Hs]; [rewrite (proj2 He Hs); done|].
  assert (is_Some (tokenize_from fuel lx')) as [ts ->].
  { apply IH. rewrite Hr, !length_app in Hf. destruct s; [done|]. simpl in Hf. lia. }
  simpl. destruct (tok_kind t); done.
Qed.

Lemma tokenize_from_inv fuel lx ts t lx' :
  tokenize_from (S fuel) lx = Some ts -> next_token lx = (t, lx') ->
  (tok_kind t = TEof /\ ts = [t]) \/
  (tok_kind t <> TEof /\ exists ts', ts = t :: ts' /\ tokenize_from fuel lx' = Some ts').
Proof.
  cbn [tokenize_from]. intros Hts Hn. rewrite Hn in Hts.
  assert ((tok_kind t = TEof /\ ts = [t]) \/
    (tok_kind t <> TEof /\ (ts' ← tokenize_from fuel lx'; Some (t :: ts')) = Some ts)) as [?|[Hk H']].
  { destruct (tok_kind t); try (by right); left. by injection Hts as <-. }
  - by left.
  - right. split; [done|]. destruct (tokenize_from fuel lx') as [ts'|]; [|done]. injection H' as <-. eauto.
Qed.

Lemma tokenize_from_lossless fuel lx ts :
  tokenize_from fuel lx = Some ts -> preserve_comments lx = true ->
  Forall (fun t => tok_kind t <> TMacroRules /\ tok_kind t <> TUnknown quote) ts ->
  concat (map (fun t => display (tok_kind t)) ts) = rest (lx_cursor lx) /\
  sum_list (map tok_length ts) = str_len (rest (lx_cursor lx)).
Proof.
  revert lx ts. induction fuel as [|fuel IH]; intros lx ts Hts Hp Hall; [done|].
  destruct (next_token lx) as [t lx'] eqn:Hn.
  destruct (next_token_spec _ _ _ Hn) as (Hpre & sk & s & Hr & Hsk & Hl & He & Hnil & Hd).
  rewrite (Hsk Hp) in Hr. simpl in Hr.
  destruct (tokenize_from_inv _ _ _ _ _ Hts Hn) as [[Hk ->]|(Hk & ts' & -> & Hts')].
  - pose proof (proj1 He Hk) as Hs. simpl. rewrite Hk, Hr, (Hnil Hs), Hl, Hs. done.
  - apply Forall_cons in Hall as [[Hm Hu] Hall].
    destruct (IH lx' ts' Hts') as [H1 H2]; [by rewrite Hpre|done|]. simpl.
    rewrite H1, H2, Hr, (Hd Hp Hm Hu), Hl, str_len_app. done.
Qed.

Lemma tokenize_from_shape fuel lx ts :
  tokenize_from fuel lx = Some ts ->
  (exists t, last ts = Some t /\ tok_kind t = TEof) /\ (length ts <= fuel)%nat.
Proof.
  revert lx ts. induction fuel as [|fuel IH]; intros lx ts Hts; [done|].
  destruct (next_token lx) as [t lx'] eqn:Hn.
  destruct (tokenize_from_inv _ _ _ _ _ Hts Hn) as [[Hk ->]|(Hk & ts' & -> & Hts')].
  - split; [eauto|simpl; lia].
  - destruct (IH lx' ts' Hts') as [(t0 & Hl & Hk0) Hlen]. split; [|simpl; lia].
    exists t0. split; [|done]. by destruct ts'.
Qed.

(** Lexing always ends: on every text and in both modes the token stream is
    produced within one token per character, and its last token is [Eof]. *)
Theorem tokenize_total lx :
  exists ts, tokenize_from (S (length (rest (lx_cursor lx)))) lx = Some ts /\ tokenize lx = ts /\
    (exists t, last ts = Some t /\ tok_kind t = TEof) /\ (length ts <= S (length (rest (lx_cursor lx))))%nat.
Proof.
  destruct (tokenize_enough (S (length (rest (lx_cursor lx)))) lx ltac:(lia)) as [ts Hts].
  destruct (tokenize_from_shape _ _ _ Hts).
  exists ts. split_and!; [done|unfold tokenize; by rewrite Hts|done|done].
Qed.

End spans.

(** ** Owned tokens and keywords *)

(** Owning a token and borrowing it back is the identity: no kind is
    confused with another and no text or position is lost. *)
Theorem owned_roundtrip (t : Token) (o : OwnedToken) :
  as_token (into_owned t) = t /\ into_owned (as_token o) = o.
Proof. split; [destruct t as [[]]|destruct o as [[]]]; try done; by destruct s. Qed.

(** Every reserved word of the table is its own token: the table has no
    duplicate, each entry is a keyword that displays as its spelling, and lexing
    the spelling yields exactly that token; a word outside the table that is
    not [macro_rules] is an identifier. *)
Theorem keywords_exact :
  Forall (fun e : string * TokenTypeBase (list char) (list char) =>
    is_keyword e.2 = true /\ display e.2 = chars e.1 /\
    map tok_kind (tokenize (Lexer_new (chars e.1))) = [e.2; TEof]) KEYWORDS /\
  NoDup (map fst (KEYWORDS (S:=list char) (C:=list char))) /\
  (forall k : TokenTypeBase (list char) (list char), is_keyword k = true -> k <> TMacroRules ->
     keyword (display k) = Some k).
Proof.
  split_and!.
  - repeat constructor.
  - apply (bool_decide_unpack _). vm_compute. done.
  - intros []; try done.
Qed.

Definition demo_source : list char := chars "fn f(x) { // one
  x + 1.5e-3 }".


(** The exception is real: [macro_rules!] prints without its bang, so a tool
    that writes tokens back changes the program. *)
Theorem macro_rules_loses_bang :
  concat (map (fun t => display (tok_kind t)) (tokenize (new_with_comments (chars "macro_rules! m"))))
  = chars "macro_rules m".
Proof. vm_compute. reflexivity. Qed.
