(* ===== verification/Format.v ===== *)
(** * The formatter ([src/src/formatter.rs])

    The formatter lexes a file with its comments and spaces, rewrites the spaces
    in two passes over the tokens, writes the tokens with fresh indentation and
    strips the blanks at the ends of lines. *)

From stdpp Require Import base list strings gmap.
From Stdlib Require Import ZArith Lia Ascii.
From S2P Require Import Prelude Lexer.
Open Scope Z_scope.

(** ** Kinds of tokens *)

Definition is_ws (k : TokenType) : bool := match k with TWhitespace _ => true | _ => false end.
Definition is_comment (k : TokenType) : bool := match k with TComment _ | TDocComment _ => true | _ => false end.

(** The kinds that the passes look through. *)
Definition is_blank (k : TokenType) : bool := is_ws k || is_comment k.

Definition holds_newline (s : list char) : bool := existsb (fun c => c =? newline) s.
Definition ws_newline (t : Token) : bool := match tok_kind t with TWhitespace ws => holds_newline ws | _ => false end.

Fixpoint contains_str (part : string) (s : list char) : bool :=
  starts_with part s || match s with [] => false | _ :: s => contains_str part s end.

(** [tokens[a..b]]. *)
Definition slice {A} (a b : nat) (l : list A) : list A := take (b - a) (drop a l).

Definition space : list char := chars " ".
Definition line : list char := [newline].

(** ** Blocks *)

(** A space where [t] is. *)
Definition space_at (t : Token) : Token := mkToken (TWhitespace space) (tok_line t) (tok_column t) 1 (tok_expansion t).
Definition fresh_line : Token := mkToken (TWhitespace line) 0 0 1 0.
Definition with_kind (k : TokenType) (t : Token) : Token := mkToken k (tok_line t) (tok_column t) (tok_length t) (tok_expansion t).

(** Pass 1a: a space before each [{]. *)
Fixpoint space_braces (tokens spaced : list Token) : list Token :=
  match tokens with
  | [] => spaced
  | t :: tokens =>
      let spaced :=
        match tok_kind t, last spaced with
        | TLeftBrace, Some l => if is_ws (tok_kind l) then spaced else spaced ++ [space_at t]
        | _, _ => spaced
        end in
      space_braces tokens (spaced ++ [t])
  end.

(** Pass 1b: the braces that match, by index. *)
Fixpoint match_braces (tokens : list Token) (idx : nat) (stack : list nat) (m : gmap nat nat * gmap nat nat) : gmap nat nat * gmap nat nat :=
  match tokens with
  | [] => m
  | t :: tokens =>
      match tok_kind t with
      | TLeftBrace => match_braces tokens (S idx) (idx :: stack) m
      | TRightBrace =>
          match stack with
          | lb :: stack => match_braces tokens (S idx) stack (<[lb := idx]> m.1, <[idx := lb]> m.2)
          | [] => match_braces tokens (S idx) [] m
          end
      | _ => match_braces tokens (S idx) stack m
      end
  end.

(** The last token that is not blank is [unsafe]; the tokens are in reverse. *)
Fixpoint after_unsafe (back : list Token) : bool :=
  match back with
  | [] => false
  | t :: back => if is_blank (tok_kind t) then after_unsafe back else match tok_kind t with TUnsafe => true | _ => false end
  end.

(** The bytes after the last newline. *)
Definition bytes_after_line (ws : list char) : nat :=
  str_len (reverse ((fix upto r := match r with [] => [] | c :: r => if c =? newline then [] else c :: upto r end) (reverse ws))).

(** The length of the line so far; the tokens are in reverse. *)
Fixpoint line_length (back : list Token) : nat :=
  match back with
  | [] => 0
  | t :: back =>
      match tok_kind t with
      | TWhitespace ws => if holds_newline ws then bytes_after_line ws else tok_length t + line_length back
      | _ => tok_length t + line_length back
      end
  end.

Definition collapsed_length (t : Token) : nat :=
  match tok_kind t with TWhitespace ws => if holds_newline ws then 1 else tok_length t | _ => tok_length t end.

(** A block on one line: [inner] are the tokens between the braces. *)
Definition collapse (lb rb : Token) (inner : list Token) : list Token :=
  let flat := (fun t => match tok_kind t with TWhitespace ws => if holds_newline ws then with_kind (TWhitespace space) t else t | _ => t end) <$> inner in
  let front := [lb] ++ (match inner with t :: _ => if is_ws (tok_kind t) then [] else [space_at lb] | [] => [space_at lb] end) ++ flat in
  front ++ (match last front with Some t => if is_ws (tok_kind t) then [] else [space_at rb] | None => [] end) ++ [rb].

Section blocks.
Context (tokens : list Token) (left_to_right right_to_left : gmap nat nat).

Definition block_has_newline (lb rb : nat) : bool := existsb ws_newline (slice (S lb) rb tokens).
Definition block_has_code (lb rb : nat) : bool := existsb (fun t => negb (is_blank (tok_kind t))) (slice (S lb) rb tokens).
Definition block_holds_comment (lb rb : nat) : bool := existsb (fun t => is_comment (tok_kind t)) (slice lb (S rb) tokens).

(** The line break that the end of a block on one line needs. *)
Definition close_block (new : list Token) : list Token :=
  match last new with
  | Some t =>
      if ws_newline t then new
      else if is_ws (tok_kind t) then removelast new ++ [with_kind (TWhitespace line) t] else new ++ [fresh_line]
  | None => new
  end.

(** Pass 1c, from index [i]; the fuel is the number of tokens left. *)
Fixpoint process_blocks (fuel i : nat) (new : list Token) : list Token :=
  match fuel with
  | O => new
  | S fuel =>
      match tokens !! i with
      | None => new
      | Some t =>
          match tok_kind t with
          | TLeftBrace =>
              match left_to_right !! i with
              | Some rb =>
                  let collapsed := collapse t (default t (tokens !! rb)) (slice (S i) rb tokens) in
                  if after_unsafe (reverse new) && negb (block_holds_comment i rb)
                     && (line_length (reverse new) + sum_list (collapsed_length <$> slice i (S rb) tokens) + 2 <=? 80)%nat
                  then process_blocks fuel (S rb) (new ++ collapsed)
                  else if negb (block_has_newline i rb) && block_has_code i rb then
                    match tokens !! S i with
                    | Some n => if is_ws (tok_kind n) then process_blocks fuel (S (S i)) (new ++ [t; with_kind (TWhitespace line) n])
                                else process_blocks fuel (S i) (new ++ [t; fresh_line])
                    | None => process_blocks fuel (S i) (new ++ [t; fresh_line])
                    end
                  else process_blocks fuel (S i) (new ++ [t])
              | None => process_blocks fuel (S i) (new ++ [t])
              end
          | TRightBrace =>
              let new :=
                match right_to_left !! i with
                | Some lb => if negb (block_has_newline lb i) && block_has_code lb i then close_block new else new
                | None => new
                end in
              process_blocks fuel (S i) (new ++ [t])
          | _ => process_blocks fuel (S i) (new ++ [t])
          end
      end
  end.
End blocks.

Definition normalize_and_expand_blocks (tokens : list Token) : list Token :=
  let tokens := space_braces tokens [] in
  let '(l2r, r2l) := match_braces tokens 0 [] (∅, ∅) in
  process_blocks tokens l2r r2l (length tokens) 0 [].

(** ** Spaces *)

(** The kind of the next token that is not blank. *)
Fixpoint next_code (tokens : list Token) : option TokenType :=
  match tokens with
  | [] => None
  | t :: tokens => if is_blank (tok_kind t) then next_code tokens else Some (tok_kind t)
  end.

Definition joins_before (k : TokenType) : bool :=
  match k with TEqEq | TNotEq | TLessEq | TGreaterEq | TLeftAngle | TRightAngle | TAndAnd | TOrOr => true | _ => false end.
Definition joins_after (k : TokenType) : bool := match k with TFor | TIf | TWhile => true | _ => false end.

(** The spaces between two pieces of code are one space. *)
Definition to_one_space (line_break : bool) (prev next : option TokenType) : bool :=
  (line_break && (match prev with Some k => joins_after k | None => false end || match next with Some k => joins_before k | None => false end))
  || match prev, next with Some TRightBrace, Some TElse | Some TElse, Some TLeftBrace => true | _, _ => false end.

Fixpoint adjust_from (last_code : option TokenType) (tokens : list Token) : list Token :=
  match tokens with
  | [] => []
  | t :: tokens =>
      match tok_kind t with
      | TWhitespace ws =>
          (if to_one_space (holds_newline ws) last_code (next_code tokens) then with_kind (TWhitespace space) t else t) :: adjust_from last_code tokens
      | TComment _ | TDocComment _ => t :: adjust_from last_code tokens
      | k => t :: adjust_from (Some k) tokens
      end
  end.

Definition adjust_spacing (tokens : list Token) : list Token := adjust_from None tokens.

(** ** Text *)

Record Emit : Type := mkEmit {
  em_level : Z;
  em_new_line : bool;
  em_enabled : bool;
  em_brackets : list bool;
}.

Definition indent (spaces : nat) (level : Z) : list char := if 0 <? level then replicate (Z.to_nat level * spaces) (ch " ") else [].

Definition count_newlines (ws : list char) : nat := length (filter (fun c => c = newline) ws).

(** The text of one token, given whether a line break follows, and the state after it. *)
Definition emit_token (spaces : nat) (t : Token) (rows_below : bool) (e : Emit) : list char * Emit :=
  let lead level := if em_enabled e && em_new_line e then indent spaces level else [] in
  match tok_kind t with
  | TLeftBracket =>
      (lead (em_level e) ++ chars "[",
       mkEmit (if rows_below then em_level e + 1 else em_level e) false (em_enabled e) (rows_below :: em_brackets e))
  | TRightBracket =>
      let level := match em_brackets e with true :: _ => Z.max 0 (em_level e - 1) | _ => em_level e end in
      (lead level ++ chars "]", mkEmit level false (em_enabled e) (tail (em_brackets e)))
  | TWhitespace ws =>
      if negb (em_enabled e) then (ws, mkEmit (em_level e) (holds_newline ws || em_new_line e) false (em_brackets e))
      else if holds_newline ws then (replicate (count_newlines ws) newline, mkEmit (em_level e) true true (em_brackets e))
      else (if em_new_line e then [] else ws, e)
  | TRightBrace =>
      let level := Z.max 0 (em_level e - 1) in
      (lead level ++ chars "}", mkEmit level false (em_enabled e) (em_brackets e))
  | TLeftBrace => (lead (em_level e) ++ chars "{", mkEmit (em_level e + 1) false (em_enabled e) (em_brackets e))
  | TComment c | TDocComment c =>
      let off := contains_str "vx-format-begin: OFF" c in
      let enabled := if off then false
                     else if contains_str "vx-format-begin: ON" c || contains_str "vx-format-end: OFF" c then true else em_enabled e in
      ((if (enabled || off) && em_new_line e then indent spaces (em_level e) else []) ++ c, mkEmit (em_level e) false enabled (em_brackets e))
  | k => (lead (em_level e) ++ display k, mkEmit (em_level e) false (em_enabled e) (em_brackets e))
  end.

Fixpoint emit_from (spaces : nat) (tokens : list Token) (e : Emit) : list char :=
  match tokens with
  | [] => []
  | t :: tokens =>
      match tok_kind t with
      | TEof => []
      | _ => let '(text, e) := emit_token spaces t (match tokens with n :: _ => ws_newline n | [] => false end) e in
             text ++ emit_from spaces tokens e
      end
  end.

Definition split_lines (s : list char) : list (list char) :=
  foldr (fun c ls => if c =? newline then [] :: ls else match ls with l :: ls => (c :: l) :: ls | [] => [[c]] end) [[]] s.

Definition is_trimmed (c : char) : bool := (c =? 32) || (c =? 9).

Fixpoint trim_start (r : list char) : list char :=
  match r with c :: r' => if is_trimmed c then trim_start r' else r | [] => [] end.

(** [trim_end_matches([' ', '\t'])]. *)
Definition trim_end (l : list char) : list char := reverse (trim_start (reverse l)).

Fixpoint join_lines (ls : list (list char)) : list char :=
  match ls with [] => [] | [l] => l | l :: ls => l ++ newline :: join_lines ls end.

Definition strip_lines (s : list char) : list char := join_lines (trim_end <$> split_lines s).

Definition emit_formatted_string (tokens : list Token) (indent_spaces : nat) : list char :=
  strip_lines (emit_from indent_spaces tokens (mkEmit 0 true true [])).

Section format.
Context `{Unicode}.

Definition turned_off (tokens : list Token) : bool :=
  match head tokens with
  | Some t => match tok_kind t with TComment c | TDocComment c => contains_str "//! vx-format: OFF" c | _ => false end
  | None => false
  end.

Definition has_unknown (tokens : list Token) : bool := existsb (fun t => match tok_kind t with TUnknown _ => true | _ => false end) tokens.

Definition format_file (content : list char) (indent_spaces : nat) : list char :=
  let tokens := tokenize (new_with_comments content) in
  if turned_off tokens then content
  else if has_unknown tokens then content
  else emit_formatted_string (adjust_spacing (normalize_and_expand_blocks tokens)) indent_spaces.
End format.
