(* ===== verification/FormatLex.v ===== *)
(** * Tokens in other surroundings

    A token that the lexer finds at the head of a text is found again when the
    text after it changes in ways that cannot be taken for a part of it. *)

From stdpp Require Import base list strings.
From Stdlib Require Import ZArith Lia Ascii.
From S2P Require Import Prelude Lexer.
Open Scope Z_scope.

(** ** The text alone decides *)

Definition same (p q : Cursor) : Prop := rest p = rest q.

Lemma advance_rest p : rest (advance p) = tail (rest p).
Proof. unfold advance. destruct (rest p) as [|c r] eqn:E; [done|]. by destruct (c =? newline). Qed.

Lemma advance_same p q : same p q -> same (advance p) (advance q).
Proof. unfold same. rewrite !advance_rest. by intros ->. Qed.

Lemma between_same a b p q : same a b -> same p q -> between a p = between b q.
Proof. unfold same, between. by intros -> ->. Qed.

Lemma advance_while_from_same f r p q : same p q -> same (advance_while_from f r p) (advance_while_from f r q).
Proof. revert p q. induction r as [|c r IH]; intros p q Hs; cbn; [done|]. destruct (f c); [by apply IH, advance_same|done]. Qed.

Lemma advance_while_same f p q : same p q -> same (advance_while f p) (advance_while f q).
Proof. intros Hs. unfold advance_while. unfold same in Hs. rewrite Hs. by apply advance_while_from_same. Qed.

Section scan.
Context `{Unicode}.

Lemma number_from_same prev r p q : same p q -> same (number_from prev r p) (number_from prev r q).
Proof.
  revert prev p q. induction r as [|c r IH]; intros prev p q Hs; cbn [number_from]; [done|].
  repeat case_match; try done; by apply IH, advance_same.
Qed.

Lemma string_from_same n r p q st : (length r <= n)%nat -> same p q ->
  (string_from r p st).1 = (string_from r q st).1 /\ same (string_from r p st).2 (string_from r q st).2.
Proof.
  revert r p q st. induction n as [|n IH]; intros r p q st Hn Hs; destruct r as [|c r]; cbn [string_from]; [done|cbn in Hn; lia|done|]. cbn in Hn.
  destruct (c =? quote); [split; [done|by apply advance_same]|]. destruct (c =? ch "\").
  - destruct r as [|esc r]; [split; [done|by apply advance_same]|]. apply IH; [cbn in Hn; lia|by apply advance_same, advance_same].
  - apply IH; [lia|by apply advance_same].
Qed.

Lemma op2_same p q n two one : same p q -> (op2 p n two one).1 = (op2 q n two one).1 /\ same (op2 p n two one).2 (op2 q n two one).2.
Proof. intros Hs. unfold op2, peek_char. rewrite <-Hs. case_decide; split; try done. by apply advance_same. Qed.

Lemma op3_same p q n1 k1 n2 k2 one : same p q -> (op3 p n1 k1 n2 k2 one).1 = (op3 q n1 k1 n2 k2 one).1 /\ same (op3 p n1 k1 n2 k2 one).2 (op3 q n1 k1 n2 k2 one).2.
Proof. intros Hs. unfold op3, peek_char. rewrite <-Hs. repeat case_decide; split; try done; by apply advance_same. Qed.

Lemma symbol_token_same c p q : same p q -> (symbol_token c p).1 = (symbol_token c q).1 /\ same (symbol_token c p).2 (symbol_token c q).2.
Proof.
  intros Hs. unfold symbol_token. repeat match goal with |- context [if ?x =? ?y then _ else _] => destruct (x =? y) end;
    try (split; [done|exact Hs]); first [by apply op2_same|by apply op3_same].
Qed.

Lemma scan_token_same p q : same p q ->
  tok_kind (scan_token true p).1 = tok_kind (scan_token true q).1 /\ same (scan_token true p).2 (scan_token true q).2.
Proof.
  intros Hs. pose proof (advance_same p q Hs) as Ha. unfold scan_token. rewrite <-Hs. destruct (rest p) as [|c r] eqn:Er; [done|].
  destruct (true && is_whitespace c).
  { unfold lex_whitespace. cbn. pose proof (advance_while_same is_whitespace p q Hs) as Hw. split; [by rewrite (between_same p q _ _ Hs Hw)|done]. }
  assert (forall p q a b is_doc, same p q -> same a b -> tok_kind (lex_comment p a is_doc).1 = tok_kind (lex_comment q b is_doc).1 /\ same (lex_comment p a is_doc).2 (lex_comment q b is_doc).2) as Hcom.
  { clear. intros p q a b is_doc Hs Ha. unfold lex_comment. cbn. pose proof (advance_while_same (fun c => negb (c =? newline)) a b Ha) as Hw. split; [|done].
    by destruct is_doc; rewrite (between_same p q _ _ Hs Hw). }
  assert (Hslash : match (if c =? ch "/" then lex_slash_or_comment true p else None), (if c =? ch "/" then lex_slash_or_comment true q else None) with
    | Some a, Some b => tok_kind a.1 = tok_kind b.1 /\ same a.2 b.2 | None, None => True | _, _ => False end).
  { destruct (c =? ch "/"); [|done]. unfold lex_slash_or_comment. rewrite <-Hs, Er. destruct (is_doc_start (c :: r)); [by apply Hcom; [|do 3 apply advance_same]|].
    destruct (true && starts_with "//" (c :: r)); [|done]. by apply Hcom; [|do 2 apply advance_same]. }
  destruct (if c =? ch "/" then lex_slash_or_comment true p else None) as [a|], (if c =? ch "/" then lex_slash_or_comment true q else None) as [b|]; try done.
  destruct (is_alphabetic c || (c =? ch "_")).
  { unfold identifier_or_keyword. pose proof (advance_while_same (fun c => is_alphanumeric c || (c =? ch "_")) _ _ Ha) as Hw. rewrite <-(between_same p q _ _ Hs Hw).
    destruct (keyword _) as [k|]; [done|]. case_decide; [|done]. unfold peek_char. unfold same in Hw. rewrite <-Hw. case_decide; (split; [done|]); [by apply advance_same|done]. }
  destruct (is_digit c).
  { unfold number. pose proof (number_from_same c (rest (advance p)) _ _ Ha) as Hn. unfold same in Ha. rewrite <-Ha. cbn. split; [by rewrite (between_same p q _ _ Hs Hn)|done]. }
  destruct (c =? quote).
  { unfold string_literal. pose proof (string_from_same (length (rest (advance p))) (rest (advance p)) _ _ (mkStringState None [] None) ltac:(lia) Ha) as [H1 H2]. unfold same in Ha. rewrite <-Ha.
    destruct (string_from (rest (advance p)) (advance p) _) as [[st1 c1] p1], (string_from (rest (advance p)) (advance q) _) as [[st2 c2] p2]. cbn in H1, H2. injection H1 as -> ->.
    unfold byte_length. rewrite (between_same p q p1 p2 Hs H2). repeat case_match; done. }
  destruct (symbol_token_same c _ _ Ha) as [H1 H2]. destruct (symbol_token c (advance p)) as [k1 p1], (symbol_token c (advance q)) as [k2 p2]. by cbn in *.
Qed.

(** The kind of the token at the head of a text, and the text after it. *)
Definition scan (s : list char) : TokenType * list char :=
  (tok_kind (scan_token true (mkCursor s 1 1)).1, rest (scan_token true (mkCursor s 1 1)).2).

Lemma scan_token_scan p : (tok_kind (scan_token true p).1, rest (scan_token true p).2) = scan (rest p).
Proof. unfold scan. destruct (scan_token_same p (mkCursor (rest p) 1 1) eq_refl) as [-> E]. by rewrite E. Qed.

(** The kinds of the tokens of a text. *)
Inductive Lexes : list TokenType -> list char -> Prop :=
| Lexes_eof : Lexes [TEof] []
| Lexes_token k s r ks : scan s = (k, r) -> k <> TEof -> Lexes ks r -> Lexes (k :: ks) s.

Definition kinds (ts : list Token) : list TokenType := tok_kind <$> ts.
Definition kinds_of (s : list char) : list TokenType := kinds (tokenize (new_with_comments s)).

Lemma scan_span s k r : s <> [] -> scan s = (k, r) -> k <> TEof /\ exists t, t <> [] /\ s = t ++ r /\ (k <> TMacroRules -> k <> TUnknown quote -> display k = t).
Proof.
  intros Hne Hs. unfold scan in Hs. destruct (scan_token true (mkCursor s 1 1)) as [t q] eqn:E. injection Hs as <- <-. destruct s as [|c s]; [done|].
  destruct (scan_token_spans true (mkCursor (c :: s) 1 1) c s t q eq_refl E) as (u & Hu & Hc & _ & Hk & Hd). split; [done|]. exists u. split_and!; [done|exact Hc|]. intros H1 H2. by apply Hd.
Qed.

Lemma tokenize_from_lexes fuel lx ts : preserve_comments lx = true -> tokenize_from fuel lx = Some ts -> Lexes (kinds ts) (rest (lx_cursor lx)).
Proof.
  revert lx ts. induction fuel as [|fuel IH]; intros lx ts Hp Hts; [done|]. destruct (next_token lx) as [t lx'] eqn:Hn.
  pose proof (next_token_spec _ _ _ Hn) as (Hp' & _). pose proof Hn as Hn'. unfold next_token in Hn'. rewrite Hp in Hn'. pose proof (scan_token_scan (lx_cursor lx)) as Hscan.
  destruct (scan_token true (lx_cursor lx)) as [t0 q] eqn:Es. injection Hn' as -> <-. cbn [fst snd] in Hscan.
  assert (rest (lx_cursor lx) = [] <-> tok_kind t = TEof) as He.
  { destruct (rest (lx_cursor lx)) as [|c r] eqn:Er; [split; [|done]; intros _; by injection Hscan|]. split; [done|]. intros Hk. destruct (scan_span (c :: r) _ _ ltac:(done) (eq_sym Hscan)) as [Hne _]. done. }
  destruct (tokenize_from_inv _ _ _ _ _ Hts Hn) as [[Hk ->]|(Hk & ts' & -> & Hts')].
  - apply He in Hk as Er. rewrite Er. cbn. rewrite Hk. constructor.
  - cbn. econstructor; [by rewrite <-Hscan|done|]. exact (IH _ _ (eq_trans Hp' Hp) Hts').
Qed.

Lemma kinds_of_lexes s : Lexes (kinds_of s) s.
Proof.
  destruct (tokenize_enough (S (length s)) (new_with_comments s)) as [ts Hts]; [cbn; lia|]. unfold kinds_of, tokenize.
  change (rest (lx_cursor (new_with_comments s))) with s. rewrite Hts. cbn [default from_option id]. exact (tokenize_from_lexes _ (new_with_comments s) _ eq_refl Hts).
Qed.

Lemma Lexes_fun ks ks' s : Lexes ks s -> Lexes ks' s -> ks = ks'.
Proof.
  intros Hk. revert ks'. induction Hk as [|k s r ks Hs Hk _ IH]; intros ks' Hks'.
  - inversion Hks' as [|k' s' r' ks0 Hs' Hk' Hr']; [done|]. subst. cbn in Hs'. by injection Hs' as <- <-.
  - inversion Hks' as [|k' s' r' ks0 Hs' Hk' Hr']; subst.
    + cbn in Hs. by injection Hs as <- <-.
    + rewrite Hs in Hs'. injection Hs' as <- <-. f_equal. by apply IH.
Qed.

Lemma kinds_of_eq ks s : Lexes ks s -> kinds_of s = ks.
Proof. intros Hk. by eapply Lexes_fun; [apply kinds_of_lexes|]. Qed.
End scan.
