(* ===== verification/FormatLocal.v ===== *)
(** * Tokens before changed text

    A token ends where the text after it starts, and the lexer looks at most two
    characters past it.  A token that is found before a text is found before
    every text that starts the same way or with a blank. *)

From stdpp Require Import base list strings.
From Stdlib Require Import ZArith Lia Ascii.
From S2P Require Import Prelude Lexer Format FormatLex.
Open Scope Z_scope.

(** Nothing, or a blank first. *)
Definition opens_blank (r : list char) : Prop := match r with [] => True | c :: _ => is_whitespace c = true end.
Definition opens_line (r : list char) : Prop := match r with [] => True | c :: _ => c = newline end.

(** What the lexer sees past a token ends it in both texts. *)
Definition similar (r r' : list char) : Prop :=
  opens_blank r' \/
  exists c s s', r = c :: s /\ r' = c :: s' /\ (head s = head s' \/ (opens_blank s' /\ ~ (c = ch "." /\ head s = Some (ch ".")))).

Definition fails_at (f : char -> bool) (r : list char) : Prop := match r with [] => True | c :: _ => f c = false end.

Lemma similar_fails f r r' : similar r r' -> (forall c, is_whitespace c = true -> f c = false) -> fails_at f r -> fails_at f r'.
Proof.
  intros [Hb|(c & s & s' & -> & -> & _)] Hf Hr; [|exact Hr]. destruct r' as [|c r']; [done|]. exact (Hf c Hb).
Qed.

Lemma similar_head r r' c : similar r r' -> is_whitespace c = false -> head r <> Some c -> head r' <> Some c.
Proof. intros [Hb|(d & s & s' & -> & -> & _)] Hc; [|done]. destruct r' as [|d r']; [done|]. intros _ [= ->]. cbn in Hb. congruence. Qed.

Lemma app_shorter {A} (c : A) t r : r <> c :: t ++ r.
Proof. intros E. apply (f_equal length) in E. cbn in E. rewrite length_app in E. lia. Qed.

(** ** The loops *)

Fixpoint drop_while (f : char -> bool) (r : list char) : list char :=
  match r with [] => [] | c :: r' => if f c then drop_while f r' else r end.

Lemma advance_while_drop f p : rest (advance_while f p) = drop_while f (rest p).
Proof.
  unfold advance_while. remember (rest p) as r eqn:Hr. revert p Hr. induction r as [|c r IH]; intros p Hr; cbn; [done|].
  destruct (f c); [|done]. apply IH. by rewrite advance_rest, <-Hr.
Qed.

Lemma drop_while_local f t r r' : drop_while f (t ++ r) = r -> fails_at f r' -> drop_while f (t ++ r') = r'.
Proof.
  intros Hr Hf. induction t as [|c t IH]; cbn in *; [destruct r' as [|c r']; [done|]; cbn in *; by rewrite Hf|].
  destruct (f c); [by apply IH|]. by apply eq_sym, app_shorter in Hr.
Qed.

Lemma drop_while_taken f t r : drop_while f (t ++ r) = r -> Forall (fun c => f c = true) t.
Proof.
  induction t as [|c t IH]; cbn; [by constructor|]. destruct (f c) eqn:E; [intros Hr; constructor; [done|by apply IH]|].
  intros Hr. by apply eq_sym, app_shorter in Hr.
Qed.

Lemma drop_while_all f t r : Forall (fun c => f c = true) t -> fails_at f r -> drop_while f (t ++ r) = r.
Proof. intros Ht Hr. induction Ht as [|c t Hc _ IH]; [|cbn; by rewrite Hc]. destruct r as [|c r]; [done|]. cbn in *. by rewrite Hr. Qed.

Lemma drop_while_fails f r : fails_at f (drop_while f r).
Proof. induction r as [|c r IH]; [done|]. cbn. by destruct (f c) eqn:E. Qed.

Lemma between_app a p t r : rest a = t ++ r -> rest p = r -> between a p = t.
Proof. intros Ha <-. by apply between_consumes. Qed.

Section local.
Context `{Unicode}.

Lemma space_not_number c : is_whitespace c = true -> is_digit c || is_alphabetic c || (c =? ch "_") = false /\ c <> ch "." /\ c <> ch "+" /\ c <> ch "-".
Proof.
  intros Hw. destruct (whitespace_not_alphanumeric c Hw) as [-> _]. destruct (whitespace_not_ascii_word c Hw) as [_ ->].
  assert (forall d, is_whitespace d = false -> c <> d) as Hd by congruence. split_and!; try by apply Hd.
  assert (c <> ch "_") as Hu by (by apply Hd). by rewrite (proj2 (Z.eqb_neq _ _) Hu).
Qed.

Lemma space_not_word c : is_whitespace c = true -> is_alphanumeric c || (c =? ch "_") = false.
Proof.
  intros Hw. unfold is_alphanumeric. destruct (whitespace_not_alphanumeric c Hw) as [-> ->].
  by rewrite (proj2 (Z.eqb_neq c (ch "_")) (ltac:(intros ->; done))).
Qed.

Lemma number_from_shorter prev r p : rest p = r -> (length (rest (number_from prev r p)) <= length r)%nat.
Proof. intros Hr. destruct (number_from_spec prev r p Hr) as (s & Hs). unfold consumes in Hs. rewrite Hr in Hs. rewrite Hs at 2. rewrite length_app. lia. Qed.

(** Where a number ends. *)
Lemma number_stops prev r p : rest p = r -> rest (number_from prev r p) = r -> number_from prev r p = p.
Proof.
  intros Hr. destruct r as [|c r]; [done|]. assert (forall q, rest (number_from q r (advance p)) <> c :: r) as Hsh.
  { intros q E. assert (rest (advance p) = r) as Ha by (by rewrite advance_rest, Hr). pose proof (number_from_shorter q r _ Ha) as Hl. rewrite E in Hl. cbn in Hl. lia. }
  cbn [number_from]. repeat case_match; try done; intros E; by apply Hsh in E.
Qed.

Lemma number_local prev t r r' p p' :
  rest p = t ++ r -> rest p' = t ++ r' -> rest (number_from prev (t ++ r) p) = r -> similar r r' -> rest (number_from prev (t ++ r') p') = r'.
Proof.
  intros Hp Hp' Hn Hs. revert prev p p' Hp Hp' Hn. induction t as [|c t IH]; intros prev p p' Hp Hp' Hn; cbn [app] in *.
  - pose proof (number_stops _ _ _ Hp Hn) as Hst. destruct Hs as [Hb|(c & s & s' & -> & -> & Hs)].
    + destruct r' as [|c r']; [done|]. cbn in Hb. destruct (space_not_number c Hb) as (H1 & H2 & H3 & H4). cbn [number_from]. rewrite H1.
      by rewrite (proj2 (Z.eqb_neq _ _) H2), (proj2 (Z.eqb_neq _ _) H3), (proj2 (Z.eqb_neq _ _) H4).
    + assert (forall q, number_from q s (advance p) <> p) as Hsh.
      { intros q E. assert (rest (advance p) = s) as Ha by (by rewrite advance_rest, Hp). pose proof (number_from_shorter q s _ Ha) as Hl. rewrite E, Hp in Hl. cbn in Hl. lia. }
      cbn [number_from] in Hst |- *. destruct (is_digit c || is_alphabetic c || (c =? ch "_")); [by apply Hsh in Hst|].
      destruct (Z.eqb_spec c (ch ".")) as [->|].
      { case_decide as Hd; [|by apply Hsh in Hst]. destruct Hs as [Hh|[_ Hs]]; [by rewrite <-Hh, decide_True|]. by destruct Hs. }
      destruct ((c =? ch "+") || (c =? ch "-")); [|done]. destruct ((prev =? ch "e") || (prev =? ch "E")); cbn [andb] in *; [|done].
      destruct s' as [|d s']; [done|]. destruct Hs as [Hh|[Hb _]].
      * destruct s as [|d' s]; [done|]. injection Hh as ->. destruct (is_digit d); [by apply Hsh in Hst|done].
      * destruct (whitespace_not_ascii_word d Hb) as [_ ->]. done.
  - assert (rest (advance p) = t ++ r) as Ha by (by rewrite advance_rest, Hp). assert (rest (advance p') = t ++ r') as Ha' by (by rewrite advance_rest, Hp').
    pose proof (fun q => IH q _ _ Ha Ha') as Hstep. cbn [number_from] in Hn |- *.
    assert (rest p <> r) as Hpr by (rewrite Hp; intros E; by apply eq_sym, app_shorter in E).
    destruct (is_digit c || is_alphabetic c || (c =? ch "_")); [by apply Hstep|]. destruct (c =? ch ".").
    { case_decide as Hd; [done|]. rewrite decide_False; [by apply Hstep|]. destruct t as [|d t]; [|exact Hd]. cbn in *. exact (similar_head r r' (ch ".") Hs eq_refl Hd). }
    destruct ((c =? ch "+") || (c =? ch "-")); [|done]. destruct ((prev =? ch "e") || (prev =? ch "E")); cbn [andb] in *; [|done].
    destruct t as [|d t]; cbn [app] in *; [|by destruct (is_digit d); [apply Hstep|]].
    destruct r as [|d r]; [done|]. destruct (is_digit d) eqn:Ed; [|done]. cbn [number_from] in Hn. rewrite Ed in Hn. cbn [orb] in Hn.
    assert (rest (advance (advance p)) = r) as Ha2 by (by rewrite advance_rest, Ha). pose proof (number_from_shorter d r _ Ha2) as Hl. rewrite Hn in Hl. cbn in Hl. lia.
Qed.

Lemma string_from_shorter r p st st' q : rest p = r -> string_from r p st = (st', true, q) -> (length (rest q) < length r)%nat.
Proof.
  intros Hr Hs. destruct (string_from_spec r p st st' true q Hr Hs) as (s & Hc & Hq). destruct (Hq eq_refl) as [s0 ->].
  unfold consumes in Hc. rewrite Hr in Hc. rewrite Hc, !length_app. cbn. lia.
Qed.

Lemma string_local n t r r' p p' st st' q :
  (length t <= n)%nat -> rest p = t ++ r -> rest p' = t ++ r' -> string_from (t ++ r) p st = (st', true, q) -> rest q = r ->
  exists q', string_from (t ++ r') p' st = (st', true, q') /\ rest q' = r'.
Proof.
  revert t p p' st. induction n as [|n IH]; intros t p p' st Hn Hp Hp' Hs Hq.
  all: destruct t as [|c t]; [apply string_from_shorter in Hs; [|done]; rewrite Hq in Hs; cbn in Hs; lia|cbn in Hn].
  { lia. }
  cbn [app] in *. assert (rest (advance p) = t ++ r) as Ha by (by rewrite advance_rest, Hp). assert (rest (advance p') = t ++ r') as Ha' by (by rewrite advance_rest, Hp').
  cbn [string_from] in Hs |- *. destruct (c =? quote).
  { injection Hs as <- <-. exists (advance p'). split; [done|]. rewrite Ha' . rewrite Ha in Hq. destruct t as [|d t]; [done|]. by apply eq_sym, app_shorter in Hq. }
  destruct (c =? ch "\"); [|by apply (IH t _ _ _ ltac:(lia) Ha Ha' Hs Hq)].
  destruct t as [|esc t]; cbn [app] in *.
  - destruct r as [|esc r]; [done|]. apply string_from_shorter in Hs; [|by rewrite advance_rest, Ha]. rewrite Hq in Hs. cbn in Hs. lia.
  - apply (IH t (advance (advance p)) _ _ ltac:(cbn in Hn; lia)); [by rewrite advance_rest, Ha|by rewrite advance_rest, Ha'|exact Hs|exact Hq].
Qed.

(** ** Operators *)

Definition local (f : Cursor -> TokenType * Cursor) : Prop :=
  forall t r r' p p', rest p = t ++ r -> rest p' = t ++ r' -> rest (f p).2 = r -> similar r r' -> (f p').1 = (f p).1 /\ rest (f p').2 = r'.

Lemma one_local k : local (fun p => (k, p)).
Proof. intros t r r' p p' Hp Hp' Hr Hs. cbn in *. split; [done|]. rewrite Hp in Hr. destruct t as [|c t]; [done|]. by apply eq_sym, app_shorter in Hr. Qed.

Lemma next_local t r r' p p' c (f g : Cursor -> TokenType * Cursor) k :
  is_whitespace c = false -> local g ->
  rest p = t ++ r -> rest p' = t ++ r' -> similar r r' ->
  let h p := if decide (peek_char p = Some c) then (k, advance p) else g p in
  rest (h p).2 = r -> (h p').1 = (h p).1 /\ rest (h p').2 = r'.
Proof.
  intros Hc Hg Hp Hp' Hs h Hr. unfold h, peek_char in *. rewrite Hp, Hp' in *. destruct t as [|d t]; cbn [app head] in *.
  - case_decide as Hh; [|rewrite decide_False by exact (similar_head _ _ _ Hs Hc Hh); by apply (Hg [] r r')].
    destruct r as [|d r]; [done|]. cbn in Hr. rewrite advance_rest, Hp in Hr. cbn in Hr. by apply (app_shorter d []) in Hr.
  - case_decide; [|by apply (Hg (d :: t) r r')]. cbn in *. rewrite advance_rest, Hp in Hr. rewrite advance_rest, Hp'. cbn in *.
    split; [done|]. destruct t as [|e t]; [done|]. by apply eq_sym, app_shorter in Hr.
Qed.

Lemma op2_local n two one : is_whitespace (ch n) = false -> local (fun p => op2 p n two one).
Proof. intros Hn t r r' p p' Hp Hp' Hr Hs. exact (next_local t r r' p p' (ch n) (fun p => (one, p)) _ two Hn (one_local one) Hp Hp' Hs Hr). Qed.

Lemma op3_local n1 k1 n2 k2 one : is_whitespace (ch n1) = false -> is_whitespace (ch n2) = false -> local (fun p => op3 p n1 k1 n2 k2 one).
Proof.
  intros Hn1 Hn2 t r r' p p' Hp Hp' Hr Hs.
  exact (next_local t r r' p p' (ch n1) (fun p => op2 p n2 k2 one) _ k1 Hn1 (op2_local n2 k2 one Hn2) Hp Hp' Hs Hr).
Qed.

Lemma symbol_local c : local (symbol_token c).
Proof.
  unfold symbol_token. intros t r r' p p'.
  repeat match goal with |- context [if ?x =? ?y then _ else _] => destruct (x =? y) end;
    first [exact (one_local _ t r r' p p')|refine (op2_local _ _ _ _ t r r' p p'); reflexivity|refine (op3_local _ _ _ _ _ _ _ t r r' p p'); reflexivity].
Qed.

(** ** Tokens *)

Lemma starts_slashes s : starts_with "//" (ch "/" :: s) = bool_decide (head s = Some (ch "/")).
Proof. unfold starts_with. apply bool_decide_ext. destruct s as [|c s]; [done|]. change (take (String.length "//") (ch "/" :: c :: s)) with [ch "/"; c]. change (chars "//") with [ch "/"; ch "/"]. cbn [head]. naive_solver. Qed.

Lemma doc_starts_slashes s : is_doc_start s = true -> starts_with "//" s = true.
Proof.
  unfold is_doc_start. intros [Hd _]%andb_prop. apply starts_with_cons in Hd as (r1 & -> & Hd). apply starts_with_cons in Hd as (r2 & -> & Hd).
  change (Z.of_nat (nat_of_ascii "/")) with (ch "/"). by rewrite starts_slashes, bool_decide_eq_true.
Qed.

Lemma no_comment p c s : rest p = c :: s -> (if c =? ch "/" then lex_slash_or_comment true p else None) = None <-> ~ (c = ch "/" /\ head s = Some (ch "/")).
Proof.
  intros Hp. destruct (Z.eqb_spec c (ch "/")) as [->|]; [|naive_solver]. unfold lex_slash_or_comment. rewrite Hp.
  pose proof (starts_slashes s) as Hs. destruct (is_doc_start (ch "/" :: s)) eqn:Hd.
  - rewrite (doc_starts_slashes _ Hd) in Hs. apply eq_sym, bool_decide_eq_true in Hs. naive_solver.
  - rewrite Hs. cbn [andb]. case_bool_decide; naive_solver.
Qed.

Lemma comment_kind p c t q : (if c =? ch "/" then lex_slash_or_comment true p else None) = Some (t, q) -> is_comment (tok_kind t) = true.
Proof. destruct (c =? ch "/"); [|done]. unfold lex_slash_or_comment. by repeat case_match; intros [= <- <-]. Qed.

Lemma word_local start start' p p' t0 t r r' :
  rest start = t0 ++ r -> rest start' = t0 ++ r' -> rest p = t ++ r -> rest p' = t ++ r' -> similar r r' ->
  let out := identifier_or_keyword start p in
  rest out.2 = r -> tok_kind out.1 <> TMacroRules ->
  tok_kind (identifier_or_keyword start' p').1 = tok_kind out.1 /\ rest (identifier_or_keyword start' p').2 = r'.
Proof.
  intros Hs Hs' Hp Hp' Hsim. unfold identifier_or_keyword. cbv zeta. set (f := fun c => is_alphanumeric c || (c =? ch "_")).
  pose proof (advance_while_drop f p) as Hd. pose proof (advance_while_drop f p') as Hd'. rewrite Hp in Hd. rewrite Hp' in Hd'.
  pose proof (drop_while_fails f (t ++ r)) as Hf. rewrite <-Hd in Hf.
  assert (rest (advance_while f p) = r -> rest (advance_while f p') = r') as Hrest.
  { intros Hr. rewrite Hd' . rewrite Hr in *. apply (drop_while_local f t r r' (eq_sym Hd)). by apply (similar_fails f r r' Hsim space_not_word). }
  assert (rest (advance_while f p) = r -> between start (advance_while f p) = t0) as Hb by (intros Hr; by apply (between_app _ _ _ r)).
  assert (rest (advance_while f p') = r' -> between start' (advance_while f p') = t0) as Hb' by (intros Hr; by apply (between_app _ _ _ r')).
  destruct (keyword (between start (advance_while f p))) as [k|] eqn:Ek; cbn [fst snd tok_kind mk_tok].
  - intros Hr _. rewrite (Hb' (Hrest Hr)), <-(Hb Hr), Ek. cbn. split; [done|]. by apply Hrest.
  - destruct (decide (between start (advance_while f p) = chars "macro_rules")); [intros _ Hm; by destruct Hm|]. cbn [fst snd tok_kind mk_tok]. intros Hr _. rewrite (Hb' (Hrest Hr)), <-(Hb Hr), Ek, decide_False by done. cbn. split; [done|]. by apply Hrest.
Qed.

Lemma scan_local t r r' k :
  t <> [] -> scan (t ++ r) = (k, r) -> is_blank k = false -> k <> TMacroRules -> k <> TUnknown quote -> similar r r' -> scan (t ++ r') = (k, r').
Proof.
  destruct t as [|c t]; [done|]. intros _. unfold scan. cbn [app]. set (p := mkCursor (c :: t ++ r) 1 1). set (p' := mkCursor (c :: t ++ r') 1 1).
  intros [= Hk Hr] Hb Hm Hq Hsim. revert Hk Hr. unfold scan_token. cbn [rest p p'].
  assert (rest (advance p) = t ++ r) as Ha by (by rewrite advance_rest). assert (rest (advance p') = t ++ r') as Ha' by (by rewrite advance_rest).
  assert (rest p = (c :: t) ++ r) as Hp by done. assert (rest p' = (c :: t) ++ r') as Hp' by done.
  clearbody p p'. destruct (is_whitespace c); cbn [andb]; [unfold lex_whitespace; cbn; by intros <-|].
  destruct (if c =? ch "/" then lex_slash_or_comment true p else None) as [[t1 q1]|] eqn:Ec.
  { apply comment_kind in Ec. cbn. intros <-. unfold is_blank in Hb. rewrite Ec, orb_true_r in Hb. done. }
  apply (no_comment p c (t ++ r) Hp) in Ec. assert ((if c =? ch "/" then lex_slash_or_comment true p' else None) = None) as ->.
  { apply (no_comment p' c (t ++ r') Hp'). intros [-> Hh]. apply Ec. split; [done|]. destruct t as [|d t]; [|done]. cbn in *. destruct (decide (head r = Some (ch "/"))) as [|Hn]; [done|]. by destruct (similar_head r r' (ch "/") Hsim eq_refl Hn). }
  destruct (is_alphabetic c || (c =? ch "_")).
  { intros Hk Hr. destruct (word_local p p' (advance p) (advance p') (c :: t) t r r' Hp Hp' Ha Ha' Hsim Hr) as [H1 H2]; [by rewrite Hk|]. by rewrite H1, H2, Hk. }
  destruct (is_digit c).
  { unfold number. cbn [fst snd tok_kind mk_tok]. rewrite Ha, Ha'. intros <- Hr. pose proof (number_local c t r r' _ _ Ha Ha' Hr Hsim) as Hn.
    rewrite Hn. by rewrite (between_app _ _ (c :: t) r' Hp' Hn), (between_app _ _ (c :: t) r Hp Hr). }
  destruct (c =? quote).
  { unfold string_literal. rewrite Ha, Ha'. destruct (string_from (t ++ r) (advance p) _) as [[st closed] q] eqn:Es. destruct closed; cbn [negb]; [|cbn; intros <-; done].
    intros Hk Hr. assert (rest q = r) as Hqr. { revert Hr. by repeat case_match. }
    destruct (string_local (length t) t r r' _ (advance p') _ _ q ltac:(lia) Ha Ha' Es Hqr) as (q' & Es' & Hq'). rewrite Es'. cbn [negb].
    assert (between p' q' = between p q) as Hbt by (by rewrite (between_app _ _ (c :: t) r' Hp' Hq'), (between_app _ _ (c :: t) r Hp Hqr)).
    unfold byte_length in *. rewrite Hbt. revert Hk. repeat case_match; cbn; intros <-; by rewrite Hq'. }
  pose proof (symbol_local c t r r' _ _ Ha Ha') as Hl. destruct (symbol_token c (advance p)) as [k1 p1], (symbol_token c (advance p')) as [k2 p2].
  cbn in *. intros -> Hr. destruct (Hl Hr Hsim) as [-> ->]. done.
Qed.

(** A run of blanks is one token. *)
Lemma scan_blanks g r : g <> [] -> Forall (fun c => is_whitespace c = true) g -> fails_at is_whitespace r -> scan (g ++ r) = (TWhitespace g, r).
Proof.
  destruct g as [|c g]; [done|]. intros _ Hg Hr. pose proof Hg as Hg'. apply Forall_cons in Hg' as [Hc _]. unfold scan, scan_token. cbn [app rest]. rewrite Hc. cbn [andb].
  unfold lex_whitespace. cbn [fst snd tok_kind mk_tok]. set (p := mkCursor _ _ _).
  assert (rest (advance_while is_whitespace p) = r) as E.
  { rewrite advance_while_drop. by apply (drop_while_all _ (c :: g)). }
  by rewrite E, (between_app p _ (c :: g) r eq_refl E).
Qed.

Lemma scan_blank c s k r : is_whitespace c = true -> scan (c :: s) = (k, r) -> is_ws k = true.
Proof. intros Hc. unfold scan, scan_token. cbn [rest]. rewrite Hc. cbn. by intros [= <- _]. Qed.

(** ** Comments *)

Definition one_line (c : list char) : Prop := Forall (fun d => d <> newline) c.

(** The text [c] of a comment of the kind [doc]. *)
Definition comment_text (doc : bool) (c : list char) : Prop := one_line c /\ starts_with "//" c = true /\ is_doc_start c = doc.

Definition comment_of (doc : bool) (c : list char) : TokenType := if doc then TDocComment c else TComment c.

Lemma starts_with_step a pre d s : starts_with (String a pre) (d :: s) = (Z.of_nat (nat_of_ascii a) =? d) && starts_with pre s.
Proof.
  unfold starts_with. cbn [String.length take chars]. destruct (Z.eqb_spec (Z.of_nat (nat_of_ascii a)) d) as [->|Hn]; cbn [andb].
  - apply bool_decide_ext. split; [by intros [= ->]|by intros ->].
  - apply bool_decide_eq_false. by intros [= ->].
Qed.

Lemma starts_with_line pre c r : opens_line r -> Forall (fun d => d <> newline) (chars pre) -> starts_with pre (c ++ r) = starts_with pre c.
Proof.
  intros Hr. revert c. induction pre as [|a pre IH]; intros c Hp; [by unfold starts_with; destruct c, r|]. cbn in Hp. apply Forall_cons in Hp as [Ha Hp].
  destruct c as [|d c]; cbn [app]; [|by rewrite !starts_with_step, IH]. destruct r as [|d r]; [done|]. cbn in Hr. rewrite starts_with_step, Hr, (proj2 (Z.eqb_neq _ _) Ha).
  reflexivity.
Qed.

Lemma doc_start_line c r : opens_line r -> is_doc_start (c ++ r) = is_doc_start c.
Proof. intros Hr. unfold is_doc_start. by rewrite !starts_with_line by (first [exact Hr|repeat constructor; done]). Qed.

Lemma lex_comment_kind p a doc t r : rest p = t ++ r -> rest (lex_comment p a doc).2 = r -> tok_kind (lex_comment p a doc).1 = comment_of doc t.
Proof. intros Hp Hr. unfold lex_comment in *. cbn [fst snd tok_kind mk_tok] in *. rewrite (between_app p _ t r Hp Hr). by destruct doc. Qed.

Definition in_line (c : char) : bool := negb (c =? newline).

Lemma in_line_all c : Forall (fun d => in_line d = true) c <-> one_line c.
Proof. unfold one_line. apply Forall_iff. intros d. unfold in_line. rewrite negb_true_iff. apply Z.eqb_neq. Qed.

Lemma opens_line_fails r : opens_line r <-> fails_at in_line r.
Proof. destruct r as [|c r]; [done|]. cbn. unfold in_line. rewrite negb_false_iff. by rewrite Z.eqb_eq. Qed.

Lemma lex_comment_rest p a doc : rest (lex_comment p a doc).2 = drop_while in_line (rest a).
Proof. apply advance_while_drop. Qed.

(** A comment that is cut at the end of its line is found again. *)
Lemma comment_scan doc c r : comment_text doc c -> opens_line r -> scan (c ++ r) = (comment_of doc c, r).
Proof.
  intros (Hl & Hs & Hd) Hr. pose proof Hs as Hs'. apply starts_with_cons in Hs' as (r1 & -> & Hs'). apply starts_with_cons in Hs' as (u & -> & _).
  change (Z.of_nat (nat_of_ascii "/")) with (ch "/") in *. unfold scan, scan_token. cbn [app rest]. change (is_whitespace (ch "/")) with false. cbn [andb]. change (ch "/" =? ch "/") with true. cbn iota.
  set (p := mkCursor _ 1 1). unfold lex_slash_or_comment. change (rest p) with ((ch "/" :: ch "/" :: u) ++ r). rewrite (doc_start_line _ r Hr), Hd.
  assert (rest (advance (advance p)) = u ++ r) as Ha by done. apply in_line_all in Hl as Hf. do 2 apply Forall_cons in Hf as [_ Hf]. apply opens_line_fails in Hr as Hr'.
  destruct doc.
  - unfold is_doc_start in Hd. apply andb_prop in Hd as [Hd _]. rewrite !starts_with_step in Hd. destruct u as [|e u]; [done|].
    assert (rest (lex_comment p (advance (advance (advance p))) true).2 = r) as E.
    { rewrite lex_comment_rest, advance_rest, Ha. apply Forall_cons in Hf as [_ Hf]. by apply drop_while_all. }
    by rewrite (lex_comment_kind p _ true (ch "/" :: ch "/" :: e :: u) r eq_refl E), E.
  - rewrite (starts_with_line "//" _ r Hr) by (repeat constructor; done). rewrite Hs. cbn [andb].
    assert (rest (lex_comment p (advance (advance p)) false).2 = r) as E.
    { rewrite lex_comment_rest, Ha. by apply drop_while_all. }
    by rewrite (lex_comment_kind p _ false (ch "/" :: ch "/" :: u) r eq_refl E), E.
Qed.

Lemma keyword_no_blank text k : keyword text = Some k -> is_blank k = false.
Proof.
  unfold keyword. destruct (List.find _ _) as [[s k']|] eqn:E; [|done]. intros [= <-]. apply List.find_some in E as [Hin _].
  assert (Forall (fun e : string * TokenType => is_blank e.2 = false) KEYWORDS) as HF by (repeat constructor).
  rewrite Forall_forall in HF. by apply (HF (s, k')), list_elem_of_In.
Qed.

Lemma symbol_no_blank c p : is_blank (symbol_token c p).1 = false.
Proof. unfold symbol_token, op2, op3. by repeat case_match. Qed.

Lemma word_no_blank p : is_blank (tok_kind (identifier_or_keyword p (advance p)).1) = false.
Proof. unfold identifier_or_keyword. cbv zeta. destruct (keyword _) as [k'|] eqn:Ek; [cbn; by apply (keyword_no_blank _ _ Ek)|]. by case_decide. Qed.

Lemma string_no_blank p : is_blank (tok_kind (string_literal true p (advance p)).1) = false.
Proof. unfold string_literal. destruct (string_from _ _ _) as [[st closed] q]. by repeat case_match. Qed.

(** A token that is not a comment and does not start with a blank is no blank. *)
Lemma code_no_blank c s p : rest p = c :: s -> is_whitespace c = false -> (if c =? ch "/" then lex_slash_or_comment true p else None) = None ->
  is_blank (tok_kind (scan_token true p).1) = false.
Proof.
  intros Hp Hc Ec. unfold scan_token. rewrite Hp, Hc, Ec. cbn [andb]. destruct (is_alphabetic c || (c =? ch "_")); [apply word_no_blank|].
  destruct (is_digit c); [done|]. destruct (c =? quote); [apply string_no_blank|].
  pose proof (symbol_no_blank c (advance p)) as Hs. by destruct (symbol_token c (advance p)).
Qed.

Lemma ws_scanned g t r : scan (t ++ r) = (TWhitespace g, r) -> t <> [] -> g = t /\ Forall (fun c => is_whitespace c = true) t.
Proof.
  intros Hs Ht. destruct t as [|c t]; [done|]. cbn [app] in Hs. unfold scan in Hs. set (p := mkCursor _ 1 1) in Hs. injection Hs as Hk Hr.
  assert (rest p = (c :: t) ++ r) as Hp by done. clearbody p. destruct (is_whitespace c) eqn:Hc.
  - unfold scan_token in Hk, Hr. rewrite Hp in Hk, Hr. cbn [app] in Hk, Hr. rewrite Hc in Hk, Hr. cbn [andb] in Hk, Hr. unfold lex_whitespace in Hk, Hr. cbn [fst snd tok_kind mk_tok] in Hk, Hr.
    injection Hk as <-. split; [by apply (between_app _ _ _ r)|]. rewrite advance_while_drop, Hp in Hr. by apply drop_while_taken in Hr.
  - destruct (if c =? ch "/" then lex_slash_or_comment true p else None) as [[tk q]|] eqn:Ec.
    + pose proof (comment_kind _ _ _ _ Ec) as Hcom. unfold scan_token in Hk. rewrite Hp in Hk. cbn [app] in Hk. rewrite Hc, Ec in Hk. cbn in Hk. by rewrite Hk in Hcom.
    + pose proof (code_no_blank c (t ++ r) p Hp Hc Ec) as Hb. by rewrite Hk in Hb.
Qed.

Lemma comment_scanned k t r : scan (t ++ r) = (k, r) -> is_comment k = true -> exists doc, k = comment_of doc t /\ comment_text doc t /\ opens_line r.
Proof.
  intros Hs Hk. unfold scan in Hs. set (p := mkCursor (t ++ r) 1 1) in Hs. assert (rest p = t ++ r) as Hp by done. clearbody p. injection Hs as Hkk Hr.
  assert (forall a doc u, (lex_comment p a doc) = scan_token true p -> t ++ r = u ++ rest a -> one_line u -> starts_with "//" (t ++ r) = true -> is_doc_start (t ++ r) = doc ->
    exists doc, k = comment_of doc t /\ comment_text doc t /\ opens_line r) as Hcom.
  { intros a doc u E Ht Hu Hsl Hdoc. rewrite <-E in Hkk, Hr. pose proof (lex_comment_kind p a doc t r Hp Hr) as Hkind. rewrite lex_comment_rest in Hr. rewrite <-Hkk, Hkind.
    pose proof (drop_while_fails in_line (rest a)) as Hf. rewrite Hr in Hf. apply opens_line_fails in Hf.
    exists doc. split_and!; [done| |done]. unfold comment_text. rewrite starts_with_line in Hsl by (first [exact Hf|repeat constructor; done]). rewrite (doc_start_line t r Hf) in Hdoc.
    split_and!; [|done|done]. destruct (advance_while_spec in_line a) as (v & Hv & Hall). unfold consumes in Hv. rewrite advance_while_drop, Hr in Hv. rewrite Hv, app_assoc in Ht. apply app_inv_tail in Ht as ->.
    apply Forall_app. split; [done|by apply in_line_all]. }
  unfold scan_token in Hkk, Hcom. rewrite Hp in Hkk, Hcom. destruct (t ++ r) as [|c s] eqn:Et; [by rewrite <-Hkk in Hk|].
  destruct (is_whitespace c) eqn:Hw; cbn [andb] in Hkk, Hcom; [by rewrite <-Hkk in Hk|].
  destruct (if c =? ch "/" then lex_slash_or_comment true p else None) as [[tk q]|] eqn:Ec.
  - destruct (Z.eqb_spec c (ch "/")) as [->|]; [|done]. unfold lex_slash_or_comment in Ec. rewrite Hp in Ec.
    assert (rest (advance p) = s) as H1 by (by rewrite advance_rest, Hp).
    destruct (is_doc_start (ch "/" :: s)) eqn:Hd.
    + pose proof (doc_starts_slashes _ Hd) as Hsl. unfold is_doc_start in Hd. pose proof Hd as Hd'. apply andb_prop in Hd' as [Hd' _].
      apply starts_with_cons in Hd' as (r1 & [= <-] & Hd'). apply starts_with_cons in Hd' as (r2 & -> & Hd'). apply starts_with_cons in Hd' as (r3 & -> & _).
      apply (inj Some) in Ec. apply (Hcom _ true [ch "/"; ch "/"; ch "/"] Ec); [by rewrite !advance_rest, Hp|by repeat constructor|exact Hsl|done].
    + cbn [andb] in Ec. destruct (starts_with "//" (ch "/" :: s)) eqn:Hsl; [|done]. pose proof Hsl as Hsl'. rewrite starts_slashes in Hsl'. apply bool_decide_eq_true in Hsl'.
      destruct s as [|d s]; [done|]. injection Hsl' as ->. apply (inj Some) in Ec. apply (Hcom _ false [ch "/"; ch "/"] Ec); [by rewrite !advance_rest, Hp|by repeat constructor|first [exact Hsl|done]|done].
  - pose proof (code_no_blank c s p Hp Hw Ec) as Hb. unfold scan_token in Hb. rewrite Hp, Hw, Ec in Hb. cbn [andb] in Hb. rewrite Hkk in Hb. unfold is_blank in Hb. by rewrite Hk, orb_true_r in Hb.
Qed.
End local.
