(* ===== verification/FormatFits.v ===== *)
(** * Sequences of tokens that their text gives back

    [fits] says of a sequence of kinds that the lexer, on the text they spell,
    finds each of them where it starts.  Changing the blanks between them keeps
    it, as long as a token that was apart stays apart and a comment ends at its
    line. *)

From stdpp Require Import base list strings.
From Stdlib Require Import ZArith Lia.
From S2P Require Import Prelude Lexer Format FormatLex FormatLocal.
Open Scope Z_scope.

(** The text of a sequence, and the kinds of it that are not blanks. *)
Definition spell (ks : list TokenType) : list char := concat (display <$> ks).

Fixpoint code (ks : list TokenType) : list TokenType :=
  match ks with [] => [] | k :: ks => if is_ws k then code ks else k :: code ks end.

Definition blanks (g : list char) : Prop := g <> [] /\ Forall (fun c => is_whitespace c = true) g.

(** The kinds whose display is the text they were read from. *)
Definition readable (k : TokenType) : bool := match k with TMacroRules | TUnknown _ => false | _ => true end.

Lemma spell_cons k ks : spell (k :: ks) = display k ++ spell ks.
Proof. done. Qed.

Lemma spell_app a b : spell (a ++ b) = spell a ++ spell b.
Proof. unfold spell. by rewrite fmap_app, concat_app. Qed.

Lemma code_app a b : code (a ++ b) = code a ++ code b.
Proof. induction a as [|k a IH]; cbn; [done|]. rewrite IH. by destruct (is_ws k). Qed.

Lemma is_ws_inv (k : TokenType) : is_ws k = true -> exists g, k = TWhitespace g.
Proof. destruct k; try done. eauto. Qed.

#[export] Instance eof_decision (k : TokenType) : Decision (k = TEof).
Proof. destruct k; first [left; reflexivity|right; discriminate]. Defined.

Section fits.
Context `{Unicode}.

(** [k] is found in front of [r]. *)
Definition found (k : TokenType) (r : list char) : Prop := readable k = true /\ display k <> [] /\ scan (display k ++ r) = (k, r).

Fixpoint fits (ks : list TokenType) : Prop :=
  match ks with
  | [] => True
  | k :: ks => match k with TWhitespace g => blanks g | TEof => code ks = [] | _ => found k (spell ks) end /\ fits ks
  end.

Lemma fits_code k ks : fits (k :: ks) -> is_ws k = false -> k <> TEof -> found k (spell ks).
Proof. intros [Hk _]. by destruct k. Qed.

Lemma fits_ws g ks : fits (TWhitespace g :: ks) <-> blanks g /\ fits ks.
Proof. done. Qed.

Lemma fits_cons k ks : is_ws k = false -> k <> TEof -> found k (spell ks) -> fits ks -> fits (k :: ks).
Proof. intros Hk He Hf Hks. split; [by destruct k|done]. Qed.

Lemma fits_drop a b : fits (a ++ b) -> fits b.
Proof. induction a as [|k a IH]; [done|]. intros [_ Ha]. by apply IH. Qed.

(** ** Texts that fit are found again *)

Lemma fits_no_code ks : fits ks -> code ks = [] -> Forall (fun c => is_whitespace c = true) (spell ks).
Proof.
  induction ks as [|k ks IH]; intros Hf Hc; [by constructor|]. cbn in Hc. destruct (is_ws k) eqn:Ek; [|done].
  apply is_ws_inv in Ek as [g ->]. apply fits_ws in Hf as [[_ Hg] Hf]. cbn. apply Forall_app. split; [done|by apply IH].
Qed.

Lemma found_starts k r : found k r -> is_ws k = false -> fails_at is_whitespace (display k ++ r).
Proof.
  intros (_ & Hn & Hs) Hk. destruct (display k) as [|c u]; [done|]. cbn in *. destruct (is_whitespace c) eqn:Ec; [|done].
  by rewrite (scan_blank c _ _ _ Ec Hs) in Hk.
Qed.

Lemma lexes_blanks g ks s : Forall (fun c => is_whitespace c = true) g -> fails_at is_whitespace s -> Lexes ks s ->
  exists ks', Lexes ks' (g ++ s) /\ code ks' = code ks.
Proof.
  intros Hg Hs Hk. destruct g as [|c g]; [by exists ks|]. exists (TWhitespace (c :: g) :: ks). split; [|done].
  by econstructor; [by apply scan_blanks| |].
Qed.

Lemma fits_lexes ks g : fits ks -> TEof ∈ ks -> Forall (fun c => is_whitespace c = true) g ->
  exists ks', Lexes ks' (g ++ spell ks) /\ code ks' = code ks.
Proof.
  revert g. induction ks as [|k ks IH]; intros g Hf He Hg; [by apply elem_of_nil in He|]. destruct (is_ws k) eqn:Ek.
  { apply is_ws_inv in Ek as [w ->]. apply fits_ws in Hf as [[_ Hw] Hf]. apply elem_of_cons in He as [He|He]; [done|].
    destruct (IH (g ++ w) Hf He) as (ks' & H1 & H2); [by apply Forall_app|]. exists ks'. rewrite <-app_assoc in H1. done. }
  destruct (decide (k = TEof)) as [->|Hk].
  { destruct Hf as [Hc Hf]. pose proof (fits_no_code _ Hf Hc) as Hb. cbn. rewrite Hc.
    destruct (lexes_blanks (g ++ spell ks) [TEof] []) as (ks' & H1 & H2); [by apply Forall_app|done|constructor|]. exists ks'. by rewrite app_nil_r in H1. }
  pose proof (fits_code _ _ Hf Ek Hk) as Hfd. apply elem_of_cons in He as [He|He]; [done|]. destruct Hf as [_ Hf].
  destruct (IH [] Hf He) as (ks' & H1 & H2); [by constructor|].
  destruct (lexes_blanks g (k :: ks') (display k ++ spell ks) Hg) as (ks2 & H3 & H4); [by apply found_starts| |].
  { destruct Hfd as (_ & _ & Hs). by econstructor. }
  exists ks2. split; [done|]. rewrite H4. cbn. by rewrite Ek, H2.
Qed.

(** The tokens of a text fit. *)
Lemma lexes_fits ks s : Lexes ks s -> Forall (fun k => readable k = true) ks -> fits ks /\ spell ks = s /\ last ks = Some TEof /\ code ks <> [].
Proof.
  induction 1 as [|k s r ks Hs Hk _ IH]; intros Hr; [done|]. apply Forall_cons in Hr as [Hrk Hr]. destruct (IH Hr) as (Hf & Hsp & Hl & Hc).
  assert (s <> []) as Hne by (intros ->; cbn in Hs; by injection Hs as <- _).
  destruct (scan_span s k r Hne Hs) as (_ & t & Ht & -> & Hd). assert (display k = t) as <- by (apply Hd; by intros ->).
  assert (last (k :: ks) = Some TEof) as Hlast by (destruct ks; [done|exact Hl]).
  destruct (is_ws k) eqn:Ek.
  - apply is_ws_inv in Ek as [g ->]. destruct (ws_scanned g _ r Hs Ht) as [_ Hg]. split_and!; [by apply fits_ws|by rewrite spell_cons, Hsp|done|done].
  - split_and!; [|by rewrite spell_cons, Hsp|done|cbn; by rewrite Ek]. apply fits_cons; [done|done| |done]. by rewrite Hsp.
Qed.

(** ** Changes that keep the tokens *)

(** What a change of what follows [a] must keep. *)
Definition joint (a : list TokenType) (s' : list char) : Prop :=
  match last a with
  | Some k => is_ws k = true \/ (opens_blank s' /\ (is_comment k = true -> opens_line s'))
  | None => True
  end.

Lemma dots_scan s : scan (ch "." :: ch "." :: s) = (TDoubleDot, s).
Proof.
  unfold scan, scan_token. cbn [rest]. change (is_whitespace (ch ".")) with false. cbn [andb]. change (ch "." =? ch "/") with false. cbn iota.
  rewrite is_alphabetic_ascii by (vm_compute; intuition congruence). reflexivity.
Qed.

Lemma no_dots k s : scan (ch "." :: s) = (k, s) -> head s <> Some (ch ".").
Proof.
  intros Hs Hh. destruct s as [|c s]; [done|]. injection Hh as ->. rewrite dots_scan in Hs. injection Hs as _ E.
  by apply (app_shorter (ch ".") []) in E.
Qed.

Lemma ws_found_none k s : is_ws k = false -> found k s -> opens_blank (display k ++ s) -> False.
Proof. intros Hk Hf Hb. pose proof (found_starts k s Hf Hk) as Hs. destruct Hf as (_ & Hn & _). destruct (display k); [done|]. cbn in *. congruence. Qed.

Lemma shows_something k ks : fits (k :: ks) -> k <> TEof -> display k <> [].
Proof. intros Hf Hk. destruct (is_ws k) eqn:Ek; [apply is_ws_inv in Ek as [g ->]; by destruct Hf as [[Hg _] _]|]. by destruct (fits_code _ _ Hf Ek Hk) as (_ & Hn & _). Qed.

(** The texts after a token look the same to it. *)
Lemma change_similar k a b b' : fits (a ++ b) -> TEof ∉ a -> joint (k :: a) (spell b') -> is_ws k = false -> similar (spell (a ++ b)) (spell (a ++ b')).
Proof.
  intros Hf Ha Hj Hk. destruct a as [|k2 a].
  { left. unfold joint in Hj. cbn in Hj. destruct Hj as [Hw|[Hb _]]; [congruence|done]. }
  apply not_elem_of_cons in Ha as [Hk2 Ha]. pose proof (shows_something k2 (a ++ b) Hf (not_eq_sym Hk2)) as Hn.
  destruct (is_ws k2) eqn:Ew.
  { left. apply is_ws_inv in Ew as [g ->]. destruct Hf as [[_ Hg] _]. cbn in *. destruct g as [|c g]; [done|]. by apply Forall_cons in Hg as [Hg _]. }
  pose proof (fits_code _ _ Hf Ew (not_eq_sym Hk2)) as (_ & _ & Hs). cbn [app] in *. rewrite !spell_cons.
  destruct (display k2) as [|c u] eqn:Ed; [done|]. right. exists c, (u ++ spell (a ++ b)), (u ++ spell (a ++ b')). split_and!; [done|done|].
  destruct u as [|d u]; [|by left]. cbn in Hs |- *. destruct a as [|k3 a].
  - right. unfold joint in Hj. cbn in Hj. destruct Hj as [Hw|[Hb _]]; [congruence|]. split; [exact Hb|]. intros [-> Hh]. by apply (no_dots k2 _ Hs).
  - left. apply not_elem_of_cons in Ha as [Hk3 _]. destruct Hf as [_ Hf]. pose proof (shows_something k3 (a ++ b) Hf (not_eq_sym Hk3)) as Hn3. cbn [app]. rewrite !spell_cons.
    by destruct (display k3) as [|e v].
Qed.

Lemma change_line k a b b' : fits (a ++ b) -> TEof ∉ a -> joint (k :: a) (spell b') -> is_comment k = true -> opens_line (spell (a ++ b)) -> opens_line (spell (a ++ b')).
Proof.
  intros Hf Ha Hj Hk Ho. destruct a as [|k2 a].
  { unfold joint in Hj. cbn in Hj. destruct Hj as [Hw|[_ Hl]]; [by destruct k|by apply Hl]. }
  apply not_elem_of_cons in Ha as [Hk2 Ha]. pose proof (shows_something k2 (a ++ b) Hf (not_eq_sym Hk2)) as Hn. cbn [app] in *. rewrite spell_cons in Ho |- *. by destruct (display k2).
Qed.

Lemma comment_of_is doc c : is_comment (comment_of doc c) = true.
Proof. by destruct doc. Qed.

(** A token found before a text is found before one that looks the same. *)
Lemma found_again k r r' : found k r -> is_ws k = false -> similar r r' -> (is_comment k = true -> opens_line r -> opens_line r') -> found k r'.
Proof.
  intros (Hr & Hn & Hs) Hk Hsim Hl. split_and!; [done|done|]. destruct (is_comment k) eqn:Ec.
  - destruct (comment_scanned k _ r Hs Ec) as (doc & Ek & Hc & Ho). rewrite Ek at 2. apply comment_scan; [done|by apply Hl].
  - apply (scan_local _ r); [done|done|unfold is_blank; by rewrite Hk, Ec|by intros ->|by intros ->|done].
Qed.

Lemma joint_cons k a s : a <> [] -> joint (k :: a) s -> joint a s.
Proof. destruct a; [done|]. done. Qed.

Lemma fits_change a b b' : fits (a ++ b) -> fits b' -> TEof ∉ a -> joint a (spell b') -> fits (a ++ b').
Proof.
  induction a as [|k a IH]; intros Hf Hb Ha Hj; [done|]. pose proof Ha as Ha'. apply not_elem_of_cons in Ha' as [Hk Ha']. cbn [app] in *. pose proof Hf as [_ Hf'].
  assert (fits (a ++ b')) as Hrest. { destruct a as [|k2 a]; [done|]. apply IH; [done|done|done|]. by apply (joint_cons k). }
  destruct (is_ws k) eqn:Ek.
  - apply is_ws_inv in Ek as [g ->]. destruct Hf as [Hg _]. by apply fits_ws.
  - apply fits_cons; [done|done| |done]. apply (found_again k (spell (a ++ b))); [by apply fits_code|done|by apply (change_similar k)|by apply change_line].
Qed.
End fits.
