(* ===== verification/FormatPasses.v ===== *)
(** * The passes keep the tokens

    Each pass of the formatter is a sequence of changes of blanks between
    tokens; the tokens fit after each one and the code is the same. *)

From stdpp Require Import base list strings gmap.
From Stdlib Require Import ZArith Lia.
From S2P Require Import Prelude Lexer Format FormatLex FormatLocal FormatFits.
Open Scope Z_scope.

Section passes.
Context `{Unicode}.

(** ** Changes *)

(** The blanks [g] may stand after [a]: a comment ends at its line. *)
Definition may_follow (a : list TokenType) (g : list char) : Prop :=
  match last a with Some k => is_comment k = true -> opens_line g | None => True end.

Lemma may_follow_line a : may_follow a line.
Proof. unfold may_follow. by destruct (last a). Qed.

Lemma opens_line_app g s : g <> [] -> opens_line g -> opens_line (g ++ s).
Proof. by destruct g. Qed.

Lemma blanks_open g s : blanks g -> opens_blank (g ++ s).
Proof. intros [Hn Hg]. destruct g as [|c g]; [done|]. by apply Forall_cons in Hg as [Hg _]. Qed.

Lemma may_follow_joint a g b : blanks g -> may_follow a g -> joint a (spell (TWhitespace g :: b)).
Proof.
  intros Hg. unfold may_follow, joint. destruct (last a) as [k|]; [|done]. intros Hl. right. rewrite spell_cons. split; [by apply blanks_open|].
  intros Hk. apply opens_line_app; [by destruct Hg|by apply Hl].
Qed.

Lemma insert_fits a b g : fits (a ++ b) -> TEof ∉ a -> blanks g -> may_follow a g -> fits (a ++ TWhitespace g :: b).
Proof. intros Hf Ha Hg Hm. apply (fits_change a b); [done| |done|by apply may_follow_joint]. apply fits_ws. split; [done|by apply fits_drop in Hf]. Qed.

Lemma replace_fits a b g g' : fits (a ++ TWhitespace g :: b) -> TEof ∉ a -> blanks g' -> may_follow a g' -> fits (a ++ TWhitespace g' :: b).
Proof.
  intros Hf Ha Hg Hm. apply (fits_change a (TWhitespace g :: b)); [done| |done|by apply may_follow_joint].
  apply fits_drop in Hf. apply fits_ws in Hf as [_ Hf]. by apply fits_ws.
Qed.

Definition after_blank (a : list TokenType) : Prop := match last a with Some k => is_ws k = true | None => True end.

Lemma delete_fits a b g : fits (a ++ TWhitespace g :: b) -> TEof ∉ a -> after_blank a -> fits (a ++ b).
Proof.
  intros Hf Ha Hb. apply (fits_change a (TWhitespace g :: b)); [done| |done|].
  - apply fits_drop in Hf. by apply fits_ws in Hf as [_ Hf].
  - unfold joint, after_blank in *. destruct (last a); [by left|done].
Qed.

Lemma no_eof a b : fits (a ++ b) -> code b <> [] -> TEof ∉ a.
Proof.
  intros Hf Hb He. apply list_elem_of_split in He as (a1 & a2 & ->). rewrite <-app_assoc in Hf. apply fits_drop in Hf as [Hc _].
  rewrite code_app in Hc. by apply app_eq_nil in Hc as [_ Hc].
Qed.

(** A comment ends at its line. *)
Lemma after_comment a k b : fits (a ++ b) -> last a = Some k -> is_comment k = true -> opens_line (spell b).
Proof.
  intros Hf Hl Hk. apply last_Some in Hl as [a' ->]. rewrite <-app_assoc in Hf. apply fits_drop in Hf.
  destruct (fits_code k b) as (_ & _ & Hs); [exact Hf|by destruct k|by destruct k|]. by apply (comment_scanned k _ _ Hs) in Hk as (_ & _ & _ & Ho).
Qed.

(** The code of [ts] is [C] and they fit. *)
Definition keeps (C : list TokenType) (ts : list Token) : Prop := fits (kinds ts) /\ code (kinds ts) = C.

Lemma kinds_app a b : kinds (a ++ b) = kinds a ++ kinds b.
Proof. apply fmap_app. Qed.

Lemma last_kinds a : last (kinds a) = tok_kind <$> last a.
Proof. apply fmap_last. Qed.

Lemma keeps_insert C a b t g : keeps C (a ++ b) -> TEof ∉ kinds a -> tok_kind t = TWhitespace g -> blanks g -> may_follow (kinds a) g -> keeps C (a ++ t :: b).
Proof.
  intros [Hf Hc] Ha Ht Hg Hm. unfold keeps in *. rewrite kinds_app in *. change (kinds (t :: b)) with (tok_kind t :: kinds b). rewrite Ht.
  split; [by apply insert_fits|]. rewrite code_app in *. done.
Qed.

Lemma keeps_replace C a b t t' g : keeps C (a ++ t :: b) -> TEof ∉ kinds a -> is_ws (tok_kind t) = true -> tok_kind t' = TWhitespace g -> blanks g -> may_follow (kinds a) g ->
  keeps C (a ++ t' :: b).
Proof.
  intros [Hf Hc] Ha Ht Ht' Hg Hm. apply is_ws_inv in Ht as [g0 Ht]. unfold keeps in *. rewrite kinds_app in *.
  change (kinds (t' :: b)) with (tok_kind t' :: kinds b). change (kinds (t :: b)) with (tok_kind t :: kinds b) in Hf, Hc. rewrite Ht' . rewrite Ht in Hf, Hc.
  split; [by apply (replace_fits _ _ g0)|]. rewrite code_app in *. done.
Qed.

Lemma keeps_no_eof C a t b : keeps C (a ++ t :: b) -> is_ws (tok_kind t) = false -> TEof ∉ kinds a.
Proof. intros [Hf _] Ht. rewrite kinds_app in Hf. apply (no_eof _ _ Hf). cbn. by rewrite Ht. Qed.

Lemma blanks_space : blanks space.
Proof. split; [done|by repeat constructor]. Qed.
Lemma blanks_line : blanks line.
Proof. split; [done|by repeat constructor]. Qed.

(** A brace is not in the line of a comment. *)
Lemma brace_after C a t b : keeps C (a ++ t :: b) -> tok_kind t = TLeftBrace \/ tok_kind t = TRightBrace -> may_follow (kinds a) space.
Proof.
  intros [Hf _] Ht. rewrite kinds_app in Hf. unfold may_follow. destruct (last (kinds a)) as [k|] eqn:El; [|done]. intros Hk.
  pose proof (after_comment _ _ _ Hf El Hk) as Ho. change (kinds (t :: b)) with (tok_kind t :: kinds b) in Ho. rewrite spell_cons in Ho. by destruct Ht as [Ht|Ht]; rewrite Ht in Ho.
Qed.

(** ** Pass 1a *)

Lemma space_braces_keeps C ts spaced : keeps C (spaced ++ ts) -> keeps C (space_braces ts spaced).
Proof.
  revert spaced. induction ts as [|t ts IH]; intros spaced Hk; cbn [space_braces]; [by rewrite app_nil_r in Hk|].
  assert (forall s, keeps C (s ++ t :: ts) -> keeps C (space_braces ts (s ++ [t]))) as Hstep by (intros s Hs; apply IH; by rewrite <-app_assoc).
  destruct (tok_kind t) eqn:Et; try by apply Hstep. destruct (last spaced) as [l|]; [|by apply Hstep].
  destruct (is_ws (tok_kind l)); [by apply Hstep|]. apply Hstep. rewrite <-app_assoc. cbn [app].
  apply (keeps_insert _ _ _ (space_at t) space); [done|by apply (keeps_no_eof C _ t ts); [|rewrite Et]|done|apply blanks_space|by apply (brace_after C _ t ts); [|left]].
Qed.

(** ** Pass 1b *)

(** A left brace is matched with a right brace after it. *)
Definition matched (tokens : list Token) (m : gmap nat nat) : Prop :=
  forall lb rb, m !! lb = Some rb -> (lb < rb)%nat /\ exists t, tokens !! rb = Some t /\ tok_kind t = TRightBrace.

Lemma match_braces_matched full ts idx stack m :
  drop idx full = ts -> Forall (fun lb => lb < idx)%nat stack -> matched full m.1 -> matched full (match_braces ts idx stack m).1.
Proof.
  revert idx stack m. induction ts as [|t ts IH]; intros idx stack m Hd Hst Hm; cbn [match_braces]; [done|].
  assert (full !! idx = Some t) as Ht by (rewrite <-(take_drop idx full), Hd, lookup_app_r; rewrite length_take; [|lia];
    assert (idx < length full)%nat by (apply (f_equal length) in Hd; rewrite length_drop in Hd; cbn in Hd; lia); by replace (idx - idx `min` length full)%nat with 0%nat by lia).
  assert (drop (S idx) full = ts) as Hd' by (by rewrite <-Nat.add_1_r, <-drop_drop, Hd).
  assert (Forall (fun lb => lb < S idx)%nat stack) as Hst' by (eapply Forall_impl; [exact Hst|cbn; lia]).
  destruct (tok_kind t) eqn:Et; try by apply IH.
  - apply IH; [done| |done]. constructor; [lia|done].
  - destruct stack as [|lb stack]; [by apply IH|]. apply Forall_cons in Hst as [Hlb _]. apply Forall_cons in Hst' as [_ Hst']. apply IH; [done|done|].
    cbn. intros l r. destruct (decide (l = lb)) as [->|Hn]; [|rewrite lookup_insert_ne by done; apply Hm].
    rewrite lookup_insert_eq. intros [= <-]. split; [done|]. by exists t.
Qed.

(** ** Pass 1c *)

Lemma keeps_app_step C a t b : keeps C (a ++ t :: b) -> keeps C ((a ++ [t]) ++ b).
Proof. by rewrite <-app_assoc. Qed.

Lemma may_follow_code a k g : is_comment k = false -> may_follow (a ++ [k]) g.
Proof. intros Hk. unfold may_follow. rewrite last_snoc. congruence. Qed.

(** A block on one line: only its line breaks change. *)
Definition flatten_ws (t : Token) : Token :=
  match tok_kind t with TWhitespace ws => if holds_newline ws then with_kind (TWhitespace space) t else t | _ => t end.

Lemma flatten_comment t : is_comment (tok_kind (flatten_ws t)) = is_comment (tok_kind t).
Proof. unfold flatten_ws. destruct (tok_kind t) eqn:E; try (by rewrite E). destruct (holds_newline _); [done|by rewrite E]. Qed.

Lemma may_follow_space a : (forall t, last a = Some t -> is_comment (tok_kind t) = false) -> may_follow (kinds a) space.
Proof. intros Ha. unfold may_follow. rewrite last_kinds. destruct (last a) as [t|]; [|done]. cbn. rewrite (Ha t eq_refl). done. Qed.

Lemma flatten_keeps C a inner r b :
  keeps C (a ++ inner ++ r :: b) -> is_ws (tok_kind r) = false -> (forall t, last a = Some t -> is_comment (tok_kind t) = false) ->
  Forall (fun t => is_comment (tok_kind t) = false) inner -> keeps C (a ++ (flatten_ws <$> inner) ++ r :: b).
Proof.
  intros Hk Hr Ha Hi. revert a Hk Ha. induction Hi as [|t inner Ht _ IH]; intros a Hk Ha; [done|]. cbn [fmap list_fmap app].
  assert (keeps C (a ++ flatten_ws t :: inner ++ r :: b)) as Hk'.
  { unfold flatten_ws. destruct (tok_kind t) eqn:Et; try done. destruct (holds_newline _); [|done].
    apply (keeps_replace C a _ t _ space); [done| |by rewrite Et|done|apply blanks_space|by apply may_follow_space].
    cbn in Hk. rewrite app_comm_cons, app_assoc in Hk. apply keeps_no_eof in Hk; [|done]. rewrite kinds_app in Hk. set_solver. }
  apply keeps_app_step in Hk'. rewrite (app_assoc a [flatten_ws t] _ : a ++ flatten_ws t :: (flatten_ws <$> inner) ++ r :: b = (a ++ [flatten_ws t]) ++ (flatten_ws <$> inner) ++ r :: b).
  apply IH; [done|]. intros u. rewrite last_snoc. intros [= <-]. by rewrite flatten_comment.
Qed.

Lemma last_no_comment (ts : list Token) t : Forall (fun t => is_comment (tok_kind t) = false) ts -> last ts = Some t -> is_comment (tok_kind t) = false.
Proof. intros Hf Hl. apply last_Some in Hl as [l ->]. apply Forall_app in Hf as [_ Hf]. by apply Forall_cons in Hf as [Hf _]. Qed.

Lemma collapse_keeps C new lb inner rb b :
  keeps C (new ++ lb :: inner ++ rb :: b) -> tok_kind lb = TLeftBrace -> tok_kind rb = TRightBrace -> Forall (fun t => is_comment (tok_kind t) = false) inner ->
  keeps C (new ++ collapse lb rb inner ++ b).
Proof.
  intros Hk Hlb Hrb Hi. unfold collapse. change (fun t : Token => match tok_kind t with TWhitespace ws => _ | _ => t end) with flatten_ws.
  apply keeps_app_step in Hk. apply flatten_keeps in Hk; [|by rewrite Hrb|intros t; rewrite last_snoc; intros [= <-]; by rewrite Hlb|done].
  assert (Forall (fun t => is_comment (tok_kind t) = false) (flatten_ws <$> inner)) as Hfl by (apply Forall_fmap; eapply Forall_impl; [exact Hi|intros t Ht; cbn; by rewrite flatten_comment]).
  set (gap := match inner with t :: _ => if is_ws (tok_kind t) then [] else [space_at lb] | [] => [space_at lb] end).
  assert (keeps C (new ++ ([lb] ++ gap ++ (flatten_ws <$> inner)) ++ rb :: b)) as Hk1.
  { assert (keeps C ((new ++ [lb]) ++ space_at lb :: (flatten_ws <$> inner) ++ rb :: b)) as Hins.
    { apply (keeps_insert C _ _ _ space); [done| |done|apply blanks_space|].
      - rewrite (app_assoc (new ++ [lb])) in Hk. apply keeps_no_eof in Hk; [|by rewrite Hrb]. rewrite kinds_app in Hk. set_solver.
      - rewrite kinds_app. apply may_follow_code. by rewrite Hlb. }
    rewrite <-!app_assoc. rewrite <-app_assoc in Hk, Hins. unfold gap. destruct inner as [|t inner]; [exact Hins|]. by destruct (is_ws (tok_kind t)). }
  set (front := [lb] ++ gap ++ (flatten_ws <$> inner)) in *. rewrite <-!app_assoc. cbn [app].
  assert (Forall (fun t => is_comment (tok_kind t) = false) front) as Hfr.
  { unfold front, gap. constructor; [by rewrite Hlb|]. apply Forall_app. split; [|done]. destruct inner as [|t inner2]; [by repeat constructor|]. by destruct (is_ws (tok_kind t)); repeat constructor. }
  destruct (last front) as [l|] eqn:El; [|done]. destruct (is_ws (tok_kind l)); [done|]. cbn [app]. rewrite app_assoc in Hk1 |- *.
  apply (keeps_insert C _ _ _ space); [done|by apply keeps_no_eof in Hk1; [|rewrite Hrb]|done|apply blanks_space|].
  apply may_follow_space. intros t. rewrite last_app, El. intros [= <-]. by apply (last_no_comment front).
Qed.

Lemma close_block_keeps C new t b : keeps C (new ++ t :: b) -> tok_kind t = TRightBrace -> keeps C (close_block new ++ t :: b).
Proof.
  intros Hk Ht. unfold close_block. destruct (last new) as [l|] eqn:El; [|done]. destruct (ws_newline l); [done|].
  pose proof (keeps_no_eof C new t b Hk (ltac:(by rewrite Ht))) as He. destruct (is_ws (tok_kind l)) eqn:Ew.
  - apply last_Some in El as [a ->]. rewrite removelast_last. rewrite <-app_assoc in Hk |- *. cbn [app] in *.
    apply (keeps_replace C a _ l _ line); [done| |done|done|apply blanks_line|apply may_follow_line]. rewrite kinds_app in He. set_solver.
  - rewrite <-app_assoc. cbn [app]. by apply (keeps_insert C _ _ _ line); [| | |apply blanks_line|apply may_follow_line].
Qed.

Lemma drop_lookup {A} (l : list A) i x : l !! i = Some x -> drop i l = x :: drop (S i) l.
Proof. apply drop_S. Qed.

Lemma slice_split (tokens : list Token) i rb : (i < rb)%nat -> drop (S i) tokens = slice (S i) rb tokens ++ drop rb tokens.
Proof. intros Hi. unfold slice. rewrite <-(take_drop (rb - S i) (drop (S i) tokens)) at 1. rewrite drop_drop. by replace (S i + (rb - S i))%nat with rb by lia. Qed.

(** No comment in a block that is put on one line. *)
Lemma no_comment_inside tokens i rb : (i < rb)%nat -> block_holds_comment tokens i rb = false -> Forall (fun t => is_comment (tok_kind t) = false) (slice (S i) rb tokens).
Proof.
  unfold block_holds_comment. intros Hi Hc. apply Forall_forall. intros t Ht. destruct (is_comment (tok_kind t)) eqn:Ek; [|done].
  assert (existsb (fun t => is_comment (tok_kind t)) (slice i (S rb) tokens) = true) as E; [|congruence]. apply existsb_exists. exists t. split; [|done].
  apply list_elem_of_In. unfold slice in *. apply list_elem_of_lookup in Ht as [j Hj]. apply lookup_take_Some in Hj as [Hj Hl]. rewrite lookup_drop in Hj.
  apply list_elem_of_lookup. exists (S j). apply lookup_take_Some. rewrite lookup_drop. split; [by replace (i + S j)%nat with (S i + j)%nat by lia|lia].
Qed.

Lemma process_blocks_keeps C tokens l2r r2l fuel i new :
  matched tokens l2r -> (length tokens <= i + fuel)%nat -> keeps C (new ++ drop i tokens) -> keeps C (process_blocks tokens l2r r2l fuel i new).
Proof.
  intros Hm. revert i new. induction fuel as [|fuel IH]; intros i new Hl Hk; cbn [process_blocks].
  { by rewrite drop_ge, app_nil_r in Hk by lia. }
  destruct (tokens !! i) as [t|] eqn:Et; [|apply lookup_ge_None in Et; by rewrite drop_ge, app_nil_r in Hk by lia].
  rewrite (drop_lookup _ _ _ Et) in Hk.
  assert (forall s, keeps C (s ++ t :: drop (S i) tokens) -> keeps C (process_blocks tokens l2r r2l fuel (S i) (s ++ [t]))) as Hstep.
  { intros s Hs. apply IH; [lia|]. by apply keeps_app_step. }
  destruct (tok_kind t) eqn:Ek; try by apply Hstep.
  - destruct (l2r !! i) as [rb|] eqn:Eb; [|by apply Hstep]. destruct (Hm _ _ Eb) as (Hlt & r & Hr & Hrk). rewrite Hr. cbn [default from_option id].
    destruct (after_unsafe (reverse new) && _ && _) eqn:Hc.
    { apply andb_prop in Hc as [Hc _]. apply andb_prop in Hc as [_ Hc]. apply negb_true_iff in Hc. apply IH; [lia|]. rewrite <-app_assoc.
      rewrite (slice_split _ _ _ Hlt), (drop_lookup _ _ _ Hr) in Hk. apply collapse_keeps; [done|done|done|by apply no_comment_inside]. }
    clear Hc. destruct (negb (block_has_newline tokens i rb) && block_has_code tokens i rb); [|by apply Hstep].
    assert (keeps C ((new ++ [t; fresh_line]) ++ drop (S i) tokens)) as Hfresh.
    { change (new ++ [t; fresh_line]) with (new ++ [t] ++ [fresh_line]). rewrite app_assoc, <-(app_assoc _ [fresh_line]). cbn [app].
      apply keeps_app_step in Hk. apply (keeps_insert C _ _ _ line); [done| |done|apply blanks_line|apply may_follow_line].
      rewrite (slice_split _ _ _ Hlt), (drop_lookup _ _ _ Hr), app_assoc in Hk. apply keeps_no_eof in Hk; [|by rewrite Hrk]. rewrite !kinds_app in *. set_solver. }
    destruct (tokens !! S i) as [n|] eqn:En; [|by apply IH; [lia|]]. destruct (is_ws (tok_kind n)) eqn:Ew; [|by apply IH; [lia|]].
    apply IH; [lia|]. rewrite (drop_lookup _ _ _ En) in Hk.
    change (new ++ [t; with_kind (TWhitespace line) n]) with (new ++ [t] ++ [with_kind (TWhitespace line) n]). rewrite app_assoc, <-(app_assoc _ [with_kind _ _]). cbn [app].
    apply keeps_app_step in Hk. apply (keeps_replace C _ _ n _ line); [done| |done|done|apply blanks_line|apply may_follow_line].
    rewrite <-(drop_lookup _ _ _ En), (slice_split _ _ _ Hlt), (drop_lookup _ _ _ Hr), app_assoc in Hk. apply keeps_no_eof in Hk; [|by rewrite Hrk]. rewrite !kinds_app in *. set_solver.
  - apply Hstep. destruct (r2l !! i) as [lb|]; [|done]. destruct (negb _ && _); [|done]. by apply close_block_keeps.
Qed.

(** Normalising keeps the code. *)
Lemma normalize_keeps C ts : keeps C ts -> keeps C (normalize_and_expand_blocks ts).
Proof.
  intros Hk. unfold normalize_and_expand_blocks. pose proof (space_braces_keeps C ts [] Hk) as Hs. set (tokens := space_braces ts []) in *.
  pose proof (match_braces_matched tokens tokens 0 [] (∅, ∅) eq_refl (Forall_nil_2 _)) as Hm. destruct (match_braces tokens 0 [] (∅, ∅)) as [l2r r2l]. cbn in Hm.
  apply process_blocks_keeps; [apply Hm; intros lb rb; by rewrite lookup_empty|lia|done].
Qed.

(** ** Spaces *)

Fixpoint next_kind (ks : list TokenType) : option TokenType :=
  match ks with [] => None | k :: ks => if is_blank k then next_kind ks else Some k end.

(** A comment stands where the break after it becomes a space. *)
Fixpoint swallows (last_code : option TokenType) (ks : list TokenType) : bool :=
  match ks with
  | [] => false
  | k :: ks =>
      if is_ws k then swallows last_code ks
      else if is_comment k then to_one_space true last_code (next_kind ks) || swallows last_code ks
      else swallows (Some k) ks
  end.

Lemma next_kind_code ks : next_kind (code ks) = next_kind ks.
Proof. induction ks as [|k ks IH]; [done|]. unfold code; fold code. cbn [next_kind]. unfold is_blank. destruct (is_ws k) eqn:E; cbn [orb]; [done|]. cbn [next_kind]. unfold is_blank. rewrite E. cbn [orb]. by rewrite IH. Qed.

Lemma swallows_code last ks : swallows last (code ks) = swallows last ks.
Proof.
  revert last. induction ks as [|k ks IH]; intros last; [done|]. unfold code; fold code. cbn [swallows]. destruct (is_ws k) eqn:E; [done|]. cbn [swallows]. rewrite E, next_kind_code.
  by rewrite !IH.
Qed.

Lemma next_code_kinds ts : next_code ts = next_kind (kinds ts).
Proof. induction ts as [|t ts IH]; [done|]. cbn. by rewrite IH. Qed.

Lemma to_one_space_line b last next : to_one_space b last next = true -> to_one_space true last next = true.
Proof. unfold to_one_space. destruct b; [done|]. cbn [andb orb]. intros ->. by rewrite orb_true_r. Qed.

Lemma adjust_after_eof ts : code (kinds ts) = [] -> adjust_from (Some TEof) ts = ts.
Proof.
  induction ts as [|t ts IH]; [done|]. cbn. destruct (is_ws (tok_kind t)) eqn:E; [|done]. intros Hc. apply is_ws_inv in E as [g Eg]. rewrite Eg, (IH Hc).
  assert (next_code ts = None) as ->; [|by destruct (holds_newline g)]. rewrite next_code_kinds, <-next_kind_code. change (code (kinds ts) = []) in Hc. by rewrite Hc.
Qed.

Lemma adjust_keeps C a last_code ts :
  keeps C (a ++ ts) -> TEof ∉ kinds a -> swallows last_code (kinds ts) = false ->
  (forall t, last a = Some t -> is_comment (tok_kind t) = true -> to_one_space true last_code (next_code ts) = false) ->
  keeps C (a ++ adjust_from last_code ts).
Proof.
  revert a last_code. induction ts as [|t ts IH]; intros a last_code Hk Ha Hs Hl; [done|].
  assert (forall t' lc, keeps C (a ++ t' :: ts) -> tok_kind t' <> TEof -> swallows lc (kinds ts) = false ->
    (is_comment (tok_kind t') = true -> to_one_space true lc (next_code ts) = false) -> keeps C (a ++ t' :: adjust_from lc ts)) as Hstep.
  { intros t' lc Hk' He Hs' Hl'. apply keeps_app_step in Hk'. rewrite (app_assoc a [t'] _ : a ++ t' :: adjust_from lc ts = (a ++ [t']) ++ adjust_from lc ts). apply IH; [done| |done|].
    - rewrite kinds_app. cbn. set_solver.
    - intros u. rewrite last_snoc. by intros [= <-]. }
  cbn [adjust_from]. cbn in Hs. destruct (tok_kind t) as [] eqn:Et; try (apply Hstep; [done|by rewrite Et|done|by rewrite Et]).
  - pose proof Hk as [Hf _]. rewrite kinds_app in Hf. change (kinds (t :: ts)) with (tok_kind t :: kinds ts) in Hf. rewrite Et in Hf. apply fits_drop in Hf as [He _]. by rewrite (adjust_after_eof ts He).
  - apply orb_false_iff in Hs as [H1 H2]. rewrite <-next_code_kinds in H1. by apply Hstep; [|rewrite Et| |].
  - apply orb_false_iff in Hs as [H1 H2]. rewrite <-next_code_kinds in H1. by apply Hstep; [|rewrite Et| |].
  - cbn in Hl. rewrite Et in Hl. cbn in Hl. destruct (to_one_space (holds_newline s) last_code (next_code ts)) eqn:Eo; [|by apply Hstep; [|rewrite Et| |rewrite Et]].
    apply Hstep; [|done|done|done]. apply (keeps_replace C a ts t _ space); [done|done|by rewrite Et|done|apply blanks_space|]. apply may_follow_space. intros u Hu.
    destruct (is_comment (tok_kind u)) eqn:Eu; [|done]. apply to_one_space_line in Eo. by rewrite (Hl u Hu Eu) in Eo.
Qed.
End passes.
