(* ===== verification/FormatEmit.v ===== *)
(** * The text that is written

    Writing the tokens with fresh indentation, and then stripping the blanks at
    the ends of lines, are changes of blanks too; stripping also shortens
    comments and must leave the other tokens alone. *)

From stdpp Require Import base list strings gmap.
From Stdlib Require Import ZArith Lia.
From S2P Require Import Prelude Lexer Format FormatLex FormatLocal FormatFits FormatPasses.
Open Scope Z_scope.

Section emit.
Context `{Unicode}.

(** ** Indentation *)

(** What may be written in front of a token. *)
Definition leads (e : Emit) (lead : list char) : Prop := lead = [] \/ (blanks lead /\ em_new_line e = true).

Lemma indent_leads (b : bool) spaces level e : leads e (if b && em_new_line e then indent spaces level else []).
Proof.
  destruct b; cbn [andb]; [|by left]. destruct (em_new_line e) eqn:En; [|by left]. unfold indent. destruct (0 <? level); [|by left].
  destruct (Z.to_nat level * spaces)%nat as [|n]; [by left|]. right. split; [|done]. split; [done|]. apply Forall_replicate. done.
Qed.

Lemma emit_token_code spaces t rows e : is_ws (tok_kind t) = false ->
  exists lead, (emit_token spaces t rows e).1 = lead ++ display (tok_kind t) /\ leads e lead /\ em_new_line (emit_token spaces t rows e).2 = false.
Proof.
  intros Ht. unfold emit_token. destruct (tok_kind t) eqn:Ek; try done; cbn [fst snd em_new_line];
    (eexists; split; [reflexivity|split; [apply indent_leads|done]]).
Qed.

Lemma holds_newline_count ws : holds_newline ws = true -> exists n, count_newlines ws = S n.
Proof.
  unfold holds_newline, count_newlines. intros Hw. apply existsb_exists in Hw as (c & Hc & Hn). apply Z.eqb_eq in Hn as ->. apply list_elem_of_In in Hc.
  destruct (length (filter (fun c => c = newline) ws)) as [|n] eqn:E; [|by exists n]. apply nil_length_inv in E.
  assert (newline ∈ filter (fun c => c = newline) ws) as Hin by (by apply list_elem_of_filter). rewrite E in Hin. by apply elem_of_nil in Hin.
Qed.

Lemma newlines_blanks n : blanks (replicate (S n) newline) /\ opens_line (replicate (S n) newline).
Proof. split; [|done]. split; [done|]. apply Forall_replicate. done. Qed.

(** A blank is written as another one, or dropped after a line break. *)
Lemma emit_token_ws spaces t rows e ws : tok_kind t = TWhitespace ws -> blanks ws ->
  let out := emit_token spaces t rows e in
  (blanks out.1 /\ (opens_line ws -> opens_line out.1)) \/ (out.1 = [] /\ em_new_line e = true).
Proof.
  intros Ht Hw. unfold emit_token. rewrite Ht. destruct (em_enabled e); cbn [negb]; [|by left]. destruct (holds_newline ws) eqn:En.
  - left. cbn. destruct (holds_newline_count ws En) as [n ->]. by destruct (newlines_blanks n).
  - destruct (em_new_line e) eqn:E; cbn [fst]; [by right|by left].
Qed.

Lemma after_blank_snoc a g : after_blank (a ++ [TWhitespace g]).
Proof. unfold after_blank. by rewrite last_snoc. Qed.

Lemma spell_one k : spell [k] = display k.
Proof. unfold spell. cbn. by rewrite app_nil_r. Qed.

Lemma emit_keeps C spaces ts e a :
  fits (a ++ kinds ts) -> code (a ++ kinds ts) = C -> TEof ∉ a -> (em_new_line e = true -> after_blank a) ->
  exists b, spell b = spell a ++ emit_from spaces ts e /\ fits b /\ code b = C.
Proof.
  revert e a. induction ts as [|t ts IH]; intros e a Hf Hc Ha Hn.
  { exists a. cbn in *. rewrite app_nil_r in *. done. }
  set (rows := match ts with n :: _ => ws_newline n | [] => false end).
  change (kinds (t :: ts)) with (tok_kind t :: kinds ts) in *. destruct (decide (tok_kind t = TEof)) as [Et|Et].
  { exists (a ++ [TEof]). cbn [emit_from]. rewrite Et in *. rewrite spell_app. split; [done|]. pose proof Hf as Hf'. apply fits_drop in Hf' as [He _].
    rewrite code_app in *. cbn in *. rewrite He in Hc. split; [|done]. apply (fits_change _ _ [TEof] Hf); [done|done|]. unfold joint. destruct (last a); [by right|done]. }
  assert (emit_from spaces (t :: ts) e = (emit_token spaces t rows e).1 ++ emit_from spaces ts (emit_token spaces t rows e).2) as ->.
  { cbn [emit_from]. fold rows. destruct (emit_token spaces t rows e). by destruct (tok_kind t). }
  assert (forall text b, (emit_token spaces t rows e).1 = text -> spell b = spell a ++ text -> fits (b ++ kinds ts) -> code (b ++ kinds ts) = C -> TEof ∉ b ->
    (em_new_line (emit_token spaces t rows e).2 = true -> after_blank b) ->
    exists b, spell b = spell a ++ (emit_token spaces t rows e).1 ++ emit_from spaces ts (emit_token spaces t rows e).2 /\ fits b /\ code b = C) as Hstep.
  { intros text b -> Hsp Hfb Hcb Hab Hnb. destruct (IH _ b Hfb Hcb Hab Hnb) as (b' & H1 & H2). exists b'. by rewrite H1, Hsp, <-app_assoc. }
  destruct (is_ws (tok_kind t)) eqn:Ew.
  - apply is_ws_inv in Ew as [ws Ek]. rewrite Ek in *. assert (blanks ws) as Hw by (by apply fits_drop, fits_ws in Hf as [? _]).
    destruct (emit_token_ws spaces t rows e ws Ek Hw) as [[Hb Hl]|[Hb Hnl]].
    + apply (Hstep _ (a ++ [TWhitespace (emit_token spaces t rows e).1]) eq_refl).
      * by rewrite spell_app, spell_one.
      * rewrite <-app_assoc. apply (replace_fits _ _ ws); [done|done|done|]. unfold may_follow. destruct (last a) as [k|] eqn:El; [|done]. intros Hk.
        apply Hl. pose proof (after_comment a k _ Hf El Hk) as Ho. rewrite spell_cons in Ho. destruct Hw as [Hw _]. by destruct ws.
      * rewrite <-app_assoc, code_app in *. done.
      * set_solver.
      * intros _. apply after_blank_snoc.
    + apply (Hstep [] a Hb); [by rewrite app_nil_r|by apply (delete_fits a _ ws); [| |apply Hn]| |done|by intros _; apply Hn]. rewrite code_app in *. done.
  - destruct (emit_token_code spaces t rows e Ew) as (lead & Htx & Hld & Hnl).
    destruct Hld as [->|[Hb Hnew]].
    + apply (Hstep _ (a ++ [tok_kind t]) Htx); [by rewrite spell_app, spell_one|by rewrite <-app_assoc|by rewrite <-app_assoc| |by rewrite Hnl]. set_solver.
    + apply (Hstep _ (a ++ [TWhitespace lead; tok_kind t]) Htx).
      * by rewrite spell_app, spell_cons, spell_one.
      * rewrite <-app_assoc. cbn [app]. apply insert_fits; [done|done|done|]. specialize (Hn Hnew). unfold may_follow, after_blank in *. destruct (last a) as [k|]; [|done]. by destruct k.
      * rewrite <-app_assoc, code_app in *. done.
      * set_solver.
      * by rewrite Hnl.
Qed.
End emit.
