(* ===== verification/FormatStrip.v ===== *)
(** * Stripping the ends of lines

    The formatter's last step drops the spaces and tabs at the ends of lines.
    It is defined line by line in the code; here it is done in one pass from the
    right, which is easier to follow through the tokens. *)

From stdpp Require Import base list strings gmap.
From Stdlib Require Import ZArith Lia.
From S2P Require Import Prelude Lexer Format FormatLex FormatLocal FormatFits FormatPasses FormatEmit.
Open Scope Z_scope.

Definition at_line_end (s : list char) : bool := match s with [] => true | c :: _ => c =? newline end.

Fixpoint strip (s : list char) : list char :=
  match s with [] => [] | c :: s => if is_trimmed c && at_line_end (strip s) then strip s else c :: strip s end.

Lemma trim_start_snoc r c : trim_start (r ++ [c]) = match trim_start r with [] => if is_trimmed c then [] else [c] | r' => r' ++ [c] end.
Proof. induction r as [|d r IH]; cbn; [done|]. by destruct (is_trimmed d). Qed.

Lemma trim_end_cons c l : trim_end (c :: l) = match trim_end l with [] => if is_trimmed c then [] else [c] | l' => c :: l' end.
Proof.
  unfold trim_end. rewrite reverse_cons, trim_start_snoc. destruct (trim_start (reverse l)) as [|d r] eqn:E; [by destruct (is_trimmed c)|].
  rewrite reverse_app. destruct (reverse (d :: r)) as [|e u] eqn:E2; [|done]. apply (f_equal length) in E2. rewrite length_reverse in E2. done.
Qed.

Lemma trim_start_twice r : trim_start (trim_start r) = trim_start r.
Proof. induction r as [|c r IH]; cbn; [done|]. destruct (is_trimmed c) eqn:E; [done|]. cbn. by rewrite E. Qed.

Lemma trim_end_twice l : trim_end (trim_end l) = trim_end l.
Proof. unfold trim_end. by rewrite reverse_involutive, trim_start_twice. Qed.

Lemma trim_end_one_line l : one_line l -> one_line (trim_end l).
Proof.
  induction 1 as [|c l Hc _ IH]; [by constructor|]. rewrite trim_end_cons. unfold one_line in *. destruct (trim_end l); [|by constructor]. destruct (is_trimmed c); by repeat constructor.
Qed.

Lemma at_line_end_app l s : one_line l -> at_line_end s = true -> at_line_end (l ++ s) = match l with [] => true | _ => false end.
Proof. intros Hl Hs. destruct l as [|c l]; [done|]. cbn. apply Forall_cons in Hl as [Hc _]. by apply Z.eqb_neq. Qed.

(** Line by line or from the right is the same. *)
Lemma split_lines_strip s : exists l ls, split_lines s = l :: ls /\ one_line l /\ strip s = join_lines (trim_end <$> split_lines s).
Proof.
  induction s as [|c s (l & ls & Hs & Hl & Hj)]; [by exists [], []; repeat constructor|].
  change (split_lines (c :: s)) with (if c =? newline then [] :: split_lines s else match split_lines s with l :: ls => (c :: l) :: ls | [] => [[c]] end).
  cbn [strip]. rewrite Hj, Hs. cbn [fmap list_fmap]. destruct (Z.eqb_spec c newline) as [->|Hc].
  { exists [], (l :: ls). split_and!; [done|by constructor|done]. }
  exists (c :: l), ls. split_and!; [done|by constructor|]. cbn [fmap list_fmap]. rewrite trim_end_cons. apply trim_end_one_line in Hl.
  destruct (trim_end l) as [|d u] eqn:E.
  - destruct (trim_end <$> ls) as [|l2 ls2]; cbn; by destruct (is_trimmed c).
  - apply Forall_cons in Hl as [Hd _]. apply Z.eqb_neq in Hd. destruct (trim_end <$> ls) as [|l2 ls2]; cbn [join_lines app at_line_end]; by rewrite Hd, andb_false_r.
Qed.

Lemma strip_lines_strip s : strip_lines s = strip s.
Proof. by destruct (split_lines_strip s) as (_ & _ & _ & _ & ->). Qed.

(** ** Pieces *)

(** What is left of [g] in front of [r]. *)
Fixpoint strip_onto (g r : list char) : list char :=
  match g with [] => [] | c :: g => let u := strip_onto g r in if is_trimmed c && at_line_end (u ++ r) then u else c :: u end.

Lemma strip_app g s : strip (g ++ s) = strip_onto g (strip s) ++ strip s.
Proof. induction g as [|c g IH]; cbn; [done|]. rewrite IH. by destruct (is_trimmed c && _). Qed.

Lemma strip_onto_ws g r : Forall (fun c => is_whitespace c = true) g -> Forall (fun c => is_whitespace c = true) (strip_onto g r).
Proof. induction 1 as [|c g Hc _ IH]; cbn; [constructor|]. destruct (is_trimmed c && _); [done|by constructor]. Qed.

Lemma strip_onto_comment c r : one_line c -> at_line_end r = true -> strip_onto c r = trim_end c.
Proof.
  intros Hc Hr. induction Hc as [|d c Hd Hc IH]; [done|]. cbn [strip_onto]. rewrite IH, trim_end_cons. rewrite (at_line_end_app _ _ (trim_end_one_line _ Hc) Hr).
  destruct (trim_end c); [by destruct (is_trimmed d)|]. by rewrite andb_false_r.
Qed.

(** No space or tab at the end of a line of [u] or at its end. *)
Fixpoint tidy (u : list char) : bool :=
  match u with [] => true | c :: u => (negb (is_trimmed c) || match u with d :: _ => negb (d =? newline) | [] => false end) && tidy u end.

Lemma tidy_strip u r : tidy u = true -> strip_onto u r = u.
Proof.
  induction u as [|c u IH]; [done|]. cbn. intros [Hc Hu]%andb_prop. rewrite (IH Hu). destruct (is_trimmed c); [|done]. cbn in *.
  destruct u as [|d u]; [done|]. cbn. apply negb_true_iff in Hc. by rewrite Hc.
Qed.

Lemma untrimmed_tidy u : Forall (fun c => is_trimmed c = false) u -> tidy u = true.
Proof. induction 1 as [|c u Hc _ IH]; [done|]. cbn. by rewrite Hc, IH. Qed.

Lemma at_line_end_opens s : at_line_end s = true <-> opens_line s.
Proof. destruct s as [|c s]; [done|]. cbn. apply Z.eqb_eq. Qed.

Lemma opens_line_blank s : opens_line s -> opens_blank s.
Proof. destruct s as [|c s]; [done|]. by intros ->. Qed.

Lemma strip_opens_line r : opens_line r -> opens_line (strip r).
Proof. destruct r as [|c r]; [done|]. intros ->. done. Qed.

Lemma trimmed_space c : is_trimmed c = true -> is_whitespace c = true /\ c <> ch ".".
Proof. unfold is_trimmed. intros [->%Z.eqb_eq| ->%Z.eqb_eq]%orb_prop; done. Qed.

Lemma strip_similar r : similar r (strip r).
Proof.
  destruct r as [|c s]; [by left|]. cbn [strip]. destruct (is_trimmed c && at_line_end (strip s)) eqn:E.
  { left. apply andb_prop in E as [_ E]. by apply opens_line_blank, at_line_end_opens. }
  right. exists c, s, (strip s). split_and!; [done|done|]. destruct s as [|d s]; [by left|]. cbn [strip]. destruct (is_trimmed d && at_line_end (strip s)) eqn:E2; [|by left].
  right. apply andb_prop in E2 as [Hd E2]. split; [by apply opens_line_blank, at_line_end_opens|]. intros [_ [= ->]]. by destruct (trimmed_space _ Hd).
Qed.
