(* ===== verification/FormatSound.v ===== *)
(** * Formatting keeps the tokens

    The formatted text has the tokens of the source, comments shortened by the
    blanks at their ends, unless one of three things the source must not have
    stands in the way; the examples show that each of them is needed. *)

From stdpp Require Import base list strings gmap.
From Stdlib Require Import ZArith Lia Ascii.
From S2P Require Import Prelude Lexer Format FormatLex FormatLocal FormatFits FormatPasses FormatEmit FormatStrip.
Open Scope Z_scope.

(** A text by its lines. *)
Definition lines (ls : list string) : list char := join_lines (chars <$> ls).

Section sound.
Context `{Unicode}.

(** ** Tokens without blanks *)

Definition solid (u : list char) : Prop := Forall (fun c => is_whitespace c = false) u.

Lemma solid_tidy u : solid u -> tidy u = true.
Proof. intros Hu. apply untrimmed_tidy. eapply Forall_impl; [exact Hu|]. cbn. intros c Hc. destruct (is_trimmed c) eqn:E; [|done]. destruct (trimmed_space c E). congruence. Qed.

Lemma number_taken prev t r p : rest p = t ++ r -> rest (number_from prev (t ++ r) p) = r -> solid t.
Proof.
  revert prev p. induction t as [|c t IH]; intros prev p Hp Hn; [constructor|]. cbn [app] in *.
  assert (rest (advance p) = t ++ r) as Ha by (by rewrite advance_rest, Hp).
  assert (rest p <> r) as Hpr by (rewrite Hp; intros E; by apply eq_sym, app_shorter in E).
  cbn [number_from] in Hn. constructor.
  - destruct (is_whitespace c) eqn:Hw; [|done]. destruct (space_not_number c Hw) as (H1 & H2 & H3 & H4). rewrite H1 in Hn.
    by rewrite (proj2 (Z.eqb_neq _ _) H2), (proj2 (Z.eqb_neq _ _) H3), (proj2 (Z.eqb_neq _ _) H4) in Hn.
  - repeat case_match; try done; by apply (IH c (advance p)).
Qed.

Lemma keyword_no_word text k : keyword text = Some k -> is_keyword k = true.
Proof.
  unfold keyword. destruct (List.find _ _) as [[s k']|] eqn:E; [|done]. intros [= <-]. apply List.find_some in E as [Hin _].
  assert (Forall (fun e : string * TokenType => is_keyword e.2 = true) KEYWORDS) as HF by (repeat constructor).
  rewrite Forall_forall in HF. by apply (HF (s, k')), list_elem_of_In.
Qed.

Definition is_word (k : TokenType) : bool := match k with TIdentifier _ | TNumber _ => true | _ => false end.

Lemma symbol_no_word c p : is_word (symbol_token c p).1 = false.
Proof. unfold symbol_token, op2, op3. by repeat case_match. Qed.

Lemma word_solid k t r : scan (t ++ r) = (k, r) -> is_word k = true -> solid t.
Proof.
  intros Hs Hk. destruct t as [|c t]; [constructor|]. unfold scan in Hs. set (p := mkCursor _ 1 1) in Hs. injection Hs as Hkk Hr.
  assert (rest p = (c :: t) ++ r) as Hp by done. clearbody p. assert (rest (advance p) = t ++ r) as Ha by (by rewrite advance_rest, Hp).
  revert Hkk Hr. unfold scan_token. rewrite Hp. cbn [app]. destruct (is_whitespace c) eqn:Hw; cbn [andb]; [intros <-; done|].
  destruct (if c =? ch "/" then lex_slash_or_comment true p else None) as [[tk q]|] eqn:Ec.
  { pose proof (comment_kind _ _ _ _ Ec) as Hcom. cbn. intros <-. by destruct (tok_kind tk). }
  destruct (is_alphabetic c || (c =? ch "_")).
  { unfold identifier_or_keyword. cbv zeta. destruct (keyword _) as [k'|] eqn:Ek; [cbn; intros <-; apply keyword_no_word in Ek; by destruct k'|].
    destruct (decide _); [cbn; intros <-; done|]. cbn [fst snd tok_kind mk_tok]. intros _ Hr. rewrite advance_while_drop, Ha in Hr. apply drop_while_taken in Hr.
    constructor; [done|]. eapply Forall_impl; [exact Hr|]. cbn. intros d Hd. destruct (is_whitespace d) eqn:Ed; [|done]. by rewrite space_not_word in Hd. }
  destruct (is_digit c); [unfold number; cbn [fst snd tok_kind mk_tok]; rewrite Ha; intros _ Hr; constructor; [done|by apply (number_taken c t r (advance p))]|].
  destruct (c =? quote).
  { unfold string_literal. destruct (string_from _ _ _) as [[st closed] q]. by repeat case_match; cbn; intros <-. }
  pose proof (symbol_no_word c (advance p)) as Hsy. destruct (symbol_token c (advance p)) as [k2 q]. cbn in *. intros <-. congruence.
Qed.

(** The strings whose lines end without blanks. *)
Definition tidy_string (k : TokenType) : bool := match k with TStringLiteral _ => tidy (display k) | _ => true end.

Lemma found_tidy k r : found k r -> is_blank k = false -> tidy_string k = true -> tidy (display k) = true.
Proof.
  intros (Hr & _ & Hs) Hb Ht. destruct (is_word k) eqn:Ew; [by apply solid_tidy, (word_solid k _ r)|]. destruct k; try done; by vm_compute.
Qed.

(** ** Stripping *)

Definition trim_kind (k : TokenType) : TokenType :=
  match k with TComment c => TComment (trim_end c) | TDocComment c => TDocComment (trim_end c) | k => k end.

Fixpoint strip_kinds (ks : list TokenType) : list TokenType :=
  match ks with
  | [] => []
  | k :: ks =>
      let r := strip_kinds ks in
      match k with
      | TWhitespace g => match strip_onto g (spell r) with [] => r | g => TWhitespace g :: r end
      | k => trim_kind k :: r
      end
  end.

Lemma starts_with_trim pre c : Forall (fun d => is_trimmed d = false) (chars pre) -> starts_with pre (trim_end c) = starts_with pre c.
Proof.
  revert c. induction pre as [|a pre IH]; intros c Hp; [by unfold starts_with; destruct c, (trim_end _)|]. cbn in Hp. apply Forall_cons in Hp as [Ha Hp].
  destruct c as [|d c]; [done|]. rewrite trim_end_cons. rewrite starts_with_step, <-(IH c Hp). destruct (trim_end c) as [|e u] eqn:E; [|by rewrite starts_with_step].
  destruct (is_trimmed d) eqn:Ed; [|by rewrite starts_with_step]. destruct (Z.eqb_spec (Z.of_nat (nat_of_ascii a)) d) as [E2|]; [congruence|done].
Qed.

Lemma comment_text_trim doc c : comment_text doc c -> comment_text doc (trim_end c).
Proof.
  intros (H1 & H2 & H3). unfold comment_text, is_doc_start in *. rewrite !starts_with_trim by (repeat constructor). split_and!; [by apply trim_end_one_line|done|done].
Qed.

Lemma trim_comment_of doc c : trim_kind (comment_of doc c) = comment_of doc (trim_end c).
Proof. by destruct doc. Qed.

Lemma comment_found doc c r : comment_text doc c -> opens_line r -> found (comment_of doc c) r.
Proof.
  intros Hc Hr. assert (display (comment_of doc c) = c) as E by (by destruct doc). unfold found. rewrite E. split_and!; [by destruct doc| |by apply comment_scan].
  destruct Hc as (_ & Hs & _). by intros ->.
Qed.

Lemma strip_keeps ks : fits ks -> Forall (fun k => tidy_string k = true) ks ->
  fits (strip_kinds ks) /\ spell (strip_kinds ks) = strip (spell ks) /\ code (strip_kinds ks) = trim_kind <$> code ks.
Proof.
  induction ks as [|k ks IH]; intros Hf Ht; [done|]. apply Forall_cons in Ht as [Hk Ht]. pose proof Hf as [_ Hf']. destruct (IH Hf' Ht) as (H1 & H2 & H3). clear IH.
  rewrite spell_cons, strip_app. destruct (is_ws k) eqn:Ew.
  { apply is_ws_inv in Ew as [g ->]. apply fits_ws in Hf as [[_ Hg] _]. cbn [strip_kinds code is_ws display]. rewrite H2. pose proof (strip_onto_ws g (strip (spell ks)) Hg) as Hst.
    change (to_text g) with g. destruct (strip_onto g (strip (spell ks))) as [|c u] eqn:E; [by rewrite H2|]. split_and!; [by apply fits_ws|by rewrite spell_cons, H2|done]. }
  assert (strip_kinds (k :: ks) = trim_kind k :: strip_kinds ks) as -> by (by destruct k).
  assert (is_ws (trim_kind k) = false) as Ew' by (by destruct k). cbn [code]. rewrite Ew, Ew'. cbn [fmap list_fmap]. rewrite H3, spell_cons, H2.
  destruct (decide (k = TEof)) as [->|He]; [destruct Hf as [Hc _]; split_and!; [|done|done]; split; [|done]; by rewrite H3, Hc|].
  pose proof (fits_code _ _ Hf Ew He) as Hfd. assert (trim_kind k <> TEof) as He' by (by destruct k).
  destruct (is_comment k) eqn:Ec.
  - destruct Hfd as (_ & _ & Hs). destruct (comment_scanned k _ _ Hs Ec) as (doc & Hkc & Hct & Ho). apply strip_opens_line in Ho. set (c := display k) in *.
    rewrite (strip_onto_comment c) by (first [by apply Hct|by apply at_line_end_opens]). rewrite Hkc, trim_comment_of in *.
    assert (display (comment_of doc (trim_end c)) = trim_end c) as -> by (by destruct doc). split_and!; [|done|done].
    apply fits_cons; [done|done| |done]. rewrite H2. apply comment_found; [by apply comment_text_trim|done].
  - assert (trim_kind k = k) as -> by (by destruct k). rewrite tidy_strip by (apply (found_tidy k _ Hfd); [unfold is_blank; by rewrite Ew, Ec|done]).
    split_and!; [|done|done]. apply fits_cons; [done|done| |done]. rewrite H2. apply (found_again k (spell ks)); [done|done|apply strip_similar|congruence].
Qed.

(** ** The formatter *)

Definition is_macro (k : TokenType) : bool := match k with TMacroRules => true | _ => false end.

Lemma code_forall (f : TokenType -> bool) ks : (forall g, f (TWhitespace g) = true) -> Forall (fun k => f k = true) (code ks) <-> Forall (fun k => f k = true) ks.
Proof.
  intros Hw. induction ks as [|k ks IH]; [done|]. cbn. destruct (is_ws k) eqn:E; [|by rewrite !Forall_cons, IH].
  apply is_ws_inv in E as [g ->]. rewrite IH, Forall_cons, Hw. naive_solver.
Qed.

Lemma source_readable ts : has_unknown ts = false -> existsb is_macro (kinds ts) = false -> Forall (fun k => readable k = true) (kinds ts).
Proof.
  intros Hu Hm. apply Forall_fmap, Forall_forall. intros t Ht. destruct (readable (tok_kind t)) eqn:E; [done|exfalso].
  destruct (tok_kind t) eqn:Ek; try done.
  - assert (existsb is_macro (kinds ts) = true) as Hx; [|congruence]. apply existsb_exists. exists TMacroRules. split; [|done]. apply list_elem_of_In, list_elem_of_fmap. by exists t.
  - assert (has_unknown ts = true) as Hx; [|congruence]. apply existsb_exists. exists t. rewrite Ek. split; [by apply list_elem_of_In|done].
Qed.

Lemma trim_kind_twice (ks : list TokenType) : trim_kind <$> (trim_kind <$> ks) = trim_kind <$> ks.
Proof. rewrite <-list_fmap_compose. apply list_fmap_ext. intros _ k _. cbn. destruct k; try done; cbn; by rewrite trim_end_twice. Qed.

(** What the passes and the writer make of tokens that fit. *)
Lemma written_keeps ts n : keeps (code (kinds ts)) ts -> last (kinds ts) = Some TEof -> swallows None (kinds ts) = false -> Forall (fun k => tidy_string k = true) (kinds ts) ->
  code (kinds_of (emit_formatted_string (adjust_spacing (normalize_and_expand_blocks ts)) n)) = trim_kind <$> code (kinds ts).
Proof.
  intros Hk Hl Hs Ht. set (C := code (kinds ts)) in *. assert (TEof ∈ C) as HC.
  { apply last_Some in Hl as [l E]. unfold C. rewrite E, code_app. set_solver. }
  pose proof (normalize_keeps C ts Hk) as Hn. pose proof Hn as [_ HnC].
  assert (keeps C (adjust_spacing (normalize_and_expand_blocks ts))) as [Hf Hc].
  { apply (adjust_keeps C [] None); [done|cbn; set_solver| |done]. rewrite <-swallows_code, HnC. unfold C. by rewrite swallows_code. }
  destruct (emit_keeps C n _ (mkEmit 0 true true []) [] Hf Hc) as (b & Hsp & Hfb & Hcb); [set_solver|done|].
  assert (Forall (fun k => tidy_string k = true) b) as Htb by (apply code_forall; [done|]; rewrite Hcb; by apply code_forall).
  destruct (strip_keeps b Hfb Htb) as (H1 & H2 & H3). unfold emit_formatted_string. rewrite strip_lines_strip. change (spell []) with (@nil char) in Hsp. cbn [app] in Hsp. rewrite <-Hsp, <-H2.
  destruct (fits_lexes (strip_kinds b) [] H1) as (ks & Hks & Hcode); [|by constructor|].
  - assert (TEof ∈ code (strip_kinds b)) as Hin by (rewrite H3, Hcb; apply list_elem_of_fmap; by exists TEof).
    revert Hin. generalize (strip_kinds b). intros l. induction l as [|k l IH]; [done|]. cbn. destruct (is_ws k); set_solver.
  - rewrite (kinds_of_eq ks); [|exact Hks]. by rewrite Hcode, H3, Hcb.
Qed.

(** C22. Formatting keeps the tokens: the text that [format_file] returns lexes to the
    tokens of the source, comments included, where a comment may lose blanks at its
    end.  The source must not have a comment where the break after it becomes a
    space, a string with a blank at the end of one of its lines, or [macro_rules]. *)
Theorem format_keeps_tokens content n :
  swallows None (kinds_of content) = false ->
  forallb tidy_string (kinds_of content) = true ->
  existsb is_macro (kinds_of content) = false ->
  trim_kind <$> code (kinds_of (format_file content n)) = trim_kind <$> code (kinds_of content).
Proof.
  intros Hs Ht Hm. unfold format_file. set (ts := tokenize (new_with_comments content)). destruct (turned_off ts); [done|]. destruct (has_unknown ts) eqn:Hu; [done|].
  change (kinds_of content) with (kinds ts) in *. destruct (lexes_fits (kinds ts) content (kinds_of_lexes content) (source_readable ts Hu Hm)) as (Hf & _ & Hl & _).
  rewrite written_keeps; [apply trim_kind_twice|done|done|done|]. apply Forall_forall. intros k Hk. rewrite forallb_forall in Ht. by apply Ht, list_elem_of_In.
Qed.
End sound.

Lemma format_keeps_tokens_witness :
  let s := lines ["fn main() {"; "  if a // first  "; "{"; "b = [1.5e+2, c]; }"; "  unsafe { x = 1; }"; "else"; " { }"; "}"] in
  trim_kind <$> code (kinds_of (format_file s 2)) = trim_kind <$> code (kinds_of s).
Proof. apply (format_keeps_tokens (lines ["fn main() {"; "  if a // first  "; "{"; "b = [1.5e+2, c]; }"; "  unsafe { x = 1; }"; "else"; " { }"; "}"]) 2); vm_compute; reflexivity. Defined.

(** ** What the conditions leave out *)

(** The break after a comment becomes a space before an operator, and the comment swallows the code. *)
Lemma format_swallows_code :
  let s := lines ["let x = a // left"; "  == b;"] in
  format_file s 2 = chars "let x = a // left == b;" /\ length (code (kinds_of s)) = 9%nat /\ length (code (kinds_of (format_file s 2))) = 6%nat.
Proof. vm_compute. done. Qed.

(** The blanks at the end of a line of a string are dropped. *)
Lemma format_changes_string :
  let s := [ch "x"; ch "="; quote; ch "a"; ch " "; newline; ch "b"; quote] in
  format_file s 2 = [ch "x"; ch "="; quote; ch "a"; newline; ch "b"; quote].
Proof. vm_compute. done. Qed.

(** [macro_rules!] loses its bang, and its name with it when nothing stands between. *)
Lemma format_drops_bang :
  format_file (chars "macro_rules!m { }") 2 = chars "macro_rulesm { }" /\
  kinds_of (chars "macro_rulesm") = [TIdentifier (chars "macro_rulesm"); TEof].
Proof. vm_compute. done. Qed.

(** ** The examples of the tests *)

Example format_newline_stripping :
  format_file (lines ["for "; " i in 0..10 {"; "  if sum_idx"; " == 0 { a = 1; }"; "}"]) 2 =
  lines ["for i in 0..10 {"; "  if sum_idx == 0 {"; "    a = 1;"; "  }"; "}"].
Proof. vm_compute. reflexivity. Qed.

Example format_rows :
  format_file (lines ["const T : Tensor<i64, [3]> = ["; "1,"; "2,"; "3"; "];"; ""; "fn main() -> i32 {"; "  let b = [ 1, 2 ];"; "  return a[0] + b[1];"; "}"]) 2 =
  lines ["const T : Tensor<i64, [3]> = ["; "  1,"; "  2,"; "  3"; "];"; ""; "fn main() -> i32 {"; "  let b = [ 1, 2 ];"; "  return a[0] + b[1];"; "}"].
Proof. vm_compute. reflexivity. Qed.

Example format_off_block :
  format_file (lines ["fn foo() {"; "// vx-format-begin: OFF"; "      let   x = 1;"; "// vx-format-end: OFF"; "let y = 2;"; "}"]) 2 =
  lines ["fn foo() {"; "  // vx-format-begin: OFF"; "      let   x = 1;"; "  // vx-format-end: OFF"; "  let y = 2;"; "}"].
Proof. vm_compute. reflexivity. Qed.

Example format_dangling_else :
  format_file (lines ["if a > 0 {"; "  x = 1;"; "}"; " else {"; "  x = 0;"; "}"]) 2 = lines ["if a > 0 {"; "  x = 1;"; "} else {"; "  x = 0;"; "}"].
Proof. vm_compute. reflexivity. Qed.

Example format_unsafe_comment :
  let s := lines ["fn main() -> i32 {"; "  let mut x = 1;"; "  unsafe {"; "    // set x"; "    x = 2;"; "  }"; "  return x;"; "}"] in format_file s 2 = s.
Proof. vm_compute. reflexivity. Qed.
