(* ===== verification/Tarjan.v ===== *)
(** * Strongly connected components ([tarjan_sccs] of [src/src/hir/check/capacity_fold.rs])

    The iterative algorithm over the successor lists of a graph whose nodes are
    [0 .. n-1].  A [Vec] used as a stack is a list whose head is the top.  An id
    is an [option nat]: [None] is the source's [usize::MAX], which no id
    reaches.  One iteration of the [while let] loop is [tarjan_step]; the loop
    runs on fuel, one iteration per node and per edge ([visit_root_enough]). *)

From stdpp Require Import base list relations sorting.
From Stdlib Require Import ZArith Lia.
From S2P Require Import Prelude.
Open Scope nat_scope.
Open Scope vx_scope.

Record tarjan_state : Type := mkTarjan {
  ids : list (option nat);
  low : list nat;
  on_stack : list bool;
  stack : list nat;
  next_id : nat;
  sccs : list (list nat);
}.

(** The first visit of a node: its frame has looked at no successor. *)
Definition enter (v : nat) (st : tarjan_state) : outcome tarjan_state :=
  ids' ←! vec_set (ids st) v (Some (next_id st));
  low' ←! vec_set (low st) v (next_id st);
  on' ←! vec_set (on_stack st) v true;
  Returns (mkTarjan ids' low' on' (v :: stack st) (S (next_id st)) (sccs st)).

(** [low[v] = low[v].min(i)]. *)
Definition lower (v i : nat) (st : tarjan_state) : outcome tarjan_state :=
  lv ←! vec_get (low st) v;
  low' ←! vec_set (low st) v (Nat.min lv i);
  Returns (mkTarjan (ids st) low' (on_stack st) (stack st) (next_id st) (sccs st)).

(** The inner [loop]: pop the stack down to [v]. *)
Fixpoint pop_component (v : nat) (stk : list nat) (on : list bool) (comp : list nat)
    : outcome (list nat * list bool * list nat) :=
  match stk with
  | [] => Panics
  | w :: stk =>
      on ←! vec_set on w false;
      if decide (w = v) then Returns (stk, on, comp ++ [w])
      else pop_component v stk on (comp ++ [w])
  end.

(** The end of a frame: hand [low] to the parent, emit the component rooted here. *)
Definition leave (v : nat) (rest : list (nat * nat)) (st : tarjan_state) : outcome tarjan_state :=
  lv ←! vec_get (low st) v;
  st ←! match rest with [] => Returns st | (parent, _) :: _ => lower parent lv st end;
  lv ←! vec_get (low st) v;
  iv ←! vec_get (ids st) v;
  if decide (Some lv = iv) then
    r ←! pop_component v (stack st) (on_stack st) [];
    Returns (mkTarjan (ids st) (low st) r.1.2 r.1.1 (next_id st) (sccs st ++ [r.2]))
  else Returns st.

(** The rest of an iteration: the next successor, or the end of the frame. *)
Definition scan (succ : list (list nat)) (v si : nat) (rest : list (nat * nat)) (st : tarjan_state)
    : outcome (tarjan_state * list (nat * nat)) :=
  ns ←! vec_get succ v;
  match ns !! si with
  | Some w =>
      id ←! vec_get (ids st) w;
      match id with
      | None => Returns (st, (w, 0) :: (v, S si) :: rest)
      | Some i =>
          on ←! vec_get (on_stack st) w;
          st ←! (if (on : bool) then lower v i st else Returns st);
          Returns (st, (v, S si) :: rest)
      end
  | None => st ←! leave v rest st; Returns (st, rest)
  end.

(** One iteration of the [while let] loop at the frame [(v, si)]. *)
Definition tarjan_step (succ : list (list nat)) (v si : nat) (rest : list (nat * nat)) (st : tarjan_state)
    : outcome (tarjan_state * list (nat * nat)) :=
  st ←! (if decide (si = 0) then enter v st else Returns st);
  scan succ v si rest st.

(** The [while let] loop; [None] when the fuel runs out. *)
Fixpoint visit_root (fuel : nat) (succ : list (list nat)) (work : list (nat * nat)) (st : tarjan_state)
    : option (outcome tarjan_state) :=
  match work with
  | [] => Some (Returns st)
  | (v, si) :: rest =>
      match fuel with
      | O => None
      | S fuel =>
          match tarjan_step succ v si rest st with
          | Returns (st, work) => visit_root fuel succ work st
          | Panics => Some Panics
          end
      end
  end.

(** One iteration per node and per edge. *)
Definition tarjan_fuel (succ : list (list nat)) : nat := sum_list_with (fun ns => S (length ns)) succ.

Definition tarjan_root (succ : list (list nat)) (st : tarjan_state) (root : nat) : outcome tarjan_state :=
  id ←! vec_get (ids st) root;
  match id with
  | Some _ => Returns st
  | None => default Panics (visit_root (tarjan_fuel succ) succ [(root, 0)] st)
  end.

Fixpoint tarjan_roots (succ : list (list nat)) (roots : list nat) (st : tarjan_state) : outcome tarjan_state :=
  match roots with
  | [] => Returns st
  | r :: roots => st ←! tarjan_root succ st r; tarjan_roots succ roots st
  end.

Definition tarjan (succ : list (list nat)) : outcome (list (list nat)) :=
  let n := length succ in
  st ←! tarjan_roots succ (seq 0 n) (mkTarjan (replicate n None) (replicate n 0) (replicate n false) [] 0 []);
  Returns (sccs st).

(** ** The graph *)

Definition edge (succ : list (list nat)) (x y : nat) : Prop :=
  exists ns, succ !! x = Some ns /\ y ∈ ns.

(** Components in reverse topological order: each is not empty and strongly
    connected, and its edges stay in it or go to one emitted before. *)
Inductive emitted (succ : list (list nat)) : list (list nat) -> Prop :=
| emitted_nil : emitted succ []
| emitted_snoc pre comp :
    emitted succ pre -> comp <> [] ->
    (forall x y, x ∈ comp -> y ∈ comp -> rtc (edge succ) x y) ->
    (forall x y, x ∈ comp -> edge succ x y -> y ∈ comp \/ y ∈ concat pre) ->
    emitted succ (pre ++ [comp]).

Lemma strongly_sorted_impl {A} (P Q : A -> A -> Prop) (l : list A) :
  (forall x y, x ∈ l -> y ∈ l -> P x y -> Q x y) -> StronglySorted P l -> StronglySorted Q l.
Proof.
  intros H Hs. induction Hs as [|x l Hs IH Hf]; constructor.
  - apply IH. intros y z Hy Hz. apply H; set_solver.
  - rewrite Forall_forall in *. intros y Hy. apply H; [set_solver..|]. by apply Hf.
Qed.

Lemma sum_list_with_fmap_id {A} (f : A -> nat) (l : list A) : sum_list (f <$> l) = sum_list_with f l.
Proof. induction l as [|x l IH]; [done|]. cbn. unfold id at 1. f_equal. exact IH. Qed.

(** ** The invariant *)

Section correct.
Variable succ : list (list nat).
Hypothesis succ_range : forall x y, edge succ x y -> y < length succ.
Local Abbreviation E := (edge succ).
Local Abbreviation R := (rtc (edge succ)).

Definition idn (st : tarjan_state) (x : nat) : nat := default 0 (mjoin (ids st !! x)).
Definition lown (st : tarjan_state) (x : nat) : nat := default 0 (low st !! x).

(** What holds of the frame [(v, s)], of the finished nodes [bs] found since,
    and of the stack [stk] below. *)
Record frame_ok (idf lowf : nat -> nat) (unvis : list nat) (v s : nat) (bs stk : list nat) : Prop := {
  fo_mutual x : x ∈ bs -> R x v /\ R v x;
  fo_seen x u : x ∈ bs -> E x u -> u ∉ unvis;
  fo_low x u : x ∈ bs -> E x u -> u ∈ bs ++ v :: stk -> lowf v <= idf u;
  fo_seen_v ns i u : succ !! v = Some ns -> i < s -> ns !! i = Some u -> u ∉ unvis;
  fo_low_v ns i u : succ !! v = Some ns -> i < s -> ns !! i = Some u -> u ∈ bs ++ v :: stk -> lowf v <= idf u;
  fo_le : lowf v <= idf v;
  fo_reach : exists u, u ∈ v :: stk /\ idf u = lowf v /\ R v u;
  fo_pos ns : succ !! v = Some ns -> s <= length ns;
}.

(** [v] is the successor its parent's frame looked at last. *)
Definition link (rest : list (nat * nat)) (v : nat) : Prop :=
  match rest with
  | [] => True
  | (p, s) :: _ => exists ns i, s = S i /\ succ !! p = Some ns /\ ns !! i = Some v
  end.

(** The frames cut the stack into segments. *)
Inductive chain (idf lowf : nat -> nat) (unvis : list nat) : list (nat * nat) -> list nat -> Prop :=
| chain_nil : chain idf lowf unvis [] []
| chain_cons v s bs rest stk :
    chain idf lowf unvis rest stk -> link rest v -> frame_ok idf lowf unvis v s bs stk ->
    chain idf lowf unvis ((v, s) :: rest) (bs ++ v :: stk).

Record Inv (work : list (nat * nat)) (st : tarjan_state) (unvis : list nat) : Prop := {
  inv_len : length (ids st) = length succ /\ length (low st) = length succ /\
            length (on_stack st) = length succ;
  inv_perm : concat (sccs st) ++ stack st ++ unvis ≡ₚ seq 0 (length succ);
  inv_unvis x : x ∈ unvis -> ids st !! x = Some None;
  inv_vis x : x ∈ concat (sccs st) ++ stack st -> exists i, ids st !! x = Some (Some i) /\ i < next_id st;
  inv_on x : x < length succ -> on_stack st !! x = Some (bool_decide (x ∈ stack st));
  inv_sorted : StronglySorted (fun x y => idn st y < idn st x) (stack st);
  inv_chain : chain (idn st) (lown st) unvis work (stack st);
  inv_emitted : emitted succ (sccs st);
}.

Lemma edge_lookup x ns i y : succ !! x = Some ns -> ns !! i = Some y -> E x y.
Proof. intros Hx Hi. exists ns. split; [done|]. by eapply list_elem_of_lookup_2. Qed.

Lemma frame_ok_ext idf lowf idf' lowf' unvis unvis' v s bs stk :
  (forall x, x ∈ bs ++ v :: stk -> idf x = idf' x /\ lowf x = lowf' x) ->
  (forall x, x ∈ unvis' -> x ∈ unvis) ->
  frame_ok idf lowf unvis v s bs stk -> frame_ok idf' lowf' unvis' v s bs stk.
Proof.
  intros Hext Hsub [Hm Hs Hl Hsv Hlv Hle (u & Hu & Hid & Hr) Hpo].
  assert (v ∈ bs ++ v :: stk) as Hv by set_solver. destruct (Hext v Hv) as [Ev1 Ev2].
  split; try rewrite <-Ev2.
  - done.
  - intros x y Hx Hy Hin. exact (Hs x y Hx Hy (Hsub _ Hin)).
  - intros x y Hx Hy Hin. destruct (Hext y Hin) as [<- _]. eauto.
  - intros ns i y H1 H2 H3 Hin. exact (Hsv ns i y H1 H2 H3 (Hsub _ Hin)).
  - intros ns i y H1 H2 H3 Hin. destruct (Hext y Hin) as [<- _]. eauto.
  - by rewrite <-Ev1.
  - exists u. destruct (Hext u) as [<- _]; [set_solver|]. done.
  - done.
Qed.

Lemma chain_ext idf lowf idf' lowf' unvis unvis' work stk :
  (forall x, x ∈ stk -> idf x = idf' x /\ lowf x = lowf' x) ->
  (forall x, x ∈ unvis' -> x ∈ unvis) ->
  chain idf lowf unvis work stk -> chain idf' lowf' unvis' work stk.
Proof.
  intros Hext Hsub H. induction H as [|v s bs rest stk H IH Hl Hf]; [constructor|].
  constructor; [|done|by eapply frame_ok_ext]. apply IH. intros x Hx. apply Hext. set_solver.
Qed.

Lemma chain_reach_top idf lowf unvis p s rest stk u :
  chain idf lowf unvis ((p, s) :: rest) stk -> u ∈ stk -> R u p.
Proof.
  remember ((p, s) :: rest) as work eqn:E'. intros H. revert p s rest E' u.
  induction H as [|v s0 bs rest0 stk H IH Hl Hf]; intros p s rest [= <- <- <-] u Hu.
  apply elem_of_app in Hu as [Hu|Hu]; [by apply Hf|]. apply elem_of_cons in Hu as [->|Hu]; [done|].
  destruct rest0 as [|[q sq] rest0]; [inversion H; subst; set_solver|].
  destruct Hl as (ns & i & -> & Hq & Hi).
  eapply rtc_r; [by eapply IH|]. by eapply edge_lookup.
Qed.

Lemma inv_nodup work st unvis : Inv work st unvis -> NoDup (concat (sccs st) ++ stack st ++ unvis).
Proof. intros H. rewrite (inv_perm _ _ _ H). apply NoDup_seq. Qed.

Lemma inv_lt work st unvis x :
  Inv work st unvis -> x ∈ concat (sccs st) ++ stack st ++ unvis -> x < length succ.
Proof. intros H. rewrite (inv_perm _ _ _ H), elem_of_seq. lia. Qed.

Lemma inv_cases work st unvis x :
  Inv work st unvis -> x < length succ -> x ∉ unvis -> x ∈ concat (sccs st) \/ x ∈ stack st.
Proof.
  intros H Hx Hu. assert (x ∈ concat (sccs st) ++ stack st ++ unvis) as Hin.
  { rewrite (inv_perm _ _ _ H), elem_of_seq. lia. }
  set_solver.
Qed.

Lemma inv_idn work st unvis x :
  Inv work st unvis -> x ∈ stack st -> ids st !! x = Some (Some (idn st x)).
Proof.
  intros H Hx. destruct (inv_vis _ _ _ H x) as (i & Hi & _); [set_solver|].
  unfold idn. by rewrite Hi.
Qed.

Lemma inv_lown work st unvis x :
  Inv work st unvis -> x ∈ stack st -> low st !! x = Some (lown st x).
Proof.
  intros H Hx. assert (x < length succ) as Hlt by (eapply inv_lt; [done|set_solver]).
  destruct (inv_len _ _ _ H) as (_ & Hl & _). unfold lown.
  destruct (lookup_lt_is_Some_2 (low st) x) as [y ->]; [lia|done].
Qed.

(** Ids fall from the top of the stack to its bottom. *)
Lemma sorted_split (f : nat -> nat) bs v stk :
  StronglySorted (fun x y => f y < f x) (bs ++ v :: stk) ->
  (forall u, u ∈ bs -> f v < f u) /\ (forall u, u ∈ stk -> f u < f v) /\
  StronglySorted (fun x y => f y < f x) stk.
Proof.
  intros H. apply StronglySorted_app in H as (Hx & _ & H).
  apply StronglySorted_cons in H as [Hf H]. rewrite Forall_forall in Hf.
  split_and!; [|done|done]. intros u Hu. apply (Hx u v); set_solver.
Qed.

Definition set_low (st : tarjan_state) (v x : nat) : tarjan_state :=
  mkTarjan (ids st) (<[v := x]> (low st)) (on_stack st) (stack st) (next_id st) (sccs st).

Lemma lower_eq work st unvis v i :
  Inv work st unvis -> v ∈ stack st ->
  lower v i st = Returns (set_low st v (Nat.min (lown st v) i)).
Proof.
  intros H Hv. unfold lower. pose proof (inv_lown _ _ _ _ H Hv) as Hl.
  rewrite (vec_get_Some _ _ _ Hl). simpl. rewrite vec_set_lt; [done|]. by eapply lookup_lt_Some.
Qed.

Lemma lown_set_low work st unvis v x y :
  Inv work st unvis -> v ∈ stack st ->
  lown (set_low st v x) y = if decide (y = v) then x else lown st y.
Proof.
  intros H Hv. unfold lown, set_low. simpl. case_decide as E'.
  - subst. rewrite list_lookup_insert_eq; [done|]. pose proof (inv_lown _ _ _ _ H Hv).
    by eapply lookup_lt_Some.
  - by rewrite list_lookup_insert_ne.
Qed.

Lemma inv_set_low work work' st unvis v x :
  Inv work st unvis -> v ∈ stack st ->
  chain (idn st) (lown (set_low st v x)) unvis work' (stack st) -> Inv work' (set_low st v x) unvis.
Proof.
  intros [(L1 & L2 & L3) Hp Hu Hv Ho Hs Hc He] Hin Hc'. split; try done.
  split_and!; simpl; [done| |done]. by rewrite length_insert.
Qed.

(** ** The steps *)

(** A frame looks at one more successor, which may lower its link. *)
Lemma frame_advance idf lowf lowf' unvis v si bs stk ns w :
  frame_ok idf lowf unvis v si bs stk -> succ !! v = Some ns -> ns !! si = Some w -> w ∉ unvis ->
  lowf' v <= lowf v -> (w ∈ bs ++ v :: stk -> lowf' v <= idf w) ->
  (lowf' v = lowf v \/ (w ∈ v :: stk /\ lowf' v = idf w)) ->
  frame_ok idf lowf' unvis v (S si) bs stk.
Proof.
  intros [Hm Hsn Hlw Hsv Hlv Hle (u & Hu & Hid & Hru) Hpo] Hns Hw Hwu Hlow Hlw' Hor. split.
  - done.
  - done.
  - intros x y Hx Hy Hin. specialize (Hlw x y Hx Hy Hin). lia.
  - intros ns' j y Hn Hj Hy. rewrite Hns in Hn. injection Hn as <-.
    destruct (decide (j = si)) as [->|]; [congruence|]. eapply Hsv; [done| |done]. lia.
  - intros ns' j y Hn Hj Hy Hin'. rewrite Hns in Hn. injection Hn as <-.
    destruct (decide (j = si)) as [->|].
    + assert (y = w) as -> by congruence. auto.
    + assert (lowf v <= idf y) by (eapply Hlv; [done| |done|done]; lia). lia.
  - lia.
  - destruct Hor as [->|[Hw' ->]]; [eauto|]. exists w.
    split_and!; [done|done|apply rtc_once; by eapply edge_lookup].
  - intros ns' Hn. rewrite Hns in Hn. injection Hn as <-. apply lookup_lt_Some in Hw. lia.
Qed.

(** A visited successor. *)
Lemma visited_step v si rest st unvis ns w :
  Inv ((v, si) :: rest) st unvis -> succ !! v = Some ns -> ns !! si = Some w -> w ∉ unvis ->
  exists st', (i ←! vec_get (ids st) w;
               match i with
               | None => Returns (st, (w, 0) :: (v, S si) :: rest)
               | Some i => on ←! vec_get (on_stack st) w;
                           st' ←! (if (on : bool) then lower v i st else Returns st);
                           Returns (st', (v, S si) :: rest)
               end) = Returns (st', (v, S si) :: rest) /\
    Inv ((v, S si) :: rest) st' unvis.
Proof.
  intros H Hns Hw Hwu. assert (w < length succ) as Hlt.
  { eapply succ_range. by eapply edge_lookup. }
  pose proof (inv_cases _ _ _ _ H Hlt Hwu) as Hcase.
  destruct (inv_vis _ _ _ H w) as (i & Hi & _); [set_solver|].
  rewrite (vec_get_Some _ _ _ Hi). cbn [outcome_bind].
  rewrite (vec_get_Some _ _ _ (inv_on _ _ _ H w Hlt)). cbn [outcome_bind].
  pose proof (inv_chain _ _ _ H) as Hc. inversion Hc as [|? ? bs ? stk Hr Hl Hf Ev Est]; subst.
  pose proof (inv_sorted _ _ _ H) as Hs. rewrite <-Est in Hs. apply sorted_split in Hs as (Hbs & Hstk & _).
  assert (v ∈ stack st) as Hv by (rewrite <-Est; set_solver).
  pose proof (inv_nodup _ _ _ H) as Hnd. rewrite <-Est in Hnd.
  assert (v ∉ stk) as Hvs.
  { intros Hin. apply NoDup_app in Hnd as (_ & _ & Hnd). apply NoDup_app in Hnd as (Hnd & _ & _).
    apply NoDup_app in Hnd as (_ & _ & Hnd). by apply NoDup_cons in Hnd as [? _]. }
  case_bool_decide as Hon; cycle 1.
  - exists st. split; [done|]. destruct H as [L Hp Hun Hvi Hin Hso _ He]. split; try done.
    rewrite <-Est. constructor; [done|done|].
    apply (frame_advance _ (lown st) _ _ _ _ _ _ ns w); [done..| |by left].
    intros Hin'. by rewrite <-?Est in Hon.
  - assert (i = idn st w) as -> by (unfold idn; by rewrite Hi).
    rewrite (lower_eq _ _ _ _ _ H Hv). cbn [outcome_bind]. eexists. split; [done|].
    eapply inv_set_low; [done|done|]. rewrite <-Est. constructor; [|done|].
    + eapply chain_ext; [| |done]; [|done]. intros x Hx. split; [done|].
      rewrite (lown_set_low _ _ _ _ _ _ H Hv). rewrite decide_False; [done|]. intros ->. done.
    + pose proof (fo_le _ _ _ _ _ _ _ Hf) as Hle.
      apply (frame_advance _ (lown st) _ _ _ _ _ _ ns w); [done..| | |]; rewrite ?(lown_set_low _ _ _ _ _ _ H Hv), ?decide_True by done; [lia|lia|].
      destruct (decide (idn st w < lown st v)) as [Hlt'|Hge]; [right|left; lia]. split; [|lia].
      rewrite <-?Est in Hon. apply elem_of_app in Hon as [Hon|Hon]; [|done].
      specialize (Hbs _ Hon). lia.
Qed.

Lemma pop_component_eq v bs stk on comp :
  v ∉ bs -> (forall x, x ∈ bs ++ [v] -> x < length on) ->
  exists on', pop_component v (bs ++ v :: stk) on comp = Returns (stk, on', comp ++ bs ++ [v]) /\
    length on' = length on /\
    forall x, on' !! x = if decide (x ∈ bs ++ [v]) then Some false else on !! x.
Proof.
  revert on comp. induction bs as [|b bs IH]; intros on comp Hv Hr; simpl.
  - rewrite vec_set_lt by (apply Hr; set_solver). simpl. rewrite decide_True by done.
    eexists. split_and!; [done|by rewrite length_insert|]. intros x. case_decide as Hx.
    + assert (x = v) as -> by set_solver. apply list_lookup_insert_eq, Hr. set_solver.
    + apply list_lookup_insert_ne. set_solver.
  - rewrite vec_set_lt by (apply Hr; set_solver). simpl. rewrite decide_False by set_solver.
    destruct (IH (<[b := false]> on) (comp ++ [b])) as (on' & -> & Hlen & Hlook); [set_solver| |].
    { intros x Hx. rewrite length_insert. apply Hr. set_solver. }
    eexists. split_and!; [by rewrite <-!app_assoc|by rewrite Hlen, length_insert|].
    intros x. rewrite Hlook. destruct (decide (x ∈ bs ++ [v])) as [Hx|Hx].
    { by rewrite decide_True by set_solver. }
    destruct (decide (x = b)) as [->|Hb].
    + rewrite decide_True by set_solver. apply list_lookup_insert_eq, Hr. set_solver.
    + rewrite decide_False by set_solver. by apply list_lookup_insert_ne.
Qed.

(** A finished frame has looked at every edge of its node. *)
Lemma finished idf lowf unvis v si bs stk ns u :
  frame_ok idf lowf unvis v si bs stk -> succ !! v = Some ns -> ns !! si = None -> E v u ->
  (u ∉ unvis) /\ (u ∈ bs ++ v :: stk -> lowf v <= idf u).
Proof.
  intros Hf Hns Hend (ns' & Hns' & Hu). rewrite Hns in Hns'. injection Hns' as <-.
  apply list_elem_of_lookup in Hu as [i Hi]. apply lookup_ge_None in Hend.
  assert (i < si) by (apply lookup_lt_Some in Hi; lia). split.
  - by eapply fo_seen_v.
  - by eapply fo_low_v.
Qed.

(** The node is the root of a component. *)
Lemma emit_step v si rest st unvis ns bs stk :
  Inv ((v, si) :: rest) st unvis -> succ !! v = Some ns -> ns !! si = None ->
  stack st = bs ++ v :: stk -> chain (idn st) (lown st) unvis rest stk ->
  frame_ok (idn st) (lown st) unvis v si bs stk -> lown st v = idn st v ->
  exists on', pop_component v (stack st) (on_stack st) [] = Returns (stk, on', bs ++ [v]) /\
    Inv rest (mkTarjan (ids st) (low st) on' stk (next_id st) (sccs st ++ [bs ++ [v]])) unvis.
Proof.
  intros H Hns Hend Est Hr Hf Hroot.
  pose proof (inv_nodup _ _ _ H) as Hnd. rewrite Est in Hnd.
  assert (NoDup (bs ++ v :: stk)) as Hnd'.
  { apply NoDup_app in Hnd as (_ & _ & Hnd). by apply NoDup_app in Hnd as (? & _ & _). }
  apply NoDup_app in Hnd' as (_ & Hdisj & Hndv). apply NoDup_cons in Hndv as [Hvs _].
  destruct (pop_component_eq v bs stk (on_stack st) []) as (on' & Hpop & Hlen & Hlook).
  { intros Hin. apply (Hdisj v Hin). set_solver. }
  { intros x Hx. destruct (inv_len _ _ _ H) as (_ & _ & ->). eapply inv_lt; [done|].
    rewrite Est. set_solver. }
  exists on'. rewrite Est. split; [done|].
  pose proof (inv_sorted _ _ _ H) as Hs. rewrite Est in Hs. apply sorted_split in Hs as (Hbs & Hstk & Hs).
  destruct (inv_len _ _ _ H) as (L1 & L2 & L3).
  assert (forall x, x ∈ bs ++ [v] -> R x v /\ R v x) as Hmut.
  { intros x Hx. apply elem_of_app in Hx as [Hx|Hx]; [by apply Hf|]. by assert (x = v) as -> by set_solver. }
  split; cbn [ids low on_stack stack next_id sccs].
  - split_and!; [done|done|lia].
  - rewrite <-(inv_perm _ _ _ H), Est, concat_app. simpl. rewrite app_nil_r, <-!app_assoc. simpl. done.
  - apply H.
  - intros x Hx. apply (inv_vis _ _ _ H). rewrite Est. rewrite concat_app in Hx. simpl in Hx. set_solver.
  - intros x Hx. rewrite Hlook. case_decide as Hd.
    + rewrite bool_decide_eq_false_2; [done|]. intros Hin. apply elem_of_app in Hd as [Hd|Hd].
      * apply (Hdisj x Hd). set_solver.
      * assert (x = v) as -> by set_solver. done.
    + rewrite (inv_on _ _ _ H x Hx), Est. f_equal. apply bool_decide_ext. set_solver.
  - done.
  - done.
  - constructor; [apply H|destruct bs; discriminate| |].
    + intros x y Hx Hy. transitivity v; [by apply Hmut|by apply Hmut].
    + intros x y Hx Hxy.
      assert ((y ∉ unvis) /\ (y ∈ bs ++ v :: stk -> lown st v <= idn st y)) as [Hyu Hyl].
      { apply elem_of_app in Hx as [Hx|Hx].
        - split; [by eapply fo_seen|by eapply fo_low].
        - assert (x = v) as -> by set_solver. by eapply finished. }
      destruct (inv_cases _ _ _ y H (succ_range _ _ Hxy) Hyu) as [Hy|Hy]; [by right|left].
      rewrite Est in Hy. specialize (Hyl Hy). apply elem_of_app in Hy as [Hy|Hy]; [set_solver|].
      apply elem_of_cons in Hy as [->|Hy]; [set_solver|]. specialize (Hstk _ Hy). lia.
Qed.

(** The node is not a root: its segment joins its parent's. *)
Lemma merge_step v si p sp rest st unvis ns bs stk :
  Inv ((v, si) :: (p, sp) :: rest) st unvis -> succ !! v = Some ns -> ns !! si = None ->
  stack st = bs ++ v :: stk -> chain (idn st) (lown st) unvis ((p, sp) :: rest) stk ->
  frame_ok (idn st) (lown st) unvis v si bs stk -> link ((p, sp) :: rest) v -> lown st v <> idn st v ->
  Inv ((p, sp) :: rest) (set_low st p (Nat.min (lown st p) (lown st v))) unvis.
Proof.
  intros H Hns Hend Est Hr Hf Hl Hroot.
  inversion Hr as [|? ? bs' ? stk' Hr' Hl' Hf' Ep Est']; subst.
  pose proof (inv_sorted _ _ _ H) as Hs. rewrite Est in Hs. apply sorted_split in Hs as (Hbs & Hstk & Hs).
  apply sorted_split in Hs as (Hbs' & Hstk' & _).
  assert (p ∈ stack st) as Hp by (rewrite Est; set_solver).
  assert (p ∉ stk') as Hps by (intros Hin; specialize (Hstk' _ Hin); lia).
  assert (E p v) as Hpv by (destruct Hl as (? & ? & _ & ? & ?); by eapply edge_lookup).
  pose proof (Hstk p ltac:(set_solver)) as Hidp.
  assert (exists u, u ∈ bs' ++ p :: stk' /\ idn st u = lown st v /\ R v u) as (u & Hu & Hid & Hvu).
  { destruct (fo_reach _ _ _ _ _ _ _ Hf) as (u & Hu & Hid & Hvu). exists u. split_and!; [|done|done].
    apply elem_of_cons in Hu as [->|Hu]; [congruence|done]. }
  assert (R v p) as Hvp by (transitivity u; [done|]; by eapply chain_reach_top).
  pose proof (fo_le _ _ _ _ _ _ _ Hf') as Hle'.
  eapply inv_set_low; [done|done|]. rewrite Est.
  replace (bs ++ v :: bs' ++ p :: stk') with ((bs ++ v :: bs') ++ p :: stk') by by rewrite <-app_assoc.
  constructor; [|done|].
  { eapply chain_ext; [|done|done]. intros x Hx. split; [done|].
    rewrite (lown_set_low _ _ _ _ _ _ H Hp), decide_False; [done|]. intros ->. done. }
  assert (forall y, y ∈ (bs ++ v :: bs') ++ p :: stk' -> y ∈ bs' ++ p :: stk' \/ idn st p < idn st y) as Hup.
  { intros y Hy. destruct (decide (y ∈ bs)) as [Hb|Hb]; [right; specialize (Hbs _ Hb); lia|].
    destruct (decide (y = v)) as [->|]; [by right|]. left. set_solver. }
  assert (forall x y, x ∈ bs ++ [v] -> E x y -> (y ∉ unvis) /\ (y ∈ bs ++ v :: bs' ++ p :: stk' -> lown st v <= idn st y)) as Hnew.
  { intros x y Hx Hxy. apply elem_of_app in Hx as [Hx|Hx].
    - split; [exact (fo_seen _ _ _ _ _ _ _ Hf x y Hx Hxy)|exact (fo_low _ _ _ _ _ _ _ Hf x y Hx Hxy)].
    - assert (x = v) as -> by set_solver. exact (finished _ _ _ _ _ _ _ _ _ Hf Hns Hend Hxy). }
  split; rewrite ?(lown_set_low _ _ _ _ _ _ H Hp), ?decide_True by done.
  - intros x Hx. destruct (decide (x ∈ bs')) as [Hb|Hb]; [by apply Hf'|].
    assert (R x v /\ R v x) as [??].
    { destruct (decide (x = v)) as [->|]; [done|]. apply Hf. set_solver. }
    split; [by transitivity v|]. eapply rtc_l; [exact Hpv|done].
  - intros x y Hx Hxy. destruct (decide (x ∈ bs')); [by eapply (fo_seen _ _ _ _ _ _ _ Hf')|].
    apply (Hnew x y); [set_solver|done].
  - intros x y Hx Hxy Hy. destruct (decide (x ∈ bs')) as [Hb|Hb].
    + destruct (Hup y Hy) as [Hy'|?]; [|lia].
      pose proof (fo_low _ _ _ _ _ _ _ Hf' x y Hb Hxy Hy'). lia.
    + destruct (Hnew x y) as [_ Hn]; [set_solver|done|].
      assert (lown st v <= idn st y); [apply Hn; set_solver|lia].
  - apply Hf'.
  - intros ns' i y Hn Hi Hy Hin. destruct (Hup y Hin) as [Hy'|?]; [|lia].
    pose proof (fo_low_v _ _ _ _ _ _ _ Hf' ns' i y Hn Hi Hy Hy'). lia.
  - lia.
  - destruct (decide (lown st v < lown st p)) as [Hlt|Hge].
    + exists u. split_and!; [|lia|eapply rtc_l; [exact Hpv|done]].
      destruct (decide (u ∈ bs')) as [Hb|Hb]; [specialize (Hbs' _ Hb); lia|]. set_solver.
    + destruct (fo_reach _ _ _ _ _ _ _ Hf') as (u' & Hu' & Hid' & Hpu').
      exists u'. split_and!; [done|lia|done].
  - apply Hf'.
Qed.

Lemma set_low_id work st unvis p : Inv work st unvis -> p ∈ stack st -> set_low st p (lown st p) = st.
Proof.
  intros H Hp. unfold set_low. rewrite list_insert_id by (by eapply inv_lown). by destruct st.
Qed.

Lemma leave_step v si rest st unvis ns :
  Inv ((v, si) :: rest) st unvis -> succ !! v = Some ns -> ns !! si = None ->
  exists st', leave v rest st = Returns st' /\ Inv rest st' unvis.
Proof.
  intros H Hns Hend. pose proof (inv_chain _ _ _ H) as Hc.
  inversion Hc as [|? ? bs ? stk Hr Hl Hf Ev Est]; subst. symmetry in Est.
  assert (v ∈ stack st) as Hv by (rewrite Est; set_solver).
  unfold leave. rewrite (vec_get_Some _ _ _ (inv_lown _ _ _ _ H Hv)). cbn [outcome_bind].
  pose proof (fo_reach _ _ _ _ _ _ _ Hf) as (u & Hu & Hid & _).
  destruct rest as [|[p sp] rest].
  - inversion Hr; subst. assert (u = v) as -> by set_solver.
    cbn [outcome_bind]. rewrite (vec_get_Some _ _ _ (inv_lown _ _ _ _ H Hv)). cbn [outcome_bind].
    rewrite (vec_get_Some _ _ _ (inv_idn _ _ _ _ H Hv)). cbn [outcome_bind].
    rewrite decide_True by congruence.
    destruct (emit_step _ _ _ _ _ _ _ _ H Hns Hend Est Hr Hf (eq_sym Hid)) as (on' & -> & Hinv).
    eexists. split; [done|exact Hinv].
  - assert (p ∈ stk) as Hps by (inversion Hr; subst; set_solver).
    assert (p ∈ stack st) as Hp by (rewrite Est; set_solver).
    pose proof (inv_sorted _ _ _ H) as Hs. rewrite Est in Hs. apply sorted_split in Hs as (_ & Hstk & _).
    specialize (Hstk p Hps). rewrite (lower_eq _ _ _ _ _ H Hp). cbn [outcome_bind].
    set (st1 := set_low st p _).
    assert (low st1 !! v = Some (lown st v)) as Hlv.
    { unfold st1, set_low. simpl. rewrite list_lookup_insert_ne by (intros ->; lia). by eapply inv_lown. }
    rewrite (vec_get_Some _ _ _ Hlv). cbn [outcome_bind].
    change (ids st1) with (ids st). rewrite (vec_get_Some _ _ _ (inv_idn _ _ _ _ H Hv)). cbn [outcome_bind].
    case_decide as Hroot.
    + assert (lown st v = idn st v) as Hroot' by congruence.
      assert (lown st p <= idn st p) by (inversion Hr; subst; by eapply fo_le).
      assert (st1 = st) as ->.
      { unfold st1. rewrite Nat.min_l by lia. by eapply set_low_id. }
      destruct (emit_step _ _ _ _ _ _ _ _ H Hns Hend Est Hr Hf Hroot') as (on' & -> & Hinv).
      eexists. split; [done|exact Hinv].
    + eexists. split; [done|]. eapply merge_step; try done. congruence.
Qed.

(** The frames below a node that is about to be entered: its parent's position
    has moved past it. *)
Definition bumped (v : nat) (rest rest' : list (nat * nat)) : Prop :=
  match rest with
  | [] => rest' = []
  | (p, s) :: r => rest' = (p, S s) :: r /\ exists ns, succ !! p = Some ns /\ ns !! s = Some v
  end.

Lemma chain_bump idf lowf unvis unvis' v rest rest' stk :
  chain idf lowf unvis rest stk -> bumped v rest rest' -> v ∉ stk -> v ∉ unvis' ->
  (forall x, x ∈ unvis' -> x ∈ unvis) -> chain idf lowf unvis' rest' stk /\ link rest' v.
Proof.
  intros Hc Hb Hvs Hvu Hsub.
  destruct rest as [|[p s] r]; simpl in Hb; [subst rest'; inversion Hc; by split; [constructor|]|].
  destruct Hb as [-> (ns & Hns & Hi)]. split; [|by exists ns, s].
  inversion Hc as [|? ? bs ? stk' Hr Hl Hf Ep Est]; subst. constructor; [by eapply chain_ext|done|].
  apply (frame_advance _ lowf _ _ _ _ _ _ ns v); [by eapply frame_ok_ext|done|done|done|done|done|by left].
Qed.

Lemma enter_step v rest rest' st unvis :
  Inv rest st unvis -> v ∈ unvis -> bumped v rest rest' ->
  exists st' unvis', enter v st = Returns st' /\ unvis ≡ₚ v :: unvis' /\ Inv ((v, 0) :: rest') st' unvis'.
Proof.
  intros H Hv Hb. apply elem_of_Permutation in Hv as [unvis' Hp].
  assert (v < length succ) as Hlt by (eapply inv_lt; [done|]; rewrite Hp; set_solver).
  destruct (inv_len _ _ _ H) as (L1 & L2 & L3). unfold enter.
  rewrite !vec_set_lt by lia. simpl. eexists _, unvis'. split_and!; [done|done|].
  pose proof (inv_nodup _ _ _ H) as Hnd. rewrite Hp in Hnd.
  assert ((v ∉ stack st) /\ (v ∉ concat (sccs st)) /\ v ∉ unvis') as (Hvs & Hvc & Hvu).
  { apply NoDup_app in Hnd as (_ & Hd1 & Hnd). apply NoDup_app in Hnd as (_ & Hd2 & Hnd).
    apply NoDup_cons in Hnd as [? _]. split_and!; [|set_solver|done]. intros Hin. apply (Hd2 v Hin). set_solver. }
  set (st' := mkTarjan _ _ _ _ _ _).
  assert (forall x, x ∈ stack st -> idn st x = idn st' x /\ lown st x = lown st' x) as Hext.
  { intros x Hx. unfold idn, lown, st'. simpl. rewrite !list_lookup_insert_ne by (intros ->; done). done. }
  assert (idn st' v = next_id st /\ lown st' v = next_id st) as [Ei El].
  { unfold idn, lown, st'. simpl. rewrite !list_lookup_insert_eq by lia. done. }
  assert (chain (idn st') (lown st') unvis' rest' (stack st) /\ link rest' v) as Hbump.
  { eapply chain_bump; [eapply chain_ext; [exact Hext| |apply H]|done..|]; [done|].
    intros x Hx. rewrite Hp. set_solver. }
  split; cbn [ids low on_stack stack next_id sccs st'].
  - rewrite !length_insert. done.
  - rewrite <-(inv_perm _ _ _ H), Hp. simpl. apply Permutation_app; [done|]. by rewrite <-Permutation_middle.
  - intros x Hx. rewrite list_lookup_insert_ne by (intros ->; done). apply H. rewrite Hp. set_solver.
  - intros x Hx. destruct (decide (x = v)) as [->|Hn].
    + exists (next_id st). rewrite list_lookup_insert_eq by lia. split; [done|lia].
    + destruct (inv_vis _ _ _ H x) as (i & ? & ?); [set_solver|]. exists i.
      rewrite list_lookup_insert_ne by done. split; [done|lia].
  - intros x Hx. destruct (decide (x = v)) as [->|Hn].
    + rewrite list_lookup_insert_eq by lia. by rewrite bool_decide_eq_true_2 by set_solver.
    + rewrite list_lookup_insert_ne by done. rewrite (inv_on _ _ _ H x Hx). f_equal.
      apply bool_decide_ext. set_solver.
  - constructor.
    + eapply strongly_sorted_impl; [|apply (inv_sorted _ _ _ H)].
      intros x y Hx Hy Hlt'. destruct (Hext x Hx) as [<- _]. by destruct (Hext y Hy) as [<- _].
    + apply Forall_forall. intros x Hx. rewrite Ei. destruct (Hext x Hx) as [<- _].
      destruct (inv_vis _ _ _ H x) as (i & Hi & ?); [set_solver|]. unfold idn. by rewrite Hi.
  - apply (chain_cons _ _ _ v 0 []).
    + apply Hbump.
    + apply Hbump.
    + split.
      * intros x Hx. by apply elem_of_nil in Hx.
      * intros x u Hx. by apply elem_of_nil in Hx.
      * intros x u Hx. by apply elem_of_nil in Hx.
      * intros; lia.
      * intros; lia.
      * by rewrite Ei, El.
      * exists v. split_and!; [set_solver|congruence|done].
      * intros; lia.
  - apply H.
Qed.

(** ** The loops *)

Definition weight (x : nat) : nat := S (length (default [] (succ !! x))).

(** The iterations left: one per edge not looked at and one per frame. *)
Definition frames_left (work : list (nat * nat)) : nat :=
  sum_list_with (fun f : nat * nat => weight f.1 - f.2) work.
Lemma frames_left_cons v s work : frames_left ((v, s) :: work) = (weight v - s) + frames_left work.
Proof. reflexivity. Qed.

Definition nodes_left (unvis : list nat) : nat := sum_list_with weight unvis.

(** What holds at the head of the loop: the top frame is new, or it has moved. *)
Definition at_head (work : list (nat * nat)) (st : tarjan_state) (unvis : list nat) (m : nat) : Prop :=
  (exists v rest rest', work = (v, 0) :: rest' /\ bumped v rest rest' /\ v ∈ unvis /\ Inv rest st unvis /\
     m = nodes_left unvis + frames_left rest') \/
  (Inv work st unvis /\ m = nodes_left unvis + frames_left work /\ forall v s rest, work = (v, s) :: rest -> s <> 0).

Lemma scan_step v si rest st unvis :
  Inv ((v, si) :: rest) st unvis ->
  exists st' work' m', scan succ v si rest st = Returns (st', work') /\ at_head work' st' unvis m' /\
    S m' = nodes_left unvis + frames_left ((v, si) :: rest).
Proof.
  intros H. pose proof (inv_chain _ _ _ H) as Hc. inversion Hc as [|? ? bs ? stk Hr Hl Hf Ev Est]; subst.
  assert (v < length succ) as Hlt by (eapply inv_lt; [done|]; rewrite <-Est; set_solver).
  destruct (lookup_lt_is_Some_2 _ _ Hlt) as [ns Hns]. unfold scan.
  rewrite (vec_get_Some _ _ _ Hns). cbn [outcome_bind].
  assert (weight v = S (length ns)) as Hw by (unfold weight; by rewrite Hns).
  destruct (ns !! si) as [w|] eqn:Hi; cycle 1.
  - destruct (leave_step _ _ _ _ _ _ H Hns Hi) as (st' & -> & Hinv). cbn [outcome_bind].
    exists st', rest, (nodes_left unvis + frames_left rest). split_and!; [done| |].
    + right. split_and!; [done|done|]. intros p s r ->. destruct Hl as (? & ? & -> & _). done.
    + rewrite frames_left_cons, Hw. apply lookup_ge_None in Hi.
      assert (si <= length ns); [|lia]. exact (fo_pos _ _ _ _ _ _ _ Hf ns Hns).
  - apply lookup_lt_Some in Hi as Hlen.
    assert (S (nodes_left unvis + frames_left ((v, S si) :: rest)) = nodes_left unvis + frames_left ((v, si) :: rest)) as Hm.
    { rewrite !frames_left_cons, Hw. lia. }
    destruct (decide (w ∈ unvis)) as [Hu|Hu].
    + rewrite (vec_get_Some _ _ _ (inv_unvis _ _ _ H w Hu)). cbn [outcome_bind].
      eexists _, _, _. split_and!; [done| |exact Hm]. left.
      exists w, ((v, si) :: rest), ((v, S si) :: rest). split_and!; try done. split; [done|]. by exists ns.
    + destruct (visited_step _ _ _ _ _ _ _ H Hns Hi Hu) as (st' & -> & Hinv).
      eexists _, _, _. split_and!; [done| |exact Hm]. right. split_and!; [done|done|]. intros p s r [= <- <- <-]. done.
Qed.

Lemma tarjan_step_head v si rest st unvis m :
  at_head ((v, si) :: rest) st unvis m ->
  exists st' work' unvis' m', tarjan_step succ v si rest st = Returns (st', work') /\
    at_head work' st' unvis' m' /\ S m' = m /\ (forall x, x ∈ unvis' -> x ∈ unvis) /\ v ∉ unvis'.
Proof.
  unfold tarjan_step. intros [(w & rest0 & rest' & Ew & Hb & Hv & H & ->)|(H & -> & Hs)].
  - injection Ew as <- -> ->. rewrite decide_True by done.
    destruct (enter_step _ _ _ _ _ H Hv Hb) as (st1 & unvis1 & -> & Hp & H1). cbn [outcome_bind].
    destruct (scan_step _ _ _ _ _ H1) as (st' & work' & m' & -> & Hh & Hm).
    exists st', work', unvis1, m'. split_and!; [done|done| | |].
    + rewrite Hm, frames_left_cons. unfold nodes_left. rewrite Hp. cbn [sum_list_with]. lia.
    + intros x Hx. rewrite Hp. set_solver.
    + pose proof (inv_nodup _ _ _ H) as Hnd. rewrite Hp in Hnd.
      apply NoDup_app in Hnd as (_ & _ & Hnd). apply NoDup_app in Hnd as (_ & _ & Hnd).
      by apply NoDup_cons in Hnd as [? _].
  - rewrite decide_False by (by eapply Hs). cbn [outcome_bind].
    destruct (scan_step _ _ _ _ _ H) as (st' & work' & m' & -> & Hh & Hm).
    exists st', work', unvis, m'. split_and!; [done|done|done|done|].
    pose proof (inv_nodup _ _ _ H) as Hnd. apply NoDup_app in Hnd as (_ & _ & Hnd).
    apply NoDup_app in Hnd as (_ & Hd & _). apply Hd.
    pose proof (inv_chain _ _ _ H) as Hc. inversion Hc; subst. set_solver.
Qed.

Lemma visit_root_enough fuel work st unvis m :
  at_head work st unvis m -> m <= fuel ->
  exists st' unvis', visit_root fuel succ work st = Some (Returns st') /\ Inv [] st' unvis' /\
    (forall x, x ∈ unvis' -> x ∈ unvis) /\ (forall v s rest, work = (v, s) :: rest -> v ∉ unvis').
Proof.
  revert work st unvis m. induction fuel as [|fuel IH]; intros work st unvis m Hh Hm; destruct work as [|[v si] rest].
  1, 3: destruct Hh as [(? & ? & ? & ? & _)|(H & _ & _)]; [done|]; exists st, unvis; by split_and!.
  - destruct (tarjan_step_head _ _ _ _ _ _ Hh) as (? & ? & ? & m' & _ & _ & ? & _). lia.
  - destruct (tarjan_step_head _ _ _ _ _ _ Hh) as (st1 & work1 & unvis1 & m' & Hst & Hh1 & Hm' & Hsub & Hv).
    simpl. rewrite Hst. destruct (IH _ _ _ _ Hh1) as (st' & unvis' & -> & Hinv & Hsub' & _); [lia|].
    exists st', unvis'. split_and!; [done|done|auto|]. intros ? ? ? [= <- <- <-]. auto.
Qed.

Lemma fuel_nodes_left : tarjan_fuel succ = nodes_left (seq 0 (length succ)).
Proof.
  unfold tarjan_fuel, nodes_left. rewrite <-(sum_list_with_fmap_id weight), <-sum_list_with_fmap_id.
  f_equal. apply list_eq. intros i. rewrite !list_lookup_fmap.
  destruct (succ !! i) as [ns|] eqn:Hi; simpl.
  - rewrite lookup_seq_lt by (by eapply lookup_lt_Some). simpl. unfold weight. by rewrite Hi.
  - rewrite lookup_seq_ge by (by apply lookup_ge_None). done.
Qed.

Lemma nodes_left_fuel st unvis : Inv [] st unvis -> nodes_left unvis <= tarjan_fuel succ.
Proof.
  intros H. rewrite fuel_nodes_left. unfold nodes_left.
  rewrite <-(inv_perm _ _ _ H), !sum_list_with_app. lia.
Qed.

Lemma tarjan_root_ok st unvis root :
  Inv [] st unvis -> root < length succ ->
  exists st' unvis', tarjan_root succ st root = Returns st' /\ Inv [] st' unvis' /\
    (forall x, x ∈ unvis' -> x ∈ unvis) /\ root ∉ unvis'.
Proof.
  intros H Hlt. unfold tarjan_root. destruct (decide (root ∈ unvis)) as [Hu|Hu].
  - rewrite (vec_get_Some _ _ _ (inv_unvis _ _ _ H _ Hu)). cbn [outcome_bind].
    destruct (visit_root_enough (tarjan_fuel succ) [(root, 0)] st unvis (nodes_left unvis)) as (st' & unvis' & -> & ? & ? & Hr).
    + left. exists root, [], []. by split_and!.
    + by eapply nodes_left_fuel.
    + exists st', unvis'. split_and!; [done..|]. by eapply Hr.
  - destruct (inv_vis _ _ _ H root) as (i & Hi & _).
    { destruct (inv_cases _ _ _ _ H Hlt Hu); set_solver. }
    rewrite (vec_get_Some _ _ _ Hi). simpl. by exists st, unvis.
Qed.

Lemma tarjan_roots_ok roots st unvis :
  Inv [] st unvis -> (forall r, r ∈ roots -> r < length succ) ->
  exists st' unvis', tarjan_roots succ roots st = Returns st' /\ Inv [] st' unvis' /\
    (forall x, x ∈ unvis' -> x ∈ unvis /\ x ∉ roots).
Proof.
  revert st unvis. induction roots as [|r roots IH]; intros st unvis H Hr; simpl.
  - exists st, unvis. split_and!; [done|done|]. set_solver.
  - destruct (tarjan_root_ok st unvis r H) as (st1 & unvis1 & -> & H1 & Hs1 & Hn1); [apply Hr; set_solver|].
    simpl. destruct (IH _ _ H1) as (st' & unvis' & -> & H' & Hs'); [set_solver|].
    exists st', unvis'. split_and!; [done|done|]. intros x Hx. destruct (Hs' x Hx). set_solver.
Qed.

Lemma inv_init :
  Inv [] (mkTarjan (replicate (length succ) None) (replicate (length succ) 0)
            (replicate (length succ) false) [] 0 []) (seq 0 (length succ)).
Proof.
  split; cbn [ids low on_stack stack next_id sccs].
  - by rewrite !length_replicate.
  - done.
  - intros x Hx. apply elem_of_seq in Hx. apply lookup_replicate_2. lia.
  - intros x Hx. by apply elem_of_nil in Hx.
  - intros x Hx. by apply lookup_replicate_2.
  - constructor.
  - constructor.
  - constructor.
Qed.

Lemma tarjan_ok :
  exists comps, tarjan succ = Returns comps /\ emitted succ comps /\
    concat comps ≡ₚ seq 0 (length succ).
Proof.
  unfold tarjan. destruct (tarjan_roots_ok (seq 0 (length succ)) _ _ inv_init) as (st & unvis & -> & H & Hs).
  { intros r Hr. apply elem_of_seq in Hr. lia. }
  exists (sccs st). split_and!; [done|apply H|].
  assert (unvis = []) as -> by (apply elem_of_nil_inv; intros x Hx; by destruct (Hs x Hx)).
  pose proof (inv_chain _ _ _ H) as Hc. assert (stack st = []) as Hst by (by inversion Hc). rewrite <-(inv_perm _ _ _ H), Hst.
  by rewrite app_nil_r.
Qed.
End correct.

(** ** What the emitted components are *)

Lemma emitted_edge succ comps k ck x y :
  emitted succ comps -> comps !! k = Some ck -> x ∈ ck -> edge succ x y ->
  exists j cj, j <= k /\ comps !! j = Some cj /\ y ∈ cj.
Proof.
  intros H. revert k ck x y. induction H as [|pre comp H IH Hne Hsc Hcl]; intros k ck x y Hk Hx Hxy; [done|].
  apply lookup_app_Some in Hk as [Hk|[Hge Hk]].
  - destruct (IH _ _ _ _ Hk Hx Hxy) as (j & cj & ? & Hj & ?). exists j, cj.
    split_and!; [done|by apply lookup_app_l_Some|done].
  - apply list_lookup_singleton_Some in Hk as [Hk <-].
    destruct (Hcl x y Hx Hxy) as [Hy|Hy].
    + exists k, comp. split_and!; [done| |done]. rewrite lookup_app_r by lia. by rewrite Hk.
    + apply list_elem_of_In, in_concat in Hy as (cj & Hcj & Hy).
      apply list_elem_of_In, list_elem_of_lookup in Hcj as [j Hj]. apply list_elem_of_In in Hy.
      exists j, cj. split_and!; [apply lookup_lt_Some in Hj; lia|by apply lookup_app_l_Some|done].
Qed.

Lemma emitted_rtc succ comps k ck x y :
  emitted succ comps -> comps !! k = Some ck -> x ∈ ck -> rtc (edge succ) x y ->
  exists j cj, j <= k /\ comps !! j = Some cj /\ y ∈ cj.
Proof.
  intros H Hk Hx Hr. revert k ck Hk Hx. induction Hr as [x|x z y Hxz Hr IH]; intros k ck Hk Hx; [eauto|].
  destruct (emitted_edge _ _ _ _ _ _ H Hk Hx Hxz) as (j & cj & Hj & Hcj & Hz).
  destruct (IH _ _ Hcj Hz) as (i & ci & Hi & ? & ?). exists i, ci. split_and!; [lia|done|done].
Qed.

Lemma concat_position {A} (ls : list (list A)) i j a b x :
  NoDup (concat ls) -> ls !! i = Some a -> ls !! j = Some b -> x ∈ a -> x ∈ b -> i = j.
Proof.
  revert i j. induction ls as [|l ls IH]; intros i j Hnd Hi Hj Ha Hb; [done|].
  simpl in Hnd. apply NoDup_app in Hnd as (_ & Hd & Hnd).
  assert (forall k c, ls !! k = Some c -> x ∈ c -> x ∈ concat ls) as Hin.
  { intros k c Hk Hx. apply list_elem_of_In, in_concat. exists c.
    split; apply list_elem_of_In; [by eapply list_elem_of_lookup_2|done]. }
  destruct i as [|i], j as [|j]; simpl in *; simplify_eq; [done| | |].
  - destruct (Hd x Ha). eauto.
  - destruct (Hd x Hb). eauto.
  - f_equal. eauto.
Qed.

Lemma emitted_strong succ comps k ck x y :
  emitted succ comps -> comps !! k = Some ck -> x ∈ ck -> y ∈ ck -> rtc (edge succ) x y.
Proof.
  intros H. revert k ck. induction H as [|pre comp H IH Hne Hsc Hcl]; intros k ck Hk Hx Hy; [done|].
  apply lookup_app_Some in Hk as [Hk|[Hge Hk]]; [eauto|].
  apply list_lookup_singleton_Some in Hk as [_ <-]. auto.
Qed.

Lemma emitted_exact succ comps k ck x y :
  emitted succ comps -> NoDup (concat comps) -> comps !! k = Some ck -> x ∈ ck ->
  y ∈ ck <-> rtc (edge succ) x y /\ rtc (edge succ) y x.
Proof.
  intros H Hnd Hk Hx. split.
  - intros Hy. split; by eapply emitted_strong.
  - intros [Hxy Hyx].
    destruct (emitted_rtc _ _ _ _ _ _ H Hk Hx Hxy) as (j & cj & Hj & Hcj & Hy).
    destruct (emitted_rtc _ _ _ _ _ _ H Hcj Hy Hyx) as (i & ci & Hi & Hci & Hx').
    assert (i = k) as -> by (by eapply concat_position). assert (j = k) as -> by lia. congruence.
Qed.

Lemma emitted_order succ comps j k cj ck x y :
  emitted succ comps -> NoDup (concat comps) -> comps !! k = Some ck -> comps !! j = Some cj ->
  x ∈ ck -> y ∈ cj -> edge succ x y -> j <= k.
Proof.
  intros H Hnd Hk Hj Hx Hy Hxy.
  destruct (emitted_edge _ _ _ _ _ _ H Hk Hx Hxy) as (i & ci & Hi & Hci & Hy').
  assert (i = j) as -> by (by eapply concat_position). done.
Qed.
