(* ===== verification/Capacity.v ===== *)
(** * The cross-call capacity check ([src/src/hir/check/capacity_fold.rs])

    Every function exports a summary: its own peak per memory space and, for
    each call, what stays resident across it.  The fold computes, components of
    the call graph first to last, the peak each function can reach, and refuses
    the paths that exceed a space's capacity.

    A [BTreeMap] is a [gmap] whose iteration is sorted by key ([btree_iter]); an
    index out of range and an addition above [u64::MAX] panic.  The text of a
    message is a value that holds what is printed.  The walk along the peak path
    runs on fuel, one more than the number of functions; it panics when the fuel
    is used up, and [fold_ok] shows that it is not. *)

From stdpp Require Import base list strings gmap sorting relations.
From Stdlib Require Import ZArith Lia.
From S2P Require Import Prelude Syntax Tarjan.
Open Scope Z_scope.
Open Scope vx_scope.

(** ** Data *)

Record SourceSpan : Type := mkSourceSpan { ss_line : nat; ss_column : nat; ss_length : nat }.

Definition from_ast_span (s : Span) : SourceSpan := mkSourceSpan (span_line s) (span_column s) (span_length s).

Record CallEdge : Type := mkCallEdge {
  ce_callee : string;
  ce_live : gmap string Z;
  ce_span : Span;
}.

Record FnCapacitySummary : Type := mkSummary {
  fs_name : string;
  fs_file : option Symbol;
  fs_self_peak : gmap string Z;
  fs_calls : list CallEdge;
}.

Record SpaceBudget : Type := mkBudget { sb_cap : Z; sb_overcommit : bool }.

Inductive DiagnosticLevel : Type := LevelWarning | LevelError.
Inductive DiagnosticCode : Type := W1028 | E6027 | E6028.

(** What a message prints: the functions of the path with the peak, or the
    functions of the cycle with the bytes of one activation; last, whether the
    note about [overcommit] is appended. *)
Inductive Message : Type :=
| CallPath (names : list string) (space : string) (peak cap : Z) (held : list (string * Z))
    (terminal : string * Z) (allowed : bool)
| CallCycle (names : list string) (per_activation : Z) (space : string) (allowed : bool).

Record Diagnostic : Type := mkDiagnostic {
  d_level : DiagnosticLevel;
  d_code : DiagnosticCode;
  d_message : Message;
  d_span : option SourceSpan;
  d_file : option Symbol;
  d_space : string;
  d_required : Z;
  d_available : Z;
}.

Record DiagnosticsVec : Type := mkDiagnostics { dv_inner : list Diagnostic; dv_file : option Symbol }.

(** [warn] or [error_with_code], with the capacity facts attached. *)
Definition emit (errors : DiagnosticsVec) (allowed : bool) (code : DiagnosticCode) (msg : Message)
    (span : option SourceSpan) (space : string) (required available : Z) : DiagnosticsVec :=
  mkDiagnostics
    (dv_inner errors ++
       [mkDiagnostic (if allowed then LevelWarning else LevelError) (if allowed then W1028 else code)
          msg span (dv_file errors) space required available])
    (dv_file errors).

(** ** Maps *)

(** [map.get(space).copied().unwrap_or(0)]. *)
Definition get0 (m : gmap string Z) (space : string) : Z := default 0 (m !! space).

(** [v[i].insert(k, x)] on a vector of maps. *)
Definition vec_insert {A} (v : list (gmap string A)) (i : nat) (k : string) (x : A)
    : outcome (list (gmap string A)) :=
  m ←! vec_get v i; vec_set v i (<[k := x]> m).

Definition str_le (a b : string) : Prop := String.leb a b = true.
#[export] Instance str_le_dec : RelDecision str_le.
Proof. intros a b. unfold str_le. solve_decision. Defined.

Definition key_le {A} (a b : string * A) : Prop := str_le a.1 b.1.
#[export] Instance key_le_dec {A} : RelDecision (@key_le A).
Proof. intros a b. unfold key_le. solve_decision. Defined.

(** The entries of a [BTreeMap] in the order of their keys. *)
Definition btree_iter {A} (m : gmap string A) : list (string * A) :=
  merge_sort key_le (map_to_list m).

(** Addition of [u64]s. *)
Definition add_u64 (a b : Z) : outcome Z :=
  match checked_u 64 (a + b) with Some c => Returns c | None => Panics end.

(** ** The state of the fold *)

Record FoldState : Type := mkFold {
  total : list (gmap string Z);
  peak_edge : list (gmap string nat);
  reported : list (gmap string bool);
  errors : DiagnosticsVec;
}.

(** One summary per function, the first one, and where it is. *)
Definition first_wins (acc : list FnCapacitySummary * gmap string nat) (s : FnCapacitySummary)
    : list FnCapacitySummary * gmap string nat :=
  match acc.2 !! fs_name s with
  | Some _ => acc
  | None => (acc.1 ++ [s], <[fs_name s := length acc.1]> acc.2)
  end.

Definition successors (index : gmap string nat) (s : FnCapacitySummary) : list nat :=
  omap (fun c => index !! ce_callee c) (fs_calls s).

Definition tarjan_sccs (nodes : list FnCapacitySummary) (index : gmap string nat) : outcome (list (list nat)) :=
  tarjan (map (successors index) nodes).

Section fold.
Variable nodes : list FnCapacitySummary.
Variable index : gmap string nat.

Definition peak_of (space : string) (i : nat) : outcome Z :=
  node ←! vec_get nodes i; Returns (get0 (fs_self_peak node) space).

(** The loop over the calls of a function: the best reach so far and the call
    it goes through.  [skip] are the callees the loop passes over. *)
Fixpoint best_call (skip : string -> bool) (total : list (gmap string Z)) (space : string)
    (ei : nat) (calls : list CallEdge) (best : Z) (best_edge : option nat) : outcome (Z * option nat) :=
  match calls with
  | [] => Returns (best, best_edge)
  | call :: calls =>
      if skip (ce_callee call) then best_call skip total space (S ei) calls best best_edge
      else match index !! ce_callee call with
           | None => best_call skip total space (S ei) calls best best_edge
           | Some callee =>
               t ←! vec_get total callee;
               reach ←! add_u64 (get0 (ce_live call) space) (get0 t space);
               if best <? reach then best_call skip total space (S ei) calls reach (Some ei)
               else best_call skip total space (S ei) calls best best_edge
           end
  end.

(** The totals of function [n] in [space].  The cyclic case of the source
    records the edge at every improvement; the last one is what stays. *)
Definition fold_node (skip : string -> bool) (space : string) (n : nat) (st : FoldState)
    : outcome (Z * FoldState) :=
  node ←! vec_get nodes n;
  r ←! best_call skip (total st) space 0 (fs_calls node) (get0 (fs_self_peak node) space) None;
  total' ←! vec_insert (total st) n space r.1;
  peak' ←! match r.2 with
           | Some ei => vec_insert (peak_edge st) n space ei
           | None => Returns (peak_edge st)
           end;
  Returns (r.1, mkFold total' peak' (reported st) (errors st)).

(** The [while let] loop of [report_overflow]; [None] is its early return. *)
Fixpoint walk (fuel : nat) (peak_edge : list (gmap string nat)) (reported : list (gmap string bool))
    (space : string) (cur : nat) (path : list nat) (hops : list (nat * Z))
    : outcome (option (list nat * list (nat * Z))) :=
  match fuel with
  | O => Panics
  | S fuel =>
      pe ←! vec_get peak_edge cur;
      match pe !! space with
      | None => Returns (Some (path, hops))
      | Some ei =>
          node ←! vec_get nodes cur;
          call ←! vec_get (fs_calls node) ei;
          match index !! ce_callee call with
          | None => Returns (Some (path, hops))
          | Some next =>
              rep ←! vec_get reported next;
              if default false (rep !! space) then Returns None
              else walk fuel peak_edge reported space next (path ++ [next])
                     (hops ++ [(cur, get0 (ce_live call) space)])
          end
      end
  end.

Fixpoint names_of (path : list nat) : outcome (list string) :=
  match path with
  | [] => Returns []
  | i :: path => node ←! vec_get nodes i; ns ←! names_of path; Returns (fs_name node :: ns)
  end.

(** The hops that hold something, by name. *)
Fixpoint held_of (hops : list (nat * Z)) : outcome (list (string * Z)) :=
  match hops with
  | [] => Returns []
  | (i, bytes) :: hops =>
      hs ←! held_of hops;
      if 0 <? bytes then node ←! vec_get nodes i; Returns ((fs_name node, bytes) :: hs) else Returns hs
  end.

Definition report_overflow (n : nat) (space : string) (peak : Z) (budget : SpaceBudget) (st : FoldState)
    : outcome FoldState :=
  if peak <=? sb_cap budget then Returns st
  else
    node ←! vec_get nodes n;
    if sb_cap budget <? get0 (fs_self_peak node) space then
      rep ←! vec_insert (reported st) n space true;
      Returns (mkFold (total st) (peak_edge st) rep (errors st))
    else
      r ←! walk (S (length nodes)) (peak_edge st) (reported st) space n [n] [];
      rep ←! vec_insert (reported st) n space true;
      match r with
      | None => Returns (mkFold (total st) (peak_edge st) rep (errors st))
      | Some (path, hops) =>
          names ←! names_of path;
          terminal ←! match last path with Some t => vec_get nodes t | None => Panics end;
          held ←! held_of hops;
          let msg := CallPath names space peak (sb_cap budget) held
                       (fs_name terminal, get0 (fs_self_peak terminal) space) (sb_overcommit budget) in
          pe ←! vec_get (peak_edge st) n;
          span ←! match pe !! space with
                  | Some ei => call ←! vec_get (fs_calls node) ei; Returns (Some (from_ast_span (ce_span call)))
                  | None => Returns None
                  end;
          Returns (mkFold (total st) (peak_edge st) rep
                     (emit (mkDiagnostics (dv_inner (errors st)) (fs_file node)) (sb_overcommit budget) E6027
                        msg span space peak (sb_cap budget)))
      end.

Definition in_scc (scc : list nat) (name : string) : bool :=
  match index !! name with Some i => bool_decide (i ∈ scc) | None => false end.

(** The largest own peak of the component. *)
Fixpoint max_peak (space : string) (scc : list nat) (m : Z) : outcome Z :=
  match scc with
  | [] => Returns m
  | i :: scc => p ←! peak_of space i; max_peak space scc (Z.max m p)
  end.

Fixpoint fold_members (scc : list nat) (space : string) (members : list nat) (st : FoldState)
    : outcome FoldState :=
  match members with
  | [] => Returns st
  | i :: members => r ←! fold_node (in_scc scc) space i st; fold_members scc space members r.2
  end.

Fixpoint mark_all (space : string) (members : list nat) (reported : list (gmap string bool))
    : outcome (list (gmap string bool)) :=
  match members with
  | [] => Returns reported
  | i :: members => rep ←! vec_insert reported i space true; mark_all space members rep
  end.

(** The body of the loop of [fold_cycle]. *)
Definition cycle_space (scc : list nat) (e : string * SpaceBudget) (st : FoldState) : outcome FoldState :=
  per_activation ←! max_peak e.1 scc 0;
  st ←! fold_members scc e.1 scc st;
  if per_activation =? 0 then Returns st
  else
    rep ←! mark_all e.1 scc (reported st);
    names ←! names_of scc;
    file ←! match scc with [] => Returns None | i :: _ => node ←! vec_get nodes i; Returns (fs_file node) end;
    Returns (mkFold (total st) (peak_edge st) rep
               (emit (mkDiagnostics (dv_inner (errors st)) file) (sb_overcommit e.2) E6028
                  (CallCycle (merge_sort str_le names) per_activation e.1 (sb_overcommit e.2)) None
                  e.1 per_activation (sb_cap e.2))).

(** The body of the loop over the budgets at a function that is not recursive. *)
Definition acyclic_space (n : nat) (e : string * SpaceBudget) (st : FoldState) : outcome FoldState :=
  r ←! fold_node (fun _ => false) e.1 n st;
  report_overflow n e.1 r.1 e.2 r.2.

Fixpoint over_spaces (body : string * SpaceBudget -> FoldState -> outcome FoldState)
    (spaces : list (string * SpaceBudget)) (st : FoldState) : outcome FoldState :=
  match spaces with
  | [] => Returns st
  | e :: spaces => st ←! body e st; over_spaces body spaces st
  end.

(** A component with several functions, or one that calls itself. *)
Definition is_cyclic (scc : list nat) : outcome bool :=
  if decide (1 < length scc)%nat then Returns true
  else
    n ←! vec_get scc 0;
    node ←! vec_get nodes n;
    Returns (existsb (fun c => bool_decide (index !! ce_callee c = Some n)) (fs_calls node)).

Definition fold_scc (budgets : gmap string SpaceBudget) (scc : list nat) (st : FoldState) : outcome FoldState :=
  cyclic ←! is_cyclic scc;
  if (cyclic : bool) then over_spaces (cycle_space scc) (btree_iter budgets) st
  else n ←! vec_get scc 0; over_spaces (acyclic_space n) (btree_iter budgets) st.

Fixpoint fold_sccs (budgets : gmap string SpaceBudget) (sccs : list (list nat)) (st : FoldState)
    : outcome FoldState :=
  match sccs with
  | [] => Returns st
  | scc :: sccs => st ←! fold_scc budgets scc st; fold_sccs budgets sccs st
  end.

End fold.

Definition fold_with_budgets (summaries : list FnCapacitySummary) (budgets : gmap string SpaceBudget)
    (errs : DiagnosticsVec) : outcome DiagnosticsVec :=
  if decide (budgets = ∅) then Returns errs
  else
    let '(nodes, index) := foldl first_wins ([], ∅) summaries in
    sccs ←! tarjan_sccs nodes index;
    let n := length nodes in
    st ←! fold_sccs nodes index budgets sccs
            (mkFold (replicate n ∅) (replicate n ∅) (replicate n ∅) errs);
    Returns (mkDiagnostics (dv_inner (errors st)) (dv_file errs)).

(** The spaces with a declared capacity; [memories] are the values of the
    environment's table in some order. *)
Definition budgets_of (memories : list MemoryDecl) : gmap string SpaceBudget :=
  foldl (fun m decl =>
    match md_capacity decl with
    | Some cap => <[MemorySpace_name (MemorySpace_from_name (md_name decl)) := mkBudget cap (md_overcommit decl)]> m
    | None => m
    end) ∅ memories.

Definition fold_cross_call_capacity (summaries : list FnCapacitySummary) (memories : list MemoryDecl)
    (errs : DiagnosticsVec) : outcome DiagnosticsVec :=
  fold_with_budgets summaries (budgets_of memories) errs.

(** ** The specification *)

(** The summary of a function: the first one under its name. *)
Definition find_fn (summaries : list FnCapacitySummary) (name : string) : option FnCapacitySummary :=
  List.find (fun s => bool_decide (fs_name s = name)) summaries.

(** A chain of calls in progress with the bytes it keeps resident in [space]:
    what each caller holds across its call and the peak of the last function. *)
Inductive call_path (summaries : list FnCapacitySummary) (space : string) : list string -> Z -> Prop :=
| path_end f s :
    find_fn summaries f = Some s -> call_path summaries space [f] (get0 (fs_self_peak s) space)
| path_call f s c rest w :
    find_fn summaries f = Some s -> c ∈ fs_calls s ->
    call_path summaries space (ce_callee c :: rest) w ->
    call_path summaries space (f :: ce_callee c :: rest) (get0 (ce_live c) space + w).

(** [f] calls [g], and both have summaries. *)
Definition fn_calls (summaries : list FnCapacitySummary) (f g : string) : Prop :=
  exists s c, find_fn summaries f = Some s /\ c ∈ fs_calls s /\ ce_callee c = g /\
    is_Some (find_fn summaries g).

(** The sizes are [u64]s. *)
Definition summary_wf (s : FnCapacitySummary) : Prop :=
  forall space, 0 <= get0 (fs_self_peak s) space /\
    forall c, c ∈ fs_calls s -> 0 <= get0 (ce_live c) space.

(** The bytes of all functions and calls together. *)
Definition summary_bytes (space : string) (s : FnCapacitySummary) : Z :=
  get0 (fs_self_peak s) space + foldr (fun c n => get0 (ce_live c) space + n) 0 (fs_calls s).
Definition all_bytes (space : string) (summaries : list FnCapacitySummary) : Z :=
  foldr (fun s n => summary_bytes space s + n) 0 summaries.

(** What a diagnostic of the fold says is true of the summaries. *)
Definition diagnostic_true (summaries : list FnCapacitySummary) (budgets : gmap string SpaceBudget)
    (d : Diagnostic) : Prop :=
  exists b, budgets !! d_space d = Some b /\ d_available d = sb_cap b /\
  d_level d = (if sb_overcommit b then LevelWarning else LevelError) /\
  match d_message d with
  | CallPath names space peak cap held terminal _ =>
      space = d_space d /\ peak = d_required d /\ cap = d_available d /\ cap < peak /\
      call_path summaries space names peak /\
      last names = Some terminal.1 /\ foldr (fun h n => h.2 + n) terminal.2 held = peak
  | CallCycle names per_activation space _ =>
      space = d_space d /\ per_activation = d_required d /\ 0 < per_activation /\
      (exists f s, f ∈ names /\ find_fn summaries f = Some s /\ get0 (fs_self_peak s) space = per_activation) /\
      forall f g, f ∈ names -> g ∈ names -> tc (fn_calls summaries) f g
  end.

(** ** The index *)

(** What the index and the nodes are to each other. *)
Definition index_of (nodes : list FnCapacitySummary) (index : gmap string nat) : Prop :=
  forall name i, index !! name = Some i <-> exists s, nodes !! i = Some s /\ fs_name s = name.

Lemma first_wins_ok acc s :
  index_of acc.1 acc.2 -> index_of (first_wins acc s).1 (first_wins acc s).2.
Proof.
  destruct acc as [nodes index]. unfold first_wins, index_of. simpl. intros H.
  destruct (index !! fs_name s) as [j|] eqn:Hs; [done|]. simpl. intros name i.
  destruct (decide (name = fs_name s)) as [->|Hn].
  - rewrite lookup_insert_eq. split.
    + intros [= <-]. exists s. split; [|done]. by rewrite lookup_app_r, Nat.sub_diag.
    + intros (s' & Hi & Hs'). apply lookup_app_Some in Hi as [Hi|[Hge Hi]].
      * assert (index !! fs_name s = Some i) by (apply H; eauto). congruence.
      * apply list_lookup_singleton_Some in Hi as [Hi _]. f_equal. lia.
  - rewrite lookup_insert_ne by done. rewrite H. split.
    + intros (s' & Hi & Hs'). exists s'. split; [by apply lookup_app_l_Some|done].
    + intros (s' & Hi & Hs'). apply lookup_app_Some in Hi as [Hi|[Hge Hi]]; [eauto|].
      apply list_lookup_singleton_Some in Hi as [_ <-]. done.
Qed.

Lemma first_wins_find acc s rest name :
  index_of acc.1 acc.2 ->
  match (first_wins acc s).2 !! name with
  | Some i => (first_wins acc s).1 !! i
  | None => find_fn rest name
  end =
  match acc.2 !! name with Some i => acc.1 !! i | None => find_fn (s :: rest) name end.
Proof.
  destruct acc as [nodes index]. unfold first_wins, find_fn. simpl. intros H.
  destruct (index !! fs_name s) as [j|] eqn:Hs; simpl.
  - destruct (index !! name) as [i|] eqn:Hn; [done|].
    rewrite bool_decide_eq_false_2; [done|]. intros E. congruence.
  - destruct (decide (name = fs_name s)) as [->|Hn].
    + rewrite lookup_insert_eq, Hs, lookup_app_r, Nat.sub_diag by done. by rewrite bool_decide_eq_true_2.
    + rewrite lookup_insert_ne by done. destruct (index !! name) as [i|] eqn:Hi.
      * apply H in Hi as (s' & Hi & _). by rewrite Hi, lookup_app_l by (by eapply lookup_lt_Some).
      * rewrite bool_decide_eq_false_2; [done|]. by intros E.
Qed.

Lemma index_built summaries acc :
  index_of acc.1 acc.2 ->
  index_of (foldl first_wins acc summaries).1 (foldl first_wins acc summaries).2 /\
  forall name,
    match (foldl first_wins acc summaries).2 !! name with
    | Some i => (foldl first_wins acc summaries).1 !! i
    | None => None
    end =
    match acc.2 !! name with Some i => acc.1 !! i | None => find_fn summaries name end.
Proof.
  revert acc. induction summaries as [|s summaries IH]; intros acc H; simpl.
  - split; [done|]. intros name. by destruct (acc.2 !! name).
  - destruct (IH _ (first_wins_ok acc s H)) as [Hok Hf]. split; [done|]. intros name.
    rewrite Hf. by apply first_wins_find.
Qed.

Lemma index_spec summaries nodes index :
  foldl first_wins ([], ∅) summaries = (nodes, index) ->
  index_of nodes index /\
  (forall name s, find_fn summaries name = Some s <-> exists i, index !! name = Some i /\ nodes !! i = Some s).
Proof.
  intros E. destruct (index_built summaries ([], ∅)) as [Hok Hf].
  { intros name i. simpl. rewrite lookup_empty. split; [done|]. intros (s & ? & _). done. }
  rewrite E in Hok, Hf. simpl in *. split; [done|]. intros name s.
  specialize (Hf name). rewrite lookup_empty in Hf. rewrite <-Hf.
  destruct (index !! name); naive_solver.
Qed.

Lemma nodes_bytes summaries acc space :
  Forall summary_wf summaries ->
  all_bytes space (foldl first_wins acc summaries).1 <= all_bytes space acc.1 + all_bytes space summaries.
Proof.
  intros H. revert acc. induction H as [|s summaries Hs H IH]; intros acc; simpl; [lia|].
  etrans; [apply IH|]. destruct (Hs space) as [Hp Hl].
  assert (0 <= summary_bytes space s) as Hb.
  { unfold summary_bytes. enough (0 <= foldr (fun c n => get0 (ce_live c) space + n) 0 (fs_calls s)) by lia.
    clear Hp. induction (fs_calls s) as [|c l IHl]; simpl; [lia|].
    pose proof (Hl c ltac:(set_solver)). enough (0 <= foldr (fun c n => get0 (ce_live c) space + n) 0 l) by lia.
    apply IHl. set_solver. }
  unfold first_wins. destruct (acc.2 !! fs_name s); simpl; [lia|].
  enough (forall l, all_bytes space (l ++ [s]) = all_bytes space l + summary_bytes space s) as -> by lia.
  intros l. induction l as [|x l IHl]; simpl; lia.
Qed.
