(* ===== verification/CapacitySound.v ===== *)
(** * Soundness and precision of the capacity fold

    The invariant of [fold_sccs]: every finished function's total is the sum
    along the path the fold recorded for it, it bounds what its calls can
    reach, and every diagnostic emitted is true of the summaries.  From it:
    the fold returns when the sizes fit 64 bits, its diagnostics are true, and a
    program it accepts stays within its budgets, mutual recursion excepted.

    A cell [(i, space)] of the tables is finished when [D i space] holds. *)

From stdpp Require Import base list strings gmap sorting relations.
From Stdlib Require Import ZArith Lia.
From S2P Require Import Prelude Syntax Tarjan Capacity.
Open Scope Z_scope.
Open Scope vx_scope.

(** ** Sums *)

Definition sumZ {A} (f : A -> Z) (l : list A) : Z := foldr (fun x n => f x + n) 0 l.

Lemma sumZ_app {A} (f : A -> Z) l k : sumZ f (l ++ k) = sumZ f l + sumZ f k.
Proof. unfold sumZ. induction l as [|x l IH]; simpl; lia. Qed.

Lemma sumZ_nonneg {A} (f : A -> Z) l : (forall x, x ∈ l -> 0 <= f x) -> 0 <= sumZ f l.
Proof.
  unfold sumZ. intros H. induction l as [|x l IH]; simpl; [lia|].
  pose proof (H x ltac:(set_solver)). enough (0 <= foldr (fun x n => f x + n) 0 l) by lia.
  apply IH. set_solver.
Qed.

Lemma sumZ_perm {A} (f : A -> Z) l k : l ≡ₚ k -> sumZ f l = sumZ f k.
Proof. unfold sumZ. induction 1; simpl; lia. Qed.

Lemma sumZ_elem {A} (f : A -> Z) l x : (forall y, y ∈ l -> 0 <= f y) -> x ∈ l -> f x <= sumZ f l.
Proof.
  intros H Hx. apply elem_of_Permutation in Hx as [k Hk]. rewrite (sumZ_perm f _ _ Hk). simpl.
  enough (0 <= sumZ f k) by lia. apply sumZ_nonneg. intros y Hy. apply H. rewrite Hk. set_solver.
Qed.

Lemma sumZ_NoDup_seq (f : nat -> Z) (n : nat) p :
  (forall i, 0 <= f i) -> NoDup p -> (forall x, x ∈ p -> (x < n)%nat) -> sumZ f p <= sumZ f (seq 0 n).
Proof.
  intros Hf Hnd Hlt. assert (p ⊆+ seq 0 n) as Hs.
  { apply NoDup_submseteq; [done|]. intros x Hx. apply elem_of_seq. specialize (Hlt x Hx). lia. }
  apply submseteq_Permutation in Hs as [k Hk]. rewrite (sumZ_perm f _ _ Hk), sumZ_app.
  enough (0 <= sumZ f k) by lia. apply sumZ_nonneg. auto.
Qed.

Lemma sumZ_ext {A} (f g : A -> Z) l : (forall x, x ∈ l -> f x = g x) -> sumZ f l = sumZ g l.
Proof.
  unfold sumZ. intros H. induction l as [|x l IH]; simpl; [done|].
  rewrite (H x) by set_solver. rewrite IH by set_solver. done.
Qed.

Lemma sumZ_seq {A} (f : A -> Z) (l : list A) :
  sumZ (fun i => match l !! i with Some x => f x | None => 0 end) (seq 0 (length l)) = sumZ f l.
Proof.
  induction l as [|x l IH] using rev_ind; [done|].
  rewrite length_app, Nat.add_comm. simpl length. rewrite Nat.add_comm, seq_app, !sumZ_app. simpl.
  rewrite lookup_app_r, Nat.sub_diag by done. simpl. f_equal. rewrite <-IH.
  apply sumZ_ext. intros i Hi. apply elem_of_seq in Hi. by rewrite lookup_app_l by lia.
Qed.

(** ** Tables *)

Definition cell {A} (v : list (gmap string A)) (i : nat) (k : string) : option A :=
  match v !! i with Some m => m !! k | None => None end.

Definition put {A} (v : list (gmap string A)) (i : nat) (k : string) (x : A) : list (gmap string A) :=
  alter (<[k := x]>) i v.

Lemma vec_insert_eq {A} (v : list (gmap string A)) i k x :
  (i < length v)%nat -> vec_insert v i k x = Returns (put v i k x).
Proof.
  intros Hi. unfold vec_insert, put. destruct (lookup_lt_is_Some_2 _ _ Hi) as [m Hm].
  rewrite (vec_get_Some _ _ _ Hm). simpl. rewrite vec_set_lt by done. f_equal.
  apply list_eq. intros j. destruct (decide (j = i)) as [->|Hn].
  - rewrite list_lookup_insert_eq, list_lookup_alter_eq, Hm by done. done.
  - by rewrite list_lookup_insert_ne, list_lookup_alter_ne.
Qed.

Lemma length_put {A} (v : list (gmap string A)) i k x : length (put v i k x) = length v.
Proof. apply length_alter. Qed.

Lemma cell_put {A} (v : list (gmap string A)) i k x j s :
  (i < length v)%nat -> cell (put v i k x) j s = if decide (j = i /\ s = k) then Some x else cell v j s.
Proof.
  intros Hi. unfold cell, put. destruct (lookup_lt_is_Some_2 _ _ Hi) as [m Hm].
  destruct (decide (j = i)) as [->|Hn].
  - rewrite list_lookup_alter_eq, Hm. simpl. destruct (decide (s = k)) as [->|Hk].
    + by rewrite lookup_insert_eq, decide_True.
    + rewrite lookup_insert_ne by done. rewrite decide_False; [done|]. by intros [_ ?].
  - rewrite list_lookup_alter_ne by done. rewrite decide_False; [done|]. by intros [? _].
Qed.

Lemma get0_cell v i s m : v !! i = Some m -> get0 m s = default 0 (cell v i s).
Proof. unfold cell, get0. by intros ->. Qed.

(** ** The invariant *)

Section inv.
Variables (nodes : list FnCapacitySummary) (index : gmap string nat).
Variables (summaries : list FnCapacitySummary) (budgets : gmap string SpaceBudget).
Variable base : list Diagnostic.
Hypothesis index_ok : index_of nodes index.
Hypothesis find_ok : forall name s,
  find_fn summaries name = Some s <-> exists i, index !! name = Some i /\ nodes !! i = Some s.
Hypothesis nodes_wf : forall i s, nodes !! i = Some s -> summary_wf s.

Local Abbreviation graph := (map (successors index) nodes).

Definition calls (i : nat) (c : CallEdge) (j : nat) : Prop :=
  exists node, nodes !! i = Some node /\ c ∈ fs_calls node /\ index !! ce_callee c = Some j.

Definition mutual (i j : nat) : Prop := rtc (edge graph) i j /\ rtc (edge graph) j i.

Definition live (c : CallEdge) (s : string) : Z := get0 (ce_live c) s.
Definition peak (i : nat) (s : string) : Z :=
  match nodes !! i with Some node => get0 (fs_self_peak node) s | None => 0 end.
Definition bytes (s : string) (i : nat) : Z :=
  match nodes !! i with Some node => summary_bytes s node | None => 0 end.

(** A sum of sizes leaves [u64]. *)
Definition too_big : Prop := exists s, umax 64 < all_bytes s nodes.

(** The path the fold recorded for a function, the bytes held along it, and
    their sum. *)
Inductive peak_path (pe : list (gmap string nat)) (s : string) : nat -> list nat -> list (nat * Z) -> Z -> Prop :=
| pp_end i : (i < length pe)%nat -> (i < length nodes)%nat -> cell pe i s = None -> peak_path pe s i [i] [] (peak i s)
| pp_call i ei node c j p h t :
    cell pe i s = Some ei -> nodes !! i = Some node -> fs_calls node !! ei = Some c ->
    index !! ce_callee c = Some j -> peak_path pe s j p h t ->
    peak_path pe s i (i :: p) ((i, live c s) :: h) (live c s + t).

Record Core (D : nat -> string -> Prop) (st : FoldState) : Prop := {
  co_len : length (total st) = length nodes /\ length (peak_edge st) = length nodes /\
           length (reported st) = length nodes;
  co_cell i s : D i s -> exists p h t, cell (total st) i s = Some t /\
    peak_path (peak_edge st) s i p h t /\ NoDup p /\ forall x, x ∈ p -> D x s;
  co_fresh i s : ~ D i s -> cell (peak_edge st) i s = None;
  co_self i s t : D i s -> cell (total st) i s = Some t -> peak i s <= t;
  co_dom i s c j t u : D i s -> cell (total st) i s = Some t -> calls i c j -> ~ mutual i j ->
    D j s /\ (cell (total st) j s = Some u -> live c s + u <= t);
}.

Lemma calls_edge i c j : calls i c j -> edge graph i j.
Proof.
  intros (node & Hi & Hc & Hj). exists (successors index node). split.
  - by rewrite list_lookup_fmap, Hi.
  - apply list_elem_of_omap. eauto.
Qed.

Lemma edge_calls i j : edge graph i j -> exists c, calls i c j.
Proof.
  intros (ns & Hi & Hj). rewrite list_lookup_fmap in Hi. destruct (nodes !! i) as [node|] eqn:Hn; [|done].
  injection Hi as <-. apply list_elem_of_omap in Hj as (c & Hc & Hj). exists c, node. done.
Qed.

Lemma index_lt name j : index !! name = Some j -> (j < length nodes)%nat.
Proof. intros H. apply index_ok in H as (s & H & _). by eapply lookup_lt_Some. Qed.

Lemma graph_range x y : edge graph x y -> (y < length graph)%nat.
Proof. intros H. apply edge_calls in H as (c & ? & _ & _ & H). rewrite length_map. by eapply index_lt. Qed.

Lemma peak_nonneg i s : 0 <= peak i s.
Proof. unfold peak. destruct (nodes !! i) as [node|] eqn:H; [|done]. by apply (nodes_wf _ _ H). Qed.

Lemma live_nonneg i c j s : calls i c j -> 0 <= live c s.
Proof. intros (node & H & Hc & _). by apply (nodes_wf _ _ H). Qed.

Lemma bytes_nonneg s i : 0 <= bytes s i.
Proof.
  unfold bytes, summary_bytes. destruct (nodes !! i) as [node|] eqn:H; [|done].
  destruct (nodes_wf _ _ H s) as [Hp Hl].
  pose proof (sumZ_nonneg (fun c => get0 (ce_live c) s) (fs_calls node) Hl). unfold sumZ in *. lia.
Qed.

Lemma peak_bytes s i : peak i s <= bytes s i.
Proof.
  unfold peak, bytes, summary_bytes. destruct (nodes !! i) as [node|] eqn:H; [|done].
  destruct (nodes_wf _ _ H s) as [Hp Hl].
  pose proof (sumZ_nonneg (fun c => get0 (ce_live c) s) (fs_calls node) Hl). unfold sumZ in *. lia.
Qed.

Lemma live_bytes s i c j : calls i c j -> live c s <= bytes s i.
Proof.
  intros (node & H & Hc & _). unfold live, bytes, summary_bytes. rewrite H.
  destruct (nodes_wf _ _ H s) as [Hp Hl].
  pose proof (sumZ_elem (fun c => get0 (ce_live c) s) (fs_calls node) c Hl Hc). unfold sumZ in *. lia.
Qed.

Lemma all_bytes_seq s : all_bytes s nodes = sumZ (bytes s) (seq 0 (length nodes)).
Proof. symmetry. apply (sumZ_seq (summary_bytes s) nodes). Qed.

Lemma peak_path_lt pe s i p h t x : peak_path pe s i p h t -> x ∈ p -> (x < length nodes)%nat.
Proof.
  intros H. revert x. induction H as [i Hp Hn Hc|i ei node c j p h t Hc Hn He Hj H IH]; intros x Hx.
  - assert (x = i) as -> by set_solver. done.
  - apply elem_of_cons in Hx as [->|Hx]; [by eapply lookup_lt_Some|auto].
Qed.

Lemma peak_path_bytes pe s i p h t : peak_path pe s i p h t -> t <= sumZ (bytes s) p.
Proof.
  induction 1 as [i Hp Hn Hc|i ei node c j p h t Hc Hn He Hj H IH]; unfold sumZ in *; simpl.
  - pose proof (peak_bytes s i). lia.
  - assert (calls i c j) as Hcall.
    { exists node. split_and!; [done| |done]. by eapply list_elem_of_lookup_2. }
    pose proof (live_bytes s i c j Hcall). lia.
Qed.

Lemma peak_path_nonneg pe s i p h t : peak_path pe s i p h t -> 0 <= t.
Proof.
  induction 1 as [i Hp Hn Hc|i ei node c j p h t Hc Hn He Hj H IH]; [apply peak_nonneg|].
  pose proof (live_nonneg i c j s). unfold calls in *. apply list_elem_of_lookup_2 in He.
  assert (0 <= live c s) by (apply H0; eauto). lia.
Qed.

Lemma peak_path_ext pe pe' s i p h t :
  length pe = length pe' -> (forall x, x ∈ p -> cell pe x s = cell pe' x s) ->
  peak_path pe s i p h t -> peak_path pe' s i p h t.
Proof.
  intros Hl Hext H. induction H as [i Hp Hn Hc|i ei node c j p h t Hc Hn He Hj H IH].
  - constructor; [lia|done|]. rewrite <-Hext by set_solver. done.
  - econstructor; [|done|done|done|apply IH; set_solver]. rewrite <-Hext by set_solver. done.
Qed.

(** A reach through one more call is a sum over distinct functions. *)
Lemma reach_bytes pe s i c j p h t :
  calls i c j -> peak_path pe s j p h t -> NoDup p -> i ∉ p -> live c s + t <= all_bytes s nodes.
Proof.
  intros Hc Hp Hnd Hi. rewrite all_bytes_seq.
  etrans; [|apply (sumZ_NoDup_seq (bytes s) _ (i :: p)); [apply bytes_nonneg|by constructor|]].
  - pose proof (peak_path_bytes _ _ _ _ _ _ Hp). pose proof (live_bytes s i c j Hc). unfold sumZ in *. simpl. lia.
  - intros x Hx. apply elem_of_cons in Hx as [->|Hx].
    + destruct Hc as (node & Hn & _). by eapply lookup_lt_Some.
    + by eapply peak_path_lt.
Qed.

Lemma add_u64_ok s a b (Q : Z -> Prop) :
  0 <= a -> 0 <= b -> a + b <= all_bytes s nodes -> Q (a + b) -> wp too_big (add_u64 a b) Q.
Proof.
  intros Ha Hb Hle HQ. unfold add_u64. destruct (checked_u 64 (a + b)) as [c|] eqn:E; simpl.
  - apply checked_u_Some in E as [<- _]. done.
  - apply checked_u_None in E. exists s. lia.
Qed.

(** ** One function in one space *)

Lemma best_call_ok skip tot s cs ei best be :
  (forall c j, c ∈ cs -> skip (ce_callee c) = false -> index !! ce_callee c = Some j ->
     exists t, cell tot j s = Some t /\ 0 <= t /\ 0 <= live c s /\ live c s + t <= all_bytes s nodes) ->
  wp too_big (best_call index skip tot s ei cs best be) (fun r =>
    best <= r.1 /\
    (forall c j t, c ∈ cs -> skip (ce_callee c) = false -> index !! ce_callee c = Some j ->
       cell tot j s = Some t -> live c s + t <= r.1) /\
    (r = (best, be) \/
     exists k c j t, cs !! k = Some c /\ r.2 = Some (ei + k)%nat /\ skip (ce_callee c) = false /\
       index !! ce_callee c = Some j /\ cell tot j s = Some t /\ r.1 = live c s + t)).
Proof.
  revert ei best be. induction cs as [|c cs IH]; intros ei best be Hcs.
  { simpl. split_and!; [lia|set_solver|by left]. }
  assert (forall best' be',
    wp too_big (best_call index skip tot s (S ei) cs best' be') (fun r =>
      best' <= r.1 /\
      (forall c j t, c ∈ cs -> skip (ce_callee c) = false -> index !! ce_callee c = Some j ->
         cell tot j s = Some t -> live c s + t <= r.1) /\
      (r = (best', be') \/
       exists k c' j t, (c :: cs) !! k = Some c' /\ r.2 = Some (ei + k)%nat /\ skip (ce_callee c') = false /\
         index !! ce_callee c' = Some j /\ cell tot j s = Some t /\ r.1 = live c' s + t))) as Hrec.
  { intros best' be'. eapply wp_mono; [apply IH; set_solver|]. intros r (H1 & H2 & H3). split_and!; [done|done|].
    destruct H3 as [->|(k & c' & j & t & Hk & Hr & Hs & Hj & Ht & He)]; [by left|right].
    exists (S k), c', j, t. split_and!; [done| |done..]. rewrite Hr. f_equal. lia. }
  simpl. destruct (skip (ce_callee c)) eqn:Hs.
  { eapply wp_mono; [apply Hrec|]. intros r (H1 & H2 & H3). split_and!; [done| |done].
    intros c' j t Hc. apply elem_of_cons in Hc as [->|Hc]; [congruence|eauto]. }
  destruct (index !! ce_callee c) as [j|] eqn:Hj; cycle 1.
  { eapply wp_mono; [apply Hrec|]. intros r (H1 & H2 & H3). split_and!; [done| |done].
    intros c' j t Hc. apply elem_of_cons in Hc as [->|Hc]; [congruence|eauto]. }
  destruct (Hcs c j ltac:(set_solver) Hs Hj) as (t & Ht & Ht0 & Hl0 & Hle).
  assert (exists m, tot !! j = Some m /\ get0 m s = t) as (m & Hm & Hg).
  { unfold cell in Ht. destruct (tot !! j) as [m|]; [|done]. exists m. split; [done|]. unfold get0. by rewrite Ht. }
  rewrite (vec_get_Some _ _ _ Hm). simpl. rewrite Hg. fold (live c s).
  eapply wp_bind; [apply (add_u64_ok s _ _ (fun r => r = live c s + t)); done|]. intros reach ->.
  destruct (best <? live c s + t) eqn:Hb.
  - apply Z.ltb_lt in Hb. eapply wp_mono; [apply Hrec|]. intros r (H1 & H2 & H3). split_and!; [lia| |].
    + intros c' j' t' Hc. apply elem_of_cons in Hc as [->|Hc]; [|eauto].
      intros _ Hj' Ht'. assert (t' = t) as -> by congruence. done.
    + right. destruct H3 as [->|H3]; [|done]. exists 0%nat, c, j, t. split_and!; try done. simpl. f_equal. lia.
  - apply Z.ltb_ge in Hb. eapply wp_mono; [apply Hrec|]. intros r (H1 & H2 & H3). split_and!; [done| |done].
    intros c' j' t' Hc. apply elem_of_cons in Hc as [->|Hc]; [|eauto].
    intros _ Hj' Ht'. assert (t' = t) as -> by congruence. lia.
Qed.

Definition grow (D : nat -> string -> Prop) (i : nat) (s : string) (x : nat) (k : string) : Prop :=
  D x k \/ (x = i /\ k = s).

(** The state after the totals of [i] in [s] are entered. *)
Definition entered (st : FoldState) (i : nat) (s : string) (r : Z * option nat) : FoldState :=
  mkFold (put (total st) i s r.1)
    (match r.2 with Some ei => put (peak_edge st) i s ei | None => peak_edge st end) (reported st) (errors st).

(** What [best_call] found is a path. *)
Definition found (D : nat -> string -> Prop) (st : FoldState) (i : nat) (s : string) (r : Z * option nat) : Prop :=
  r = (peak i s, None) \/
  exists node k c j t, nodes !! i = Some node /\ fs_calls node !! k = Some c /\ r.2 = Some k /\
    index !! ce_callee c = Some j /\ D j s /\ cell (total st) j s = Some t /\ r.1 = live c s + t.

Lemma entered_cells D st i s r x k :
  Core D st -> (i < length nodes)%nat -> (x <> i \/ k <> s) ->
  cell (total (entered st i s r)) x k = cell (total st) x k /\
  cell (peak_edge (entered st i s r)) x k = cell (peak_edge st) x k.
Proof.
  intros H Hi Hx. destruct (co_len _ _ H) as (L1 & L2 & L3). unfold entered. simpl.
  assert (~ (x = i /\ k = s)) as Hn by tauto. split.
  - rewrite cell_put by lia. by rewrite decide_False.
  - destruct r.2; [|done]. rewrite cell_put by lia. by rewrite decide_False.
Qed.

Lemma entered_core D st i s r :
  Core D st -> (i < length nodes)%nat -> ~ D i s -> found D st i s r -> peak i s <= r.1 ->
  (forall c j t, calls i c j -> ~ mutual i j -> D j s /\ (cell (total st) j s = Some t -> live c s + t <= r.1)) ->
  Core (grow D i s) (entered st i s r).
Proof.
  intros H Hi HD Hf Hself Hdom. destruct (co_len _ _ H) as (L1 & L2 & L3).
  assert (cell (total (entered st i s r)) i s = Some r.1) as Htot.
  { simpl. rewrite cell_put by lia. by rewrite decide_True. }
  assert (length (peak_edge st) = length (peak_edge (entered st i s r))) as Lp.
  { simpl. destruct r.2; [by rewrite length_put|done]. }
  assert (forall x k, D x k -> x <> i \/ k <> s) as Hne.
  { intros x k Hx. destruct (decide (x = i)) as [->|]; [|by left]. right. by intros ->. }
  assert (forall x k p h t, peak_path (peak_edge st) k x p h t -> (forall y, y ∈ p -> D y k) ->
            peak_path (peak_edge (entered st i s r)) k x p h t) as Hpath.
  { intros x k p h t Hp Hin. eapply peak_path_ext; [exact Lp| |exact Hp]. intros y Hy. symmetry.
    apply (entered_cells D st i s r y k H Hi). auto. }
  split.
  - simpl. rewrite length_put. by rewrite Lp in L2.
  - intros x k [Hx|[-> ->]].
    + destruct (co_cell _ _ H x k Hx) as (p & h & t & Ht & Hp & Hnd & Hin). exists p, h, t.
      split_and!; [|by apply Hpath|done|intros y Hy; left; auto].
      rewrite <-Ht. apply (entered_cells D st i s r x k H Hi). auto.
    + destruct Hf as [->|(node & kk & c & j & t & Hn & Hk & Hr & Hj & HDj & Ht & Hr1)].
      * exists [i], [], (peak i s). split_and!; [done| |by apply NoDup_singleton|].
        -- constructor; [simpl; lia|done|]. by apply (co_fresh _ _ H).
        -- intros y Hy. right. split; [set_solver|done].
      * destruct (co_cell _ _ H j s HDj) as (p & h & t' & Ht' & Hp & Hnd & Hin).
        assert (t' = t) as -> by congruence.
        exists (i :: p), ((i, live c s) :: h), (live c s + t). split_and!.
        -- by rewrite Htot, Hr1.
        -- econstructor; [|done|done|done|by apply Hpath]. simpl. rewrite Hr, cell_put by lia.
           by rewrite decide_True.
        -- constructor; [|done]. intros Hy. by apply HD, Hin.
        -- intros y Hy. apply elem_of_cons in Hy as [->|Hy]; [by right|left; auto].
  - intros x k Hx. assert (x <> i \/ k <> s) as Hxk.
    { destruct (decide (x = i)) as [->|]; [|by left]. right. intros ->. apply Hx. by right. }
    destruct (entered_cells D st i s r x k H Hi Hxk) as [_ ->]. apply (co_fresh _ _ H). intros Hd. apply Hx. by left.
  - intros x k t [Hx|[-> ->]] Ht.
    + destruct (entered_cells D st i s r x k H Hi (Hne _ _ Hx)) as [E _]. rewrite E in Ht. by eapply co_self.
    + rewrite Htot in Ht. injection Ht as <-. done.
  - intros x k c j t u [Hx|[-> ->]] Ht Hc Hm.
    + destruct (entered_cells D st i s r x k H Hi (Hne _ _ Hx)) as [E _]. rewrite E in Ht.
      destruct (co_dom _ _ H x k c j t u Hx Ht Hc Hm) as [Hj Hle]. split; [by left|].
      destruct (entered_cells D st i s r j k H Hi (Hne _ _ Hj)) as [-> _]. done.
    + rewrite Htot in Ht. injection Ht as <-. destruct (Hdom c j u Hc Hm) as [Hj Hle]. split; [by left|].
      destruct (entered_cells D st i s r j s H Hi (Hne _ _ Hj)) as [-> _]. done.
Qed.

Lemma fold_node_ok D st i s skip :
  Core D st -> (i < length nodes)%nat -> ~ D i s ->
  (forall c j, calls i c j -> skip (ce_callee c) = false -> D j s) ->
  (forall c j, calls i c j -> skip (ce_callee c) = true -> mutual i j) ->
  wp too_big (fold_node nodes index skip s i st) (fun r =>
    exists be, r.2 = entered st i s (r.1, be) /\ Core (grow D i s) r.2 /\ found D st i s (r.1, be)).
Proof.
  intros H Hi HD Hcall Hskip. destruct (lookup_lt_is_Some_2 _ _ Hi) as [node Hn].
  destruct (co_len _ _ H) as (L1 & L2 & L3).
  unfold fold_node. rewrite (vec_get_Some _ _ _ Hn). cbn [outcome_bind].
  assert (get0 (fs_self_peak node) s = peak i s) as -> by (unfold peak; by rewrite Hn).
  eapply wp_bind.
  { apply best_call_ok. intros c j Hc Hs Hj. assert (calls i c j) as Hcj by (exists node; done).
    destruct (co_cell _ _ H j s (Hcall c j Hcj Hs)) as (p & h & t & Ht & Hp & Hnd & Hin).
    exists t. split_and!; [done|by eapply peak_path_nonneg|by eapply live_nonneg|].
    eapply reach_bytes; [done|done|done|]. intros Hx. by apply HD, Hin. }
  intros [best be] (Hself & Hdom & Hf). cbn [fst snd] in *.
  rewrite vec_insert_eq by lia. cbn [outcome_bind].
  assert (match be with Some ei => vec_insert (peak_edge st) i s ei | None => Returns (peak_edge st) end
          = Returns (peak_edge (entered st i s (best, be)))) as Epe.
  { simpl. destruct be; [|done]. by rewrite vec_insert_eq by lia. }
  rewrite Epe. cbn [outcome_bind wp snd fst].
  assert (found D st i s (best, be)) as Hfound.
  { destruct Hf as [[= -> ->]|(k & c & j & t & Hk & Hr & Hs & Hj & Ht & ->)]; [by left|right].
    exists node, k, c, j, t. split_and!; try done. apply (Hcall c j); [|done].
    exists node. split_and!; [done|by eapply list_elem_of_lookup_2|done]. }
  exists be. split_and!; [done| |done]. apply (entered_core D st i s (best, be)); [done..|].
  intros c j t Hc Hm. assert (skip (ce_callee c) = false) as Hs.
  { destruct (skip (ce_callee c)) eqn:Hs; [|done]. destruct Hm. exact (Hskip c j Hc Hs). }
  split; [exact (Hcall c j Hc Hs)|]. intros Ht. destruct Hc as (node' & Hn' & Hc & Hj).
  assert (node' = node) as -> by congruence. exact (Hdom c j t Hc Hs Hj Ht).
Qed.

(** ** The path in the diagnostic *)

Definition name_at (i : nat) : string :=
  match nodes !! i with Some node => fs_name node | None => EmptyString end.

Lemma find_name_at i node : nodes !! i = Some node -> find_fn summaries (name_at i) = Some node.
Proof.
  intros H. apply find_ok. exists i. split; [|done]. apply index_ok. exists node. split; [done|].
  unfold name_at. by rewrite H.
Qed.

Lemma name_at_callee name j : index !! name = Some j -> name = name_at j.
Proof. intros H. apply index_ok in H as (node & H & <-). unfold name_at. by rewrite H. Qed.

Lemma peak_path_head pe s i p h t : peak_path pe s i p h t -> exists q, p = i :: q.
Proof. destruct 1; eauto. Qed.

Lemma peak_path_call_path pe s i p h t :
  peak_path pe s i p h t -> call_path summaries s (map name_at p) t.
Proof.
  induction 1 as [i Hp Hn Hc|i ei node c j p h t Hc Hn He Hj H IH].
  - destruct (lookup_lt_is_Some_2 _ _ Hn) as [node Hi]. unfold peak. rewrite Hi. constructor. by apply find_name_at.
  - destruct (peak_path_head _ _ _ _ _ _ H) as [q ->]. simpl in *. rewrite <-(name_at_callee _ _ Hj) in *.
    eapply path_call; [by apply find_name_at|by eapply list_elem_of_lookup_2|done].
Qed.

Lemma peak_path_last pe s i p h t :
  peak_path pe s i p h t ->
  exists z node, last p = Some z /\ nodes !! z = Some node /\ t = sumZ snd h + get0 (fs_self_peak node) s /\
    forall x b, (x, b) ∈ h -> (x < length nodes)%nat /\ 0 <= b.
Proof.
  induction 1 as [i Hp Hn Hc|i ei node c j p h t Hc Hn He Hj H IH].
  - destruct (lookup_lt_is_Some_2 _ _ Hn) as [node Hi]. exists i, node.
    split_and!; [done|done|unfold peak; by rewrite Hi|set_solver].
  - destruct IH as (z & node' & Hz & Hn' & -> & Hh). exists z, node'. split_and!.
    + destruct (peak_path_head _ _ _ _ _ _ H) as [q ->]. done.
    + done.
    + unfold sumZ. simpl. lia.
    + intros x b Hx. apply elem_of_cons in Hx as [[= -> ->]|Hx]; [|auto].
      split; [by eapply lookup_lt_Some|]. apply (live_nonneg i c j). exists node.
      split_and!; [done|by eapply list_elem_of_lookup_2|done].
Qed.

Lemma walk_ok pe rep s i p h t fuel path hops :
  peak_path pe s i p h t -> length rep = length nodes -> (length p <= fuel)%nat ->
  walk nodes index fuel pe rep s i path hops = Returns (Some (path ++ tail p, hops ++ h)) \/
  (walk nodes index fuel pe rep s i path hops = Returns None /\ exists x, cell rep x s = Some true).
Proof.
  intros H Hr. revert fuel path hops.
  induction H as [i Hp Hn Hc|i ei node c j p h t Hc Hn He Hj H IH]; intros fuel path hops Hf;
    (destruct fuel as [|fuel]; [simpl in Hf; lia|]); simpl in Hf |- *.
  - destruct (lookup_lt_is_Some_2 _ _ Hp) as [m Hm]. rewrite (vec_get_Some _ _ _ Hm). simpl.
    unfold cell in Hc. rewrite Hm in Hc. rewrite Hc, !app_nil_r. by left.
  - unfold cell in Hc. destruct (pe !! i) as [m|] eqn:Hm; [|done].
    rewrite (vec_get_Some _ _ _ Hm). simpl. rewrite Hc, (vec_get_Some _ _ _ Hn). simpl.
    rewrite (vec_get_Some _ _ _ He). simpl. rewrite Hj.
    assert (j < length rep)%nat as Hjl by (rewrite Hr; by eapply index_lt).
    destruct (lookup_lt_is_Some_2 _ _ Hjl) as [m' Hm']. rewrite (vec_get_Some _ _ _ Hm'). simpl.
    destruct (default false (m' !! s)) eqn:Hrep.
    + right. split; [done|]. exists j. unfold cell. rewrite Hm'. destruct (m' !! s) as [[]|]; done.
    + destruct (IH fuel (path ++ [j]) (hops ++ [(i, get0 (ce_live c) s)])) as [E|E]; [lia| |by right].
      left. rewrite E. destruct (peak_path_head _ _ _ _ _ _ H) as [q ->]. simpl. by rewrite <-!app_assoc.
Qed.

Lemma names_of_ok p :
  (forall x, x ∈ p -> (x < length nodes)%nat) -> names_of nodes p = Returns (map name_at p).
Proof.
  induction p as [|x p IH]; intros H; [done|]. simpl.
  destruct (lookup_lt_is_Some_2 _ _ (H x ltac:(set_solver))) as [node Hn].
  rewrite (vec_get_Some _ _ _ Hn). simpl. rewrite IH by set_solver. simpl. unfold name_at at 2. by rewrite Hn.
Qed.

Lemma held_of_ok h z :
  (forall x b, (x, b) ∈ h -> (x < length nodes)%nat /\ 0 <= b) ->
  exists held, held_of nodes h = Returns held /\ foldr (fun e n => e.2 + n) z held = sumZ snd h + z.
Proof.
  unfold sumZ. induction h as [|[x b] h IH]; intros H; [by exists []|]. simpl.
  destruct IH as (held & -> & Hs); [set_solver|]. simpl.
  destruct (H x b ltac:(set_solver)) as [Hx Hb].
  destruct (lookup_lt_is_Some_2 _ _ Hx) as [node Hn]. destruct (0 <? b) eqn:E.
  - rewrite (vec_get_Some _ _ _ Hn). simpl. eexists. split; [done|]. simpl. lia.
  - apply Z.ltb_ge in E. exists held. split; [done|]. lia.
Qed.

(** ** The whole invariant *)

(** What the per-function checks have established of a space. *)
Definition local_ok (s : string) (b : SpaceBudget) : Prop :=
  forall i, peak i s <= sb_cap b /\ forall c j, calls i c j -> live c s <= peak i s.

Definition Diags (st : FoldState) : Prop :=
  exists new, dv_inner (errors st) = base ++ new /\ Forall (diagnostic_true summaries budgets) new.

(** As long as nothing was reported, every finished total fits. *)
Definition Quiet (D : nat -> string -> Prop) (st : FoldState) : Prop :=
  dv_inner (errors st) = base -> forall s b, budgets !! s = Some b -> local_ok s b ->
  (forall i, cell (reported st) i s <> Some true) /\
  (forall i t, D i s -> cell (total st) i s = Some t -> t <= sb_cap b) /\
  (forall i c, D i s -> calls i c i -> peak i s = 0).

Record Full (D : nat -> string -> Prop) (st : FoldState) : Prop := {
  fu_core : Core D st;
  fu_diags : Diags st;
  fu_quiet : Quiet D st;
}.

Lemma diags_emit st st' d :
  Diags st -> diagnostic_true summaries budgets d ->
  dv_inner (errors st') = dv_inner (errors st) ++ [d] -> Diags st' /\ dv_inner (errors st') <> base.
Proof.
  intros (new & En & Hn) Hd E. rewrite E, En. split.
  - exists (new ++ [d]). rewrite app_assoc. split; [by rewrite E, En|]. by apply Forall_app_2; [|constructor].
  - intros Hb. apply (f_equal length) in Hb. rewrite !length_app in Hb. simpl in Hb. lia.
Qed.

Lemma core_same D st rep errs :
  Core D st -> length rep = length nodes -> Core D (mkFold (total st) (peak_edge st) rep errs).
Proof. intros [(L1 & L2 & L3) Hc Hf Hs Hd] Hr. by split. Qed.

Lemma quiet_step (D D' : nat -> string -> Prop) st st' s b :
  budgets !! s = Some b -> Quiet D st ->
  (dv_inner (errors st') = base -> dv_inner (errors st) = base) ->
  (forall i k, k <> s -> (D' i k -> D i k) /\ cell (reported st') i k = cell (reported st) i k /\
     cell (total st') i k = cell (total st) i k) ->
  (dv_inner (errors st') = base -> local_ok s b ->
     (forall i, cell (reported st') i s <> Some true) /\
     (forall i t, D' i s -> cell (total st') i s = Some t -> t <= sb_cap b) /\
     (forall i c, D' i s -> calls i c i -> peak i s = 0)) ->
  Quiet D' st'.
Proof.
  intros Hb HQ Hbase Hother Hs He k b' Hk Hl. destruct (decide (k = s)) as [->|Hks].
  - assert (b' = b) as -> by congruence. auto.
  - destruct (HQ (Hbase He) k b' Hk Hl) as (H1 & H2 & H3). split_and!.
    + intros i. destruct (Hother i k Hks) as (_ & -> & _). auto.
    + intros i t Hi. destruct (Hother i k Hks) as (HD & _ & ->). exact (H2 i t (HD Hi)).
    + intros i c Hi. destruct (Hother i k Hks) as (HD & _). exact (H3 i c (HD Hi)).
Qed.

Lemma path_length p :
  NoDup p -> (forall x, x ∈ p -> (x < length nodes)%nat) -> (length p <= length nodes)%nat.
Proof.
  intros Hnd Hlt. rewrite <-(length_seq (length nodes) 0). apply submseteq_length, NoDup_submseteq; [done|].
  intros x Hx. apply elem_of_seq. specialize (Hlt x Hx). lia.
Qed.

(** The diagnostic of an overflowing path is true. *)
Lemma overflow_true pe s b n p h t held z node span file allowed :
  budgets !! s = Some b -> peak_path pe s n p h t -> sb_cap b < t ->
  last p = Some z -> nodes !! z = Some node ->
  foldr (fun e n => e.2 + n) (get0 (fs_self_peak node) s) held = t ->
  diagnostic_true summaries budgets
    (mkDiagnostic (if sb_overcommit b then LevelWarning else LevelError) (if sb_overcommit b then W1028 else E6027)
       (CallPath (map name_at p) s t (sb_cap b) held (fs_name node, get0 (fs_self_peak node) s) allowed)
       span file s t (sb_cap b)).
Proof.
  intros Hb Hp Ht Hz Hn Hheld. exists b. simpl. split_and!; try done.
  - by eapply peak_path_call_path.
  - change (map name_at p) with (name_at <$> p). rewrite fmap_last, Hz. simpl. unfold name_at. by rewrite Hn.
Qed.

Lemma report_overflow_ok D st n s b t p h :
  Core D st -> Diags st -> budgets !! s = Some b ->
  peak_path (peak_edge st) s n p h t -> NoDup p ->
  wp too_big (report_overflow nodes index n s t b st) (fun st' =>
    Core D st' /\ Diags st' /\ total st' = total st /\
    (forall i k, k <> s -> cell (reported st') i k = cell (reported st) i k) /\
    (dv_inner (errors st') = base -> dv_inner (errors st) = base) /\
    (dv_inner (errors st') = base -> peak n s <= sb_cap b -> (forall i, cell (reported st) i s <> Some true) ->
       reported st' = reported st /\ t <= sb_cap b)).
Proof.
  intros H HD Hb Hp Hnd. unfold report_overflow. destruct (co_len _ _ H) as (L1 & L2 & L3).
  destruct (t <=? sb_cap b) eqn:Ht; [apply Z.leb_le in Ht; simpl; by split_and!|]. apply Z.leb_gt in Ht.
  destruct (peak_path_head _ _ _ _ _ _ Hp) as [q Eq].
  assert (n < length nodes)%nat as Hlt by (eapply peak_path_lt; [done|]; set_solver).
  destruct (lookup_lt_is_Some_2 _ _ Hlt) as [node Hn]. rewrite (vec_get_Some _ _ _ Hn). cbn [outcome_bind].
  assert (get0 (fs_self_peak node) s = peak n s) as -> by (unfold peak; by rewrite Hn).
  assert (forall i k, k <> s -> cell (put (reported st) n s true) i k = cell (reported st) i k) as Hother.
  { intros i k Hk. rewrite cell_put by lia. rewrite decide_False; [done|]. by intros [_ ?]. }
  destruct (sb_cap b <? peak n s) eqn:Hself.
  { apply Z.ltb_lt in Hself. rewrite vec_insert_eq by lia. simpl.
    split_and!; [apply core_same; [done|by rewrite length_put]|done|done|done|done|]. intros; lia. }
  destruct (walk_ok (peak_edge st) (reported st) s n p h t (S (length nodes)) [n] [] Hp L3) as [-> |[-> [x Hx]]].
  { etrans; [apply path_length; [done|]|lia]. intros x Hx. by eapply peak_path_lt. }
  - cbn [outcome_bind]. rewrite vec_insert_eq by lia. cbn [outcome_bind].
    replace ([n] ++ tail p) with p by by rewrite Eq.
    rewrite names_of_ok by (intros x Hx; by eapply peak_path_lt). cbn [outcome_bind].
    destruct (peak_path_last _ _ _ _ _ _ Hp) as (z & last_node & Hz & Hnz & Hsum & Hh).
    rewrite Hz, (vec_get_Some _ _ _ Hnz). cbn [outcome_bind app].
    destruct (held_of_ok h (get0 (fs_self_peak last_node) s) Hh) as (held & -> & Hheld). cbn [outcome_bind].
    destruct (lookup_lt_is_Some_2 (peak_edge st) n ltac:(lia)) as [m Hm].
    rewrite (vec_get_Some _ _ _ Hm). cbn [outcome_bind].
    assert (exists span, match m !! s with
              | Some ei => call ←! vec_get (fs_calls node) ei; Returns (Some (from_ast_span (ce_span call)))
              | None => Returns None
              end = Returns span) as [span ->].
    { inversion Hp as [? ? ? Hc|? ei node' c j ? ? ? Hc Hn' He]; subst; unfold cell in Hc; rewrite Hm in Hc; rewrite Hc; [eauto|].
      assert (node' = node) as -> by congruence. rewrite (vec_get_Some _ _ _ He). simpl. eauto. }
    cbn [outcome_bind wp].
    assert (foldr (fun e n => e.2 + n) (get0 (fs_self_peak last_node) s) held = t) as Hheld' by lia.
    match goal with |- Core _ ?st' /\ _ =>
      destruct (diags_emit st st' _ HD (overflow_true _ _ _ _ _ _ _ held z last_node span (fs_file node)
                 (sb_overcommit b) Hb Hp Ht Hz Hnz Hheld') eq_refl) as [HD' Hne] end.
    split_and!; [apply core_same; [done|by rewrite length_put]|exact HD'|done|exact Hother|done|done].
  - cbn [outcome_bind]. rewrite vec_insert_eq by lia. cbn [outcome_bind wp].
    split_and!; [apply core_same; [done|by rewrite length_put]|done|done|exact Hother|done|].
    intros _ _ Hr. by destruct (Hr x).
Qed.

Lemma acyclic_space_ok D st n s b :
  Full D st -> (n < length nodes)%nat -> ~ D n s -> budgets !! s = Some b ->
  (forall c j, calls n c j -> D j s) ->
  wp too_big (acyclic_space nodes index n (s, b) st) (Full (grow D n s)).
Proof.
  intros [HC HD HQ] Hn HDn Hb Hcall. unfold acyclic_space. cbn [fst snd].
  eapply wp_bind; [apply (fold_node_ok D); [done|done|done|intros c j Hc _; exact (Hcall c j Hc)|done]|].
  intros [best st1] (be & Est & HC1 & Hf). cbn [fst snd] in *.
  destruct (co_len _ _ HC) as (L1 & L2 & L3).
  assert (cell (total st1) n s = Some best) as Ht by (rewrite Est; simpl; rewrite cell_put by lia; by rewrite decide_True).
  destruct (co_cell _ _ HC1 n s) as (p & h & t & Ht' & Hp & Hnd & _); [by right|].
  assert (t = best) as -> by congruence.
  assert (Diags st1) as HD1 by by rewrite Est.
  eapply wp_mono; [by eapply report_overflow_ok|]. intros st' (HC' & HD' & Etot & Hrep & Hbase & Hq).
  split; [done|done|]. eapply (quiet_step D); [done|done| | |].
  - rewrite Est in Hbase. exact Hbase.
  - intros i k Hk. split_and!; [|rewrite Hrep by done; by rewrite Est|].
    + intros [?|[_ ?]]; done.
    + rewrite Etot, Est. apply (entered_cells D st n s _ i k HC Hn). by right.
  - intros He Hl. assert (dv_inner (errors st) = base) as He0 by (rewrite Est in Hbase; by apply Hbase).
    destruct (HQ He0 s b Hb Hl) as (H1 & H2 & H3).
    destruct (Hq He) as [Er Hle]; [apply Hl|by rewrite Est|]. rewrite Er, Etot. split_and!.
    + by rewrite Est.
    + intros i t [Hi|[-> _]] Hit; [|rewrite Ht in Hit; by injection Hit as <-].
      apply (H2 i); [done|]. rewrite <-Hit, Est. symmetry. apply (entered_cells D st n s _ i s HC Hn).
      left. by intros ->.
    + intros i c [Hi|[-> _]] Hc; [by eapply H3|]. destruct HDn. by eapply Hcall.
Qed.

(** ** Cycles *)

Definition grows (D : nat -> string -> Prop) (ms : list nat) (s : string) (x : nat) (k : string) : Prop :=
  D x k \/ (x ∈ ms /\ k = s).

Lemma core_iff (D D' : nat -> string -> Prop) st : (forall x k, D x k <-> D' x k) -> Core D st -> Core D' st.
Proof.
  intros E [Hl Hc Hf Hs Hd]. split; [done| | | |].
  - intros i s Hi. apply E in Hi. destruct (Hc i s Hi) as (p & h & t & ? & ? & ? & Hin).
    exists p, h, t. split_and!; [done..|]. intros x Hx. by apply E, Hin.
  - intros i s Hi. apply Hf. by rewrite E.
  - intros i s t Hi. apply Hs. by apply E.
  - intros i s c j t u Hi. rewrite <-E. apply Hd. by apply E.
Qed.

Lemma fold_members_ok scc s members D st :
  Core D st -> NoDup members -> (forall i, i ∈ members -> i ∈ scc /\ (i < length nodes)%nat /\ ~ D i s) ->
  (forall i c j, i ∈ members -> calls i c j -> j ∈ scc \/ D j s) ->
  (forall i j, i ∈ scc -> j ∈ scc -> mutual i j) ->
  wp too_big (fold_members nodes index scc s members st) (fun st' =>
    Core (grows D members s) st' /\ reported st' = reported st /\ errors st' = errors st /\
    (forall x k, k <> s -> cell (total st') x k = cell (total st) x k) /\
    (forall B, (forall x t, D x s -> cell (total st) x s = Some t -> t <= B) ->
       (forall i, i ∈ members -> peak i s <= B /\ forall c j, calls i c j -> live c s <= 0) ->
       forall x t, grows D members s x s -> cell (total st') x s = Some t -> t <= B)).
Proof.
  revert D st. induction members as [|i members IH]; intros D st HC Hnd Hm Hcall Hmut; simpl.
  - split_and!; [|done|done|done|].
    + eapply core_iff; [|exact HC]. intros x k. unfold grows. rewrite elem_of_nil. tauto.
    + intros B HB _ x t [Hx|[Hx _]] Ht; [by eapply HB|by apply elem_of_nil in Hx].
  - destruct (Hm i (list_elem_of_here _ _)) as (Hi & Hlt & HDi). apply NoDup_cons in Hnd as [Hni Hnd].
    eapply wp_bind.
    { apply (fold_node_ok D); [done|done|done| |].
      - intros c j Hc Hs. destruct (Hcall i c j (list_elem_of_here _ _) Hc) as [Hj|]; [|done].
        destruct Hc as (node & _ & _ & Hj'). unfold in_scc in Hs. rewrite Hj' in Hs.
        by apply bool_decide_eq_false in Hs.
      - intros c j (node & _ & _ & Hj') Hs. unfold in_scc in Hs. rewrite Hj' in Hs.
        apply bool_decide_eq_true in Hs. by apply Hmut. }
    intros [best st1] (be & Est & HC1 & Hf). cbn [fst snd] in *.
    destruct (co_len _ _ HC) as (L1 & L2 & L3).
    eapply wp_mono.
    { apply (IH (grow D i s)); [done|done| | |done].
      - intros x Hx. destruct (Hm x (list_elem_of_further _ _ _ Hx)) as (? & ? & ?). split_and!; [done|done|].
        intros [?|[-> _]]; done.
      - intros x c j Hx Hc. destruct (Hcall x c j (list_elem_of_further _ _ _ Hx) Hc) as [|]; [by left|right; by left]. }
    intros st' (HC' & Hrep & Herr & Hother & HB'). split_and!.
    + eapply core_iff; [|exact HC']. intros x k. unfold grows, grow. rewrite elem_of_cons. tauto.
    + by rewrite Hrep, Est.
    + by rewrite Herr, Est.
    + intros x k Hk. rewrite Hother by done. rewrite Est.
      apply (entered_cells D st i s _ x k HC Hlt). by right.
    + intros B HB Hpl x t Hx Ht. eapply (HB' B); [| |unfold grows, grow; destruct Hx as [?|[Hx ?]]|exact Ht].
      * intros y u [Hy|[-> _]] Hu.
        { apply (HB y); [done|]. rewrite <-Hu, Est. symmetry. apply (entered_cells D st i s _ y s HC Hlt).
          left. by intros ->. }
        rewrite Est in Hu. simpl in Hu. rewrite cell_put in Hu by lia. rewrite decide_True in Hu by done.
        injection Hu as <-. destruct (Hpl i (list_elem_of_here _ _)) as [Hp Hl].
        destruct Hf as [[= -> ->]|(node & k & c & j & v & Hn & Hk & _ & Hj & HDj & Hv & Hr)]; [done|].
        simpl in Hr. assert (calls i c j) as Hc.
        { exists node. split_and!; [done|by eapply list_elem_of_lookup_2|done]. }
        specialize (HB j v HDj Hv). specialize (Hl c j Hc). lia.
      * intros y Hy. apply Hpl. by apply list_elem_of_further.
      * by left; left.
      * apply elem_of_cons in Hx as [->|Hx]; [left; by right|by right].
Qed.

Lemma max_peak_ok s ms m :
  (forall x, x ∈ ms -> (x < length nodes)%nat) ->
  exists m', max_peak nodes s ms m = Returns m' /\ m <= m' /\ (forall i, i ∈ ms -> peak i s <= m') /\
    (m' = m \/ exists i, i ∈ ms /\ peak i s = m').
Proof.
  revert m. induction ms as [|i ms IH]; intros m H; simpl.
  - exists m. split_and!; [done|lia|set_solver|by left].
  - destruct (lookup_lt_is_Some_2 _ _ (H i ltac:(set_solver))) as [node Hn].
    unfold peak_of. rewrite (vec_get_Some _ _ _ Hn). cbn [outcome_bind].
    assert (get0 (fs_self_peak node) s = peak i s) as -> by (unfold peak; by rewrite Hn).
    destruct (IH (Z.max m (peak i s))) as (m' & -> & Hge & Hall & Hex); [set_solver|].
    exists m'. split_and!; [done|lia| |].
    + intros x Hx. apply elem_of_cons in Hx as [->|Hx]; [lia|auto].
    + destruct Hex as [->|(x & Hx & ?)]; [|right; exists x; split; [set_solver|done]].
      destruct (Z.max_spec m (peak i s)) as [[_ ->]|[_ ->]]; [right|by left]. exists i. split; [set_solver|done].
Qed.

Lemma mark_all_ok s ms rep :
  (forall x, x ∈ ms -> (x < length rep)%nat) ->
  exists rep', mark_all s ms rep = Returns rep' /\ length rep' = length rep /\
    forall i k, k <> s -> cell rep' i k = cell rep i k.
Proof.
  revert rep. induction ms as [|x ms IH]; intros rep H; simpl; [by exists rep|].
  assert (x < length rep)%nat by (apply H; set_solver). rewrite vec_insert_eq by done. simpl.
  destruct (IH (put rep x s true)) as (rep' & -> & Hl & Hc).
  { intros y Hy. rewrite length_put. apply H. set_solver. }
  exists rep'. split_and!; [done|by rewrite Hl, length_put|]. intros i k Hk. rewrite Hc by done.
  rewrite cell_put by done. rewrite decide_False; [done|]. by intros [_ ?].
Qed.

Lemma edge_fn_calls i j : edge graph i j -> fn_calls summaries (name_at i) (name_at j).
Proof.
  intros H. apply edge_calls in H as (c & node & Hi & Hc & Hj). exists node, c.
  split_and!; [by apply find_name_at|done|by apply name_at_callee|].
  destruct (lookup_lt_is_Some_2 _ _ (index_lt _ _ Hj)) as [node' Hn']. exists node'. by apply find_name_at.
Qed.

Lemma tc_fn_calls i j : tc (edge graph) i j -> tc (fn_calls summaries) (name_at i) (name_at j).
Proof.
  induction 1 as [i j H|i k j H _ IH]; [by apply tc_once, edge_fn_calls|].
  eapply tc_l; [by apply edge_fn_calls|done].
Qed.

(** The diagnostic of a cycle is true. *)
Lemma cycle_true s b scc i m file allowed :
  budgets !! s = Some b -> 0 < m -> i ∈ scc -> (i < length nodes)%nat -> peak i s = m ->
  (forall x y, x ∈ scc -> y ∈ scc -> tc (edge graph) x y) ->
  diagnostic_true summaries budgets
    (mkDiagnostic (if sb_overcommit b then LevelWarning else LevelError) (if sb_overcommit b then W1028 else E6028)
       (CallCycle (merge_sort str_le (map name_at scc)) m s allowed) None file s m (sb_cap b)).
Proof.
  intros Hb Hm Hi Hlt Hp Htc. exists b. simpl. split_and!; try done.
  - destruct (lookup_lt_is_Some_2 _ _ Hlt) as [node Hn]. exists (name_at i), node. split_and!.
    + rewrite merge_sort_Permutation. by apply list_elem_of_fmap_2.
    + by apply find_name_at.
    + rewrite <-Hp. unfold peak. by rewrite Hn.
  - intros f g Hf Hg. rewrite merge_sort_Permutation in Hf, Hg.
    apply list_elem_of_fmap in Hf as (x & -> & Hx). apply list_elem_of_fmap in Hg as (y & -> & Hy).
    by apply tc_fn_calls, Htc.
Qed.

(** What is known of a component in one space before it is folded. *)
Record column (D : nat -> string -> Prop) (scc : list nat) (s : string) : Prop := {
  cl_new i : i ∈ scc -> ~ D i s;
  cl_calls i c j : i ∈ scc -> calls i c j -> j ∈ scc \/ D j s;
}.

(** What is known of a component of the graph. *)
Record component (scc : list nat) : Prop := {
  cp_ne : scc <> [];
  cp_nodup : NoDup scc;
  cp_lt i : i ∈ scc -> (i < length nodes)%nat;
  cp_mutual i j : i ∈ scc -> j ∈ scc -> mutual i j;
}.

Lemma cycle_space_ok D st scc s b :
  Full D st -> component scc -> column D scc s -> budgets !! s = Some b ->
  (forall x y, x ∈ scc -> y ∈ scc -> tc (edge graph) x y) ->
  wp too_big (cycle_space nodes index scc (s, b) st) (Full (grows D scc s)).
Proof.
  intros [HC HD HQ] [Hne Hnd Hlt Hmut] [Hnew Hcall] Hb Htc. unfold cycle_space. cbn [fst snd].
  destruct (max_peak_ok s scc 0 Hlt) as (m & -> & Hm0 & Hmax & Hex). cbn [outcome_bind].
  eapply wp_bind; [apply (fold_members_ok scc s scc D); [done|done| |exact Hcall|done]|].
  { intros i Hi. split_and!; [done|auto|auto]. }
  intros st1 (HC1 & Hrep & Herr & Hother & HB). destruct (m =? 0) eqn:Em.
  - apply Z.eqb_eq in Em. subst m. split; [done|by unfold Diags; rewrite Herr|].
    eapply (quiet_step D); [done|done|by rewrite Herr| |].
    + intros i k Hk. split_and!; [intros [?|[_ ?]]; done|by rewrite Hrep|by apply Hother].
    + rewrite Herr, Hrep. intros He Hl. destruct (HQ He s b Hb Hl) as (H1 & H2 & H3).
      assert (forall i, i ∈ scc -> peak i s = 0) as Hz.
      { intros i Hi. pose proof (Hmax i Hi). pose proof (peak_nonneg i s). lia. }
      split_and!; [done| |].
      * apply (HB (sb_cap b)); [intros x t; apply H2|]. intros i Hi. split; [apply Hl|].
        intros c j Hc. rewrite <-(Hz i Hi). by eapply Hl.
      * intros i c [Hi|[Hi _]] Hc; [by eapply H3|auto].
  - apply Z.eqb_neq in Em. destruct (co_len _ _ HC1) as (_ & _ & L3).
    destruct (mark_all_ok s scc (reported st1)) as (rep & -> & Hlr & Hcr); [by rewrite L3|]. cbn [outcome_bind].
    rewrite names_of_ok by done. cbn [outcome_bind].
    assert (exists file, match scc with
              | [] => Returns None
              | i :: _ => node ←! vec_get nodes i; Returns (fs_file node)
              end = Returns file) as [file ->].
    { destruct scc as [|i scc]; [eauto|].
      destruct (lookup_lt_is_Some_2 _ _ (Hlt i (list_elem_of_here _ _))) as [node Hn].
      rewrite (vec_get_Some _ _ _ Hn). simpl. eauto. }
    cbn [outcome_bind wp]. destruct Hex as [->|(i & Hi & Hp)]; [done|].
    assert (Diags st1) as HD1 by (unfold Diags; by rewrite Herr).
    match goal with |- Full _ ?st' =>
      destruct (diags_emit st1 st' _ HD1 (cycle_true s b scc i m file (sb_overcommit b) Hb ltac:(lia) Hi (Hlt i Hi) Hp Htc)
                  eq_refl) as [HD' Hne'] end.
    split; [apply core_same; [done|lia]|exact HD'|]. intros He. by destruct Hne'.
Qed.

Lemma over_spaces_ok body scc spaces D st :
  NoDup spaces.*1 -> (forall e, e ∈ spaces -> column D scc e.1) ->
  (forall D st e, e ∈ spaces -> column D scc e.1 -> Full D st -> wp too_big (body e st) (Full (grows D scc e.1))) ->
  Full D st ->
  wp too_big (over_spaces body spaces st) (Full (fun x k => D x k \/ (x ∈ scc /\ k ∈ spaces.*1))).
Proof.
  revert D st. induction spaces as [|e spaces IH]; intros D st Hnd Hcol Hbody HF; simpl.
  - destruct HF as [HC HD HQ]. split; [|done|].
    + eapply core_iff; [|exact HC]. intros x k. rewrite elem_of_nil. tauto.
    + intros He s b Hs Hl. destruct (HQ He s b Hs Hl) as (H1 & H2 & H3). split_and!; [done| |].
      * intros i t [Hi|[_ Hi]]; [by apply H2|by apply elem_of_nil in Hi].
      * intros i c [Hi|[_ Hi]]; [by apply H3|by apply elem_of_nil in Hi].
  - simpl in Hnd. apply NoDup_cons in Hnd as [Hn Hnd].
    eapply wp_bind; [apply Hbody; [apply list_elem_of_here|apply Hcol, list_elem_of_here|done]|].
    intros st1 HF1. eapply wp_mono; [apply (IH (grows D scc e.1)); [done| | |done]|].
    + intros e' He'. destruct (Hcol e' (list_elem_of_further _ _ _ He')) as [Hnew Hcall].
      assert (e'.1 <> e.1) as Hk by (intros E; apply Hn; rewrite <-E; by apply list_elem_of_fmap_2).
      split; [intros i Hi [?|[_ ?]]; [by eapply Hnew|done]|].
      intros i c j Hi Hc. destruct (Hcall i c j Hi Hc); [by left|right; by left].
    + intros D' st' e' He'. apply Hbody. by apply list_elem_of_further.
    + intros st2 [HC HD HQ].
      assert (forall x k, (grows D scc e.1 x k \/ x ∈ scc /\ k ∈ spaces.*1) <->
                (D x k \/ x ∈ scc /\ k ∈ e.1 :: spaces.*1)) as E.
      { intros x k. unfold grows. rewrite elem_of_cons. tauto. }
      split; [eapply core_iff; [exact E|exact HC]|done|]. intros He s b Hs Hl. destruct (HQ He s b Hs Hl) as (H1 & H2 & H3).
      split_and!; [done|intros i t Hi; apply H2; by apply E|intros i c Hi; apply H3; by apply E].
Qed.

Lemma reach_tc i j : rtc (edge graph) i j -> i <> j -> tc (edge graph) i j.
Proof. intros H Hne. apply rtc_tc in H as [->|H]; [done|exact H]. Qed.

Lemma is_cyclic_ok scc :
  component scc ->
  exists cyclic, is_cyclic nodes index scc = Returns cyclic /\
    if (cyclic : bool) then forall x y, x ∈ scc -> y ∈ scc -> tc (edge graph) x y
    else exists n, scc = [n] /\ forall c, ~ calls n c n.
Proof.
  intros [Hne Hnd Hlt Hmut]. unfold is_cyclic. case_decide as Hl.
  - exists true. split; [done|]. intros x y Hx Hy.
    assert (exists z, z ∈ scc /\ z <> x) as (z & Hz & Hzx).
    { destruct scc as [|a [|b scc]]; simpl in Hl; [lia|lia|].
      apply NoDup_cons in Hnd as [Ha _]. destruct (decide (a = x)) as [->|].
      - exists b. split; [set_solver|]. intros ->. apply Ha. set_solver.
      - exists a. split; [set_solver|done]. }
    eapply tc_rtc_r; [apply reach_tc; [by apply (Hmut x z)|done]|]. by apply (Hmut z y).
  - destruct scc as [|n [|? ?]]; [done| |simpl in Hl; lia].
    destruct (lookup_lt_is_Some_2 _ _ (Hlt n (list_elem_of_here _ _))) as [node Hn].
    simpl. rewrite (vec_get_Some _ _ _ Hn). simpl. eexists. split; [done|].
    destruct (existsb _ _) eqn:Ex.
    + apply existsb_exists in Ex as (c & Hc & Hj). apply bool_decide_eq_true in Hj. apply list_elem_of_In in Hc.
      intros x y Hx Hy. assert (x = n) as -> by set_solver. assert (y = n) as -> by set_solver.
      apply tc_once, (calls_edge n c). by exists node.
    + exists n. split; [done|]. intros c (node' & Hn' & Hc & Hj). assert (node' = node) as -> by congruence.
      apply not_true_iff_false in Ex. apply Ex, existsb_exists. exists c.
      split; [by apply list_elem_of_In|by apply bool_decide_eq_true].
Qed.

Lemma btree_iter_elem e : e ∈ btree_iter budgets <-> budgets !! e.1 = Some e.2.
Proof.
  unfold btree_iter. rewrite merge_sort_Permutation. destruct e as [s b]. apply elem_of_map_to_list.
Qed.

Lemma btree_iter_keys : NoDup (btree_iter budgets).*1.
Proof.
  unfold btree_iter. rewrite (fmap_Permutation fst _ _ (merge_sort_Permutation key_le (map_to_list budgets))).
  apply NoDup_fst_map_to_list.
Qed.

Lemma btree_iter_spaces s : s ∈ (btree_iter budgets).*1 <-> is_Some (budgets !! s).
Proof.
  rewrite list_elem_of_fmap. split.
  - intros ([s' b] & -> & H). apply btree_iter_elem in H. eauto.
  - intros [b H]. exists (s, b). split; [done|]. by apply btree_iter_elem.
Qed.

(** The cells of the components [pre]. *)
Definition folded (pre : list (list nat)) (x : nat) (k : string) : Prop :=
  x ∈ concat pre /\ is_Some (budgets !! k).

Lemma fold_scc_ok D st scc :
  Full D st -> component scc -> (forall s, is_Some (budgets !! s) -> column D scc s) ->
  wp too_big (fold_scc nodes index budgets scc st) (Full (fun x k => D x k \/ (x ∈ scc /\ k ∈ (btree_iter budgets).*1))).
Proof.
  intros HF Hcp Hcol. unfold fold_scc. destruct (is_cyclic_ok scc Hcp) as (cyclic & -> & Hcy). cbn [outcome_bind].
  assert (forall e, e ∈ btree_iter budgets -> column D scc e.1) as Hcols.
  { intros e He. apply btree_iter_elem in He. apply Hcol. eauto. }
  destruct cyclic.
  - apply over_spaces_ok; [apply btree_iter_keys|done| |done]. intros D' st' [s b] He Hc HF'.
    apply btree_iter_elem in He. by apply cycle_space_ok.
  - destruct Hcy as (n & -> & Hself). cbn [vec_get outcome_bind lookup list_lookup].
    apply over_spaces_ok; [apply btree_iter_keys|done| |done]. intros D' st' [s b] He [Hnew Hcall] HF'.
    apply btree_iter_elem in He. cbn [fst snd] in *.
    assert (forall x k, grow D' n s x k <-> grows D' [n] s x k) as E.
    { intros x k. unfold grow, grows. rewrite list_elem_of_singleton. tauto. }
    eapply wp_mono; [apply (acyclic_space_ok D'); [done| | |done|]|].
    + apply Hcp. by apply list_elem_of_singleton.
    + apply Hnew. by apply list_elem_of_singleton.
    + intros c j Hc. destruct (Hcall n c j) as [Hj|]; [by apply list_elem_of_singleton|done| |done].
      apply list_elem_of_singleton in Hj as ->. by destruct (Hself c).
    + intros st'' [HC HD HQ]. split; [eapply core_iff; [exact E|exact HC]|done|].
      intros Hb s' b' Hs Hl. destruct (HQ Hb s' b' Hs Hl) as (H1 & H2 & H3).
      split_and!; [done|intros i t Hi; apply H2; by apply E|intros i c Hi; apply H3; by apply E].
Qed.

Lemma emitted_component pre scc post :
  emitted graph (pre ++ scc :: post) -> concat (pre ++ scc :: post) ≡ₚ seq 0 (length nodes) ->
  component scc /\ forall s, is_Some (budgets !! s) -> column (folded pre) scc s.
Proof.
  intros He Hp. assert (NoDup (concat (pre ++ scc :: post))) as Hnd by (rewrite Hp; apply NoDup_seq).
  assert ((pre ++ scc :: post) !! length pre = Some scc) as Hk by (by rewrite lookup_app_r, Nat.sub_diag).
  assert (scc <> []) as Hne.
  { clear Hk Hp. remember (pre ++ scc :: post) as comps eqn:E. revert pre post E.
    induction He as [|pre' comp He IH Hc _ _]; intros pre post E; [by destruct pre|].
    destruct post as [|c post _] using rev_ind.
    - apply app_inj_tail in E as [_ <-]. done.
    - rewrite app_comm_cons, app_assoc in E. apply app_inj_tail in E as [-> _].
      apply (IH ltac:(rewrite concat_app in Hnd; by apply NoDup_app in Hnd as (? & _ & _)) pre post). done. }
  rewrite concat_app in Hnd. simpl in Hnd. pose proof Hnd as Hnd0.
  apply NoDup_app in Hnd as (_ & Hd & Hnd). apply NoDup_app in Hnd as (Hnds & _ & _).
  assert (forall i, i ∈ scc -> (i < length nodes)%nat) as Hlt.
  { intros i Hi. assert (i ∈ seq 0 (length nodes)) as Hs by (rewrite <-Hp, concat_app; simpl; set_solver).
    apply elem_of_seq in Hs. lia. }
  split; [split; [done|done|done|]|intros s Hs; split].
  - intros i j Hi Hj. split; by eapply emitted_strong.
  - intros i Hi [Hin _]. apply (Hd i Hin). set_solver.
  - intros i c j Hi Hc. apply calls_edge in Hc.
    destruct (emitted_edge _ _ _ _ _ _ He Hk Hi Hc) as (k & ck & Hle & Hck & Hj).
    destruct (decide (k = length pre)) as [->|Hne']; [left; congruence|right]. split; [|done].
    rewrite lookup_app_l in Hck by lia. apply list_elem_of_In, in_concat. exists ck.
    split; apply list_elem_of_In; [by eapply list_elem_of_lookup_2|done].
Qed.

Lemma fold_sccs_ok pre post st :
  emitted graph (pre ++ post) -> concat (pre ++ post) ≡ₚ seq 0 (length nodes) -> Full (folded pre) st ->
  wp too_big (fold_sccs nodes index budgets post st) (Full (folded (pre ++ post))).
Proof.
  revert pre st. induction post as [|scc post IH]; intros pre st He Hp HF; simpl.
  - by rewrite app_nil_r.
  - destruct (emitted_component _ _ _ He Hp) as [Hcp Hcol].
    eapply wp_bind; [by apply (fold_scc_ok (folded pre))|]. intros st1 [HC HD HQ].
    replace (pre ++ scc :: post) with ((pre ++ [scc]) ++ post) in He, Hp |- * by by rewrite <-app_assoc.
    assert (forall x k, (folded pre x k \/ x ∈ scc /\ k ∈ (btree_iter budgets).*1) <-> folded (pre ++ [scc]) x k) as E.
    { intros x k. unfold folded. rewrite btree_iter_spaces, concat_app. simpl. rewrite app_nil_r, elem_of_app. tauto. }
    apply IH; [done|done|]. split; [eapply core_iff; [exact E|exact HC]|done|].
    intros Hb s' b' Hs Hl. destruct (HQ Hb s' b' Hs Hl) as (H1 & H2 & H3).
    split_and!; [done|intros i t Hi; apply H2; by apply E|intros i c Hi; apply H3; by apply E].
Qed.

Lemma cell_replicate {A} n i s : cell (replicate n (∅ : gmap string A)) i s = None.
Proof.
  unfold cell. destruct (replicate n ∅ !! i) as [m|] eqn:E; [|done].
  apply lookup_replicate in E as [-> _]. apply lookup_empty.
Qed.

Lemma full_init errs :
  dv_inner errs = base ->
  Full (folded []) (mkFold (replicate (length nodes) ∅) (replicate (length nodes) ∅) (replicate (length nodes) ∅) errs).
Proof.
  intros Hb. assert (forall x k, ~ folded [] x k) as HD by (intros x k [Hx _]; by apply elem_of_nil in Hx).
  split; [split; simpl|exists []; simpl; by rewrite app_nil_r|].
  - by rewrite !length_replicate.
  - intros i s Hi. by destruct (HD i s).
  - intros i s _. apply cell_replicate.
  - intros i s t Hi. by destruct (HD i s).
  - intros i s c j t u Hi. by destruct (HD i s).
  - intros _ s b _ _. simpl. split_and!.
    + intros i. by rewrite cell_replicate.
    + intros i t Hi. by destruct (HD i s).
    + intros i c Hi. by destruct (HD i s).
Qed.
End inv.

(** ** The fold as a whole *)

Lemma find_fn_elem summaries name s : find_fn summaries name = Some s -> s ∈ summaries.
Proof. intros H. apply List.find_some in H as [H _]. by apply list_elem_of_In. Qed.

Lemma node_elem summaries nodes index i s :
  foldl first_wins ([], ∅) summaries = (nodes, index) -> nodes !! i = Some s -> s ∈ summaries.
Proof.
  intros E H. destruct (index_spec _ _ _ E) as [Hok Hf].
  apply (find_fn_elem _ (fs_name s)). apply Hf. exists i. split; [|done]. apply Hok. eauto.
Qed.

Lemma fold_ok summaries budgets errs nodes index :
  foldl first_wins ([], ∅) summaries = (nodes, index) -> Forall summary_wf summaries -> budgets <> ∅ ->
  wp (too_big nodes) (fold_with_budgets summaries budgets errs) (fun errs' =>
    exists st comps, Full nodes index summaries budgets (dv_inner errs) (folded budgets comps) st /\
      concat comps ≡ₚ seq 0 (length nodes) /\
      errs' = mkDiagnostics (dv_inner (errors st)) (dv_file errs)).
Proof.
  intros E Hwf Hb. destruct (index_spec _ _ _ E) as [Hok Hf]. rewrite Forall_forall in Hwf.
  assert (forall i s, nodes !! i = Some s -> summary_wf s) as Hnwf.
  { intros i s Hi. apply Hwf. by eapply node_elem. }
  unfold fold_with_budgets. rewrite decide_False by done. rewrite E. unfold tarjan_sccs.
  destruct (tarjan_ok (map (successors index) nodes)) as (comps & -> & He & Hp).
  { intros x y. by apply graph_range. }
  rewrite length_map in Hp. cbn [outcome_bind].
  eapply wp_bind; [apply (fold_sccs_ok nodes index summaries budgets (dv_inner errs) Hok Hf Hnwf []); [done|done|]|].
  { by apply full_init. }
  intros st HF. simpl. exists st, comps. done.
Qed.

(** A finished total bounds every path of calls from its function. *)
Lemma totals_bound summaries budgets base nodes index D st s b path w f rest i t :
  foldl first_wins ([], ∅) summaries = (nodes, index) ->
  Full nodes index summaries budgets base D st -> dv_inner (errors st) = base ->
  (forall i, (i < length nodes)%nat -> D i s) -> budgets !! s = Some b -> local_ok nodes index s b ->
  (forall i j, mutual nodes index i j -> i = j) ->
  call_path summaries s path w -> path = f :: rest -> index !! f = Some i -> cell (total st) i s = Some t -> w <= t.
Proof.
  intros E [HC HD HQ] Hbase HDs Hb Hl Hmut. destruct (index_spec _ _ _ E) as [Hok Hf].
  destruct (HQ Hbase s b Hb Hl) as (_ & _ & Hcyc). intros H. revert f rest i t.
  induction H as [f sm Hs|f sm c rest w Hs Hc Hp IH]; intros f' rest' i t [= <- <-] Hi Ht.
  - apply Hf in Hs as (i' & Hi' & Hn). assert (i' = i) as -> by congruence.
    pose proof (co_self _ _ _ _ HC i s t) as Hself. unfold peak in Hself. rewrite Hn in Hself.
    apply Hself; [|done]. apply HDs. by eapply lookup_lt_Some.
  - apply Hf in Hs as (i' & Hi' & Hn). assert (i' = i) as -> by congruence.
    assert (D i s) as HDi by (apply HDs; by eapply lookup_lt_Some).
    assert (exists sm', find_fn summaries (ce_callee c) = Some sm') as (sm' & Hs').
    { inversion Hp; subst; eauto. }
    apply Hf in Hs' as (j & Hj & Hnj).
    assert (calls nodes index i c j) as Hcall by (exists sm; done).
    destruct (decide (j = i)) as [->|Hji].
    + specialize (IH _ _ i t eq_refl Hj Ht). pose proof (Hcyc i c HDi Hcall) as Hz.
      destruct (Hl i) as [_ Hll]. specialize (Hll c i Hcall). unfold live in Hll. lia.
    + destruct (co_cell _ _ _ _ HC j s) as (p & h & u & Hu & _); [apply HDs; by eapply lookup_lt_Some|].
      specialize (IH _ _ j u eq_refl Hj Hu).
      destruct (co_dom _ _ _ _ HC i s c j t u HDi Ht Hcall) as [_ Hd]; [intros Hm; by apply Hji; symmetry; apply Hmut|].
      specialize (Hd Hu). unfold live in Hd. lia.
Qed.

Lemma mutual_names summaries nodes index i j :
  foldl first_wins ([], ∅) summaries = (nodes, index) ->
  rtc (edge (map (successors index) nodes)) i j -> rtc (fn_calls summaries) (name_at nodes i) (name_at nodes j).
Proof.
  intros E H. destruct (index_spec _ _ _ E) as [Hok Hf].
  induction H as [|i k j H _ IH]; [done|]. eapply rtc_l; [|exact IH]. by apply (edge_fn_calls nodes index).
Qed.

(** ** Properties *)

(** C6. The components are exactly the classes of functions that call each
    other, directly or not; every function is in one of them, once; and a
    component is emitted after every component it calls into.  The search never
    indexes out of range and never pops an empty stack. *)
Theorem tarjan_sccs_correct summaries :
  let '(nodes, index) := foldl first_wins ([], ∅) summaries in
  let calls := edge (map (successors index) nodes) in
  exists comps, tarjan_sccs nodes index = Returns comps /\
    concat comps ≡ₚ seq 0 (length nodes) /\
    (forall k ck x y, comps !! k = Some ck -> x ∈ ck -> y ∈ ck <-> rtc calls x y /\ rtc calls y x) /\
    (forall j k cj ck x y, comps !! j = Some cj -> comps !! k = Some ck ->
       x ∈ ck -> y ∈ cj -> calls x y -> (j <= k)%nat).
Proof.
  destruct (foldl first_wins ([], ∅) summaries) as [nodes index] eqn:E.
  destruct (index_spec _ _ _ E) as [Hok _].
  destruct (tarjan_ok (map (successors index) nodes)) as (comps & Hc & He & Hp).
  { intros x y. by apply graph_range. }
  rewrite length_map in Hp. assert (NoDup (concat comps)) as Hnd by (rewrite Hp; apply NoDup_seq).
  exists comps. split_and!; [done|done| |].
  - intros k ck x y. by apply emitted_exact.
  - intros j k cj ck x y Hj Hk. by apply (emitted_order _ comps).
Qed.

(** C5. When the sizes fit in 64 bits the fold returns: it never indexes out of
    range, the walk along the peak path ends, and no sum overflows.  The
    caller's file is restored, the earlier diagnostics are kept, and every
    diagnostic added is true: a reported path is a chain of calls whose held
    bytes and last peak add up to the reported sum, which exceeds the capacity,
    and a reported cycle is a set of functions that all call each other, one of
    which places the reported bytes.  [overcommit] spaces only warn. *)
Theorem fold_reports_truth summaries budgets errs :
  Forall summary_wf summaries -> (forall s, all_bytes s summaries <= umax 64) ->
  exists new, fold_with_budgets summaries budgets errs
              = Returns (mkDiagnostics (dv_inner errs ++ new) (dv_file errs)) /\
    Forall (diagnostic_true summaries budgets) new.
Proof.
  intros Hwf Hfit. destruct (decide (budgets = ∅)) as [Hb|Hb].
  { exists []. unfold fold_with_budgets. rewrite decide_True by done. rewrite app_nil_r. by destruct errs. }
  destruct (foldl first_wins ([], ∅) summaries) as [nodes index] eqn:E.
  pose proof (fold_ok summaries budgets errs nodes index E Hwf Hb) as H.
  destruct (fold_with_budgets summaries budgets errs) as [errs'|]; simpl in H.
  - destruct H as (st & comps & [_ (new & En & Hn) _] & _ & ->). exists new. by rewrite En.
  - destruct H as [s Hs]. pose proof (nodes_bytes summaries ([], ∅) s Hwf) as Hle.
    rewrite E in Hle. simpl in Hle. specialize (Hfit s). lia.
Qed.

(** C4. A program the fold accepts stays within its budgets: when no two
    functions are mutually recursive, every function's own peak fits and covers
    what it holds across its calls, and the fold adds no diagnostic, then along
    every chain of calls, self-recursion included, the resident bytes fit the
    capacity. *)
Theorem fold_sound summaries budgets errs errs' s b path w :
  Forall summary_wf summaries -> budgets !! s = Some b -> 0 <= sb_cap b ->
  (forall sm, sm ∈ summaries -> get0 (fs_self_peak sm) s <= sb_cap b /\
     forall c, c ∈ fs_calls sm -> get0 (ce_live c) s <= get0 (fs_self_peak sm) s) ->
  (forall f g, rtc (fn_calls summaries) f g -> rtc (fn_calls summaries) g f -> f = g) ->
  fold_with_budgets summaries budgets errs = Returns errs' -> dv_inner errs' = dv_inner errs ->
  call_path summaries s path w -> w <= sb_cap b.
Proof.
  intros Hwf Hb Hcap Hloc Hmut Hfold Hquiet Hpath.
  destruct (foldl first_wins ([], ∅) summaries) as [nodes index] eqn:E.
  destruct (index_spec _ _ _ E) as [Hok Hf].
  assert (budgets <> ∅) as Hbe by (intros ->; by rewrite lookup_empty in Hb).
  pose proof (fold_ok summaries budgets errs nodes index E Hwf Hbe) as H. rewrite Hfold in H. simpl in H.
  destruct H as (st & comps & HF & Hp & ->). simpl in Hquiet.
  assert (forall i, (i < length nodes)%nat -> folded budgets comps i s) as HD.
  { intros i Hi. split; [rewrite Hp; apply elem_of_seq; lia|eauto]. }
  assert (local_ok nodes index s b) as Hl.
  { intros i. unfold peak. split.
    - destruct (nodes !! i) as [sm|] eqn:Hi; [|done]. apply Hloc. by eapply node_elem.
    - intros c j (sm & Hi & Hc & _). rewrite Hi. apply (Hloc sm); [by eapply node_elem|done]. }
  assert (exists f rest sm, path = f :: rest /\ find_fn summaries f = Some sm) as (f & rest & sm & -> & Hs).
  { inversion Hpath; subst; eauto. }
  apply Hf in Hs as (i & Hi & Hn). apply lookup_lt_Some in Hn as Hlt.
  destruct (co_cell _ _ _ _ (fu_core _ _ _ _ _ _ _ HF) i s (HD i Hlt)) as (_ & _ & t & Ht & _).
  transitivity t.
  - eapply totals_bound; try done. intros x y [Hxy Hyx].
    assert (name_at nodes x = name_at nodes y) as En.
    { apply Hmut; by eapply mutual_names. }
    destruct Hxy as [x|x z y Hxz Hzy]; [done|].
    apply (edge_calls nodes index) in Hxz as (c & nx & Hx & _).
    destruct Hyx as [|y y' x Hyy' _]; [done|]. apply (edge_calls nodes index) in Hyy' as (c' & ny & Hy & _).
    unfold name_at in En. rewrite Hx, Hy in En.
    assert (index !! fs_name nx = Some x) as H1 by (apply Hok; eauto).
    assert (index !! fs_name ny = Some y) as H2 by (apply Hok; eauto). congruence.
  - destruct (fu_quiet _ _ _ _ _ _ _ HF Hquiet s b Hb Hl) as (_ & H2 & _). exact (H2 i t (HD i Hlt) Ht).
Qed.

(** ** Examples *)

Definition demo_summary (name : string) (peaks : list (string * Z)) (cs : list (string * list (string * Z)))
    : FnCapacitySummary :=
  mkSummary name None (list_to_map peaks)
    (map (fun c => mkCallEdge c.1 (list_to_map c.2) Span_default) cs).

Definition demo_budgets : gmap string SpaceBudget := {["W"%string := mkBudget 4 false]}.
Definition no_diagnostics : DiagnosticsVec := mkDiagnostics [] None.

(** [main] holds 1 byte across [f], which calls itself and [g]. *)
Definition demo_fits : list FnCapacitySummary :=
  [demo_summary "main" [("W", 1)] [("f", [("W", 1)])];
   demo_summary "f" [] [("f", []); ("g", [])];
   demo_summary "g" [("W", 3)] []]%string.

(** [main] holds 2 bytes across [f], which holds 2 across [g]. *)
Definition demo_over : list FnCapacitySummary :=
  [demo_summary "main" [("W", 2)] [("f", [("W", 2)])];
   demo_summary "f" [("W", 2)] [("g", [("W", 2)])];
   demo_summary "g" [("W", 1)] []]%string.

(** The same shape as [demo_fits] with 2 bytes held, but the recursion goes
    through two functions, and the second one makes the call. *)
Definition demo_hidden : list FnCapacitySummary :=
  [demo_summary "main" [("W", 2)] [("a", [("W", 2)])];
   demo_summary "a" [] [("b", [])];
   demo_summary "b" [] [("a", []); ("g", [])];
   demo_summary "g" [("W", 3)] []]%string.

(** Mutual recursion hides residency: a member of a clean cycle is charged only
    for its own calls out of the cycle, not for what the rest of the cycle
    reaches, so the path [main -> a -> b -> g] is accepted although it keeps 5
    bytes in a space of 4. *)
Lemma mutual_recursion_hides_residency :
  fold_with_budgets demo_hidden demo_budgets no_diagnostics = Returns no_diagnostics /\
  call_path demo_hidden "W" ["main"; "a"; "b"; "g"]%string 5.
Proof.
  split; [vm_compute; reflexivity|].
  refine (path_call demo_hidden "W" "main" _ (mkCallEdge "a" (list_to_map [("W", 2)]) Span_default)
            ["b"; "g"] 3 eq_refl _ _)%string; [by left|].
  refine (path_call demo_hidden "W" "a" _ (mkCallEdge "b" (list_to_map []) Span_default)
            ["g"] 3 eq_refl _ _)%string; [by left|].
  refine (path_call demo_hidden "W" "b" _ (mkCallEdge "g" (list_to_map []) Span_default)
            [] 3 eq_refl _ _)%string; [by right; left|].
  exact (path_end demo_hidden "W" "g" (demo_summary "g" [("W", 3)] []) eq_refl)%string.
Qed.

(** In [demo_fits] the only recursion is the self-call of [f]. *)
Definition demo_rank (f : string) : nat :=
  if decide (f = "main")%string then 0 else if decide (f = "f")%string then 1 else 2.

Lemma demo_fits_order f g : fn_calls demo_fits f g -> f = g \/ (demo_rank f < demo_rank g)%nat.
Proof.
  intros (s & c & Hs & Hc & <- & _). unfold find_fn, demo_fits in Hs. simpl in Hs.
  repeat case_bool_decide; simplify_eq; simpl in Hc;
    repeat (apply elem_of_cons in Hc as [->|Hc]); try (by apply elem_of_nil in Hc); simpl; auto;
    right; vm_compute; lia.
Qed.

Lemma demo_fits_rtc f g : rtc (fn_calls demo_fits) f g -> f = g \/ (demo_rank f < demo_rank g)%nat.
Proof.
  induction 1 as [|f h g Hfh _ IH]; [by left|].
  destruct (demo_fits_order _ _ Hfh) as [->|]; [done|]. destruct IH as [->|]; [by right|right; lia].
Qed.

Lemma get0_singleton (k : string) v s : 0 <= v -> 0 <= get0 (list_to_map [(k, v)]) s <= v.
Proof.
  intros Hv. unfold get0. simpl. destruct (decide (s = k)) as [->|].
  - rewrite lookup_insert_eq. simpl. lia.
  - rewrite lookup_insert_ne, lookup_empty by done. simpl. lia.
Qed.

Lemma get0_nonneg (l : list (string * Z)) s :
  forallb (fun e => 0 <=? e.2) l = true -> 0 <= get0 (list_to_map l) s.
Proof.
  intros H. unfold get0. destruct (list_to_map l !! s) as [v|] eqn:E; simpl; [|lia].
  apply elem_of_list_to_map_2, list_elem_of_In in E.
  rewrite forallb_forall in H. specialize (H _ E). simpl in H. lia.
Qed.

Lemma demo_wf name peaks cs :
  forallb (fun e => 0 <=? e.2) peaks && forallb (fun c => forallb (fun e => 0 <=? e.2) c.2) cs = true ->
  summary_wf (demo_summary name peaks cs).
Proof.
  intros [Hp Hc]%andb_true_iff s. split; [by apply get0_nonneg|]. simpl. intros c H.
  apply list_elem_of_fmap in H as (c' & -> & H). simpl. apply get0_nonneg.
  rewrite forallb_forall in Hc. by apply Hc, list_elem_of_In.
Qed.

Lemma fold_reports_truth_witness :
  exists new, fold_with_budgets demo_over demo_budgets no_diagnostics = Returns (mkDiagnostics new None) /\
    Forall (diagnostic_true demo_over demo_budgets) new.
Proof.
  destruct (fold_reports_truth demo_over demo_budgets no_diagnostics) as (new & E & H).
  - repeat constructor; by apply demo_wf.
  - intros s. unfold all_bytes, summary_bytes. cbn [foldr demo_over demo_summary fs_self_peak fs_calls map ce_live fst snd].
    pose proof (get0_singleton "W" 2 s ltac:(lia)). pose proof (get0_singleton "W" 1 s ltac:(lia)).
    unfold umax. lia.
  - exists new. split; [exact E|exact H].
Defined.

Lemma local_check (summaries : list FnCapacitySummary) s cap :
  forallb (fun sm => (get0 (fs_self_peak sm) s <=? cap) &&
    forallb (fun c => get0 (ce_live c) s <=? get0 (fs_self_peak sm) s) (fs_calls sm)) summaries = true ->
  forall sm, sm ∈ summaries -> get0 (fs_self_peak sm) s <= cap /\
    forall c, c ∈ fs_calls sm -> get0 (ce_live c) s <= get0 (fs_self_peak sm) s.
Proof.
  rewrite forallb_forall. intros H sm Hsm. apply list_elem_of_In, H in Hsm as [Hp Hc]%andb_true_iff.
  rewrite forallb_forall in Hc. split; [lia|]. intros c Hin. apply list_elem_of_In, Hc in Hin. lia.
Qed.

Lemma fold_sound_witness :
  fold_with_budgets demo_fits demo_budgets no_diagnostics = Returns no_diagnostics /\
  call_path demo_fits "W" ["main"; "f"; "f"; "g"]%string 4 /\ 4 <= 4.
Proof.
  assert (fold_with_budgets demo_fits demo_budgets no_diagnostics = Returns no_diagnostics) as E
    by (vm_compute; reflexivity).
  assert (call_path demo_fits "W" ["main"; "f"; "f"; "g"]%string 4) as Hp.
  { refine (path_call demo_fits "W" "main" _ (mkCallEdge "f" (list_to_map [("W", 1)]) Span_default)
              ["f"; "g"] 3 eq_refl _ _)%string; [by left|].
    refine (path_call demo_fits "W" "f" _ (mkCallEdge "f" (list_to_map []) Span_default)
              ["g"] 3 eq_refl _ _)%string; [by left|].
    refine (path_call demo_fits "W" "f" _ (mkCallEdge "g" (list_to_map []) Span_default)
              [] 3 eq_refl _ _)%string; [by right; left|].
    exact (path_end demo_fits "W" "g" (demo_summary "g" [("W", 3)] []) eq_refl)%string. }
  split; [exact E|split; [exact Hp|]].
  apply (fold_sound demo_fits demo_budgets no_diagnostics no_diagnostics "W" (mkBudget 4 false)
           ["main"; "f"; "f"; "g"]%string 4).
  - repeat constructor; by apply demo_wf.
  - reflexivity.
  - simpl. lia.
  - apply local_check. vm_compute. reflexivity.
  - intros f g Hfg Hgf. destruct (demo_fits_rtc _ _ Hfg); [done|]. destruct (demo_fits_rtc _ _ Hgf); [done|lia].
  - exact E.
  - reflexivity.
  - exact Hp.
Defined.
