(* ===== verification/Types.v ===== *)
(** * Equality of types ([src/src/syntax/types.rs])

    The derived [PartialEq] of [Type] over the hand-written ones of [Topology]
    and [Placement], an induction principle that reaches the types inside lists
    and export maps, and the proof that the equality is an equivalence. *)

From stdpp Require Import base list strings gmap.
From Stdlib Require Import ZArith Lia.
From S2P Require Import Prelude Gid Syntax.
Open Scope Z_scope.

#[export] Existing Instance Gid.TypeId_eq_dec.

(** ** Definitions *)

(** [PartialEq for Placement]: which half was written is not part of it. *)
Definition Placement_eqb (a b : Placement) : bool :=
  Topology_eqb (pl_topology a) (pl_topology b) && bool_decide (pl_space a = pl_space b) &&
  bool_decide (pl_alignment a = pl_alignment b).

(** Derived equality of an [Option] and of a [Vec]. *)
Definition option_eqb {A} (eqb : A -> A -> bool) (a b : option A) : bool :=
  match a, b with
  | Some a, Some b => eqb a b
  | None, None => true
  | _, _ => false
  end.

Definition list_eqb {A} (eqb : A -> A -> bool) : list A -> list A -> bool :=
  fix go (l k : list A) : bool :=
    match l, k with
    | [], [] => true
    | a :: l, b :: k => eqb a b && go l k
    | _, _ => false
    end.

#[export] Instance Dim_eq_dec : EqDecision Dim.
Proof. solve_decision. Defined.

(** A lookup in an association list. *)
Fixpoint assoc {A} (k : Symbol) (l : list (Symbol * A)) : option A :=
  match l with
  | [] => None
  | (n, a) :: l => if decide (n = k) then Some a else assoc k l
  end.

(** The derived [PartialEq for Type].  Export maps are equal when they have as
    many entries and each entry of the first is in the second. *)
Fixpoint Ty_eqb (a b : Ty) {struct a} : bool :=
  match a, b with
  | Tensor e d p, Tensor e' d' p' =>
      bool_decide (e = e') && bool_decide (d = d') && option_eqb Placement_eqb p p'
  | Matrix, Matrix => true
  | Ref i m, Ref i' m' => Ty_eqb i i' && bool_decide (m = m')
  | BorrowTy i m u r, BorrowTy i' m' u' r' =>
      Ty_eqb i i' && bool_decide (m = m') && bool_decide (u = u') && bool_decide (r = r')
  | Pointer i p u, Pointer i' p' u' =>
      Ty_eqb i i' && option_eqb Placement_eqb p p' && bool_decide (u = u')
  | Scalar e, Scalar e' => bool_decide (e = e')
  | Struct n id, Struct n' id' | Enum n id, Enum n' id' | Generic n id, Generic n' id' =>
      bool_decide (n = n') && bool_decide (id = id')
  | Verified i, Verified i' => Ty_eqb i i'
  | Pinned i t, Pinned i' t' => Ty_eqb i i' && Topology_eqb t t'
  | GenericInstance i l, GenericInstance i' l' => Ty_eqb i i' && list_eqb Ty_eqb l l'
  | Module_ n l, Module_ n' l' =>
      bool_decide (n = n') && bool_decide (length l = length l') &&
      forallb (fun e => match assoc e.1 l' with Some t => Ty_eqb e.2 t | None => false end) l
  | Simd e n, Simd e' n' => bool_decide (e = e') && bool_decide (n = n')
  | Function_ l r u, Function_ l' r' u' =>
      list_eqb Ty_eqb l l' && Ty_eqb r r' && bool_decide (u = u')
  | Closure l r, Closure l' r' => list_eqb Ty_eqb l l' && Ty_eqb r r'
  | Const_ e, Const_ e' => bool_decide (e = e')
  | Unknown, Unknown => true
  | _, _ => false
  end.

(** The export maps inside a type have distinct keys, as maps do. *)
Fixpoint maps_distinct (t : Ty) : Prop :=
  match t with
  | Ref i _ | BorrowTy i _ _ _ | Pointer i _ _ | Verified i | Pinned i _ => maps_distinct i
  | GenericInstance i l => maps_distinct i /\ foldr (fun t P => maps_distinct t /\ P) True l
  | Module_ _ l => NoDup l.*1 /\ foldr (fun e P => maps_distinct e.2 /\ P) True l
  | Function_ l r _ | Closure l r => foldr (fun t P => maps_distinct t /\ P) True l /\ maps_distinct r
  | _ => True
  end.

(** ** Induction over nested types *)

Section ty_ind.
Context (P : Ty -> Prop).
Context (Htensor : forall e d p, P (Tensor e d p)) (Hmatrix : P Matrix)
  (Href : forall i m, P i -> P (Ref i m)) (Hborrow : forall i m u r, P i -> P (BorrowTy i m u r))
  (Hpointer : forall i p u, P i -> P (Pointer i p u)) (Hscalar : forall e, P (Scalar e))
  (Hstruct : forall n id, P (Struct n id)) (Henum : forall n id, P (Enum n id))
  (Hverified : forall i, P i -> P (Verified i)) (Hpinned : forall i t, P i -> P (Pinned i t))
  (Hgeneric : forall n id, P (Generic n id))
  (Hinstance : forall i l, P i -> Forall P l -> P (GenericInstance i l))
  (Hmodule : forall n l, Forall (fun e => P e.2) l -> P (Module_ n l))
  (Hsimd : forall e n, P (Simd e n))
  (Hfunction : forall l r u, Forall P l -> P r -> P (Function_ l r u))
  (Hclosure : forall l r, Forall P l -> P r -> P (Closure l r))
  (Hconst : forall e, P (Const_ e)) (Hunknown : P Unknown).

Fixpoint Ty_nested_ind (t : Ty) : P t :=
  let all := fix all (l : list Ty) : Forall P l :=
    match l with
    | [] => List.Forall_nil P
    | t :: l => List.Forall_cons P t l (Ty_nested_ind t) (all l)
    end in
  match t with
  | Tensor e d p => Htensor e d p
  | Matrix => Hmatrix
  | Ref i m => Href i m (Ty_nested_ind i)
  | BorrowTy i m u r => Hborrow i m u r (Ty_nested_ind i)
  | Pointer i p u => Hpointer i p u (Ty_nested_ind i)
  | Scalar e => Hscalar e
  | Struct n id => Hstruct n id
  | Enum n id => Henum n id
  | Verified i => Hverified i (Ty_nested_ind i)
  | Pinned i t => Hpinned i t (Ty_nested_ind i)
  | Generic n id => Hgeneric n id
  | GenericInstance i l => Hinstance i l (Ty_nested_ind i) (all l)
  | Module_ n l =>
      Hmodule n l
        ((fix alls (l : list (Symbol * Ty)) : Forall (fun e => P e.2) l :=
            match l with
            | [] => List.Forall_nil _
            | e :: l => List.Forall_cons _ e l (Ty_nested_ind e.2) (alls l)
            end) l)
  | Simd e n => Hsimd e n
  | Function_ l r u => Hfunction l r u (all l) (Ty_nested_ind r)
  | Closure l r => Hclosure l r (all l) (Ty_nested_ind r)
  | Const_ e => Hconst e
  | Unknown => Hunknown
  end.
End ty_ind.

(** ** The equality is an equivalence *)

Create HintDb vx_eqb.

Lemma foldr_and_Forall {A} (P : A -> Prop) (l : list A) :
  foldr (fun a Q => P a /\ Q) True l <-> Forall P l.
Proof. induction l; simpl; rewrite ?Forall_cons; naive_solver. Qed.

Lemma option_eqb_refl {A} (eqb : A -> A -> bool) (a : option A) :
  (forall x, eqb x x = true) -> option_eqb eqb a a = true.
Proof. by destruct a; simpl. Qed.

Lemma option_eqb_sym {A} (eqb : A -> A -> bool) (a b : option A) :
  (forall x y, eqb x y = eqb y x) -> option_eqb eqb a b = option_eqb eqb b a.
Proof. by destruct a, b; simpl. Qed.

Lemma option_eqb_trans {A} (eqb : A -> A -> bool) (a b c : option A) :
  (forall x y z, eqb x y = true -> eqb y z = true -> eqb x z = true) ->
  option_eqb eqb a b = true -> option_eqb eqb b c = true -> option_eqb eqb a c = true.
Proof. destruct a, b, c; simpl; naive_solver. Qed.

Lemma bool_decide_sym {A} `{EqDecision A} (a b : A) : bool_decide (a = b) = bool_decide (b = a).
Proof. apply bool_decide_ext. naive_solver. Qed.

Lemma Placement_eqb_refl a : Placement_eqb a a = true.
Proof. unfold Placement_eqb. by rewrite Topology_eqb_refl, !bool_decide_true. Qed.

Lemma Placement_eqb_sym a b : Placement_eqb a b = Placement_eqb b a.
Proof.
  unfold Placement_eqb. by rewrite Topology_eqb_sym, (bool_decide_sym (pl_space a)),
    (bool_decide_sym (pl_alignment a)).
Qed.

Lemma list_eqb_Forall2 {A} (eqb : A -> A -> bool) (l k : list A) :
  list_eqb eqb l k = true <-> Forall2 (fun a b => eqb a b = true) l k.
Proof.
  revert k. induction l as [|a l IH]; intros [|b k]; simpl; split; try done.
  - inversion 1.
  - inversion 1.
  - intros [Hab Hlk]%andb_true_iff. constructor; [done|]. by apply IH.
  - inversion 1; subst. apply andb_true_iff. split; [done|]. by apply IH.
Qed.

Lemma Topology_eqb_trans t u v :
  Topology_eqb t u = true -> Topology_eqb u v = true -> Topology_eqb t v = true.
Proof. apply topology_eq_equivalence. Qed.

Lemma Placement_eqb_trans a b c :
  Placement_eqb a b = true -> Placement_eqb b c = true -> Placement_eqb a c = true.
Proof.
  unfold Placement_eqb. rewrite !andb_true_iff, !bool_decide_eq_true.
  intros [[H1 ->] ->] [[H2 ->] ->]. eauto using Topology_eqb_trans.
Qed.

Lemma assoc_Some_in {A} k (l : list (Symbol * A)) a : assoc k l = Some a -> (k, a) ∈ l.
Proof.
  induction l as [|[n b] l IH]; simpl; [done|]. case_decide as Hn.
  - intros [= <-]. subst. apply list_elem_of_here.
  - intros H. apply list_elem_of_further. auto.
Qed.

Lemma assoc_in {A} k (l : list (Symbol * A)) a : NoDup l.*1 -> (k, a) ∈ l -> assoc k l = Some a.
Proof.
  induction l as [|[n b] l IH]; simpl; [by intros _ ?%elem_of_nil|].
  rewrite NoDup_cons. intros [Hn Hl] [[= -> ->]|Hin]%elem_of_cons; [by rewrite decide_True|].
  rewrite decide_False; [auto|]. intros ->. apply Hn. by apply (list_elem_of_fmap_2 fst _ (k, a)).
Qed.

Lemma assoc_None {A} k (l : list (Symbol * A)) : assoc k l = None <-> k ∉ l.*1.
Proof.
  induction l as [|[n b] l IH]; simpl; [split; [by intros _ ?%elem_of_nil|done]|].
  rewrite not_elem_of_cons. case_decide; [naive_solver|]. rewrite IH. naive_solver.
Qed.

(** Boolean conjunctions become propositions. *)
Ltac eqb_split := rewrite ?andb_true_iff, ?bool_decide_eq_true in *.

Lemma Ty_eqb_refl t : maps_distinct t -> Ty_eqb t t = true.
Proof.
  induction t as [| | | | | | | | | | |i l IHi IHl|n l IHl| |l r u IHl IHr|l r IHl IHr| |] using Ty_nested_ind;
    simpl; intros Hd; eqb_split; split_and?; auto using Topology_eqb_refl, option_eqb_refl, Placement_eqb_refl.
  - tauto.
  - apply list_eqb_Forall2, Forall_Forall2_diag. destruct Hd as [_ Hd%foldr_and_Forall].
    rewrite Forall_forall in *. auto.
  - destruct Hd as [Hnd Hd%foldr_and_Forall]. apply forallb_forall. intros [k t] Hin%list_elem_of_In.
    simpl. rewrite (assoc_in k l t) by done. rewrite Forall_forall in *. by apply (IHl _ Hin), (Hd _ Hin).
  - apply list_eqb_Forall2, Forall_Forall2_diag. destruct Hd as [Hd%foldr_and_Forall _].
    rewrite Forall_forall in *. auto.
  - tauto.
  - apply list_eqb_Forall2, Forall_Forall2_diag. destruct Hd as [Hd%foldr_and_Forall _].
    rewrite Forall_forall in *. auto.
  - tauto.
Qed.

Lemma list_eqb_trans {A} (eqb : A -> A -> bool) (l k j : list A) :
  Forall (fun a => forall b c, eqb a b = true -> eqb b c = true -> eqb a c = true) l ->
  list_eqb eqb l k = true -> list_eqb eqb k j = true -> list_eqb eqb l j = true.
Proof.
  intros Hl. revert k j. induction Hl as [|a l Ha Hl IH]; intros [|b k] [|c j]; simpl; try done.
  rewrite !andb_true_iff. intros [] []. split; eauto.
Qed.

(** The module case of transitivity. *)
Lemma exports_trans (l l' l'' : list (Symbol * Ty)) :
  Forall (fun e => forall b c, Ty_eqb e.2 b = true -> Ty_eqb b c = true -> Ty_eqb e.2 c = true) l ->
  forallb (fun e => match assoc e.1 l' with Some t => Ty_eqb e.2 t | None => false end) l = true ->
  forallb (fun e => match assoc e.1 l'' with Some t => Ty_eqb e.2 t | None => false end) l' = true ->
  forallb (fun e => match assoc e.1 l'' with Some t => Ty_eqb e.2 t | None => false end) l = true.
Proof.
  rewrite !forallb_forall, Forall_forall. intros IH H1 H2 [k v] Hin. simpl.
  specialize (H1 _ Hin). simpl in H1. destruct (assoc k l') as [t|] eqn:E; [|done].
  specialize (H2 (k, t)). simpl in H2. destruct (assoc k l'') as [w|].
  - apply (IH (k, v)) with t; [by apply list_elem_of_In|done|].
    by apply H2, list_elem_of_In, assoc_Some_in.
  - by apply H2, list_elem_of_In, assoc_Some_in.
Qed.

Lemma Ty_eqb_trans t u v : Ty_eqb t u = true -> Ty_eqb u v = true -> Ty_eqb t v = true.
Proof.
  revert u v.
  induction t as [| | | | | | | | | | |i l IHi IHl|n l IHl| |l r u0 IHl IHr|l r IHl IHr| |] using Ty_nested_ind;
    intros [] [] H1 H2; simpl in *; try done; eqb_split; destruct_and?; subst; split_and?;
    eauto using Topology_eqb_trans, option_eqb_trans, Placement_eqb_trans, list_eqb_trans, exports_trans;
    try congruence.
Qed.

Lemma list_eqb_sym_when {A} (eqb : A -> A -> bool) (ok : A -> Prop) (l k : list A) :
  Forall (fun a => forall b, ok a -> ok b -> eqb a b = true -> eqb b a = true) l ->
  Forall ok l -> Forall ok k -> list_eqb eqb l k = true -> list_eqb eqb k l = true.
Proof.
  intros Hl. revert k. induction Hl as [|a l Ha Hl IH]; intros [|b k]; simpl; try done.
  rewrite !Forall_cons, !andb_true_iff. intros [] [] []. split; eauto.
Qed.

(** The module case of symmetry: the keys of equally long maps, one inside the
    other, are the same. *)
Lemma exports_sym (l k : list (Symbol * Ty)) :
  Forall (fun e => forall b, maps_distinct e.2 -> maps_distinct b -> Ty_eqb e.2 b = true -> Ty_eqb b e.2 = true) l ->
  NoDup l.*1 -> NoDup k.*1 -> Forall (fun e => maps_distinct e.2) l -> Forall (fun e => maps_distinct e.2) k ->
  length l = length k ->
  forallb (fun e => match assoc e.1 k with Some t => Ty_eqb e.2 t | None => false end) l = true ->
  forallb (fun e => match assoc e.1 l with Some t => Ty_eqb e.2 t | None => false end) k = true.
Proof.
  rewrite !forallb_forall, !Forall_forall. intros IH Hl Hk Hdl Hdk Hlen H [n v] Hin. simpl.
  assert (l.*1 ≡ₚ k.*1) as Hperm.
  { apply submseteq_length_Permutation; [|by rewrite !length_fmap, Hlen].
    apply NoDup_submseteq; [done|]. intros a ([a' t] & -> & Ha)%list_elem_of_fmap.
    specialize (H (a', t)). simpl in *. apply list_elem_of_In in Ha. specialize (H Ha).
    destruct (assoc a' k) eqn:E; [|done]. apply assoc_Some_in in E.
    by apply (list_elem_of_fmap_2 fst _ _ E). }
  destruct (assoc n l) as [t|] eqn:E.
  - apply assoc_Some_in in E. apply list_elem_of_In in Hin.
    apply (IH (n, t) E); [by apply (Hdl (n, t))|by apply (Hdk (n, v))|].
    specialize (H (n, t) (proj1 (list_elem_of_In _ _) E)). simpl in H.
    by rewrite (assoc_in n k v) in H.
  - apply assoc_None in E. exfalso. apply E. rewrite Hperm. apply list_elem_of_In in Hin.
    by apply (list_elem_of_fmap_2 fst _ _ Hin).
Qed.

Lemma Ty_eqb_sym t u : maps_distinct t -> maps_distinct u -> Ty_eqb t u = true -> Ty_eqb u t = true.
Proof.
  revert u.
  induction t as [| | | | | | | | | | |i l IHi IHl|n l IHl| |l r u0 IHl IHr|l r IHl IHr| |] using Ty_nested_ind;
    intros [] Hd1 Hd2 H; simpl in *; try done; rewrite ?foldr_and_Forall in *; eqb_split; destruct_and?;
    subst; split_and?; rewrite 1?Topology_eqb_sym, 1?(option_eqb_sym _ _ _ Placement_eqb_sym);
    eauto using list_eqb_sym_when, exports_sym.
Qed.
