(* ===== verification/Program.v ===== *)
(** * The syntax of function bodies ([src/src/syntax/expr.rs], [stmt.rs])

    Expressions and statements with the source's constructors.  A field that no
    modelled function reads is left out; equality of expressions compares the
    fields that are kept, the positions included.  The traversals of the source
    ([visit_expr], [visit_exprs]) are lists in the order of the visits. *)

From stdpp Require Import base list strings gmap.
From Stdlib Require Import ZArith Lia.
From S2P Require Import Prelude Gid Syntax Types.
Open Scope Z_scope.

Inductive RelationalOp : Type := REq | RNotEq | RLt | RGt | RLe | RGe.
#[export] Instance RelationalOp_eq_dec : EqDecision RelationalOp.
Proof. solve_decision. Defined.

Inductive LogicalOp : Type := LAnd | LOr.
#[export] Instance LogicalOp_eq_dec : EqDecision LogicalOp.
Proof. solve_decision. Defined.

(** A literal of a pattern is not inspected. *)
Inductive Pattern : Type :=
| PWildcard
| PLiteral
| PIdentifier (name : Symbol)
| PEnumVariant (enum_name variant_name : Symbol) (payload : option (list Pattern)).

Inductive PExpr : Type :=
| EIdentifier (name : Symbol) (span : Span)
| EEnumVariant (enum_name variant_name : Symbol) (payload : option (list PExpr)) (span : Span)
| ENumber (value : Symbol) (ty : option ElementType) (span : Span)
| EStringLiteral (value : Symbol) (span : Span)
| ETransfer (expr : PExpr) (span : Span)
| ETransferPredicate (span : Span)
| EFunctionCall (name : Symbol) (args : list PExpr) (span : Span)
| EIndirectCall (callee : PExpr) (args : list PExpr) (span : Span)
| EArray (elements : list PExpr) (span : Span)
| EMemberAccess (base : PExpr) (member : Symbol) (span : Span)
| EIndexAccess (base index : PExpr) (span : Span)
| EMethodCall (base : PExpr) (method_name : Symbol) (args : list PExpr) (span : Span)
| EBinaryOp (lhs : PExpr) (op : BinaryOp) (rhs : PExpr) (span : Span) (operand_ty : option ElementType)
| ERelationalOp (lhs : PExpr) (op : RelationalOp) (rhs : PExpr) (span : Span) (operand_ty : option ElementType)
| ELogicalOp (lhs : PExpr) (op : LogicalOp) (rhs : PExpr) (span : Span)
| EUnaryOp (op : UnaryOp) (expr : PExpr) (span : Span)
| EBorrow (expr : PExpr) (is_mut : bool) (span : Span)
| EDereference (expr : PExpr) (span : Span)
| EUnsafeBlock (stmts : list PStmt) (ret : option PExpr) (is_task : bool) (span : Span)
| EComptimeBlock (stmts : list PStmt) (ret : option PExpr) (span : Span)
| EStructInit (name : Symbol) (fields : list (Symbol * PExpr)) (span : Span)
| EMemorySpace (space : MemorySpace) (span : Span)
| ETopology (top : Topology) (span : Span)
| EIf (cond : PExpr) (then_block : list PStmt) (else_block : option (list PStmt)) (span : Span)
| ERange (start end_ : PExpr) (span : Span)
| EMatch (expr : PExpr) (arms : list (Pattern * list PStmt)) (span : Span)
| EGrad (target_fn : Symbol) (args : list PExpr) (span : Span)
| EVjp (target_fn : Symbol) (args : list PExpr) (cotangent : PExpr) (span : Span)
| EJvp (target_fn : Symbol) (args : list PExpr) (tangent : PExpr) (span : Span)
| ESpawnOn (stmts : list PStmt) (ret : option PExpr) (span : Span)
| ETaskBlock (stmts : list PStmt) (ret : option PExpr) (span : Span)
| EVecMacro (elements : list PExpr) (span : Span)
| EClosure (body : PExpr) (span : Span)
| EMacroCall (span : Span)
| EAsCast (expr : PExpr) (target_ty : Ty) (source_ty : option Ty) (span : Span)
| EPrint (args : list PExpr) (span : Span)
| EPrintln (args : list PExpr) (span : Span)
| ESizeOf (span : Span)
| EInlineMlir (inputs : list PExpr) (clobbers ensures : list PExpr) (span : Span)
with PStmt : Type :=
| SLetDecl (name : Symbol) (is_mut : bool) (expr : PExpr) (span : Span)
| SReturn (expr : option PExpr) (span : Span)
| SExprStmt (expr : PExpr) (span : Span)
| SForLoop (iter : Symbol) (iterable : PExpr) (invariants : list PExpr) (body : list PStmt)
    (across : option Span) (span : Span)
| SAssign (lhs rhs : PExpr) (span : Span)
| SCompoundAssign (lhs rhs : PExpr) (span : Span)
| SAssert (expr : PExpr) (span : Span)
| SLoop (invariants : list PExpr) (body : list PStmt) (span : Span)
| SBreak (span : Span)
| SContinue (span : Span)
| SMacroCall (span : Span)
| SDrop (name : Symbol) (span : Span)
| SError (span : Span).

(** ** Positions *)

Definition PExpr_span (e : PExpr) : Span :=
  match e with
  | EIdentifier _ s | EEnumVariant _ _ _ s | ENumber _ _ s | EStringLiteral _ s | ETransfer _ s
  | ETransferPredicate s | EFunctionCall _ _ s | EIndirectCall _ _ s | EArray _ s | EMemberAccess _ _ s
  | EIndexAccess _ _ s | EMethodCall _ _ _ s | EBinaryOp _ _ _ s _ | ERelationalOp _ _ _ s _
  | ELogicalOp _ _ _ s | EUnaryOp _ _ s | EBorrow _ _ s | EDereference _ s | EUnsafeBlock _ _ _ s
  | EComptimeBlock _ _ s | EStructInit _ _ s | EMemorySpace _ s | ETopology _ s | EIf _ _ _ s | ERange _ _ s
  | EMatch _ _ s | EGrad _ _ s | EVjp _ _ _ s | EJvp _ _ _ s | ESpawnOn _ _ s | ETaskBlock _ _ s
  | EVecMacro _ s | EClosure _ s | EMacroCall s | EAsCast _ _ _ s | EPrint _ s | EPrintln _ s | ESizeOf s
  | EInlineMlir _ _ _ s => s
  end.

Definition PStmt_span (s : PStmt) : Span :=
  match s with
  | SLetDecl _ _ _ s | SReturn _ s | SExprStmt _ s | SForLoop _ _ _ _ _ s | SAssign _ _ s
  | SCompoundAssign _ _ s | SAssert _ s | SLoop _ _ s | SBreak s | SContinue s | SMacroCall s | SDrop _ s
  | SError s => s
  end.

(** ** Visits *)

(** [visit_expr] and [visit_exprs]: each expression before the ones inside it. *)
Fixpoint visit_expr (e : PExpr) : list PExpr :=
  let all := flat_map visit_expr in
  let opt o := match o with Some e => visit_expr e | None => [] end in
  e :: match e with
  | EIdentifier _ _ | ENumber _ _ _ | EStringLiteral _ _ | ETransferPredicate _ | EMemorySpace _ _
  | ETopology _ _ | EMacroCall _ | ESizeOf _ => []
  | EEnumVariant _ _ payload _ => match payload with Some es => all es | None => [] end
  | ETransfer e _ | EMemberAccess e _ _ | EUnaryOp _ e _ | EBorrow e _ _ | EDereference e _ | EClosure e _
  | EAsCast e _ _ _ => visit_expr e
  | EFunctionCall _ args _ | EArray args _ | EGrad _ args _ | EVecMacro args _ | EPrint args _
  | EPrintln args _ => all args
  | EIndirectCall e args _ | EMethodCall e _ args _ => visit_expr e ++ all args
  | EIndexAccess a b _ | EBinaryOp a _ b _ _ | ERelationalOp a _ b _ _ | ELogicalOp a _ b _ | ERange a b _ =>
      visit_expr a ++ visit_expr b
  | EUnsafeBlock stmts ret _ _ | EComptimeBlock stmts ret _ | ESpawnOn stmts ret _ | ETaskBlock stmts ret _ =>
      flat_map visit_stmt stmts ++ opt ret
  | EStructInit _ fields _ => flat_map (fun f => visit_expr f.2) fields
  | EIf c t f _ =>
      visit_expr c ++ flat_map visit_stmt t ++ match f with Some b => flat_map visit_stmt b | None => [] end
  | EMatch e arms _ => visit_expr e ++ flat_map (fun a => flat_map visit_stmt a.2) arms
  | EVjp _ args e _ | EJvp _ args e _ => all args ++ visit_expr e
  | EInlineMlir inputs clobbers _ _ => all inputs ++ all clobbers
  end
with visit_stmt (s : PStmt) : list PExpr :=
  let all := flat_map visit_expr in
  match s with
  | SLetDecl _ _ e _ | SExprStmt e _ | SAssert e _ => visit_expr e
  | SReturn o _ => match o with Some e => visit_expr e | None => [] end
  | SForLoop _ e invs body _ _ => visit_expr e ++ all invs ++ flat_map visit_stmt body
  | SAssign a b _ | SCompoundAssign a b _ => visit_expr a ++ visit_expr b
  | SLoop invs body _ => all invs ++ flat_map visit_stmt body
  | SBreak _ | SContinue _ | SMacroCall _ | SDrop _ _ | SError _ => []
  end.

Definition visit_exprs (stmts : list PStmt) : list PExpr := flat_map visit_stmt stmts.

(** ** Equality

    The derived [PartialEq]: an expression as a tree whose labels hold the tag
    of the constructor, the fields that are not expressions and the lengths of
    the lists, compared label by label. *)

Record Label : Type := mkLabel {
  lb_tag : nat;
  lb_names : list Symbol;
  lb_sizes : list nat;
  lb_flags : list bool;
  lb_elem : option ElementType;
  lb_tys : list Ty;
  lb_tops : list Topology;
  lb_span : Span;
}.

Inductive Tree : Type := TNode (l : Label) (kids : list Tree).

Definition Label_eqb (a b : Label) : bool :=
  bool_decide (lb_tag a = lb_tag b) && bool_decide (lb_names a = lb_names b) &&
  bool_decide (lb_sizes a = lb_sizes b) && bool_decide (lb_flags a = lb_flags b) &&
  bool_decide (lb_elem a = lb_elem b) && list_eqb Ty_eqb (lb_tys a) (lb_tys b) &&
  list_eqb Topology_eqb (lb_tops a) (lb_tops b) &&
  bool_decide (lb_span a = lb_span b).

Fixpoint Tree_eqb (a b : Tree) : bool :=
  match a, b with TNode l ks, TNode l' ks' => Label_eqb l l' && list_eqb Tree_eqb ks ks' end.

Definition BinaryOp_tag (op : BinaryOp) : nat :=
  match op with
  | Add => 0 | Sub => 1 | Mul => 2 | MatMul => 3 | Div => 4 | Rem => 5 | BitAnd => 6 | BitOr => 7 | BitXor => 8
  | Shl => 9 | Shr => 10
  end.
Definition UnaryOp_tag (op : UnaryOp) : nat := match op with Not => 0 | Neg => 1 | Try => 2 end.
Definition RelationalOp_tag (op : RelationalOp) : nat :=
  match op with REq => 0 | RNotEq => 1 | RLt => 2 | RGt => 3 | RLe => 4 | RGe => 5 end.
Definition LogicalOp_tag (op : LogicalOp) : nat := match op with LAnd => 0 | LOr => 1 end.

Definition node (tag : nat) (names : list Symbol) (sizes : list nat) (span : Span) (kids : list Tree) : Tree :=
  TNode (mkLabel tag names sizes [] None [] [] span) kids.

Fixpoint pattern_tree (p : Pattern) : Tree :=
  match p with
  | PWildcard => node 0 [] [] Span_default []
  | PLiteral => node 1 [] [] Span_default []
  | PIdentifier n => node 2 [n] [] Span_default []
  | PEnumVariant e v None => node 3 [e; v] [] Span_default []
  | PEnumVariant e v (Some ps) => node 4 [e; v] [] Span_default (pattern_tree <$> ps)
  end.

Fixpoint expr_tree (e : PExpr) : Tree :=
  let all := map expr_tree in
  let opt o := match o with Some e => [expr_tree e] | None => [] end in
  match e with
  | EIdentifier n s => node 0 [n] [] s []
  | EEnumVariant a b None s => node 1 [a; b] [] s []
  | EEnumVariant a b (Some p) s => node 2 [a; b] [] s (all p)
  | ENumber v t s => TNode (mkLabel 3 [v] [] [] t [] [] s) []
  | EStringLiteral v s => node 4 [v] [] s []
  | ETransfer e s => node 5 [] [] s [expr_tree e]
  | ETransferPredicate s => node 6 [] [] s []
  | EFunctionCall n args s => node 7 [n] [] s (all args)
  | EIndirectCall e args s => node 8 [] [] s (expr_tree e :: all args)
  | EArray es s => node 9 [] [] s (all es)
  | EMemberAccess e m s => node 10 [m] [] s [expr_tree e]
  | EIndexAccess a b s => node 11 [] [] s [expr_tree a; expr_tree b]
  | EMethodCall e m args s => node 12 [m] [] s (expr_tree e :: all args)
  | EBinaryOp a op b s t => TNode (mkLabel 13 [] [BinaryOp_tag op] [] t [] [] s) [expr_tree a; expr_tree b]
  | ERelationalOp a op b s t => TNode (mkLabel 14 [] [RelationalOp_tag op] [] t [] [] s) [expr_tree a; expr_tree b]
  | ELogicalOp a op b s => node 15 [] [LogicalOp_tag op] s [expr_tree a; expr_tree b]
  | EUnaryOp op e s => node 16 [] [UnaryOp_tag op] s [expr_tree e]
  | EBorrow e m s => TNode (mkLabel 17 [] [] [m] None [] [] s) [expr_tree e]
  | EDereference e s => node 18 [] [] s [expr_tree e]
  | EUnsafeBlock ss r k s => TNode (mkLabel 19 [] [length ss] [k] None [] [] s) (map stmt_tree ss ++ opt r)
  | EComptimeBlock ss r s => node 20 [] [length ss] s (map stmt_tree ss ++ opt r)
  | EStructInit n fs s => node 21 (n :: (fst <$> fs)) [] s (map (fun f => expr_tree f.2) fs)
  | EMemorySpace sp s => node 22 [MemorySpace_name sp] [] s []
  | ETopology t s => TNode (mkLabel 23 [] [] [] None [] [t] s) []
  | EIf c t None s => node 24 [] [] s (expr_tree c :: map stmt_tree t)
  | EIf c t (Some f) s => node 25 [] [length t] s (expr_tree c :: map stmt_tree t ++ map stmt_tree f)
  | ERange a b s => node 26 [] [] s [expr_tree a; expr_tree b]
  | EMatch e arms s =>
      node 27 [] [] s (expr_tree e :: map (fun a => node 0 [] [] Span_default (pattern_tree a.1 :: map stmt_tree a.2)) arms)
  | EGrad n args s => node 28 [n] [] s (all args)
  | EVjp n args e s => node 29 [n] [] s (expr_tree e :: all args)
  | EJvp n args e s => node 30 [n] [] s (expr_tree e :: all args)
  | ESpawnOn ss r s => node 31 [] [length ss] s (map stmt_tree ss ++ opt r)
  | ETaskBlock ss r s => node 32 [] [length ss] s (map stmt_tree ss ++ opt r)
  | EVecMacro es s => node 33 [] [] s (all es)
  | EClosure e s => node 34 [] [] s [expr_tree e]
  | EMacroCall s => node 35 [] [] s []
  | EAsCast e t None s => TNode (mkLabel 36 [] [] [] None [t] [] s) [expr_tree e]
  | EAsCast e t (Some u) s => TNode (mkLabel 36 [] [] [] None [t; u] [] s) [expr_tree e]
  | EPrint args s => node 37 [] [] s (all args)
  | EPrintln args s => node 38 [] [] s (all args)
  | ESizeOf s => node 39 [] [] s []
  | EInlineMlir i c n s => node 40 [] [length i; length c] s (all i ++ all c ++ all n)
  end
with stmt_tree (s : PStmt) : Tree :=
  let all := map expr_tree in
  match s with
  | SLetDecl n m e s => TNode (mkLabel 0 [n] [] [m] None [] [] s) [expr_tree e]
  | SReturn None s => node 1 [] [] s []
  | SReturn (Some e) s => node 1 [] [] s [expr_tree e]
  | SExprStmt e s => node 2 [] [] s [expr_tree e]
  | SForLoop i e invs body None s => node 3 [i] [length invs] s (expr_tree e :: all invs ++ map stmt_tree body)
  | SForLoop i e invs body (Some a) s =>
      node 4 [i] [length invs] s (node 0 [] [] a [] :: expr_tree e :: all invs ++ map stmt_tree body)
  | SAssign a b s => node 5 [] [] s [expr_tree a; expr_tree b]
  | SCompoundAssign a b s => node 6 [] [] s [expr_tree a; expr_tree b]
  | SAssert e s => node 7 [] [] s [expr_tree e]
  | SLoop invs body s => node 8 [] [length invs] s (all invs ++ map stmt_tree body)
  | SBreak s => node 9 [] [] s []
  | SContinue s => node 10 [] [] s []
  | SMacroCall s => node 11 [] [] s []
  | SDrop n s => node 12 [n] [] s []
  | SError s => node 13 [] [] s []
  end.

Definition PExpr_eqb (a b : PExpr) : bool := Tree_eqb (expr_tree a) (expr_tree b).

(** ** Shapes *)

(** [unsafe { e }] with nothing else in it, as [e]. *)
Fixpoint bare_unsafe_value (e : PExpr) : PExpr :=
  match e with
  | EUnsafeBlock [] (Some r) _ _ => bare_unsafe_value r
  | _ => e
  end.

(** [scalar_of]. *)
Definition scalar_of (ty : Ty) : option ElementType :=
  match ty with
  | Scalar (ElemGeneric _) => None
  | Scalar e => Some e
  | _ => None
  end.

(** [ComptimeInterpreter::integer_range]: the values of an integer type. *)
Definition integer_range (ty : ElementType) : option (Z * Z) :=
  match ty with
  | I4 => Some (imin 4, imax 4) | U4 => Some (0, umax 4)
  | I8 => Some (imin 8, imax 8) | U8 => Some (0, umax 8)
  | I16 => Some (imin 16, imax 16) | U16 => Some (0, umax 16)
  | I32 => Some (imin 32, imax 32) | U32 => Some (0, umax 32)
  | I64 => Some (imin 64, imax 64) | U64 => Some (0, umax 64)
  | I128 => Some (imin 128, imax 128)
  | U128 => Some (0, imax 128)
  | USize => Some (0, imax 64)
  | _ => None
  end.

(** ** Induction

    The expressions and statements directly inside one, and induction over them. *)

Definition opt_list {A} (o : option A) : list A := match o with Some a => [a] | None => [] end.

Definition kid_exprs (e : PExpr) : list PExpr :=
  match e with
  | EIdentifier _ _ | ENumber _ _ _ | EStringLiteral _ _ | ETransferPredicate _ | EMemorySpace _ _
  | ETopology _ _ | EMacroCall _ | ESizeOf _ => []
  | EEnumVariant _ _ payload _ => match payload with Some es => es | None => [] end
  | ETransfer e _ | EMemberAccess e _ _ | EUnaryOp _ e _ | EBorrow e _ _ | EDereference e _ | EClosure e _
  | EAsCast e _ _ _ | EIf e _ _ _ | EMatch e _ _ => [e]
  | EFunctionCall _ args _ | EArray args _ | EGrad _ args _ | EVecMacro args _ | EPrint args _
  | EPrintln args _ => args
  | EIndirectCall e args _ | EMethodCall e _ args _ | EVjp _ args e _ | EJvp _ args e _ => e :: args
  | EIndexAccess a b _ | EBinaryOp a _ b _ _ | ERelationalOp a _ b _ _ | ELogicalOp a _ b _ | ERange a b _ => [a; b]
  | EUnsafeBlock _ ret _ _ | EComptimeBlock _ ret _ | ESpawnOn _ ret _ | ETaskBlock _ ret _ => opt_list ret
  | EStructInit _ fields _ => snd <$> fields
  | EInlineMlir inputs clobbers ensures _ => inputs ++ clobbers ++ ensures
  end.

Definition kid_stmts (e : PExpr) : list PStmt :=
  match e with
  | EUnsafeBlock stmts _ _ _ | EComptimeBlock stmts _ _ | ESpawnOn stmts _ _ | ETaskBlock stmts _ _ => stmts
  | EIf _ t f _ => t ++ default [] f
  | EMatch _ arms _ => flat_map snd arms
  | _ => []
  end.

Definition stmt_exprs (s : PStmt) : list PExpr :=
  match s with
  | SLetDecl _ _ e _ | SExprStmt e _ | SAssert e _ => [e]
  | SReturn o _ => opt_list o
  | SForLoop _ e invs _ _ _ => e :: invs
  | SAssign a b _ | SCompoundAssign a b _ => [a; b]
  | SLoop invs _ _ => invs
  | SBreak _ | SContinue _ | SMacroCall _ | SDrop _ _ | SError _ => []
  end.

Definition stmt_stmts (s : PStmt) : list PStmt :=
  match s with SForLoop _ _ _ body _ _ | SLoop _ body _ => body | _ => [] end.

Fixpoint esize (e : PExpr) : nat :=
  let all l := list_sum (map esize l) in
  let block l := list_sum (map ssize l) in
  let opt o := match o with Some e => esize e | None => 0%nat end in
  S match e with
  | EIdentifier _ _ | ENumber _ _ _ | EStringLiteral _ _ | ETransferPredicate _ | EMemorySpace _ _
  | ETopology _ _ | EMacroCall _ | ESizeOf _ => 0
  | EEnumVariant _ _ payload _ => match payload with Some es => all es | None => 0 end
  | ETransfer e _ | EMemberAccess e _ _ | EUnaryOp _ e _ | EBorrow e _ _ | EDereference e _ | EClosure e _
  | EAsCast e _ _ _ => esize e
  | EFunctionCall _ args _ | EArray args _ | EGrad _ args _ | EVecMacro args _ | EPrint args _
  | EPrintln args _ => all args
  | EIndirectCall e args _ | EMethodCall e _ args _ | EVjp _ args e _ | EJvp _ args e _ => esize e + all args
  | EIndexAccess a b _ | EBinaryOp a _ b _ _ | ERelationalOp a _ b _ _ | ELogicalOp a _ b _ | ERange a b _ => esize a + esize b
  | EUnsafeBlock stmts ret _ _ | EComptimeBlock stmts ret _ | ESpawnOn stmts ret _ | ETaskBlock stmts ret _ => block stmts + opt ret
  | EStructInit _ fields _ => list_sum (map (fun f => esize f.2) fields)
  | EIf c t f _ => esize c + block t + match f with Some b => block b | None => 0 end
  | EMatch e arms _ => esize e + list_sum (map (fun a => list_sum (map ssize a.2)) arms)
  | EInlineMlir inputs clobbers ensures _ => all inputs + all clobbers + all ensures
  end
with ssize (s : PStmt) : nat :=
  let all l := list_sum (map esize l) in
  let block l := list_sum (map ssize l) in
  S match s with
  | SLetDecl _ _ e _ | SExprStmt e _ | SAssert e _ => esize e
  | SReturn o _ => match o with Some e => esize e | None => 0 end
  | SForLoop _ e invs body _ _ => esize e + all invs + block body
  | SAssign a b _ | SCompoundAssign a b _ => esize a + esize b
  | SLoop invs body _ => all invs + block body
  | SBreak _ | SContinue _ | SMacroCall _ | SDrop _ _ | SError _ => 0
  end.

Lemma list_sum_in {A} (f : A -> nat) l a : a ∈ l -> (f a <= list_sum (map f l))%nat.
Proof. unfold list_sum. induction 1; cbn; lia. Qed.

Lemma flat_map_elem {A B} (f : A -> list B) l b : b ∈ flat_map f l <-> exists a, a ∈ l /\ b ∈ f a.
Proof.
  induction l as [|a l IH]; cbn; [split; [intros H; by apply elem_of_nil in H|intros (a & H & _); by apply elem_of_nil in H]|].
  rewrite elem_of_app, IH. split.
  - intros [H|(x & H1 & H2)]; [exists a; split; [by left|done]|exists x; split; [by right|done]].
  - intros (x & [->|H1]%elem_of_cons & H2); [by left|right; by exists x].
Qed.

Ltac kid_size :=
  repeat match goal with
  | H : _ ∈ [] |- _ => by apply elem_of_nil in H
  | H : _ ∈ _ :: _ |- _ => apply elem_of_cons in H as [->|H]
  | H : _ ∈ _ ++ _ |- _ => apply elem_of_app in H as [H|H]
  | H : _ ∈ snd <$> _ |- _ => apply list_elem_of_fmap in H as ([? ?] & -> & H)
  | H : _ ∈ flat_map _ _ |- _ => apply flat_map_elem in H as ([? ?] & H & ?)
  | H : ?x ∈ ?l |- context [map ?f ?l] => apply (list_sum_in f) in H; cbn in H
  end; cbn [snd] in *; try lia.

Lemma kid_exprs_size e k : k ∈ kid_exprs e -> (esize k < esize e)%nat.
Proof. destruct e; cbn [kid_exprs esize]; intros H; repeat case_match; cbn in *; kid_size. Qed.

Lemma kid_stmts_size e s : s ∈ kid_stmts e -> (ssize s < esize e)%nat.
Proof.
  destruct e as [| | | | | | | | | | | | | | | | | | | | | | |c t f sp| |m arms sp| | | | | | | | | | | | |]; cbn [kid_stmts esize]; intros H; kid_size.
  - destruct f as [f|]; cbn in H; kid_size.
  - match goal with H : s ∈ _ |- _ => apply (list_sum_in ssize) in H end. unfold list_sum in *. cbn in *. lia.
Qed.

Lemma stmt_exprs_size s e : e ∈ stmt_exprs s -> (esize e < ssize s)%nat.
Proof. destruct s; cbn [stmt_exprs ssize]; intros H; repeat case_match; cbn in *; kid_size. Qed.

Lemma stmt_stmts_size s k : k ∈ stmt_stmts s -> (ssize k < ssize s)%nat.
Proof. destruct s; cbn [stmt_stmts ssize]; intros H; kid_size. Qed.

Lemma program_ind (P : PExpr -> Prop) (Q : PStmt -> Prop) :
  (forall e, (forall k, k ∈ kid_exprs e -> P k) -> (forall s, s ∈ kid_stmts e -> Q s) -> P e) ->
  (forall s, (forall e, e ∈ stmt_exprs s -> P e) -> (forall k, k ∈ stmt_stmts s -> Q k) -> Q s) ->
  (forall e, P e) /\ (forall s, Q s).
Proof.
  intros HP HQ.
  assert (forall n, (forall e, (esize e < n)%nat -> P e) /\ (forall s, (ssize s < n)%nat -> Q s)) as H.
  { induction n as [|n [IH1 IH2]]; [split; lia|]. split.
    - intros e He. apply HP.
      + intros k Hk%kid_exprs_size. apply IH1. lia.
      + intros s Hs%kid_stmts_size. apply IH2. lia.
    - intros s Hs. apply HQ.
      + intros e He%stmt_exprs_size. apply IH1. lia.
      + intros k Hk%stmt_stmts_size. apply IH2. lia. }
  split; [intros e; apply (H (S (esize e)))|intros s; apply (H (S (ssize s)))]; lia.
Qed.

(** The visits of an expression or a statement go through the ones inside it; the [ensures]
    of an inline block are not visited. *)
Definition visited_exprs (e : PExpr) : list PExpr :=
  match e with EInlineMlir inputs clobbers _ _ => inputs ++ clobbers | _ => kid_exprs e end.

Ltac visits :=
  rewrite ?elem_of_cons, ?elem_of_app, ?flat_map_elem in *;
  repeat match goal with
  | H : _ ∈ [] |- _ => by apply elem_of_nil in H
  | H : _ ∈ snd <$> _ |- _ => apply list_elem_of_fmap in H as ([? ?] & -> & H)
  | H : _ \/ _ |- _ => destruct H; subst
  end; eauto 8.

Lemma visit_kid e k x : k ∈ visited_exprs e -> x ∈ visit_expr k -> x ∈ visit_expr e.
Proof.
  destruct e as [| [] [] [es|] | | | | | | | | | | | | | | | | | ss [r|]| ss [r|]| | | | | | | | | | ss [r|]| ss [r|]| | | | | | | |];
    cbn [visited_exprs kid_exprs visit_expr opt_list]; intros Hk Hx; visits.
Qed.

Lemma visit_kid_stmt e s x : s ∈ kid_stmts e -> x ∈ visit_stmt s -> x ∈ visit_expr e.
Proof.
  destruct e as [| | | | | | | | | | | | | | | | | | ss [r|]| ss [r|]| | | |c t [f|]| |m arms| | | | ss [r|]| ss [r|]| | | | | | | |];
    cbn [kid_stmts visit_expr default from_option id]; intros Hk Hx; visits.
  destruct Hk as (arm & Ha & Hs). right. right. exists arm. split; [done|]. apply flat_map_elem. eauto.
Qed.

Lemma visit_stmt_kid s e x : e ∈ stmt_exprs s -> x ∈ visit_expr e -> x ∈ visit_stmt s.
Proof. destruct s as [|[r|] | | | | | | | | | | |]; cbn [stmt_exprs visit_stmt opt_list]; intros Hk Hx; visits. Qed.

Lemma visit_stmt_stmt s k x : k ∈ stmt_stmts s -> x ∈ visit_stmt k -> x ∈ visit_stmt s.
Proof. destruct s; cbn [stmt_stmts visit_stmt]; intros Hk Hx; visits. Qed.
