(* ===== verification/Race.v ===== *)
(** * The race check of [across] loops ([src/src/hir/check/across_proof.rs])

    The passes of an [across] loop run at the same time, so no pass may touch a
    place that another pass writes.  The check walks the body of the loop,
    collects every access to a tensor from outside with its indices as affine
    forms of loop variables, and then asks of each two accesses, one of them a
    write, whether two different passes can ever make them meet.

    Scopes are lists with the innermost first.  Arithmetic on [i64] and [i128]
    is checked where the source checks it and panics where it does not. *)

From stdpp Require Import base list strings gmap sorting.
From Stdlib Require Import ZArith Lia.
From S2P Require Import Prelude Gid Syntax Types Program.
Open Scope Z_scope.
Open Scope vx_scope.

(** ** Folds with panics *)

Section folds.
Context {A S : Type} (f : A -> S -> outcome S).

Fixpoint ofold (l : list A) (s : S) : outcome S :=
  match l with [] => Returns s | a :: l => s ←! f a s; ofold l s end.

(** Skips the elements that [skip] finds in the ones before. *)
Fixpoint odirect (skip : list A -> A -> bool) (kept l : list A) (s : S) : outcome S :=
  match l with
  | [] => Returns s
  | a :: l => if skip kept a then odirect skip kept l s else s ←! f a s; odirect skip (kept ++ [a]) l s
  end.
End folds.

Section folds_i.
Context {A S : Type} (f : nat -> A -> S -> outcome S).

Fixpoint ofoldi (i : nat) (l : list A) (s : S) : outcome S :=
  match l with [] => Returns s | a :: l => s ←! f i a s; ofoldi (Datatypes.S i) l s end.
End folds_i.

(** Unchecked [i64] and [i128] arithmetic. *)
Definition i64_op (z : Z) : outcome Z := if in_i 64 z then Returns z else Panics.
Definition i128_op (z : Z) : outcome Z := if in_i 128 z then Returns z else Panics.

(** A [BTreeMap<String, A>] is its entries in the order of the keys. *)
Fixpoint bt_update {A} (k : string) (g : option A -> A) (l : list (string * A)) : list (string * A) :=
  match l with
  | [] => [(k, g None)]
  | (k', a) :: l' =>
      match String.compare k k' with
      | Eq => (k', g (Some a)) :: l'
      | Lt => (k, g None) :: l
      | Gt => (k', a) :: bt_update k g l'
      end
  end.

(** ** Affine forms *)

Record Affine : Type := mkAffine { terms : list (string * Z); constant : Z }.
#[export] Instance Affine_eq_dec : EqDecision Affine.
Proof. solve_decision. Defined.

Definition Affine_constant (c : Z) : Affine := mkAffine [] c.
Definition Affine_var (name : string) : Affine := mkAffine [(name, 1)] 0.

Definition retain_terms (l : list (string * Z)) : list (string * Z) := filter (fun e => e.2 <> 0) l.

Fixpoint add_terms (sign : Z) (other l : list (string * Z)) : option (list (string * Z)) :=
  match other with
  | [] => Some l
  | (v, c) :: other =>
      m ← checked_i 64 (c * sign);
      x ← checked_i 64 (default 0 (assoc v l) + m);
      add_terms sign other (bt_update v (fun _ => x) l)
  end.

Definition Affine_add (self other : Affine) (sign : Z) : option Affine :=
  ts ← add_terms sign (terms other) (terms self);
  m ← checked_i 64 (constant other * sign);
  c ← checked_i 64 (constant self + m);
  Some (mkAffine (retain_terms ts) c).

Definition Affine_scale (self : Affine) (k : Z) : option Affine :=
  ts ← mapM (fun e : string * Z => c ← checked_i 64 (e.2 * k); Some (e.1, c)) (terms self);
  c ← checked_i 64 (constant self * k);
  Some (mkAffine (retain_terms ts) c).

Definition as_constant (a : Affine) : option Z := match terms a with [] => Some (constant a) | _ => None end.

(** ** The state of the proof *)

Inductive Binding : Type :=
| BIndex (key : string) (ty : option ElementType)
| BValue (form : Affine) (ty : option ElementType)
| BTensor
| BOther.

Record Access : Type := mkAccess {
  ac_write : bool;
  ac_atomic : bool;
  ac_indices : list (option Affine);
  ac_span : Span;
  ac_pass : option Z;
}.

(** The expressions that the proof cannot see into ([what]). *)
Inductive Unseen : Type :=
| UMethodCall | UIndirectCall | UInlineMlir | USpawnOn | UTask | UClosure | UComptime | UDerivative.

(** The messages, with what they name. *)
Inductive RaceError : Type :=
| NoTensorName
| WritesOutside (name : Symbol)
| UnseenPlace
| BarrierInLoop
| UnknownCall (name : Symbol)
| MutBorrowInLoop
| Printing
| UnseenMemory (what : Unseen)
| MixedAtomic (name : Symbol)
| UsesWhole (name : Symbol)
| WriteUnfixed (name own : Symbol)
| WritesMeet (name own : Symbol)
| ReadMeets (name own : Symbol).

Record RaceProof : Type := mkRaceProof {
  rp_contracts : gmap Symbol (list nat);
  rp_own : string;
  rp_scopes : list (gmap Symbol Binding);
  rp_ranges : gmap string (option (Z * Z));
  rp_type_ranges : gmap string (Z * Z);
  rp_limits : gmap string Z;
  rp_open : list (string * Span * Z * ElementType);
  rp_accesses : list (string * list Access);
  rp_whole : gmap Symbol Span;
  rp_next_key : nat;
  rp_error : option (RaceError * Span);
  rp_at : Span;
  rp_pass : option Z;
}.

Definition with_own own st := mkRaceProof (rp_contracts st) own (rp_scopes st) (rp_ranges st) (rp_type_ranges st)
  (rp_limits st) (rp_open st) (rp_accesses st) (rp_whole st) (rp_next_key st) (rp_error st) (rp_at st) (rp_pass st).
Definition with_scopes scopes st := mkRaceProof (rp_contracts st) (rp_own st) scopes (rp_ranges st) (rp_type_ranges st)
  (rp_limits st) (rp_open st) (rp_accesses st) (rp_whole st) (rp_next_key st) (rp_error st) (rp_at st) (rp_pass st).
Definition with_index ranges type_ranges open next st := mkRaceProof (rp_contracts st) (rp_own st) (rp_scopes st) ranges
  type_ranges (rp_limits st) open (rp_accesses st) (rp_whole st) next (rp_error st) (rp_at st) (rp_pass st).
Definition with_accesses accesses st := mkRaceProof (rp_contracts st) (rp_own st) (rp_scopes st) (rp_ranges st)
  (rp_type_ranges st) (rp_limits st) (rp_open st) accesses (rp_whole st) (rp_next_key st) (rp_error st) (rp_at st) (rp_pass st).
Definition with_whole whole st := mkRaceProof (rp_contracts st) (rp_own st) (rp_scopes st) (rp_ranges st)
  (rp_type_ranges st) (rp_limits st) (rp_open st) (rp_accesses st) whole (rp_next_key st) (rp_error st) (rp_at st) (rp_pass st).
Definition with_error error st := mkRaceProof (rp_contracts st) (rp_own st) (rp_scopes st) (rp_ranges st)
  (rp_type_ranges st) (rp_limits st) (rp_open st) (rp_accesses st) (rp_whole st) (rp_next_key st) error (rp_at st) (rp_pass st).
Definition with_at at_ st := mkRaceProof (rp_contracts st) (rp_own st) (rp_scopes st) (rp_ranges st)
  (rp_type_ranges st) (rp_limits st) (rp_open st) (rp_accesses st) (rp_whole st) (rp_next_key st) (rp_error st) at_ (rp_pass st).
Definition with_pass pass st := mkRaceProof (rp_contracts st) (rp_own st) (rp_scopes st) (rp_ranges st)
  (rp_type_ranges st) (rp_limits st) (rp_open st) (rp_accesses st) (rp_whole st) (rp_next_key st) (rp_error st) (rp_at st) pass.

(** [fail]: the first error counts; a missing position is that of the statement. *)
Definition fail (why : RaceError) (at_ : Span) (st : RaceProof) : RaceProof :=
  let at_ := if decide (at_ = Span_default) then rp_at st else at_ in
  match rp_error st with None => with_error (Some (why, at_)) st | Some _ => st end.

Fixpoint lookup_scopes (name : Symbol) (scopes : list (gmap Symbol Binding)) : option Binding :=
  match scopes with
  | [] => None
  | s :: scopes => match s !! name with Some b => Some b | None => lookup_scopes name scopes end
  end.
Definition lookup_name (st : RaceProof) (name : Symbol) : option Binding := lookup_scopes name (rp_scopes st).

Definition bind (name : Symbol) (b : Binding) (st : RaceProof) : outcome RaceProof :=
  match rp_scopes st with
  | [] => Panics
  | s :: scopes => Returns (with_scopes (<[name := b]> s :: scopes) st)
  end.

Definition push_scope (st : RaceProof) : RaceProof := with_scopes (∅ :: rp_scopes st) st.
Definition pop_scope (st : RaceProof) : RaceProof := with_scopes (tail (rp_scopes st)) st.

Definition outside (st : RaceProof) (name : Symbol) : bool :=
  match lookup_name st name with None => true | Some _ => false end.

(** ** Keys *)

(** [v.ends_with(s)]. *)
Definition ends_with (s v : string) : bool :=
  bool_decide (String.substring (String.length v - String.length s) (String.length s) v = s).

Definition is_outside (v : string) : bool := ends_with "#outside" v.
Definition outside_key (name : Symbol) : string := name +:+ "#outside".
(** The number of the key is written with as many digits as it needs. *)
Definition index_key (name : Symbol) (n : nat) : string := name +:+ "#" +:+ u_to_string n (Z.of_nat n) "".

(** ** Ranges *)

(** [int]. *)
Definition int (e : PExpr) : option Z := match e with ENumber v _ _ => parse_int 64 v | _ => None end.

(** [range_type]: from a number at either end of the range. *)
Definition number_type (e : PExpr) : option ElementType := match e with ENumber _ ty _ => ty | _ => None end.
Definition range_type (iterable : PExpr) : option ElementType :=
  match iterable with
  | ERange a b _ => match number_type a with Some t => Some t | None => number_type b end
  | _ => None
  end.

(** [int(start).zip(int(end))] of a range. *)
Definition int_range (iterable : PExpr) : option (Z * Z) :=
  match iterable with
  | ERange a b _ => lo ← int a; hi ← int b; Some (lo, hi)
  | _ => None
  end.

Definition index_range (st : RaceProof) (v : string) : option (Z * Z) :=
  match rp_ranges st !! v with
  | Some (Some (a, b)) => if a <? b then Some (a, b - 1) else rp_type_ranges st !! v
  | _ => rp_type_ranges st !! v
  end.

(** The results at the four corners, or [t] when one does not fit [i128]. *)
Definition corners (f : Z -> Z -> option Z) (l r t : Z * Z) : Z * Z :=
  match f l.1 r.1, f l.1 r.2, f l.2 r.1, f l.2 r.2 with
  | Some a, Some b, Some c, Some d => (Z.min (Z.min a b) (Z.min c d), Z.max (Z.max a b) (Z.max c d))
  | _, _, _, _ => t
  end.

Definition wrapped (t v : Z * Z) : Z * Z := if (t.1 <=? v.1) && (v.2 <=? t.2) then v else t.

Definition checked_div (a b : Z) : option Z := if b =? 0 then None else checked_i 128 (Z.quot a b).

Fixpoint value_bounds (st : RaceProof) (e : PExpr) (ty : option (Z * Z)) : option (Z * Z) :=
  match e with
  | ENumber v _ _ => v ← parse_int 128 v; Some (v, v)
  | EIdentifier name _ =>
      match lookup_name st name with
      | Some (BIndex key _) => index_range st key
      | None => ty
      | Some _ => None
      end
  | EBinaryOp lhs op rhs _ operand_ty =>
      t ← (operand_ty ≫= integer_range);
      let l := default t (value_bounds st lhs (Some t)) in
      let r := default t (value_bounds st rhs (Some t)) in
      Some (match op with
            | Add => wrapped t (corners (fun a b => checked_i 128 (a + b)) l r t)
            | Sub => wrapped t (corners (fun a b => checked_i 128 (a - b)) l r t)
            | Mul => wrapped t (corners (fun a b => checked_i 128 (a * b)) l r t)
            | Div => if 0 <? r.1 then corners checked_div l r t else t
            | _ => t
            end)
  | _ => None
  end.

(** The range of the index of a loop whose size is not a number: from its type,
    from the bounds of its range, and from the most passes of an [across] loop. *)
Definition open_range (st : RaceProof) (iterable : PExpr) (key : string) (ty : ElementType) (across : option Span)
    (full : Z * Z) : outcome ((Z * Z) * list (string * Span * Z * ElementType)) :=
  match iterable with
  | ERange a b _ =>
      let lo := match value_bounds st a (Some full) with Some (x, _) => Z.max full.1 x | None => full.1 end in
      hi ←! match value_bounds st b (Some full) with
            | Some (_, y) => y ←! i128_op (y - 1); Returns (Z.min full.2 y)
            | None => Returns full.2
            end;
      match across, int a with
      | Some at_, Some start =>
          hi ←! match rp_limits st !! key with
                | Some k => e ←! i128_op (start + k); e ←! i128_op (e - 1); Returns (Z.min hi e)
                | None => Returns hi
                end;
          Returns ((lo, hi), rp_open st ++ [(key, at_, start, ty)])
      | _, _ => Returns ((lo, hi), rp_open st)
      end
  | _ => Returns (full, rp_open st)
  end.

Definition bind_index (name : Symbol) (iterable : PExpr) (range : option (Z * Z)) (across : option Span)
    (st : RaceProof) : outcome (string * RaceProof) :=
  let key := index_key name (rp_next_key st) in
  let ty := range_type iterable in
  let ranges := <[key := range]> (rp_ranges st) in
  let st := with_index ranges (rp_type_ranges st) (rp_open st) (S (rp_next_key st)) st in
  st ←! match range, ty, ty ≫= integer_range with
        | None, Some t, Some full =>
            r ←! open_range st iterable key t across full;
            Returns (with_index ranges (<[key := r.1]> (rp_type_ranges st)) r.2 (rp_next_key st) st)
        | _, _, _ => Returns st
        end;
  st ←! bind name (BIndex key ty) st;
  Returns (key, st).

(** ** Forms of expressions *)

(** [bounds]. *)
Fixpoint bounds_loop (st : RaceProof) (passes_only : bool) (fallback : option (Z * Z)) (l : list (string * Z))
    (lo hi : Z) : outcome (option (Z * Z)) :=
  match l with
  | [] => Returns (Some (lo, hi))
  | (v, c) :: l =>
      if passes_only && is_outside v then bounds_loop st passes_only fallback l lo hi
      else
        match (match index_range st v with Some r => Some r | None => fallback end) with
        | None => Returns None
        | Some (a, b) =>
            x ←! i128_op (c * a);
            y ←! i128_op (c * b);
            lo ←! i128_op (lo + Z.min x y);
            hi ←! i128_op (hi + Z.max x y);
            bounds_loop st passes_only fallback l lo hi
        end
  end.

Definition bounds (st : RaceProof) (form : Affine) (passes_only : bool) (fallback : option (Z * Z))
    : outcome (option (Z * Z)) :=
  bounds_loop st passes_only fallback (terms form) (constant form) (constant form).

Definition fits (st : RaceProof) (form : Affine) (ty : option ElementType) : outcome bool :=
  match ty ≫= integer_range with
  | None => Returns false
  | Some (min, max) =>
      if forallb (fun e : string * Z => Z.abs e.2 <=? max) (terms form) && (Z.abs (constant form) <=? max) then
        b ←! bounds st form true (Some (min, max));
        match b with
        | None => Returns false
        | Some (lo, hi) =>
            if existsb (fun e : string * Z => is_outside e.1) (terms form) then
              spread ←! i128_op (hi - lo);
              all ←! i128_op (max - min);
              Returns (spread <=? all)
            else Returns ((min <=? lo) && (hi <=? max))
        end
      else Returns false
  end.

(** [int_type]. *)
Fixpoint int_type (st : RaceProof) (e : PExpr) : option ElementType :=
  match e with
  | ENumber _ ty _ => ty
  | EBinaryOp _ _ _ _ operand_ty => operand_ty
  | EAsCast _ target _ _ => scalar_of target
  | EUnaryOp _ e _ => int_type st e
  | EIdentifier name _ =>
      match lookup_name st name with
      | Some (BIndex _ ty) | Some (BValue _ ty) => ty
      | _ => None
      end
  | _ => None
  end.

Definition holds_in (t v : Z * Z) : bool := (t.1 <=? v.1) && (v.2 <=? t.2).

(** [affine]. *)
Fixpoint affine (st : RaceProof) (e : PExpr) : outcome (option Affine) :=
  match e with
  | ENumber v _ _ => Returns (Affine_constant <$> parse_int 64 v)
  | EIdentifier name _ =>
      Returns
        match lookup_name st name with
        | Some (BIndex key _) => Some (Affine_var key)
        | Some (BValue a _) => Some a
        | Some _ => None
        | None => Some (Affine_var (outside_key name))
        end
  | EAsCast e target source _ =>
      form ←! affine st e;
      form ←?! form;
      t ←?! (scalar_of target ≫= integer_range);
      if match (source ≫= scalar_of) ≫= integer_range with Some s => holds_in t s | None => false end then
        Returns (Some form)
      else
        b ←! bounds st form false None;
        Returns (if match b with Some b => holds_in t b | None => false end then Some form else None)
  | EUnaryOp Neg e _ =>
      form ←! affine st e;
      form ←?! (form ≫= fun a => Affine_scale a (-1));
      ok ←! fits st form (int_type st e);
      Returns (if ok : bool then Some form else None)
  | EBinaryOp lhs op rhs _ operand_ty =>
      l ←! affine st lhs;
      l ←?! l;
      r ←! affine st rhs;
      r ←?! r;
      form ←?! match op with
               | Add => Affine_add l r 1
               | Sub => Affine_add l r (-1)
               | Mul =>
                   match as_constant l, as_constant r with
                   | Some k, _ => Affine_scale r k
                   | _, Some k => Affine_scale l k
                   | _, _ => None
                   end
               | _ => None
               end;
      ok ←! fits st form operand_ty;
      Returns (if ok : bool then Some form else None)
  | _ => Returns None
  end.

(** [one_pass]: the only pass in which the condition holds. *)
Fixpoint one_pass (st : RaceProof) (cond : PExpr) : outcome (option Z) :=
  match cond with
  | ERelationalOp lhs REq rhs _ _ =>
      l ←! affine st lhs;
      l ←?! l;
      r ←! affine st rhs;
      r ←?! r;
      let own := Affine_var (rp_own st) in
      Returns (if decide (l = own) then as_constant r else if decide (r = own) then as_constant l else None)
  | ELogicalOp lhs LAnd rhs _ =>
      p ←! one_pass st lhs;
      match p with Some _ => Returns p | None => one_pass st rhs end
  | _ => Returns None
  end.

(** ** Two forms *)

(** The digits of [fixes_own_with]: a coefficient and the size of the range of its variable. *)
Fixpoint digits_of (st : RaceProof) (l : list (string * Z)) : outcome (list (Z * option Z)) :=
  match l with
  | [] => Returns []
  | (v, c) :: l =>
      if is_outside v then digits_of st l
      else
        span ←! match rp_ranges st !! v with
                | Some (Some (lo, hi)) => s ←! i64_op (hi - lo); Returns (Some s)
                | _ => Returns None
                end;
        c ←! i64_op (Z.abs c);
        ds ←! digits_of st l;
        Returns ((c, span) :: ds)
  end.

Definition digit_le (a b : Z * option Z) : Prop :=
  a.1 < b.1 \/ (a.1 = b.1 /\ default (imax 64) a.2 <= default (imax 64) b.2).
#[export] Instance digit_le_dec a b : Decision (digit_le a b).
Proof. unfold digit_le. apply _. Defined.

(** Each coefficient is larger than the most that the digits before it add up to. *)
Fixpoint mixed_radix (digits : list (Z * option Z)) (most : Z) : bool :=
  match digits with
  | [] => true
  | (c, span) :: rest =>
      if c <=? most then false
      else
        match span with
        | Some s =>
            if 1 <=? s then
              match (x ← checked_i 64 (c * (s - 1)); checked_i 64 (most + x)) with
              | Some m => mixed_radix rest m
              | None => false
              end
            else match rest with [] => true | _ => false end
        | None => match rest with [] => true | _ => false end
        end
  end.

Definition fixes_own_with (st : RaceProof) (form : Affine) (gap : option Z) : outcome bool :=
  match assoc (rp_own st) (terms form) with
  | None => Returns false
  | Some _ =>
      ds ←! digits_of st (terms form);
      let ds := ds ++ match gap with Some g => [(g, Some 2)] | None => [] end in
      match merge_sort digit_le ds with
      | [] => Panics
      | ds => Returns (mixed_radix ds 0)
      end
  end.

Definition fixes_own (st : RaceProof) (form : Affine) : outcome bool := fixes_own_with st form None.

Definition outside_terms (a : Affine) : list (string * Z) := filter (fun e => is_outside e.1 = true) (terms a).

(** What the terms of a form, but for the loop's own variable, add to a difference. *)
Fixpoint other_terms (st : RaceProof) (sign : Z) (l : list (string * Z)) (lo hi : Z) : outcome (option (Z * Z)) :=
  match l with
  | [] => Returns (Some (lo, hi))
  | (v, c) :: l =>
      if bool_decide (v = rp_own st) || is_outside v then other_terms st sign l lo hi
      else
        match index_range st v with
        | None => Returns None
        | Some (p, q) =>
            s ←! i128_op (sign * c * p);
            t ←! i128_op (sign * c * q);
            lo ←! i128_op (lo + Z.min s t);
            hi ←! i128_op (hi + Z.max s t);
            other_terms st sign l lo hi
        end
  end.

Definition own_term_decides (st : RaceProof) (x y : Affine) : outcome bool :=
  match assoc (rp_own st) (terms x), assoc (rp_own st) (terms y) with
  | Some a, Some b =>
      if negb (a =? b) || negb (bool_decide (outside_terms x = outside_terms y)) then Returns false
      else
        let d := constant y - constant x in
        r ←! other_terms st 1 (terms y) d d;
        match r with
        | None => Returns false
        | Some (lo, hi) =>
            r ←! other_terms st (-1) (terms x) lo hi;
            Returns match r with
                    | None => false
                    | Some (lo, hi) => (- Z.abs a <? lo) && (hi <? Z.abs a)
                    end
        end
  | _, _ => Returns false
  end.

Definition or_else (a : outcome bool) (b : outcome bool) : outcome bool :=
  x ←! a; if x : bool then Returns true else b.

(** No two passes make the two indices equal. *)
Definition indices_apart (st : RaceProof) (x y : option Affine) : outcome bool :=
  match x, y with
  | Some x, Some y =>
      if decide (x = y) then or_else (fixes_own st x) (own_term_decides st x y)
      else if decide (terms x = terms y) then
        or_else
          match (d ← checked_i 64 (constant x - constant y); checked_i 64 (Z.abs d)) with
          | Some gap => fixes_own_with st x (Some gap)
          | None => Returns false
          end
          (own_term_decides st x y)
      else own_term_decides st x y
  | _, _ => Returns false
  end.

Fixpoint some_apart (st : RaceProof) (xs ys : list (option Affine)) : outcome bool :=
  match xs, ys with
  | x :: xs, y :: ys => or_else (indices_apart st x y) (some_apart st xs ys)
  | _, _ => Returns false
  end.

(** ** The walk *)

Definition is_tensor_alloc_call (name : Symbol) : bool :=
  bool_decide (name ∈ ["Tensor"; "Tensor::new"; "Tensor::uninit"; "Tensor::fill"]).

(** [split_once] at the first occurrence of a separator. *)
Fixpoint split_once (sep s : string) : option (string * string) :=
  if String.prefix sep s then Some ("", String.substring (String.length sep) (String.length s - String.length sep) s)
  else
    match s with
    | EmptyString => None
    | String c s => p ← split_once sep s; Some (String c p.1, p.2)
    end.

Definition pure_methods : list string :=
  ["exp"; "fast_exp"; "exp2"; "sqrt"; "abs"; "ln"; "log2"; "log10"; "sin"; "cos"; "tan"; "tanh"; "fast_tanh"; "floor";
   "ceil"; "round"; "min"; "max"; "pow"; "powi"; "recip"; "to_bits"; "from_bits"].

Definition parallel_pure_call (name : Symbol) : bool :=
  match (match split_once "$" name with Some p => Some p | None => split_once "::" name end) with
  | None => false
  | Some (ty, method) => bool_decide (ty ∈ ["f32"; "f64"; "i32"; "i64"]) && bool_decide (method ∈ pure_methods)
  end.

Inductive LaneOp : Type := LSum | LMax | LArgMax | LSort | LSortDescending | LCopyAsync | LCopyWait.

Definition writes_first (op : LaneOp) : bool :=
  match op with LSort | LSortDescending | LCopyAsync => true | _ => false end.

Definition ROUTINES : list (string * LaneOp * bool) :=
  [("sum", LSum, true); ("max", LMax, true); ("sum_unordered", LSum, false); ("max_unordered", LMax, false);
   ("argmax", LArgMax, true); ("argmax_unordered", LArgMax, false); ("sort", LSort, true);
   ("sort_descending", LSortDescending, true); ("copy_async", LCopyAsync, true); ("copy_wait", LCopyWait, true)].

Definition lane_routine (name : Symbol) : option (LaneOp * bool) :=
  if String.prefix "lanes::" name then
    let routine := String.substring 7 (String.length name - 7) name in
    r ← List.find (fun r : string * LaneOp * bool => bool_decide (r.1.1 = routine)) ROUTINES;
    Some (r.1.2, r.2)
  else None.

(** The call writes the tensor that its first argument borrows. *)
Definition writes_first_of (name : Symbol) : bool :=
  match lane_routine name with Some (op, _) => writes_first op | None => false end.

(** [passed_tensor]: the tensor that an argument passes. *)
Definition passed_tensor (e : PExpr) : option Symbol :=
  match e with
  | EIdentifier name _ => Some name
  | EBorrow (EIdentifier name _) false _ => Some name
  | _ => None
  end.

(** [atomic_name] and [atomic_inputs]. *)
Definition atomic_name (e : PExpr) : option Symbol :=
  match e with
  | EFunctionCall f [EIdentifier name _] _ => if decide (f = "atomic") then Some name else None
  | _ => None
  end.
Definition atomic_inputs (ensures : list PExpr) : list Symbol := omap atomic_name ensures.

(** The tensor of [a[i][j]], and its indices, outermost first ([element]). *)
Fixpoint root (e : PExpr) : option Symbol :=
  match e with
  | EIdentifier name _ => Some name
  | EIndexAccess base _ _ => root base
  | _ => None
  end.
Fixpoint indices_of (e : PExpr) : list PExpr :=
  match e with
  | EIndexAccess base index _ => indices_of base ++ [index]
  | _ => []
  end.

Fixpoint forms_of (st : RaceProof) (l : list PExpr) : outcome (list (option Affine)) :=
  match l with
  | [] => Returns []
  | e :: l => a ←! affine st e; fs ←! forms_of st l; Returns (a :: fs)
  end.

Definition push_access (name : Symbol) (a : Access) (st : RaceProof) : RaceProof :=
  with_accesses (bt_update name (fun o => default [] o ++ [a]) (rp_accesses st)) st.

(** [record]. *)
Definition record_access (name : Symbol) (indices : list PExpr) (write : bool) (at_ : Span) (st : RaceProof)
    : outcome RaceProof :=
  fs ←! forms_of st indices;
  Returns (push_access name (mkAccess write false fs at_ (rp_pass st)) st).

Definition atomic_arg (arg : PExpr) (st : RaceProof) : RaceProof :=
  match passed_tensor arg with
  | Some name =>
      if outside st name then push_access name (mkAccess true true [] (PExpr_span arg) (rp_pass st)) st else st
  | None => fail NoTensorName (PExpr_span arg) st
  end.

(** The element [base[index]], when [base] is a tensor or an element of one. *)
Definition record_element (name : Symbol) (indices : list PExpr) (write : bool) (at_ : Span) (st : RaceProof)
    : outcome RaceProof :=
  if outside st name then record_access name indices write at_ st else Returns st.

(** [contains]: [inner] is inside [outer]. *)
Definition contains_expr (outer inner : PExpr) : bool := existsb (fun e => PExpr_eqb e inner) (visit_expr outer).
Definition skips (kept : list PExpr) (e : PExpr) : bool := existsb (fun d => contains_expr d e) kept.

Definition unseen (e : PExpr) : Unseen :=
  match e with
  | EMethodCall _ _ _ _ => UMethodCall
  | EIndirectCall _ _ _ => UIndirectCall
  | EInlineMlir _ _ _ _ => UInlineMlir
  | ESpawnOn _ _ _ => USpawnOn
  | ETaskBlock _ _ _ => UTask
  | EClosure _ _ => UClosure
  | EComptimeBlock _ _ _ => UComptime
  | _ => UDerivative
  end.

(** What a [let] binds its name to. *)
Definition let_binding (is_mut : bool) (e : PExpr) (st : RaceProof) : outcome Binding :=
  match bare_unsafe_value e with
  | EFunctionCall f _ _ =>
      if is_tensor_alloc_call f then Returns BTensor
      else if is_mut then Returns BOther
      else a ←! affine st e; Returns (match a with Some a => BValue a (int_type st e) | None => BOther end)
  | _ =>
      if is_mut then Returns BOther
      else a ←! affine st e; Returns (match a with Some a => BValue a (int_type st e) | None => BOther end)
  end.

(** Two operands of an expression: the second is skipped when it is inside the first. *)
Definition second (a : PExpr) : PExpr -> bool := fun b => skips [a] b.

Definition enter_statement (s : PStmt) (st : RaceProof) : RaceProof :=
  if decide (PStmt_span s = Span_default) then st else with_at (PStmt_span s) st.

(** [expr], [target] and [stmt]; [indices] walks the indices of an element.  A lane sort and a
    lane copy write the tensor that they borrow first, which [target] records. *)
Fixpoint expr (e : PExpr) (st : RaceProof) {struct e} : outcome RaceProof :=
  match rp_error st with
  | Some _ => Returns st
  | None =>
    match e with
    | EIndexAccess base index span =>
        match root base with
        | Some name =>
            st ←! indices base st;
            st ←! expr index st;
            record_element name (indices_of e) false span st
        | None => st ←! expr base st; if second base index then Returns st else expr index st
        end
    | EIdentifier name span =>
        Returns (if outside st name then
                   match rp_whole st !! name with
                   | Some _ => st
                   | None => with_whole (<[name := span]> (rp_whole st)) st
                   end
                 else st)
    | EFunctionCall name args span =>
        let pure := parallel_pure_call name || is_tensor_alloc_call name || String.prefix "lanes::" name in
        match (if pure then None else rp_contracts st !! name) with
        | Some params =>
            ofoldi (fun i a st => if decide (i ∈ params) then Returns (atomic_arg a st) else expr a st) 0 args st
        | None =>
            if negb pure then
              Returns (fail (if decide (name = "barrier") then BarrierInLoop else UnknownCall name) span st)
            else
              match writes_first_of name, args with
              | true, EBorrow b _ bspan :: rest => st ←! target b bspan st; ofold expr rest st
              | _, _ => ofold expr args st
              end
        end
    | EBorrow b is_mut span => if is_mut then Returns (fail MutBorrowInLoop span st) else expr b st
    | EIf cond then_block else_block _ =>
        st ←! expr cond st;
        let outer := rp_pass st in
        pass ←! match outer with
                | Some _ => p ←! one_pass st cond; Returns outer
                | None => one_pass st cond
                end;
        st ←! ofold stmt then_block (push_scope (with_pass pass st));
        let st := with_pass outer (pop_scope st) in
        match else_block with
        | Some b => st ←! ofold stmt b (push_scope st); Returns (pop_scope st)
        | None => Returns st
        end
    | EMatch m arms _ =>
        st ←! expr m st;
        ofold (fun (arm : Pattern * list PStmt) st => st ←! ofold stmt arm.2 (push_scope st); Returns (pop_scope st)) arms st
    | EUnsafeBlock stmts ret _ _ =>
        st ←! ofold stmt stmts (push_scope st);
        st ←! match ret with Some r => expr r st | None => Returns st end;
        Returns (pop_scope st)
    | EInlineMlir inputs _ ensures span =>
        match ensures with
        | [] => Returns (fail (UnseenMemory (unseen e)) span st)
        | _ =>
            let named := atomic_inputs ensures in
            ofold (fun input st =>
                     match passed_tensor input with
                     | Some n => if decide (n ∈ named) then Returns (atomic_arg input st) else expr input st
                     | None => expr input st
                     end) inputs st
        end
    | EPrint _ span | EPrintln _ span => Returns (fail Printing span st)
    | EMethodCall _ _ _ span | EIndirectCall _ _ span | ESpawnOn _ _ span | ETaskBlock _ _ span | EClosure _ span
    | EComptimeBlock _ _ span | EGrad _ _ span | EVjp _ _ _ span | EJvp _ _ _ span =>
        Returns (fail (UnseenMemory (unseen e)) span st)
    | ENumber _ _ _ | EStringLiteral _ _ | ETransferPredicate _ | EMemorySpace _ _ | ETopology _ _ | EMacroCall _
    | ESizeOf _ => Returns st
    | ETransfer a _ | EMemberAccess a _ _ | EUnaryOp _ a _ | EDereference a _ | EAsCast a _ _ _ => expr a st
    | EBinaryOp a _ b _ _ | ERelationalOp a _ b _ _ | ELogicalOp a _ b _ | ERange a b _ =>
        st ←! expr a st; if second a b then Returns st else expr b st
    | EEnumVariant _ _ payload _ =>
        match payload with Some es => odirect expr skips [] es st | None => Returns st end
    | EArray es _ | EVecMacro es _ => odirect expr skips [] es st
    | EStructInit _ fields _ =>
        odirect (fun f => expr f.2) (fun kept f => skips (snd <$> kept) f.2) [] fields st
    end
  end
with indices (e : PExpr) (st : RaceProof) {struct e} : outcome RaceProof :=
  match e with
  | EIndexAccess base index _ => st ←! indices base st; expr index st
  | _ => Returns st
  end
with target (lhs : PExpr) (at_ : Span) (st : RaceProof) {struct lhs} : outcome RaceProof :=
  match lhs with
  | EIndexAccess base index span =>
      match root base with
      | Some name =>
          st ←! indices base st;
          st ←! expr index st;
          record_element name (indices_of lhs) true at_ st
      | None => Returns (fail UnseenPlace span st)
      end
  | EIdentifier name _ => Returns (if outside st name then fail (WritesOutside name) at_ st else st)
  | EMemberAccess base _ _ => target base at_ st
  | other => Returns (fail UnseenPlace (PExpr_span other) st)
  end
with stmt (s : PStmt) (st : RaceProof) {struct s} : outcome RaceProof :=
  let st := enter_statement s st in
  match s with
  | SLetDecl name is_mut e _ =>
      st ←! expr e st;
      b ←! let_binding is_mut e st;
      bind name b st
  | SAssign lhs rhs span => st ←! target lhs span st; expr rhs st
  | SCompoundAssign lhs rhs span => st ←! target lhs span st; st ←! expr lhs st; expr rhs st
  | SForLoop iter iterable _ body across _ =>
      st ←! expr iterable st;
      r ←! bind_index iter iterable (int_range iterable) across (push_scope st);
      st ←! ofold stmt body r.2;
      Returns (pop_scope st)
  | SLoop _ body _ => st ←! ofold stmt body (push_scope st); Returns (pop_scope st)
  | SExprStmt e _ | SAssert e _ => expr e st
  | SReturn o _ => match o with Some e => expr e st | None => Returns st end
  | SBreak _ | SContinue _ | SDrop _ _ | SMacroCall _ | SError _ => Returns st
  end.

(** ** The check *)

(** The accesses that a write [w], at position [i], may meet. *)
Fixpoint check_against (st : RaceProof) (name own : Symbol) (i : nat) (w : Access) (j : nat) (others : list Access)
    : outcome (option (RaceError * Span)) :=
  match others with
  | [] => Returns None
  | other :: others =>
      if bool_decide (is_Some (ac_pass w)) && bool_decide (ac_pass w = ac_pass other) then
        check_against st name own i w (S j) others
      else
        apart ←! some_apart st (ac_indices w) (ac_indices other);
        if apart : bool then check_against st name own i w (S j) others
        else
          let why :=
            if Nat.eqb i j then WriteUnfixed name own
            else if ac_write other then WritesMeet name own
            else ReadMeets name own in
          Returns (Some (why, ac_span other))
  end.

Fixpoint check_writes (st : RaceProof) (name own : Symbol) (all : list Access) (i : nat) (ws : list Access)
    : outcome (option (RaceError * Span)) :=
  match ws with
  | [] => Returns None
  | w :: ws =>
      if ac_write w then
        r ←! check_against st name own i w 0 all;
        match r with Some e => Returns (Some e) | None => check_writes st name own all (S i) ws end
      else check_writes st name own all (S i) ws
  end.

Definition check_tensor (st : RaceProof) (own name : Symbol) (accesses : list Access)
    : outcome (option (RaceError * Span)) :=
  if existsb ac_atomic accesses then
    Returns
      match List.find (fun a => negb (ac_atomic a)) accesses with
      | Some a => Some (MixedAtomic name, ac_span a)
      | None => match rp_whole st !! name with Some at_ => Some (MixedAtomic name, at_) | None => None end
      end
  else
    match rp_whole st !! name with
    | Some at_ =>
        if existsb ac_write accesses then Returns (Some (UsesWhole name, at_))
        else check_writes st name own accesses 0 accesses
    | None => check_writes st name own accesses 0 accesses
    end.

Fixpoint check_tensors (st : RaceProof) (own : Symbol) (l : list (string * list Access))
    : outcome (option (RaceError * Span)) :=
  match l with
  | [] => Returns None
  | (name, accesses) :: l =>
      r ←! check_tensor st own name accesses;
      match r with Some e => Returns (Some e) | None => check_tensors st own l end
  end.

Definition race_check (own : Symbol) (st : RaceProof) : outcome (option (RaceError * Span)) :=
  check_tensors st own (rp_accesses st).

(** ** The loop *)

Definition race_start (contracts : gmap Symbol (list nat)) (limits : gmap string Z) (at_ : Span) : RaceProof :=
  mkRaceProof contracts "" [∅] ∅ ∅ limits [] [] ∅ 0 None at_ None.

(** [prove]: the walk and the check of the loop, with the most passes of each open loop. *)
Definition prove (iter : Symbol) (iterable : PExpr) (body : list PStmt) (across : option Span) (at_ : Span)
    (contracts : gmap Symbol (list nat)) (limits : gmap string Z) : outcome (option (RaceError * Span) * RaceProof) :=
  r ←! bind_index iter iterable (int_range iterable) across (race_start contracts limits at_);
  st ←! ofold stmt body (with_own r.1 r.2);
  match rp_error st with
  | Some e => Returns (Some e, st)
  | None => e ←! race_check iter st; Returns (e, st)
  end.

(** The search for the most passes: [ok] holds and [bad] may not. *)
Fixpoint search_passes (holds : Z -> outcome bool) (fuel : nat) (ok bad : Z) : outcome Z :=
  match fuel with
  | O => Returns ok
  | S fuel =>
      if 1 <? bad - ok then
        let mid := ok + Z.quot (bad - ok) 2 in
        h ←! holds mid;
        if h : bool then search_passes holds fuel mid bad else search_passes holds fuel ok mid
      else Returns ok
  end.

Definition LargestEnd : Type := Span * Z * ElementType.

(** [across_loop_race]: the largest ends of the open [across] loops, or why passes may race. *)
Definition across_loop_race (f : PStmt) (contracts : gmap Symbol (list nat))
    : outcome (result (list LargestEnd) (RaceError * Span)) :=
  match f with
  | SForLoop iter iterable _ body across span =>
      one ←! match int_range iterable with
             | Some (lo, hi) => d ←! i64_op (hi - lo); Returns (d <=? 1)
             | None => Returns false
             end;
      if one : bool then Returns (Ok [])
      else
        let run := prove iter iterable body across span contracts in
        r ←! run ∅;
        match r.1 with
        | None => Returns (Ok [])
        | Some error =>
            let open := rp_open r.2 in
            let holds k :=
              r ←! run (list_to_map ((fun o : string * Span * Z * ElementType => (o.1.1.1, k)) <$> open));
              Returns (match r.1 with None => true | Some _ => false end) in
            match open with
            | [] => Returns (Err error)
            | _ =>
                h ←! holds 1;
                if h : bool then
                  ok ←! search_passes holds 64 1 (2 ^ 64);
                  Returns (Ok ((fun o : string * Span * Z * ElementType => (o.1.1.2, o.1.2 + ok, o.2)) <$> open))
                else Returns (Err error)
            end
        end
  | _ => Panics
  end.
