(* ===== verification/RaceSem.v ===== *)
(** * What the passes of an [across] loop touch

    The meaning that the race check of [Race] is measured against: which
    elements of which tensors a pass may touch.  Integer arithmetic wraps at the
    width of its type, as the language says.  What is not an integer computation
    has any value; a call, a block or a borrow that the check refuses touches
    anything.  A name that the pass declares belongs to the pass.

    A value is tainted when its arithmetic uses a value from outside the loop.
    [wraps] says whether tainted arithmetic may leave its type. *)

From stdpp Require Import base list strings gmap.
From Stdlib Require Import ZArith Lia.
From S2P Require Import Prelude Gid Syntax Types Program Race.
Open Scope Z_scope.

(** A local: an integer that does not change, with its type and its taint; a
    mutable local; or something that is not an integer. *)
Inductive Val : Type :=
| VInt (v : Z) (ty : ElementType) (taint : bool)
| VMut
| VOther.

Abbreviation Env := (list (gmap Symbol Val)).

Fixpoint env_lookup (env : Env) (name : Symbol) : option Val :=
  match env with
  | [] => None
  | s :: env => match s !! name with Some x => Some x | None => env_lookup env name end
  end.

Definition env_bind (name : Symbol) (x : Val) (env : Env) : Env :=
  match env with
  | [] => []
  | s :: env => <[name := x]> s :: env
  end.

(** The values of a type; a number of another type is any number. *)
Definition typed (ty : ElementType) (v : Z) : Prop :=
  match integer_range ty with Some (lo, hi) => lo <= v <= hi | None => True end.

Record Acc : Type := mkAcc { sa_name : Symbol; sa_idx : list Z; sa_write : bool; sa_atomic : bool }.

(** The names that a pattern binds. *)
Fixpoint pattern_names (p : Pattern) : list Symbol :=
  match p with
  | PIdentifier n => [n]
  | PEnumVariant _ _ (Some ps) => flat_map pattern_names ps
  | _ => []
  end.

(** Statements in order: [next] is what a statement binds. *)
Section seq.
Context (f : Env -> PStmt -> Prop) (next : Env -> PStmt -> Env -> Prop).
Fixpoint seq_some (env : Env) (l : list PStmt) : Prop :=
  match l with
  | [] => False
  | s :: l => f env s \/ exists env', next env s env' /\ seq_some env' l
  end.
End seq.

Fixpoint seq_run (next : Env -> PStmt -> Env -> Prop) (env : Env) (l : list PStmt) (env' : Env) : Prop :=
  match l with
  | [] => env' = env
  | s :: l => exists env1, next env s env1 /\ seq_run next env1 l env'
  end.

Section some.
Context {A : Type} (f : A -> Prop).
Fixpoint some_of (l : list A) : Prop := match l with [] => False | a :: l => f a \/ some_of l end.
End some.

Section somei.
Context {A : Type} (f : nat -> A -> Prop).
Fixpoint some_ofi (i : nat) (l : list A) : Prop := match l with [] => False | a :: l => f i a \/ some_ofi (S i) l end.
End somei.

Section semantics.
(** The values from outside the loop that are integers, the contracts of the
    functions, the largest ends that the launch checks, and whether tainted
    arithmetic may wrap. *)
Context (outs : Symbol -> option (Z * ElementType)) (contracts : gmap Symbol (list nat)) (ends : list LargestEnd)
  (wraps : bool).

(** ** Integers *)

(** The value [v] of an operation whose exact result is [r]. *)
Definition result_of (ty : ElementType) (taint : bool) (r v : Z) : Prop :=
  (typed ty r /\ v = r) \/
  (~ typed ty r /\ (wraps = true \/ taint = false) /\ typed ty v /\
   exists bits, ElementType_bits ty = Some bits /\ v mod 2 ^ bits = r mod 2 ^ bits).

Definition number_value (s : Symbol) (ty : option ElementType) (v : Z) (t : ElementType) (taint : bool) : Prop :=
  (forall t', ty = Some t' -> t = t') /\
  match parse_int 128 s with Some z => v = z /\ taint = false | None => True end.

(** [e] is not an integer computation. *)
Fixpoint unknown (env : Env) (e : PExpr) : Prop :=
  match e with
  | EIdentifier name _ =>
      match env_lookup env name with Some VOther => True | None => outs name = None | _ => False end
  | ENumber s _ _ => parse_int 128 s = None
  | EBinaryOp _ _ _ _ ty => ty ≫= integer_range = None
  | EUnaryOp _ e _ => unknown env e
  | EAsCast _ target _ _ => scalar_of target ≫= integer_range = None
  | _ => True
  end.

Fixpoint eval (env : Env) (e : PExpr) (v : Z) (ty : ElementType) (taint : bool) : Prop :=
  match e with
  | ENumber s t _ => number_value s t v ty taint /\ typed ty v
  | EIdentifier name _ =>
      match env_lookup env name with
      | Some (VInt v' ty' taint') => v = v' /\ ty = ty' /\ taint = taint'
      | Some VMut => typed ty v
      | Some VOther => False
      | None => outs name = Some (v, ty) /\ taint = true /\ typed ty v
      end
  | EBinaryOp a op b _ (Some t) =>
      ty = t /\
      let exact f := exists v1 t1 v2 t2, eval env a v1 t t1 /\ eval env b v2 t t2 /\ taint = t1 || t2 /\
                       exists r, f v1 v2 = Some r /\ result_of t taint r v in
      match op with
      | Add => exact (fun x y => Some (x + y))
      | Sub => exact (fun x y => Some (x - y))
      | Mul => exact (fun x y => Some (x * y))
      | Div => exact (fun x y => if y =? 0 then None else Some (Z.quot x y))
      | _ => typed ty v
      end
  | EUnaryOp Neg e _ =>
      exists v1, (eval env e v1 ty taint \/ match e with ENumber s t _ => number_value s t v1 ty taint | _ => False end) /\
        result_of ty taint (- v1) v
  | EAsCast e target source _ =>
      scalar_of target = Some ty /\
      ((exists v1 t1, eval env e v1 t1 taint /\ (forall s, source ≫= scalar_of = Some s -> t1 = s) /\ result_of ty taint v1 v) \/
       ((source ≫= scalar_of) ≫= integer_range = None /\ unknown env e /\ typed ty v))
  | _ => typed ty v
  end.

(** [cond] can hold. *)
Fixpoint may_hold (env : Env) (cond : PExpr) : Prop :=
  match cond with
  | ERelationalOp a REq b _ _ =>
      (exists v t1 t2 k1 k2, eval env a v t1 k1 /\ eval env b v t2 k2) \/ unknown env a \/ unknown env b
  | ELogicalOp a LAnd b _ => may_hold env a /\ may_hold env b
  | _ => True
  end.

(** What a statement binds. *)
Definition next (env : Env) (s : PStmt) (env' : Env) : Prop :=
  match s with
  | SLetDecl name is_mut e _ =>
      exists x, env' = env_bind name x env /\
        (if is_mut : bool then x = VMut
         else (exists v ty taint, x = VInt v ty taint /\ eval env e v ty taint) \/ (x = VOther /\ unknown env e))
  | _ => env' = env
  end.

(** [i] is an index of the loop over [iterable]. *)
Definition loop_index (env : Env) (iterable : PExpr) (across : option Span) (i : Z) (ty : ElementType) : Prop :=
  typed ty i /\
  match iterable with
  | ERange a b _ => exists lo t1 hi t2, eval env a lo ty t1 /\ eval env b hi ty t2 /\ lo <= i < hi
  | _ => True
  end /\
  forall at_ e t, across = Some at_ -> (at_, e, t) ∈ ends -> i < e.

(** ** Accesses *)

(** An element of a tensor from outside. *)
Definition element_access (env : Env) (name : Symbol) (idx : list PExpr) (write : bool) (a : Acc) : Prop :=
  env_lookup env name = None /\ sa_name a = name /\ sa_write a = write /\ sa_atomic a = false /\
  Forall2 (fun e v => exists ty taint, eval env e v ty taint) idx (sa_idx a).

(** An atomic change of the tensor that [arg] passes. *)
Definition atomic_access (env : Env) (arg : PExpr) (a : Acc) : Prop :=
  match passed_tensor arg with
  | Some name => env_lookup env name = None /\ sa_name a = name /\ sa_write a = true /\ sa_atomic a = true
  | None => True
  end.

Section touch.
Context (a : Acc).

Fixpoint touches (env : Env) (e : PExpr) {struct e} : Prop :=
  match e with
  | EIndexAccess base index _ =>
      match root base with
      | Some name => touches_indices env base \/ touches env index \/ element_access env name (indices_of e) false a
      | None => touches env base \/ touches env index
      end
  | EIdentifier name _ => env_lookup env name = None /\ a = mkAcc name [] false false
  | EFunctionCall name args _ =>
      let pure := parallel_pure_call name || is_tensor_alloc_call name || String.prefix "lanes::" name in
      match (if pure then None else contracts !! name) with
      | Some params => some_ofi (fun i x => if decide (i ∈ params) then atomic_access env x a else touches env x) 0 args
      | None =>
          if negb pure then True
          else
            match writes_first_of name, args with
            | true, EBorrow b _ _ :: rest => touches_target env b \/ some_of (touches env) rest
            | _, _ => some_of (touches env) args
            end
      end
  | EBorrow b is_mut _ => if is_mut : bool then True else touches env b
  | EIf c t f _ =>
      touches env c \/ (may_hold env c /\ seq_some touches_stmt next (∅ :: env) t) \/
      match f with Some f => seq_some touches_stmt next (∅ :: env) f | None => False end
  | EMatch m arms _ =>
      touches env m \/
      some_of (fun arm : Pattern * list PStmt =>
                 exists names : gmap Symbol Val, (forall n, is_Some (names !! n) <-> n ∈ pattern_names arm.1) /\
                   seq_some touches_stmt next (names :: env) arm.2) arms
  | EUnsafeBlock ss r _ _ =>
      seq_some touches_stmt next (∅ :: env) ss \/
      match r with Some r => exists env', seq_run next (∅ :: env) ss env' /\ touches env' r | None => False end
  | EInlineMlir inputs _ ensures _ =>
      match ensures with
      | [] => True
      | _ => some_of (fun x => match passed_tensor x with
                               | Some n => if decide (n ∈ atomic_inputs ensures) then atomic_access env x a else touches env x
                               | None => touches env x
                               end) inputs
      end
  | EPrint _ _ | EPrintln _ _ | EMethodCall _ _ _ _ | EIndirectCall _ _ _ | ESpawnOn _ _ _ | ETaskBlock _ _ _
  | EClosure _ _ | EComptimeBlock _ _ _ | EGrad _ _ _ | EVjp _ _ _ _ | EJvp _ _ _ _ => True
  | ENumber _ _ _ | EStringLiteral _ _ | ETransferPredicate _ | EMemorySpace _ _ | ETopology _ _ | EMacroCall _
  | ESizeOf _ => False
  | ETransfer x _ | EMemberAccess x _ _ | EUnaryOp _ x _ | EDereference x _ | EAsCast x _ _ _ => touches env x
  | EBinaryOp x _ y _ _ | ERelationalOp x _ y _ _ | ELogicalOp x _ y _ | ERange x y _ => touches env x \/ touches env y
  | EEnumVariant _ _ payload _ => match payload with Some es => some_of (touches env) es | None => False end
  | EArray es _ | EVecMacro es _ => some_of (touches env) es
  | EStructInit _ fields _ => some_of (fun f => touches env f.2) fields
  end
with touches_indices (env : Env) (e : PExpr) {struct e} : Prop :=
  match e with
  | EIndexAccess base index _ => touches_indices env base \/ touches env index
  | _ => False
  end
with touches_target (env : Env) (lhs : PExpr) {struct lhs} : Prop :=
  match lhs with
  | EIndexAccess base index _ =>
      match root base with
      | Some name => touches_indices env base \/ touches env index \/ element_access env name (indices_of lhs) true a
      | None => True
      end
  | EIdentifier name _ => env_lookup env name = None
  | EMemberAccess base _ _ => touches_target env base
  | _ => True
  end
with touches_stmt (env : Env) (s : PStmt) {struct s} : Prop :=
  match s with
  | SLetDecl _ _ e _ | SExprStmt e _ | SAssert e _ => touches env e
  | SAssign l r _ => touches_target env l \/ touches env r
  | SCompoundAssign l r _ => touches_target env l \/ touches env l \/ touches env r
  | SForLoop iter iterable _ body across _ =>
      touches env iterable \/
      exists i ty, loop_index env iterable across i ty /\
        seq_some touches_stmt next ({[iter := VInt i ty false]} :: env) body
  | SLoop _ body _ => seq_some touches_stmt next (∅ :: env) body
  | SReturn o _ => match o with Some e => touches env e | None => False end
  | SBreak _ | SContinue _ | SDrop _ _ | SMacroCall _ | SError _ => False
  end.
End touch.

(** The pass [p] of the loop touches [a]. *)
Definition pass_touches (f : PStmt) (p : Z) (a : Acc) : Prop :=
  match f with
  | SForLoop iter iterable _ body across _ =>
      exists ty, loop_index [∅] iterable across p ty /\
        seq_some (touches_stmt a) next [{[iter := VInt p ty false]}] body
  | _ => False
  end.

(** The two accesses may meet. *)
Definition overlap (a b : Acc) : Prop :=
  sa_name a = sa_name b /\ forall i v w, sa_idx a !! i = Some v -> sa_idx b !! i = Some w -> v = w.

(** No two passes touch a place that one of them writes, but with atomic operations. *)
Definition race_free (f : PStmt) : Prop :=
  forall p q a b, p <> q -> pass_touches f p a -> pass_touches f q b ->
    sa_write a = true \/ sa_write b = true -> ~ (sa_atomic a = true /\ sa_atomic b = true) -> ~ overlap a b.
End semantics.
