(* ===== verification/RaceForm.v ===== *)
(** * Affine forms and mixed-radix numbers

    The arithmetic behind the race check: what the operations on affine forms
    do to their value, what the bounds of a form say, and why two passes that
    [fixes_own], [fixes_own_with] or [own_term_decides] tells apart never
    compute the same index. *)

From stdpp Require Import base list strings gmap sorting.
From Stdlib Require Import ZArith Lia.
From S2P Require Import Prelude Gid Syntax Types Program Race.
Open Scope Z_scope.

Ltac bindo :=
  repeat match goal with
  | H : outcome_bind _ _ = Returns _ |- _ => apply outcome_bind_Returns in H as (? & ? & ?)
  end.

(** ** The value of a form *)

(** The values of the variables, by key. *)
Abbreviation Valuation := (string -> Z).

Fixpoint terms_value (rho : Valuation) (l : list (string * Z)) : Z :=
  match l with [] => 0 | (v, c) :: l => c * rho v + terms_value rho l end.

Definition form_value (rho : Valuation) (a : Affine) : Z := terms_value rho (terms a) + constant a.

(** ** Sorted keys *)

Lemma ascii_compare_trans a b c : Ascii.compare a b = Lt -> Ascii.compare b c = Lt -> Ascii.compare a c = Lt.
Proof. unfold Ascii.compare. rewrite !N.compare_lt_iff. lia. Qed.

Lemma string_compare_refl s : String.compare s s = Eq.
Proof.
  induction s as [|a s IH]; cbn; [done|]. unfold Ascii.compare. by rewrite N.compare_refl.
Qed.

Lemma string_compare_trans s t u : String.compare s t = Lt -> String.compare t u = Lt -> String.compare s u = Lt.
Proof.
  revert t u. induction s as [|a s IH]; intros [|b t] [|c u]; cbn; try done.
  destruct (Ascii.compare a b) eqn:E1; try done; destruct (Ascii.compare b c) eqn:E2; try done.
  - apply Ascii.compare_eq_iff in E1 as ->. rewrite E2. apply IH.
  - apply Ascii.compare_eq_iff in E1 as ->. by rewrite E2.
  - apply Ascii.compare_eq_iff in E2 as ->. by rewrite E1.
  - by rewrite (ascii_compare_trans _ _ _ E1 E2).
Qed.

Lemma string_compare_gt s t : String.compare s t = Gt -> String.compare t s = Lt.
Proof. rewrite String.compare_antisym. by destruct (String.compare t s). Qed.

Definition key_lt {A} (a b : string * A) : Prop := String.compare a.1 b.1 = Lt.
Definition keys_sorted {A} (l : list (string * A)) : Prop := StronglySorted key_lt l.

Lemma assoc_elem {A} k (l : list (string * A)) a : assoc k l = Some a -> (k, a) ∈ l.
Proof.
  induction l as [|[k' a'] l IH]; cbn; [done|]. case_decide as H; [intros [= ->]; subst; by left|right; auto].
Qed.

Lemma sorted_below {A} k (l : list (string * A)) : Forall (fun e => String.compare k e.1 = Lt) l -> (k ∉ l.*1).
Proof.
  induction 1 as [|[k' a] l H _ IH]; cbn; [apply not_elem_of_nil|]. rewrite not_elem_of_cons. split; [|done].
  intros ->. cbn in H. by rewrite string_compare_refl in H.
Qed.

Lemma keys_sorted_NoDup {A} (l : list (string * A)) : keys_sorted l -> NoDup l.*1.
Proof.
  induction 1 as [|[k a] l _ IH H]; cbn; constructor; [|done]. by apply sorted_below.
Qed.

(** Both ends of an update: the keys, and the sortedness. *)
Lemma bt_update_keys {A} k (g : option A -> A) l e : e ∈ (bt_update k g l).*1 -> e = k \/ e ∈ l.*1.
Proof.
  induction l as [|[k' a] l IH]; cbn.
  - intros H%list_elem_of_singleton. by left.
  - destruct (String.compare k k') eqn:E; cbn; rewrite ?elem_of_cons; intuition.
Qed.

Lemma bt_update_sorted {A} k (g : option A -> A) l : keys_sorted l -> keys_sorted (bt_update k g l).
Proof.
  induction 1 as [|[k' a] l Hs IH H]; cbn; [by repeat constructor|].
  destruct (String.compare k k') eqn:E; [by constructor|..].
  - constructor; [by constructor|]. constructor; [done|]. eapply Forall_impl; [exact H|]. intros e He. by eapply string_compare_trans.
  - constructor; [done|]. apply Forall_forall. intros [e x] Hin.
    assert (e ∈ (bt_update k g l).*1) as [->|Hin']%bt_update_keys by (by apply list_elem_of_fmap_2 with (f := fst) in Hin).
    + by apply string_compare_gt.
    + apply list_elem_of_fmap in Hin' as ([e' y] & -> & Hin'). rewrite Forall_forall in H. by apply (H _ Hin').
Qed.

(** The value of a key after an update, and of the others. *)
Lemma assoc_bt_update {A} k (g : option A -> A) l k' : keys_sorted l ->
  assoc k' (bt_update k g l) = if decide (k' = k) then Some (g (assoc k l)) else assoc k' l.
Proof.
  induction 1 as [|[k0 a] l Hs IH H]; cbn; [repeat case_decide; congruence|].
  destruct (String.compare k k0) eqn:E; cbn.
  - apply String.compare_eq_iff in E as ->. rewrite (decide_True (P := k0 = k0)) by done.
    repeat case_decide; congruence.
  - assert (k <> k0) by (intros ->; by rewrite string_compare_refl in E). rewrite (decide_False (P := k0 = k)) by congruence.
    rewrite (proj2 (assoc_None k l)); [repeat case_decide; congruence|].
    apply sorted_below. eapply Forall_impl; [exact H|]. intros e He. by eapply string_compare_trans.
  - assert (k <> k0) by (intros ->; by rewrite string_compare_refl in E). rewrite IH.
    repeat case_decide; congruence.
Qed.

(** ** Operations on forms *)

Definition form_keys (a : Affine) : list string := (terms a).*1.

Lemma bt_update_value rho k x l : keys_sorted l ->
  terms_value rho (bt_update k (fun _ => x) l) = terms_value rho l + (x - default 0 (assoc k l)) * rho k.
Proof.
  induction 1 as [|[k' c] l Hs IH H]; cbn; [lia|]. destruct (String.compare k k') eqn:E; cbn.
  - apply String.compare_eq_iff in E as ->. rewrite decide_True by done. cbn. lia.
  - assert (k <> k') by (intros ->; by rewrite string_compare_refl in E). rewrite (decide_False (P := k' = k)) by congruence.
    rewrite (proj2 (assoc_None k l)); [cbn; lia|]. apply sorted_below. eapply Forall_impl; [exact H|]. intros e He. by eapply string_compare_trans.
  - assert (k <> k') by (intros ->; by rewrite string_compare_refl in E). rewrite (decide_False (P := k' = k)) by congruence.
    rewrite IH. lia.
Qed.

Lemma add_terms_spec rho sign other l l' : keys_sorted l -> add_terms sign other l = Some l' ->
  keys_sorted l' /\ terms_value rho l' = terms_value rho l + sign * terms_value rho other /\
  forall k, k ∈ l'.*1 -> k ∈ l.*1 \/ k ∈ other.*1.
Proof.
  revert l. induction other as [|[v c] other IH]; intros l Hs; cbn [add_terms]; [intros [= <-]; split_and!; [done|cbn; lia|by left]|].
  intros (m & Hm & (x & Hx & Ha)%bind_Some)%bind_Some. apply checked_i_Some in Hm as [<- _]. apply checked_i_Some in Hx as [<- _].
  destruct (IH _ (bt_update_sorted _ _ _ Hs) Ha) as (H1 & H2 & H3). split_and!; [done|rewrite H2, bt_update_value by done; cbn; lia|].
  intros k [Hk|Hk]%H3; cbn; [|right; by right]. apply bt_update_keys in Hk as [->|Hk]; [right; by left|by left].
Qed.

Lemma retain_value rho l : terms_value rho (retain_terms l) = terms_value rho l.
Proof.
  induction l as [|[v c] l IH]; [done|]. unfold retain_terms in *. rewrite filter_cons. cbn [snd].
  case_decide as H; cbn; [by rewrite IH|]. cbn in H. subst. rewrite IH. lia.
Qed.

Lemma retain_keys l k : k ∈ (retain_terms l).*1 -> k ∈ l.*1.
Proof. intros (e & -> & He)%list_elem_of_fmap. apply list_elem_of_filter in He as [_ He]. by apply list_elem_of_fmap_2. Qed.

Lemma retain_sorted l : keys_sorted l -> keys_sorted (retain_terms l).
Proof.
  unfold retain_terms. induction 1 as [|e l Hs IH H]; [constructor|]. rewrite filter_cons. case_decide; [|done].
  constructor; [done|]. apply Forall_forall. intros x [_ Hx]%list_elem_of_filter. rewrite Forall_forall in H. by apply H.
Qed.

Lemma Affine_add_spec rho a b sign f : keys_sorted (terms a) -> Affine_add a b sign = Some f ->
  keys_sorted (terms f) /\ form_value rho f = form_value rho a + sign * form_value rho b /\
  forall k, k ∈ form_keys f -> k ∈ form_keys a \/ k ∈ form_keys b.
Proof.
  unfold Affine_add, form_value, form_keys. intros Hs (ts & Ht & (m & Hm & (c & Hc & [= <-])%bind_Some)%bind_Some)%bind_Some.
  apply checked_i_Some in Hm as [<- _]. apply checked_i_Some in Hc as [<- _]. cbn.
  destruct (add_terms_spec rho _ _ _ _ Hs Ht) as (H1 & H2 & H3). split_and!; [by apply retain_sorted|rewrite retain_value, H2; lia|].
  intros k Hk%retain_keys. by apply H3.
Qed.

Lemma scale_terms_spec rho k l l' :
  mapM (fun e : string * Z => c ← checked_i 64 (e.2 * k); Some (e.1, c)) l = Some l' ->
  l'.*1 = l.*1 /\ terms_value rho l' = terms_value rho l * k.
Proof.
  revert l'. induction l as [|[v c] l IH]; intros l'; cbn; [intros [= <-]; done|].
  intros ([v' c'] & (x & Hx & [= <- <-])%bind_Some & (l2 & Hl & [= <-])%bind_Some)%bind_Some.
  apply checked_i_Some in Hx as [<- _]. destruct (IH _ Hl) as [H1 H2]. cbn. rewrite H1, H2. split; [done|]. cbn [snd]. lia.
Qed.

Lemma keys_sorted_same {A B} (l : list (string * A)) (l' : list (string * B)) : l'.*1 = l.*1 -> keys_sorted l -> keys_sorted l'.
Proof.
  intros Hk Hs. revert l' Hk. induction Hs as [|[k a] l Hs IH H]; intros [|[k' b] l']; cbn; try done; [constructor|].
  intros [= -> Hl]. constructor; [by apply IH|]. apply Forall_forall. intros [x y] Hx.
  assert (x ∈ l.*1) as Hin by (rewrite <-Hl; by apply (list_elem_of_fmap_2 fst) in Hx).
  apply list_elem_of_fmap in Hin as ([x' z] & -> & Hin). rewrite Forall_forall in H. by apply (H _ Hin).
Qed.

Lemma Affine_scale_spec rho a k f : keys_sorted (terms a) -> Affine_scale a k = Some f ->
  keys_sorted (terms f) /\ form_value rho f = form_value rho a * k /\ forall x, x ∈ form_keys f -> x ∈ form_keys a.
Proof.
  unfold Affine_scale, form_value, form_keys. intros Hs (ts & Ht & (c & Hc & [= <-])%bind_Some)%bind_Some.
  apply checked_i_Some in Hc as [<- _]. cbn. destruct (scale_terms_spec rho _ _ _ Ht) as [H1 H2]. split_and!.
  - apply retain_sorted. by eapply keys_sorted_same.
  - rewrite retain_value, H2. lia.
  - intros x Hx%retain_keys. by rewrite <-H1.
Qed.

(** A key of a form that is negated stays. *)
Lemma Affine_neg_keys a f x : Affine_scale a (-1) = Some f -> x ∈ form_keys a -> Forall (fun e => e.2 <> 0) (terms a) -> x ∈ form_keys f.
Proof.
  unfold Affine_scale, form_keys. intros (ts & Ht & (c & Hc & [= <-])%bind_Some)%bind_Some. cbn. clear Hc. revert ts Ht.
  induction (terms a) as [|[v d] l IH]; intros ts; cbn; [intros _ H; by apply elem_of_nil in H|].
  intros ([v' d'] & (y & Hy & [= <- <-])%bind_Some & (l2 & Hl & [= <-])%bind_Some)%bind_Some [->|Hx]%elem_of_cons [Hd Hf]%Forall_cons.
  - apply checked_i_Some in Hy as [<- _]. unfold retain_terms. rewrite filter_cons, decide_True by (cbn in *; lia). by left.
  - unfold retain_terms. rewrite filter_cons. case_decide; [right|]; by apply IH.
Qed.

Lemma retain_nonzero l : Forall (fun e : string * Z => e.2 <> 0) (retain_terms l).
Proof. apply Forall_forall. by intros x [Hx _]%list_elem_of_filter. Qed.

Lemma as_constant_value rho a k : as_constant a = Some k -> form_value rho a = k.
Proof. unfold as_constant, form_value. destruct (terms a); [|done]. intros [= <-]. done. Qed.

(** ** Bounds *)

Lemma i64_op_Returns z v : i64_op z = Returns v <-> z = v /\ imin 64 <= z <= imax 64.
Proof. unfold i64_op. destruct (in_i 64 z) eqn:E; rewrite <-in_i_true, E; naive_solver. Qed.
Lemma i128_op_Returns z v : i128_op z = Returns v <-> z = v /\ imin 128 <= z <= imax 128.
Proof. unfold i128_op. destruct (in_i 128 z) eqn:E; rewrite <-in_i_true, E; naive_solver. Qed.

Ltac i128 :=
  repeat match goal with
  | H : outcome_bind _ _ = Returns _ |- _ => apply outcome_bind_Returns in H as (? & ? & ?)
  | H : i128_op _ = Returns _ |- _ => apply i128_op_Returns in H as [<- _]
  | H : i64_op _ = Returns _ |- _ => apply i64_op_Returns in H as [<- _]
  end.

Lemma mul_between c a b x : a <= x <= b -> Z.min (c * a) (c * b) <= c * x <= Z.max (c * a) (c * b).
Proof.
  intros H. destruct (Z.lt_ge_cases c 0).
  - assert (c * b <= c * x <= c * a) by nia. lia.
  - assert (c * a <= c * x <= c * b) by nia. lia.
Qed.

(** The range that [bounds] uses for a variable. *)
Definition used_range (st : RaceProof) (fallback : option (Z * Z)) (v : string) : option (Z * Z) :=
  match index_range st v with Some r => Some r | None => fallback end.

Definition in_range (r : option (Z * Z)) (x : Z) : Prop := match r with Some (a, b) => a <= x <= b | None => True end.

Definition skip_outside (passes_only : bool) (rho : Valuation) : Valuation :=
  fun v => if passes_only && is_outside v then 0 else rho v.

Lemma bounds_loop_sound st po fb rho l lo hi r x :
  bounds_loop st po fb l lo hi = Returns (Some r) ->
  (forall v, v ∈ l.*1 -> po && is_outside v = false -> in_range (used_range st fb v) (rho v)) ->
  lo <= x <= hi -> r.1 <= x + terms_value (skip_outside po rho) l <= r.2.
Proof.
  revert lo hi x. induction l as [|[v c] l IH]; intros lo hi x; cbn [bounds_loop]; [intros [= <-] _ H; cbn; lia|].
  intros Hb Hv Hx. cbn [terms_value].
  assert (skip_outside po rho v = if po && is_outside v then 0 else rho v) as -> by done.
  assert (forall v', v' ∈ l.*1 -> po && is_outside v' = false -> in_range (used_range st fb v') (rho v')) as Hv' by (intros; apply Hv; [by right|done]).
  destruct (po && is_outside v) eqn:Es.
  - specialize (IH _ _ _ Hb Hv' Hx). lia.
  - fold (used_range st fb v) in Hb. pose proof (Hv v ltac:(by left) Es) as Hr. destruct (used_range st fb v) as [[a b]|]; [|done].
    cbn in Hr. i128. pose proof (mul_between c a b (rho v) Hr) as Hm.
    specialize (IH _ _ (x + c * rho v) ltac:(eassumption) Hv' ltac:(lia)). lia.
Qed.

Lemma bounds_sound st form po fb rho r :
  bounds st form po fb = Returns (Some r) ->
  (forall v, v ∈ form_keys form -> po && is_outside v = false -> in_range (used_range st fb v) (rho v)) ->
  r.1 <= form_value (skip_outside po rho) form <= r.2.
Proof.
  unfold bounds, form_value. intros Hb Hv. pose proof (bounds_loop_sound _ _ _ rho _ _ _ _ (constant form) Hb Hv ltac:(lia)). lia.
Qed.

Lemma skip_outside_value po rho l : (forall v, v ∈ l.*1 -> po && is_outside v = false) ->
  terms_value (skip_outside po rho) l = terms_value rho l.
Proof.
  induction l as [|[v c] l IH]; intros H; cbn; [done|]. unfold skip_outside at 1. rewrite (H v) by (by left).
  rewrite IH; [done|]. intros w Hw. apply H. by right.
Qed.

(** A form with a variable from outside has no bounds of its own. *)
Lemma bounds_no_outside st form r v :
  bounds st form false None = Returns (Some r) -> v ∈ form_keys form -> is_Some (index_range st v).
Proof.
  unfold bounds, form_keys. generalize (constant form) at 1 as lo. generalize (constant form) as hi.
  induction (terms form) as [|[w c] l IH]; intros hi lo; cbn [bounds_loop fmap list_fmap]; [intros _ H; by apply elem_of_nil in H|].
  cbn [andb]. destruct (index_range st w) as [[a b]|] eqn:E; [|done]. intros Hb. i128. intros [->|Hin]%elem_of_cons; [by eexists|by eapply IH].
Qed.

(** ** Mixed-radix numbers *)

(** The digit [d] of coefficient [c] is one of the differences that its range allows. *)
Definition digit_ok (e : Z * option Z) (d : Z) : Prop := match e.2 with Some s => Z.abs d <= s - 1 | None => True end.

Fixpoint digits_value (ds : list (Z * option Z)) (vs : list Z) : Z :=
  match ds, vs with
  | d :: ds, v :: vs => d.1 * v + digits_value ds vs
  | _, _ => 0
  end.

Lemma mixed_radix_zero ds vs most r :
  mixed_radix ds most = true -> Forall2 digit_ok ds vs -> 0 <= most -> Z.abs r <= most ->
  r + digits_value ds vs = 0 -> Forall (fun v => v = 0) vs /\ r = 0 /\ Forall (fun d => 0 < d.1) ds.
Proof.
  intros Hm Hd. revert most r Hm. induction Hd as [|[c span] v ds vs Hv Hd IH]; intros most r; cbn [mixed_radix digits_value fst].
  - intros _ _ Hr E. split_and!; [done|lia|done].
  - destruct (Z.leb_spec c most) as [|Hc]; [done|]. intros Hm Hmost Hr E.
    assert (ds = [] -> v = 0 /\ r = 0 /\ Forall (fun d => 0 < d.1) ds /\ Forall (fun v => v = 0) vs) as Hlast.
    { intros ->. inversion Hd; subst. cbn in E. assert (v = 0) by nia. split_and!; [done|nia|done|done]. }
    assert (forall m, most + c * (default 0 span - 1) = m -> 1 <= default 0 span -> span <> None -> mixed_radix ds m = true ->
              v = 0 /\ r = 0 /\ Forall (fun d => 0 < d.1) ds /\ Forall (fun v => v = 0) vs) as Hmore.
    { intros m Hm1 Hs Hsp Hm2. destruct span as [s|]; [|done]. cbn in Hv, Hm1, Hs.
      destruct (IH m (r + c * v) Hm2) as (H1 & H2 & H3); [nia|nia|lia|]. assert (v = 0) by nia. split_and!; [done|nia|done|done]. }
    assert (v = 0 /\ r = 0 /\ Forall (fun d => 0 < d.1) ds /\ Forall (fun v => v = 0) vs) as (-> & -> & H3 & H4).
    { destruct span as [s|]; [destruct (Z.leb_spec 1 s)|].
      - destruct (x ← checked_i 64 (c * (s - 1)); checked_i 64 (most + x)) as [m|] eqn:Ex; [|done].
        apply bind_Some in Ex as (x & Hx & Hy). apply checked_i_Some in Hx as [<- _]. apply checked_i_Some in Hy as [<- _].
        by eapply Hmore.
      - destruct ds; [by apply Hlast|done].
      - destruct ds; [by apply Hlast|done]. }
    split_and!; [by constructor|done|]. constructor; [cbn; lia|done].
Qed.

Lemma digits_perm ds ds' vs : ds ≡ₚ ds' -> Forall2 digit_ok ds vs ->
  exists vs', vs ≡ₚ vs' /\ Forall2 digit_ok ds' vs' /\ digits_value ds' vs' = digits_value ds vs.
Proof.
  intros Hp. revert vs. induction Hp as [|d ds ds' _ IH|d e ds|ds ds1 ds2 _ IH1 _ IH2]; intros vs Hf.
  - inversion Hf; subst. by exists [].
  - inversion Hf as [|? v ? vs0 Hv Hf']; subst. destruct (IH _ Hf') as (vs' & H1 & H2 & H3). exists (v :: vs'). split_and!; [by constructor|by constructor|].
    cbn. by rewrite H3.
  - inversion Hf as [|? v ? vs0 Hv Hf']; subst. inversion Hf' as [|? w ? vs1 Hw Hf2]; subst. exists (w :: v :: vs1).
    split_and!; [constructor|by repeat constructor|cbn; lia].
  - destruct (IH1 _ Hf) as (vs1 & H1 & H2 & H3). destruct (IH2 _ H2) as (vs2 & H4 & H5 & H6). exists vs2.
    split_and!; [by etrans|done|congruence].
Qed.

Lemma digits_value_app ds vs ds' vs' : Forall2 digit_ok ds vs -> digits_value (ds ++ ds') (vs ++ vs') = digits_value ds vs + digits_value ds' vs'.
Proof. induction 1; cbn; lia. Qed.

(** ** Two passes *)

(** What the walk knows of a loop index. *)
Definition index_valid (st : RaceProof) (v : string) (x : Z) : Prop :=
  match rp_ranges st !! v with Some (Some (lo, hi)) => lo <= x < hi | _ => True end /\
  match rp_type_ranges st !! v with Some (a, b) => a <= x <= b | None => True end.

Lemma index_valid_range st v x : index_valid st v x -> in_range (index_range st v) x.
Proof.
  intros [H1 H2]. unfold index_range, in_range. destruct (rp_ranges st !! v) as [[[lo hi]|]|]; [|done..].
  destruct (Z.ltb_spec lo hi); [lia|done].
Qed.

Definition form_valid (st : RaceProof) (rho : Valuation) (a : Affine) : Prop :=
  forall v, v ∈ form_keys a -> is_outside v = false -> index_valid st v (rho v).

Definition same_outside (rho rho' : Valuation) : Prop := forall v, is_outside v = true -> rho v = rho' v.

Section two_passes.
Context (st : RaceProof) (rho rho' : Valuation) (Hout : same_outside rho rho').

Lemma digits_of_spec l ds : digits_of st l = Returns ds ->
  (forall v, v ∈ l.*1 -> is_outside v = false -> index_valid st v (rho v) /\ index_valid st v (rho' v)) ->
  exists vs, Forall2 digit_ok ds vs /\ digits_value ds vs = terms_value rho l - terms_value rho' l /\
    (Forall (fun v => v = 0) vs -> Forall (fun d => 0 < d.1) ds -> forall v, v ∈ l.*1 -> rho v = rho' v).
Proof.
  revert ds. induction l as [|[v c] l IH]; intros ds; cbn [digits_of].
  - intros [= <-] _. exists []. split_and!; [constructor|cbn; lia|]. intros _ _ v H. by apply elem_of_nil in H.
  - intros Hd Hv.
    assert (forall w, w ∈ l.*1 -> is_outside w = false -> index_valid st w (rho w) /\ index_valid st w (rho' w)) as Hv' by (intros; apply Hv; [by right|done]).
    destruct (is_outside v) eqn:Eo.
    + destruct (IH _ Hd Hv') as (vs & H1 & H2 & H3). exists vs. split_and!; [done|cbn; rewrite H2, (Hout v Eo); lia|].
      intros Ha Hb w [->|Hw]%elem_of_cons; [by apply Hout|by apply H3].
    + apply outcome_bind_Returns in Hd as (span & Hspan & Hd). apply outcome_bind_Returns in Hd as (c' & Hc & Hd).
      apply outcome_bind_Returns in Hd as (ds' & Hds & [= <-]). apply i64_op_Returns in Hc as [<- _].
      destruct (IH _ Hds Hv') as (vs & H1 & H2 & H3). exists (Z.sgn c * (rho v - rho' v) :: vs).
      destruct (Hv v ltac:(by left) Eo) as [[Hr _] [Hr' _]]. split_and!.
      * constructor; [|done]. unfold digit_ok. cbn. destruct (rp_ranges st !! v) as [[[lo hi]|]|]; [|by injection Hspan as <-..].
        apply outcome_bind_Returns in Hspan as (s & Hs & [= <-]). apply i64_op_Returns in Hs as [<- _]. pose proof (Z.abs_sgn c). rewrite Z.abs_mul. pose proof (Z.sgn_spec c). nia.
      * cbn. rewrite H2, Z.mul_assoc, Z.abs_sgn. lia.
      * intros [Ha Ha']%Forall_cons [Hb Hb']%Forall_cons w [->|Hw]%elem_of_cons; [|by apply H3]. cbn in Hb |- *.
        destruct (Z.sgn_spec c) as [[? Es]|[[? Es]|[? Es]]]; rewrite Es in Ha; lia.
Qed.

(** Two passes that make the form equal are the same pass. *)
Lemma fixes_own_sound x : fixes_own st x = Returns true -> form_valid st rho x -> form_valid st rho' x ->
  form_value rho x = form_value rho' x -> rho (rp_own st) = rho' (rp_own st).
Proof.
  unfold fixes_own, fixes_own_with. destruct (assoc (rp_own st) (terms x)) as [c|] eqn:Ea; [|done].
  intros (ds & Hd & Hm)%outcome_bind_Returns Hv Hv' E. rewrite app_nil_r in Hm.
  destruct (digits_of_spec _ _ Hd) as (vs & H1 & H2 & H3).
  { intros v Hin Ho. split; [by apply Hv|by apply Hv']. }
  assert (ds ≡ₚ merge_sort digit_le ds) as Hp by (symmetry; apply merge_sort_Permutation).
  destruct (digits_perm _ _ _ Hp H1) as (vs' & Hvp & H4 & H5).
  assert (mixed_radix (merge_sort digit_le ds) 0 = true) as Hmr by (destruct (merge_sort digit_le ds); [done|by injection Hm]).
  destruct (mixed_radix_zero _ _ 0 0 Hmr H4) as (H6 & _ & H7); [lia|lia| |].
  { rewrite H5, H2. unfold form_value in E. lia. }
  apply H3; [by rewrite Hvp|by rewrite Hp|]. apply assoc_elem in Ea. by apply (list_elem_of_fmap_2 fst) in Ea.
Qed.

(** Two passes never make two forms equal that differ by the gap. *)
Lemma fixes_gap_sound x y gap : fixes_own_with st x (Some gap) = Returns true -> form_valid st rho x -> form_valid st rho' x ->
  terms x = terms y -> gap = Z.abs (constant x - constant y) -> x <> y -> form_value rho x <> form_value rho' y.
Proof.
  unfold fixes_own_with. destruct (assoc (rp_own st) (terms x)) as [c|] eqn:Ea; [|done].
  intros (ds & Hd & Hm)%outcome_bind_Returns Hv Hv' Ht Hg Hxy E.
  destruct (digits_of_spec _ _ Hd) as (vs & H1 & H2 & H3).
  { intros v Hin Ho. split; [by apply Hv|by apply Hv']. }
  set (d := constant x - constant y) in *.
  assert (Forall2 digit_ok (ds ++ [(gap, Some 2)]) (vs ++ [Z.sgn d])) as H1'.
  { apply Forall2_app; [done|]. constructor; [|constructor]. unfold digit_ok. cbn. pose proof (Z.sgn_spec d). lia. }
  assert (ds ++ [(gap, Some 2)] ≡ₚ merge_sort digit_le (ds ++ [(gap, Some 2)])) as Hp by (symmetry; apply merge_sort_Permutation).
  destruct (digits_perm _ _ _ Hp H1') as (vs' & Hvp & H4 & H5).
  assert (mixed_radix (merge_sort digit_le (ds ++ [(gap, Some 2)])) 0 = true) as Hmr by (destruct (merge_sort _ _); [done|by injection Hm]).
  destruct (mixed_radix_zero _ _ 0 0 Hmr H4) as (H6 & _ & _); [lia|lia| |].
  { rewrite H5, digits_value_app, H2 by done. cbn. subst gap. pose proof (Z.abs_sgn d). unfold form_value in E. rewrite <-Ht in E.
    lia. }
  rewrite <-Hvp in H6. apply Forall_app in H6 as [_ H6]. apply Forall_cons in H6 as [H6 _].
  assert (d = 0) as Hd0 by (pose proof (Z.sgn_spec d); lia). apply Hxy. destruct x, y. cbn in *. f_equal; [done|]. subst d. lia.
Qed.
End two_passes.

(** The terms of a form in three parts: the loop's variable, the values from outside, and the rest. *)
Definition other_value (own : string) (rho : Valuation) : Valuation :=
  fun v => if bool_decide (v = own) || is_outside v then 0 else rho v.

Lemma terms_split own rho l : NoDup l.*1 -> is_outside own = false ->
  terms_value rho l = default 0 (assoc own l) * rho own + terms_value (other_value own rho) l +
    terms_value rho (filter (fun e => is_outside e.1 = true) l).
Proof.
  intros Hn Ho. induction l as [|[v c] l IH]; cbn [terms_value assoc]; [cbn; lia|].
  apply NoDup_cons in Hn as [Hv Hn]. specialize (IH Hn). rewrite filter_cons. cbn [fst].
  assert (other_value own rho v = if bool_decide (v = own) || is_outside v then 0 else rho v) as -> by done.
  destruct (decide (v = own)) as [->|Hne].
  - rewrite (bool_decide_eq_true_2 (own = own)) by done. cbn [orb default from_option id]. rewrite decide_False by congruence.
    rewrite (proj2 (assoc_None own l) Hv) in IH. cbn in IH. lia.
  - rewrite bool_decide_eq_false_2 by done. cbn [orb]. destruct (is_outside v) eqn:E.
    + rewrite decide_True by done. cbn [terms_value]. lia.
    + rewrite decide_False by done. lia.
Qed.

Lemma terms_value_outside rho rho' l : same_outside rho rho' -> Forall (fun e => is_outside e.1 = true) l ->
  terms_value rho l = terms_value rho' l.
Proof. intros Ho. induction 1 as [|[v c] l H _ IH]; cbn; [done|]. by rewrite (Ho v H), IH. Qed.

Lemma other_terms_sound st sign rho l lo hi r x :
  other_terms st sign l lo hi = Returns (Some r) ->
  (forall v, v ∈ l.*1 -> is_outside v = false -> index_valid st v (rho v)) ->
  lo <= x <= hi -> r.1 <= x + sign * terms_value (other_value (rp_own st) rho) l <= r.2.
Proof.
  revert lo hi x. induction l as [|[v c] l IH]; intros lo hi x; cbn [other_terms]; [intros [= <-] _ H; cbn; lia|].
  intros Hb Hv Hx. cbn [terms_value].
  assert (other_value (rp_own st) rho v = if bool_decide (v = rp_own st) || is_outside v then 0 else rho v) as -> by done.
  assert (forall v', v' ∈ l.*1 -> is_outside v' = false -> index_valid st v' (rho v')) as Hv' by (intros; apply Hv; [by right|done]).
  destruct (bool_decide (v = rp_own st) || is_outside v) eqn:Es.
  - specialize (IH _ _ _ Hb Hv' Hx). lia.
  - apply orb_false_iff in Es as [_ Es]. pose proof (index_valid_range _ _ _ (Hv v ltac:(by left) Es)) as Hr.
    destruct (index_range st v) as [[a b]|]; [|done]. cbn in Hr. i128. pose proof (mul_between (sign * c) a b (rho v) Hr) as Hm.
    specialize (IH _ _ (x + sign * c * rho v) ltac:(eassumption) Hv' ltac:(lia)). lia.
Qed.

Section passes.
Context (st : RaceProof) (rho rho' : Valuation) (Hout : same_outside rho rho') (Hown : is_outside (rp_own st) = false).

Lemma own_term_decides_sound x y : own_term_decides st x y = Returns true ->
  keys_sorted (terms x) -> keys_sorted (terms y) -> form_valid st rho x -> form_valid st rho' y ->
  form_value rho x = form_value rho' y -> rho (rp_own st) = rho' (rp_own st).
Proof.
  unfold own_term_decides. destruct (assoc (rp_own st) (terms x)) as [a|] eqn:Ea; [|done].
  destruct (assoc (rp_own st) (terms y)) as [b|] eqn:Eb; [|done].
  destruct (negb (a =? b) || negb (bool_decide (outside_terms x = outside_terms y))) eqn:E; [done|].
  apply orb_false_iff in E as [E1%negb_false_iff%Z.eqb_eq E2%negb_false_iff%bool_decide_eq_true]. subst b.
  intros (r1 & H1 & H2)%outcome_bind_Returns Hsx Hsy Hvx Hvy E. destruct r1 as [[lo hi]|]; [|done].
  apply outcome_bind_Returns in H2 as (r2 & H2 & H3). destruct r2 as [[lo2 hi2]|]; [|done].
  injection H3 as [Hlo%Z.ltb_lt Hhi%Z.ltb_lt]%andb_true_iff.
  pose proof (other_terms_sound _ _ rho' _ _ _ _ (constant y - constant x) H1 Hvy ltac:(lia)) as B1. cbn in B1.
  pose proof (other_terms_sound _ _ rho _ _ _ _ _ H2 Hvx B1) as B2. cbn in B2. unfold form_value in E.
  rewrite (terms_split (rp_own st) rho (terms x) (keys_sorted_NoDup _ Hsx) Hown) in E.
  rewrite (terms_split (rp_own st) rho' (terms y) (keys_sorted_NoDup _ Hsy) Hown) in E. rewrite Ea, Eb in E. cbn [default from_option id] in E.
  fold (outside_terms x) (outside_terms y) in E. rewrite <-E2 in E.
  rewrite (terms_value_outside rho rho' (outside_terms x) Hout) in E.
  2: { apply Forall_forall. by intros e [He _]%list_elem_of_filter. }
  assert (Z.abs (a * (rho (rp_own st) - rho' (rp_own st))) < Z.abs a) as Habs by lia.
  rewrite Z.abs_mul in Habs. nia.
Qed.

Lemma or_else_true a b : or_else a b = Returns true -> a = Returns true \/ (a = Returns false /\ b = Returns true).
Proof. unfold or_else. destruct a as [[]|]; cbn; intuition. Qed.

(** What a recorded index says of the value of the index. *)
Definition index_matches (o : option Affine) (r : Valuation) (v : Z) : Prop :=
  match o with
  | Some f => v = form_value r f /\ keys_sorted (terms f) /\ form_valid st r f
  | None => True
  end.

Lemma indices_apart_sound x y v w : indices_apart st x y = Returns true ->
  index_matches x rho v -> index_matches y rho' w -> rho (rp_own st) <> rho' (rp_own st) -> v <> w.
Proof.
  unfold indices_apart. destruct x as [x|]; [|done]. destruct y as [y|]; [|done]. intros Ha (-> & Sx & Vx) (-> & Sy & Vy) Hne E.
  destruct (decide (x = y)) as [<-|Hxy]; [|destruct (decide (terms x = terms y)) as [Ht|Ht]].
  - apply or_else_true in Ha as [Ha|[_ Ha]]; apply Hne.
    + by eapply fixes_own_sound.
    + by eapply own_term_decides_sound.
  - apply or_else_true in Ha as [Ha|[_ Ha]]; [|apply Hne; by eapply own_term_decides_sound].
    destruct (d ← checked_i 64 (constant x - constant y); checked_i 64 (Z.abs d)) as [gap|] eqn:Eg; [|done].
    apply bind_Some in Eg as (d & Hd & Hg). apply checked_i_Some in Hd as [<- _]. apply checked_i_Some in Hg as [<- _].
    assert (form_valid st rho' x) as Vx' by (intros k Hk; apply Vy; unfold form_keys in *; by rewrite <-Ht).
    by apply (fixes_gap_sound st rho rho' Hout x y _ Ha).
  - apply Hne. by eapply own_term_decides_sound.
Qed.

(** Two accesses that [some_apart] tells apart do not meet. *)
Lemma some_apart_sound xs ys vs ws : some_apart st xs ys = Returns true ->
  Forall2 (fun o v => index_matches o rho v) xs vs -> Forall2 (fun o v => index_matches o rho' v) ys ws ->
  rho (rp_own st) <> rho' (rp_own st) -> exists i v w, vs !! i = Some v /\ ws !! i = Some w /\ v <> w.
Proof.
  revert ys vs ws. induction xs as [|x xs IH]; intros [|y ys] vs ws; cbn [some_apart]; try done.
  intros Ha Hx Hy Hne. inversion Hx as [|? v ? vs' Hv Hx']; subst. inversion Hy as [|? w ? ws' Hw Hy']; subst.
  apply or_else_true in Ha as [Ha|[_ Ha]].
  - exists 0%nat, v, w. split_and!; [done..|]. by eapply indices_apart_sound.
  - destruct (IH _ _ _ Ha Hx' Hy' Hne) as (i & v' & w' & H). by exists (S i), v', w'.
Qed.
End passes.
