(* ===== verification/RaceLimits.v ===== *)
(** * Runs of the race check with different limits

    The limits on the passes of open loops change ranges and nothing else: two
    runs that differ in them name the same indices, fail together and find the
    same open loops.  With that, and the search for the most passes. *)

From stdpp Require Import base list strings gmap sorting.
From Stdlib Require Import ZArith Lia.
From S2P Require Import Prelude Gid Syntax Types Program Race RaceForm.
Open Scope Z_scope.
Open Scope vx_scope.

Definition same_names (s1 s2 : gmap Symbol Binding) : Prop := forall n, is_Some (s1 !! n) <-> is_Some (s2 !! n).

#[export] Instance same_names_equiv : Equivalence same_names.
Proof. split; [done|intros s t H n; by rewrite (H n)|intros s t u H1 H2 n; by rewrite (H1 n), (H2 n)]. Qed.

Record same (st1 st2 : RaceProof) : Prop := {
  sm_contracts : rp_contracts st1 = rp_contracts st2;
  sm_scopes : Forall2 same_names (rp_scopes st1) (rp_scopes st2);
  sm_open : rp_open st1 = rp_open st2;
  sm_next : rp_next_key st1 = rp_next_key st2;
  sm_error : rp_error st1 = rp_error st2;
  sm_at : rp_at st1 = rp_at st2;
}.

#[export] Instance same_equiv : Equivalence same.
Proof.
  split.
  - intros st. by split.
  - intros s t []. by split.
  - intros s t u [] []. split; try congruence. by etrans.
Qed.

Lemma same_outside_name st1 st2 n : same st1 st2 -> outside st1 n = outside st2 n.
Proof.
  intros S. unfold outside, lookup_name. induction (sm_scopes _ _ S) as [|s t ss ts Hst _ IH]; cbn; [done|]. specialize (Hst n).
  destruct (s !! n), (t !! n); try done; [destruct (proj1 Hst) as [? ?]|destruct (proj2 Hst) as [? ?]]; done.
Qed.

(** ** Pieces that keep two runs together *)

Definition lockstep (F : RaceProof -> outcome RaceProof) : Prop :=
  forall st1 st2 st1' st2', same st1 st2 -> F st1 = Returns st1' -> F st2 = Returns st2' -> same st1' st2'.

Lemma ls_ret : lockstep Returns.
Proof. by intros st1 st2 st1' st2' S [= <-] [= <-]. Qed.

Lemma ls_bind F G : lockstep F -> lockstep G -> lockstep (fun st => st ←! F st; G st).
Proof. intros HF HG st1 st2 st1' st2' S H1 H2. bindo. eapply HG; [|eassumption..]. by eapply HF. Qed.

(** A piece that changes nothing that the runs share. *)
Lemma ls_neutral F : (forall st st', F st = Returns st' -> same st st') -> lockstep F.
Proof. intros HF st1 st2 st1' st2' S H1%HF H2%HF. by rewrite <-H1, <-H2. Qed.

Lemma ls_fail why at_ : lockstep (fun st => Returns (fail why at_ st)).
Proof.
  intros st1 st2 st1' st2' S [= <-] [= <-]. unfold fail. rewrite (sm_at _ _ S), (sm_error _ _ S). destruct (rp_error st2); [done|].
  by destruct S.
Qed.

Lemma ls_outside name F G : lockstep F -> lockstep G -> lockstep (fun st => if outside st name then F st else G st).
Proof. intros HF HG st1 st2 st1' st2' S. rewrite (same_outside_name _ _ name S). destruct (outside st2 name); [by apply HF|by apply HG]. Qed.

Lemma ls_guard F : lockstep F -> lockstep (fun st => match rp_error st with Some _ => Returns st | None => F st end).
Proof. intros HF st1 st2 st1' st2' S. rewrite (sm_error _ _ S). destruct (rp_error st2); [by apply ls_ret|by apply HF]. Qed.

Lemma ls_ofold {A} (f : A -> RaceProof -> outcome RaceProof) l : (forall x, x ∈ l -> lockstep (f x)) -> lockstep (ofold f l).
Proof.
  induction l as [|x l IH]; intros H; [apply ls_ret|]. apply (ls_bind (f x) (ofold f l)); [apply H; by left|]. apply IH. intros y Hy. apply H. by right.
Qed.

Lemma ls_ofoldi {A} (f : nat -> A -> RaceProof -> outcome RaceProof) i l : (forall i x, x ∈ l -> lockstep (f i x)) -> lockstep (ofoldi f i l).
Proof.
  revert i. induction l as [|x l IH]; intros i H; [apply ls_ret|]. apply (ls_bind (f i x) (ofoldi f (S i) l)); [apply H; by left|].
  apply IH. intros j y Hy. apply H. by right.
Qed.

Lemma ls_odirect {A} (f : A -> RaceProof -> outcome RaceProof) skip kept l : (forall x, x ∈ l -> lockstep (f x)) -> lockstep (odirect f skip kept l).
Proof.
  revert kept. induction l as [|x l IH]; intros kept H; [apply ls_ret|]. cbn [odirect].
  assert (forall kept, lockstep (odirect f skip kept l)) as Hl by (intros k; apply IH; intros y Hy; apply H; by right).
  destruct (skip kept x); [apply Hl|]. apply (ls_bind (f x)); [apply H; by left|apply Hl].
Qed.

Lemma ls_record name idx write at_ : lockstep (record_element name idx write at_).
Proof.
  apply (ls_outside name (record_access name idx write at_) Returns); [|apply ls_ret].
  apply ls_neutral. intros st st' H. unfold record_access in H. bindo. injection H0 as <-. by split.
Qed.

Lemma ls_atomic arg : lockstep (fun st => Returns (atomic_arg arg st)).
Proof.
  unfold atomic_arg. destruct (passed_tensor arg) as [name|]; [|apply ls_fail].
  intros st1 st2 st1' st2' S [= <-] [= <-]. rewrite (same_outside_name _ _ name S). destruct (outside st2 name); [|done]. by destruct S.
Qed.

Lemma same_push st1 st2 : same st1 st2 -> same (push_scope st1) (push_scope st2).
Proof. intros []. split; try done. by constructor. Qed.
Lemma same_pop st1 st2 : same st1 st2 -> same (pop_scope st1) (pop_scope st2).
Proof. intros [H1 H2]. split; try done. cbn. by destruct H2. Qed.
Lemma same_pass p q st1 st2 : same st1 st2 -> same (with_pass p st1) (with_pass q st2).
Proof. by intros []. Qed.

Lemma ls_scope F : lockstep F -> lockstep (fun st => st ←! F (push_scope st); Returns (pop_scope st)).
Proof. intros HF st1 st2 st1' st2' S H1 H2. bindo. simplify_eq. apply same_pop. eapply HF; [|eassumption..]. by apply same_push. Qed.

Lemma same_bind name b1 b2 st1 st2 st1' st2' : same st1 st2 -> bind name b1 st1 = Returns st1' -> bind name b2 st2 = Returns st2' ->
  same st1' st2'.
Proof.
  intros [H1 H2 H3 H4 H5 H6]. unfold bind. destruct H2 as [|s t ss ts Hst Hss]; [done|]. intros [= <-] [= <-]. split; try done. cbn.
  constructor; [|done]. intros n. rewrite !lookup_insert_is_Some, (Hst n). done.
Qed.

Lemma open_range_same st1 st2 it key ty across full r1 r2 : rp_open st1 = rp_open st2 ->
  open_range st1 it key ty across full = Returns r1 -> open_range st2 it key ty across full = Returns r2 -> r1.2 = r2.2.
Proof.
  intros Ho. destruct it; cbn [open_range]; try (intros [= <-] [= <-]; done). intros H1 H2. bindo.
  destruct across as [at_|]; [|by simplify_eq]. destruct (int it1); [|by simplify_eq]. bindo. simplify_eq. cbn. by rewrite Ho.
Qed.

Lemma bind_index_same name it range across st1 st2 r1 r2 : same st1 st2 ->
  bind_index name it range across st1 = Returns r1 -> bind_index name it range across st2 = Returns r2 -> r1.1 = r2.1 /\ same r1.2 r2.2.
Proof.
  intros S. unfold bind_index. rewrite (sm_next _ _ S). intros H1 H2. bindo. simplify_eq. cbn [fst snd]. split; [done|].
  match goal with B1 : bind name _ _ = Returns ?u, B2 : bind name _ _ = Returns ?v |- same ?u ?v =>
    eapply same_bind; [|exact B1|exact B2]; clear B1 B2 end.
  destruct S as [S1 S2 S3 S4 S5 S6].
  repeat case_match; bindo; simplify_eq; split; try done.
  cbn. eapply open_range_same; [|eassumption|eassumption]. done.
Qed.

(** ** The walk *)

Record locked (e : PExpr) : Prop := {
  lk_expr : lockstep (expr e);
  lk_indices : lockstep (indices e);
  lk_target : forall at_, lockstep (target e at_);
  lk_borrow : forall b m sp at_, e = EBorrow b m sp -> lockstep (target b at_);
}.

Lemma ls_call name args span : (forall k, k ∈ args -> locked k) -> lockstep (fun st => expr (EFunctionCall name args span) st).
Proof.
  intros H. cbn [expr]. apply ls_guard.
  assert (lockstep (fun st => ofold expr args st)) as Hall by (apply (ls_ofold expr); intros x Hx; by apply H).
  destruct (parallel_pure_call name || is_tensor_alloc_call name || String.prefix "lanes::" name).
  - cbn [negb]. destruct (writes_first_of name); [|exact Hall].
    destruct args as [|[| | | | | | | | | | | | | | | |b m sp| | | | | | | | | | | | | | | | | | | | | |] rest]; try exact Hall.
    apply (ls_bind (target b sp) (ofold expr rest)); [eapply lk_borrow; [apply H; by left|done]|].
    apply (ls_ofold expr). intros x Hx. apply H. by right.
  - intros st1 st2 st1' st2' S. rewrite (sm_contracts _ _ S). destruct (rp_contracts st2 !! name) as [params|].
    + revert S. apply (ls_ofoldi (fun i x st => if decide (i ∈ params) then Returns (atomic_arg x st) else expr x st)).
      intros i x Hx. destruct (decide (i ∈ params)); [apply ls_atomic|by apply H].
    + revert S. apply ls_fail.
Qed.

Lemma ls_inline inputs clobbers ensures span : (forall k, k ∈ inputs -> locked k) ->
  lockstep (fun st => expr (EInlineMlir inputs clobbers ensures span) st).
Proof.
  intros H. cbn [expr]. apply ls_guard. destruct ensures as [|e ensures]; [apply ls_fail|].
  apply (ls_ofold (fun input st => match passed_tensor input with
                     | Some n => if decide (n ∈ atomic_inputs (e :: ensures)) then Returns (atomic_arg input st) else expr input st
                     | None => expr input st end)).
  intros x Hx. destruct (passed_tensor x); [|by apply H]. destruct (decide _); [apply ls_atomic|by apply H].
Qed.

Lemma ls_if c t f span : locked c -> (forall s, s ∈ t ++ default [] f -> lockstep (stmt s)) -> lockstep (fun st => expr (EIf c t f span) st).
Proof.
  intros Hc Hs. cbn [expr]. apply ls_guard. apply (ls_bind (expr c)); [apply Hc|]. intros st1 st2 st1' st2' S H1 H2. bindo.
  assert (same x2 x0) as S'.
  { eapply (ls_ofold stmt t); [intros s Hin; apply Hs, elem_of_app; by left| |eassumption..]. by apply same_push, same_pass. }
  destruct f as [f|].
  - revert H4 H2. apply (ls_scope (ofold stmt f)); [|by apply same_pass, same_pop].
    apply ls_ofold. intros s Hin. apply Hs, elem_of_app. by right.
  - simplify_eq. by apply same_pass, same_pop.
Qed.

Lemma expr_locked e : (forall k, k ∈ kid_exprs e -> locked k) -> (forall s, s ∈ kid_stmts e -> lockstep (stmt s)) ->
  lockstep (fun st => expr e st).
Proof.
  intros He Hs.
  assert (forall F, lockstep F -> lockstep (fun st => match rp_error st with Some _ => Returns st | None => F st end)) as Hg
    by (intros; by apply ls_guard).
  assert (forall x y, locked x -> locked y -> lockstep (fun st => st ←! expr x st; if second x y then Returns st else expr y st)) as Htwo.
  { intros x y Hx Hy. apply (ls_bind (expr x)); [apply Hx|]. destruct (second x y); [apply ls_ret|apply Hy]. }
  assert (forall l, (forall k, k ∈ l -> locked k) -> lockstep (fun st => odirect expr skips [] l st)) as Hdirect.
  { intros l Hl. apply (ls_odirect expr). intros x Hx. by apply Hl. }
  destruct e; cbn [kid_exprs kid_stmts] in *;
    try (apply ls_call; exact He);
    try (apply ls_if; [apply He; by left|exact Hs]);
    try (apply ls_inline; intros k Hk; apply He, elem_of_app; by left);
    cbn [expr]; apply Hg;
    try apply ls_ret; try apply ls_fail; try (apply He; by left);
    try (apply Htwo; [apply He; by left|apply He; right; by left]); try (by apply Hdirect).
  - apply ls_neutral. intros st st' [= <-]. destruct (outside st name); [|done]. by destruct (rp_whole st !! name).
  - destruct payload as [es|]; [by apply Hdirect|apply ls_ret].
  - destruct (root e1) as [name|]; [|apply Htwo; [apply He; by left|apply He; right; by left]].
    apply (ls_bind (indices e1)); [apply He; by left|]. apply (ls_bind (expr e2)); [apply He; right; by left|]. apply ls_record.
  - destruct is_mut; [apply ls_fail|apply He; by left].
  - intros st1 st2 st1' st2' S H1 H2. bindo. simplify_eq. apply same_pop.
    assert (same x1 x) as S' by (eapply (ls_ofold stmt stmts Hs); [|eassumption..]; by apply same_push).
    destruct ret as [r|]; [|by simplify_eq]. eapply (lk_expr r); [apply He; by left|exact S'|done|done].
  - apply (ls_odirect (fun f : Symbol * PExpr => expr f.2)). intros f Hf. apply He. by apply list_elem_of_fmap_2.
  - apply (ls_bind (expr e)); [apply He; by left|].
    apply (ls_ofold (fun (arm : Pattern * list PStmt) st => st ←! ofold stmt arm.2 (push_scope st); Returns (pop_scope st))).
    intros arm Harm. apply (ls_scope (ofold stmt arm.2)), ls_ofold. intros s Hin. apply Hs, flat_map_elem. by exists arm.
Qed.

Lemma target_locked e at_ : (forall k, k ∈ kid_exprs e -> locked k) -> lockstep (fun st => target e at_ st).
Proof.
  intros He. destruct e; cbn [target kid_exprs] in *; try apply ls_fail.
  - intros st1 st2 st1' st2' S [= <-] [= <-]. rewrite (same_outside_name _ _ name S). destruct (outside st2 name); [|done].
    by apply (ls_fail (WritesOutside name) at_ st1 st2).
  - apply He. by left.
  - destruct (root e1) as [name|]; [|apply ls_fail].
    apply (ls_bind (indices e1)); [apply He; by left|]. apply (ls_bind (expr e2)); [apply He; right; by left|]. apply ls_record.
Qed.

Lemma stmt_locked s : (forall e, e ∈ stmt_exprs s -> locked e) -> (forall k, k ∈ stmt_stmts s -> lockstep (stmt k)) -> lockstep (stmt s).
Proof.
  intros He Hs. assert (forall F, lockstep F -> lockstep (fun st => F (enter_statement s st))) as Hin.
  { intros F HF st1 st2 st1' st2' S. apply HF. unfold enter_statement. case_decide; [done|]. by destruct S. }
  destruct s as [n m e sp|o sp|e sp|iter iterable invs body across sp|lhs rhs sp|lhs rhs sp|e sp|invs body sp|sp|sp|sp|n sp|sp];
    cbn [stmt_exprs stmt_stmts] in *; try (apply (Hin Returns), ls_ret); try (apply (Hin (expr e)), He; by left).
  - apply (Hin (fun st => st ←! expr e st; b ←! let_binding m e st; bind n b st)). apply (ls_bind (expr e)); [apply He; by left|].
    intros st1 st2 st1' st2' S H1 H2. bindo. by eapply same_bind.
  - destruct o as [e|]; [apply (Hin (expr e)), He; by left|apply (Hin Returns), ls_ret].
  - apply (Hin (fun st => st ←! expr iterable st; r ←! bind_index iter iterable (int_range iterable) across (push_scope st);
      st ←! ofold stmt body r.2; Returns (pop_scope st))). apply (ls_bind (expr iterable)); [apply He; by left|].
    intros st1 st2 st1' st2' S H1 H2. bindo. simplify_eq. apply same_pop. eapply (ls_ofold stmt body Hs); [|eassumption..].
    eapply bind_index_same; [|eassumption..]. by apply same_push.
  - apply (Hin (fun st => st ←! target lhs sp st; expr rhs st)). apply (ls_bind (target lhs sp)); [apply He; by left|apply He; right; by left].
  - apply (Hin (fun st => st ←! target lhs sp st; st ←! expr lhs st; expr rhs st)). apply (ls_bind (target lhs sp)); [apply He; by left|].
    apply (ls_bind (expr lhs)); [apply He; by left|apply He; right; by left].
  - apply (Hin (fun st => st ←! ofold stmt body (push_scope st); Returns (pop_scope st))). by apply (ls_scope (ofold stmt body)), ls_ofold.
Qed.

Lemma walk_locked : (forall e, locked e) /\ (forall s, lockstep (stmt s)).
Proof.
  apply program_ind; [|by apply stmt_locked]. intros e He Hs. split; [by apply expr_locked| |intros; by apply target_locked|].
  - destruct e; try apply ls_ret. apply (ls_bind (indices e1)); [apply He; by left|apply He; right; by left].
  - intros b m sp at_ ->. apply He. by left.
Qed.

(** Two runs of the check find the same open loops. *)
Lemma prove_open iter it body across at_ contracts limits1 limits2 r1 r2 :
  prove iter it body across at_ contracts limits1 = Returns r1 -> prove iter it body across at_ contracts limits2 = Returns r2 ->
  rp_open r1.2 = rp_open r2.2.
Proof.
  unfold prove. intros H1 H2. bindo.
  match goal with B1 : bind_index _ _ _ _ (race_start _ limits1 _) = Returns ?u, B2 : bind_index _ _ _ _ (race_start _ limits2 _) = Returns ?v,
      O1 : ofold stmt body _ = Returns ?s, O2 : ofold stmt body (with_own (fst ?v) _) = Returns ?t |- _ =>
    assert (same (race_start contracts limits1 at_) (race_start contracts limits2 at_)) as S by done;
    destruct (bind_index_same _ _ _ _ _ _ _ _ S B1 B2) as [_ S'];
    assert (same s t) as S2 by (eapply (ls_ofold stmt body (fun x _ => proj2 walk_locked x)); [|exact O1|exact O2]; by destruct S')
  end.
  repeat match goal with H : match rp_error ?s with Some _ => _ | None => _ end = Returns _ |- _ => destruct (rp_error s) end;
    bindo; simplify_eq; apply S2.
Qed.
