(* ===== verification/RaceSound.v ===== *)
(** * The walk of the race check sees every access

    What the state of the walk says of the pass that is running: the forms of
    the names in scope compute their values, and each index lies in the range
    that its key has. *)

From stdpp Require Import base list strings gmap sorting.
From Stdlib Require Import ZArith Lia Ascii.
From S2P Require Import Prelude Gid Syntax Types Program Race RaceSem RaceForm.
Open Scope Z_scope.

(** ** Keys *)

Lemma substring_split k m u : (String.length u <= k + m)%nat ->
  u = String.substring 0 k u +:+ String.substring k m u.
Proof.
  assert (forall m w, (String.length w <= m)%nat -> String.substring 0 m w = w) as Hall.
  { clear. intros m. induction m as [|m IH]; intros [|c w]; cbn; intros H; [done|lia|done|]. rewrite IH by lia. done. }
  revert k. induction u as [|c u IH]; intros [|k] H; cbn in *; [by destruct m|by destruct m| |].
  - destruct m as [|m]; [lia|]. by rewrite Hall by lia.
  - apply (f_equal (String c)), IH. lia.
Qed.

Lemma ends_with_app s v : ends_with s v = true -> exists p, v = p +:+ s.
Proof.
  unfold ends_with. rewrite bool_decide_eq_true. intros H.
  exists (String.substring 0 (String.length v - String.length s) v). rewrite <-H at 2. apply substring_split. lia.
Qed.

Lemma append_length p s : String.length (p +:+ s) = (String.length p + String.length s)%nat.
Proof. induction p as [|c p IH]; [done|]. exact (f_equal S IH). Qed.

Lemma is_outside_key n : is_outside (outside_key n) = true.
Proof.
  unfold is_outside, outside_key, ends_with. apply bool_decide_eq_true. rewrite append_length, Nat.add_sub.
  induction n as [|c n IH]; [done|exact IH].
Qed.

Fixpoint last_char (d : Ascii.ascii) (s : string) : Ascii.ascii :=
  match s with EmptyString => d | String c s => last_char c s end.

Lemma last_char_app d p s : last_char d (p +:+ s) = last_char (last_char d p) s.
Proof. revert d. induction p as [|c p IH]; intros d; [done|exact (IH c)]. Qed.

Lemma last_digit d s : all_digits s = true -> s <> EmptyString -> is_ascii_digit (last_char d s) = true.
Proof.
  revert d. induction s as [|c s IH]; intros d; [done|]. intros Hd _. cbn in Hd |- *. apply andb_true_iff in Hd as [Hc Hd].
  destruct s; [done|]. by apply IH.
Qed.

Lemma index_digits n : all_digits (u_to_string n (Z.of_nat n) "") = true /\
  u_to_string n (Z.of_nat n) "" <> EmptyString /\ dec_from 0 (u_to_string n (Z.of_nat n) "") = Z.of_nat n.
Proof.
  apply u_to_string_spec; [|done]. split; [lia|]. induction n as [|n IH]; [done|].
  rewrite (Nat2Z.inj_succ (S n)), Z.pow_succ_r by lia. lia.
Qed.

Lemma is_outside_index name n : is_outside (index_key name n) = false.
Proof.
  apply not_true_iff_false. intros [p Hp]%ends_with_app. destruct (index_digits n) as (H1 & H2 & _).
  apply (f_equal (last_char "a"%char)) in Hp. unfold index_key in Hp. rewrite !last_char_app in Hp. cbn in Hp.
  pose proof (last_digit "#"%char _ H1 H2) as H. rewrite Hp in H. done.
Qed.

Lemma digits_after_hash p q d e : all_digits d = true -> all_digits e = true ->
  p +:+ String "#"%char d = q +:+ String "#"%char e -> d = e.
Proof.
  assert (forall q d e, all_digits d = true -> d = q +:+ String "#"%char e -> False) as Hno.
  { clear. intros q. induction q as [|c q IH]; intros [|d0 d] e; cbn; intros Hd [= -> ->]; cbn in Hd; [done|].
    apply andb_true_iff in Hd as [_ Hd]. by eapply IH. }
  intros Hd He. revert q. induction p as [|c p IH]; intros [|b q]; cbn.
  - by intros [= ->].
  - intros [= <- H]. destruct (Hno _ _ _ Hd H).
  - intros [= -> H]. symmetry in H. destruct (Hno _ _ _ He H).
  - intros [= -> H]. eauto.
Qed.

Lemma index_key_inj m n i j : index_key m i = index_key n j -> i = j.
Proof.
  unfold index_key. intros H. destruct (index_digits i) as (H1 & _ & H2). destruct (index_digits j) as (H3 & _ & H4).
  apply (digits_after_hash _ _ _ _ H1 H3) in H. rewrite H in H2. lia.
Qed.

Lemma parse_64_128 s z : parse_int 64 s = Some z -> parse_int 128 s = Some z.
Proof.
  unfold parse_int. assert (forall z, checked_i 64 z = Some z -> checked_i 128 z = Some z) as Hw.
  { intros y [_ Hy]%checked_i_Some. apply checked_i_Some. split; [done|]. revert Hy. unfold imin, imax. lia. }
  intros H. repeat case_match; try done; pose proof H as [<- _]%checked_i_Some; by apply Hw.
Qed.

(** ** The walk only adds *)

Definition access_in (st : RaceProof) (name : Symbol) (x : Access) : Prop :=
  exists l, assoc name (rp_accesses st) = Some l /\ x ∈ l.

Record wf (st : RaceProof) : Prop := {
  wf_ranges : forall k, is_Some (rp_ranges st !! k) -> exists name n, k = index_key name n /\ (n < rp_next_key st)%nat;
  wf_types : forall k, is_Some (rp_type_ranges st !! k) -> is_Some (rp_ranges st !! k);
  wf_accesses : keys_sorted (rp_accesses st);
}.

Record grows (st st' : RaceProof) : Prop := {
  gr_contracts : rp_contracts st' = rp_contracts st;
  gr_own : rp_own st' = rp_own st;
  gr_limits : rp_limits st' = rp_limits st;
  gr_ranges : forall k, is_Some (rp_ranges st !! k) ->
    rp_ranges st' !! k = rp_ranges st !! k /\ rp_type_ranges st' !! k = rp_type_ranges st !! k;
  gr_open : forall o, o ∈ rp_open st -> o ∈ rp_open st';
  gr_accesses : forall name x, access_in st name x -> access_in st' name x;
  gr_whole : forall name, is_Some (rp_whole st !! name) -> is_Some (rp_whole st' !! name);
  gr_error : rp_error st' = None -> rp_error st = None;
}.

#[export] Instance grows_preorder : PreOrder grows.
Proof.
  split; [by constructor|]. intros a b c [] []. constructor; try congruence; auto.
  intros k Hk. destruct (gr_ranges0 k Hk) as [E1 E2]. rewrite <-E1, <-E2. apply gr_ranges1. by rewrite E1.
Qed.

Lemma wf_not_outside st k : wf st -> is_Some (rp_ranges st !! k) -> is_outside k = false.
Proof. intros W (name & n & -> & _)%(wf_ranges _ W). apply is_outside_index. Qed.

Lemma outside_no_range st k : wf st -> is_outside k = true -> index_range st k = None.
Proof.
  intros W Ho. unfold index_range. destruct (rp_ranges st !! k) as [r|] eqn:E.
  - by rewrite (wf_not_outside st k W) in Ho.
  - apply eq_None_not_Some. intros H%(wf_types _ W). by apply eq_None_not_Some in E.
Qed.

Lemma grows_index_range st st' k : grows st st' -> is_Some (rp_ranges st !! k) -> index_range st' k = index_range st k.
Proof. intros G [E1 E2]%(gr_ranges _ _ G). unfold index_range. by rewrite E1, E2. Qed.

Lemma grows_index_valid st st' k v : grows st st' -> is_Some (rp_ranges st !! k) -> index_valid st k v -> index_valid st' k v.
Proof. intros G [E1 E2]%(gr_ranges _ _ G). unfold index_valid. by rewrite E1, E2. Qed.

Lemma index_fresh st name : wf st -> rp_ranges st !! index_key name (rp_next_key st) = None.
Proof.
  intros W. apply eq_None_not_Some. intros (name' & n & E & H)%(wf_ranges _ W). apply index_key_inj in E. lia.
Qed.

(** ** Forms and values *)

(** The key of a form stands for an index of the pass. *)
Definition key_ok (st : RaceProof) (rho : Valuation) (ty : ElementType) (k : string) : Prop :=
  is_Some (rp_ranges st !! k) /\ index_valid st k (rho k) /\ (index_range st k = None -> typed ty (rho k)).

Record form_ok (st : RaceProof) (rho : Valuation) (f : Affine) (ty : ElementType) (taint : bool) : Prop := {
  fo_sorted : keys_sorted (terms f);
  fo_keys : forall k, k ∈ form_keys f -> is_outside k = false -> key_ok st rho ty k;
  fo_taint : taint = false -> forall k, k ∈ form_keys f -> is_outside k = false;
}.

(** The form of a value that is not an integer has a part from outside. *)
Definition from_outside (f : Affine) : Prop :=
  Forall (fun e : string * Z => e.2 <> 0) (terms f) /\ exists k, k ∈ form_keys f /\ is_outside k = true.

Definition of_type (ty : option ElementType) (t : ElementType) : Prop := forall t', ty = Some t' -> t = t'.

Definition binding_agrees (st : RaceProof) (rho : Valuation) (b : Binding) (x : Val) : Prop :=
  (forall v t k, x = VInt v t k -> typed t v) /\
  match b, x with
  | BIndex key ty, VInt v t taint =>
      v = rho key /\ taint = false /\ key_ok st rho t key /\ of_type ty t
  | BIndex _ _, _ => False
  | BValue f ty, VInt v t taint => v = form_value rho f /\ form_ok st rho f t taint /\ of_type ty t
  | BValue f _, VOther => from_outside f
  | BValue _ _, VMut => False
  | (BTensor | BOther), _ => True
  end.

Definition lookup_agrees (st : RaceProof) (rho : Valuation) (b : option Binding) (x : option Val) : Prop :=
  match b, x with
  | None, None => True
  | Some b, Some x => binding_agrees st rho b x
  | _, _ => False
  end.

Section sound.
Context (outs : Symbol -> option (Z * ElementType)) (contracts : gmap Symbol (list nat)) (ends : list LargestEnd).
(** The values from outside by key. *)
Context (base : Valuation) (Hbase : forall n v ty, outs n = Some (v, ty) -> base (outside_key n) = v).

Abbreviation eval := (eval outs false).
Abbreviation unknown := (unknown outs).

Definition outside_agrees (rho : Valuation) : Prop := forall k, is_outside k = true -> rho k = base k.

(** The names in scope. *)
Record sees (st : RaceProof) (rho : Valuation) (env : Env) : Prop := {
  se_wf : wf st;
  se_out : outside_agrees rho;
  se_names : forall n, lookup_agrees st rho (lookup_name st n) (env_lookup env n);
}.

Lemma result_of_typed ty taint r v : result_of false ty taint r v -> typed ty v.
Proof. intros [[H ->]|(_ & _ & H & _)]; done. Qed.

Lemma eval_typed st rho env e v ty taint : sees st rho env -> eval env e v ty taint -> typed ty v.
Proof.
  intros S. destruct e; cbn; try done; try (intros [_ H]; exact H).
  - pose proof (se_names _ _ _ S name) as Hn. destruct (env_lookup env name) as [[v' ty' k'| |]|]; try done.
    + intros (-> & -> & ->). destruct (lookup_name st name); [|done]. destruct Hn as [Hn _]. by eapply Hn.
    + by intros (_ & _ & H).
  - destruct operand_ty as [t|]; [|done]. intros [-> H]. destruct op; try exact H;
      destruct H as (v1 & t1 & v2 & t2 & _ & _ & _ & r & _ & H); by eapply result_of_typed.
  - destruct op; [done| |done]. intros (v1 & _ & H). by eapply result_of_typed.
  - intros (_ & [(v1 & t1 & _ & _ & H)|(_ & _ & H)]); [by eapply result_of_typed|done].
Qed.

Lemma affine_unknown st rho env e f : sees st rho env -> affine st e = Returns (Some f) -> unknown env e -> from_outside f.
Proof.
  intros S. revert f. induction e; intros f; cbn [affine RaceSem.unknown]; try (intros [=]; done); intros Ha Hu; bindo.
  - pose proof (se_names _ _ _ S name) as Hn. injection Ha as Ha.
    destruct (lookup_name st name) as [[]|], (env_lookup env name) as [[]|]; try done; try (destruct Hn as [_ Hn]; done).
    + injection Ha as ->. by destruct Hn.
    + injection Ha as <-. split; [by repeat constructor|]. exists (outside_key name). split; [by left|apply is_outside_key].
  - injection Ha as Ha. destruct (parse_int 64 value) eqn:E; [|done]. apply parse_64_128 in E. by rewrite E in Hu.
  - case_match; [|done]. bindo. case_match; [|done]. case_match; [|done]. bindo. unfold fits in *. rewrite Hu in *. by simplify_eq.
  - destruct op; [done| |done]. bindo. destruct x as [g|]; [|done]. cbn in H0.
    destruct (Affine_scale g (-1)) as [g'|] eqn:Eg; [|done]. bindo. case_match; [|done]. injection H1 as ->.
    destruct (IHe g ltac:(done) Hu) as (H5 & k & H6 & H7). split; [|exists k; split; [by eapply Affine_neg_keys|done]].
    unfold Affine_scale in Eg. apply bind_Some in Eg as (? & _ & (? & _ & [= <-])%bind_Some). apply retain_nonzero.
  - case_match; [|done]. by rewrite Hu in *.
Qed.

Lemma fits_sound st rho f ty0 t taint v : fits st f ty0 = Returns true -> wf st -> of_type ty0 t ->
  form_ok st rho f t taint -> result_of false t taint (form_value rho f) v -> v = form_value rho f.
Proof.
  unfold fits. intros Hf W Ht [Hs Hk Ho] [[_ ->]|(Hn & [?|Htaint] & _)]; [done|done|].
  destruct ty0 as [t0|]; [|done]. cbn in Hf. assert (t = t0) as <- by (by apply Ht). unfold typed in Hn.
  destruct (integer_range t) as [[mn mx]|] eqn:Er; [|done].
  destruct (forallb _ _ && _); [|done]. bindo. destruct x as [[lo hi]|]; [|done].
  destruct (existsb (fun e : string * Z => is_outside e.1) (terms f)) eqn:Eo.
  { apply existsb_exists in Eo as ([k c] & Hin & Hout). cbn in Hout. rewrite (Ho Htaint k) in Hout; [done|].
    apply list_elem_of_In in Hin. by apply (list_elem_of_fmap_2 fst) in Hin. }
  exfalso. apply Hn. injection H0 as [Hlo%Z.leb_le Hhi%Z.leb_le]%andb_true_iff.
  pose proof (bounds_sound _ _ _ _ rho _ H) as B. cbn in B.
  assert (form_value (skip_outside true rho) f = form_value rho f) as Ev.
  { unfold form_value. rewrite skip_outside_value; [done|]. intros k Hin. by rewrite (Ho Htaint k Hin). }
  rewrite Ev in B.
  enough (lo <= form_value rho f <= hi) by lia. apply B. intros k Hin _.
  destruct (Hk k Hin (Ho Htaint k Hin)) as (H1 & H2 & H3). unfold used_range. apply index_valid_range in H2.
  destruct (index_range st k); [done|]. specialize (H3 eq_refl). unfold typed in H3. by rewrite Er in H3.
Qed.

Lemma form_ok_constant st rho c ty taint : form_ok st rho (Affine_constant c) ty taint.
Proof. split; [constructor|intros k Hk; by apply elem_of_nil in Hk|intros _ k Hk; by apply elem_of_nil in Hk]. Qed.

(** What the form of an expression says of its value. *)
Definition form_says (st : RaceProof) (rho : Valuation) (e : PExpr) (f : Affine) (v : Z) (ty : ElementType) (taint : bool) : Prop :=
  v = form_value rho f /\ form_ok st rho f ty taint /\ of_type (int_type st e) ty.

Lemma number_sound st rho s t sp f v ty taint : parse_int 64 s = Some f -> number_value s t v ty taint ->
  form_says st rho (ENumber s t sp) (Affine_constant f) v ty taint.
Proof.
  intros E%parse_64_128 [H1 H2]. rewrite E in H2. destruct H2 as [-> ->]. split_and!; [done|apply form_ok_constant|done].
Qed.

Lemma affine_identifier st rho env name sp f v ty taint : sees st rho env ->
  affine st (EIdentifier name sp) = Returns (Some f) -> eval env (EIdentifier name sp) v ty taint ->
  form_says st rho (EIdentifier name sp) f v ty taint.
Proof.
  intros S. cbn [affine RaceSem.eval]. intros Ha He. unfold form_says. cbn [int_type]. pose proof (se_names _ _ _ S name) as Hn.
  injection Ha as Ha. destruct (lookup_name st name) as [[]|], (env_lookup env name) as [[v' ty' k'| |]|]; try done; try by destruct Hn as [_ Hn].
  - injection Ha as <-. destruct He as (-> & -> & ->). destruct Hn as (_ & -> & -> & Hk & Ht). split_and!; [|constructor|done].
    + unfold form_value. cbn [Affine_var terms constant terms_value]. lia.
    + repeat constructor.
    + intros k Hin _. apply list_elem_of_singleton in Hin as ->. done.
    + intros _ k Hin. apply list_elem_of_singleton in Hin as ->. apply (wf_not_outside st); [apply (se_wf _ _ _ S)|apply Hk].
  - injection Ha as <-. destruct He as (-> & -> & ->). by destruct Hn as (_ & -> & Hf & Ht).
  - injection Ha as <-. destruct He as (Ho & -> & _). split_and!; [|constructor|done].
    + unfold form_value. cbn [Affine_var terms constant terms_value]. rewrite (se_out _ _ _ S) by apply is_outside_key.
      rewrite (Hbase _ _ _ Ho). lia.
    + repeat constructor.
    + intros k Hin Hk. assert (k = outside_key name) as -> by (by apply list_elem_of_singleton in Hin). by rewrite is_outside_key in Hk.
    + done.
Qed.

Lemma affine_cast st rho env e target source sp f v ty taint : sees st rho env ->
  (forall f v ty taint, affine st e = Returns (Some f) -> eval env e v ty taint -> form_says st rho e f v ty taint) ->
  affine st (EAsCast e target source sp) = Returns (Some f) -> eval env (EAsCast e target source sp) v ty taint ->
  form_says st rho (EAsCast e target source sp) f v ty taint.
Proof.
  intros S IH. cbn [affine RaceSem.eval]. intros Ha [Ht He]. bindo. destruct x as [g|]; [|done]. rewrite Ht in H0. cbn in H0.
  destruct (integer_range ty) as [[mn mx]|] eqn:Er; [|done]. unfold form_says. cbn [int_type]. rewrite Ht.
  assert (of_type (Some ty) ty) as Hty by (by intros ? [= ->]).
  destruct (match (source ≫= scalar_of) ≫= integer_range with Some s => holds_in (mn, mx) s | None => false end) eqn:Es.
  - injection H0 as ->. destruct He as [(v1 & t1 & He & Hs & Hr)|(Hs & _ & _)]; [|by rewrite Hs in Es].
    destruct (source ≫= scalar_of) as [s|]; [|done]. rewrite (Hs s eq_refl) in *. cbn in Es.
    destruct (integer_range s) as [[a b]|] eqn:Ers; [|done]. apply andb_true_iff in Es as [E1%Z.leb_le E2%Z.leb_le]. cbn in E1, E2.
    destruct (IH _ _ _ _ ltac:(done) He) as (-> & [F1 F2 F3] & _).
    pose proof (eval_typed _ _ _ _ _ _ _ S He) as Hv. unfold typed in Hv. rewrite Ers in Hv.
    assert (forall x, typed s x -> typed ty x) as Hsub by (unfold typed; rewrite Er, Ers; lia).
    destruct Hr as [[_ ->]|[Hn _]]; [|exfalso; apply Hn; apply Hsub; unfold typed; by rewrite Ers].
    split_and!; [done| |done]. constructor; [done| |done]. intros k Hk Ho. destruct (F2 k Hk Ho) as (K1 & K2 & K3). split; [done|split; [done|auto]].
  - bindo. destruct (match x with Some b => holds_in (mn, mx) b | None => false end) eqn:Eb; [|done]. injection H1 as ->.
    destruct x as [[a b]|]; [|done]. apply andb_true_iff in Eb as [E1%Z.leb_le E2%Z.leb_le]. cbn in E1, E2.
    pose proof (fun k => bounds_no_outside _ _ _ k H0) as Hall. destruct He as [(v1 & t1 & He & _ & Hr)|(_ & Hu & _)].
    + destruct (IH _ _ _ _ ltac:(done) He) as (-> & [F1 F2 F3] & _).
      assert (forall k, k ∈ form_keys f -> is_outside k = false) as Hno.
      { intros k Hk. destruct (is_outside k) eqn:E; [|done]. destruct (Hall k Hk) as [r Hrr].
        rewrite (outside_no_range _ _ (se_wf _ _ _ S) E) in Hrr. done. }
      assert (a <= form_value rho f <= b) as B.
      { pose proof (bounds_sound _ _ _ _ rho _ H0) as B. cbn in B.
        assert (form_value (skip_outside false rho) f = form_value rho f) as Ev by (unfold form_value; by rewrite skip_outside_value).
        rewrite Ev in B. apply B. intros k Hk _. destruct (F2 k Hk (Hno k Hk)) as (_ & K2%index_valid_range & _).
        unfold used_range. by destruct (index_range st k). }
      destruct Hr as [[_ ->]|[Hn _]]; [|exfalso; apply Hn; unfold typed; rewrite Er; lia].
      split_and!; [done| |done]. constructor; [done| |by intros _]. intros k Hk Ho. destruct (F2 k Hk Ho) as (K1 & K2 & K3).
      split; [done|split; [done|]]. intros E. destruct (Hall k Hk) as [r Hrr]. by rewrite E in Hrr.
    + destruct (affine_unknown _ _ _ _ _ S H Hu) as (_ & k & Hk & Ho). destruct (Hall k Hk) as [r Hrr].
      by rewrite (outside_no_range _ _ (se_wf _ _ _ S) Ho) in Hrr.
Qed.

Lemma form_ok_add st rho l r f sign ty t1 t2 : Affine_add l r sign = Some f ->
  form_ok st rho l ty t1 -> form_ok st rho r ty t2 ->
  form_ok st rho f ty (t1 || t2) /\ form_value rho f = form_value rho l + sign * form_value rho r.
Proof.
  intros Ha [L1 L2 L3] [R1 R2 R3]. destruct (Affine_add_spec rho _ _ _ _ L1 Ha) as (H1 & H2 & H3). split; [|done].
  constructor; [done|intros k [Hk|Hk]%H3; [by apply L2|by apply R2]|].
  intros [Ht1 Ht2]%orb_false_iff k [Hk|Hk]%H3; [by apply L3|by apply R3].
Qed.

Lemma form_ok_scale st rho a k f ty t : Affine_scale a k = Some f -> form_ok st rho a ty t ->
  form_ok st rho f ty t /\ form_value rho f = form_value rho a * k.
Proof.
  intros Ha [L1 L2 L3]. destruct (Affine_scale_spec rho _ _ _ L1 Ha) as (H1 & H2 & H3). split; [|done].
  constructor; [done|intros x Hx%H3; by apply L2|]. intros Ht x Hx%H3. by apply L3.
Qed.

Lemma form_ok_taint st rho f ty t t' : form_ok st rho f ty t -> (t' = false -> t = false) -> form_ok st rho f ty t'.
Proof. intros [F1 F2 F3] H. constructor; auto. Qed.

Lemma affine_binary st rho env a op b sp oty f v ty taint : sees st rho env ->
  (forall f v ty taint, affine st a = Returns (Some f) -> eval env a v ty taint -> form_says st rho a f v ty taint) ->
  (forall f v ty taint, affine st b = Returns (Some f) -> eval env b v ty taint -> form_says st rho b f v ty taint) ->
  affine st (EBinaryOp a op b sp oty) = Returns (Some f) -> eval env (EBinaryOp a op b sp oty) v ty taint ->
  form_says st rho (EBinaryOp a op b sp oty) f v ty taint.
Proof.
  intros S IHa IHb. cbn [affine RaceSem.eval]. intros Ha He. bindo. destruct x as [l|]; [|done]. bindo. destruct x as [r|]; [|done].
  match goal with H : match ?o with Some _ => _ | None => Returns None end = _ |- _ => destruct o as [g|] eqn:Ef; [|done] end.
  bindo. destruct x; [|done]. injection H2 as ->.
  destruct oty as [t|]; [|done]. destruct He as [-> He].
  assert (exists F, (exists v1 t1 v2 t2, eval env a v1 t t1 /\ eval env b v2 t t2 /\ taint = t1 || t2 /\
            exists r, F v1 v2 = Some r /\ result_of false t taint r v) /\
          forall v1 t1 v2 t2, form_ok st rho l t t1 -> form_ok st rho r t t2 -> v1 = form_value rho l -> v2 = form_value rho r ->
            form_ok st rho f t (t1 || t2) /\ F v1 v2 = Some (form_value rho f)) as (F & (v1 & t1 & v2 & t2 & E1 & E2 & -> & res & HF & Hr) & HF').
  { destruct op; try done; eexists; (split; [exact He|]); intros v1 t1 v2 t2 F1 F2 -> ->.
    - destruct (form_ok_add _ _ _ _ _ _ _ _ _ Ef F1 F2) as [Hf ->]. split; [done|f_equal; lia].
    - destruct (form_ok_add _ _ _ _ _ _ _ _ _ Ef F1 F2) as [Hf ->]. split; [done|f_equal; lia].
    - destruct (as_constant l) as [k|] eqn:El; [|destruct (as_constant r) as [k|] eqn:Er; [|done]].
      + destruct (form_ok_scale _ _ _ _ _ _ _ Ef F2) as [Hf ->]. apply (as_constant_value rho) in El as ->.
        split; [|f_equal; lia]. eapply form_ok_taint; [exact Hf|]. by intros [_ ?]%orb_false_iff.
      + destruct (form_ok_scale _ _ _ _ _ _ _ Ef F1) as [Hf ->]. apply (as_constant_value rho) in Er as ->.
        split; [|f_equal; lia]. eapply form_ok_taint; [exact Hf|]. by intros [? _]%orb_false_iff. }
  destruct (IHa _ _ _ _ ltac:(done) E1) as (V1 & O1 & _). destruct (IHb _ _ _ _ ltac:(done) E2) as (V2 & O2 & _).
  destruct (HF' _ _ _ _ O1 O2 V1 V2) as [Hok Heq]. rewrite Heq in HF. injection HF as <-.
  assert (of_type (Some t) t) as Hty by (by intros ? [= ->]).
  split_and!; [|done|done]. eapply fits_sound; [done|apply (se_wf _ _ _ S)|done|done|done].
Qed.

(** The form of an integer computation has its value. *)
Lemma affine_sound st rho env e f v ty taint : sees st rho env ->
  affine st e = Returns (Some f) -> eval env e v ty taint -> form_says st rho e f v ty taint.
Proof.
  intros S. revert f v ty taint. induction e; intros f v ty' taint; try (intros [=]; done).
  - by apply (affine_identifier _ _ env).
  - cbn [affine RaceSem.eval]. intros [= Ha] [He _]. destruct (parse_int 64 value) eqn:E; [|done]. injection Ha as <-. by apply number_sound.
  - by apply (affine_binary _ _ env).
  - destruct op; [done| |done]. cbn [affine RaceSem.eval]. intros Ha (v1 & He & Hr). bindo. destruct x as [g|]; [|done]. cbn in H0.
    destruct (Affine_scale g (-1)) as [g'|] eqn:Eg; [|done]. bindo. destruct x; [|done]. injection H1 as ->.
    assert (form_says st rho e g v1 ty' taint) as (-> & Hok & Ht).
    { destruct He as [He|He]; [by apply IHe|]. destruct e; try done. cbn in H. injection H as H.
      destruct (parse_int 64 value) eqn:E; [|done]. injection H as <-. by apply number_sound. }
    destruct (form_ok_scale _ _ _ _ _ _ _ Eg Hok) as [Hok' Hv].
    replace (- form_value rho g) with (form_value rho f) in Hr by lia.
    split_and!; [|done|done]. eapply fits_sound; [done|apply (se_wf _ _ _ S)|done|done|done].
  - by apply (affine_cast _ _ env).
Qed.

(** The condition of [one_pass] holds in that pass only. *)
Lemma one_pass_sound st rho env cond c : sees st rho env -> is_outside (rp_own st) = false ->
  one_pass st cond = Returns (Some c) -> may_hold outs false env cond -> rho (rp_own st) = c.
Proof.
  intros S Ho. revert c. induction cond; intros c; try (intros [=]; done); cbn [one_pass may_hold].
  - destruct op; try done. intros Ha He. bindo. destruct x as [l|]; [|done]. bindo. destruct x as [r|]; [|done]. injection H1 as H1.
    assert (as_constant l = Some c /\ r = Affine_var (rp_own st) \/ as_constant r = Some c /\ l = Affine_var (rp_own st)) as Hc.
    { repeat case_decide; [by right|by left|done]. }
    assert (forall f, from_outside f -> as_constant f = Some c \/ f = Affine_var (rp_own st) -> False) as Hno.
    { intros f (_ & k & Hk & Hko) [E|E]; unfold form_keys in Hk.
      - unfold as_constant in E. destruct (terms f); [|done]. by apply elem_of_nil in Hk.
      - rewrite E in Hk. apply list_elem_of_singleton in Hk. cbn in Hk. subst k. by rewrite Hko in Ho. }
    assert (form_value rho (Affine_var (rp_own st)) = rho (rp_own st)) as Hown by (unfold form_value; cbn [Affine_var terms constant terms_value]; lia).
    destruct He as [(v & t1 & t2 & k1 & k2 & E1 & E2)|[Hu|Hu]].
    + destruct (affine_sound _ _ _ _ _ _ _ _ S H E1) as (V1 & _). destruct (affine_sound _ _ _ _ _ _ _ _ S H0 E2) as (V2 & _).
      destruct Hc as [[Hc%(as_constant_value rho) ->]|[Hc%(as_constant_value rho) ->]]; lia.
    + apply (affine_unknown _ _ _ _ _ S H) in Hu. destruct (Hno l Hu). tauto.
    + apply (affine_unknown _ _ _ _ _ S H0) in Hu. destruct (Hno r Hu). tauto.
  - destruct op; [|done]. intros Ha [H1 H2]. bindo. destruct x as [p|]; [|by apply IHcond2]. injection H0 as ->. by apply IHcond1.
Qed.

(** ** Bounds of values *)

Definition within (b : Z * Z) (v : Z) : Prop := b.1 <= v <= b.2.

Definition corner_min (F : Z -> Z -> Z) (l r : Z * Z) : Z := Z.min (Z.min (F l.1 r.1) (F l.1 r.2)) (Z.min (F l.2 r.1) (F l.2 r.2)).
Definition corner_max (F : Z -> Z -> Z) (l r : Z * Z) : Z := Z.max (Z.max (F l.1 r.1) (F l.1 r.2)) (Z.max (F l.2 r.1) (F l.2 r.2)).

Lemma corners_cases f F l r t : (forall a b z, f a b = Some z -> z = F a b) ->
  corners f l r t = t \/ corners f l r t = (corner_min F l r, corner_max F l r).
Proof.
  intros Hf. unfold corners, corner_min, corner_max. destruct (f l.1 r.1) eqn:E1; [|by left]. destruct (f l.1 r.2) eqn:E2; [|by left].
  destruct (f l.2 r.1) eqn:E3; [|by left]. destruct (f l.2 r.2) eqn:E4; [|by left]. right.
  by rewrite (Hf _ _ _ E1), (Hf _ _ _ E2), (Hf _ _ _ E3), (Hf _ _ _ E4).
Qed.

(** An operation that grows or shrinks in each operand is between its corners. *)
Lemma corners_between F l r x y :
  (forall a b c z, within r z -> a <= b <= c -> Z.min (F a z) (F c z) <= F b z <= Z.max (F a z) (F c z)) ->
  (forall a b c z, within r a -> within r b -> within r c -> a <= b <= c -> Z.min (F z a) (F z c) <= F z b <= Z.max (F z a) (F z c)) ->
  within l x -> within r y -> corner_min F l r <= F x y <= corner_max F l r.
Proof.
  unfold within, corner_min, corner_max. intros H1 H2 Hx Hy.
  pose proof (H1 l.1 x l.2 y Hy Hx). pose proof (H2 r.1 y r.2 l.1 ltac:(lia) ltac:(lia) ltac:(lia) Hy).
  pose proof (H2 r.1 y r.2 l.2 ltac:(lia) ltac:(lia) ltac:(lia) Hy). lia.
Qed.

Lemma quot_mono_r a b c z : 0 < a -> a <= b <= c -> Z.min (Z.quot z a) (Z.quot z c) <= Z.quot z b <= Z.max (Z.quot z a) (Z.quot z c).
Proof.
  intros Ha Hb. assert (forall x y z, 0 < x <= y -> 0 <= z -> Z.quot z y <= Z.quot z x) as H.
  { intros x y w Hxy Hw. rewrite !Z.quot_div_nonneg by lia. apply Z.div_le_compat_l; lia. }
  destruct (Z.le_gt_cases 0 z) as [Hz|Hz].
  - pose proof (H a b z ltac:(lia) Hz). pose proof (H b c z ltac:(lia) Hz). lia.
  - pose proof (H a b (- z) ltac:(lia) ltac:(lia)). pose proof (H b c (- z) ltac:(lia) ltac:(lia)).
    rewrite !Z.quot_opp_l in * by lia. lia.
Qed.

Lemma quot_mono_l a b c z : 0 < z -> a <= b <= c -> Z.min (Z.quot a z) (Z.quot c z) <= Z.quot b z <= Z.max (Z.quot a z) (Z.quot c z).
Proof. intros Hz Hb. pose proof (Z.quot_le_mono a b z Hz ltac:(lia)). pose proof (Z.quot_le_mono b c z Hz ltac:(lia)). lia. Qed.

Lemma integer_range_zero ty lo hi : integer_range ty = Some (lo, hi) -> lo <= 0 <= hi.
Proof. destruct ty; cbn; intros [= <- <-]; unfold imin, imax, umax; lia. Qed.

Lemma wrapped_sound ty t taint c r v : integer_range ty = Some t -> c = t \/ within c r ->
  result_of false ty taint r v -> within (wrapped t c) v.
Proof.
  intros Ht Hc Hr. pose proof (result_of_typed _ _ _ _ Hr) as Hv. unfold typed in Hv. rewrite Ht in Hv. destruct t as [mn mx].
  unfold wrapped. destruct ((mn, mx).1 <=? c.1) eqn:E1; cbn; [|done]. destruct (c.2 <=? mx) eqn:E2; cbn; [|done]. cbn in E1.
  destruct Hc as [->|Hc]; [done|]. unfold within in *. destruct Hr as [[_ ->]|[Hn _]]; [done|].
  exfalso. apply Hn. unfold typed. rewrite Ht. lia.
Qed.

Lemma div_sound ty t taint c l r x y v : integer_range ty = Some t -> within l x -> within r y -> within t x -> 0 < r.1 ->
  c = corners checked_div l r t -> result_of false ty taint (Z.quot x y) v -> within c v.
Proof.
  intros Ht Hl Hr Hx Hpos -> Hv. pose proof (result_of_typed _ _ _ _ Hv) as Hty. unfold typed in Hty. rewrite Ht in Hty.
  assert (forall a b z, checked_div a b = Some z -> z = Z.quot a b) as Hdiv.
  { intros a b z. unfold checked_div. destruct (b =? 0); [done|]. by intros [<- _]%checked_i_Some. }
  destruct (corners_cases checked_div Z.quot l r t Hdiv) as [->| ->]; [by destruct t|].
  assert (typed ty (Z.quot x y)) as Hq.
  { unfold typed. rewrite Ht. destruct t as [mn mx]. pose proof (integer_range_zero _ _ _ Ht). unfold within in *. cbn in *.
    assert (0 < y) by lia. pose proof (quot_mono_r 1 y (Z.max y (Z.abs x + 1)) x ltac:(lia) ltac:(lia)) as Hm.
    rewrite Z.quot_1_r in Hm.
    assert (Z.quot x (Z.max y (Z.abs x + 1)) = 0) by (apply Z.quot_small_iff; lia). lia. }
  destruct Hv as [[_ ->]|[? _]]; [|done]. unfold within. cbn.
  apply corners_between; [|intros a b c z Ha Hb Hc; apply quot_mono_r; unfold within in *; lia|done|done].
  intros a b c z Hz. apply quot_mono_l. unfold within in *. lia.
Qed.

Lemma value_bounds_sound st rho env e full b v ty taint : sees st rho env -> integer_range ty = Some full ->
  value_bounds st e (Some full) = Some b -> eval env e v ty taint -> within b v.
Proof.
  intros S. revert full b v ty taint. induction e; intros full bd v ty' taint Hfull; try done; cbn [value_bounds RaceSem.eval].
  - intros Hb He. pose proof (se_names _ _ _ S name) as Hn.
    destruct (lookup_name st name) as [[]|], (env_lookup env name) as [[]|]; try done; try by destruct Hn as [_ Hn].
    + destruct He as (-> & -> & ->). destruct Hn as (_ & -> & _ & (_ & Hv%index_valid_range & _) & _). rewrite Hb in Hv. by destruct bd.
    + injection Hb as ->. destruct He as (_ & _ & He). unfold typed in He. rewrite Hfull in He. by destruct bd.
  - intros (z & Hz & [= <-])%bind_Some [[_ Hv] _]. rewrite Hz in Hv. destruct Hv as [-> _]. unfold within. cbn. lia.
  - destruct operand_ty as [t0|]; [|done]. cbn. intros (t & Ht & [= Hb])%bind_Some [-> He]. rewrite Hfull in Ht. injection Ht as <-.
    assert (forall v k e, (forall full bd v ty taint, integer_range ty = Some full -> value_bounds st e (Some full) = Some bd -> eval env e v ty taint -> within bd v) ->
        eval env e v t0 k -> within (default full (value_bounds st e (Some full))) v /\ within full v) as Hop.
    { intros w k e IH E. pose proof (eval_typed _ _ _ _ _ _ _ S E) as Hw. unfold typed in Hw. rewrite Hfull in Hw.
      split; [|by destruct full]. destruct (value_bounds st e (Some full)) eqn:Ee; cbn; [by eapply IH|by destruct full]. }
    assert (typed t0 v -> bd = full -> within bd v) as Hdone by (unfold typed; rewrite Hfull; intros ? ->; by destruct full).
    revert Hb. set (l := default full (value_bounds st e1 (Some full))) in *. set (r := default full (value_bounds st e2 (Some full))) in *.
    intros Hb. destruct op; try (by apply Hdone);
      destruct He as (v1 & k1 & v2 & k2 & E1 & E2 & -> & res & HF & Hr);
      destruct (Hop _ _ _ IHe1 E1) as [L1 L2]; destruct (Hop _ _ _ IHe2 E2) as [R1 R2]; fold l in L1; fold r in R1.
    + injection HF as <-. rewrite <-Hb. eapply wrapped_sound; [done| |exact Hr].
      destruct (corners_cases (fun a b => checked_i 128 (a + b)) Z.add l r full) as [->| ->]; [by intros ? ? ? [<- _]%checked_i_Some|by left|right].
      apply corners_between; [lia|lia|done|done].
    + injection HF as <-. rewrite <-Hb. eapply wrapped_sound; [done| |exact Hr].
      destruct (corners_cases (fun a b => checked_i 128 (a - b)) Z.sub l r full) as [->| ->]; [by intros ? ? ? [<- _]%checked_i_Some|by left|right].
      apply corners_between; [lia|lia|done|done].
    + injection HF as <-. rewrite <-Hb. eapply wrapped_sound; [done| |exact Hr].
      destruct (corners_cases (fun a b => checked_i 128 (a * b)) Z.mul l r full) as [->| ->]; [by intros ? ? ? [<- _]%checked_i_Some|by left|right].
      apply corners_between; [intros a b c z _ H; pose proof (mul_between z a c b H); lia|intros a b c z _ _ _ H; apply (mul_between z a c b H)|done|done].
    + destruct (Z.ltb_spec 0 r.1); [|apply Hdone; [exact (result_of_typed _ _ _ _ Hr)|done]].
      destruct (v2 =? 0); [done|]. injection HF as <-. exact (div_sound _ _ _ _ _ _ _ _ _ Hfull L1 R1 L2 H (eq_sym Hb) Hr).
Qed.
End sound.
