(* ===== verification/RaceWalk.v ===== *)
(** * The walk of the race check records every access

    Each function of the walk is paired with the accesses that the pass may make
    there: when the walk ends without an error, each of them is recorded, with
    indices whose forms compute the values that the pass used. *)

From stdpp Require Import base functions list strings gmap sorting.
From Stdlib Require Import ZArith Lia.
From S2P Require Import Prelude Gid Syntax Types Program Race RaceSem RaceForm RaceSound.
Open Scope Z_scope.
Open Scope vx_scope.

(** ** Bodies that the walk takes whole

    The walk leaves out an operand that is equal to an expression inside an
    operand before it, the position included, and it does not bind the names of
    a pattern. *)

Section skipped.
Context {A : Type} (skip : list A -> A -> bool).
Fixpoint nothing_skipped (kept l : list A) : bool :=
  match l with [] => true | x :: l => negb (skip kept x) && nothing_skipped (kept ++ [x]) l end.
End skipped.

Definition plain (e : PExpr) : bool :=
  match e with
  | EIndexAccess b i _ => match root b with Some _ => true | None => negb (second b i) end
  | EBinaryOp x _ y _ _ | ERelationalOp x _ y _ _ | ELogicalOp x _ y _ | ERange x y _ => negb (second x y)
  | EEnumVariant _ _ (Some es) _ | EArray es _ | EVecMacro es _ => nothing_skipped skips [] es
  | EStructInit _ fields _ => nothing_skipped (fun kept f => skips (snd <$> kept) f.2) [] fields
  | EMatch _ arms _ => forallb (fun arm : Pattern * list PStmt => match pattern_names arm.1 with [] => true | _ => false end) arms
  | _ => true
  end.

Lemma odirect_ofold {A St} (f : A -> St -> outcome St) skip kept l st :
  nothing_skipped skip kept l = true -> odirect f skip kept l st = ofold f l st.
Proof.
  revert kept st. induction l as [|x l IH]; intros kept st; cbn; [done|]. intros [Hx%negb_true_iff H]%andb_true_iff. rewrite Hx.
  destruct (f x st); cbn; [by apply IH|done].
Qed.

(** ** Indices of loops *)

Lemma open_range_open st it key ty across full r o : open_range st it key ty across full = Returns r -> o ∈ rp_open st -> o ∈ r.2.
Proof.
  unfold open_range. destruct it; try (intros [= <-]; done). intros H Ho. bindo. destruct across as [at_|]; [|by simplify_eq].
  destruct (int it1); [|by simplify_eq]. bindo. simplify_eq. cbn. apply elem_of_app. by left.
Qed.

Section ready.
Context (contracts : gmap Symbol (list nat)) (own : string).

Record ready (st : RaceProof) : Prop := {
  rd_wf : wf st;
  rd_contracts : rp_contracts st = contracts;
  rd_own : rp_own st = own;
  rd_range : is_Some (rp_ranges st !! own);
}.

Lemma ready_grows st st' : ready st -> grows st st' -> wf st' -> ready st'.
Proof.
  intros [W C O R] G W'. split; [done|rewrite (gr_contracts _ _ G); done|rewrite (gr_own _ _ G); done|].
  by rewrite (proj1 (gr_ranges _ _ G _ R)).
Qed.

Definition new_index (st : RaceProof) (key : string) (range : option (Z * Z)) tr op : RaceProof :=
  with_index (<[key := range]> (rp_ranges st)) tr op (S (rp_next_key st)) st.

Lemma new_index_grows name st range tr op (key := index_key name (rp_next_key st)) : wf st ->
  (tr = rp_type_ranges st \/ exists r, tr = <[key := r]> (rp_type_ranges st)) -> (forall o, o ∈ rp_open st -> o ∈ op) ->
  wf (new_index st key range tr op) /\ grows st (new_index st key range tr op).
Proof.
  intros W Htr Hop. pose proof (index_fresh st name W) as Hf. fold key in Hf. destruct W as [W1 W2 W3]. split.
  - constructor; cbn; [| |done].
    + intros k [<-|[Hne Hk]]%lookup_insert_is_Some; [exists name, (rp_next_key st); split; [done|lia]|].
      destruct (W1 k Hk) as (n' & i & -> & Hi). exists n', i. split; [done|lia].
    + intros k Hk. apply lookup_insert_is_Some. destruct (decide (key = k)) as [|Hne]; [by left|right]. split; [done|].
      destruct Htr as [->|[r ->]]; [by apply W2|]. rewrite lookup_insert_ne in Hk by done. by apply W2.
  - constructor; cbn; try done. intros k Hk. assert (key <> k) by (intros E; rewrite <-E, Hf in Hk; by destruct Hk).
    rewrite lookup_insert_ne by done. destruct Htr as [->|[r ->]]; [done|]. by rewrite lookup_insert_ne.
Qed.

(** What [bind_index] leaves. *)
Lemma bind_index_shape name it range across st ky st' (key := index_key name (rp_next_key st)) :
  bind_index name it range across st = Returns (ky, st') ->
  ky = key /\ exists s ss tr op, rp_scopes st = s :: ss /\
    st' = with_scopes (<[name := BIndex key (range_type it)]> s :: ss) (new_index st key range tr op) /\
    ((tr = rp_type_ranges st /\ op = rp_open st) \/
     exists t full r, range = None /\ range_type it = Some t /\ integer_range t = Some full /\
       open_range (new_index st key range (rp_type_ranges st) (rp_open st)) it key t across full = Returns r /\
       tr = <[key := r.1]> (rp_type_ranges st) /\ op = r.2).
Proof.
  unfold bind_index. fold key. intros Hb. bindo. injection H1 as <- ->. split; [done|].
  assert (exists tr op, x = new_index st key range tr op /\
    ((tr = rp_type_ranges st /\ op = rp_open st) \/
     exists t full r, range = None /\ range_type it = Some t /\ integer_range t = Some full /\
       open_range (new_index st key range (rp_type_ranges st) (rp_open st)) it key t across full = Returns r /\
       tr = <[key := r.1]> (rp_type_ranges st) /\ op = r.2)) as (tr & op & -> & Hop).
  { destruct range as [r0|]; [injection H as <-; eexists _, _; split; [done|by left]|].
    destruct (range_type it) as [t|] eqn:Et; [|injection H as <-; eexists _, _; split; [done|by left]]. cbn [mbind option_bind] in H.
    destruct (integer_range t) as [full|] eqn:Ef; [|injection H as <-; eexists _, _; split; [done|by left]].
    bindo. injection H1 as <-. eexists _, _. split; [done|]. right. by exists t, full, x0. }
  unfold bind in H0. cbn in H0. destruct (rp_scopes st) as [|s ss]; [done|]. injection H0 as <-. by exists s, ss, tr, op.
Qed.

Lemma bind_index_grows name it range across st key st' : bind_index name it range across st = Returns (key, st') -> wf st ->
  wf st' /\ grows st st' /\ is_Some (rp_ranges st' !! key).
Proof.
  intros (-> & s & ss & tr & op & Hs & -> & Hop)%bind_index_shape W.
  destruct (new_index_grows name st range tr op W) as [W' G].
  - destruct Hop as [[-> _]|(t & full & r & _ & _ & _ & _ & -> & _)]; [by left|right; by eexists].
  - destruct Hop as [[_ ->]|(t & full & r & _ & _ & _ & Ho & _ & ->)]; [done|]. intros o Hin. by eapply open_range_open.
  - split; [by destruct W'|]. split; [by destruct G|]. cbn. rewrite lookup_insert_eq. by eexists.
Qed.
End ready.

Section walk.
Context (outs : Symbol -> option (Z * ElementType)) (contracts : gmap Symbol (list nat)) (ends : list LargestEnd).
Context (base : Valuation) (Hbase : forall n v ty, outs n = Some (v, ty) -> base (outside_key n) = v).
Context (own : string).

Abbreviation eval := (eval outs false).
Abbreviation next := (next outs false).
Abbreviation sees := (sees base).
Abbreviation ready := (ready contracts own).

(** The launch checks the end of each limited loop. *)
Definition ends_ok (st : RaceProof) : Prop :=
  forall key at_ start ty k, (key, at_, start, ty) ∈ rp_open st -> rp_limits st !! key = Some k -> (at_, start + k, ty) ∈ ends.

Lemma ends_ok_grows st st' : grows st st' -> ends_ok st' -> ends_ok st.
Proof.
  intros G H key at_ start ty k Ho Hk. eapply H; [by apply (gr_open _ _ G)|]. by rewrite (gr_limits _ _ G).
Qed.

Lemma int_eval env e z v ty taint : int e = Some z -> eval env e v ty taint -> v = z.
Proof. destruct e; try done. cbn. intros E%parse_64_128 [[_ H] _]. rewrite E in H. by destruct H. Qed.

Lemma number_type_eval env e t v ty taint : number_type e = Some t -> eval env e v ty taint -> ty = t.
Proof. destruct e; try done. cbn. intros -> [[H _] _]. by apply H. Qed.

Lemma range_type_sound env it across i ty : loop_index outs ends false env it across i ty -> of_type (range_type it) ty.
Proof.
  intros (_ & Hit & _) t Ht. destruct it; try done. destruct Hit as (lo & t1 & hi & t2 & H1 & H2 & _). cbn in Ht.
  destruct (number_type it1) as [t'|] eqn:E; [injection Ht as ->; by eapply number_type_eval|by eapply number_type_eval].
Qed.

Lemma binding_agrees_grows st st' rho b x : grows st st' -> binding_agrees st rho b x -> binding_agrees st' rho b x.
Proof.
  intros G [H1 H2]. assert (forall ty k, key_ok st rho ty k -> key_ok st' rho ty k) as Hk.
  { intros ty k (K1 & K2 & K3). split; [by rewrite (proj1 (gr_ranges _ _ G _ K1))|]. split; [by eapply grows_index_valid|].
    by rewrite (grows_index_range st st' k G K1). }
  split; [done|]. destruct b, x; try done; [naive_solver|]. destruct H2 as (-> & [F1 F2 F3] & H3). split; [done|]. split; [|done].
  constructor; auto.
Qed.

Lemma lookup_agrees_grows st st' rho b x : grows st st' -> lookup_agrees st rho b x -> lookup_agrees st' rho b x.
Proof. intros G. destruct b, x; try done. by apply binding_agrees_grows. Qed.

Lemma sees_grows st st' rho env : grows st st' -> wf st' -> (forall n, lookup_name st' n = lookup_name st n) ->
  sees st rho env -> sees st' rho env.
Proof.
  intros G W Hn [_ S2 S3]. constructor; [done|done|]. intros n. rewrite Hn. by eapply lookup_agrees_grows.
Qed.

(** An index of the loop is in the range that the walk gives to its key. *)
Lemma open_range_sound st rho env a b sp key ty across full r i :
  open_range st (ERange a b sp) key ty across full = Returns r -> sees st rho env -> integer_range ty = Some full ->
  loop_index outs ends false env (ERange a b sp) across i ty ->
  (forall at_ start k, (key, at_, start, ty) ∈ r.2 -> rp_limits st !! key = Some k -> (at_, start + k, ty) ∈ ends) ->
  r.1.1 <= i <= r.1.2.
Proof.
  intros Ho S Hf (Ht & (lo & t1 & hi & t2 & E1 & E2 & Hi) & He) Hends. unfold typed in Ht. rewrite Hf in Ht. destruct full as [mn mx].
  cbn [open_range] in Ho. bindo.
  assert (match value_bounds st a (Some (mn, mx)) with Some (x, _) => Z.max (mn, mx).1 x | None => (mn, mx).1 end <= i) as Hlo.
  { destruct (value_bounds st a (Some (mn, mx))) as [[l u]|] eqn:Ea; cbn [fst]; [|lia].
    pose proof (value_bounds_sound outs base _ _ _ _ _ _ _ _ _ S Hf Ea E1) as []. cbn in *. lia. }
  assert (i <= x) as Hhi.
  { destruct (value_bounds st b (Some (mn, mx))) as [[l u]|] eqn:Eb; [|injection H as <-; cbn; lia]. bindo.
    apply i128_op_Returns in H as [<- _]. injection H1 as <-. pose proof (value_bounds_sound outs base _ _ _ _ _ _ _ _ _ S Hf Eb E2) as []. cbn in *. lia. }
  destruct across as [at_|]; [|by simplify_eq]. destruct (int a) as [start|]; [|by simplify_eq]. bindo. injection H1 as <-. cbn [fst snd] in *.
  split; [done|]. destruct (rp_limits st !! key) as [k|] eqn:Ek; [|by injection H0 as <-]. bindo.
  apply i128_op_Returns in H0 as [<- _]. apply i128_op_Returns in H1 as [<- _]. injection H2 as <-.
  assert (i < start + k); [|lia]. apply (He at_ _ ty); [done|]. apply Hends; [|done]. apply elem_of_app. right. by left.
Qed.

Lemma bind_index_valid name it across st key st' rho env i ty :
  bind_index name it (int_range it) across st = Returns (key, st') -> sees st rho env -> ends_ok st' ->
  loop_index outs ends false env it across i ty -> index_valid st' key i.
Proof.
  intros (-> & s & ss & tr & op & Hs & -> & Hop)%bind_index_shape S He Hi. pose proof (se_wf _ _ _ _ S) as W.
  set (key := index_key name (rp_next_key st)) in *. split; cbn; [rewrite lookup_insert_eq|].
  - destruct (int_range it) as [[lo hi]|] eqn:Er; [|done]. destruct it; try done. cbn in Er.
    apply bind_Some in Er as (l & El & (h & Eh & [= <- <-])%bind_Some).
    destruct Hi as (_ & (l' & t1 & h' & t2 & E1 & E2 & Hi) & _). rewrite (int_eval _ _ _ _ _ _ El E1), (int_eval _ _ _ _ _ _ Eh E2) in Hi. lia.
  - destruct Hop as [[-> ->]|(t & full & r & Hr & Ht & Hf & Ho & -> & ->)].
    + destruct (rp_type_ranges st !! key) eqn:E; [|done]. exfalso.
      assert (is_Some (rp_ranges st !! key)) as [? Hk] by (apply (wf_types _ W); by eexists). pose proof (index_fresh st name W) as Hf. fold key in Hf. congruence.
    + rewrite lookup_insert_eq. pose proof (range_type_sound _ _ _ _ _ Hi _ Ht) as ->. destruct it; try done.
      enough (r.1.1 <= i <= r.1.2) by (by destruct r as [[]]).
      destruct (new_index_grows name st (int_range (ERange it1 it2 span)) (rp_type_ranges st) (rp_open st) W) as [W' G]; [by left|done|].
      assert (sees (new_index st key (int_range (ERange it1 it2 span)) (rp_type_ranges st) (rp_open st)) rho env) as S'
        by (by eapply sees_grows).
      eapply open_range_sound; [exact Ho|exact S'|done|exact Hi|]. intros at_ start k Hin Hk. by eapply He.
Qed.

(** ** Scopes *)

Record agrees (st : RaceProof) (rho : Valuation) (env : Env) : Prop := {
  ag_out : outside_agrees base rho;
  ag_scopes : Forall2 (fun s m => forall n, lookup_agrees st rho (s !! n) (m !! n)) (rp_scopes st) env;
  ag_pass : forall c, rp_pass st = Some c -> rho own = c;
}.

Lemma agrees_sees st rho env : wf st -> agrees st rho env -> sees st rho env.
Proof.
  intros W [A1 A2 _]. constructor; [done|done|]. intros n. unfold lookup_name. induction A2 as [|s m scopes env Hs _ IH]; cbn; [done|].
  specialize (Hs n). destruct (s !! n), (m !! n); done.
Qed.

Lemma scopes_grows st st' rho scopes env : grows st st' ->
  Forall2 (fun s m => forall n, lookup_agrees st rho (s !! n) (m !! n)) scopes env ->
  Forall2 (fun (s : gmap Symbol Binding) (m : gmap Symbol Val) => forall n, lookup_agrees st' rho (s !! n) (m !! n)) scopes env.
Proof. intros G H. eapply Forall2_impl; [exact H|]. intros s m Hs n. by eapply lookup_agrees_grows. Qed.

Lemma agrees_grows st st' rho env : agrees st rho env -> grows st st' -> rp_scopes st' = rp_scopes st -> rp_pass st' = rp_pass st ->
  agrees st' rho env.
Proof.
  intros [A1 A2 A3] G Hs Hp. constructor; [done| |by rewrite Hp]. rewrite Hs. by eapply scopes_grows.
Qed.

Lemma agrees_outside st rho env n : agrees st rho env -> wf st -> outside st n = true <-> env_lookup env n = None.
Proof.
  intros A W. pose proof (se_names _ _ _ _ (agrees_sees _ _ _ W A) n) as H. unfold outside.
  by destruct (lookup_name st n), (env_lookup env n).
Qed.

Lemma with_scopes_grows scopes st : grows st (with_scopes scopes st).
Proof. by constructor. Qed.

Lemma push_scope_agrees st rho env : agrees st rho env -> agrees (push_scope st) rho (∅ :: env).
Proof.
  intros [A1 A2 A3]. constructor; [done| |done]. cbn. constructor; [intros n; by rewrite !lookup_empty|].
  by eapply scopes_grows; [apply with_scopes_grows|].
Qed.

(** ** Recorded accesses *)

Definition matched (st : RaceProof) (rho : Valuation) (o : option Affine) (v : Z) : Prop :=
  match o with
  | Some f => v = form_value rho f /\ keys_sorted (terms f) /\
      forall k, k ∈ form_keys f -> is_outside k = false -> is_Some (rp_ranges st !! k) /\ index_valid st k (rho k)
  | None => True
  end.

(** The access [a] of the pass with the indices [rho] is in the state. *)
Definition recorded (st : RaceProof) (p : Z) (a : Acc) : Prop :=
  exists rho, rho own = p /\ outside_agrees base rho /\
    ((exists x, access_in st (sa_name a) x /\ ac_write x = sa_write a /\ ac_atomic x = sa_atomic a /\
        (forall c, ac_pass x = Some c -> p = c) /\
        (sa_atomic a = false -> Forall2 (matched st rho) (ac_indices x) (sa_idx a))) \/
     (is_Some (rp_whole st !! sa_name a) /\ sa_write a = false /\ sa_atomic a = false)).

Lemma recorded_grows st st' p a : grows st st' -> recorded st p a -> recorded st' p a.
Proof.
  intros G (rho & H1 & H2 & H3). exists rho. split; [done|]. split; [done|].
  destruct H3 as [(x & X1 & X2 & X3 & X4 & X5)|(W1 & W2 & W3)]; [left|right; split; [by apply (gr_whole _ _ G)|done]].
  exists x. split_and!; [by apply (gr_accesses _ _ G)|done|done|done|]. intros Ha. eapply Forall2_impl; [by apply X5|].
  intros [f|] v; [|done]. intros (-> & Hs & Hk). split; [done|]. split; [done|]. intros k Hin Ho. destruct (Hk k Hin Ho) as [K1 K2].
  split; [by rewrite (proj1 (gr_ranges _ _ G _ K1))|by eapply grows_index_valid].
Qed.

(** ** Sound pieces of the walk *)

Definition walks (F : RaceProof -> outcome RaceProof) : Prop :=
  forall st st', F st = Returns st' -> ready st ->
    ready st' /\ grows st st' /\ rp_scopes st' = rp_scopes st /\ rp_pass st' = rp_pass st.

Section accesses.
Context (a : Acc).

(** When the pass makes the access in [T], the walk [F] records it. *)
Definition finds (F : RaceProof -> outcome RaceProof) (T : Env -> Prop) : Prop :=
  forall st st' rho env, F st = Returns st' -> ready st -> agrees st rho env -> rp_error st' = None -> ends_ok st' ->
    T env -> recorded st' (rho own) a.

Definition sound (F : RaceProof -> outcome RaceProof) (T : Env -> Prop) : Prop := walks F /\ finds F T.

Lemma sound_mono F T (U : Env -> Prop) : sound F T -> (forall env, U env -> T env) -> sound F U.
Proof. intros [H1 H2] H. split; [done|]. intros st st' rho env H3 H4 H5 H6 H7 H8. eapply H2; eauto. Qed.

Lemma sound_ret : sound Returns (fun _ => False).
Proof. split; [intros st st' [= <-] R; done|]. by intros st st' rho env. Qed.

Lemma sound_skip F (U : Env -> Prop) : sound F (fun _ => False) -> (forall env, ~ U env) -> sound F U.
Proof. intros H HU. eapply sound_mono; [exact H|exact HU]. Qed.

Lemma sound_bind F G T U : sound F T -> sound G U ->
  sound (fun st => st ←! F st; G st) (fun env => T env \/ U env).
Proof.
  intros [W1 F1] [W2 F2]. split.
  - intros st st' (st1 & H1 & H2)%outcome_bind_Returns R. destruct (W1 _ _ H1 R) as (R1 & G1 & S1 & P1).
    destruct (W2 _ _ H2 R1) as (R2 & G2 & S2 & P2). split_and!; [done|by etrans|congruence|congruence].
  - intros st st' rho env (st1 & H1 & H2)%outcome_bind_Returns R A E Ho [HT|HU]; destruct (W1 _ _ H1 R) as (R1 & G1 & S1 & P1);
      destruct (W2 _ _ H2 R1) as (R2 & G2 & S2 & P2).
    + eapply recorded_grows; [exact G2|]. eapply F1; [done|done|done|by apply (gr_error _ _ G2)|by eapply ends_ok_grows|done].
    + eapply F2; [done|done| |done|done|done]. by eapply agrees_grows.
Qed.

Lemma fail_grows why at_ st : grows st (fail why at_ st) /\ rp_scopes (fail why at_ st) = rp_scopes st /\
  rp_pass (fail why at_ st) = rp_pass st /\ rp_error (fail why at_ st) <> None /\ (wf st -> wf (fail why at_ st)).
Proof.
  unfold fail. destruct (rp_error st) eqn:E; [split_and!; [done|done|done|congruence|done]|].
  split_and!; [by constructor|done|done|done|]. by intros [].
Qed.

Lemma sound_fail why at_ T : sound (fun st => Returns (fail why at_ st)) T.
Proof.
  split.
  - intros st st' [= <-] R. destruct (fail_grows why at_ st) as (G & S & P & _ & W).
    split_and!; [eapply ready_grows; [done|done|apply W, R]|done|done|done].
  - intros st st' rho env [= <-] _ _ E. by destruct (fail_grows why at_ st) as (_ & _ & _ & H & _).
Qed.

(** A piece that stops when there is an error already. *)
Lemma sound_guard F T : sound F T ->
  sound (fun st => match rp_error st with Some _ => Returns st | None => F st end) T.
Proof.
  intros [W H]. split.
  - intros st st'. destruct (rp_error st); [intros [= <-] R; done|apply W].
  - intros st st' rho env. destruct (rp_error st) eqn:E; [intros [= <-] _ _ E'; congruence|apply H].
Qed.

Lemma sound_choice (b : RaceProof -> bool) F G T :
  sound F T -> sound G T -> sound (fun st => if b st then F st else G st) T.
Proof. intros [W1 H1] [W2 H2]. split; [intros st st'|intros st st' rho env]; destruct (b st); [apply W1|apply W2|apply H1|apply H2]. Qed.

Lemma sound_ofold {A} (f : A -> RaceProof -> outcome RaceProof) (T : A -> Env -> Prop) l :
  (forall x, x ∈ l -> sound (f x) (T x)) -> sound (ofold f l) (fun env => some_of (fun x => T x env) l).
Proof.
  induction l as [|x l IH]; intros H; [apply sound_ret|]. cbn [ofold some_of].
  apply (sound_bind (f x) (ofold f l)); [apply H; by left|]. apply IH. intros y Hy. apply H. by right.
Qed.

Lemma sound_ofoldi {A} (f : nat -> A -> RaceProof -> outcome RaceProof) (T : nat -> A -> Env -> Prop) i l :
  (forall i x, x ∈ l -> sound (f i x) (T i x)) -> sound (ofoldi f i l) (fun env => some_ofi (fun i x => T i x env) i l).
Proof.
  revert i. induction l as [|x l IH]; intros i H; [apply sound_ret|]. cbn [ofoldi some_ofi].
  apply (sound_bind (f i x) (ofoldi f (S i) l)); [apply H; by left|]. apply IH. intros j y Hy. apply H. by right.
Qed.

(** *** Recording *)

Lemma push_access_grows name x st : wf st ->
  wf (push_access name x st) /\ grows st (push_access name x st) /\ access_in (push_access name x st) name x.
Proof.
  intros [W1 W2 W3]. split_and!.
  - constructor; [done|done|]. by apply bt_update_sorted.
  - constructor; try done. intros n y (l & Hl & Hy). unfold access_in. cbn. rewrite assoc_bt_update by done.
    case_decide as E; [|by exists l]. subst n. rewrite Hl. eexists. split; [done|]. apply elem_of_app. by left.
  - unfold access_in. cbn. rewrite assoc_bt_update, decide_True by done. eexists. split; [done|]. apply elem_of_app. right. by left.
Qed.

Lemma forms_of_affine st l fs : forms_of st l = Returns fs -> Forall2 (fun e o => affine st e = Returns o) l fs.
Proof.
  revert fs. induction l as [|e l IH]; intros fs; cbn; [intros [= <-]; constructor|].
  intros Hb. bindo. injection H1 as <-. constructor; auto.
Qed.

Lemma matched_form st rho e f v ty taint : form_says st rho e f v ty taint -> matched st rho (Some f) v.
Proof. intros (-> & [F1 F2 _] & _). split_and!; [done|done|]. intros k Hk Ho. by destruct (F2 k Hk Ho) as (? & ? & _). Qed.

Lemma matched_grows st st' rho o v : grows st st' -> matched st rho o v -> matched st' rho o v.
Proof.
  intros G. destruct o as [f|]; [|done]. intros (-> & Hs & Hk). split_and!; [done|done|]. intros k Hin Ho.
  destruct (Hk k Hin Ho) as [K1 K2]. split; [by rewrite (proj1 (gr_ranges _ _ G _ K1))|by eapply grows_index_valid].
Qed.

Lemma forms_matched st st' rho env l fs vs : ready st -> agrees st rho env -> grows st st' -> forms_of st l = Returns fs ->
  Forall2 (fun e v => exists ty taint, eval env e v ty taint) l vs -> Forall2 (matched st' rho) fs vs.
Proof.
  intros R A G H%forms_of_affine Hv. pose proof (agrees_sees _ _ _ (rd_wf _ _ _ R) A) as S. revert vs Hv.
  induction H as [|e o l fs He _ IH]; intros vs Hv.
  - inversion Hv; subst. constructor.
  - inversion Hv as [|? v ? vs' (ty & k & Ev) Hv']; subst. constructor; [|by apply IH].
    destruct o as [f|]; [|done]. eapply matched_grows; [exact G|]. eapply matched_form. by eapply affine_sound.
Qed.

Lemma sound_record name idx write at_ :
  sound (record_element name idx write at_) (fun env => element_access outs false env name idx write a).
Proof.
  split.
  - intros st st' Hr R. unfold record_element, record_access in Hr. destruct (outside st name); [|by injection Hr as <-].
    bindo. injection H0 as <-. destruct (push_access_grows name (mkAccess write false x at_ (rp_pass st)) st (rd_wf _ _ _ R)) as (W & G & _).
    split_and!; [by eapply ready_grows|done|done|done].
  - intros st st' rho env Hr R A _ _ (Hn & Ha & Hw & Hat & Hidx). unfold record_element, record_access in Hr.
    rewrite (proj2 (agrees_outside _ _ _ _ A (rd_wf _ _ _ R)) Hn) in Hr. bindo. injection H0 as <-.
    destruct (push_access_grows name (mkAccess write false x at_ (rp_pass st)) st (rd_wf _ _ _ R)) as (W & G & Hin).
    exists rho. split_and!; [done|apply (ag_out _ _ _ A)|]. left. eexists. rewrite Ha. split_and!; [exact Hin|done|done|apply (ag_pass _ _ _ A)|].
    intros _. cbn. by eapply forms_matched.
Qed.

Lemma sound_atomic arg : sound (fun st => Returns (atomic_arg arg st)) (fun env => atomic_access env arg a).
Proof.
  unfold atomic_arg, atomic_access. destruct (passed_tensor arg) as [name|]; [|by apply sound_fail]. split.
  - intros st st' [= <-] R. destruct (outside st name); [|done].
    destruct (push_access_grows name (mkAccess true true [] (PExpr_span arg) (rp_pass st)) st (rd_wf _ _ _ R)) as (W & G & _).
    split_and!; [by eapply ready_grows|done|done|done].
  - intros st st' rho env [= <-] R A _ _ (Hn & Ha & Hw & Hat). rewrite (proj2 (agrees_outside _ _ _ _ A (rd_wf _ _ _ R)) Hn).
    destruct (push_access_grows name (mkAccess true true [] (PExpr_span arg) (rp_pass st)) st (rd_wf _ _ _ R)) as (W & G & Hin).
    exists rho. split_and!; [done|apply (ag_out _ _ _ A)|]. left. eexists. rewrite Ha. split_and!; [exact Hin|done|done|apply (ag_pass _ _ _ A)|].
    by rewrite Hat.
Qed.

Lemma sound_identifier name span :
  sound (fun st => Returns (if outside st name then
                              match rp_whole st !! name with
                              | Some _ => st
                              | None => with_whole (<[name := span]> (rp_whole st)) st
                              end
                            else st))
    (fun env => env_lookup env name = None /\ a = mkAcc name [] false false).
Proof.
  split.
  - intros st st' [= <-] R. destruct (outside st name); [|done]. destruct (rp_whole st !! name) eqn:E; [done|].
    destruct R as [[W1 W2 W3] R2 R3 R4]. split_and!; [by constructor|constructor; try done|done|done].
    intros n Hn. cbn. apply lookup_insert_is_Some. destruct (decide (name = n)); [by left|by right].
  - intros st st' rho env [= <-] R A _ _ [Hn ->]. rewrite (proj2 (agrees_outside _ _ _ _ A (rd_wf _ _ _ R)) Hn).
    exists rho. split_and!; [done|apply (ag_out _ _ _ A)|]. right. split; [|done]. cbn.
    destruct (rp_whole st !! name) eqn:E; [by rewrite E|]. cbn. rewrite lookup_insert_eq. by eexists.
Qed.

Lemma sound_outside_write name why at_ :
  sound (fun st => Returns (if outside st name then fail (why name) at_ st else st)) (fun env => env_lookup env name = None).
Proof.
  pose proof (sound_fail (why name) at_ (fun _ => True)) as [W _]. split.
  - intros st st' [= <-] R. destruct (outside st name); [by apply W|done].
  - intros st st' rho env [= <-] R A E _ Hn. rewrite (proj2 (agrees_outside _ _ _ _ A (rd_wf _ _ _ R)) Hn) in E.
    by destruct (fail_grows (why name) at_ st) as (_ & _ & _ & H & _).
Qed.

(** *** Statements *)

Abbreviation touches := (touches outs contracts ends false a).
Abbreviation touches_indices := (touches_indices outs contracts ends false a).
Abbreviation touches_target := (touches_target outs contracts ends false a).
Abbreviation touches_stmt := (touches_stmt outs contracts ends false a).

(** A piece that may bind names in the innermost scope: [run] is what it binds. *)
Record binds (F : RaceProof -> outcome RaceProof) (T : Env -> Prop) (run : Env -> Env -> Prop) : Prop := {
  bi_walks : forall st st', F st = Returns st' -> ready st ->
    ready st' /\ grows st st' /\ tail (rp_scopes st') = tail (rp_scopes st) /\ rp_pass st' = rp_pass st;
  bi_finds : finds F T;
  bi_next : forall st st' rho env env', F st = Returns st' -> ready st -> agrees st rho env -> run env env' -> agrees st' rho env';
}.

Definition stmt_ok (s : PStmt) : Prop := binds (stmt s) (fun env => touches_stmt env s) (fun env env' => next env s env').

Lemma binds_list l : (forall s, s ∈ l -> stmt_ok s) ->
  binds (ofold stmt l) (fun env => seq_some touches_stmt next env l) (fun env env' => seq_run next env l env').
Proof.
  induction l as [|s l IH]; intros H.
  - split; [intros st st' [= <-] R; done|by intros st st' rho env|]. by intros st st' rho env env' [= <-] R A ->.
  - assert (stmt_ok s) as [W1 F1 N1] by (apply H; by left).
    destruct IH as [W2 F2 N2]; [intros x Hx; apply H; by right|]. split; cbn [ofold seq_some seq_run].
    + intros st st' (st1 & H1 & H2)%outcome_bind_Returns R. destruct (W1 _ _ H1 R) as (R1 & G1 & S1 & P1).
      destruct (W2 _ _ H2 R1) as (R2 & G2 & S2 & P2). split_and!; [done|by etrans|congruence|congruence].
    + intros st st' rho env (st1 & H1 & H2)%outcome_bind_Returns R A E Ho Ht. destruct (W1 _ _ H1 R) as (R1 & G1 & S1 & P1).
      destruct (W2 _ _ H2 R1) as (R2 & G2 & S2 & P2). destruct Ht as [Ht|(env' & Hn & Ht)].
      * eapply recorded_grows; [exact G2|]. eapply F1; [done|done|done|by apply (gr_error _ _ G2)|by eapply ends_ok_grows|done].
      * eapply F2; [done|done| |done|done|done]. by eapply N1.
    + intros st st' rho env env' (st1 & H1 & H2)%outcome_bind_Returns R A (env1 & Hn & Hr). destruct (W1 _ _ H1 R) as (R1 & G1 & S1 & P1).
      eapply N2; [done|done| |done]. by eapply N1.
Qed.

Lemma ready_scopes scopes st : ready st -> ready (with_scopes scopes st).
Proof. intros [[W1 W2 W3] R2 R3 R4]. by repeat constructor. Qed.

Lemma pop_scope_grows st : grows st (pop_scope st).
Proof. apply with_scopes_grows. Qed.

(** A block in a scope of its own, with what comes after it in the scope. *)
Lemma sound_scope F T run G U : binds F T run -> sound G U ->
  sound (fun st => st ←! F (push_scope st); st ←! G st; Returns (pop_scope st))
    (fun env => T (∅ :: env) \/ exists env', run (∅ :: env) env' /\ U env').
Proof.
  intros [W1 F1 N1] [W2 F2]. split.
  - intros st st' Hb R. bindo. injection H1 as <-. destruct (W1 _ _ H (ready_scopes _ _ R)) as (R1 & G1 & S1 & P1).
    destruct (W2 _ _ H0 R1) as (R2 & G2 & S2 & P2). split_and!; [by apply ready_scopes| |cbn; by rewrite S2, S1|cbn; by rewrite P2, P1].
    etrans; [apply with_scopes_grows|]. etrans; [exact G1|]. etrans; [exact G2|apply pop_scope_grows].
  - intros st st' rho env Hb R A E Ho Ht. bindo. injection H1 as <-. destruct (W1 _ _ H (ready_scopes _ _ R)) as (R1 & G1 & S1 & P1).
    destruct (W2 _ _ H0 R1) as (R2 & G2 & S2 & P2). apply (ends_ok_grows _ _ (pop_scope_grows _)) in Ho. cbn in E.
    eapply recorded_grows; [apply pop_scope_grows|]. pose proof (push_scope_agrees _ _ _ A) as A1. destruct Ht as [Ht|(env' & Hr & Ht)].
    + eapply recorded_grows; [exact G2|]. eapply F1; [done|by apply ready_scopes|done|by apply (gr_error _ _ G2)|by eapply ends_ok_grows|done].
    + eapply F2; [done|done| |done|done|done]. eapply N1; [done|by apply ready_scopes|done|done].
Qed.

Lemma sound_same F G T : (forall st, F st = G st) -> sound F T -> sound G T.
Proof. intros H [W1 F1]. split; [intros st st'|intros st st' rho env]; rewrite <-H; [apply W1|apply F1]. Qed.

Lemma sound_block l : (forall s, s ∈ l -> stmt_ok s) ->
  sound (fun st => st ←! ofold stmt l (push_scope st); Returns (pop_scope st)) (fun env => seq_some touches_stmt next (∅ :: env) l).
Proof.
  intros H. eapply sound_mono; [eapply sound_same; [|exact (sound_scope _ _ _ _ _ (binds_list l H) sound_ret)]|]; [|by left].
  intros st. cbn. by destruct (ofold stmt l (push_scope st)).
Qed.

Lemma enter_grows s st : let st' := enter_statement s st in
  grows st st' /\ rp_scopes st' = rp_scopes st /\ rp_pass st' = rp_pass st /\ (wf st -> wf st').
Proof. unfold enter_statement. case_decide; [done|]. split_and!; [by constructor|done|done|]. by intros []. Qed.

Lemma enter_ready s st : ready st -> ready (enter_statement s st).
Proof. intros R. destruct (enter_grows s st) as (G & _ & _ & W). eapply ready_grows; [done|done|apply W, R]. Qed.

Lemma enter_agrees s st rho env : agrees st rho env -> agrees (enter_statement s st) rho env.
Proof. intros A. destruct (enter_grows s st) as (G & S & P & _). by eapply agrees_grows. Qed.

Lemma stmt_ok_of_sound s F T : (forall st, stmt s st = F (enter_statement s st)) -> sound F T ->
  (forall env, touches_stmt env s -> T env) -> (forall env env', next env s env' -> env' = env) -> stmt_ok s.
Proof.
  intros HF [W Hf] HT Hn. split.
  - intros st st' H R. rewrite HF in H. destruct (W _ _ H (enter_ready _ _ R)) as (R1 & G1 & S1 & P1).
    destruct (enter_grows s st) as (G0 & S0 & P0 & _). split_and!; [done|by etrans|by rewrite S1, S0|by rewrite P1].
  - intros st st' rho env H R A E Ho Ht. rewrite HF in H. eapply Hf; [done|by apply enter_ready|by apply enter_agrees|done|done|by apply HT].
  - intros st st' rho env env' H R A ->%Hn. rewrite HF in H. destruct (W _ _ H (enter_ready _ _ R)) as (R1 & G1 & S1 & P1).
    eapply agrees_grows; [by apply enter_agrees|done|done|done].
Qed.

Lemma let_binding_cases is_mut e st b : let_binding is_mut e st = Returns b ->
  b = BTensor \/ b = BOther \/ (is_mut = false /\ exists f, affine st e = Returns (Some f) /\ b = BValue f (int_type st e)).
Proof.
  assert (forall b, (if is_mut then Returns BOther
      else x ←! affine st e; Returns (match x with Some x => BValue x (int_type st e) | None => BOther end)) = Returns b ->
    b = BTensor \/ b = BOther \/ (is_mut = false /\ exists f, affine st e = Returns (Some f) /\ b = BValue f (int_type st e))) as H.
  { intros b'. destruct is_mut; [intros [= <-]; by right; left|]. intros Hb. bindo. injection H0 as <-. right.
    destruct x as [f|]; [right; split; [done|by exists f]|by left]. }
  unfold let_binding. intros Hb. repeat case_match; try (by apply H); injection Hb as <-; by left.
Qed.

Lemma stmt_ok_let name is_mut e span : sound (expr e) (fun env => touches env e) -> stmt_ok (SLetDecl name is_mut e span).
Proof.
  intros [W Hf]. assert (forall st st' s, s = SLetDecl name is_mut e span -> stmt s st = Returns st' -> ready st -> exists st1 b sc ss,
      expr e (enter_statement s st) = Returns st1 /\ let_binding is_mut e st1 = Returns b /\ rp_scopes st1 = sc :: ss /\
      st' = with_scopes (<[name := b]> sc :: ss) st1 /\ ready st1 /\ grows st st1 /\ rp_scopes st1 = rp_scopes st /\ rp_pass st1 = rp_pass st) as Hs.
  { intros st st' s -> H R. cbn [stmt] in H. bindo. unfold bind in H1. destruct (rp_scopes x) as [|sc ss] eqn:E; [done|]. injection H1 as <-.
    exists x, x0, sc, ss. destruct (W _ _ H (enter_ready _ _ R)) as (R1 & G1 & S1 & P1).
    destruct (enter_grows (SLetDecl name is_mut e span) st) as (G0 & S0 & P0 & _). split_and!; [done|done|done|done|done|by etrans|congruence|congruence]. }
  split.
  - intros st st' H R. destruct (Hs _ _ _ eq_refl H R) as (st1 & b & sc & ss & _ & _ & E & -> & R1 & G1 & S1 & P1).
    split_and!; [by apply ready_scopes|etrans; [exact G1|apply with_scopes_grows]|cbn; by rewrite <-S1, E|done].
  - intros st st' rho env H R A Er Ho Ht. destruct (Hs _ _ _ eq_refl H R) as (st1 & b & sc & ss & He & _ & E & -> & R1 & G1 & S1 & P1).
    eapply recorded_grows; [apply with_scopes_grows|]. eapply Hf; [exact He|by apply enter_ready|by apply enter_agrees|done|done|exact Ht].
  - intros st st' rho env env' H R A (x & -> & Hx). destruct (Hs _ _ _ eq_refl H R) as (st1 & b & sc & ss & _ & Hb & E & -> & R1 & G1 & S1 & P1).
    pose proof (agrees_grows _ _ _ _ A G1 S1 P1) as A1. pose proof (agrees_sees _ _ _ (rd_wf _ _ _ R1) A1) as S.
    assert (binding_agrees st1 rho b x) as Hbx.
    { split.
      - intros v t k ->. destruct is_mut; [done|]. destruct Hx as [(v' & t' & k' & [= -> -> ->] & He)|[? _]]; [|done]. by eapply eval_typed.
      - apply let_binding_cases in Hb as [->|[->|(-> & f & Hf' & ->)]]; [done|done|].
        destruct Hx as [(v & ty & k & -> & He)|[-> Hu]]; [by eapply affine_sound|by eapply affine_unknown]. }
    destruct A1 as [A2 A3 A4]. constructor; [done| |done]. cbn. rewrite E in A3. inversion A3 as [|? m ? env0 Hm Hss]; subst. cbn.
    apply scopes_grows with (st := st1); [apply with_scopes_grows|]. constructor; [|done]. intros n. destruct (decide (name = n)) as [<-|Hne]; [by rewrite !lookup_insert_eq|]. rewrite !lookup_insert_ne by done. apply Hm.
Qed.

(** *** Loops and conditions *)

Lemma terms_value_ext rho rho' l : (forall k, k ∈ l.*1 -> rho' k = rho k) -> terms_value rho' l = terms_value rho l.
Proof.
  induction l as [|[k c] l IH]; intros H; cbn; [done|]. rewrite (H k) by (by left). rewrite IH; [done|]. intros k' Hk. apply H. by right.
Qed.

Lemma binding_agrees_ext st rho rho' b x : (forall k, is_Some (rp_ranges st !! k) \/ is_outside k = true -> rho' k = rho k) ->
  binding_agrees st rho b x -> binding_agrees st rho' b x.
Proof.
  intros He [H1 H2]. assert (forall ty k, key_ok st rho ty k -> key_ok st rho' ty k) as Hk.
  { intros ty k (K1 & K2 & K3). unfold key_ok. by rewrite (He k (or_introl K1)). }
  split; [done|]. destruct b, x; try done.
  - destruct H2 as (-> & -> & K & Ht). split_and!; [symmetry; apply He; left; apply K|done|auto|done].
  - destruct H2 as (-> & [F1 F2 F3] & Ht). split_and!; [|constructor; auto|done]. unfold form_value. f_equal. symmetry. apply terms_value_ext.
    intros k Hk'. apply He. destruct (is_outside k) eqn:E; [by right|left]. by apply (F2 k Hk').
Qed.

Lemma bind_index_agrees name it across st key st' rho env i ty :
  bind_index name it (int_range it) across (push_scope st) = Returns (key, st') -> wf st -> agrees st rho env -> ends_ok st' ->
  loop_index outs ends false env it across i ty -> key <> own ->
  agrees st' (<[key := i]> rho) ({[name := VInt i ty false]} :: env).
Proof.
  intros Hb W A Ho Hi Hown. destruct (bind_index_shape _ _ _ _ _ _ _ Hb) as (Hkey & s & ss & tr & op & Es & Est & _).
  rewrite <-Hkey in Est. destruct (bind_index_grows _ _ _ _ _ _ _ Hb) as (W' & G' & Hr); [by destruct W|]. cbn in Es. injection Es as <- <-.
  assert (grows st st') as G by (etrans; [apply with_scopes_grows|exact G']).
  assert (rp_ranges st !! key = None) as Hf by (rewrite Hkey; by apply (index_fresh st name)).
  assert (is_outside key = false) as Hko by (rewrite Hkey; apply is_outside_index).
  assert (forall k, is_Some (rp_ranges st !! k) \/ is_outside k = true -> (<[key := i]> rho) k = rho k) as Hext.
  { intros k Hk. rewrite fn_lookup_insert_ne; [done|]. intros <-. rewrite Hf, Hko in Hk. destruct Hk as [[? ?]|?]; done. }
  pose proof (agrees_sees _ _ _ W A) as S.
  assert (sees (push_scope st) rho env) as S'.
  { eapply sees_grows; [apply with_scopes_grows|by destruct W|done|exact S]. }
  pose proof (bind_index_valid _ _ _ _ _ _ _ _ _ _ Hb S' Ho Hi) as Hv. destruct A as [A1 A2 A3].
  constructor.
  - intros k Hk. rewrite Hext by (by right). by apply A1.
  - rewrite Est. cbn [rp_scopes with_scopes]. rewrite <-Est. constructor.
    + intros n. destruct (decide (name = n)) as [<-|Hne]; [|by rewrite lookup_insert_ne, lookup_singleton_ne, lookup_empty].
      rewrite lookup_insert_eq, lookup_singleton_eq. split; [intros v t k [= <- <- <-]; apply Hi|].
      rewrite fn_lookup_insert. split_and!; [done|done| |by eapply range_type_sound].
      split; [done|]. rewrite fn_lookup_insert. split; [done|]. intros _. apply Hi.
    + apply scopes_grows with (st := st); [done|]. eapply Forall2_impl; [exact A2|]. intros s m Hs n. specialize (Hs n).
      destruct (s !! n), (m !! n); try done. by eapply binding_agrees_ext.
  - intros c Hc. rewrite fn_lookup_insert_ne by done. apply A3. rewrite Est in Hc. exact Hc.
Qed.

Definition loop_touches (iter : Symbol) (it : PExpr) (across : option Span) (body : list PStmt) (env : Env) : Prop :=
  exists i ty, loop_index outs ends false env it across i ty /\ seq_some touches_stmt next ({[iter := VInt i ty false]} :: env) body.

Lemma sound_loop iter it across body : (forall s, s ∈ body -> stmt_ok s) ->
  sound (fun st => r ←! bind_index iter it (int_range it) across (push_scope st); st ←! ofold stmt body r.2; Returns (pop_scope st))
    (loop_touches iter it across body).
Proof.
  intros [W Hf _]%binds_list.
  assert (forall st r st1 st', bind_index iter it (int_range it) across (push_scope st) = Returns r -> ofold stmt body r.2 = Returns st1 ->
    st' = pop_scope st1 -> ready st ->
    ready r.2 /\ ready st1 /\ grows st r.2 /\ grows r.2 st1 /\ rp_scopes st' = rp_scopes st /\ rp_pass st1 = rp_pass st /\ r.1 <> own) as Hs.
  { intros st [key str] st1 st' Hb H -> R. cbn [fst snd] in *. pose proof (ready_scopes (∅ :: rp_scopes st) _ R) as R0.
    destruct (bind_index_grows _ _ _ _ _ _ _ Hb (rd_wf _ _ _ R0)) as (W' & G' & _).
    destruct (bind_index_shape _ _ _ _ _ _ _ Hb) as (Hkey & s & ss & tr & op & Es & Est & _).
    pose proof (ready_grows _ _ _ _ R0 G' W') as R'. destruct (W _ _ H R') as (R1 & G1 & S1 & P1).
    cbn in Es. injection Es as <- <-. split_and!; [done|done|etrans; [apply with_scopes_grows|exact G']|done| | |].
    - cbn. rewrite S1, Est. done.
    - rewrite P1, Est. done.
    - intros E. pose proof (index_fresh st iter (rd_wf _ _ _ R)) as Hfr. pose proof (rd_range _ _ _ R) as Hown.
      rewrite <-E, Hkey in Hown. cbn in Hown. rewrite Hfr in Hown. by destruct Hown. }
  split.
  - intros st st' Hb R. bindo. injection H1 as <-. destruct (Hs _ _ _ _ H H0 eq_refl R) as (R1 & R2 & G1 & G2 & S & P & _).
    split_and!; [by apply ready_scopes| |done|done]. etrans; [exact G1|]. etrans; [exact G2|apply pop_scope_grows].
  - intros st st' rho env Hb R A E Ho (i & ty & Hi & Ht). bindo. injection H1 as <-. destruct x as [key str].
    destruct (Hs _ _ _ _ H H0 eq_refl R) as (R1 & R2 & G1 & G2 & S & P & Hne). cbn [fst snd] in *.
    apply (ends_ok_grows _ _ (pop_scope_grows _)) in Ho. eapply recorded_grows; [apply pop_scope_grows|].
    pose proof (bind_index_agrees _ _ _ _ _ _ _ _ _ _ H (rd_wf _ _ _ R) A (ends_ok_grows _ _ G2 Ho) Hi Hne) as A'.
    pose proof (Hf _ _ _ _ H0 R1 A' E Ho Ht) as Hrec. by rewrite fn_lookup_insert_ne in Hrec.
Qed.

Definition then_pass (c : PExpr) (t : list PStmt) (st : RaceProof) : outcome RaceProof :=
  pass ←! match rp_pass st with
          | Some _ => p ←! one_pass st c; Returns (rp_pass st)
          | None => one_pass st c
          end;
  st' ←! ofold stmt t (push_scope (with_pass pass st));
  Returns (with_pass (rp_pass st) (pop_scope st')).

Lemma with_pass_grows pass st : grows st (with_pass pass st).
Proof. by constructor. Qed.
Lemma ready_pass pass st : ready st -> ready (with_pass pass st).
Proof. intros [[W1 W2 W3] R2 R3 R4]. by repeat constructor. Qed.

Lemma then_pass_agrees c st pass rho env : ready st -> agrees st rho env -> may_hold outs false env c ->
  match rp_pass st with Some _ => p ←! one_pass st c; Returns (rp_pass st) | None => one_pass st c end = Returns pass ->
  agrees (push_scope (with_pass pass st)) rho (∅ :: env).
Proof.
  intros R A Hc Hp. apply push_scope_agrees. pose proof (agrees_sees _ _ _ (rd_wf _ _ _ R) A) as S. destruct A as [A1 A2 A3].
  constructor; [done|by eapply scopes_grows; [apply with_pass_grows|]|]. cbn. intros k ->. destruct (rp_pass st) eqn:E.
  - bindo. injection H0 as ->. by apply A3.
  - rewrite <-(rd_own _ _ _ R). eapply one_pass_sound; [exact Hbase|exact S| |exact Hp|exact Hc].
    rewrite (rd_own _ _ _ R). apply (wf_not_outside st _ (rd_wf _ _ _ R)), (rd_range _ _ _ R).
Qed.

Lemma sound_then c t : (forall s, s ∈ t -> stmt_ok s) ->
  sound (then_pass c t) (fun env => may_hold outs false env c /\ seq_some touches_stmt next (∅ :: env) t).
Proof.
  intros [W Hf _]%binds_list. split.
  - intros st st' Hb R. unfold then_pass in Hb. bindo. injection H1 as <-.
    destruct (W _ _ H0 (ready_scopes _ _ (ready_pass _ _ R))) as (R1 & G1 & S1 & P1). split_and!; [by apply ready_pass, ready_scopes| |by cbn; rewrite S1|done].
    etrans; [apply with_pass_grows|]. etrans; [apply with_scopes_grows|]. etrans; [exact G1|]. etrans; [apply pop_scope_grows|apply with_pass_grows].
  - intros st st' rho env Hb R A E Ho [Hc Ht]. unfold then_pass in Hb. bindo. injection H1 as <-.
    eapply recorded_grows; [etrans; [apply pop_scope_grows|apply with_pass_grows]|].
    eapply Hf; [exact H0|by apply ready_scopes, ready_pass|by eapply then_pass_agrees|done| |done].
    eapply ends_ok_grows; [|exact Ho]. etrans; [apply pop_scope_grows|apply with_pass_grows].
Qed.

(** *** Expressions *)

Record walk_ok (e : PExpr) : Prop := {
  wo_expr : sound (expr e) (fun env => touches env e);
  wo_indices : sound (indices e) (fun env => touches_indices env e);
  wo_target : forall at_, sound (target e at_) (fun env => touches_target env e);
  wo_borrow : forall b m sp at_, e = EBorrow b m sp -> sound (target b at_) (fun env => touches_target env b);
}.

Lemma sound_ready_ext F G T : (forall st, ready st -> F st = G st) -> sound F T -> sound G T.
Proof. intros H [W1 F1]. split; [intros st st' E R|intros st st' rho env E R]; rewrite <-H in E by done; [by apply W1|by apply F1]. Qed.

Lemma sound_args l : (forall k, k ∈ l -> walk_ok k) -> sound (ofold expr l) (fun env => some_of (touches env) l).
Proof. intros H. apply (sound_ofold expr (fun x env => touches env x)). intros x Hx. by apply H. Qed.

Lemma sound_call name args span : (forall k, k ∈ args -> walk_ok k) ->
  sound (fun st => expr (EFunctionCall name args span) st) (fun env => touches env (EFunctionCall name args span)).
Proof.
  intros H. cbn [expr RaceSem.touches]. apply sound_guard.
  destruct (parallel_pure_call name || is_tensor_alloc_call name || String.prefix "lanes::" name).
  - cbn [negb]. assert (sound (fun st => ofold expr args st) (fun env => some_of (touches env) args)) as Hall by (by apply sound_args).
    destruct (writes_first_of name); [|exact Hall]. destruct args as [|[| | | | | | | | | | | | | | | |b m sp| | | | | | | | | | | | | | | | | | | | | |] rest]; try exact Hall.
    apply (sound_bind (target _ _) (ofold expr rest)); [|apply sound_args; intros k Hk; apply H; by right].
    eapply wo_borrow; [apply H; by left|done].
  - destruct (contracts !! name) as [params|] eqn:Ec.
    + eapply sound_ready_ext; [intros st R; rewrite (rd_contracts _ _ _ R), Ec; reflexivity|].
      apply (sound_ofoldi (fun i x st => if decide (i ∈ params) then Returns (atomic_arg x st) else expr x st)
               (fun i x env => if decide (i ∈ params) then atomic_access env x a else touches env x)).
      intros i x Hx. destruct (decide (i ∈ params)); [apply sound_atomic|by apply H].
    + eapply sound_ready_ext; [intros st R; rewrite (rd_contracts _ _ _ R), Ec; reflexivity|]. apply sound_fail.
Qed.

Lemma sound_inline inputs clobbers ensures span : (forall k, k ∈ inputs -> walk_ok k) ->
  sound (fun st => expr (EInlineMlir inputs clobbers ensures span) st) (fun env => touches env (EInlineMlir inputs clobbers ensures span)).
Proof.
  intros H. cbn [expr RaceSem.touches]. apply sound_guard. destruct ensures as [|e ensures]; [apply sound_fail|].
  apply (sound_ofold (fun input st => match passed_tensor input with
                     | Some n => if decide (n ∈ atomic_inputs (e :: ensures)) then Returns (atomic_arg input st) else expr input st
                     | None => expr input st end)
           (fun x env => match passed_tensor x with
                     | Some n => if decide (n ∈ atomic_inputs (e :: ensures)) then atomic_access env x a else touches env x
                     | None => touches env x end)).
  intros x Hx. destruct (passed_tensor x); [|by apply H]. destruct (decide _); [apply sound_atomic|by apply H].
Qed.

Lemma sound_if c t f span : walk_ok c -> (forall s, s ∈ t ++ default [] f -> stmt_ok s) ->
  sound (fun st => expr (EIf c t f span) st) (fun env => touches env (EIf c t f span)).
Proof.
  intros Hc Hs. cbn [expr RaceSem.touches]. apply sound_guard.
  eapply sound_same with (F := fun st => st ←! expr c st; st ←! then_pass c t st;
    match f with Some b => st ←! ofold stmt b (push_scope st); Returns (pop_scope st) | None => Returns st end).
  { intros st. destruct (expr c st) as [st1|]; [|done]. cbn [outcome_bind]. unfold then_pass.
    destruct (match rp_pass st1 with Some _ => _ | None => _ end) as [p|]; [|done]. cbn [outcome_bind].
    by destruct (ofold stmt t (push_scope (with_pass p st1))). }
  apply (sound_bind (expr c)); [apply Hc|]. apply (sound_bind (then_pass c t)).
  - apply sound_then. intros s Hin. apply Hs, elem_of_app. by left.
  - destruct f as [f|]; [|apply sound_ret]. apply sound_block. intros s Hin. apply Hs, elem_of_app. by right.
Qed.

Lemma sound_match m arms span : walk_ok m -> plain (EMatch m arms span) = true -> (forall s, s ∈ flat_map snd arms -> stmt_ok s) ->
  sound (fun st => expr (EMatch m arms span) st) (fun env => touches env (EMatch m arms span)).
Proof.
  intros Hm Hp Hs. cbn [expr RaceSem.touches]. apply sound_guard. apply (sound_bind (expr m)); [apply Hm|].
  apply (sound_ofold (fun (arm : Pattern * list PStmt) st => st ←! ofold stmt arm.2 (push_scope st); Returns (pop_scope st))
    (fun arm env => exists names : gmap Symbol Val, (forall n, is_Some (names !! n) <-> n ∈ pattern_names arm.1) /\
                      seq_some touches_stmt next (names :: env) arm.2)).
  intros arm Harm. eapply sound_mono; [apply sound_block|].
  - intros s Hin. apply Hs, flat_map_elem. by exists arm.
  - intros env (names & Hn & Ht). cbn in Hp. rewrite forallb_forall in Hp. specialize (Hp arm (proj1 (list_elem_of_In _ _) Harm)).
    destruct (pattern_names arm.1); [|done]. assert (names = ∅) as ->; [|done]. apply map_empty. intros n. apply eq_None_not_Some.
    rewrite Hn. apply not_elem_of_nil.
Qed.

Lemma sound_two x y F : sound F (fun env => touches env x) -> walk_ok y -> second x y = false ->
  sound (fun st => st ←! F st; if second x y then Returns st else expr y st) (fun env => touches env x \/ touches env y).
Proof. intros HF Hy E. rewrite E. apply (sound_bind F (expr y)); [done|apply Hy]. Qed.

Lemma sound_direct l : (forall k, k ∈ l -> walk_ok k) -> nothing_skipped skips [] l = true ->
  sound (odirect expr skips [] l) (fun env => some_of (touches env) l).
Proof.
  intros H Hp. eapply sound_same; [intros st; symmetry; by apply odirect_ofold|]. by apply sound_args.
Qed.

Lemma sound_element b i at_ write name : walk_ok b -> walk_ok i ->
  sound (fun st => st ←! indices b st; st ←! expr i st; record_element name (indices_of b ++ [i]) write at_ st)
    (fun env => touches_indices env b \/ touches env i \/ element_access outs false env name (indices_of b ++ [i]) write a).
Proof.
  intros Hb Hi. apply (sound_bind (indices b)); [apply Hb|]. apply (sound_bind (expr i)); [apply Hi|]. apply sound_record.
Qed.

Lemma expr_sound e : plain e = true -> (forall k, k ∈ visited_exprs e -> walk_ok k) -> (forall s, s ∈ kid_stmts e -> stmt_ok s) ->
  sound (fun st => expr e st) (fun env => touches env e).
Proof.
  intros Hp He Hs.
  assert (forall F T, sound F T -> sound (fun st => match rp_error st with Some _ => Returns st | None => F st end) T) as Hg
    by (intros; by apply sound_guard).
  destruct e; cbn [visited_exprs kid_exprs kid_stmts plain] in *;
    try (apply sound_call; exact He);
    try (apply sound_if; [apply He; by left|exact Hs]);
    try (apply sound_match; [apply He; by left|exact Hp|exact Hs]);
    try (apply sound_inline; intros k Hk; apply He, elem_of_app; by left);
    cbn [expr RaceSem.touches]; apply Hg;
    try apply sound_ret; try apply sound_fail; try (apply He; by left);
    try (apply negb_true_iff in Hp; apply sound_two; [apply He; by left|apply He; right; by left|done]);
    try (by apply sound_direct).
  - apply sound_identifier.
  - destruct payload as [es|]; [by apply sound_direct|apply sound_ret].
  - destruct (root e1) as [name|]; [apply sound_element; [apply He; by left|apply He; right; by left]|].
    apply negb_true_iff in Hp. apply sound_two; [apply He; by left|apply He; right; by left|done].
  - destruct is_mut; [apply sound_fail|apply He; by left].
  - destruct ret as [r|].
    + eapply sound_mono; [apply (sound_scope _ _ _ (expr r) (fun env => touches env r) (binds_list _ Hs)); apply He; by left|].
      intros env H. exact H.
    + eapply sound_mono; [apply (sound_scope _ _ _ Returns (fun _ => False) (binds_list _ Hs) sound_ret)|].
      intros env [H|H]; [by left|done].
  - eapply sound_same; [intros st; symmetry; by apply odirect_ofold|].
    apply (sound_ofold (fun f : Symbol * PExpr => expr f.2) (fun f env => touches env f.2)). intros f Hf. apply He. by apply list_elem_of_fmap_2.
Qed.

Lemma target_sound e at_ : (forall k, k ∈ visited_exprs e -> walk_ok k) -> sound (fun st => target e at_ st) (fun env => touches_target env e).
Proof.
  intros He. destruct e; cbn [target RaceSem.touches_target visited_exprs kid_exprs] in *; try apply sound_fail.
  - apply (sound_outside_write name WritesOutside).
  - apply He. by left.
  - destruct (root e1) as [name|]; [|apply sound_fail]. apply sound_element; [apply He; by left|apply He; right; by left].
Qed.

Lemma indices_sound e : (forall k, k ∈ visited_exprs e -> walk_ok k) -> sound (fun st => indices e st) (fun env => touches_indices env e).
Proof.
  intros He. destruct e; cbn [indices RaceSem.touches_indices visited_exprs kid_exprs] in *; try apply sound_ret.
  apply (sound_bind (indices e1) (expr e2)); [apply He; by left|apply He; right; by left].
Qed.

Lemma stmt_sound s : (forall e, e ∈ stmt_exprs s -> walk_ok e) -> (forall k, k ∈ stmt_stmts s -> stmt_ok k) -> stmt_ok s.
Proof.
  intros He Hs. destruct s as [n m e sp|o sp|e sp|iter iterable invs body across sp|lhs rhs sp|lhs rhs sp|e sp|invs body sp|sp|sp|sp|n sp|sp]; cbn [stmt_exprs stmt_stmts] in *;
    try (eapply (stmt_ok_of_sound _ Returns); [done|apply sound_ret|done|done]).
  - apply stmt_ok_let, He. by left.
  - destruct o as [e|]; cbn [opt_list] in He.
    + eapply (stmt_ok_of_sound _ (expr e)); [done|apply He; by left|done|done].
    + eapply (stmt_ok_of_sound _ Returns); [done|apply sound_ret|done|done].
  - eapply (stmt_ok_of_sound _ (expr e)); [done|apply He; by left|done|done].
  - apply (stmt_ok_of_sound _ (fun st => st ←! expr iterable st;
        r ←! bind_index iter iterable (int_range iterable) across (push_scope st); st ←! ofold stmt body r.2; Returns (pop_scope st))
      (fun env => touches env iterable \/ loop_touches iter iterable across body env)); [done| |done|done].
    apply (sound_bind (expr iterable)); [apply He; by left|by apply sound_loop].
  - apply (stmt_ok_of_sound _ (fun st => st ←! target lhs sp st; expr rhs st) (fun env => touches_target env lhs \/ touches env rhs)); [done| |done|done].
    apply (sound_bind (target lhs sp)); [apply He; by left|apply He; right; by left].
  - apply (stmt_ok_of_sound _ (fun st => st ←! target lhs sp st; st ←! expr lhs st; expr rhs st)
      (fun env => touches_target env lhs \/ touches env lhs \/ touches env rhs)); [done| |done|done].
    apply (sound_bind (target lhs sp)); [apply He; by left|].
    apply (sound_bind (expr lhs)); [apply He; by left|apply He; right; by left].
  - eapply (stmt_ok_of_sound _ (expr e)); [done|apply He; by left|done|done].
  - apply (stmt_ok_of_sound _ (fun st => st ←! ofold stmt body (push_scope st); Returns (pop_scope st))
      (fun env => seq_some touches_stmt next (∅ :: env) body)); [done|by apply sound_block|done|done].
Qed.

(** The walk records what the pass touches. *)
Lemma walk_sound : (forall e, (forall x, x ∈ visit_expr e -> plain x = true) -> walk_ok e) /\
  (forall s, (forall x, x ∈ visit_stmt s -> plain x = true) -> stmt_ok s).
Proof.
  apply program_ind.
  - intros e IHe IHs Hp.
    assert (forall k, k ∈ visited_exprs e -> walk_ok k) as He.
    { intros k Hk. apply IHe; [|intros x Hx; by apply Hp, (visit_kid e k)].
      destruct e; try exact Hk. cbn in Hk |- *. rewrite elem_of_app in Hk. rewrite !elem_of_app. tauto. }
    assert (forall s, s ∈ kid_stmts e -> stmt_ok s) as Hs by (intros s Hk; apply IHs; [done|]; intros x Hx; by apply Hp, (visit_kid_stmt e s)).
    split; [apply expr_sound; [apply Hp; destruct e; by left|done|done]|by apply indices_sound|intros; by apply target_sound|].
    intros b m sp at_ ->. apply He. by left.
  - intros s IHe IHs Hp. apply stmt_sound.
    + intros e Hk. apply IHe; [done|]. intros x Hx. by apply Hp, (visit_stmt_kid s e).
    + intros k Hk. apply IHs; [done|]. intros x Hx. by apply Hp, (visit_stmt_stmt s k).
Qed.
End accesses.
End walk.
