(* ===== verification/RaceFree.v ===== *)
(** * Loops that pass the race check have no races

    The check of the recorded accesses, the search for the most passes of a
    loop whose end is not a number, and the theorem on [across_loop_race]. *)

From stdpp Require Import base functions list strings gmap sorting.
From Stdlib Require Import ZArith Lia.
From S2P Require Import Prelude Gid Syntax Types Program Race RaceSem RaceForm RaceLimits RaceSound RaceWalk.
Open Scope Z_scope.
Open Scope vx_scope.

(** ** What the check shows *)

(** The write [w] and [x] are apart in any two passes. *)
Definition kept_apart (st : RaceProof) (w x : Access) : Prop :=
  (is_Some (ac_pass w) /\ ac_pass w = ac_pass x) \/ some_apart st (ac_indices w) (ac_indices x) = Returns true.

Lemma check_against_None st name own i w j others : check_against st name own i w j others = Returns None ->
  forall x, x ∈ others -> kept_apart st w x.
Proof.
  revert j. induction others as [|o others IH]; intros j; cbn; [intros _ x Hx; by apply elem_of_nil in Hx|].
  destruct (bool_decide (is_Some (ac_pass w)) && bool_decide (ac_pass w = ac_pass o)) eqn:E.
  - apply andb_true_iff in E as [E1%bool_decide_eq_true E2%bool_decide_eq_true].
    intros H x [->|Hx]%elem_of_cons; [by left|by eapply IH].
  - intros (b & Hb & H)%outcome_bind_Returns. destruct b; [|done]. intros x [->|Hx]%elem_of_cons; [by right|by eapply IH].
Qed.

Lemma check_writes_None st name own all i ws : check_writes st name own all i ws = Returns None ->
  forall w, w ∈ ws -> ac_write w = true -> forall x, x ∈ all -> kept_apart st w x.
Proof.
  revert i. induction ws as [|v ws IH]; intros i; cbn; [intros _ x Hx; by apply elem_of_nil in Hx|].
  destruct (ac_write v) eqn:E.
  - intros (r & Hr & H)%outcome_bind_Returns. destruct r; [done|]. intros w [->|Hw]%elem_of_cons Hwr; [by eapply check_against_None|by eapply IH].
  - intros H w [->|Hw]%elem_of_cons Hwr; [congruence|by eapply IH].
Qed.

(** The accesses to one tensor: all atomic, or no atomic one and the writes apart. *)
Record tensor_ok (st : RaceProof) (name : Symbol) (l : list Access) : Prop := {
  to_atomic : (exists x, x ∈ l /\ ac_atomic x = true) -> (forall x, x ∈ l -> ac_atomic x = true) /\ rp_whole st !! name = None;
  to_whole : is_Some (rp_whole st !! name) -> forall x, x ∈ l -> ac_write x = false;
  to_apart : forall w x, w ∈ l -> x ∈ l -> ac_atomic w = false -> ac_write w = true -> kept_apart st w x;
}.

Lemma check_tensor_None st own name l : check_tensor st own name l = Returns None -> tensor_ok st name l.
Proof.
  unfold check_tensor. destruct (existsb ac_atomic l) eqn:Ea.
  - intros [= H]. destruct (List.find (fun x => negb (ac_atomic x)) l) eqn:Ef; [done|]. destruct (rp_whole st !! name) eqn:Ew; [done|].
    assert (forall x, x ∈ l -> ac_atomic x = true) as Hall.
    { intros x Hx%list_elem_of_In. by apply (List.find_none _ _ Ef), negb_false_iff in Hx. }
    constructor; [done|rewrite Ew; by intros [? ?]|]. intros w x Hw _ Hat. rewrite Hall in Hat; done.
  - intros H. assert (forall x, x ∈ l -> ac_atomic x = false) as Hno.
    { intros x Hx%list_elem_of_In. apply not_true_iff_false. intros Hat. apply not_true_iff_false in Ea. apply Ea, existsb_exists. eauto. }
    assert (check_writes st name own l 0 l = Returns None /\ (is_Some (rp_whole st !! name) -> existsb ac_write l = false)) as [Hc Hw].
    { destruct (rp_whole st !! name); [destruct (existsb ac_write l); done|]. split; [done|by intros [? ?]]. }
    constructor.
    + intros (x & Hx & Hat). by rewrite (Hno x Hx) in Hat.
    + intros Hs x Hx%list_elem_of_In. apply Hw, not_true_iff_false in Hs. apply not_true_iff_false. intros Hwr. apply Hs, existsb_exists. eauto.
    + intros w x Hwi Hx _ Hwr. by eapply check_writes_None.
Qed.

Lemma check_tensors_None st own l : check_tensors st own l = Returns None -> forall name xs, (name, xs) ∈ l -> tensor_ok st name xs.
Proof.
  induction l as [|[n ys] l IH]; cbn; [intros _ name xs Hx; by apply elem_of_nil in Hx|].
  intros (r & Hr & H)%outcome_bind_Returns. destruct r; [done|]. intros name xs [[= -> ->]|Hx]%elem_of_cons; [by eapply check_tensor_None|by apply IH].
Qed.

Lemma race_check_None st own name x : race_check own st = Returns None -> access_in st name x ->
  exists l, assoc name (rp_accesses st) = Some l /\ x ∈ l /\ tensor_ok st name l.
Proof.
  intros Hc (l & Hl & Hx). exists l. split_and!; [done|done|]. eapply check_tensors_None; [exact Hc|by apply assoc_elem].
Qed.

Section meet.
Context (base : Valuation) (own : string).

Lemma matched_index st rho o v : matched st rho o v -> index_matches st o rho v.
Proof. destruct o as [f|]; [|done]. intros (-> & Hs & Hk). split_and!; [done|done|]. intros k Hin Ho. by apply Hk. Qed.

(** Two accesses that are kept apart do not meet in different passes. *)
Lemma kept_apart_sound st rho rho' p q x y a b : rp_own st = own -> is_outside own = false ->
  outside_agrees base rho -> outside_agrees base rho' -> rho own = p -> rho' own = q -> p <> q ->
  (forall c, ac_pass x = Some c -> p = c) -> (forall c, ac_pass y = Some c -> q = c) ->
  Forall2 (matched st rho) (ac_indices x) (sa_idx a) -> Forall2 (matched st rho') (ac_indices y) (sa_idx b) ->
  kept_apart st x y -> ~ overlap a b.
Proof.
  intros Ho Hno B1 B2 Hp Hq Hne P1 P2 M1 M2 [[[c Hc] Heq]|Hap] [_ Hov].
  - apply Hne. rewrite (P1 c Hc). symmetry. apply P2. congruence.
  - destruct (some_apart_sound st rho rho' (fun k Hk => eq_trans (B1 k Hk) (eq_sym (B2 k Hk))) ltac:(by rewrite Ho) _ _ (sa_idx a) (sa_idx b) Hap) as (i & v & w & H1 & H2 & H3).
    + eapply Forall2_impl; [exact M1|]. intros o v. apply matched_index.
    + eapply Forall2_impl; [exact M2|]. intros o v. apply matched_index.
    + rewrite Ho. congruence.
    + apply H3. by eapply Hov.
Qed.

(** A recorded write and another recorded access. *)
Lemma recorded_apart st nm p q a b : rp_own st = own -> is_outside own = false -> race_check nm st = Returns None ->
  recorded base own st p a -> recorded base own st q b -> p <> q -> sa_write a = true ->
  ~ (sa_atomic a = true /\ sa_atomic b = true) -> ~ overlap a b.
Proof.
  intros Ho Hno Hc (rho & R1 & R2 & Ra) (rho' & R3 & R4 & Rb) Hne Hw Hat Hov. pose proof (proj1 Hov) as Hname.
  destruct Ra as [(x & Xin & Xw & Xat & Xp & Xi)|(_ & Xw & _)]; [|congruence].
  destruct (race_check_None _ _ _ _ Hc Xin) as (l & Hl & Hx & [T1 T2 T3]).
  destruct Rb as [(y & (l' & Hl' & Hy) & Yw & Yat & Yp & Yi)|(Hwh & _ & _)].
  - rewrite <-Hname, Hl in Hl'. injection Hl' as <-. destruct (sa_atomic a) eqn:Ea.
    + destruct T1 as [T1 _]; [by exists x|]. rewrite (T1 y Hy) in Yat. by apply Hat.
    + destruct (sa_atomic b) eqn:Eb.
      * destruct T1 as [T1 _]; [by exists y|]. rewrite (T1 x Hx) in Xat. done.
      * eapply (kept_apart_sound st rho rho' p q x y a b); eauto using eq_trans.
  - rewrite <-Hname in Hwh. rewrite (T2 Hwh x Hx) in Xw. congruence.
Qed.
End meet.

(** ** One run of the walk and the check *)

Lemma wf_start contracts limits at_ : wf (race_start contracts limits at_).
Proof. split; cbn; [intros k [? H]; by rewrite lookup_empty in H..|constructor]. Qed.

Section run.
Context (outs : Symbol -> option (Z * ElementType)) (contracts : gmap Symbol (list nat)) (ends : list LargestEnd).

(** The values from outside by key. *)
Definition outs_base : Valuation := fun k =>
  match outs (String.substring 0 (String.length k - 8) k) with Some (v, _) => v | None => 0 end.

Lemma substring_self n s : String.substring 0 (String.length n) (n +:+ s) = n.
Proof. induction n as [|c n IH]; [by destruct s|]. exact (f_equal (String c) IH). Qed.

Lemma outs_base_spec n v ty : outs n = Some (v, ty) -> outs_base (outside_key n) = v.
Proof.
  intros H. unfold outs_base, outside_key. rewrite append_length. change (String.length "#outside") with 8%nat.
  by rewrite Nat.add_sub, substring_self, H.
Qed.

Lemma with_own_wf key st : wf st -> wf (with_own key st).
Proof. by intros []. Qed.

(** The state in which the body is walked. *)
Lemma start_ready iter it across at_ limits key st :
  bind_index iter it (int_range it) across (race_start contracts limits at_) = Returns (key, st) ->
  ready contracts key (with_own key st) /\ is_outside key = false /\ rp_pass st = None /\ rp_limits st = limits /\
  rp_scopes st = [{[iter := BIndex key (range_type it)]}].
Proof.
  intros Hb. destruct (bind_index_grows _ _ _ _ _ _ _ Hb (wf_start _ _ _)) as (W & G & Hr).
  destruct (bind_index_shape _ _ _ _ _ _ _ Hb) as (Hkey & s & ss & tr & op & Es & Est & _). cbn in Es. injection Es as <- <-.
  split_and!.
  - split; [by apply with_own_wf|apply (gr_contracts _ _ G)|done|done].
  - rewrite Hkey. apply is_outside_index.
  - by rewrite Est.
  - apply (gr_limits _ _ G).
  - rewrite Est, Hkey. done.
Qed.

Lemma start_agrees iter it across at_ limits key st p ty (rho := <[key := p]> outs_base) :
  bind_index iter it (int_range it) across (race_start contracts limits at_) = Returns (key, st) ->
  loop_index outs ends false [∅] it across p ty -> ends_ok ends st ->
  agrees outs_base key (with_own key st) rho [{[iter := VInt p ty false]}].
Proof.
  intros Hb Hi Ho. destruct (start_ready _ _ _ _ _ _ _ Hb) as (R & Hno & Hp & _ & Hs).
  assert (sees outs_base (race_start contracts limits at_) outs_base [∅]) as S.
  { split; [apply wf_start|done|]. intros n. cbn. unfold lookup_name. cbn. by rewrite !lookup_empty. }
  pose proof (bind_index_valid outs ends outs_base _ _ _ _ _ _ _ _ _ _ Hb S Ho Hi) as Hv.
  assert (rho key = p) as Hk by apply fn_lookup_insert. split.
  - intros k Hk'. unfold rho. rewrite fn_lookup_insert_ne; [done|]. intros <-. congruence.
  - cbn. rewrite Hs. constructor; [|constructor]. intros n. destruct (decide (iter = n)) as [<-|Hne]; [|by rewrite !lookup_singleton_ne].
    rewrite !lookup_singleton_eq. split; [intros v t k [= <- <- <-]; apply Hi|]. split_and!; [done|done| |by eapply range_type_sound].
    split; [apply (rd_range _ _ _ R)|]. rewrite Hk. split; [exact Hv|]. intros _. apply Hi.
  - cbn. by rewrite Hp.
Qed.

Lemma prove_sound iter it invs body across span limits st :
  prove iter it body across span contracts limits = Returns (None, st) ->
  (forall x, x ∈ visit_exprs body -> plain x = true) -> (rp_limits st = limits -> ends_ok ends st) ->
  race_free outs contracts ends false (SForLoop iter it invs body across span).
Proof.
  unfold prove. intros Hp Hplain Hends. bindo. destruct x as [key st0]. cbn [fst snd] in *.
  destruct (rp_error x0) eqn:Ee; [done|]. bindo. injection H2 as -> <-.
  destruct (start_ready _ _ _ _ _ _ _ H) as (R & Hno & _ & Hlim & _).
  assert (forall a, binds contracts ends outs_base key a (ofold stmt body)
            (fun env => seq_some (touches_stmt outs contracts ends false a) (next outs false) env body)
            (fun env env' => seq_run (next outs false) env body env')) as Hb.
  { intros a. apply binds_list. intros s Hs. apply walk_sound; [apply outs_base_spec|]. intros e He. apply Hplain. unfold visit_exprs. apply flat_map_elem. eauto. }
  destruct (bi_walks _ _ _ _ _ _ _ _ (Hb (mkAcc "" [] false false)) _ _ H0 R) as (R' & G & _).
  assert (ends_ok ends x0) as Ho by (apply Hends; rewrite (gr_limits _ _ G); exact Hlim).
  assert (forall p a, pass_touches outs contracts ends false (SForLoop iter it invs body across span) p a -> recorded outs_base key x0 p a) as Hrec.
  { intros p a (ty & Hi & Ht). pose proof (start_agrees _ _ _ _ _ _ _ _ _ H Hi (ends_ok_grows ends _ _ G Ho)) as A.
    pose proof (bi_finds _ _ _ _ _ _ _ _ (Hb a) _ _ _ _ H0 R A Ee Ho Ht) as Hr. by rewrite fn_lookup_insert in Hr. }
  pose proof (rd_own _ _ _ R') as Hown. intros p q a b Hne Ha%Hrec Hb'%Hrec [Hw|Hw] Hat.
  - by eapply (recorded_apart outs_base key x0 iter p q a b).
  - intros [Hov1 Hov2]. eapply (recorded_apart outs_base key x0 iter q p b a); eauto; [tauto|]. split; [done|]. intros i v w E1 E2. symmetry. by eapply Hov2.
Qed.
End run.

(** ** The search for the most passes *)

Lemma search_passes_exact holds fuel ok bad most r : ok < bad <= ok + 2 ^ Z.of_nat fuel -> bad <= most -> holds ok = Returns true ->
  bad = most \/ holds bad = Returns false -> search_passes holds fuel ok bad = Returns r ->
  ok <= r < most /\ holds r = Returns true /\ (r + 1 = most \/ holds (r + 1) = Returns false).
Proof.
  revert ok bad. induction fuel as [|fuel IH]; intros ok bad Hb Hm Hok Hbad; cbn [search_passes].
  - intros [= <-]. change (2 ^ Z.of_nat 0) with 1 in Hb. assert (bad = ok + 1) as -> by lia. split_and!; [lia|lia|done|done].
  - rewrite Nat2Z.inj_succ, Z.pow_succ_r in Hb by lia. destruct (Z.ltb_spec 1 (bad - ok)) as [Hgap|Hgap].
    + rewrite Z.quot_div_nonneg by lia. pose proof (Z.div_mod (bad - ok) 2 ltac:(lia)) as Hd. pose proof (Z.mod_pos_bound (bad - ok) 2 ltac:(lia)) as Hr2.
      intros (h & Hh & H)%outcome_bind_Returns. destruct h.
      * apply IH in H; [|lia|lia|done|done]. destruct H as (H1 & H2 & H3). split_and!; [lia|lia|done|done].
      * apply IH in H; [|lia|lia|done|by right]. destruct H as (H1 & H2 & H3). split_and!; [lia|lia|done|done].
    + intros [= <-]. assert (bad = ok + 1) as -> by lia. split_and!; [lia|lia|done|done].
Qed.

(** ** The theorem *)

Definition body_exprs (f : PStmt) : list PExpr := match f with SForLoop _ _ _ body _ _ => visit_exprs body | _ => [] end.

(** The check of the loop with at most [k] passes of each open loop. *)
Definition check_limited (f : PStmt) (contracts : gmap Symbol (list nat)) (open : list (string * Span * Z * ElementType)) (k : Z)
    : outcome bool :=
  match f with
  | SForLoop iter it _ body across span =>
      r ←! prove iter it body across span contracts (list_to_map ((fun o : string * Span * Z * ElementType => (o.1.1.1, k)) <$> open));
      Returns (match r.1 with None => true | Some _ => false end)
  | _ => Panics
  end.

Lemma list_to_map_const {A} (l : list A) (key : A -> string) (k : Z) x z : (list_to_map ((fun o => (key o, k)) <$> l) : gmap string Z) !! x = Some z -> z = k.
Proof. intros H%elem_of_list_to_map_2. apply list_elem_of_fmap in H as (o & [= _ ->] & _). done. Qed.

Lemma check_limited_sound iter it invs body across span outs contracts r k :
  prove iter it body across span contracts ∅ = Returns r ->
  check_limited (SForLoop iter it invs body across span) contracts (rp_open r.2) k = Returns true ->
  (forall x, x ∈ visit_exprs body -> plain x = true) ->
  race_free outs contracts ((fun o : string * Span * Z * ElementType => (o.1.1.2, o.1.2 + k, o.2)) <$> rp_open r.2) false
    (SForLoop iter it invs body across span).
Proof.
  intros Hr Hk Hp. cbn [check_limited] in Hk. bindo. destruct x as [[e|] st]; [done|].
  eapply prove_sound; [exact H|done|]. pose proof (prove_open _ _ _ _ _ _ _ _ _ _ Hr H) as Ho. cbn in Ho. intros Hl key at_ start ty z Hin Hz.
  rewrite Hl in Hz. apply list_to_map_const in Hz as ->. rewrite <-Ho in Hin.
  apply (list_elem_of_fmap_2 (fun o : string * Span * Z * ElementType => (o.1.1.2, o.1.2 + k, o.2))) in Hin. exact Hin.
Qed.

Definition ends_of (open : list (string * Span * Z * ElementType)) (k : Z) : list LargestEnd :=
  (fun o : string * Span * Z * ElementType => (o.1.1.2, o.1.2 + k, o.2)) <$> open.

(** When a loop is accepted: it has one pass at most, or its passes are apart, or at most [k] of them are, and no more
    than [k] can be shown to be. *)
Lemma across_accepted iter it invs body across span contracts ends (f := SForLoop iter it invs body across span) :
  across_loop_race f contracts = Returns (Ok ends) ->
  (exists lo hi, int_range it = Some (lo, hi) /\ hi - lo <= 1 /\ ends = []) \/
  (exists st, prove iter it body across span contracts ∅ = Returns (None, st) /\ ends = []) \/
  (exists error st k, prove iter it body across span contracts ∅ = Returns (Some error, st) /\ rp_open st <> [] /\ 1 <= k < 2 ^ 64 /\
     check_limited f contracts (rp_open st) k = Returns true /\
     (k + 1 = 2 ^ 64 \/ check_limited f contracts (rp_open st) (k + 1) = Returns false) /\ ends = ends_of (rp_open st) k).
Proof.
  cbn [across_loop_race]. intros (one & H1 & Ha)%outcome_bind_Returns. destruct one.
  { left. injection Ha as <-. destruct (int_range it) as [[lo hi]|]; [|done]. bindo. apply i64_op_Returns in H as [<- _].
    injection H0 as H0%Z.leb_le. by exists lo, hi. }
  right. apply outcome_bind_Returns in Ha as ([[error|] st] & H2 & Ha); cbn [fst snd] in Ha; [right|left; injection Ha as <-; by exists st].
  destruct (rp_open st) as [|o open] eqn:Eo; [done|]. rewrite <-Eo in *. apply outcome_bind_Returns in Ha as (h & Hh & Ha). destruct h; [|done].
  apply outcome_bind_Returns in Ha as (k & Hk & [= <-]). exists error, st, k.
  fold (check_limited f contracts (rp_open st)) in Hk. fold (check_limited f contracts (rp_open st) 1) in Hh.
  destruct (search_passes_exact _ 64 1 (2 ^ 64) (2 ^ 64) _ ltac:(lia) ltac:(lia) Hh ltac:(by left) Hk) as (K1 & K2 & K3).
  split_and!; [done|congruence|lia|lia|done|done|done].
Qed.



(** ** Examples *)

Definition at_line (n : nat) : Span := mkSpan n n 1 0.
Definition use (x : Symbol) : PExpr := EIdentifier x (at_line 1).
Definition num (v : Symbol) (t : ElementType) : PExpr := ENumber v (Some t) (at_line 2).
Definition bin (a : PExpr) (op : BinaryOp) (b : PExpr) (t : ElementType) : PExpr := EBinaryOp a op b (at_line 3) (Some t).
Definition out_of (e : PExpr) : PExpr := EIndexAccess (use "out") e (at_line 5).
Definition set_out (e : PExpr) : PStmt := SAssign (out_of e) (num "1" I32) (at_line 9).
Definition loop_to (hi : PExpr) (t : ElementType) (body : list PStmt) : PStmt :=
  SForLoop "j" (ERange (num "0" t) hi (at_line 6)) [] body (Some (at_line 7)) (at_line 8).

(** Even and odd elements: [out[2 * j]] and [out[2 * j + 1]]. *)
Definition even_odd (hi : PExpr) : PStmt :=
  loop_to hi I32 [set_out (bin (num "2" I32) Mul (use "j") I32);
                  set_out (bin (bin (num "2" I32) Mul (use "j") I32) Add (num "1" I32) I32)].



(** [out[j + n]] and [out[j + n + 200]] on bytes: the second wraps around. *)
Definition wrapping_loop : PStmt :=
  loop_to (num "100" U8) U8 [set_out (bin (use "j") Add (use "n") U8);
                             set_out (bin (bin (use "j") Add (use "n") U8) Add (num "200" U8) U8)].

Definition zero_out : Acc := mkAcc "out" [0] true false.
Definition zero_n : Symbol -> option (Z * ElementType) := fun x => if decide (x = "n") then Some (0, U8) else None.

Ltac in_type := cbn; unfold umax, imin, imax; lia.

Lemma result_exact wraps ty taint r : typed ty r -> result_of wraps ty taint r r.
Proof. by left. Qed.

Lemma eval_num outs wraps env s t z : parse_int 128 s = Some z -> typed t z -> eval outs wraps env (num s t) z t false.
Proof. intros H1 H2. split; [|done]. split; [by intros ? [= ->]|]. by rewrite H1. Qed.

Lemma eval_add outs wraps env a b t v1 t1 v2 t2 v : eval outs wraps env a v1 t t1 -> eval outs wraps env b v2 t t2 ->
  result_of wraps t (t1 || t2) (v1 + v2) v -> eval outs wraps env (bin a Add b t) v t (t1 || t2).
Proof. intros H1 H2 H3. split; [done|]. exists v1, t1, v2, t2. split_and!; [done|done|done|by exists (v1 + v2)]. Qed.

Lemma loop_to_touches outs wraps contracts ends hi z t body p a : typed t p -> typed t z -> typed t 0 -> 0 <= p < z -> ends = [] -> parse_int 128 hi = Some z ->
  seq_some (touches_stmt outs contracts ends wraps a) (next outs wraps) [{["j" := VInt p t false]}] body ->
  pass_touches outs contracts ends wraps (loop_to (num hi t) t body) p a.
Proof.
  intros H1 H2 H3 H4 -> H5 H6. exists t. split; [|done]. split_and!; [done| |by intros ? ? ? _ H%elem_of_nil].
  exists 0, false, z, false. split_and!; [by apply eval_num|by apply eval_num|lia|lia].
Qed.

Lemma set_out_touches outs wraps contracts ends env e v ty taint : env_lookup env "out" = None -> eval outs wraps env e v ty taint ->
  touches_stmt outs contracts ends wraps (mkAcc "out" [v] true false) env (set_out e).
Proof.
  intros H1 H2. left. right. right. split_and!; [done|done|done|done|]. constructor; [by exists ty, taint|constructor].
Qed.

(** Where arithmetic wraps, the check accepts a loop whose passes race: each index is bounded on its own, so two
    indices of one pass each, with a value from outside, may be a whole turn of the type apart.  Passes 0 and 56 of the
    loop both write [out[0]] when the value from outside is 0. *)
Theorem wrapping_race : across_loop_race wrapping_loop ∅ = Returns (Ok []) /\ ~ race_free zero_n ∅ [] true wrapping_loop.
Proof.
  split; [vm_compute; reflexivity|]. intros H. apply (H 0 56 zero_out zero_out); [done| | |by left|by intros [? _]|].
  - apply (loop_to_touches _ _ _ _ "100" 100); [in_type..|done|vm_compute; reflexivity|].
    left. eapply set_out_touches; [done|]. eapply (eval_add _ _ _ _ _ _ 0 false 0 true); [done|done|]. by apply result_exact.
  - apply (loop_to_touches _ _ _ _ "100" 100); [in_type..|done|vm_compute; reflexivity|].
    right. eexists. split; [done|]. left. eapply set_out_touches; [done|]. eapply (eval_add _ _ _ _ _ _ 56 true 200 false).
    + eapply (eval_add _ _ _ _ _ _ 56 false 0 true); [done|done|]. apply result_exact. in_type.
    + apply eval_num; [vm_compute; reflexivity|]. in_type.
    + right. split; [in_type|]. split; [by left|]. split; [in_type|by exists 8].
  - split; [done|]. intros i v w H1 H2. congruence.
Qed.

(** [match 5 - j { x => out[j + x] = 1 }]: the name of the arm depends on the pass. *)
Definition arm_loop : PStmt :=
  loop_to (num "5" I32) I32
    [SExprStmt (EMatch (bin (num "5" I32) Sub (use "j") I32) [(PIdentifier "x", [set_out (bin (use "j") Add (use "x") I32)])] (at_line 30))
       (at_line 31)].

(** The name that a match arm binds counts as a value from outside, equal in all passes: the check accepts a loop all of
    whose passes write [out[5]]. *)
Lemma arm_name_race : across_loop_race arm_loop ∅ = Returns (Ok []) /\ ~ race_free (fun _ => None) ∅ [] false arm_loop.
Proof.
  split; [vm_compute; reflexivity|]. intros H.
  assert (forall p, 0 <= p < 5 -> pass_touches (fun _ => None) ∅ [] false arm_loop p (mkAcc "out" [5] true false)) as Hp.
  { intros p Hp. apply (loop_to_touches _ _ _ _ "5" 5); [in_type..|done|vm_compute; reflexivity|]. left. right. left.
    exists {["x" := VInt (5 - p) I32 false]}. split.
    - intros n. cbn. rewrite list_elem_of_singleton. rewrite lookup_singleton_is_Some. done.
    - left. eapply set_out_touches; [done|]. eapply (eval_add _ _ _ _ _ _ p false (5 - p) false); [done|done|].
      replace (p + (5 - p)) with 5 by lia. by apply result_exact. }
  apply (H 0 1 _ _ ltac:(lia) (Hp 0 ltac:(lia)) (Hp 1 ltac:(lia))); [by left|by intros [? _]|].
  split; [done|]. intros i v w H1 H2. congruence.
Qed.

(** [for i in 0..2 { out[((j + n) as usize) + 160 * i] = 1 }] with a byte [j + n]. *)
Definition cast_loop : PStmt :=
  loop_to (num "100" U8) U8
    [SForLoop "i" (ERange (num "0" USize) (num "2" USize) (at_line 16)) []
       [set_out (bin (EAsCast (bin (use "j") Add (use "n") U8) (Scalar USize) (Some (Scalar U8)) (at_line 17)) Add
                   (bin (num "160" USize) Mul (use "i") USize) USize)] None (at_line 20)].

Definition byte_n : Symbol -> option (Z * ElementType) := fun x => if decide (x = "n") then Some (200, U8) else None.

Lemma cast_loop_touches p s i v : 0 <= p < 100 -> 0 <= i < 2 -> result_of true U8 true (p + 200) s -> v = s + 160 * i ->
  pass_touches byte_n ∅ [] true cast_loop p (mkAcc "out" [v] true false).
Proof.
  intros Hp Hi Hs ->. assert (typed U8 s) as Ht by (destruct Hs as [[? ->]|(_ & _ & ? & _)]; done). unfold typed in Ht. cbn in Ht. unfold umax in Ht.
  apply (loop_to_touches _ _ _ _ "100" 100); [in_type..|done|vm_compute; reflexivity|]. left. right. exists i, USize. split.
  - split_and!; [in_type|exists 0, false, 2, false; split_and!; [apply eval_num; [vm_compute; reflexivity|in_type]..|lia|lia]|by intros].
  - left. eapply set_out_touches; [done|]. eapply (eval_add _ _ _ _ _ _ s true (160 * i) false).
    + split; [done|]. left. exists s, U8. split; [|split; [by intros ? [= <-]|apply result_exact; in_type]].
      eapply (eval_add _ _ _ _ _ _ p false 200 true); done.
    + split; [done|]. exists 160, false, i, false. split_and!; [apply eval_num; [vm_compute; reflexivity|in_type]|done|done|].
      exists (160 * i). split; [done|]. apply result_exact. in_type.
    + apply result_exact. in_type.
Qed.

(** A cast keeps the form of arithmetic that has wrapped before it: passes 3 and 99 of an accepted loop both write
    [out[203]] when the value from outside is 200. *)
Lemma cast_race : across_loop_race cast_loop ∅ = Returns (Ok []) /\ ~ race_free byte_n ∅ [] true cast_loop.
Proof.
  split; [vm_compute; reflexivity|]. intros H. apply (H 3 99 (mkAcc "out" [203] true false) (mkAcc "out" [203] true false)); [done| | |by left|by intros [? _]|].
  - apply (cast_loop_touches 3 203 0); [lia|lia| |done]. apply result_exact. in_type.
  - apply (cast_loop_touches 99 43 1); [lia|lia| |done]. right. split; [in_type|]. split; [by left|]. split; [in_type|by exists 8].
  - split; [done|]. intros i v w H1 H2. congruence.
Qed.
