(* ===== verification/Smt.v ===== *)
(** * Scripts of an SMT solver

    The compiler writes its proof obligations as SMT-LIB text and reads the lines
    that [z3] prints.  Here are the text of the forms it writes, the reading of
    such text, what the assertions of a script mean, and the class [Z3] with what
    the documentation of SMT-LIB says of a solver: an [unsat] or [sat] for a
    well-formed script is true. *)

From stdpp Require Import base functions list strings gmap.
From Stdlib Require Import ZArith Lia Ascii.
From S2P Require Import Prelude.
Open Scope Z_scope.
Open Scope vx_scope.

(** ** Forms and their text *)

Inductive sexp : Type :=
| Word (w : string)
| Form (l : list sexp).

Section sexp_ind'.
Variable P : sexp -> Prop.
Hypothesis word : forall w, P (Word w).
Hypothesis form : forall l, Forall P l -> P (Form l).

Fixpoint sexp_ind' (s : sexp) : P s :=
  match s with
  | Word w => word w
  | Form l => form l ((fix all l := match l return Forall P l with [] => Forall_nil_2 P | x :: l => Forall_cons_2 P x l (sexp_ind' x) (all l) end) l)
  end.
End sexp_ind'.

(** [join(" ")]. *)
Fixpoint spaced (l : list string) : string :=
  match l with
  | [] => ""
  | [x] => x
  | x :: l => x +:+ " " +:+ spaced l
  end.

Fixpoint show (s : sexp) : string :=
  match s with
  | Word w => w
  | Form l => "(" +:+ spaced (show <$> l) +:+ ")"
  end.

(** ** Reading text *)

Inductive token : Type := Open | Close | Tok (w : string).

Inductive mode : Type := Between | InWord (w : string) | InQuote (w : string).

Definition snoc (w : string) (c : ascii) : string := w +:+ String c "".

Definition is_space (c : ascii) : bool := Ascii.eqb c " " || Ascii.eqb c "010".
Definition bar : ascii := "|".

Fixpoint tokens (m : mode) (s : string) : option (list token) :=
  match s with
  | EmptyString => match m with Between => Some [] | InWord w => Some [Tok w] | InQuote _ => None end
  | String c s =>
      match m with
      | Between =>
          if Ascii.eqb c "(" then cons Open <$> tokens Between s
          else if Ascii.eqb c ")" then cons Close <$> tokens Between s
          else if is_space c then tokens Between s
          else if Ascii.eqb c bar then tokens (InQuote (String c "")) s
          else tokens (InWord (String c "")) s
      | InWord w =>
          if Ascii.eqb c "(" then (fun l => Tok w :: Open :: l) <$> tokens Between s
          else if Ascii.eqb c ")" then (fun l => Tok w :: Close :: l) <$> tokens Between s
          else if is_space c then cons (Tok w) <$> tokens Between s
          else tokens (InWord (snoc w c)) s
      | InQuote w =>
          if Ascii.eqb c bar then cons (Tok (snoc w c)) <$> tokens Between s
          else tokens (InQuote (snoc w c)) s
      end
  end.

(** [cur] and [up] are the forms that are open, innermost first, each with its items in reverse. *)
Fixpoint build_forms (ts : list token) (cur : list sexp) (up : list (list sexp)) : option (list sexp) :=
  match ts with
  | [] => match up with [] => Some (reverse cur) | _ => None end
  | Open :: ts => build_forms ts [] (cur :: up)
  | Close :: ts => match up with out :: up => build_forms ts (Form (reverse cur) :: out) up | [] => None end
  | Tok w :: ts => build_forms ts (Word w :: cur) up
  end.

Definition parse (text : string) : option (list sexp) := ts ← tokens Between text; build_forms ts [] [].

(** ** Words that read back *)

Definition plain_char (c : ascii) : bool :=
  negb (Ascii.eqb c "(" || Ascii.eqb c ")" || is_space c || Ascii.eqb c bar).

Fixpoint all_chars (p : ascii -> bool) (s : string) : bool :=
  match s with EmptyString => true | String c s => p c && all_chars p s end.

Definition not_bar (c : ascii) : bool := negb (Ascii.eqb c bar).

Lemma all_chars_impl (p q : ascii -> bool) s : (forall c, p c = true -> q c = true) -> all_chars p s = true -> all_chars q s = true.
Proof.
  intros H. induction s as [|c s IH]; [done|]. cbn. rewrite !andb_true_iff. intros [H1 H2]. split; [by apply H|by apply IH].
Qed.

(** A plain word, or one in bars. *)
Definition word_ok (w : string) : Prop :=
  (w <> "" /\ all_chars plain_char w = true) \/ (exists x, w = String bar "" +:+ x +:+ String bar "" /\ all_chars not_bar x = true).

Fixpoint sexp_ok (s : sexp) : Prop :=
  match s with Word w => word_ok w | Form l => foldr (fun s P => sexp_ok s /\ P) True l end.

Lemma append_cons c a b : String c a +:+ b = String c (a +:+ b).
Proof. done. Qed.

Lemma snoc_append w c s : snoc w c +:+ s = w +:+ String c s.
Proof. unfold snoc. by rewrite append_assoc. Qed.

(** Text that a word ends at. *)
Definition ends_word (s : string) : Prop :=
  match s with EmptyString => True | String c _ => Ascii.eqb c "(" || Ascii.eqb c ")" || is_space c = true end.

Lemma tokens_word_end w rest : ends_word rest -> tokens (InWord w) rest = cons (Tok w) <$> tokens Between rest.
Proof.
  destruct rest as [|c rest]; [done|]. cbn -[is_space]. intros H. destruct (Ascii.eqb c "("); [by destruct (tokens Between rest)|].
  destruct (Ascii.eqb c ")"); [by destruct (tokens Between rest)|]. cbn in H. by rewrite H.
Qed.

Lemma tokens_in_word w x rest : all_chars plain_char x = true -> ends_word rest ->
  tokens (InWord w) (x +:+ rest) = cons (Tok (w +:+ x)) <$> tokens Between rest.
Proof.
  revert w. induction x as [|c x IH]; intros w Hx Hr; [rewrite append_nil_r; by apply tokens_word_end|].
  cbn in Hx. apply andb_true_iff in Hx as [Hc Hx]. unfold plain_char in Hc. rewrite !negb_orb, !andb_true_iff, !negb_true_iff in Hc.
  destruct Hc as (((H1 & H2) & H3) & H4). rewrite append_cons. cbn -[is_space String.append]. rewrite H1, H2, H3, IH by done. by rewrite snoc_append.
Qed.

Lemma tokens_in_quote w x rest : all_chars not_bar x = true ->
  tokens (InQuote w) (x +:+ String bar rest) = cons (Tok (w +:+ x +:+ String bar "")) <$> tokens Between rest.
Proof.
  revert w. induction x as [|c x IH]; intros w Hx; [done|]. cbn in Hx. apply andb_true_iff in Hx as [Hc Hx]. unfold not_bar in Hc.
  apply negb_true_iff in Hc. rewrite append_cons. cbn -[String.append]. rewrite Hc, IH by done. by rewrite snoc_append, append_cons.
Qed.

Lemma tokens_word w rest : word_ok w -> ends_word rest -> tokens Between (w +:+ rest) = cons (Tok w) <$> tokens Between rest.
Proof.
  intros [[Hne Hw]|(x & -> & Hx)] Hr.
  - destruct w as [|c w]; [done|]. cbn in Hw. apply andb_true_iff in Hw as [Hc Hw]. pose proof Hc as Hc'. unfold plain_char in Hc'.
    rewrite !negb_orb, !andb_true_iff, !negb_true_iff in Hc'. destruct Hc' as (((H1 & H2) & H3) & H4).
    rewrite append_cons. cbn -[is_space String.append]. rewrite H1, H2, H3, H4. by rewrite tokens_in_word.
  - assert ((String bar "" +:+ x +:+ String bar "") +:+ rest = String bar (x +:+ String bar rest)) as ->.
    { rewrite append_assoc, append_assoc. done. }
    cbn -[String.append]. by rewrite tokens_in_quote.
Qed.

(** ** What is shown reads back *)

Fixpoint tokens_of (s : sexp) : list token :=
  match s with Word w => [Tok w] | Form l => Open :: flat_map tokens_of l ++ [Close] end.

Lemma tokens_show s rest : sexp_ok s -> ends_word rest -> tokens Between (show s +:+ rest) = app (tokens_of s) <$> tokens Between rest.
Proof.
  revert rest. induction s as [w|l IH] using sexp_ind'; intros rest Hs Hr; cbn [show tokens_of]; [by rewrite tokens_word|].
  rewrite append_assoc, append_cons. cbn -[String.append is_space flat_map].
  assert (forall l, Forall (fun s => forall rest, sexp_ok s -> ends_word rest ->
      tokens Between (show s +:+ rest) = app (tokens_of s) <$> tokens Between rest) l ->
    foldr (fun s P => sexp_ok s /\ P) True l ->
    tokens Between (spaced (show <$> l) +:+ String ")" rest) = (fun t => flat_map tokens_of l ++ Close :: t) <$> tokens Between rest) as Hall.
  { clear IH Hs l. induction l as [|s l IHl]; [done|]. intros [H1 H2]%Forall_cons [O1 O2]. destruct l as [|s' l].
    - cbn [fmap list_fmap spaced]. rewrite H1 by done. cbn -[String.append is_space]. rewrite app_nil_r. by destruct (tokens Between rest).
    - change (spaced (show <$> s :: s' :: l)) with (show s +:+ " " +:+ spaced (show <$> s' :: l)). rewrite append_assoc, append_assoc, H1 by done.
      rewrite append_cons. change ("" +:+ ?x) with x. change (tokens Between (String " " ?x)) with (tokens Between x).
      rewrite IHl by done. destruct (tokens Between rest) as [ts|]; [|done]. cbn [fmap option_fmap option_map flat_map]. by rewrite <-(app_assoc (tokens_of s)). }
  rewrite append_assoc. change (")" +:+ rest) with (String ")" rest). change ("" +:+ ?x) with x. rewrite Hall by done.
  destruct (tokens Between rest); [|done]. cbn. by rewrite <-app_assoc.
Qed.

Lemma build_tokens s ts cur up : build_forms (tokens_of s ++ ts) cur up = build_forms ts (s :: cur) up.
Proof.
  revert ts cur up. induction s as [w|l IH] using sexp_ind'; intros ts cur up; [done|]. cbn.
  assert (forall l acc, Forall (fun s => forall ts cur up, build_forms (tokens_of s ++ ts) cur up = build_forms ts (s :: cur) up) l ->
    build_forms ((flat_map tokens_of l ++ [Close]) ++ ts) acc (cur :: up) = build_forms ts (Form (reverse acc ++ l) :: cur) up) as Hall.
  { clear IH l. induction l as [|s l IHl]; intros acc Hl; cbn; [by rewrite app_nil_r|]. apply Forall_cons in Hl as [H1 H2].
    rewrite <-!app_assoc, H1, app_assoc, IHl by done. by rewrite reverse_cons, <-app_assoc. }
  by rewrite Hall.
Qed.

(** A script: one form on each line. *)
Definition script (cmds : list sexp) : string := foldr (fun s t => show s +:+ String "010" t) "" cmds.

Lemma tokens_script cmds : Forall sexp_ok cmds -> tokens Between (script cmds) = Some (flat_map tokens_of cmds).
Proof.
  induction 1 as [|s cmds H _ IH]; [done|]. change (script (s :: cmds)) with (show s +:+ String "010" (script cmds)). rewrite tokens_show by done.
  change (tokens Between (String "010" ?x)) with (tokens Between x). by rewrite IH.
Qed.

Lemma parse_script cmds : Forall sexp_ok cmds -> parse (script cmds) = Some cmds.
Proof.
  intros H. unfold parse. rewrite tokens_script by done. cbn. clear H.
  assert (forall acc, build_forms (flat_map tokens_of cmds) acc [] = Some (reverse acc ++ cmds)) as Hall; [|by rewrite Hall].
  induction cmds as [|s cmds IH]; intros acc; cbn; [by rewrite app_nil_r|]. by rewrite build_tokens, IH, reverse_cons, <-app_assoc.
Qed.

Lemma script_app a b : script (a ++ b) = script a +:+ script b.
Proof.
  induction a as [|s a IH]; [done|]. change (script ((s :: a) ++ b)) with (show s +:+ String "010" (script (a ++ b))). rewrite IH.
  change (script (s :: a)) with (show s +:+ String "010" (script a)). by rewrite append_assoc.
Qed.

(** ** What terms mean *)

Inductive value : Type := VInt (z : Z) | VBool (b : bool) | VBits (width z : Z).
#[export] Instance value_eq_dec : EqDecision value.
Proof. solve_decision. Defined.

Inductive sort : Type := SInt | SBool | SBits (width : Z).

Definition of_sort (s : sort) (v : value) : Prop :=
  match s, v with
  | SInt, VInt _ | SBool, VBool _ => True
  | SBits w, VBits w' z => w' = w /\ 0 <= z <= umax w
  | _, _ => False
  end.

(** The symbol of a word: the bars of a quoted symbol are not part of it. *)
Definition is_quoted (w : string) : bool := match w with String c _ => Ascii.eqb c bar | EmptyString => false end.

Fixpoint remove_bars (s : string) : string :=
  match s with EmptyString => "" | String c s => if Ascii.eqb c bar then remove_bars s else String c (remove_bars s) end.

Definition symbol_of (w : string) : string := if is_quoted w then remove_bars w else w.

(** Digits of a literal in base [2 ^ bits]. *)
Definition hex_digit (c : ascii) : option Z :=
  let n := Z.of_nat (nat_of_ascii c) in
  if (48 <=? n) && (n <=? 57) then Some (n - 48) else if (97 <=? n) && (n <=? 102) then Some (n - 87) else None.

Fixpoint bits_from (bits acc : Z) (s : string) : option Z :=
  match s with
  | EmptyString => Some acc
  | String c s => match hex_digit c with Some d => if d <? 2 ^ bits then bits_from bits (acc * 2 ^ bits + d) s else None | None => None end
  end.

Definition str_len (s : string) : Z := Z.of_nat (String.length s).

Definition literal (w : string) : option value :=
  if decide (w = "true") then Some (VBool true)
  else if decide (w = "false") then Some (VBool false)
  else if negb (bool_decide (w = "")) && all_digits w then Some (VInt (dec_value w))
  else match w with
       | String "#" (String "b" s) => VBits (str_len s) <$> bits_from 1 0 s
       | String "#" (String "x" s) => VBits (4 * str_len s) <$> bits_from 4 0 s
       | _ => None
       end.

Definition as_int (v : value) : option Z := match v with VInt z => Some z | _ => None end.
Definition as_bool (v : value) : option bool := match v with VBool b => Some b | _ => None end.

Fixpoint chain (r : Z -> Z -> bool) (l : list Z) : bool :=
  match l with a :: (b :: _) as l => r a b && chain r l | _ => true end.

Definition same_sort (a b : value) : bool :=
  match a, b with VInt _, VInt _ | VBool _, VBool _ => true | VBits w _, VBits v _ => w =? v | _, _ => false end.

Definition compare (r : Z -> Z -> bool) (vs : list value) : option value :=
  l ← mapM as_int vs; if (2 <=? length l)%nat then Some (VBool (chain r l)) else None.

Definition apply_op (op : string) (vs : list value) : option value :=
  if decide (op = "+") then (fun l => VInt (foldr Z.add 0 l)) <$> mapM as_int vs
  else if decide (op = "*") then (fun l => VInt (foldr Z.mul 1 l)) <$> mapM as_int vs
  else if decide (op = "-") then
    match vs with [VInt a] => Some (VInt (- a)) | [VInt a; VInt b] => Some (VInt (a - b)) | _ => None end
  else if decide (op = "mod") then
    match vs with [VInt a; VInt b] => if 0 <? b then Some (VInt (a mod b)) else None | _ => None end
  else if decide (op = "=") then
    match vs with [a; b] => if same_sort a b then Some (VBool (bool_decide (a = b))) else None | _ => None end
  else if decide (op = "distinct") then
    match vs with [a; b] => if same_sort a b then Some (VBool (negb (bool_decide (a = b)))) else None | _ => None end
  else if decide (op = "<") then compare Z.ltb vs
  else if decide (op = "<=") then compare Z.leb vs
  else if decide (op = ">") then compare Z.gtb vs
  else if decide (op = ">=") then compare Z.geb vs
  else if decide (op = "not") then match vs with [VBool b] => Some (VBool (negb b)) | _ => None end
  else if decide (op = "and") then
    match vs with [] => None | _ => (fun l => VBool (forallb id l)) <$> mapM as_bool vs end
  else if decide (op = "or") then
    match vs with [] => None | _ => (fun l => VBool (existsb id l)) <$> mapM as_bool vs end
  else None.

Fixpoint eval (nu : string -> option value) (s : sexp) : option value :=
  match s with
  | Word w => match literal w with Some v => Some v | None => nu (symbol_of w) end
  | Form (Word op :: args) => vs ← mapM (eval nu) args; apply_op op vs
  | Form _ => None
  end.

Lemma eval_form2 nu op a b x y : eval nu a = Some x -> eval nu b = Some y -> eval nu (Form [Word op; a; b]) = apply_op op [x; y].
Proof. intros Ha Hb. cbn -[apply_op]. by rewrite Ha, Hb. Qed.

(** ** Commands *)

Inductive command : Type :=
| Declare_const (name : string) (s : sort)
| Define_fun (name : string) (s : sort) (body : sexp)
| Assert (t : sexp)
| Check_sat
| Push
| Pop
| Other.

Definition read_sort (s : sexp) : option sort :=
  match s with
  | Word w => if decide (w = "Int") then Some SInt else if decide (w = "Bool") then Some SBool else None
  | Form [Word a; Word b; Word n] =>
      if decide (a = "_" /\ b = "BitVec" /\ n <> "" /\ all_digits n = true) then Some (SBits (dec_value n)) else None
  | _ => None
  end.

(** The options and the questions that follow a [sat] have no effect on the answers. *)
Definition quiet_commands : list string := ["set-logic"; "set-option"; "get-value"; "echo"].

Definition read_command (s : sexp) : option command :=
  match s with
  | Form (Word c :: args) =>
      if decide (c = "declare-const") then
        match args with [Word n; s] => Declare_const (symbol_of n) <$> read_sort s | _ => None end
      else if decide (c = "define-fun") then
        match args with [Word n; Form []; s; body] => (fun s => Define_fun (symbol_of n) s body) <$> read_sort s | _ => None end
      else if decide (c = "assert") then match args with [t] => Some (Assert t) | _ => None end
      else if decide (c = "check-sat") then match args with [] => Some Check_sat | _ => None end
      else if decide (c = "push") then match args with [Word n] => if decide (n = "1") then Some Push else None | _ => None end
      else if decide (c = "pop") then match args with [Word n] => if decide (n = "1") then Some Pop else None | _ => None end
      else if decide (c ∈ quiet_commands) then Some Other
      else None
  | _ => None
  end.

(** What is declared and asserted at each [check-sat]. *)
Fixpoint checks (cmds : list command) (now : list command) (up : list (list command)) : list (list command) :=
  match cmds with
  | [] => []
  | Check_sat :: cmds => now :: checks cmds now up
  | Push :: cmds => checks cmds now (now :: up)
  | Pop :: cmds => match up with out :: up => checks cmds out up | [] => checks cmds now up end
  | Other :: cmds => checks cmds now up
  | c :: cmds => checks cmds (now ++ [c]) up
  end.

(** The scopes that commands leave. *)
Fixpoint scopes_after (cmds : list command) (now : list command) (up : list (list command)) : list command * list (list command) :=
  match cmds with
  | [] => (now, up)
  | Push :: cmds => scopes_after cmds now (now :: up)
  | Pop :: cmds => match up with out :: up => scopes_after cmds out up | [] => scopes_after cmds now up end
  | (Check_sat | Other) :: cmds => scopes_after cmds now up
  | c :: cmds => scopes_after cmds (now ++ [c]) up
  end.

Lemma checks_app a b now up : checks (a ++ b) now up = checks a now up ++ let '(now', up') := scopes_after a now up in checks b now' up'.
Proof.
  revert now up. induction a as [|c a IH]; intros now up; [done|]. destruct c; cbn; try apply IH; [by rewrite IH|]. destruct up; apply IH.
Qed.

Lemma scopes_app a b now up : scopes_after (a ++ b) now up = let '(now', up') := scopes_after a now up in scopes_after b now' up'.
Proof. revert now up. induction a as [|c a IH]; intros now up; [done|]. destruct c; cbn; try apply IH. destruct up; apply IH. Qed.

(** Commands that only add to what is declared and asserted. *)
Definition adds (c : command) : Prop := match c with Declare_const _ _ | Define_fun _ _ _ | Assert _ => True | _ => False end.

Lemma adds_scopes a now up : Forall adds a -> checks a now up = [] /\ scopes_after a now up = (now ++ a, up).
Proof.
  intros H. revert now. induction H as [|c a Hc _ IH]; intros now; [by rewrite app_nil_r|].
  destruct c as [n s|n s b|t| | | |]; try done; [destruct (IH (now ++ [Declare_const n s])) as [H1 H2]|destruct (IH (now ++ [Define_fun n s b])) as [H1 H2]|destruct (IH (now ++ [Assert t])) as [H1 H2]];
    cbn; rewrite H1, H2, <-app_assoc; done.
Qed.

(** An assignment gives each declared name a value of its sort and each defined one the value of its body. *)
Definition fits_command (nu : string -> option value) (c : command) : Prop :=
  match c with
  | Declare_const n s => exists v, nu n = Some v /\ of_sort s v
  | Define_fun n s body => exists v, nu n = Some v /\ of_sort s v /\ eval nu body = Some v
  | _ => True
  end.
Definition fits_all (nu : string -> option value) (ctx : list command) : Prop := Forall (fits_command nu) ctx.

Definition true_in (nu : string -> option value) (c : command) : Prop :=
  match c with Assert t => eval nu t = Some (VBool true) | _ => True end.

Definition satisfiable (ctx : list command) : Prop := exists nu, fits_all nu ctx /\ Forall (true_in nu) ctx.

(** ** Well-formed scripts *)

(** Words that the logic uses itself. *)
Definition reserved : list string :=
  ["true"; "false"; "and"; "or"; "not"; "xor"; "ite"; "distinct"; "mod"; "div"; "abs"; "let"; "forall"; "exists"; "match"; "par"; "as";
   "to_real"; "to_int"; "is_int"; "divisible"; "concat"; "extract"; "Int"; "Bool"; "Real"; "BitVec"; "String"; "_"; "!"].

(** The characters of a simple symbol. *)
Definition symbol_char (c : ascii) : bool :=
  let n := nat_of_ascii c in
  is_ascii_digit c || ((65 <=? n) && (n <=? 90))%nat || ((97 <=? n) && (n <=? 122))%nat ||
  existsb (Ascii.eqb c) ["~"; "!"; "@"; "$"; "%"; "^"; "&"; "*"; "_"; "-"; "+"; "="; "<"; ">"; "."; "?"; "/"]%char.

Definition backslash : ascii := "092".

Definition legal_symbol (w : string) : Prop :=
  match w with
  | EmptyString => False
  | String c x =>
      if Ascii.eqb c bar then exists y, x = y +:+ String bar "" /\ all_chars (fun c => not_bar c && negb (Ascii.eqb c backslash)) y = true
      else all_chars symbol_char w = true /\ is_ascii_digit c = false /\ w ∉ reserved
  end.

Definition names_of (ctx : list command) : list string :=
  omap (fun c => match c with Declare_const n _ | Define_fun n _ _ => Some n | _ => None end) ctx.

(** The words that a command declares. *)
Definition declared_word (s : sexp) : option string :=
  match s with
  | Form (Word c :: Word n :: _) => if decide (c = "declare-const" \/ c = "define-fun") then Some n else None
  | _ => None
  end.

(** Each name is declared once, and each assertion has a truth value, whatever the values of the names. *)
Record ctx_wf (ctx : list command) : Prop := {
  cw_names : NoDup (names_of ctx);
  cw_terms : forall nu t, fits_all nu ctx -> Assert t ∈ ctx -> exists b, eval nu t = Some (VBool b);
}.

Definition script_wf (cmds : list sexp) (read : list command) : Prop :=
  mapM read_command cmds = Some read /\ Forall ctx_wf (checks read [] []) /\ forall s n, s ∈ cmds -> declared_word s = Some n -> legal_symbol n.

(** ** The solver *)

(** The answers of a reply to the checks of its script, in order. *)
Definition answers (reply : list string) : list string := filter (fun l => l ∈ ["sat"; "unsat"; "unknown"]) reply.

Definition quote_mark : ascii := "034".
Definition quoted (w : string) : string := String quote_mark (w +:+ String quote_mark "").
Definition echo (w : string) : sexp := Form [Word "echo"; Word (quoted w)].
Definition no_echo (c : sexp) : Prop := match c with Form (Word e :: _) => e <> "echo" | _ => True end.

(** A line that is printed for a command other than [echo]. *)
Definition opens (l : string) : bool := match l with String c _ => Ascii.eqb c "(" | EmptyString => false end.
Definition response (l : string) : Prop := opens l = true \/ l ∈ ["sat"; "unsat"; "unknown"; "success"; "unsupported"].

Class Z3 : Type := {
  (** The lines that [z3 -in -smt2] prints for a script, without the space around them; [None] when it cannot be run. *)
  z3 : string -> option (list string);
  (** It answers each check. *)
  z3_answers : forall text cmds read reply, parse text = Some cmds -> script_wf cmds read -> z3 text = Some reply ->
    length (answers reply) = length (checks read [] []);
  z3_unsat : forall text cmds read reply i ctx, parse text = Some cmds -> script_wf cmds read -> z3 text = Some reply ->
    checks read [] [] !! i = Some ctx -> answers reply !! i = Some "unsat" -> ~ satisfiable ctx;
  z3_sat : forall text cmds read reply i ctx, parse text = Some cmds -> script_wf cmds read -> z3 text = Some reply ->
    checks read [] [] !! i = Some ctx -> answers reply !! i = Some "sat" -> satisfiable ctx;
  z3_nothing : forall reply, z3 "" = Some reply -> reply = [];
  (** It prints as it reads: answers, responses in parentheses, and what it says of options. *)
  z3_more : forall cmds more reply, Forall sexp_ok cmds -> Forall sexp_ok more -> z3 (script (cmds ++ more)) = Some reply ->
    exists before after, z3 (script cmds) = Some before /\ reply = before ++ after /\ (Forall no_echo more -> Forall response after);
  (** An echo prints its text, with or without the quotes. *)
  z3_echo : forall cmds w reply, Forall sexp_ok cmds -> sexp_ok (echo w) -> z3 (script (cmds ++ [echo w])) = Some reply ->
    exists before l, z3 (script cmds) = Some before /\ reply = before ++ [l] /\ (l = w \/ l = quoted w);
}.

(** ** A solver that knows some scripts

    [known] is its answer to the last check of a script.  It shows that the laws of [Z3] can hold. *)

Section table.
Context (known : list sexp -> string).

Definition lines_of (seen : list sexp) (c : sexp) : list string :=
  match read_command c with
  | Some Check_sat => [known (seen ++ [c])]
  | _ => match c with
         | Form [Word e; Word (String q w)] => if decide (e = "echo" /\ q = quote_mark) then [String q w] else []
         | _ => []
         end
  end.

Fixpoint table_lines (seen cmds : list sexp) : list string :=
  match cmds with [] => [] | c :: cmds => lines_of seen c ++ table_lines (seen ++ [c]) cmds end.

Context (known_answers : forall cmds, known cmds ∈ ["sat"; "unsat"; "unknown"]).
Context (known_true : forall cmds read ctx, mapM read_command cmds = Some read -> last (checks read [] []) = Some ctx ->
  (known cmds = "unsat" -> ~ satisfiable ctx) /\ (known cmds = "sat" -> satisfiable ctx)).

Lemma answers_app a b : answers (a ++ b) = answers a ++ answers b.
Proof. apply filter_app. Qed.

Lemma lines_check seen c : read_command c = Some Check_sat -> answers (lines_of seen c) = [known (seen ++ [c])].
Proof. intros E. unfold lines_of. rewrite E. unfold answers. by rewrite filter_cons_True, filter_nil by apply known_answers. Qed.

Lemma lines_other seen c : read_command c <> Some Check_sat -> answers (lines_of seen c) = [].
Proof.
  intros E. unfold lines_of. assert (forall A (x y : A), match read_command c with Some Check_sat => x | _ => y end = y) as -> by (intros; by destruct (read_command c) as [[]|]).
  repeat case_match; try done. case_decide as D; [|done]. destruct D as [D1 D2]. rewrite D2. unfold answers. rewrite filter_cons_False; [done|].
  rewrite !elem_of_cons, elem_of_nil. naive_solver.
Qed.

Lemma check_or c : read_command c = Some Check_sat \/ read_command c <> Some Check_sat.
Proof. destruct (read_command c) as [[]|]; auto. Qed.

(** The checks after a command, and the state it leaves. *)
Lemma checks_step c now up : c <> Check_sat -> exists now' up', forall read, checks (c :: read) now up = checks read now' up'.
Proof. intros H. destruct c; try done; cbn; eauto. destruct up; eauto. Qed.

Lemma table_count seen cmds read now up : mapM read_command cmds = Some read -> length (answers (table_lines seen cmds)) = length (checks read now up).
Proof.
  revert seen read now up. induction cmds as [|c cmds IH]; intros seen read now up H; [by injection H as <-|].
  apply mapM_Some in H. inversion H as [|? r ? read' Hr H']; subst. clear H. apply mapM_Some in H' as H. cbn [table_lines]. rewrite answers_app, length_app. destruct (check_or c) as [E|E].
  - rewrite lines_check by done. rewrite E in Hr. injection Hr as <-. cbn. f_equal. by apply IH.
  - rewrite lines_other by done. destruct (checks_step r now up) as (now' & up' & ->); [congruence|]. by apply IH.
Qed.

Lemma table_answer seen cmds read now up i ctx x : mapM read_command cmds = Some read -> checks read now up !! i = Some ctx ->
  answers (table_lines seen cmds) !! i = Some x ->
  exists a read', (exists b, cmds = a ++ b) /\ x = known (seen ++ a) /\ mapM read_command a = Some read' /\ last (checks read' now up) = Some ctx.
Proof.
  revert seen read now up i. induction cmds as [|c cmds IH]; intros seen read now up i H Hc Ha; [done|].
  apply mapM_Some in H. inversion H as [|? r ? read1 Hr H']; subst. clear H. apply mapM_Some in H' as H. cbn [table_lines] in Ha. rewrite answers_app in Ha.
  destruct (check_or c) as [E|E].
  - rewrite lines_check in Ha by done. rewrite E in Hr. injection Hr as <-. destruct i as [|i]; cbn in Hc, Ha.
    + injection Hc as <-. injection Ha as <-. exists [c], [Check_sat]. split_and!; [by exists cmds|done|cbn; by rewrite E|done].
    + destruct (IH _ _ _ _ _ H Hc Ha) as (a & read' & [b ->] & -> & Hm & Hl). exists (c :: a), (Check_sat :: read'). split_and!; [by exists b|by rewrite <-app_assoc|cbn; by rewrite E, Hm|].
      cbn. destruct (checks read' now up); [done|]. done.
  - rewrite lines_other in Ha by done. destruct (checks_step r now up) as (now' & up' & Hs); [congruence|]. rewrite Hs in Hc.
    destruct (IH _ _ _ _ _ H Hc Ha) as (a & read' & [b ->] & -> & Hm & Hl). exists (c :: a), (r :: read'). split_and!; [by exists b|by rewrite <-app_assoc|cbn; by rewrite Hr, Hm|].
    by rewrite Hs.
Qed.

Lemma table_lines_app seen a b : table_lines seen (a ++ b) = table_lines seen a ++ table_lines (seen ++ a) b.
Proof.
  revert seen. induction a as [|c a IH]; intros seen; cbn; [by rewrite app_nil_r|]. by rewrite IH, <-!app_assoc.
Qed.

Lemma table_responses seen cmds : Forall no_echo cmds -> Forall response (table_lines seen cmds).
Proof.
  intros H. revert seen. induction H as [|c cmds Hc _ IH]; intros seen; cbn [table_lines]; [constructor|]. apply Forall_app. split; [|apply IH].
  destruct (check_or c) as [E|E]; unfold lines_of.
  - rewrite E. constructor; [|constructor]. right. pose proof (known_answers (seen ++ [c])). set_solver.
  - assert (forall A (x y : A), match read_command c with Some Check_sat => x | _ => y end = y) as -> by (intros; by destruct (read_command c) as [[]|]).
    repeat case_match; subst; try apply Forall_nil_2. exfalso. apply Hc. naive_solver.
Qed.

Definition table_run (text : string) : option (list string) := match parse text with Some cmds => Some (table_lines [] cmds) | None => Some [] end.

Definition table_z3 : Z3.
Proof.
  refine {| z3 := table_run |}; unfold table_run.
  - intros text cmds read reply -> (Hr & _) [= <-]. by apply table_count.
  - intros text cmds read reply i ctx -> (Hr & _) [= <-] Hc Ha. destruct (table_answer _ _ _ _ _ _ _ _ Hr Hc Ha) as (a & read' & _ & E & Hm & Hl).
    cbn in E. by apply (known_true a read' ctx Hm Hl).
  - intros text cmds read reply i ctx -> (Hr & _) [= <-] Hc Ha. destruct (table_answer _ _ _ _ _ _ _ _ Hr Hc Ha) as (a & read' & _ & E & Hm & Hl).
    cbn in E. by apply (known_true a read' ctx Hm Hl).
  - by intros reply [= <-].
  - intros cmds more reply H1 H2. rewrite !parse_script by (by try apply Forall_app). intros [= <-]. rewrite table_lines_app. eexists _, _. split_and!; [done|done|]. by apply table_responses.
  - intros cmds w reply H1 H2. assert (Forall sexp_ok [echo w]) as H3 by (by constructor). rewrite !parse_script by (by try apply Forall_app). intros [= <-]. rewrite table_lines_app.
    eexists _, _. split_and!; [done|done|by right].
Defined.
End table.

(** Equality of forms. *)
Fixpoint sexp_eqb (a b : sexp) : bool :=
  match a, b with
  | Word v, Word w => bool_decide (v = w)
  | Form l, Form k => (fix all l k := match l, k with [], [] => true | x :: l, y :: k => sexp_eqb x y && all l k | _, _ => false end) l k
  | _, _ => false
  end.

Lemma sexp_eqb_eq a b : sexp_eqb a b = true -> a = b.
Proof.
  revert b. induction a as [w|l IH] using sexp_ind'; intros [v|k]; cbn; try done; [by intros ->%bool_decide_eq_true|].
  intros H. f_equal. revert k H. induction IH as [|x l Hx _ IHl]; intros [|y k]; try done. intros [H1 H2]%andb_true_iff. f_equal; [by apply Hx|by apply IHl].
Qed.
