(* ===== verification/Prover.v ===== *)
(** * The contract prover ([src/src/hir/prover.rs], [stmt.rs], [check/raw.rs])

    The checker keeps the facts that hold at the place it checks, as expressions:
    conditions of branches, values of variables, contracts.  To prove a goal it
    replaces the calls by names, writes the facts and the negated goal as an SMT
    script and asks [z3].  An assignment renames the variable in the facts, so
    that they speak of its old value. *)

From stdpp Require Import base list strings gmap.
From Stdlib Require Import ZArith Lia Ascii.
From S2P Require Import Prelude Syntax Types Program Smt.
Open Scope Z_scope.
Open Scope vx_scope.

(** ** Types *)

Definition int_bits (e : ElementType) : option Z :=
  match e with
  | Bool => Some 1
  | I4 | U4 => Some 4
  | I8 | U8 => Some 8
  | I16 | U16 => Some 16
  | I32 | U32 => Some 32
  | I64 | U64 | USize => Some 64
  | I128 | U128 => Some 128
  | _ => None
  end.

Definition is_signed_int (e : ElementType) : bool := match e with I4 | I8 | I16 | I32 | I64 | I128 => true | _ => false end.
Definition is_float (e : ElementType) : bool :=
  match e with F16 | F32 | F64 | BF16 | F8E4M3 | F8E5M2 | F4E2M1 => true | _ => false end.

(** [int_bits().filter(|_| ty != Bool)]. *)
Definition bits_not_bool (e : ElementType) : option Z := if decide (e = Bool) then None else int_bits e.

(** ** The prover *)

(** What the prover cannot express, as its messages say it. *)
Inductive ProverError : Type :=
| TheOperator (op : BinaryOp)
| UnknownIntType
| OperationOn (ty : ElementType)
| TheTryOperator
| AnExpression (e : PExpr).

(** A set is a map to [unit]. *)
Record SmtProver : Type := mkProver {
  pv_assertions : list string;
  pv_declarations : gmap string unit;
  pv_ranges : gmap string ElementType;
}.

Definition SmtProver_new : SmtProver := mkProver [] ∅ ∅.

Definition declare (name : string) (p : SmtProver) : SmtProver :=
  mkProver (pv_assertions p) (<[name := tt]> (pv_declarations p)) (pv_ranges p).
Definition set_range (name : string) (ty : ElementType) (p : SmtProver) : SmtProver :=
  mkProver (pv_assertions p) (pv_declarations p) (<[name := ty]> (pv_ranges p)).

(** [2^bits] in decimal: forty digits are enough for 128 bits.  Wider panics; no type is. *)
Definition pow2 (bits : Z) : string := u_to_string 40 (2 ^ bits) "".

Definition int_range (ty : ElementType) : option (string * string) :=
  bits ← bits_not_bool ty;
  let max b := "(- " +:+ pow2 b +:+ " 1)" in
  Some (if decide (ty = USize) then ("0", max 63)
        else if is_signed_int ty then ("(- " +:+ pow2 (bits - 1) +:+ ")", max (bits - 1))
        else ("0", max bits)).

Definition prover_wrap (exact : string) (ty : option ElementType) : result string ProverError :=
  match ty with
  | None => Err UnknownIntType
  | Some ty =>
      if is_float ty || bool_decide (ty = USize) then Ok exact
      else match bits_not_bool ty with
           | None => Err (OperationOn ty)
           | Some bits =>
               let m := pow2 bits in
               if is_signed_int ty then
                 let h := pow2 (bits - 1) in
                 Ok ("(- (mod (+ " +:+ exact +:+ " " +:+ h +:+ ") " +:+ m +:+ ") " +:+ h +:+ ")")
               else Ok ("(mod " +:+ exact +:+ " " +:+ m +:+ ")")
           end
  end.

Definition cast_int_types (target_ty : Ty) (source_ty : option Ty) : option (ElementType * ElementType) :=
  let int ty := match ty with Scalar e => if bool_decide (is_Some (int_bits e)) && negb (bool_decide (e = Bool)) then Some e else None | _ => None end in
  source ← source_ty; from ← int source; to ← int target_ty; Some (from, to).

Definition keeps_every_value (target_ty : Ty) (source_ty : option Ty) : bool :=
  match cast_int_types target_ty source_ty with
  | None => false
  | Some (from, to) =>
      let width e := if decide (e = USize) then (63, false) else (default 0 (int_bits e), is_signed_int e) in
      let '(from_bits, from_signed) := width from in
      let '(to_bits, to_signed) := width to in
      match from_signed, to_signed with
      | true, false => false
      | false, true => from_bits <? to_bits
      | _, _ => from_bits <=? to_bits
      end
  end.

(** ['.'] as ['_']. *)
Fixpoint dots_to_bars (s : string) : string :=
  match s with EmptyString => "" | String c s => String (if Ascii.eqb c "." then "_" else c)%char (dots_to_bars s) end.

Definition or_else {A} (a b : option A) : option A := match a with Some x => Some x | None => b end.

Section lower.
Context (type_of : Symbol -> option (ElementType * bool)).

Fixpoint int_type (e : PExpr) : option ElementType :=
  match e with
  | ENumber _ ty _ => ty
  | EIdentifier name _ => fst <$> type_of name
  | EBinaryOp lhs _ rhs _ operand_ty => or_else operand_ty (or_else (int_type lhs) (int_type rhs))
  | EUnaryOp _ e _ => int_type e
  | EAsCast _ target_ty source_ty _ => snd <$> cast_int_types target_ty source_ty
  | _ => None
  end.

Definition topology_name (t : Topology) : string :=
  let indexed name (e : Expr) := match e with Number n _ _ => name +:+ "_" +:+ n | _ => name end in
  match t with
  | CPU => "Topology_Host"
  | NPU e => indexed "Topology_NPU" e
  | AccCore e => indexed "Topology_AccCore" e
  | AMX => "Topology_AMX"
  | ANE => "Topology_ANE"
  | GPU e => indexed "Topology_GPU" e
  | _ => "Topology_Complex"
  end.

Definition rel_text (op : RelationalOp) : string :=
  match op with REq => "=" | RNotEq => "distinct" | RLt => "<" | RLe => "<=" | RGt => ">" | RGe => ">=" end.

Definition bin_text (op : BinaryOp) : option string :=
  match op with Add => Some "+" | Sub => Some "-" | Mul => Some "*" | _ => None end.

Definition log_text (op : LogicalOp) : string := match op with LAnd => "and" | LOr => "or" end.

Definition binary_text (op lhs rhs : string) : string := "(" +:+ op +:+ " " +:+ lhs +:+ " " +:+ rhs +:+ ")".

(** What was declared before an error stays declared. *)
Fixpoint lower_expr (e : PExpr) (expected : option ElementType) (p : SmtProver) : SmtProver * result string ProverError :=
  let two lhs lt rhs rt p k :=
    match lower_expr lhs lt p with
    | (p, Ok l) => match lower_expr rhs rt p with (p, Ok r) => (p, k l r) | (p, Err e) => (p, Err e) end
    | (p, Err e) => (p, Err e)
    end in
  let named name p := (declare name p, Ok name) in
  match e with
  | ENumber value _ _ => (p, Ok value)
  | EIdentifier id _ =>
      let name := dots_to_bars id in
      let p := declare name p in
      (match type_of id with Some (ty, true) => set_range name ty p | _ => p end, Ok name)
  | EBinaryOp lhs op rhs _ operand_ty =>
      let ty := or_else operand_ty (or_else (int_type e) expected) in
      two lhs ty rhs ty p (fun l r =>
        match bin_text op with
        | Some op => prover_wrap (binary_text op l r) ty
        | None => Err (TheOperator op)
        end)
  | ERelationalOp lhs op rhs _ operand_ty =>
      let side := or_else operand_ty (or_else (int_type lhs) (int_type rhs)) in
      two lhs side rhs side p (fun l r => Ok (binary_text (rel_text op) l r))
  | ELogicalOp lhs op rhs _ => two lhs None rhs None p (fun l r => Ok (binary_text (log_text op) l r))
  | EUnaryOp op e _ =>
      let inner_expected := match op with Neg => expected | _ => None end in
      match lower_expr e inner_expected p with
      | (p, Ok inner) =>
          (p, match op with
              | Not => Ok ("(not " +:+ inner +:+ ")")
              | Neg => match e with
                       | ENumber _ _ _ => Ok ("(- " +:+ inner +:+ ")")
                       | _ => prover_wrap ("(- " +:+ inner +:+ ")") (or_else (int_type e) expected)
                       end
              | Try => Err TheTryOperator
              end)
      | (p, Err e) => (p, Err e)
      end
  | EMemberAccess base member _ =>
      match lower_expr base None p with
      | (p, Ok base) => named ("|" +:+ remove_bars base +:+ "." +:+ member +:+ "|") p
      | (p, Err e) => (p, Err e)
      end
  | EIndexAccess base index _ =>
      match lower_expr base None p with
      | (p, Ok base) =>
          match lower_expr index None p with
          | (p, Ok index) => named ("|" +:+ remove_bars base +:+ "[" +:+ remove_bars index +:+ "]|") p
          | (p, Err e) => (p, Err e)
          end
      | (p, Err e) => (p, Err e)
      end
  | ETopology t _ => named (topology_name t) p
  | EEnumVariant enum_name variant_name _ _ => named (enum_name +:+ "_" +:+ variant_name) p
  | EAsCast c target_ty source_ty _ =>
      if keeps_every_value target_ty source_ty then lower_expr c (fst <$> cast_int_types target_ty source_ty) p
      else (p, Err (AnExpression e))
  | _ => (p, Err (AnExpression e))
  end.

Definition add_smt (smt : string) (p : SmtProver) : SmtProver :=
  mkProver (pv_assertions p ++ [smt]) (pv_declarations p) (pv_ranges p).

Definition add_constraint (e : PExpr) (p : SmtProver) : SmtProver * result unit ProverError :=
  match lower_expr e None p with
  | (p, Ok smt) => (add_smt smt p, Ok tt)
  | (p, Err e) => (p, Err e)
  end.

Definition lower_term (e : PExpr) (p : SmtProver) : SmtProver * result string ProverError := lower_expr e None p.
End lower.

Definition has_fact (smt : string) (p : SmtProver) : bool := bool_decide (smt ∈ pv_assertions p).

(** ** The script *)

Definition nl_ : string := String "010" "".

Definition prover_script `{HashOrder} (p : SmtProver) : string :=
  "(set-logic QF_LIA)" +:+ nl_ +:+
  foldr (fun d t =>
    "(declare-const " +:+ d.1 +:+ " Int)" +:+ nl_ +:+
    match pv_ranges p !! d.1 ≫= int_range with
    | Some (lo, hi) => "(assert (<= " +:+ lo +:+ " " +:+ d.1 +:+ " " +:+ hi +:+ "))" +:+ nl_
    | None => ""
    end +:+ t) "" (iter (pv_declarations p)) +:+
  foldr (fun a t => "(assert " +:+ a +:+ ")" +:+ nl_ +:+ t) "" (pv_assertions p) +:+
  "(check-sat)" +:+ nl_.

Inductive SolverError : Type := CannotRun | UnexpectedOutput (lines : list string).

(** [SmtProver::prove]: whether the facts can hold together. *)
Definition prover_prove `{HashOrder} `{Z3} (p : SmtProver) : result bool SolverError :=
  match z3 (prover_script p) with
  | None => Err CannotRun
  | Some lines =>
      if decide ("sat" ∈ lines) then Ok true
      else if decide ("unsat" ∈ lines) then Ok false
      else Err (UnexpectedOutput lines)
  end.

(** ** Expressions the prover models *)

Fixpoint without_borrow (e : PExpr) : PExpr := match e with EBorrow e _ _ => without_borrow e | _ => e end.

(** [is_modelled]; of an argument, the expression behind its [&] ([without_borrow]). *)
Fixpoint modelled (argument : bool) (e : PExpr) : bool :=
  match e with
  | ENumber _ _ _ | EIdentifier _ _ => true
  | EFunctionCall _ args _ => forallb (modelled true) args
  | EAsCast c target_ty source_ty _ => keeps_every_value target_ty source_ty && modelled false c
  | EBinaryOp lhs op rhs _ _ => match op with Add | Sub | Mul => true | _ => false end && modelled false lhs && modelled false rhs
  | ERelationalOp lhs _ rhs _ _ | ELogicalOp lhs _ rhs _ => modelled false lhs && modelled false rhs
  | EUnaryOp _ e _ | EMemberAccess e _ _ => modelled false e
  | EIndexAccess base index _ => modelled false base && modelled false index
  | EBorrow e _ _ => argument && modelled true e
  | _ => false
  end.
Definition is_modelled (e : PExpr) : bool := modelled false e.

Fixpoint substitute_names (names : gmap Symbol PExpr) (e : PExpr) : PExpr :=
  let sub := substitute_names names in
  match e with
  | EIdentifier name _ => default e (names !! name)
  | EBinaryOp lhs op rhs span ty => EBinaryOp (sub lhs) op (sub rhs) span ty
  | ERelationalOp lhs op rhs span ty => ERelationalOp (sub lhs) op (sub rhs) span ty
  | ELogicalOp lhs op rhs span => ELogicalOp (sub lhs) op (sub rhs) span
  | EUnaryOp op e span => EUnaryOp op (sub e) span
  | EMemberAccess base member span => EMemberAccess (sub base) member span
  | EIndexAccess base index span => EIndexAccess (sub base) (sub index) span
  | _ => e
  end.

Definition negate (e : PExpr) : PExpr := EUnaryOp Not e Span_default.

Definition number_expr (v : Symbol) : PExpr := ENumber v None Span_default.
Definition unreachable_fact : PExpr := ERelationalOp (number_expr "0") REq (number_expr "1") Span_default None.
Definition no_fact : PExpr := ERelationalOp (number_expr "0") REq (number_expr "0") Span_default None.

Fixpoint expr_mentions (e : PExpr) (name : Symbol) : bool :=
  let m e := expr_mentions e name in
  match e with
  | EIdentifier id _ => bool_decide (id = name)
  | ENumber _ _ _ | EStringLiteral _ _ | EMemorySpace _ _ | ETopology _ _ => false
  | EEnumVariant _ _ payload _ => match payload with Some es => existsb m es | None => false end
  | EFunctionCall _ args _ => existsb m args
  | EBinaryOp lhs _ rhs _ _ | ERelationalOp lhs _ rhs _ _ | ELogicalOp lhs _ rhs _ => m lhs || m rhs
  | EUnaryOp _ e _ | EBorrow e _ _ | EDereference e _ | EMemberAccess e _ _ | EAsCast e _ _ _ => m e
  | EIndexAccess base index _ => m base || m index
  | ERange start end_ _ => m start || m end_
  | _ => true
  end.

Fixpoint prover_expressible (e : PExpr) : bool :=
  match e with
  | ENumber _ _ _ | EIdentifier _ _ | EEnumVariant _ _ _ _ | ETopology _ _ => true
  | EBinaryOp lhs _ rhs _ _ | ERelationalOp lhs _ rhs _ _ | ELogicalOp lhs _ rhs _ => prover_expressible lhs && prover_expressible rhs
  | EUnaryOp _ e _ => prover_expressible e
  | EMemberAccess _ _ _ | EIndexAccess _ _ _ => true
  | _ => false
  end.

(** ** Clauses that the prover reads *)

Definition is_call_of (names : list Symbol) (e : PExpr) : bool :=
  match e with EFunctionCall name _ _ => bool_decide (name ∈ names) | _ => false end.

Definition BORROW_FUNCTIONS : list Symbol := ["keeps"; "points_into"; "reaches"].
Definition POINTER_FUNCTIONS : list Symbol := ["valid"; "initialized"; "overlaps"].
Definition FREES : Symbol := "frees".

Definition is_access_clause (e : PExpr) : bool := is_call_of ["atomic"; "reads_only"; "writes_only"] e.

(** The position of the first call in the order of the visit. *)
Definition first_call (names : list Symbol) (e : PExpr) : option Span :=
  PExpr_span <$> head (filter (fun e => is_call_of names e = true) (visit_expr e)).
Definition mentions_borrow_function (e : PExpr) : bool := bool_decide (is_Some (first_call BORROW_FUNCTIONS e)).
Definition first_pointer_call (e : PExpr) : option Span := first_call POINTER_FUNCTIONS e.
Definition first_frees_call (e : PExpr) : option Span := first_call [FREES] e.

Definition is_prover_clause (e : PExpr) : bool :=
  negb (is_access_clause e) && negb (mentions_borrow_function e) && bool_decide (first_pointer_call e = None) &&
  bool_decide (first_frees_call e = None).

(** ** The checker's facts *)

Record Fn : Type := mkFn { fn_params : list Symbol; fn_ensures : list PExpr }.

(** What the checker knows where it proves.  The innermost scope is first in [ck_scopes], and so is the innermost call in
    [ck_change_frames]: what its check found changed, and whether only the memory behind the name did. *)
Record Checker : Type := mkChecker {
  ck_constraints : list PExpr;
  ck_functions : gmap Symbol Fn;
  ck_mono : list (Symbol * Fn);
  ck_return_type : option Ty;
  ck_scopes : list (gmap Symbol Ty);
  ck_params : gmap Symbol Ty;
  ck_declared_vars : list Symbol;
  ck_old_values : list ElementType;
  ck_change_frames : list (list (Symbol * bool));
}.

Definition with_constraints x c :=
  mkChecker x (ck_functions c) (ck_mono c) (ck_return_type c) (ck_scopes c) (ck_params c) (ck_declared_vars c) (ck_old_values c) (ck_change_frames c).
Definition with_old_values x c :=
  mkChecker (ck_constraints c) (ck_functions c) (ck_mono c) (ck_return_type c) (ck_scopes c) (ck_params c) (ck_declared_vars c) x (ck_change_frames c).
Definition with_change_frames x c :=
  mkChecker (ck_constraints c) (ck_functions c) (ck_mono c) (ck_return_type c) (ck_scopes c) (ck_params c) (ck_declared_vars c) (ck_old_values c) x.

Definition ident (name : Symbol) : PExpr := EIdentifier name Span_default.

Definition call_name (n : nat) : Symbol := "$call_" +:+ u_to_string 20 (Z.of_nat n) "".
Definition old_name (n : nat) : Symbol := "$old_" +:+ u_to_string 20 (Z.of_nat n) "".

(** A [HashMap] collected from pairs: the last value of a key stays. *)
Definition collect {V} (l : list (Symbol * V)) : gmap Symbol V := foldl (fun m kv => <[kv.1 := kv.2]> m) ∅ l.

Section checker.
Context (ck : Checker).

Definition find_callee (name : Symbol) : option Fn :=
  or_else (ck_functions ck !! name) (snd <$> head (filter (fun f => f.1 = name) (ck_mono ck))).

(** The facts that the callee's [ensures] give for a call with these arguments and this result. *)
Definition ensures_facts (name : Symbol) (args : list PExpr) (result : PExpr) : list PExpr :=
  match find_callee name with
  | Some func =>
      let names := <["return" := result]> (collect (zip (fn_params func) args)) in
      substitute_names names <$> filter (fun e => is_prover_clause e = true) (fn_ensures func)
  | None => []
  end.

(** [abstract_calls]; of an argument, the expression behind its [&]. *)
Fixpoint abstract_in (argument : bool) (e : PExpr) (st : nat * list PExpr) : PExpr * (nat * list PExpr) :=
  let sub := abstract_in false in
  let two lhs rhs st (k : PExpr -> PExpr -> PExpr) := let (lhs, st) := sub lhs st in let (rhs, st) := sub rhs st in (k lhs rhs, st) in
  match e with
  | EFunctionCall name args span =>
      let '(args, (calls, facts)) :=
        (fix all es st := match es with [] => ([], st) | a :: es => let (a, st) := abstract_in true a st in let (es, st) := all es st in (a :: es, st) end)
          args st in
      let result := EIdentifier (call_name calls) span in
      (result, (S calls, facts ++ ensures_facts name args result))
  | EBinaryOp lhs op rhs span ty => two lhs rhs st (fun lhs rhs => EBinaryOp lhs op rhs span ty)
  | ERelationalOp lhs op rhs span ty => two lhs rhs st (fun lhs rhs => ERelationalOp lhs op rhs span ty)
  | ELogicalOp lhs op rhs span => two lhs rhs st (fun lhs rhs => ELogicalOp lhs op rhs span)
  | EUnaryOp op e span => let (e, st) := sub e st in (EUnaryOp op e span, st)
  | EAsCast e target_ty source_ty span => let (e, st) := sub e st in (EAsCast e target_ty source_ty span, st)
  | EBorrow b _ _ => if argument then abstract_in true b st else (e, st)
  | _ => (e, st)
  end.
Definition abstract_calls (e : PExpr) (st : nat * list PExpr) : PExpr * (nat * list PExpr) := abstract_in false e st.

Fixpoint abstract_all (es : list PExpr) (st : nat * list PExpr) : list PExpr * (nat * list PExpr) :=
  match es with [] => ([], st) | e :: es => let (e, st) := abstract_calls e st in let (es, st) := abstract_all es st in (e :: es, st) end.

Definition lookup (name : Symbol) : option Ty := head (omap (fun scope => scope !! name) (ck_scopes ck)).

Fixpoint strip_prefix (p s : string) : option string :=
  match p, s with
  | EmptyString, _ => Some s
  | String c p, String d s => if Ascii.eqb c d then strip_prefix p s else None
  | _, _ => None
  end.

Definition scalar_int (ty : Ty) : option ElementType :=
  match ty with Scalar e => if bool_decide (is_Some (int_bits e)) && negb (bool_decide (e = Bool)) then Some e else None | _ => None end.

(** [prover_int_type]; it panics on a [$old_N] that was not given out. *)
Definition prover_int_type (n : Symbol) : outcome (option (ElementType * bool)) :=
  match strip_prefix "$old_" n with
  | Some old =>
      match i ← parse_uint 64 old; ck_old_values ck !! Z.to_nat i with
      | Some int => Returns (Some (int, true))
      | None => Panics
      end
  | None =>
      Returns (if decide (n = "return") then ty ← ck_return_type ck; (., false) <$> scalar_int ty
               else ty ← lookup n;
                    let ranged := match ck_params ck !! n with Some p => Ty_eqb p ty | None => false end &&
                                  negb (bool_decide (n ∈ ck_declared_vars ck)) in
                    (., ranged) <$> scalar_int ty)
  end.
Definition type_of_name (n : Symbol) : option (ElementType * bool) := match prover_int_type n with Returns o => o | Panics => None end.

(** The facts that the prover can express are added, in order. *)
Fixpoint add_constraints (es : list PExpr) (p : SmtProver) : SmtProver :=
  match es with [] => p | e :: es => add_constraints es (add_constraint type_of_name e p).1 end.

Definition prove_expr `{HashOrder} `{Z3} (expr : PExpr) : bool :=
  let '(constraints, st) := abstract_all (ck_constraints ck) (0%nat, []) in
  let '(goal, (_, facts)) := abstract_calls expr st in
  let p := add_constraints (constraints ++ facts) SmtProver_new in
  let '(p, term) := lower_term type_of_name goal p in
  if match term with Ok smt => has_fact smt p | Err _ => false end then true
  else match add_constraint type_of_name (negate goal) p with
       | (p, Ok _) => match prover_prove p with Ok is_sat => negb is_sat | Err _ => false end
       | (_, Err _) => false
       end.
End checker.

(** ** Exact goals *)

Inductive Exact : Type :=
| XTerm (e : PExpr)
| XSum (ts : list Exact)
| XLe (a b : Exact)
| XAnd (gs : list Exact)
| XOr (gs : list Exact).

Section exact.
Context (ck : Checker).

(** The state: the prover, the number of calls and the facts about them. *)
Definition exact_state : Type := SmtProver * (nat * list PExpr).

Fixpoint lower_exact (g : Exact) (st : exact_state) : option string * exact_state :=
  let all gs op empty st :=
    let '(parts, st) :=
      (fix go gs st := match gs with
         | [] => (Some [], st)
         | g :: gs => match lower_exact g st with
                      | (Some x, st) => let (xs, st) := go gs st in (cons x <$> xs, st)
                      | (None, st) => (None, st)
                      end
         end) gs st in
    (match parts with Some [] => Some empty | Some parts => Some ("(" +:+ op +:+ " " +:+ spaced parts +:+ ")") | None => None end, st) in
  match g with
  | XTerm e =>
      let (p, cf) := st in
      let (e, cf) := abstract_calls ck e cf in
      let (p, r) := lower_term (type_of_name ck) e p in
      (match r with Ok s => Some s | Err _ => None end, (p, cf))
  | XSum ts => all ts "+ 0" "0" st
  | XAnd gs => all gs "and" "true" st
  | XOr gs => all gs "or" "false" st
  | XLe a b =>
      match lower_exact a st with
      | (Some a, st) =>
          match lower_exact b st with
          | (Some b, st) => (Some ("(<= " +:+ a +:+ " " +:+ b +:+ ")"), st)
          | (None, st) => (None, st)
          end
      | (None, st) => (None, st)
      end
  end.

Fixpoint holds_by_form (g : Exact) (st : exact_state) : bool * exact_state :=
  match g with
  | XAnd gs =>
      (fix go gs st := match gs with
         | [] => (true, st)
         | g :: gs => match holds_by_form g st with (true, st) => go gs st | (false, st) => (false, st) end
         end) gs st
  | XOr gs =>
      (fix go gs st := match gs with
         | [] => (false, st)
         | g :: gs => match holds_by_form g st with (true, st) => (true, st) | (false, st) => go gs st end
         end) gs st
  | XLe a b =>
      let (a, st) := lower_exact a st in
      let (b, st) := lower_exact b st in
      (match a, b with
       | Some a, Some b =>
           bool_decide (a = b) || bool_decide (a = "0") && (has_fact ("(>= " +:+ b +:+ " 0)") st.1 || has_fact ("(<= 0 " +:+ b +:+ ")") st.1)
       | _, _ => false
       end, st)
  | XTerm _ | XSum _ => (false, st)
  end.

Definition prove_exact `{HashOrder} `{Z3} (g : Exact) : bool :=
  let '(constraints, cf) := abstract_all ck (ck_constraints ck) (0%nat, []) in
  let '(smt, (p, cf)) := lower_exact g (SmtProver_new, cf) in
  let p := add_constraints ck (constraints ++ cf.2) p in
  match smt with
  | None => false
  | Some smt =>
      let '(by_form, (p, _)) := holds_by_form g (p, cf) in
      if by_form then true
      else match prover_prove (add_smt ("(not " +:+ smt +:+ ")") p) with Ok false => true | _ => false end
  end.
End exact.

(** ** Assignments *)

Definition forget_value_facts_about (name : Symbol) (ck : Checker) : Checker :=
  with_constraints ((fun c => if expr_mentions c name then no_fact else c) <$> ck_constraints ck) ck.

Definition rename_fact (x : Symbol) (names : gmap Symbol PExpr) (c : PExpr) : PExpr :=
  if expr_mentions c x then let c := substitute_names names c in if expr_mentions c x then no_fact else c else c.

Definition name_the_old_value (place : PExpr) (ty : Ty) (ck : Checker) : option (gmap Symbol PExpr) * Checker :=
  match place, scalar_int ty with
  | EIdentifier x _, Some int =>
      if negb (bool_decide (ck_change_frames ck = [])) then (None, ck)
      else
        let names := {[ x := ident (old_name (length (ck_old_values ck))) ]} in
        (Some names,
         with_constraints (rename_fact x names <$> ck_constraints ck) (with_old_values (ck_old_values ck ++ [int]) ck))
  | _, _ => (None, ck)
  end.

Definition fact_of_an_assignment (place value : PExpr) (names : gmap Symbol PExpr) : option PExpr :=
  if is_modelled value then Some (ERelationalOp place REq (substitute_names names value) Span_default None) else None.

Fixpoint assigned_root (place : PExpr) : option Symbol :=
  match place with
  | EIdentifier name _ => Some name
  | EIndexAccess base _ _ | EMemberAccess base _ _ => assigned_root base
  | EDereference e _ => assigned_root e
  | _ => None
  end.

(** [note_a_change_to_variable], and [note_a_change_behind] for [behind]: inside a call the facts end after its check. *)
Definition note_a_change (root : Symbol) (behind : bool) (ck : Checker) : Checker :=
  match ck_change_frames ck with
  | frame :: frames => with_change_frames ((frame ++ [(root, behind)]) :: frames) ck
  | [] => forget_value_facts_about root ck
  end.

(** The start and the end of [check_a_call_that_can_change_facts]: the facts that the call can change end after it; [written]
    are the arguments that the callee can write through.  A method call collects the changes of the call it becomes. *)
Definition enter_call (ck : Checker) : Checker := with_change_frames ([] :: ck_change_frames ck) ck.
Definition leave_call (written : list Symbol) (ck : Checker) : Checker :=
  let changes := default [] (head (ck_change_frames ck)) ++ ((., true) <$> written) in
  foldl (fun ck change => forget_value_facts_about change.1 ck) (with_change_frames (tail (ck_change_frames ck)) ck) changes.
Definition leave_call_of_method (ck : Checker) : outcome Checker :=
  match ck_change_frames ck with
  | changed :: frame :: frames => Returns (with_change_frames ((frame ++ changed) :: frames) ck)
  | _ => Panics
  end.

(** What an assignment to [place] of type [ty] does to the facts; [assigned] is the value, [place op rhs] for [place op= rhs]. *)
Definition assign_facts (place : PExpr) (ty : Ty) (assigned : PExpr) (ck : Checker) : Checker :=
  let '(renamed, ck) := name_the_old_value place ty ck in
  let through_a_pointer root :=
    match place with EIdentifier _ _ => false | _ => match lookup ck root with Some (Pointer _ _ _) => true | _ => false end end in
  let ck :=
    match assigned_root place with
    | Some root => if through_a_pointer root then note_a_change root true ck
                   else match renamed with Some _ => ck | None => note_a_change root false ck end
    | None => ck
    end in
  with_constraints (ck_constraints ck ++ opt_list (names ← renamed; fact_of_an_assignment place assigned names)) ck.
