(* ===== verification/ProverSound.v ===== *)
(** * The contract prover is sound

    The text that the prover writes for an expression means, in SMT, what the
    machine computes: integers that wrap at their width.  So when a solver that
    tells the truth says that the facts and the negated goal cannot hold
    together, the goal holds in every state in which the facts do. *)

From stdpp Require Import base functions list strings gmap.
From Stdlib Require Import ZArith Lia Ascii.
From S2P Require Import Prelude Syntax Types Program Smt Prover.
Open Scope Z_scope.
Open Scope vx_scope.

(** ** Characters of texts *)

Lemma all_chars_app p a b : all_chars p (a +:+ b) = all_chars p a && all_chars p b.
Proof. induction a as [|c a IH]; [done|]. rewrite append_cons. cbn. by rewrite IH, andb_assoc. Qed.

Lemma remove_bars_chars p s : all_chars p s = true -> all_chars (fun c => not_bar c && p c) (remove_bars s) = true.
Proof.
  induction s as [|c s IH]; [done|]. cbn. rewrite andb_true_iff. intros [Hc Hs]. destruct (Ascii.eqb c bar) eqn:E; [by apply IH|].
  cbn. unfold not_bar at 1. rewrite E, Hc. cbn. by apply IH.
Qed.

Lemma remove_bars_id s : all_chars not_bar s = true -> remove_bars s = s.
Proof.
  induction s as [|c s IH]; [done|]. cbn. unfold not_bar at 1. rewrite andb_true_iff, negb_true_iff. intros [-> Hs]. by rewrite IH.
Qed.

Lemma remove_bars_app a b : remove_bars (a +:+ b) = remove_bars a +:+ remove_bars b.
Proof. induction a as [|c a IH]; [done|]. rewrite append_cons. cbn. rewrite IH. by destruct (Ascii.eqb c bar). Qed.

(** Text without a backslash, as a quoted symbol may hold. *)
Definition no_backslash (c : ascii) : bool := negb (Ascii.eqb c backslash).
Definition text_ok (s : string) : bool := all_chars no_backslash s.

Definition quoted_char (c : ascii) : bool := not_bar c && negb (Ascii.eqb c backslash).

Lemma remove_bars_quoted s : text_ok s = true -> all_chars quoted_char (remove_bars s) = true.
Proof. exact (remove_bars_chars no_backslash s). Qed.

(** The characters of a name of the program: those of a simple symbol but for the dot. *)
Definition name_char (c : ascii) : bool := symbol_char c && negb (Ascii.eqb c ".").

Lemma symbol_char_plain c : symbol_char c = true -> plain_char c = true /\ no_backslash c = true /\ Ascii.eqb c "[" = false /\ Ascii.eqb c bar = false /\ Ascii.eqb c "#" = false.
Proof. destruct c as [[] [] [] [] [] [] [] []]; vm_compute; try done; try (intros [=]). Qed.

(** The two kinds of names the prover declares. *)
Definition simple_name (w : string) : Prop := legal_symbol w /\ all_chars name_char w = true.
Definition quoted_name (w : string) : Prop :=
  exists y, w = String bar "" +:+ y +:+ String bar "" /\ all_chars quoted_char y = true /\ all_chars name_char y = false.
Definition name_ok (w : string) : Prop := simple_name w \/ quoted_name w.

Lemma simple_name_unquoted w : simple_name w -> is_quoted w = false /\ symbol_of w = w.
Proof.
  intros [_ H]. destruct w as [|c w]; [done|]. cbn in H. apply andb_true_iff in H as [Hc _]. apply andb_true_iff in Hc as [Hc _].
  destruct (symbol_char_plain c Hc) as (_ & _ & _ & E & _). unfold symbol_of. cbn. by rewrite E.
Qed.

Lemma quoted_symbol y : all_chars quoted_char y = true -> symbol_of (String bar "" +:+ y +:+ String bar "") = y.
Proof.
  intros H. assert (all_chars not_bar y = true) as Hy. { eapply all_chars_impl; [|exact H]. intros c [Hc _]%andb_true_iff. done. }
  unfold symbol_of. cbn -[remove_bars]. change (remove_bars (String bar (y +:+ String bar "")) = y). cbn.
  by rewrite remove_bars_app, remove_bars_id, append_nil_r.
Qed.

Lemma name_legal w : name_ok w -> legal_symbol w.
Proof.
  intros [[H _]|(y & -> & H & _)]; [done|]. cbn. exists y. split; [done|]. exact H.
Qed.

Lemma name_word w : name_ok w -> word_ok w.
Proof.
  intros [[L H]|(y & -> & H & _)].
  - left. split; [by destruct w|]. eapply all_chars_impl; [|exact H]. intros c [Hc _]%andb_true_iff. by apply symbol_char_plain.
  - right. exists y. split; [done|]. eapply all_chars_impl; [|exact H]. by intros c [Hc _]%andb_true_iff.
Qed.

Lemma name_not_literal w : name_ok w -> literal w = None.
Proof.
  intros [[L H]|(y & -> & _)]; [|done]. destruct w as [|c w]; [done|]. unfold legal_symbol in L.
  cbn in H. apply andb_true_iff in H as [Hc _]. apply andb_true_iff in Hc as [Hc _].
  destruct (symbol_char_plain c Hc) as (_ & _ & _ & Eb & Eh). rewrite Eb in L. destruct L as (_ & Ed & Hr).
  unfold literal. rewrite !decide_False by (intros E; apply Hr; rewrite E; set_solver).
  assert (all_digits (String c w) = false) as -> by (cbn; by rewrite Ed). rewrite andb_false_r.
  destruct c as [[] [] [] [] [] [] [] []]; try done.
Qed.

Lemma symbol_of_inj w w' : name_ok w -> name_ok w' -> symbol_of w = symbol_of w' -> w = w'.
Proof.
  intros [H|(y & -> & Hy & Ny)] [H'|(y' & -> & Hy' & Ny')].
  - by rewrite (proj2 (simple_name_unquoted w H)), (proj2 (simple_name_unquoted w' H')).
  - rewrite (proj2 (simple_name_unquoted w H)), quoted_symbol by done. intros ->. destruct H as [_ H]. congruence.
  - rewrite (proj2 (simple_name_unquoted w' H')), quoted_symbol by done. intros ->. destruct H' as [_ H']. congruence.
  - rewrite !quoted_symbol by done. by intros ->.
Qed.

Lemma name_text_ok w : name_ok w -> text_ok w = true.
Proof.
  intros [[_ H]|(y & -> & H & _)].
  - eapply all_chars_impl; [|exact H]. intros c [Hc _]%andb_true_iff. by apply symbol_char_plain.
  - unfold text_ok. rewrite !all_chars_app. cbn. rewrite andb_true_r. eapply all_chars_impl; [|exact H]. by intros c [_ Hc]%andb_true_iff.
Qed.

(** [|base.member|] and [|base[index]|]. *)
Lemma member_name base member : text_ok base = true -> all_chars name_char member = true ->
  name_ok ("|" +:+ remove_bars base +:+ "." +:+ member +:+ "|").
Proof.
  intros Hb Hm. right. exists (remove_bars base +:+ "." +:+ member). split_and!.
  - by rewrite !append_assoc.
  - rewrite !all_chars_app. rewrite (remove_bars_quoted _ Hb). cbn. eapply all_chars_impl; [|exact Hm]. intros c [Hc _]%andb_true_iff.
    destruct (symbol_char_plain c Hc) as (_ & H2 & _ & H4 & _). unfold quoted_char, not_bar. by rewrite H4.
  - rewrite !all_chars_app. cbn. by rewrite andb_false_r.
Qed.

Lemma index_name base index : text_ok base = true -> text_ok index = true ->
  name_ok ("|" +:+ remove_bars base +:+ "[" +:+ remove_bars index +:+ "]|").
Proof.
  intros Hb Hi. right. exists (remove_bars base +:+ "[" +:+ remove_bars index +:+ "]"). split_and!.
  - by rewrite !append_assoc.
  - rewrite !all_chars_app. rewrite (remove_bars_quoted _ Hb), (remove_bars_quoted _ Hi). done.
  - rewrite !all_chars_app. cbn. by rewrite andb_false_r.
Qed.

(** ** What the machine computes *)

(** The result of an operation at an integer type.  A [usize] operation that overflows stops the program. *)
Definition machine (t : ElementType) (z : Z) : option Z :=
  if decide (t = USize) then if (0 <=? z) && (z <=? imax 64) then Some z else None
  else match bits_not_bool t with
       | Some b => Some (if is_signed_int t then wrap_i b z else wrap_u b z)
       | None => None
       end.

Definition bin_op (op : BinaryOp) (x y : Z) : option Z :=
  match op with Add => Some (x + y) | Sub => Some (x - y) | Mul => Some (x * y) | _ => None end.
Definition rel_op (op : RelationalOp) (x y : Z) : bool :=
  match op with REq => x =? y | RNotEq => negb (x =? y) | RLt => x <? y | RLe => x <=? y | RGt => x >? y | RGe => x >=? y end.
Definition log_op (op : LogicalOp) (x y : bool) : bool := match op with LAnd => x && y | LOr => x || y end.

(** Variables, fields, elements, variants and topologies: what the state gives a value. *)
Definition is_place (e : PExpr) : bool :=
  match e with EIdentifier _ _ | EMemberAccess _ _ _ | EIndexAccess _ _ _ | EEnumVariant _ _ _ _ | ETopology _ _ => true | _ => false end.

Section semantics.
Context (type_of : Symbol -> option (ElementType * bool)) (rho : PExpr -> Z).

(** The value of an expression of the integer type [t]; a call has the value that it returned. *)
Fixpoint ev (t : ElementType) (e : PExpr) : option Z :=
  match e with
  | ENumber v _ _ => Some (dec_value v)
  | EIdentifier _ _ | EMemberAccess _ _ _ | EIndexAccess _ _ _ | EEnumVariant _ _ _ _ | ETopology _ _ | EFunctionCall _ _ _ => Some (rho e)
  | EBinaryOp a op b _ _ => x ← ev t a; y ← ev t b; z ← bin_op op x y; machine t z
  | EUnaryOp Neg e _ => x ← ev t e; match e with ENumber _ _ _ => Some (- x) | _ => machine t (- x) end
  | EAsCast c target_ty source_ty _ =>
      if keeps_every_value target_ty source_ty then match cast_int_types target_ty source_ty with Some (from, _) => ev from c | None => None end
      else None
  | _ => None
  end.

(** The expression has the integer type [t], and what the prover knows of its names agrees. *)
Fixpoint typed (e : PExpr) (t : ElementType) : Prop :=
  match e with
  | ENumber _ ty _ => ty = None \/ ty = Some t
  | EIdentifier n _ => forall t' r, type_of n = Some (t', r) -> t' = t
  | EMemberAccess _ _ _ | EIndexAccess _ _ _ | EEnumVariant _ _ _ _ | ETopology _ _ | EFunctionCall _ _ _ => True
  | EBinaryOp a _ b _ ty => (ty = None \/ ty = Some t) /\ typed a t /\ typed b t
  | EUnaryOp Neg e _ => typed e t
  | EAsCast c target_ty source_ty _ => exists from, cast_int_types target_ty source_ty = Some (from, t) /\ typed c from
  | _ => False
  end.

Definition int_elem (t : ElementType) : Prop := is_Some (bits_not_bool t).

(** A condition has a truth value. *)
Inductive holds : PExpr -> bool -> Prop :=
| holds_rel a op b span ty t x y : ty = None \/ ty = Some t -> int_elem t -> typed a t -> typed b t -> ev t a = Some x -> ev t b = Some y ->
    holds (ERelationalOp a op b span ty) (rel_op op x y)
| holds_log a op b span x y : holds a x -> holds b y -> holds (ELogicalOp a op b span) (log_op op x y)
| holds_not e span x : holds e x -> holds (EUnaryOp Not e span) (negb x).

(** ** Names that SMT can write *)

Definition enum_symbol (a b : Symbol) : string := a +:+ "_" +:+ b.

Fixpoint legal_names (e : PExpr) : Prop :=
  match e with
  | ENumber v _ _ => v <> "" /\ all_digits v = true
  | EIdentifier n _ => simple_name (dots_to_bars n)
  | EEnumVariant a b _ _ => simple_name (enum_symbol a b)
  | ETopology t _ => simple_name (topology_name t)
  | EMemberAccess base m _ => legal_names base /\ all_chars name_char m = true
  | EIndexAccess a b _ | EBinaryOp a _ b _ _ | ERelationalOp a _ b _ _ | ELogicalOp a _ b _ => legal_names a /\ legal_names b
  | EUnaryOp _ e _ | EAsCast e _ _ _ => legal_names e
  | _ => True
  end.
End semantics.

(** ** Terms *)

Definition declares (decls : gmap string unit) (nu : string -> option value) : Prop :=
  forall w, is_Some (decls !! w) -> exists z, nu (symbol_of w) = Some (VInt z).

Section terms.
Context (val : string -> Z).

(** The assignment of the state. *)
Definition nu0 (n : string) : option value := Some (VInt (val n)).

Lemma nu0_declares decls : declares decls nu0.
Proof. intros w _. by eexists. Qed.

(** The text is a term over the declared names, and its value in the state is [v]. *)
Definition term (mk : value -> Prop) (decls : gmap string unit) (s : string) (v : option value) : Prop :=
  exists sx, s = show sx /\ sexp_ok sx /\ (forall nu, declares decls nu -> exists x, eval nu sx = Some x /\ mk x) /\
    forall x, v = Some x -> eval nu0 sx = Some x.

Definition is_int (v : value) : Prop := exists z, v = VInt z.
Definition is_bool (v : value) : Prop := exists b, v = VBool b.
Definition int_term decls s (v : option Z) : Prop := term is_int decls s (VInt <$> v).
Definition bool_term decls s (b : option bool) : Prop := term is_bool decls s (VBool <$> b).

Lemma term_grows mk decls decls' s v : decls ⊆ decls' -> term mk decls s v -> term mk decls' s v.
Proof.
  intros H (sx & E & Ok & All & V). exists sx. split_and!; [done|done| |done]. intros nu Hnu. apply All. intros w [[] Hw]. apply Hnu.
  exists tt. by eapply lookup_weaken.
Qed.

(** An operation applied to terms. *)
Lemma term_app1 mk mk' decls op a va f : word_ok op -> term mk decls a va -> (forall x, mk x -> exists y, apply_op op [x] = Some y /\ mk' y) ->
  (forall x, va = Some x -> apply_op op [x] = f x) -> term mk' decls ("(" +:+ op +:+ " " +:+ a +:+ ")") (x ← va; f x).
Proof.
  intros Hop (sx & -> & Ok & All & V) Hs Hf. exists (Form [Word op; sx]). split_and!.
  - cbn. by rewrite !append_assoc.
  - cbn. done.
  - intros nu Hnu. destruct (All nu Hnu) as (x & Ex & Mx). destruct (Hs x Mx) as (y & Ey & My). exists y. split; [|done]. cbn. by rewrite Ex.
  - intros y. destruct va as [x|]; [|done]. intros Hy. cbn in Hy. cbn. rewrite (V x eq_refl). cbn. by rewrite (Hf x eq_refl).
Qed.

Lemma term_app2 mk mk2 mk' decls op a b va vb f : word_ok op -> term mk decls a va -> term mk2 decls b vb ->
  (forall x y, mk x -> mk2 y -> exists z, apply_op op [x; y] = Some z /\ mk' z) ->
  (forall x y, va = Some x -> vb = Some y -> apply_op op [x; y] = f x y) ->
  term mk' decls (binary_text op a b) (x ← va; y ← vb; f x y).
Proof.
  intros Hop (sx & -> & Ok & All & V) (sy & -> & Ok' & All' & V') Hs Hf. exists (Form [Word op; sx; sy]). split_and!.
  - unfold binary_text. cbn. by rewrite !append_assoc.
  - cbn. done.
  - intros nu Hnu. destruct (All nu Hnu) as (x & Ex & Mx). destruct (All' nu Hnu) as (y & Ey & My).
    destruct (Hs x y Mx My) as (z & Ez & Mz). exists z. split; [|done]. cbn. by rewrite Ex, Ey.
  - intros z. destruct va as [x|]; [|done]. destruct vb as [y|]; [|done]. intros Hz. cbn in Hz. cbn.
    rewrite (V x eq_refl), (V' y eq_refl). cbn. by rewrite (Hf x y eq_refl eq_refl).
Qed.

Ltac plain_word := left; split; [done|reflexivity].

Lemma digits_plain v : all_digits v = true -> all_chars plain_char v = true.
Proof.
  induction v as [|c v IH]; [done|]. cbn. rewrite !andb_true_iff. intros [Hc Hv]. split; [|by apply IH].
  destruct c as [[] [] [] [] [] [] [] []]; vm_compute in Hc; done.
Qed.

Lemma literal_digits v : v <> "" -> all_digits v = true -> literal v = Some (VInt (dec_value v)).
Proof.
  intros Hne Hd. unfold literal. rewrite !decide_False by (by intros ->). rewrite bool_decide_eq_false_2 by done. by rewrite Hd.
Qed.

Lemma number_term decls v : v <> "" -> all_digits v = true -> int_term decls v (Some (dec_value v)).
Proof.
  intros Hne Hd. pose proof (literal_digits v Hne Hd) as El.
  exists (Word v). split_and!; [done| | |].
  - left. split; [done|by apply digits_plain].
  - intros nu _. cbn. rewrite El. eexists. split; [done|]. by eexists.
  - intros x [= <-]. cbn. by rewrite El.
Qed.

Lemma name_term decls w x : name_ok w -> is_Some (decls !! w) -> val (symbol_of w) = x -> int_term decls w (Some x).
Proof.
  intros Hw Hd Hx. exists (Word w). split_and!; [done|by apply name_word| |].
  - intros nu Hnu. cbn. rewrite name_not_literal by done. destruct (Hnu w Hd) as [z Hz]. exists (VInt z). split; [done|]. by eexists.
  - intros y [= <-]. cbn. rewrite name_not_literal by done. unfold nu0. by rewrite Hx.
Qed.

Lemma bin_term decls op s l r x y : bin_text op = Some s -> int_term decls l x -> int_term decls r y ->
  int_term decls (binary_text s l r) (x ← x; y ← y; bin_op op x y).
Proof.
  intros Hs Hl Hr.
  assert (forall a b, exists z, apply_op s [VInt a; VInt b] = Some (VInt z) /\ bin_op op a b = Some z) as Hop.
  { intros a b. destruct op; try done; injection Hs as <-; eexists; (split; [reflexivity|]); cbn; f_equal; lia. }
  unfold int_term. replace (VInt <$> (x ← x; y ← y; bin_op op x y)) with (v ← VInt <$> x; w ← VInt <$> y; apply_op s [v; w]).
  - eapply term_app2; [|exact Hl|exact Hr| |done]; [destruct op; try done; injection Hs as <-; plain_word|].
    intros v w [a ->] [b ->]. destruct (Hop a b) as (z & -> & _). eexists. split; [done|]. by eexists.
  - destruct x as [x|]; [|done]. destruct y as [y|]; [|done]. cbn [mbind option_bind fmap option_fmap option_map]. by destruct (Hop x y) as (z & -> & ->).
Qed.

Lemma neg_term decls s x : int_term decls s x -> int_term decls ("(- " +:+ s +:+ ")") (Z.opp <$> x).
Proof.
  intros H. change ("(- " +:+ s +:+ ")") with ("(" +:+ "-" +:+ " " +:+ s +:+ ")"). unfold int_term.
  replace (VInt <$> (Z.opp <$> x)) with (v ← VInt <$> x; apply_op "-" [v]) by (by destruct x).
  eapply term_app1; [plain_word|exact H| |done]. intros v [a ->]. eexists. split; [done|]. by eexists.
Qed.

Lemma rel_term decls op l r x y : int_term decls l x -> int_term decls r y ->
  bool_term decls (binary_text (rel_text op) l r) (x ← x; y ← y; Some (rel_op op x y)).
Proof.
  intros Hl Hr.
  assert (forall a b, apply_op (rel_text op) [VInt a; VInt b] = Some (VBool (rel_op op a b))) as Hop.
  { intros a b. assert (bool_decide (VInt a = VInt b) = (a =? b)) as E.
    { destruct (Z.eqb_spec a b) as [->|Hne]; [by apply bool_decide_eq_true_2|apply bool_decide_eq_false_2; congruence]. }
    destruct op; cbn [rel_text rel_op].
    - change (Some (VBool (bool_decide (VInt a = VInt b))) = Some (VBool (a =? b))). by rewrite E.
    - change (Some (VBool (negb (bool_decide (VInt a = VInt b)))) = Some (VBool (negb (a =? b)))). by rewrite E.
    - change (Some (VBool ((a <? b) && true)) = Some (VBool (a <? b))). by rewrite andb_true_r.
    - change (Some (VBool ((a >? b) && true)) = Some (VBool (a >? b))). by rewrite andb_true_r.
    - change (Some (VBool ((a <=? b) && true)) = Some (VBool (a <=? b))). by rewrite andb_true_r.
    - change (Some (VBool ((a >=? b) && true)) = Some (VBool (a >=? b))). by rewrite andb_true_r. }
  unfold bool_term. replace (VBool <$> (x ← x; y ← y; Some (rel_op op x y))) with (v ← VInt <$> x; w ← VInt <$> y; apply_op (rel_text op) [v; w]).
  - eapply term_app2; [|exact Hl|exact Hr| |done]; [destruct op; plain_word|].
    intros v w [a ->] [b ->]. rewrite Hop. eexists. split; [done|]. by eexists.
  - destruct x as [x|]; [|done]. destruct y as [y|]; [|done]. cbn [mbind option_bind fmap option_fmap option_map]. by rewrite Hop.
Qed.

Lemma log_term decls op l r x y : bool_term decls l x -> bool_term decls r y ->
  bool_term decls (binary_text (log_text op) l r) (x ← x; y ← y; Some (log_op op x y)).
Proof.
  intros Hl Hr.
  assert (forall a b, apply_op (log_text op) [VBool a; VBool b] = Some (VBool (log_op op a b))) as Hop by (intros a b; by destruct op, a, b).
  unfold bool_term. replace (VBool <$> (x ← x; y ← y; Some (log_op op x y))) with (v ← VBool <$> x; w ← VBool <$> y; apply_op (log_text op) [v; w]).
  - eapply term_app2; [|exact Hl|exact Hr| |done]; [destruct op; plain_word|].
    intros v w [a ->] [b ->]. rewrite Hop. eexists. split; [done|]. by eexists.
  - destruct x as [x|]; [|done]. destruct y as [y|]; [|done]. cbn [mbind option_bind fmap option_fmap option_map]. by rewrite Hop.
Qed.

Lemma not_term decls s x : bool_term decls s x -> bool_term decls ("(not " +:+ s +:+ ")") (negb <$> x).
Proof.
  intros H. change ("(not " +:+ s +:+ ")") with ("(" +:+ "not" +:+ " " +:+ s +:+ ")"). unfold bool_term.
  replace (VBool <$> (negb <$> x)) with (v ← VBool <$> x; apply_op "not" [v]) by (by destruct x).
  eapply term_app1; [plain_word|exact H| |done]. intros v [a ->]. eexists. split; [done|]. by eexists.
Qed.

(** Powers of two *)

Lemma pow2_digits b : 0 <= b <= 128 -> pow2 b <> "" /\ all_digits (pow2 b) = true /\ dec_value (pow2 b) = 2 ^ b.
Proof.
  intros Hb. unfold pow2. destruct (u_to_string_spec 40 (2 ^ b) "") as (H1 & H2 & H3); [|done|].
  - split; [apply Z.pow_nonneg; lia|]. apply Z.le_lt_trans with (2 ^ 128); [apply Z.pow_le_mono_r; lia|done].
  - split_and!; [done|done|exact H3].
Qed.

Lemma pow2_term decls b : 0 <= b <= 128 -> int_term decls (pow2 b) (Some (2 ^ b)).
Proof. intros Hb. destruct (pow2_digits b Hb) as (H1 & H2 & <-). by apply number_term. Qed.

Lemma mod_term decls s x b : 0 <= b <= 128 -> int_term decls s x -> int_term decls (binary_text "mod" s (pow2 b)) ((fun x => x mod 2 ^ b) <$> x).
Proof.
  intros Hb (sx & -> & Ok & All & V). destruct (pow2_digits b Hb) as (P1 & P2 & P3).
  pose proof (literal_digits _ P1 P2) as El. rewrite P3 in El.
  assert (forall z, apply_op "mod" [VInt z; VInt (2 ^ b)] = Some (VInt (z mod 2 ^ b))) as Hop.
  { intros z. change (apply_op "mod" [VInt z; VInt (2 ^ b)]) with (if 0 <? 2 ^ b then Some (VInt (z mod 2 ^ b)) else None).
    assert (0 < 2 ^ b) as Hpos by (apply Z.pow_pos_nonneg; lia). by destruct (Z.ltb_spec 0 (2 ^ b)); [|lia]. }
  exists (Form [Word "mod"; sx; Word (pow2 b)]).
  assert (forall nu z, eval nu sx = Some (VInt z) -> eval nu (Form [Word "mod"; sx; Word (pow2 b)]) = Some (VInt (z mod 2 ^ b))) as Hev.
  { intros nu z Hz. rewrite (eval_form2 nu "mod" sx (Word (pow2 b)) (VInt z) (VInt (2 ^ b)) Hz); [apply Hop|]. cbn -[pow2 literal]. by rewrite El. }
  split_and!.
  - unfold binary_text. cbn. by rewrite !append_assoc.
  - cbn. split_and!; [plain_word|done| |done]. left. split; [done|by apply digits_plain].
  - intros nu Hnu. destruct (All nu Hnu) as (v & Ev & [z ->]). exists (VInt (z mod 2 ^ b)). split; [by apply Hev|by eexists].
  - intros v. destruct x as [x|]; [|done]. intros [= <-]. by apply Hev, V.
Qed.

Lemma int_term_weaken decls s v v' : (forall x, v' = Some x -> v = Some x) -> int_term decls s v -> int_term decls s v'.
Proof.
  intros H (sx & E & Ok & All & V). exists sx. split_and!; [done|done|done|]. intros x. destruct v' as [x'|]; [|done]. intros [= <-].
  apply V. by rewrite (H x' eq_refl).
Qed.

Lemma bits_range t b : bits_not_bool t = Some b -> 1 < b <= 128.
Proof. unfold bits_not_bool. case_decide as E; [done|]. destruct t; try done; cbn; intros [= <-]; lia. Qed.

Lemma wrap_term decls s s' t v : int_elem t -> prover_wrap s (Some t) = Ok s' -> int_term decls s v -> int_term decls s' (v ← v; machine t v).
Proof.
  intros [b Hb] Hw H. pose proof (bits_range t b Hb) as Hr. unfold prover_wrap in Hw. unfold machine. destruct (decide (t = USize)) as [->|Hne].
  { cbn in Hw. injection Hw as <-. eapply int_term_weaken; [|exact H]. intros x. destruct v as [v|]; [|done]. cbn. by case_match. }
  assert (is_float t = false) as Ef by (by destruct t). rewrite Ef, (bool_decide_eq_false_2 _ Hne), Hb in Hw. cbn [orb] in Hw. rewrite Hb.
  destruct (is_signed_int t).
  - injection Hw as <-. pose proof (pow2_term decls (b - 1) ltac:(lia)) as Hh.
    pose proof (bin_term decls Add "+" s (pow2 (b - 1)) v (Some (2 ^ (b - 1))) eq_refl H Hh) as H1.
    pose proof (mod_term decls _ _ b ltac:(lia) H1) as H2.
    pose proof (bin_term decls Sub "-" _ _ _ _ eq_refl H2 Hh) as H3.
    replace (_ +:+ _) with (binary_text "-" (binary_text "mod" (binary_text "+" s (pow2 (b - 1))) (pow2 b)) (pow2 (b - 1))).
    + eapply int_term_weaken; [|exact H3]. intros x. destruct v as [v|]; [|done]. done.
    + unfold binary_text. rewrite !append_assoc. reflexivity.
  - injection Hw as <-. pose proof (mod_term decls s v b ltac:(lia) H) as H2.
    replace (_ +:+ _) with (binary_text "mod" s (pow2 b)) by (unfold binary_text; rewrite ?append_assoc; reflexivity).
    eapply int_term_weaken; [|exact H2]. intros x. by destruct v.
Qed.
End terms.

(** ** Types that the prover finds *)

Lemma expr_ind (P : PExpr -> Prop) : (forall e, (forall k, k ∈ kid_exprs e -> P k) -> P e) -> forall e, P e.
Proof. intros H. apply (program_ind P (fun _ => True)); auto. Qed.

Section lowering.
Context (type_of : Symbol -> option (ElementType * bool)) (rho : PExpr -> Z) (val : string -> Z).

Lemma cast_int_types_int target source from to : cast_int_types target source = Some (from, to) -> int_elem from /\ int_elem to.
Proof.
  unfold cast_int_types, int_elem, bits_not_bool. intros H. destruct source as [source|]; [|done]. cbn in H.
  assert (forall ty e, match ty with Scalar e => if bool_decide (is_Some (int_bits e)) && negb (bool_decide (e = Bool)) then Some e else None | _ => None end = Some e ->
    is_Some (if decide (e = Bool) then None else int_bits e)) as Hint.
  { intros ty e. destruct ty; try done. destruct (bool_decide _) eqn:E1; [|done]. destruct (bool_decide (elem = Bool)) eqn:E2; [done|]. cbn.
    intros [= <-]. apply bool_decide_eq_true in E1. apply bool_decide_eq_false in E2. by rewrite decide_False. }
  destruct (match source with Scalar _ => _ | _ => _ end) as [f|] eqn:Ef in H; [|done]. cbn in H.
  destruct (match target with Scalar _ => _ | _ => _ end) as [g|] eqn:Eg in H; [|done]. cbn in H. injection H as <- <-.
  split; [by eapply Hint|by eapply Hint].
Qed.

Lemma or_else_Some {A} (a b : option A) x : or_else a b = Some x -> a = Some x \/ b = Some x.
Proof. destruct a; cbn; naive_solver. Qed.

(** The type that the prover finds for an expression is the one it has. *)
Lemma int_type_typed e t t' : typed type_of e t -> int_type type_of e = Some t' -> t' = t.
Proof.
  revert e t t'. induction e as [e IH] using expr_ind; intros t t'. destruct e; cbn [typed int_type]; try done.
  - intros H Ht. destruct (type_of name) as [[t1 r]|] eqn:E; [|done]. injection Ht as <-. by eapply H.
  - intros [->| ->] [=]; done.
  - intros (Ho & H1 & H2) [Ht|[Ht|Ht]%or_else_Some]%or_else_Some; [destruct Ho; congruence|by eapply (IH e1 ltac:(cbn; set_solver))|by eapply (IH e2 ltac:(cbn; set_solver))].
  - destruct op; [done| |done]. intros H Ht. by eapply (IH e ltac:(cbn; set_solver)).
  - intros (from & -> & _) [= <-]. done.
Qed.

(** ** Lowering *)

Record prover_inv (p : SmtProver) : Prop := {
  pi_names : forall w, is_Some (pv_declarations p !! w) -> name_ok w;
  pi_ranges : forall w ty, pv_ranges p !! w = Some ty -> exists id, w = dots_to_bars id /\ type_of id = Some (ty, true);
}.

Definition grows (p p' : SmtProver) : Prop := pv_assertions p' = pv_assertions p /\ pv_declarations p ⊆ pv_declarations p'.

#[local] Instance grows_preorder : PreOrder grows.
Proof. split; [by intros p|]. intros a b c [A1 D1] [A2 D2]. split; [congruence|by etrans]. Qed.

(** Places with the same name in SMT have the same value: [val] gives each name its value. *)
Definition coherent : Prop :=
  forall e expected p, is_place e = true -> match lower_expr type_of e expected p with (_, Ok s) => val (symbol_of s) = rho e | _ => True end.
Context (coh : coherent).

(** The text of an expression means its value. *)
Definition meaning (e : PExpr) (expected : option ElementType) (decls : gmap string unit) (s : string) : Prop :=
  text_ok s = true /\
  (forall t, int_elem t -> typed type_of e t -> expected = None \/ expected = Some t -> int_term val decls s (ev rho t e)) /\
  (forall b, holds type_of rho e b -> bool_term val decls s (Some b)).

Definition lowered (e : PExpr) (expected : option ElementType) (p : SmtProver) (out : SmtProver * result string ProverError) : Prop :=
  prover_inv out.1 /\ grows p out.1 /\ forall s, out.2 = Ok s -> meaning e expected (pv_declarations out.1) s.

Lemma lowered_err e expected p p' err : prover_inv p' -> grows p p' -> lowered e expected p (p', Err err).
Proof. by intros. Qed.

Lemma declare_inv w p : name_ok w -> prover_inv p -> prover_inv (declare w p).
Proof. intros Hw [H1 H2]. split; [|done]. cbn. intros v [<-|[_ Hv]]%lookup_insert_is_Some; [done|by apply H1]. Qed.

Lemma declare_grows w p : grows p (declare w p).
Proof.
  split; [done|]. cbn. destruct (pv_declarations p !! w) as [[]|] eqn:E; [by rewrite insert_id|by apply insert_subseteq].
Qed.

Lemma place_meaning e expected decls w : is_place e = true -> name_ok w -> is_Some (decls !! w) -> val (symbol_of w) = rho e -> meaning e expected decls w.
Proof.
  intros Hp Hw Hd Hv. split_and!; [by apply name_text_ok| |].
  - intros t _ _ _. assert (ev rho t e = Some (rho e)) as -> by (by destruct e). by apply name_term.
  - intros b Hb. by inversion Hb; subst.
Qed.

Lemma lowered_named e expected p0 p w : is_place e = true -> name_ok w -> val (symbol_of w) = rho e -> prover_inv p -> grows p0 p ->
  lowered e expected p0 (declare w p, Ok w).
Proof.
  intros Hp Hw Hv Hi Hg. split_and!; cbn; [by apply declare_inv|etrans; [exact Hg|apply declare_grows]|]. intros s [= <-].
  apply place_meaning; [done|done| |done]. rewrite lookup_insert_eq. by eexists.
Qed.

Lemma meaning_grows e expected decls decls' s : decls ⊆ decls' -> meaning e expected decls s -> meaning e expected decls' s.
Proof. intros Hd (H1 & H2 & H3). split_and!; [done|intros; eapply term_grows; [exact Hd|by eapply H2]|intros; eapply term_grows; [exact Hd|by eapply H3]]. Qed.

(** Two operands, one after the other. *)
Lemma lower_two (e lhs rhs : PExpr) expected lt rt p k :
  (forall p, prover_inv p -> lowered lhs lt p (lower_expr type_of lhs lt p)) -> (forall p, prover_inv p -> lowered rhs rt p (lower_expr type_of rhs rt p)) ->
  prover_inv p ->
  (forall decls l r s, meaning lhs lt decls l -> meaning rhs rt decls r -> k l r = Ok s -> meaning e expected decls s) ->
  lowered e expected p
    (match lower_expr type_of lhs lt p with
     | (p, Ok l) => match lower_expr type_of rhs rt p with (p, Ok r) => (p, k l r) | (p, Err e) => (p, Err e) end
     | (p, Err e) => (p, Err e)
     end).
Proof.
  intros IH1 IH2 Hp Hk. specialize (IH1 p Hp). destruct (lower_expr type_of lhs lt p) as [p1 [l|err]]; cbn in IH1; destruct IH1 as (I1 & G1 & M1); [|by apply lowered_err].
  specialize (IH2 p1 I1). destruct (lower_expr type_of rhs rt p1) as [p2 [r|err]]; cbn in IH2; destruct IH2 as (I2 & G2 & M2).
  - split_and!; cbn; [done|by etrans|]. intros s Hs. apply (Hk _ l r s); [|by apply M2|done]. eapply meaning_grows; [apply G2|by apply M1].
  - apply lowered_err; [done|by etrans].
Qed.

Lemma digits_text_ok s : all_digits s = true -> text_ok s = true.
Proof.
  induction s as [|c s IH]; [done|]. cbn. rewrite !andb_true_iff. intros [Hc Hs]. split; [|by apply IH].
  destruct c as [[] [] [] [] [] [] [] []]; vm_compute in Hc; done.
Qed.

Lemma binary_text_ok op l r : text_ok op = true -> text_ok l = true -> text_ok r = true -> text_ok (binary_text op l r) = true.
Proof. unfold text_ok, binary_text. rewrite !all_chars_app. by intros -> -> ->. Qed.

Lemma wrap_text_ok s ty s' : text_ok s = true -> prover_wrap s ty = Ok s' -> text_ok s' = true.
Proof.
  intros Hs. unfold prover_wrap. destruct ty as [ty|]; [|done]. case_match; [by intros [= <-]|]. destruct (bits_not_bool ty) as [b|] eqn:Eb; [|done].
  pose proof (bits_range _ _ Eb) as Hb. destruct (pow2_digits b ltac:(lia)) as (_ & D1%digits_text_ok & _).
  destruct (pow2_digits (b - 1) ltac:(lia)) as (_ & D2%digits_text_ok & _).
  case_match; intros [= <-]; unfold text_ok in *; rewrite !all_chars_app; by rewrite ?Hs, ?D1, ?D2.
Qed.

(** An [expected] type that agrees with [t], and what the prover finds, agree with [t]. *)
Lemma found_type e t o expected : typed type_of e t -> o = None \/ o = Some t -> expected = None \/ expected = Some t ->
  or_else o (or_else (int_type type_of e) expected) = None \/ or_else o (or_else (int_type type_of e) expected) = Some t.
Proof.
  intros Ht [->| ->] He; cbn; [|by right]. destruct (int_type type_of e) as [t'|] eqn:E; cbn; [|done]. right. f_equal. by eapply int_type_typed.
Qed.

Lemma binary_meaning lhs op rhs span oty expected ty s decls l r :
  ty = or_else oty (or_else (int_type type_of (EBinaryOp lhs op rhs span oty)) expected) ->
  meaning lhs ty decls l -> meaning rhs ty decls r ->
  match bin_text op with Some op => prover_wrap (binary_text op l r) ty | None => Err (TheOperator op) end = Ok s ->
  meaning (EBinaryOp lhs op rhs span oty) expected decls s.
Proof.
  intros Hty (T1 & M1 & _) (T2 & M2 & _) Hs. destruct (bin_text op) as [o|] eqn:Eo; [|done]. split_and!.
  - eapply wrap_text_ok; [|exact Hs]. apply binary_text_ok; [|done|done]. by destruct op; try done; injection Eo as <-.
  - intros t Hi Ht He. pose proof Ht as (Ho & H1 & H2). destruct (found_type _ _ _ _ Ht Ho He) as [E|E]; rewrite <-Hty in E; [by rewrite E in Hs|].
    cbn [ev]. rewrite E in *. pose proof (wrap_term val decls _ _ t _ Hi Hs (bin_term val decls op o l r _ _ Eo (M1 t Hi H1 ltac:(by right)) (M2 t Hi H2 ltac:(by right)))) as W.
    eapply int_term_weaken; [|exact W]. intros x. by destruct (ev rho t lhs), (ev rho t rhs).
  - intros b Hb. inversion Hb.
Qed.

Lemma relational_meaning lhs op rhs span oty expected side decls l r :
  side = or_else oty (or_else (int_type type_of lhs) (int_type type_of rhs)) ->
  meaning lhs side decls l -> meaning rhs side decls r -> meaning (ERelationalOp lhs op rhs span oty) expected decls (binary_text (rel_text op) l r).
Proof.
  intros Hside (T1 & M1 & _) (T2 & M2 & _). split_and!; [apply binary_text_ok; [by destruct op|done|done]|done|].
  intros b Hb. inversion Hb as [? ? ? ? ? t x y Ho Hi H1 H2 E1 E2| |]; subst.
  assert (forall o, o = or_else oty (or_else (int_type type_of lhs) (int_type type_of rhs)) -> o = None \/ o = Some t) as Hs.
  { intros o ->. apply (found_type lhs t oty); [done|done|]. destruct (int_type type_of rhs) as [t'|] eqn:E; [|by left]. right. f_equal.
    by eapply (int_type_typed rhs). }
  pose proof (rel_term val decls op l r _ _ (M1 t Hi H1 (Hs _ eq_refl)) (M2 t Hi H2 (Hs _ eq_refl))) as R. rewrite E1, E2 in R. exact R.
Qed.

Lemma logical_meaning lhs op rhs span expected decls l r :
  meaning lhs None decls l -> meaning rhs None decls r -> meaning (ELogicalOp lhs op rhs span) expected decls (binary_text (log_text op) l r).
Proof.
  intros (T1 & _ & B1) (T2 & _ & B2). split_and!; [apply binary_text_ok; [by destruct op|done|done]|done|].
  intros b Hb. inversion Hb; subst. exact (log_term val decls op l r _ _ (B1 _ ltac:(done)) (B2 _ ltac:(done))).
Qed.

Lemma negation_meaning e span expected decls inner s : meaning e expected decls inner ->
  match e with ENumber _ _ _ => Ok ("(- " +:+ inner +:+ ")") | _ => prover_wrap ("(- " +:+ inner +:+ ")") (or_else (int_type type_of e) expected) end = Ok s ->
  meaning (EUnaryOp Neg e span) expected decls s.
Proof.
  intros (T1 & M1 & _) Hs. assert (text_ok ("(- " +:+ inner +:+ ")") = true) as Tn by (unfold text_ok in *; rewrite !all_chars_app; by rewrite T1).
  destruct (match e with ENumber _ _ _ => true | _ => false end) eqn:En.
  - destruct e; try done. injection Hs as <-. split_and!; [done| |by intros b Hb; inversion Hb]. intros t Hi Ht He.
    exact (neg_term val decls _ _ (M1 t Hi Ht He)).
  - assert (prover_wrap ("(- " +:+ inner +:+ ")") (or_else (int_type type_of e) expected) = Ok s) as Hw by (by destruct e). clear Hs.
    split_and!; [by eapply wrap_text_ok| |by intros b Hb; inversion Hb]. intros t Hi Ht He.
    destruct (found_type e t None expected Ht ltac:(by left) He) as [E|E]; cbn in E; rewrite E in Hw; [done|].
    pose proof (wrap_term val decls _ _ t _ Hi Hw (neg_term val decls _ _ (M1 t Hi Ht He))) as W. eapply int_term_weaken; [|exact W].
    intros x. cbn [ev]. destruct (ev rho t e) as [v|]; [|done]. by destruct e.
Qed.

Lemma identifier_lowered n span expected p : simple_name (dots_to_bars n) -> prover_inv p ->
  lowered (EIdentifier n span) expected p (lower_expr type_of (EIdentifier n span) expected p).
Proof.
  intros Hn Hp. pose proof (coh (EIdentifier n span) expected p eq_refl) as Hv. cbn [lower_expr] in *.
  assert (name_ok (dots_to_bars n)) as Hok by (by left).
  destruct (lowered_named (EIdentifier n span) expected p p (dots_to_bars n) eq_refl Hok Hv Hp ltac:(done)) as (I & G & M). cbn in I, G, M.
  destruct (type_of n) as [[ty []]|] eqn:Et; [|done..]. split_and!; cbn; [|done|exact M].
  destruct I as [I1 I2]. split; [done|]. cbn. intros w ty'. rewrite lookup_insert_Some. intros [[<- <-]|[_ H]]; [by exists n|by apply I2].
Qed.

Lemma lower_ok e : forall expected p, legal_names e -> prover_inv p -> lowered e expected p (lower_expr type_of e expected p).
Proof.
  induction e as [e IH] using expr_ind. intros expected p L Hp.
  assert (forall k expected p, k ∈ kid_exprs e -> legal_names k -> prover_inv p -> lowered k expected p (lower_expr type_of k expected p)) as IH'
    by (intros; by apply IH). clear IH.
  destruct e; try (by apply lowered_err); cbn [legal_names] in L; cbn [kid_exprs] in IH'.
  - by apply identifier_lowered.
  - pose proof (coh (EEnumVariant enum_name variant_name payload span) expected p eq_refl) as Hv. cbn [lower_expr] in *.
    apply lowered_named; [done|by left|exact Hv|done|done].
  - destruct L as [L1 L2]. cbn [lower_expr]. split_and!; cbn; [done|done|]. intros s [= <-].
    split_and!; [by apply digits_text_ok|intros t _ _ _; by apply number_term|by intros b Hb; inversion Hb].
  - destruct L as [L1 L2]. pose proof (coh (EMemberAccess e member span) expected p eq_refl) as Hv. cbn [lower_expr] in *.
    destruct (IH' e None p ltac:(set_solver) L1 Hp) as (I & G & M). destruct (lower_expr type_of e None p) as [p1 [base|err]]; cbn in I, G, M; [|by apply lowered_err].
    apply lowered_named; [done| |exact Hv|done|done]. apply member_name; [|done]. by destruct (M base eq_refl).
  - destruct L as [L1 L2]. pose proof (coh (EIndexAccess e1 e2 span) expected p eq_refl) as Hv. cbn [lower_expr] in *.
    destruct (IH' e1 None p ltac:(set_solver) L1 Hp) as (I & G & M). destruct (lower_expr type_of e1 None p) as [p1 [base|err]]; cbn in I, G, M; [|by apply lowered_err].
    destruct (IH' e2 None p1 ltac:(set_solver) L2 I) as (I2 & G2 & M2). destruct (lower_expr type_of e2 None p1) as [p2 [index|err]]; cbn in I2, G2, M2;
      [|apply lowered_err; [done|by etrans]].
    apply lowered_named; [done| |exact Hv|done|by etrans]. apply index_name; [by destruct (M base eq_refl)|by destruct (M2 index eq_refl)].
  - destruct L as [L1 L2]. cbn [lower_expr]. apply lower_two; [intros; by apply IH'; [set_solver|..]|intros; by apply IH'; [set_solver|..]|done|].
    intros decls l r s H1 H2 Hs. by eapply binary_meaning.
  - destruct L as [L1 L2]. cbn [lower_expr]. apply lower_two; [intros; by apply IH'; [set_solver|..]|intros; by apply IH'; [set_solver|..]|done|].
    intros decls l r s H1 H2 [= <-]. by eapply relational_meaning.
  - destruct L as [L1 L2]. cbn [lower_expr]. apply lower_two; [intros; by apply IH'; [set_solver|..]|intros; by apply IH'; [set_solver|..]|done|].
    intros decls l r s H1 H2 [= <-]. by eapply logical_meaning.
  - cbn [lower_expr]. destruct (IH' e match op with Neg => expected | _ => None end p ltac:(set_solver) L Hp) as (I & G & M).
    destruct (lower_expr type_of e _ p) as [p1 [inner|err]]; cbn in I, G, M; [|by apply lowered_err]. specialize (M inner eq_refl).
    destruct op; [|split_and!; cbn; [done|done|intros s Hs; by eapply negation_meaning]|by apply lowered_err].
    split_and!; cbn; [done|done|]. intros s [= <-]. destruct M as (T1 & _ & B1). split_and!; [unfold text_ok in *; rewrite !all_chars_app; by rewrite T1|done|].
    intros b Hb. inversion Hb; subst. exact (not_term val _ _ _ (B1 _ ltac:(done))).
  - pose proof (coh (ETopology top span) expected p eq_refl) as Hv. cbn [lower_expr] in *. apply lowered_named; [done|by left|exact Hv|done|done].
  - cbn [lower_expr]. destruct (keeps_every_value target_ty source_ty) eqn:Ek; [|by apply lowered_err].
    destruct (IH' e (fst <$> cast_int_types target_ty source_ty) p ltac:(set_solver) L Hp) as (I & G & M). split_and!; [done|done|]. intros s Hs.
    destruct (M s Hs) as (T1 & M1 & _). split_and!; [done| |by intros b Hb; inversion Hb]. intros t Hi (from & Hc & Ht) _.
    cbn [ev]. rewrite Ek, Hc in *. cbn in M1. apply M1; [by destruct (cast_int_types_int _ _ _ _ Hc)|done|by right].
Qed.
End lowering.

(** ** The script *)

Definition range_sexps (ty : ElementType) : option (sexp * sexp) :=
  bits ← bits_not_bool ty;
  let max b := Form [Word "-"; Word (pow2 b); Word "1"] in
  Some (if decide (ty = USize) then (Word "0", max 63)
        else if is_signed_int ty then (Form [Word "-"; Word (pow2 (bits - 1))], max (bits - 1))
        else (Word "0", max bits)).

(** The bounds of an integer type. *)
Definition range_of (ty : ElementType) : option (Z * Z) :=
  bits ← bits_not_bool ty;
  Some (if decide (ty = USize) then (0, imax 64) else if is_signed_int ty then (imin bits, imax bits) else (0, umax bits)).

Lemma int_range_show ty : int_range ty = (fun r => (show r.1, show r.2)) <$> range_sexps ty.
Proof.
  unfold int_range, range_sexps. destruct (bits_not_bool ty) as [b|]; [|done]. cbn -[pow2]. repeat case_match; cbn -[pow2]; by rewrite ?append_assoc.
Qed.

Lemma pow2_eval nu b : 0 <= b <= 128 -> eval nu (Word (pow2 b)) = Some (VInt (2 ^ b)).
Proof. intros Hb. destruct (pow2_digits b Hb) as (H1 & H2 & H3). cbn -[pow2 literal]. by rewrite literal_digits, H3. Qed.

Lemma pow2_word b : 0 <= b <= 128 -> word_ok (pow2 b).
Proof. intros Hb. destruct (pow2_digits b Hb) as (H1 & H2 & _). left. split; [done|by apply digits_plain]. Qed.

Lemma range_sexps_spec ty r nu : range_sexps ty = Some r ->
  sexp_ok r.1 /\ sexp_ok r.2 /\ exists lo hi, range_of ty = Some (lo, hi) /\ eval nu r.1 = Some (VInt lo) /\ eval nu r.2 = Some (VInt hi).
Proof.
  assert (forall w, w <> "" -> all_chars plain_char w = true -> word_ok w) as Hw by (by left).
  assert (forall b, 1 < b <= 128 -> sexp_ok (Form [Word "-"; Word (pow2 b); Word "1"]) /\
    eval nu (Form [Word "-"; Word (pow2 b); Word "1"]) = Some (VInt (umax b))) as Hmax.
  { intros b Hb. split; [cbn -[pow2]; split_and!; [by apply Hw|apply pow2_word; lia|by apply Hw|done]|].
    rewrite (eval_form2 nu "-" _ _ (VInt (2 ^ b)) (VInt 1)); [done|apply pow2_eval; lia|done]. }
  unfold range_sexps, range_of. destruct (bits_not_bool ty) as [b|] eqn:Eb; [|done]. pose proof (bits_range _ _ Eb) as Hb. cbn -[pow2].
  case_decide as Eu; [|destruct (is_signed_int ty) eqn:Es]; intros [= <-]; cbn [fst snd].
  - destruct (Hmax 63 ltac:(lia)) as [M1 M2]. split_and!; [by apply Hw|done|]. eexists _, _. split_and!; [done|done|exact M2].
  - assert (2 < b) as Hb' by (unfold bits_not_bool in Eb; case_decide; [done|]; destruct ty; try done; injection Eb as <-; lia).
    destruct (Hmax (b - 1) ltac:(lia)) as [M1 M2]. split_and!; [|done|].
    + cbn -[pow2]. split_and!; [by apply Hw|apply pow2_word; lia|done].
    + eexists _, _. split_and!; [done| |exact M2]. cbn -[pow2 eval literal]. pose proof (pow2_eval nu (b - 1) ltac:(lia)) as Hp.
      change (eval nu (Form [Word "-"; Word (pow2 (b - 1))])) with (vs ← mapM (eval nu) [Word (pow2 (b - 1))]; apply_op "-" vs).
      cbn [mapM]. rewrite Hp. done.
  - destruct (Hmax b ltac:(lia)) as [M1 M2]. split_and!; [by apply Hw|done|]. eexists _, _. split_and!; [done|done|exact M2].
Qed.

Lemma le3_eval nu a b c x y z : eval nu a = Some (VInt x) -> eval nu b = Some (VInt y) -> eval nu c = Some (VInt z) ->
  eval nu (Form [Word "<="; a; b; c]) = Some (VBool ((x <=? y) && (y <=? z))).
Proof.
  intros Ha Hb Hc. change (eval nu (Form [Word "<="; a; b; c])) with (vs ← mapM (eval nu) [a; b; c]; apply_op "<=" vs).
  cbn [mapM]. rewrite Ha, Hb, Hc. change (Some (VBool ((x <=? y) && ((y <=? z) && true))) = Some (VBool ((x <=? y) && (y <=? z)))). by rewrite andb_true_r.
Qed.

(** The forms of the script. *)
Definition set_logic_form : sexp := Form [Word "set-logic"; Word "QF_LIA"].
Definition declare_form (w : string) : sexp := Form [Word "declare-const"; Word w; Word "Int"].
Definition assert_form (t : sexp) : sexp := Form [Word "assert"; t].
Definition check_form : sexp := Form [Word "check-sat"].

Definition range_terms (p : SmtProver) (w : string) : list sexp :=
  match pv_ranges p !! w ≫= range_sexps with Some (lo, hi) => [Form [Word "<="; lo; Word w; hi]] | None => [] end.
Definition name_forms (p : SmtProver) (w : string) : list sexp := declare_form w :: (assert_form <$> range_terms p w).

Definition script_forms (p : SmtProver) (names : list string) (terms : list sexp) : list sexp :=
  set_logic_form :: flat_map (name_forms p) names ++ (assert_form <$> terms) ++ [check_form].

Lemma show_assert t : show (assert_form t) +:+ nl_ = "(assert " +:+ show t +:+ ")" +:+ nl_.
Proof. cbn. by rewrite !append_assoc. Qed.

Lemma name_text p w :
  script (name_forms p w) = "(declare-const " +:+ w +:+ " Int)" +:+ nl_ +:+
    match pv_ranges p !! w ≫= int_range with
    | Some (lo, hi) => "(assert (<= " +:+ lo +:+ " " +:+ w +:+ " " +:+ hi +:+ "))" +:+ nl_
    | None => ""
    end.
Proof.
  assert (forall l, script (declare_form w :: l) = "(declare-const " +:+ w +:+ " Int)" +:+ nl_ +:+ script l) as E.
  { intros l. change (script (declare_form w :: l)) with (show (declare_form w) +:+ nl_ +:+ script l). cbn [show declare_form fmap list_fmap spaced].
    by rewrite !append_assoc. }
  unfold name_forms. rewrite E. do 4 f_equal. unfold range_terms. destruct (pv_ranges p !! w) as [ty|]; [|done]. cbn [mbind option_bind].
  rewrite int_range_show. destruct (range_sexps ty) as [[lo hi]|]; [|done]. cbn [fmap option_fmap option_map list_fmap fst snd].
  change (script [?x]) with (show x +:+ nl_). rewrite show_assert. cbn [show fmap list_fmap spaced]. by rewrite !append_assoc.
Qed.

Lemma prover_script_forms `{HashOrder} p terms : pv_assertions p = show <$> terms ->
  prover_script p = script (script_forms p (fst <$> iter (pv_declarations p)) terms).
Proof.
  intros Ha. unfold prover_script, script_forms. rewrite Ha. clear Ha.
  change (script (set_logic_form :: ?l)) with ("(set-logic QF_LIA)" +:+ nl_ +:+ script l). rewrite !script_app. do 2 f_equal. f_equal; [|f_equal].
  - induction (iter (pv_declarations p)) as [|[w u] l IH]; [done|]. rewrite fmap_cons. cbn [foldr fst flat_map]. rewrite script_app, <-IH, name_text.
    by rewrite !append_assoc.
  - induction terms as [|t terms IH]; [done|]. rewrite !fmap_cons. cbn [foldr]. change (script (?a :: ?l)) with (show a +:+ nl_ +:+ script l).
    rewrite <-(append_assoc (show (assert_form t))), show_assert, IH. by rewrite !append_assoc.
Qed.

Definition name_reads (p : SmtProver) (w : string) : list command := Declare_const (symbol_of w) SInt :: (Assert <$> range_terms p w).
Definition context (p : SmtProver) (names : list string) (terms : list sexp) : list command := flat_map (name_reads p) names ++ (Assert <$> terms).

Lemma forms_read p names terms : mapM read_command (script_forms p names terms) = Some (Other :: context p names terms ++ [Check_sat]).
Proof.
  apply mapM_Some. unfold script_forms, context. constructor; [done|]. rewrite <-app_assoc.
  assert (forall l, Forall2 (fun s c => read_command s = Some c) (assert_form <$> l) (Assert <$> l)) as Ha.
  { induction l; [constructor|]. rewrite !fmap_cons. by constructor. }
  apply Forall2_app; [|apply Forall2_app; [apply Ha|by repeat constructor]].
  induction names as [|w names IH]; [constructor|]. cbn [flat_map]. apply Forall2_app; [|done]. unfold name_forms, name_reads. constructor; [done|apply Ha].
Qed.

Definition adds (c : command) : bool := match c with Declare_const _ _ | Define_fun _ _ _ | Assert _ => true | _ => false end.

Lemma checks_once ctx now up : forallb adds ctx = true -> checks (ctx ++ [Check_sat]) now up = [now ++ ctx].
Proof.
  revert now. induction ctx as [|c ctx IH]; intros now H; cbn; [by rewrite app_nil_r|]. cbn in H. apply andb_true_iff in H as [Hc H].
  by destruct c; try done; rewrite IH, <-app_assoc.
Qed.

Lemma context_adds p names terms : forallb adds (context p names terms) = true.
Proof.
  unfold context. rewrite forallb_app, andb_true_iff. assert (forall l, forallb adds (Assert <$> l) = true) as Ha by (by induction l). split; [|apply Ha].
  induction names as [|w names IH]; [done|]. cbn [flat_map]. rewrite forallb_app, IH, andb_true_r. cbn. apply Ha.
Qed.

Lemma forms_checks p names terms : checks (Other :: context p names terms ++ [Check_sat]) [] [] = [context p names terms].
Proof. cbn. by rewrite checks_once by apply context_adds. Qed.

Lemma elem_of_context p names terms c : c ∈ context p names terms <->
  (exists w, w ∈ names /\ (c = Declare_const (symbol_of w) SInt \/ exists t, t ∈ range_terms p w /\ c = Assert t)) \/ exists t, t ∈ terms /\ c = Assert t.
Proof.
  unfold context. rewrite elem_of_app, flat_map_elem. unfold name_reads. setoid_rewrite elem_of_cons. setoid_rewrite list_elem_of_fmap. naive_solver.
Qed.

Section unsat.
Context (type_of : Symbol -> option (ElementType * bool)) (rho : PExpr -> Z) (val : string -> Z).
Context (coh : coherent type_of rho val).

(** The names whose range is a fact are in it. *)
Definition in_ranges : Prop :=
  forall id ty span, type_of id = Some (ty, true) -> forall lo hi, range_of ty = Some (lo, hi) -> lo <= rho (EIdentifier id span) <= hi.
Context (ranged : in_ranges).

(** Every fact of the prover is true in the state. *)
Definition facts_hold (p : SmtProver) : Prop := forall a, a ∈ pv_assertions p -> bool_term val (pv_declarations p) a (Some true).

Lemma facts_terms p : facts_hold p -> exists terms, pv_assertions p = show <$> terms /\
  Forall (fun t => sexp_ok t /\ (forall nu, declares (pv_declarations p) nu -> exists b, eval nu t = Some (VBool b)) /\ eval (nu0 val) t = Some (VBool true)) terms.
Proof.
  unfold facts_hold. induction (pv_assertions p) as [|a l IH]; intros H; [by exists []|]. destruct IH as (terms & -> & Ht); [intros; apply H; by right|].
  destruct (H a ltac:(by left)) as (t & -> & Ok & All & V). exists (t :: terms). split; [done|]. constructor; [|done]. split_and!; [done| |by apply V].
  intros nu Hnu. destruct (All nu Hnu) as (x & Hx & [b ->]). by exists b.
Qed.

Lemma range_terms_spec p w t : prover_inv type_of p -> name_ok w -> t ∈ range_terms p w ->
  sexp_ok t /\ (forall nu, (exists z, nu (symbol_of w) = Some (VInt z)) -> exists b, eval nu t = Some (VBool b)) /\ eval (nu0 val) t = Some (VBool true).
Proof.
  intros [I1 I2] Hw. unfold range_terms. destruct (pv_ranges p !! w) as [ty|] eqn:Er; cbn [mbind option_bind]; [|by intros H%elem_of_nil].
  destruct (range_sexps ty) as [[lo hi]|] eqn:Es; [|by intros H%elem_of_nil]. intros ->%list_elem_of_singleton.
  assert (forall nu z, nu (symbol_of w) = Some (VInt z) -> eval nu (Word w) = Some (VInt z)) as Hev by (intros nu z Hz; cbn; by rewrite name_not_literal).
  destruct (range_sexps_spec ty _ (nu0 val) Es) as (O1 & O2 & a & b & Hr & Ea & Eb). cbn [fst snd] in *. split_and!.
  - cbn. split_and!; [by left|done|by apply name_word|done|done].
  - intros nu [z Hz]. destruct (range_sexps_spec ty _ nu Es) as (_ & _ & a' & b' & _ & Ea' & Eb'). cbn [fst snd] in *.
    eexists. by apply le3_eval; [exact Ea'|apply Hev|exact Eb'].
  - destruct (I2 w ty Er) as (id & -> & Ht). pose proof (coh (EIdentifier id Span_default) None p eq_refl) as Hc. cbn [lower_expr] in Hc.
    pose proof (ranged id ty Span_default Ht a b Hr) as Hin. rewrite (le3_eval _ _ _ _ a (rho (EIdentifier id Span_default)) b Ea); [|apply Hev; unfold nu0; by rewrite Hc|done].
    do 2 f_equal. apply andb_true_iff. rewrite !Z.leb_le. lia.
Qed.

Section one_script.
Context `{HashOrder} (p : SmtProver) (terms : list sexp).
Context (inv : prover_inv type_of p).
Context (good : Forall (fun t => sexp_ok t /\ (forall nu, declares (pv_declarations p) nu -> exists b, eval nu t = Some (VBool b)) /\
  eval (nu0 val) t = Some (VBool true)) terms).

Let names : list string := fst <$> iter (pv_declarations p).

Lemma declared_names w : w ∈ names <-> is_Some (pv_declarations p !! w).
Proof.
  unfold names. rewrite list_elem_of_fmap. split; [intros ([w' []] & -> & Hw%elem_of_iter); by exists tt|]. intros [[] Hw].
  exists (w, tt). split; [done|by apply elem_of_iter].
Qed.

Lemma names_ok w : w ∈ names -> name_ok w.
Proof. intros Hw%declared_names. by apply (pi_names _ _ inv). Qed.

Lemma assert_ok s : sexp_ok s -> sexp_ok (assert_form s).
Proof. intros Hs. cbn. split_and!; [by left|done|done]. Qed.

Lemma forms_ok : Forall sexp_ok (script_forms p names terms).
Proof.
  rewrite Forall_forall in good. unfold script_forms. constructor; [cbn; split_and!; [by left|by left|done]|].
  rewrite !Forall_app. split_and!.
  - apply Forall_forall. intros s (w & Hin%names_ok & Hs)%flat_map_elem. unfold name_forms in Hs.
    apply elem_of_cons in Hs as [->|(t & -> & Hs)%list_elem_of_fmap].
    + cbn. split_and!; [by left|by apply name_word|by left|done].
    + apply assert_ok. by apply (range_terms_spec p w t).
  - apply Forall_forall. intros s (t & -> & Hin)%list_elem_of_fmap. by apply assert_ok, good.
  - constructor; [cbn; split; [by left|done]|constructor].
Qed.

Lemma names_of_context : names_of (context p names terms) = symbol_of <$> names.
Proof.
  assert (forall l, names_of (Assert <$> l) = []) as Ha by (by induction l). unfold context, names_of. rewrite omap_app. fold (names_of (Assert <$> terms)).
  rewrite Ha, app_nil_r. induction names as [|w l IH]; [done|]. cbn [flat_map]. rewrite omap_app, IH. unfold name_reads. cbn [omap list_omap].
  fold (names_of (Assert <$> range_terms p w)). by rewrite Ha.
Qed.

Lemma fits_declares nu : fits_all nu (context p names terms) -> declares (pv_declarations p) nu.
Proof.
  unfold fits_all. rewrite Forall_forall. intros Hf w Hw%declared_names. destruct (Hf (Declare_const (symbol_of w) SInt)) as (v & Hv & Hs).
  - apply elem_of_context. left. exists w. split; [done|by left].
  - destruct v; try done. by eexists.
Qed.

Lemma context_wf : ctx_wf (context p names terms).
Proof.
  rewrite Forall_forall in good. split.
  - rewrite names_of_context. assert (NoDup names) as Hnd. { unfold names. rewrite iter_perm. apply NoDup_fst_map_to_list. }
    pose proof names_ok as Hok. clear -Hnd Hok. induction Hnd as [|w l Hw Hnd IH]; [constructor|]. rewrite fmap_cons. constructor.
    + intros (w' & E & Hin)%list_elem_of_fmap. apply Hw. rewrite (symbol_of_inj w w'); [done|apply Hok; by left|apply Hok; by right|done].
    + apply IH. intros x Hx. apply Hok. by right.
  - intros nu t Hf [(w & Hw & [[=]|(t' & Hin & [= <-])])|(t' & Hin & [= <-])]%elem_of_context.
    + apply (range_terms_spec p w t inv (names_ok w Hw) Hin). apply (fits_declares nu Hf). by apply declared_names.
    + destruct (good t Hin) as (_ & Hs & _). by apply Hs, fits_declares.
Qed.

Lemma context_satisfiable : satisfiable (context p names terms).
Proof.
  rewrite Forall_forall in good. exists (nu0 val). split; apply Forall_forall.
  - intros c [(w & Hw & [->|(t & _ & ->)])|(t & _ & ->)]%elem_of_context; [|done|done]. cbn. by eexists.
  - intros c [(w & Hw & [->|(t & Hin & ->)])|(t & Hin & ->)]%elem_of_context; [done| |by destruct (good t Hin) as (_ & _ & ?)].
    by apply (range_terms_spec p w t inv (names_ok w Hw) Hin).
Qed.

Lemma forms_wf : script_wf (script_forms p names terms) (Other :: context p names terms ++ [Check_sat]).
Proof.
  split_and!; [apply forms_read|rewrite forms_checks; constructor; [apply context_wf|constructor]|].
  intros s n Hin Hd. unfold script_forms in Hin. apply elem_of_cons in Hin as [->|Hin]; [done|].
  rewrite !elem_of_app, flat_map_elem in Hin. destruct Hin as [(w & Hw & Hin)|[(t & -> & _)%list_elem_of_fmap|Hin]]; [|by destruct t|].
  - unfold name_forms in Hin. apply elem_of_cons in Hin as [->|(t & -> & _)%list_elem_of_fmap]; [|by destruct t]. cbn in Hd. injection Hd as <-.
    by apply name_legal, names_ok.
  - apply list_elem_of_singleton in Hin as ->. done.
Qed.
End one_script.

(** What an answer of the solver says of facts that hold in a state. *)
Lemma prove_unsat `{HashOrder} `{Z3} p : prover_inv type_of p -> facts_hold p -> prover_prove p <> Ok false.
Proof.
  intros Hi Hf. destruct (facts_terms p Hf) as (terms & Ea & Ht). unfold prover_prove. rewrite (prover_script_forms p terms Ea).
  set (forms := script_forms _ _ _). destruct (z3 (script forms)) as [lines|] eqn:Ez; [|done]. case_decide as Hs; [done|]. case_decide as Hu; [|done]. intros _.
  pose proof (parse_script _ (forms_ok p terms Hi Ht)) as Hparse. pose proof (forms_wf p terms Hi Ht) as Hwf.
  pose proof (z3_answers _ _ _ _ Hparse Hwf Ez) as Hlen. rewrite forms_checks in Hlen. cbn [length] in Hlen.
  assert ("unsat" ∈ answers lines) as Hin by (apply list_elem_of_filter; split; [set_solver|done]).
  destruct (answers lines) as [|x [|y l]] eqn:El; [by apply elem_of_nil in Hin| |cbn in Hlen; lia]. apply list_elem_of_singleton in Hin as <-.
  eapply (z3_unsat _ _ _ _ 0 _ Hparse Hwf Ez); [by rewrite forms_checks|by rewrite El|]. by apply context_satisfiable.
Qed.
End unsat.
