(* ===== verification/ProverGoal.v ===== *)
(** * Goals, calls and assignments

    What [prove_expr] proves holds in every state in which the facts of the
    checker hold and the callees keep their contracts; and the facts hold again
    after an assignment, when its value speaks of the old variable only where the
    renaming reaches. *)

From stdpp Require Import base functions list strings gmap.
From Stdlib Require Import ZArith Lia Ascii.
From S2P Require Import Prelude Syntax Types Program Smt Prover ProverSound.
Open Scope Z_scope.
Open Scope vx_scope.

Lemma show_inj a b : sexp_ok a -> sexp_ok b -> show a = show b -> a = b.
Proof.
  intros Ha Hb E. assert (parse (script [a]) = parse (script [b])) as Hp by (cbn; by rewrite E).
  rewrite !parse_script in Hp by (by repeat constructor). by injection Hp.
Qed.

Lemma bool_term_fun val decls s a b : bool_term val decls s (Some a) -> bool_term val decls s (Some b) -> a = b.
Proof.
  intros (x & -> & Ox & _ & Vx) (y & E & Oy & _ & Vy). apply show_inj in E as <-; [|done|done]. specialize (Vx _ eq_refl). specialize (Vy _ eq_refl). congruence.
Qed.

(** ** Facts *)

Section facts.
Context (type_of : Symbol -> option (ElementType * bool)) (rho : PExpr -> Z) (val : string -> Z).
Context (coh : coherent type_of rho val).

(** A fact that is true, or that the prover cannot express. *)
Definition usable (c : PExpr) : Prop :=
  legal_names c /\ (holds type_of rho c true \/ forall p, exists err, (lower_expr type_of c None p).2 = Err err).

Lemma facts_hold_grows p p' : grows p p' -> facts_hold val p -> facts_hold val p'.
Proof. intros [E D] H a Ha. rewrite E in Ha. eapply term_grows; [exact D|]. by apply H. Qed.

Lemma add_smt_inv p s : prover_inv type_of p -> prover_inv type_of (add_smt s p).
Proof. by intros [H1 H2]. Qed.

Lemma add_smt_holds p s : facts_hold val p -> bool_term val (pv_declarations p) s (Some true) -> facts_hold val (add_smt s p).
Proof. intros H Hs a [Ha|Ha]%elem_of_app; [by apply H|]. apply list_elem_of_singleton in Ha as ->. done. Qed.

Lemma add_constraint_ok c p : usable c -> prover_inv type_of p -> facts_hold val p ->
  prover_inv type_of (add_constraint type_of c p).1 /\ facts_hold val (add_constraint type_of c p).1.
Proof.
  intros [L Hc] Hi Hf. destruct (lower_ok type_of rho val coh c None p L Hi) as (I & G & M). unfold add_constraint.
  destruct (lower_expr type_of c None p) as [p1 [s|err]] eqn:E; cbn in *.
  - split; [by apply add_smt_inv|]. apply add_smt_holds; [by eapply facts_hold_grows|]. destruct Hc as [Hc|Hc]; [by apply (M s eq_refl)|].
    destruct (Hc p) as [err He]. by rewrite E in He.
  - split; [done|by eapply facts_hold_grows].
Qed.
End facts.

Section goals.
Context (ck : Checker) (rho : PExpr -> Z) (val : string -> Z).
Context (coh : coherent (type_of_name ck) rho val) (ranged : in_ranges (type_of_name ck) rho).

Lemma add_constraints_ok cs p : Forall (usable (type_of_name ck) rho) cs -> prover_inv (type_of_name ck) p -> facts_hold val p ->
  prover_inv (type_of_name ck) (add_constraints ck cs p) /\ facts_hold val (add_constraints ck cs p).
Proof.
  revert p. induction cs as [|c cs IH]; intros p Hc Hi Hf; [done|]. apply Forall_cons in Hc as [H1 H2]. cbn.
  destruct (add_constraint_ok _ rho val coh c p H1 Hi Hf) as [I F]. by apply IH.
Qed.

Lemma new_prover_ok : prover_inv (type_of_name ck) SmtProver_new /\ facts_hold val SmtProver_new.
Proof.
  split; [split; cbn; [intros w [? Hw]; by rewrite lookup_empty in Hw|intros w ty Hw; by rewrite lookup_empty in Hw]|]. by intros a Ha%elem_of_nil.
Qed.

(** What the prover is asked: the facts, and the goal. *)
Definition obligation (expr : PExpr) : list PExpr * PExpr :=
  let '(constraints, st) := abstract_all ck (ck_constraints ck) (0%nat, []) in
  let '(goal, (_, facts)) := abstract_calls ck expr st in (constraints ++ facts, goal).

Lemma prove_expr_goal `{HashOrder} `{Z3} expr b : Forall (usable (type_of_name ck) rho) (obligation expr).1 -> legal_names (obligation expr).2 ->
  holds (type_of_name ck) rho (obligation expr).2 b -> prove_expr ck expr = true -> b = true.
Proof.
  unfold obligation, prove_expr. destruct (abstract_all ck (ck_constraints ck) _) as [constraints st]. destruct (abstract_calls ck expr st) as [goal [n facts]].
  cbn [fst snd]. intros Hc L Hb. destruct new_prover_ok as [I0 F0]. destruct (add_constraints_ok _ _ Hc I0 F0) as [I1 F1].
  set (p1 := add_constraints ck (constraints ++ facts) SmtProver_new) in *. unfold lower_term.
  destruct (lower_ok _ rho val coh goal None p1 L I1) as (I2 & G2 & M2).
  destruct (lower_expr (type_of_name ck) goal None p1) as [p2 r] eqn:E2. cbn in I2, G2, M2. pose proof (facts_hold_grows val p1 p2 G2 F1) as F2.
  destruct (match r with Ok smt => has_fact smt p2 | Err _ => false end) eqn:Eh.
  - intros _. destruct r as [s|err]; [|done]. unfold has_fact in Eh. apply bool_decide_eq_true in Eh.
    eapply bool_term_fun; [by apply (M2 s eq_refl)|by apply F2].
  - clear Eh M2 E2 r. destruct b; [done|]. intros Hp. exfalso.
    assert (usable (type_of_name ck) rho (negate goal)) as Hn by (split; [done|]; left; exact (holds_not _ _ _ _ _ Hb)).
    destruct (add_constraint_ok _ rho val coh _ p2 Hn I2 F2) as [I3 F3]. destruct (add_constraint (type_of_name ck) (negate goal) p2) as [p3 [u|err]]; [|done].
    cbn in I3, F3. destruct (prover_prove p3) as [[]|] eqn:Ep; [done| |done]. by eapply (prove_unsat _ rho val coh ranged p3 I3 F3).
Qed.
End goals.

(** ** Calls *)

Section calls.
Context (ck : Checker) (rho : PExpr -> Z).

(** The name that stands for a call has the value that the call returned. *)
Fixpoint names_calls (e : PExpr) (st : nat * list PExpr) : Prop :=
  match e with
  | EFunctionCall _ _ _ => rho (abstract_calls ck e st).1 = rho e
  | EBinaryOp a _ b _ _ | ERelationalOp a _ b _ _ | ELogicalOp a _ b _ => names_calls a st /\ names_calls b (abstract_calls ck a st).2
  | EUnaryOp _ e _ | EAsCast e _ _ _ => names_calls e st
  | _ => True
  end.

Lemma abstract_two a b st (k : PExpr -> PExpr -> PExpr) :
  (let (a, st) := abstract_in ck false a st in let (b, st) := abstract_in ck false b st in (k a b, st)).1 =
  k (abstract_calls ck a st).1 (abstract_calls ck b (abstract_calls ck a st).2).1.
Proof. unfold abstract_calls. destruct (abstract_in ck false a st) as [a' st']. cbn. by destruct (abstract_in ck false b st'). Qed.

Lemma abstract_call name args span st : exists n, (abstract_calls ck (EFunctionCall name args span) st).1 = EIdentifier (call_name n) span.
Proof.
  unfold abstract_calls. cbn [abstract_in]. match goal with |- context [?f args st] => destruct (f args st) as [args' [n facts]] end. by exists n.
Qed.

Context (fresh : forall n, type_of_name ck (call_name n) = None).

Lemma abstract_ev e : forall st t, typed (type_of_name ck) e t -> names_calls e st ->
  typed (type_of_name ck) (abstract_calls ck e st).1 t /\ ev rho t (abstract_calls ck e st).1 = ev rho t e.
Proof.
  induction e as [e IH] using expr_ind. intros st t Ht Hn. destruct e; try done.
  - destruct (abstract_call name args span st) as [n E]. cbn [names_calls] in Hn. rewrite E in *. cbn [typed ev]. split; [|by f_equal].
    intros t' r H. by rewrite fresh in H.
  - destruct Ht as (Ho & T1 & T2). destruct Hn as [N1 N2].
    destruct (IH e1 ltac:(cbn; set_solver) _ t T1 N1) as [A1 E1]. destruct (IH e2 ltac:(cbn; set_solver) _ t T2 N2) as [A2 E2].
    unfold abstract_calls at 1 2. cbn [abstract_in]. rewrite !(abstract_two e1 e2 st (fun a b => EBinaryOp a op b span operand_ty)). cbn [typed ev].
    by rewrite E1, E2.
  - destruct op; [done| |done]. destruct (IH e ltac:(cbn; set_solver) st t Ht Hn) as [A1 E1].
    assert ((abstract_calls ck (EUnaryOp Neg e span) st).1 = EUnaryOp Neg (abstract_calls ck e st).1 span) as ->.
    { unfold abstract_calls. cbn [abstract_in]. by destruct (abstract_in ck false e st). }
    split; [done|]. cbn [ev]. rewrite E1. destruct (ev rho t e); [|done]. cbn.
    destruct (match e with ENumber _ _ _ => true | _ => false end) eqn:En; [by destruct e|].
    assert (forall A (x y : A), match e with ENumber _ _ _ => x | _ => y end = y) as -> by (by destruct e).
    destruct e; try done; [by destruct (abstract_call name args span0 st) as [n ->]|..]; unfold abstract_calls; cbn [abstract_in];
      repeat match goal with |- context [abstract_in ck false ?x ?y] => destruct (abstract_in ck false x y) end; done.
  - destruct Ht as (from & Hc & Ht). destruct (IH e ltac:(cbn; set_solver) st from Ht Hn) as [A1 E1].
    assert ((abstract_calls ck (EAsCast e target_ty source_ty span) st).1 = EAsCast (abstract_calls ck e st).1 target_ty source_ty span) as ->.
    { unfold abstract_calls. cbn [abstract_in]. by destruct (abstract_in ck false e st). }
    split; [by exists from|]. cbn [ev]. by rewrite Hc, E1.
Qed.

Lemma abstract_holds e b : holds (type_of_name ck) rho e b -> forall st, names_calls e st -> holds (type_of_name ck) rho (abstract_calls ck e st).1 b.
Proof.
  induction 1 as [a op c span ty t x y Ho Hi T1 T2 E1 E2|a op c span x y _ IH1 _ IH2|e span x _ IH]; intros st Hn.
  - destruct Hn as [N1 N2]. destruct (abstract_ev a st t T1 N1) as [A1 F1]. destruct (abstract_ev c _ t T2 N2) as [A2 F2].
    unfold abstract_calls. cbn [abstract_in]. rewrite (abstract_two a c st (fun a b => ERelationalOp a op b span ty)).
    eapply holds_rel; [done|done|done|done|by rewrite F1|by rewrite F2].
  - destruct Hn as [N1 N2]. unfold abstract_calls. cbn [abstract_in]. rewrite (abstract_two a c st (fun a b => ELogicalOp a op b span)).
    apply holds_log; [by apply IH1|by apply IH2].
  - assert ((abstract_calls ck (EUnaryOp Not e span) st).1 = EUnaryOp Not (abstract_calls ck e st).1 span) as ->.
    { unfold abstract_calls. cbn [abstract_in]. by destruct (abstract_in ck false e st). }
    by apply holds_not, IH.
Qed.
End calls.

(** ** Assignments *)

Section assignment.
Context (type_of type_of' : Symbol -> option (ElementType * bool)) (rho rho' : PExpr -> Z).
Context (x old : Symbol) (int : ElementType) (r : bool) (v : Z).

Let names : gmap Symbol PExpr := {[ x := ident old ]}.
Let sub : PExpr -> PExpr := substitute_names names.

(** After the assignment [x] has the value [v], and whatever had a value before has it with the old variable in place of [x]. *)
Definition after_assignment : Prop :=
  (forall span, rho' (EIdentifier x span) = v) /\
  forall e, expr_mentions (sub e) x = false -> rho' (sub e) = rho e.

(** The types of the names that the facts have. *)
Definition types_kept (e : PExpr) : Prop := forall n span, EIdentifier n span ∈ visit_expr e -> n <> x -> type_of' n = type_of n.

Context (after : after_assignment) (type_x : type_of x = Some (int, r)) (type_old : type_of' old = Some (int, true)).

Lemma sub_unmentioned e : expr_mentions e x = false -> sub e = e.
Proof.
  induction e as [e IH] using expr_ind. unfold sub in *. destruct e; cbn [expr_mentions substitute_names]; intros H; try done.
  - apply bool_decide_eq_false in H. unfold names. by rewrite lookup_singleton_ne.
  - by rewrite (IH e ltac:(cbn; set_solver) H).
  - apply orb_false_iff in H as [H1 H2]. by rewrite (IH e1 ltac:(cbn; set_solver) H1), (IH e2 ltac:(cbn; set_solver) H2).
  - apply orb_false_iff in H as [H1 H2]. by rewrite (IH e1 ltac:(cbn; set_solver) H1), (IH e2 ltac:(cbn; set_solver) H2).
  - apply orb_false_iff in H as [H1 H2]. by rewrite (IH e1 ltac:(cbn; set_solver) H1), (IH e2 ltac:(cbn; set_solver) H2).
  - apply orb_false_iff in H as [H1 H2]. by rewrite (IH e1 ltac:(cbn; set_solver) H1), (IH e2 ltac:(cbn; set_solver) H2).
  - by rewrite (IH e ltac:(cbn; set_solver) H).
Qed.

Lemma types_kept_kid e k : k ∈ visited_exprs e -> types_kept e -> types_kept k.
Proof. intros Hk H n span Hn. apply (H n span). by eapply visit_kid. Qed.

Lemma sub_ev e : forall t, typed type_of e t -> types_kept e -> expr_mentions (sub e) x = false ->
  typed type_of' (sub e) t /\ ev rho' t (sub e) = ev rho t e.
Proof.
  destruct after as [_ Hrho]. induction e as [e IH] using expr_ind. intros t Ht Hk Hm.
  assert (forall k t, k ∈ kid_exprs e -> k ∈ visited_exprs e -> typed type_of k t -> expr_mentions (sub k) x = false -> typed type_of' (sub k) t /\ ev rho' t (sub k) = ev rho t k) as IH'
    by (intros k t' Hin Hv' Hk' Hm'; apply IH; [done|done|by eapply types_kept_kid|done]). clear IH.
  pose proof (Hrho e Hm) as He. unfold sub in *. destruct e; try done; cbn [substitute_names] in *.
  - unfold names in *. destruct (decide (name = x)) as [->|Hne].
    + rewrite lookup_singleton_eq in *. cbn [from_option] in *. unfold id, ident in *. cbn [typed ev] in *. rewrite He. split; [|done].
      rewrite type_old. intros t' r' [= <- <-]. by apply (Ht int r).
    + rewrite lookup_singleton_ne in * by done. cbn [from_option] in *. cbn [typed ev] in *. rewrite He. split; [|done].
      intros t' r'. rewrite (Hk name span); [apply Ht|cbn; by left|done].
  - cbn [ev]. by rewrite He.
  - cbn [ev typed] in *. by rewrite He.
  - cbn [ev typed] in *. by rewrite He.
  - cbn [ev typed] in *. by rewrite He.
  - cbn [ev typed expr_mentions] in *. destruct Ht as (Ho & T1 & T2). apply orb_false_iff in Hm as [M1 M2].
    destruct (IH' e1 t ltac:(cbn; set_solver) ltac:(cbn; set_solver) T1 M1) as [A1 ->]. destruct (IH' e2 t ltac:(cbn; set_solver) ltac:(cbn; set_solver) T2 M2) as [A2 ->]. done.
  - cbn [ev typed expr_mentions] in *. destruct op; [done| |done]. destruct (IH' e t ltac:(cbn; set_solver) ltac:(cbn; set_solver) Ht Hm) as [A1 ->]. split; [done|].
    destruct (ev rho t e); [|done]. cbn. destruct e; try done. cbn [substitute_names]. unfold names. destruct (decide (name = x)) as [->|Hne];
      [by rewrite lookup_singleton_eq|by rewrite lookup_singleton_ne].
  - cbn [ev typed] in *. by rewrite He.
  - cbn [ev typed expr_mentions] in *. destruct Ht as (from & Hc & Ht). pose proof (sub_unmentioned e Hm) as Es. unfold sub in Es.
    destruct (IH' e from ltac:(cbn; set_solver) ltac:(cbn; set_solver) Ht ltac:(by rewrite Es)) as [A1 E1]. rewrite Es in *. split; [by exists from|]. rewrite Hc. by case_match.
Qed.

Lemma sub_holds c b : holds type_of rho c b -> types_kept c -> expr_mentions (sub c) x = false -> holds type_of' rho' (sub c) b.
Proof.
  induction 1 as [a op e span ty t y z Ho Hi T1 T2 E1 E2|a op e span y z _ IH1 _ IH2|e span y _ IH]; intros Hk Hm; unfold sub in *; cbn [substitute_names] in *;
    cbn [expr_mentions] in Hm.
  - apply orb_false_iff in Hm as [M1 M2]. destruct (sub_ev a t T1) as [A1 F1]; [by eapply types_kept_kid; [|exact Hk]; cbn; set_solver|done|].
    destruct (sub_ev e t T2) as [A2 F2]; [by eapply types_kept_kid; [|exact Hk]; cbn; set_solver|done|].
    eapply holds_rel; [done|done|done|done|by rewrite <-E1|by rewrite <-E2].
  - apply orb_false_iff in Hm as [M1 M2]. apply holds_log; [apply IH1|apply IH2]; try done; by eapply types_kept_kid; [|exact Hk]; cbn; set_solver.
  - apply holds_not, IH; [|done]. by eapply types_kept_kid; [|exact Hk]; cbn; set_solver.
Qed.

Lemma no_fact_holds : holds type_of' rho' no_fact true.
Proof. apply (holds_rel _ _ (number_expr "0") REq (number_expr "0") Span_default None I32 0 0); [by left|by eexists|by left|by left|done|done]. Qed.

Lemma rename_holds c : holds type_of rho c true -> types_kept c -> holds type_of' rho' (rename_fact x names c) true.
Proof.
  intros Hc Hk. unfold rename_fact. fold (sub c). destruct (expr_mentions c x) eqn:E1.
  - destruct (expr_mentions (sub c) x) eqn:E2; [apply no_fact_holds|by apply sub_holds].
  - rewrite <-(sub_unmentioned c E1). apply sub_holds; [done|done|by rewrite sub_unmentioned].
Qed.

(** The new fact, when the value speaks of the old variable only where the renaming reaches. *)
Lemma new_fact_holds span e fact : int_elem int -> type_of' x = Some (int, r) -> typed type_of e int -> types_kept e -> ev rho int e = Some v ->
  expr_mentions (sub e) x = false -> fact_of_an_assignment (EIdentifier x span) e names = Some fact -> holds type_of' rho' fact true.
Proof.
  intros Hi Hx Ht Hk He Hm Hf. unfold fact_of_an_assignment in Hf. destruct (is_modelled e); [|done]. injection Hf as <-. fold (sub e).
  destruct (sub_ev e int Ht Hk Hm) as [A E]. destruct after as [Hv _]. assert (rel_op REq v v = true) as <- by (cbn; apply Z.eqb_refl).
  eapply holds_rel; [by left|done| |exact A| |by rewrite E]; [cbn; intros t' r'; rewrite Hx; by intros [= <- <-]|]. cbn. by rewrite Hv.
Qed.
End assignment.

(** ** The checker *)

Lemma strip_prefix_app p s : strip_prefix p (p +:+ s) = Some s.
Proof. induction p as [|c p IH]; [done|]. rewrite append_cons. cbn. by rewrite Ascii.eqb_refl. Qed.

Lemma parse_u_to_string n : Z.of_nat n <= umax 64 -> parse_uint 64 (u_to_string 20 (Z.of_nat n) "") = Some (Z.of_nat n).
Proof.
  intros Hn. destruct (u_to_string_spec 20 (Z.of_nat n) "") as (H1 & H2 & H3); [|done|].
  - split; [lia|]. apply Z.le_lt_trans with (umax 64); [done|]. done.
  - rewrite parse_uint_digits by done. unfold dec_value. rewrite H3. apply checked_u_Some. cbn. lia.
Qed.

Section checker.
Context (ck : Checker) (x : Symbol) (ty : Ty) (int : ElementType).

Let n := length (ck_old_values ck).
Let ck' (cs : list PExpr) := with_constraints cs (with_old_values (ck_old_values ck ++ [int]) ck).

(** A [$old_N] of the expression was given out. *)
Definition old_names_known (e : PExpr) : Prop :=
  forall m span s i, EIdentifier m span ∈ visit_expr e -> strip_prefix "$old_" m = Some s -> parse_uint 64 s = Some i -> (Z.to_nat i < n)%nat.

Lemma type_of_kept cs m : (forall s i, strip_prefix "$old_" m = Some s -> parse_uint 64 s = Some i -> (Z.to_nat i < n)%nat) ->
  type_of_name (ck' cs) m = type_of_name ck m.
Proof.
  intros H. unfold type_of_name, prover_int_type. destruct (strip_prefix "$old_" m) as [s|] eqn:Es; [|done].
  destruct (parse_uint 64 s) as [i|] eqn:Ei; [|done]. cbn [mbind option_bind]. unfold ck'. cbn [ck_old_values with_constraints with_old_values].
  by rewrite lookup_app_l by (by eapply H).
Qed.

Lemma type_of_old cs : Z.of_nat n <= umax 64 -> type_of_name (ck' cs) (old_name n) = Some (int, true).
Proof.
  intros Hn. unfold type_of_name, prover_int_type, old_name. rewrite strip_prefix_app, parse_u_to_string by done. cbn [mbind option_bind].
  unfold ck'. cbn [ck_old_values with_constraints with_old_values]. rewrite Nat2Z.id, list_lookup_middle by done. done.
Qed.
End checker.

(** C16. The facts survive an assignment to an integer variable: if all of them hold before [x = e], then all of them, with the
    new fact about [x], hold after it, when every mention of [x] in [e] is one that the renaming reaches. *)
Theorem assignment_keeps_facts ck x span ty int r e rho rho' v :
  let names := {[ x := ident (old_name (length (ck_old_values ck))) ]} in
  scalar_int ty = Some int -> type_of_name ck x = Some (int, r) -> strip_prefix "$old_" x = None ->
  ck_change_frames ck = [] -> Z.of_nat (length (ck_old_values ck)) <= umax 64 ->
  Forall (old_names_known ck) (e :: ck_constraints ck) ->
  Forall (fun c => holds (type_of_name ck) rho c true) (ck_constraints ck) ->
  typed (type_of_name ck) e int -> ev rho int e = Some v -> expr_mentions (substitute_names names e) x = false ->
  after_assignment rho rho' x (old_name (length (ck_old_values ck))) v ->
  let ck' := assign_facts (EIdentifier x span) ty e ck in
  Forall (fun c => holds (type_of_name ck') rho' c true) (ck_constraints ck').
Proof.
  intros names Hs Hx Hp Hf Hn Hk Hc Ht He Hm Ha ck'. unfold ck', assign_facts, name_the_old_value. rewrite Hs, Hf, bool_decide_eq_true_2 by done. cbn [negb assigned_root mbind option_bind]. fold names.
  apply Forall_cons in Hk as [Hke Hk]. assert (int_elem int) as Hi.
  { unfold scalar_int in Hs. destruct ty; try done. destruct (bool_decide (is_Some _)) eqn:E1; [|done]. destruct (bool_decide (elem = Bool)) eqn:E2; [done|].
    injection Hs as <-. apply bool_decide_eq_true in E1. apply bool_decide_eq_false in E2. unfold int_elem, bits_not_bool. by rewrite decide_False. }
  set (cs := rename_fact x names <$> ck_constraints ck). set (new := opt_list (fact_of_an_assignment (EIdentifier x span) e names)).
  change (with_constraints (ck_constraints (with_constraints cs ?c) ++ new) (with_constraints cs ?c)) with (with_constraints (cs ++ new) c).
  assert (forall c, old_names_known ck c -> types_kept (type_of_name ck) (type_of_name (with_constraints (cs ++ new) (with_old_values (ck_old_values ck ++ [int]) ck))) x c) as Hkept.
  { intros c Hc' m sp Hin _. apply type_of_kept. intros s i Hpre Hpar. by eapply (Hc' m sp). }
  pose proof (type_of_old ck int (cs ++ new) Hn) as Hold.
  cbn [ck_constraints with_constraints]. apply Forall_app. split.
  - unfold cs at 2. apply Forall_fmap. rewrite Forall_forall in *. intros c Hin. cbn. by eapply rename_holds; [exact Ha|exact Hx|exact Hold|apply Hc|apply Hkept, Hk].
  - unfold new at 2. destruct (fact_of_an_assignment (EIdentifier x span) e names) as [fact|] eqn:Ef; [|constructor]. constructor; [|constructor].
    eapply new_fact_holds; [exact Ha|exact Hx|exact Hold|exact Hi| |exact Ht|by apply Hkept|exact He|exact Hm|exact Ef].
    rewrite type_of_kept; [exact Hx|]. intros s i Hs'. congruence.
Qed.


(** ** Examples *)

(** A parameter [x] of type [i32], and the fact [x > 5]. *)
Definition rel (a : PExpr) (op : RelationalOp) (b : PExpr) : PExpr := ERelationalOp a op b Span_default None.
Definition demo_checker : Checker :=
  mkChecker [rel (ident "x") RGt (number_expr "5")] ∅ [] None [{[ "x" := Scalar I32 ]}] {[ "x" := Scalar I32 ]} [] [] [].
Definition demo_goal : PExpr := rel (ident "x") RGt (number_expr "3").

Definition demo_forms : list sexp :=
  [set_logic_form; declare_form "x";
   assert_form (Form [Word "<="; Form [Word "-"; Word "2147483648"]; Word "x"; Form [Word "-"; Word "2147483648"; Word "1"]]);
   assert_form (Form [Word ">"; Word "x"; Word "5"]); assert_form (Form [Word "not"; Form [Word ">"; Word "x"; Word "3"]]); check_form].

(** A solver that knows one script. *)
Lemma demo_unsat ctx : mapM read_command demo_forms = Some (Other :: ctx ++ [Check_sat]) -> ~ satisfiable ctx.
Proof.
  intros [= E] (nu & Hf & Ht). destruct ctx as [|c1 [|c2 [|c3 [|c4 [|c5 ctx]]]]]; simplify_list_eq; [|by destruct ctx].
  unfold fits_all in Hf. rewrite !Forall_cons in Hf, Ht. destruct Hf as ((v & Hv & Hs) & _). destruct v as [z| |]; try done. cbn in Hv.
  destruct Ht as (_ & _ & H1 & H2 & _). cbn in H1, H2. rewrite Hv in H1, H2. cbn in H1, H2. injection H1 as H1. injection H2 as H2.
  change (dec_value "5") with 5 in H1. change (dec_value "3") with 3 in H2. rewrite andb_true_r in *. apply negb_true_iff in H2. lia.
Qed.

Definition demo_known (cmds : list sexp) : string := if sexp_eqb (Form cmds) (Form demo_forms) then "unsat" else "unknown".

#[local] Instance demo_z3 : Z3.
Proof.
  refine (table_z3 demo_known _ _); unfold demo_known.
  - intros cmds. destruct (sexp_eqb _ _); set_solver.
  - intros cmds read ctx Hr Hl. split; [|by destruct (sexp_eqb _ _)]. destruct (sexp_eqb _ _) eqn:E; [intros _|done].
    apply sexp_eqb_eq in E. injection E as ->. apply demo_unsat. injection Hr as <-. injection Hl as <-. reflexivity.
Defined.

Lemma demo_types n : type_of_name demo_checker n = if decide (n = "x") then Some (I32, true) else None.
Proof.
  case_decide as E; [by subst; vm_compute|]. unfold type_of_name, prover_int_type.
  destruct (strip_prefix "$old_" n) as [s|]; [by destruct (parse_uint 64 s)|]. case_decide; [done|].
  unfold lookup. cbn [ck_scopes demo_checker omap list_omap]. by rewrite lookup_singleton_ne.
Qed.

Lemma demo_legal n : n <> "" -> all_digits n = true -> legal_names (rel (ident "x") RGt (number_expr n)).
Proof.
  intros H1 H2. split; [|done]. split; [|done]. cbn. split_and!; [done|done|]. refine (bool_decide_unpack _ _). by vm_compute.
Qed.


(** [x = x + 1] where [y == x] holds. *)
Definition two_variables : Checker :=
  mkChecker [rel (ident "y") REq (ident "x")] ∅ [] None [{[ "x" := Scalar I64; "y" := Scalar I64 ]}] ∅ [] [] [].
Definition x_plus_1 : PExpr := EBinaryOp (ident "x") Add (number_expr "1") Span_default (Some I64).
Definition is_x (e : PExpr) : bool := match e with EIdentifier n _ => bool_decide (n = "x") | _ => false end.

Lemma assignment_keeps_facts_witness :
  let ck' := assign_facts (ident "x") (Scalar I64) x_plus_1 two_variables in
  ck_constraints ck' = [rel (ident "y") REq (ident "$old_0"); rel (ident "x") REq (EBinaryOp (ident "$old_0") Add (number_expr "1") Span_default (Some I64))] /\
  Forall (fun c => holds (type_of_name ck') (fun e => if is_x e then 6 else 5) c true) (ck_constraints ck').
Proof.
  intros ck'. split; [by vm_compute|].
  assert (forall n, n = "x" \/ n = "y" -> typed (type_of_name two_variables) (ident n) I64) as Ht.
  { intros n [->| ->] t r; vm_compute; by intros [= <- _]. }
  refine (assignment_keeps_facts two_variables "x" Span_default (Scalar I64) I64 false x_plus_1 (fun _ => 5) (fun e => if is_x e then 6 else 5) 6 _ _ _ _ _ _ _ _ _ _ _);
    [by vm_compute|by vm_compute|by vm_compute|done|done| | | |by vm_compute|by vm_compute|].
  - assert (forall e, (forall n s, EIdentifier n s ∈ visit_expr e -> n = "x" \/ n = "y") -> old_names_known two_variables e) as Hk.
    { intros e He m sp s i Hin Hs. destruct (He m sp Hin) as [->| ->]; by vm_compute in Hs. }
    repeat constructor; apply Hk; intros n s Hin; vm_compute in Hin; set_solver.
  - constructor; [|constructor]. apply (holds_rel _ _ (ident "y") REq (ident "x") Span_default None I64 5 5); [by left|by eexists|by apply Ht; right|by apply Ht; left|done|done].
  - split_and!; [by right|by apply Ht; left|by left].
  - split; [done|]. intros e Hm. destruct (is_x _) eqn:E; [|done]. destruct (substitute_names _ e); try done. cbn in Hm, E. congruence.
Defined.

(** [x = inc(x)] where [inc] ensures [return == n + 1]. *)
Definition inc : Fn := mkFn ["n"] [rel (ident "return") REq (EBinaryOp (ident "n") Add (number_expr "1") Span_default (Some I64))].
Definition with_inc : Checker := mkChecker [] {[ "inc" := inc ]} [] None [{[ "x" := Scalar I64 ]}] ∅ [] [] [].
Definition x_is_inc_x : Checker := assign_facts (ident "x") (Scalar I64) (EFunctionCall "inc" [ident "x"] Span_default) with_inc.

Lemma holds_eq type_of rho a b r : holds type_of rho (rel a REq b) r -> r = true ->
  exists t v, typed type_of a t /\ typed type_of b t /\ ev rho t a = Some v /\ ev rho t b = Some v.
Proof.
  intros H. inversion H as [? ? ? ? ? t y z _ Hi T1 T2 E1 E2| |]; subst. cbn. intros Et%Z.eqb_eq. subst z. by exists t, y.
Qed.

Lemma no_successor z : wrap_i 64 (z + 1) <> z.
Proof.
  unfold wrap_i. change (2 ^ 64) with 18446744073709551616. change (2 ^ (64 - 1)) with 9223372036854775808.
  pose proof (Z.div_mod (z + 1 + 9223372036854775808) 18446744073709551616 ltac:(done)). lia.
Qed.

(** Where the value of an assignment calls a function with the variable, the renaming does not reach the argument: after
    [x = inc(x)] the facts say [x == inc(x)] and [inc(x) == x + 1] of the new [x].  They hold in no state, so from there on
    even [0 == 1] follows from them. *)
Lemma self_call_contradicts rho : ~ Forall (fun c => holds (type_of_name x_is_inc_x) rho c true) (obligation x_is_inc_x unreachable_fact).1.
Proof.
  assert ((obligation x_is_inc_x unreachable_fact).1 =
    [rel (ident "x") REq (ident "$call_0"); rel (ident "$call_0") REq (EBinaryOp (ident "x") Add (number_expr "1") Span_default (Some I64))]) as -> by (by vm_compute).
  intros [H1 [H2 _]%Forall_cons]%Forall_cons. apply holds_eq in H1 as (t & v & _ & _ & E1 & E2); [|done]. apply holds_eq in H2 as (t' & v' & _ & T2 & E3 & E4); [|done].
  destruct T2 as ([|[= <-]] & _); [done|]. cbn in E1, E2, E3, E4. change (0 * 10 + digit_value "1") with 1 in E4. change (machine I64 ?z) with (Some (wrap_i 64 z)) in E4.
  apply (no_successor (rho (ident "x"))). unfold ident in *. congruence.
Qed.

(** The same with a cast: [x = (x as i64) + 1]. *)
Definition x_is_cast_x : Checker :=
  assign_facts (ident "x") (Scalar I64)
    (EBinaryOp (EAsCast (ident "x") (Scalar I64) (Some (Scalar I64)) Span_default) Add (number_expr "1") Span_default (Some I64)) with_inc.

Lemma self_cast_contradicts rho : ~ Forall (fun c => holds (type_of_name x_is_cast_x) rho c true) (obligation x_is_cast_x unreachable_fact).1.
Proof.
  intros H. assert ((obligation x_is_cast_x unreachable_fact).1 = [rel (ident "x") REq
    (EBinaryOp (EAsCast (ident "x") (Scalar I64) (Some (Scalar I64)) Span_default) Add (number_expr "1") Span_default (Some I64))]) as E by (by vm_compute).
  rewrite E in H. apply Forall_cons in H as [H _]. apply holds_eq in H as (t & v & _ & T & E1 & E2); [|done].
  destruct T as ([|[= <-]] & _); [done|]. cbn in E1. change (Some (wrap_i 64 (rho (ident "x") + 1)) = Some v) in E2.
  apply (no_successor (rho (ident "x"))). unfold ident in *. congruence.
Qed.

(** After a call the facts about what it changed are gone and the others are as they were. *)
Lemma leave_call_exact written ck :
  ck_constraints (leave_call written ck) =
    (fun c => if existsb (expr_mentions c) ((default [] (head (ck_change_frames ck))).*1 ++ written) then no_fact else c) <$> ck_constraints ck.
Proof.
  unfold leave_call. set (changes := default [] _ ++ _).
  replace ((default [] (head (ck_change_frames ck))).*1 ++ written) with changes.*1 by (unfold changes; rewrite fmap_app, <-list_fmap_compose; by rewrite list_fmap_id).
  change (ck_constraints ck) with (ck_constraints (with_change_frames (tail (ck_change_frames ck)) ck)). generalize (with_change_frames (tail (ck_change_frames ck)) ck) as c0.
  clearbody changes. clear ck. induction changes as [|[n behind] changes IH]; intros ck; cbn [foldl fmap list_fmap fst]; [by rewrite list_fmap_id|].
  rewrite IH. cbn [ck_constraints forget_value_facts_about with_constraints]. rewrite <-list_fmap_compose. apply list_fmap_ext. intros _ c _. cbn.
  destruct (expr_mentions c n); [|done]. cbn. by destruct (existsb _ _).
Qed.
