(* ===== verification/Seam.v ===== *)
(** * The seam engine ([src/src/hir/seam.rs], [check/transfer.rs])

    At each hop of a transfer the compiler shows that what a consumer relies on
    still holds after the hop.  The state is a tag and a value for each named
    location; a relaxed transfer loses what it knew of the published locations.
    The obligations go to [z3], to one process that stays and answers one
    obligation after the other. *)

From stdpp Require Import base list strings gmap.
From Stdlib Require Import ZArith Lia Ascii.
From S2P Require Import Prelude Syntax Smt.
Open Scope Z_scope.
Open Scope vx_scope.

(** ** The state at a seam *)

Inductive Tag : Type := Bot | Const | Top.
#[export] Instance Tag_eq_dec : EqDecision Tag.
Proof. solve_decision. Defined.

Record Cell : Type := mkCell { cell_tag : Tag; cell_value : Z }.
Definition Cell_constant (v : Z) : Cell := mkCell Const v.
Definition Cell_top : Cell := mkCell Top 0.

Definition AbsState : Type := list (string * Cell).

Inductive Transfer : Type :=
| Sync
| Relaxed (published : list string).

Record Contract : Type := mkContract { premise : string * Z; conclusion : string * Z }.

(** A counterexample is the lines of the solver's model. *)
Inductive Verdict : Type := Accept | Reject (counterexample : list string).

Definition apply_transfer (state : AbsState) (t : Transfer) : AbsState :=
  match t with
  | Sync => state
  | Relaxed published => (fun nc => if existsb (fun p => bool_decide (p = nc.1)) published then (nc.1, Cell_top) else nc) <$> state
  end.

(** ** Scripts *)

Definition VAL_BITS : Z := 64.

Definition hex_char (d : Z) : ascii := ascii_of_nat (Z.to_nat (if d <? 10 then 48 + d else 87 + d)).

(** The last [k] digits of [v] in base sixteen. *)
Fixpoint hex_digits (k : nat) (v : Z) (acc : string) : string :=
  match k with O => acc | S k => hex_digits k (v / 16) (String (hex_char (v mod 16)) acc) end.

Definition hex (v : Z) : string := "#x" +:+ hex_digits (Z.to_nat (VAL_BITS / 4)) (Z.land v (umax VAL_BITS)) "".

Definition nl : string := String "010" "".

Definition PREAMBLE : string :=
  "(set-option :produce-models true)" +:+ nl +:+
  "(set-logic QF_BV)" +:+ nl +:+
  "(define-fun BOT () (_ BitVec 2) #b00)" +:+ nl +:+
  "(define-fun CONST () (_ BitVec 2) #b01)" +:+ nl +:+
  "(define-fun TOP () (_ BitVec 2) #b11)" +:+ nl.

Definition cell_smt (name : string) (cell : Cell) : string :=
  "(declare-const tag_" +:+ name +:+ " (_ BitVec 2))" +:+ nl +:+
  "(declare-const val_" +:+ name +:+ " (_ BitVec 64))" +:+ nl +:+
  match cell_tag cell with
  | Const =>
      "(assert (= tag_" +:+ name +:+ " CONST))" +:+ nl +:+
      "(assert (= val_" +:+ name +:+ " " +:+ hex (cell_value cell) +:+ "))" +:+ nl
  | Top => "(assert (= tag_" +:+ name +:+ " TOP))" +:+ nl
  | Bot => "(assert (= tag_" +:+ name +:+ " BOT))" +:+ nl
  end.

Definition state_smt (post : AbsState) : string := foldr (fun nc s => cell_smt nc.1 nc.2 +:+ s) "" post.

Definition value_goal_smt (c : Contract) : string :=
  let (pn, pv) := premise c in
  let (cn, cv) := conclusion c in
  "(assert (and (= tag_" +:+ pn +:+ " CONST) (= val_" +:+ pn +:+ " " +:+ hex pv +:+ ")))" +:+ nl +:+
  "(assert (not (and (= tag_" +:+ cn +:+ " CONST) (= val_" +:+ cn +:+ " " +:+ hex cv +:+ "))))" +:+ nl +:+
  "(check-sat)" +:+ nl +:+
  "(get-value (val_" +:+ cn +:+ " tag_" +:+ cn +:+ "))" +:+ nl.

Definition buffers_goal_smt (consumed : list string) : string :=
  let disj := spaced ((fun b => "(= tag_" +:+ b +:+ " TOP)") <$> consumed) in
  "(assert (or " +:+ disj +:+ "))" +:+ nl +:+ "(check-sat)" +:+ nl +:+
  foldr (fun b s => "(get-value (tag_" +:+ b +:+ " val_" +:+ b +:+ "))" +:+ nl +:+ s) "" consumed.

Definition value1_goal_smt (buffer : string) (expected : Z) : string :=
  "(assert (not (= val_" +:+ buffer +:+ " " +:+ hex expected +:+ ")))" +:+ nl +:+ "(check-sat)" +:+ nl +:+
  "(get-value (tag_" +:+ buffer +:+ " val_" +:+ buffer +:+ "))" +:+ nl.

(** ** One script, one process *)

Inductive SeamError : Type := Missing | Closed | NoAnswer | Unexpected (lines : list string).

Fixpoint starts_with (p s : string) : bool :=
  match p, s with
  | EmptyString, _ => true
  | String c p, String d s => Ascii.eqb c d && starts_with p s
  | _, _ => false
  end.

Section solver.
Context `{Z3}.

Definition run_z3 (script : string) : result (bool * list string) SeamError :=
  match z3 script with
  | None => Err Missing
  | Some text =>
      match head (filter (fun l => l = "sat" \/ l = "unsat") text) with
      | Some v =>
          if decide (v = "sat") then Ok (true, filter (fun l => starts_with "((" l || starts_with "(val_" l = true) text) else Ok (false, [])
      | None => Err (Unexpected text)
      end
  end.

Definition verdict_of (r : result (bool * list string) SeamError) : result Verdict SeamError :=
  match r with
  | Ok (violable, model) => Ok (if violable then Reject model else Accept)
  | Err e => Err e
  end.

Definition check_seam (reached : AbsState) (t : Transfer) (c : Contract) : result Verdict SeamError :=
  let post := apply_transfer reached t in
  verdict_of (run_z3 (PREAMBLE +:+ state_smt post +:+ value_goal_smt c)).

Definition check_seam_buffers (reached : AbsState) (t : Transfer) (consumed : list string) : result Verdict SeamError :=
  match consumed with
  | [] => Ok Accept
  | _ => let post := apply_transfer reached t in
         verdict_of (run_z3 (PREAMBLE +:+ state_smt post +:+ buffers_goal_smt consumed))
  end.

(** ** The process that stays

    A pipe is what was written to the process, and how many of its lines were read. *)

Record Pipe : Type := mkPipe { written : string; lines_read : nat }.
Definition Solver : Type := option Pipe.

Definition SENTINEL : string := "<<SEAM-DONE>>".

Definition Solver_start : option Pipe := (fun _ => mkPipe PREAMBLE 0) <$> z3 PREAMBLE.
Definition Solver_new : Solver := Solver_start.

Fixpoint drop_quotes (l : list ascii) : list ascii :=
  match l with c :: l => if Ascii.eqb c quote_mark then drop_quotes l else c :: l | [] => [] end.
Definition trim_quotes (s : string) : string :=
  String.string_of_list_ascii (reverse (drop_quotes (reverse (drop_quotes (String.list_ascii_of_string s))))).

(** The lines up to the sentinel: how many, the last answer and the others. *)
Fixpoint read_reply (lines : list string) (sat : option bool) (model : list string) : option (nat * option bool * list string) :=
  match lines with
  | [] => None
  | t :: lines =>
      if decide (trim_quotes t = SENTINEL) then Some (1%nat, sat, model)
      else (fun '(n, sat, model) => (S n, sat, model)) <$>
        (if decide (t = "sat") then read_reply lines (Some true) model
         else if decide (t = "unsat") then read_reply lines (Some false) model
         else if decide (t = "") then read_reply lines sat model
         else if starts_with "(error" t then read_reply lines sat model
         else read_reply lines sat (model ++ [t]))
  end.

(** What the process has read when it answers the obligation. *)
Definition query_text (body : string) (pipe : Pipe) : string :=
  written pipe +:+ ("(push 1)" +:+ nl +:+ body +:+ "(pop 1)" +:+ nl +:+ "(echo " +:+ quoted SENTINEL +:+ ")" +:+ nl).

Definition query (body : string) (s : Solver) : Solver * result (bool * list string) SeamError :=
  match s with
  | None => (s, Err Missing)
  | Some pipe =>
      let text := query_text body pipe in
      match lines ← z3 text; read_reply (drop (lines_read pipe) lines) None [] with
      | Some (n, sat, model) =>
          (Some (mkPipe text (lines_read pipe + n)), match sat with Some v => Ok (v, model) | None => Err NoAnswer end)
      | None => (Some (mkPipe text (lines_read pipe)), Err Closed)
      end
  end.

Definition Solver_check_seam (reached : AbsState) (t : Transfer) (c : Contract) (s : Solver) : Solver * result Verdict SeamError :=
  let post := apply_transfer reached t in
  let (s, r) := query (state_smt post +:+ value_goal_smt c) s in (s, verdict_of r).

Definition Solver_check_seam_buffers (reached : AbsState) (t : Transfer) (consumed : list string) (s : Solver) : Solver * result Verdict SeamError :=
  match consumed with
  | [] => (s, Ok Accept)
  | _ => let post := apply_transfer reached t in
         let (s, r) := query (state_smt post +:+ buffers_goal_smt consumed) s in (s, verdict_of r)
  end.

Definition Solver_check_seam_value (reached : AbsState) (t : Transfer) (buffer : string) (expected : Z) (s : Solver) : Solver * result Verdict SeamError :=
  let post := apply_transfer reached t in
  let (s, r) := query (state_smt post +:+ value1_goal_smt buffer expected) s in (s, verdict_of r).
End solver.

Example hex_full_width : hex 70000 = "#x0000000000011170" /\ hex (umax 64) = "#xffffffffffffffff".
Proof. by vm_compute. Qed.
