(* ===== verification/SeamSound.v ===== *)
(** * The seam engine decides its contracts

    The obligations as forms of the solver, what they mean, and the theorems: a
    verdict of the process that stays is the truth about the state after the
    transfer, whatever it was asked before. *)

From stdpp Require Import base list strings gmap.
From Stdlib Require Import ZArith Lia Ascii.
From S2P Require Import Prelude Syntax Smt Seam.
Open Scope Z_scope.
Open Scope vx_scope.

(** ** The obligations as forms *)

Definition tag_ (n : string) : string := "tag_" +:+ n.
Definition val_ (n : string) : string := "val_" +:+ n.
Definition bits (k : string) : sexp := Form [Word "_"; Word "BitVec"; Word k].
Definition same (a b : string) : sexp := Form [Word "="; Word a; Word b].
Definition assert_ (t : sexp) : sexp := Form [Word "assert"; t].
Definition declare_ (n k : string) : sexp := Form [Word "declare-const"; Word n; bits k].
Definition define_ (n v : string) : sexp := Form [Word "define-fun"; Word n; Form []; bits "2"; Word v].
Definition get_values (a b : string) : sexp := Form [Word "get-value"; Form [Word a; Word b]].
Definition check_ : sexp := Form [Word "check-sat"].
Definition both (a b : sexp) : sexp := Form [Word "and"; a; b].
Definition not_ (a : sexp) : sexp := Form [Word "not"; a].

Definition preamble_forms : list sexp :=
  [Form [Word "set-option"; Word ":produce-models"; Word "true"]; Form [Word "set-logic"; Word "QF_BV"];
   define_ "BOT" "#b00"; define_ "CONST" "#b01"; define_ "TOP" "#b11"].

Definition tag_name (t : Tag) : string := match t with Bot => "BOT" | Const => "CONST" | Top => "TOP" end.

Definition cell_terms (n : string) (c : Cell) : list sexp :=
  same (tag_ n) (tag_name (cell_tag c)) :: if decide (cell_tag c = Const) then [same (val_ n) (hex (cell_value c))] else [].
Definition cell_forms (n : string) (c : Cell) : list sexp :=
  [declare_ (tag_ n) "2"; declare_ (val_ n) "64"] ++ (assert_ <$> cell_terms n c).
Definition state_forms (post : AbsState) : list sexp := flat_map (fun nc => cell_forms nc.1 nc.2) post.

(** The terms that an obligation asserts, and the names whose values it asks for. *)
Definition is_const_term (n : string) (v : Z) : sexp := both (same (tag_ n) "CONST") (same (val_ n) (hex v)).
Definition contract_terms (c : Contract) : list sexp :=
  [is_const_term (premise c).1 (premise c).2; not_ (is_const_term (conclusion c).1 (conclusion c).2)].
Definition contract_asks (c : Contract) : list (string * string) := [(val_ (conclusion c).1, tag_ (conclusion c).1)].
Definition buffers_terms (consumed : list string) : list sexp := [Form (Word "or" :: ((fun b => same (tag_ b) "TOP") <$> consumed))].
Definition value_terms (buffer : string) (expected : Z) : list sexp := [not_ (same (val_ buffer) (hex expected))].
Definition tag_asks (names : list string) : list (string * string) := (fun b => (tag_ b, val_ b)) <$> names.

Definition goal_forms (terms : list sexp) (asks : list (string * string)) : list sexp :=
  (assert_ <$> terms) ++ check_ :: ((fun ab => get_values ab.1 ab.2) <$> asks).
Definition body_forms (post : AbsState) (terms : list sexp) (asks : list (string * string)) : list sexp :=
  state_forms post ++ goal_forms terms asks.

(** ** The text of the forms *)

Lemma preamble_script : PREAMBLE = script preamble_forms.
Proof. by vm_compute. Qed.

Lemma cell_script n c : cell_smt n c = script (cell_forms n c).
Proof.
  unfold cell_smt, cell_forms, cell_terms. destruct (cell_tag c) eqn:E; cbn [decide]; try (rewrite decide_False by done); try (rewrite decide_True by done);
    cbn [fmap list_fmap app script foldr show spaced assert_ declare_ bits same tag_name tag_ val_]; rewrite !append_assoc; reflexivity.
Qed.

Lemma state_script post : state_smt post = script (state_forms post).
Proof.
  induction post as [|[n c] post IH]; [done|]. change (state_smt ((n, c) :: post)) with (cell_smt n c +:+ state_smt post).
  change (state_forms ((n, c) :: post)) with (cell_forms n c ++ state_forms post). by rewrite script_app, cell_script, IH.
Qed.

Lemma contract_script c : value_goal_smt c = script (goal_forms (contract_terms c) (contract_asks c)).
Proof.
  destruct c as [[pn pv] [cn cv]]. unfold value_goal_smt, goal_forms, contract_terms, contract_asks, is_const_term. cbn [premise conclusion fst snd].
  cbn [fmap list_fmap app script foldr show spaced assert_ both not_ check_ get_values same tag_ val_]. rewrite !append_assoc. reflexivity.
Qed.

Lemma value_script b v : value1_goal_smt b v = script (goal_forms (value_terms b v) (tag_asks [b])).
Proof.
  unfold value1_goal_smt, goal_forms, value_terms, tag_asks.
  cbn [fmap list_fmap app script foldr show spaced assert_ not_ check_ get_values same tag_ val_ fst snd]. rewrite !append_assoc. reflexivity.
Qed.

Lemma buffers_script consumed : consumed <> [] -> buffers_goal_smt consumed = script (goal_forms (buffers_terms consumed) (tag_asks consumed)).
Proof.
  intros Hne. unfold buffers_goal_smt, goal_forms, buffers_terms, tag_asks.
  assert (foldr (fun b s => "(get-value (tag_" +:+ b +:+ " val_" +:+ b +:+ "))" +:+ nl +:+ s) "" consumed =
    script ((fun ab => get_values ab.1 ab.2) <$> ((fun b => (tag_ b, val_ b)) <$> consumed))) as ->.
  { clear Hne. induction consumed as [|b l IH]; [done|]. cbn [foldr fmap list_fmap script]. rewrite IH.
    cbn [show fmap list_fmap spaced get_values fst snd tag_ val_]. rewrite !append_assoc. reflexivity. }
  assert (forall l : list string, l <> [] -> show (Form (Word "or" :: ((fun b => same (tag_ b) "TOP") <$> l))) = "(or " +:+ spaced ((fun b => "(= tag_" +:+ b +:+ " TOP)") <$> l) +:+ ")") as Hor.
  { intros l Hl. cbn [show fmap list_fmap]. rewrite <-list_fmap_compose.
    assert (show ∘ (fun b => same (tag_ b) "TOP") <$> l = (fun b => "(= tag_" +:+ b +:+ " TOP)") <$> l) as ->.
    { apply list_fmap_ext. intros _ b _. cbn [compose show fmap list_fmap spaced same tag_]. rewrite !append_assoc. reflexivity. }
    destruct l as [|b l]; [done|]. cbn [fmap list_fmap]. generalize ("(= tag_" +:+ b +:+ " TOP)"). generalize ((fun b => "(= tag_" +:+ b +:+ " TOP)") <$> l).
    intros k x. change (spaced ("or" :: x :: k)) with ("or" +:+ " " +:+ spaced (x :: k)). rewrite !append_assoc. reflexivity. }
  cbn [fmap list_fmap app script foldr]. unfold assert_ at 1. cbn [show]. cbn [fmap list_fmap]. fold show.
  change (show (Form ?l)) with (show (Form l)). rewrite (Hor consumed Hne). cbn [spaced]. rewrite !append_assoc. reflexivity.
Qed.

(** ** Words *)

Definition good_name (n : string) : Prop := all_chars symbol_char n = true.
Definition u64 (v : Z) : Prop := 0 <= v <= umax 64.

Lemma symbol_plain w : all_chars symbol_char w = true -> all_chars plain_char w = true.
Proof. apply all_chars_impl. intros c. destruct c as [[] [] [] [] [] [] [] []]; vm_compute; try done; by intros [=]. Qed.

Lemma tag_word n : good_name n -> word_ok (tag_ n).
Proof. intros H. left. split; [done|]. by apply symbol_plain. Qed.

Lemma val_word n : good_name n -> word_ok (val_ n).
Proof. intros H. left. split; [done|]. by apply symbol_plain. Qed.

Lemma hex_char_cases d : 0 <= d < 16 -> hex_digit (hex_char d) = Some d /\ plain_char (hex_char d) = true.
Proof.
  intros Hd. assert (d = 0 \/ d = 1 \/ d = 2 \/ d = 3 \/ d = 4 \/ d = 5 \/ d = 6 \/ d = 7 \/ d = 8 \/ d = 9 \/ d = 10 \/ d = 11 \/ d = 12 \/ d = 13 \/ d = 14 \/ d = 15) as H by lia.
  repeat destruct H as [->|H]; subst; by vm_compute.
Qed.

Lemma hex_digits_plain k v acc : all_chars plain_char acc = true -> all_chars plain_char (hex_digits k v acc) = true.
Proof.
  revert v acc. induction k as [|k IH]; intros v acc H; [done|]. apply IH. cbn. rewrite (proj2 (hex_char_cases (v mod 16) (Z.mod_pos_bound v 16 eq_refl))). done.
Qed.

Lemma hex_word v : word_ok (hex v).
Proof. left. split; [done|]. apply (hex_digits_plain 16). done. Qed.

Lemma hex_digits_read k v acc a : bits_from 4 a (hex_digits k v acc) = bits_from 4 (a * 16 ^ Z.of_nat k + v mod 16 ^ Z.of_nat k) acc.
Proof.
  revert v acc. induction k as [|k IH]; intros v acc; cbn [hex_digits].
  - change (16 ^ Z.of_nat 0) with 1. rewrite Z.mod_1_r. f_equal. lia.
  - rewrite IH. destruct (hex_char_cases (v mod 16) (Z.mod_pos_bound v 16 eq_refl)) as [Hd _]. cbn [bits_from]. rewrite Hd.
    pose proof (Z.mod_pos_bound v 16 ltac:(lia)). change (2 ^ 4) with 16. destruct (Z.ltb_spec (v mod 16) 16); [|lia]. f_equal.
    rewrite Nat2Z.inj_succ, Z.pow_succ_r by lia. rewrite Z.rem_mul_r by (try apply Z.pow_pos_nonneg; lia). lia.
Qed.

Lemma hex_digits_length k v acc : str_len (hex_digits k v acc) = Z.of_nat k + str_len acc.
Proof.
  revert v acc. induction k as [|k IH]; intros v acc; cbn [hex_digits]; [lia|]. rewrite IH. unfold str_len. cbn [String.length]. lia.
Qed.

Lemma hex_literal v : u64 v -> literal (hex v) = Some (VBits 64 v).
Proof.
  intros Hv. unfold hex. change (Z.to_nat (VAL_BITS / 4)) with 16%nat.
  assert (Z.land v (umax VAL_BITS) = v) as ->. { unfold u64, umax, VAL_BITS in *. change (2 ^ 64 - 1) with (Z.ones 64). rewrite Z.land_ones by lia. apply Z.mod_small. lia. }
  change (literal ("#x" +:+ ?s)) with (VBits (4 * str_len s) <$> bits_from 4 0 s). rewrite hex_digits_length, hex_digits_read. cbn [bits_from fmap option_fmap option_map].
  unfold str_len. cbn [String.length]. change (16 ^ Z.of_nat 16) with (2 ^ 64). unfold u64, umax in Hv. rewrite Z.mod_small by lia. f_equal.
Qed.

(** ** What the forms read as *)

Definition pre_ctx : list command :=
  [Define_fun "BOT" (SBits 2) (Word "#b00"); Define_fun "CONST" (SBits 2) (Word "#b01"); Define_fun "TOP" (SBits 2) (Word "#b11")].
Definition cell_cmds (n : string) (c : Cell) : list command :=
  [Declare_const (tag_ n) (SBits 2); Declare_const (val_ n) (SBits 64)] ++ (Assert <$> cell_terms n c).
Definition state_cmds (post : AbsState) : list command := flat_map (fun nc => cell_cmds nc.1 nc.2) post.
Definition body_cmds (post : AbsState) (terms : list sexp) (asks : list (string * string)) : list command :=
  state_cmds post ++ (Assert <$> terms) ++ Check_sat :: replicate (length asks) Other.
Definition body_ctx (post : AbsState) (terms : list sexp) : list command := pre_ctx ++ state_cmds post ++ (Assert <$> terms).

Lemma mapM_read_app a b x y : mapM read_command a = Some x -> mapM read_command b = Some y -> mapM read_command (a ++ b) = Some (x ++ y).
Proof. rewrite !mapM_Some. apply Forall2_app. Qed.

Lemma read_asserts ts : mapM read_command (assert_ <$> ts) = Some (Assert <$> ts).
Proof. induction ts as [|t ts IH]; [done|]. cbn [fmap list_fmap mapM]. change (read_command (assert_ t)) with (Some (Assert t)). cbn. by rewrite IH. Qed.

Lemma read_state post : mapM read_command (state_forms post) = Some (state_cmds post).
Proof.
  induction post as [|[n c] post IH]; [done|]. change (state_forms ((n, c) :: post)) with (cell_forms n c ++ state_forms post).
  change (state_cmds ((n, c) :: post)) with (cell_cmds n c ++ state_cmds post). apply mapM_read_app; [|done].
  apply (mapM_read_app [_; _] _ [_; _]); [done|apply read_asserts].
Qed.

Lemma read_body post terms asks : mapM read_command (body_forms post terms asks) = Some (body_cmds post terms asks).
Proof.
  apply mapM_read_app; [apply read_state|]. apply mapM_read_app; [apply read_asserts|]. apply (mapM_read_app [_] _ [_]); [done|].
  induction asks as [|ab asks IH]; [done|]. cbn [fmap list_fmap mapM length replicate]. change (read_command (get_values _ _)) with (Some Other). cbn. by rewrite IH.
Qed.

Lemma state_cmds_add post terms : Forall adds (state_cmds post ++ (Assert <$> terms)).
Proof.
  apply Forall_app. split; [|by apply Forall_fmap, Forall_true]. induction post as [|[n c] post IH]; [constructor|].
  change (state_cmds ((n, c) :: post)) with (cell_cmds n c ++ state_cmds post). apply Forall_app. split; [|done].
  repeat (constructor; [done|]). by apply Forall_fmap, Forall_true.
Qed.

(** ** What the terms mean *)

Definition tag_bits (t : Tag) : Z := match t with Bot => 0 | Const => 1 | Top => 3 end.

(** The tag and the value of each location. *)
Definition memory : Type := string -> Z * Z.

Record reads (nu : string -> option value) (names : list string) (m : memory) : Prop := {
  r_tags : forall t, nu (tag_name t) = Some (VBits 2 (tag_bits t));
  r_cells : forall n, n ∈ names -> nu (tag_ n) = Some (VBits 2 (m n).1) /\ nu (val_ n) = Some (VBits 64 (m n).2) /\ u64 (m n).2;
}.

Definition meaning (names : list string) (g : sexp) (P : memory -> bool) : Prop :=
  forall nu m, reads nu names m -> eval nu g = Some (VBool (P m)).

Lemma eval_same nu a b w x y : eval nu (Word a) = Some (VBits w x) -> eval nu (Word b) = Some (VBits w y) -> eval nu (same a b) = Some (VBool (x =? y)).
Proof.
  intros Ha Hb. unfold same. rewrite (eval_form2 nu "=" _ _ _ _ Ha Hb). change (apply_op "=" [?a; ?b]) with (if same_sort a b then Some (VBool (bool_decide (a = b))) else None).
  cbn. rewrite Z.eqb_refl. do 2 f_equal. apply eq_bool_prop_intro. rewrite bool_decide_spec, Is_true_true, Z.eqb_eq. naive_solver.
Qed.

Lemma tag_meaning names n t : n ∈ names -> meaning names (same (tag_ n) (tag_name t)) (fun m => (m n).1 =? tag_bits t).
Proof.
  intros Hn nu m R. destruct (r_cells _ _ _ R n Hn) as (H1 & _). apply eval_same with 2; [exact H1|]. rewrite <-(r_tags _ _ _ R t). by destruct t.
Qed.

Lemma val_meaning names n v : n ∈ names -> u64 v -> meaning names (same (val_ n) (hex v)) (fun m => (m n).2 =? v).
Proof.
  intros Hn Hv nu m R. destruct (r_cells _ _ _ R n Hn) as (_ & H2 & _). apply eval_same with 64; [exact H2|]. cbn -[literal hex]. by rewrite hex_literal.
Qed.

Lemma both_meaning names a b P Q : meaning names a P -> meaning names b Q -> meaning names (both a b) (fun m => P m && Q m).
Proof.
  intros Ha Hb nu m R. unfold both. rewrite (eval_form2 nu "and" _ _ _ _ (Ha nu m R) (Hb nu m R)). change (apply_op "and" [VBool ?a; VBool ?b]) with (Some (VBool (id a && (id b && true)))).
  unfold id. by rewrite andb_true_r.
Qed.

Lemma not_meaning names a P : meaning names a P -> meaning names (not_ a) (fun m => negb (P m)).
Proof. intros Ha nu m R. unfold not_. cbn -[apply_op]. by rewrite (Ha nu m R). Qed.

Lemma or_meaning names ts Ps : ts <> [] -> Forall2 (meaning names) ts Ps -> meaning names (Form (Word "or" :: ts)) (fun m => existsb (fun P => P m) Ps).
Proof.
  intros Hne H nu m R. cbn -[apply_op mapM].
  assert (mapM (eval nu) ts = Some ((fun P : memory -> bool => VBool (P m)) <$> Ps)) as ->.
  { apply mapM_Some. clear Hne. induction H as [|t P ts Ps Ht _ IH]; constructor; [by apply Ht|done]. }
  cbn [mbind option_bind]. assert (Ps <> []) as Hps by (by destruct H). change (apply_op "or" ?vs) with (match vs with [] => None | _ => (fun l => VBool (existsb id l)) <$> mapM as_bool vs end).
  assert (mapM as_bool ((fun P : memory -> bool => VBool (P m)) <$> Ps) = Some ((fun P : memory -> bool => P m) <$> Ps)) as Hm.
  { clear. induction Ps as [|P Ps IH]; [done|]. cbn. cbn in IH. by rewrite IH. }
  destruct Ps as [|P Ps]; [done|]. rewrite Hm. cbn [fmap option_fmap option_map]. do 2 f_equal. clear. generalize (P :: Ps) as l. intros l. induction l as [|Q l IH]; [done|].
  change (Q m || existsb id ((fun P : memory -> bool => P m) <$> l) = Q m || existsb (fun P => P m) l). f_equal. exact IH.
Qed.

(** ** When an obligation is satisfiable *)

(** The locations have what the state says. *)
Definition stands (post : AbsState) (m : memory) : Prop :=
  forall n c, (n, c) ∈ post -> (m n).1 = tag_bits (cell_tag c) /\ u64 (m n).2 /\ (cell_tag c = Const -> (m n).2 = cell_value c).

Definition state_ok (post : AbsState) : Prop := NoDup post.*1 /\ forall n c, (n, c) ∈ post -> good_name n /\ u64 (cell_value c).

Lemma elem_of_state_cmds post x : x ∈ state_cmds post <-> exists n c, (n, c) ∈ post /\ x ∈ cell_cmds n c.
Proof.
  unfold state_cmds. rewrite list_elem_of_In, in_flat_map. split.
  - intros ([n c] & H1 & H2). exists n, c. by rewrite !list_elem_of_In.
  - intros (n & c & H1 & H2). exists (n, c). by rewrite <-!list_elem_of_In.
Qed.

Lemma elem_of_cell_cmds n c x : x ∈ cell_cmds n c <-> x = Declare_const (tag_ n) (SBits 2) \/ x = Declare_const (val_ n) (SBits 64) \/ exists t, x = Assert t /\ t ∈ cell_terms n c.
Proof. unfold cell_cmds. rewrite elem_of_app, !elem_of_cons, elem_of_nil, list_elem_of_fmap. naive_solver. Qed.

Lemma cell_terms_meaning post n c t : state_ok post -> (n, c) ∈ post -> t ∈ cell_terms n c ->
  exists P, meaning post.*1 t P /\ forall m, stands post m -> P m = true.
Proof.
  intros [_ Hok] Hin. destruct (Hok n c Hin) as [_ Hv]. assert (n ∈ post.*1) as Hn by (apply list_elem_of_fmap; by exists (n, c)).
  unfold cell_terms. rewrite elem_of_cons. intros [->|Ht].
  - exists (fun m => (m n).1 =? tag_bits (cell_tag c)). split; [by apply tag_meaning|]. intros m Hm. apply Z.eqb_eq, (Hm n c Hin).
  - case_decide as E; [|by apply elem_of_nil in Ht]. apply list_elem_of_singleton in Ht as ->. exists (fun m => (m n).2 =? cell_value c).
    split; [by apply val_meaning|]. intros m Hm. apply Z.eqb_eq. by apply (Hm n c Hin).
Qed.

Lemma terms_stand nu post m : state_ok post -> reads nu post.*1 m ->
  (forall n c t, (n, c) ∈ post -> t ∈ cell_terms n c -> eval nu t = Some (VBool true)) -> stands post m.
Proof.
  intros [_ Hok] R Ht n c Hin. destruct (Hok n c Hin) as [_ Hv]. assert (n ∈ post.*1) as Hn by (apply list_elem_of_fmap; by exists (n, c)).
  split_and!; [|by apply (r_cells _ _ _ R n Hn)|].
  - pose proof (Ht n c (same (tag_ n) (tag_name (cell_tag c))) Hin ltac:(by left)) as E. rewrite (tag_meaning post.*1 n (cell_tag c) Hn nu m R) in E. injection E as E. by apply Z.eqb_eq.
  - intros Ec. pose proof (Ht n c (same (val_ n) (hex (cell_value c))) Hin ltac:(unfold cell_terms; rewrite decide_True by done; right; by left)) as E.
    rewrite (val_meaning post.*1 n (cell_value c) Hn Hv nu m R) in E. injection E as E. by apply Z.eqb_eq.
Qed.

Definition bits_of (v : option value) : Z := match v with Some (VBits _ z) => z | _ => 0 end.

Lemma fits_reads nu post terms : fits_all nu (body_ctx post terms) -> reads nu post.*1 (fun n => (bits_of (nu (tag_ n)), bits_of (nu (val_ n)))).
Proof.
  intros Hf. unfold fits_all, body_ctx in Hf. rewrite !Forall_app in Hf. destruct Hf as (Hp & Hs & _). split.
  - rewrite Forall_forall in Hp. intros t. destruct (Hp (Define_fun (tag_name t) (SBits 2) (Word (match t with Bot => "#b00" | Const => "#b01" | Top => "#b11" end)))) as (v & -> & _ & E).
    { unfold pre_ctx. destruct t; set_solver. }
    rewrite <-E. by destruct t.
  - rewrite Forall_forall in Hs. intros n Hn. apply list_elem_of_fmap in Hn as ([n' c] & -> & Hin). cbn [fst snd].
    destruct (Hs (Declare_const (tag_ n') (SBits 2))) as (v & E1 & H1). { apply elem_of_state_cmds. exists n', c. split; [done|]. apply elem_of_cell_cmds. by left. }
    destruct (Hs (Declare_const (val_ n') (SBits 64))) as (w & E2 & H2). { apply elem_of_state_cmds. exists n', c. split; [done|]. apply elem_of_cell_cmds. by right; left. }
    rewrite E1, E2. destruct v as [| |w1 z1]; [done|done|]. destruct w as [| |w2 z2]; [done|done|]. cbn in H1, H2. destruct H1 as [-> _], H2 as [-> H2]. done.
Qed.

(** The words that the state declares. *)
Definition words (names : list string) : list string := flat_map (fun n => [tag_ n; val_ n]) names.

Lemma elem_of_words l x : x ∈ words l <-> exists n, n ∈ l /\ (x = tag_ n \/ x = val_ n).
Proof. unfold words. rewrite list_elem_of_In, in_flat_map. setoid_rewrite <-list_elem_of_In. set_solver. Qed.

Lemma words_NoDup l : NoDup l -> NoDup (words l).
Proof.
  induction 1 as [|n l Hn _ IH]; [constructor|]. change (words (n :: l)) with ([tag_ n; val_ n] ++ words l).
  apply NoDup_app. split_and!; [apply NoDup_cons; split; [set_solver|apply NoDup_singleton]| |done].
  intros x Hx (n' & Hn' & Hx')%elem_of_words. rewrite !elem_of_cons, elem_of_nil in Hx. unfold tag_, val_ in *. destruct_or!; subst; naive_solver.
Qed.

Lemma names_of_asserts ts : names_of (Assert <$> ts) = [].
Proof. by induction ts. Qed.

Lemma names_of_app a b : names_of (a ++ b) = names_of a ++ names_of b.
Proof. apply omap_app. Qed.

Lemma names_of_state post : names_of (state_cmds post) = words post.*1.
Proof.
  induction post as [|[n c] l IH]; [done|]. change (state_cmds ((n, c) :: l)) with (cell_cmds n c ++ state_cmds l).
  rewrite names_of_app, IH. unfold cell_cmds. by rewrite names_of_app, names_of_asserts.
Qed.

Lemma body_wf post terms Ps : state_ok post -> Forall2 (meaning post.*1) terms Ps -> ctx_wf (body_ctx post terms).
Proof.
  intros Hok Hm. split.
  - unfold body_ctx. rewrite !names_of_app, names_of_state, names_of_asserts, app_nil_r. destruct Hok as [Hnd _].
    apply NoDup_app. split_and!; [by apply NoDup_ListNoDup; repeat constructor; cbn; intuition congruence| |by apply words_NoDup].
    intros x Hx (n & _ & Hin)%elem_of_words. cbn in Hx. rewrite !elem_of_cons, elem_of_nil in Hx. unfold tag_, val_ in Hin. destruct_or!; subst; done.
  - intros nu t Hf Ht. pose proof (fits_reads nu post terms Hf) as R. unfold body_ctx in Ht. rewrite !elem_of_app in Ht. destruct Ht as [Ht|[Ht|Ht]].
    + unfold pre_ctx in Ht. rewrite !elem_of_cons, elem_of_nil in Ht. by destruct_or!.
    + apply elem_of_state_cmds in Ht as (n & c & Hin & Hx). apply elem_of_cell_cmds in Hx as [[=]|[[=]|(t' & [= <-] & Hx)]].
      destruct (cell_terms_meaning post n c t Hok Hin Hx) as (P & HP & _). eexists. by apply HP.
    + apply list_elem_of_fmap in Ht as (t' & [= <-] & Hx). apply list_elem_of_lookup in Hx as [i Hi]. destruct (Forall2_lookup_l _ _ _ _ _ Hm Hi) as (P & _ & HP). eexists. by apply HP.
Qed.

(** The assignment that a memory gives. *)
Definition nu_of (m : memory) (w : string) : option value :=
  match w with
  | String _ (String _ (String _ (String _ n))) =>
      if decide (w = tag_ n) then Some (VBits 2 (m n).1) else if decide (w = val_ n) then Some (VBits 64 (m n).2)
      else if decide (w = "CONST") then Some (VBits 2 1) else None
  | _ => if decide (w = "BOT") then Some (VBits 2 0) else if decide (w = "TOP") then Some (VBits 2 3) else None
  end.

Lemma nu_of_tag m n : nu_of m (tag_ n) = Some (VBits 2 (m n).1).
Proof. change (nu_of m (tag_ n)) with (if decide (tag_ n = tag_ n) then Some (VBits 2 (m n).1) else if decide (tag_ n = val_ n) then Some (VBits 64 (m n).2) else if decide (tag_ n = "CONST") then Some (VBits 2 1) else None). by rewrite decide_True. Qed.

Lemma nu_of_val m n : nu_of m (val_ n) = Some (VBits 64 (m n).2).
Proof. change (nu_of m (val_ n)) with (if decide (val_ n = tag_ n) then Some (VBits 2 (m n).1) else if decide (val_ n = val_ n) then Some (VBits 64 (m n).2) else if decide (val_ n = "CONST") then Some (VBits 2 1) else None). by rewrite decide_False, decide_True. Qed.

Lemma nu_of_reads post m : stands post m -> reads (nu_of m) post.*1 m.
Proof.
  intros Hm. split; [by intros []|]. intros n Hn. apply list_elem_of_fmap in Hn as ([n' c] & -> & Hin). rewrite nu_of_tag, nu_of_val. split_and!; [done|done|]. by apply (Hm n' c).
Qed.

Lemma satisfiable_iff post terms Ps : state_ok post -> Forall2 (meaning post.*1) terms Ps ->
  satisfiable (body_ctx post terms) <-> exists m, stands post m /\ Forall (fun P => P m = true) Ps.
Proof.
  intros Hok Hm. split.
  - intros (nu & Hf & Ht). pose proof (fits_reads nu post terms Hf) as R. set (m := fun n => _) in R. exists m.
    unfold body_ctx in Ht. rewrite !Forall_app, !Forall_forall in Ht. destruct Ht as (_ & Hs & Hg). split.
    + apply (terms_stand nu); [done|done|]. intros n c t Hin Hx. apply (Hs (Assert t)), elem_of_state_cmds. exists n, c. split; [done|]. apply elem_of_cell_cmds. right. right. by exists t.
    + apply Forall_forall. intros P HP. apply list_elem_of_lookup in HP as [i Hi]. destruct (Forall2_lookup_r _ _ _ _ _ Hm Hi) as (t & Hti & HP).
      pose proof (Hg (Assert t)) as Et. cbn in Et. rewrite (HP nu m R) in Et. apply list_elem_of_lookup_2 in Hti. specialize (Et ltac:(apply list_elem_of_fmap; by exists t)). by injection Et.
  - intros (m & Hst & HP). pose proof (nu_of_reads post m Hst) as R. exists (nu_of m). unfold fits_all, body_ctx. rewrite !Forall_app, !Forall_forall. split_and!.
    + intros x Hx. unfold pre_ctx in Hx. rewrite !elem_of_cons, elem_of_nil in Hx. destruct_or!; subst; cbn; [exists (VBits 2 0)|exists (VBits 2 1)|exists (VBits 2 3)]; done.
    + intros x (n & c & Hin & Hx)%elem_of_state_cmds. destruct (Hst n c Hin) as (H1 & H2 & _). apply elem_of_cell_cmds in Hx as [->|[->|(t & -> & _)]]; cbn [fits_command]; [| |done].
      * rewrite nu_of_tag. eexists. split; [done|]. cbn. split; [done|]. rewrite H1. change (umax 2) with 3. destruct (cell_tag c); cbn; lia.
      * rewrite nu_of_val. by eexists.
    + by intros x (t & -> & _)%list_elem_of_fmap.
    + intros x Hx. unfold pre_ctx in Hx. rewrite !elem_of_cons, elem_of_nil in Hx. by destruct_or!; subst.
    + intros x (n & c & Hin & Hx)%elem_of_state_cmds. apply elem_of_cell_cmds in Hx as [->|[->|(t & -> & Ht)]]; [done|done|]. cbn [true_in].
      destruct (cell_terms_meaning post n c t Hok Hin Ht) as (P & HPt & Htrue). rewrite (HPt _ _ R). by rewrite Htrue.
    + intros x (t & -> & Ht)%list_elem_of_fmap. apply list_elem_of_lookup in Ht as [i Hi]. destruct (Forall2_lookup_l _ _ _ _ _ Hm Hi) as (P & HPi & HPt). cbn [true_in]. rewrite (HPt _ _ R).
      rewrite Forall_forall in HP. by rewrite (HP P (list_elem_of_lookup_2 _ _ _ HPi)).
Qed.

(** ** The goals *)

(** The state says that the location holds the constant. *)
Definition is_const (post : AbsState) (n : string) (v : Z) : Prop := exists c, (n, c) ∈ post /\ cell_tag c = Const /\ cell_value c = v.
Definition is_top (post : AbsState) (n : string) : Prop := exists c, (n, c) ∈ post /\ cell_tag c = Top.

Lemma cell_unique (post : AbsState) n c c' : NoDup post.*1 -> (n, c) ∈ post -> (n, c') ∈ post -> c = c'.
Proof.
  induction post as [|[n0 c0] post IH]; [set_solver|]. cbn. rewrite NoDup_cons, !elem_of_cons. intros [Hn Hnd] H1 H2.
  assert (forall c, (n0, c) ∈ post -> False) as Hno by (intros c1 Hc1; apply Hn, list_elem_of_fmap; by exists (n0, c1)).
  destruct H1 as [E1|H1], H2 as [E2|H2]; simplify_eq; [done|by destruct (Hno c')|by destruct (Hno c)|by apply IH].
Qed.

(** A memory of the state: free locations get [w]. *)
Fixpoint fill (post : AbsState) (w : Z) : memory :=
  match post with
  | [] => fun _ => (0, w)
  | (n, c) :: post => fun x => if decide (x = n) then (tag_bits (cell_tag c), if decide (cell_tag c = Const) then cell_value c else w) else fill post w x
  end.

Lemma fill_cell post w n c : NoDup post.*1 -> (n, c) ∈ post -> fill post w n = (tag_bits (cell_tag c), if decide (cell_tag c = Const) then cell_value c else w).
Proof.
  induction post as [|[n0 c0] post IH]; [by intros _ ?%elem_of_nil|]. cbn [fmap list_fmap fill fst]. rewrite NoDup_cons, elem_of_cons. intros [Hn Hnd] [[= -> ->]|Hin]; [by rewrite decide_True|].
  rewrite decide_False; [by apply IH|]. intros ->. apply Hn, list_elem_of_fmap. by exists (n0, c).
Qed.

Lemma fill_stands post w : state_ok post -> u64 w -> stands post (fill post w).
Proof.
  intros [Hnd Hok] Hw n c Hin. rewrite (fill_cell post w n c Hnd Hin). destruct (Hok n c Hin) as [_ Hv]. cbn. case_decide; done.
Qed.

Lemma stands_const post m n v : state_ok post -> stands post m -> n ∈ post.*1 -> is_const post n v <-> ((m n).1 =? 1) && ((m n).2 =? v) = true.
Proof.
  intros [Hnd _] Hm Hn. apply list_elem_of_fmap in Hn as ([n' c] & -> & Hin). cbn [fst]. destruct (Hm n' c Hin) as (H1 & _ & H2). rewrite andb_true_iff, !Z.eqb_eq, H1. split.
  - intros (c' & Hin' & Ht & Hv). rewrite (cell_unique post n' c' c Hnd Hin' Hin) in Ht, Hv. rewrite Ht, H2 by done. done.
  - intros [Ht Hv]. exists c. destruct (cell_tag c) eqn:E; try done. split_and!; [done|done|]. by rewrite <-H2.
Qed.

Lemma value_violable post n v : state_ok post -> n ∈ post.*1 -> (exists m, stands post m /\ (m n).2 <> v) <-> ~ is_const post n v.
Proof.
  intros Hok Hn. split.
  - intros (m & Hm & Hv) Hc. pose proof (proj1 (stands_const post m n v Hok Hm Hn) Hc) as E. apply andb_true_iff in E as [_ E]. by apply Z.eqb_eq in E.
  - intros H. apply list_elem_of_fmap in Hn as ([n' c] & -> & Hin). cbn [fst] in *. pose proof Hok as [Hnd _].
    assert (forall w, u64 w -> (cell_tag c = Const \/ w <> v) -> exists m, stands post m /\ (m n').2 <> v) as Hw.
    { intros w Hw Hc. exists (fill post w). split; [by apply fill_stands|]. rewrite (fill_cell post w n' c Hnd Hin). cbn. case_decide; [|by destruct Hc].
      intros Ev. apply H. by exists c. }
    destruct (decide (v = 0)) as [->|Hv]; [apply (Hw 1); [done|by right]|apply (Hw 0); [done|by right]].
Qed.

Lemma top_violable post n : state_ok post -> forall m, stands post m -> n ∈ post.*1 -> ((m n).1 =? 3) = true <-> is_top post n.
Proof.
  intros [Hnd _] m Hm Hn. apply list_elem_of_fmap in Hn as ([n' c] & -> & Hin). cbn [fst]. destruct (Hm n' c Hin) as (H1 & _). rewrite Z.eqb_eq, H1. split.
  - intros E. exists c. by destruct (cell_tag c).
  - intros (c' & Hin' & Ht). rewrite (cell_unique post n' c' c Hnd Hin' Hin) in Ht. by rewrite Ht.
Qed.

(** ** The process that stays *)

Record obligation (post : AbsState) (terms : list sexp) (asks : list (string * string)) (Ps : list (memory -> bool)) : Prop := {
  ob_state : state_ok post;
  ob_means : Forall2 (meaning post.*1) terms Ps;
  ob_terms : Forall sexp_ok terms;
  ob_asks : Forall (fun ab => word_ok ab.1 /\ word_ok ab.2) asks;
}.

Lemma tag_name_word t : word_ok (tag_name t).
Proof. left. by destruct t. Qed.

Lemma body_ok post terms asks Ps : obligation post terms asks Ps -> Forall sexp_ok (body_forms post terms asks).
Proof.
  intros [[_ Hok] _ Ht Ha]. assert (forall ts, Forall sexp_ok ts -> Forall sexp_ok (assert_ <$> ts)) as Has.
  { intros ts H. apply Forall_fmap. eapply Forall_impl; [exact H|]. intros t H1. cbn. split_and!; [by left|done|done]. }
  unfold body_forms, goal_forms. rewrite !Forall_app, Forall_cons. split_and!; [|by apply Has|by split; [left|]|].
  - apply Forall_forall. intros x Hx. unfold state_forms in Hx. rewrite list_elem_of_In, in_flat_map in Hx. destruct Hx as ([n c] & H1 & H2). rewrite <-list_elem_of_In in H1. apply list_elem_of_In in H2.
    destruct (Hok n c H1) as [Hn _]. cbn [fst snd] in H2. unfold cell_forms in H2. rewrite elem_of_app, !elem_of_cons, elem_of_nil in H2. destruct H2 as [[->|[->|[]]]|H2].
    + cbn. split_and!; try done; try (by left). by apply tag_word.
    + cbn. split_and!; try done; try (by left). by apply val_word.
    + assert (Forall sexp_ok (cell_terms n c)) as Hc; [|rewrite Forall_forall in Hc; pose proof (Has _ ltac:(apply Forall_forall; exact Hc)) as Hd; rewrite Forall_forall in Hd; by apply Hd].
      unfold cell_terms. constructor; [cbn; split_and!; [by left|by apply tag_word|apply tag_name_word|done]|]. case_decide; [|constructor]. constructor; [|constructor].
      cbn -[hex]. split_and!; [by left|by apply val_word|apply hex_word|done].
  - apply Forall_fmap. eapply Forall_impl; [exact Ha|]. intros [a b] [H1 H2]. cbn. split_and!; [by left|done|done|done|done].
Qed.

Lemma body_legal post terms asks s n : state_ok post -> s ∈ body_forms post terms asks -> declared_word s = Some n -> legal_symbol n.
Proof.
  intros [_ Hok] Hs Hd. unfold body_forms, goal_forms in Hs. rewrite !elem_of_app, elem_of_cons in Hs.
  assert (forall ts : list sexp, s ∈ assert_ <$> ts -> False) as Has. { intros ts (t & -> & _)%list_elem_of_fmap. by destruct t. }
  destruct Hs as [Hs|[Hs|[->|(ab & -> & _)%list_elem_of_fmap]]]; [|by destruct (Has _ Hs)|done|done].
  unfold state_forms in Hs. rewrite list_elem_of_In, in_flat_map in Hs. destruct Hs as ([x c] & H1 & H2). rewrite <-list_elem_of_In in H1. apply list_elem_of_In in H2.
  destruct (Hok x c H1) as [Hx _]. cbn [fst snd] in H2. unfold cell_forms in H2. rewrite elem_of_app, !elem_of_cons, elem_of_nil in H2.
  assert (forall p : string, all_chars symbol_char (p +:+ x) = true -> p = "tag_" \/ p = "val_" -> legal_symbol (p +:+ x)) as Hl.
  { intros p Hp [->| ->]; (split; [exact Hp|]); split; [done|set_solver|done|set_solver]. }
  destruct H2 as [[->|[->|[]]]|H2]; [| |by destruct (Has _ H2)]; injection Hd as <-; [apply (Hl "tag_")|apply (Hl "val_")]; [exact Hx|by left|exact Hx|by right].
Qed.

Definition frame_forms (body : list sexp) : list sexp := Form [Word "push"; Word "1"] :: body ++ [Form [Word "pop"; Word "1"]].

Lemma frame_reads body cmds : mapM read_command body = Some cmds -> mapM read_command (frame_forms body) = Some (Push :: cmds ++ [Pop]).
Proof. intros H. apply (mapM_read_app [_] _ [_]); [done|]. by apply mapM_read_app. Qed.

Lemma body_checks post terms asks : checks (Push :: body_cmds post terms asks ++ [Pop; Other]) pre_ctx [] = [body_ctx post terms] /\
  scopes_after (Push :: body_cmds post terms asks ++ [Pop; Other]) pre_ctx [] = (pre_ctx, []).
Proof.
  unfold body_ctx, body_cmds. rewrite (app_assoc (state_cmds post)). pose proof (state_cmds_add post terms) as Ha. revert Ha.
  generalize (state_cmds post ++ (Assert <$> terms)) as a. intros a Ha. destruct (adds_scopes a pre_ctx [pre_ctx] Ha) as [H1 H2].
  cbn [app checks scopes_after]. rewrite <-app_assoc, checks_app, scopes_app, H1, H2. cbn [app checks scopes_after].
  assert (forall k now, checks (replicate k Other ++ [Pop; Other]) now [pre_ctx] = []) as -> by (intros k now; by induction k).
  assert (forall k now, scopes_after (replicate k Other ++ [Pop; Other]) now [pre_ctx] = (pre_ctx, [])) as -> by (intros k now; by induction k). done.
Qed.

(** *** The lines of a reply *)

Definition step_sat (sat : option bool) (t : string) : option bool := if decide (t = "sat") then Some true else if decide (t = "unsat") then Some false else sat.

Lemma drop_quotes_last l c : Ascii.eqb c quote_mark = false -> drop_quotes (l ++ [c]) = drop_quotes l ++ [c].
Proof. intros Hc. induction l as [|x l IH]; cbn; [by rewrite Hc|]. by destruct (Ascii.eqb x quote_mark). Qed.

Lemma response_not_sentinel l : response l -> trim_quotes l <> SENTINEL.
Proof.
  intros [H|H]; [|rewrite !elem_of_cons, elem_of_nil in H; by destruct_or!; subst]. destruct l as [|c l]; [done|]. cbn in H. apply Ascii.eqb_eq in H as ->.
  unfold trim_quotes. cbn [String.list_ascii_of_string drop_quotes]. change (Ascii.eqb "(" quote_mark) with false. cbn iota.
  rewrite reverse_cons, drop_quotes_last, reverse_app by done. done.
Qed.

Lemma step_sat_other sat l : response l -> l ∉ ["sat"; "unsat"; "unknown"] -> step_sat sat l = sat.
Proof. intros _ H. unfold step_sat. rewrite !decide_False by set_solver. done. Qed.

Lemma foldl_answers ls sat : Forall response ls -> foldl step_sat sat ls = foldl step_sat sat (answers ls).
Proof.
  intros H. revert sat. induction H as [|l ls Hl _ IH]; intros sat; [done|]. unfold answers. cbn [foldl]. destruct (decide (l ∈ ["sat"; "unsat"; "unknown"])) as [Hin|Hout].
  - rewrite filter_cons_True by done. cbn [foldl]. apply IH.
  - rewrite filter_cons_False by done. rewrite step_sat_other by done. apply IH.
Qed.

Lemma read_reply_spec ls l sat model : Forall response ls -> trim_quotes l = SENTINEL ->
  exists model', read_reply (ls ++ [l]) sat model = Some (S (length ls), foldl step_sat sat ls, model').
Proof.
  intros H Hl. revert sat model. induction H as [|x ls Hx _ IH]; intros sat model; cbn [app read_reply]; [rewrite decide_True by done; by eexists|].
  rewrite decide_False by (by apply response_not_sentinel). cbn [foldl length]. unfold step_sat at 2.
  repeat case_decide; try (destruct (starts_with "(error" x)); match goal with |- context [read_reply _ ?s ?m] => destruct (IH s m) as [m' ->]; by exists m' end.
Qed.

(** Well-formed commands that leave every scope closed. *)
Record transcript (cmds : list sexp) (read : list command) : Prop := {
  tr_ok : Forall sexp_ok cmds;
  tr_read : mapM read_command cmds = Some read;
  tr_scopes : scopes_after read [] [] = (pre_ctx, []);
  tr_wf : Forall ctx_wf (checks read [] []);
  tr_legal : forall s n, s ∈ cmds -> declared_word s = Some n -> legal_symbol n;
}.

Lemma transcript_script cmds read : transcript cmds read -> script_wf cmds read.
Proof. by intros []. Qed.

Lemma preamble_ok : Forall sexp_ok preamble_forms.
Proof. unfold preamble_forms. repeat (constructor; [cbn; split_and!; try done; by left|]). constructor. Qed.

Lemma preamble_transcript : transcript preamble_forms (Other :: Other :: pre_ctx).
Proof.
  split; [apply preamble_ok|done|done|constructor|]. intros s n Hs Hd. unfold preamble_forms in Hs. rewrite !elem_of_cons, elem_of_nil in Hs.
  destruct_or!; subst; try done; injection Hd as <-; (split; [done|]); (split; [done|set_solver]).
Qed.

Lemma frame_ok body : Forall sexp_ok body -> Forall sexp_ok (frame_forms body).
Proof.
  intros H. unfold frame_forms. constructor; [cbn; split_and!; try done; by left|]. apply Forall_app. split; [done|]. constructor; [|constructor]. cbn. split_and!; try done; by left.
Qed.

Lemma sentinel_ok : sexp_ok (echo SENTINEL).
Proof. cbn. split_and!; try done; by left. Qed.

Lemma body_no_echo post terms asks : Forall no_echo (frame_forms (body_forms post terms asks)).
Proof.
  assert (forall ts, Forall no_echo (assert_ <$> ts)) as Ha by (intros ts; by apply Forall_fmap, Forall_true).
  unfold frame_forms, body_forms, goal_forms. constructor; [done|]. rewrite !Forall_app, Forall_cons. split_and!; [|apply Ha|done|by apply Forall_fmap, Forall_true|by constructor].
  unfold state_forms. induction post as [|[n c] post IH]; [constructor|]. cbn [flat_map]. apply Forall_app. split; [|done]. unfold cell_forms. apply Forall_app. split; [by repeat constructor|apply Ha].
Qed.

(** An obligation after a transcript: its context is the last that is checked. *)
Section extend.
Context (cmds : list sexp) (read : list command) (post : AbsState) (terms : list sexp) (asks : list (string * string)) (Ps : list (memory -> bool)).
Context (before : transcript cmds read) (ob : obligation post terms asks Ps).

Definition asked : list sexp := frame_forms (body_forms post terms asks).
Definition asked_read : list command := Push :: body_cmds post terms asks ++ [Pop; Other].

Lemma asked_checks : checks (read ++ asked_read) [] [] = checks read [] [] ++ [body_ctx post terms].
Proof. rewrite checks_app, (tr_scopes _ _ before). unfold asked_read. by rewrite (proj1 (body_checks post terms asks)). Qed.

Lemma asked_transcript : transcript ((cmds ++ asked) ++ [echo SENTINEL]) (read ++ asked_read).
Proof.
  split.
  - rewrite !Forall_app. split_and!; [apply before|by eapply frame_ok, body_ok|]. constructor; [apply sentinel_ok|constructor].
  - rewrite <-app_assoc. apply mapM_read_app; [apply before|]. pose proof (mapM_read_app asked [echo SENTINEL] _ [Other] (frame_reads _ _ (read_body post terms asks)) eq_refl) as E.
    unfold asked_read. by rewrite E, <-app_comm_cons, <-app_assoc.
  - rewrite scopes_app, (tr_scopes _ _ before). apply body_checks.
  - rewrite asked_checks. apply Forall_app. split; [apply before|]. constructor; [|constructor]. by eapply body_wf; apply ob.
  - intros s n Hs Hd. rewrite !elem_of_app in Hs. destruct Hs as [[Hs|Hs]|Hs]; [by eapply before| |by apply list_elem_of_singleton in Hs as ->].
    unfold asked, frame_forms in Hs. rewrite elem_of_cons, elem_of_app, list_elem_of_singleton in Hs. destruct Hs as [->|[Hs| ->]]; [done| |done].
    eapply body_legal; [apply ob|exact Hs|exact Hd].
Qed.
End extend.

Section solver.
Context `{Z3}.

(** The solver runs, and it decides what the text asks. *)
Definition decides (text : string) : Prop := exists reply, z3 text = Some reply /\ "unknown" ∉ reply.

(** The process has read a transcript, and no answer is left unread. *)
Definition in_sync (s : Solver) : Prop :=
  match s with
  | Some p => exists cmds read, written p = script cmds /\ transcript cmds read /\ forall lines, z3 (script cmds) = Some lines ->
      (lines_read p <= length lines)%nat /\ Forall response (drop (lines_read p) lines) /\ answers (drop (lines_read p) lines) = []
  | None => True
  end.

Lemma answers_count cmds read lines : transcript cmds read -> z3 (script cmds) = Some lines -> length (answers lines) = length (checks read [] []).
Proof. intros T Hz. eapply z3_answers; [apply parse_script, T|by apply transcript_script|done]. Qed.

(** The one answer to the last check. *)
Lemma reply_answer b0 aft l (cs : list (list command)) c : length (answers b0) = length cs -> length (answers ((b0 ++ aft) ++ [l])) = length (cs ++ [c]) -> answers [l] = [] ->
  exists x, answers aft = [x].
Proof.
  intros H1 H2 H3. rewrite !answers_app, H3, app_nil_r, !length_app in H2. cbn in H2. destruct (answers aft) as [|x [|y k]]; cbn in H2; [lia|by exists x|lia].
Qed.

Lemma Solver_new_sync : in_sync Solver_new.
Proof.
  unfold Solver_new, Solver_start. destruct (z3 PREAMBLE) as [lines0|] eqn:Ez; [|done]. cbn.
  exists preamble_forms, (Other :: Other :: pre_ctx). split_and!; [apply preamble_script|apply preamble_transcript|]. intros lines Hz. rewrite drop_0. split_and!; [lia| |].
  - destruct (z3_more [] preamble_forms lines) as (before & after & H1 & -> & H3); [constructor|apply preamble_ok|done|]. rewrite (z3_nothing before H1). apply H3. by repeat constructor.
  - apply nil_length_inv. by rewrite (answers_count _ _ _ preamble_transcript).
Qed.

(** One obligation: the process stays in step, and its answer is true. *)
Lemma query_answer post terms asks Ps s s' r : in_sync s -> obligation post terms asks Ps ->
  query (script (body_forms post terms asks)) s = (s', r) ->
  in_sync s' /\ (forall v model, r = Ok (v, model) -> (v = true <-> satisfiable (body_ctx post terms))) /\
  forall p, s = Some p -> decides (query_text (script (body_forms post terms asks)) p) -> is_Some s' /\ exists v model, r = Ok (v, model).
Proof.
  intros Hs Hob Hq. destruct s as [p|]; [|injection Hq as <- <-; split_and!; [done|done|by intros p [=]]]. destruct Hs as (cmds & read & S1 & T & S3). unfold query in Hq.
  set (all := (cmds ++ asked post terms asks) ++ [echo SENTINEL]). pose proof (asked_transcript _ _ _ _ _ _ T Hob) as T'. fold all in T'.
  assert (query_text (script (body_forms post terms asks)) p = script all) as Etext.
  { unfold query_text, all, asked, frame_forms. rewrite S1, !script_app. change (script (Form [Word "push"; Word "1"] :: ?l)) with ("(push 1)" +:+ nl +:+ script l).
    rewrite script_app, !append_assoc. reflexivity. }
  rewrite Etext in Hq. destruct (z3 (script all)) as [reply|] eqn:Ez.
  2: { cbn in Hq. injection Hq as <- <-. split_and!; [|done|intros p' [= <-] (reply & D & _); congruence].
       exists all, (read ++ asked_read post terms asks). split_and!; [done|done|]. intros lines. by rewrite Ez. }
  pose proof (tr_ok _ _ T) as Oc. pose proof (frame_ok _ (body_ok _ _ _ _ Hob)) as Oa. fold (asked post terms asks) in Oa.
  destruct (z3_echo (cmds ++ asked post terms asks) SENTINEL reply) as (b1 & l & E1 & -> & Hl); [by apply Forall_app|apply sentinel_ok|exact Ez|].
  destruct (z3_more cmds (asked post terms asks) b1 Oc Oa E1) as (b0 & aft & E0 & -> & Hresp). specialize (Hresp (body_no_echo post terms asks)).
  destruct (S3 b0 E0) as (L1 & L2 & L3). set (n := lines_read p) in *.
  assert (trim_quotes l = SENTINEL /\ answers [l] = []) as [Hl1 Hl2] by (destruct Hl as [->| ->]; by vm_compute).
  destruct (reply_answer b0 aft l (checks read [] []) (body_ctx post terms)) as (x & Hx).
  { rewrite <-(answers_count _ _ _ T E0). done. }
  { rewrite <-(asked_checks cmds read post terms asks T). rewrite <-(answers_count _ _ _ T' Ez). done. }
  { done. }
  cbn [mbind option_bind] in Hq. rewrite <-app_assoc, drop_app_le in Hq by done. rewrite (app_assoc _ aft) in Hq.
  destruct (read_reply_spec (drop n b0 ++ aft) l None []) as [model Hr]; [by apply Forall_app|done|]. rewrite Hr, foldl_answers, answers_app, L3, Hx in Hq by (by apply Forall_app). cbn [app foldl] in Hq.
  injection Hq as <- <-. split_and!.
  - exists all, (read ++ asked_read post terms asks). split_and!; [done|done|]. intros lines. rewrite Ez. intros [= <-]. cbn [lines_read].
    assert (length ((b0 ++ aft) ++ [l]) = n + S (length (drop n b0 ++ aft)))%nat as El by (rewrite !length_app, length_drop; cbn; lia).
    rewrite (drop_ge ((b0 ++ aft) ++ [l])) by lia. split_and!; [lia|constructor|done].
  - intros v mo Hv. assert (answers ((b0 ++ aft) ++ [l]) !! length (checks read [] []) = Some x) as Ha.
    { rewrite !answers_app, Hx, Hl2, app_nil_r, <-(answers_count _ _ _ T E0). by rewrite list_lookup_middle. }
    pose proof (parse_script _ (tr_ok _ _ T')) as Hp. pose proof (transcript_script _ _ T') as Hw.
    assert (checks (read ++ asked_read post terms asks) [] [] !! length (checks read [] []) = Some (body_ctx post terms)) as Hc by (rewrite (asked_checks cmds) by done; by rewrite list_lookup_middle).
    unfold step_sat in Hv. destruct (decide (x = "sat")) as [->|N1]; [|destruct (decide (x = "unsat")) as [->|N2]]; [| |done]; injection Hv as <- <-.
    + split; [intros _|done]. by eapply z3_sat.
    + split; [done|]. intros Hsat. by destruct (z3_unsat _ _ _ _ _ _ Hp Hw Ez Hc Ha).
  - intros p' [= <-] (reply & D & Hno). rewrite Etext, Ez in D. injection D as <-. split; [done|]. assert (x ∈ answers ((b0 ++ aft) ++ [l])) as Hin by (rewrite !answers_app, Hx; set_solver).
    apply list_elem_of_filter in Hin as [Hin Hin']. unfold step_sat. rewrite !elem_of_cons, elem_of_nil in Hin. destruct Hin as [->|[->|[->|[]]]]; [| |done]; by eexists _, _.
Qed.
End solver.
