(* ===== verification/SeamVerdict.v ===== *)
(** * The verdicts of the seam engine

    A contract survives a transfer exactly when the engine accepts, with one
    script or with the process that stays; and what a hop of a transfer reports. *)

From stdpp Require Import base list strings gmap.
From Stdlib Require Import ZArith Lia Ascii.
From S2P Require Import Prelude Syntax Smt Seam SeamSound.
Open Scope Z_scope.
Open Scope vx_scope.

(** ** The state after a transfer *)

Definition published_by (t : Transfer) : list string := match t with Sync => [] | Relaxed published => published end.

Lemma apply_transfer_cell state t n c : (n, c) ∈ apply_transfer state t <->
  exists c0, (n, c0) ∈ state /\ c = if decide (n ∈ published_by t) then Cell_top else c0.
Proof.
  destruct t as [|published]; cbn [apply_transfer published_by].
  - split; [intros Hin; exists c|intros (c0 & Hin & ->)]; rewrite decide_False by set_solver; done.
  - rewrite list_elem_of_fmap. assert (existsb (fun p => bool_decide (p = n)) published = bool_decide (n ∈ published)) as E.
    { apply eq_bool_prop_intro. rewrite bool_decide_spec, Is_true_true, existsb_exists. setoid_rewrite <-list_elem_of_In. setoid_rewrite bool_decide_eq_true. naive_solver. }
    split.
    + intros ([n' c'] & Hnc & Hin). cbn [fst] in Hnc. assert (n' = n) as -> by (destruct (existsb (fun p => bool_decide (p = n')) published); congruence). rewrite E in Hnc. exists c'.
      case_bool_decide; injection Hnc as ->; [by rewrite decide_True|by rewrite decide_False].
    + intros (c0 & Hin & ->). exists (n, c0). cbn [fst]. rewrite E. split; [|done]. case_decide as Hd; [by rewrite bool_decide_eq_true_2|by rewrite bool_decide_eq_false_2].
Qed.

Lemma apply_transfer_names state t : (apply_transfer state t).*1 = state.*1.
Proof. destruct t as [|published]; [done|]. cbn [apply_transfer]. rewrite <-list_fmap_compose. apply list_fmap_ext. intros _ [n c] _. cbn. by destruct (existsb _ _). Qed.

Lemma apply_transfer_ok state t : state_ok state -> state_ok (apply_transfer state t).
Proof.
  intros [Hnd Hok]. split; [by rewrite apply_transfer_names|]. intros n c (c0 & Hin & ->)%apply_transfer_cell. destruct (Hok n c0 Hin) as [Hn Hv]. split; [done|]. by case_decide.
Qed.

(** A constant stays when it is not published. *)
Lemma const_after state t n v : is_const (apply_transfer state t) n v <-> is_const state n v /\ n ∉ published_by t.
Proof.
  unfold is_const. setoid_rewrite apply_transfer_cell. split.
  - intros (c & (c0 & Hin & ->) & Ht & Hv). case_decide; [done|]. split; [by exists c0|done].
  - intros [(c & Hin & Ht & Hv) Hn]. exists c. split; [|done]. exists c. by rewrite decide_False.
Qed.

Lemma top_after state t n : is_top (apply_transfer state t) n <-> is_top state n \/ (n ∈ state.*1 /\ n ∈ published_by t).
Proof.
  unfold is_top. setoid_rewrite apply_transfer_cell. rewrite list_elem_of_fmap. split.
  - intros (c & (c0 & Hin & ->) & Ht). case_decide; [right; split; [by exists (n, c0)|done]|left; by exists c0].
  - intros [(c & Hin & Ht)|[([n' c] & -> & Hin) Hp]]; [|exists Cell_top; split; [exists c; cbn; by rewrite decide_True|done]].
    destruct (decide (n ∈ published_by t)); [exists Cell_top; split; [by exists c|done]|exists c; split; [by exists c|done]].
Qed.

(** ** The three obligations *)

Definition const_pred (n : string) (v : Z) (m : memory) : bool := ((m n).1 =? 1) && ((m n).2 =? v).

Lemma is_const_meaning names n v : n ∈ names -> u64 v -> meaning names (is_const_term n v) (const_pred n v).
Proof. intros Hn Hv. apply both_meaning; [by apply (tag_meaning names n Const)|by apply val_meaning]. Qed.

Lemma is_const_ok n v : good_name n -> sexp_ok (is_const_term n v).
Proof. intros Hn. cbn -[hex]. split_and!; try done; try (by left); [by apply tag_word|by apply val_word|apply hex_word]. Qed.

Lemma not_ok a : sexp_ok a -> sexp_ok (not_ a).
Proof. intros Ha. split; [by left|by split]. Qed.

Definition contract_ok (post : AbsState) (c : Contract) : Prop :=
  (premise c).1 ∈ post.*1 /\ (conclusion c).1 ∈ post.*1 /\ u64 (premise c).2 /\ u64 (conclusion c).2.

Lemma state_name post n : state_ok post -> n ∈ post.*1 -> good_name n.
Proof. intros [_ Hok] Hn. apply list_elem_of_fmap in Hn as ([n' c] & -> & Hin). by apply (Hok n' c). Qed.

Lemma contract_obligation post c : state_ok post -> contract_ok post c ->
  obligation post (contract_terms c) (contract_asks c) [const_pred (premise c).1 (premise c).2; fun m => negb (const_pred (conclusion c).1 (conclusion c).2 m)].
Proof.
  intros Hok (H1 & H2 & H3 & H4). pose proof (state_name _ _ Hok H1) as N1. pose proof (state_name _ _ Hok H2) as N2. split; [done| | |].
  - repeat constructor; [by apply is_const_meaning|by apply not_meaning, is_const_meaning].
  - constructor; [by apply is_const_ok|]. constructor; [|constructor]. by apply not_ok, is_const_ok.
  - constructor; [|constructor]. split; [by apply val_word|by apply tag_word].
Qed.

Lemma contract_satisfiable post c : state_ok post -> contract_ok post c ->
  satisfiable (body_ctx post (contract_terms c)) <-> is_const post (premise c).1 (premise c).2 /\ ~ is_const post (conclusion c).1 (conclusion c).2.
Proof.
  intros Hok Hc. pose proof (contract_obligation post c Hok Hc) as Hob. destruct Hc as (H1 & H2 & _). rewrite (satisfiable_iff _ _ _ Hok (ob_means _ _ _ _ Hob)). split.
  - intros (m & Hm & HP). apply Forall_cons in HP as [HP HQ]. apply Forall_cons in HQ as [HQ _]. rewrite (stands_const post m _ _ Hok Hm H1), (stands_const post m _ _ Hok Hm H2).
    split; [done|]. apply negb_true_iff in HQ. unfold const_pred in HQ. congruence.
  - intros [HP HQ]. assert (stands post (fill post 0)) as Hm by (by apply fill_stands). exists (fill post 0). split; [done|]. repeat constructor.
    + by apply (stands_const post _ _ _ Hok Hm H1).
    + apply negb_true_iff. destruct (const_pred _ _ _) eqn:E; [|done]. exfalso. apply HQ. by apply (stands_const post _ _ _ Hok Hm H2).
Qed.

Lemma value_obligation post b v : state_ok post -> b ∈ post.*1 -> u64 v -> obligation post (value_terms b v) (tag_asks [b]) [fun m => negb ((m b).2 =? v)].
Proof.
  intros Hok Hb Hv. pose proof (state_name _ _ Hok Hb) as Nb. split; [done| | |].
  - constructor; [|constructor]. by apply not_meaning, val_meaning.
  - constructor; [|constructor]. cbn -[hex]. split_and!; try done; try (by left); [by apply val_word|apply hex_word].
  - constructor; [|constructor]. split; [by apply tag_word|by apply val_word].
Qed.

Lemma value_satisfiable post b v : state_ok post -> b ∈ post.*1 -> u64 v -> satisfiable (body_ctx post (value_terms b v)) <-> ~ is_const post b v.
Proof.
  intros Hok Hb Hv. rewrite (satisfiable_iff _ _ _ Hok (ob_means _ _ _ _ (value_obligation post b v Hok Hb Hv))), <-(value_violable post b v Hok Hb).
  split; intros (m & Hm & HP); exists m; (split; [done|]); [apply Forall_cons in HP as [HP _]; apply negb_true_iff, Z.eqb_neq in HP; done|].
  constructor; [|constructor]. by apply negb_true_iff, Z.eqb_neq.
Qed.

Definition top_preds (consumed : list string) : list (memory -> bool) := (fun b m => (m b).1 =? 3) <$> consumed.

Lemma buffers_obligation post consumed : state_ok post -> consumed <> [] -> Forall (fun b => b ∈ post.*1) consumed ->
  obligation post (buffers_terms consumed) (tag_asks consumed) [fun m => existsb (fun P => P m) (top_preds consumed)].
Proof.
  intros Hok Hne Hin. assert (Forall good_name consumed) as Hn by (eapply Forall_impl; [exact Hin|]; intros b; by apply state_name). split; [done| | |].
  - constructor; [|constructor]. apply or_meaning; [by destruct consumed|]. unfold top_preds. apply Forall2_fmap, Forall_Forall2_diag.
    eapply Forall_impl; [exact Hin|]. intros b Hb. by apply (tag_meaning _ b Top).
  - constructor; [|constructor]. cbn. split; [by left|]. clear Hne Hin. induction Hn as [|b l Hb _ IH]; [done|]. cbn. split; [|done].
    split_and!; [by left|by apply tag_word|by left|done].
  - unfold tag_asks. apply Forall_fmap. eapply Forall_impl; [exact Hn|]. intros b Hb. split; [by apply tag_word|by apply val_word].
Qed.

Lemma buffers_satisfiable post consumed : state_ok post -> consumed <> [] -> Forall (fun b => b ∈ post.*1) consumed ->
  satisfiable (body_ctx post (buffers_terms consumed)) <-> exists b, b ∈ consumed /\ is_top post b.
Proof.
  intros Hok Hne Hin. rewrite (satisfiable_iff _ _ _ Hok (ob_means _ _ _ _ (buffers_obligation post consumed Hok Hne Hin))).
  assert (forall m, existsb (fun P => P m) (top_preds consumed) = true <-> exists b, b ∈ consumed /\ ((m b).1 =? 3) = true) as E.
  { intros m. rewrite existsb_exists. unfold top_preds. setoid_rewrite <-list_elem_of_In. split.
    - intros (P & HP & Ht). apply list_elem_of_fmap in HP as (b & -> & Hb). by exists b.
    - intros (b & Hb & Ht). eexists. split; [apply list_elem_of_fmap; by exists b|done]. }
  rewrite Forall_forall in Hin. split.
  - intros (m & Hm & HP). apply Forall_cons in HP as [(b & Hb & Ht)%E _]. exists b. split; [done|]. by apply (top_violable post b Hok m Hm (Hin b Hb)).
  - intros (b & Hb & Ht). exists (fill post 0). assert (stands post (fill post 0)) as Hm by (by apply fill_stands). split; [done|]. constructor; [|constructor]. apply E. exists b. split; [done|].
    by apply (top_violable post b Hok _ Hm (Hin b Hb)).
Qed.

(** ** One script *)

Lemma one_shot_transcript post terms asks Ps : obligation post terms asks Ps ->
  Forall sexp_ok (preamble_forms ++ body_forms post terms asks) /\
  script_wf (preamble_forms ++ body_forms post terms asks) ((Other :: Other :: pre_ctx) ++ body_cmds post terms asks) /\
  checks ((Other :: Other :: pre_ctx) ++ body_cmds post terms asks) [] [] = [body_ctx post terms].
Proof.
  intros Hob. assert (checks ((Other :: Other :: pre_ctx) ++ body_cmds post terms asks) [] [] = [body_ctx post terms]) as Hc.
  { rewrite checks_app, (tr_scopes _ _ preamble_transcript). change (checks (Other :: Other :: pre_ctx) [] []) with (@nil (list command)). unfold body_cmds, body_ctx. rewrite (app_assoc (state_cmds post)).
    destruct (adds_scopes _ pre_ctx [] (state_cmds_add post terms)) as [H1 H2]. rewrite checks_app, H1, H2. cbn [app checks]. f_equal. by induction (length asks). }
  split_and!; [apply Forall_app; split; [apply preamble_ok|by eapply body_ok]| |done]. split_and!; [apply mapM_read_app; [done|apply read_body]| |].
  - rewrite Hc. constructor; [|constructor]. by eapply body_wf; apply Hob.
  - intros s n. rewrite elem_of_app. intros [Hs|Hs] Hd; [by eapply preamble_transcript|]. eapply body_legal; [apply Hob|exact Hs|exact Hd].
Qed.

Lemma verdict_lines text : filter (fun l => l = "sat" \/ l = "unsat") text = filter (fun l => l = "sat" \/ l = "unsat") (answers text).
Proof.
  unfold answers. rewrite list_filter_filter_l; [done|]. intros x [->| ->]; set_solver.
Qed.

Lemma run_z3_answer `{Z3} post terms asks Ps v model : obligation post terms asks Ps ->
  run_z3 (script (preamble_forms ++ body_forms post terms asks)) = Ok (v, model) -> (v = true <-> satisfiable (body_ctx post terms)).
Proof.
  intros Hob Hr. destruct (one_shot_transcript post terms asks Ps Hob) as (Hok & Hwf & Hc). unfold run_z3 in Hr. destruct (z3 _) as [text|] eqn:Ez; [|done].
  pose proof (parse_script _ Hok) as Hp. pose proof (z3_answers _ _ _ _ Hp Hwf Ez) as Hlen. rewrite Hc in Hlen. rewrite verdict_lines in Hr.
  destruct (answers text) as [|x [|y l]] eqn:Ea; cbn in Hlen; [lia| |lia]. destruct (filter _ [x]) as [|z k] eqn:Ef; [done|].
  assert (z ∈ filter (fun l => l = "sat" \/ l = "unsat") [x]) as Hz by (rewrite Ef; by left). apply list_elem_of_filter in Hz as [Hz ->%list_elem_of_singleton]. cbn [head] in Hr.
  case_decide as E; injection Hr as <- <-.
  - split; [intros _|done]. subst x. eapply (z3_sat _ _ _ _ 0 _ Hp Hwf Ez); [by rewrite Hc|by rewrite Ea].
  - destruct Hz as [Hz|Hz]; [done|]. split; [done|]. intros Hs. subst x. exfalso. revert Hs. eapply (z3_unsat _ _ _ _ 0 _ Hp Hwf Ez); [by rewrite Hc|by rewrite Ea].
Qed.

(** ** Verdicts *)

Definition rejects (v : Verdict) : Prop := v <> Accept.

(** After the transfer the location still holds the constant. *)
Definition kept (reached : AbsState) (t : Transfer) (n : string) (v : Z) : Prop := is_const reached n v /\ n ∉ published_by t.

Lemma verdict_rejects r v (P : Prop) : (forall b model, r = Ok (b, model) -> (b = true <-> P)) -> verdict_of r = Ok v -> rejects v <-> P.
Proof.
  intros Hr Hv. destruct r as [[b model]|]; [|done]. cbn in Hv. injection Hv as <-. rewrite <-(Hr b model eq_refl). unfold rejects. by destruct b.
Qed.

Lemma contract_rejects reached t c : state_ok reached -> contract_ok reached c ->
  satisfiable (body_ctx (apply_transfer reached t) (contract_terms c)) <-> kept reached t (premise c).1 (premise c).2 /\ ~ kept reached t (conclusion c).1 (conclusion c).2.
Proof.
  intros Hok Hc. rewrite contract_satisfiable; [by rewrite !const_after|by apply apply_transfer_ok|]. unfold contract_ok in *. by rewrite apply_transfer_names.
Qed.

Lemma contract_text post c : state_smt post +:+ value_goal_smt c = script (body_forms post (contract_terms c) (contract_asks c)).
Proof. unfold body_forms. by rewrite script_app, state_script, contract_script. Qed.

(** C17. The seam engine decides contracts: with a solver that tells the truth, a contract [flag == p ==> data == c] is rejected
    exactly when the transfer keeps the flag and does not keep the data, by the script of its own and by the process that stays,
    whatever that process was asked before. *)
Theorem seam_contract_exact `{Z3} reached t c v s s' :
  state_ok reached -> contract_ok reached c ->
  let violated := kept reached t (premise c).1 (premise c).2 /\ ~ kept reached t (conclusion c).1 (conclusion c).2 in
  (check_seam reached t c = Ok v -> rejects v <-> violated) /\
  (in_sync s -> Solver_check_seam reached t c s = (s', Ok v) -> in_sync s' /\ (rejects v <-> violated)).
Proof.
  intros Hok Hc violated. pose proof (apply_transfer_ok reached t Hok) as Hok'.
  assert (contract_ok (apply_transfer reached t) c) as Hc' by (unfold contract_ok in *; by rewrite apply_transfer_names).
  pose proof (contract_obligation _ c Hok' Hc') as Hob. unfold violated. rewrite <-(contract_rejects reached t c Hok Hc). split.
  - unfold check_seam. rewrite contract_text, preamble_script, <-script_app. apply verdict_rejects. intros b model Hb. by eapply run_z3_answer.
  - intros Hs Hq. unfold Solver_check_seam in Hq. rewrite contract_text in Hq. destruct (query _ s) as [s1 r] eqn:Eq. injection Hq as -> Hv.
    destruct (query_answer _ _ _ _ _ _ _ Hs Hob Eq) as (Hs' & Hr & _). split; [done|]. by eapply verdict_rejects.
Qed.

(** ** Buffers and values *)

Section solver.
Context `{Z3}.

Lemma value_text post b v : state_smt post +:+ value1_goal_smt b v = script (body_forms post (value_terms b v) (tag_asks [b])).
Proof. unfold body_forms. by rewrite script_app, state_script, value_script. Qed.

Lemma buffers_text post consumed : consumed <> [] -> state_smt post +:+ buffers_goal_smt consumed = script (body_forms post (buffers_terms consumed) (tag_asks consumed)).
Proof. intros Hne. unfold body_forms. by rewrite script_app, state_script, buffers_script. Qed.

(** An obligation put to the process that stays: its verdict, and that there is one when the solver decides it. *)
Lemma solver_verdict post terms asks Ps s s' r : in_sync s -> obligation post terms asks Ps ->
  query (script (body_forms post terms asks)) s = (s', r) ->
  in_sync s' /\ (forall v, verdict_of r = Ok v -> rejects v <-> satisfiable (body_ctx post terms)) /\
  forall p, s = Some p -> decides (query_text (script (body_forms post terms asks)) p) -> is_Some s' /\ exists v, verdict_of r = Ok v.
Proof.
  intros Hs Hob Hq. destruct (query_answer _ _ _ _ _ _ _ Hs Hob Hq) as (Hs' & Hr & Hd). split_and!; [done| |].
  - intros v Hv. by eapply verdict_rejects.
  - intros p Hp Hdec. destruct (Hd p Hp Hdec) as (Hsome & b & model & ->). split; [done|]. by eexists.
Qed.

Lemma value_rejects reached t b v : state_ok reached -> b ∈ reached.*1 -> u64 v ->
  satisfiable (body_ctx (apply_transfer reached t) (value_terms b v)) <-> ~ kept reached t b v.
Proof. intros Hok Hb Hv. rewrite value_satisfiable; [by rewrite const_after|by apply apply_transfer_ok|by rewrite apply_transfer_names|done]. Qed.

Lemma buffers_reject reached t consumed : state_ok reached -> consumed <> [] -> Forall (fun b => b ∈ reached.*1) consumed ->
  satisfiable (body_ctx (apply_transfer reached t) (buffers_terms consumed)) <-> exists b, b ∈ consumed /\ (is_top reached b \/ b ∈ published_by t).
Proof.
  intros Hok Hne Hin. rewrite buffers_satisfiable; [|by apply apply_transfer_ok|done|by rewrite apply_transfer_names]. setoid_rewrite top_after. rewrite Forall_forall in Hin. naive_solver.
Qed.

(** The same verdict by a script of its own. *)
Lemma check_seam_buffers_exact reached t consumed v : state_ok reached -> Forall (fun b => b ∈ reached.*1) consumed ->
  check_seam_buffers reached t consumed = Ok v -> rejects v <-> exists b, b ∈ consumed /\ (is_top reached b \/ b ∈ published_by t).
Proof.
  intros Hok Hin Hv. destruct (decide (consumed = [])) as [->|Hne]; [injection Hv as <-; split; [done|set_solver]|].
  assert (verdict_of (run_z3 (PREAMBLE +:+ state_smt (apply_transfer reached t) +:+ buffers_goal_smt consumed)) = Ok v) as Hv' by (by destruct consumed).
  rewrite <-(buffers_reject reached t consumed Hok Hne Hin). rewrite buffers_text, preamble_script, <-script_app in Hv' by done.
  eapply verdict_rejects; [|exact Hv']. intros b model Hb. eapply run_z3_answer; [|exact Hb].
  apply buffers_obligation; [by apply apply_transfer_ok|done|by rewrite apply_transfer_names].
Qed.
End solver.
