(* ===== verification/SeamCheck.v ===== *)
(** * Where the checker asks the seam engine ([check/transfer.rs], [decl_check/topology.rs])

    A hop of a transfer asks whether the buffer it moves stays visible, or keeps
    the value that is known of it; a topology asks the same of each relaxed edge
    it declares, after the rules that the declaration itself must keep. *)

From stdpp Require Import base list strings gmap sorting.
From Stdlib Require Import ZArith Lia Ascii SpecFloat.
From S2P Require Import Prelude Syntax Arch Memory Routing Capacity Program Smt Seam SeamSound SeamVerdict.
Open Scope Z_scope.
Open Scope vx_scope.

(** ** Hops *)

(** [SeamState], without the times. *)
Record SeamState : Type := mkSeamState {
  ss_solver : option Solver;
  ss_contracts : gmap string Z;
  ss_checks : nat;
}.

Inductive SeamDiagnostic : Type :=
| E6004 (buffer : string) (src dst : MemorySpace) (known_val : option Z) (counterexample : list string) (span : Span)
| W1031 (buffer : string) (src dst : MemorySpace) (e : SeamError)
| E6024 (buffer : string) (src dst : MemorySpace) (e : SeamError).

#[export] Instance Management_eq_dec : EqDecision Management.
Proof. solve_decision. Defined.

Definition space_is_cached (memories : list MemoryDecl) (space : MemorySpace) : bool :=
  existsb (fun d => bool_decide (md_managed d = Cached) && bool_decide (MemorySpace_from_name (md_name d) = space)) memories.

Section check.
Context `{Z3}.

(** [unverified] is [unverified_allowed()], which the environment sets. *)
Context (memories : list MemoryDecl) (speculating unverified : bool).

Definition seam_state (buffer : string) (known_val : option Z) : AbsState := [(buffer, Cell_constant (default 1 known_val))].
Definition seam_transfer (relaxed : bool) (buffer : string) : Transfer := if relaxed then Relaxed [buffer] else Sync.

Definition started (st : SeamState) : Solver := match ss_solver st with Some s => s | None => Solver_new end.

Definition run_seam_hop (src dst : MemorySpace) (relaxed : bool) (buffer : string) (known_val : option Z) (span : Span) (st : SeamState)
    : SeamState * list SeamDiagnostic :=
  if relaxed && space_is_cached memories dst then (st, [])
  else
    let reached := seam_state buffer known_val in
    let transfer := seam_transfer relaxed buffer in
    let '(solver, verdict) :=
      match known_val with
      | Some v => Solver_check_seam_value reached transfer buffer v (started st)
      | None => Solver_check_seam_buffers reached transfer [buffer] (started st)
      end in
    (mkSeamState (Some solver) (ss_contracts st) (S (ss_checks st)),
     match verdict with
     | Ok Accept => []
     | Ok (Reject counterexample) => if speculating then [] else [E6004 buffer src dst known_val counterexample span]
     | Err e => if speculating then [] else if unverified then [W1031 buffer src dst e] else [E6024 buffer src dst e]
     end).

(** ** The buffer of a transfer *)

Fixpoint buffer_label (e : PExpr) : string :=
  match e with
  | EIdentifier name _ => name
  | ETransfer e _ | EBorrow e _ _ => buffer_label e
  | _ => "buffer"
  end.

Fixpoint buffer_span (e : PExpr) : option Span :=
  match e with
  | EIdentifier _ span => Some span
  | ETransfer e _ | EBorrow e _ _ => buffer_span e
  | _ => None
  end.

(** Values of the constant evaluator, of which the numbers matter here. *)
Inductive ConstValue : Type := CInt (i : Z) | CNumber (n : spec_float) | COther.

(** A whole number from 0 up to 2^53. *)
Definition whole_number (n : spec_float) : option Z :=
  match n with
  | S754_zero _ => Some 0
  | S754_finite false m e =>
      let v := if 0 <=? e then Some (Zpos m * 2 ^ e) else if Zpos m mod 2 ^ (- e) =? 0 then Some (Zpos m / 2 ^ (- e)) else None in
      v ← v; if v <=? 2 ^ 53 then Some v else None
  | _ => None
  end.

(** The innermost scope is first. *)
Fixpoint const_value_of (env : list (gmap Symbol ConstValue)) (name : string) : option Z :=
  match env with
  | [] => None
  | scope :: env =>
      match scope !! name with
      | Some (CInt i) => if 0 <=? i then Some i else None
      | Some (CNumber n) => whole_number n
      | _ => const_value_of env name
      end
  end.

Definition discharge_seam_obligation (g : TransferCostGraph) (env : list (gmap Symbol ConstValue)) (target : option Symbol)
    (moved : PExpr) (transfer_span : Span) (source_mem target_mem : MemorySpace) (relaxed : bool) (st : SeamState) : SeamState * list SeamDiagnostic :=
  let span := default transfer_span (buffer_span moved) in
  let buffer := buffer_label moved in
  let asserted_val := tgt ← target; ss_contracts st !! tgt in
  let known_val := match asserted_val with Some v => Some v | None => const_value_of env buffer end in
  let hop_relaxed := is_relaxed_edge g source_mem target_mem in
  run_seam_hop source_mem target_mem (relaxed || hop_relaxed) buffer known_val span st.
End check.

(** ** Topologies *)

Definition TopologyKind_from_name (name : Symbol) : TopologyKind :=
  if decide (name = "CPU") then KCPU
  else if decide (name = "NPU") then KNPU
  else if decide (name = "AccCore") then KAccCore
  else if decide (name = "AMX") then KAMX
  else if decide (name = "ANE") then KANE
  else if decide (name = "GPU") then KGPU
  else if decide (name = "CpuAvx512" \/ name = "CPU_AVX512") then KCpuAvx512
  else if decide (name = "CpuNeon" \/ name = "CPU_Neon") then KCpuNeon
  else if decide (name = "Current") then KCurrent
  else KCustom name.

Definition ANY_TOPOLOGY : string := "Any".

Inductive TopologyDiagnostic : Type :=
| E6016_shadows (name : Symbol)
| E6016_any
| E6016_collide (prev name : Symbol) (id : Z)
| E6005 (name : Symbol)
| W1026 (name : Symbol)
| E6013 (name : Symbol) (from to : MemorySpace)
| W1027 (name : Symbol) (from to : MemorySpace)
| W1031_edge (name : Symbol) (from to : MemorySpace) (e : SeamError)
| E6024_edge (name : Symbol) (from to : MemorySpace) (e : SeamError).

Definition name_issues (d : TopologyDecl) : list TopologyDiagnostic :=
  match TopologyKind_from_name (td_name d) with KCustom _ => [] | _ => [E6016_shadows (td_name d)] end ++
  if decide (td_name d = ANY_TOPOLOGY) then [E6016_any] else [].

Definition decl_le (a b : TopologyDecl) : Prop := str_le (td_name a) (td_name b).
#[export] Instance decl_le_dec : RelDecision decl_le.
Proof. intros a b. unfold decl_le. apply _. Defined.

(** The ids in the order of the names: each is compared with the last topology that had it. *)
Fixpoint id_collisions (sorted : list TopologyDecl) (by_id : gmap Z Symbol) : outcome (list TopologyDiagnostic) :=
  match sorted with
  | [] => Returns []
  | d :: sorted =>
      id ←! topology_dispatch_id (CustomTopology (td_name d));
      rest ←! id_collisions sorted (<[id := td_name d]> by_id);
      Returns (match by_id !! id with
               | Some prev => if decide (prev = td_name d) then rest else E6016_collide prev (td_name d) id :: rest
               | None => rest
               end)
  end.

Definition coherence_diagnostic (name : Symbol) (i : CoherenceIssue) : TopologyDiagnostic :=
  match i with DefaultNotVisible => E6005 name | MemoryUnreachableFromHost => W1026 name end.

(** An edge with a cost of its own and one that its spaces give. *)
Fixpoint cost_issues (h : MemoryHierarchy) (name : Symbol) (edges : list TransferEdge) : outcome (list TopologyDiagnostic) :=
  match edges with
  | [] => Returns []
  | e :: edges =>
      if decide (te_cost e = Derived) then cost_issues h name edges
      else
        c ←! derived_transfer_cost h (te_from e) (te_to e) 1;
        rest ←! cost_issues h name edges;
        Returns (match c with Some _ => E6013 name (te_from e) (te_to e) :: rest | None => rest end)
  end.

Section topology.
Context {H : Type} `{MinHeap H} `{Z3} (g : TransferCostGraph) (memories : list MemoryDecl) (unverified : bool).

Definition edge_issue (name : Symbol) (e : TransferEdge) (s : Solver) : Solver * list TopologyDiagnostic :=
  if te_sync e then (s, [])
  else
    let '(s, verdict) := Solver_check_seam_buffers (seam_state "payload" (Some 1)) (seam_transfer true "payload") ["payload"] s in
    (s, match verdict with
        | Ok (Reject _) => [W1027 name (te_from e) (te_to e)]
        | Ok Accept => []
        | Err err => if unverified then [W1031_edge name (te_from e) (te_to e) err] else [E6024_edge name (te_from e) (te_to e) err]
        end).

(** The solver starts at the first relaxed edge. *)
Fixpoint edge_issues (name : Symbol) (edges : list TransferEdge) (s : option Solver) : option Solver * list TopologyDiagnostic :=
  match edges with
  | [] => (s, [])
  | e :: edges =>
      if te_sync e then edge_issues name edges s
      else
        let '(s, issues) := edge_issue name e (match s with Some s => s | None => Solver_new end) in
        let '(s, rest) := edge_issues name edges (Some s) in (s, issues ++ rest)
  end.

Definition decl_issues (d : TopologyDecl) (s : option Solver) : outcome (option Solver * list TopologyDiagnostic) :=
  coherence ←! descriptor_coherence (td_descriptor d) g;
  costs ←! cost_issues (Memory.build memories) (td_name d) (transfers (td_descriptor d));
  let '(s, edges) := edge_issues (td_name d) (transfers (td_descriptor d)) s in
  Returns (s, (coherence_diagnostic (td_name d) <$> coherence) ++ costs ++ edges).

Fixpoint decls_issues (decls : list TopologyDecl) (s : option Solver) : outcome (option Solver * list TopologyDiagnostic) :=
  match decls with
  | [] => Returns (s, [])
  | d :: decls =>
      one ←! decl_issues d s;
      rest ←! decls_issues decls one.1;
      Returns (rest.1, one.2 ++ rest.2)
  end.

Definition check_topology_coherence (declared : list TopologyDecl) (s : option Solver) : outcome (option Solver * list TopologyDiagnostic) :=
  ids ←! id_collisions (merge_sort decl_le declared) ∅;
  issues ←! decls_issues declared s;
  Returns (issues.1, flat_map name_issues declared ++ ids ++ issues.2).
End topology.
