(* ===== verification/SeamHop.v ===== *)
(** * What hops and topologies report

    A relaxed hop into a memory that the hardware does not keep coherent is never
    let through, and no other hop is refused; a declared topology that the checker
    accepts can be told from every other and reaches its memory. *)

From stdpp Require Import base list strings gmap sorting.
From Stdlib Require Import ZArith Lia Ascii.
From S2P Require Import Prelude Syntax Arch Memory Routing Dijkstra Reach Capacity Smt Seam SeamSound SeamVerdict SeamCheck.
Open Scope Z_scope.
Open Scope vx_scope.

(** ** Hops *)

Section hop.
Context `{Z3}.

Definition known_ok (known_val : option Z) : Prop := forall v, known_val = Some v -> u64 v.

Lemma seam_state_ok buffer known_val : good_name buffer -> known_ok known_val -> state_ok (seam_state buffer known_val).
Proof.
  intros Hb Hk. split; [apply NoDup_singleton|]. intros n c Hin%list_elem_of_singleton. injection Hin as -> ->. split; [done|]. cbn. destruct known_val as [v|]; [by apply Hk|done].
Qed.

Lemma published_hop relaxed buffer : buffer ∈ published_by (seam_transfer relaxed buffer) <-> relaxed = true.
Proof. destruct relaxed; set_solver. Qed.

(** What is put to the process that stays. *)
Definition hop_query (relaxed : bool) (buffer : string) (known_val : option Z) : string :=
  state_smt (apply_transfer (seam_state buffer known_val) (seam_transfer relaxed buffer)) +:+
  match known_val with Some v => value1_goal_smt buffer v | None => buffers_goal_smt [buffer] end.

Definition hop_verdict (relaxed : bool) (buffer : string) (known_val : option Z) (s : Solver) : Solver * result Verdict SeamError :=
  match known_val with
  | Some v => Solver_check_seam_value (seam_state buffer known_val) (seam_transfer relaxed buffer) buffer v s
  | None => Solver_check_seam_buffers (seam_state buffer known_val) (seam_transfer relaxed buffer) [buffer] s
  end.

Lemma hop_verdict_exact relaxed buffer known_val s s' r : good_name buffer -> known_ok known_val -> in_sync s ->
  hop_verdict relaxed buffer known_val s = (s', r) ->
  in_sync s' /\ (forall v, r = Ok v -> rejects v <-> relaxed = true) /\
  forall p, s = Some p -> decides (query_text (hop_query relaxed buffer known_val) p) -> exists v, r = Ok v.
Proof.
  intros Hb Hk Hs Hv. pose proof (seam_state_ok buffer known_val Hb Hk) as Hok. pose proof (published_hop relaxed buffer) as Hpub. set (t := seam_transfer relaxed buffer) in *. pose proof (apply_transfer_ok _ t Hok) as Hok'.
  assert (buffer ∈ (seam_state buffer known_val).*1) as Hin by set_solver. assert (buffer ∈ (apply_transfer (seam_state buffer known_val) t).*1) as Hin' by (by rewrite apply_transfer_names).
  unfold hop_verdict, hop_query in *. destruct known_val as [v|].
  - unfold Solver_check_seam_value in Hv. fold t. rewrite value_text in *. destruct (query _ s) as [s1 q] eqn:Eq. injection Hv as <- <-.
    destruct (solver_verdict _ _ _ _ _ _ _ Hs (value_obligation _ _ v Hok' Hin' (Hk v eq_refl)) Eq) as (H1 & H2 & H3). split_and!; [done| |].
    + intros w Hw. rewrite (H2 w Hw), (value_rejects _ t buffer v Hok Hin (Hk v eq_refl)). unfold kept. rewrite Hpub. split.
      * intros Hn. destruct relaxed; [done|]. exfalso. apply Hn. split; [|done]. eexists. split; [by left|done].
      * intros -> [_ Hn]. by apply Hn.
    + intros p Hp Hd. destruct (H3 p Hp Hd) as [_ ?]. done.
  - unfold Solver_check_seam_buffers in Hv. fold t. rewrite buffers_text in * by done. destruct (query _ s) as [s1 q] eqn:Eq. injection Hv as <- <-.
    assert (Forall (fun b => b ∈ (seam_state buffer None).*1) [buffer]) as Hall by (by constructor).
    assert (Forall (fun b => b ∈ (apply_transfer (seam_state buffer None) t).*1) [buffer]) as Hall' by (by constructor).
    destruct (solver_verdict _ _ _ _ _ _ _ Hs (buffers_obligation _ [buffer] Hok' ltac:(done) Hall') Eq) as (H1 & H2 & H3). split_and!; [done| |].
    + intros w Hw. rewrite (H2 w Hw), (buffers_reject _ t [buffer] Hok ltac:(done) Hall). split.
      * intros (b & ->%list_elem_of_singleton & [Ht|Hp]); [|by apply Hpub]. destruct Ht as (c & Hc%list_elem_of_singleton & Ht). by injection Hc as ->.
      * intros Hr. exists buffer. split; [by left|]. right. by apply Hpub.
    + intros p Hp Hd. destruct (H3 p Hp Hd) as [_ ?]. done.
Qed.

Definition seam_synced (st : SeamState) : Prop := match ss_solver st with Some s => in_sync s | None => True end.

Lemma started_sync st : seam_synced st -> in_sync (started st).
Proof. unfold seam_synced, started. destruct (ss_solver st); [done|]. intros _. apply Solver_new_sync. Qed.

(** C18. What a hop of a transfer reports, with a solver that tells the truth: a relaxed hop into a memory that is not cached is
    never let through silently, no other hop is reported as a violation, and when the solver decides the question the report is
    the violation, and there is one exactly for those hops.  The solver stays in step for the next hop. *)
Theorem seam_hop_exact memories speculating unverified src dst relaxed buffer known_val span st st' ds :
  good_name buffer -> known_ok known_val -> seam_synced st ->
  run_seam_hop memories speculating unverified src dst relaxed buffer known_val span st = (st', ds) ->
  let stale := relaxed = true /\ space_is_cached memories dst = false in
  seam_synced st' /\
  (stale -> speculating = false -> ds <> []) /\
  (forall ce, E6004 buffer src dst known_val ce span ∈ ds -> stale) /\
  (forall p, started st = Some p -> decides (query_text (hop_query relaxed buffer known_val) p) ->
    Forall (fun d => exists ce, d = E6004 buffer src dst known_val ce span) ds /\ (ds <> [] <-> stale /\ speculating = false)).
Proof.
  intros Hb Hk Hs Hr stale. unfold run_seam_hop in Hr. destruct (relaxed && space_is_cached memories dst) eqn:Ec.
  { injection Hr as <- <-. apply andb_true_iff in Ec as [-> Ec]. assert (~ stale) as Hn by (unfold stale; rewrite Ec; naive_solver).
    split_and!; [done|done|by intros ce ?%elem_of_nil|]. intros p _ _. split; [constructor|]. naive_solver. }
  fold (hop_verdict relaxed buffer known_val (started st)) in Hr. destruct (hop_verdict relaxed buffer known_val (started st)) as [solver verdict] eqn:Ev. injection Hr as <- <-.
  destruct (hop_verdict_exact _ _ _ _ _ _ Hb Hk (started_sync st Hs) Ev) as (H1 & H2 & H3).
  assert (stale <-> relaxed = true) as Hst by (unfold stale; destruct relaxed; [cbn in Ec; rewrite Ec|]; naive_solver). rewrite Hst. split_and!; [done| | |].
  - intros Hrel ->. destruct verdict as [v|e]; [|by destruct unverified]. apply (H2 v eq_refl) in Hrel. by destruct v.
  - intros ce Hin. destruct verdict as [v|e]; [|by destruct speculating, unverified; set_solver]. apply Hst, (H2 v eq_refl). destruct v; [by apply elem_of_nil in Hin|done].
  - intros p Hp Hd. destruct (H3 p Hp Hd) as [v ->]. rewrite Hst, <-(H2 v eq_refl). unfold rejects. destruct v as [|ce]; [split; [constructor|naive_solver]|].
    destruct speculating; (split; [repeat constructor; by eexists|]); naive_solver.
Qed.
End hop.

(** ** Topologies *)

(** What a report is about. *)
Definition identity_error (d : TopologyDiagnostic) : Prop := match d with E6016_shadows _ | E6016_any | E6016_collide _ _ _ => True | _ => False end.
Definition memory_report (d : TopologyDiagnostic) : Prop := match d with E6005 _ | W1026 _ => True | _ => False end.
Definition cost_error (d : TopologyDiagnostic) : Prop := match d with E6013 _ _ _ => True | _ => False end.
Definition about_edge (name : Symbol) (e : TransferEdge) (d : TopologyDiagnostic) : Prop :=
  match d with W1027 n f t | W1031_edge n f t _ | E6024_edge n f t _ => n = name /\ f = te_from e /\ t = te_to e | _ => False end.
Definition edge_report (d : TopologyDiagnostic) : Prop := match d with W1027 _ _ _ | W1031_edge _ _ _ _ | E6024_edge _ _ _ _ => True | _ => False end.

(** Reports of different kinds differ. *)
Ltac kinds := intros []; cbn; tauto.

Definition none (P : TopologyDiagnostic -> Prop) (ds : list TopologyDiagnostic) : Prop := forall d, d ∈ ds -> ~ P d.

Lemma none_app P a b : none P (a ++ b) <-> none P a /\ none P b.
Proof. unfold none. setoid_rewrite elem_of_app. naive_solver. Qed.

Lemma none_all P Q ds : Forall Q ds -> (forall d, Q d -> ~ P d) -> none P ds.
Proof. intros H HP d Hd. apply HP. rewrite Forall_forall in H. by apply H. Qed.

Lemma none_only P ds : Forall P ds -> none P ds <-> ds = [].
Proof. intros H. split; [|by intros -> d ?%elem_of_nil]. destruct ds as [|d ds]; [done|]. intros Hn. apply Forall_cons in H as [H _]. destruct (Hn d); [by left|done]. Qed.

(** The name means the declaration. *)
Definition own_name (d : TopologyDecl) : Prop := TopologyKind_from_name (td_name d) = KCustom (td_name d) /\ td_name d <> ANY_TOPOLOGY.

Lemma name_issues_exact d : Forall identity_error (name_issues d) /\ (name_issues d = [] <-> own_name d).
Proof.
  unfold name_issues, own_name. assert (forall k, TopologyKind_from_name (td_name d) = KCustom k -> k = td_name d) as Hk.
  { intros k. unfold TopologyKind_from_name. repeat case_decide; try done. by intros [= ->]. }
  split; [apply Forall_app; split; [by destruct (TopologyKind_from_name _); repeat constructor|case_decide; by repeat constructor]|].
  destruct (TopologyKind_from_name _) as [| | | | | | | | |k|] eqn:E; try (split; [done|by intros [[=] _]]). rewrite (Hk k eq_refl). case_decide; naive_solver.
Qed.

Lemma names_exact declared : Forall identity_error (flat_map name_issues declared) /\ (flat_map name_issues declared = [] <-> Forall own_name declared).
Proof.
  induction declared as [|d declared [IH1 IH2]]; [done|]. destruct (name_issues_exact d) as [H1 H2]. cbn [flat_map]. split; [by apply Forall_app|].
  rewrite Forall_cons, <-H2, <-IH2. split; [by intros [-> ->]%app_nil|by intros [-> ->]].
Qed.

Definition decl_id (d : TopologyDecl) : Z := fnv_dispatch_id (td_name d).

Lemma id_collisions_exact l by_id : exists ds, id_collisions l by_id = Returns ds /\ Forall identity_error ds /\
  (ds = [] <-> (forall d n, d ∈ l -> by_id !! decl_id d = Some n -> n = td_name d) /\
               forall d d', d ∈ l -> d' ∈ l -> decl_id d = decl_id d' -> td_name d = td_name d').
Proof.
  revert by_id. induction l as [|d l IH]; intros by_id; cbn [id_collisions].
  { exists []. split_and!; [done|done|]. split; [|done]. intros _. split; [by intros ? ? ?%elem_of_nil|by intros ? ? ?%elem_of_nil]. }
  change (topology_dispatch_id (CustomTopology (td_name d))) with (Returns (decl_id d)). cbn [outcome_bind].
  destruct (IH (<[decl_id d := td_name d]> by_id)) as (ds & -> & Hf & Hds). eexists. split; [done|]. fold (decl_id d).
  assert ((forall d0 n, d0 ∈ l -> <[decl_id d:=td_name d]> by_id !! decl_id d0 = Some n -> n = td_name d0) <->
    (forall d0, d0 ∈ l -> decl_id d0 = decl_id d -> td_name d = td_name d0) /\ forall d0 n, d0 ∈ l -> decl_id d0 <> decl_id d -> by_id !! decl_id d0 = Some n -> n = td_name d0) as Hins.
  { setoid_rewrite lookup_insert_Some. naive_solver. }
  rewrite Hins in Hds. clear Hins IH. destruct (by_id !! decl_id d) as [prev|] eqn:Ep; [case_decide as E|].
  - split; [done|]. rewrite Hds. setoid_rewrite elem_of_cons. split; [|naive_solver]. intros [[H1 H2] H3]. split; [|naive_solver].
    intros d0 n [->|Hin] Hn; [congruence|]. destruct (decide (decl_id d0 = decl_id d)) as [Ei|Ei]; [|by eapply H2]. rewrite Ei, Ep in Hn. injection Hn as <-. rewrite E. by apply H1.
  - split; [by constructor|]. split; [done|]. intros [H1 _]. destruct E. apply (H1 d prev); [by left|done].
  - split; [done|]. rewrite Hds. setoid_rewrite elem_of_cons. split; [|naive_solver]. intros [[H1 H2] H3]. split; [|naive_solver].
    intros d0 n [->|Hin] Hn; [congruence|]. destruct (decide (decl_id d0 = decl_id d)) as [Ei|Ei]; [|by eapply H2]. rewrite Ei, Ep in Hn. done.
Qed.

(** An edge has one source of its cost. *)
Definition one_cost (h : MemoryHierarchy) (e : TransferEdge) : Prop :=
  te_cost e <> Derived -> derived_transfer_cost h (te_from e) (te_to e) 1 = Returns None.

Lemma cost_issues_exact h name edges : exists ds, cost_issues h name edges = Returns ds /\ Forall cost_error ds /\ (ds = [] <-> Forall (one_cost h) edges).
Proof.
  induction edges as [|e edges (ds & IH & Hf & Hds)]; cbn [cost_issues]; [by exists []|]. case_decide as E.
  - exists ds. split_and!; [done|done|]. rewrite Forall_cons, Hds. unfold one_cost at 2. naive_solver.
  - destruct (derived_transfer_cost_returns h (te_from e) (te_to e) 1) as [c Hc]. rewrite Hc, IH. cbn [outcome_bind]. eexists. split; [done|]. rewrite Forall_cons.
    unfold one_cost at 1. rewrite Hc. destruct c as [c|]; [|split; [done|]; rewrite Hds; naive_solver]. split; [by constructor|]. split; [done|]. intros [H _]. by specialize (H E).
Qed.

Section topology.
Context {H : Type} `{MinHeap H} `{Z3} (g : TransferCostGraph) (memories : list MemoryDecl) (unverified : bool).

Definition solver_ok (s : option Solver) : Prop := match s with Some s => in_sync s | None => True end.

Lemma edge_issue_exact name e s s' ds : te_sync e = false -> in_sync s -> edge_issue unverified name e s = (s', ds) ->
  in_sync s' /\ exists d, ds = [d] /\ about_edge name e d.
Proof.
  intros He Hs Hd. unfold edge_issue in Hd. rewrite He in Hd.
  assert (state_ok (seam_state "payload" (Some 1))) as Hok by (by apply seam_state_ok; [|intros v [= <-]]).
  set (t := seam_transfer true "payload") in *. pose proof (apply_transfer_ok _ t Hok) as Hok'.
  assert (Forall (fun b => b ∈ (apply_transfer (seam_state "payload" (Some 1)) t).*1) ["payload"]) as Hall by (constructor; [by left|constructor]).
  unfold Solver_check_seam_buffers in Hd. rewrite buffers_text in Hd by done. destruct (query _ s) as [s1 q] eqn:Eq. injection Hd as <- <-.
  destruct (solver_verdict _ _ _ _ _ _ _ Hs (buffers_obligation _ ["payload"] Hok' ltac:(done) Hall) Eq) as (H1' & H2' & _). split; [done|].
  destruct (verdict_of q) as [v|err] eqn:Ev; [|destruct unverified; by eexists].
  assert (rejects v) as Hr. { apply (H2' v eq_refl), (buffers_reject (seam_state "payload" (Some 1))); [done|done|by constructor; [left|constructor]|]. exists "payload". split; [by left|]. right. by left. }
  destruct v; [done|]. by eexists.
Qed.

Lemma edge_issues_exact name edges s s' ds : solver_ok s -> edge_issues unverified name edges s = (s', ds) ->
  solver_ok s' /\ Forall edge_report ds /\ forall e, e ∈ edges -> te_sync e = false -> exists d, d ∈ ds /\ about_edge name e d.
Proof.
  revert s s' ds. induction edges as [|e edges IH]; intros s s' ds Hs Hd; cbn [edge_issues] in Hd.
  { injection Hd as <- <-. split_and!; [done|constructor|]. by intros e ?%elem_of_nil. }
  destruct (te_sync e) eqn:He.
  - destruct (IH _ _ _ Hs Hd) as (H1' & H2' & H3'). split_and!; [done|done|]. intros e' [->|Hin]%elem_of_cons Hrel; [congruence|by apply H3'].
  - assert (in_sync (match s with Some s => s | None => Solver_new end)) as Hs1 by (destruct s; [done|apply Solver_new_sync]).
    destruct (edge_issue _ _ _ _) as [s1 issues] eqn:E1. destruct (edge_issues _ _ edges _) as [s2 rest] eqn:E2. injection Hd as <- <-.
    destruct (edge_issue_exact _ _ _ _ _ He Hs1 E1) as (Hs2 & d & -> & Hab). destruct (IH (Some s1) _ _ Hs2 E2) as (H1' & H2' & H3'). split_and!; [done| |].
    + constructor; [|done]. by destruct d.
    + intros e' [->|Hin]%elem_of_cons Hrel; [exists d; split; [by left|done]|]. destruct (H3' e' Hin Hrel) as (d' & Hd' & Ha). exists d'. split; [by right|done].
Qed.

(** The topology sees its memory, and the host reaches it. *)
Definition memory_coherent (d : TopologyDecl) : Prop :=
  default_space (td_descriptor d) ∈ visibility (td_descriptor d) /\
  (CPUDRAM ∈ visibility (td_descriptor d) \/ linked g CPUDRAM (default_space (td_descriptor d))).

Lemma coherence_returns d : graph_typed g -> exists issues, descriptor_coherence (td_descriptor d) g = Returns issues.
Proof.
  intros Hg. unfold descriptor_coherence. case_decide; cbn [outcome_bind]; [by eexists|]. destruct (transfer_path_spec g CPUDRAM (default_space (td_descriptor d)) Hg) as (r & -> & _). by eexists.
Qed.

Lemma decl_issues_exact d s : graph_typed g -> solver_ok s -> exists s' ds, decl_issues g memories unverified d s = Returns (s', ds) /\ solver_ok s' /\
  none identity_error ds /\ (none memory_report ds <-> memory_coherent d) /\
  (none cost_error ds <-> Forall (one_cost (Memory.build memories)) (transfers (td_descriptor d))) /\
  forall e, e ∈ transfers (td_descriptor d) -> te_sync e = false -> exists x, x ∈ ds /\ about_edge (td_name d) e x.
Proof.
  intros Hg Hs. unfold decl_issues. destruct (coherence_returns d Hg) as [issues Hi]. rewrite Hi. destruct (cost_issues_exact (Memory.build memories) (td_name d) (transfers (td_descriptor d))) as (costs & -> & Hcf & Hc).
  cbn [outcome_bind]. destruct (edge_issues _ _ _ s) as [s' edges] eqn:Ee. destruct (edge_issues_exact _ _ _ _ _ Hs Ee) as (Hs' & Hef & He).
  assert (Forall memory_report (coherence_diagnostic (td_name d) <$> issues)) as Hmf by (apply Forall_fmap, Forall_forall; by intros [] _).
  eexists s', _. split_and!; [done|done| | | |].
  - rewrite !none_app. split_and!; [eapply none_all; [exact Hmf|kinds]|eapply none_all; [exact Hcf|kinds]|eapply none_all; [exact Hef|kinds]].
  - rewrite !none_app, (none_only _ _ Hmf). unfold memory_coherent. rewrite <-(descriptor_coherence_exact g (td_descriptor d) issues Hg Hi).
    assert (none memory_report costs) by (eapply none_all; [exact Hcf|kinds]). assert (none memory_report edges) by (eapply none_all; [exact Hef|kinds]).
    split; [by intros [?%fmap_nil_inv _]|by intros ->].
  - rewrite !none_app, (none_only _ _ Hcf), Hc. assert (none cost_error (coherence_diagnostic (td_name d) <$> issues)) by (eapply none_all; [exact Hmf|kinds]).
    assert (none cost_error edges) by (eapply none_all; [exact Hef|kinds]). naive_solver.
  - intros e Hin Hrel. destruct (He e Hin Hrel) as (x & Hx & Ha). exists x. split; [|done]. rewrite !elem_of_app. by right; right.
Qed.

Lemma decls_issues_exact decls s : graph_typed g -> solver_ok s -> exists s' ds, decls_issues g memories unverified decls s = Returns (s', ds) /\ solver_ok s' /\
  none identity_error ds /\ (none memory_report ds <-> Forall memory_coherent decls) /\
  (none cost_error ds <-> Forall (fun d => Forall (one_cost (Memory.build memories)) (transfers (td_descriptor d))) decls) /\
  forall d e, d ∈ decls -> e ∈ transfers (td_descriptor d) -> te_sync e = false -> exists x, x ∈ ds /\ about_edge (td_name d) e x.
Proof.
  intros Hg. revert s. induction decls as [|d decls IH]; intros s Hs; cbn [decls_issues].
  { assert (forall P, none P []) as Hn by (by intros P x ?%elem_of_nil). exists s, []. split_and!; [done|done|done|done|done|]. by intros d e ?%elem_of_nil. }
  destruct (decl_issues_exact d s Hg Hs) as (s1 & ds1 & -> & Hs1 & A1 & A2 & A3 & A4). cbn [outcome_bind fst].
  destruct (IH s1 Hs1) as (s2 & ds2 & -> & Hs2 & B1 & B2 & B3 & B4). cbn [outcome_bind fst snd]. eexists s2, _. split; [done|]. rewrite !none_app, !Forall_cons, A2, A3, B2, B3. split_and!; [done|done|done|done|done|].
  intros d' e [->|Hd]%elem_of_cons Hin Hrel; [destruct (A4 e Hin Hrel) as (x & Hx & Ha)|destruct (B4 d' e Hd Hin Hrel) as (x & Hx & Ha)]; exists x; rewrite elem_of_app; auto.
Qed.

End topology.

(** ** A solver that knows one obligation *)

Section known.
Context (post : AbsState) (terms : list sexp) (answer : string).
Context (answer_ok : answer ∈ ["sat"; "unsat"; "unknown"]).
Context (answer_true : (answer = "unsat" -> ~ satisfiable (body_ctx post terms)) /\ (answer = "sat" -> satisfiable (body_ctx post terms))).

Definition asked_once : list sexp := preamble_forms ++ body_forms post terms [].
Definition asked_first : list sexp := preamble_forms ++ Form [Word "push"; Word "1"] :: body_forms post terms [].

Definition seam_known (cmds : list sexp) : string :=
  if sexp_eqb (Form cmds) (Form asked_once) || sexp_eqb (Form cmds) (Form asked_first) then answer else "unknown".

Lemma asked_reads cmds : cmds = asked_once \/ cmds = asked_first -> exists read, mapM read_command cmds = Some read /\ checks read [] [] = [body_ctx post terms].
Proof.
  pose proof (read_body post terms []) as Hb. unfold body_cmds in Hb. rewrite (app_assoc (state_cmds post)) in Hb. unfold body_ctx.
  intros [->| ->].
  - eexists. split; [by apply (mapM_read_app preamble_forms _ (Other :: Other :: pre_ctx))|]. rewrite checks_app, (tr_scopes _ _ preamble_transcript).
    destruct (adds_scopes _ pre_ctx [] (state_cmds_add post terms)) as [E1 E2]. rewrite checks_app, E1, E2. done.
  - eexists. split; [apply (mapM_read_app preamble_forms _ (Other :: Other :: pre_ctx)); [done|by apply (mapM_read_app [_] _ [Push])]|].
    rewrite checks_app, (tr_scopes _ _ preamble_transcript). destruct (adds_scopes _ pre_ctx [pre_ctx] (state_cmds_add post terms)) as [E1 E2]. cbn [app checks]. rewrite checks_app, E1, E2. done.
Qed.

Definition seam_z3 : Z3.
Proof.
  refine (table_z3 seam_known _ _); unfold seam_known.
  - intros cmds. destruct (_ || _); [exact answer_ok|set_solver].
  - intros cmds read ctx Hr Hl. destruct (_ || _) eqn:E; [|done]. assert (cmds = asked_once \/ cmds = asked_first) as Hc.
    { apply orb_true_iff in E as [E|E]; apply sexp_eqb_eq in E; injection E as E; auto. }
    destruct (asked_reads cmds Hc) as (read' & Hr' & Hk). rewrite Hr in Hr'. injection Hr' as ->. rewrite Hk in Hl. by injection Hl as <-.
Defined.
End known.

(** ** Messages: [flag == 1 ==> data == 42] over a relaxed transfer of the data *)

Definition mp_state : AbsState := [("data", Cell_constant 42); ("flag", Cell_constant 1)].
Definition mp_contract : Contract := mkContract ("flag", 1) ("data", 42).

Lemma mp_ok : state_ok mp_state /\ contract_ok mp_state mp_contract.
Proof.
  split; [split; [apply NoDup_ListNoDup; repeat constructor; cbn; intuition congruence|]|split_and!; cbn; [set_solver|set_solver|done|done]].
  intros n c Hin. unfold mp_state in Hin. rewrite !elem_of_cons, elem_of_nil in Hin. destruct Hin as [[= -> ->]|[[= -> ->]|[]]]; done.
Qed.

Lemma mp_violated : kept mp_state (Relaxed ["data"]) "flag" 1 /\ ~ kept mp_state (Relaxed ["data"]) "data" 42.
Proof. split; [|unfold kept; set_solver]. split; [|set_solver]. exists (Cell_constant 1). split; [set_solver|done]. Qed.

Definition mp_z3 : Z3.
Proof.
  refine (seam_z3 (apply_transfer mp_state (Relaxed ["data"])) (contract_terms mp_contract) "sat" ltac:(set_solver) (conj _ _)); [done|].
  intros _. apply contract_rejects; [apply mp_ok..|apply mp_violated].
Defined.

Lemma seam_contract_exact_witness :
  exists model s', check_seam (H := mp_z3) mp_state (Relaxed ["data"]) mp_contract = Ok (Reject model) /\
    Solver_check_seam (H := mp_z3) mp_state (Relaxed ["data"]) mp_contract (Solver_new (H := mp_z3)) = (s', Ok (Reject model)) /\
    in_sync (H := mp_z3) s' /\ (rejects (Reject model) <-> kept mp_state (Relaxed ["data"]) "flag" 1 /\ ~ kept mp_state (Relaxed ["data"]) "data" 42).
Proof.
  exists [], (Solver_check_seam (H := mp_z3) mp_state (Relaxed ["data"]) mp_contract (Solver_new (H := mp_z3))).1.
  assert (Solver_check_seam (H := mp_z3) mp_state (Relaxed ["data"]) mp_contract (Solver_new (H := mp_z3)) =
    ((Solver_check_seam (H := mp_z3) mp_state (Relaxed ["data"]) mp_contract (Solver_new (H := mp_z3))).1, Ok (Reject []))) as E by (vm_compute; reflexivity).
  destruct (seam_contract_exact (H := mp_z3) mp_state (Relaxed ["data"]) mp_contract (Reject []) (Solver_new (H := mp_z3))
    (Solver_check_seam (H := mp_z3) mp_state (Relaxed ["data"]) mp_contract (Solver_new (H := mp_z3))).1 (proj1 mp_ok) (proj2 mp_ok)) as [_ Hp].
  destruct (Hp (Solver_new_sync (H := mp_z3)) E) as [Hs Hr]. split_and!; [vm_compute; reflexivity|exact E|exact Hs|exact Hr].
Defined.

(** A relaxed hop of [x], whose value is 7, to a memory that nothing declares. *)
Definition hop_z3 : Z3.
Proof.
  refine (seam_z3 (apply_transfer (seam_state "x" (Some 7)) (seam_transfer true "x")) (value_terms "x" 7) "sat" ltac:(set_solver) (conj _ _)); [done|].
  intros _. apply value_rejects; [by apply seam_state_ok; [|intros v [= <-]]|set_solver|done|]. intros [_ Hn]. apply Hn. by left.
Defined.

Definition new_seams : SeamState := mkSeamState None ∅ 0.

Lemma seam_hop_exact_witness : exists st' ds, run_seam_hop (H := hop_z3) [] false false CPUDRAM GpuHbm true "x" (Some 7) Span_default new_seams = (st', ds) /\
  seam_synced (H := hop_z3) st' /\ (ds <> [] <-> (true = true /\ space_is_cached [] GpuHbm = false) /\ false = false).
Proof.
  destruct (run_seam_hop (H := hop_z3) [] false false CPUDRAM GpuHbm true "x" (Some 7) Span_default new_seams) as [st' ds] eqn:E. exists st', ds. split; [done|].
  destruct (seam_hop_exact (H := hop_z3) [] false false CPUDRAM GpuHbm true "x" (Some 7) Span_default new_seams st' ds) as (Hs & _ & _ & Hd);
    [done|intros v [= <-]; done|done|exact E|]. split; [done|].
  destruct (started (H := hop_z3) new_seams) as [p|] eqn:Ep; [|vm_compute in Ep; discriminate Ep].
  apply (Hd p eq_refl). vm_compute in Ep. injection Ep as <-. eexists. split; [vm_compute; reflexivity|]. vm_compute. set_solver.
Defined.

