(* ===== verification/Bytecode.v ===== *)
(** * The flat instruction format ([src/src/bytecode.rs])

    The opcodes with their numbers on the wire, the instruction record and the
    packings of its immediate: field indices and enum payload indices. *)

From stdpp Require Import base list.
From Stdlib Require Import ZArith Lia.
From S2P Require Import Prelude.
Open Scope Z_scope.
Open Scope vx_scope.

Inductive Opcode : Type :=
| OpNop | OpConst | OpLoad | OpStore | OpAdd | OpSub | OpMul | OpDiv | OpCall | OpRet | OpMatmul
| OpCmp | OpCast | OpNeg | OpNot | OpAlloca | OpSlotLoad | OpBr | OpCondBr | OpBlockStart | OpSpawn
| OpSpawnEnd | OpFieldLoad | OpFieldStore | OpTensorIndex | OpTensorAlloc | OpTensorStore | OpTransfer
| OpArg | OpPrint | OpPrintStr | OpStringConst | OpPtrIndex | OpPtrStore | OpFuncConst | OpCallIndirect
| OpFieldAddr | OpAbort | OpBarrier | OpMatmulInto | OpAutoDiff | OpTensorLoad | OpTensorDim
| OpTensorZero | OpTensorFill | OpTensorView | OpInlineMlir | OpTensorReshape | OpTensorTranspose
| OpTensorMap | OpRem | OpBitAnd | OpBitOr | OpBitXor | OpShl | OpShr | OpTensorReduce | OpTensorClone
| OpConstTable | OpTensorDataPtr | OpTensorDrop | OpTensorPad | OpLaunchDim | OpAcrossId | OpAcrossRegion
| OpAffineFor | OpAffineForEnd | OpLoopHint | OpEnumPayloadLoad | OpLaneReduce | OpPrintStream
| OpTasksWait | OpRegionExit | OpTaskFailed | OpCancelOff | OpCancelOn | OpTaskJoin | OpLifetimeStart
| OpLifetimeEnd | OpTensorElementAddress | OpCheckAggregate.

#[export] Instance Opcode_eq_dec : EqDecision Opcode.
Proof. solve_decision. Defined.

(** [opcode as u32]. *)
Definition Opcode_as_u32 (op : Opcode) : Z :=
  match op with
  | OpNop => 0 | OpConst => 1 | OpLoad => 2 | OpStore => 3 | OpAdd => 4 | OpSub => 5 | OpMul => 6
  | OpDiv => 7 | OpCall => 8 | OpRet => 9 | OpMatmul => 10 | OpCmp => 11 | OpCast => 12 | OpNeg => 13
  | OpNot => 14 | OpAlloca => 15 | OpSlotLoad => 16 | OpBr => 17 | OpCondBr => 18 | OpBlockStart => 19
  | OpSpawn => 20 | OpSpawnEnd => 21 | OpFieldLoad => 22 | OpFieldStore => 23 | OpTensorIndex => 24
  | OpTensorAlloc => 26 | OpTensorStore => 27 | OpTransfer => 28 | OpArg => 29 | OpPrint => 30
  | OpPrintStr => 31 | OpStringConst => 32 | OpPtrIndex => 33 | OpPtrStore => 34 | OpFuncConst => 35
  | OpCallIndirect => 36 | OpFieldAddr => 37 | OpAbort => 38 | OpBarrier => 39 | OpMatmulInto => 40
  | OpAutoDiff => 42 | OpTensorLoad => 43 | OpTensorDim => 44 | OpTensorZero => 45 | OpTensorFill => 46
  | OpTensorView => 47 | OpInlineMlir => 48 | OpTensorReshape => 49 | OpTensorTranspose => 50
  | OpTensorMap => 51 | OpRem => 52 | OpBitAnd => 53 | OpBitOr => 54 | OpBitXor => 55 | OpShl => 56
  | OpShr => 57 | OpTensorReduce => 58 | OpTensorClone => 59 | OpConstTable => 60 | OpTensorDataPtr => 61
  | OpTensorDrop => 62 | OpTensorPad => 63 | OpLaunchDim => 64 | OpAcrossId => 65 | OpAcrossRegion => 66
  | OpAffineFor => 67 | OpAffineForEnd => 68 | OpLoopHint => 69 | OpEnumPayloadLoad => 70 | OpLaneReduce => 71
  | OpPrintStream => 72 | OpTasksWait => 73 | OpRegionExit => 74 | OpTaskFailed => 75 | OpCancelOff => 76
  | OpCancelOn => 77 | OpTaskJoin => 78 | OpLifetimeStart => 79 | OpLifetimeEnd => 80 | OpTensorElementAddress => 81
  | OpCheckAggregate => 84
  end.

(** A checked conversion from the wire. *)
Definition from_u32 (v : Z) : option Opcode :=
  match v with
  | 0 => Some OpNop | 1 => Some OpConst | 2 => Some OpLoad | 3 => Some OpStore | 4 => Some OpAdd
  | 5 => Some OpSub | 6 => Some OpMul | 7 => Some OpDiv | 52 => Some OpRem | 53 => Some OpBitAnd
  | 54 => Some OpBitOr | 55 => Some OpBitXor | 56 => Some OpShl | 57 => Some OpShr | 58 => Some OpTensorReduce
  | 59 => Some OpTensorClone | 60 => Some OpConstTable | 61 => Some OpTensorDataPtr | 62 => Some OpTensorDrop
  | 64 => Some OpLaunchDim | 65 => Some OpAcrossId | 66 => Some OpAcrossRegion | 67 => Some OpAffineFor
  | 68 => Some OpAffineForEnd | 69 => Some OpLoopHint | 70 => Some OpEnumPayloadLoad | 71 => Some OpLaneReduce
  | 79 => Some OpLifetimeStart | 80 => Some OpLifetimeEnd | 84 => Some OpCheckAggregate | 8 => Some OpCall
  | 9 => Some OpRet | 10 => Some OpMatmul | 11 => Some OpCmp | 12 => Some OpCast | 13 => Some OpNeg
  | 14 => Some OpNot | 15 => Some OpAlloca | 16 => Some OpSlotLoad | 17 => Some OpBr | 18 => Some OpCondBr
  | 19 => Some OpBlockStart | 20 => Some OpSpawn | 21 => Some OpSpawnEnd | 22 => Some OpFieldLoad
  | 23 => Some OpFieldStore | 24 => Some OpTensorIndex | 26 => Some OpTensorAlloc | 27 => Some OpTensorStore
  | 28 => Some OpTransfer | 29 => Some OpArg | 30 => Some OpPrint | 31 => Some OpPrintStr | 32 => Some OpStringConst
  | 33 => Some OpPtrIndex | 34 => Some OpPtrStore | 35 => Some OpFuncConst | 36 => Some OpCallIndirect
  | 37 => Some OpFieldAddr | 38 => Some OpAbort | 39 => Some OpBarrier | 40 => Some OpMatmulInto
  | 42 => Some OpAutoDiff | 43 => Some OpTensorLoad | 44 => Some OpTensorDim | 45 => Some OpTensorZero
  | 46 => Some OpTensorFill | 47 => Some OpTensorView | 48 => Some OpInlineMlir | 49 => Some OpTensorReshape
  | 50 => Some OpTensorTranspose | 51 => Some OpTensorMap | 81 => Some OpTensorElementAddress
  | _ => None
  end.

(** ** Immediates *)

Record EnumPayloadIndex : Type := mkPayloadIndex { epi_variant : Z; epi_field : Z }.

Definition FIELD_INDEX_FLAG : Z := Z.shiftl 1 63.

(** The index of a field is a [usize]; one that does not fit in [u32] panics. *)
Definition encode_field_index (index : Z) : outcome Z :=
  match checked_u 32 index with
  | Some i => Returns (Z.lor FIELD_INDEX_FLAG i)
  | None => Panics
  end.

Definition decode_field_index (imm : Z) : outcome Z :=
  if Z.land imm FIELD_INDEX_FLAG =? 0 then Panics
  else Returns (Z.land imm (unot 64 FIELD_INDEX_FLAG)).

Definition EnumPayloadIndex_encode (e : EnumPayloadIndex) : Z :=
  Z.lor (epi_variant e) (Z.shiftl (epi_field e) 32).

Definition EnumPayloadIndex_decode (imm : Z) : EnumPayloadIndex :=
  mkPayloadIndex (wrap_u 32 imm) (wrap_u 32 (Z.shiftr imm 32)).

(** ** Instructions *)

Record HirInstruction : Type := mkHirInstruction {
  hi_opcode : Opcode;
  hi_operand1 : Z;
  hi_operand2 : Z;
  hi_type_idx : Z;
  hi_imm : Z;
}.

(** The fields are in the range of their types. *)
Definition hir_ok (i : HirInstruction) : Prop :=
  0 <= hi_operand1 i <= umax 32 /\ 0 <= hi_operand2 i <= umax 32 /\
  0 <= hi_type_idx i <= umax 32 /\ 0 <= hi_imm i <= umax 64.

(** ** Properties *)

(** The opcodes that [from_u32] does not know. *)
Definition unreadable : list Opcode :=
  [OpTensorPad; OpPrintStream; OpTasksWait; OpRegionExit; OpTaskFailed; OpCancelOff; OpCancelOn; OpTaskJoin].

Lemma from_u32_as_u32 op : from_u32 (Opcode_as_u32 op) = if decide (op ∈ unreadable) then None else Some op.
Proof. destruct op; reflexivity. Qed.

Lemma opcode_range op : 0 <= Opcode_as_u32 op <= umax 32.
Proof. destruct op; split; vm_compute; discriminate. Qed.

(** A number that [from_u32] reads is the number of the opcode it gives. *)
Lemma from_u32_exact v op : from_u32 v = Some op -> Opcode_as_u32 op = v.
Proof.
  unfold from_u32. intros H.
  repeat (case_match; try discriminate H); by injection H as <-.
Qed.

(** The wire numbers of opcodes: a number that is read back names the opcode
    it was written for, two opcodes never share a number, and the opcodes that
    cannot be read back are exactly the eight that [from_u32] leaves out,
    although the lowering emits them. *)
Theorem opcode_wire :
  (forall v op, from_u32 v = Some op -> Opcode_as_u32 op = v) /\
  (forall a b, Opcode_as_u32 a = Opcode_as_u32 b -> a = b) /\
  (forall op, from_u32 (Opcode_as_u32 op) = None <-> op ∈ unreadable).
Proof.
  split_and!; [apply from_u32_exact| |].
  - intros a b. destruct a; destruct b; (discriminate 1 || reflexivity).
  - intros op. rewrite from_u32_as_u32. case_decide; split; congruence.
Qed.

(** [as u32] keeps the low 32 bits. *)
Lemma wrap_u_land w z : 0 <= w -> wrap_u w z = Z.land z (Z.ones w).
Proof. intros. unfold wrap_u. by rewrite Z.land_ones. Qed.

Lemma payload_decode v f :
  0 <= v <= umax 32 -> 0 <= f <= umax 32 ->
  EnumPayloadIndex_decode (EnumPayloadIndex_encode (mkPayloadIndex v f)) = mkPayloadIndex v f.
Proof.
  intros Hv Hf. unfold EnumPayloadIndex_decode, EnumPayloadIndex_encode. simpl.
  rewrite !wrap_u_land by lia. f_equal; bitwise.
  - by rewrite (testbit_high 32 v n) by lia.
  - rewrite (testbit_high 32 v) by lia. simpl. f_equal. lia.
  - by rewrite (testbit_high 32 f n) by lia.
Qed.

Lemma payload_range v f :
  0 <= v <= umax 32 -> 0 <= f <= umax 32 -> 0 <= EnumPayloadIndex_encode (mkPayloadIndex v f) <= umax 64.
Proof.
  intros Hv Hf. apply in_range_bits; [lia|]. intros m Hm. unfold EnumPayloadIndex_encode. simpl.
  rewrite Z.lor_spec, testbit_shiftl by lia.
  by rewrite (testbit_high 32 v), (testbit_high 32 f) by lia.
Qed.

Lemma field_flag_set i : (Z.land (Z.lor FIELD_INDEX_FLAG i) FIELD_INDEX_FLAG =? 0) = false.
Proof. unfold FIELD_INDEX_FLAG. rewrite land_flag by lia. by rewrite Z.lor_spec, testbit_shiftl by lia. Qed.

Lemma field_flag_strip i : 0 <= i <= umax 32 ->
  Z.land (Z.lor FIELD_INDEX_FLAG i) (unot 64 FIELD_INDEX_FLAG) = i.
Proof.
  intros Hi. unfold FIELD_INDEX_FLAG. bitwise; try by rewrite (testbit_high 32 i n) by lia.
Qed.

(** The two immediates of an instruction survive their packing: an enum
    payload index keeps variant and field, a field index keeps its number when it
    fits in 32 bits and panics otherwise, and an immediate without the flag is
    refused. *)
Theorem immediates_roundtrip :
  (forall e, 0 <= epi_variant e <= umax 32 -> 0 <= epi_field e <= umax 32 ->
     EnumPayloadIndex_decode (EnumPayloadIndex_encode e) = e /\ 0 <= EnumPayloadIndex_encode e <= umax 64) /\
  (forall i, 0 <= i <= umax 32 ->
     exists imm, encode_field_index i = Returns imm /\ decode_field_index imm = Returns i) /\
  (forall i, umax 32 < i -> encode_field_index i = Panics) /\
  (forall imm, Z.testbit imm 63 = false -> decode_field_index imm = Panics).
Proof.
  split_and!.
  - intros [v f] Hv Hf. simpl in *. split; [by apply payload_decode|]. by apply payload_range.
  - intros i Hi. exists (Z.lor FIELD_INDEX_FLAG i). unfold encode_field_index, decode_field_index.
    rewrite (proj2 (checked_u_Some 32 i i)) by done. split; [done|].
    rewrite field_flag_set, field_flag_strip by lia. done.
  - intros i Hi. unfold encode_field_index. by rewrite (proj2 (checked_u_None 32 i)) by lia.
  - intros imm Hb. unfold decode_field_index, FIELD_INDEX_FLAG.
    by rewrite land_flag, Hb by lia.
Qed.
