(* ===== verification/Registry.v ===== *)
(** * The frozen registry ([src/src/registry.rs], [src/src/layout/identity.rs])

    The tables a compilation resolves against: layouts, module indices,
    signatures, methods, bodies, enums and structs; the identity and base-name
    indices derived from the layouts; the freeze, which refuses colliding
    identities, unresolved by-value dependencies and types of infinite size; the
    merge of imported interfaces; and the queries.

    An [FxHashMap] is a [gmap]; the order in which its entries are visited is a
    parameter ([HashOrder]), so a theorem about a loop over a table holds for
    every order.  The topological sort is petgraph's, a parameter with its
    documented contract ([Petgraph]). *)

From stdpp Require Import base list strings gmap relations.
From Stdlib Require Import ZArith Lia Ascii.
From S2P Require Import Prelude Gid Syntax Types Layout Bytecode.
Open Scope Z_scope.
Open Scope vx_scope.

(** [graph.toposort]: the nodes in topological order, or a node on a cycle.  The
    edges of a graph join its nodes. *)
Class Petgraph : Type := {
  toposort : forall {W : Type}, list W -> list (nat * nat) -> result (list nat) nat;
  toposort_Ok : forall {W : Type} (nodes : list W) edges order,
    (forall a b, (a, b) ∈ edges -> (a < length nodes)%nat /\ (b < length nodes)%nat) ->
    toposort nodes edges = Ok order ->
    Permutation order (seq 0 (length nodes)) /\
    (forall a b, (a, b) ∈ edges -> exists i j, order !! i = Some a /\ order !! j = Some b /\ (i < j)%nat);
  toposort_Err : forall {W : Type} (nodes : list W) edges n,
    (forall a b, (a, b) ∈ edges -> (a < length nodes)%nat /\ (b < length nodes)%nat) ->
    toposort nodes edges = Err n -> tc (fun a b => (a, b) ∈ edges) n n;
}.

(** ** Data *)

Record TypeDefinition : Type := mkTypeDefinition {
  td_id : Gid.TypeId;
  td_name : Symbol;
  td_size_bytes : Z;
  td_align_bytes : Z;
  td_fields : list FieldLayout;
  td_by_value_dependencies : list Gid.TypeId;
}.

(** The length of a [valid] clause. *)
Inductive Length : Type :=
| LenParam (i : Z)
| LenConstant (c : Z)
| LenOther.
#[export] Instance Length_eq_dec : EqDecision Length.
Proof. solve_decision. Defined.

Record FnSig : Type := mkFnSig {
  fs_gid : Gid.TypeId;
  fs_params : list Ty;
  fs_ret_ty : Ty;
  fs_ret_prov : Z;
  fs_is_unsafe : bool;
  fs_ret_valid : option Length;
}.

Record StructFields : Type := mkStructFields {
  sf_generics : list Symbol;
  sf_fields : list (Symbol * Ty);
}.

Record EnumData : Type := mkEnumData {
  ed_generics : list Symbol;
  ed_variants : list (Symbol * list Ty);
}.

Record FnBody : Type := mkFnBody {
  fb_name : Symbol;
  fb_params : list Ty;
  fb_ret_ty : Ty;
  fb_hir : list HirInstruction;
  fb_types : list Gid.TypeId;
}.

Record ConstTable : Type := mkConstTable {
  ct_name : Symbol;
  ct_elem : ElementType;
  ct_len : Z;
  ct_values : list string;
}.

Record AggregateIdentities : Type := mkIdentities {
  ai_names : gmap Symbol (option Gid.TypeId);
  ai_declarations : gmap Gid.TypeId Symbol;
}.

Record LayoutNameIndex : Type := mkLayoutNameIndex {
  lni_built_from : nat;
  lni_by_base_name : gmap Symbol (option Gid.TypeId);
}.

(** One name-keyed table with the book-keeping of [merge_from]: its entries,
    the imported keys and the poisoned keys. *)
Record Merged (K V : Type) `{Countable K} : Type := mkMerged {
  mg_dst : gmap K V;
  mg_imported : gset K;
  mg_poisoned : gset K;
}.
Arguments mkMerged {K V _ _} _ _ _.
Arguments mg_dst {K V _ _} _.
Arguments mg_imported {K V _ _} _.
Arguments mg_poisoned {K V _ _} _.

(** The fields [imported_*] and [poisoned_*] of [merge_state] are kept beside the
    table they belong to. *)
Record ImmutableGlobalRegistry : Type := mkRegistry {
  rg_aggregate_identities : AggregateIdentities;
  rg_layouts : gmap Gid.TypeId TypeDefinition;
  rg_module_indices : gmap Z (gmap Symbol Gid.TypeId);
  rg_fn_sigs : Merged Symbol FnSig;
  rg_methods : Merged (Gid.TypeId * Symbol) FnSig;
  rg_bodies : gmap Gid.TypeId FnBody;
  rg_enum_variants : Merged Symbol (list Symbol);
  rg_structs : gmap Gid.TypeId StructFields;
  rg_structs_with_invariants : gset Gid.TypeId;
  rg_enum_data : gmap Symbol EnumData;
  rg_const_tables : list ConstTable;
  rg_layout_by_base_name : LayoutNameIndex;
}.

Definition fresh_table {K V} `{Countable K} (m : gmap K V) : Merged K V := mkMerged m ∅ ∅.

(** The order of [Symbol]s ([Arc<str>]): by bytes. *)
Fixpoint sym_ltb (a b : Symbol) : bool :=
  match a, b with
  | _, EmptyString => false
  | EmptyString, String _ _ => true
  | String x a', String y b' =>
      let nx := Ascii.nat_of_ascii x in
      let ny := Ascii.nat_of_ascii y in
      (nx <? ny)%nat || ((nx =? ny)%nat && sym_ltb a' b')
  end.

(** ** Identities *)

Definition Identities_default : AggregateIdentities := mkIdentities ∅ ∅.

(** The body of the loop of [AggregateIdentities::new]. *)
Definition add_declaration (r : AggregateIdentities) (d : Gid.TypeId * Symbol) : AggregateIdentities :=
  let (id, name) := d in
  mkIdentities
    (<[name := match ai_names r !! name with
               | Some old => if decide (old = Some id) then old else None
               | None => Some id
               end]> (ai_names r))
    (<[id := match ai_declarations r !! id with
             | Some old => if sym_ltb name old then name else old
             | None => name
             end]> (ai_declarations r)).

Definition Identities_new (declarations : list (Gid.TypeId * Symbol)) : AggregateIdentities :=
  foldl add_declaration Identities_default declarations.

Definition from_layouts `{HashOrder} (layouts : gmap Gid.TypeId TypeDefinition) : AggregateIdentities :=
  Identities_new (map (fun e => (e.1, td_name e.2)) (iter layouts)).

(** An attached ID is authoritative; a missing one needs an unambiguous name. *)
Definition resolve (s : AggregateIdentities) (name : Symbol) (attached : option Gid.TypeId)
  : option (Symbol * Gid.TypeId) :=
  id ← match attached with
       | Some id => Some id
       | None => mjoin (ai_names s !! name)
       end;
  declared ← ai_declarations s !! id;
  Some (declared, id).

Inductive AggregateBase : Type :=
| BaseName (name : Symbol)
| BaseType (ty : Ty)
| BaseDeclaration (id : Gid.TypeId).

Definition resolve_base (s : AggregateIdentities) (base : AggregateBase) : option (Symbol * Gid.TypeId) :=
  match base with
  | BaseName name => resolve s name None
  | BaseType (Struct name id) | BaseType (Enum name id) => resolve s name id
  | BaseDeclaration id => declared ← ai_declarations s !! id; Some (declared, id)
  | BaseType _ => None
  end.

Definition Identities_len (s : AggregateIdentities) : nat := size (ai_declarations s).

(** ** The base-name index *)

(** The entry of one definition; [layouts[id]] panics on a missing key. *)
Definition index_entry (identities : AggregateIdentities) (layouts : gmap Gid.TypeId TypeDefinition)
    (def : TypeDefinition) : outcome (Symbol * option Gid.TypeId) :=
  match resolve_base identities (BaseName (td_name def)) with
  | None => Returns (td_name def, None)
  | Some (_, id) =>
      match layouts !! id with
      | None => Panics
      | Some d => Returns (td_name def, if td_align_bytes d =? 0 then None else Some id)
      end
  end.

Fixpoint index_entries (identities : AggregateIdentities) (layouts : gmap Gid.TypeId TypeDefinition)
    (defs : list TypeDefinition) (acc : gmap Symbol (option Gid.TypeId))
    : outcome (gmap Symbol (option Gid.TypeId)) :=
  match defs with
  | [] => Returns acc
  | def :: defs =>
      e ←! index_entry identities layouts def;
      index_entries identities layouts defs (<[e.1 := e.2]> acc)
  end.

Definition LayoutNameIndex_build `{HashOrder} (layouts : gmap Gid.TypeId TypeDefinition)
    : outcome LayoutNameIndex :=
  by_base_name ←! index_entries (from_layouts layouts) layouts (map snd (iter layouts)) ∅;
  Returns (mkLayoutNameIndex (size layouts) by_base_name).

(** ** The freeze *)

Inductive RegistryError : Type :=
| GidCollision (existing new : Symbol) (id : Gid.TypeId)
| UnresolvedDependency (dep : Gid.TypeId)
| InfiniteLayout (name : Symbol)
| InfiniteLayoutUnnamed.

(** What the first loop builds: the graph's nodes are their weights in order. *)
Record Freeze : Type := mkFreeze {
  fz_layouts : gmap Gid.TypeId TypeDefinition;
  fz_modules : gmap Z (gmap Symbol Gid.TypeId);
  fz_nodes : list Gid.TypeId;
  fz_node_map : gmap Gid.TypeId nat;
}.

Definition register (s : Freeze) (def : TypeDefinition) : result Freeze RegistryError :=
  let id := td_id def in
  let mod_id := Gid.module_id id in
  let add := Ok (mkFreeze
    (<[id := def]> (fz_layouts s))
    (<[mod_id := <[td_name def := id]> (default ∅ (fz_modules s !! mod_id))]> (fz_modules s))
    (fz_nodes s ++ [id])
    (<[id := length (fz_nodes s)]> (fz_node_map s))) in
  match fz_layouts s !! id with
  | Some existing =>
      if decide (td_name existing = td_name def) then add
      else Err (GidCollision (td_name existing) (td_name def) id)
  | None => add
  end.

Fixpoint register_all (s : Freeze) (defs : list TypeDefinition) : result Freeze RegistryError :=
  match defs with
  | [] => Ok s
  | def :: defs => s ←? register s def; register_all s defs
  end.

(** The dependency edges of one definition. *)
Fixpoint dep_edges (node_map : gmap Gid.TypeId nat) (source : nat) (deps : list Gid.TypeId)
    (edges : list (nat * nat)) : result (list (nat * nat)) RegistryError :=
  match deps with
  | [] => Ok edges
  | dep :: deps =>
      match node_map !! dep with
      | Some target => dep_edges node_map source deps (edges ++ [(source, target)])
      | None => Err (UnresolvedDependency dep)
      end
  end.

Fixpoint all_edges (node_map : gmap Gid.TypeId nat) (defs : list TypeDefinition)
    (edges : list (nat * nat)) : outcome (result (list (nat * nat)) RegistryError) :=
  match defs with
  | [] => Returns (Ok edges)
  | def :: defs =>
      match node_map !! td_id def with
      | None => Panics
      | Some source =>
          match dep_edges node_map source (td_by_value_dependencies def) edges with
          | Ok edges => all_edges node_map defs edges
          | Err e => Returns (Err e)
          end
      end
  end.

(** The registry of a freeze: only the layouts and module indices are filled. *)
Definition frozen (identities : AggregateIdentities) (index : LayoutNameIndex)
    (layouts : gmap Gid.TypeId TypeDefinition) (modules : gmap Z (gmap Symbol Gid.TypeId))
    : ImmutableGlobalRegistry :=
  mkRegistry identities layouts modules (fresh_table ∅) (fresh_table ∅) ∅ (fresh_table ∅) ∅ ∅ ∅ [] index.

Definition build_and_validate `{HashOrder, Petgraph} (definitions : list TypeDefinition)
    : outcome (result ImmutableGlobalRegistry RegistryError) :=
  match register_all (mkFreeze ∅ ∅ [] ∅) definitions with
  | Err e => Returns (Err e)
  | Ok s =>
      edges ←! all_edges (fz_node_map s) (map snd (iter (fz_layouts s))) [];
      match edges with
      | Err e => Returns (Err e)
      | Ok edges =>
          match toposort (fz_nodes s) edges with
          | Err n =>
              cyclic ←! vec_get (fz_nodes s) n;
              Returns (Err match fz_layouts s !! cyclic with
                           | Some def => InfiniteLayout (td_name def)
                           | None => InfiniteLayoutUnnamed
                           end)
          | Ok _ =>
              index ←! LayoutNameIndex_build (fz_layouts s);
              Returns (Ok (frozen (from_layouts (fz_layouts s)) index (fz_layouts s) (fz_modules s)))
          end
      end
  end.

(** ** Merging imported interfaces *)

(** [PartialEq for FnSig], derived. *)
Definition FnSig_eqb (a b : FnSig) : bool :=
  bool_decide (fs_gid a = fs_gid b) && list_eqb Ty_eqb (fs_params a) (fs_params b) &&
  Ty_eqb (fs_ret_ty a) (fs_ret_ty b) && bool_decide (fs_ret_prov a = fs_ret_prov b) &&
  bool_decide (fs_is_unsafe a = fs_is_unsafe b) && bool_decide (fs_ret_valid a = fs_ret_valid b).

(** The body of the loop of [merge_imported_table]; [eqb] is [V]'s
    [PartialEq]. *)
Definition merge_entry {K V} `{Countable K} (eqb : V -> V -> bool) (s : Merged K V) (e : K * V) : Merged K V :=
  let (k, v) := e in
  if decide (k ∈ mg_poisoned s) then s
  else match mg_dst s !! k with
       | Some existing =>
           if decide (k ∉ mg_imported s) then s
           else if negb (eqb existing v) then
             mkMerged (delete k (mg_dst s)) (mg_imported s ∖ {[k]}) (mg_poisoned s ∪ {[k]})
           else s
       | None => mkMerged (<[k := v]> (mg_dst s)) (mg_imported s ∪ {[k]}) (mg_poisoned s)
       end.

Definition merge_imported_table `{HashOrder} {K V} `{Countable K} (eqb : V -> V -> bool)
    (s : Merged K V) (src : gmap K V) : Merged K V :=
  foldl (merge_entry eqb) s (iter src).

(** [for (k, v) in other.t { self.t.entry(k).or_insert(v) }]. *)
Definition fill_in `{HashOrder} {K V} `{Countable K} (dst src : gmap K V) : gmap K V :=
  foldl (fun m (e : K * V) => match m !! e.1 with Some _ => m | None => <[e.1 := e.2]> m end) dst (iter src).

Definition fill_modules `{HashOrder} (dst src : gmap Z (gmap Symbol Gid.TypeId))
    : gmap Z (gmap Symbol Gid.TypeId) :=
  foldl (fun m (e : Z * gmap Symbol Gid.TypeId) => <[e.1 := fill_in (default ∅ (m !! e.1)) e.2]> m)
        dst (iter src).

Definition merge_from `{HashOrder} (self other : ImmutableGlobalRegistry) : outcome ImmutableGlobalRegistry :=
  let layouts := fill_in (rg_layouts self) (rg_layouts other) in
  index ←! LayoutNameIndex_build layouts;
  Returns (mkRegistry
    (from_layouts layouts) layouts
    (fill_modules (rg_module_indices self) (rg_module_indices other))
    (merge_imported_table FnSig_eqb (rg_fn_sigs self) (mg_dst (rg_fn_sigs other)))
    (merge_imported_table FnSig_eqb (rg_methods self) (mg_dst (rg_methods other)))
    (fill_in (rg_bodies self) (rg_bodies other))
    (merge_imported_table (fun a b => bool_decide (a = b)) (rg_enum_variants self) (mg_dst (rg_enum_variants other)))
    (fill_in (rg_structs self) (rg_structs other))
    (rg_structs_with_invariants self) (rg_enum_data self) (rg_const_tables self) index).

(** A sequence of imports, in the order they arrive. *)
Fixpoint merge_all `{HashOrder} (self : ImmutableGlobalRegistry) (imports : list ImmutableGlobalRegistry)
    : outcome ImmutableGlobalRegistry :=
  match imports with
  | [] => Returns self
  | other :: imports => self ←! merge_from self other; merge_all self imports
  end.

(** ** Queries *)

Inductive PoisonKind : Type := PoisonFunction | PoisonMethod | PoisonEnumVariant.

Definition poisoned_reason (self : ImmutableGlobalRegistry) (name : Symbol) : option PoisonKind :=
  if decide (name ∈ mg_poisoned (rg_fn_sigs self)) then Some PoisonFunction
  else if existsb (fun e => bool_decide (e.2 = name)) (elements (mg_poisoned (rg_methods self)))
  then Some PoisonMethod
  else if decide (name ∈ mg_poisoned (rg_enum_variants self)) then Some PoisonEnumVariant
  else None.

Definition resolve_in_module (self : ImmutableGlobalRegistry) (module_hash : Z) (symbol : Symbol)
    : option Gid.TypeId :=
  by_name ← rg_module_indices self !! module_hash;
  by_name !! symbol.

(** The loop of [resolve_unique_nominal] over the module indices. *)
Fixpoint unique_nominal (name : Symbol) (found : option Gid.TypeId) (ms : list (gmap Symbol Gid.TypeId))
    : option Gid.TypeId :=
  match ms with
  | [] => found
  | by_name :: ms =>
      match by_name !! name with
      | Some gid =>
          match found with
          | Some existing => if decide (existing <> gid) then None else unique_nominal name (Some gid) ms
          | None => unique_nominal name (Some gid) ms
          end
      | None => unique_nominal name found ms
      end
  end.

Definition resolve_unique_nominal `{HashOrder} (self : ImmutableGlobalRegistry) (name : Symbol) : option Gid.TypeId :=
  unique_nominal name None (map snd (iter (rg_module_indices self))).

Fixpoint ambiguous_nominal (name : Symbol) (found : option Gid.TypeId) (ms : list (gmap Symbol Gid.TypeId)) : bool :=
  match ms with
  | [] => false
  | by_name :: ms =>
      match by_name !! name with
      | Some gid =>
          match found with
          | Some existing => if decide (existing <> gid) then true else ambiguous_nominal name (Some gid) ms
          | None => ambiguous_nominal name (Some gid) ms
          end
      | None => ambiguous_nominal name found ms
      end
  end.

Definition is_ambiguous_nominal `{HashOrder} (self : ImmutableGlobalRegistry) (name : Symbol) : bool :=
  ambiguous_nominal name None (map snd (iter (rg_module_indices self))).

Definition body_of (self : ImmutableGlobalRegistry) (gid : Gid.TypeId) : option FnBody := rg_bodies self !! gid.
Definition reg_layout_of (self : ImmutableGlobalRegistry) (ty : Gid.TypeId) : option TypeDefinition := rg_layouts self !! ty.
Definition resolve_fn (self : ImmutableGlobalRegistry) (name : Symbol) : option FnSig := mg_dst (rg_fn_sigs self) !! name.
Definition resolve_method (self : ImmutableGlobalRegistry) (recv : Gid.TypeId) (method : Symbol) : option FnSig :=
  mg_dst (rg_methods self) !! (recv, method).

Definition is_payload_free_enum (self : ImmutableGlobalRegistry) (gid : Gid.TypeId) : bool :=
  match rg_layouts self !! gid with
  | Some d => negb (td_align_bytes d =? 0) && match td_fields d with [] => true | _ => false end &&
      match rg_structs self !! gid with Some _ => false | None => true end
  | None => false
  end.

(** [name.split('<').next()]. *)
Fixpoint base_name (name : Symbol) : Symbol :=
  match name with
  | EmptyString => EmptyString
  | String c s => if decide (c = "<"%char) then EmptyString else String c (base_name s)
  end.

(** The index answers only for the table it was built from. *)
Definition layout_gid_by_base_name (self : ImmutableGlobalRegistry) (name : Symbol) : outcome (option Gid.TypeId) :=
  if decide (lni_built_from (rg_layout_by_base_name self) = size (rg_layouts self))
  then Returns (mjoin (lni_by_base_name (rg_layout_by_base_name self) !! base_name name))
  else Panics.

Definition aggregate_identities (self : ImmutableGlobalRegistry) : outcome AggregateIdentities :=
  if decide (Identities_len (rg_aggregate_identities self) = size (rg_layouts self))
  then Returns (rg_aggregate_identities self) else Panics.

Definition nominal_layout_id (self : ImmutableGlobalRegistry) (ty : Ty) : outcome (option Gid.TypeId) :=
  identities ←! aggregate_identities self;
  Returns (r ← resolve_base identities (BaseType ty);
           def ← rg_layouts self !! r.2;
           if td_align_bytes def =? 0 then None else Some r.2).

Definition struct_fields_of `{HashOrder} (self : ImmutableGlobalRegistry) (ty : Ty) : option StructFields :=
  '(name, attached) ← match ty with
                      | Struct n id => Some (n, id)
                      | GenericInstance (Struct n id) _ => Some (n, id)
                      | _ => None
                      end;
  gid ← match attached with Some g => Some g | None => resolve_unique_nominal self name end;
  rg_structs self !! gid.
