(* ===== verification/Toposort.v ===== *)
(** * A topological sort that meets the contract of [petgraph]

    The freeze of the registry sorts with a library function.  This file gives a
    function that meets the same contract, so that the theorems about the freeze
    apply to a concrete run. *)

From stdpp Require Import base list gmap relations.
From Stdlib Require Import Lia.
From S2P Require Import Prelude Registry.
Open Scope nat_scope.

Section sort.
Context (edges : list (nat * nat)).

Abbreviation edge := (fun a b : nat => (a, b) ∈ edges).

(** The sources of the edges into [x] that are still to be placed. *)
Definition preds (remaining : list nat) (x : nat) : list nat :=
  omap (fun e : nat * nat => if decide (e.2 = x /\ e.1 ∈ remaining) then Some e.1 else None) edges.

Lemma preds_spec remaining x y : y ∈ preds remaining x <-> (y, x) ∈ edges /\ y ∈ remaining.
Proof.
  unfold preds. rewrite list_elem_of_omap. split.
  - intros ([a b] & Hin & He). simpl in He. case_decide; naive_solver.
  - intros [Hin Hy]. exists (y, x). by rewrite decide_True.
Qed.

(** The first node without a predecessor to be placed before it. *)
Fixpoint ready (remaining candidates : list nat) : option nat :=
  match candidates with
  | [] => None
  | x :: candidates =>
      match preds remaining x with
      | [] => Some x
      | _ => ready remaining candidates
      end
  end.

(** Walk backwards until a node is met again. *)
Fixpoint walk_back (fuel : nat) (remaining visited : list nat) (x : nat) : nat :=
  match fuel with
  | O => x
  | S fuel =>
      if decide (x ∈ visited) then x
      else match preds remaining x with
           | [] => x
           | y :: _ => walk_back fuel remaining (x :: visited) y
           end
  end.

Fixpoint kahn (fuel : nat) (remaining : list nat) : result (list nat) nat :=
  match fuel, remaining with
  | _, [] => Ok []
  | O, x :: _ => Ok []
  | S fuel, x :: _ =>
      match ready remaining remaining with
      | Some y => result_bind (kahn fuel (filter (.≠ y) remaining)) (fun order => Ok (y :: order))
      | None => Err (walk_back (S (length remaining)) remaining [] x)
      end
  end.

Lemma ready_Some remaining candidates x :
  ready remaining candidates = Some x -> x ∈ candidates /\ preds remaining x = [].
Proof.
  induction candidates as [|y l IH]; simpl; [done|].
  destruct (preds remaining y) eqn:E; [intros [= <-]; split; [apply list_elem_of_here|done]|].
  intros [? ?]%IH. split; [by apply list_elem_of_further|done].
Qed.

Lemma ready_None remaining candidates x :
  ready remaining candidates = None -> x ∈ candidates -> preds remaining x <> [].
Proof.
  induction candidates as [|y l IH]; simpl; [by intros _ ?%elem_of_nil|].
  destruct (preds remaining y) eqn:E; [done|]. intros Hr [->|?]%elem_of_cons; [by rewrite E|auto].
Qed.

(** When every node has a predecessor left, the walk ends on a cycle. *)
Lemma walk_back_cycle remaining fuel visited x :
  (forall y, y ∈ remaining -> preds remaining y <> []) ->
  x ∈ remaining -> NoDup visited -> visited ⊆ remaining ->
  (forall v, v ∈ visited -> tc edge x v) ->
  length remaining < fuel + length visited ->
  tc edge (walk_back fuel remaining visited x) (walk_back fuel remaining visited x).
Proof.
  intros Hp. revert visited x.
  induction fuel as [|fuel IH]; intros visited x Hx Hnd Hsub Htc Hlen; simpl.
  - pose proof (submseteq_length _ _ (NoDup_submseteq _ _ Hnd Hsub)). lia.
  - case_decide as Hv; [by apply Htc|]. destruct (preds remaining x) as [|y l] eqn:E; [by destruct (Hp x Hx)|].
    assert ((y, x) ∈ edges /\ y ∈ remaining) as [He Hy].
    { apply preds_spec. rewrite E. apply list_elem_of_here. }
    apply IH; [done|by constructor| | |simpl; lia].
    + intros v [->|Hv']%elem_of_cons; [done|by apply Hsub].
    + intros v [->|Hv']%elem_of_cons; [by apply tc_once|]. eapply tc_l; [exact He|auto].
Qed.

Lemma filter_ne_perm (x : nat) (l : list nat) : NoDup l -> x ∈ l -> x :: filter (.≠ x) l ≡ₚ l.
Proof.
  intros Hnd Hx. apply NoDup_Permutation; [constructor|done|].
  - rewrite list_elem_of_filter. naive_solver.
  - by apply NoDup_filter.
  - intros y. rewrite elem_of_cons, list_elem_of_filter. destruct (decide (y = x)); naive_solver.
Qed.

Lemma kahn_spec fuel remaining :
  NoDup remaining -> length remaining <= fuel ->
  match kahn fuel remaining with
  | Ok order => order ≡ₚ remaining /\
      forall a b, (a, b) ∈ edges -> a ∈ remaining -> b ∈ remaining ->
        exists i j, order !! i = Some a /\ order !! j = Some b /\ i < j
  | Err n => tc edge n n
  end.
Proof.
  revert remaining. induction fuel as [|fuel IH]; intros [|x l] Hnd Hlen; cbn [kahn length] in *;
    try (split; [done|by intros ? ? _ ?%elem_of_nil]); try lia.
  set (rem := x :: l) in *. destruct (ready rem rem) as [y|] eqn:E.
  - apply ready_Some in E as [Hy Hpy]. pose proof (filter_ne_perm y rem Hnd Hy) as Hperm.
    specialize (IH (filter (.≠ y) rem)). destruct (kahn fuel _) as [order|n]; cbn [result_bind].
    + destruct IH as [Ho Hord].
      { by apply NoDup_filter. }
      { apply Permutation_length in Hperm. subst rem. simpl in *. lia. }
      split; [by rewrite Ho|]. intros a b Hab Ha Hb.
      assert (b <> y) as Hby.
      { intros ->. assert (a ∈ preds rem y) as Hin by by apply preds_spec. rewrite Hpy in Hin. by apply elem_of_nil in Hin. }
      assert (b ∈ filter (.≠ y) rem) as Hb' by by apply list_elem_of_filter.
      destruct (decide (a = y)) as [->|Hay].
      * rewrite <- Ho in Hb'. apply list_elem_of_lookup in Hb' as [j Hj]. exists 0, (S j). split_and!; [done|done|lia].
      * destruct (Hord a b Hab) as (i & j & Hi & Hj & Hij); [by apply list_elem_of_filter|done|].
        exists (S i), (S j). split_and!; [done|done|lia].
    + apply IH; [by apply NoDup_filter|]. apply Permutation_length in Hperm. subst rem. simpl in *. lia.
  - apply walk_back_cycle; [|apply list_elem_of_here|constructor|by intros ? ?%elem_of_nil|by intros ? ?%elem_of_nil|simpl; lia].
    intros y Hy. by apply (ready_None rem rem).
Qed.
End sort.

Definition kahn_sort {W : Type} (nodes : list W) (edges : list (nat * nat)) : result (list nat) nat :=
  kahn edges (length nodes) (seq 0 (length nodes)).

Program Definition kahn_petgraph : Petgraph := {| toposort := fun W => @kahn_sort W |}.
Next Obligation.
  intros W nodes edges order Hrange Hk. pose proof (kahn_spec edges (length nodes) (seq 0 (length nodes))) as Hs.
  unfold kahn_sort in Hk. rewrite Hk in Hs. destruct Hs as [Hp Ho]; [apply NoDup_seq|by rewrite length_seq|].
  split; [done|]. intros a b Hab. destruct (Hrange a b Hab). apply Ho; [done| |]; apply elem_of_seq; lia.
Qed.
Next Obligation.
  intros W nodes edges n Hrange Hk. pose proof (kahn_spec edges (length nodes) (seq 0 (length nodes))) as Hs.
  unfold kahn_sort in Hk. rewrite Hk in Hs. apply Hs; [apply NoDup_seq|by rewrite length_seq].
Qed.
