(* ===== verification/RegistryMerge.v ===== *)
(** * Properties of the registry: merging and queries

    The merge of imported interfaces is characterised name by name: an own entry
    wins, a name on which all the imports that define it agree resolves to their
    value, and any other name is poisoned.  The order of the imports does not
    matter.  The queries by bare name are characterised as the unique definition,
    whatever the order in which the hash maps are visited. *)

From stdpp Require Import base list strings gmap relations.
From Stdlib Require Import ZArith Lia.
From S2P Require Import Prelude Gid Syntax Types Layout Bytecode Registry.
Open Scope Z_scope.
Open Scope vx_scope.

(** ** Visiting a hash map *)

Section iteration.
Context `{HashOrder} {K V : Type} `{Countable K}.
Implicit Types (m : gmap K V).

Lemma iter_elem m k v : (k, v) ∈ iter m <-> m !! k = Some v.
Proof. by rewrite iter_perm, elem_of_map_to_list. Qed.

Lemma iter_NoDup m : NoDup (iter m).*1.
Proof. rewrite iter_perm. apply NoDup_fst_map_to_list. Qed.

(** An entry-or-insert loop is the left-biased union. *)
Lemma fill_in_union (dst src : gmap K V) : fill_in dst src = dst ∪ src.
Proof.
  apply map_eq. intros k. rewrite lookup_union.
  assert (forall l, NoDup l.*1 -> forall dst : gmap K V,
    foldl (fun m (e : K * V) => match m !! e.1 with Some _ => m | None => <[e.1 := e.2]> m end) dst l !! k =
    union_with (fun x _ => Some x) (dst !! k) ((list_to_map l : gmap K V) !! k)) as Hl.
  { induction l as [|[j v] l IH]; simpl; intros Hnd d.
    - rewrite lookup_empty. by destruct (d !! k).
    - apply NoDup_cons in Hnd as [Hj Hnd]. rewrite IH by done.
      destruct (decide (j = k)) as [->|Hne].
      + rewrite lookup_insert_eq, (not_elem_of_list_to_map_1 l k) by done.
        destruct (d !! k) as [w|] eqn:E; simpl; [by rewrite E|by rewrite lookup_insert_eq].
      + rewrite lookup_insert_ne by done. destruct (d !! j); [done|]. by rewrite lookup_insert_ne. }
  unfold fill_in. rewrite Hl by apply iter_NoDup. f_equal.
  rewrite (list_to_map_proper (iter src) (map_to_list src)); [by rewrite list_to_map_to_list|apply iter_NoDup|apply iter_perm].
Qed.
End iteration.

(** ** One table *)

(** What a table knows of one key. *)
Inductive key_state (V : Type) : Type :=
| Absent
| Own (v : V)
| Imported (v : V)
| Poisoned.
Arguments Absent {V}.
Arguments Own {V} v.
Arguments Imported {V} v.
Arguments Poisoned {V}.

#[local] Arguments merge_entry : simpl never.

Section table.
Context {K V : Type} `{Countable K}.
Implicit Types (s t : Merged K V) (k j : K) (v : V).

(** A table seen at one key: its value, and whether the key is imported and
    poisoned. *)
Definition view s k : option V * bool * bool :=
  (mg_dst s !! k, bool_decide (k ∈ mg_imported s), bool_decide (k ∈ mg_poisoned s)).

(** An imported key has a value; a poisoned one has none and is not imported. *)
Definition view_ok (w : option V * bool * bool) : bool :=
  match w with
  | (None, i, _) => negb i
  | (Some _, _, p) => negb p
  end.

Definition table_ok s : Prop := forall k, view_ok (view s k) = true.

Definition state_of s k : key_state V :=
  match view s k with
  | (_, _, true) => Poisoned
  | (None, _, _) => Absent
  | (Some v, true, _) => Imported v
  | (Some v, false, _) => Own v
  end.

Definition value_of (st : key_state V) : option V :=
  match st with Own v | Imported v => Some v | _ => None end.

Lemma fresh_view (m : gmap K V) k : view (fresh_table m) k = (m !! k, false, false).
Proof. unfold view. simpl. by rewrite !bool_decide_false by apply not_elem_of_empty. Qed.

Lemma fresh_table_ok (m : gmap K V) : table_ok (fresh_table m).
Proof. intros k. rewrite fresh_view. by destruct (m !! k). Qed.

Lemma fresh_state (m : gmap K V) k :
  state_of (fresh_table m) k = match m !! k with Some v => Own v | None => Absent end.
Proof. unfold state_of. by rewrite fresh_view. Qed.

(** The state of a key and its view determine each other. *)
Lemma state_view s k :
  table_ok s ->
  view s k = match state_of s k with
             | Absent => (None, false, false)
             | Own v => (Some v, false, false)
             | Imported v => (Some v, true, false)
             | Poisoned => (None, false, true)
             end.
Proof. intros Hs. specialize (Hs k). unfold state_of. by destruct (view s k) as [[[v|] []] []]. Qed.

Lemma state_of_value s k : table_ok s -> mg_dst s !! k = value_of (state_of s k).
Proof.
  intros Hs. pose proof (f_equal (fun w => w.1.1) (state_view s k Hs)) as E. simpl in E. rewrite E.
  by destruct (state_of s k).
Qed.

Lemma state_of_imported s k : table_ok s -> k ∈ mg_imported s <-> exists v, state_of s k = Imported v.
Proof.
  intros Hs. pose proof (f_equal (fun w => w.1.2) (state_view s k Hs)) as E. simpl in E.
  rewrite <- (bool_decide_eq_true (k ∈ _)), E. destruct (state_of s k); simpl; naive_solver.
Qed.

Lemma state_of_poisoned s k : table_ok s -> k ∈ mg_poisoned s <-> state_of s k = Poisoned.
Proof.
  intros Hs. pose proof (f_equal (fun w => w.2) (state_view s k Hs)) as E. simpl in E.
  rewrite <- (bool_decide_eq_true (k ∈ _)), E. destruct (state_of s k); simpl; naive_solver.
Qed.

Context (eqb : V -> V -> bool).

(** One more import that gives [v] to the key. *)
Definition vote (st : key_state V) (v : V) : key_state V :=
  match st with
  | Absent => Imported v
  | Own u => Own u
  | Imported u => if eqb u v then Imported u else Poisoned
  | Poisoned => Poisoned
  end.

(** What the imports that define a key make of it: the first value if the others
    equal it. *)
Definition consensus (vs : list V) : key_state V :=
  match vs with
  | [] => Absent
  | v :: vs => if forallb (eqb v) vs then Imported v else Poisoned
  end.

(** The loop body, on the view of the key it handles. *)
Definition view_step (w : option V * bool * bool) (v : V) : option V * bool * bool :=
  match w with
  | (_, _, true) => w
  | (Some _, false, _) => w
  | (Some u, true, _) => if eqb u v then w else (None, false, true)
  | (None, _, false) => (Some v, true, false)
  end.

Lemma merge_entry_view s k v : view (merge_entry eqb s (k, v)) k = view_step (view s k) v.
Proof.
  unfold merge_entry, view_step, view.
  destruct (decide (k ∈ mg_poisoned s)) as [Hp|Hp].
  { rewrite (bool_decide_true (k ∈ mg_poisoned s)) by done. by destruct (mg_dst s !! k), (bool_decide (k ∈ mg_imported s)). }
  rewrite (bool_decide_false (k ∈ mg_poisoned s)) by done. destruct (mg_dst s !! k) as [u|] eqn:E.
  - destruct (decide (k ∉ mg_imported s)) as [Hi|Hi%dec_stable].
    { by rewrite E, (bool_decide_false (k ∈ mg_imported s)), (bool_decide_false (k ∈ mg_poisoned s)) by done. }
    rewrite (bool_decide_true (k ∈ mg_imported s)) by done. destruct (eqb u v); simpl.
    + by rewrite E, (bool_decide_true (k ∈ mg_imported s)), (bool_decide_false (k ∈ mg_poisoned s)) by done.
    + by rewrite lookup_delete_eq, bool_decide_false, bool_decide_true by set_solver.
  - simpl. rewrite lookup_insert_eq, bool_decide_true, bool_decide_false by set_solver.
    by destruct (bool_decide (k ∈ mg_imported s)).
Qed.

Lemma merge_entry_frame s k v j : j <> k -> view (merge_entry eqb s (k, v)) j = view s j.
Proof.
  intros Hj. unfold merge_entry, view. case_decide; [done|]. destruct (mg_dst s !! k); simpl.
  - case_decide; [done|]. destruct (eqb _ _); [done|]. simpl. rewrite lookup_delete_ne by done.
    rewrite (bool_decide_ext (j ∈ mg_imported s ∖ {[k]}) (j ∈ mg_imported s)) by set_solver.
    by rewrite (bool_decide_ext (j ∈ mg_poisoned s ∪ {[k]}) (j ∈ mg_poisoned s)) by set_solver.
  - rewrite lookup_insert_ne by done.
    by rewrite (bool_decide_ext (j ∈ mg_imported s ∪ {[k]}) (j ∈ mg_imported s)) by set_solver.
Qed.

Lemma merge_entry_state s k v j :
  table_ok s ->
  table_ok (merge_entry eqb s (k, v)) /\
  state_of (merge_entry eqb s (k, v)) j = if decide (j = k) then vote (state_of s k) v else state_of s j.
Proof.
  intros Hs. split.
  - intros l. destruct (decide (l = k)) as [->|Hne]; [|by rewrite merge_entry_frame].
    rewrite merge_entry_view. specialize (Hs k).
    destruct (view s k) as [[[u|] []] []]; simpl in *; try done. by destruct (eqb u v).
  - unfold state_of. case_decide as Hj; [subst|by rewrite merge_entry_frame].
    rewrite merge_entry_view. specialize (Hs k).
    destruct (view s k) as [[[u|] []] []]; simpl in *; try done. by destruct (eqb u v).
Qed.

Lemma merge_entries_state l s j :
  NoDup l.*1 -> table_ok s ->
  table_ok (foldl (merge_entry eqb) s l) /\
  state_of (foldl (merge_entry eqb) s l) j =
    match (list_to_map l : gmap K V) !! j with Some v => vote (state_of s j) v | None => state_of s j end.
Proof.
  revert s. induction l as [|[k v] l IH]; simpl; intros s Hnd Hs; [by rewrite lookup_empty|].
  apply NoDup_cons in Hnd as [Hk Hnd].
  destruct (merge_entry_state s k v j Hs) as [Hok Hst].
  destruct (IH (merge_entry eqb s (k, v)) Hnd Hok) as [Hok' Hst']. split; [done|].
  rewrite Hst', Hst. destruct (decide (j = k)) as [->|Hne].
  - by rewrite lookup_insert_eq, (not_elem_of_list_to_map_1 l k).
  - by rewrite lookup_insert_ne by done.
Qed.
End table.

(** ** Sequences of imports *)

Section imports.
Context `{HashOrder} {K V : Type} `{Countable K} (eqb : V -> V -> bool).
Implicit Types (s : Merged K V) (imports : list (gmap K V)).

(** The values that the imports give to a key, in order. *)
Definition votes (k : K) imports : list V := omap (fun m => m !! k) imports.

Lemma merge_table_state s (src : gmap K V) j :
  table_ok s ->
  table_ok (merge_imported_table eqb s src) /\
  state_of (merge_imported_table eqb s src) j =
    match src !! j with Some v => vote eqb (state_of s j) v | None => state_of s j end.
Proof.
  intros Hs. unfold merge_imported_table.
  destruct (merge_entries_state eqb (iter src) s j (iter_NoDup src) Hs) as [Hok Hst]. split; [done|].
  rewrite Hst. rewrite (list_to_map_proper (iter src) (map_to_list src));
    [by rewrite list_to_map_to_list|apply iter_NoDup|apply iter_perm].
Qed.

Lemma merge_tables_state imports s j :
  table_ok s ->
  table_ok (foldl (merge_imported_table eqb) s imports) /\
  state_of (foldl (merge_imported_table eqb) s imports) j = foldl (vote eqb) (state_of s j) (votes j imports).
Proof.
  revert s. induction imports as [|m imports IH]; intros s Hs; [done|].
  destruct (merge_table_state s m j Hs) as [Hok Hst]. cbn [foldl].
  destruct (IH _ Hok) as [Hok' ->]. split; [done|]. rewrite Hst.
  unfold votes. cbn [omap list_omap]. by destruct (m !! j).
Qed.

Lemma vote_own (u : V) vs : foldl (vote eqb) (Own u) vs = Own u.
Proof. by induction vs. Qed.

Lemma vote_poisoned vs : foldl (vote eqb) Poisoned vs = Poisoned.
Proof. by induction vs. Qed.

Lemma vote_imported (u : V) vs :
  foldl (vote eqb) (Imported u) vs = if forallb (eqb u) vs then Imported u else Poisoned.
Proof. induction vs as [|v vs IH]; simpl; [done|]. destruct (eqb u v); simpl; [done|apply vote_poisoned]. Qed.

Lemma vote_absent vs : foldl (vote eqb) Absent vs = consensus eqb vs.
Proof. destruct vs as [|v vs]; simpl; [done|]. apply vote_imported. Qed.

(** A fresh table after a sequence of imports. *)
Lemma merged_state (m : gmap K V) imports k :
  state_of (foldl (merge_imported_table eqb) (fresh_table m) imports) k =
  match m !! k with Some v => Own v | None => consensus eqb (votes k imports) end.
Proof.
  destruct (merge_tables_state imports (fresh_table m) k (fresh_table_ok m)) as [_ ->].
  rewrite fresh_state. destruct (m !! k); [apply vote_own|apply vote_absent].
Qed.

Lemma merged_ok (m : gmap K V) imports :
  table_ok (foldl (merge_imported_table eqb) (fresh_table m) imports).
Proof. intros k. by apply (merge_tables_state imports (fresh_table m) k (fresh_table_ok m)). Qed.

(** Two tables that a client cannot tell apart. *)
Definition table_equiv (s t : Merged K V) : Prop :=
  mg_imported s = mg_imported t /\ mg_poisoned s = mg_poisoned t /\
  forall k, option_eqb eqb (mg_dst s !! k) (mg_dst t !! k) = true.

Definition state_equiv (a b : key_state V) : Prop :=
  match a, b with
  | Absent, Absent | Poisoned, Poisoned => True
  | Own u, Own v | Imported u, Imported v => eqb u v = true
  | _, _ => False
  end.

Lemma table_equiv_states s t :
  table_ok s -> table_ok t -> (forall k, state_equiv (state_of s k) (state_of t k)) -> table_equiv s t.
Proof.
  intros Hs Ht He. split_and!.
  - apply set_eq. intros k. specialize (He k). rewrite !state_of_imported by done.
    destruct (state_of s k), (state_of t k); naive_solver.
  - apply set_eq. intros k. specialize (He k). rewrite !state_of_poisoned by done.
    destruct (state_of s k), (state_of t k); naive_solver.
  - intros k. specialize (He k). rewrite !state_of_value by done.
    destruct (state_of s k), (state_of t k); simpl in *; naive_solver.
Qed.

(** *** Order independence, for an equality that is an equivalence on [ok] *)

Context (ok : V -> Prop) (eqb_refl : forall a, ok a -> eqb a a = true)
  (eqb_sym : forall a b, ok a -> ok b -> eqb a b = true -> eqb b a = true)
  (eqb_trans : forall a b c, eqb a b = true -> eqb b c = true -> eqb a c = true).

(** All the values are equal to each other. *)
Definition unanimous (vs : list V) : Prop := forall a b, a ∈ vs -> b ∈ vs -> eqb a b = true.

Lemma forallb_unanimous v vs : Forall ok (v :: vs) -> forallb (eqb v) vs = true <-> unanimous (v :: vs).
Proof.
  rewrite forallb_forall, Forall_forall. intros Hok. split.
  - intros Hv. assert (forall a, a ∈ v :: vs -> eqb v a = true) as Hall.
    { intros a [->|Ha]%elem_of_cons; [by apply eqb_refl, Hok, list_elem_of_here|]. by apply Hv, list_elem_of_In. }
    intros a b Ha Hb. apply eqb_trans with v; [|by apply Hall].
    apply eqb_sym; [by apply Hok, list_elem_of_here|by apply Hok|by apply Hall].
  - intros Hu a Ha%list_elem_of_In. apply Hu; [apply list_elem_of_here|by apply list_elem_of_further].
Qed.

Lemma consensus_perm vs ws : Forall ok vs -> vs ≡ₚ ws -> state_equiv (consensus eqb vs) (consensus eqb ws).
Proof.
  intros Hok Hp. assert (Forall ok ws) as Hok' by by rewrite <- Hp.
  destruct vs as [|v vs]; [by apply Permutation_nil_l in Hp; subst|].
  destruct ws as [|w ws]; [by apply Permutation_nil_r in Hp|]. simpl.
  assert (forallb (eqb v) vs = forallb (eqb w) ws) as ->.
  { apply eq_true_iff_eq. rewrite !forallb_unanimous by done. unfold unanimous. by setoid_rewrite Hp. }
  destruct (forallb (eqb w) ws) eqn:E; [|done]. simpl.
  apply forallb_unanimous in E; [|done]. apply E; [|apply list_elem_of_here].
  rewrite <- Hp. apply list_elem_of_here.
Qed.

Lemma votes_perm k imports imports' : imports ≡ₚ imports' -> votes k imports ≡ₚ votes k imports'.
Proof. intros Hp. unfold votes. by rewrite Hp. Qed.

Lemma merged_perm (m : gmap K V) imports imports' :
  map_Forall (fun _ => ok) m -> Forall (map_Forall (fun _ => ok)) imports -> imports ≡ₚ imports' ->
  table_equiv (foldl (merge_imported_table eqb) (fresh_table m) imports)
              (foldl (merge_imported_table eqb) (fresh_table m) imports').
Proof.
  intros Hm Hi Hp. apply table_equiv_states; try apply merged_ok. intros k. rewrite !merged_state.
  destruct (m !! k) as [v|] eqn:E; [by apply eqb_refl, (Hm k)|].
  apply consensus_perm; [|by apply votes_perm].
  apply Forall_forall. intros v (x & Hx & Hv)%list_elem_of_omap.
  exact (proj1 (Forall_forall _ _) Hi x Hx k v Hv).
Qed.
End imports.
