(* ===== verification/RegistryIndex.v ===== *)
(** * Properties of the registry: indices, freeze and merged registries

    The identity and base-name indices answer exactly for names with one
    declaration; the freeze accepts exactly the definitions without collisions,
    dangling dependencies and cycles; and the merge theorems of single tables
    lifted to registries. *)

From stdpp Require Import base list strings gmap relations.
From Stdlib Require Import ZArith Lia.
From S2P Require Import Prelude Gid Syntax Types Layout Bytecode Registry Toposort RegistryMerge.
Open Scope Z_scope.
Open Scope vx_scope.

(** ** Identities *)

(** What the loop of [AggregateIdentities::new] keeps true of the declarations
    seen so far. *)
Definition names_ok (ds : list (Gid.TypeId * Symbol)) (m : gmap Symbol (option Gid.TypeId)) : Prop :=
  (forall n, m !! n = None <-> n ∉ ds.*2) /\
  (forall n id, m !! n = Some (Some id) <-> (id, n) ∈ ds /\ forall id', (id', n) ∈ ds -> id' = id).

Definition declarations_ok (ds : list (Gid.TypeId * Symbol)) (m : gmap Gid.TypeId Symbol) : Prop :=
  (forall id, m !! id = None <-> id ∉ ds.*1) /\
  (forall id n, m !! id = Some n -> (id, n) ∈ ds).

Lemma add_declaration_names ds r id n :
  names_ok ds (ai_names r) -> names_ok (ds ++ [(id, n)]) (ai_names (add_declaration r (id, n))).
Proof.
  intros [HN HS]. simpl. split; intros m; [|intros i]; destruct (decide (n = m)) as [<-|Hne].
  - rewrite lookup_insert_eq, fmap_app. simpl. set_solver.
  - rewrite lookup_insert_ne, HN, fmap_app by done. simpl. set_solver.
  - rewrite lookup_insert_eq. setoid_rewrite elem_of_app. setoid_rewrite list_elem_of_singleton.
    destruct (ai_names r !! n) as [old|] eqn:E.
    + case_decide as Ho.
      * subst old. apply HS in E as [Hin Huniq]. split; [intros [= <-]|intros [_ Hi]].
        -- split; [by left|]. intros id' [?|[= ->]]; auto.
        -- by rewrite (Hi id (or_introl Hin)).
      * split; [done|]. intros [Hi Hall]. destruct Ho.
        assert (i = id) as -> by (symmetry; apply Hall; by right).
        assert (n ∈ ds.*2) as ([x n'] & -> & Hx)%list_elem_of_fmap.
        { apply dec_stable. intros Hno%HN. congruence. }
        simpl in *. assert (ai_names r !! n' = Some (Some id)); [|congruence].
        apply HS. rewrite (Hall x) in Hx by (by left). split; [done|].
        intros id' ?. apply Hall. by left.
    + rewrite HN in E. assert (forall x, (x, n) ∉ ds) as Hno.
      { intros x Hx. apply E. by apply (list_elem_of_fmap_2 snd _ _ Hx). }
      split; [intros [= <-]|intros [Hi Hall]].
      * split; [by right|]. intros id' [?%Hno|[= ->]]; done.
      * f_equal. f_equal. apply Hall. by right.
  - rewrite lookup_insert_ne, HS by done. set_solver.
Qed.

Lemma add_declaration_declarations ds r id n :
  declarations_ok ds (ai_declarations r) ->
  declarations_ok (ds ++ [(id, n)]) (ai_declarations (add_declaration r (id, n))).
Proof.
  intros [HN HS]. simpl. split; intros i; [|intros m]; destruct (decide (id = i)) as [<-|Hne].
  - rewrite lookup_insert_eq, fmap_app. simpl. set_solver.
  - rewrite lookup_insert_ne, HN, fmap_app by done. simpl. set_solver.
  - rewrite lookup_insert_eq. destruct (ai_declarations r !! id) as [old|] eqn:E.
    + apply HS in E. destruct (sym_ltb n old); intros [= <-]; set_solver.
    + intros [= <-]. set_solver.
  - rewrite lookup_insert_ne by done. intros ?%HS. set_solver.
Qed.

Lemma identities_spec ds :
  names_ok ds (ai_names (Identities_new ds)) /\ declarations_ok ds (ai_declarations (Identities_new ds)).
Proof.
  unfold Identities_new. induction ds as [|[id n] ds [IHn IHd]] using rev_ind.
  - split; split; cbn [foldl Identities_default ai_names ai_declarations];
      intros ?; rewrite ?lookup_empty; set_solver.
  - rewrite foldl_snoc. split; [by apply add_declaration_names|by apply add_declaration_declarations].
Qed.

(** A name resolves exactly when one declaration has it. *)
Lemma identities_resolve ds n id :
  mjoin (ai_names (Identities_new ds) !! n) = Some id <-> (id, n) ∈ ds /\ forall id', (id', n) ∈ ds -> id' = id.
Proof.
  destruct (identities_spec ds) as [[_ HS] _]. rewrite <- HS.
  destruct (ai_names (Identities_new ds) !! n) as [[]|]; simpl; naive_solver.
Qed.

Section layouts.
Context `{HashOrder}.
Implicit Types (L : gmap Gid.TypeId TypeDefinition).

Lemma layout_declared L id n :
  (id, n) ∈ map (fun e => (e.1, td_name e.2)) (iter L) <-> exists d, L !! id = Some d /\ td_name d = n.
Proof.
  rewrite list_elem_of_fmap. setoid_rewrite <- iter_elem. split.
  - intros ([i d] & [= -> ->] & Hin). eauto.
  - intros (d & Hin & <-). by exists (id, d).
Qed.

Lemma from_layouts_declarations L id :
  ai_declarations (from_layouts L) !! id = td_name <$> L !! id.
Proof.
  unfold from_layouts. destruct (identities_spec (map (fun e => (e.1, td_name e.2)) (iter L))) as [_ [HN HS]].
  destruct (ai_declarations _ !! id) as [n|] eqn:E.
  - apply HS, layout_declared in E as (d & -> & <-). done.
  - apply HN in E. destruct (L !! id) as [d|] eqn:Ed; [|done]. destruct E.
    apply (list_elem_of_fmap_2 fst _ (id, td_name d)), layout_declared. eauto.
Qed.

(** The one layout with a name. *)
Definition sole_layout L (n : Symbol) (id : Gid.TypeId) : Prop :=
  (exists d, L !! id = Some d /\ td_name d = n) /\
  forall id' d', L !! id' = Some d' -> td_name d' = n -> id' = id.

Lemma from_layouts_resolve L n id :
  resolve (from_layouts L) n None = Some (n, id) <-> sole_layout L n id.
Proof.
  unfold resolve, sole_layout. transitivity (mjoin (ai_names (from_layouts L) !! n) = Some id).
  - destruct (mjoin _) as [i|] eqn:E; simpl; [|done].
    apply identities_resolve in E as [(d & Hd & <-)%layout_declared _].
    rewrite from_layouts_declarations, Hd. simpl. naive_solver.
  - unfold from_layouts. rewrite identities_resolve, layout_declared. setoid_rewrite layout_declared. naive_solver.
Qed.

Lemma from_layouts_resolve_name L n m id : resolve (from_layouts L) n None = Some (m, id) -> m = n.
Proof.
  unfold resolve. destruct (mjoin _) as [i|] eqn:E; simpl; [|done].
  apply identities_resolve in E as [(d & Hd & <-)%layout_declared _].
  rewrite from_layouts_declarations, Hd. simpl. by intros [= <- _].
Qed.

(** ** The base-name index *)

(** What the index says of a name that some layout has. *)
Definition complete_entry L (n : Symbol) (e : option Gid.TypeId) : Prop :=
  forall id, e = Some id <-> sole_layout L n id /\ exists d, L !! id = Some d /\ td_align_bytes d <> 0.

Lemma index_entry_spec L def :
  exists e, index_entry (from_layouts L) L def = Returns (td_name def, e) /\ complete_entry L (td_name def) e.
Proof.
  unfold index_entry, resolve_base.
  destruct (resolve (from_layouts L) (td_name def) None) as [[m id]|] eqn:E.
  - assert (m = td_name def) as -> by by apply from_layouts_resolve_name in E.
    apply from_layouts_resolve in E. pose proof E as [(d & Hd & Hn) Hu]. rewrite Hd.
    eexists. split; [done|]. intros i. destruct (Z.eqb_spec (td_align_bytes d) 0) as [Hz|Hz]; split.
    + done.
    + intros [[(d' & Hd' & Hn') _] (d'' & Hi & Hnz)]. rewrite (Hu i d' Hd' Hn'), Hd in Hi. by simplify_eq.
    + intros [= <-]. split; [done|]. eauto.
    + intros [[(d' & Hd' & Hn') _] _]. f_equal. symmetry. by apply (Hu i d').
  - exists None. split; [done|]. intros id. split; [done|]. intros [Hs _]. apply from_layouts_resolve in Hs. congruence.
Qed.

Lemma index_entries_spec L defs acc :
  exists m, index_entries (from_layouts L) L defs acc = Returns m /\
    forall n, (n ∈ td_name <$> defs -> exists e, m !! n = Some e /\ complete_entry L n e) /\
              (n ∉ td_name <$> defs -> m !! n = acc !! n).
Proof.
  revert acc. induction defs as [|def defs IH]; intros acc.
  { exists acc. split; [done|]. intros n. simpl. set_solver. }
  destruct (index_entry_spec L def) as (e & He & Hc). cbn [index_entries]. rewrite He. cbn [outcome_bind fst snd].
  destruct (IH (<[td_name def := e]> acc)) as (m & Hm & Hn). exists m. split; [done|].
  intros n. destruct (Hn n) as [Hn1 Hn2]. cbn [fmap list_fmap]. split.
  - intros Hx. destruct (decide (n ∈ td_name <$> defs)) as [Hin|Hout]; [by apply Hn1|].
    destruct (decide (n = td_name def)) as [->|Hne].
    + rewrite Hn2, lookup_insert_eq by done. eauto.
    + apply elem_of_cons in Hx as [?|?]; done.
  - intros [Hne Hout]%not_elem_of_cons. by rewrite Hn2, lookup_insert_ne by done.
Qed.

(** The index is built without a panic, and it knows exactly the names that one
    layout has, when that layout is complete. *)
Lemma layout_index_spec L :
  exists ix, LayoutNameIndex_build L = Returns ix /\ lni_built_from ix = size L /\
    forall n, complete_entry L n (mjoin (lni_by_base_name ix !! n)).
Proof.
  unfold LayoutNameIndex_build. destruct (index_entries_spec L (map snd (iter L)) ∅) as (m & -> & Hm).
  cbn [outcome_bind]. eexists. split; [done|]. split; [done|]. intros n. simpl. destruct (Hm n) as [Hm1 Hm2].
  destruct (decide (n ∈ td_name <$> map snd (iter L))) as [Hin|Hout].
  - destruct (Hm1 Hin) as (e & -> & He). by destruct e.
  - rewrite (Hm2 Hout), lookup_empty. intros id. split; [done|]. intros [[(d & Hd & <-) _] _]. destruct Hout.
    apply list_elem_of_fmap. exists d. split; [done|]. apply list_elem_of_fmap. exists (id, d).
    split; [done|]. by apply iter_elem.
Qed.
End layouts.

(** ** The freeze *)

(** The by-value dependencies between types. *)
Definition depends (L : gmap Gid.TypeId TypeDefinition) (a b : Gid.TypeId) : Prop :=
  exists d, L !! a = Some d /\ b ∈ td_by_value_dependencies d.

Lemma tc_depends_defined L a b : tc (depends L) a b -> exists d, L !! a = Some d.
Proof. by intros [? ? (d & ? & _)|? ? ? (d & ? & _) _]; exists d. Qed.

(** What the first loop keeps true of the definitions seen so far. *)
Record freeze_ok (ds : list TypeDefinition) (s : Freeze) : Prop := {
  fk_layouts : forall id d, fz_layouts s !! id = Some d -> d ∈ ds /\ td_id d = id;
  fk_named : forall d, d ∈ ds -> exists d', fz_layouts s !! td_id d = Some d' /\ td_name d' = td_name d;
  fk_nodes : forall id, is_Some (fz_layouts s !! id) -> exists n, fz_node_map s !! id = Some n;
  fk_weights : forall id n, fz_node_map s !! id = Some n ->
    fz_nodes s !! n = Some id /\ is_Some (fz_layouts s !! id);
  fk_modules : forall h by_name n id, fz_modules s !! h = Some by_name -> by_name !! n = Some id ->
    exists d, d ∈ ds /\ td_id d = id /\ td_name d = n /\ Gid.module_id id = h;
}.

(** What the first loop adds for a definition that collides with none. *)
Definition registered (s : Freeze) (d : TypeDefinition) : Freeze :=
  mkFreeze (<[td_id d := d]> (fz_layouts s))
    (<[Gid.module_id (td_id d) := <[td_name d := td_id d]>
        (default ∅ (fz_modules s !! Gid.module_id (td_id d)))]> (fz_modules s))
    (fz_nodes s ++ [td_id d]) (<[td_id d := length (fz_nodes s)]> (fz_node_map s)).

Lemma register_cases s d :
  (register s d = Ok (registered s d) /\
   forall d', fz_layouts s !! td_id d = Some d' -> td_name d' = td_name d) \/
  (exists d', fz_layouts s !! td_id d = Some d' /\ td_name d' <> td_name d /\
     register s d = Err (GidCollision (td_name d') (td_name d) (td_id d))).
Proof.
  unfold register. destruct (fz_layouts s !! td_id d) as [d'|] eqn:E.
  - case_decide; [left; split; [done|]; naive_solver|right; eauto].
  - left. split; [done|]. naive_solver.
Qed.

Lemma registered_ok ds s d :
  freeze_ok ds s -> (forall d', fz_layouts s !! td_id d = Some d' -> td_name d' = td_name d) ->
  freeze_ok (ds ++ [d]) (registered s d).
Proof.
  intros [HL HN HD HW HM] Hname. split; simpl.
  - intros id d'. rewrite lookup_insert_Some. intros [[<- <-]|[_ [??]%HL]]; set_solver.
  - intros d' [Hd'|Hd'%list_elem_of_singleton]%elem_of_app; [|subst; rewrite lookup_insert_eq; eauto].
    destruct (decide (td_id d = td_id d')) as [He|]; [|rewrite lookup_insert_ne by done; auto].
    rewrite <- He, lookup_insert_eq. destruct (HN d' Hd') as (d'' & H1 & H2). rewrite <- He in H1.
    exists d. split; [done|]. by rewrite <- H2, (Hname d'' H1).
  - intros id Hid. destruct (decide (td_id d = id)) as [<-|Hne]; [rewrite lookup_insert_eq; eauto|].
    rewrite lookup_insert_ne in Hid by done. rewrite lookup_insert_ne by done. by apply HD.
  - intros id n. rewrite lookup_insert_Some. intros [[<- <-]|[Hne [Hn HL']%HW]].
    + rewrite lookup_app_r, Nat.sub_diag, lookup_insert_eq by lia. done.
    + rewrite lookup_app_l by by eapply lookup_lt_Some. by rewrite lookup_insert_ne.
  - intros h by_name n id. rewrite lookup_insert_Some. intros [[<- <-]|[_ Hb]].
    + rewrite lookup_insert_Some. intros [[<- <-]|[_ Hn]]; [exists d; set_solver|].
      destruct (fz_modules s !! _) as [b|] eqn:E; simpl in Hn; [|by rewrite lookup_empty in Hn].
      destruct (HM _ _ _ _ E Hn) as (d' & ? & ?). exists d'. set_solver.
    + intros Hn. destruct (HM _ _ _ _ Hb Hn) as (d' & ? & ?). exists d'. set_solver.
Qed.

Lemma register_all_spec ds s defs :
  freeze_ok ds s ->
  match register_all s defs with
  | Ok s' => freeze_ok (ds ++ defs) s'
  | Err (GidCollision a b id) => exists d d', d ∈ ds ++ defs /\ d' ∈ ds ++ defs /\
      td_id d = id /\ td_id d' = id /\ td_name d = a /\ td_name d' = b /\ a <> b
  | Err _ => False
  end.
Proof.
  revert ds s. induction defs as [|d defs IH]; intros ds s Hs; cbn [register_all]; [by rewrite app_nil_r|].
  destruct (register_cases s d) as [[-> Hname]|(d' & Hd' & Hne & ->)]; cbn [result_bind].
  - replace (ds ++ d :: defs) with ((ds ++ [d]) ++ defs) by by rewrite <- app_assoc.
    by apply IH, registered_ok.
  - destruct (fk_layouts _ _ Hs _ _ Hd') as [Hin Hid]. exists d', d. set_solver.
Qed.

(** The second loop. *)
Lemma dep_edges_spec nm src deps es :
  match dep_edges nm src deps es with
  | Ok es' => (forall dep, dep ∈ deps -> is_Some (nm !! dep)) /\
      forall x, x ∈ es' <-> x ∈ es \/ exists dep t, dep ∈ deps /\ nm !! dep = Some t /\ x = (src, t)
  | Err (UnresolvedDependency dep) => dep ∈ deps /\ nm !! dep = None
  | Err _ => False
  end.
Proof.
  revert es. induction deps as [|dep deps IH]; intros es; cbn [dep_edges]; [set_solver|].
  destruct (nm !! dep) as [t|] eqn:E; [|split; [apply list_elem_of_here|done]].
  specialize (IH (es ++ [(src, t)])). destruct (dep_edges _ _ _ _) as [es'|[]]; try done.
  - destruct IH as [H1 H2]. split; [intros d [->|?]%elem_of_cons; eauto|]. intros x. rewrite H2. set_solver.
  - destruct IH. split; [by apply list_elem_of_further|done].
Qed.

Lemma all_edges_spec nm defs es :
  Forall (fun d => is_Some (nm !! td_id d)) defs ->
  match all_edges nm defs es with
  | Returns (Ok es') =>
      (forall d dep, d ∈ defs -> dep ∈ td_by_value_dependencies d -> is_Some (nm !! dep)) /\
      forall x, x ∈ es' <-> x ∈ es \/ exists d dep a b, d ∈ defs /\ dep ∈ td_by_value_dependencies d /\
        nm !! td_id d = Some a /\ nm !! dep = Some b /\ x = (a, b)
  | Returns (Err (UnresolvedDependency dep)) =>
      exists d, d ∈ defs /\ dep ∈ td_by_value_dependencies d /\ nm !! dep = None
  | _ => False
  end.
Proof.
  intros Hd. revert es. induction Hd as [|d defs [a Ha] Hd IH]; intros es; cbn [all_edges]; [set_solver|].
  rewrite Ha. pose proof (dep_edges_spec nm a (td_by_value_dependencies d) es) as HE.
  destruct (dep_edges _ _ _ _) as [es'|[]]; try done; [|by exists d; set_solver].
  destruct HE as [HE1 HE2]. specialize (IH es'). destruct (all_edges _ _ _) as [[es''|[]]|]; try done.
  - destruct IH as [H1 H2]. split; [intros d' dep [->|?]%elem_of_cons; eauto|].
    intros [x y]. rewrite H2, HE2. split.
    + intros [[?|(dep & t & ? & ? & [= -> ->])]|(d' & dep & a' & b & ? & ? & ? & ? & [= -> ->])];
        [by left|right; exists d, dep, a, t|right; exists d', dep, a', b]; set_solver.
    + intros [?|(d' & dep & a' & b & [->|?]%elem_of_cons & ? & ? & ? & [= -> ->])]; [by do 2 left| |right; naive_solver].
      left; right. simplify_eq. eauto.
  - destruct IH as (d' & ? & ?). exists d'. set_solver.
Qed.

(** The edges of the graph are the dependencies, seen through the node map. *)
Section graph.
Context (L : gmap Gid.TypeId TypeDefinition) (nm : gmap Gid.TypeId nat) (nodes : list Gid.TypeId)
  (edges : list (nat * nat)).
Context (Hweights : forall id n, nm !! id = Some n -> nodes !! n = Some id)
  (Hedges : forall x y, (x, y) ∈ edges <-> exists a b, depends L a b /\ nm !! a = Some x /\ nm !! b = Some y)
  (Hmapped : forall a b, depends L a b -> is_Some (nm !! a) /\ is_Some (nm !! b)).

Lemma depends_edges a b : tc (depends L) a b ->
  exists x y, nm !! a = Some x /\ nm !! b = Some y /\ tc (fun x y => (x, y) ∈ edges) x y.
Proof.
  induction 1 as [a b Hab|a b c Hab Hbc (y & z & Hy & Hz & Hyz)].
  - destruct (Hmapped a b Hab) as [[x Hx] [y Hy]]. exists x, y. split_and!; try done.
    apply tc_once, Hedges. eauto.
  - destruct (Hmapped a b Hab) as [[x Hx] [y' Hy']]. simplify_eq. exists x, z. split_and!; try done.
    eapply tc_l; [|done]. apply Hedges. eauto.
Qed.

Lemma edges_depends x y : tc (fun x y => (x, y) ∈ edges) x y ->
  exists a b, nm !! a = Some x /\ nm !! b = Some y /\ tc (depends L) a b.
Proof.
  induction 1 as [x y (a & b & Hab & Ha & Hb)%Hedges|x y z (a & b & Hab & Ha & Hb)%Hedges Hyz (b' & c & Hb' & Hc & Hbc)].
  - exists a, b. split_and!; try done. by apply tc_once.
  - assert (b' = b) as -> by (apply Hweights in Hb, Hb'; congruence).
    exists a, c. split_and!; try done. by eapply tc_l.
Qed.

Lemma edge_cycle x : tc (fun x y => (x, y) ∈ edges) x x ->
  exists id, nodes !! x = Some id /\ tc (depends L) id id.
Proof.
  intros (a & b & Ha & Hb & Hab)%edges_depends. exists a. split; [auto|].
  assert (b = a) as -> by (apply Hweights in Ha, Hb; congruence). done.
Qed.

(** A topological order rules cycles out. *)
Lemma ordered_acyclic order :
  NoDup order ->
  (forall a b, (a, b) ∈ edges -> exists i j, order !! i = Some a /\ order !! j = Some b /\ (i < j)%nat) ->
  forall id, ~ tc (depends L) id id.
Proof.
  intros Hnd Hord id (x & y & Hx & Hy & Hxy)%depends_edges. simplify_eq.
  assert (forall a b, tc (fun x y => (x, y) ∈ edges) a b ->
    exists i j, order !! i = Some a /\ order !! j = Some b /\ (i < j)%nat) as Hlt.
  { induction 1 as [a b Hab|a b c Hab Hbc (i & j & Hi & Hj & Hij)]; [by apply Hord|].
    destruct (Hord a b Hab) as (h & i' & Hh & Hi' & Hhi).
    assert (i' = i) as -> by by eapply NoDup_lookup. exists h, j. split_and!; [done|done|lia]. }
  destruct (Hlt _ _ Hxy) as (i & j & Hi & Hj & Hij).
  assert (i = j) by by eapply NoDup_lookup. lia.
Qed.
End graph.

(** The indices of a registry are the ones of its layouts. *)
Definition indexed `{HashOrder} (reg : ImmutableGlobalRegistry) : Prop :=
  LayoutNameIndex_build (rg_layouts reg) = Returns (rg_layout_by_base_name reg) /\
  rg_aggregate_identities reg = from_layouts (rg_layouts reg).

(** What a frozen registry promises for the definitions it was built from. *)
Definition freezes `{HashOrder} (defs : list TypeDefinition) (reg : ImmutableGlobalRegistry) : Prop :=
  (forall id d, rg_layouts reg !! id = Some d -> d ∈ defs /\ td_id d = id) /\
  (forall d, d ∈ defs -> exists d', rg_layouts reg !! td_id d = Some d' /\ td_name d' = td_name d) /\
  (forall a b, depends (rg_layouts reg) a b -> is_Some (rg_layouts reg !! b)) /\
  (forall id, ~ tc (depends (rg_layouts reg)) id id) /\
  (forall h n id, resolve_in_module reg h n = Some id ->
     exists d, d ∈ defs /\ td_id d = id /\ td_name d = n /\ Gid.module_id id = h) /\
  indexed reg.

(** Why a list of definitions is refused: a collision, a dependency on a type
    that is not defined, or a type that contains itself. *)
Definition refused (defs : list TypeDefinition) (L : gmap Gid.TypeId TypeDefinition) (e : RegistryError) : Prop :=
  match e with
  | GidCollision a b id => exists d d', d ∈ defs /\ d' ∈ defs /\ td_id d = id /\ td_id d' = id /\
      td_name d = a /\ td_name d' = b /\ a <> b
  | UnresolvedDependency dep => exists d, d ∈ defs /\ dep ∈ td_by_value_dependencies d /\
      forall d', d' ∈ defs -> td_id d' <> dep
  | InfiniteLayout n => exists id d, L !! id = Some d /\ td_name d = n /\ tc (depends L) id id
  | InfiniteLayoutUnnamed => False
  end.

(** The definitions that a table keeps: the last one for each identity. *)
Definition last_definitions (defs : list TypeDefinition) : gmap Gid.TypeId TypeDefinition :=
  foldl (fun L d => <[td_id d := d]> L) ∅ defs.

Lemma register_all_layouts s defs s' :
  register_all s defs = Ok s' -> fz_layouts s' = foldl (fun L d => <[td_id d := d]> L) (fz_layouts s) defs.
Proof.
  revert s. induction defs as [|d defs IH]; intros s; cbn [register_all foldl]; [by intros [= ->]|].
  destruct (register_cases s d) as [[-> _]|(d' & _ & _ & ->)]; cbn [result_bind]; [|done].
  intros ->%IH. done.
Qed.

Section freeze.
Context `{HashOrder, Petgraph}.

Lemma freeze_graph defs s edges :
  freeze_ok defs s ->
  all_edges (fz_node_map s) (map snd (iter (fz_layouts s))) [] = Returns (Ok edges) ->
  (forall a b, depends (fz_layouts s) a b -> is_Some (fz_node_map s !! a) /\ is_Some (fz_node_map s !! b)) /\
  (forall x y, (x, y) ∈ edges <-> exists a b, depends (fz_layouts s) a b /\
     fz_node_map s !! a = Some x /\ fz_node_map s !! b = Some y).
Proof.
  intros Hs HE. assert (forall d, d ∈ map snd (iter (fz_layouts s)) <-> fz_layouts s !! td_id d = Some d) as Hin.
  { intros d. rewrite list_elem_of_fmap. split.
    - intros ([id d'] & -> & Hd%iter_elem). simpl. by destruct (fk_layouts _ _ Hs _ _ Hd) as [_ ->].
    - intros Hd. exists (td_id d, d). split; [done|]. by apply iter_elem. }
  pose proof (all_edges_spec (fz_node_map s) (map snd (iter (fz_layouts s))) []) as Hspec. rewrite HE in Hspec.
  destruct Hspec as [Hres Hedges].
  { apply Forall_forall. intros d Hd%Hin. destruct (fk_nodes _ _ Hs (td_id d)) as [n Hn]; eauto. }
  split.
  - intros a b (d & Hd & Hb). pose proof (fk_layouts _ _ Hs _ _ Hd) as [_ Hid]. subst a.
    split; [destruct (fk_nodes _ _ Hs (td_id d)); eauto|]. apply (Hres d b); [by apply Hin|done].
  - intros x y. rewrite Hedges. split.
    + intros [[]%elem_of_nil|(d & dep & a & b & Hd%Hin & Hdep & Ha & Hb & [= -> ->])].
      exists (td_id d), dep. split_and!; try done. by exists d.
    + intros (a & b & (d & Hd & Hb) & Hx & Hy). right. pose proof (fk_layouts _ _ Hs _ _ Hd) as [_ Hid].
      subst a. exists d, b, x, y. split_and!; try done. by apply Hin.
Qed.

Lemma freeze_range defs s (edges : list (nat * nat)) :
  freeze_ok defs s ->
  (forall x y, (x, y) ∈ edges <-> exists a b, depends (fz_layouts s) a b /\
     fz_node_map s !! a = Some x /\ fz_node_map s !! b = Some y) ->
  forall x y, (x, y) ∈ edges -> (x < length (fz_nodes s))%nat /\ (y < length (fz_nodes s))%nat.
Proof.
  intros Hs He x y (a & b & _ & Ha & Hb)%He.
  split; eapply lookup_lt_Some; by apply (fk_weights _ _ Hs).
Qed.

Lemma freeze_accepts defs s edges order :
  freeze_ok defs s ->
  all_edges (fz_node_map s) (map snd (iter (fz_layouts s))) [] = Returns (Ok edges) ->
  toposort (fz_nodes s) edges = Ok order ->
  forall ix, LayoutNameIndex_build (fz_layouts s) = Returns ix ->
  freezes defs (frozen (from_layouts (fz_layouts s)) ix (fz_layouts s) (fz_modules s)).
Proof.
  intros Hs HE HT ix Hix. destruct (freeze_graph _ _ _ Hs HE) as [Hmap Hedges].
  destruct (toposort_Ok _ _ _ (freeze_range _ _ _ Hs Hedges) HT) as [Hperm Hord]. unfold freezes. cbn [rg_layouts frozen].
  split_and!; [apply (fk_layouts _ _ Hs)|apply (fk_named _ _ Hs)| | | |by split].
  - intros a b Hab. destruct (Hmap a b Hab) as [_ [n Hn]]. by apply (fk_weights _ _ Hs) in Hn as [_ ?].
  - apply (ordered_acyclic _ _ edges Hedges Hmap order); [|done].
    rewrite Hperm. apply NoDup_seq.
  - intros h n id. unfold resolve_in_module. cbn [rg_module_indices frozen].
    destruct (fz_modules s !! h) as [b|] eqn:E; simpl; [|done]. by apply (fk_modules _ _ Hs).
Qed.

(** C25. Freezing a list of definitions never panics, and it succeeds exactly
    when the definitions make sense: a registry it returns has every definition
    under its own identity, every by-value dependency resolved, no type that
    contains itself at any depth, module indices that name real definitions and
    indices built from its layouts; and a refusal names two definitions that
    share an identity, a dependency no definition provides, or a type on a cycle
    of by-value dependencies. *)
Theorem freeze_correct (defs : list TypeDefinition) :
  wp False (build_and_validate defs) (fun r =>
    match r with
    | Ok reg => freezes defs reg /\ rg_layouts reg = last_definitions defs
    | Err e => refused defs (last_definitions defs) e
    end).
Proof.
  unfold build_and_validate.
  assert (freeze_ok [] (mkFreeze ∅ ∅ [] ∅)) as Hinit
    by (split; simpl; intros *; rewrite ?lookup_empty; try done; try (by intros [??]); by intros ?%elem_of_nil).
  pose proof (register_all_spec [] (mkFreeze ∅ ∅ [] ∅) defs Hinit) as HR.
  destruct (register_all _ defs) as [s|[]] eqn:ER; try done. clear Hinit. rename HR into Hs. simpl in Hs.
  apply register_all_layouts in ER. cbn [fz_layouts] in ER. fold (last_definitions defs) in ER.
  pose proof (all_edges_spec (fz_node_map s) (map snd (iter (fz_layouts s))) []) as HE.
  assert (forall d, d ∈ map snd (iter (fz_layouts s)) -> d ∈ defs /\ is_Some (fz_node_map s !! td_id d)) as Hd.
  { intros d ([id d'] & -> & Hd%iter_elem)%list_elem_of_fmap. simpl.
    destruct (fk_layouts _ _ Hs _ _ Hd) as [? ?]. split; [done|]. subst id.
    destruct (fk_nodes _ _ Hs (td_id d')); eauto. }
  destruct (all_edges _ _ _) as [[edges|[]]|] eqn:EE; try (exfalso; apply HE, Forall_forall; intros; by apply Hd).
  - cbn [outcome_bind]. destruct (freeze_graph _ _ _ Hs EE) as [Hmap Hedges].
    destruct (toposort (fz_nodes s) edges) as [order|n] eqn:ET.
    + destruct (layout_index_spec (fz_layouts s)) as (ix & Hix & _). rewrite Hix. cbn [outcome_bind wp].
      split; [by apply (freeze_accepts defs s edges order)|done].
    + apply toposort_Err in ET; [|by apply (freeze_range defs)].
      destruct (edge_cycle _ _ (fz_nodes s) edges (fun id n H => proj1 (fk_weights _ _ Hs id n H)) Hedges n ET)
        as (id & Hn & Hcyc).
      rewrite (vec_get_Some _ _ _ Hn). cbn [outcome_bind wp]. rewrite <- ER.
      destruct (tc_depends_defined _ _ _ Hcyc) as [d Hid]. rewrite Hid. simpl. eauto.
  - cbn [outcome_bind wp]. destruct HE as (d & Hin & Hdep & Hno); [apply Forall_forall; intros; by apply Hd|].
    exists d. split_and!; [by apply Hd|done|]. intros d' Hd' <-.
    destruct (fk_named _ _ Hs d' Hd') as (d'' & Hd'' & _).
    destruct (fk_nodes _ _ Hs (td_id d')) as [n Hn]; [eauto|]. congruence.
Qed.
End freeze.

(** ** Merged registries *)

(** *** The equality of signatures *)

Definition sig_ok (s : FnSig) : Prop := Forall maps_distinct (fs_params s) /\ maps_distinct (fs_ret_ty s).

Lemma FnSig_eqb_refl s : sig_ok s -> FnSig_eqb s s = true.
Proof.
  intros [Hp Hr]. unfold FnSig_eqb. rewrite !bool_decide_true, Ty_eqb_refl by done. rewrite !andb_true_r. simpl.
  apply list_eqb_Forall2, Forall_Forall2_diag. rewrite Forall_forall in *. auto using Ty_eqb_refl.
Qed.

Lemma FnSig_eqb_sym a b : sig_ok a -> sig_ok b -> FnSig_eqb a b = true -> FnSig_eqb b a = true.
Proof.
  intros [Hpa Hra] [Hpb Hrb]. unfold FnSig_eqb. rewrite !andb_true_iff, !bool_decide_eq_true.
  intros [[[[[-> H1] H2] ->] ->] ->]. split_and!; auto using Ty_eqb_sym.
  apply (list_eqb_sym_when _ maps_distinct); [|done..]. apply Forall_forall. eauto using Ty_eqb_sym.
Qed.

Lemma FnSig_eqb_trans a b c : FnSig_eqb a b = true -> FnSig_eqb b c = true -> FnSig_eqb a c = true.
Proof.
  unfold FnSig_eqb. rewrite !andb_true_iff, !bool_decide_eq_true.
  intros [[[[[-> H1] H2] ->] ->] ->] [[[[[-> H3] H4] ->] ->] ->]. split_and!; eauto using Ty_eqb_trans.
  eapply list_eqb_trans; [|done..]. apply Forall_forall. eauto using Ty_eqb_trans.
Qed.

(** *** The content-addressed tables *)

Section gid_tables.
Context `{HashOrder} {K V : Type} `{Countable K}.

Lemma votes_map {A} (f : A -> gmap K V) (k : K) (l : list A) : votes k (map f l) = omap (fun r => f r !! k) l.
Proof. unfold votes. induction l as [|r l IH]; [done|]. cbn. destruct (f r !! k); [f_equal|]; apply IH. Qed.

Lemma fill_all_lookup (m : gmap K V) (ms : list (gmap K V)) k :
  foldl fill_in m ms !! k = match m !! k with Some v => Some v | None => head (votes k ms) end.
Proof.
  revert m. induction ms as [|m' ms IH]; intros m; simpl; [by destruct (m !! k)|].
  rewrite IH, fill_in_union, lookup_union. unfold votes. simpl. by destruct (m !! k), (m' !! k).
Qed.

(** Two tables give no key different values. *)
Definition agreeing (ms : list (gmap K V)) : Prop :=
  forall a b k v w, a ∈ ms -> b ∈ ms -> a !! k = Some v -> b !! k = Some w -> v = w.

Lemma head_votes_perm (ms ms' : list (gmap K V)) k :
  agreeing ms -> ms ≡ₚ ms' -> head (votes k ms) = head (votes k ms').
Proof.
  intros Ha Hp. pose proof (votes_perm k _ _ Hp) as Hv.
  assert (forall v w, v ∈ votes k ms -> w ∈ votes k ms -> v = w) as Heq.
  { intros v w (a & Ha1 & Ha2)%list_elem_of_omap (b & Hb1 & Hb2)%list_elem_of_omap.
    exact (Ha a b k v w Ha1 Hb1 Ha2 Hb2). }
  destruct (votes k ms) as [|v l] eqn:E1, (votes k ms') as [|w l'] eqn:E2; try done.
  - by apply Permutation_nil_l in Hv.
  - by apply Permutation_nil_r in Hv.
  - simpl. f_equal. apply Heq; [apply list_elem_of_here|]. rewrite Hv. apply list_elem_of_here.
Qed.

Lemma fill_all_perm (m : gmap K V) ms ms' : agreeing ms -> ms ≡ₚ ms' -> foldl fill_in m ms = foldl fill_in m ms'.
Proof.
  intros Ha Hp. apply map_eq. intros k. rewrite !fill_all_lookup. by rewrite (head_votes_perm ms ms' k).
Qed.
End gid_tables.

(** A name in a module. *)
Definition in_module (m : gmap Z (gmap Symbol Gid.TypeId)) (e : Z * Symbol) : option Gid.TypeId :=
  by_name ← m !! e.1; by_name !! e.2.

Lemma fill_modules_lookup `{HashOrder} (dst src : gmap Z (gmap Symbol Gid.TypeId)) e :
  in_module (fill_modules dst src) e =
  match in_module dst e with Some g => Some g | None => in_module src e end.
Proof.
  destruct e as [h n]. unfold in_module. simpl.
  assert (forall l : list (Z * gmap Symbol Gid.TypeId), NoDup l.*1 -> forall dst : gmap Z (gmap Symbol Gid.TypeId),
    foldl (fun m (e : Z * gmap Symbol Gid.TypeId) => <[e.1 := fill_in (default ∅ (m !! e.1)) e.2]> m) dst l !! h =
    match (list_to_map l : gmap Z (gmap Symbol Gid.TypeId)) !! h with
    | Some b => Some (default ∅ (dst !! h) ∪ b) | None => dst !! h end) as Hl.
  { induction l as [|[j b] l IH]; intros Hnd d; [by simpl; rewrite lookup_empty|].
    apply NoDup_cons in Hnd as [Hj Hnd]. cbn [foldl fst snd]. rewrite IH by done. simpl.
    destruct (decide (j = h)) as [->|Hne].
    - rewrite lookup_insert_eq, (not_elem_of_list_to_map_1 l h), lookup_insert_eq by done. by rewrite fill_in_union.
    - by rewrite !lookup_insert_ne by done. }
  unfold fill_modules. rewrite Hl by apply iter_NoDup.
  rewrite (list_to_map_proper (iter src) (map_to_list src)), list_to_map_to_list; [|apply iter_NoDup|apply iter_perm].
  destruct (src !! h) as [b|]; simpl; [|by destruct (dst !! h ≫= _)].
  rewrite lookup_union. destruct (dst !! h) as [d|]; simpl; [|by rewrite lookup_empty; destruct (b !! n)].
  by destruct (d !! n), (b !! n).
Qed.

Lemma fill_modules_all `{HashOrder} (m : gmap Z (gmap Symbol Gid.TypeId)) ms e :
  in_module (foldl fill_modules m ms) e =
  match in_module m e with Some g => Some g | None => head (omap (fun m => in_module m e) ms) end.
Proof.
  revert m. induction ms as [|m' ms IH]; intros m; simpl; [by destruct (in_module m e)|].
  rewrite IH, fill_modules_lookup. destruct (in_module m e), (in_module m' e) eqn:E; by rewrite ?E.
Qed.

(** *** Sequences of merges *)

Section merges.
Context `{HashOrder}.
Implicit Types (self reg : ImmutableGlobalRegistry) (imports : list ImmutableGlobalRegistry).

Abbreviation sigs := (fun r => mg_dst (rg_fn_sigs r)).
Abbreviation meths := (fun r => mg_dst (rg_methods r)).
Abbreviation enums := (fun r => mg_dst (rg_enum_variants r)).
Abbreviation same := (fun a b : list Symbol => bool_decide (a = b)).

(** A sequence of merges never panics; each table is merged on its own, and the
    indices follow the layouts. *)
Lemma merge_all_tables imports self :
  exists reg, merge_all self imports = Returns reg /\
    rg_layouts reg = foldl fill_in (rg_layouts self) (map rg_layouts imports) /\
    rg_module_indices reg = foldl fill_modules (rg_module_indices self) (map rg_module_indices imports) /\
    rg_fn_sigs reg = foldl (merge_imported_table FnSig_eqb) (rg_fn_sigs self) (map sigs imports) /\
    rg_methods reg = foldl (merge_imported_table FnSig_eqb) (rg_methods self) (map meths imports) /\
    rg_bodies reg = foldl fill_in (rg_bodies self) (map rg_bodies imports) /\
    rg_enum_variants reg = foldl (merge_imported_table same) (rg_enum_variants self) (map enums imports) /\
    rg_structs reg = foldl fill_in (rg_structs self) (map rg_structs imports) /\
    (indexed self -> indexed reg).
Proof.
  revert self. induction imports as [|other imports IH]; intros self.
  { exists self. split_and!; done. }
  cbn [merge_all]. unfold merge_from.
  destruct (layout_index_spec (fill_in (rg_layouts self) (rg_layouts other))) as (ix & Hix & _).
  rewrite Hix. cbn [outcome_bind]. set (self' := mkRegistry _ _ _ _ _ _ _ _ _ _ _ _).
  destruct (IH self') as (reg & Hreg & H1 & H2 & H3 & H4 & H5 & H6 & H7 & H8).
  exists reg. split_and!; try done. intros _. apply H8. by split.
Qed.

(** What the imports make of a name the compilation does not define itself. *)
Definition resolved {V} (eqb : V -> V -> bool) (own : option V) (vs : list V) : option V :=
  match own with
  | Some v => Some v
  | None => match vs with v :: vs => if forallb (eqb v) vs then Some v else None | [] => None end
  end.

(** The imports disagree on a name the compilation does not define itself. *)
Definition conflict {V} (eqb : V -> V -> bool) (own : option V) (vs : list V) : bool :=
  match own, vs with
  | None, v :: vs => negb (forallb (eqb v) vs)
  | _, _ => false
  end.

Lemma merged_table {K V} `{Countable K} (eqb : V -> V -> bool) (m : gmap K V) ms k :
  let t := foldl (merge_imported_table eqb) (fresh_table m) ms in
  mg_dst t !! k = resolved eqb (m !! k) (votes k ms) /\
  (k ∈ mg_poisoned t <-> conflict eqb (m !! k) (votes k ms) = true).
Proof.
  intros t. pose proof (merged_ok eqb m ms) as Hok. fold t in Hok.
  rewrite (state_of_value t k Hok), (state_of_poisoned t k Hok).
  unfold t. rewrite merged_state. destruct (m !! k); [by split|].
  destruct (votes k ms) as [|v vs]; [by split|]. simpl. by destruct (forallb (eqb v) vs).
Qed.

(** Nothing has been merged into the registry yet. *)
Definition unmerged self : Prop :=
  rg_fn_sigs self = fresh_table (sigs self) /\ rg_methods self = fresh_table (meths self) /\
  rg_enum_variants self = fresh_table (enums self).

(** C26. Merging any sequence of imported interfaces never panics, and the merged
    registry answers each name by consensus: an entry of the compilation itself
    wins; otherwise the name resolves, to the value the imports give, exactly
    when all the imports that define it give equal values; and it is reported as
    poisoned exactly when they do not.  The content-addressed tables keep the
    compilation's entry, else the first import's. *)
Theorem merge_consensus self imports :
  unmerged self ->
  exists reg, merge_all self imports = Returns reg /\
    (forall n, resolve_fn reg n = resolved FnSig_eqb (resolve_fn self n) (omap (fun r => resolve_fn r n) imports)) /\
    (forall g n, resolve_method reg g n =
       resolved FnSig_eqb (resolve_method self g n) (omap (fun r => resolve_method r g n) imports)) /\
    (forall n, enums reg !! n = resolved same (enums self !! n) (omap (fun r => enums r !! n) imports)) /\
    (forall n, poisoned_reason reg n = Some PoisonFunction <->
       conflict FnSig_eqb (resolve_fn self n) (omap (fun r => resolve_fn r n) imports) = true) /\
    (forall g, reg_layout_of reg g = match reg_layout_of self g with
                                 | Some d => Some d
                                 | None => head (omap (fun r => reg_layout_of r g) imports)
                                 end) /\
    (forall g, body_of reg g = match body_of self g with
                               | Some b => Some b
                               | None => head (omap (fun r => body_of r g) imports)
                               end).
Proof.
  intros (Hf & Hm & He). destruct (merge_all_tables imports self) as (reg & Hreg & H1 & _ & H3 & H4 & H5 & H6 & _).
  exists reg. rewrite Hf in H3. rewrite Hm in H4. rewrite He in H6.
  split; [done|]. unfold resolve_fn, resolve_method, reg_layout_of, body_of. split_and!.
  - intros n. rewrite H3, <- (votes_map _ _). apply merged_table.
  - intros g n. rewrite H4, <- (votes_map _ _). apply merged_table.
  - intros n. rewrite H6, <- (votes_map _ _). apply merged_table.
  - intros n. unfold poisoned_reason. rewrite <- (votes_map sigs n). rewrite <- (proj2 (merged_table _ _ _ n)), <- H3.
    case_decide; [done|]. split; [|done]. repeat case_match; discriminate.
  - intros g. by rewrite H1, fill_all_lookup, votes_map.
  - intros g. by rewrite H5, fill_all_lookup, votes_map.
Qed.
(** Two registries that no query tells apart, up to the equality of
    signatures. *)
Definition reg_equiv (a b : ImmutableGlobalRegistry) : Prop :=
  rg_layouts a = rg_layouts b /\ rg_bodies a = rg_bodies b /\ rg_structs a = rg_structs b /\
  (forall h n, resolve_in_module a h n = resolve_in_module b h n) /\
  table_equiv FnSig_eqb (rg_fn_sigs a) (rg_fn_sigs b) /\
  table_equiv FnSig_eqb (rg_methods a) (rg_methods b) /\
  table_equiv same (rg_enum_variants a) (rg_enum_variants b).

(** The signatures of a registry carry maps with distinct keys. *)
Definition sigs_ok reg : Prop :=
  map_Forall (fun _ => sig_ok) (sigs reg) /\ map_Forall (fun _ => sig_ok) (meths reg).

(** One identity has one content in every interface. *)
Definition content_addressed imports : Prop :=
  agreeing (map rg_layouts imports) /\ agreeing (map rg_bodies imports) /\ agreeing (map rg_structs imports) /\
  forall a b e g g', a ∈ imports -> b ∈ imports -> in_module (rg_module_indices a) e = Some g ->
    in_module (rg_module_indices b) e = Some g' -> g = g'.

Lemma modules_perm self imports imports' e :
  content_addressed imports -> imports ≡ₚ imports' ->
  in_module (foldl fill_modules (rg_module_indices self) (map rg_module_indices imports)) e =
  in_module (foldl fill_modules (rg_module_indices self) (map rg_module_indices imports')) e.
Proof.
  intros (_ & _ & _ & Ha) Hp. rewrite !fill_modules_all. destruct (in_module (rg_module_indices self) e); [done|].
  set (vs := omap _ (map _ imports)). set (ws := omap _ (map _ imports')).
  assert (vs ≡ₚ ws) as Hv by (unfold vs, ws; by rewrite Hp).
  assert (forall v, v ∈ vs -> exists r, r ∈ imports /\ in_module (rg_module_indices r) e = Some v) as Hin.
  { intros v (m & (r & -> & Hr)%list_elem_of_fmap & Hm)%list_elem_of_omap. eauto. }
  destruct vs as [|v vs'], ws as [|w ws'] eqn:Ew; try done.
  - by apply Permutation_nil_l in Hv.
  - by apply Permutation_nil_r in Hv.
  - simpl. f_equal. destruct (Hin v) as (r & Hr & Hv'); [apply list_elem_of_here|].
    destruct (Hin w) as (r' & Hr' & Hw'); [rewrite Hv; apply list_elem_of_here|].
    exact (Ha r r' e v w Hr Hr' Hv' Hw').
Qed.

(** C28. The merged registry does not depend on the order in which the interfaces
    arrive: for any two orders of the same imports, every table gives the same
    answers, the same names are imported and the same names are poisoned.  The
    content-addressed tables need that one identity has one content in all the
    interfaces; the name-keyed tables need nothing. *)
Theorem merge_order_independent self imports imports' :
  unmerged self -> sigs_ok self -> Forall sigs_ok imports -> content_addressed imports ->
  imports ≡ₚ imports' ->
  exists a b, merge_all self imports = Returns a /\ merge_all self imports' = Returns b /\ reg_equiv a b.
Proof.
  intros (Hf & Hm & He) [Hs1 Hs2] Hok Hca Hp. pose proof Hca as (Hl & Hb & Hst & _).
  destruct (merge_all_tables imports self) as (a & Ha & A1 & A2 & A3 & A4 & A5 & A6 & A7 & _).
  destruct (merge_all_tables imports' self) as (b & Hb' & B1 & B2 & B3 & B4 & B5 & B6 & B7 & _).
  exists a, b. split_and!; [done|done|]. rewrite Hf in A3, B3. rewrite Hm in A4, B4. rewrite He in A6, B6.
  rewrite Forall_forall in Hok. unfold reg_equiv, resolve_in_module. rewrite A1, A3, A4, A5, A6, A7, B1, B3, B4, B5, B6, B7.
  split_and!; try (apply fill_all_perm; [done|by apply Permutation_map]).
  - intros h n. pose proof (modules_perm self imports imports' (h, n) Hca Hp) as E. by rewrite <- A2, <- B2 in E.
  - apply (merged_perm _ sig_ok); auto using FnSig_eqb_refl, FnSig_eqb_sym; [apply FnSig_eqb_trans| |by apply Permutation_map].
    apply Forall_forall. intros m (r & -> & Hr)%list_elem_of_fmap. by apply Hok.
  - apply (merged_perm _ sig_ok); auto using FnSig_eqb_refl, FnSig_eqb_sym; [apply FnSig_eqb_trans| |by apply Permutation_map].
    apply Forall_forall. intros m (r & -> & Hr)%list_elem_of_fmap. by apply Hok.
  - apply (merged_perm _ (fun _ => True)); try by intros; apply bool_decide_true.
    + intros u v _ _ ->%bool_decide_eq_true. by apply bool_decide_true.
    + intros u v w ->%bool_decide_eq_true. done.
    + by intros ? ? ?.
    + apply Forall_forall. intros ? _ ? ? ?. done.
    + by apply Permutation_map.
Qed.
End merges.

(** ** Queries *)

Section queries.
Context `{HashOrder}.
Implicit Types (reg : ImmutableGlobalRegistry).

(** Looking a layout up by name is exactly a search of the layouts: on a
    registry whose indices were built from its layouts the lookup never panics,
    and it gives an identity if and only if that is the only layout with the base
    name (the text before the first angle bracket) and its layout is complete. *)
Theorem base_name_lookup reg name :
  indexed reg ->
  exists r, layout_gid_by_base_name reg name = Returns r /\
    forall id, r = Some id <->
      sole_layout (rg_layouts reg) (base_name name) id /\
      exists d, rg_layouts reg !! id = Some d /\ td_align_bytes d <> 0.
Proof.
  intros [Hix _]. unfold layout_gid_by_base_name.
  destruct (layout_index_spec (rg_layouts reg)) as (ix & Hix' & Hsz & Hn).
  rewrite Hix in Hix'. injection Hix' as ->. rewrite decide_True by done. eexists. split; [done|]. apply Hn.
Qed.

(** A registry with its indices knows the declaration of every layout. *)
Lemma indexed_identities reg : indexed reg -> aggregate_identities reg = Returns (from_layouts (rg_layouts reg)).
Proof.
  intros [_ Hid]. unfold aggregate_identities, Identities_len. rewrite Hid.
  assert (ai_declarations (from_layouts (rg_layouts reg)) = td_name <$> rg_layouts reg) as ->.
  { apply map_eq. intros id. by rewrite from_layouts_declarations, lookup_fmap. }
  by rewrite decide_True by apply map_size_fmap.
Qed.

(** The modules that define a name, and the identities they give it. *)
Definition defines reg (name : Symbol) (id : Gid.TypeId) : Prop :=
  exists h, resolve_in_module reg h name = Some id.

Lemma unique_nominal_spec name found ms :
  match unique_nominal name found ms with
  | Some id => (forall m g, m ∈ ms -> m !! name = Some g -> g = id) /\
      (found = Some id \/ found = None /\ exists m, m ∈ ms /\ m !! name = Some id)
  | None => found = None /\ (forall m, m ∈ ms -> m !! name = None) \/
      exists a b, a <> b /\ (found = Some a \/ exists m, m ∈ ms /\ m !! name = Some a) /\
        exists m, m ∈ ms /\ m !! name = Some b
  end.
Proof.
  revert found. induction ms as [|m ms IH]; intros found; cbn [unique_nominal].
  { destruct found; [split; [by intros ? ? ?%elem_of_nil|by left]|left; split; [done|by intros ? ?%elem_of_nil]]. }
  assert (forall P : gmap Symbol Gid.TypeId -> Prop, (exists x, x ∈ ms /\ P x) -> exists x, x ∈ m :: ms /\ P x) as Hweak.
  { intros P (x & ? & ?). exists x. split; [by apply list_elem_of_further|done]. }
  destruct (m !! name) as [g|] eqn:E.
  - assert (exists x, x ∈ m :: ms /\ x !! name = Some g) as Hg by (exists m; split; [apply list_elem_of_here|done]).
    assert (found = None \/ found = Some g \/ exists a, found = Some a /\ a <> g) as [->|[->|(a & -> & Hne)]].
    { destruct found as [a|]; [|by left]. destruct (decide (a = g)) as [->|]; eauto. }
    + specialize (IH (Some g)). destruct (unique_nominal name (Some g) ms) as [id|].
      * destruct IH as [Hall [[= <-]|[[=] _]]]. split; [|by right].
        intros x y [->|Hx]%elem_of_cons; [congruence|by apply Hall].
      * destruct IH as [[[=] _]|(a & b & Hab & Ha & Hb)]. right. exists a, b. split_and!; [done| |auto].
        destruct Ha as [[= <-]|Ha]; auto.
    + rewrite decide_False by tauto. specialize (IH (Some g)). destruct (unique_nominal name (Some g) ms) as [id|].
      * destruct IH as [Hall [[= <-]|[[=] _]]]. split; [|by left].
        intros x y [->|Hx]%elem_of_cons; [congruence|by apply Hall].
      * destruct IH as [[[=] _]|(a & b & Hab & Ha & Hb)]. right. exists a, b. split_and!; [done| |auto].
        destruct Ha as [?|Ha]; auto.
    + rewrite decide_True by done. right. exists a, g. auto.
  - specialize (IH found). destruct (unique_nominal name found ms) as [id|].
    + destruct IH as [Hall Hf]. split; [intros x y [->|Hx]%elem_of_cons; [congruence|by apply Hall]|].
      destruct Hf as [?|[? ?]]; auto.
    + destruct IH as [[-> Hno]|(a & b & Hab & Ha & Hb)].
      * left. split; [done|]. intros x [->|Hx]%elem_of_cons; auto.
      * right. exists a, b. split_and!; [done| |auto]. destruct Ha; auto.
Qed.

(** The two loops differ only in what they return on a second definition. *)
Lemma ambiguous_nominal_spec name found ms :
  ambiguous_nominal name found ms = true <->
  unique_nominal name found ms = None /\ (is_Some found \/ exists m g, m ∈ ms /\ m !! name = Some g).
Proof.
  revert found. induction ms as [|m ms IH]; intros found; cbn [ambiguous_nominal unique_nominal].
  { split; [done|]. by intros [-> [[? [=]]|(? & ? & ?%elem_of_nil & _)]]. }
  destruct (m !! name) as [g|] eqn:E.
  - assert (exists x y, x ∈ m :: ms /\ x !! name = Some y) by (exists m, g; split; [apply list_elem_of_here|done]).
    destruct found as [a|]; [case_decide|]; [naive_solver| |]; rewrite IH; naive_solver.
  - rewrite IH. split; intros [-> [?|(x & y & Hx & Hy)]]; split; auto.
    + right. exists x, y. split; [by apply list_elem_of_further|done].
    + apply elem_of_cons in Hx as [->|Hx]; [congruence|eauto].
Qed.

Lemma defines_iter reg name id :
  defines reg name id <-> exists m, m ∈ map snd (iter (rg_module_indices reg)) /\ m !! name = Some id.
Proof.
  unfold defines, resolve_in_module. split.
  - intros (h & Hh). destruct (rg_module_indices reg !! h) as [m|] eqn:E; simpl in Hh; [|done].
    exists m. split; [|done]. apply list_elem_of_fmap. exists (h, m). split; [done|]. by apply iter_elem.
  - intros (m & ([h m'] & -> & Hm%iter_elem)%list_elem_of_fmap & Hn). exists h. by rewrite Hm.
Qed.

(** A bare type name resolves exactly to the identity that every module
    defining it agrees on, whatever the order in which the module table is
    visited; and the diagnostic query tells the two ways of not resolving apart:
    it is true exactly when two modules give the name different identities. *)
Theorem bare_name_resolution reg name :
  (forall id, resolve_unique_nominal reg name = Some id <->
     defines reg name id /\ forall id', defines reg name id' -> id' = id) /\
  (is_ambiguous_nominal reg name = true <->
     exists a b, a <> b /\ defines reg name a /\ defines reg name b).
Proof.
  unfold resolve_unique_nominal, is_ambiguous_nominal. rewrite ambiguous_nominal_spec.
  setoid_rewrite defines_iter. set (ms := map snd _).
  pose proof (unique_nominal_spec name None ms) as Hs.
  destruct (unique_nominal name None ms) as [g|].
  - destruct Hs as [Hall [[=]|[_ Hg]]]. split.
    + intros id. split; [|intros [(m & ? & ?) _]; f_equal; symmetry; eauto].
      intros [= <-]. split; [done|]. intros ? (m & ? & ?). eauto.
    + split; [by intros [[=] _]|]. intros (a & b & Hne & (m & Hm & Ha) & (m' & Hm' & Hb)).
      destruct Hne. by rewrite (Hall m a Hm Ha), (Hall m' b Hm' Hb).
  - destruct Hs as [[_ Hno]|(a & b & Hne & [[=]|Ha] & Hb)]; split.
    + intros id. split; [done|]. intros [(m & Hm & Hn) _]. by rewrite (Hno m Hm) in Hn.
    + split; [intros [_ [[? [=]]|(m & g & Hm & Hn)]]; by rewrite (Hno m Hm) in Hn|].
      intros (a & _ & _ & (m & Hm & Hn) & _). by rewrite (Hno m Hm) in Hn.
    + intros id. split; [done|]. intros [_ Hu]. destruct Hne. by rewrite (Hu a Ha), (Hu b Hb).
    + split; [eauto|]. intros _. split; [done|]. right. destruct Ha as (m & ? & ?). eauto.
Qed.
End queries.

(** ** Concrete runs *)

Definition demo_id (n : Z) : Gid.TypeId := Gid.mkTypeId n 1 0 0.
Definition demo_def (n : Z) (name : Symbol) (align : Z) (deps : list Z) : TypeDefinition :=
  mkTypeDefinition (demo_id n) name 8 align [] (map demo_id deps).

(** [Line] holds two [Point]s. *)
Definition demo_defs : list TypeDefinition := [demo_def 1 "Line" 8 [2]; demo_def 2 "Point" 8 []].

(** A type that contains itself through another. *)
Definition demo_cycle : list TypeDefinition := [demo_def 1 "A" 8 [2]; demo_def 2 "B" 8 [1]].

Lemma freeze_correct_witness :
  (exists reg, @build_and_validate map_order kahn_petgraph demo_defs = Returns (Ok reg) /\
     @freezes map_order demo_defs reg) /\
  (exists n, @build_and_validate map_order kahn_petgraph demo_cycle = Returns (Err (InfiniteLayout n)) /\
     refused demo_cycle (last_definitions demo_cycle) (InfiniteLayout n)).
Proof.
  split.
  - pose proof (@freeze_correct map_order kahn_petgraph demo_defs) as H.
    destruct (build_and_validate demo_defs) as [[reg|e]|] eqn:E; [|by vm_compute in E..].
    exists reg. split; [done|apply H].
  - pose proof (@freeze_correct map_order kahn_petgraph demo_cycle) as H. exists "A"%string.
    assert (@build_and_validate map_order kahn_petgraph demo_cycle = Returns (Err (InfiniteLayout "A"))) as E
      by (vm_compute; reflexivity).
    rewrite E in H. split; [done|exact H].
Defined.

Definition demo_sig (n : Z) (ret : Ty) : FnSig := mkFnSig (demo_id n) [Scalar I32] ret 0 false None.

(** An interface with the functions [sigs]. *)
Definition demo_interface (sigs : list (Symbol * FnSig)) : ImmutableGlobalRegistry :=
  mkRegistry Identities_default ∅ ∅ (fresh_table (list_to_map sigs)) (fresh_table ∅) ∅ (fresh_table ∅) ∅ ∅ ∅ []
    (mkLayoutNameIndex 0 ∅).

Definition demo_self : ImmutableGlobalRegistry := demo_interface [("own", demo_sig 1 Unknown)].
Definition demo_a : ImmutableGlobalRegistry :=
  demo_interface [("own", demo_sig 2 Matrix); ("both", demo_sig 3 (Scalar F32)); ("clash", demo_sig 4 Matrix)].
Definition demo_b : ImmutableGlobalRegistry :=
  demo_interface [("clash", demo_sig 5 Matrix); ("both", demo_sig 3 (Scalar F32))].

Lemma merge_consensus_witness : exists reg,
  @merge_all map_order demo_self [demo_a; demo_b] = Returns reg /\
  resolve_fn reg "own" = Some (demo_sig 1 Unknown) /\
  resolve_fn reg "both" = Some (demo_sig 3 (Scalar F32)) /\
  resolve_fn reg "clash" = None /\ poisoned_reason reg "clash" = Some PoisonFunction.
Proof.
  destruct (@merge_consensus map_order demo_self [demo_a; demo_b]) as (reg & H & Hf & _ & _ & Hp & _); [done|].
  exists reg. split; [done|]. rewrite !Hf. split_and!; [vm_compute; reflexivity..|]. apply Hp. vm_compute. reflexivity.
Defined.

Lemma demo_sigs_ok sigs : Forall (fun e => sig_ok e.2) sigs -> sigs_ok (demo_interface sigs).
Proof.
  intros Hs. split; intros k s; simpl; [|by rewrite lookup_empty].
  intros Hk%elem_of_list_to_map_2. by apply (proj1 (Forall_forall _ _) Hs (k, s)).
Qed.

Lemma merge_order_independent_witness : exists a b,
  @merge_all map_order demo_self [demo_a; demo_b] = Returns a /\
  @merge_all map_order demo_self [demo_b; demo_a] = Returns b /\ reg_equiv a b.
Proof.
  apply (@merge_order_independent map_order); [done| | | |apply Permutation_swap].
  - apply demo_sigs_ok. repeat constructor.
  - repeat (apply List.Forall_cons; [apply demo_sigs_ok; repeat constructor|]). apply List.Forall_nil.
  - unfold content_addressed, agreeing. cbn [map demo_a demo_b demo_interface rg_layouts rg_bodies rg_structs].
    split_and!; try (intros a b k v w Ha _ Hv; repeat (apply elem_of_cons in Ha as [->|Ha]; [by rewrite lookup_empty in Hv|]);
      by apply elem_of_nil in Ha).
    intros a b [h n] g g' Ha _ Hg. repeat (apply elem_of_cons in Ha as [->|Ha]; [by unfold in_module in Hg; simpl in Hg; rewrite lookup_empty in Hg|]).
    by apply elem_of_nil in Ha.
Defined.

Definition demo_frozen : ImmutableGlobalRegistry :=
  let L := last_definitions (demo_def 3 "Point" 0 [] :: demo_defs) in
  match @LayoutNameIndex_build map_order L with
  | Returns ix => @frozen (@from_layouts map_order L) ix L ∅
  | Panics => demo_self
  end.

Lemma base_name_lookup_witness :
  (exists r, layout_gid_by_base_name demo_frozen "Line<i32>" = Returns r /\
    forall id, r = Some id <-> sole_layout (rg_layouts demo_frozen) (base_name "Line<i32>") id /\
      exists d, rg_layouts demo_frozen !! id = Some d /\ td_align_bytes d <> 0) /\
  layout_gid_by_base_name demo_frozen "Line<i32>" = Returns (Some (demo_id 1)) /\
  layout_gid_by_base_name demo_frozen "Point" = Returns None.
Proof.
  split; [|split; vm_compute; reflexivity].
  apply (@base_name_lookup map_order). split; vm_compute; reflexivity.
Defined.
