(* ===== verification/Codec.v ===== *)
(** * The module interface codec ([src/src/metadata.rs])

    The byte format of a [.vxlib] payload: a little-endian writer, a
    bounds-checked reader, the encodings of element types, placements, types,
    instructions, bodies and signatures, and the whole interface of a registry.

    A byte is a [Z] in [0 .. 255].  A writer function gives the bytes it appends;
    one that can fail gives a [result], and the bytes written before the failure
    are dropped by every caller.  A reader is a function of the bytes not read yet.
    [usize] has 64 bits. *)

From stdpp Require Import base list strings gmap sorting.
From Stdlib Require Import ZArith Lia Ascii.
From S2P Require Import Prelude Gid Syntax Types Layout Bytecode Registry.
Open Scope Z_scope.
Open Scope vx_scope.

(** ** Readers *)

(** The messages of the codec, as constructors. *)
Inductive CodecError : Type :=
| UnexpectedEnd
| BadUtf8
| BadElementTypeTag (t : Z)
| BadFieldTyTag (t : Z)
| BadOptTypeIdTag (t : Z)
| BadMemorySpaceTag (t : Z)
| BadOptMemorySpaceTag (t : Z)
| BadTopologyTag (t : Z)
| BadOptPlacementTag (t : Z)
| BadTypeTag (t : Z)
| BadDimTag (t : Z)
| BadLengthTag (t : Z)
| BadOpcode (v : Z)
| BadMagic
| StaleFormat
| VariantOutOfRange (i : Z)
| VariantTwice (i : Z)
| IndexNotLiteral
| IndexNotInteger
| TopologyExpression
| TensorExpression
| ConstExpression
| ModuleType
| DeferredGid.

(** [Vec::with_capacity] panics when the bytes asked for exceed [isize::MAX]; the
    other two are an [expect] and an index into a map. *)
Inductive Panic : Type := CapacityOverflow | NotFilled | IndexMissing.

Inductive read_result (A : Type) : Type :=
| Read (a : A) (rest : list Z)
| ReadErr (e : CodecError)
| ReadPanic (p : Panic)
| ReadStuck.
Arguments Read {A} a rest.
Arguments ReadErr {A} e.
Arguments ReadPanic {A} p.
Arguments ReadStuck {A}.

Definition reader (A : Type) : Type := list Z -> read_result A.

Definition r_ret {A} (a : A) : reader A := fun bs => Read a bs.
Definition r_err {A} (e : CodecError) : reader A := fun _ => ReadErr e.
Definition r_panic {A} (p : Panic) : reader A := fun _ => ReadPanic p.
Definition r_bind {A B} (m : reader A) (f : A -> reader B) : reader B := fun bs =>
  match m bs with
  | Read a rest => f a rest
  | ReadErr e => ReadErr e
  | ReadPanic p => ReadPanic p
  | ReadStuck => ReadStuck
  end.

Notation "x <~ m ; k" := (r_bind m (fun x => k))
  (at level 20, m at level 100, k at level 200, right associativity) : vx_scope.

(** [for _ in 0..n] with a state: [fuel] bounds the passes, and every pass reads
    at least one byte, so the bytes left are enough fuel. *)
Fixpoint for_fuel {S} (fuel : nat) (n : Z) (step : S -> reader S) (s : S) : reader S := fun bs =>
  if n <=? 0 then Read s bs
  else match fuel with
       | O => ReadStuck
       | Datatypes.S fuel => r_bind (step s) (for_fuel fuel (n - 1) step) bs
       end.

Definition for_n {S} (n : Z) (step : S -> reader S) (s : S) : reader S := fun bs =>
  for_fuel (Datatypes.S (length bs)) n step s bs.

(** The body [v.push(read(r)?)]. *)
Definition push {A} (rd : reader A) (acc : list A) : reader (list A) := a <~ rd; r_ret (acc ++ [a]).

(** What the elements of a [Vec] are, for its size in memory. *)
Inductive VecOf : Type := VecType | VecField | VecTypeId | VecDim | VecInstruction | VecVariant.

(** The sizes that the compiler gives to these types; none is empty. *)
Class ElemSizes : Type := {
  size_of : VecOf -> Z;
  size_of_pos : forall k, 1 <= size_of k;
}.

Definition with_capacity `{ElemSizes} (k : VecOf) (n : Z) : reader () :=
  if n * size_of k <=? imax 64 then r_ret () else r_panic CapacityOverflow.

(** ** The writer and the reader of primitive values *)

Definition w_u8 (v : Z) : list Z := [v].
Definition w_u64 (v : Z) : list Z := le_bytes 8 v.
Definition w_bytes (b : list Z) : list Z := w_u64 (Z.of_nat (length b)) ++ b.

(** The bytes of a symbol. *)
Fixpoint sym_bytes (s : Symbol) : list Z :=
  match s with
  | EmptyString => []
  | String c s => Z.of_nat (nat_of_ascii c) :: sym_bytes s
  end.

Fixpoint bytes_sym (b : list Z) : Symbol :=
  match b with
  | [] => EmptyString
  | x :: b => String (ascii_of_nat (Z.to_nat x)) (bytes_sym b)
  end.

Definition w_sym (s : Symbol) : list Z := w_bytes (sym_bytes s).
Definition words (t : Gid.TypeId) : list Z := [Gid.word0 t; Gid.word1 t; Gid.word2 t; Gid.word3 t].
Definition w_typeid (t : Gid.TypeId) : list Z := mjoin (map w_u64 (words t)).

(** [Reader::take]. *)
Definition r_take (n : Z) : reader (list Z) := fun bs =>
  if n <=? Z.of_nat (length bs) then Read (take (Z.to_nat n) bs) (drop (Z.to_nat n) bs)
  else ReadErr UnexpectedEnd.

Definition r_u8 : reader Z := b <~ r_take 1; r_ret (hd 0 b).
Definition r_u64 : reader Z := b <~ r_take 8; r_ret (le_value b).
Definition r_bytes : reader (list Z) := n <~ r_u64; r_take n.

(** [std::str::from_utf8]: the well-formed sequences of the Unicode standard. *)
Definition is_cont (b : Z) : bool := (0x80 <=? b) && (b <=? 0xBF).
Definition byte_in (lo hi b : Z) : bool := (lo <=? b) && (b <=? hi).

Fixpoint utf8_ok (bs : list Z) : bool :=
  match bs with
  | [] => true
  | b0 :: bs =>
      if b0 <? 0x80 then utf8_ok bs
      else match bs with
           | [] => false
           | b1 :: bs =>
               if byte_in 0xC2 0xDF b0 then is_cont b1 && utf8_ok bs
               else match bs with
                    | [] => false
                    | b2 :: bs =>
                        if b0 =? 0xE0 then byte_in 0xA0 0xBF b1 && is_cont b2 && utf8_ok bs
                        else if b0 =? 0xED then byte_in 0x80 0x9F b1 && is_cont b2 && utf8_ok bs
                        else if byte_in 0xE1 0xEF b0 then is_cont b1 && is_cont b2 && utf8_ok bs
                        else match bs with
                             | [] => false
                             | b3 :: bs =>
                                 (if b0 =? 0xF0 then byte_in 0x90 0xBF b1
                                  else if b0 =? 0xF4 then byte_in 0x80 0x8F b1
                                  else byte_in 0xF1 0xF3 b0 && is_cont b1) &&
                                 is_cont b2 && is_cont b3 && utf8_ok bs
                             end
                    end
           end
  end.

Definition r_sym : reader Symbol :=
  b <~ r_bytes; if utf8_ok b then r_ret (bytes_sym b) else r_err BadUtf8.

Definition r_typeid : reader Gid.TypeId :=
  a <~ r_u64; b <~ r_u64; c <~ r_u64; d <~ r_u64; r_ret (Gid.mkTypeId a b c d).

(** ** Element types and field types *)

Definition write_element_type (e : ElementType) : list Z :=
  let tag := match e with
    | F16 => 0 | F32 => 1 | F64 => 2 | BF16 => 3 | I4 => 4 | U4 => 5 | I8 => 6 | U8 => 7
    | I16 => 8 | U16 => 9 | I32 => 10 | U32 => 11 | I64 => 12 | U64 => 13 | I128 => 14 | U128 => 15
    | Bool => 16 | ElemGeneric _ => 17 | F8E4M3 => 18 | F8E5M2 => 19 | F4E2M1 => 20 | USize => 21
    end in
  w_u8 tag ++ match e with ElemGeneric s => w_sym s | _ => [] end.

Definition read_element_type : reader ElementType :=
  t <~ r_u8;
  match t with
  | 0 => r_ret F16 | 1 => r_ret F32 | 2 => r_ret F64 | 3 => r_ret BF16 | 4 => r_ret I4 | 5 => r_ret U4
  | 6 => r_ret I8 | 7 => r_ret U8 | 8 => r_ret I16 | 9 => r_ret U16 | 10 => r_ret I32 | 11 => r_ret U32
  | 12 => r_ret I64 | 13 => r_ret U64 | 14 => r_ret I128 | 15 => r_ret U128 | 16 => r_ret Bool
  | 17 => s <~ r_sym; r_ret (ElemGeneric s)
  | 18 => r_ret F8E4M3 | 19 => r_ret F8E5M2 | 20 => r_ret F4E2M1 | 21 => r_ret USize
  | t => r_err (BadElementTypeTag t)
  end.

Definition write_field_ty (ty : FieldTy) : list Z :=
  match ty with
  | FScalar e => w_u8 0 ++ write_element_type e
  | FNominal id => w_u8 1 ++ w_typeid id
  | FOpaque => w_u8 2
  | FTensor e rank => w_u8 3 ++ write_element_type e ++ w_u64 (Z.of_nat rank)
  | FVector e lanes => w_u8 4 ++ write_element_type e ++ w_u64 (Z.of_nat lanes)
  end.

Definition read_field_ty : reader FieldTy :=
  t <~ r_u8;
  match t with
  | 0 => e <~ read_element_type; r_ret (FScalar e)
  | 1 => id <~ r_typeid; r_ret (FNominal id)
  | 2 => r_ret FOpaque
  | 3 => e <~ read_element_type; n <~ r_u64; r_ret (FTensor e (Z.to_nat n))
  | 4 => e <~ read_element_type; n <~ r_u64; r_ret (FVector e (Z.to_nat n))
  | t => r_err (BadFieldTyTag t)
  end.

Definition write_field_layout (f : FieldLayout) : list Z :=
  w_sym (fl_name f) ++ w_u64 (fl_offset f) ++ w_u64 (fl_size f) ++ write_field_ty (fl_ty f).

Definition read_field_layout : reader FieldLayout :=
  fname <~ r_sym; offset <~ r_u64; size <~ r_u64; ty <~ read_field_ty;
  r_ret (mkFieldLayout fname offset size ty).

Definition write_type_definition (def : TypeDefinition) : list Z :=
  w_typeid (td_id def) ++ w_sym (td_name def) ++ w_u64 (td_size_bytes def) ++ w_u64 (td_align_bytes def) ++
  w_u64 (Z.of_nat (length (td_fields def))) ++ mjoin (map write_field_layout (td_fields def)) ++
  w_u64 (Z.of_nat (length (td_by_value_dependencies def))) ++
  mjoin (map w_typeid (td_by_value_dependencies def)).

Definition read_type_definition `{ElemSizes} : reader TypeDefinition :=
  id <~ r_typeid; name <~ r_sym; size_bytes <~ r_u64; align_bytes <~ r_u64;
  n_fields <~ r_u64; _ <~ with_capacity VecField n_fields;
  fields <~ for_n n_fields (push read_field_layout) [];
  n_deps <~ r_u64; _ <~ with_capacity VecTypeId n_deps;
  deps <~ for_n n_deps (push r_typeid) [];
  r_ret (mkTypeDefinition id name size_bytes align_bytes fields deps).

Definition write_opt_typeid (id : option Gid.TypeId) : list Z :=
  match id with None => w_u8 0 | Some t => w_u8 1 ++ w_typeid t end.

Definition read_opt_typeid : reader (option Gid.TypeId) :=
  t <~ r_u8;
  match t with
  | 0 => r_ret None
  | 1 => id <~ r_typeid; r_ret (Some id)
  | t => r_err (BadOptTypeIdTag t)
  end.

(** ** Memory spaces, topologies and placements *)

Definition write_memory_space (m : MemorySpace) : list Z :=
  match m with
  | CPUDRAM => w_u8 0 | NPUHBM => w_u8 1 | GpuHbm => w_u8 2 | LocalSRAM => w_u8 3
  | NicRam => w_u8 4 | RemoteHbm => w_u8 5
  | CustomSpace s => w_u8 6 ++ w_sym s
  end.

Definition read_memory_space : reader MemorySpace :=
  t <~ r_u8;
  match t with
  | 0 => r_ret CPUDRAM | 1 => r_ret NPUHBM | 2 => r_ret GpuHbm | 3 => r_ret LocalSRAM
  | 4 => r_ret NicRam | 5 => r_ret RemoteHbm
  | 6 => s <~ r_sym; r_ret (CustomSpace s)
  | t => r_err (BadMemorySpaceTag t)
  end.

Definition write_opt_memory_space (o : option MemorySpace) : list Z :=
  match o with None => w_u8 0 | Some m => w_u8 1 ++ write_memory_space m end.

Definition read_opt_memory_space : reader (option MemorySpace) :=
  t <~ r_u8;
  match t with
  | 0 => r_ret None
  | 1 => m <~ read_memory_space; r_ret (Some m)
  | t => r_err (BadOptMemorySpaceTag t)
  end.

(** [i64::to_string]. *)
Definition i64_to_string (z : Z) : string :=
  if z <? 0 then String "-" (u_to_string 20 (- z) EmptyString) else u_to_string 20 z EmptyString.

(** [Topology::gpu]. *)
Definition Topology_gpu (index : Z) : Topology := GPU (Number (i64_to_string index) None Span_default).

Definition write_topology (t : Topology) : result (list Z) CodecError :=
  match t with
  | CPU => Ok (w_u8 0)
  | AMX => Ok (w_u8 1)
  | ANE => Ok (w_u8 2)
  | GPU e =>
      match e with
      | Number value _ _ =>
          idx ←? ok_or (parse_int 64 value) IndexNotInteger;
          Ok (w_u8 3 ++ w_u64 (wrap_u 64 idx))
      | _ => Err IndexNotLiteral
      end
  | CpuAvx512 => Ok (w_u8 4)
  | CpuNeon => Ok (w_u8 5)
  | Current => Ok (w_u8 6)
  | CustomTopology s => Ok (w_u8 7 ++ w_sym s)
  | NPU _ | AccCore _ | Slice _ _ _ => Err TopologyExpression
  end.

Definition read_topology : reader Topology :=
  t <~ r_u8;
  match t with
  | 0 => r_ret CPU | 1 => r_ret AMX | 2 => r_ret ANE
  | 3 => i <~ r_u64; r_ret (Topology_gpu (wrap_i 64 i))
  | 4 => r_ret CpuAvx512 | 5 => r_ret CpuNeon | 6 => r_ret Current
  | 7 => s <~ r_sym; r_ret (CustomTopology s)
  | t => r_err (BadTopologyTag t)
  end.

Definition write_opt_placement (o : option Placement) : result (list Z) CodecError :=
  match o with
  | None => Ok (w_u8 0)
  | Some p =>
      t ←? write_topology (pl_topology p);
      Ok (w_u8 1 ++ t ++ write_memory_space (pl_space p) ++ w_u64 (default 0 (pl_alignment p)))
  end.

(** [Placement::in_space]. *)
Definition Placement_in_space (space : MemorySpace) (topology : Topology) : Placement :=
  mkPlacement topology space StatedSpace None.

Definition set_alignment (p : Placement) (a : option Z) : Placement :=
  mkPlacement (pl_topology p) (pl_space p) (pl_stated p) a.

Definition read_opt_placement : reader (option Placement) :=
  t <~ r_u8;
  match t with
  | 0 => r_ret None
  | 1 =>
      topology <~ read_topology; space <~ read_memory_space; n <~ r_u64;
      r_ret (Some (set_alignment (Placement_in_space space topology) (if n =? 0 then None else Some n)))
  | t => r_err (BadOptPlacementTag t)
  end.

(** ** Types *)

(** A loop of fallible writes: the first failure is the result. *)
Definition w_each {A} (write : A -> result (list Z) CodecError) : list A -> result (list Z) CodecError :=
  fix go (l : list A) : result (list Z) CodecError :=
    match l with
    | [] => Ok []
    | a :: l => b ←? write a; bs ←? go l; Ok (b ++ bs)
    end.

(** [Dim::literal]. *)
Definition Dim_literal (d : Dim) : option Symbol :=
  match d with Static (Number value _ _) => Some value | _ => None end.

Definition write_dim (d : Dim) : result (list Z) CodecError :=
  match d with
  | Dyn => Ok (w_u8 0)
  | Static _ => v ←? ok_or (Dim_literal d) TensorExpression; Ok (w_u8 1 ++ w_sym v)
  end.

Definition read_dim : reader Dim :=
  t <~ r_u8;
  match t with
  | 0 => r_ret Dyn
  | 1 => s <~ r_sym; r_ret (Static (Number s (Some I32) Span_default))
  | t => r_err (BadDimTag t)
  end.

Definition w_bool (b : bool) : list Z := w_u8 (if b then 1 else 0).
Definition r_bool : reader bool := b <~ r_u8; r_ret (negb (b =? 0)).

Fixpoint write_type (ty : Ty) : result (list Z) CodecError :=
  match ty with
  | Scalar e => Ok (w_u8 0 ++ write_element_type e)
  | Struct name id => Ok (w_u8 1 ++ w_sym name ++ write_opt_typeid id)
  | Enum name id => Ok (w_u8 2 ++ w_sym name ++ write_opt_typeid id)
  | Generic name id => Ok (w_u8 3 ++ w_sym name ++ write_opt_typeid id)
  | Ref inner mem => i ←? write_type inner; Ok (w_u8 4 ++ i ++ write_memory_space mem)
  | Pointer inner mem is_mut =>
      i ←? write_type inner; p ←? write_opt_placement mem;
      Ok (w_u8 5 ++ i ++ p ++ w_bool is_mut)
  | BorrowTy inner mem_space is_mut region_id =>
      i ←? write_type inner;
      Ok (w_u8 6 ++ i ++ write_opt_memory_space mem_space ++ w_bool is_mut ++ w_u64 (Z.of_nat region_id))
  | Pinned inner top => i ←? write_type inner; t ←? write_topology top; Ok (w_u8 7 ++ i ++ t)
  | Verified inner => i ←? write_type inner; Ok (w_u8 8 ++ i)
  | GenericInstance base args =>
      b ←? write_type base; l ←? w_each write_type args;
      Ok (w_u8 9 ++ b ++ w_u64 (Z.of_nat (length args)) ++ l)
  | Function_ params ret unsafe_fn =>
      l ←? w_each write_type params; r ←? write_type ret;
      Ok (w_u8 10 ++ w_bool unsafe_fn ++ w_u64 (Z.of_nat (length params)) ++ l ++ r)
  | Closure params ret =>
      l ←? w_each write_type params; r ←? write_type ret;
      Ok (w_u8 11 ++ w_u64 (Z.of_nat (length params)) ++ l ++ r)
  | Simd e n => Ok (w_u8 12 ++ write_element_type e ++ w_u64 (Z.of_nat n))
  | Matrix => Ok (w_u8 13)
  | Unknown => Ok (w_u8 14)
  | Tensor e dims top =>
      p ←? write_opt_placement top; l ←? w_each write_dim dims;
      Ok (w_u8 15 ++ write_element_type e ++ p ++ w_u64 (Z.of_nat (length dims)) ++ l)
  | Const_ _ => Err ConstExpression
  | Module_ _ _ => Err ModuleType
  end.

(** [read_type]; a nested type starts after at least one byte, so the bytes left
    bound the depth. *)
Fixpoint read_type_fuel `{ElemSizes} (fuel : nat) : reader Ty :=
  match fuel with
  | O => fun _ => ReadStuck
  | S fuel =>
      let nested := read_type_fuel fuel in
      let types := n <~ r_u64; _ <~ with_capacity VecType n; for_n n (push nested) [] in
      t <~ r_u8;
      match t with
      | 0 => e <~ read_element_type; r_ret (Scalar e)
      | 1 => name <~ r_sym; id <~ read_opt_typeid; r_ret (Struct name id)
      | 2 => name <~ r_sym; id <~ read_opt_typeid; r_ret (Enum name id)
      | 3 => name <~ r_sym; id <~ read_opt_typeid; r_ret (Generic name id)
      | 4 => inner <~ nested; mem <~ read_memory_space; r_ret (Ref inner mem)
      | 5 => inner <~ nested; mem <~ read_opt_placement; is_mut <~ r_bool; r_ret (Pointer inner mem is_mut)
      | 6 =>
          inner <~ nested; mem_space <~ read_opt_memory_space; is_mut <~ r_bool; region_id <~ r_u64;
          r_ret (BorrowTy inner mem_space is_mut (Z.to_nat region_id))
      | 7 => inner <~ nested; top <~ read_topology; r_ret (Pinned inner top)
      | 8 => inner <~ nested; r_ret (Verified inner)
      | 9 => base <~ nested; args <~ types; r_ret (GenericInstance base args)
      | 10 => unsafe_fn <~ r_bool; params <~ types; ret <~ nested; r_ret (Function_ params ret unsafe_fn)
      | 11 => params <~ types; ret <~ nested; r_ret (Closure params ret)
      | 12 => e <~ read_element_type; n <~ r_u64; r_ret (Simd e (Z.to_nat n))
      | 13 => r_ret Matrix
      | 14 => r_ret Unknown
      | 15 =>
          e <~ read_element_type; top <~ read_opt_placement; n <~ r_u64; _ <~ with_capacity VecDim n;
          dims <~ for_n n (push read_dim) []; r_ret (Tensor e dims top)
      | t => r_err (BadTypeTag t)
      end
  end.

Definition read_type `{ElemSizes} : reader Ty := fun bs => read_type_fuel (S (length bs)) bs.

(** ** Bodies and signatures *)

Definition write_hir_instruction (ins : HirInstruction) : list Z :=
  w_u64 (Opcode_as_u32 (hi_opcode ins)) ++ w_u64 (hi_operand1 ins) ++ w_u64 (hi_operand2 ins) ++
  w_u64 (hi_type_idx ins) ++ w_u64 (hi_imm ins).

Definition read_hir_instruction : reader HirInstruction :=
  raw <~ r_u64;
  match checked_u 32 raw ≫= from_u32 with
  | None => r_err (BadOpcode raw)
  | Some opcode =>
      operand1 <~ r_u64; operand2 <~ r_u64; type_idx <~ r_u64; imm <~ r_u64;
      r_ret (mkHirInstruction opcode (wrap_u 32 operand1) (wrap_u 32 operand2) (wrap_u 32 type_idx) imm)
  end.

Definition write_fn_body (gid : Gid.TypeId) (body : FnBody) : result (list Z) CodecError :=
  if existsb Gid.is_local_deferred (fb_types body) then Err DeferredGid
  else
    sig ←? write_type (fb_ret_ty body);
    params ←? w_each write_type (fb_params body);
    Ok (w_typeid gid ++ w_sym (fb_name body) ++ w_u64 (Z.of_nat (length (fb_params body))) ++ params ++ sig ++
        w_u64 (Z.of_nat (length (fb_hir body))) ++ mjoin (map write_hir_instruction (fb_hir body)) ++
        w_u64 (Z.of_nat (length (fb_types body))) ++ mjoin (map w_typeid (fb_types body))).

Definition read_fn_body `{ElemSizes} : reader (Gid.TypeId * FnBody) :=
  gid <~ r_typeid; name <~ r_sym;
  n_params <~ r_u64; _ <~ with_capacity VecType n_params; params <~ for_n n_params (push read_type) [];
  ret_ty <~ read_type;
  n_hir <~ r_u64; _ <~ with_capacity VecInstruction n_hir; hir <~ for_n n_hir (push read_hir_instruction) [];
  n_types <~ r_u64; _ <~ with_capacity VecTypeId n_types; types <~ for_n n_types (push r_typeid) [];
  r_ret (gid, mkFnBody name params ret_ty hir types).

Definition write_length (l : option Length) : list Z :=
  match l with
  | None | Some LenOther => w_u8 0
  | Some (LenParam i) => w_u8 1 ++ w_u64 i
  | Some (LenConstant c) => w_u8 2 ++ w_u64 (wrap_u 64 c)
  end.

Definition read_length : reader (option Length) :=
  t <~ r_u8;
  match t with
  | 0 => r_ret None
  | 1 => i <~ r_u64; r_ret (Some (LenParam i))
  | 2 => c <~ r_u64; r_ret (Some (LenConstant (wrap_i 64 c)))
  | t => r_err (BadLengthTag t)
  end.

Definition encode_sig_record (sig : FnSig) : result (list Z) CodecError :=
  params ←? w_each write_type (fs_params sig);
  ret ←? write_type (fs_ret_ty sig);
  Ok (w_u64 (Z.of_nat (length (fs_params sig))) ++ params ++ ret ++ w_u8 (fs_ret_prov sig) ++
      w_bool (fs_is_unsafe sig) ++ write_length (fs_ret_valid sig)).

(** The signature whose identity was read before its record. *)
Definition read_sig_record `{ElemSizes} (gid : Gid.TypeId) : reader FnSig :=
  n_params <~ r_u64; params <~ for_n n_params (push read_type) [];
  ret_ty <~ read_type; ret_prov <~ r_u8; is_unsafe <~ r_bool; ret_valid <~ read_length;
  r_ret (mkFnSig gid params ret_ty ret_prov is_unsafe ret_valid).

(** ** The whole interface *)

(** "VXLB". *)
Definition VXLIB_MAGIC : list Z := [86; 88; 76; 66].
Definition VXLIB_FORMAT_TAG : string := "vxlib-interface-v19".
Definition format_stamp : Z := Hash.compute_module_hash (sym_bytes VXLIB_FORMAT_TAG).

(** Why an entry is left out of the artifact. *)
Inductive SkipReason : Type :=
| Unencodable (e : CodecError)
| HasInvariant.

Record TableReport : Type := mkTableReport {
  tr_table : string;
  tr_encoded : nat;
  tr_skipped : list (string * SkipReason);
}.

Definition total_skipped (tables : list TableReport) : nat :=
  sum_list_with (fun t => length (tr_skipped t)) tables.

(** The order of keys: lexicographic on words or bytes. *)
Fixpoint lexb (a b : list Z) : bool :=
  match a, b with
  | [], _ => true
  | _ :: _, [] => false
  | x :: a, y :: b => (x <? y) || ((x =? y) && lexb a b)
  end.

Definition entry_le {A} (key : A -> list Z) (x y : A) : Prop := lexb (key x) (key y) = true.
#[export] Instance entry_le_dec {A} (key : A -> list Z) (x y : A) : Decision (entry_le key x y).
Proof. unfold entry_le. apply _. Defined.

Definition sort_by_key {A} (key : A -> list Z) (l : list A) : list A := merge_sort (entry_le key) l.

(** The loop over a table whose entries may be skipped: the count and the records
    that could be encoded, and the report. *)
Definition emit_table {A} (table : string) (encode : A -> result (list Z) (string * SkipReason)) (entries : list A)
    : list Z * TableReport :=
  let '(sub, n, skipped) :=
    foldl (fun '(sub, n, skipped) a =>
             match encode a with
             | Ok rec => (sub ++ rec, S n, skipped)
             | Err skip => (sub, n, skipped ++ [skip])
             end) ([], O, []) entries in
  (w_u64 (Z.of_nat n) ++ sub, mkTableReport table n skipped).

(** [format!("{:?}", gid.words)]. *)
Definition words_debug (gid : Gid.TypeId) : string :=
  ("[" +:+ String.concat ", " (map (fun w => u_to_string 20 w "") (words gid)) +:+ "]")%string.

Definition nominal_name (reg : ImmutableGlobalRegistry) (gid : Gid.TypeId) : string :=
  match rg_layouts reg !! gid with Some d => td_name d | None => words_debug gid end.

(** A result whose error is reported under a name. *)
Definition skipping {A} (name : string) (r : result A CodecError) : result A (string * SkipReason) :=
  match r with Ok a => Ok a | Err e => Err (name, Unencodable e) end.

Definition encode_fn (e : Symbol * FnSig) : result (list Z) (string * SkipReason) :=
  rec ←? skipping e.1 (encode_sig_record e.2);
  Ok (w_sym e.1 ++ w_typeid (fs_gid e.2) ++ rec).

Definition encode_method (reg : ImmutableGlobalRegistry) (e : (Gid.TypeId * Symbol) * FnSig)
    : result (list Z) (string * SkipReason) :=
  let '((recv, name), sig) := e in
  rec ←? skipping (nominal_name reg recv +:+ "." +:+ name)%string (encode_sig_record sig);
  Ok (w_typeid recv ++ w_sym name ++ w_typeid (fs_gid sig) ++ rec).

Definition encode_body (e : Gid.TypeId * FnBody) : result (list Z) (string * SkipReason) :=
  skipping (fb_name e.2) (write_fn_body e.1 e.2).

(** The fields of a struct, until one cannot be encoded. *)
Fixpoint encode_fields (name : string) (fields : list (Symbol * Ty)) : result (list Z) (string * SkipReason) :=
  match fields with
  | [] => Ok []
  | (fname, fty) :: fields =>
      t ←? skipping (name +:+ " (field '" +:+ fname +:+ "')")%string (write_type fty);
      rest ←? encode_fields name fields;
      Ok (w_sym fname ++ t ++ rest)
  end.

Definition encode_struct (reg : ImmutableGlobalRegistry) (e : Gid.TypeId * StructFields)
    : result (list Z) (string * SkipReason) :=
  let '(gid, sf) := e in
  if decide (gid ∈ rg_structs_with_invariants reg) then Err (nominal_name reg gid, HasInvariant)
  else
    fields ←? encode_fields (nominal_name reg gid) (sf_fields sf);
    Ok (w_typeid gid ++ w_u64 (Z.of_nat (length (sf_generics sf))) ++ mjoin (map w_sym (sf_generics sf)) ++
        w_u64 (Z.of_nat (length (sf_fields sf))) ++ fields).

Definition encode_module (e : Z * list (Symbol * Gid.TypeId)) : list Z :=
  w_u64 e.1 ++ w_u64 (Z.of_nat (length e.2)) ++ mjoin (map (fun n => w_sym n.1 ++ w_typeid n.2) e.2).

Fixpoint encode_variants (i : Z) (variants : list Symbol) : list Z :=
  match variants with
  | [] => []
  | v :: variants => w_sym v ++ w_u64 i ++ encode_variants (i + 1) variants
  end.

Definition encode_enum (e : Symbol * list Symbol) : list Z :=
  w_sym e.1 ++ w_u64 (Z.of_nat (length e.2)) ++ encode_variants 0 e.2.

Section interface.
Context `{HashOrder, ElemSizes}.

(** The tables in the order they are written. *)
Definition sorted_modules (reg : ImmutableGlobalRegistry) : list (Z * list (Symbol * Gid.TypeId)) :=
  map (fun e : Z * gmap Symbol Gid.TypeId => (e.1, sort_by_key (fun n : Symbol * Gid.TypeId => sym_bytes n.1) (iter e.2)))
      (sort_by_key (fun e : Z * gmap Symbol Gid.TypeId => [e.1]) (iter (rg_module_indices reg))).
Definition sorted_layouts (reg : ImmutableGlobalRegistry) : list TypeDefinition :=
  sort_by_key (fun d => words (td_id d)) (map snd (iter (rg_layouts reg))).
Definition sorted_fns (reg : ImmutableGlobalRegistry) : list (Symbol * FnSig) :=
  sort_by_key (fun e : Symbol * FnSig => sym_bytes e.1) (iter (mg_dst (rg_fn_sigs reg))).
(** By receiver, then by name: the words of a receiver are always four. *)
Definition sorted_methods (reg : ImmutableGlobalRegistry) : list ((Gid.TypeId * Symbol) * FnSig) :=
  sort_by_key (fun e : (Gid.TypeId * Symbol) * FnSig => words e.1.1 ++ sym_bytes e.1.2) (iter (mg_dst (rg_methods reg))).
Definition sorted_bodies (reg : ImmutableGlobalRegistry) : list (Gid.TypeId * FnBody) :=
  sort_by_key (fun e : Gid.TypeId * FnBody => words e.1) (iter (rg_bodies reg)).
Definition sorted_structs (reg : ImmutableGlobalRegistry) : list (Gid.TypeId * StructFields) :=
  sort_by_key (fun e : Gid.TypeId * StructFields => words e.1) (iter (rg_structs reg)).
Definition sorted_enums (reg : ImmutableGlobalRegistry) : list (Symbol * list Symbol) :=
  sort_by_key (fun e : Symbol * list Symbol => sym_bytes e.1) (iter (mg_dst (rg_enum_variants reg))).

Definition serialize_registry_interface_reporting (reg : ImmutableGlobalRegistry) : list Z * list TableReport :=
  let modules := sorted_modules reg in
  let defs := sorted_layouts reg in
  let '(fns, fn_report) := emit_table "fn_sigs" encode_fn (sorted_fns reg) in
  let '(meths, meth_report) := emit_table "methods" (encode_method reg) (sorted_methods reg) in
  let '(bodies, body_report) := emit_table "bodies" encode_body (sorted_bodies reg) in
  let '(structs, struct_report) := emit_table "structs" (encode_struct reg) (sorted_structs reg) in
  let enums := sorted_enums reg in
  (VXLIB_MAGIC ++ w_u64 format_stamp ++
   (w_u64 (Z.of_nat (length modules)) ++ mjoin (map encode_module modules)) ++
   (w_u64 (Z.of_nat (length defs)) ++ mjoin (map write_type_definition defs)) ++
   fns ++ meths ++ bodies ++ structs ++
   (w_u64 (Z.of_nat (length enums)) ++ mjoin (map encode_enum enums)),
   [fn_report; meth_report; body_report; struct_report; mkTableReport "enums" (length enums) []]).

Definition serialize_registry_interface (reg : ImmutableGlobalRegistry) : list Z :=
  (serialize_registry_interface_reporting reg).1.

(** ** Reading an interface *)

Definition read_module (m : gmap Z (gmap Symbol Gid.TypeId)) : reader (gmap Z (gmap Symbol Gid.TypeId)) :=
  mod_hash <~ r_u64; n_entries <~ r_u64;
  by_name <~ for_n n_entries (fun b : gmap Symbol Gid.TypeId =>
               name <~ r_sym; gid <~ r_typeid; r_ret (<[name := gid]> b)) ∅;
  r_ret (<[mod_hash := by_name]> m).

Definition read_layout (m : gmap Gid.TypeId TypeDefinition) : reader (gmap Gid.TypeId TypeDefinition) :=
  def <~ read_type_definition; r_ret (<[td_id def := def]> m).

Definition read_fn (m : gmap Symbol FnSig) : reader (gmap Symbol FnSig) :=
  name <~ r_sym; gid <~ r_typeid; sig <~ read_sig_record gid; r_ret (<[name := sig]> m).

Definition read_method (m : gmap (Gid.TypeId * Symbol) FnSig) : reader (gmap (Gid.TypeId * Symbol) FnSig) :=
  recv <~ r_typeid; name <~ r_sym; gid <~ r_typeid; sig <~ read_sig_record gid; r_ret (<[(recv, name) := sig]> m).

Definition read_body (m : gmap Gid.TypeId FnBody) : reader (gmap Gid.TypeId FnBody) :=
  b <~ read_fn_body; r_ret (<[b.1 := b.2]> m).

Definition read_field : reader (Symbol * Ty) := fname <~ r_sym; fty <~ read_type; r_ret (fname, fty).

Definition read_struct (m : gmap Gid.TypeId StructFields) : reader (gmap Gid.TypeId StructFields) :=
  gid <~ r_typeid;
  n_generics <~ r_u64; generics <~ for_n n_generics (push r_sym) [];
  n_fields <~ r_u64; fields <~ for_n n_fields (push read_field) [];
  r_ret (<[gid := mkStructFields generics fields]> m).

(** One numbered variant into its slot. *)
Definition read_variant (slots : list (option Symbol)) : reader (list (option Symbol)) :=
  v <~ r_sym; i <~ r_u64;
  match (if i <? Z.of_nat (length slots) then slots !! Z.to_nat i else None) with
  | None => r_err (VariantOutOfRange i)
  | Some (Some _) => r_err (VariantTwice i)
  | Some None => r_ret (<[Z.to_nat i := Some v]> slots)
  end.

Definition read_enum (m : gmap Symbol (list Symbol)) : reader (gmap Symbol (list Symbol)) :=
  name <~ r_sym; n_variants <~ r_u64; _ <~ with_capacity VecVariant n_variants;
  slots <~ for_n n_variants read_variant (replicate (Z.to_nat n_variants) None);
  match mapM id slots with
  | Some variants => r_ret (<[name := variants]> m)
  | None => r_panic NotFilled
  end.

(** A counted table. *)
Definition read_table {K V} `{Countable K} (step : gmap K V -> reader (gmap K V)) : reader (gmap K V) :=
  n <~ r_u64; for_n n step ∅.

Definition read_interface : reader ImmutableGlobalRegistry :=
  magic <~ r_take 4;
  if decide (magic <> VXLIB_MAGIC) then r_err BadMagic
  else
    stamp <~ r_u64;
    if negb (stamp =? format_stamp) then r_err StaleFormat
    else
      module_indices <~ read_table read_module;
      layouts <~ read_table read_layout;
      fn_sigs <~ read_table read_fn;
      methods <~ read_table read_method;
      bodies <~ read_table read_body;
      structs <~ read_table read_struct;
      enum_variants <~ read_table read_enum;
      match LayoutNameIndex_build layouts with
      | Panics => r_panic IndexMissing
      | Returns index =>
          r_ret (mkRegistry (from_layouts layouts) layouts module_indices (fresh_table fn_sigs)
                   (fresh_table methods) bodies (fresh_table enum_variants) structs ∅ ∅ [] index)
      end.

(** Bytes after the interface are ignored. *)
Definition deserialize_registry_interface (bytes : list Z) : read_result ImmutableGlobalRegistry :=
  read_interface bytes.
End interface.
