(* ===== verification/CodecSound.v ===== *)
(** * Round trips of the interface codec

    [Codes n rd bs a]: on inputs shorter than [n] the reader [rd] reads the bytes
    [bs] as [a], whatever follows them, and reports the end of the buffer on every
    proper prefix of them.  The predicate composes along the reader's binds and
    loops, so each encoding is proved by following its reader. *)

From stdpp Require Import base list strings gmap sorting.
From Stdlib Require Import ZArith Lia Ascii.
From S2P Require Import Prelude Gid Syntax Types Layout Bytecode Registry RegistryMerge RegistryIndex Codec.
Open Scope Z_scope.
Open Scope vx_scope.

(** ** Composition *)

Definition Codes {A} (n : nat) (rd : reader A) (bs : list Z) (a : A) : Prop :=
  (forall rest, (length (bs ++ rest) < n)%nat -> rd (bs ++ rest) = Read a rest) /\
  (forall p q, p ++ q = bs -> q <> [] -> (length p < n)%nat -> rd p = ReadErr UnexpectedEnd).

Create HintDb vx_codes.

Lemma Codes_mono {A} n m (rd : reader A) bs a : Codes n rd bs a -> (m <= n)%nat -> Codes m rd bs a.
Proof. intros [H1 H2] Hm. split; intros; [apply H1|eapply H2]; eauto; lia. Qed.

Lemma Codes_zero {A} (rd : reader A) bs a : Codes 0 rd bs a.
Proof. split; intros; lia. Qed.

Lemma Codes_ret {A} n (a : A) : Codes n (r_ret a) [] a.
Proof. split; [done|]. by intros p q [-> ->]%app_nil ?. Qed.

(** The second reader sees a shorter input when the first one read something. *)
Lemma Codes_bind_lt {A B} n k (m : reader A) (f : A -> reader B) b1 b2 a b :
  Codes n m b1 a -> Codes k (f a) b2 b -> (n <= k + length b1)%nat -> Codes n (r_bind m f) (b1 ++ b2) b.
Proof.
  intros [H1 T1] [H2 T2] Hk. unfold r_bind. split.
  - intros rest Hlen. rewrite <- app_assoc in *. rewrite H1 by done. apply H2.
    rewrite !length_app in *. lia.
  - intros p q Hpq Hq Hlen. apply app_eq_inv in Hpq as [(l & -> & Hl)|(l & Hl & Hb)].
    + rewrite H1 by (rewrite length_app in *; lia). apply (T2 l q); [done|done|].
      rewrite length_app in Hlen. lia.
    + destruct (decide (l = [])) as [->|Hne].
      * rewrite app_nil_r in Hl. subst b1. simpl in Hb. subst q.
        pose proof (H1 []) as Hr. rewrite app_nil_r in Hr. rewrite Hr by done.
        apply (T2 [] b2); [done|done|simpl; lia].
      * by rewrite (T1 p l).
Qed.

Lemma Codes_bind {A B} n (m : reader A) (f : A -> reader B) b1 b2 a b :
  Codes n m b1 a -> Codes n (f a) b2 b -> Codes n (r_bind m f) (b1 ++ b2) b.
Proof. intros H1 H2. apply (Codes_bind_lt n n) with a; [done|done|lia]. Qed.

(** A reader that consumes nothing. *)
Lemma Codes_skip {A B} n (m : reader A) (f : A -> reader B) bs a b :
  Codes n m [] a -> Codes n (f a) bs b -> Codes n (r_bind m f) bs b.
Proof. intros H1 H2. apply (Codes_bind n m f [] bs a b H1 H2). Qed.

Lemma Codes_last {A B} n (m : reader A) (g : A -> B) bs a b :
  Codes n m bs a -> g a = b -> Codes n (r_bind m (fun x => r_ret (g x))) bs b.
Proof. intros H <-. rewrite <- (app_nil_r bs). apply Codes_bind with a; [done|apply Codes_ret]. Qed.

Lemma Ok_inj {A E} (a b : A) : @Ok A E a = Ok b -> a = b.
Proof. by intros [= ->]. Qed.

Lemma Codes_tail {A B} n (m : reader A) (f : A -> reader B) bs a b :
  Codes n m bs a -> Codes n (f a) [] b -> Codes n (r_bind m f) bs b.
Proof. intros H1 H2. rewrite <- (app_nil_r bs). by apply Codes_bind with a. Qed.

(** ** Primitive values *)

Lemma Codes_take n (b : list Z) k : k = Z.of_nat (length b) -> Codes n (r_take k) b b.
Proof.
  intros ->. unfold r_take. split.
  - intros rest _. rewrite length_app, Nat2Z.id. rewrite (proj2 (Z.leb_le _ _)) by lia. by rewrite take_app_length, drop_app_length.
  - intros p q <- Hq _. rewrite length_app. destruct q; [done|]. simpl.
    by rewrite (proj2 (Z.leb_gt _ _)) by lia.
Qed.

Lemma Codes_u8 n v : Codes n r_u8 (w_u8 v) v.
Proof. unfold r_u8. eapply Codes_last; [by apply Codes_take|done]. Qed.

Lemma Codes_u64 n v : 0 <= v <= umax 64 -> Codes n r_u64 (w_u64 v) v.
Proof.
  intros Hv. unfold r_u64, w_u64. eapply Codes_last; [apply Codes_take; by rewrite le_bytes_length|].
  by apply le_value_bytes.
Qed.

Definition len_ok {A} (l : list A) : Prop := Z.of_nat (length l) <= umax 64.

Lemma Codes_len {A} n (l : list A) : len_ok l -> Codes n r_u64 (w_u64 (Z.of_nat (length l))) (Z.of_nat (length l)).
Proof. intros. apply Codes_u64. unfold len_ok in *. lia. Qed.

(** The strings of Rust are UTF-8, and no longer than [isize::MAX]. *)
Definition sym_ok (s : Symbol) : Prop := utf8_ok (sym_bytes s) = true /\ len_ok (sym_bytes s).

Lemma bytes_sym_bytes s : bytes_sym (sym_bytes s) = s.
Proof. induction s as [|c s IH]; simpl; [done|]. by rewrite Nat2Z.id, ascii_nat_embedding, IH. Qed.

Lemma sym_bytes_inj s t : sym_bytes s = sym_bytes t -> s = t.
Proof. intros H. by rewrite <- (bytes_sym_bytes s), H, bytes_sym_bytes. Qed.

Lemma Codes_bytes n b : len_ok b -> Codes n r_bytes (w_bytes b) b.
Proof. intros H. unfold r_bytes, w_bytes. eapply Codes_bind; [by apply Codes_len|by apply Codes_take]. Qed.

Lemma Codes_sym n s : sym_ok s -> Codes n r_sym (w_sym s) s.
Proof.
  intros [Hu Hl]. unfold r_sym, w_sym.
  eapply Codes_tail; [by apply Codes_bytes|]. rewrite Hu, bytes_sym_bytes. apply Codes_ret.
Qed.

Lemma Codes_typeid n t : Gid.wf t -> Codes n r_typeid (w_typeid t) t.
Proof.
  intros (H0 & H1 & H2 & H3). unfold r_typeid, w_typeid, words. cbn [map mjoin list_join].
  do 3 (eapply Codes_bind; [by apply Codes_u64|]). rewrite app_nil_r.
  eapply Codes_last; [by apply Codes_u64|by destruct t].
Qed.

Lemma Codes_capacity `{ElemSizes} n k c : c * size_of k <= imax 64 -> Codes n (with_capacity k c) [] ().
Proof. intros Hc. unfold with_capacity. rewrite (proj2 (Z.leb_le _ _)) by done. apply Codes_ret. Qed.

Lemma Codes_bool n b : Codes n r_bool (w_bool b) b.
Proof. unfold r_bool, w_bool. eapply Codes_last; [apply Codes_u8|]. by destruct b. Qed.

#[export] Hint Resolve Codes_ret Codes_u8 Codes_u64 Codes_len Codes_sym Codes_typeid Codes_capacity Codes_bool : vx_codes.

(** Follow a reader along the bytes of its writer. *)
Ltac codes_step :=
  match goal with
  | |- Codes _ (r_ret _) [] _ => apply Codes_ret
  | |- Codes _ (r_bind (with_capacity _ _) _) _ _ =>
      eapply Codes_skip; [solve [eauto with vx_codes]|cbv beta]
  | |- Codes _ (r_bind _ _) (_ ++ _) _ => eapply Codes_bind; [solve [eauto with vx_codes]|cbv beta iota]
  | |- Codes _ (r_bind _ (fun x => r_ret _)) _ _ =>
      eapply Codes_last; [solve [eauto with vx_codes]|cbv beta; rewrite ?Nat2Z.id; try done]
  | |- Codes _ (r_bind _ _) _ _ =>
      eapply Codes_tail; [solve [eauto with vx_codes]|cbv beta iota]
  end.
Ltac codes := repeat codes_step.

(** ** Loops *)

Section loops.
Context {S X : Type} (step : S -> reader S) (enc : X -> list Z) (put : S -> X -> S).

(** A loop over the encodings of [xs], where pass [i] may use what the passes
    before it did to the state. *)
Lemma Codes_for_fuel n fuel xs s :
  (forall pre x post, xs = pre ++ x :: post ->
     enc x <> [] /\ Codes n (step (foldl put s pre)) (enc x) (put (foldl put s pre) x)) ->
  (n <= fuel)%nat ->
  Codes n (for_fuel fuel (Z.of_nat (length xs)) step s) (mjoin (map enc xs)) (foldl put s xs).
Proof.
  revert n fuel s. induction xs as [|x xs IH]; intros n fuel s Hx Hn.
  { destruct fuel; cbn [for_fuel]; apply Codes_ret. }
  destruct n as [|n]; [apply Codes_zero|]. destruct fuel as [|fuel]; [lia|].
  destruct (Hx [] x xs eq_refl) as [Hne Hc].
  assert (forall bs, for_fuel (Datatypes.S fuel) (Z.of_nat (length (x :: xs))) step s bs =
    r_bind (step s) (for_fuel fuel (Z.of_nat (length xs)) step) bs) as Hunf.
  { intros bs. cbn [for_fuel length]. rewrite (proj2 (Z.leb_gt _ _)) by lia. do 2 f_equal. lia. }
  assert (Codes (Datatypes.S n) (r_bind (step s) (for_fuel fuel (Z.of_nat (length xs)) step))
    (enc x ++ mjoin (map enc xs)) (foldl put (put s x) xs)) as [H1 H2].
  { apply (Codes_bind_lt _ n) with (put s x); [apply Hc| |destruct (enc x); [done|simpl; lia]].
    apply IH; [|lia]. intros pre y post ->. destruct (Hx (x :: pre) y post eq_refl) as [? ?].
    split; [done|]. eapply Codes_mono; [done|lia]. }
  split; intros; rewrite Hunf; eauto.
Qed.

Lemma Codes_for n xs s :
  (forall pre x post, xs = pre ++ x :: post ->
     enc x <> [] /\ Codes n (step (foldl put s pre)) (enc x) (put (foldl put s pre) x)) ->
  Codes n (for_n (Z.of_nat (length xs)) step s) (mjoin (map enc xs)) (foldl put s xs).
Proof.
  intros Hx. assert (forall f, (f <= n)%nat ->
    Codes f (for_fuel f (Z.of_nat (length xs)) step s) (mjoin (map enc xs)) (foldl put s xs)) as Hf.
  { intros f Hf. apply Codes_for_fuel; [|done]. intros pre x post E. destruct (Hx pre x post E). split; [done|].
    by eapply Codes_mono. }
  unfold for_n. split.
  - intros rest Hl. apply (Hf (Datatypes.S (length (mjoin (map enc xs) ++ rest)))); lia.
  - intros p q Hp Hq Hl. apply (Hf (Datatypes.S (length p)) ltac:(lia)) with q; [done|done|lia].
Qed.

(** The passes do not depend on each other. *)
Lemma Codes_for_each n xs s :
  (forall x s, x ∈ xs -> enc x <> [] /\ Codes n (step s) (enc x) (put s x)) ->
  Codes n (for_n (Z.of_nat (length xs)) step s) (mjoin (map enc xs)) (foldl put s xs).
Proof. intros Hx. apply Codes_for. intros pre x post ->. apply Hx. set_solver. Qed.
End loops.

Lemma foldl_push {A B} (f : A -> B) xs acc : foldl (fun acc a => acc ++ [f a]) acc xs = acc ++ map f xs.
Proof.
  revert acc. induction xs as [|x xs IH]; intros acc; simpl; [by rewrite app_nil_r|].
  by rewrite IH, <- app_assoc.
Qed.

(** A loop that pushes what it reads. *)
Lemma Codes_push {A B} n (rd : reader B) (enc : A -> list Z) (f : A -> B) xs :
  (forall x, x ∈ xs -> enc x <> [] /\ Codes n rd (enc x) (f x)) ->
  Codes n (for_n (Z.of_nat (length xs)) (push rd) []) (mjoin (map enc xs)) (map f xs).
Proof.
  intros Hx. rewrite <- (app_nil_l (map f xs)), <- foldl_push.
  apply Codes_for_each. intros x s Hin. destruct (Hx x Hin) as [Hne Hc]. split; [done|].
  unfold push. by eapply Codes_last.
Qed.

(** ** Well-formed values

    What the Rust types guarantee: machine integers in range, UTF-8 strings, and
    vectors whose bytes fit in [isize]. *)

Definition elem_ok (e : ElementType) : Prop := match e with ElemGeneric s => sym_ok s | _ => True end.
Definition opt_id_ok (id : option Gid.TypeId) : Prop := match id with Some t => Gid.wf t | None => True end.
Definition space_ok (m : MemorySpace) : Prop := match m with CustomSpace s => sym_ok s | _ => True end.
Definition topology_ok (t : Topology) : Prop := match t with CustomTopology s => sym_ok s | _ => True end.
Definition placement_ok (o : option Placement) : Prop :=
  match o with
  | Some p => topology_ok (pl_topology p) /\ space_ok (pl_space p) /\
      0 <= default 0 (pl_alignment p) <= umax 64
  | None => True
  end.
Definition dim_ok (d : Dim) : Prop := match Dim_literal d with Some v => sym_ok v | None => True end.
Definition usize_ok (n : nat) : Prop := Z.of_nat n <= umax 64.

Definition fits `{ElemSizes} {A} (k : VecOf) (l : list A) : Prop := Z.of_nat (length l) * size_of k <= imax 64.

Lemma fits_len `{ElemSizes} {A} k (l : list A) : fits k l -> len_ok l.
Proof.
  unfold fits, len_ok. pose proof (size_of_pos k). intros Hf.
  assert (imax 64 <= umax 64) by done. nia.
Qed.

Fixpoint ty_ok `{ElemSizes} (t : Ty) : Prop :=
  match t with
  | Tensor e d p => elem_ok e /\ fits VecDim d /\ Forall dim_ok d /\ placement_ok p
  | Ref i m => ty_ok i /\ space_ok m
  | BorrowTy i m _ r => ty_ok i /\ match m with Some m => space_ok m | None => True end /\ usize_ok r
  | Pointer i p _ => ty_ok i /\ placement_ok p
  | Scalar e => elem_ok e
  | Struct n id | Enum n id | Generic n id => sym_ok n /\ opt_id_ok id
  | Verified i => ty_ok i
  | Pinned i t => ty_ok i /\ topology_ok t
  | GenericInstance i l => ty_ok i /\ fits VecType l /\ foldr (fun t P => ty_ok t /\ P) True l
  | Simd e n => elem_ok e /\ usize_ok n
  | Function_ l r _ | Closure l r => fits VecType l /\ foldr (fun t P => ty_ok t /\ P) True l /\ ty_ok r
  | Matrix | Unknown | Const_ _ | Module_ _ _ => True
  end.

Lemma usize_range n : usize_ok n -> 0 <= Z.of_nat n <= umax 64.
Proof. unfold usize_ok. lia. Qed.
#[export] Hint Resolve usize_range fits_len : vx_codes.

(** ** What the format keeps

    A device index is respelled, the half of a placement that was written is
    forgotten and an alignment of zero is none; a static dimension keeps its
    text. *)

Definition canon_topology (t : Topology) : Topology :=
  match t with
  | GPU (Number v _ _) => match parse_int 64 v with Some i => Topology_gpu i | None => t end
  | _ => t
  end.

Definition canon_placement (o : option Placement) : option Placement :=
  match o with
  | Some p => Some (mkPlacement (canon_topology (pl_topology p)) (pl_space p) StatedSpace
      (if default 0 (pl_alignment p) =? 0 then None else Some (default 0 (pl_alignment p))))
  | None => None
  end.

Definition canon_dim (d : Dim) : Dim :=
  match Dim_literal d with Some v => Static (Number v (Some I32) Span_default) | None => d end.

Fixpoint canon_ty (t : Ty) : Ty :=
  match t with
  | Tensor e d p => Tensor e (map canon_dim d) (canon_placement p)
  | Ref i m => Ref (canon_ty i) m
  | BorrowTy i m u r => BorrowTy (canon_ty i) m u r
  | Pointer i p u => Pointer (canon_ty i) (canon_placement p) u
  | Verified i => Verified (canon_ty i)
  | Pinned i t => Pinned (canon_ty i) (canon_topology t)
  | GenericInstance i l => GenericInstance (canon_ty i) (map canon_ty l)
  | Function_ l r u => Function_ (map canon_ty l) (canon_ty r) u
  | Closure l r => Closure (map canon_ty l) (canon_ty r)
  | t => t
  end.

(** ** Round trips of the parts *)

Lemma Codes_element_type n e : elem_ok e -> Codes n read_element_type (write_element_type e) e.
Proof. unfold read_element_type, write_element_type. destruct e; cbn [elem_ok]; intros; codes. Qed.
#[export] Hint Resolve Codes_element_type : vx_codes.

Lemma Codes_opt_typeid n o : opt_id_ok o -> Codes n read_opt_typeid (write_opt_typeid o) o.
Proof. unfold read_opt_typeid. destruct o; cbn [opt_id_ok write_opt_typeid]; intros; codes. Qed.

Lemma Codes_memory_space n m : space_ok m -> Codes n read_memory_space (write_memory_space m) m.
Proof. unfold read_memory_space. destruct m; cbn [space_ok write_memory_space]; intros; codes. Qed.
#[export] Hint Resolve Codes_opt_typeid Codes_memory_space : vx_codes.

Lemma Codes_opt_memory_space n o :
  match o with Some m => space_ok m | None => True end ->
  Codes n read_opt_memory_space (write_opt_memory_space o) o.
Proof. unfold read_opt_memory_space. destruct o; cbn [write_opt_memory_space]; intros; codes. Qed.
#[export] Hint Resolve Codes_opt_memory_space : vx_codes.

(** [as u64] and back. *)
Lemma wrap_u_range w z : 0 <= w -> 0 <= wrap_u w z <= umax w.
Proof. intros Hw. rewrite wrap_u_land by done. by apply land_ones_range. Qed.

Lemma wrap_i_u z : imin 64 <= z <= imax 64 -> wrap_i 64 (wrap_u 64 z) = z.
Proof.
  intros Hz. unfold wrap_i, wrap_u. rewrite Zplus_mod_idemp_l.
  rewrite Z.mod_small by (unfold imin, imax in Hz; change (2 ^ (64 - 1)) with 9223372036854775808 in *;
    change (2 ^ 64) with 18446744073709551616; lia). lia.
Qed.

Lemma parse_int_range w s z : parse_int w s = Some z -> imin w <= z <= imax w.
Proof. unfold parse_int. intros H. repeat case_match; try done; by apply checked_i_Some in H as [<- ?]. Qed.

Lemma Codes_gpu n i : imin 64 <= i <= imax 64 -> Codes n read_topology (w_u8 3 ++ w_u64 (wrap_u 64 i)) (Topology_gpu i).
Proof.
  intros Hi. unfold read_topology. codes_step. eapply Codes_last; [by apply Codes_u64, wrap_u_range|].
  by rewrite wrap_i_u.
Qed.

Lemma Codes_topology n t bs : topology_ok t -> write_topology t = Ok bs -> Codes n read_topology bs (canon_topology t).
Proof.
  unfold write_topology. destruct t as [| | | | |e| | | | |]; cbn [topology_ok canon_topology]; intros Hok H;
    try (apply Ok_inj in H; subst bs; unfold read_topology; by codes); try discriminate H.
  destruct e; try done. apply result_bind_Ok in H as (i & Hi%ok_or_Ok & [= <-]). rewrite Hi.
  by apply Codes_gpu, (parse_int_range 64 value).
Qed.
#[export] Hint Resolve Codes_topology : vx_codes.

Lemma Codes_opt_placement n o bs :
  placement_ok o -> write_opt_placement o = Ok bs -> Codes n read_opt_placement bs (canon_placement o).
Proof.
  unfold read_opt_placement. destruct o as [p|]; cbn [placement_ok write_opt_placement canon_placement]; [|intros _ <-%Ok_inj; codes].
  intros (Ht & Hs & Ha) (b & Hb & <-%Ok_inj)%result_bind_Ok. codes.
Qed.
#[export] Hint Resolve Codes_opt_placement : vx_codes.

Lemma Codes_dim n d bs : dim_ok d -> write_dim d = Ok bs -> Codes n read_dim bs (canon_dim d).
Proof.
  unfold write_dim, canon_dim, dim_ok, read_dim. destruct d as [e|]; [|intros _ <-%Ok_inj; codes].
  intros Hd (v & Hv%ok_or_Ok & <-%Ok_inj)%result_bind_Ok. rewrite Hv in *. codes.
Qed.

(** A loop of fallible writes that succeeded is a loop of writes. *)
Lemma w_each_Ok {A} (write : A -> result (list Z) CodecError) l bs :
  w_each write l = Ok bs ->
  exists enc : A -> list Z, bs = mjoin (map enc l) /\ forall a, a ∈ l -> write a = Ok (enc a).
Proof.
  intros H. exists (fun a => match write a with Ok b => b | Err _ => [] end). revert bs H.
  induction l as [|a l IH]; simpl; intros bs H; [simplify_eq; split; [done|by intros ? ?%elem_of_nil]|].
  apply result_bind_Ok in H as (b & Hb & H). apply result_bind_Ok in H as (r & Hr & [= <-]).
  destruct (IH r Hr) as [-> Hall]. rewrite Hb. split; [done|].
  intros x [->|Hx]%elem_of_cons; [by rewrite Hb|auto].
Qed.

Lemma Codes_w_each {A B} n (write : A -> result (list Z) CodecError) (rd : reader B) (f : A -> B) l bs :
  w_each write l = Ok bs ->
  (forall a b, a ∈ l -> write a = Ok b -> b <> [] /\ Codes n rd b (f a)) ->
  Codes n (for_n (Z.of_nat (length l)) (push rd) []) bs (map f l).
Proof. intros (enc & -> & He)%w_each_Ok Hc. apply Codes_push. intros a Ha. by apply Hc; [|apply He]. Qed.

Lemma write_dim_cons d bs : write_dim d = Ok bs -> bs <> [].
Proof. unfold write_dim. destruct d; [intros (? & _ & <-%Ok_inj)%result_bind_Ok|intros [= <-]]; done. Qed.

Lemma write_type_cons t bs : write_type t = Ok bs -> bs <> [].
Proof.
  destruct t; simpl; try discriminate; intros H;
    repeat match goal with
    | H : result_bind _ _ = Ok _ |- _ => apply result_bind_Ok in H as (? & ? & ?)
    end; by simplify_eq.
Qed.

(** ** Types *)

Section types.
Context `{ElemSizes}.

(** The counted list of nested types that three constructors share. *)
Lemma Codes_types n l bs :
  fits VecType l -> Forall ty_ok l ->
  (forall t b, ty_ok t -> write_type t = Ok b -> Codes n (read_type_fuel n) b (canon_ty t)) ->
  w_each write_type l = Ok bs ->
  Codes n (k <~ r_u64; _ <~ with_capacity VecType k; for_n k (push (read_type_fuel n)) [])
    (w_u64 (Z.of_nat (length l)) ++ bs) (map canon_ty l).
Proof.
  intros Hf Hok Hc Hw. rewrite Forall_forall in Hok. codes. eapply Codes_w_each; [done|].
  intros t b Ht Hb. split; [by eapply write_type_cons|auto].
Qed.

(** A type's tag is read first, so the types inside it are read with less fuel. *)
Lemma Codes_tag n k t (f : Z -> reader Ty) bs ty :
  Codes n (f t) bs ty -> k = S n -> Codes k (r_bind r_u8 f) (w_u8 t ++ bs) ty.
Proof. intros Hf ->. eapply (Codes_bind_lt (S n) n); [apply Codes_u8|done|simpl; lia]. Qed.

Lemma Codes_type_fuel n t bs :
  ty_ok t -> write_type t = Ok bs -> Codes n (read_type_fuel n) bs (canon_ty t).
Proof.
  revert t bs. induction n as [|n IH]; intros t bs; [intros; apply Codes_zero|].
  destruct t as [e d p| |i m|i m u r|i p u|e|nm id|nm id|i|i tp|nm id|i l|nm l|e k|l r u|l r|e|];
    cbn [write_type ty_ok canon_ty]; try discriminate; intros Hok Hw;
    repeat match goal with
    | H : result_bind _ _ = Ok _ |- _ => apply result_bind_Ok in H as (? & ? & H)
    end; apply Ok_inj in Hw; subst bs; cbn [read_type_fuel];
    try (rewrite <- (app_nil_r (w_u8 _)));
    (eapply Codes_tag; [cbv beta iota|reflexivity]);
    rewrite ?foldr_and_Forall in Hok; destruct_and?; codes.
  - eapply Codes_last; [|done]. eapply Codes_w_each; [done|]. intros y b Hy Hb.
    split; [by eapply write_dim_cons|]. apply Codes_dim; [|done]. by apply (proj1 (Forall_forall dim_ok d)).
  - rename select (w_each _ _ = _) into Hl. eapply Codes_last; [by apply (Codes_types n l)|done].
  - rename select (w_each _ _ = _) into Hl. rewrite app_assoc.
    eapply Codes_bind; [by apply (Codes_types n l)|]. cbv beta. codes.
  - rename select (w_each _ _ = _) into Hl. rewrite app_assoc.
    eapply Codes_bind; [by apply (Codes_types n l)|]. cbv beta. codes.
Qed.

Lemma Codes_type n t bs : ty_ok t -> write_type t = Ok bs -> Codes n read_type bs (canon_ty t).
Proof.
  intros Hok Hw. unfold read_type. split.
  - intros rest _. apply (Codes_type_fuel _ t bs Hok Hw). lia.
  - intros p q Hp Hq _. apply (proj2 (Codes_type_fuel _ t bs Hok Hw) p q Hp Hq). lia.
Qed.
End types.
