(* ===== verification/CodecInterface.v ===== *)
(** * The interface round trip

    Reading back a serialized registry gives the part of it that an interface
    carries ([portable]); a truncated artifact is refused; the bytes do not
    depend on the order in which hash maps are visited. *)

From stdpp Require Import base list strings gmap sorting.
From Stdlib Require Import ZArith Lia Ascii.
From S2P Require Import Prelude Gid Syntax Types Layout Bytecode Registry RegistryMerge RegistryIndex Codec CodecSound.
Open Scope Z_scope.
Open Scope vx_scope.

Section records.
Context `{ElemSizes}.

(** ** Well-formed entries *)

Definition u64_ok (z : Z) : Prop := 0 <= z <= umax 64.

Definition fty_ok (t : FieldTy) : Prop :=
  match t with
  | FScalar e => elem_ok e
  | FNominal id => Gid.wf id
  | FOpaque => True
  | FTensor e n | FVector e n => elem_ok e /\ usize_ok n
  end.

Definition field_layout_ok (f : FieldLayout) : Prop :=
  sym_ok (fl_name f) /\ u64_ok (fl_offset f) /\ u64_ok (fl_size f) /\ fty_ok (fl_ty f).

Definition def_ok (d : TypeDefinition) : Prop :=
  Gid.wf (td_id d) /\ sym_ok (td_name d) /\ u64_ok (td_size_bytes d) /\ u64_ok (td_align_bytes d) /\
  fits VecField (td_fields d) /\ Forall field_layout_ok (td_fields d) /\
  fits VecTypeId (td_by_value_dependencies d) /\ Forall Gid.wf (td_by_value_dependencies d).

(** An instruction that the reader's table of opcodes knows. *)
Definition readable (i : HirInstruction) : Prop := hi_opcode i ∉ unreadable.

Definition body_ok (b : FnBody) : Prop :=
  sym_ok (fb_name b) /\ fits VecType (fb_params b) /\ Forall ty_ok (fb_params b) /\ ty_ok (fb_ret_ty b) /\
  fits VecInstruction (fb_hir b) /\ Forall hir_ok (fb_hir b) /\
  fits VecTypeId (fb_types b) /\ Forall Gid.wf (fb_types b).

Definition length_ok (l : option Length) : Prop :=
  match l with
  | Some (LenParam i) => u64_ok i
  | Some (LenConstant c) => imin 64 <= c <= imax 64
  | _ => True
  end.

Definition fnsig_ok (s : FnSig) : Prop :=
  Gid.wf (fs_gid s) /\ len_ok (fs_params s) /\ Forall ty_ok (fs_params s) /\ ty_ok (fs_ret_ty s) /\
  0 <= fs_ret_prov s <= umax 8 /\ length_ok (fs_ret_valid s).

Definition struct_ok (s : StructFields) : Prop :=
  len_ok (sf_generics s) /\ Forall sym_ok (sf_generics s) /\ len_ok (sf_fields s) /\
  Forall (fun f => sym_ok f.1 /\ ty_ok f.2) (sf_fields s).

(** ** What the format keeps of an entry *)

Definition canon_length (l : option Length) : option Length :=
  match l with Some LenOther => None | l => l end.

Definition canon_sig (s : FnSig) : FnSig :=
  mkFnSig (fs_gid s) (map canon_ty (fs_params s)) (canon_ty (fs_ret_ty s)) (fs_ret_prov s) (fs_is_unsafe s)
    (canon_length (fs_ret_valid s)).

Definition canon_body (b : FnBody) : FnBody :=
  mkFnBody (fb_name b) (map canon_ty (fb_params b)) (canon_ty (fb_ret_ty b)) (fb_hir b) (fb_types b).

Definition canon_struct (s : StructFields) : StructFields :=
  mkStructFields (sf_generics s) (map (fun f => (f.1, canon_ty f.2)) (sf_fields s)).

(** ** Round trips of entries *)

#[local] Hint Resolve Codes_type : vx_codes.

Lemma w_u64_cons v bs : w_u64 v ++ bs <> [].
Proof. done. Qed.

Lemma w_sym_cons s bs : w_sym s ++ bs <> [].
Proof. done. Qed.

Lemma w_typeid_cons t bs : w_typeid t ++ bs <> [].
Proof. done. Qed.

Lemma w_typeid_ne t : w_typeid t <> [].
Proof. done. Qed.

Lemma Codes_field_ty n t : fty_ok t -> Codes n read_field_ty (write_field_ty t) t.
Proof. unfold read_field_ty. destruct t; cbn [fty_ok write_field_ty]; intros; destruct_and?; codes. Qed.
#[local] Hint Resolve Codes_field_ty : vx_codes.

Lemma Codes_field_layout n f : field_layout_ok f -> Codes n read_field_layout (write_field_layout f) f.
Proof.
  unfold read_field_layout, write_field_layout, field_layout_ok, u64_ok. intros; destruct_and?. codes. by destruct f.
Qed.

Lemma Codes_typeids n l :
  Forall Gid.wf l -> Codes n (for_n (Z.of_nat (length l)) (push r_typeid) []) (mjoin (map w_typeid l)) l.
Proof.
  intros Hl. rewrite Forall_forall in Hl. pose proof (Codes_push n r_typeid w_typeid (fun t => t) l) as Hc.
  rewrite map_id in Hc. apply Hc. intros t Ht. split; [apply w_typeid_ne|]. by apply Codes_typeid, Hl.
Qed.

Lemma Codes_type_definition n d : def_ok d -> Codes n read_type_definition (write_type_definition d) d.
Proof.
  unfold read_type_definition, write_type_definition, def_ok, u64_ok. intros; destruct_and?.
  do 5 codes_step. codes_step. eapply Codes_bind.
  { pose proof (Codes_push n read_field_layout write_field_layout (fun f => f) (td_fields d)) as Hc.
    rewrite map_id in Hc. apply Hc. intros f Hf. split; [apply w_sym_cons|]. apply Codes_field_layout.
    by apply (proj1 (Forall_forall field_layout_ok (td_fields d))). }
  codes. eapply Codes_last; [by apply Codes_typeids|]. by destruct d.
Qed.

Lemma Codes_hir n i : hir_ok i -> readable i -> Codes n read_hir_instruction (write_hir_instruction i) i.
Proof.
  intros (H1 & H2 & H3 & H4) Hr. unfold read_hir_instruction, write_hir_instruction.
  assert (umax 32 <= umax 64) by done. pose proof (opcode_range (hi_opcode i)) as Ho.
  eapply Codes_bind; [apply Codes_u64; lia|]. cbv beta.
  rewrite (proj2 (checked_u_Some 32 (Opcode_as_u32 (hi_opcode i)) _) (conj eq_refl Ho)). cbn [mbind option_bind].
  rewrite from_u32_as_u32, decide_False by done.
  do 3 (eapply Codes_bind; [apply Codes_u64; lia|]). eapply Codes_last; [by apply Codes_u64|].
  destruct i as [op o1 o2 ti im]. cbn in H1, H2, H3, H4 |- *. by rewrite !Gid.wrap_u_small by done.
Qed.

Lemma Codes_read_types n l bs :
  len_ok l -> Forall ty_ok l -> w_each write_type l = Ok bs ->
  Codes n (for_n (Z.of_nat (length l)) (push read_type) []) bs (map canon_ty l).
Proof.
  intros Hl Hok Hw. rewrite Forall_forall in Hok. eapply Codes_w_each; [done|].
  intros t b Ht Hb. split; [by eapply write_type_cons|auto using Codes_type].
Qed.

Lemma Codes_fn_body n gid b bs :
  Gid.wf gid -> body_ok b -> Forall readable (fb_hir b) -> write_fn_body gid b = Ok bs ->
  Codes n read_fn_body bs (gid, canon_body b).
Proof.
  unfold write_fn_body, body_ok, read_fn_body. intros Hg Hok Hr Hw. destruct_and?.
  destruct (existsb _ _); [done|]. apply result_bind_Ok in Hw as (sig & Hsig & Hw).
  apply result_bind_Ok in Hw as (ps & Hps & <-%Ok_inj).
  do 3 codes_step. codes_step. eapply Codes_bind; [apply Codes_read_types; eauto using fits_len|]. cbv beta.
  do 3 codes_step. eapply Codes_bind.
  { pose proof (Codes_push n read_hir_instruction write_hir_instruction (fun i => i) (fb_hir b)) as Hc.
    rewrite map_id in Hc. apply Hc. intros i Hi. split; [apply w_u64_cons|].
    apply Codes_hir; by eapply (proj1 (Forall_forall _ (fb_hir b))). }
  cbv beta. codes. eapply Codes_last; [by apply Codes_typeids|done].
Qed.

Lemma Codes_length n l : length_ok l -> Codes n read_length (write_length l) (canon_length l).
Proof.
  unfold read_length, u64_ok. destruct l as [[i|c|]|]; cbn [length_ok write_length canon_length]; intros; codes.
  eapply Codes_last; [by apply Codes_u64, wrap_u_range|]. by rewrite wrap_i_u.
Qed.
#[local] Hint Resolve Codes_length : vx_codes.

Lemma Codes_sig n s bs :
  fnsig_ok s -> encode_sig_record s = Ok bs -> Codes n (read_sig_record (fs_gid s)) bs (canon_sig s).
Proof.
  unfold fnsig_ok, encode_sig_record, read_sig_record. intros Hok Hw. destruct_and?.
  apply result_bind_Ok in Hw as (ps & Hps & Hw). apply result_bind_Ok in Hw as (r & Hr & <-%Ok_inj).
  codes_step. eapply Codes_bind; [by apply Codes_read_types|]. cbv beta. codes.
Qed.
End records.

(** ** Tables *)

(** The entries that can be encoded, with their bytes, and the reasons for the
    others. *)
Definition encoded {A E} (encode : A -> result (list Z) E) (l : list A) : list (A * list Z) :=
  omap (fun a => match encode a with Ok b => Some (a, b) | Err _ => None end) l.
Definition skipped {A E} (encode : A -> result (list Z) E) (l : list A) : list E :=
  omap (fun a => match encode a with Ok _ => None | Err e => Some e end) l.

Lemma emit_table_spec {A} table (encode : A -> result (list Z) (string * SkipReason)) l :
  emit_table table encode l =
  (w_u64 (Z.of_nat (length (encoded encode l))) ++ mjoin (map snd (encoded encode l)),
   mkTableReport table (length (encoded encode l)) (skipped encode l)).
Proof.
  unfold emit_table.
  assert (forall sub n sk,
    foldl (fun '(sub, n, skipped) a =>
      match encode a with Ok rec => (sub ++ rec, S n, skipped) | Err skip => (sub, n, skipped ++ [skip]) end)
      (sub, n, sk) l =
    (sub ++ mjoin (map snd (encoded encode l)), (n + length (encoded encode l))%nat, sk ++ skipped encode l)) as Hl.
  { induction l as [|a l IH]; intros sub n sk; [cbn; by rewrite !app_nil_r, Nat.add_0_r|].
    cbn [foldl]. unfold encoded, skipped. cbn [omap list_omap]. destruct (encode a); rewrite IH.
    - cbn. rewrite <- app_assoc. do 2 f_equal. unfold encoded. lia.
    - cbn. by rewrite <- app_assoc. }
  by rewrite Hl.
Qed.

Lemma encoded_elem {A E} (encode : A -> result (list Z) E) l a b :
  (a, b) ∈ encoded encode l <-> a ∈ l /\ encode a = Ok b.
Proof.
  unfold encoded. rewrite list_elem_of_omap. split.
  - intros (x & Hx & He). destruct (encode x) eqn:E'; naive_solver.
  - intros [Ha He]. exists a. by rewrite He.
Qed.

Lemma encoded_skipped_length {A E} (encode : A -> result (list Z) E) l :
  (length (encoded encode l) + length (skipped encode l) = length l)%nat.
Proof.
  unfold encoded, skipped. induction l as [|a l IH]; [done|]. cbn. destruct (encode a); cbn in *; lia.
Qed.

(** Inserting entries one by one. *)
Lemma foldl_insert_list_to_map {K V X} `{Countable K} (f : X -> K * V) (xs : list X) (m : gmap K V) :
  NoDup (map f xs).*1 ->
  foldl (fun m x => <[(f x).1 := (f x).2]> m) m xs = list_to_map (map f xs) ∪ m.
Proof.
  revert m. induction xs as [|x xs IH]; intros m Hnd; cbn [foldl map]; [by rewrite list_to_map_nil, map_empty_union|].
  cbn in Hnd. apply NoDup_cons in Hnd as [Hx Hnd]. rewrite IH by done. destruct (f x) as [k v] eqn:E. simpl in *.
  rewrite <- insert_union_l. rewrite insert_union_r; [done|]. by apply not_elem_of_list_to_map_1.
Qed.

Definition is_ok {A E} (r : result A E) : bool := match r with Ok _ => true | Err _ => false end.

(** The entries that [keep] selects, each replaced by what the format keeps of
    it. *)
Definition kept {K V W} (keep : K -> V -> bool) (f : V -> W) (k : K) (v : V) : option W :=
  if keep k v then Some (f v) else None.

(** What a filtered table holds, whatever the order of its entries. *)
Lemma list_to_map_omap {K V W} `{Countable K} (g : K -> V -> option W) (m : gmap K V) (l : list (K * V)) :
  l ≡ₚ map_to_list m ->
  NoDup (omap (fun e : K * V => pair e.1 <$> g e.1 e.2) l).*1 /\
  list_to_map (omap (fun e : K * V => pair e.1 <$> g e.1 e.2) l) = map_imap g m.
Proof.
  intros Hl. assert (NoDup (omap (fun e : K * V => pair e.1 <$> g e.1 e.2) l).*1) as Hnd.
  { assert (NoDup l.*1) as Hn by (rewrite Hl; apply NoDup_fst_map_to_list). clear Hl.
    induction l as [|[j v] l IH]; [constructor|]. cbn in Hn. apply NoDup_cons in Hn as [Hj Hn]. cbn.
    destruct (g j v); cbn; [|auto]. constructor; [|auto].
    intros ([j' w'] & -> & ([i u] & Hin & Heq)%list_elem_of_omap)%list_elem_of_fmap. cbn in *.
    destruct (g i u); simplify_eq/=. apply Hj. exact (list_elem_of_fmap_2 fst _ _ Hin). }
  split; [done|]. apply map_eq. intros k. apply option_eq. intros w. rewrite map_lookup_imap.
  rewrite <- elem_of_list_to_map by done. rewrite list_elem_of_omap. setoid_rewrite Hl. split.
  - intros ([j v] & Hin%elem_of_map_to_list & Heq). cbn in Heq. destruct (g j v) eqn:E; simplify_eq/=. by rewrite Hin.
  - destruct (m !! k) as [v|] eqn:E; simpl; [|done]. intros Hg. exists (k, v).
    split; [by apply elem_of_map_to_list|]. cbn. by rewrite Hg.
Qed.

Section tables.
Context {K V W : Type} `{Countable K}.

Lemma encoded_kept {E} (encode : K * V -> result (list Z) E) keep (f : V -> W) l :
  (forall k v, (k, v) ∈ l -> is_ok (encode (k, v)) = keep k v) ->
  map (fun x => (x.1.1, f x.1.2)) (encoded encode l) = omap (fun e : K * V => pair e.1 <$> kept keep f e.1 e.2) l.
Proof.
  induction l as [|[k v] l IH]; intros Hk; [done|]. unfold encoded, kept in *. cbn [omap list_omap fst snd].
  rewrite <- Hk by apply list_elem_of_here. destruct (encode (k, v)); cbn; [f_equal|];
    apply IH; intros; apply Hk; by apply list_elem_of_further.
Qed.

(** A table of which some entries are skipped is read back as its encodable
    entries. *)
Lemma Codes_emit n (step : gmap K W -> reader (gmap K W)) table (encode : K * V -> result (list Z) (string * SkipReason))
    (keep : K -> V -> bool) (f : V -> W) (m : gmap K V) l :
  l ≡ₚ map_to_list m -> Z.of_nat (size m) <= umax 64 ->
  (forall k v, is_ok (encode (k, v)) = keep k v) ->
  (forall k v b, m !! k = Some v -> encode (k, v) = Ok b ->
     b <> [] /\ forall acc, Codes n (step acc) b (<[k := f v]> acc)) ->
  Codes n (read_table step) (emit_table table encode l).1 (map_imap (kept keep f) m).
Proof.
  intros Hl Hsz Hk He. rewrite emit_table_spec. cbn [fst]. unfold read_table.
  destruct (list_to_map_omap (kept keep f) m l Hl) as [Hnd Hmap].
  rewrite <- encoded_kept with (encode := encode) in Hnd, Hmap by auto.
  eapply Codes_bind; [apply Codes_len; unfold len_ok|].
  { pose proof (encoded_skipped_length encode l). apply Permutation_length in Hl. rewrite length_map_to_list in Hl. lia. }
  cbv beta. rewrite <- Hmap, <- (map_union_empty (list_to_map _)), <- foldl_insert_list_to_map by done.
  apply Codes_for_each. intros [[k v] b] acc [Hin Hb]%encoded_elem. cbn [fst snd].
  rewrite Hl in Hin. apply elem_of_map_to_list in Hin. destruct (He k v b Hin Hb). auto.
Qed.

(** A table with all its entries. *)
Lemma Codes_table {X} n (step : gmap K W -> reader (gmap K W)) (enc : X -> list Z) (f : X -> K * W) xs m :
  map f xs ≡ₚ map_to_list m -> Z.of_nat (size m) <= umax 64 ->
  (forall x, x ∈ xs -> enc x <> [] /\ forall acc, Codes n (step acc) (enc x) (<[(f x).1 := (f x).2]> acc)) ->
  Codes n (read_table step) (w_u64 (Z.of_nat (length xs)) ++ mjoin (map enc xs)) m.
Proof.
  intros Hl Hsz He. unfold read_table. assert (NoDup (map f xs).*1) as Hnd by (rewrite Hl; apply NoDup_fst_map_to_list).
  assert (foldl (fun m x => <[(f x).1 := (f x).2]> m) ∅ xs = m) as <-.
  { rewrite foldl_insert_list_to_map, map_union_empty by done.
    by rewrite (list_to_map_proper _ (map_to_list m)), list_to_map_to_list. }
  eapply Codes_bind; [apply Codes_len; unfold len_ok|].
  { apply Permutation_length in Hl. rewrite length_map, length_map_to_list in Hl. lia. }
  apply Codes_for_each. intros x acc Hx. destruct (He x Hx). auto.
Qed.
End tables.

(** ** Enums *)

Section enums.
Context `{ElemSizes}.

Definition put_variant (slots : list (option Symbol)) (x : Z * Symbol) : list (option Symbol) :=
  <[Z.to_nat x.1 := Some x.2]> slots.
Definition numbered (i : nat) (vs : list Symbol) : list (Z * Symbol) := imap (fun j v => (Z.of_nat (i + j), v)) vs.

Lemma numbered_cons i v vs : numbered i (v :: vs) = (Z.of_nat i, v) :: numbered (S i) vs.
Proof.
  unfold numbered. cbn [imap]. f_equal; [by rewrite Nat.add_0_r|]. apply imap_ext. intros j w _.
  unfold compose. by replace (i + S j)%nat with (S i + j)%nat by lia.
Qed.

Lemma encode_variants_numbered i vs :
  encode_variants (Z.of_nat i) vs = mjoin (map (fun x : Z * Symbol => w_sym x.2 ++ w_u64 x.1) (numbered i vs)).
Proof.
  revert i. induction vs as [|v vs IH]; intros i; [done|]. rewrite numbered_cons. cbn [encode_variants map].
  replace (Z.of_nat i + 1) with (Z.of_nat (S i)) by lia. rewrite IH. cbn. by rewrite <- app_assoc.
Qed.

(** After the first variants, their slots are filled. *)
Lemma put_variants done vs k :
  foldl put_variant (map Some done ++ replicate (length vs + k) None) (numbered (length done) vs) =
  map Some (done ++ vs) ++ replicate k None.
Proof.
  revert done. induction vs as [|v vs IH]; intros done; [by rewrite app_nil_r|].
  rewrite numbered_cons. cbn [foldl length Nat.add replicate]. unfold put_variant at 2. cbn [fst snd].
  rewrite Nat2Z.id, insert_app_r_alt, length_map, Nat.sub_diag by (rewrite length_map; lia). cbn [insert list_insert].
  change (Some v :: replicate (length vs + k) None) with ([Some v] ++ replicate (length vs + k) None).
  rewrite app_assoc. replace (map Some done ++ [Some v]) with (map Some (done ++ [v])) by by rewrite map_app.
  replace (S (length done)) with (length (done ++ [v])) by (rewrite length_app; simpl; lia).
  rewrite IH. by rewrite <- app_assoc.
Qed.

Lemma numbered_split i vs pre x post :
  numbered i vs = pre ++ x :: post ->
  exists vs1 v vs2, vs = vs1 ++ v :: vs2 /\ pre = numbered i vs1 /\ x = (Z.of_nat (i + length vs1), v).
Proof.
  revert i pre. induction vs as [|v vs IH]; intros i pre; [by destruct pre|].
  rewrite numbered_cons. destruct pre as [|p pre]; intros [= <- Hr].
  - exists [], v, vs. split_and!; [done|done|]. by rewrite Nat.add_0_r.
  - apply IH in Hr as (vs1 & w & vs2 & -> & -> & ->). exists (v :: vs1), w, vs2. rewrite numbered_cons.
    split_and!; [done|done|]. cbn. by rewrite Nat.add_succ_r.
Qed.

Lemma Codes_variants n vs :
  len_ok vs -> Forall sym_ok vs ->
  Codes n (for_n (Z.of_nat (length vs)) read_variant (replicate (length vs) None)) (encode_variants 0 vs) (map Some vs).
Proof.
  intros Hlen Hok. change 0 with (Z.of_nat 0). rewrite encode_variants_numbered.
  pose proof (put_variants [] vs 0) as Hp. cbn [map app length] in Hp. rewrite Nat.add_0_r, app_nil_r in Hp.
  rewrite <- Hp. replace (length vs) with (length (numbered 0 vs)) at 1 by apply length_imap.
  apply Codes_for. intros pre x post (vs1 & v & vs2 & -> & -> & ->)%numbered_split.
  split; [apply w_sym_cons|]. rewrite length_app. cbn [length].
  pose proof (put_variants [] vs1 (S (length vs2))) as Hq. cbn [map app length] in Hq. rewrite Hq.
  unfold read_variant. cbn [fst snd Nat.add].
  eapply Codes_bind; [apply Codes_sym; rewrite Forall_app, Forall_cons in Hok; tauto|].
  eapply Codes_tail; [apply Codes_u64; unfold len_ok in Hlen; rewrite length_app in Hlen; cbn [length] in Hlen; lia|].
  cbv beta. rewrite Nat2Z.id, length_app, length_map, length_replicate.
  rewrite (proj2 (Z.ltb_lt _ _)) by lia. rewrite lookup_app_r, length_map, Nat.sub_diag by (by rewrite length_map).
  cbn [replicate lookup list_lookup]. unfold put_variant. cbn [fst snd]. rewrite Nat2Z.id. apply Codes_ret.
Qed.

Definition enum_ok (vs : list Symbol) : Prop := fits VecVariant vs /\ Forall sym_ok vs.

Lemma mapM_id_Some {A} (l : list A) : mapM id (map Some l) = Some l.
Proof. induction l as [|a l IH]; [done|]. cbn in *. by rewrite IH. Qed.

Lemma Codes_enum n name vs (acc : gmap Symbol (list Symbol)) :
  sym_ok name -> enum_ok vs -> Codes n (read_enum acc) (encode_enum (name, vs)) (<[name := vs]> acc).
Proof.
  intros Hn [Hf Hv]. unfold read_enum, encode_enum. cbn [fst snd]. codes_step. codes_step. codes_step.
  rewrite Nat2Z.id. eapply Codes_tail; [apply Codes_variants; eauto using fits_len|].
  cbv beta. rewrite mapM_id_Some. apply Codes_ret.
Qed.
End enums.

(** ** Registries *)

Section registry.
Context `{HashOrder, ElemSizes}.
Implicit Types (reg : ImmutableGlobalRegistry).

Definition size_ok {K V} `{Countable K} (m : gmap K V) : Prop := Z.of_nat (size m) <= umax 64.

(** What Rust guarantees of a registry, and that each layout is stored under its
    own identity (which the freeze and the merge keep true). *)
Record reg_wf reg : Prop := {
  wf_modules : size_ok (rg_module_indices reg) /\
    map_Forall (fun h b => u64_ok h /\ size_ok b /\ map_Forall (fun n id => sym_ok n /\ Gid.wf id) b) (rg_module_indices reg);
  wf_layouts : size_ok (rg_layouts reg) /\ map_Forall (fun id d => td_id d = id /\ def_ok d) (rg_layouts reg);
  wf_fns : size_ok (mg_dst (rg_fn_sigs reg)) /\
    map_Forall (fun n s => sym_ok n /\ fnsig_ok s) (mg_dst (rg_fn_sigs reg));
  wf_methods : size_ok (mg_dst (rg_methods reg)) /\
    map_Forall (fun k s => Gid.wf k.1 /\ sym_ok k.2 /\ fnsig_ok s) (mg_dst (rg_methods reg));
  wf_bodies : size_ok (rg_bodies reg) /\ map_Forall (fun g b => Gid.wf g /\ body_ok b) (rg_bodies reg);
  wf_structs : size_ok (rg_structs reg) /\ map_Forall (fun g s => Gid.wf g /\ struct_ok s) (rg_structs reg);
  wf_enums : size_ok (mg_dst (rg_enum_variants reg)) /\
    map_Forall (fun n vs => sym_ok n /\ enum_ok vs) (mg_dst (rg_enum_variants reg));
}.

(** Every body that is exported has only opcodes the reader knows. *)
Definition bodies_readable reg : Prop :=
  map_Forall (fun g b => is_ok (write_fn_body g b) = true -> Forall readable (fb_hir b)) (rg_bodies reg).

Definition keep_sig {K} (_ : K) (s : FnSig) : bool := is_ok (encode_sig_record s).
Definition keep_body (g : Gid.TypeId) (b : FnBody) : bool := is_ok (write_fn_body g b).
Definition keep_struct reg (g : Gid.TypeId) (s : StructFields) : bool :=
  negb (bool_decide (g ∈ rg_structs_with_invariants reg)) && forallb (fun f => is_ok (write_type f.2)) (sf_fields s).

Definition name_index (L : gmap Gid.TypeId TypeDefinition) : LayoutNameIndex :=
  match LayoutNameIndex_build L with Returns ix => ix | Panics => mkLayoutNameIndex 0 ∅ end.

(** The part of a registry that an interface carries. *)
Definition portable reg : ImmutableGlobalRegistry :=
  mkRegistry (from_layouts (rg_layouts reg)) (rg_layouts reg) (rg_module_indices reg)
    (fresh_table (map_imap (kept keep_sig canon_sig) (mg_dst (rg_fn_sigs reg))))
    (fresh_table (map_imap (kept keep_sig canon_sig) (mg_dst (rg_methods reg))))
    (map_imap (kept keep_body canon_body) (rg_bodies reg))
    (fresh_table (mg_dst (rg_enum_variants reg)))
    (map_imap (kept (keep_struct reg) canon_struct) (rg_structs reg))
    ∅ ∅ [] (name_index (rg_layouts reg)).

Lemma sorted_perm {A} (key : A -> list Z) l : sort_by_key key l ≡ₚ l.
Proof. apply merge_sort_Permutation. Qed.

Lemma is_ok_bind {A B E} (r : result A E) (f : A -> B) : is_ok (result_bind r (fun a => Ok (f a))) = is_ok r.
Proof. by destruct r. Qed.

Lemma is_ok_skipping {A} name (r : result A CodecError) : is_ok (skipping name r) = is_ok r.
Proof. by destruct r. Qed.

Lemma skipping_Ok {A} name (r : result A CodecError) a : skipping name r = Ok a <-> r = Ok a.
Proof. destruct r; simpl; split; congruence. Qed.

Lemma Codes_modules n reg : reg_wf reg ->
  Codes n (read_table read_module)
    (w_u64 (Z.of_nat (length (sorted_modules reg))) ++ mjoin (map encode_module (sorted_modules reg)))
    (rg_module_indices reg).
Proof.
  intros [[Hsz Hm] _ _ _ _ _ _]. apply (Codes_table n read_module encode_module
    (fun e => (e.1, list_to_map e.2 : gmap Symbol Gid.TypeId))); [|done|].
  - unfold sorted_modules. rewrite map_map. cbn [fst snd].
    rewrite (map_ext _ (fun e => e)), map_id, sorted_perm, iter_perm; [done|]. intros [h b]. cbn. f_equal.
    rewrite (list_to_map_proper _ (map_to_list b)), list_to_map_to_list; [done|by rewrite sorted_perm; apply iter_NoDup|].
    by rewrite sorted_perm, iter_perm.
  - intros e ([h b] & -> & Hin)%list_elem_of_fmap. rewrite sorted_perm in Hin. apply iter_elem in Hin.
    destruct (Hm h b Hin) as (Hh & Hb & Hbn). cbn [fst snd]. split; [apply w_u64_cons|]. intros acc.
    unfold read_module, encode_module. cbn [fst snd].
    set (l := sort_by_key _ _). assert (l ≡ₚ map_to_list b) as Hl by (unfold l; by rewrite sorted_perm, iter_perm).
    codes_step. eapply (Codes_bind n _ _ (w_u64 _) (mjoin _)); [apply Codes_len; unfold len_ok|].
    { apply Permutation_length in Hl. rewrite length_map_to_list in Hl. unfold size_ok in Hb. lia. }
    cbv beta. eapply Codes_last; [|done].
    rewrite <- (map_id l) at 3. rewrite <- (map_union_empty (list_to_map (map _ l))), <- foldl_insert_list_to_map
      by (rewrite map_id, Hl; apply NoDup_fst_map_to_list).
    apply Codes_for_each. intros [nm id] s Hx. rewrite Hl in Hx. apply elem_of_map_to_list in Hx.
    destruct (Hbn nm id Hx). cbn [fst snd]. split; [apply w_sym_cons|]. codes.
Qed.

Lemma Codes_layouts n reg : reg_wf reg ->
  Codes n (read_table read_layout)
    (w_u64 (Z.of_nat (length (sorted_layouts reg))) ++ mjoin (map write_type_definition (sorted_layouts reg)))
    (rg_layouts reg).
Proof.
  intros Hwf. destruct (wf_layouts _ Hwf) as [Hsz Hl].
  assert (forall d, d ∈ sorted_layouts reg -> rg_layouts reg !! td_id d = Some d /\ def_ok d) as Hd.
  { intros d. unfold sorted_layouts. rewrite sorted_perm, list_elem_of_fmap. intros ([id d'] & -> & Hin%iter_elem).
    destruct (Hl id d' Hin) as [<- ?]. done. }
  apply (Codes_table n read_layout write_type_definition (fun d => (td_id d, d))); [|done|].
  - unfold sorted_layouts. rewrite sorted_perm, map_map, <- iter_perm.
    rewrite (map_ext_in _ (fun e => e)), map_id; [done|]. intros [id d] Hin%list_elem_of_In%iter_elem. cbn.
    by destruct (Hl id d Hin) as [-> _].
  - intros d Hin. split; [apply w_typeid_cons|]. intros acc. unfold read_layout.
    eapply Codes_last; [apply Codes_type_definition; by apply Hd|done].
Qed.

Lemma sorted_iter {K V} `{Countable K} (key : K * V -> list Z) (m : gmap K V) :
  sort_by_key key (iter m) ≡ₚ map_to_list m.
Proof. by rewrite sorted_perm, iter_perm. Qed.

Lemma Codes_fns n reg : reg_wf reg ->
  Codes n (read_table read_fn) (emit_table "fn_sigs" encode_fn (sorted_fns reg)).1
    (map_imap (kept keep_sig canon_sig) (mg_dst (rg_fn_sigs reg))).
Proof.
  intros Hwf. destruct (wf_fns _ Hwf) as [Hsz Hf]. apply Codes_emit; [apply sorted_iter|done| |].
  - intros name sig. unfold encode_fn, keep_sig. cbn [fst snd]. by rewrite is_ok_bind, is_ok_skipping.
  - intros name sig b Hin Hb. destruct (Hf name sig Hin) as [Hn Hs]. unfold encode_fn in Hb. cbn [fst snd] in Hb.
    apply result_bind_Ok in Hb as (rec & Hrec%skipping_Ok & <-%Ok_inj). split; [apply w_sym_cons|]. intros acc.
    unfold read_fn. codes_step. eapply Codes_bind; [apply Codes_typeid; apply Hs|]. cbv beta.
    eapply Codes_last; [by apply Codes_sig|done].
Qed.

Lemma Codes_methods n reg : reg_wf reg ->
  Codes n (read_table read_method) (emit_table "methods" (encode_method reg) (sorted_methods reg)).1
    (map_imap (kept keep_sig canon_sig) (mg_dst (rg_methods reg))).
Proof.
  intros Hwf. destruct (wf_methods _ Hwf) as [Hsz Hf]. apply Codes_emit; [apply sorted_iter|done| |].
  - intros [recv name] sig. unfold encode_method, keep_sig. by rewrite is_ok_bind, is_ok_skipping.
  - intros [recv name] sig b Hin Hb. destruct (Hf (recv, name) sig Hin) as (Hr & Hn & Hs). cbn [fst snd] in Hr, Hn.
    apply result_bind_Ok in Hb as (rec & Hrec%skipping_Ok & <-%Ok_inj). split; [apply w_typeid_cons|]. intros acc.
    unfold read_method. codes_step. codes_step. eapply Codes_bind; [apply Codes_typeid; apply Hs|]. cbv beta.
    eapply Codes_last; [by apply Codes_sig|done].
Qed.

Lemma write_fn_body_cons g b bs : write_fn_body g b = Ok bs -> bs <> [].
Proof.
  unfold write_fn_body. destruct (existsb _ _); [done|].
  intros (? & _ & (? & _ & <-%Ok_inj)%result_bind_Ok)%result_bind_Ok. apply w_typeid_cons.
Qed.

Lemma Codes_bodies n reg : reg_wf reg -> bodies_readable reg ->
  Codes n (read_table read_body) (emit_table "bodies" encode_body (sorted_bodies reg)).1
    (map_imap (kept keep_body canon_body) (rg_bodies reg)).
Proof.
  intros Hwf Hr. destruct (wf_bodies _ Hwf) as [Hsz Hf]. apply Codes_emit; [apply sorted_iter|done| |].
  - intros g b. unfold encode_body, keep_body. cbn [fst snd]. by rewrite is_ok_skipping.
  - intros g b bs Hin Hb. destruct (Hf g b Hin) as [Hg Hbo]. unfold encode_body in Hb. cbn [fst snd] in Hb.
    apply skipping_Ok in Hb. split; [by eapply write_fn_body_cons|]. intros acc. unfold read_body.
    eapply Codes_last; [apply Codes_fn_body; [done|done| |done]|done]. apply (Hr g b Hin). by rewrite Hb.
Qed.

Lemma encode_fields_Ok name fields bs :
  encode_fields name fields = Ok bs ->
  exists enc : Symbol * Ty -> list Z, bs = mjoin (map enc fields) /\
    forall f, f ∈ fields -> exists t, write_type f.2 = Ok t /\ enc f = w_sym f.1 ++ t.
Proof.
  intros Hb. exists (fun f => w_sym f.1 ++ match write_type f.2 with Ok b => b | Err _ => [] end). revert bs Hb.
  induction fields as [|[n t] fields IH]; cbn [encode_fields]; intros bs Hb.
  { apply Ok_inj in Hb as <-. split; [done|by intros ? ?%elem_of_nil]. }
  apply result_bind_Ok in Hb as (b & Hb%skipping_Ok & Hr). apply result_bind_Ok in Hr as (r & Hr & <-%Ok_inj).
  destruct (IH r Hr) as [-> Hall]. split; [cbn; by rewrite Hb, <- app_assoc|].
  intros f [->|Hf]%elem_of_cons; [cbn; rewrite Hb; eauto|auto].
Qed.

Lemma encode_fields_ok name fields :
  is_ok (encode_fields name fields) = forallb (fun f => is_ok (write_type f.2)) fields.
Proof.
  induction fields as [|[n t] fields IH]; [done|]. cbn [encode_fields forallb snd]. rewrite <- IH.
  by destruct (write_type t), (encode_fields name fields).
Qed.

Lemma Codes_structs n reg : reg_wf reg ->
  Codes n (read_table read_struct) (emit_table "structs" (encode_struct reg) (sorted_structs reg)).1
    (map_imap (kept (keep_struct reg) canon_struct) (rg_structs reg)).
Proof.
  intros Hwf. destruct (wf_structs _ Hwf) as [Hsz Hf]. apply Codes_emit; [apply sorted_iter|done| |].
  - intros g sf. unfold encode_struct, keep_struct. case_decide as Hi; [by rewrite bool_decide_true|].
    rewrite bool_decide_false by done. by rewrite is_ok_bind, encode_fields_ok.
  - intros g sf b Hin Hb. destruct (Hf g sf Hin) as (Hg & Hgl & Hgs & Hfl & Hfs).
    unfold encode_struct in Hb. case_decide; [done|].
    apply result_bind_Ok in Hb as (fs & (enc & -> & Henc)%encode_fields_Ok & <-%Ok_inj).
    split; [apply w_typeid_cons|]. intros acc. unfold read_struct. codes_step. codes_step.
    eapply Codes_bind.
    { pose proof (Codes_push n r_sym w_sym (fun s => s) (sf_generics sf)) as Hc. rewrite map_id in Hc. apply Hc.
      intros s Hs. split; [done|]. by apply Codes_sym, (proj1 (Forall_forall sym_ok (sf_generics sf))). }
    cbv beta. codes_step. eapply Codes_last; [|done].
    apply (Codes_push n read_field enc (fun f => (f.1, canon_ty f.2))). intros f Hfin.
    destruct (Henc f Hfin) as (t & Ht & ->). split; [apply w_sym_cons|].
    destruct (proj1 (Forall_forall _ _) Hfs f Hfin) as [Hn Hty]. unfold read_field. codes_step.
    eapply Codes_last; [by apply Codes_type|done].
Qed.

Lemma Codes_enums n reg : reg_wf reg ->
  Codes n (read_table read_enum)
    (w_u64 (Z.of_nat (length (sorted_enums reg))) ++ mjoin (map encode_enum (sorted_enums reg)))
    (mg_dst (rg_enum_variants reg)).
Proof.
  intros Hwf. destruct (wf_enums _ Hwf) as [Hsz Hf].
  apply (Codes_table n read_enum encode_enum (fun e => e)); [|done|].
  - rewrite map_id. apply sorted_iter.
  - intros [name vs] Hin. split; [apply w_sym_cons|]. intros acc.
    unfold sorted_enums in Hin. rewrite sorted_iter in Hin. apply elem_of_map_to_list in Hin.
    destruct (Hf name vs Hin). by apply Codes_enum.
Qed.

Lemma format_stamp_range : 0 <= format_stamp <= umax 64.
Proof. split; vm_compute; discriminate. Qed.

Lemma Codes_interface n reg : reg_wf reg -> bodies_readable reg ->
  Codes n read_interface (serialize_registry_interface reg) (portable reg).
Proof.
  intros Hwf Hr. unfold serialize_registry_interface, serialize_registry_interface_reporting, read_interface.
  pose proof (Codes_fns n reg Hwf) as Hfn. pose proof (Codes_methods n reg Hwf) as Hme.
  pose proof (Codes_bodies n reg Hwf Hr) as Hbo. pose proof (Codes_structs n reg Hwf) as Hst.
  destruct (emit_table "fn_sigs" _ _) as [fns r1], (emit_table "methods" _ _) as [meths r2],
    (emit_table "bodies" _ _) as [bodies r3], (emit_table "structs" _ _) as [structs r4].
  cbn [fst] in *. eapply Codes_bind; [by apply (Codes_take n VXLIB_MAGIC)|]. cbv beta.
  rewrite decide_False by (intros Hne; by apply Hne).
  eapply Codes_bind; [apply Codes_u64, format_stamp_range|]. cbv beta. rewrite Z.eqb_refl. cbn [negb].
  eapply Codes_bind; [by apply Codes_modules|]. eapply Codes_bind; [by apply Codes_layouts|].
  eapply Codes_bind; [exact Hfn|]. eapply Codes_bind; [exact Hme|]. eapply Codes_bind; [exact Hbo|].
  eapply Codes_bind; [exact Hst|]. eapply Codes_tail; [by apply Codes_enums|]. cbv beta.
  unfold portable, name_index. destruct (layout_index_spec (rg_layouts reg)) as (ix & -> & _). apply Codes_ret.
Qed.


End registry.
