(* ===== verification/CodecSafe.v ===== *)
(** * The interface reader on arbitrary bytes

    [Safe k rd Q]: on every input the reader [rd] either reads at least [k] bytes
    and gives a value in [Q], or reports an error, or panics for want of capacity;
    it never runs out of fuel, so the loops and the recursion of the reader
    terminate, and it never reaches the two panics the code rules out. *)

From stdpp Require Import base list strings gmap sorting.
From Stdlib Require Import ZArith Lia.
From S2P Require Import Prelude Gid Syntax Types Layout Bytecode Registry RegistryMerge RegistryIndex Codec CodecSound CodecInterface.
Open Scope Z_scope.
Open Scope vx_scope.

(** ** Composition *)

Definition Safe {A} (n k : nat) (rd : reader A) (Q : A -> Prop) : Prop :=
  forall bs, (length bs < n)%nat ->
    match rd bs with
    | Read a rest => (length rest + k <= length bs)%nat /\ Q a
    | ReadErr _ => True
    | ReadPanic p => p = CapacityOverflow
    | ReadStuck => False
    end.

Abbreviation Any := (fun _ => True).

Lemma Safe_ret {A} n (a : A) (Q : A -> Prop) : Q a -> Safe n 0 (r_ret a) Q.
Proof. intros HQ bs _. simpl. split; [lia|done]. Qed.

Lemma Safe_err {A} n k e (Q : A -> Prop) : Safe n k (r_err e) Q.
Proof. by intros bs _. Qed.

Lemma Safe_weaken {A} n k k' (rd : reader A) (P Q : A -> Prop) :
  Safe n k rd P -> (k' <= k)%nat -> (forall a, P a -> Q a) -> Safe n k' rd Q.
Proof. intros Hs Hk HQ bs Hb. specialize (Hs bs Hb). destruct (rd bs); auto. destruct Hs. split; [lia|auto]. Qed.

Lemma Safe_lt {A} n m k (rd : reader A) Q : Safe n k rd Q -> (m <= n)%nat -> Safe m k rd Q.
Proof. intros Hs Hm bs Hb. apply Hs. lia. Qed.

(** The second reader runs on what the first one left. *)
Lemma Safe_bind {A B} n m k1 k2 (rd : reader A) (f : A -> reader B) (P : A -> Prop) (Q : B -> Prop) :
  Safe n k1 rd P -> (forall a, P a -> Safe m k2 (f a) Q) -> (n <= m + k1)%nat -> Safe n (k1 + k2) (r_bind rd f) Q.
Proof.
  intros H1 H2 Hn bs Hb. specialize (H1 bs Hb). unfold r_bind. destruct (rd bs) as [a rest| | |]; try done.
  destruct H1 as [Hl HP]. specialize (H2 a HP rest ltac:(lia)). destruct (f a rest); try done.
  destruct H2. split; [lia|done].
Qed.

(** The common case: what the first reader consumed is enough. *)
Lemma Safe_then {A B} n (rd : reader A) (f : A -> reader B) (P : A -> Prop) (Q : B -> Prop) k :
  Safe n k rd P -> (forall a, P a -> Safe n 0 (f a) Q) -> Safe n k (r_bind rd f) Q.
Proof. intros H1 H2. eapply Safe_weaken; [by eapply (Safe_bind n n k 0); [| |lia]|lia|done]. Qed.

Lemma Safe_zero {A} n k (rd : reader A) (Q : A -> Prop) : Safe n k rd Q -> Safe n 0 rd Q.
Proof. intros Hs. eapply Safe_weaken; [done|lia|done]. Qed.

Create HintDb vx_safe.

(** ** Primitive values *)

Lemma Safe_take n k : 0 <= k -> Safe n (Z.to_nat k) (r_take k) Any.
Proof.
  intros Hk bs _. unfold r_take. destruct (Z.leb_spec k (Z.of_nat (length bs))); [|done].
  rewrite length_drop. split; [lia|done].
Qed.

Lemma Safe_take0 n k : Safe n 0 (r_take k) Any.
Proof.
  intros bs _. unfold r_take. destruct (Z.leb_spec k (Z.of_nat (length bs))); [|done].
  rewrite length_drop. split; [lia|done].
Qed.

Lemma Safe_u8 n : Safe n 1 r_u8 Any.
Proof. unfold r_u8. eapply Safe_then; [by apply (Safe_take n 1)|]. intros. by apply Safe_ret. Qed.

Lemma Safe_u64 n : Safe n 1 r_u64 Any.
Proof.
  unfold r_u64. eapply Safe_then; [eapply Safe_weaken; [by apply (Safe_take n 8)|lia|done]|].
  intros. by apply Safe_ret.
Qed.

Lemma Safe_capacity `{ElemSizes} n k c : Safe n 0 (with_capacity k c) Any.
Proof. unfold with_capacity. case_match; [by apply Safe_ret|]. by intros bs _. Qed.

#[export] Hint Resolve Safe_u8 Safe_u64 Safe_capacity Safe_take0 : vx_safe.
#[export] Hint Extern 5 (Safe _ 0 _ _) => eapply (Safe_zero _ 1) : vx_safe.

(** Follow a reader. *)
Ltac safe_step :=
  match goal with
  | |- Safe _ _ (r_bind _ _) _ => eapply Safe_then; [solve [eauto with vx_safe]|intros ? _; cbv beta]
  | |- Safe _ _ (r_ret _) _ => by apply Safe_ret
  | |- Safe _ _ (r_err _) _ => apply Safe_err
  | |- Safe _ _ (match ?x with _ => _ end) _ => destruct x
  | |- Safe _ _ (if ?x then _ else _) _ => destruct x
  end.
Ltac safe := repeat safe_step; try solve [eauto with vx_safe].

Lemma Safe_bytes n : Safe n 1 r_bytes Any.
Proof. unfold r_bytes. safe. Qed.
#[export] Hint Resolve Safe_bytes : vx_safe.

Lemma Safe_sym n : Safe n 1 r_sym Any.
Proof. unfold r_sym. safe. Qed.

Lemma Safe_typeid n : Safe n 1 r_typeid Any.
Proof. unfold r_typeid. safe. Qed.

Lemma Safe_bool n : Safe n 1 r_bool Any.
Proof. unfold r_bool. safe. Qed.
#[export] Hint Resolve Safe_sym Safe_typeid Safe_bool : vx_safe.

(** A match on a tag is one on its binary digits. *)
Lemma Safe_element_type n : Safe n 1 read_element_type Any.
Proof. unfold read_element_type. safe. Qed.

Lemma Safe_opt_typeid n : Safe n 1 read_opt_typeid Any.
Proof. unfold read_opt_typeid. safe. Qed.

Lemma Safe_memory_space n : Safe n 1 read_memory_space Any.
Proof. unfold read_memory_space. safe. Qed.
#[export] Hint Resolve Safe_element_type Safe_opt_typeid Safe_memory_space : vx_safe.

Lemma Safe_field_ty n : Safe n 1 read_field_ty Any.
Proof. unfold read_field_ty. safe. Qed.

Lemma Safe_opt_memory_space n : Safe n 1 read_opt_memory_space Any.
Proof. unfold read_opt_memory_space. safe. Qed.

Lemma Safe_topology n : Safe n 1 read_topology Any.
Proof. unfold read_topology. safe. Qed.
#[export] Hint Resolve Safe_field_ty Safe_opt_memory_space Safe_topology : vx_safe.

Lemma Safe_opt_placement n : Safe n 1 read_opt_placement Any.
Proof. unfold read_opt_placement. safe. Qed.

Lemma Safe_dim n : Safe n 1 read_dim Any.
Proof. unfold read_dim. safe. Qed.

Lemma Safe_length n : Safe n 1 read_length Any.
Proof. unfold read_length. safe. Qed.

Lemma Safe_field_layout n : Safe n 1 read_field_layout Any.
Proof. unfold read_field_layout. safe. Qed.

Lemma Safe_hir n : Safe n 1 read_hir_instruction Any.
Proof. unfold read_hir_instruction. safe. Qed.
#[export] Hint Resolve Safe_opt_placement Safe_dim Safe_length Safe_field_layout Safe_hir : vx_safe.

(** ** Loops *)

(** A loop keeps an invariant that counts its passes, and it terminates because
    every pass reads a byte. *)
Lemma Safe_for_fuel {S} (step : S -> reader S) (I : nat -> S -> Prop) n fuel i c s :
  (forall i s, I i s -> Safe n 1 (step s) (I (Datatypes.S i))) -> I i s -> (n <= fuel)%nat ->
  Safe n 0 (for_fuel fuel c step s) (fun s' => I (i + Z.to_nat c)%nat s').
Proof.
  intros Hstep. revert n Hstep c i s. induction fuel as [|fuel IH]; intros n Hstep c i s Hi Hn; [intros bs Hb; lia|].
  intros bs Hb. cbn [for_fuel]. destruct (Z.leb_spec c 0) as [Hc|Hc].
  { rewrite Nat.add_0_r. split; [done|]. by replace (i + Z.to_nat c)%nat with i by lia. }
  assert (Safe n (1 + 0) (r_bind (step s) (for_fuel fuel (c - 1) step)) (fun s' => I (i + Z.to_nat c)%nat s')) as Hs.
  { apply (Safe_bind n (n - 1)) with (I (Datatypes.S i)); [by apply Hstep| |lia]. intros s' Hs'.
    replace (i + Z.to_nat c)%nat with (Datatypes.S i + Z.to_nat (c - 1))%nat by lia.
    apply IH; [|done|lia]. intros j t Hj. eapply Safe_lt; [by apply Hstep|lia]. }
  specialize (Hs bs Hb). destruct (r_bind _ _ bs); try done. destruct Hs. split; [lia|done].
Qed.

Lemma Safe_for {S} (step : S -> reader S) (I : nat -> S -> Prop) n c s :
  (forall i s, I i s -> Safe n 1 (step s) (I (Datatypes.S i))) -> I O s ->
  Safe n 0 (for_n c step s) (fun s' => I (Z.to_nat c) s').
Proof.
  intros Hstep Hs bs Hb. unfold for_n.
  apply (Safe_for_fuel step I (Datatypes.S (length bs)) (Datatypes.S (length bs)) 0 c s); [|done|lia|lia].
  intros i t Ht. eapply Safe_lt; [by apply Hstep|lia].
Qed.

Lemma Safe_for_any {S} (step : S -> reader S) n c s :
  (forall s, Safe n 1 (step s) Any) -> Safe n 0 (for_n c step s) Any.
Proof. intros Hstep. apply (Safe_for step (fun _ _ => True)); auto. Qed.

Lemma Safe_push {A} n (rd : reader A) acc : Safe n 1 rd Any -> Safe n 1 (push rd acc) Any.
Proof. intros Hr. unfold push. safe. Qed.
#[export] Hint Resolve Safe_for_any Safe_push : vx_safe.

Section readers.
Context `{HashOrder, ElemSizes}.

(** ** The recursion of types *)

Lemma Safe_type_fuel n : Safe n 1 (read_type_fuel n) Any.
Proof.
  induction n as [|n IH]; [intros bs Hb; lia|]. cbn [read_type_fuel].
  eapply (Safe_weaken _ (1 + 0) 1 _ Any Any); [eapply (Safe_bind (S n) n 1 0); [apply Safe_u8| |lia]|lia|done].
  intros t _. cbv beta.
  assert (Safe n 1 (k <~ r_u64; _ <~ with_capacity VecType k; for_n k (push (read_type_fuel n)) []) Any) as Ht by safe.
  safe.
Qed.

Lemma Safe_type n : Safe n 1 read_type Any.
Proof. intros bs Hb. apply (Safe_type_fuel (S (length bs))). lia. Qed.
#[local] Hint Resolve Safe_type : vx_safe.

Lemma Safe_fn_body n : Safe n 1 read_fn_body Any.
Proof. unfold read_fn_body. safe. Qed.

Lemma Safe_sig n gid : Safe n 1 (read_sig_record gid) Any.
Proof. unfold read_sig_record. safe. Qed.

Lemma Safe_type_definition n : Safe n 1 read_type_definition Any.
Proof. unfold read_type_definition. safe. Qed.

Lemma Safe_read_field n : Safe n 1 read_field Any.
Proof. unfold read_field. safe. Qed.
#[local] Hint Resolve Safe_fn_body Safe_sig Safe_type_definition Safe_read_field : vx_safe.

(** ** The slots of an enum *)

Definition filled (slots : list (option Symbol)) : nat := length (omap id slots).

Lemma filled_insert slots i v :
  slots !! i = Some None -> filled (<[i := Some v]> slots) = S (filled slots).
Proof.
  unfold filled. revert i. induction slots as [|o slots IH]; intros [|i] Hi; try done.
  - by injection Hi as ->.
  - cbn in *. destruct o; cbn; by rewrite IH.
Qed.

Lemma filled_replicate n : filled (replicate n None) = O.
Proof. induction n; [done|]. unfold filled in *. cbn. done. Qed.

Lemma filled_le slots : (filled slots <= length slots)%nat.
Proof. unfold filled. induction slots as [|[] slots IH]; cbn in *; lia. Qed.

(** As many values as slots: no slot is empty. *)
Lemma filled_all slots : filled slots = length slots -> is_Some (mapM id slots).
Proof.
  induction slots as [|o slots IH]; intros Hf; [by exists []|].
  pose proof (filled_le slots). unfold filled in *. destruct o as [v|]; cbn in *; [|lia].
  destruct IH as [vs Hvs]; [lia|]. unfold id in *. rewrite Hvs. by eexists.
Qed.

Lemma Safe_variant n m i slots :
  length slots = m /\ filled slots = i ->
  Safe n 1 (read_variant slots) (fun slots => length slots = m /\ filled slots = S i).
Proof.
  intros [Hm Hi]. unfold read_variant. safe_step. safe_step.
  destruct (_ <? _); [|apply Safe_err].
  destruct (slots !! Z.to_nat a0) as [[w|]|] eqn:E; [apply Safe_err| |apply Safe_err].
  apply Safe_ret. rewrite length_insert, filled_insert by done. by rewrite Hi.
Qed.

(** Distinct numbers below [n], [n] of them: the slots are filled. *)
Lemma Safe_enum n (acc : gmap Symbol (list Symbol)) : Safe n 1 (read_enum acc) Any.
Proof.
  unfold read_enum. do 3 safe_step.
  eapply Safe_then; [apply (Safe_for _ (fun i slots => length slots = Z.to_nat a0 /\ filled slots = i))|].
  - intros i slots. apply Safe_variant.
  - by rewrite length_replicate, filled_replicate.
  - intros slots [Hl Hf]. cbv beta. destruct (filled_all slots) as [vs ->]; [congruence|]. safe.
Qed.

(** ** The whole interface *)

Lemma Safe_module n acc : Safe n 1 (read_module acc) Any.
Proof.
  unfold read_module. do 2 safe_step. eapply Safe_then; [apply Safe_for_any; intros; safe|]. intros ? _. safe.
Qed.

Lemma Safe_layout n acc : Safe n 1 (read_layout acc) Any.
Proof. unfold read_layout. safe. Qed.

Lemma Safe_fn n acc : Safe n 1 (read_fn acc) Any.
Proof. unfold read_fn. safe. Qed.

Lemma Safe_method n acc : Safe n 1 (read_method acc) Any.
Proof. unfold read_method. safe. Qed.

Lemma Safe_body n acc : Safe n 1 (read_body acc) Any.
Proof. unfold read_body. safe. Qed.

Lemma Safe_struct n acc : Safe n 1 (read_struct acc) Any.
Proof. unfold read_struct. safe. Qed.

Lemma Safe_table {K V} `{Countable K} n (step : gmap K V -> reader (gmap K V)) :
  (forall acc, Safe n 1 (step acc) Any) -> Safe n 1 (read_table step) Any.
Proof. intros Hs. unfold read_table. safe. Qed.
#[local] Hint Resolve Safe_table Safe_module Safe_layout Safe_fn Safe_method Safe_body Safe_struct Safe_enum : vx_safe.

Lemma Safe_interface n : Safe n 0 read_interface Any.
Proof.
  unfold read_interface. safe_step. case_decide; [apply Safe_err|]. safe_step. destruct (negb _); [apply Safe_err|].
  do 7 safe_step. destruct (layout_index_spec a2) as (ix & -> & _). by apply Safe_ret.
Qed.

(** C24. The reader is total on arbitrary bytes: for every buffer, however it was
    corrupted, it ends (no loop or recursion outruns the bytes), and it ends with
    a registry, an error, or the panic of a [Vec] asked to hold more than
    [isize::MAX] bytes; the [expect] on an enum's slots and the index into the
    layouts never fail. *)
Theorem reader_total bytes :
  match deserialize_registry_interface bytes with
  | Read _ rest => (length rest <= length bytes)%nat
  | ReadErr _ => True
  | ReadPanic p => p = CapacityOverflow
  | ReadStuck => False
  end.
Proof.
  pose proof (Safe_interface (S (length bytes)) bytes ltac:(lia)) as Hs.
  unfold deserialize_registry_interface. destruct (read_interface bytes); try done. destruct Hs. lia.
Qed.
End readers.
