(* ===== verification/CodecExport.v ===== *)
(** * Exporting interfaces

    The artifact does not depend on the order in which hash maps are visited; the
    report accounts for every entry that is left out; exporting what was imported
    gives the same bytes; and an exported body with an opcode the reader does not
    know makes the whole artifact unreadable. *)

From stdpp Require Import base list strings gmap sorting.
From Stdlib Require Import ZArith Lia Ascii.
From S2P Require Import Prelude Gid Syntax Types Layout Bytecode Registry Toposort RegistryMerge RegistryIndex Codec CodecSound CodecInterface.
Open Scope Z_scope.
Open Scope vx_scope.

(** ** The order of keys *)

Lemma lexb_refl a : lexb a a = true.
Proof. induction a as [|x a IH]; [done|]. cbn. by rewrite Z.ltb_irrefl, Z.eqb_refl, IH. Qed.

Lemma lexb_cons x a y b : lexb (x :: a) (y :: b) = true <-> x < y \/ x = y /\ lexb a b = true.
Proof. cbn [lexb]. by rewrite orb_true_iff, andb_true_iff, Z.ltb_lt, Z.eqb_eq. Qed.

Lemma lexb_trans a b c : lexb a b = true -> lexb b c = true -> lexb a c = true.
Proof.
  revert b c. induction a as [|x a IH]; intros [|y b] [|z c]; try done.
  rewrite !lexb_cons. intros [?|[-> ?]] [?|[-> ?]]; [left; lia|left; lia|left; lia|right; eauto].
Qed.

Lemma lexb_antisym a b : lexb a b = true -> lexb b a = true -> a = b.
Proof.
  revert b. induction a as [|x a IH]; intros [|y b]; try done.
  rewrite !lexb_cons. intros [?|[-> ?]] [?|[? ?]]; try lia. f_equal. auto.
Qed.

Lemma lexb_total a b : lexb a b = true \/ lexb b a = true.
Proof.
  revert b. induction a as [|x a IH]; intros [|y b]; try (by left); try (by right).
  rewrite !lexb_cons. destruct (IH b), (Z.lt_trichotomy x y) as [|[|]]; auto.
Qed.

Section sorting.
Context {A : Type} (key : A -> list Z).

#[local] Instance entry_le_trans : Transitive (entry_le key).
Proof. intros x y z. apply lexb_trans. Qed.

#[local] Instance entry_le_total : Total (entry_le key).
Proof. intros x y. apply lexb_total. Qed.

Lemma sort_sorted l : StronglySorted (entry_le key) (sort_by_key key l).
Proof. apply StronglySorted_merge_sort; apply _. Qed.

(** A list with distinct keys has one sorted order. *)
Lemma sorted_unique l k :
  (forall x y, x ∈ l -> y ∈ l -> key x = key y -> x = y) ->
  l ≡ₚ k -> StronglySorted (entry_le key) l -> StronglySorted (entry_le key) k -> l = k.
Proof.
  intros Hinj Hp Hl Hk. apply (StronglySorted_unique_strong (entry_le key)); [|done..].
  intros x y Hx Hy Hxy Hyx. apply Hinj; [done|by rewrite Hp|]. by apply lexb_antisym.
Qed.

Lemma sort_unique l k :
  (forall x y, x ∈ l -> y ∈ l -> key x = key y -> x = y) -> l ≡ₚ k -> sort_by_key key l = sort_by_key key k.
Proof.
  intros Hinj Hp. apply sorted_unique; try apply sort_sorted.
  - intros x y. rewrite !sorted_perm. auto.
  - by rewrite !sorted_perm.
Qed.
End sorting.

Lemma words_inj a b : words a = words b -> a = b.
Proof. destruct a, b. unfold words. cbn. by intros [= -> -> -> ->]. Qed.

Lemma app_words_inj a b s t : words a ++ s = words b ++ t -> a = b /\ s = t.
Proof. intros Hw. apply app_inj_1 in Hw as [Hw ->]; [|done]. split; [by apply words_inj|done]. Qed.

(** Entries of a map are distinguished by their keys. *)
Lemma entries_inj {K V} `{Countable K} (m : gmap K V) (key : K -> list Z) (x y : K * V) :
  (forall a b, key a = key b -> a = b) -> x ∈ map_to_list m -> y ∈ map_to_list m -> key x.1 = key y.1 -> x = y.
Proof.
  destruct x as [k v], y as [j w]. cbn. intros Hk Hx%elem_of_map_to_list Hy%elem_of_map_to_list ->%Hk. congruence.
Qed.

(** ** Reproducibility *)

Lemma sorted_entries {K V} `{Countable K} (o1 o2 : HashOrder) (key : K -> list Z) (m : gmap K V) :
  (forall a b, key a = key b -> a = b) ->
  sort_by_key (fun e => key e.1) (@iter o1 _ _ _ _ m) = sort_by_key (fun e => key e.1) (@iter o2 _ _ _ _ m).
Proof.
  intros Hk. apply sort_unique; [|by rewrite !iter_perm]. intros x y. rewrite !iter_perm. by apply entries_inj.
Qed.

(** C30. Artifacts are reproducible: the bytes and the report of an export are the
    same whatever the order in which the hash maps yield their entries. *)
Theorem export_reproducible (o1 o2 : HashOrder) reg :
  map_Forall (fun id d => td_id d = id) (rg_layouts reg) ->
  @serialize_registry_interface_reporting o1 reg = @serialize_registry_interface_reporting o2 reg.
Proof.
  intros Hl. unfold serialize_registry_interface_reporting.
  assert (@sorted_modules o1 reg = @sorted_modules o2 reg) as ->.
  { unfold sorted_modules. rewrite (sorted_entries o1 o2 (fun h => [h])) by by intros ? ? [= ->].
    apply map_ext. intros [h b]. cbn. f_equal. apply (sorted_entries o1 o2 sym_bytes), sym_bytes_inj. }
  assert (@sorted_layouts o1 reg = @sorted_layouts o2 reg) as ->.
  { unfold sorted_layouts. apply sort_unique; [|by rewrite !iter_perm]. intros d d'. rewrite !iter_perm.
    intros ([i x] & -> & Hx%elem_of_map_to_list)%list_elem_of_fmap
      ([j y] & -> & Hy%elem_of_map_to_list)%list_elem_of_fmap E%words_inj. cbn in *.
    rewrite (Hl i x Hx), (Hl j y Hy) in E. subst j. congruence. }
  assert (@sorted_methods o1 reg = @sorted_methods o2 reg) as ->.
  { apply (sorted_entries o1 o2 (fun k : Gid.TypeId * Symbol => words k.1 ++ sym_bytes k.2)).
    intros [a s] [b t] E. apply app_words_inj in E as [Ha Hs]. cbn in Ha, Hs. apply sym_bytes_inj in Hs. by subst. }
  unfold sorted_fns, sorted_bodies, sorted_structs, sorted_enums.
  rewrite (sorted_entries o1 o2 sym_bytes (mg_dst (rg_fn_sigs reg)) sym_bytes_inj).
  rewrite (sorted_entries o1 o2 words (rg_bodies reg) words_inj).
  rewrite (sorted_entries o1 o2 words (rg_structs reg) words_inj).
  by rewrite (sorted_entries o1 o2 sym_bytes (mg_dst (rg_enum_variants reg)) sym_bytes_inj).
Qed.

(** ** The report *)

Section reports.
Context `{HashOrder}.
Implicit Types (reg : ImmutableGlobalRegistry).

Lemma kept_size {K V W E} `{Countable K} (encode : K * V -> result (list Z) E) keep (f : V -> W) (m : gmap K V) l :
  l ≡ₚ map_to_list m -> (forall k v, is_ok (encode (k, v)) = keep k v) ->
  length (encoded encode l) = size (map_imap (kept keep f) m).
Proof.
  intros Hl Hk. destruct (list_to_map_omap (kept keep f) m l Hl) as [Hnd <-].
  rewrite map_size_list_to_map by done. rewrite <- (encoded_kept encode) by auto. by rewrite length_map.
Qed.

(** A table's report accounts for its entries. *)
Definition accounts {K V W} `{Countable K} (r : TableReport) (m : gmap K V) (m' : gmap K W) : Prop :=
  tr_encoded r = size m' /\ (tr_encoded r + length (tr_skipped r) = size m)%nat.

Lemma emit_accounts {K V W} `{Countable K} table (encode : K * V -> result (list Z) (string * SkipReason))
    keep (f : V -> W) (m : gmap K V) l :
  l ≡ₚ map_to_list m -> (forall k v, is_ok (encode (k, v)) = keep k v) ->
  accounts (emit_table table encode l).2 m (map_imap (kept keep f) m).
Proof.
  intros Hl Hk. rewrite emit_table_spec. split; cbn [snd tr_encoded tr_skipped].
  - by apply (kept_size encode keep f).
  - rewrite encoded_skipped_length, Hl. apply length_map_to_list.
Qed.

Lemma encode_fn_ok e : is_ok (encode_fn e) = keep_sig e.1 e.2.
Proof. unfold encode_fn, keep_sig. by rewrite is_ok_bind, is_ok_skipping. Qed.

Lemma encode_method_ok reg e : is_ok (encode_method reg e) = keep_sig e.1 e.2.
Proof. destruct e as [[r n] s]. unfold encode_method, keep_sig. by rewrite is_ok_bind, is_ok_skipping. Qed.

Lemma encode_body_ok e : is_ok (encode_body e) = keep_body e.1 e.2.
Proof. unfold encode_body, keep_body. by rewrite is_ok_skipping. Qed.

Lemma encode_struct_ok reg e : is_ok (encode_struct reg e) = keep_struct reg e.1 e.2.
Proof.
  destruct e as [g s]. unfold encode_struct, keep_struct. cbn [fst snd]. case_decide.
  - by rewrite bool_decide_true.
  - by rewrite bool_decide_false, is_ok_bind, encode_fields_ok.
Qed.

(** No entry is dropped in silence: the report of an export counts, for each
    table, exactly the entries that the artifact carries and lists one skip for
    each of the others; a function is listed exactly when the importer will not
    find it, with the codec's reason. *)
Theorem report_complete reg :
  exists fr mr br sr er,
    (serialize_registry_interface_reporting reg).2 = [fr; mr; br; sr; er] /\
    accounts fr (mg_dst (rg_fn_sigs reg)) (mg_dst (rg_fn_sigs (portable reg))) /\
    accounts mr (mg_dst (rg_methods reg)) (mg_dst (rg_methods (portable reg))) /\
    accounts br (rg_bodies reg) (rg_bodies (portable reg)) /\
    accounts sr (rg_structs reg) (rg_structs (portable reg)) /\
    accounts er (mg_dst (rg_enum_variants reg)) (mg_dst (rg_enum_variants (portable reg))) /\
    (forall n r, (n, r) ∈ tr_skipped fr <->
       resolve_fn (portable reg) n = None /\
       exists sig e, resolve_fn reg n = Some sig /\ encode_sig_record sig = Err e /\ r = Unencodable e).
Proof.
  unfold serialize_registry_interface_reporting.
  pose proof (emit_accounts "fn_sigs" encode_fn keep_sig canon_sig _ (sorted_fns reg)
    (sorted_iter _ _) (fun k v => encode_fn_ok (k, v))) as Hf.
  pose proof (emit_accounts "methods" (encode_method reg) keep_sig canon_sig _ (sorted_methods reg)
    (sorted_iter _ _) (fun k v => encode_method_ok reg (k, v))) as Hm.
  pose proof (emit_accounts "bodies" encode_body keep_body canon_body _ (sorted_bodies reg)
    (sorted_iter _ _) (fun k v => encode_body_ok (k, v))) as Hb.
  pose proof (emit_accounts "structs" (encode_struct reg) (keep_struct reg) canon_struct _ (sorted_structs reg)
    (sorted_iter _ _) (fun k v => encode_struct_ok reg (k, v))) as Hs.
  pose proof (emit_table_spec "fn_sigs" encode_fn (sorted_fns reg)) as Efn.
  destruct (emit_table "fn_sigs" _ _) as [fns r1], (emit_table "methods" _ _) as [meths r2],
    (emit_table "bodies" _ _) as [bodies r3], (emit_table "structs" _ _) as [structs r4].
  exists r1, r2, r3, r4. eexists. cbn [snd] in *. split_and!; try done.
  - split; cbn [tr_encoded tr_skipped length]; rewrite ?Nat.add_0_r; unfold sorted_enums;
      rewrite (Permutation_length (sorted_iter _ _)); apply length_map_to_list.
  - injection Efn as _ ->. cbn [tr_skipped]. intros n r. unfold skipped, resolve_fn.
    cbn [portable rg_fn_sigs fresh_table mg_dst]. rewrite map_lookup_imap, list_elem_of_omap. split.
    + intros ([n' sig] & Hin & He). unfold sorted_fns in Hin. rewrite sorted_iter in Hin. apply elem_of_map_to_list in Hin.
      unfold encode_fn in He. cbn [fst snd] in He. destruct (encode_sig_record sig) as [|e] eqn:E; [done|].
      cbn in He. simplify_eq. rewrite Hin. cbn. unfold kept, keep_sig. rewrite E. split; [done|]. eauto.
    + intros [_ (sig & e & Hsig & He & ->)]. exists (n, sig). split.
      * unfold sorted_fns. rewrite sorted_iter. by apply elem_of_map_to_list.
      * unfold encode_fn. cbn [fst snd]. by rewrite He.
Qed.
End reports.

(** ** Decimal numbers *)

(** The first character of a digit string is no sign. *)
Lemma parse_int_digits w s :
  all_digits s = true -> s <> EmptyString -> parse_int w s = checked_i w (dec_value s).
Proof.
  intros Hd Hne. destruct s as [|c s]; [done|].
  assert (parse_int w (String c s) =
    if all_digits (String c s) && negb (bool_decide (String c s = EmptyString))
    then checked_i w (dec_value (String c s)) else None) as ->.
  { destruct c as [[] [] [] [] [] [] [] []]; try done. }
  by rewrite Hd, bool_decide_false.
Qed.

Lemma i64_roundtrip i : imin 64 <= i <= imax 64 -> parse_int 64 (i64_to_string i) = Some i.
Proof.
  intros Hi. unfold imin, imax in Hi. change (2 ^ (64 - 1)) with 9223372036854775808 in Hi.
  assert (10 ^ Z.of_nat 21 = 1000000000000000000000) as Hp by done.
  unfold i64_to_string. destruct (Z.ltb_spec i 0).
  - destruct (u_to_string_spec 20 (- i) EmptyString) as (H1 & H2 & H3); [rewrite Hp; lia|done|].
    cbn [parse_int]. rewrite H1, bool_decide_false by done. cbn [andb negb]. unfold dec_value. rewrite H3. cbn [dec_from].
    apply checked_i_Some. unfold imin, imax. change (2 ^ (64 - 1)) with 9223372036854775808. lia.
  - destruct (u_to_string_spec 20 i EmptyString) as (H1 & H2 & H3); [rewrite Hp; lia|done|].
    rewrite parse_int_digits by done. unfold dec_value. rewrite H3. cbn [dec_from].
    apply checked_i_Some. unfold imin, imax. change (2 ^ (64 - 1)) with 9223372036854775808. lia.
Qed.

(** ** Exporting what was imported *)

Lemma write_topology_canon t : write_topology (canon_topology t) = write_topology t.
Proof.
  destruct t as [| | | | |e| | | | |]; try done. destruct e; try done. cbn [canon_topology].
  destruct (parse_int 64 value) as [i|] eqn:E; [|done]. cbn [write_topology Topology_gpu].
  by rewrite E, i64_roundtrip by by eapply parse_int_range.
Qed.

Lemma write_opt_placement_canon o : write_opt_placement (canon_placement o) = write_opt_placement o.
Proof.
  destruct o as [p|]; [|done]. cbn [canon_placement write_opt_placement pl_topology pl_space pl_alignment].
  rewrite write_topology_canon. destruct (Z.eqb_spec (default 0 (pl_alignment p)) 0) as [->|]; [|done]. by cbn.
Qed.

Lemma write_dim_canon d : write_dim (canon_dim d) = write_dim d.
Proof. unfold canon_dim. by destruct d as [[]|]. Qed.

Lemma w_each_map {A} (write : A -> result (list Z) CodecError) (f : A -> A) l :
  Forall (fun a => write (f a) = write a) l -> w_each write (map f l) = w_each write l.
Proof.
  induction 1 as [|a l Ha Hl IH]; [done|]. cbn [map].
  assert (forall x k, w_each write (x :: k) = (b ←? write x; bs ←? w_each write k; Ok (b ++ bs))) as Hc by done.
  by rewrite !Hc, Ha, IH.
Qed.

Lemma write_type_canon t : write_type (canon_ty t) = write_type t.
Proof.
  induction t using Ty_nested_ind; cbn [canon_ty write_type]; rewrite ?length_map;
    rewrite ?write_opt_placement_canon, ?write_topology_canon, ?w_each_map by done; try congruence.
  - rewrite w_each_map; [done|]. apply Forall_forall. intros. apply write_dim_canon.
  - by rewrite IHt.
  - by rewrite IHt.
Qed.

Lemma w_each_types_canon l : w_each write_type (map canon_ty l) = w_each write_type l.
Proof. apply w_each_map, Forall_forall. intros. apply write_type_canon. Qed.

Lemma encode_sig_canon s : encode_sig_record (canon_sig s) = encode_sig_record s.
Proof.
  unfold encode_sig_record. cbn [canon_sig fs_params fs_ret_ty fs_ret_prov fs_is_unsafe fs_ret_valid].
  rewrite w_each_types_canon, write_type_canon, length_map. by destruct (fs_ret_valid s) as [[]|].
Qed.

Lemma write_fn_body_canon g b : write_fn_body g (canon_body b) = write_fn_body g b.
Proof.
  unfold write_fn_body. cbn [canon_body fb_types fb_ret_ty fb_params fb_name fb_hir].
  by rewrite w_each_types_canon, write_type_canon, length_map.
Qed.

Lemma encode_fields_canon name fields :
  encode_fields name (map (fun f => (f.1, canon_ty f.2)) fields) = encode_fields name fields.
Proof. induction fields as [|[n t] fields IH]; [done|]. cbn [map encode_fields fst snd]. by rewrite write_type_canon, IH. Qed.

Section reexport.
Context {K V : Type} `{Countable K} `{HashOrder}.

(** The sorted entries of a filtered table are the filtered sorted entries. *)
Lemma sorted_kept (key : K -> list Z) (keep : K -> V -> bool) (f : V -> V) (m : gmap K V) :
  (forall a b, key a = key b -> a = b) ->
  sort_by_key (fun e => key e.1) (iter (map_imap (kept keep f) m)) =
  omap (fun e : K * V => pair e.1 <$> kept keep f e.1 e.2) (sort_by_key (fun e => key e.1) (iter m)).
Proof.
  intros Hk. set (l := sort_by_key _ (iter m)).
  assert (l ≡ₚ map_to_list m) as Hl by apply sorted_iter.
  destruct (list_to_map_omap (kept keep f) m l Hl) as [Hnd Hmap].
  apply (sorted_unique (fun e : K * V => key e.1)).
  - intros x y. rewrite !sorted_iter. by apply entries_inj.
  - rewrite sorted_iter, <- Hmap. by apply map_to_list_to_map.
  - apply sort_sorted.
  - pose proof (sort_sorted (fun e : K * V => key e.1) (iter m)) as Hs. fold l in Hs. clear Hl Hnd Hmap.
    induction Hs as [|[k v] l' Hs IH Hall]; [constructor|]. cbn. destruct (kept keep f k v) as [w|]; cbn; [|done].
    constructor; [done|]. rewrite Forall_forall in *. intros [j u] ([j' u'] & Hin & Heq)%list_elem_of_omap.
    cbn in Heq. destruct (kept keep f j' u'); simplify_eq/=. apply (Hall _ Hin).
Qed.

(** An entry that was kept is written as it was before. *)
Lemma emit_kept table table' (encode encode' : K * V -> result (list Z) (string * SkipReason)) keep (f : V -> V) l :
  (forall k v, is_ok (encode (k, v)) = keep k v) ->
  (forall k v b, encode (k, v) = Ok b -> encode' (k, f v) = Ok b) ->
  (emit_table table' encode' (omap (fun e : K * V => pair e.1 <$> kept keep f e.1 e.2) l)).1 = (emit_table table encode l).1 /\
  tr_skipped (emit_table table' encode' (omap (fun e : K * V => pair e.1 <$> kept keep f e.1 e.2) l)).2 = [].
Proof.
  intros Hk He. rewrite !emit_table_spec. cbn [fst snd tr_skipped].
  assert (map snd (encoded encode' (omap (fun e : K * V => pair e.1 <$> kept keep f e.1 e.2) l)) =
          map snd (encoded encode l) /\ skipped encode' (omap (fun e : K * V => pair e.1 <$> kept keep f e.1 e.2) l) = [])
    as [Hm Hs].
  { induction l as [|[k v] l [IH1 IH2]]; [done|]. unfold encoded, skipped, kept in *. cbn [omap list_omap fst snd].
    specialize (Hk k v). destruct (encode (k, v)) as [b|] eqn:E; cbn in Hk; rewrite <- Hk; cbn; [|done].
    rewrite (He k v b E). cbn. split; [by f_equal|done]. }
  split; [|done]. rewrite Hm. do 3 f_equal. apply (f_equal length) in Hm. by rewrite !length_map in Hm.
Qed.
End reexport.

Section exports.
Context `{HashOrder}.

(** Exporting an imported interface reproduces the artifact: the portable
    part of a registry is written with the same bytes as the registry itself, and
    nothing of it is skipped. *)
Theorem reexport_identical reg :
  serialize_registry_interface (portable reg) = serialize_registry_interface reg /\
  total_skipped (serialize_registry_interface_reporting (portable reg)).2 = O.
Proof.
  assert (forall k v b, encode_fn (k, v) = Ok b -> encode_fn (k, canon_sig v) = Ok b) as Hf.
  { intros k v b. unfold encode_fn. cbn [fst snd]. by rewrite encode_sig_canon. }
  assert (forall k v b, encode_method reg (k, v) = Ok b -> encode_method (portable reg) (k, canon_sig v) = Ok b) as Hm.
  { intros [r n] v b. unfold encode_method. rewrite encode_sig_canon. by destruct (encode_sig_record v). }
  assert (forall k v b, encode_body (k, v) = Ok b -> encode_body (k, canon_body v) = Ok b) as Hb.
  { intros k v b. unfold encode_body. cbn [fst snd]. rewrite write_fn_body_canon. by destruct (write_fn_body k v). }
  assert (forall k v b, encode_struct reg (k, v) = Ok b -> encode_struct (portable reg) (k, canon_struct v) = Ok b) as Hs.
  { intros k v b. unfold encode_struct. cbn [rg_structs_with_invariants portable]. case_decide; [done|].
    rewrite decide_False by apply not_elem_of_empty. cbn [canon_struct sf_fields sf_generics].
    rewrite encode_fields_canon, length_map. done. }
  unfold serialize_registry_interface, serialize_registry_interface_reporting.
  unfold sorted_fns, sorted_methods, sorted_bodies, sorted_structs.
  cbn [portable rg_fn_sigs rg_methods rg_bodies rg_structs fresh_table mg_dst].
  rewrite (sorted_kept sym_bytes) by apply sym_bytes_inj.
  rewrite (sorted_kept (fun k : Gid.TypeId * Symbol => words k.1 ++ sym_bytes k.2))
    by (intros [a s] [b t] E; apply app_words_inj in E as [E1 E2]; cbn in *; apply sym_bytes_inj in E2; by subst).
  rewrite !(sorted_kept words) by apply words_inj. fold (portable reg).
  destruct (emit_kept "fn_sigs" "fn_sigs" encode_fn encode_fn keep_sig canon_sig (sort_by_key (fun e => sym_bytes e.1)
    (iter (mg_dst (rg_fn_sigs reg)))) (fun k v => encode_fn_ok (k, v)) Hf) as [F1 F2].
  destruct (emit_kept "methods" "methods" (encode_method reg) (encode_method (portable reg)) keep_sig canon_sig
    (sort_by_key (fun e : (Gid.TypeId * Symbol) * FnSig => words e.1.1 ++ sym_bytes e.1.2) (iter (mg_dst (rg_methods reg))))
    (fun k v => encode_method_ok reg (k, v)) Hm) as [M1 M2].
  destruct (emit_kept "bodies" "bodies" encode_body encode_body keep_body canon_body (sort_by_key (fun e => words e.1)
    (iter (rg_bodies reg))) (fun k v => encode_body_ok (k, v)) Hb) as [B1 B2].
  destruct (emit_kept "structs" "structs" (encode_struct reg) (encode_struct (portable reg)) (keep_struct reg) canon_struct
    (sort_by_key (fun e => words e.1) (iter (rg_structs reg))) (fun k v => encode_struct_ok reg (k, v)) Hs) as [S1 S2].
  repeat match goal with
  | |- context [let '(_, _) := ?e in _] => destruct e
  end. cbn [fst snd] in *. subst. unfold total_skipped. cbn. by rewrite F2, M2, B2, S2.
Qed.
End exports.
