(* ===== verification/CodecOpcode.v ===== *)
(** * Artifacts with opcodes the reader does not know

    [from_u32] leaves out eight opcodes that the lowering emits.  A body with one
    of them is exported like any other, and the artifact that carries it cannot be
    read at all. *)

From stdpp Require Import base list strings gmap sorting.
From Stdlib Require Import ZArith Lia.
From S2P Require Import Prelude Gid Syntax Types Layout Bytecode Registry Toposort RegistryMerge RegistryIndex Codec CodecSound CodecInterface CodecSafe CodecExport.
Open Scope Z_scope.
Open Scope vx_scope.

(** On inputs shorter than [n] the reader fails on the bytes [bs], whatever
    follows them. *)
Definition Fails {A} (n : nat) (rd : reader A) (bs : list Z) (e : CodecError) : Prop :=
  forall rest, (length (bs ++ rest) < n)%nat -> rd (bs ++ rest) = ReadErr e.

Lemma Fails_mono {A} n m (rd : reader A) bs e : Fails n rd bs e -> (m <= n)%nat -> Fails m rd bs e.
Proof. intros Hf Hm rest Hl. apply Hf. lia. Qed.

Lemma Fails_head {A B} n (m : reader A) (f : A -> reader B) b1 b2 e :
  Fails n m b1 e -> Fails n (r_bind m f) (b1 ++ b2) e.
Proof. intros Hm rest Hl. unfold r_bind. rewrite <- app_assoc in *. by rewrite Hm. Qed.

Lemma Fails_tail_lt {A B} n k (m : reader A) (f : A -> reader B) b1 b2 a e :
  Codes n m b1 a -> Fails k (f a) b2 e -> (n <= k + length b1)%nat -> Fails n (r_bind m f) (b1 ++ b2) e.
Proof.
  intros [Hm _] Hf Hk rest Hl. unfold r_bind. rewrite <- app_assoc in *. rewrite Hm by done. apply Hf.
  rewrite !length_app in *. lia.
Qed.

Lemma Fails_tail {A B} n (m : reader A) (f : A -> reader B) b1 b2 a e :
  Codes n m b1 a -> Fails n (f a) b2 e -> Fails n (r_bind m f) (b1 ++ b2) e.
Proof. intros Hm Hf. apply (Fails_tail_lt n n) with a; [done|done|lia]. Qed.

Lemma Fails_skip {A B} n (m : reader A) (f : A -> reader B) b a e :
  Codes n m [] a -> Fails n (f a) b e -> Fails n (r_bind m f) b e.
Proof. intros Hm Hf. apply (Fails_tail n m f [] b a e Hm Hf). Qed.

Section loops.
Context {S X : Type} (step : S -> reader S) (enc : X -> list Z) (put : S -> X -> S).

Lemma Fails_for_fuel n fuel pre x post s e :
  (forall y s, y ∈ pre -> enc y <> [] /\ Codes n (step s) (enc y) (put s y)) ->
  (forall s, Fails n (step s) (enc x) e) -> (n <= fuel)%nat ->
  Fails n (for_fuel fuel (Z.of_nat (length (pre ++ x :: post))) step s) (mjoin (map enc (pre ++ x :: post))) e.
Proof.
  revert n fuel s. induction pre as [|y pre IH]; intros n fuel s Hp Hx Hn rest Hl;
    (destruct fuel as [|fuel]; [lia|]); cbn [for_fuel app length map]; rewrite (proj2 (Z.leb_gt _ _)) by lia.
  - apply (Fails_head n (step s) _ (enc x) (mjoin (map enc post)) e (Hx s) rest Hl).
  - destruct (Hp y s (list_elem_of_here _ _)) as [Hne Hc].
    replace (Z.of_nat (Datatypes.S (length (pre ++ x :: post))) - 1) with (Z.of_nat (length (pre ++ x :: post))) by lia.
    change (mjoin (enc y :: map enc (pre ++ x :: post))) with (enc y ++ mjoin (map enc (pre ++ x :: post))).
    apply (Fails_tail_lt n (n - 1)) with (put s y); [done| |destruct (enc y); [done|simpl; lia]|exact Hl].
    apply IH; [|intros; eapply Fails_mono; [apply Hx|lia]|lia]. intros z t Hz.
    destruct (Hp z t (list_elem_of_further _ _ _ Hz)). split; [done|]. eapply Codes_mono; [done|lia].
Qed.

Lemma Fails_for n pre x post s e :
  (forall y s, y ∈ pre -> enc y <> [] /\ Codes n (step s) (enc y) (put s y)) ->
  (forall s, Fails n (step s) (enc x) e) ->
  Fails n (for_n (Z.of_nat (length (pre ++ x :: post))) step s) (mjoin (map enc (pre ++ x :: post))) e.
Proof.
  intros Hp Hx rest Hl. unfold for_n. set (bs := mjoin _ ++ rest) in *.
  apply (Fails_for_fuel (Datatypes.S (length bs)) (Datatypes.S (length bs))); [| |lia|unfold bs; lia].
  - intros y t Hy. destruct (Hp y t Hy). split; [done|]. eapply Codes_mono; [done|lia].
  - intros t. eapply Fails_mono; [apply Hx|lia].
Qed.
End loops.

(** The first element without a property. *)
Lemma first_failure {A} (P : A -> Prop) `{forall a, Decision (P a)} (l : list A) :
  Forall P l \/ exists pre x post, l = pre ++ x :: post /\ Forall P pre /\ ~ P x.
Proof.
  induction l as [|a l [IH|(pre & x & post & -> & Hp & Hx)]]; [by left| |].
  - destruct (decide (P a)); [left; by constructor|right; by exists [], a, l].
  - destruct (decide (P a)); [right; exists (a :: pre), x, post|right; exists [], a, (pre ++ x :: post)];
      split_and!; try done. by constructor.
Qed.

#[local] Instance readable_dec i : Decision (readable i).
Proof. unfold readable. apply _. Defined.

Section opcodes.
Context `{HashOrder, ElemSizes}.

(** The error of an opcode that cannot be read. *)
Definition opcode_error (e : CodecError) : Prop := exists op, op ∈ unreadable /\ e = BadOpcode (Opcode_as_u32 op).

Lemma Fails_hir n i : ~ readable i -> Fails n read_hir_instruction (write_hir_instruction i) (BadOpcode (Opcode_as_u32 (hi_opcode i))).
Proof.
  unfold readable. intros Hr%dec_stable. unfold read_hir_instruction, write_hir_instruction.
  pose proof (opcode_range (hi_opcode i)) as Ho. assert (umax 32 <= umax 64) by done.
  eapply Fails_tail; [apply Codes_u64; lia|]. intros rest _. cbv beta.
  rewrite (proj2 (checked_u_Some 32 (Opcode_as_u32 (hi_opcode i)) _) (conj eq_refl Ho)). cbn [mbind option_bind].
  by rewrite from_u32_as_u32, decide_True.
Qed.

Lemma Fails_fn_body n gid b bs :
  Gid.wf gid -> body_ok b -> ~ Forall readable (fb_hir b) -> write_fn_body gid b = Ok bs ->
  exists e, opcode_error e /\ Fails n read_fn_body bs e.
Proof.
  unfold write_fn_body, body_ok, read_fn_body. intros Hg Hok Hr Hw. destruct_and?.
  destruct (existsb _ _); [done|]. apply result_bind_Ok in Hw as (sig & Hsig & Hw).
  apply result_bind_Ok in Hw as (ps & Hps & <-%Ok_inj).
  destruct (first_failure readable (fb_hir b)) as [|(pre & i & post & Hhir & Hpre & Hi)]; [done|].
  exists (BadOpcode (Opcode_as_u32 (hi_opcode i))). split; [exists (hi_opcode i); split; [by apply dec_stable|done]|].
  do 3 (eapply Fails_tail; [eauto using fits_len with vx_codes|]). eapply Fails_skip; [by apply Codes_capacity|].
  eapply Fails_tail; [apply Codes_read_types; eauto using fits_len|].
  eapply Fails_tail; [by apply Codes_type|]. eapply Fails_tail; [eauto using fits_len with vx_codes|].
  eapply Fails_skip; [by apply Codes_capacity|]. apply Fails_head. rewrite Hhir in *.
  apply (Fails_for (push read_hir_instruction) write_hir_instruction (fun acc i => acc ++ [i])).
  - intros y acc Hy. split; [apply w_u64_cons|]. unfold push. eapply Codes_last; [|done].
    apply Codes_hir; [|by apply (proj1 (Forall_forall _ _) Hpre)].
    apply (proj1 (Forall_forall hir_ok (pre ++ i :: post))); [done|]. apply elem_of_app. by left.
  - intros acc. unfold push. rewrite <- (app_nil_r (write_hir_instruction i)). by apply Fails_head, Fails_hir.
Qed.

Lemma Fails_bodies n reg :
  reg_wf reg -> ~ bodies_readable reg ->
  exists e, opcode_error e /\ Fails n (read_table read_body) (emit_table "bodies" encode_body (sorted_bodies reg)).1 e.
Proof.
  intros Hwf Hr. destruct (wf_bodies _ Hwf) as [Hsz Hf]. rewrite emit_table_spec. cbn [fst].
  set (l := encoded encode_body (sorted_bodies reg)).
  assert (forall g b bs, ((g, b), bs) ∈ l -> rg_bodies reg !! g = Some b /\ write_fn_body g b = Ok bs) as Hl.
  { intros g b bs [Hin Hb%skipping_Ok]%encoded_elem. unfold sorted_bodies in Hin. rewrite sorted_iter in Hin.
    by apply elem_of_map_to_list in Hin. }
  destruct (first_failure (fun x : (Gid.TypeId * FnBody) * list Z => Forall readable (fb_hir x.1.2)) l)
    as [Hall|(pre & [[g b] bs] & post & El & Hpre & Hx)].
  - destruct Hr. intros g b Hin Hok. destruct (write_fn_body g b) as [bs|] eqn:E; [|done].
    apply (proj1 (Forall_forall _ _) Hall ((g, b), bs)). apply encoded_elem. split.
    + unfold sorted_bodies. rewrite sorted_iter. by apply elem_of_map_to_list.
    + unfold encode_body. cbn [fst snd]. by rewrite E.
  - destruct (Hl g b bs) as [Hin Hb]; [rewrite El; apply elem_of_app; right; apply list_elem_of_here|].
    destruct (Hf g b Hin) as [Hg Hbo]. destruct (Fails_fn_body n g b bs Hg Hbo Hx Hb) as (e & He & Hfail).
    exists e. split; [done|]. unfold read_table. eapply Fails_tail; [apply Codes_len; unfold len_ok|].
    { pose proof (encoded_skipped_length encode_body (sorted_bodies reg)) as Hlen. fold l in Hlen.
      unfold sorted_bodies in Hlen. rewrite (Permutation_length (sorted_iter _ _)), length_map_to_list in Hlen.
      unfold size_ok in Hsz. lia. }
    cbv beta. rewrite El in *. apply (Fails_for read_body snd (fun m x => <[x.1.1 := canon_body x.1.2]> m)).
    + intros [[g' b'] bs'] acc Hy. cbn [fst snd]. destruct (Hl g' b' bs') as [Hin' Hb']; [apply elem_of_app; by left|].
      destruct (Hf g' b' Hin') as [Hg' Hbo']. split; [by eapply write_fn_body_cons|]. unfold read_body.
      eapply Codes_last; [apply Codes_fn_body; [done|done| |done]|done]. by apply (proj1 (Forall_forall _ _) Hpre _ Hy).
    + intros acc. cbn [snd]. unfold read_body. rewrite <- (app_nil_r bs). by apply Fails_head.
Qed.

(** C29. One exported body is enough to make an artifact unreadable: if a body
    that the writer encodes contains an opcode that [from_u32] leaves out, then
    reading the artifact back fails with the bad-opcode error, whatever else the
    registry holds, although the export reported nothing wrong. *)
Theorem unreadable_artifact reg rest g b ins :
  reg_wf reg -> rg_bodies reg !! g = Some b -> is_ok (write_fn_body g b) = true ->
  ins ∈ fb_hir b -> hi_opcode ins ∈ unreadable ->
  exists op, op ∈ unreadable /\
    deserialize_registry_interface (serialize_registry_interface reg ++ rest) = ReadErr (BadOpcode (Opcode_as_u32 op)).
Proof.
  intros Hwf Hb Hok Hins Hop. set (n := S (length (serialize_registry_interface reg ++ rest))).
  assert (~ bodies_readable reg) as Hr.
  { intros Hr. apply (proj1 (Forall_forall _ _) (Hr g b Hb Hok) ins Hins). done. }
  destruct (Fails_bodies n reg Hwf Hr) as (e & (op & Hopn & ->) & Hfail). exists op. split; [done|].
  assert (Fails n read_interface (serialize_registry_interface reg) (BadOpcode (Opcode_as_u32 op))) as Hi;
    [|apply Hi; unfold n; lia].
  unfold serialize_registry_interface, serialize_registry_interface_reporting, read_interface.
  pose proof (Codes_fns n reg Hwf) as Hfn. pose proof (Codes_methods n reg Hwf) as Hme.
  destruct (emit_table "fn_sigs" _ _) as [fns r1], (emit_table "methods" _ _) as [meths r2],
    (emit_table "bodies" _ _) as [bodies r3], (emit_table "structs" _ _) as [structs r4].
  cbn [fst] in *. eapply Fails_tail; [by apply (Codes_take n VXLIB_MAGIC)|]. cbv beta.
  rewrite decide_False by (intros Hne; by apply Hne).
  eapply Fails_tail; [apply Codes_u64, format_stamp_range|]. cbv beta. rewrite Z.eqb_refl. cbn [negb].
  eapply Fails_tail; [by apply Codes_modules|]. eapply Fails_tail; [by apply Codes_layouts|].
  eapply Fails_tail; [exact Hfn|]. eapply Fails_tail; [exact Hme|]. by apply Fails_head.
Qed.
End opcodes.

(** ** Concrete artifacts *)

#[local] Existing Instance map_order.

Program Definition demo_sizes : ElemSizes := {| size_of := fun _ => 64 |}.
Next Obligation. done. Qed.
#[local] Existing Instance demo_sizes.

(** A module [m] with a struct, an enum, a function that takes a tensor on a GPU
    and a body with one instruction. *)
Definition demo_sig_gpu : FnSig :=
  mkFnSig (demo_id 7)
    [Tensor F32 [Dyn; Static (Number "16" None (mkSpan 3 4 2 0))]
       (Some (mkPlacement (GPU (Number "+1" None Span_default)) GpuHbm StatedDevice (Some 0)))]
    (Pointer (Scalar I32) None true) 1 false (Some LenOther).

Definition demo_module (op : Opcode) : ImmutableGlobalRegistry :=
  let L := {[demo_id 1 := demo_def 1 "Point" 8 []]} in
  mkRegistry (from_layouts L) L {[5 := {["Point"%string := demo_id 1]}]}
    (fresh_table {["f"%string := demo_sig_gpu]}) (fresh_table {[(demo_id 1, "len"%string) := demo_sig 8 (Scalar U64)]})
    {[demo_id 7 := mkFnBody "f" [Scalar I32] (Scalar I32) [mkHirInstruction op 1 2 0 0] [demo_id 1]]}
    (fresh_table {["Color"%string := ["Red"; "Green"]%string]})
    {[demo_id 1 := mkStructFields [] [("x", Scalar F64)]%string]} ∅ ∅ [] (name_index L).

Lemma singleton_ok {K V} `{Countable K} (k : K) (v : V) (P : K -> V -> Prop) :
  P k v -> size_ok ({[k := v]} : gmap K V) /\ map_Forall P ({[k := v]} : gmap K V).
Proof. intros HP. unfold size_ok. rewrite map_size_singleton, map_Forall_singleton. done. Qed.

(** The conditions on strings, numbers and lists are decided by evaluation. *)
Definition sym_okb (s : Symbol) : bool := utf8_ok (sym_bytes s) && (Z.of_nat (length (sym_bytes s)) <=? umax 64).

Lemma sym_okb_ok s : sym_okb s = true -> sym_ok s.
Proof. intros [Hu Hl%Z.leb_le]%andb_true_iff. done. Qed.

Lemma demo_id_wf n : 0 <= n <= 100 -> Gid.wf (demo_id n).
Proof. intros Hn. assert (100 <= umax 64) by done. split_and!; cbn; lia. Qed.

Ltac demo_ok :=
  repeat match goal with
  | |- _ /\ _ => split
  | |- True => exact I
  | |- sym_ok _ => apply sym_okb_ok; vm_compute; reflexivity
  | |- Gid.wf (demo_id _) => apply demo_id_wf; lia
  | |- Forall _ [] => apply List.Forall_nil
  | |- Forall _ (_ :: _) => apply List.Forall_cons
  | |- _ <= _ => vm_compute; discriminate
  | |- fnsig_ok _ => unfold fnsig_ok
  | |- body_ok _ => unfold body_ok
  | |- struct_ok _ => unfold struct_ok
  | |- enum_ok _ => unfold enum_ok
  | |- def_ok _ => unfold def_ok
  | |- hir_ok _ => unfold hir_ok
  | |- u64_ok _ => unfold u64_ok
  | |- len_ok _ => unfold len_ok
  | |- fits _ _ => unfold fits
  | |- dim_ok _ => unfold dim_ok
  | |- _ => progress cbn
  end.

Lemma demo_module_wf op : reg_wf (demo_module op).
Proof.
  split; apply singleton_ok.
  - split; [demo_ok|]. apply singleton_ok. demo_ok.
  - split; [done|demo_ok].
  - demo_ok.
  - demo_ok.
  - demo_ok.
  - demo_ok.
  - demo_ok.
Qed.

Lemma demo_module_readable : bodies_readable (demo_module OpAdd).
Proof.
  unfold bodies_readable. cbn [demo_module rg_bodies]. rewrite map_Forall_singleton. intros _.
  repeat constructor. unfold readable. cbn. by apply (bool_decide_unpack _).
Qed.



Lemma unreadable_artifact_witness : exists op, op ∈ unreadable /\
  deserialize_registry_interface (serialize_registry_interface (demo_module OpTaskJoin) ++ []) =
    ReadErr (BadOpcode (Opcode_as_u32 op)).
Proof.
  apply (unreadable_artifact (demo_module OpTaskJoin) [] (demo_id 7)
    (mkFnBody "f" [Scalar I32] (Scalar I32) [mkHirInstruction OpTaskJoin 1 2 0 0] [demo_id 1])
    (mkHirInstruction OpTaskJoin 1 2 0 0)).
  - apply demo_module_wf.
  - vm_compute. reflexivity.
  - vm_compute. reflexivity.
  - apply list_elem_of_here.
  - by apply (bool_decide_unpack _).
Defined.

(** The entries visited the other way round. *)
Program Definition reverse_order : HashOrder := {| iter := fun K _ _ V (m : gmap K V) => rev (map_to_list m) |}.
Next Obligation. intros. symmetry. apply Permutation_rev. Qed.

Lemma export_reproducible_witness :
  @serialize_registry_interface_reporting map_order (demo_module OpAdd) =
  @serialize_registry_interface_reporting reverse_order (demo_module OpAdd).
Proof. apply export_reproducible. cbn [demo_module rg_layouts]. by apply map_Forall_singleton. Defined.

(** The artifact up to the first layout's number of fields, which is corrupt. *)
Definition corrupt_artifact : list Z :=
  VXLIB_MAGIC ++ w_u64 format_stamp ++ w_u64 0 ++ w_u64 1 ++
  w_typeid (demo_id 1) ++ w_sym "Point" ++ w_u64 8 ++ w_u64 8 ++ w_u64 (2 ^ 63).

(** A corrupt count is not an error but a panic. *)
Lemma corrupt_count_panics : deserialize_registry_interface corrupt_artifact = ReadPanic CapacityOverflow.
Proof. vm_compute. reflexivity. Qed.
